(* ===== verification/_CoqProject ===== *)
-Q . S2P
Prelude.v
Utf8.v
BTree.v
Float.v
FloatOps.v
DType.v
Scalar.v
Tensor.v
Types.v
Fundamental.v
BoxSpace.v
BoxValue.v
Spaces.v
Walk.v
Sample.v
Builders.v
WireSpaces.v
Leaves.v
Edition.v
Info.v
Episode.v
EnvServer.v
Ledger.v
Session.v
Route.v
SessionSpec.v
Driver.v
DriverInv.v
DriverProgress.v
DriverServed.v
DriverRuns.v
AdapterValue.v
AdapterGeometry.v
AdapterPlans.v
AdapterImage.v
AdapterImageSpec.v
AdapterApply.v
AdapterApplySpec.v
AdapterHistory.v
AdapterHistorySpec.v
AdapterSpec.v
AdapterJoin.v
AdapterResolve.v
AdapterResolveSpec.v
AdapterResolved.v
AdapterTotal.v
FacadeError.v
Engine.v
EngineSpec.v
EngineFrames.v
EngineBudget.v
FacadeValue.v
FacadeValueSpec.v
LaneLayout.v
LaneLayoutSpec.v
SyncWire.v
SyncWireSpec.v
