(* ===== verification/Prelude.v ===== *)
(** * RLMesh: a verification development

    RLMesh connects reinforcement-learning environments to models over gRPC.  A
    _space_ describes observations and actions, a _value_ is a member of one; an
    _env server_ serves an environment of one or more lanes; a _runtime_ opens a
    session with an env and a model, resets and steps lanes, and accounts for the
    episodes they run.  This library models those parts of the Rust crates as
    executable functions and proves what they promise.

    ** Parts and files

    Shared foundations:
    - [Prelude]: [result] and [option] as Rust outcomes with their [let?], [let!],
      [let!?] notations, machine integers, little-endian bytes, slices, error
      messages as templates with arguments, and the library's tactics;
    - [Utf8], [BTree], [Float]: strings as bytes, ordered maps as sorted entry lists,
      IEEE-754 floats as bit patterns over [SpecFloat].

    Crate [rlmesh-spaces] (what values and spaces are):
    - [DType] ([dtype.rs], [tensor/dlpack.rs]), [Scalar] ([scalar.rs]),
      [Tensor] ([tensor.rs], [tensor/storage.rs]);
    - [Types] ([types.rs], [errors.rs], [meta.rs], [spaces/value.rs]);
    - [Fundamental] (Text, Discrete, MultiBinary, MultiDiscrete), [BoxSpace] and
      [BoxValue] (Box: bounds, validation, the block-wise conformance scan and the
      reference scan of [value_reference_tests.rs]), [Spaces] (Dict, Tuple,
      [validate_space], [conform], policies), [Walk] ([spaces/walk.rs]), [Sample]
      ([sample.rs]: drawing a member), [Builders].

    Crate [rlmesh-grpc], wire format:
    - [WireSpaces] ([wire/spaces.rs]) for specs, contracts and metadata;
      [Leaves] ([wire/value/]) for values, one byte string per leaf or one slab per
      leaf and batch.

    Crate [rlmesh-proto], the hand-written part of [lib.rs]:
    - [Edition]: edition names and their order, offers, the selection rule and the
      three-party session floor, generations, capabilities (and
      [rlmesh-grpc/src/floor.rs]);
    - [Info]: per-lane infos of a vector step and endpoint timing splits (and the
      batching of [rlmesh/src/env/lanes.rs]).

    Crate [rlmesh-grpc], env server:
    - [Episode] ([env/episode.rs]): the episode tracker;
    - [EnvServer] ([env/server.rs]): the handler of one request, for an arbitrary
      served env given by the class [Environment];
    - [Ledger]: the abstract contract of the handler, a transition system of lanes
      without maps or loops, and the refinement;
    - [Session]: [GrpcEnvServer::join] as a step relation, in which lane requests
      interleave at every point where the source awaits.

    Crate [rlmesh-runtime]:
    - [Route] ([state/route.rs], [state/types.rs], [episodes.rs]): the state of a
      route, every operation of [RouteState];
    - [SessionSpec] ([spec.rs], [hooks/relay.rs]): session specs, their validation,
      peer ceilings and the default relay policy;
    - [Driver] ([driver.rs]): the run loop over lane groups, in a monad over the
      driver's state, with [drives] and [route_run] the runs it can make against any
      endpoints; [DriverInv] is its invariant, [DriverProgress] that it never stalls,
      [DriverServed] its composition with the env server, [DriverRuns] single runs.

    Crate [rlmesh-adapters] (from an env's observation to a model's input, and back):
    - [FloatOps]: the float operations of the standard library the crate uses;
    - [AdapterValue] ([apply/value.rs], [apply/lookup.rs], [path.rs]): payload values,
      casts and the walk of a path;
    - [AdapterGeometry] ([apply/geometry.rs], [spec/rotations.rs],
      [spec/rotation_literal.rs]): rotation encodings;
    - [AdapterPlans] ([plans.rs], [plans/]): the resolved plans;
    - [AdapterImage], [AdapterImageSpec] ([apply/image.rs]): the image pipeline;
    - [AdapterApply], [AdapterApplySpec] ([apply.rs], [apply/obs.rs], [apply/state.rs],
      [apply/text.rs], [apply/action.rs]): the payload and the action vector;
    - [AdapterHistory], [AdapterHistorySpec] ([stateful.rs]): frame windows, step
      order and recorded actions per episode;
    - [AdapterSpec] ([roles/], [spec/]): the roles, the declarations of an env and a
      model with the rules their codec enforces, and the publish gates;
    - [AdapterJoin] ([space_view.rs], [join.rs]): an env's tags joined with its spaces;
    - [AdapterResolve] ([resolver.rs], [resolver/]): the features matched with a
      model's inputs and outputs into the plans; its lemmas are in
      [AdapterResolveSpec], what a resolved adapter guarantees in [AdapterResolved],
      and that resolution does not panic in [AdapterTotal].

    Crate [rlmesh], the facade:
    - [FacadeError] ([error.rs], [AttachedError] of [binding.rs]): the error taxonomy
      and the mapping of the errors of the layers below;
    - [Engine] ([model/engine.rs], [model/types.rs], [model/handler.rs],
      [model/predict_fn.rs]): a served model, from a predict request through its
      route's adapter and the model's corners to the frames the runtime replays, in a
      monad over the engine's state; routes are cells of a store, live while the routes
      map or a predict in flight names them.  [EngineSpec] has the predicts in flight
      interleaved with route setup as a step relation and what it keeps,
      [EngineFrames] the answers and the fused predicts, [EngineBudget] the
      frame-window budget;
    - [FacadeValue] ([value.rs], [value/space_codec.rs]): the values an env or a model of
      the facade sees and their conversions to and from members of a space;
      [FacadeValueSpec] relates the two ([reads]);
    - [LaneLayout] ([env/batch.rs], with the tensor operations of [ext.rs] and
      [tensor.rs]): the batched layout of a vector env, one-lane batches, lane 0 and
      render frames; [LaneLayoutSpec] says what a batch stands for ([batch]);
    - [SyncWire] ([value/meta_codec.rs], [env/single_lane.rs], [env/sync_wire.rs]): the
      envs of the user behind the wire's types, for arbitrary envs given by the classes
      [SyncEnv] and [VectorEnv], in a monad over the env's state; its theorems are in
      [SyncWireSpec].

    ** How the code is rendered

    Functions keep the source's names.  The workspace builds with overflow checks, so
    [None] stands for a panic: an overflow, an index out of range, a failed [expect];
    [Ok] and [Err] are [Result]'s.  A function that can do both returns
    [option (result A E)].  Integers are [Z] kept at their width by [checked],
    [wrap_u], [wrap_s]; floats are compared and added as IEEE-754 prescribes.
    [HashMap] and [HashSet] are [gmap] and [gset]; where the iteration order can be
    seen, it is the class [HashOrder].  Mutable state is passed explicitly.  Log lines
    are left out.

    What is not source under [src/] is a parameter: the [half] crate ([HalfOps] with
    [HalfLaws], instance [ieee_half]), the served environment ([Environment], instance
    [scripted_env]), the editions the build script fixes ([Build] with [BuildLaws],
    instances [release_build] and [dev_build]), the drain order of a hash map
    ([HashOrder] with [HashOrderLaws], instance [map_order]), allocator addresses and
    the clocks, which are arguments, the trigonometry of the platform ([Libm],
    instance [no_libm]; [Ln]), the generator of the rand crate ([Rng] with [RngLaws],
    instance [counter]), the image and jpeg crates ([ImageCodec] with
    [ImageCodecLaws], instance [no_codec]), the endpoints and the setup of a driver's
    run ([Setup]), the model behind an engine ([Host] with [LaneWise], instance
    [sample_host]), the envs of the facade ([SyncEnv], which [single_lane] makes of a
    [VectorEnv], instance [adder]), the PNG encoder, the host's callbacks and the text a message renders to (by which
    resolution sorts its advisories), which are arguments.  Each theorem that uses
    such a law has a witness at a concrete instance.

    Recursion is structural on the data, and the loops over indices (the odometer of
    [to_contiguous_bytes], the block scans) recur on a list or a count the source
    computes.  Only the walk from an error class to its bases has fuel, the depth of
    the class, which is enough by [is_subclass_of_iff].

    ** What the theorems show

    - Conformance: the optimised Box check agrees with the reference, message
      included, and the check of a whole value classifies it exactly
      ([conform_box_reference], [conform_classifies], [conform_box_verdict],
      [policy_outcomes]); validation answers on every spec and accepts exactly the
      well-formed ones ([validate_space_total], [valid_box_bounds],
      [validate_dict_exact], [builders_valid]); a sample of a space whose bounds can be
      drawn is a member by the same check ([sample_conforms]).
    - Wire: values, batches, specs, contracts and lane infos survive a round trip, and
      decoding what an arbitrary peer sends never panics and yields only well-formed
      data ([value_roundtrip], [batch_roundtrip], [spec_wire_roundtrip],
      [contract_roundtrip], [lane_info_roundtrip], [value_decode_safe],
      [batch_decode_safe], [spec_decode_safe], [flatten_assemble],
      [assemble_flatten], [scalars_roundtrip]).
    - Tensors and scalars: contiguous bytes are row-major, reshape and unstack keep
      the elements, construction accepts exactly the layouts inside the storage,
      comparison is exact ([contiguous_bytes_row_major], [reshape_preserves_elements],
      [unstack_stack], [from_storage_exact], [cmp_typed_exact]).
    - Negotiation: the selected edition is the greatest mutually acceptable one, the
      session floor's diagnosis is exact, and a declaration is accepted exactly when
      usable ([select_greatest_mutual], [session_floor_exact],
      [declaration_accepted_iff_usable]).
    - Env server: the handler refines the lane contract for every env and every
      request sequence and never panics; a session answers each request once, settles
      every episode once, and shuts down in bounded steps under every interleaving
      ([handler_refines_ledger], [handler_never_panics], [session_settles],
      [shutdown_completes]).
    - Runtime: claims fill the budget exactly, trial ordinals are contiguous, records
      are stable, every predicted episode is ended once on the model, validation and
      the relay verdict are exact ([claims_fill_budget], [trial_ordinals_contiguous],
      [registry_idempotent], [episodes_end_once], [validate_exact],
      [relay_verdict_exact]).
    - Driver: a run that is not done always leaves an operation in flight, no lane is
      under two env operations, and every request it sends is served by a server of
      the same session ([route_never_stalls], [lanes_exclusive], [requests_served]).
    - Adapters, images: whatever the frame, the produced tensor has the plan's dtype,
      size and layout; the fused camera path, the lookup tables and the memo of filter
      weights change nothing; transposing is undone by transposing back
      ([apply_image_typed], [camera_fast_path_generic], [table_path_generic],
      [weight_memo_transparent], [layout_roundtrip]).
    - Adapters, payload and action: an observation is read only through the
      referenced keys, rotations convert totally and agree whatever the order of their
      components ([referenced_keys_suffice], [convert_rotation_total],
      [order_encodings_agree]).
    - Adapters, resolution: between declarations their codecs admit, resolution
      returns; what it resolves to places every input where the model's tree has it,
      produces actions that fit the env's action space, and holds bounded windows; no
      leaf is bound by a guess and no camera is scaled up or distorted without leave
      ([resolve_total], [resolved_payload_reads_back], [resolved_action_fits],
      [resolved_windows_bounded], [binding_never_guesses], [camera_fit_sound]).  The
      bound of 2^20 on image sides keeps the bytes of a frame inside [u64].
    - Adapters, history: a window holds the frames its offsets name, a replayed step
      leaves the windows a predicted one does, steps are consecutive, the action read
      back is the one recorded, episodes do not affect one another
      ([window_gathers_recent], [observe_matches_assemble],
      [advance_step_consecutive], [previous_action_refines], [episodes_isolated]).
    - Model engine: under every interleaving of predicts with resolves, resets,
      releases and closes the endpoint's totals are those of its live routes, a route
      lives while it is named, and every live route passed the doors
      ([held_state_exact], [live_routes_configured]); the windows stay within the
      endpoint's budget on the interleavings [calm] describes ([frame_budget_kept]);
      an answered predict has one action per lane and fewer replay frames than its
      horizon ([predict_answers_every_lane]); a fused predict gives each group what
      its own predict would have ([fused_is_separate], with [buckets_aligned]).
      Admission and assembly are one step under the lock of a route; the source notes
      that two routes admitting at the same instant each see the other's old share.
    - Errors: the class order is that of the bases, a failure a lower layer calls
      recoverable is transient, and attaching a host exception changes nothing else
      ([is_subclass_of_iff], [grpc_recoverable_transient], [attach_transparent]).

    - Facade values and envs: members convert to facade values and back, lanes stack into
      batches and split again, metadata survives the wire ([facade_value_roundtrip],
      [lanes_roundtrip], [single_lane_roundtrip], [meta_wire_roundtrip],
      [tensor_to_wire_order], [chw_to_hwc_spec]); a served vector env is given exactly the
      members a request carries and its lanes are carried back, and one of a single lane
      answers alike served as a scalar env ([served_step_exact], [one_lane_alike]).  The
      spaces are those whose arrays can be allocated for all the lanes ([roomy]); in the
      lane theorems Box spaces have at least one element ([solid]).

    Behaviours of the code that its documentation or comments do not promise are
    theorems as well: [f64_to_f16_bits_double_rounds], [zero_element_strides_panic],
    [bool_box_wire_rejected], [batch_encode_panics], [fold_phases_skew_differs],
    [panic_leaks_session], [timeout_desyncs_tracker], [trial_ordinals_repeat],
    [lane_start_reports_row], [nan_cap_validates], [predict_follows_eviction],
    [plan_crosses_episodes], [repeated_plan_panics], [peer_timestamps_panic],
    [quaternion_literal_not_checked], [crop_box_changes_aspect],
    [crop_of_unknown_camera_refused], [resolve_arithmetic_overflows],
    [absent_camera_dtype_not_checked], [sample_rounds_out_of_float32_box],
    [sample_wraps_out_of_uint8_box], [sample_multibinary_overflows],
    [sample_wide_box_panics], [history_rows_escape_budget],
    [late_finish_reopens_episode], [spec_less_keeps_adapter],
    [apply_failure_is_value_error], [huge_space_panics], [ragged_frames_accepted],
    [one_lane_discrete_is_list].

    ** Not modelled

    Transport and processes (tonic channels, dialing, health checks, the CLI, the
    sandbox and the viewer) are input and output.  Protobuf serialization is
    generated code; its messages are inductive types here.  Of the driver, hooks are
    the events they receive and telemetry is left out; of the engine, the timing
    counter and the thread pool, whose groups name distinct routes.  Display, the JSON
    forms of adapter specs (the serde visitors of [spec/], [space_json.rs],
    [envelope.rs]) and the texts about them ([describe.rs], [fmt.rs]), the facade's
    clients and servers, the mailbox of the thread that owns an env, and the C API wrap or extend the parts above and are not
    modelled. *)

From stdpp Require Export base list strings gmap pretty.
From coqutil Require Export Byte Word.LittleEndianList.
From Stdlib Require Export ZArith Lia Permutation.

#[global] Open Scope Z_scope.

(** ** Rust outcomes

    [result A E] is Rust's [Result<A, E>].  A computation that can also panic
    (an index out of range, an overflow: the workspace builds with
    [overflow-checks = true] in every profile) is an [option], [None] being
    the panic; it is written [option (result A E)] when it can do both. *)

Inductive result (A E : Type) : Type :=
| Ok (a : A)
| Err (e : E).
Arguments Ok {A E} a.
Arguments Err {A E} e.

Declare Scope rust_scope.
Delimit Scope rust_scope with rust.
#[global] Open Scope rust_scope.

(** The [?] operator. *)
Notation "'let?' x ':=' c 'in' k" :=
  (match c with Ok x => k | Err e => Err e end)
  (at level 10, x pattern, c at level 100, k at level 200,
   format "'[v' 'let?'  x  ':='  c  'in' '/' k ']'") : rust_scope.

(** Sequencing of a computation that may panic. *)
Notation "'let!' x ':=' c 'in' k" :=
  (match c with Some x => k | None => None end)
  (at level 10, x pattern, c at level 100, k at level 200,
   format "'[v' 'let!'  x  ':='  c  'in' '/' k ']'") : rust_scope.

(** [?] inside a computation that may panic. *)
Notation "'let!?' x ':=' c 'in' k" :=
  (match c with
   | Some (Ok x) => k
   | Some (Err e) => Some (Err e)
   | None => None
   end)
  (at level 10, x pattern, c at level 100, k at level 200,
   format "'[v' 'let!?'  x  ':='  c  'in' '/' k ']'") : rust_scope.

Section Results.
Context {A B E F : Type}.

Definition is_ok (r : result A E) : bool :=
  match r with Ok _ => true | Err _ => false end.

Definition map_err (f : E -> F) (r : result A E) : result A F :=
  match r with Ok a => Ok a | Err e => Err (f e) end.

(** [Option::ok_or] / [ok_or_else]. *)
Definition ok_or (o : option A) (e : E) : result A E :=
  match o with Some a => Ok a | None => Err e end.

(** [Result::ok]. *)
Definition result_ok (r : result A E) : option A :=
  match r with Ok a => Some a | Err _ => None end.

(** [iter.map(f).collect::<Result<Vec<_>, _>>()]: left to right, the first
    error stops the iteration. *)
Fixpoint collect_results (f : A -> result B E) (l : list A) : result (list B) E :=
  match l with
  | [] => Ok []
  | x :: l =>
      let? y := f x in
      let? ys := collect_results f l in
      Ok (y :: ys)
  end.

(** [for x in l { f(x)?; }] with the index of [enumerate]. *)
Fixpoint try_for_each (f : nat -> A -> result unit E) (i : nat) (l : list A)
    : result unit E :=
  match l with
  | [] => Ok tt
  | x :: l =>
      let? _ := f i x in
      try_for_each f (S i) l
  end.

Lemma collect_results_Ok f (l : list A) ys :
  collect_results f l = Ok ys <-> Forall2 (fun x y => f x = Ok y) l ys.
Proof.
  revert ys; induction l as [|x l IH]; intros ys; simpl.
  - split; [intros [= <-]; constructor | inversion 1; done].
  - destruct (f x) as [y|e] eqn:Hx.
    + destruct (collect_results f l) as [ys'|e] eqn:Hl.
      * split.
        -- intros [= <-]. constructor; [done|]. by apply IH.
        -- inversion 1 as [|???? H1 H2]; subst. apply IH in H2. congruence.
      * split; [done|].
        inversion 1 as [|???? H1 H2]; subst. apply IH in H2. congruence.
    + split; [done|]. inversion 1; congruence.
Qed.

Lemma try_for_each_Ok f i (l : list A) :
  try_for_each f i l = Ok tt <->
  forall k x, l !! k = Some x -> f (i + k)%nat x = Ok tt.
Proof.
  revert i; induction l as [|x l IH]; intros i; simpl.
  - split; [intros _ k y; rewrite lookup_nil; done | done].
  - destruct (f i x) as [[]|e] eqn:Hx.
    + rewrite IH. split.
      * intros H [|k] y; simpl.
        -- intros [= <-]. by rewrite Nat.add_0_r.
        -- intros Hk. rewrite Nat.add_succ_r. by apply (H k).
      * intros H k y Hk. specialize (H (S k) y Hk).
        by rewrite Nat.add_succ_r in H.
    + split; [done|]. intros H. specialize (H 0%nat x eq_refl).
      rewrite Nat.add_0_r in H. congruence.
Qed.
End Results.

#[export] Instance result_eq_dec {A E} `{EqDecision A, EqDecision E} :
  EqDecision (result A E).
Proof. solve_decision. Defined.

(** ** Machine integers

    A [w]-bit integer is a [Z]; every wrap-around, saturation and overflow
    check the code performs is written out with the functions below. *)

Definition i32_min : Z := - 2 ^ 31.
Definition i32_max : Z := 2 ^ 31 - 1.
Definition u32_max : Z := 2 ^ 32 - 1.
Definition i64_min : Z := - 2 ^ 63.
Definition i64_max : Z := 2 ^ 63 - 1.
Definition u64_max : Z := 2 ^ 64 - 1.
Definition i128_min : Z := - 2 ^ 127.
Definition i128_max : Z := 2 ^ 127 - 1.
(** The supported targets are 64-bit, so [usize] is a 64-bit word. *)
Definition usize_max : Z := 2 ^ 64 - 1.
Definition isize_max : Z := 2 ^ 63 - 1.

Definition within (lo hi z : Z) : bool := (lo <=? z) && (z <=? hi).

(** [checked_add], [checked_mul], [try_from]: [None] out of range. *)
Definition checked (lo hi z : Z) : option Z :=
  if within lo hi z then Some z else None.

Definition checked_usize : Z -> option Z := checked 0 usize_max.
Definition checked_i64 : Z -> option Z := checked i64_min i64_max.

(** [as uN] and [as iN] between integers: two's-complement truncation. *)
Definition wrap_u (w z : Z) : Z := z mod 2 ^ w.
Definition wrap_s (w z : Z) : Z := (z + 2 ^ (w - 1)) mod 2 ^ w - 2 ^ (w - 1).

(** Clamping to a range, as [clamp] and the float-to-integer casts do. *)
Definition saturate (lo hi z : Z) : Z := Z.max lo (Z.min hi z).

Ltac unfold_ints :=
  unfold i32_min, i32_max, u32_max, i64_min, i64_max, u64_max, i128_min,
    i128_max, usize_max, isize_max in *.

Lemma within_spec lo hi z : within lo hi z = true <-> lo <= z <= hi.
Proof. unfold within. rewrite andb_true_iff, !Z.leb_le. done. Qed.

Lemma within_false lo hi z : within lo hi z = false <-> ~ lo <= z <= hi.
Proof. rewrite <- within_spec. by destruct (within lo hi z). Qed.

Lemma checked_Some lo hi z r : checked lo hi z = Some r <-> r = z /\ lo <= z <= hi.
Proof.
  unfold checked. destruct (within lo hi z) eqn:E.
  - apply within_spec in E. naive_solver.
  - apply within_false in E. naive_solver.
Qed.

Lemma checked_None lo hi z : checked lo hi z = None <-> ~ lo <= z <= hi.
Proof.
  unfold checked. destruct (within lo hi z) eqn:E.
  - apply within_spec in E. naive_solver.
  - apply within_false in E. naive_solver.
Qed.

Lemma checked_in lo hi z : lo <= z <= hi -> checked lo hi z = Some z.
Proof. intros H. by apply checked_Some. Qed.

Lemma saturate_range lo hi z : lo <= hi -> lo <= saturate lo hi z <= hi.
Proof. unfold saturate. lia. Qed.

Lemma saturate_id lo hi z : lo <= z <= hi -> saturate lo hi z = z.
Proof. unfold saturate. lia. Qed.

Lemma wrap_u_range w z : 0 <= w -> 0 <= wrap_u w z < 2 ^ w.
Proof. intros. apply Z.mod_pos_bound. by apply Z.pow_pos_nonneg. Qed.

Lemma wrap_u_id w z : 0 <= z < 2 ^ w -> wrap_u w z = z.
Proof. apply Z.mod_small. Qed.

Lemma pow2_half w : 0 < w -> 2 ^ w = 2 * 2 ^ (w - 1).
Proof. intros. replace w with (Z.succ (w - 1)) at 1 by lia. apply Z.pow_succ_r. lia. Qed.

Lemma wrap_s_range w z : 0 < w -> - 2 ^ (w - 1) <= wrap_s w z < 2 ^ (w - 1).
Proof.
  intros Hw. unfold wrap_s. pose proof (pow2_half w Hw).
  pose proof (Z.mod_pos_bound (z + 2 ^ (w - 1)) (2 ^ w)).
  assert (0 < 2 ^ (w - 1)) by (apply Z.pow_pos_nonneg; lia). lia.
Qed.

Lemma wrap_s_id w z :
  0 < w -> - 2 ^ (w - 1) <= z < 2 ^ (w - 1) -> wrap_s w z = z.
Proof.
  intros Hw Hz. unfold wrap_s. pose proof (pow2_half w Hw).
  rewrite Z.mod_small; lia.
Qed.

(** Truncating to the unsigned word first does not change the signed one:
    [x as uN as iN = x as iN]. *)
Lemma wrap_s_wrap_u w z : 0 < w -> wrap_s w (wrap_u w z) = wrap_s w z.
Proof.
  intros Hw. unfold wrap_s, wrap_u. rewrite Zplus_mod_idemp_l. done.
Qed.

Lemma wrap_u_wrap_s w z : 0 < w -> wrap_u w (wrap_s w z) = wrap_u w z.
Proof.
  intros Hw. unfold wrap_s, wrap_u. rewrite Zminus_mod_idemp_l. f_equal. lia.
Qed.

(** ** Little-endian bytes

    [to_le_bytes] of an [n]-byte integer, signed or not, is coqutil's
    [le_split n]; [from_le_bytes] is [le_combine] for an unsigned type and
    its sign reinterpretation for a signed one. *)

#[export] Instance byte_eq_dec : EqDecision byte := Byte.byte_eq_dec.

Definition from_le_s (bs : list byte) : Z :=
  wrap_s (8 * Z.of_nat (length bs)) (le_combine bs).

Lemma le_split_unsigned n z :
  0 <= z < 2 ^ (8 * Z.of_nat n) -> le_combine (le_split n z) = z.
Proof.
  intros. rewrite le_combine_split. rewrite Z.mul_comm. by apply Z.mod_small.
Qed.

Lemma le_split_signed n z :
  (0 < n)%nat ->
  - 2 ^ (8 * Z.of_nat n - 1) <= z < 2 ^ (8 * Z.of_nat n - 1) ->
  from_le_s (le_split n z) = z.
Proof.
  intros Hn Hz. unfold from_le_s. rewrite length_le_split, le_combine_split.
  rewrite (Z.mul_comm _ 8). fold (wrap_u (8 * Z.of_nat n) z).
  rewrite wrap_s_wrap_u by lia. apply wrap_s_id; lia.
Qed.

Lemma from_le_s_range bs :
  bs <> [] ->
  - 2 ^ (8 * Z.of_nat (length bs) - 1) <= from_le_s bs
    < 2 ^ (8 * Z.of_nat (length bs) - 1).
Proof. intros H. apply wrap_s_range. destruct bs; simpl; [done | lia]. Qed.

(** Re-encoding what was read gives the bytes back, for both readings. *)
Lemma le_split_combine_id bs n : length bs = n -> le_split n (le_combine bs) = bs.
Proof. apply split_le_combine'. Qed.

Lemma le_split_from_le_s bs n : length bs = n -> le_split n (from_le_s bs) = bs.
Proof.
  intros <-. destruct bs as [|b bs']; [done|]. set (bs := b :: bs').
  unfold from_le_s. rewrite le_split_mod.
  rewrite (Z.mul_comm _ 8). fold (wrap_u (8 * Z.of_nat (length bs))
    (wrap_s (8 * Z.of_nat (length bs)) (le_combine bs))).
  rewrite wrap_u_wrap_s by (subst bs; simpl; lia).
  rewrite wrap_u_id by apply le_combine_bound. apply split_le_combine.
Qed.

(** ** Slices *)

Section Slices.
Context {A : Type}.

(** [k] consecutive pieces of [n] elements. *)
Fixpoint split_n (k n : nat) (l : list A) : list (list A) :=
  match k with
  | O => []
  | S k => take n l :: split_n k n (drop n l)
  end.

(** [chunks_exact(n)] and [as_chunks::<N>().0]: the whole pieces only. *)
Definition chunks_exact (n : nat) (l : list A) : list (list A) :=
  split_n (length l / n) n l.

(** [chunks(n)]: the last piece may be shorter. *)
Definition chunks (n : nat) (l : list A) : list (list A) :=
  split_n ((length l + (n - 1)) / n) n l.

Lemma length_split_n k n l : length (split_n k n l) = k.
Proof. revert l; induction k; intros l; simpl; auto. Qed.

Lemma split_n_lookup k n l i :
  (i < k)%nat -> split_n k n l !! i = Some (take n (drop (i * n) l)).
Proof.
  revert l i; induction k as [|k IH]; intros l i Hi; [lia|].
  destruct i as [|i]; simpl; [by rewrite drop_0|].
  rewrite IH by lia. rewrite drop_drop. done.
Qed.

Lemma concat_split_n k n l : concat (split_n k n l) = take (k * n) l.
Proof.
  revert l; induction k as [|k IH]; intros l; simpl; [by rewrite take_0|].
  rewrite IH. by rewrite take_take_drop.
Qed.

Lemma Forall_split_n k n l :
  (k * n <= length l)%nat -> Forall (fun c => length c = n) (split_n k n l).
Proof.
  revert l; induction k as [|k IH]; intros l H; simpl in *; [constructor|].
  constructor; [rewrite length_take; lia|].
  apply IH. rewrite length_drop. lia.
Qed.

Lemma split_n_concat n (ls : list (list A)) :
  Forall (fun c => length c = n) ls -> split_n (length ls) n (concat ls) = ls.
Proof.
  induction 1 as [|c ls Hc _ IH]; simpl; [done|].
  rewrite <- Hc, take_app_length, drop_app_length. rewrite Hc. by rewrite IH.
Qed.

Lemma length_concat_uniform n (ls : list (list A)) :
  Forall (fun c => length c = n) ls -> length (concat ls) = (length ls * n)%nat.
Proof. induction 1 as [|c ls Hc _ IH]; simpl; [done|]. rewrite length_app. lia. Qed.

Lemma chunks_exact_Forall n l : Forall (fun c => length c = n) (chunks_exact n l).
Proof. apply Forall_split_n. rewrite Nat.mul_comm. apply Nat.Div0.mul_div_le. Qed.

Lemma length_chunks_exact n l : length (chunks_exact n l) = (length l / n)%nat.
Proof. apply length_split_n. Qed.

Lemma chunks_exact_concat n ls :
  (0 < n)%nat -> Forall (fun c => length c = n) ls -> chunks_exact n (concat ls) = ls.
Proof.
  intros Hn H. unfold chunks_exact. rewrite (length_concat_uniform n ls H).
  rewrite Nat.div_mul by lia. by apply split_n_concat.
Qed.

Lemma concat_chunks_exact n l :
  (0 < n)%nat -> Nat.modulo (length l) n = 0%nat -> concat (chunks_exact n l) = l.
Proof.
  intros Hn Hm. unfold chunks_exact. rewrite concat_split_n.
  rewrite take_ge; [done|].
  pose proof (Nat.div_mod_eq (length l) n). lia.
Qed.

Lemma ceil_div_mul (n k : nat) : (0 < n)%nat -> (k <= (k + (n - 1)) / n * n)%nat.
Proof.
  intros Hn. pose proof (Nat.div_mod (k + (n - 1)) n ltac:(lia)) as He.
  pose proof (Nat.mod_upper_bound (k + (n - 1)) n ltac:(lia)). lia.
Qed.

Lemma concat_chunks n l : (0 < n)%nat -> concat (chunks n l) = l.
Proof.
  intros Hn. unfold chunks. rewrite concat_split_n, take_ge; [done|].
  pose proof (Nat.div_mod_eq (length l + (n - 1)) n).
  pose proof (Nat.mod_upper_bound (length l + (n - 1)) n). lia.
Qed.
End Slices.

Lemma Forall2_and_l {A B} (P : A -> Prop) (R : A -> B -> Prop) l k :
  Forall P l -> Forall2 R l k -> Forall2 (fun x y => P x /\ R x y) l k.
Proof. intros Hl H. induction H; apply Forall_cons in Hl as [? Hl] || idtac; constructor; auto. Qed.

Lemma existsb_false_Forall {A} (f : A -> bool) l :
  existsb f l = false <-> Forall (fun x => f x = false) l.
Proof.
  induction l as [|x l IH]; cbn [existsb]; [by split; [constructor|]|].
  by rewrite orb_false_iff, Forall_cons, IH.
Qed.

(** [&l[start..end]] with [usize] bounds: out of range panics. *)
Definition slice {A} (l : list A) (start stop : Z) : option (list A) :=
  if (0 <=? start) && (start <=? stop) && (stop <=? Z.of_nat (length l))
  then Some (take (Z.to_nat (stop - start)) (drop (Z.to_nat start) l))
  else None.

Lemma slice_Some {A} (l : list A) start stop :
  0 <= start <= stop -> stop <= Z.of_nat (length l) ->
  slice l start stop = Some (take (Z.to_nat (stop - start)) (drop (Z.to_nat start) l)).
Proof.
  intros H1 H2. unfold slice.
  by rewrite (proj2 (Z.leb_le 0 start)), (proj2 (Z.leb_le start stop)),
    (proj2 (Z.leb_le stop _)) by lia.
Qed.

(** [Vec::with_capacity] panics above the largest allocation. *)
Definition with_capacity (bytes : Z) : option unit :=
  if bytes <=? isize_max then Some tt else None.

(** ** Error messages

    A message is kept as its [format!] string and the arguments it is given,
    so no rendering (of floats, in particular) is modelled. *)

Inductive arg : Type :=
| ANat (n : nat)
| AZ (z : Z)
| AZs (l : list Z)
| AStr (s : string)
| AChar (c : Z)
| AF64 (bits : Z)
| AMsg (template : string) (args : list arg).

Record message : Type := Msg { template : string; args : list arg }.

Definition lit (s : string) : message := Msg s [].
Definition nested (m : message) : arg := AMsg (template m) (args m).

(** ** Automation *)

(** Case analysis on every match of the goal and hypotheses, closing the
    contradictory branches. *)
Ltac split_matches := repeat (case_match; simplify_eq/=).

(** Reflect the integer comparisons of a boolean hypothesis or goal. *)
Ltac reflect_Z :=
  repeat match goal with
  | H : (_ <? _) = true |- _ => apply Z.ltb_lt in H
  | H : (_ <? _) = false |- _ => apply Z.ltb_ge in H
  | H : (_ <=? _) = true |- _ => apply Z.leb_le in H
  | H : (_ <=? _) = false |- _ => apply Z.leb_gt in H
  | H : (_ =? _) = true |- _ => apply Z.eqb_eq in H
  | H : (_ =? _) = false |- _ => apply Z.eqb_neq in H
  | H : (_ && _) = true |- _ => apply andb_true_iff in H as [? ?]
  | H : (_ || _) = false |- _ => apply orb_false_iff in H as [? ?]
  | H : negb _ = true |- _ => apply negb_true_iff in H
  | H : negb _ = false |- _ => apply negb_false_iff in H
  end.

(** Permutations of appended lists, from the ones among the hypotheses, by counting. *)
Ltac solve_perm :=
  match goal with
  | |- @Permutation ?A ?l ?k =>
      apply (proj2 (Permutation_count_occ (fun a b : A => decide (a = b)) l k));
      let x := fresh "x" in intros x;
      repeat match goal with
      | H : @Permutation A ?l1 ?l2 |- _ =>
          let Hc := fresh in
          pose proof (proj1 (Permutation_count_occ (fun a b : A => decide (a = b)) l1 l2) H x) as Hc;
          clear H
      end;
      rewrite ?count_occ_app in *; cbn [count_occ] in *;
      repeat match goal with
      | |- context [decide (?a = x)] =>
          let d := fresh in set (d := decide (a = x)) in *; clearbody d; destruct d
      | _ : context [decide (?a = x)] |- _ =>
          let d := fresh in set (d := decide (a = x)) in *; clearbody d; destruct d
      end; lia
  end.

Create HintDb rlmesh discriminated.
#[export] Hint Resolve wrap_u_range wrap_s_range saturate_range : rlmesh.
