(* ===== verification/Utf8.v ===== *)
(** * UTF-8

    Strings are lists of characters, a character being its code point; their
    bytes are what [str::as_bytes] gives, and [from_utf8] is
    [std::str::from_utf8]: it accepts exactly the shortest encodings of Unicode
    scalar values. *)

From S2P Require Import Prelude.
#[local] Open Scope string_scope.
#[local] Open Scope Z_scope.

(** A Unicode scalar value: what a Rust [char] may be. *)
Definition is_char (c : Z) : Prop := 0 <= c < 55296 \/ 57344 <= c <= 1114111.

Definition is_charb (c : Z) : bool := within 0 55295 c || within 57344 1114111 c.

(** A continuation byte carrying the low six bits of [z]. *)
Definition tail (z : Z) : byte := byte.of_Z (128 + z mod 64).

Definition encode_char (c : Z) : list byte :=
  if c <? 128 then [byte.of_Z c]
  else if c <? 2048 then [byte.of_Z (192 + c / 64); tail c]
  else if c <? 65536 then [byte.of_Z (224 + c / 4096); tail (c / 64); tail c]
  else [byte.of_Z (240 + c / 262144); tail (c / 4096); tail (c / 64); tail c].

(** [str::as_bytes]. *)
Definition as_bytes (s : list Z) : list byte := concat (encode_char <$> s).

Record Utf8Error : Type := { valid_up_to : nat; error_len : option nat }.

Definition utf8_error_message (e : Utf8Error) : message :=
  match error_len e with
  | Some n => Msg "invalid utf-8 sequence of {} bytes from index {}" [ANat n; ANat (valid_up_to e)]
  | None => Msg "incomplete utf-8 byte sequence from index {}" [ANat (valid_up_to e)]
  end.

Definition in_range (lo hi : Z) (b : byte) : bool := within lo hi (byte.unsigned b).

(** The range of the second byte of a sequence of three or four that starts with
    the given byte. *)
Definition second_range (first : Z) : Z * Z :=
  if first =? 224 then (160, 191)
  else if first =? 237 then (128, 159)
  else if first =? 240 then (144, 191)
  else if first =? 244 then (128, 143)
  else (128, 191).

(** One character at the front: its code point and the bytes after it, or the
    length of the invalid prefix ([None] at the end of the input). *)
Definition decode_char (b : byte) (rest : list byte) : result (Z * list byte) (option nat) :=
  let first := byte.unsigned b in
  let value b := byte.unsigned b - 128 in
  let '(lo, hi) := second_range first in
  if first <? 128 then Ok (first, rest)
  else if within 194 223 first then
    match rest with
    | b1 :: rest =>
        if in_range 128 191 b1 then Ok ((first - 192) * 64 + value b1, rest) else Err (Some 1%nat)
    | [] => Err None
    end
  else if within 224 239 first then
    match rest with
    | b1 :: rest =>
        if negb (in_range lo hi b1) then Err (Some 1%nat)
        else
          match rest with
          | b2 :: rest =>
              if in_range 128 191 b2
              then Ok ((first - 224) * 4096 + value b1 * 64 + value b2, rest)
              else Err (Some 2%nat)
          | [] => Err None
          end
    | [] => Err None
    end
  else if within 240 244 first then
    match rest with
    | b1 :: rest =>
        if negb (in_range lo hi b1) then Err (Some 1%nat)
        else
          match rest with
          | b2 :: rest =>
              if negb (in_range 128 191 b2) then Err (Some 2%nat)
              else
                match rest with
                | b3 :: rest =>
                    if in_range 128 191 b3
                    then Ok ((first - 240) * 262144 + value b1 * 4096 + value b2 * 64 + value b3, rest)
                    else Err (Some 3%nat)
                | [] => Err None
                end
          | [] => Err None
          end
    | [] => Err None
    end
  else Err (Some 1%nat).

(** Each character takes a byte at least, so the length of the input is enough
    fuel. *)
Fixpoint from_utf8_loop (fuel : nat) (index : nat) (bytes : list byte) : result (list Z) Utf8Error :=
  match fuel, bytes with
  | _, [] => Ok []
  | O, _ => Ok []
  | S fuel, b :: rest =>
      match decode_char b rest with
      | Err len => Err {| valid_up_to := index; error_len := len |}
      | Ok (c, rest') =>
          let? s := from_utf8_loop fuel (index + (length bytes - length rest')) rest' in
          Ok (c :: s)
      end
  end.

Definition from_utf8 (bytes : list byte) : result (list Z) Utf8Error :=
  from_utf8_loop (length bytes) 0 bytes.

(** ** Round trips *)

Lemma byte_of_Z_unsigned z : 0 <= z < 256 -> byte.unsigned (byte.of_Z z) = z.
Proof. intros Hz. rewrite byte.unsigned_of_Z. by apply Z.mod_small. Qed.

Lemma tail_unsigned z : byte.unsigned (tail z) = 128 + z mod 64.
Proof. unfold tail. apply byte_of_Z_unsigned. pose proof (Z.mod_pos_bound z 64). lia. Qed.

Lemma tail_in_range z : in_range 128 191 (tail z) = true.
Proof.
  unfold in_range. rewrite tail_unsigned. apply within_spec. pose proof (Z.mod_pos_bound z 64). lia.
Qed.

(** The second byte of an encoding is in the range its first byte asks for. *)
Lemma second_range_spec first x lo hi :
  second_range first = (lo, hi) -> 128 <= x <= 191 ->
  (first = 224 -> 160 <= x) -> (first = 237 -> x <= 159) ->
  (first = 240 -> 144 <= x) -> (first = 244 -> x <= 143) -> lo <= x <= hi.
Proof.
  unfold second_range. intros Hr Hx H1 H2 H3 H4.
  destruct (Z.eqb_spec first 224); [injection Hr as <- <-; lia|].
  destruct (Z.eqb_spec first 237); [injection Hr as <- <-; lia|].
  destruct (Z.eqb_spec first 240); [injection Hr as <- <-; lia|].
  destruct (Z.eqb_spec first 244); injection Hr as <- <-; lia.
Qed.

Lemma in_range_spec lo hi b : in_range lo hi b = true <-> lo <= byte.unsigned b <= hi.
Proof. apply within_spec. Qed.

Ltac char_arith := Z.div_mod_to_equations; lia.

(** The four lengths of an encoding. *)
Lemma decode_two c rest :
  128 <= c < 2048 -> decode_char (byte.of_Z (192 + c / 64)) (tail c :: rest) = Ok (c, rest).
Proof.
  intros Hc. unfold decode_char. rewrite byte_of_Z_unsigned by char_arith.
  destruct (second_range _) as [lo hi].
  destruct (Z.ltb_spec (192 + c / 64) 128); [char_arith|].
  rewrite (proj2 (within_spec 194 223 _)) by char_arith.
  rewrite tail_in_range, tail_unsigned. do 2 f_equal. char_arith.
Qed.

Lemma decode_three c rest :
  2048 <= c < 65536 -> is_char c ->
  decode_char (byte.of_Z (224 + c / 4096)) (tail (c / 64) :: tail c :: rest) = Ok (c, rest).
Proof.
  intros Hc Hch. unfold decode_char. rewrite byte_of_Z_unsigned by char_arith.
  destruct (second_range (224 + c / 4096)) as [lo hi] eqn:Hr.
  destruct (Z.ltb_spec (224 + c / 4096) 128); [char_arith|].
  rewrite (proj2 (within_false 194 223 _)) by char_arith.
  rewrite (proj2 (within_spec 224 239 _)) by char_arith.
  rewrite (proj2 (in_range_spec lo hi _)).
  - cbn [negb]. rewrite tail_in_range, !tail_unsigned. do 2 f_equal. char_arith.
  - rewrite tail_unsigned. unfold is_char in Hch. apply (second_range_spec _ _ _ _ Hr); char_arith.
Qed.

Lemma decode_four c rest :
  65536 <= c <= 1114111 ->
  decode_char (byte.of_Z (240 + c / 262144)) (tail (c / 4096) :: tail (c / 64) :: tail c :: rest)
  = Ok (c, rest).
Proof.
  intros Hc. unfold decode_char. rewrite byte_of_Z_unsigned by char_arith.
  destruct (second_range (240 + c / 262144)) as [lo hi] eqn:Hr.
  destruct (Z.ltb_spec (240 + c / 262144) 128); [char_arith|].
  rewrite (proj2 (within_false 194 223 _)) by char_arith.
  rewrite (proj2 (within_false 224 239 _)) by char_arith.
  rewrite (proj2 (within_spec 240 244 _)) by char_arith.
  rewrite (proj2 (in_range_spec lo hi _)).
  - cbn [negb]. rewrite !tail_in_range, !tail_unsigned. cbn [negb]. do 2 f_equal. char_arith.
  - rewrite tail_unsigned. apply (second_range_spec _ _ _ _ Hr); char_arith.
Qed.

Lemma decode_encode_char c rest :
  is_char c ->
  exists b bs, encode_char c = b :: bs /\ decode_char b (bs ++ rest)%list = Ok (c, rest).
Proof.
  intros Hc. unfold encode_char.
  destruct (Z.ltb_spec c 128).
  { do 2 eexists. split; [done|]. unfold decode_char. unfold is_char in Hc.
    rewrite byte_of_Z_unsigned by lia. destruct (second_range c).
    by rewrite (proj2 (Z.ltb_lt c 128)). }
  destruct (Z.ltb_spec c 2048); [do 2 eexists; split; [done|]; by apply decode_two|].
  destruct (Z.ltb_spec c 65536); do 2 eexists; (split; [done|]).
  - by apply decode_three.
  - apply decode_four. unfold is_char in Hc. lia.
Qed.

Lemma from_utf8_loop_as_bytes fuel index s :
  Forall is_char s -> (length (as_bytes s) <= fuel)%nat ->
  from_utf8_loop fuel index (as_bytes s) = Ok s.
Proof.
  intros Hs. revert fuel index; induction Hs as [|c s Hc _ IH]; intros fuel index Hf;
    [by destruct fuel|].
  destruct (decode_encode_char c (as_bytes s) Hc) as (b & bs & He & Hd).
  unfold as_bytes in *. cbn [fmap list_fmap concat] in *. rewrite He in *. cbn [app length] in *.
  rewrite length_app in Hf. destruct fuel as [|fuel]; [lia|]. cbn [from_utf8_loop].
  rewrite Hd, IH by lia. done.
Qed.

(** Decoding what was encoded gives the string back. *)
Lemma from_utf8_as_bytes s : Forall is_char s -> from_utf8 (as_bytes s) = Ok s.
Proof. intros Hs. by apply from_utf8_loop_as_bytes. Qed.

(** *** Only encodings are accepted *)

Lemma byte_eq_unsigned b z : byte.unsigned b = z -> byte.of_Z z = b.
Proof. intros <-. apply byte.of_Z_unsigned. Qed.

Lemma second_range_inv first lo hi x :
  second_range first = (lo, hi) -> lo <= x <= hi ->
  128 <= x <= 191 /\ (first = 224 -> 160 <= x) /\ (first = 237 -> x <= 159) /\
  (first = 240 -> 144 <= x) /\ (first = 244 -> x <= 143).
Proof.
  unfold second_range. intros Hr Hx.
  destruct (Z.eqb_spec first 224); [injection Hr as <- <-; lia|].
  destruct (Z.eqb_spec first 237); [injection Hr as <- <-; lia|].
  destruct (Z.eqb_spec first 240); [injection Hr as <- <-; lia|].
  destruct (Z.eqb_spec first 244); injection Hr as <- <-; lia.
Qed.

(** The bytes of a character of each length, from their values. *)
Lemma encode_two f b1 :
  194 <= byte.unsigned f <= 223 -> 128 <= byte.unsigned b1 <= 191 ->
  let c := (byte.unsigned f - 192) * 64 + (byte.unsigned b1 - 128) in
  is_char c /\ encode_char c = [f; b1].
Proof.
  intros Hf H1 c. unfold is_char, encode_char, tail.
  destruct (Z.ltb_spec c 128); [lia|]. destruct (Z.ltb_spec c 2048); [|lia].
  split; [lia|]. repeat f_equal; apply byte_eq_unsigned; subst c; char_arith.
Qed.

Lemma encode_three f b1 b2 lo hi :
  second_range (byte.unsigned f) = (lo, hi) ->
  224 <= byte.unsigned f <= 239 -> lo <= byte.unsigned b1 <= hi -> 128 <= byte.unsigned b2 <= 191 ->
  let c := (byte.unsigned f - 224) * 4096 + (byte.unsigned b1 - 128) * 64 + (byte.unsigned b2 - 128) in
  is_char c /\ encode_char c = [f; b1; b2].
Proof.
  intros Hr Hf H1 H2 c. apply (second_range_inv _ _ _ _ Hr) in H1 as (H1 & Ha & Hb & _).
  unfold is_char, encode_char, tail.
  destruct (Z.ltb_spec c 128); [lia|]. destruct (Z.ltb_spec c 2048); [lia|].
  destruct (Z.ltb_spec c 65536); [|lia].
  split; [lia|]. repeat f_equal; apply byte_eq_unsigned; subst c; char_arith.
Qed.

Lemma encode_four f b1 b2 b3 lo hi :
  second_range (byte.unsigned f) = (lo, hi) ->
  240 <= byte.unsigned f <= 244 -> lo <= byte.unsigned b1 <= hi ->
  128 <= byte.unsigned b2 <= 191 -> 128 <= byte.unsigned b3 <= 191 ->
  let c := (byte.unsigned f - 240) * 262144 + (byte.unsigned b1 - 128) * 4096
           + (byte.unsigned b2 - 128) * 64 + (byte.unsigned b3 - 128) in
  is_char c /\ encode_char c = [f; b1; b2; b3].
Proof.
  intros Hr Hf H1 H2 H3 c. apply (second_range_inv _ _ _ _ Hr) in H1 as (H1 & _ & _ & Ha & Hb).
  unfold is_char, encode_char, tail.
  destruct (Z.ltb_spec c 128); [lia|]. destruct (Z.ltb_spec c 2048); [lia|].
  destruct (Z.ltb_spec c 65536); [lia|].
  split; [lia|]. repeat f_equal; apply byte_eq_unsigned; subst c; char_arith.
Qed.

Lemma decode_char_inv b rest c rest' :
  decode_char b rest = Ok (c, rest') ->
  is_char c /\ exists bs, rest = (bs ++ rest')%list /\ encode_char c = b :: bs.
Proof.
  unfold decode_char. pose proof (byte.unsigned_range b).
  destruct (second_range (byte.unsigned b)) as [lo hi] eqn:Hr.
  destruct (Z.ltb_spec (byte.unsigned b) 128).
  { intros [= <- <-]. split; [unfold is_char; lia|]. exists []. split; [done|].
    unfold encode_char. rewrite (proj2 (Z.ltb_lt _ 128)) by lia. by rewrite byte.of_Z_unsigned. }
  destruct (within 194 223 (byte.unsigned b)) eqn:E2; [apply within_spec in E2|
    destruct (within 224 239 (byte.unsigned b)) eqn:E3; [apply within_spec in E3|
    destruct (within 240 244 (byte.unsigned b)) eqn:E4; [apply within_spec in E4|done]]];
    (destruct rest as [|b1 rest]; [done|]).
  - destruct (in_range 128 191 b1) eqn:R1; [apply in_range_spec in R1|done]. intros [= <- <-].
    destruct (encode_two b b1 E2 R1) as [Hc He]. split; [done|]. by exists [b1].
  - destruct (in_range lo hi b1) eqn:R1; [apply in_range_spec in R1|done]. cbn [negb].
    destruct rest as [|b2 rest]; [done|].
    destruct (in_range 128 191 b2) eqn:R2; [apply in_range_spec in R2|done]. intros [= <- <-].
    destruct (encode_three b b1 b2 lo hi Hr E3 R1 R2) as [Hc He]. split; [done|]. by exists [b1; b2].
  - destruct (in_range lo hi b1) eqn:R1; [apply in_range_spec in R1|done]. cbn [negb].
    destruct rest as [|b2 rest]; [done|].
    destruct (in_range 128 191 b2) eqn:R2; [apply in_range_spec in R2|done]. cbn [negb].
    destruct rest as [|b3 rest]; [done|].
    destruct (in_range 128 191 b3) eqn:R3; [apply in_range_spec in R3|done]. intros [= <- <-].
    destruct (encode_four b b1 b2 b3 lo hi Hr E4 R1 R2 R3) as [Hc He].
    split; [done|]. by exists [b1; b2; b3].
Qed.

Lemma from_utf8_loop_inv fuel index bytes s :
  (length bytes <= fuel)%nat -> from_utf8_loop fuel index bytes = Ok s ->
  Forall is_char s /\ as_bytes s = bytes.
Proof.
  revert index bytes s; induction fuel as [|fuel IH]; intros index [|b rest] s Hf; cbn [length] in Hf;
    try lia; cbn [from_utf8_loop]; try (intros [= <-]; by split).
  destruct (decode_char b rest) as [[c rest']|] eqn:Hd; [|done].
  apply decode_char_inv in Hd as (Hc & bs & -> & He). rewrite length_app in Hf.
  destruct (from_utf8_loop fuel _ rest') as [s'|] eqn:Hl; [|done]. intros [= <-].
  apply IH in Hl as [Hs Hb]; [|lia]. split; [by constructor|].
  unfold as_bytes in *. cbn [fmap list_fmap concat]. rewrite He, Hb. done.
Qed.

(** [from_utf8] accepts exactly the encodings of strings: every string's
    bytes decode to it, and bytes that decode are the bytes of the string they
    decode to. *)
Lemma utf8_exact (bytes : list byte) (s : list Z) :
  from_utf8 bytes = Ok s <-> Forall is_char s /\ as_bytes s = bytes.
Proof.
  split; [by apply from_utf8_loop_inv|]. intros [Hs <-]. by apply from_utf8_as_bytes.
Qed.
