(* ===== verification/BTree.v ===== *)
(** * Ordered maps

    [std::collections::BTreeMap<String, V>] as the list of its entries in
    increasing key order.  The order is [str]'s, bytewise lexicographic.  The
    iteration order is observable in the code (the first unexpected key of a
    Dict value, the keys of a built Dict space), so the list is the map. *)

From S2P Require Import Prelude.
From stdpp Require Import sorting.

Definition btree (V : Type) : Type := list (string * V).

Section BTree.
Context {V : Type}.
Implicit Types (m : btree V) (k : string) (v : V).

(** [BTreeMap::get]. *)
Fixpoint btree_get k m : option V :=
  match m with
  | [] => None
  | (k', v) :: m => if String.eqb k k' then Some v else btree_get k m
  end.

(** [BTreeMap::insert]: an existing entry is overwritten. *)
Fixpoint btree_insert k v m : btree V :=
  match m with
  | [] => [(k, v)]
  | (k', v') :: m' =>
      match String.compare k k' with
      | Lt => (k, v) :: m
      | Eq => (k, v) :: m'
      | Gt => (k', v') :: btree_insert k v m'
      end
  end.

(** [BTreeMap::keys]. *)
Definition btree_keys m : list string := m.*1.

(** The order invariant every [BTreeMap] keeps. *)
Definition str_lt (a b : string) : Prop := String.compare a b = Lt.

Definition btree_sorted m : Prop := StronglySorted str_lt (btree_keys m).

Fixpoint btree_sortedb m : bool :=
  match m with
  | [] => true
  | (k, _) :: m' =>
      forallb (fun k' => match String.compare k k' with Lt => true | _ => false end)
        (btree_keys m') && btree_sortedb m'
  end.

Lemma compare_refl k : String.compare k k = Eq.
Proof.
  pose proof (String.compare_antisym k k) as H.
  destruct (String.compare k k); done.
Qed.

Lemma str_lt_irrefl k : ~ str_lt k k.
Proof. unfold str_lt. by rewrite compare_refl. Qed.

Lemma str_lt_le (a b : string) : str_lt a b -> String.le a b.
Proof. unfold str_lt, String.le, String.leb. by intros ->. Qed.

#[export] Instance str_lt_trans : Transitive str_lt.
Proof.
  intros a b c Hab Hbc. unfold str_lt.
  assert (String.le a c) as Hac
    by (etrans; [apply str_lt_le, Hab | by apply str_lt_le]).
  destruct (String.compare a c) eqn:E; [|done|].
  - apply String.compare_eq_iff in E as <-.
    unfold str_lt in *. rewrite String.compare_antisym, Hbc in Hab. done.
  - unfold String.le, String.leb in Hac. by rewrite E in Hac.
Qed.

Lemma str_lt_ne (a b : string) : str_lt a b -> a <> b.
Proof. intros H ->. by eapply str_lt_irrefl. Qed.

Lemma btree_sortedb_spec m : btree_sortedb m = true <-> btree_sorted m.
Proof.
  unfold btree_sorted. induction m as [|[k v] m IH]; simpl.
  - split; [constructor | done].
  - rewrite andb_true_iff, forallb_forall, IH, StronglySorted_cons, Forall_forall.
    split; intros [H1 H2]; split; try done; intros x Hx.
    + apply list_elem_of_In in Hx. specialize (H1 _ Hx).
      unfold str_lt. by destruct (String.compare k x).
    + apply list_elem_of_In in Hx. specialize (H1 _ Hx).
      unfold str_lt in H1. by rewrite H1.
Qed.

Lemma btree_get_Some_elem k v m : btree_get k m = Some v -> (k, v) ∈ m.
Proof.
  induction m as [|[k' v'] m IH]; simpl; [done|].
  destruct (String.eqb_spec k k') as [->|]; [intros [= ->]; left | right; auto].
Qed.

Lemma btree_get_None k m : btree_get k m = None <-> k ∉ btree_keys m.
Proof.
  induction m as [|[k' v'] m IH]; simpl; [set_solver|].
  destruct (String.eqb_spec k k') as [->|]; [set_solver|].
  rewrite IH. set_solver.
Qed.

Lemma btree_get_elem k v m : btree_sorted m -> (k, v) ∈ m -> btree_get k m = Some v.
Proof.
  unfold btree_sorted. induction m as [|[k' v'] m IH]; simpl; [set_solver|].
  rewrite StronglySorted_cons, Forall_forall. intros [Hlt Hs] [[= -> ->]|Hin]%elem_of_cons.
  - by rewrite String.eqb_refl.
  - destruct (String.eqb_spec k k') as [->|]; [|auto].
    exfalso. eapply str_lt_irrefl, Hlt. by apply (list_elem_of_fmap_2 fst) in Hin.
Qed.

Lemma btree_get_is_Some k m : is_Some (btree_get k m) <-> k ∈ btree_keys m.
Proof.
  rewrite <- not_eq_None_Some, btree_get_None.
  destruct (decide (k ∈ btree_keys m)); tauto.
Qed.

Lemma btree_insert_keys_elem k v m x :
  x ∈ btree_keys (btree_insert k v m) <-> x = k \/ x ∈ btree_keys m.
Proof.
  induction m as [|[k' v'] m IH]; simpl; [set_solver|].
  destruct (String.compare k k') eqn:E; simpl.
  - apply String.compare_eq_iff in E as ->. set_solver.
  - set_solver.
  - unfold btree_keys in *. rewrite !elem_of_cons, IH. tauto.
Qed.

Lemma btree_insert_sorted k v m : btree_sorted m -> btree_sorted (btree_insert k v m).
Proof.
  unfold btree_sorted. induction m as [|[k' v'] m IH]; simpl.
  - intros _. repeat constructor.
  - rewrite StronglySorted_cons. intros [Hlt Hs].
    destruct (String.compare k k') eqn:E; simpl.
    + apply String.compare_eq_iff in E as ->. by constructor.
    + constructor; [by constructor|]. constructor; [done|].
      eapply Forall_impl; [done|]. intros x Hx. by trans k'.
    + constructor; [by apply IH|]. apply Forall_forall. intros x Hx.
      apply btree_insert_keys_elem in Hx as [->|Hx].
      * unfold str_lt. by rewrite String.compare_antisym, E.
      * by eapply Forall_forall in Hlt.
Qed.

Lemma btree_get_insert k v m k' :
  btree_get k' (btree_insert k v m) = if String.eqb k' k then Some v else btree_get k' m.
Proof.
  induction m as [|[k1 v1] m IH]; simpl; [done|].
  destruct (String.compare k k1) eqn:E; simpl.
  - apply String.compare_eq_iff in E as ->. by destruct (String.eqb k' k1).
  - done.
  - rewrite IH. destruct (String.eqb_spec k' k1) as [Hk|Hk]; [|done].
    destruct (String.eqb_spec k' k) as [Hk'|Hk']; [|done].
    subst. by rewrite compare_refl in E.
Qed.

(** Two maps with the same lookups are the same map. *)
Lemma btree_ext (m1 m2 : btree V) :
  btree_sorted m1 -> btree_sorted m2 ->
  (forall k, btree_get k m1 = btree_get k m2) -> m1 = m2.
Proof.
  unfold btree_sorted.
  revert m2; induction m1 as [|[k1 v1] m1 IH]; intros [|[k2 v2] m2]; simpl.
  - done.
  - intros _ _ H. specialize (H k2). by rewrite String.eqb_refl in H.
  - intros _ _ H. specialize (H k1). by rewrite String.eqb_refl in H.
  - rewrite !StronglySorted_cons, !Forall_forall. intros [L1 S1] [L2 S2] H.
    assert (k1 = k2) as ->.
    { destruct (String.compare k1 k2) eqn:E.
      - by apply String.compare_eq_iff in E.
      - exfalso. pose proof (H k1) as H1. rewrite String.eqb_refl in H1.
        destruct (String.eqb_spec k1 k2) as [->|]; [by rewrite compare_refl in E|].
        assert (k1 ∈ btree_keys m2) as Hin by (apply btree_get_is_Some; eauto).
        eapply str_lt_irrefl. etrans; [exact E | by apply L2].
      - exfalso. pose proof (H k2) as H1. rewrite String.eqb_refl in H1.
        destruct (String.eqb_spec k2 k1) as [->|]; [by rewrite compare_refl in E|].
        assert (k2 ∈ btree_keys m1) as Hin by (apply btree_get_is_Some; eauto).
        eapply str_lt_irrefl. etrans; [by apply L1|].
        unfold str_lt. by rewrite String.compare_antisym, E. }
    pose proof (H k2) as H1. rewrite !String.eqb_refl in H1. injection H1 as ->.
    f_equal. apply IH; [done..|]. intros k. specialize (H k).
    destruct (String.eqb_spec k k2) as [Hk|Hk]; [subst k|done].
    transitivity (@None V); [|symmetry]; apply btree_get_None; intros Hin.
    + eapply str_lt_irrefl, L1, Hin.
    + eapply str_lt_irrefl, L2, Hin.
Qed.

Lemma btree_keys_NoDup m : btree_sorted m -> NoDup (btree_keys m).
Proof.
  unfold btree_sorted. generalize (btree_keys m). induction l as [|k l IH].
  - constructor.
  - rewrite StronglySorted_cons, Forall_forall. intros [H Hs]. constructor; [|auto].
    intros Hin. eapply str_lt_irrefl, H, Hin.
Qed.
End BTree.

#[export] Hint Resolve btree_insert_sorted : rlmesh.
