(* ===== verification/Float.v ===== *)
(** * IEEE-754 floats

    Rust's [f64] and [f32] as bit patterns, with the operations the sources
    use: classification, comparison, [floor], [ceil], [round], [fract], the
    saturating casts to integers and the conversions between widths.  The
    arithmetic is the Standard Library's [SpecFloat] (round to nearest even);
    this file relates it to exact integer arithmetic on the scaled value
    [sf_num], the number a float denotes times [2 ^ - emin].

    Rust leaves the payload of a NaN produced by a conversion unspecified;
    here it is the canonical quiet NaN.  Moving a float, storing it and
    reading it back keep its bits exactly. *)

From S2P Require Import Prelude.
From Stdlib Require Import SpecFloat QArith.
#[local] Open Scope Z_scope.

(** ** Packing and unpacking *)

Section Format.
(** Stored mantissa bits and exponent bits. *)
Variables mw ew : Z.

Definition fmt_prec : Z := mw + 1.
Definition fmt_emax : Z := 2 ^ (ew - 1).
Definition fmt_emin : Z := 3 - fmt_emax - fmt_prec.

Definition sf_of_bits (b : Z) : spec_float :=
  let s := Z.testbit b (mw + ew) in
  let e := (b / 2 ^ mw) mod 2 ^ ew in
  let m := b mod 2 ^ mw in
  if e =? 0 then
    match m with Zpos p => S754_finite s p fmt_emin | _ => S754_zero s end
  else if e =? 2 ^ ew - 1 then
    if m =? 0 then S754_infinity s else S754_nan
  else
    match m + 2 ^ mw with
    | Zpos p => S754_finite s p (e + fmt_emin - 1)
    | _ => S754_nan
    end.

Definition join_bits (s : bool) (m e : Z) : Z :=
  ((if s then 2 ^ ew else 0) + e) * 2 ^ mw + m.

Definition bits_of_sf (x : spec_float) : Z :=
  match x with
  | S754_zero s => join_bits s 0 0
  | S754_infinity s => join_bits s 0 (2 ^ ew - 1)
  | S754_nan => join_bits false (2 ^ (mw - 1)) (2 ^ ew - 1)
  | S754_finite s m e =>
      if Zpos m <? 2 ^ mw then join_bits s (Zpos m) 0
      else join_bits s (Zpos m - 2 ^ mw) (e - fmt_emin + 1)
  end.
End Format.

Record f64 : Type := F64 { f64_bits : Z }.
Record f32 : Type := F32 { f32_bits : Z }.

#[export] Instance f64_eq_dec : EqDecision f64.
Proof. solve_decision. Defined.

Definition sf64 (x : f64) : spec_float := sf_of_bits 52 11 (f64_bits x).
Definition sf32 (x : f32) : spec_float := sf_of_bits 23 8 (f32_bits x).
Definition sf16 (bits : Z) : spec_float := sf_of_bits 10 5 bits.
Definition f64_of_sf (x : spec_float) : f64 := F64 (bits_of_sf 52 11 x).
Definition f32_of_sf (x : spec_float) : f32 := F32 (bits_of_sf 23 8 x).
Definition f16_of_sf (x : spec_float) : Z := bits_of_sf 10 5 x.

(** ** Classification and comparison *)

Definition sf_is_nan (x : spec_float) : bool :=
  match x with S754_nan => true | _ => false end.
Definition sf_is_finite (x : spec_float) : bool :=
  match x with S754_zero _ | S754_finite _ _ _ => true | _ => false end.

Definition f64_is_nan (x : f64) : bool := sf_is_nan (sf64 x).
Definition f64_is_finite (x : f64) : bool := sf_is_finite (sf64 x).

(** [partial_cmp] and the comparison operators. *)
Definition f64_cmp (x y : f64) : option comparison := SFcompare (sf64 x) (sf64 y).
Definition f64_gt (x y : f64) : bool :=
  match f64_cmp x y with Some Gt => true | _ => false end.
Definition f64_lt (x y : f64) : bool :=
  match f64_cmp x y with Some Lt => true | _ => false end.
Definition f64_ge (x y : f64) : bool :=
  match f64_cmp x y with Some (Gt | Eq) => true | _ => false end.
Definition f64_eqb (x y : f64) : bool :=
  match f64_cmp x y with Some Eq => true | _ => false end.

(** ** Conversions *)

(** A rounding of a finite value to another format; the other classes carry
    over. *)
Definition sf_convert (prec emax : Z) (x : spec_float) : spec_float :=
  match x with
  | S754_finite s m e => binary_round prec emax s m e
  | _ => x
  end.

(** [i as f64] for an integer. *)
Definition f64_of_Z (z : Z) : f64 := f64_of_sf (binary_normalize 53 1024 z 0 false).

(** [f64::from(x: f32)] and [x as f32]. *)
Definition f64_of_f32 (x : f32) : f64 := f64_of_sf (sf_convert 53 1024 (sf32 x)).
Definition f32_of_f64 (x : f64) : f32 := f32_of_sf (sf_convert 24 128 (sf64 x)).

Definition f64_zero : f64 := F64 0.

(** [x + y], rounded to nearest. *)
Definition f64_add (x y : f64) : f64 := f64_of_sf (SFadd 53 1024 (sf64 x) (sf64 y)).
Definition f64_infinity : f64 := f64_of_sf (S754_infinity false).
Definition f64_neg_infinity : f64 := f64_of_sf (S754_infinity true).
Definition f64_nan : f64 := f64_of_sf S754_nan.

(** ** Rounding to an integer *)

(** The signed mantissa. *)
Definition sf_mant (s : bool) (m : positive) : Z := cond_Zopp s (Zpos m).

(** [Z.shiftl] by a negative amount rounds towards minus infinity. *)
Definition sf_floorZ (s : bool) (m : positive) (e : Z) : Z := Z.shiftl (sf_mant s m) e.
Definition sf_ceilZ (s : bool) (m : positive) (e : Z) : Z := - Z.shiftl (- sf_mant s m) e.
Definition sf_truncZ (s : bool) (m : positive) (e : Z) : Z :=
  cond_Zopp s (Z.shiftl (Zpos m) e).
(** Half away from zero. *)
Definition sf_roundZ (s : bool) (m : positive) (e : Z) : Z :=
  cond_Zopp s (Z.shiftl (2 * Zpos m + Z.shiftl 1 (- e)) (e - 1)).

Definition f64_rint (rnd : bool -> positive -> Z -> Z) (x : f64) : f64 :=
  match sf64 x with
  | S754_finite s m e =>
      if 0 <=? e then x else f64_of_sf (binary_normalize 53 1024 (rnd s m e) 0 s)
  | _ => x
  end.

Definition f64_floor : f64 -> f64 := f64_rint sf_floorZ.
Definition f64_ceil : f64 -> f64 := f64_rint sf_ceilZ.
Definition f64_round : f64 -> f64 := f64_rint sf_roundZ.

(** [x.fract()]: [x - x.trunc()], which is exact. *)
Definition f64_fract (x : f64) : f64 :=
  match sf64 x with
  | S754_finite s m e =>
      if 0 <=? e then f64_zero
      else f64_of_sf
             (binary_normalize 53 1024 (cond_Zopp s (Zpos m mod 2 ^ (- e))) e false)
  | S754_zero _ => f64_zero
  | _ => f64_nan
  end.

(** [x as iN] / [x as uN]: truncation, saturating, [0] for NaN. *)
Definition f64_as_int (lo hi : Z) (x : f64) : Z :=
  match sf64 x with
  | S754_nan => 0
  | S754_infinity s => if s then lo else hi
  | S754_zero _ => 0
  | S754_finite s m e => saturate lo hi (sf_truncZ s m e)
  end.

(** ** Digits and packing lemmas *)

Lemma digits2_pos_log2 p : Zpos (digits2_pos p) = Z.log2 (Zpos p) + 1.
Proof.
  induction p as [p IH|p IH|]; simpl digits2_pos; [| |done].
  - rewrite Pos2Z.inj_succ, IH, Pos2Z.inj_xI, Z.log2_succ_double by lia. lia.
  - rewrite Pos2Z.inj_succ, IH, Pos2Z.inj_xO, Z.log2_double by lia. lia.
Qed.

Lemma digits2_bounds p :
  2 ^ (Zpos (digits2_pos p) - 1) <= Zpos p < 2 ^ Zpos (digits2_pos p).
Proof.
  rewrite digits2_pos_log2. pose proof (Z.log2_spec (Zpos p) ltac:(lia)) as H.
  replace (Z.log2 (Zpos p) + 1 - 1) with (Z.log2 (Zpos p)) by lia.
  by rewrite Z.add_1_r.
Qed.

Lemma digits2_unique p d :
  2 ^ (d - 1) <= Zpos p < 2 ^ d -> Zpos (digits2_pos p) = d.
Proof.
  intros H. rewrite digits2_pos_log2.
  assert (0 <= d - 1).
  { destruct (Z.le_gt_cases 0 (d - 1)); [done|]. exfalso.
    destruct (Z.eq_dec d 0) as [->|]; [simpl in H; lia|].
    rewrite (Z.pow_neg_r 2 d) in H by lia. lia. }
  rewrite (Z.log2_unique (Zpos p) (d - 1)); [lia|lia|].
  by replace (Z.succ (d - 1)) with d by lia.
Qed.

Lemma digits2_mul_pow2 p k :
  0 <= k -> Zpos (digits2_pos (Z.to_pos (Zpos p * 2 ^ k))) = Zpos (digits2_pos p) + k.
Proof.
  intros Hk. assert (0 < 2 ^ k) by (by apply Z.pow_pos_nonneg).
  rewrite !digits2_pos_log2, Z2Pos.id by lia.
  rewrite Z.log2_mul_pow2 by lia. lia.
Qed.

Lemma iter_xO_mul p d : Zpos (Pos.iter xO p d) = Zpos p * 2 ^ Zpos d.
Proof.
  change (Pos.iter xO p d) with (shift_pos d p). by rewrite shift_pos_correct, Z.mul_comm.
Qed.

Lemma cond_Zopp_mul s a b : cond_Zopp s (a * b) = cond_Zopp s a * b.
Proof. destruct s; simpl; lia. Qed.

Section FormatLemmas.
Context (mw ew : Z) (Hmw : 0 < mw) (Hew : 1 < ew) (Hfmt : mw + 1 < 2 ^ (ew - 1)).

#[local] Notation prec := (fmt_prec mw).
#[local] Notation emax := (fmt_emax ew).
#[local] Notation emin := (fmt_emin mw ew).
#[local] Notation valid x := (valid_binary prec emax x = true).

Lemma pow_ew_double : 2 ^ ew = 2 * emax.
Proof. unfold fmt_emax. apply pow2_half. lia. Qed.

Lemma bounded_spec m e :
  bounded prec emax m e = true <->
  emin <= e <= emax - prec /\
  (Zpos (digits2_pos m) = prec \/ (Zpos (digits2_pos m) < prec /\ e = emin)).
Proof.
  unfold bounded, canonical_mantissa, fexp, SpecFloat.emin.
  rewrite andb_true_iff, Z.eqb_eq, Z.leb_le.
  unfold fmt_emin. generalize (Zpos (digits2_pos m)). intros d. lia.
Qed.

Lemma join_bits_spec s m e :
  0 <= m < 2 ^ mw -> 0 <= e < 2 ^ ew ->
  Z.testbit (join_bits mw ew s m e) (mw + ew) = s /\
  (join_bits mw ew s m e / 2 ^ mw) mod 2 ^ ew = e /\
  join_bits mw ew s m e mod 2 ^ mw = m /\
  0 <= join_bits mw ew s m e < 2 ^ (mw + ew + 1).
Proof.
  intros Hm He. unfold join_bits. set (h := (if s then 2 ^ ew else 0) + e).
  assert (0 < 2 ^ mw) by (apply Z.pow_pos_nonneg; lia).
  assert (0 < 2 ^ ew) by (apply Z.pow_pos_nonneg; lia).
  assert (Hdiv : (h * 2 ^ mw + m) / 2 ^ mw = h).
  { rewrite Z.add_comm, Z.div_add by lia. rewrite Z.div_small by lia. lia. }
  repeat split.
  - rewrite Z.testbit_eqb by lia. rewrite Z.pow_add_r by lia.
    rewrite <- Z.div_div by lia. rewrite Hdiv. unfold h.
    destruct s.
    + replace (2 ^ ew + e) with (e + 1 * 2 ^ ew) by lia.
      rewrite Z.div_add, Z.div_small by lia. done.
    + rewrite Z.div_small by lia. done.
  - rewrite Hdiv. unfold h. destruct s.
    + replace (2 ^ ew + e) with (e + 1 * 2 ^ ew) by lia.
      rewrite Z.mod_add by lia. by apply Z.mod_small.
    + by apply Z.mod_small.
  - rewrite Z.add_comm, Z.mod_add by lia. by apply Z.mod_small.
  - unfold h. destruct s; nia.
  - rewrite !Z.pow_add_r by lia. unfold h. destruct s; nia.
Qed.

(** Unpacking undoes packing on every representable value. *)
Lemma sf_of_bits_of_sf x : valid x -> sf_of_bits mw ew (bits_of_sf mw ew x) = x.
Proof.
  intros Hv. pose proof pow_ew_double as Hd. unfold fmt_emax in Hd.
  assert (0 < 2 ^ mw) by (apply Z.pow_pos_nonneg; lia).
  assert (0 < 2 ^ (mw - 1)) by (apply Z.pow_pos_nonneg; lia).
  pose proof (pow2_half mw Hmw).
  unfold sf_of_bits.
  destruct x as [s|s| |s m e]; cbn [bits_of_sf].
  - destruct (join_bits_spec s 0 0) as (-> & -> & -> & _); [lia|lia|]. done.
  - destruct (join_bits_spec s 0 (2 ^ ew - 1)) as (-> & -> & -> & _); [lia|lia|].
    rewrite Z.eqb_refl. by destruct (Z.eqb_spec (2 ^ ew - 1) 0); [lia|].
  - destruct (join_bits_spec false (2 ^ (mw - 1)) (2 ^ ew - 1))
      as (-> & -> & -> & _); [lia|lia|].
    rewrite Z.eqb_refl. destruct (Z.eqb_spec (2 ^ ew - 1) 0); [lia|].
    by destruct (Z.eqb_spec (2 ^ (mw - 1)) 0); [lia|].
  - apply bounded_spec in Hv as [He Hdig].
    pose proof (digits2_bounds m) as Hb. unfold fmt_emin, fmt_emax, fmt_prec in *.
    destruct (Z.ltb_spec (Zpos m) (2 ^ mw)) as [Hlt|Hge].
    + destruct (join_bits_spec s (Zpos m) 0) as (-> & -> & -> & _); [lia|lia|].
      rewrite Z.eqb_refl. destruct Hdig as [Hdig|[_ ->]]; [|done].
      exfalso. rewrite Hdig in Hb. replace (mw + 1 - 1) with mw in Hb by lia. lia.
    + assert (Zpos (digits2_pos m) = mw + 1) as Hdm.
      { destruct Hdig as [|[Hdig _]]; [done|]. exfalso.
        assert (2 ^ Zpos (digits2_pos m) <= 2 ^ mw) by (apply Z.pow_le_mono_r; lia). lia. }
      rewrite Hdm, Z.pow_add_r in Hb by lia.
      destruct (join_bits_spec s (Zpos m - 2 ^ mw) (e - (3 - 2 ^ (ew - 1) - (mw + 1)) + 1))
        as (-> & -> & -> & _); [lia|lia|].
      destruct (Z.eqb_spec (e - (3 - 2 ^ (ew - 1) - (mw + 1)) + 1) 0); [lia|].
      destruct (Z.eqb_spec (e - (3 - 2 ^ (ew - 1) - (mw + 1)) + 1) (2 ^ ew - 1)); [lia|].
      replace (Zpos m - 2 ^ mw + 2 ^ mw) with (Zpos m) by lia. f_equal. lia.
Qed.

(** Every bit pattern unpacks to a representable value. *)
Lemma sf_of_bits_valid b : valid (sf_of_bits mw ew b).
Proof.
  pose proof pow_ew_double as Hd. unfold fmt_emax in Hd.
  assert (0 < 2 ^ mw) by (apply Z.pow_pos_nonneg; lia).
  unfold sf_of_bits.
  pose proof (Z.mod_pos_bound b (2 ^ mw)).
  pose proof (Z.mod_pos_bound (b / 2 ^ mw) (2 ^ ew)).
  set (m := b mod 2 ^ mw) in *. set (e := (b / 2 ^ mw) mod 2 ^ ew) in *.
  destruct (Z.eqb_spec e 0) as [He|He].
  - destruct m as [|p|p] eqn:Hm; [done| |done].
    apply bounded_spec. unfold fmt_emin, fmt_emax, fmt_prec. split; [lia|].
    right. split; [|done].
    destruct (Z.lt_ge_cases (Zpos (digits2_pos p)) (mw + 1)) as [|Hge]; [done|].
    pose proof (digits2_bounds p).
    assert (2 ^ mw <= 2 ^ (Zpos (digits2_pos p) - 1)) by (apply Z.pow_le_mono_r; lia). lia.
  - destruct (Z.eqb_spec e (2 ^ ew - 1)) as [He'|He'].
    + by destruct (m =? 0).
    + destruct (m + 2 ^ mw) as [|p|p] eqn:Hm; [done| |done].
      apply bounded_spec. unfold fmt_emin, fmt_emax, fmt_prec. split; [lia|].
      left. apply digits2_unique.
      replace (mw + 1 - 1) with mw by lia. rewrite Z.pow_add_r by lia. lia.
Qed.

Lemma bits_of_sf_range x : valid x -> 0 <= bits_of_sf mw ew x < 2 ^ (mw + ew + 1).
Proof.
  intros Hv. pose proof pow_ew_double as Hd. unfold fmt_emax in Hd.
  assert (0 < 2 ^ mw) by (apply Z.pow_pos_nonneg; lia).
  assert (0 < 2 ^ (mw - 1)) by (apply Z.pow_pos_nonneg; lia).
  pose proof (pow2_half mw Hmw).
  destruct x as [s|s| |s m e]; cbn [bits_of_sf]; [apply join_bits_spec; lia..|].
  apply bounded_spec in Hv as [He Hdig].
  pose proof (digits2_bounds m) as Hb. unfold fmt_emin, fmt_emax, fmt_prec in *.
  assert (2 ^ Zpos (digits2_pos m) <= 2 ^ (mw + 1)) as Hdm by (apply Z.pow_le_mono_r; lia).
  rewrite Z.pow_add_r in Hdm by lia.
  destruct (Z.ltb_spec (Zpos m) (2 ^ mw)); apply join_bits_spec; lia.
Qed.

(** ** Exact values

    A representable value is an integer multiple of [2 ^ emin]; [sf_num] is
    that integer and [sf_one] the one standing for [1]. *)

Definition sf_num (x : spec_float) : Z :=
  match x with
  | S754_finite s m e => cond_Zopp s (Zpos m * 2 ^ (e - emin))
  | _ => 0
  end.

Definition sf_one : Z := 2 ^ (- emin).

Lemma emin_neg : emin < 0.
Proof. unfold fmt_emin, fmt_emax, fmt_prec. lia. Qed.

Lemma sf_one_pos : 0 < sf_one.
Proof. apply Z.pow_pos_nonneg; [lia|]. pose proof emin_neg. lia. Qed.

(** Shifting by the exponent is a floor division of the scaled value. *)
Lemma shiftl_exponent z e :
  emin <= e -> Z.shiftl z e = (z * 2 ^ (e - emin)) / sf_one.
Proof.
  intros He. pose proof emin_neg. unfold sf_one.
  destruct (Z.le_gt_cases 0 e).
  - rewrite Z.shiftl_mul_pow2 by lia.
    replace (e - emin) with (e + - emin) by lia. rewrite Z.pow_add_r by lia.
    rewrite Z.mul_assoc, Z.div_mul; [done|].
    pose proof sf_one_pos. unfold sf_one in *. lia.
  - rewrite <- (Z.opp_involutive e) at 1. rewrite Z.shiftl_opp_r, Z.shiftr_div_pow2 by lia.
    replace (2 ^ - emin) with (2 ^ (- e) * 2 ^ (e - emin))
      by (rewrite <- Z.pow_add_r by lia; f_equal; lia).
    rewrite Z.div_mul_cancel_r; [done| |]; apply Z.pow_nonzero; lia.
Qed.

Lemma sf_floorZ_num s m e :
  bounded prec emax m e = true -> sf_floorZ s m e = sf_num (S754_finite s m e) / sf_one.
Proof.
  intros [[He _] _]%bounded_spec. unfold sf_floorZ, sf_mant, sf_num.
  rewrite shiftl_exponent by done. by rewrite cond_Zopp_mul.
Qed.

Lemma sf_ceilZ_num s m e :
  bounded prec emax m e = true ->
  sf_ceilZ s m e = - (- sf_num (S754_finite s m e) / sf_one).
Proof.
  intros [[He _] _]%bounded_spec. unfold sf_ceilZ, sf_mant, sf_num.
  rewrite shiftl_exponent by done. rewrite cond_Zopp_mul, Z.mul_opp_l. done.
Qed.

Lemma sf_truncZ_num s m e :
  bounded prec emax m e = true ->
  sf_truncZ s m e = Z.quot (sf_num (S754_finite s m e)) sf_one.
Proof.
  intros [[He _] _]%bounded_spec. pose proof sf_one_pos. unfold sf_truncZ, sf_num.
  rewrite shiftl_exponent by done.
  assert (0 <= Zpos m * 2 ^ (e - emin)) by (apply Z.mul_nonneg_nonneg; [lia|];
    apply Z.pow_nonneg; lia).
  destruct s; simpl.
  - rewrite Z.quot_opp_l, Z.quot_div_nonneg by lia. done.
  - by rewrite Z.quot_div_nonneg by lia.
Qed.

Lemma lower_exponent_lt m1 e1 m2 e2 :
  bounded prec emax m1 e1 = true -> bounded prec emax m2 e2 = true ->
  e1 < e2 -> Zpos m1 * 2 ^ (e1 - emin) < Zpos m2 * 2 ^ (e2 - emin).
Proof.
  intros [H1 D1]%bounded_spec [H2 D2]%bounded_spec Hlt.
  pose proof (digits2_bounds m1) as B1. pose proof (digits2_bounds m2) as B2.
  assert (2 ^ Zpos (digits2_pos m1) <= 2 ^ prec) by (apply Z.pow_le_mono_r; lia).
  destruct D2 as [D2|[_ D2]]; [|lia]. rewrite D2 in B2.
  assert (0 < 2 ^ (e1 - emin)) by (apply Z.pow_pos_nonneg; lia).
  apply Z.lt_le_trans with (2 ^ prec * 2 ^ (e1 - emin)); [nia|].
  apply Z.le_trans with (2 ^ (prec - 1) * 2 ^ (e2 - emin)).
  - unfold fmt_prec in *. rewrite <- !Z.pow_add_r by lia.
    apply Z.pow_le_mono_r; lia.
  - assert (0 < 2 ^ (e2 - emin)) by (apply Z.pow_pos_nonneg; lia). nia.
Qed.

Lemma same_sign_compare m1 e1 m2 e2 :
  bounded prec emax m1 e1 = true -> bounded prec emax m2 e2 = true ->
  (Zpos m1 * 2 ^ (e1 - emin) ?= Zpos m2 * 2 ^ (e2 - emin)) =
  match e1 ?= e2 with Lt => Lt | Gt => Gt | Eq => Pos.compare m1 m2 end.
Proof.
  intros H1 H2. destruct (Z.compare_spec e1 e2) as [->|Hc|Hc].
  - rewrite <- Zmult_compare_compat_r; [done|].
    apply bounded_spec in H2 as [H2 _]. apply Z.lt_gt, Z.pow_pos_nonneg; lia.
  - by apply Z.compare_lt_iff, lower_exponent_lt.
  - by apply Z.compare_gt_iff, lower_exponent_lt.
Qed.

(** The IEEE comparison of finite values is the order of the numbers. *)
Lemma SFcompare_num x y :
  valid x -> valid y -> sf_is_finite x = true -> sf_is_finite y = true ->
  SFcompare x y = Some (sf_num x ?= sf_num y).
Proof.
  assert (forall m e, bounded prec emax m e = true -> 0 < Zpos m * 2 ^ (e - emin)) as Hpos.
  { intros m e [H _]%bounded_spec. apply Z.mul_pos_pos; [lia|].
    apply Z.pow_pos_nonneg; lia. }
  intros Hx Hy Fx Fy.
  destruct x as [sx|sx| |sx mx ex], y as [sy|sy| |sy my ey]; try done;
    cbn [SFcompare sf_num valid_binary] in *; f_equal.
  - specialize (Hpos _ _ Hy). symmetry. destruct sy; cbn [cond_Zopp].
    + apply Z.compare_gt_iff. lia.
    + apply Z.compare_lt_iff. lia.
  - specialize (Hpos _ _ Hx). symmetry. destruct sx; cbn [cond_Zopp].
    + apply Z.compare_lt_iff. lia.
    + apply Z.compare_gt_iff. lia.
  - pose proof (Hpos _ _ Hx) as Px. pose proof (Hpos _ _ Hy) as Py.
    destruct sx, sy; cbn [cond_Zopp].
    + rewrite Z.compare_opp, same_sign_compare by done.
      rewrite (Z.compare_antisym ex ey). destruct (ex ?= ey); try done.
      symmetry. apply Pos.compare_antisym.
    + symmetry. apply Z.compare_lt_iff. lia.
    + symmetry. apply Z.compare_gt_iff. lia.
    + by rewrite same_sign_compare by done.
Qed.

(** ** Exact rounding: nothing is lost when the mantissa fits *)

Lemma shr_fexp_canonical m e :
  fexp prec emax (Zpos (digits2_pos m) + e) = e ->
  shr_fexp prec emax (Zpos m) e loc_Exact = (Build_shr_record (Zpos m) false false, e).
Proof. intros H. unfold shr_fexp. cbn [Zdigits2]. rewrite H, Z.sub_diag. done. Qed.

Lemma binary_round_canonical s m e :
  bounded prec emax m e = true -> binary_round_aux prec emax s (Zpos m) e loc_Exact
    = S754_finite s m e.
Proof.
  unfold bounded, canonical_mantissa. intros [Hc%Z.eqb_eq Hb]%andb_true_iff.
  unfold binary_round_aux. rewrite shr_fexp_canonical by done.
  cbn [shr_m loc_of_shr_record round_nearest_even].
  rewrite shr_fexp_canonical by done. cbn [shr_m]. by rewrite Hb.
Qed.

Lemma binary_round_exact s m e :
  Zpos (digits2_pos m) <= prec -> emin <= e <= emax - prec ->
  exists m' e', binary_round prec emax s m e = S754_finite s m' e' /\
    bounded prec emax m' e' = true /\
    sf_num (S754_finite s m' e') = cond_Zopp s (Zpos m * 2 ^ (e - emin)).
Proof.
  intros Hd He. set (d := Zpos (digits2_pos m)) in *.
  set (fe := Z.max (d + e - prec) emin).
  assert (Hfe : fexp prec emax (d + e) = fe) by reflexivity.
  assert (fe <= e) by lia.
  assert (0 < 2 ^ (e - fe)) by (apply Z.pow_pos_nonneg; lia).
  set (m' := Z.to_pos (Zpos m * 2 ^ (e - fe))).
  assert (Hm' : Zpos m' = Zpos m * 2 ^ (e - fe)) by (unfold m'; rewrite Z2Pos.id; lia).
  assert (Hb : bounded prec emax m' fe = true).
  { apply bounded_spec. unfold m'. rewrite digits2_mul_pow2 by lia. fold d. lia. }
  exists m', fe. split; [|split; [done|]].
  - unfold binary_round. fold d. rewrite Hfe. unfold shl_align.
    destruct (fe - e) as [|p|p] eqn:E; [| lia |].
    + assert (Zpos m = Zpos m') as Hmm
        by (rewrite Hm'; replace (e - fe) with 0 by lia; lia).
      rewrite Hmm. replace e with fe by lia. by apply binary_round_canonical.
    + rewrite iter_xO_mul. replace (Zpos p) with (e - fe) by lia.
      rewrite <- Hm'. by apply binary_round_canonical.
  - cbn [sf_num]. rewrite Hm', <- Z.mul_assoc, <- Z.pow_add_r by lia.
    do 3 f_equal. lia.
Qed.

Lemma binary_normalize_exact z e sz :
  Z.abs z < 2 ^ prec -> emin <= e <= emax - prec ->
  let r := binary_normalize prec emax z e sz in
  valid r /\ sf_is_finite r = true /\ sf_num r = z * 2 ^ (e - emin).
Proof.
  intros Hz He.
  assert (forall p, Zpos p < 2 ^ prec -> Zpos (digits2_pos p) <= prec) as Hdig.
  { intros p Hp. destruct (Z.le_gt_cases (Zpos (digits2_pos p)) prec); [done|].
    pose proof (digits2_bounds p).
    assert (2 ^ prec <= 2 ^ (Zpos (digits2_pos p) - 1)) by (apply Z.pow_le_mono_r; lia).
    lia. }
  destruct z as [|p|p]; cbn [binary_normalize]; [done|..].
  - destruct (binary_round_exact false p e) as (m' & e' & -> & Hb & Hn);
      [by apply Hdig | done | done].
  - destruct (binary_round_exact true p e) as (m' & e' & -> & Hb & Hn);
      [by apply Hdig | done |]. split; [done|]. split; [done|].
    rewrite Hn. cbn [cond_Zopp]. lia.
Qed.
Lemma shr_1_even m : shr_1 (Build_shr_record (2 * m) false false) = Build_shr_record m false false.
Proof. destruct m as [|p|p]; reflexivity. Qed.

(** Dropping zero bits is exact. *)
Lemma shr_exact m e k :
  0 <= k -> shr (Build_shr_record (m * 2 ^ k) false false) e k
            = (Build_shr_record m false false, e + k).
Proof.
  intros Hk. destruct k as [|p|p]; [|clear Hk|lia].
  - simpl. by rewrite Z.mul_1_r, Z.add_0_r.
  - cbn [shr]. f_equal. revert m. induction p as [p IH|p IH|]; intros m; cbn [SpecFloat.iter_pos].
    + rewrite Pos2Z.inj_xI, Z.pow_add_r, Z.pow_1_r, Z.pow_twice_r by lia.
      replace (m * (2 ^ Zpos p * 2 ^ Zpos p * 2)) with (2 * (m * 2 ^ Zpos p * 2 ^ Zpos p)) by lia.
      by rewrite shr_1_even, !IH.
    + rewrite (Pos2Z.inj_xO p), Z.pow_twice_r, Z.mul_assoc. by rewrite !IH.
    + change (2 ^ 1) with 2. rewrite Z.mul_comm. apply shr_1_even.
Qed.

(** Rounding a number the format holds gives that number, whatever mantissa
    and exponent present it. *)
Lemma binary_round_value s m e m' e' :
  bounded prec emax m' e' = true ->
  (e' <= e /\ Zpos m' = Zpos m * 2 ^ (e - e') \/ e <= e' /\ Zpos m = Zpos m' * 2 ^ (e' - e)) ->
  binary_round prec emax s m e = S754_finite s m' e'.
Proof.
  intros Hb Hv. pose proof Hb as Hb'. unfold bounded, canonical_mantissa in Hb'.
  apply andb_true_iff in Hb' as [Hc%Z.eqb_eq _].
  assert (Hd : Zpos (digits2_pos m) + e = Zpos (digits2_pos m') + e').
  { destruct Hv as [[He Hm]|[He Hm]].
    - pose proof (digits2_mul_pow2 m (e - e') ltac:(lia)) as H. rewrite <- Hm in H.
      rewrite Pos2Z.id in H. lia.
    - pose proof (digits2_mul_pow2 m' (e' - e) ltac:(lia)) as H. rewrite <- Hm in H.
      rewrite Pos2Z.id in H. lia. }
  unfold binary_round. rewrite Hd, Hc. unfold shl_align.
  destruct Hv as [[He Hm]|[He Hm]].
  - destruct (e' - e) as [|p|p] eqn:E; [|lia|].
    + replace m with m' by (replace (e - e') with 0 in Hm by lia; lia).
      replace e with e' by lia. by apply binary_round_canonical.
    + rewrite iter_xO_mul. replace (Zpos p) with (e - e') by lia. rewrite <- Hm.
      by apply binary_round_canonical.
  - transitivity (binary_round_aux prec emax s (Zpos m) e loc_Exact);
      [destruct (e' - e) eqn:E; [done|done|lia]|].
    unfold binary_round_aux, shr_fexp at 1. cbn [Zdigits2 shr_record_of_loc].
    rewrite Hd, Hc, Hm, shr_exact by lia.
    cbn [shr_m loc_of_shr_record round_nearest_even].
    replace (e + (e' - e)) with e' by lia.
    rewrite shr_fexp_canonical by done. cbn [shr_m].
    apply andb_true_iff in Hb as [_ ->]. done.
Qed.

(** Packing undoes unpacking, except that NaNs are made canonical. *)
Lemma bits_of_sf_of_bits b :
  0 <= b < 2 ^ (mw + ew + 1) -> sf_of_bits mw ew b <> S754_nan ->
  bits_of_sf mw ew (sf_of_bits mw ew b) = b.
Proof.
  intros Hb. pose proof pow_ew_double as Hd. unfold fmt_emax in Hd.
  assert (0 < 2 ^ mw) by (apply Z.pow_pos_nonneg; lia).
  assert (0 < 2 ^ ew) by (apply Z.pow_pos_nonneg; lia).
  unfold sf_of_bits.
  pose proof (Z.mod_pos_bound b (2 ^ mw)).
  pose proof (Z.mod_pos_bound (b / 2 ^ mw) (2 ^ ew)).
  assert (Hs : b = join_bits mw ew (Z.testbit b (mw + ew)) (b mod 2 ^ mw)
                     ((b / 2 ^ mw) mod 2 ^ ew)).
  { unfold join_bits. rewrite !Z.pow_add_r, Z.pow_1_r in Hb by lia.
    rewrite Z.testbit_eqb by lia. rewrite Z.pow_add_r by lia.
    rewrite <- Z.div_div by lia.
    pose proof (Z.div_mod b (2 ^ mw) ltac:(lia)). set (q := b / 2 ^ mw) in *.
    assert (0 <= q < 2 * 2 ^ ew) by nia.
    pose proof (Z.div_mod q (2 ^ ew) ltac:(lia)). set (r := q / 2 ^ ew) in *.
    assert (0 <= r < 2) by nia.
    assert (r = 0 \/ r = 1) as [Hr|Hr] by lia; rewrite Hr in *; simpl; lia. }
  set (s := Z.testbit b (mw + ew)) in *.
  set (m := b mod 2 ^ mw) in *. set (e := (b / 2 ^ mw) mod 2 ^ ew) in *.
  destruct (Z.eqb_spec e 0) as [He|He].
  - intros _. rewrite Hs, He. destruct m as [|p|p] eqn:Hm; [done| |lia].
    cbn [bits_of_sf]. by rewrite (proj2 (Z.ltb_lt (Zpos p) (2 ^ mw))) by lia.
  - destruct (Z.eqb_spec e (2 ^ ew - 1)) as [He'|He'].
    + destruct (Z.eqb_spec m 0) as [Hm|Hm]; [|done].
      intros _. rewrite Hs, Hm, He'. done.
    + destruct (m + 2 ^ mw) as [|p|p] eqn:Hm; [lia| |lia]. intros _.
      cbn [bits_of_sf]. rewrite (proj2 (Z.ltb_ge (Zpos p) (2 ^ mw))) by lia.
      rewrite Hs. f_equal; lia.
Qed.
(** ** Every rounding result is representable *)

Lemma shr_1_m x : 0 <= shr_m x -> shr_m (shr_1 x) = shr_m x / 2.
Proof.
  destruct x as [[|p|p] r t]; cbn [shr_m]; intros Hx; [done| |lia].
  destruct p as [p|p|]; cbn [shr_1 shr_m]; try done.
  - rewrite Pos2Z.inj_xI. apply (Z.div_unique_pos _ _ _ 1); lia.
  - rewrite Pos2Z.inj_xO. apply (Z.div_unique_pos _ _ _ 0); lia.
Qed.

Lemma iter_shr_m p x :
  0 <= shr_m x -> shr_m (SpecFloat.iter_pos shr_1 p x) = shr_m x / 2 ^ Zpos p.
Proof.
  assert (forall q z, 0 <= z -> 0 <= z / 2 ^ Zpos q) as Hnn.
  { intros q z Hz. apply Z.div_pos; [done|]. apply Z.pow_pos_nonneg; lia. }
  revert x; induction p as [p IH|p IH|]; intros x Hx; cbn [SpecFloat.iter_pos].
  - pose proof (shr_1_m x Hx) as H1.
    assert (0 <= shr_m (shr_1 x)) by (rewrite H1; apply Z.div_pos; lia).
    rewrite (IH (SpecFloat.iter_pos shr_1 p (shr_1 x))), IH, H1
      by (rewrite ?IH by done; auto).
    rewrite !Z.div_div by (first [lia | apply Z.pow_nonzero; lia | apply Z.pow_pos_nonneg; lia]).
    rewrite Pos2Z.inj_xI, Z.pow_add_r, Z.pow_twice_r by lia. f_equal. lia.
  - rewrite IH, IH by (rewrite ?IH by done; auto).
    rewrite Z.div_div by (first [apply Z.pow_nonzero; lia | apply Z.pow_pos_nonneg; lia]).
    rewrite (Pos2Z.inj_xO p), Z.pow_twice_r by lia. done.
  - by apply shr_1_m.
Qed.

Lemma shr_spec m r t e n :
  0 <= m -> 0 <= n ->
  shr_m (fst (shr (Build_shr_record m r t) e n)) = m / 2 ^ n /\
  snd (shr (Build_shr_record m r t) e n) = e + n.
Proof.
  intros Hm Hn. destruct n as [|p|p]; cbn [shr fst snd shr_m]; [|split; [|done]|lia].
  - by rewrite Z.div_1_r, Z.add_0_r.
  - by rewrite iter_shr_m.
Qed.

Lemma shr_record_of_loc_m m l : shr_m (shr_record_of_loc m l) = m.
Proof. by destruct l as [|[]]. Qed.

Lemma round_nearest_even_cases m l :
  round_nearest_even m l = m \/ round_nearest_even m l = m + 1.
Proof. destruct l as [|[]]; simpl; auto. destruct (Z.even m); auto. Qed.

Lemma shr_fexp_spec m l e :
  0 <= m -> e <= fexp prec emax (Zdigits2 m + e) ->
  let fe := fexp prec emax (Zdigits2 m + e) in
  shr_m (fst (shr_fexp prec emax m e l)) = m / 2 ^ (fe - e) /\
  snd (shr_fexp prec emax m e l) = fe.
Proof.
  intros Hm He. cbn zeta. unfold shr_fexp. set (fe := fexp prec emax (Zdigits2 m + e)) in *.
  destruct (shr_record_of_loc m l) as [m' r t] eqn:E.
  assert (m' = m) as -> by (rewrite <- (shr_record_of_loc_m m l), E; done).
  destruct (shr_spec m r t e (fe - e)) as [-> ->]; [lia..|]. split; [done|lia].
Qed.

Lemma Zdigits2_bounds m : 0 < m -> 2 ^ (Zdigits2 m - 1) <= m < 2 ^ Zdigits2 m.
Proof. destruct m as [|p|p]; try lia. intros _. apply digits2_bounds. Qed.

Lemma Zdigits2_unique m d : 0 < m -> 2 ^ (d - 1) <= m < 2 ^ d -> Zdigits2 m = d.
Proof. destruct m as [|p|p]; try lia. intros _. apply digits2_unique. Qed.

Lemma Zdigits2_le m k : 0 <= m -> 0 <= k -> m < 2 ^ k -> Zdigits2 m <= k.
Proof.
  intros Hm Hk Hlt. destruct (Z.eq_dec m 0) as [->|]; [done|].
  pose proof (Zdigits2_bounds m ltac:(lia)) as [Hb _].
  destruct (Z.le_gt_cases (Zdigits2 m) k); [done|].
  assert (2 ^ k <= 2 ^ (Zdigits2 m - 1)) by (apply Z.pow_le_mono_r; lia). lia.
Qed.

(** After the shift the mantissa fits, and fills the precision unless the
    exponent is the smallest one. *)
Lemma shifted_digits m e :
  0 < m -> e <= fexp prec emax (Zdigits2 m + e) ->
  let fe := fexp prec emax (Zdigits2 m + e) in
  emin <= fe /\ 0 <= m / 2 ^ (fe - e) < 2 ^ prec /\
  (2 ^ (prec - 1) <= m / 2 ^ (fe - e) \/ fe = emin).
Proof.
  intros Hm He. cbn zeta. pose proof (Zdigits2_bounds m Hm) as Hb.
  assert (1 <= Zdigits2 m) by (destruct m; simpl; lia).
  set (d := Zdigits2 m) in *. set (fe := fexp prec emax (d + e)) in *.
  assert (Hfe : fe = Z.max (d + e - prec) emin) by done.
  assert (0 < 2 ^ (fe - e)) by (apply Z.pow_pos_nonneg; lia).
  assert (0 <= prec) by (unfold fmt_prec; lia).
  split; [lia|]. split.
  - split; [apply Z.div_pos; lia|]. apply Z.div_lt_upper_bound; [done|].
    rewrite <- Z.pow_add_r by lia. apply Z.lt_le_trans with (2 ^ d); [lia|].
    apply Z.pow_le_mono_r; lia.
  - destruct (Z.le_gt_cases (d + e - prec) emin); [right; lia|left].
    apply Z.div_le_lower_bound; [done|]. unfold fmt_prec in *. rewrite <- Z.pow_add_r by lia.
    replace (fe - e + (mw + 1 - 1)) with (d - 1) by lia. lia.
Qed.

Lemma binary_round_aux_valid s m e :
  e <= fexp prec emax (Zpos (digits2_pos m) + e) ->
  valid (binary_round_aux prec emax s (Zpos m) e loc_Exact).
Proof.
  intros He. unfold binary_round_aux.
  pose proof (shr_fexp_spec (Zpos m) loc_Exact e ltac:(lia) He) as [Hm1 He1].
  pose proof (shifted_digits (Zpos m) e ltac:(lia) He) as (Hmin & Hr & Hfull).
  destruct (shr_fexp prec emax (Zpos m) e loc_Exact) as [mrs e1]. cbn [fst snd] in *.
  subst e1. set (fe := fexp prec emax (Zdigits2 (Zpos m) + e)) in *. rewrite <- Hm1 in Hr, Hfull.
  set (m2 := round_nearest_even (shr_m mrs) (loc_of_shr_record mrs)).
  assert (Hm2 : m2 = shr_m mrs \/ m2 = shr_m mrs + 1) by apply round_nearest_even_cases.
  assert (0 < prec) by (unfold fmt_prec; lia).
  pose proof (pow2_half prec ltac:(lia)) as Hp.
  assert (Hfx : fexp prec emax (Zdigits2 m2 + fe)
                = if m2 =? 2 ^ prec then fe + 1 else fe).
  { unfold fexp, SpecFloat.emin. fold emin.
    change (3 - emax - prec) with emin.
    destruct (Z.eqb_spec m2 (2 ^ prec)) as [E|E].
    - rewrite (Zdigits2_unique m2 (prec + 1)); [lia|lia|].
      replace (prec + 1 - 1) with prec by lia. rewrite E. split; [lia|].
      apply Z.pow_lt_mono_r; lia.
    - pose proof (Zdigits2_le m2 prec ltac:(lia) ltac:(lia) ltac:(lia)).
      destruct Hfull as [Hfull| ->]; [|lia].
      rewrite (Zdigits2_unique m2 prec) by lia. lia. }
  pose proof (shr_fexp_spec m2 loc_Exact fe ltac:(lia)) as Hs. cbn zeta in Hs.
  rewrite Hfx in Hs.
  destruct (shr_fexp prec emax m2 fe loc_Exact) as [mrs2 e2]. cbn [fst snd] in Hs.
  destruct Hs as [Hm3 ->]; [destruct (m2 =? 2 ^ prec); lia|].
  destruct (shr_m mrs2) as [|p|p] eqn:Ep; [done| |done].
  destruct (Z.leb_spec (if m2 =? 2 ^ prec then fe + 1 else fe) (emax - prec)) as [Hle|]; [|done].
  apply bounded_spec. destruct (Z.eqb_spec m2 (2 ^ prec)) as [E|E].
  - split; [lia|]. left. replace (fe + 1 - fe) with 1 in Hm3 by lia.
    rewrite E, Hp in Hm3. rewrite (Z.mul_comm 2), Z.div_mul in Hm3 by lia.
    apply digits2_unique. rewrite Hm3. split; [lia|]. apply Z.pow_lt_mono_r; lia.
  - split; [lia|]. rewrite Z.sub_diag, Z.div_1_r in Hm3.
    pose proof (Zdigits2_le m2 prec ltac:(lia) ltac:(lia) ltac:(lia)) as Hd.
    rewrite <- Hm3 in Hd. cbn [Zdigits2] in Hd.
    destruct Hfull as [Hfull| ->]; [left; apply digits2_unique; lia | lia].
Qed.

Lemma shl_align_spec m e fe :
  let '(m', e') := shl_align m e fe in
  Zpos (digits2_pos m') + e' = Zpos (digits2_pos m) + e /\ e' <= fe.
Proof.
  unfold shl_align. destruct (fe - e) as [|p|p] eqn:E; try (split; lia).
  split; [|lia]. assert (Hx : Zpos (Pos.iter xO m p) = Zpos m * 2 ^ Zpos p) by apply iter_xO_mul.
  pose proof (digits2_mul_pow2 m (Zpos p) ltac:(lia)) as H.
  rewrite <- Hx, Pos2Z.id in H. rewrite H. lia.
Qed.

Lemma binary_round_valid s m e : valid (binary_round prec emax s m e).
Proof.
  unfold binary_round.
  pose proof (shl_align_spec m e (fexp prec emax (Zpos (digits2_pos m) + e))) as Hs.
  destruct (shl_align m e _) as [m' e']. destruct Hs as [Hd He].
  apply binary_round_aux_valid. by rewrite Hd.
Qed.

Lemma sf_convert_valid mw' ew' x :
  valid_binary (fmt_prec mw') (fmt_emax ew') x = true -> valid (sf_convert prec emax x).
Proof. destruct x; try done. intros _. apply binary_round_valid. Qed.

Lemma binary_normalize_valid z e sz : valid (binary_normalize prec emax z e sz).
Proof. destruct z; [done|apply binary_round_valid..]. Qed.
End FormatLemmas.

(** ** The [f64] lemmas the components use *)

Definition f64_num (x : f64) : Z := sf_num 52 11 (sf64 x).
Definition f64_one : Z := 2 ^ 1074.

(** The rational a finite [f64] denotes. *)
Definition f64_Q (x : f64) : Q := Qmake (f64_num x) (Z.to_pos f64_one).

Lemma f64_one_pos : 0 < f64_one.
Proof. done. Qed.

#[global] Opaque f64_one.

Lemma f64_one_eq : sf_one 52 11 = f64_one.
Proof. done. Qed.

Lemma sf64_valid x : valid_binary 53 1024 (sf64 x) = true.
Proof. by apply (sf_of_bits_valid 52 11). Qed.

Lemma sf64_of_sf x : valid_binary 53 1024 x = true -> sf64 (f64_of_sf x) = x.
Proof. intros. by apply (sf_of_bits_of_sf 52 11). Qed.

Lemma f64_of_sf_range x :
  valid_binary 53 1024 x = true -> 0 <= f64_bits (f64_of_sf x) < 2 ^ 64.
Proof. intros. by apply (bits_of_sf_range 52 11). Qed.

Lemma f64_cmp_num x y :
  f64_is_finite x = true -> f64_is_finite y = true ->
  f64_cmp x y = Some (f64_num x ?= f64_num y).
Proof. intros. apply (SFcompare_num 52 11); try done; apply sf64_valid. Qed.

Lemma f64_as_int_num lo hi x :
  lo <= 0 <= hi -> f64_is_finite x = true ->
  f64_as_int lo hi x = saturate lo hi (Z.quot (f64_num x) f64_one).
Proof.
  intros Hr. pose proof (sf64_valid x) as Hv.
  unfold f64_is_finite, f64_as_int, f64_num.
  destruct (sf64 x) as [s|s| |s m e]; try done; intros _.
  - cbn [sf_num]. rewrite Z.quot_0_l by (pose proof f64_one_pos; lia).
    by rewrite saturate_id.
  - f_equal. rewrite <- f64_one_eq. by apply sf_truncZ_num.
Qed.

Lemma normalize64_exact z e sz :
  Z.abs z < 2 ^ 53 -> -1074 <= e <= 971 ->
  let r := binary_normalize 53 1024 z e sz in
  valid_binary 53 1024 r = true /\ sf_is_finite r = true /\
  sf_num 52 11 r = z * 2 ^ (e - -1074).
Proof. intros Hz He. by apply (binary_normalize_exact 52 11). Qed.

Lemma f64_rint_num rnd x z :
  f64_is_finite x = true ->
  (forall s m e, sf64 x = S754_finite s m e ->
     0 <= e /\ z * f64_one = f64_num x \/ e < 0 /\ rnd s m e = z /\ Z.abs z < 2 ^ 53) ->
  (forall s, sf64 x = S754_zero s -> z = 0) ->
  f64_is_finite (f64_rint rnd x) = true /\ f64_num (f64_rint rnd x) = z * f64_one.
Proof.
  unfold f64_is_finite, f64_num, f64_rint. intros Hf Hfin Hzero.
  destruct (sf64 x) as [s|s| |s m e] eqn:Hx; try done.
  - rewrite Hx. by rewrite (Hzero s eq_refl).
  - destruct (Hfin s m e eq_refl) as [[He Hz]|(He & Hz & Hlt)].
    + rewrite (proj2 (Z.leb_le 0 e) He), Hx. done.
    + rewrite (proj2 (Z.leb_gt 0 e) He), Hz.
      destruct (normalize64_exact z 0 s Hlt) as (Hv & Hf' & Hn); [done|].
      rewrite sf64_of_sf by done. by rewrite Hn.
Qed.

(** A finite value with a non-negative exponent is an integer. *)
Lemma f64_integral_exponent x s m e :
  sf64 x = S754_finite s m e -> 0 <= e -> f64_num x = sf_mant s m * 2 ^ e * f64_one.
Proof.
  intros Hx He. pose proof (sf64_valid x) as Hv. rewrite Hx in Hv.
  unfold f64_num, sf_mant. rewrite Hx. cbn [sf_num]. rewrite cond_Zopp_mul.
  change (fmt_emin 52 11) with (-1074). rewrite <- f64_one_eq.
  change (sf_one 52 11) with (2 ^ 1074).
  replace (e - -1074) with (e + 1074) by lia. rewrite Z.pow_add_r by lia. lia.
Qed.

Lemma f64_mantissa_small x s m e :
  sf64 x = S754_finite s m e -> e < 0 -> Z.abs (f64_num x) < 2 ^ 52 * f64_one.
Proof.
  intros Hx He. pose proof (sf64_valid x) as Hv. rewrite Hx in Hv.
  apply (bounded_spec 52 11) in Hv as [Hb Hd]; [|done..].
  change (fmt_prec 52) with 53 in *. change (fmt_emin 52 11) with (-1074) in *.
  pose proof (digits2_bounds m) as Hm.
  assert (2 ^ Zpos (digits2_pos m) <= 2 ^ 53) by (apply Z.pow_le_mono_r; lia).
  unfold f64_num. rewrite Hx. cbn [sf_num]. change (fmt_emin 52 11) with (-1074).
  assert (Z.abs (cond_Zopp s (Zpos m * 2 ^ (e - -1074))) = Zpos m * 2 ^ (e - -1074)) as ->.
  { assert (0 < 2 ^ (e - -1074)) by (apply Z.pow_pos_nonneg; lia).
    destruct s; simpl; lia. }
  rewrite <- f64_one_eq. change (sf_one 52 11) with (2 ^ 1074).
  apply Z.lt_le_trans with (2 ^ 53 * 2 ^ (e - -1074)).
  - apply Z.mul_lt_mono_pos_r; [apply Z.pow_pos_nonneg; lia | lia].
  - rewrite <- !Z.pow_add_r by lia. apply Z.pow_le_mono_r; lia.
Qed.

Lemma f64_num_zero x s : sf64 x = S754_zero s -> f64_num x = 0.
Proof. intros H. unfold f64_num. by rewrite H. Qed.

(** [floor] is exact: the scaled value rounded down to a multiple of one. *)
Lemma f64_floor_num x :
  f64_is_finite x = true ->
  f64_is_finite (f64_floor x) = true /\
  f64_num (f64_floor x) = (f64_num x / f64_one) * f64_one.
Proof.
  intros Hf. pose proof f64_one_pos as H1. apply f64_rint_num; [done|..].
  - intros s m e Hx. destruct (Z.le_gt_cases 0 e) as [He|He]; [left|right].
    + split; [done|]. rewrite (f64_integral_exponent _ _ _ _ Hx He).
      by rewrite Z.div_mul by lia.
    + pose proof (f64_mantissa_small _ _ _ _ Hx He) as Hs. split; [done|].
      pose proof (sf64_valid x) as Hv. rewrite Hx in Hv. split.
      * rewrite (sf_floorZ_num 52 11) by done. by rewrite f64_one_eq, <- Hx.
      * assert (- 2 ^ 52 <= f64_num x / f64_one < 2 ^ 52); [|lia].
        split; [apply Z.div_le_lower_bound | apply Z.div_lt_upper_bound]; lia.
  - intros s Hx. by rewrite (f64_num_zero _ _ Hx).
Qed.

Lemma f64_ceil_num x :
  f64_is_finite x = true ->
  f64_is_finite (f64_ceil x) = true /\
  f64_num (f64_ceil x) = - (- f64_num x / f64_one) * f64_one.
Proof.
  intros Hf. pose proof f64_one_pos as H1. apply f64_rint_num; [done|..].
  - intros s m e Hx. destruct (Z.le_gt_cases 0 e) as [He|He]; [left|right].
    + split; [done|]. rewrite (f64_integral_exponent _ _ _ _ Hx He).
      rewrite <- Z.mul_opp_l, Z.div_mul by lia. lia.
    + pose proof (f64_mantissa_small _ _ _ _ Hx He) as Hs. split; [done|].
      pose proof (sf64_valid x) as Hv. rewrite Hx in Hv. split.
      * rewrite (sf_ceilZ_num 52 11) by done. by rewrite f64_one_eq, <- Hx.
      * assert (- 2 ^ 52 <= - f64_num x / f64_one < 2 ^ 52); [|lia].
        split; [apply Z.div_le_lower_bound | apply Z.div_lt_upper_bound]; lia.
  - intros s Hx. by rewrite (f64_num_zero _ _ Hx).
Qed.

(** Casting the result to an integer gives the exact rounded integer, clamped. *)
Lemma f64_floor_as_int lo hi x :
  lo <= 0 <= hi -> f64_is_finite x = true ->
  f64_as_int lo hi (f64_floor x) = saturate lo hi (f64_num x / f64_one).
Proof.
  intros Hr Hf. destruct (f64_floor_num x Hf) as [Hf' Hn]. pose proof f64_one_pos.
  rewrite f64_as_int_num, Hn, Z.quot_mul by (done || lia). done.
Qed.

Lemma f64_ceil_as_int lo hi x :
  lo <= 0 <= hi -> f64_is_finite x = true ->
  f64_as_int lo hi (f64_ceil x) = saturate lo hi (- (- f64_num x / f64_one)).
Proof.
  intros Hr Hf. destruct (f64_ceil_num x Hf) as [Hf' Hn]. pose proof f64_one_pos.
  rewrite f64_as_int_num, Hn, Z.quot_mul by (done || lia). done.
Qed.

(** [x.fract() != 0.0] exactly when the value is not an integer. *)
Lemma f64_fract_num x :
  f64_is_finite x = true ->
  f64_is_finite (f64_fract x) = true /\
  f64_num (f64_fract x) = Z.rem (f64_num x) f64_one.
Proof.
  intros Hf. pose proof f64_one_pos as H1. unfold f64_fract, f64_is_finite in *.
  destruct (sf64 x) as [s|s| |s m e] eqn:Hx; try done.
  - rewrite (f64_num_zero _ _ Hx). done.
  - destruct (Z.leb_spec 0 e) as [He|He].
    + rewrite (f64_integral_exponent _ _ _ _ Hx He), Z.rem_mul by lia. done.
    + pose proof (sf64_valid x) as Hv. rewrite Hx in Hv.
      apply (bounded_spec 52 11) in Hv as [Hb Hd]; [|done..].
      change (fmt_prec 52) with 53 in *. change (fmt_emin 52 11) with (-1074) in *.
      change (fmt_emax 11) with 1024 in *.
      pose proof (digits2_bounds m) as Hm.
      assert (2 ^ Zpos (digits2_pos m) <= 2 ^ 53) by (apply Z.pow_le_mono_r; lia).
      assert (0 < 2 ^ (- e)) as Hp by (apply Z.pow_pos_nonneg; lia).
      pose proof (Z.mod_pos_bound (Zpos m) (2 ^ (- e)) Hp) as Hmb.
      pose proof (Z.mod_le (Zpos m) (2 ^ (- e)) ltac:(lia) Hp) as Hml.
      destruct (normalize64_exact (cond_Zopp s (Zpos m mod 2 ^ (- e))) e false)
        as (Hv & Hf' & Hn); [destruct s; simpl; lia | lia |].
      rewrite sf64_of_sf by done. split; [done|].
      unfold f64_num. rewrite sf64_of_sf, Hn, Hx by done. cbn [sf_num].
      rewrite <- f64_one_eq. change (sf_one 52 11) with (2 ^ 1074).
      change (fmt_emin 52 11) with (-1074).
      assert (2 ^ 1074 = 2 ^ (- e) * 2 ^ (e - -1074)) as ->
        by (rewrite <- Z.pow_add_r by lia; f_equal; lia).
      assert (0 < 2 ^ (e - -1074)) as Hq by (apply Z.pow_pos_nonneg; lia).
      rewrite cond_Zopp_mul, Z.mul_rem_distr_r by lia. f_equal.
      destruct s; cbn [cond_Zopp].
      * rewrite Z.rem_opp_l by lia. by rewrite Z.rem_mod_nonneg by lia.
      * by rewrite Z.rem_mod_nonneg by lia.
Qed.

(** ** Narrower formats inside wider ones *)

Lemma scaled_value m e m' e' k :
  0 <= e + k -> 0 <= e' + k -> Zpos m * 2 ^ (e + k) = Zpos m' * 2 ^ (e' + k) ->
  e' <= e /\ Zpos m' = Zpos m * 2 ^ (e - e') \/ e <= e' /\ Zpos m = Zpos m' * 2 ^ (e' - e).
Proof.
  intros He He' Hv.
  destruct (Z.le_ge_cases e' e) as [Hle|Hle]; [left|right]; split; try done.
  - replace (e + k) with (e - e' + (e' + k)) in Hv by lia.
    rewrite Z.pow_add_r, Z.mul_assoc in Hv by lia.
    apply Z.mul_cancel_r in Hv; [done|]. apply Z.pow_nonzero; lia.
  - replace (e' + k) with (e' - e + (e + k)) in Hv by lia.
    rewrite (Z.pow_add_r _ (e' - e)), Z.mul_assoc in Hv by lia.
    apply Z.mul_cancel_r in Hv; [done|]. apply Z.pow_nonzero; lia.
Qed.

(** The format [(mw, ew)] is contained in the format [(mw', ew')]. *)
Definition fmt_sub (mw ew mw' ew' : Z) : Prop :=
  (0 < mw <= mw' /\ 1 < ew /\ 1 < ew' /\ mw + 1 < 2 ^ (ew - 1) /\ mw' + 1 < 2 ^ (ew' - 1)) /\
  fmt_emin mw' ew' <= fmt_emin mw ew /\
  fmt_emax ew - fmt_prec mw <= fmt_emax ew' - fmt_prec mw'.

Section Widen.
Context (mw ew mw' ew' : Z) (Hsub : fmt_sub mw ew mw' ew').
#[local] Notation valid x := (valid_binary (fmt_prec mw) (fmt_emax ew) x = true).
#[local] Notation valid' x := (valid_binary (fmt_prec mw') (fmt_emax ew') x = true).
#[local] Notation widen := (sf_convert (fmt_prec mw') (fmt_emax ew')).

(** Widening keeps the value. *)
Lemma widen_exact s m e :
  bounded (fmt_prec mw) (fmt_emax ew) m e = true ->
  exists m' e', widen (S754_finite s m e) = S754_finite s m' e' /\
    bounded (fmt_prec mw') (fmt_emax ew') m' e' = true /\
    Zpos m' * 2 ^ (e' - fmt_emin mw' ew') = Zpos m * 2 ^ (e - fmt_emin mw' ew').
Proof.
  destruct Hsub as [(? & ? & ? & ? & ?) [Hmin Hmax]]. intros Hb.
  apply (bounded_spec mw ew) in Hb as [He Hd]; [|lia..].
  destruct (binary_round_exact mw' ew' ltac:(done) s m e) as (m' & e' & Hr & Hb & Hn).
  - unfold fmt_prec in *. lia.
  - lia.
  - exists m', e'. split; [done|]. split; [done|].
    cbn [sf_num] in Hn. destruct s; cbn [cond_Zopp] in Hn; lia.
Qed.

Lemma widen_valid x : valid x -> valid' (widen x).
Proof.
  destruct x as [s|s| |s m e]; try done. intros Hv.
  destruct (widen_exact s m e Hv) as (m' & e' & -> & Hb & _). done.
Qed.

(** Narrowing a widened value gives it back. *)
Lemma narrow_widen x : valid x -> sf_convert (fmt_prec mw) (fmt_emax ew) (widen x) = x.
Proof.
  destruct x as [s|s| |s m e]; try done. intros Hv.
  destruct (widen_exact s m e Hv) as (m' & e' & -> & Hb & Hn).
  destruct Hsub as [(? & ? & ? & ? & ?) [Hmin Hmax]].
  cbn [sf_convert]. apply binary_round_value; [lia|done|].
  apply (bounded_spec mw' ew') in Hb as [Hb _]; [|lia..].
  apply (bounded_spec mw ew) in Hv as [Hv _]; [|lia..].
  apply (scaled_value _ _ _ _ (- fmt_emin mw' ew')); [lia|lia|]. by rewrite !Z.add_opp_r.
Qed.
End Widen.

(** Widening in two steps is widening at once. *)
Lemma widen_widen mw ew mw' ew' mw'' ew'' x :
  fmt_sub mw ew mw' ew' -> fmt_sub mw' ew' mw'' ew'' -> fmt_sub mw ew mw'' ew'' ->
  valid_binary (fmt_prec mw) (fmt_emax ew) x = true ->
  sf_convert (fmt_prec mw'') (fmt_emax ew'') (sf_convert (fmt_prec mw') (fmt_emax ew') x)
  = sf_convert (fmt_prec mw'') (fmt_emax ew'') x.
Proof.
  intros H1 H2 H3. destruct x as [s|s| |s m e]; try done. intros Hv.
  destruct (widen_exact _ _ _ _ H1 s m e Hv) as (m1 & e1 & -> & Hb1 & Hn1).
  destruct (widen_exact _ _ _ _ H3 s m e Hv) as (m2 & e2 & -> & Hb2 & Hn2).
  destruct H1 as [(? & ? & ? & ? & ?) [? ?]], H2 as [(? & ? & ? & ? & ?) [? ?]].
  cbn [sf_convert]. apply binary_round_value; [lia|done|].
  apply (bounded_spec mw' ew') in Hb1 as [Hb1 _]; [|lia..].
  apply (bounded_spec mw'' ew'') in Hb2 as [Hb2 _]; [|lia..].
  apply (bounded_spec mw ew) in Hv as [Hv _]; [|lia..].
  apply (scaled_value _ _ _ _ (- fmt_emin mw'' ew'')); [lia|lia|]. rewrite !Z.add_opp_r, Hn2.
  replace (e1 - fmt_emin mw'' ew'')
    with (e1 - fmt_emin mw' ew' + (fmt_emin mw' ew' - fmt_emin mw'' ew'')) by lia.
  rewrite Z.pow_add_r, Z.mul_assoc, Hn1, <- Z.mul_assoc, <- Z.pow_add_r by lia.
  do 2 f_equal. lia.
Qed.

Lemma f16_in_f32 : fmt_sub 10 5 23 8.
Proof. done. Qed.
Lemma f16_in_f64 : fmt_sub 10 5 52 11.
Proof. done. Qed.
Lemma f32_in_f64 : fmt_sub 23 8 52 11.
Proof. done. Qed.

(** The same with the precisions and exponents of the three formats. *)
Lemma widen_16_32_64 x :
  valid_binary 11 16 x = true ->
  sf_convert 53 1024 (sf_convert 24 128 x) = sf_convert 53 1024 x.
Proof. apply (widen_widen _ _ _ _ _ _ _ f16_in_f32 f32_in_f64 f16_in_f64). Qed.

Lemma widen_16_32_valid x :
  valid_binary 11 16 x = true -> valid_binary 24 128 (sf_convert 24 128 x) = true.
Proof. apply (widen_valid _ _ _ _ f16_in_f32). Qed.

Lemma narrow_64_32 x :
  valid_binary 24 128 x = true -> sf_convert 24 128 (sf_convert 53 1024 x) = x.
Proof. apply (narrow_widen _ _ _ _ f32_in_f64). Qed.

Lemma narrow_32_16 x :
  valid_binary 11 16 x = true -> sf_convert 11 16 (sf_convert 24 128 x) = x.
Proof. apply (narrow_widen _ _ _ _ f16_in_f32). Qed.

Lemma widen_16_64_nan x :
  valid_binary 11 16 x = true -> x <> S754_nan -> sf_convert 53 1024 x <> S754_nan.
Proof.
  intros Hv Hn. destruct x as [| | |s m e]; try done.
  destruct (widen_exact _ _ _ _ f16_in_f64 s m e Hv) as (m' & e' & Hw & _).
  intros E. assert (S754_finite s m' e' = S754_nan) by (rewrite <- Hw; exact E). done.
Qed.

Lemma sf32_of_sf x : valid_binary 24 128 x = true -> sf32 (f32_of_sf x) = x.
Proof. intros. by apply (sf_of_bits_of_sf 23 8). Qed.

Lemma f32_of_sf_range x :
  valid_binary 24 128 x = true -> 0 <= f32_bits (f32_of_sf x) < 2 ^ 32.
Proof. intros. by apply (bits_of_sf_range 23 8). Qed.

(** A half's bits are determined by its value, NaNs apart. *)
Lemma sf16_inj b b' :
  0 <= b < 2 ^ 16 -> 0 <= b' < 2 ^ 16 -> sf16 b <> S754_nan -> sf16 b = sf16 b' -> b = b'.
Proof.
  intros Hb Hb' Hn He. rewrite <- (bits_of_sf_of_bits 10 5 eq_refl eq_refl eq_refl b Hb Hn).
  fold (sf16 b). rewrite He. apply (bits_of_sf_of_bits 10 5); try done.
  change (sf16 b' <> S754_nan). by rewrite <- He.
Qed.

Lemma sf32_valid x : valid_binary 24 128 (sf32 x) = true.
Proof. by apply (sf_of_bits_valid 23 8). Qed.

Lemma sf16_valid b : valid_binary 11 16 (sf16 b) = true.
Proof. by apply (sf_of_bits_valid 10 5). Qed.

Lemma sf64_of_f32 x : sf64 (f64_of_f32 x) = sf_convert 53 1024 (sf32 x).
Proof. apply sf64_of_sf. apply (widen_valid _ _ _ _ f32_in_f64). apply sf32_valid. Qed.

(** [x as f64 as f32 = x], bit for bit unless [x] is a NaN. *)
Lemma f32_widen_narrow x :
  0 <= f32_bits x < 2 ^ 32 -> sf32 x <> S754_nan -> f32_of_f64 (f64_of_f32 x) = x.
Proof.
  intros Hx Hn. unfold f32_of_f64. rewrite sf64_of_f32.
  rewrite narrow_64_32 by apply sf32_valid. destruct x as [b].
  unfold f32_of_sf, sf32 in *. f_equal. by apply (bits_of_sf_of_bits 23 8).
Qed.

Lemma f64_eqb_refl x : f64_is_nan x = false -> f64_eqb x x = true.
Proof.
  unfold f64_eqb, f64_is_nan, f64_cmp. destruct (sf64 x) as [s|s| |s m e]; try done.
  - by destruct s.
  - intros _. cbn [SFcompare]. rewrite Z.compare_refl, Pos.compare_refl. by destruct s.
Qed.

(** Conversions give representable values, so their bits are in range. *)
Lemma sf32_of_f64 x : sf32 (f32_of_f64 x) = sf_convert 24 128 (sf64 x).
Proof.
  apply sf32_of_sf. apply (sf_convert_valid 23 8 eq_refl eq_refl 52 11), sf64_valid.
Qed.

Lemma f32_of_f64_range x : 0 <= f32_bits (f32_of_f64 x) < 2 ^ 32.
Proof.
  apply f32_of_sf_range.
  apply (sf_convert_valid 23 8 eq_refl eq_refl 52 11), sf64_valid.
Qed.

Lemma f64_of_f32_range x : 0 <= f64_bits (f64_of_f32 x) < 2 ^ 64.
Proof. apply f64_of_sf_range, (widen_valid _ _ _ _ f32_in_f64), sf32_valid. Qed.

Lemma sf64_of_Z z : sf64 (f64_of_Z z) = binary_normalize 53 1024 z 0 false.
Proof. apply sf64_of_sf, (binary_normalize_valid 52 11); done. Qed.

Lemma f64_of_Z_range z : 0 <= f64_bits (f64_of_Z z) < 2 ^ 64.
Proof. apply f64_of_sf_range, (binary_normalize_valid 52 11); done. Qed.

Lemma sf16_of_sf x : valid_binary 11 16 x = true -> sf16 (f16_of_sf x) = x.
Proof. intros. by apply (sf_of_bits_of_sf 10 5). Qed.

Lemma f16_of_sf_range x : valid_binary 11 16 x = true -> 0 <= f16_of_sf x < 2 ^ 16.
Proof. intros. by apply (bits_of_sf_range 10 5). Qed.

Lemma narrow_16_valid x :
  valid_binary 24 128 x = true -> valid_binary 11 16 (sf_convert 11 16 x) = true.
Proof. apply (sf_convert_valid 10 5 eq_refl eq_refl 23 8). Qed.

Lemma widen_16_64_valid x :
  valid_binary 11 16 x = true -> valid_binary 53 1024 (sf_convert 53 1024 x) = true.
Proof. apply (widen_valid _ _ _ _ f16_in_f64). Qed.
