(* ===== verification/FloatOps.v ===== *)
(** * Float arithmetic of the adapters

    The [f32] and [f64] operators and methods the adapter kernels use, on the bit
    patterns of [Float]: [SpecFloat]'s arithmetic rounds to nearest even like the
    hardware's.  The transcendental functions have no specified precision in Rust and
    are the class [Libm]. *)

From S2P Require Import Prelude Float.
From Stdlib Require Import SpecFloat.
#[local] Open Scope Z_scope.

(** ** [f64] *)

Definition f64_sub (x y : f64) : f64 := f64_of_sf (SFsub 53 1024 (sf64 x) (sf64 y)).
Definition f64_mul (x y : f64) : f64 := f64_of_sf (SFmul 53 1024 (sf64 x) (sf64 y)).
Definition f64_quot (x y : f64) : f64 := f64_of_sf (SFdiv 53 1024 (sf64 x) (sf64 y)).
Definition f64_sqrt (x : f64) : f64 := f64_of_sf (SFsqrt 53 1024 (sf64 x)).
(** The sign is a bit of its own. *)
Definition f64_neg (x : f64) : f64 := F64 (Z.lxor (f64_bits x) (2 ^ 63)).
Definition f64_abs (x : f64) : f64 := F64 (Z.land (f64_bits x) (2 ^ 63 - 1)).
Definition f64_le (x y : f64) : bool :=
  match f64_cmp x y with Some (Lt | Eq) => true | _ => false end.

(** [max] and [min] ignore a NaN. *)
Definition f64_max (x y : f64) : f64 :=
  if f64_is_nan x then y else if f64_is_nan y then x else if f64_lt x y then y else x.
Definition f64_min (x y : f64) : f64 :=
  if f64_is_nan x then y else if f64_is_nan y then x else if f64_gt x y then y else x.

(** [clamp] panics unless the bounds are ordered. *)
Definition f64_clamp (x low high : f64) : option f64 :=
  if f64_le low high
  then Some (let x := if f64_lt x low then low else x in if f64_gt x high then high else x)
  else None.

(** Half to even. *)
Definition sf_evenZ (s : bool) (m : positive) (e : Z) : Z :=
  let unit := 2 ^ (- e) in
  let quot := Zpos m / unit in
  let twice := 2 * (Zpos m mod unit) in
  cond_Zopp s
    (if (twice <? unit) || ((twice =? unit) && Z.even quot) then quot else quot + 1).

Definition f64_round_ties_even : f64 -> f64 := f64_rint sf_evenZ.
Definition f64_trunc : f64 -> f64 := f64_rint sf_truncZ.

(** [iter.sum()] starts from the additive identity [-0.0]. *)
Definition f64_sum (l : list f64) : f64 := fold_left f64_add l (f64_neg f64_zero).

(** Literals, as the quotient of two integers that are exact. *)
Definition f64_ratio (n d : Z) : f64 := f64_quot (f64_of_Z n) (f64_of_Z d).

(** ** [f32] *)

Definition f32_zero : f32 := F32 0.
Definition f32_add (x y : f32) : f32 := f32_of_sf (SFadd 24 128 (sf32 x) (sf32 y)).
Definition f32_sub (x y : f32) : f32 := f32_of_sf (SFsub 24 128 (sf32 x) (sf32 y)).
Definition f32_mul (x y : f32) : f32 := f32_of_sf (SFmul 24 128 (sf32 x) (sf32 y)).
Definition f32_quot (x y : f32) : f32 := f32_of_sf (SFdiv 24 128 (sf32 x) (sf32 y)).
Definition f32_sqrt (x : f32) : f32 := f32_of_sf (SFsqrt 24 128 (sf32 x)).
Definition f32_neg (x : f32) : f32 := F32 (Z.lxor (f32_bits x) (2 ^ 31)).

Definition f32_is_nan (x : f32) : bool := sf_is_nan (sf32 x).
Definition f32_cmp (x y : f32) : option comparison := SFcompare (sf32 x) (sf32 y).
Definition f32_gt (x y : f32) : bool := match f32_cmp x y with Some Gt => true | _ => false end.
Definition f32_lt (x y : f32) : bool := match f32_cmp x y with Some Lt => true | _ => false end.
Definition f32_ge (x y : f32) : bool := match f32_cmp x y with Some (Gt | Eq) => true | _ => false end.
Definition f32_le (x y : f32) : bool := match f32_cmp x y with Some (Lt | Eq) => true | _ => false end.
Definition f32_eqb (x y : f32) : bool := match f32_cmp x y with Some Eq => true | _ => false end.

Definition f32_clamp (x low high : f32) : option f32 :=
  if f32_le low high
  then Some (let x := if f32_lt x low then low else x in if f32_gt x high then high else x)
  else None.

Definition f32_sum (l : list f32) : f32 := fold_left f32_add l (f32_neg f32_zero).

(** [i as f32]. *)
Definition f32_of_Z (z : Z) : f32 := f32_of_sf (binary_normalize 24 128 z 0 false).

#[export] Instance f32_eq_dec : EqDecision f32.
Proof. solve_decision. Defined.

(** ** Transcendental functions *)

Class Libm : Type := {
  f64_sin : f64 -> f64;
  f64_cos : f64 -> f64;
  f64_atan2 : f64 -> f64 -> f64;
  f64_hypot : f64 -> f64 -> f64;
}.

(** ** Lemmas *)

Lemma sf_compare_swap x y : SFcompare y x = option_map CompOpp (SFcompare x y).
Proof.
  destruct x as [[]|[]| |[] m e], y as [[]|[]| |[] m' e']; try done; cbn [SFcompare option_map];
    rewrite (Z.compare_antisym e e'); fold (Pos.compare m m') (Pos.compare m' m);
    rewrite (Pos.compare_antisym m m'); by destruct (e ?= e'), (m ?= m')%positive.
Qed.

Lemma sf_compare_refl x : sf_is_nan x = false -> SFcompare x x = Some Eq.
Proof.
  destruct x as [[]|[]| |[] m e]; try done; intros _; cbn [SFcompare];
    fold (Pos.compare m m); by rewrite Z.compare_refl, Pos.compare_refl.
Qed.

Lemma sf_compare_Some x y :
  is_Some (SFcompare x y) <-> sf_is_nan x = false /\ sf_is_nan y = false.
Proof.
  split; [|intros [??]; destruct x, y; try done; simpl; eauto].
  intros [c Hc]. by destruct x, y.
Qed.

(** A clamped number lies between its bounds; a NaN is returned as it is. *)
Lemma f32_clamp_range x low high y :
  f32_clamp x low high = Some y -> f32_is_nan x = false ->
  f32_le low y = true /\ f32_le y high = true.
Proof.
  unfold f32_clamp, f32_le, f32_lt, f32_gt, f32_cmp, f32_is_nan. intros Hc Hx.
  assert (is_Some (SFcompare (sf32 low) (sf32 high))) as [Hl Hh]%sf_compare_Some.
  { destruct (SFcompare (sf32 low) (sf32 high)); [by eauto|done]. }
  pose proof (sf_compare_refl _ Hl) as Rl. pose proof (sf_compare_refl _ Hh) as Rh.
  destruct (proj2 (sf_compare_Some (sf32 low) (sf32 x)) (conj Hl Hx)) as [a Ha].
  destruct (proj2 (sf_compare_Some (sf32 x) (sf32 high)) (conj Hx Hh)) as [b Hb].
  destruct (SFcompare (sf32 low) (sf32 high)) as [[]|] eqn:Hlh; try done;
    simplify_eq/=; rewrite (sf_compare_swap (sf32 low) (sf32 x)), Ha; destruct a, b; simpl;
    rewrite ?Hb, ?Hlh, ?Rl, ?Rh, ?Ha; simpl; rewrite ?Hb, ?Hlh, ?Rl, ?Rh, ?Ha; done.
Qed.

Lemma f32_clamp_nan x low high y :
  f32_clamp x low high = Some y -> f32_is_nan x = true -> y = x.
Proof.
  unfold f32_clamp, f32_lt, f32_gt, f32_cmp, f32_is_nan. case_match; [|done].
  intros [= <-] Hx. destruct (sf32 x) eqn:E; try done. simpl. by rewrite E.
Qed.

Lemma f32_clamp_total x low high : f32_le low high = true -> is_Some (f32_clamp x low high).
Proof. intros H. unfold f32_clamp. rewrite H. by eauto. Qed.

(** The result of an operation is a value of the format, so widening it and
    narrowing it back is the identity, a NaN included. *)
Lemma sf32_add_valid x y : valid_binary 24 128 (SFadd 24 128 (sf32 x) (sf32 y)) = true.
Proof.
  pose proof (sf32_valid x) as Hx. pose proof (sf32_valid y) as Hy.
  destruct (sf32 x) as [[]|[]| |sx mx ex], (sf32 y) as [[]|[]| |sy my ey]; try done; cbn [SFadd];
    apply (binary_normalize_valid 23 8); done.
Qed.

Lemma f32_add_widen_narrow x y : f32_of_f64 (f64_of_f32 (f32_add x y)) = f32_add x y.
Proof.
  unfold f32_of_f64. rewrite sf64_of_f32. unfold f32_add.
  rewrite sf32_of_sf by apply sf32_add_valid. by rewrite narrow_64_32 by apply sf32_add_valid.
Qed.
