(* ===== verification/DType.v ===== *)
(** * Element types

    [rlmesh-spaces/src/dtype.rs] and the DLPack table of
    [rlmesh-spaces/src/tensor/dlpack.rs]. *)

From S2P Require Import Prelude.

Inductive DType : Set :=
| Unspecified | Bool
| Uint8 | Uint16 | Uint32 | Uint64
| Int8 | Int16 | Int32 | Int64
| Float16 | Float32 | Float64.

#[export] Instance DType_eq_dec : EqDecision DType.
Proof. solve_decision. Defined.

(** [impl TryFrom<i32> for DType]. *)
Definition dtype_try_from (value : Z) : result DType string :=
  match value with
  | 0 => Ok Unspecified
  | 1 => Ok Bool
  | 2 => Ok Uint8
  | 3 => Ok Uint16
  | 4 => Ok Uint32
  | 5 => Ok Uint64
  | 6 => Ok Int8
  | 7 => Ok Int16
  | 8 => Ok Int32
  | 9 => Ok Int64
  | 10 => Ok Float16
  | 11 => Ok Float32
  | 12 => Ok Float64
  | _ => Err "invalid dtype"%string
  end.

(** The discriminants, [impl From<DType> for i32]. *)
Definition dtype_to_i32 (d : DType) : Z :=
  match d with
  | Unspecified => 0
  | Bool => 1
  | Uint8 => 2
  | Uint16 => 3
  | Uint32 => 4
  | Uint64 => 5
  | Int8 => 6
  | Int16 => 7
  | Int32 => 8
  | Int64 => 9
  | Float16 => 10
  | Float32 => 11
  | Float64 => 12
  end.

Definition DType_ALL : list DType :=
  [Unspecified; Bool; Uint8; Uint16; Uint32; Uint64; Int8; Int16; Int32; Int64;
   Float16; Float32; Float64].

Definition dtype_name (d : DType) : string :=
  match d with
  | Unspecified => "unspecified"
  | Bool => "bool"
  | Uint8 => "uint8"
  | Int32 => "int32"
  | Int64 => "int64"
  | Float16 => "float16"
  | Float32 => "float32"
  | Float64 => "float64"
  | Int8 => "int8"
  | Int16 => "int16"
  | Uint16 => "uint16"
  | Uint32 => "uint32"
  | Uint64 => "uint64"
  end%string.

Definition dtype_from_name (name : string) : option DType :=
  if String.eqb name "bool" then Some Bool
  else if String.eqb name "uint8" then Some Uint8
  else if String.eqb name "int32" then Some Int32
  else if String.eqb name "int64" then Some Int64
  else if String.eqb name "float16" then Some Float16
  else if String.eqb name "float32" then Some Float32
  else if String.eqb name "float64" then Some Float64
  else if String.eqb name "int8" then Some Int8
  else if String.eqb name "int16" then Some Int16
  else if String.eqb name "uint16" then Some Uint16
  else if String.eqb name "uint32" then Some Uint32
  else if String.eqb name "uint64" then Some Uint64
  else None.

(** The [#[derive(Debug)]] rendering. *)
Definition dtype_debug (d : DType) : string :=
  match d with
  | Unspecified => "Unspecified"
  | Bool => "Bool"
  | Uint8 => "Uint8"
  | Uint16 => "Uint16"
  | Uint32 => "Uint32"
  | Uint64 => "Uint64"
  | Int8 => "Int8"
  | Int16 => "Int16"
  | Int32 => "Int32"
  | Int64 => "Int64"
  | Float16 => "Float16"
  | Float32 => "Float32"
  | Float64 => "Float64"
  end%string.

Definition is_integer (d : DType) : bool :=
  match d with
  | Uint8 | Int8 | Int16 | Uint16 | Int32 | Uint32 | Int64 | Uint64 => true
  | _ => false
  end.

Definition is_float (d : DType) : bool :=
  match d with
  | Float16 | Float32 | Float64 => true
  | _ => false
  end.

(** Byte size of one element. *)
Definition dtype_size (d : DType) : nat :=
  match d with
  | Unspecified => 0
  | Bool | Uint8 | Int8 => 1
  | Float16 | Int16 | Uint16 => 2
  | Int32 | Uint32 | Float32 => 4
  | Int64 | Uint64 | Float64 => 8
  end.

Lemma dtype_size_pos d : d <> Unspecified -> (0 < dtype_size d)%nat.
Proof. destruct d; simpl; lia || done. Qed.

Lemma dtype_size_le_8 d : (dtype_size d <= 8)%nat.
Proof. destruct d; simpl; lia. Qed.

#[export] Hint Resolve dtype_size_pos : rlmesh.

(** ** DLPack *)

Record DLPackType : Type := { code : Z; bits : Z; lanes : Z }.

Definition dl_int : Z := 0.
Definition dl_uint : Z := 1.
Definition dl_float : Z := 2.
Definition dl_bool : Z := 6.

Definition dlpack_type (d : DType) : option DLPackType :=
  let make '(c, b) := Some {| code := c; bits := b; lanes := 1 |} in
  match d with
  | Unspecified => None
  | Bool => make (dl_bool, 8)
  | Uint8 => make (dl_uint, 8)
  | Uint16 => make (dl_uint, 16)
  | Uint32 => make (dl_uint, 32)
  | Uint64 => make (dl_uint, 64)
  | Int8 => make (dl_int, 8)
  | Int16 => make (dl_int, 16)
  | Int32 => make (dl_int, 32)
  | Int64 => make (dl_int, 64)
  | Float16 => make (dl_float, 16)
  | Float32 => make (dl_float, 32)
  | Float64 => make (dl_float, 64)
  end.

Definition dtype_from_dlpack (ty : DLPackType) : option DType :=
  if negb (lanes ty =? 1) then None
  else match code ty, bits ty with
  | 6, 8 => Some Bool
  | 1, 8 => Some Uint8
  | 1, 16 => Some Uint16
  | 1, 32 => Some Uint32
  | 1, 64 => Some Uint64
  | 0, 8 => Some Int8
  | 0, 16 => Some Int16
  | 0, 32 => Some Int32
  | 0, 64 => Some Int64
  | 2, 16 => Some Float16
  | 2, 32 => Some Float32
  | 2, 64 => Some Float64
  | _, _ => None
  end.

(** ** Round trips *)

(** The three encodings of a dtype (wire discriminant, name, DLPack triple)
    decode back to it, and the partial ones reject exactly [Unspecified]. *)
Theorem dtype_codes_roundtrip (d : DType) :
  dtype_try_from (dtype_to_i32 d) = Ok d /\
  dtype_from_name (dtype_name d) = (if decide (d = Unspecified) then None else Some d) /\
  (dlpack_type d ≫= dtype_from_dlpack) = (if decide (d = Unspecified) then None else Some d).
Proof. by destruct d. Qed.

(** Decoding is injective: what decodes is the encoding of what it decodes to. *)
Lemma dtype_try_from_inv z d : dtype_try_from z = Ok d -> z = dtype_to_i32 d.
Proof.
  unfold dtype_try_from. intros H.
  repeat (case_match; simplify_eq/=; try done).
Qed.

Lemma dtype_from_dlpack_inv ty d :
  dtype_from_dlpack ty = Some d -> dlpack_type d = Some ty.
Proof.
  destruct ty as [c b l]. unfold dtype_from_dlpack. simpl.
  destruct (Z.eqb_spec l 1) as [->|]; [|done]. intros H.
  repeat (case_match; simplify_eq/=; try done).
Qed.
