(* ===== verification/Scalar.v ===== *)
(** * Scalars and their byte codec

    [rlmesh-spaces/src/scalar.rs]: the dtype-independent scalar, its exact
    comparison across the integer and float domains, and the little-endian
    element codec.  The half-precision conversions of the [half] crate are the
    class [HalfOps], with their documented behaviour as [HalfLaws]. *)

From S2P Require Import Prelude Float DType.
From Stdlib Require Import SpecFloat QArith.
#[local] Open Scope Z_scope.

(** ** The [half] crate *)

(** [f16::from_le_bytes(..).to_f64()] and [f16::from_f32(..).to_bits()], a
    half-precision number being its 16 bits. *)
Class HalfOps : Type := {
  half_to_f64 : Z -> f64;
  half_from_f32 : f32 -> Z;
}.

(** Widening is exact; narrowing from [f32] rounds to nearest, ties to even;
    both send a NaN to a NaN. *)
Class HalfLaws (H : HalfOps) : Prop := {
  half_to_f64_exact b : 0 <= b < 2 ^ 16 ->
    sf64 (half_to_f64 b) = sf_convert 53 1024 (sf16 b);
  half_from_f32_range x : 0 <= half_from_f32 x < 2 ^ 16;
  half_from_f32_rne x : 0 <= f32_bits x < 2 ^ 32 ->
    sf16 (half_from_f32 x) = sf_convert 11 16 (sf32 x);
}.

(** ** Scalars *)

Inductive Scalar : Type :=
| SBool (b : bool)
| SInt (i : Z)
| SFloat (f : f64).

#[export] Instance Scalar_eq_dec : EqDecision Scalar.
Proof. solve_decision. Defined.

(** The [i64] of [SInt] is in range. *)
Definition scalar_wf (s : Scalar) : Prop :=
  match s with SInt i => i64_min <= i <= i64_max | _ => True end.

Definition as_i64 (s : Scalar) : Z :=
  match s with
  | SBool value => Z.b2z value
  | SInt value => value
  | SFloat value => f64_as_int i64_min i64_max value
  end.

Definition as_u64 (s : Scalar) : Z :=
  match s with
  | SBool value => Z.b2z value
  | SInt value => wrap_u 64 value
  | SFloat value => f64_as_int 0 u64_max value
  end.

Definition to_f64 (s : Scalar) (dtype : DType) : f64 :=
  match s with
  | SBool value => f64_of_Z (Z.b2z value)
  | SFloat value => value
  | SInt value =>
      if decide (dtype = Uint64) then f64_of_Z (wrap_u 64 value) else f64_of_Z value
  end.

(** ** Comparison *)

Inductive IntOperand : Type :=
| Signed (i : Z)
| Unsigned (i : Z).

(** [None] is the [unreachable!] arm. *)
Definition int_operand (s : Scalar) (dtype : DType) : option IntOperand :=
  match s with
  | SFloat _ => None
  | _ => if decide (dtype = Uint64) then Some (Unsigned (as_u64 s))
         else Some (Signed (as_i64 s))
  end.

Definition refine_int_vs_float (int_cmp_floor : comparison) (f floor : f64) : comparison :=
  match int_cmp_floor with
  | Lt => Lt
  | Gt => Gt
  | Eq => if f64_eqb f floor then Eq else Lt
  end.

(** [2.0f64.powi(k)]. *)
Definition f64_pow2 (k : Z) : f64 := f64_of_Z (2 ^ k).
Definition f64_neg_pow2 (k : Z) : f64 := f64_of_Z (- 2 ^ k).

Definition cmp_float_int (f : f64) (i : IntOperand) : option comparison :=
  if f64_is_nan f then None
  else
    let floor := f64_floor f in
    let result :=
      match i with
      | Signed i =>
          if f64_lt floor (f64_neg_pow2 63) then Gt
          else if f64_ge floor (f64_pow2 63) then Lt
          else refine_int_vs_float (i ?= f64_as_int i64_min i64_max floor) f floor
      | Unsigned i =>
          if f64_lt floor f64_zero then Gt
          else if f64_ge floor (f64_pow2 64) then Lt
          else refine_int_vs_float (i ?= f64_as_int 0 u64_max floor) f floor
      end in
    Some (CompOpp result).

(** The outer [option] is the panic of [int_operand], the inner one the
    unordered result. *)
Definition cmp_typed (self other : Scalar) (dtype : DType) : option (option comparison) :=
  match self, other with
  | SFloat a, SFloat b => Some (f64_cmp a b)
  | SBool a, SBool b => Some (Some (Z.b2z a ?= Z.b2z b))
  | SFloat f, other =>
      let! i := int_operand other dtype in Some (cmp_float_int f i)
  | this, SFloat f =>
      let! i := int_operand this dtype in Some (CompOpp <$> cmp_float_int f i)
  | a, b =>
      if decide (dtype = Uint64) then Some (Some (as_u64 a ?= as_u64 b))
      else Some (Some (as_i64 a ?= as_i64 b))
  end.

(** ** Range checks *)

Inductive ScalarError : Type :=
| UnspecifiedDtype
| ByteLengthMismatch (len elem : nat) (dtype : DType)
| OutOfRange (value : string) (dtype : DType).

#[export] Instance ScalarError_eq_dec : EqDecision ScalarError.
Proof. solve_decision. Defined.

(** The [#[error(..)]] texts. *)
Definition scalar_error_message (e : ScalarError) : message :=
  match e with
  | UnspecifiedDtype => lit "cannot encode or decode scalars with unspecified dtype"
  | ByteLengthMismatch len elem dtype =>
      Msg "byte length {len} is not a multiple of element size {elem} for {dtype:?}"
        [ANat len; ANat elem; AStr (dtype_debug dtype)]
  | OutOfRange value dtype =>
      Msg "value {value} is out of range for {dtype:?}" [AStr value; AStr (dtype_debug dtype)]
  end.

Definition signed_dtype_range (dtype : DType) : option (Z * Z) :=
  match dtype with
  | Bool => Some (0, 1)
  | Uint8 => Some (0, 2 ^ 8 - 1)
  | Int8 => Some (- 2 ^ 7, 2 ^ 7 - 1)
  | Int16 => Some (- 2 ^ 15, 2 ^ 15 - 1)
  | Uint16 => Some (0, 2 ^ 16 - 1)
  | Int32 => Some (- 2 ^ 31, 2 ^ 31 - 1)
  | Uint32 => Some (0, 2 ^ 32 - 1)
  | Int64 => Some (i64_min, i64_max)
  | Uint64 => Some (0, i64_max)
  | _ => None
  end.

Definition check_int_in_dtype_range (value : Z) (dtype : DType) : result unit ScalarError :=
  if decide (dtype = Unspecified) then Err UnspecifiedDtype
  else match signed_dtype_range dtype with
       | Some (lo, hi) =>
           if negb (within lo hi value) then Err (OutOfRange (pretty value) dtype) else Ok tt
       | None => Ok tt
       end.

Definition check_uint_in_dtype_range (value : Z) (dtype : DType) : result unit ScalarError :=
  if decide (dtype = Unspecified) then Err UnspecifiedDtype
  else
    let out_of_range :=
      match dtype with
      | Uint64 => false
      | Bool => 1 <? value
      | Uint8 => 2 ^ 8 - 1 <? value
      | Uint16 => 2 ^ 16 - 1 <? value
      | Uint32 => 2 ^ 32 - 1 <? value
      | Int8 => 2 ^ 7 - 1 <? value
      | Int16 => 2 ^ 15 - 1 <? value
      | Int32 => 2 ^ 31 - 1 <? value
      | Int64 => i64_max <? value
      | _ => false
      end in
    if out_of_range then Err (OutOfRange (pretty value) dtype) else Ok tt.

(** ** The codec *)

Section Codec.
Context `{HalfOps}.

Definition float_value (value : Scalar) : f64 :=
  match value with
  | SBool value => f64_of_Z (Z.b2z value)
  | SInt value => f64_of_Z value
  | SFloat value => value
  end.

(** Round to odd in [f32], then let the crate round to nearest. *)
Definition f64_to_f16_bits (value : f64) : Z :=
  let nearest := f32_of_f64 value in
  let odd :=
    if f64_eqb (f64_of_f32 nearest) value then nearest
    else F32 (Z.lor (f32_bits nearest) 1) in
  half_from_f32 odd.

(** The bytes [encode_one] appends; [None] is its [unreachable!] arm. *)
Definition encode_one (value : Scalar) (dtype : DType) : option (list byte) :=
  match dtype with
  | Bool =>
      Some (le_split 1
        (Z.b2z match value with
         | SBool value => value
         | SInt value => negb (value =? 0)
         | SFloat value => negb (f64_eqb value f64_zero)
         end))
  | Uint8 =>
      Some (le_split 1
        match value with
        | SBool value => Z.b2z value
        | SInt value => wrap_u 8 value
        | SFloat value => f64_as_int 0 (2 ^ 8 - 1) value
        end)
  | Int8 => Some (le_split 1 (wrap_s 8 (as_i64 value)))
  | Int16 => Some (le_split 2 (wrap_s 16 (as_i64 value)))
  | Int32 => Some (le_split 4 (wrap_s 32 (as_i64 value)))
  | Int64 => Some (le_split 8 (as_i64 value))
  | Uint16 => Some (le_split 2 (wrap_u 16 (as_i64 value)))
  | Uint32 => Some (le_split 4 (wrap_u 32 (as_i64 value)))
  | Uint64 => Some (le_split 8 (wrap_u 64 (as_i64 value)))
  | Float16 => Some (le_split 2 (f64_to_f16_bits (float_value value)))
  | Float32 => Some (le_split 4 (f32_bits (f32_of_f64 (float_value value))))
  | Float64 => Some (le_split 8 (f64_bits (float_value value)))
  | Unspecified => None
  end.

Definition encode_scalars (values : list Scalar) (dtype : DType)
    : option (result (list byte) ScalarError) :=
  if decide (dtype = Unspecified) then Some (Err UnspecifiedDtype)
  else
    let! encoded := mapM (fun value => encode_one value dtype) values in
    Some (Ok (concat encoded)).

Definition encode_i64_scalars (values : list Z) (dtype : DType)
    : option (result (list byte) ScalarError) :=
  if decide (dtype = Unspecified) then Some (Err UnspecifiedDtype)
  else
    let! encoded := mapM (fun value => encode_one (SInt value) dtype) values in
    Some (Ok (concat encoded)).

(** [chunk.try_into().expect(..)]: panics unless the chunk has [n] bytes. *)
Definition le_bytes (n : nat) (chunk : list byte) : option (list byte) :=
  if Nat.eqb (length chunk) n then Some chunk else None.

(** [None] is a panic: [Unspecified] or a chunk of the wrong length. *)
Definition decode_scalar (chunk : list byte) (dtype : DType) : option Scalar :=
  match dtype with
  | Bool => let! b := head chunk in Some (SBool (negb (byte.unsigned b =? 0)))
  | Uint8 => let! b := head chunk in Some (SInt (byte.unsigned b))
  | Int8 => let! b := head chunk in Some (SInt (wrap_s 8 (byte.unsigned b)))
  | Int16 => let! bs := le_bytes 2 chunk in Some (SInt (from_le_s bs))
  | Uint16 => let! bs := le_bytes 2 chunk in Some (SInt (le_combine bs))
  | Int32 => let! bs := le_bytes 4 chunk in Some (SInt (from_le_s bs))
  | Uint32 => let! bs := le_bytes 4 chunk in Some (SInt (le_combine bs))
  | Int64 => let! bs := le_bytes 8 chunk in Some (SInt (from_le_s bs))
  | Uint64 => let! bs := le_bytes 8 chunk in Some (SInt (wrap_s 64 (le_combine bs)))
  | Float16 => let! bs := le_bytes 2 chunk in Some (SFloat (half_to_f64 (le_combine bs)))
  | Float32 =>
      let! bs := le_bytes 4 chunk in Some (SFloat (f64_of_f32 (F32 (le_combine bs))))
  | Float64 => let! bs := le_bytes 8 chunk in Some (SFloat (F64 (le_combine bs)))
  | Unspecified => None
  end.

Definition decode_scalars (bytes : list byte) (dtype : DType)
    : option (result (list Scalar) ScalarError) :=
  if decide (dtype = Unspecified) then Some (Err UnspecifiedDtype)
  else
    let elem := dtype_size dtype in
    if negb (Nat.eqb (length bytes mod elem) 0) then
      Some (Err (ByteLengthMismatch (length bytes) elem dtype))
    else
      let! values := mapM (fun chunk => decode_scalar chunk dtype) (chunks_exact elem bytes) in
      Some (Ok values).
End Codec.

(** ** Exactness of the comparison *)

(** The numbers floats and integers denote, with the two infinities. *)
Inductive xreal : Type := XNegInf | XFin (q : Q) | XPosInf.

Definition xreal_compare (x y : xreal) : comparison :=
  match x, y with
  | XNegInf, XNegInf | XPosInf, XPosInf => Eq
  | XNegInf, _ | _, XPosInf => Lt
  | _, XNegInf | XPosInf, _ => Gt
  | XFin p, XFin q => Qcompare p q
  end.

Definition f64_real (f : f64) : option xreal :=
  match sf64 f with
  | S754_nan => None
  | S754_infinity s => Some (if s then XNegInf else XPosInf)
  | _ => Some (XFin (f64_Q f))
  end.

Definition xint (z : Z) : xreal := XFin (inject_Z z).

(** The number a stored scalar stands for under a dtype: [Uint64] elements are
    kept bit-cast to [i64]. *)
Definition scalar_int (d : DType) (i : Z) : Z :=
  if decide (d = Uint64) then wrap_u 64 i else i.

Definition scalar_real (d : DType) (s : Scalar) : option xreal :=
  match s with
  | SBool b => Some (xint (Z.b2z b))
  | SInt i => Some (xint (scalar_int d i))
  | SFloat f => f64_real f
  end.

Lemma xreal_compare_antisym x y : CompOpp (xreal_compare x y) = xreal_compare y x.
Proof. destruct x, y; simpl; try done. by rewrite Qcompare_antisym. Qed.

Lemma xint_compare a b : xreal_compare (xint a) (xint b) = (a ?= b).
Proof. unfold xreal_compare, xint, Qcompare, inject_Z. simpl. by rewrite !Z.mul_1_r. Qed.

Lemma f64_Q_compare_int f z :
  xreal_compare (XFin (f64_Q f)) (xint z) = (f64_num f ?= z * f64_one).
Proof.
  unfold xreal_compare, xint, Qcompare, f64_Q, inject_Z. cbn [Qnum Qden].
  pose proof f64_one_pos. by rewrite Z2Pos.id, Z.mul_1_r.
Qed.

Lemma f64_Q_compare f g : Qcompare (f64_Q f) (f64_Q g) = (f64_num f ?= f64_num g).
Proof.
  unfold Qcompare, f64_Q. cbn [Qnum Qden]. symmetry.
  apply Zmult_compare_compat_r. by apply Z.lt_gt, Pos2Z.is_pos.
Qed.

Lemma f64_cmp_exact f g :
  f64_cmp f g = (f64_real f ≫= fun x => f64_real g ≫= fun y => Some (xreal_compare x y)).
Proof.
  unfold f64_real. destruct (sf64 f) as [s|s| |s m e] eqn:Hf,
    (sf64 g) as [s'|s'| |s' m' e'] eqn:Hg; cbn -[Qcompare f64_Q];
    try (unfold f64_cmp; rewrite Hf, Hg; cbn; by repeat destruct s, s' || destruct s');
    rewrite f64_Q_compare; apply f64_cmp_num; unfold f64_is_finite; by rewrite ?Hf, ?Hg.
Qed.

(** The bounds that select the branches are exact. *)
Lemma f64_pow2_num k :
  k ∈ [7; 8; 15; 16; 31; 32; 63; 64] ->
  f64_is_finite (f64_pow2 k) = true /\ f64_num (f64_pow2 k) = 2 ^ k * f64_one /\
  f64_is_finite (f64_neg_pow2 k) = true /\ f64_num (f64_neg_pow2 k) = - 2 ^ k * f64_one.
Proof.
  rewrite !elem_of_cons, elem_of_nil.
  intros [->|[->|[->|[->|[->|[->|[->|[->|[]]]]]]]]]; by repeat split.
Qed.

Lemma f64_zero_num : f64_is_finite f64_zero = true /\ f64_num f64_zero = 0.
Proof. done. Qed.

Lemma f64_lt_num x y :
  f64_is_finite x = true -> f64_is_finite y = true ->
  f64_lt x y = (f64_num x <? f64_num y).
Proof. intros. unfold f64_lt, Z.ltb. rewrite f64_cmp_num by done. by destruct (_ ?= _). Qed.

Lemma f64_ge_num x y :
  f64_is_finite x = true -> f64_is_finite y = true ->
  f64_ge x y = (f64_num y <=? f64_num x).
Proof.
  intros. unfold f64_ge, Z.leb. rewrite f64_cmp_num, Z.compare_antisym by done.
  by destruct (_ ?= _).
Qed.

Lemma f64_eqb_num x y :
  f64_is_finite x = true -> f64_is_finite y = true ->
  f64_eqb x y = (f64_num x =? f64_num y).
Proof.
  intros. unfold f64_eqb. rewrite f64_cmp_num by done.
  destruct (Z.compare_spec (f64_num x) (f64_num y)); symmetry;
    [apply Z.eqb_eq | apply Z.eqb_neq | apply Z.eqb_neq]; lia.
Qed.

(** The refinement step decides [i] against [f] from [i] against [floor f]. *)
Lemma refine_exact i f :
  f64_is_finite f = true ->
  refine_int_vs_float (i ?= f64_num f / f64_one) f (f64_floor f)
  = (i * f64_one ?= f64_num f).
Proof.
  intros Hf. destruct (f64_floor_num f Hf) as [Hff Hn]. pose proof f64_one_pos as H1.
  pose proof (Z.div_mod (f64_num f) f64_one ltac:(lia)).
  pose proof (Z.mod_pos_bound (f64_num f) f64_one H1).
  unfold refine_int_vs_float. rewrite f64_eqb_num, Hn by done.
  set (q := f64_num f / f64_one) in *.
  destruct (Z.compare_spec i q) as [->|Hc|Hc]; symmetry.
  - destruct (Z.eqb_spec (f64_num f) (q * f64_one)) as [E|E].
    + apply Z.compare_eq_iff. lia.
    + apply Z.compare_lt_iff. lia.
  - apply Z.compare_lt_iff. nia.
  - apply Z.compare_gt_iff. nia.
Qed.

Definition int_operand_wf (i : IntOperand) : Prop :=
  match i with
  | Signed i => i64_min <= i <= i64_max
  | Unsigned i => 0 <= i <= u64_max
  end.

Definition int_operand_val (i : IntOperand) : Z :=
  match i with Signed i | Unsigned i => i end.

Lemma cmp_float_int_finite f i :
  f64_is_finite f = true -> int_operand_wf i ->
  cmp_float_int f i = Some (f64_num f ?= int_operand_val i * f64_one).
Proof.
  intros Hf Hi. destruct (f64_floor_num f Hf) as [Hff Hn]. pose proof f64_one_pos as H1.
  destruct (f64_pow2_num 63) as (F1 & N1 & F2 & N2); [set_solver|].
  destruct (f64_pow2_num 64) as (F3 & N3 & _ & _); [set_solver|].
  destruct f64_zero_num as [F0 N0].
  assert (Hnan : f64_is_nan f = false)
    by (revert Hf; unfold f64_is_nan, f64_is_finite; by destruct (sf64 f)).
  pose proof (Z.div_mod (f64_num f) f64_one ltac:(lia)).
  pose proof (Z.mod_pos_bound (f64_num f) f64_one H1).
  unfold cmp_float_int. rewrite Hnan. f_equal.
  rewrite (Z.compare_antisym (int_operand_val i * f64_one)). f_equal.
  destruct i as [i|i]; cbn [int_operand_wf int_operand_val] in *.
  - rewrite f64_lt_num, f64_ge_num, N1, N2, Hn by done.
    rewrite f64_floor_as_int by (exact Hf || unfold_ints; lia).
    rewrite <- refine_exact by done. unfold_ints.
    set (q := f64_num f / f64_one) in *.
    destruct (Z.ltb_spec (q * f64_one) (- 2 ^ 63 * f64_one)) as [Hl|Hl].
    { destruct (Z.compare_spec i q); [nia..|done]. }
    destruct (Z.leb_spec (2 ^ 63 * f64_one) (q * f64_one)) as [Hg|Hg].
    { destruct (Z.compare_spec i q); [nia|done|nia]. }
    rewrite saturate_id; [done|]. nia.
  - rewrite f64_lt_num, f64_ge_num, N0, N3, Hn by done.
    rewrite f64_floor_as_int by (exact Hf || unfold_ints; lia).
    rewrite <- refine_exact by done. unfold_ints.
    set (q := f64_num f / f64_one) in *.
    destruct (Z.ltb_spec (q * f64_one) 0) as [Hl|Hl].
    { destruct (Z.compare_spec i q); [nia..|done]. }
    destruct (Z.leb_spec (2 ^ 64 * f64_one) (q * f64_one)) as [Hg|Hg].
    { destruct (Z.compare_spec i q); [nia|done|nia]. }
    rewrite saturate_id; [done|]. nia.
Qed.

Lemma cmp_float_int_exact f i :
  int_operand_wf i ->
  cmp_float_int f i
  = (f64_real f ≫= fun x => Some (xreal_compare x (xint (int_operand_val i)))).
Proof.
  intros Hi. unfold f64_real. destruct (sf64 f) as [s|s| |s m e] eqn:Hf.
  1,4: cbn -[Qcompare f64_Q xreal_compare xint]; rewrite f64_Q_compare_int;
    apply cmp_float_int_finite; [unfold f64_is_finite; by rewrite Hf | done].
  - unfold cmp_float_int, f64_is_nan, f64_floor, f64_rint. rewrite Hf.
    unfold f64_lt, f64_ge, f64_cmp. rewrite Hf. destruct i, s; reflexivity.
  - unfold cmp_float_int, f64_is_nan. by rewrite Hf.
Qed.

Lemma int_operand_exact s d :
  scalar_wf s -> (forall f, s <> SFloat f) ->
  exists i, int_operand s d = Some i /\ int_operand_wf i /\
    scalar_real d s = Some (xint (int_operand_val i)).
Proof.
  intros Hs Hf. destruct s as [b|z|f]; [| |by destruct (Hf f)];
    unfold int_operand, scalar_real, scalar_int; simpl in *; case_decide;
    eexists; (split; [done|]); (split; [|done]); simpl.
  - destruct b; simpl; unfold_ints; lia.
  - destruct b; simpl; unfold_ints; lia.
  - pose proof (wrap_u_range 64 z). unfold_ints. lia.
  - done.
Qed.

Lemma mixed_exact f s d :
  scalar_wf s -> (forall g, s <> SFloat g) ->
  exists i, int_operand s d = Some i /\
    cmp_float_int f i
    = (f64_real f ≫= fun x => scalar_real d s ≫= fun y => Some (xreal_compare x y)) /\
    CompOpp <$> cmp_float_int f i
    = (scalar_real d s ≫= fun x => f64_real f ≫= fun y => Some (xreal_compare x y)).
Proof.
  intros Hs Hf. destruct (int_operand_exact s d Hs Hf) as (i & Hi & Hwf & Hr).
  exists i. rewrite cmp_float_int_exact, Hr by done. split; [done|].
  destruct (f64_real f) as [x|]; cbn -[xreal_compare xint]; [|done].
  by rewrite xreal_compare_antisym.
Qed.

Lemma cmp_typed_spec (a b : Scalar) (d : DType) :
  scalar_wf a -> scalar_wf b ->
  cmp_typed a b d
  = Some (scalar_real d a ≫= fun x => scalar_real d b ≫= fun y => Some (xreal_compare x y)).
Proof.
  intros Ha Hb.
  destruct a as [a|a|f], b as [b|b|g].
  1,2,4,5: cbn -[xreal_compare xint]; rewrite xint_compare; unfold scalar_int;
    (by case_decide) || done.
  - destruct (mixed_exact g (SBool a) d) as (i & Hi & _ & Hc); [done..|].
    cbn -[xreal_compare int_operand scalar_real]. by rewrite Hi, Hc.
  - destruct (mixed_exact g (SInt a) d) as (i & Hi & _ & Hc); [done..|].
    cbn -[xreal_compare int_operand scalar_real]. by rewrite Hi, Hc.
  - destruct (mixed_exact f (SBool b) d) as (i & Hi & Hc & _); [done..|].
    cbn -[xreal_compare int_operand scalar_real]. by rewrite Hi, Hc.
  - destruct (mixed_exact f (SInt b) d) as (i & Hi & Hc & _); [done..|].
    cbn -[xreal_compare int_operand scalar_real]. by rewrite Hi, Hc.
  - cbn. by rewrite f64_cmp_exact.
Qed.

(** [cmp_typed] never panics and orders two scalars by the exact numbers
    they stand for; it is unordered exactly when one of them is a NaN. *)
Theorem cmp_typed_exact (a b : Scalar) (d : DType) :
  scalar_wf a -> scalar_wf b ->
  cmp_typed a b d
  = Some (scalar_real d a ≫= fun x => scalar_real d b ≫= fun y => Some (xreal_compare x y)).
Proof. apply cmp_typed_spec. Qed.

(** ** The codec *)

Lemma le_bytes_ok n bs : length bs = n -> le_bytes n bs = Some bs.
Proof. intros H. unfold le_bytes. by rewrite H, Nat.eqb_refl. Qed.

Lemma length_one (bs : list byte) : length bs = 1%nat -> exists b, bs = [b].
Proof. destruct bs as [|b [|]]; simpl; try lia. by exists b. Qed.

Lemma le_combine_one b : le_combine [b] = byte.unsigned b.
Proof. apply Z.lor_0_r. Qed.

Lemma le_split_1 z : le_split 1 z = [byte.of_Z z].
Proof. done. Qed.

Lemma from_le_s_one b : from_le_s [b] = wrap_s 8 (byte.unsigned b).
Proof. unfold from_le_s. by rewrite le_combine_one. Qed.

Section CodecLemmas.
Context `{HalfOps}.

Lemma encode_one_Some v d :
  d <> Unspecified -> exists bs, encode_one v d = Some bs /\ length bs = dtype_size d.
Proof.
  intros Hd. destruct d; try done; eexists; (split; [reflexivity|]);
    by rewrite length_le_split.
Qed.

Lemma encode_one_length v d bs : encode_one v d = Some bs -> length bs = dtype_size d.
Proof.
  intros Hv. destruct (decide (d = Unspecified)) as [->|Hd]; [done|].
  destruct (encode_one_Some v d Hd) as (bs' & Hv' & Hl). congruence.
Qed.

Lemma decode_scalar_Some bs d :
  d <> Unspecified -> length bs = dtype_size d -> is_Some (decode_scalar bs d).
Proof.
  intros Hd Hl. destruct d; try done; simpl in *;
    try (apply length_one in Hl as [b ->]; by eexists);
    rewrite le_bytes_ok by done; by eexists.
Qed.

(** [encode_scalars] panics on no input: it fails exactly on [Unspecified] and
    otherwise gives [dtype_size] bytes per scalar. *)
Lemma encode_scalars_total vs d :
  d <> Unspecified ->
  exists bss, encode_scalars vs d = Some (Ok (concat bss)) /\
    Forall2 (fun v bs => encode_one v d = Some bs) vs bss /\
    Forall (fun bs => length bs = dtype_size d) bss.
Proof.
  intros Hd. unfold encode_scalars. rewrite decide_False by done.
  assert (exists bss, mapM (fun value => encode_one value d) vs = Some bss) as [bss Hb].
  { apply mapM_is_Some_2, Forall_forall. intros v _. unfold compose.
    destruct (encode_one_Some v d Hd) as (bs & -> & _). by eexists. }
  rewrite Hb. apply mapM_Some in Hb. exists bss. split; [done|]. split; [done|].
  clear Hd. induction Hb as [|v bs vs bss Hv _ IH]; constructor; [|done].
  by eapply encode_one_length.
Qed.

(** Likewise [decode_scalars]. *)
Lemma decode_scalars_total bytes d :
  d <> Unspecified -> Nat.modulo (length bytes) (dtype_size d) = 0%nat ->
  exists vs, decode_scalars bytes d = Some (Ok vs) /\
    Forall2 (fun bs v => decode_scalar bs d = Some v) (chunks_exact (dtype_size d) bytes) vs.
Proof.
  intros Hd Hm. unfold decode_scalars. rewrite decide_False by done.
  rewrite Hm. simpl.
  assert (exists vs, mapM (fun c => decode_scalar c d) (chunks_exact (dtype_size d) bytes)
            = Some vs) as [vs Hv].
  { apply mapM_is_Some_2. eapply Forall_impl; [apply chunks_exact_Forall|].
    intros c Hc. unfold compose. by apply decode_scalar_Some. }
  rewrite Hv. exists vs. split; [done|]. by apply mapM_Some.
Qed.

Lemma decode_scalars_no_panic bytes d : is_Some (decode_scalars bytes d).
Proof.
  destruct (decide (d = Unspecified)) as [->|Hd]; [by eexists|].
  destruct (decide (Nat.modulo (length bytes) (dtype_size d) = 0%nat)) as [Hm|Hm].
  - destruct (decode_scalars_total bytes d Hd Hm) as (vs & -> & _). by eexists.
  - unfold decode_scalars. rewrite decide_False by done.
    apply Nat.eqb_neq in Hm. rewrite Hm. simpl. by eexists.
Qed.

Lemma encode_scalars_no_panic vs d : is_Some (encode_scalars vs d).
Proof.
  destruct (decide (d = Unspecified)) as [->|Hd]; [by eexists|].
  destruct (encode_scalars_total vs d Hd) as (bss & -> & _). by eexists.
Qed.

Lemma encode_i64_scalars_eq zs d : encode_i64_scalars zs d = encode_scalars (SInt <$> zs) d.
Proof.
  unfold encode_i64_scalars, encode_scalars. case_decide; [done|].
  assert (mapM (fun v => encode_one (SInt v) d) zs
          = mapM (fun v => encode_one v d) (SInt <$> zs)) as ->; [|done].
  clear. induction zs as [|z zs IH]; simpl; [done|]. by rewrite IH.
Qed.

Lemma le_bytes_length n bs l : le_bytes n bs = Some l -> length l = n.
Proof. unfold le_bytes. destruct (Nat.eqb_spec (length bs) n); naive_solver. Qed.

Lemma le_combine_i64 n bs l :
  le_bytes n bs = Some l -> (n <= 4)%nat -> i64_min <= le_combine l <= i64_max.
Proof.
  intros Hl%le_bytes_length Hn. pose proof (le_combine_bound l) as Hb. rewrite Hl in Hb.
  assert (2 ^ (8 * Z.of_nat n) <= 2 ^ 32) by (apply Z.pow_le_mono_r; lia). unfold_ints. lia.
Qed.

Lemma from_le_s_i64 n bs l :
  le_bytes n bs = Some l -> (0 < n <= 8)%nat -> i64_min <= from_le_s l <= i64_max.
Proof.
  intros Hl%le_bytes_length Hn. assert (l <> []) as Hne by (intros ->; simpl in Hl; lia).
  pose proof (from_le_s_range l Hne) as Hb. rewrite Hl in Hb.
  assert (2 ^ (8 * Z.of_nat n - 1) <= 2 ^ 63) by (apply Z.pow_le_mono_r; lia). unfold_ints. lia.
Qed.

(** Decoded scalars are in range. *)
Lemma decode_scalar_wf bs d v : decode_scalar bs d = Some v -> scalar_wf v.
Proof.
  destruct d; cbn [decode_scalar]; intros Hd; try done;
    (case_match eqn:E; [|done]); injection Hd as <-; cbn [scalar_wf]; try done;
    try (eapply le_combine_i64; [exact E|lia]);
    try (eapply from_le_s_i64; [exact E|lia]);
    match goal with
    | |- context [wrap_s 64 ?z] => pose proof (wrap_s_range 64 z)
    | |- context [wrap_s 8 ?z] => pose proof (wrap_s_range 8 z)
    | |- context [byte.unsigned ?b] => pose proof (byte.unsigned_range b)
    end; unfold_ints; lia.
Qed.

(** ** Round trips *)

(** The scalars a dtype stores without loss. *)
Definition storable (d : DType) (s : Scalar) : Prop :=
  match d, s with
  | Bool, SBool _ => True
  | (Uint8 | Uint16 | Uint32 | Int8 | Int16 | Int32 | Int64), SInt i =>
      match signed_dtype_range d with Some (lo, hi) => lo <= i <= hi | None => False end
  | Uint64, SInt i => i64_min <= i <= i64_max
  | Float16, SFloat f =>
      exists b, 0 <= b < 2 ^ 16 /\ sf16 b <> S754_nan /\ f = half_to_f64 b
  | Float32, SFloat f =>
      exists x, 0 <= f32_bits x < 2 ^ 32 /\ sf32 x <> S754_nan /\ f = f64_of_f32 x
  | Float64, SFloat f => 0 <= f64_bits f < 2 ^ 64
  | _, _ => False
  end.

(** The element bytes that are the encoding of what they decode to: all of
    them, but for booleans other than 0 and 1 and the NaNs of the two
    narrower float types. *)
Definition canonical (d : DType) (bs : list byte) : Prop :=
  length bs = dtype_size d /\
  match d with
  | Unspecified => False
  | Bool => le_combine bs <= 1
  | Float16 => sf16 (le_combine bs) <> S754_nan
  | Float32 => sf32 (F32 (le_combine bs)) <> S754_nan
  | _ => True
  end.

Lemma le_combine_range bs n : length bs = n -> 0 <= le_combine bs < 2 ^ (8 * Z.of_nat n).
Proof. intros <-. pose proof (le_combine_bound bs). lia. Qed.

(** A half survives the detour through [f64]: widening is exact, so the
    round-to-odd step changes nothing. *)
Lemma half_roundtrip `{!HalfLaws H} b :
  0 <= b < 2 ^ 16 -> sf16 b <> S754_nan -> f64_to_f16_bits (half_to_f64 b) = b.
Proof.
  intros Hb Hn. unfold f64_to_f16_bits, f32_of_f64.
  pose proof (half_to_f64_exact b Hb) as Hw. pose proof (sf16_valid b) as Hv.
  pose proof (widen_16_32_valid _ Hv) as Hv32.
  rewrite Hw, <- widen_16_32_64, narrow_64_32 by done.
  set (x := f32_of_sf (sf_convert 24 128 (sf16 b))).
  assert (Hx : sf32 x = sf_convert 24 128 (sf16 b)) by (by apply sf32_of_sf).
  assert (f64_eqb (f64_of_f32 x) (half_to_f64 b) = true) as ->.
  { assert (sf64 (f64_of_f32 x) = sf64 (half_to_f64 b)) as Hback
      by (by rewrite sf64_of_f32, Hx, Hw, widen_16_32_64).
    unfold f64_eqb, f64_cmp. rewrite Hback. apply f64_eqb_refl.
    unfold f64_is_nan. rewrite Hw. pose proof (widen_16_64_nan _ Hv Hn).
    by destruct (sf_convert 53 1024 (sf16 b)). }
  assert (Hh : sf16 (half_from_f32 x) = sf16 b).
  { rewrite half_from_f32_rne by (by apply f32_of_sf_range). rewrite Hx. by apply narrow_32_16. }
  apply sf16_inj; [apply half_from_f32_range | done | | done]. by rewrite Hh.
Qed.

Lemma read_unsigned n w z :
  w = 8 * Z.of_nat n -> 0 <= z < 2 ^ w -> le_combine (le_split n (wrap_u w z)) = z.
Proof. intros -> Hz. by rewrite wrap_u_id, le_split_unsigned. Qed.

Lemma read_signed n w z :
  (0 < n)%nat -> w = 8 * Z.of_nat n -> - 2 ^ (w - 1) <= z < 2 ^ (w - 1) ->
  from_le_s (le_split n (wrap_s w z)) = z.
Proof. intros Hn -> Hz. by rewrite wrap_s_id, le_split_signed by lia. Qed.

Lemma decode_encode_one `{!HalfLaws H} d s bs :
  storable d s -> encode_one s d = Some bs -> decode_scalar bs d = Some s.
Proof.
  intros Hs He. pose proof (encode_one_length _ _ _ He) as Hl.
  destruct d, s as [b|i|f]; try done; cbn in Hs, He; injection He as <-;
    cbn [decode_scalar]; rewrite ?le_bytes_ok by done.
  - by destruct b.
  - rewrite le_split_1. cbn [head]. rewrite <- le_combine_one, <- le_split_1.
    by rewrite read_unsigned by lia.
  - by rewrite read_unsigned by lia.
  - by rewrite read_unsigned by lia.
  - rewrite le_split_unsigned by (apply wrap_u_range; lia). unfold_ints.
    by rewrite wrap_s_wrap_u, wrap_s_id by lia.
  - rewrite le_split_1. cbn [head]. rewrite <- from_le_s_one, <- le_split_1.
    by rewrite read_signed by lia.
  - by rewrite read_signed by lia.
  - by rewrite read_signed by lia.
  - unfold_ints. by rewrite le_split_signed by lia.
  - destruct Hs as (b & Hb & Hn & ->). rewrite half_roundtrip by done.
    by rewrite le_split_unsigned.
  - destruct Hs as (x & Hx & Hn & ->).
    change (bits_of_sf 23 8 (sf_convert 24 128 (sf64 (f64_of_f32 x))))
      with (f32_bits (f32_of_f64 (f64_of_f32 x))).
    rewrite f32_widen_narrow, le_split_unsigned by done. by destruct x.
  - rewrite le_split_unsigned by done. by destruct f.
Qed.

Lemma write_unsigned n w bs :
  length bs = n -> w = 8 * Z.of_nat n -> le_split n (wrap_u w (le_combine bs)) = bs.
Proof.
  intros Hl ->. rewrite wrap_u_id by (by apply le_combine_range).
  by apply le_split_combine_id.
Qed.

Lemma write_signed n w bs :
  (0 < n)%nat -> length bs = n -> w = 8 * Z.of_nat n ->
  le_split n (wrap_s w (from_le_s bs)) = bs.
Proof.
  intros Hn Hl ->. rewrite wrap_s_id; [by apply le_split_from_le_s | lia |].
  rewrite <- Hl. apply from_le_s_range. destruct bs; simpl in *; [lia|done].
Qed.

Lemma encode_decode_one `{!HalfLaws H} d bs v :
  canonical d bs -> decode_scalar bs d = Some v -> encode_one v d = Some bs.
Proof.
  intros [Hl Hc] Hv. destruct d; try done; cbn in Hl;
    cbn [decode_scalar] in Hv; rewrite ?le_bytes_ok in Hv by done;
    try (apply length_one in Hl as [b ->]; cbn [head] in Hv);
    injection Hv as <-; cbn [encode_one as_i64 float_value]; f_equal.
  - rewrite le_combine_one in Hc.
    pose proof (byte.unsigned_range b). rewrite <- (le_split_combine_id [b] 1) by done.
    rewrite le_combine_one. f_equal.
    destruct (Z.eqb_spec (byte.unsigned b) 0) as [->|]; simpl; [done|lia].
  - rewrite <- le_combine_one. by apply write_unsigned.
  - by apply write_unsigned.
  - by apply write_unsigned.
  - rewrite wrap_u_wrap_s by lia. by apply write_unsigned.
  - rewrite <- from_le_s_one. apply write_signed; (done || lia).
  - apply write_signed; (done || lia).
  - apply write_signed; (done || lia).
  - by apply le_split_from_le_s.
  - rewrite half_roundtrip; [by apply le_split_combine_id | | done].
    by apply (le_combine_range _ 2).
  - rewrite f32_widen_narrow; [by apply le_split_combine_id | | done].
    by apply (le_combine_range _ 4).
  - by apply le_split_combine_id.
Qed.

Lemma decode_encode_scalars `{!HalfLaws H} (d : DType) (vs : list Scalar) :
  d <> Unspecified -> Forall (storable d) vs ->
  exists bytes, encode_scalars vs d = Some (Ok bytes) /\
    length bytes = (length vs * dtype_size d)%nat /\
    decode_scalars bytes d = Some (Ok vs).
Proof.
  intros Hd Hs. destruct (encode_scalars_total vs d Hd) as (bss & He & Hf2 & Hl).
  pose proof (dtype_size_pos d Hd). pose proof (length_concat_uniform _ _ Hl) as Hlen.
  exists (concat bss). split; [done|]. rewrite Hlen.
  split; [by rewrite (Forall2_length _ _ _ Hf2)|].
  destruct (decode_scalars_total (concat bss) d Hd) as (vs' & -> & Hv).
  { rewrite Hlen. by apply Nat.Div0.mod_mul. }
  rewrite chunks_exact_concat in Hv by done. do 2 f_equal.
  clear He Hl Hlen. revert vs' Hv Hs. induction Hf2 as [|v bs vs bss Hb _ IH]; intros vs' Hv Hs.
  - by inversion Hv.
  - inversion Hv as [|? v' ? vs'' Hd' Hv']; subst. apply Forall_cons in Hs as [Hs1 Hs2].
    rewrite (decode_encode_one d v bs Hs1 Hb) in Hd'. f_equal; [congruence|by apply IH].
Qed.

(** Encoding scalars a dtype stores without loss (integers in its range,
    [Uint64] ones bit-cast to [i64], floats of its format) yields [dtype_size]
    bytes each, and decoding those bytes gives the scalars back. *)
Theorem scalars_roundtrip `{!HalfLaws H} (d : DType) (vs : list Scalar) :
  d <> Unspecified -> Forall (storable d) vs ->
  exists bytes, encode_scalars vs d = Some (Ok bytes) /\
    length bytes = (length vs * dtype_size d)%nat /\
    decode_scalars bytes d = Some (Ok vs).
Proof. apply decode_encode_scalars. Qed.

(** Decoding element bytes and encoding the scalars gives the bytes back,
    for every byte string of whole elements whose booleans are 0 or 1 and whose
    narrow floats are not NaNs. *)
Theorem bytes_roundtrip `{!HalfLaws H} (d : DType) (bytes : list byte) :
  d <> Unspecified -> Nat.modulo (length bytes) (dtype_size d) = 0%nat ->
  Forall (canonical d) (chunks_exact (dtype_size d) bytes) ->
  exists vs, decode_scalars bytes d = Some (Ok vs) /\
    encode_scalars vs d = Some (Ok bytes).
Proof.
  intros Hd Hm Hc. destruct (decode_scalars_total bytes d Hd Hm) as (vs & Hv & Hf2).
  exists vs. split; [done|]. unfold encode_scalars. rewrite decide_False by done.
  assert (mapM (fun v => encode_one v d) vs = Some (chunks_exact (dtype_size d) bytes)) as ->.
  { apply mapM_Some. clear Hv Hm. induction Hf2 as [|bs v bss vs Hb _ IH]; [constructor|].
    apply Forall_cons in Hc as [Hc1 Hc2]. constructor; [|by apply IH].
    by apply encode_decode_one. }
  rewrite concat_chunks_exact; [done | by apply dtype_size_pos | done].
Qed.
End CodecLemmas.

(** ** Witnesses *)

(** IEEE-754 conversions satisfy the laws asked of the crate. *)
#[export] Instance ieee_half : HalfOps := {|
  half_to_f64 b := f64_of_sf (sf_convert 53 1024 (sf16 b));
  half_from_f32 x := f16_of_sf (sf_convert 11 16 (sf32 x));
|}.

#[export] Instance ieee_half_laws : HalfLaws ieee_half.
Proof.
  split.
  - intros b _. apply sf64_of_sf, widen_16_64_valid, sf16_valid.
  - intros x. apply f16_of_sf_range, narrow_16_valid, sf32_valid.
  - intros x _. apply sf16_of_sf, narrow_16_valid, sf32_valid.
Qed.

(** A value with more precision than [f32]: just below the midpoint of the
    halves [1] and [1 + 2 ^ -10]. *)
Definition below_midpoint : f64 := F64 4607184617823268864.

(** [f64_to_f16_bits] is not a correct rounding.  The nearest [f32] of
    [1 + 2^-11 - 2^-40] is the midpoint itself, which the round-to-odd step then
    moves to the wrong side: the code gives [1 + 2^-10] and the nearest half is
    [1]. *)
Theorem f64_to_f16_bits_double_rounds `{HalfLaws} :
  sf16 (f64_to_f16_bits below_midpoint) = sf16 15361 /\
  sf_convert 11 16 (sf64 below_midpoint) = sf16 15360 /\
  sf16 15361 <> sf16 15360 /\
  f64_num below_midpoint * 2 ^ 40 = (2 ^ 40 + 2 ^ 29 - 1) * f64_one.
Proof.
  split; [|split; [|split]].
  - unfold f64_to_f16_bits.
    assert (f64_eqb (f64_of_f32 (f32_of_f64 below_midpoint)) below_midpoint = false) as ->
      by (by vm_compute).
    rewrite half_from_f32_rne by (by vm_compute). by vm_compute.
  - by vm_compute.
  - by vm_compute.
  - by vm_compute.
Qed.

Lemma cmp_typed_exact_witness :
  cmp_typed (SInt (-1)) (SFloat (f64_pow2 63)) Uint64 = Some (Some Gt) /\
  cmp_typed (SInt (-1)) (SFloat (f64_pow2 63)) Int64 = Some (Some Lt).
Proof.
  split; rewrite cmp_typed_exact; solve [vm_compute; (reflexivity || split; discriminate || exact I)].
Defined.

Lemma scalars_roundtrip_witness :
  exists bytes, encode_scalars [SInt (-2); SInt 300] Int16 = Some (Ok bytes) /\
    decode_scalars bytes Int16 = Some (Ok [SInt (-2); SInt 300]).
Proof.
  destruct (scalars_roundtrip Int16 [SInt (-2); SInt 300]) as (bytes & He & _ & Hd).
  - discriminate.
  - apply Forall_cons_2; [|apply Forall_cons_2; [|apply Forall_nil_2]];
      vm_compute; split; discriminate.
  - exists bytes. split; [exact He|exact Hd].
Defined.

Lemma bytes_roundtrip_witness :
  exists vs, decode_scalars (byte.of_Z <$> [1; 128; 255; 0]) Uint16 = Some (Ok vs) /\
    encode_scalars vs Uint16 = Some (Ok (byte.of_Z <$> [1; 128; 255; 0])).
Proof.
  apply (bytes_roundtrip Uint16 (byte.of_Z <$> [1; 128; 255; 0])).
  - discriminate.
  - reflexivity.
  - apply Forall_cons_2; [|apply Forall_cons_2; [|apply Forall_nil_2]]; split; reflexivity || exact I.
Defined.

Lemma f64_to_f16_bits_double_rounds_witness :
  f64_to_f16_bits below_midpoint = 15361 /\
  sf16 (f64_to_f16_bits below_midpoint) = sf16 15361.
Proof.
  split; [vm_compute; reflexivity|].
  destruct (f64_to_f16_bits_double_rounds (H := ieee_half)) as [E _]. exact E.
Defined.
