(* ===== verification/Tensor.v ===== *)
(** * Tensors

    [rlmesh-spaces/src/tensor.rs] and [tensor/storage.rs]: strided views over
    shared byte storage.  [None] is a panic (an overflow, a slice out of range
    or an allocation above [isize::MAX]); the address an allocation gets is an
    argument of the operations that allocate. *)

From S2P Require Import Prelude DType.

(** ** Storage *)

Module Storage.

Definition ALIGN : Z := 64.

Record AlignedBytes : Type := { buf : list byte; offset : Z; len : Z }.

(** [addr] is the address the allocator returns for the buffer. *)
Definition with_aligned_offset (addr length : Z) : option AlignedBytes :=
  let! capacity := checked_usize (length + ALIGN) in
  let! _ := with_capacity (capacity - 1) in
  let off := (ALIGN - addr mod ALIGN) mod ALIGN in
  Some {| buf := repeat (byte.of_Z 0) (Z.to_nat off); offset := off; len := length |}.

Definition aligned_as_slice (b : AlignedBytes) : option (list byte) :=
  let! stop := checked_usize (offset b + len b) in slice (buf b) (offset b) stop.

Inductive Storage : Type :=
| Aligned (bytes : AlignedBytes)
| Adopted (bytes : list byte).

Definition from_vec (data : list byte) : Storage := Adopted data.

(** [fill] is given the bytes it appends, or [None] when it panics. *)
Definition aligned_with (addr length : Z) (fill : option (list byte)) : option Storage :=
  let! bytes := with_aligned_offset addr length in
  let! appended := fill in
  Some (Aligned {| buf := buf bytes ++ appended; offset := offset bytes; len := len bytes |}).

Definition from_slice (addr : Z) (data : list byte) : option Storage :=
  aligned_with addr (Z.of_nat (length data)) (Some data).

Definition zeroed (addr length : Z) : option Storage :=
  aligned_with addr length (Some (repeat (byte.of_Z 0) (Z.to_nat length))).

Definition as_slice (s : Storage) : option (list byte) :=
  match s with
  | Aligned bytes => aligned_as_slice bytes
  | Adopted bytes => Some bytes
  end.

Definition storage_len (s : Storage) : option Z :=
  let! bytes := as_slice s in Some (Z.of_nat (length bytes)).

Definition is_empty (s : Storage) : option bool :=
  let! bytes := as_slice s in Some (match bytes with [] => true | _ => false end).

End Storage.
Export Storage(Storage, Aligned, Adopted, as_slice, storage_len).

(** ** Tensors *)

Inductive Device : Type := Cpu.

Definition device_str (d : Device) : string := match d with Cpu => "cpu" end.

Inductive TensorError : Type :=
| TUnspecifiedDtype
| NegativeDim (dim : Z)
| NegativeStride (stride : Z)
| StrideRankMismatch (strides shape : nat)
| TByteLengthMismatch (expected actual : Z)
| OutOfBounds (required byte_offset available : Z)
| NumelMismatch (from to : Z)
| AmbiguousReshape
| EmptyStack
| StackMismatch (index : nat)
| UnstackScalar
| TOverflow.

#[export] Instance TensorError_eq_dec : EqDecision TensorError.
Proof. solve_decision. Defined.

(** The [#[error(..)]] texts. *)
Definition tensor_error_message (e : TensorError) : message :=
  match e with
  | TUnspecifiedDtype => lit "tensor dtype must be specified"
  | NegativeDim d => Msg "negative dimension {0} in shape" [AZ d]
  | NegativeStride s => Msg "negative stride {0}" [AZ s]
  | StrideRankMismatch strides shape =>
      Msg "strides rank {strides} does not match shape rank {shape}" [ANat strides; ANat shape]
  | TByteLengthMismatch expected actual =>
      Msg "data is {actual} bytes but shape and dtype require exactly {expected}"
        [AZ actual; AZ expected]
  | OutOfBounds required byte_offset available =>
      Msg "view requires {required} bytes at byte offset {byte_offset} but storage holds {available}"
        [AZ required; AZ byte_offset; AZ available]
  | NumelMismatch from to => Msg "cannot reshape {from} elements into {to}" [AZ from; AZ to]
  | AmbiguousReshape => lit "reshape shape may contain at most one -1"
  | EmptyStack => lit "stack requires at least one tensor"
  | StackMismatch index =>
      Msg "stack requires uniform dtype and shape; tensor {index} differs" [ANat index]
  | UnstackScalar => lit "cannot unstack a 0-dimensional tensor"
  | TOverflow => lit "tensor size overflows usize"
  end.

(** The loop runs over the axes from the last; the pair is the strides so far
    and the running product. *)
Fixpoint contiguous_strides_loop (shape : list Z) : option (list Z * Z) :=
  match shape with
  | [] => Some ([], 1)
  | dim :: shape =>
      let! (strides, stride) := contiguous_strides_loop shape in
      let! next := checked_i64 (stride * dim) in
      Some (stride :: strides, next)
  end.

Definition contiguous_strides (shape : list Z) : option (list Z) :=
  fst <$> contiguous_strides_loop shape.

Fixpoint checked_numel_loop (numel : Z) (shape : list Z) : result Z TensorError :=
  match shape with
  | [] => Ok numel
  | dim :: shape =>
      if dim <? 0 then Err (NegativeDim dim)
      else
        let? numel := ok_or (checked_usize (numel * wrap_u 64 dim)) TOverflow in
        checked_numel_loop numel shape
  end.

Definition checked_numel (shape : list Z) : result Z TensorError := checked_numel_loop 1 shape.

Definition checked_nbytes (shape : list Z) (dtype : DType) : result Z TensorError :=
  if decide (dtype = Unspecified) then Err TUnspecifiedDtype
  else
    let? numel := checked_numel shape in
    ok_or (checked_usize (numel * Z.of_nat (dtype_size dtype))) TOverflow.

Fixpoint last_element_loop (last_element : Z) (l : list (Z * Z))
    : option (result Z TensorError) :=
  match l with
  | [] => Some (Ok last_element)
  | (dim, stride) :: l =>
      let! d := checked_usize (wrap_u 64 dim - 1) in
      let!? span := Some (ok_or (checked_usize (d * wrap_u 64 stride)) TOverflow) in
      let!? last_element := Some (ok_or (checked_usize (last_element + span)) TOverflow) in
      last_element_loop last_element l
  end.

Definition required_bytes (shape : list Z) (strides : option (list Z)) (dtype : DType)
    : option (result Z TensorError) :=
  let!? numel := Some (checked_numel shape) in
  if numel =? 0 then Some (Ok 0)
  else
    let itemsize := Z.of_nat (dtype_size dtype) in
    match strides with
    | None => Some (ok_or (checked_usize (numel * itemsize)) TOverflow)
    | Some strides =>
        let!? last_element := last_element_loop 0 (zip shape strides) in
        let!? elements := Some (ok_or (checked_usize (last_element + 1)) TOverflow) in
        Some (ok_or (checked_usize (elements * itemsize)) TOverflow)
    end.

Record Tensor : Type := mkTensor {
  storage : Storage;
  dtype : DType;
  shape : list Z;
  strides : option (list Z);
  byte_offset : Z;
}.

Fixpoint check_strides (l : list Z) : result unit TensorError :=
  match l with
  | [] => Ok tt
  | stride :: l => if stride <? 0 then Err (NegativeStride stride) else check_strides l
  end.

Definition from_storage (storage : Storage) (dtype : DType) (shape : list Z)
    (strides : option (list Z)) (byte_offset : Z) : option (result Tensor TensorError) :=
  if decide (dtype = Unspecified) then Some (Err TUnspecifiedDtype)
  else
    let!? _ :=
      Some match strides with
      | Some strides =>
          if negb (Nat.eqb (length strides) (length shape)) then
            Err (StrideRankMismatch (length strides) (length shape))
          else check_strides strides
      | None => Ok tt
      end in
    let!? required := required_bytes shape strides dtype in
    let! available := storage_len storage in
    if (available <? byte_offset) || (available - byte_offset <? required) then
      Some (Err (OutOfBounds required byte_offset available))
    else
      Some (Ok {| storage := storage; dtype := dtype; shape := shape;
                  strides := strides; byte_offset := byte_offset |}).

Definition tensor_from_vec (data : list byte) (shape : list Z) (dtype : DType)
    : option (result Tensor TensorError) :=
  let!? expected := Some (checked_nbytes shape dtype) in
  if negb (Z.of_nat (length data) =? expected) then
    Some (Err (TByteLengthMismatch expected (Z.of_nat (length data))))
  else from_storage (Storage.from_vec data) dtype shape None 0.

Definition tensor_from_slice (addr : Z) (data : list byte) (shape : list Z) (dtype : DType)
    : option (result Tensor TensorError) :=
  let!? expected := Some (checked_nbytes shape dtype) in
  if negb (Z.of_nat (length data) =? expected) then
    Some (Err (TByteLengthMismatch expected (Z.of_nat (length data))))
  else
    let! storage := Storage.from_slice addr data in
    from_storage storage dtype shape None 0.

Definition zeros (addr : Z) (shape : list Z) (dtype : DType)
    : option (result Tensor TensorError) :=
  let!? nbytes := Some (checked_nbytes shape dtype) in
  let! storage := Storage.zeroed addr nbytes in
  from_storage storage dtype shape None 0.

Definition effective_strides (t : Tensor) : option (list Z) :=
  match strides t with
  | Some strides => Some strides
  | None => contiguous_strides (shape t)
  end.

Definition device (_ : Tensor) : Device := Cpu.

(** [iter.map(|&dim| dim as usize).product()]. *)
Fixpoint usize_product (acc : Z) (l : list Z) : option Z :=
  match l with
  | [] => Some acc
  | dim :: l => let! acc := checked_usize (acc * wrap_u 64 dim) in usize_product acc l
  end.

Definition numel (t : Tensor) : option Z := usize_product 1 (shape t).

Definition nbytes (t : Tensor) : option Z :=
  let! n := numel t in checked_usize (n * Z.of_nat (dtype_size (dtype t))).

Fixpoint is_contiguous_loop (expected : Z) (l : list (Z * Z)) : option bool :=
  match l with
  | [] => Some true
  | (dim, stride) :: l =>
      if dim =? 0 then Some true
      else if negb (dim =? 1) then
        if negb (stride =? expected) then Some false
        else let! expected := checked_i64 (expected * dim) in is_contiguous_loop expected l
      else is_contiguous_loop expected l
  end.

Definition is_contiguous (t : Tensor) : option bool :=
  match strides t with
  | None => Some true
  | Some strides => is_contiguous_loop 1 (rev (zip (shape t) strides))
  end.

(** [index.iter().zip(strides.iter()).map(|(&i, &s)| i * s as usize).sum()]. *)
Fixpoint element_index (acc : Z) (l : list (Z * Z)) : option Z :=
  match l with
  | [] => Some acc
  | (i, stride) :: l =>
      let! term := checked_usize (i * wrap_u 64 stride) in
      let! acc := checked_usize (acc + term) in
      element_index acc l
  end.

(** One tick of the odometer, from the last axis; the flag says that every
    axis seen so far wrapped around. *)
Fixpoint advance (index shape : list Z) : option (list Z * bool) :=
  match index, shape with
  | i :: index, dim :: shape =>
      let! (index, carry) := advance index shape in
      if carry : bool then
        let! i' := checked_usize (i + 1) in
        if wrap_s 64 i' <? dim then Some (i' :: index, false) else Some (0 :: index, true)
      else Some (i :: index, false)
  | _, _ => Some ([], true)
  end.

(** [for _ in 0..numel]: the bytes appended by the remaining iterations. *)
Fixpoint gather_loop (fuel : nat) (index shape strides : list Z) (itemsize : Z)
    (data : list byte) : option (list byte) :=
  match fuel with
  | O => Some []
  | S fuel =>
      let! element := element_index 0 (zip index strides) in
      let! start := checked_usize (element * itemsize) in
      let! stop := checked_usize (start + itemsize) in
      let! item := slice data start stop in
      let! (index, _) := advance index shape in
      let! rest := gather_loop fuel index shape strides itemsize data in
      Some (item ++ rest)
  end.

Definition gather_into (t : Tensor) : option (list byte) :=
  let itemsize := Z.of_nat (dtype_size (dtype t)) in
  let! strides := effective_strides t in
  let! bytes := as_slice (storage t) in
  let! data := slice bytes (byte_offset t) (Z.of_nat (length bytes)) in
  let! n := numel t in
  gather_loop (Z.to_nat n) (repeat 0 (length (shape t))) (shape t) strides itemsize data.

Definition to_contiguous_bytes (t : Tensor) : option (list byte) :=
  let! contiguous := is_contiguous t in
  if contiguous : bool then
    let start := byte_offset t in
    let! n := nbytes t in
    let! stop := checked_usize (start + n) in
    let! bytes := as_slice (storage t) in
    slice bytes start stop
  else
    let! n := nbytes t in
    let! _ := with_capacity n in
    gather_into t.

Fixpoint known_product (known : Z) (shape : list Z) : result Z TensorError :=
  match shape with
  | [] => Ok known
  | dim :: shape =>
      if dim <? -1 then Err (NegativeDim dim)
      else if 0 <=? dim then
        let? known := ok_or (checked_usize (known * wrap_u 64 dim)) TOverflow in
        known_product known shape
      else known_product known shape
  end.

Definition resolve_reshape_dims (t : Tensor) (dims : list Z)
    : option (result (list Z) TensorError) :=
  let wildcards := length (filter (fun dim => dim = -1) dims) in
  if Nat.ltb 1 wildcards then Some (Err AmbiguousReshape)
  else if Nat.eqb wildcards 0 then Some (Ok dims)
  else
    let!? known := Some (known_product 1 dims) in
    let! from := numel t in
    if (known =? 0) || negb (from mod known =? 0) then Some (Err (NumelMismatch from known))
    else
      let inferred := wrap_s 64 (from / known) in
      Some (Ok ((fun dim => if dim =? -1 then inferred else dim) <$> dims)).

Definition reshape (addr : Z) (t : Tensor) (dims : list Z)
    : option (result Tensor TensorError) :=
  let!? dims := resolve_reshape_dims t dims in
  let!? to := Some (checked_numel dims) in
  let! from := numel t in
  if negb (from =? to) then Some (Err (NumelMismatch from to))
  else
    let! contiguous := is_contiguous t in
    if contiguous : bool then from_storage (storage t) (dtype t) dims None (byte_offset t)
    else
      let! n := nbytes t in
      let! storage := Storage.aligned_with addr n (gather_into t) in
      from_storage storage (dtype t) dims None 0.

Fixpoint stack_check (first : Tensor) (index : nat) (l : list Tensor)
    : result unit TensorError :=
  match l with
  | [] => Ok tt
  | t :: l =>
      if bool_decide (dtype t <> dtype first \/ shape t <> shape first) then
        Err (StackMismatch index)
      else stack_check first (S index) l
  end.

Definition stack (addr : Z) (tensors : list Tensor) : option (result Tensor TensorError) :=
  match tensors with
  | [] => Some (Err EmptyStack)
  | first :: _ =>
      let!? _ := Some (stack_check first 0 tensors) in
      let! n := nbytes first in
      let!? total :=
        Some (ok_or (checked_usize (n * Z.of_nat (length tensors))) TOverflow) in
      let dims := wrap_s 64 (Z.of_nat (length tensors)) :: shape first in
      let! storage :=
        Storage.aligned_with addr total (@concat byte <$> mapM to_contiguous_bytes tensors) in
      from_storage storage (dtype first) dims None 0
  end.

(** [(0..count).map(view).collect::<Result<Vec<_>, _>>()]. *)
Fixpoint unstack_views (count : nat) (index : Z) (view : Z -> option (result Tensor TensorError))
    : option (result (list Tensor) TensorError) :=
  match count with
  | O => Some (Ok [])
  | S count =>
      let!? t := view index in
      let!? ts := unstack_views count (index + 1) view in
      Some (Ok (t :: ts))
  end.

Definition unstack (t : Tensor) : option (result (list Tensor) TensorError) :=
  match shape t with
  | [] => Some (Err UnstackScalar)
  | dim :: inner_shape =>
      let count := wrap_u 64 dim in
      let! effective := effective_strides t in
      let! first := head effective in
      let! outer_stride_bytes :=
        checked_usize (wrap_u 64 first * Z.of_nat (dtype_size (dtype t))) in
      let inner_strides := (fun _ => tail effective) <$> strides t in
      unstack_views (Z.to_nat count) 0 (fun index =>
        let! step := checked_usize (index * outer_stride_bytes) in
        let! offset := checked_usize (byte_offset t + step) in
        from_storage (storage t) (dtype t) inner_shape inner_strides offset)
  end.

(** [impl PartialEq for Tensor]. *)
Definition tensor_eq (t u : Tensor) : option bool :=
  if bool_decide (dtype t = dtype u) && bool_decide (shape t = shape u) then
    let! a := to_contiguous_bytes t in
    let! b := to_contiguous_bytes u in
    Some (bool_decide (a = b))
  else Some false.

(** ** Logical contents

    The specification: element [k] in row-major order sits at the offset its
    index vector and the strides give. *)

Fixpoint volume (shape : list Z) : Z :=
  match shape with [] => 1 | d :: shape => d * volume shape end.

(** The product of the dimensions, zeros not counted. *)
Fixpoint extent (shape : list Z) : Z :=
  match shape with [] => 1 | d :: shape => Z.max 1 d * extent shape end.

Fixpoint unravel (shape : list Z) (k : Z) : list Z :=
  match shape with
  | [] => []
  | _ :: shape => k / volume shape :: unravel shape (k mod volume shape)
  end.

Fixpoint row_major (shape : list Z) : list Z :=
  match shape with
  | [] => []
  | _ :: shape => volume shape :: row_major shape
  end.

Fixpoint dot (index strides : list Z) : Z :=
  match index, strides with
  | i :: index, s :: strides => i * s + dot index strides
  | _, _ => 0
  end.

Definition layout_strides (t : Tensor) : list Z :=
  match strides t with Some s => s | None => row_major (shape t) end.

Definition itemsize (t : Tensor) : Z := Z.of_nat (dtype_size (dtype t)).

Definition elem_offset (t : Tensor) (k : Z) : Z :=
  byte_offset t + dot (unravel (shape t) k) (layout_strides t) * itemsize t.

Definition elem (t : Tensor) (bytes : list byte) (k : Z) : list byte :=
  take (dtype_size (dtype t)) (drop (Z.to_nat (elem_offset t k)) bytes).

(** The element bytes in C order. *)
Definition logical_bytes (t : Tensor) (bytes : list byte) : list byte :=
  concat (elem t bytes <$> seqZ 0 (volume (shape t))).

Definition dims_ok (shape : list Z) : Prop := Forall (fun d => 0 <= d <= i64_max) shape.

Record tensor_wf (t : Tensor) (bytes : list byte) : Prop := {
  wf_bytes : as_slice (storage t) = Some bytes;
  wf_alloc : Z.of_nat (length bytes) <= isize_max;
  wf_dtype : dtype t <> Unspecified;
  wf_dims : dims_ok (shape t);
  wf_numel : usize_product 1 (shape t) = Some (volume (shape t));
  wf_rank : length (layout_strides t) = length (shape t);
  wf_strides : Forall (fun s => 0 <= s <= i64_max) (default [] (strides t));
  wf_offset : 0 <= byte_offset t <= Z.of_nat (length bytes);
  wf_span : 0 < volume (shape t) ->
    byte_offset t + (dot (Z.pred <$> shape t) (layout_strides t) + 1) * itemsize t
    <= Z.of_nat (length bytes);
}.

(** Contiguous copies of it can be allocated: the case of every tensor with
    elements whose strides are the default ones. *)
Definition materialisable (t : Tensor) : Prop := extent (shape t) * itemsize t <= isize_max.

Lemma dims_ok_cons d ds : dims_ok (d :: ds) <-> 0 <= d <= i64_max /\ dims_ok ds.
Proof. unfold dims_ok. by rewrite Forall_cons. Qed.

Lemma volume_nonneg ds : dims_ok ds -> 0 <= volume ds.
Proof. induction 1 as [|d ds Hd _ IH]; simpl; [lia|]. apply Z.mul_nonneg_nonneg; lia. Qed.

Lemma volume_pos_inv d ds :
  dims_ok (d :: ds) -> 0 < volume (d :: ds) -> 0 < d /\ 0 < volume ds.
Proof.
  intros [Hd Hds]%dims_ok_cons Hv. pose proof (volume_nonneg ds Hds). simpl in Hv. nia.
Qed.

Lemma extent_pos ds : 1 <= extent ds.
Proof. induction ds as [|d ds IH]; simpl; [lia|]. nia. Qed.

Lemma volume_le_extent ds : dims_ok ds -> volume ds <= extent ds.
Proof.
  induction 1 as [|d ds Hd Hds IH]; simpl; [lia|].
  pose proof (extent_pos ds). pose proof (volume_nonneg ds Hds). nia.
Qed.

Lemma extent_volume ds : dims_ok ds -> 0 < volume ds -> extent ds = volume ds.
Proof.
  induction ds as [|d ds IH]; intros Hd Hv; [done|].
  pose proof (volume_pos_inv _ _ Hd Hv) as [Hd1 Hv1]. apply dims_ok_cons in Hd as [Hd2 Hds].
  simpl. rewrite IH by done. by rewrite Z.max_r by lia.
Qed.

Lemma contiguous_strides_spec ds :
  dims_ok ds -> extent ds <= i64_max -> contiguous_strides ds = Some (row_major ds).
Proof.
  intros Hd He. unfold contiguous_strides.
  assert (contiguous_strides_loop ds = Some (row_major ds, volume ds)) as ->; [|done].
  induction ds as [|d ds IH]; [done|]. simpl in *.
  apply dims_ok_cons in Hd as [Hd Hds]. pose proof (extent_pos ds).
  pose proof (volume_nonneg ds Hds). pose proof (volume_le_extent ds Hds).
  rewrite IH by (done || nia). unfold checked_i64. rewrite checked_in; [|unfold_ints; nia].
  by rewrite Z.mul_comm.
Qed.

Lemma unravel_bounds ds k :
  dims_ok ds -> 0 <= k < volume ds -> Forall2 (fun i d => 0 <= i < d) (unravel ds k) ds.
Proof.
  revert k; induction ds as [|d ds IH]; intros k Hd Hk; simpl; [constructor|].
  pose proof (volume_pos_inv _ _ Hd ltac:(simpl in *; lia)) as [Hd1 Hv].
  apply dims_ok_cons in Hd as [_ Hds]. simpl in Hk. constructor.
  - split; [apply Z.div_pos; lia|]. apply Z.div_lt_upper_bound; lia.
  - apply IH; [done|]. apply Z.mod_pos_bound. lia.
Qed.

Lemma dot_row_major ds k :
  dims_ok ds -> 0 <= k < volume ds -> dot (unravel ds k) (row_major ds) = k.
Proof.
  revert k; induction ds as [|d ds IH]; intros k Hd Hk; simpl in *; [lia|].
  pose proof (volume_pos_inv _ _ Hd ltac:(simpl in *; lia)) as [_ Hv].
  apply dims_ok_cons in Hd as [_ Hds].
  rewrite IH by (done || apply Z.mod_pos_bound; lia).
  pose proof (Z.div_mod k (volume ds)). lia.
Qed.

Lemma dot_nonneg is' ss :
  Forall (fun i => 0 <= i) is' -> Forall (fun s => 0 <= s) ss -> 0 <= dot is' ss.
Proof.
  intros Hi. revert ss. induction Hi as [|i is' Hi _ IH]; intros [|s ss] Hs; simpl; try lia.
  apply Forall_cons in Hs as [Hs Hss]. specialize (IH ss Hss). nia.
Qed.

Lemma dot_mono is' js ss :
  Forall2 Z.le is' js -> Forall (fun s => 0 <= s) ss -> dot is' ss <= dot js ss.
Proof.
  intros H. revert ss. induction H as [|i j is' js Hij _ IH]; intros [|s ss] Hs; simpl; try lia.
  apply Forall_cons in Hs as [Hs Hss]. specialize (IH ss Hss). nia.
Qed.

(** The odometer walks the index vectors in row-major order. *)
Lemma advance_unravel ds k :
  dims_ok ds -> 0 <= k < volume ds ->
  advance (unravel ds k) ds
  = Some (unravel ds ((k + 1) mod volume ds), k + 1 =? volume ds).
Proof.
  revert k; induction ds as [|d ds IH]; intros k Hd Hk.
  { cbn in *. by replace k with 0 by lia. }
  pose proof (volume_pos_inv _ _ Hd ltac:(lia)) as [Hd1 Hv].
  apply dims_ok_cons in Hd as [Hd2 Hds]. cbn [unravel advance].
  change (volume (d :: ds)) with (d * volume ds) in *. set (v := volume ds) in *.
  pose proof (Z.div_mod k v ltac:(lia)) as Hdm. pose proof (Z.mod_pos_bound k v Hv).
  assert (0 <= k / v < d) by (split; [apply Z.div_pos|apply Z.div_lt_upper_bound]; lia).
  set (q := k / v) in *. set (r := k mod v) in *.
  rewrite (IH r) by (done || lia).
  destruct (Z.eqb_spec (r + 1) v) as [E|E].
  - unfold checked_usize. rewrite checked_in by (unfold_ints; lia).
    rewrite E, Z.mod_same by lia.
    destruct (Z.eqb_spec (k + 1) (d * v)) as [E'|E'].
    + rewrite E', Z.mod_same, Z.div_0_l, Z.mod_0_l by nia.
      assert (q + 1 = d) as -> by nia.
      rewrite wrap_s_id by (unfold_ints; lia). by rewrite Z.ltb_irrefl.
    + assert (q + 1 < d) by nia. rewrite wrap_s_id by (unfold_ints; lia).
      rewrite (proj2 (Z.ltb_lt _ _)) by done.
      rewrite (Z.mod_small (k + 1)) by nia. replace (k + 1) with ((q + 1) * v) by lia.
      by rewrite Z.div_mul, Z.mod_mul by lia.
  - destruct (Z.eqb_spec (k + 1) (d * v)) as [E'|E']; [nia|].
    rewrite (Z.mod_small (r + 1)) by lia. rewrite (Z.mod_small (k + 1)) by nia.
    replace (k + 1) with (r + 1 + q * v) by lia.
    rewrite Z.div_add, Z.mod_add, Z.div_small, Z.mod_small by lia. done.
Qed.

Lemma element_index_spec index strides acc :
  Forall (fun i => 0 <= i) index -> Forall (fun s => 0 <= s <= i64_max) strides ->
  0 <= acc -> acc + dot index strides <= usize_max ->
  element_index acc (zip index strides) = Some (acc + dot index strides).
Proof.
  intros Hi. revert acc strides.
  induction Hi as [|i index Hi Hix IH]; intros acc [|s strides] Hs Ha Hb;
    cbn [zip_with element_index dot] in *; try (f_equal; lia).
  apply Forall_cons in Hs as [Hs Hss].
  assert (0 <= dot index strides).
  { apply dot_nonneg; [done|]. eapply Forall_impl; [exact Hss|]. simpl. lia. }
  unfold checked_usize. rewrite (wrap_u_id 64 s) by (unfold_ints; lia).
  rewrite checked_in by (unfold_ints; nia). rewrite checked_in by (unfold_ints; nia).
  rewrite IH by (done || nia). f_equal. lia.
Qed.

Lemma fmap_pred_bounds index ds :
  Forall2 (fun i d => 0 <= i < d) index ds -> Forall2 Z.le index (Z.pred <$> ds).
Proof. induction 1; simpl; constructor; [lia|done]. Qed.

Lemma Forall2_nonneg index ds :
  Forall2 (fun i d => 0 <= i < d) index ds -> Forall (fun i => 0 <= i) index.
Proof. induction 1; constructor; [lia|done]. Qed.

Section Wf.
Context (t : Tensor) (bytes : list byte) (Hwf : tensor_wf t bytes).

Lemma itemsize_pos : 0 < itemsize t <= 8.
Proof.
  unfold itemsize. pose proof (dtype_size_pos _ (wf_dtype _ _ Hwf)).
  pose proof (dtype_size_le_8 (dtype t)). lia.
Qed.

Lemma row_major_nonneg ds : dims_ok ds -> Forall (fun s => 0 <= s) (row_major ds).
Proof. induction 1; simpl; constructor; [by apply volume_nonneg | done]. Qed.

Lemma layout_strides_nonneg : Forall (fun s => 0 <= s) (layout_strides t).
Proof.
  unfold layout_strides. pose proof (wf_strides _ _ Hwf) as Hs.
  destruct (strides t); [|apply row_major_nonneg, (wf_dims _ _ Hwf)].
  eapply Forall_impl; [exact Hs|]. simpl. lia.
Qed.

(** Every element lies inside the storage. *)
Lemma elem_in_bounds k :
  0 <= k < volume (shape t) ->
  0 <= dot (unravel (shape t) k) (layout_strides t) /\
  elem_offset t k + itemsize t <= Z.of_nat (length bytes).
Proof.
  intros Hk. pose proof (unravel_bounds _ _ (wf_dims _ _ Hwf) Hk) as Hb.
  pose proof layout_strides_nonneg as Hs. pose proof itemsize_pos.
  pose proof (wf_span _ _ Hwf ltac:(lia)).
  assert (0 <= dot (unravel (shape t) k) (layout_strides t)).
  { apply dot_nonneg; [by eapply Forall2_nonneg|done]. }
  pose proof (dot_mono _ _ _ (fmap_pred_bounds _ _ Hb) Hs).
  unfold elem_offset. split; [done|]. nia.
Qed.

Lemma elem_length k : 0 <= k < volume (shape t) -> length (elem t bytes k) = dtype_size (dtype t).
Proof.
  intros Hk. pose proof (elem_in_bounds k Hk) as [H1 H2]. unfold elem.
  pose proof (wf_offset _ _ Hwf). pose proof itemsize_pos.
  unfold elem_offset, itemsize in *. rewrite length_take, length_drop. lia.
Qed.

Lemma gather_loop_spec n k :
  0 <= k -> k + Z.of_nat n <= volume (shape t) ->
  Forall (fun s => 0 <= s <= i64_max) (layout_strides t) ->
  gather_loop n (unravel (shape t) (k mod volume (shape t))) (shape t) (layout_strides t)
    (itemsize t) (drop (Z.to_nat (byte_offset t)) bytes)
  = Some (concat (elem t bytes <$> seqZ k (Z.of_nat n))).
Proof.
  intros Hk Hn Hs. revert k Hk Hn. induction n as [|n IH]; intros k Hk Hn; [done|].
  assert (Hkv : 0 <= k < volume (shape t)) by lia.
  pose proof (wf_dims _ _ Hwf) as Hd. pose proof itemsize_pos as Hi.
  pose proof (unravel_bounds _ _ Hd Hkv) as Hb. pose proof (elem_in_bounds k Hkv) as [H1 H2].
  pose proof (wf_alloc _ _ Hwf). pose proof (wf_offset _ _ Hwf).
  cbn [gather_loop]. rewrite (Z.mod_small k) by done. unfold elem_offset in H2.
  rewrite element_index_spec; [|by eapply Forall2_nonneg|done|lia|unfold_ints; nia].
  unfold checked_usize. rewrite !checked_in by (unfold_ints; nia).
  set (off := dot _ _) in *. rewrite Z.add_0_l.
  rewrite slice_Some; [|nia|rewrite length_drop; lia].
  rewrite advance_unravel by done.
  rewrite IH by lia. rewrite Nat2Z.inj_succ, (seqZ_cons k) by lia.
  rewrite fmap_cons. cbn [concat]. do 2 f_equal.
  - unfold elem, elem_offset. fold off. rewrite drop_drop.
    unfold itemsize in *. f_equal; [lia|]. f_equal. lia.
  - by rewrite Z.pred_succ.
Qed.
End Wf.

(** The explicit strides that describe the row-major layout: those of axes of
    length one are free. *)
Fixpoint contiguous_match (ds ss : list Z) : bool :=
  match ds, ss with
  | d :: ds, s :: ss => contiguous_match ds ss && ((d =? 1) || (s =? volume ds))
  | _, _ => true
  end.

Lemma is_contiguous_loop_spec ds ss l :
  dims_ok ds -> 0 < volume ds -> extent ds <= i64_max -> length ss = length ds ->
  is_contiguous_loop 1 (rev (zip ds ss) ++ l)
  = if contiguous_match ds ss then is_contiguous_loop (volume ds) l else Some false.
Proof.
  revert ss l; induction ds as [|d ds IH]; intros [|s ss] l Hd Hv He Hl; try done.
  pose proof (volume_pos_inv _ _ Hd Hv) as [Hd1 Hv1]. apply dims_ok_cons in Hd as [Hd2 Hds].
  simpl in He, Hl. pose proof (extent_pos ds). pose proof (extent_volume _ Hds Hv1).
  cbn [zip_with rev contiguous_match]. rewrite <- app_assoc.
  change (rev (zip_with pair ds ss)) with (rev (zip ds ss)).
  rewrite IH by (done || nia || lia). destruct (contiguous_match ds ss); [|done].
  cbn [app is_contiguous_loop andb volume].
  destruct (Z.eqb_spec d 0); [lia|]. destruct (Z.eqb_spec d 1) as [->|]; cbn [negb orb].
  { by rewrite Z.mul_1_l. }
  destruct (Z.eqb_spec s (volume ds)); cbn [negb]; [|done].
  unfold checked_i64. rewrite checked_in by (unfold_ints; nia). by rewrite Z.mul_comm.
Qed.

Lemma contiguous_match_dot ds ss k :
  dims_ok ds -> 0 <= k < volume ds -> length ss = length ds ->
  contiguous_match ds ss = true -> dot (unravel ds k) ss = k.
Proof.
  revert ss k; induction ds as [|d ds IH]; intros [|s ss] k Hd Hk Hl Hm; try done.
  { simpl in *. lia. }
  pose proof (volume_pos_inv _ _ Hd ltac:(lia)) as [Hd1 Hv]. apply dims_ok_cons in Hd as [_ Hds].
  cbn [contiguous_match volume unravel dot] in *. apply andb_true_iff in Hm as [Hm Hs].
  simpl in Hl. pose proof (Z.mod_pos_bound k _ Hv). pose proof (Z.div_mod k (volume ds)).
  rewrite IH by (done || lia).
  apply orb_true_iff in Hs as [->%Z.eqb_eq| ->%Z.eqb_eq]; [|lia].
  rewrite (Z.div_small k) in * by lia. lia.
Qed.

Lemma is_contiguous_loop_total e l :
  Forall (fun p => 0 <= fst p) l -> 0 <= e -> e * extent (fst <$> l) <= i64_max ->
  is_Some (is_contiguous_loop e l).
Proof.
  intros Hl. revert e; induction Hl as [|[d s] l Hd Hl IH]; intros e He Hb; [by eexists|].
  rewrite fmap_cons in Hb. cbn [fst extent] in *. pose proof (extent_pos (fst <$> l)).
  cbn [is_contiguous_loop]. destruct (Z.eqb_spec d 0); [by eexists|].
  rewrite Z.max_r in Hb by lia.
  destruct (Z.eqb_spec d 1); cbn [negb]; [apply IH; nia|].
  destruct (Z.eqb_spec s e); cbn [negb]; [|by eexists].
  unfold checked_i64. rewrite checked_in by (unfold_ints; nia). apply IH; nia.
Qed.

Lemma extent_app l l' : extent (l ++ l') = extent l * extent l'.
Proof. induction l as [|d l IH]; cbn [extent app]; [lia|]. rewrite IH. lia. Qed.

Lemma extent_rev l : extent (rev l) = extent l.
Proof.
  induction l as [|d l IH]; [done|]. cbn [rev extent]. rewrite extent_app, IH. simpl. lia.
Qed.

(** Consecutive elements concatenate to the slice they cover. *)
Lemma concat_consecutive (l : list byte) (o : Z) (n : nat) (v : Z) (f : Z -> list byte) :
  0 <= o -> 0 <= v ->
  (forall k, 0 <= k < v -> f k = take n (drop (Z.to_nat (o + k * Z.of_nat n)) l)) ->
  concat (f <$> seqZ 0 v) = take (Z.to_nat v * n) (drop (Z.to_nat o) l).
Proof.
  intros Ho Hv Hf. rewrite <- concat_split_n. f_equal. apply list_eq. intros i.
  rewrite list_lookup_fmap. destruct (decide (Z.of_nat i < v)) as [Hi|Hi].
  - rewrite split_n_lookup by lia. rewrite (proj2 (lookup_seqZ 0 v i _)) by (split; [done|lia]).
    cbn [fmap option_fmap option_map]. rewrite Hf by lia. rewrite drop_drop.
    do 3 f_equal. lia.
  - rewrite lookup_ge_None_2 by (rewrite length_seqZ; lia).
    by rewrite lookup_ge_None_2 by (rewrite length_split_n; lia).
Qed.

(** ** Sizes *)

Lemma usize_product_spec ds acc n :
  dims_ok ds -> usize_product acc ds = Some n -> n = acc * volume ds.
Proof.
  intros Hd. revert acc; induction Hd as [|d ds Hd Hds IH]; intros acc; cbn [usize_product volume].
  - intros [= <-]. lia.
  - rewrite wrap_u_id by (unfold_ints; lia). unfold checked_usize.
    destruct (checked _ _ (acc * d)) as [a|] eqn:E; [|done].
    apply checked_Some in E as [-> _]. intros ->%IH. lia.
Qed.

Lemma usize_product_range ds acc n :
  usize_product acc ds = Some n -> 0 <= acc <= usize_max -> 0 <= n <= usize_max.
Proof.
  revert acc; induction ds as [|d ds IH]; intros acc; cbn [usize_product]; [naive_solver|].
  unfold checked_usize. destruct (checked _ _ _) as [a|] eqn:E; [|done].
  apply checked_Some in E as [-> Hr]. intros Hu _. by apply (IH _ Hu).
Qed.

(** Products of all the prefixes fit when the whole extent does. *)
Lemma usize_product_total ds acc :
  dims_ok ds -> 0 <= acc -> acc * extent ds <= usize_max ->
  usize_product acc ds = Some (acc * volume ds).
Proof.
  intros Hd. revert acc; induction Hd as [|d ds Hd Hds IH]; intros acc Ha Hb;
    cbn [usize_product volume extent] in *; [f_equal; lia|].
  pose proof (extent_pos ds).
  rewrite wrap_u_id by (unfold_ints; lia). unfold checked_usize.
  assert (d <= Z.max 1 d * extent ds) by nia.
  assert (acc * d <= acc * (Z.max 1 d * extent ds)) by (by apply Z.mul_le_mono_nonneg_l).
  assert (acc * d * extent ds <= acc * (Z.max 1 d * extent ds))
    by (rewrite <- Z.mul_assoc; apply Z.mul_le_mono_nonneg_l; nia).
  rewrite checked_in by lia. rewrite IH by lia. f_equal. lia.
Qed.

(** [checked_numel] is the error-returning form of the product. *)
Lemma checked_numel_spec ds acc n :
  Forall (fun d => i64_min <= d <= i64_max) ds ->
  checked_numel_loop acc ds = Ok n <-> dims_ok ds /\ usize_product acc ds = Some n.
Proof.
  intros Hd. revert acc; induction Hd as [|d ds Hd Hds IH]; intros acc;
    cbn [checked_numel_loop usize_product].
  - split; [intros [= <-]; split; [constructor|done]|naive_solver].
  - rewrite dims_ok_cons. destruct (Z.ltb_spec d 0); [split; [done|lia]|].
    unfold checked_usize. destruct (checked _ _ _) as [a|]; cbn [ok_or].
    + rewrite IH. unfold_ints. naive_solver lia.
    + naive_solver.
Qed.

Lemma last_element_loop_spec ds ss acc :
  dims_ok ds -> Forall (fun d => 0 < d) ds -> Forall (fun s => 0 <= s <= i64_max) ss ->
  0 <= acc ->
  last_element_loop acc (zip ds ss)
  = Some (if acc + dot (Z.pred <$> ds) ss <=? usize_max
          then Ok (acc + dot (Z.pred <$> ds) ss)
          else match zip ds ss with [] => Ok acc | _ => Err TOverflow end).
Proof.
  intros Hd Hp. revert ss acc; induction Hd as [|d ds Hd Hds IH]; intros [|s ss] acc Hs Ha;
    cbn [zip_with last_element_loop fmap list_fmap dot]; rewrite ?Z.add_0_r.
  1-3: by destruct (acc <=? usize_max).
  apply Forall_cons in Hp as [Hp Hps]. apply Forall_cons in Hs as [Hs Hss].
  assert (0 <= dot (Z.pred <$> ds) ss).
  { apply dot_nonneg; [|eapply Forall_impl; [exact Hss|]; simpl; lia].
    apply Forall_fmap. eapply Forall_impl; [exact Hps|]. simpl. lia. }
  rewrite !wrap_u_id by (unfold_ints; lia).
  unfold checked_usize at 1. rewrite checked_in by (unfold_ints; lia).
  replace (d - 1) with (Z.pred d) by lia. set (p := Z.pred d * s) in *.
  assert (0 <= p) by (subst p; nia).
  unfold checked_usize. destruct (checked 0 usize_max p) as [p'|] eqn:E1; cbn [ok_or].
  2: { apply checked_None in E1. by rewrite (proj2 (Z.leb_gt _ _)) by lia. }
  apply checked_Some in E1 as [-> E1].
  destruct (checked 0 usize_max (acc + p)) as [a|] eqn:E2; cbn [ok_or].
  2: { apply checked_None in E2. by rewrite (proj2 (Z.leb_gt _ _)) by lia. }
  apply checked_Some in E2 as [-> E2]. rewrite IH by (done || lia).
  change (list_fmap _ _ Z.pred ds) with (Z.pred <$> ds).
  rewrite Z.add_assoc. destruct (Z.leb_spec (acc + p + dot (Z.pred <$> ds) ss) usize_max) as [|Hg];
    [done|].
  destruct ds, ss; simpl in *; try done; unfold_ints; lia.
Qed.

Lemma dot_pred_row_major ds :
  dims_ok ds -> 0 < volume ds -> dot (Z.pred <$> ds) (row_major ds) + 1 = volume ds.
Proof.
  induction ds as [|d ds IH]; intros Hd Hv; [done|].
  pose proof (volume_pos_inv _ _ Hd Hv) as [_ Hv1]. apply dims_ok_cons in Hd as [_ Hds].
  rewrite fmap_cons. cbn [row_major dot volume]. specialize (IH Hds Hv1). nia.
Qed.

Lemma volume_pos_dims ds : dims_ok ds -> 0 < volume ds -> Forall (fun d => 0 < d) ds.
Proof.
  induction ds as [|d ds IH]; intros Hd Hv; constructor.
  - by destruct (volume_pos_inv _ _ Hd Hv).
  - destruct (volume_pos_inv _ _ Hd Hv). apply dims_ok_cons in Hd as [_ Hd]. by apply IH.
Qed.

(** The bytes a view must reach past its offset. *)
Definition required (ds ss : list Z) (size : Z) : Z :=
  if volume ds =? 0 then 0 else (dot (Z.pred <$> ds) ss + 1) * size.

Lemma required_bytes_spec ds st d :
  dims_ok ds -> usize_product 1 ds = Some (volume ds) -> d <> Unspecified ->
  Forall (fun s => 0 <= s <= i64_max) (default [] st) ->
  required_bytes ds st d
  = Some (ok_or (checked_usize (required ds (default (row_major ds) st)
                                  (Z.of_nat (dtype_size d)))) TOverflow).
Proof.
  intros Hd Hu Hdt Hs. unfold required_bytes, required.
  assert (checked_numel ds = Ok (volume ds)) as ->.
  { apply checked_numel_spec; [|done]. eapply Forall_impl; [exact Hd|]. simpl. unfold_ints. lia. }
  pose proof (dtype_size_pos d Hdt). set (sz := Z.of_nat (dtype_size d)) in *.
  destruct (Z.eqb_spec (volume ds) 0) as [|Hv]; [done|].
  pose proof (volume_nonneg ds Hd). assert (0 < volume ds) by lia.
  destruct st as [ss|]; cbn [default from_option id] in *.
  - assert (0 <= dot (Z.pred <$> ds) ss).
    { apply dot_nonneg; [|eapply Forall_impl; [exact Hs|]; simpl; lia].
      apply Forall_fmap. eapply Forall_impl; [by apply volume_pos_dims|]. simpl. lia. }
    rewrite last_element_loop_spec; [|done|by apply volume_pos_dims|done|lia].
    rewrite Z.add_0_l. set (q := dot (Z.pred <$> ds) ss) in *.
    destruct (Z.leb_spec q usize_max) as [Hq|Hq].
    + unfold checked_usize. destruct (checked 0 usize_max (q + 1)) as [e|] eqn:E; cbn [ok_or].
      * by apply checked_Some in E as [-> _].
      * apply checked_None in E. rewrite (proj2 (checked_None 0 usize_max ((q + 1) * sz))); [done|].
        nia.
    + destruct (zip ds ss) eqn:Ez.
      { exfalso. destruct ds, ss; subst q; simpl in *; try done; unfold_ints; lia. }
      unfold checked_usize. rewrite (proj2 (checked_None 0 usize_max ((q + 1) * sz))); [done|].
      unfold_ints. nia.
  - by rewrite dot_pred_row_major.
Qed.

(** ** Constructors *)

Definition i64s (l : list Z) : Prop := Forall (fun z => i64_min <= z <= i64_max) l.

Lemma dims_ok_i64s ds : dims_ok ds -> i64s ds.
Proof. intros H. eapply Forall_impl; [exact H|]. simpl. unfold_ints. lia. Qed.

Lemma length_row_major ds : length (row_major ds) = length ds.
Proof. induction ds; simpl; auto. Qed.

Lemma check_strides_Ok l : check_strides l = Ok tt <-> Forall (fun s => 0 <= s) l.
Proof.
  induction l as [|s l IH]; cbn [check_strides]; [split; [constructor|done]|].
  rewrite Forall_cons. destruct (Z.ltb_spec s 0); [split; [done|lia]|].
  rewrite IH. split; [split; [lia|done]|naive_solver].
Qed.

Lemma required_span ds ss size len off :
  dims_ok ds -> 0 <= off <= len ->
  (required ds ss size <= len - off <->
   (0 < volume ds -> off + (dot (Z.pred <$> ds) ss + 1) * size <= len)).
Proof.
  intros Hd Ho. pose proof (volume_nonneg ds Hd). unfold required.
  destruct (Z.eqb_spec (volume ds) 0); lia.
Qed.

Lemma required_nonneg ds ss d :
  dims_ok ds -> Forall (fun s => 0 <= s) ss ->
  0 <= required ds ss (Z.of_nat (dtype_size d)).
Proof.
  intros Hd Hs. unfold required. destruct (Z.eqb_spec (volume ds) 0); [done|].
  pose proof (volume_nonneg ds Hd). apply Z.mul_nonneg_nonneg; [|lia].
  assert (0 <= dot (Z.pred <$> ds) ss); [|lia]. apply dot_nonneg; [|done].
  apply Forall_fmap. eapply Forall_impl; [apply volume_pos_dims; [done|lia]|]. simpl. lia.
Qed.

(** The stride checks of [from_storage]. *)
Definition stride_check (ss : option (list Z)) (ds : list Z) : result unit TensorError :=
  match ss with
  | Some ss =>
      if negb (Nat.eqb (length ss) (length ds)) then
        Err (StrideRankMismatch (length ss) (length ds))
      else check_strides ss
  | None => Ok tt
  end.

Lemma stride_check_Ok ss ds :
  i64s (default [] ss) ->
  stride_check ss ds = Ok tt <->
  Forall (fun s => 0 <= s <= i64_max) (default [] ss) /\
  length (default (row_major ds) ss) = length ds.
Proof.
  intros Hi. destruct ss as [ss|]; cbn in *.
  - destruct (Nat.eqb_spec (length ss) (length ds)); cbn [negb]; [|naive_solver].
    rewrite check_strides_Ok. apply Forall_and in Hi as [_ Hi]. rewrite Forall_and. naive_solver.
  - split; [|done]. intros _. split; [constructor|apply length_row_major].
Qed.

Lemma layout_nonneg ss ds :
  dims_ok ds -> Forall (fun s => 0 <= s <= i64_max) (default [] ss) ->
  Forall (fun s => 0 <= s) (default (row_major ds) ss).
Proof.
  intros Hd Hs. destruct ss as [ss|]; cbn in *; [|by apply row_major_nonneg].
  eapply Forall_impl; [exact Hs|]. simpl. lia.
Qed.

Section FromStorage.
Context (st : Storage) (d : DType) (ds : list Z) (ss : option (list Z)) (off : Z).
Context (bytes : list byte) (Hst : as_slice st = Some bytes).
Context (Hlen : Z.of_nat (length bytes) <= isize_max).
Context (Hds : i64s ds) (Hss : i64s (default [] ss)) (Hoff : 0 <= off <= usize_max).
#[local] Notation view := (mkTensor st d ds ss off).

(** The conditions [from_storage] checks, in its order. *)
Lemma view_wf_iff :
  tensor_wf view bytes <->
  d <> Unspecified /\ stride_check ss ds = Ok tt /\
  (dims_ok ds /\ usize_product 1 ds = Some (volume ds)) /\
  off <= Z.of_nat (length bytes) /\
  required ds (default (row_major ds) ss) (Z.of_nat (dtype_size d))
    <= Z.of_nat (length bytes) - off.
Proof.
  rewrite stride_check_Ok by done. split.
  - intros [? ? ? Hd ? ? ? Ho Hs]; cbn in *. split_and!; try done; try lia.
    apply required_span; [done|lia|done].
  - intros (? & [? ?] & [? ?] & ? & Hr). split; cbn; try done; [lia|].
    intros Hv. apply required_span in Hr; [exact Hr|done|lia|done].
Qed.

(** The layouts [from_storage] accepts are exactly the well-formed ones, and
    it panics on none. *)
Lemma from_storage_iff :
  (from_storage st d ds ss off = Some (Ok view) /\ tensor_wf view bytes) \/
  ((exists e, from_storage st d ds ss off = Some (Err e)) /\ ~ tensor_wf view bytes).
Proof.
  rewrite view_wf_iff. unfold from_storage. fold (stride_check ss ds).
  case_decide as Hd; [right; split; [by eexists | naive_solver]|].
  destruct (stride_check ss ds) as [[]|e] eqn:Hs;
    [|right; split; [by eexists | naive_solver]].
  apply stride_check_Ok in Hs as [Hsr _]; [|done].
  destruct (checked_numel ds) as [n|e] eqn:Hn.
  2: { right. split; [unfold required_bytes; rewrite Hn; by eexists|].
       intros (_ & _ & W & _). apply checked_numel_spec in W; [|done].
       unfold checked_numel in Hn. congruence. }
  apply checked_numel_spec in Hn as [Hdo Hu]; [|done].
  assert (n = volume ds) as -> by (rewrite (usize_product_spec ds 1 n Hdo Hu); lia).
  rewrite required_bytes_spec by done.
  pose proof (required_nonneg ds _ d Hdo (layout_nonneg ss ds Hdo Hsr)).
  set (req := required ds _ _) in *. unfold checked_usize.
  destruct (checked 0 usize_max req) as [r|] eqn:Hr; cbn [ok_or].
  2: { right. split; [by eexists|]. apply checked_None in Hr. unfold_ints. lia. }
  apply checked_Some in Hr as [-> Hr]. unfold storage_len. rewrite Hst.
  destruct (Z.ltb_spec (Z.of_nat (length bytes)) off); cbn [orb];
    [right; split; [by eexists | lia]|].
  destruct (Z.ltb_spec (Z.of_nat (length bytes) - off) req);
    [right; split; [by eexists | lia]|].
  left. split; [done|]. split_and!; done || lia.
Qed.

Lemma from_storage_Ok : tensor_wf view bytes -> from_storage st d ds ss off = Some (Ok view).
Proof. intros W. by destruct from_storage_iff as [[? _]|[_ ?]]. Qed.

Lemma from_storage_inv t :
  from_storage st d ds ss off = Some (Ok t) -> t = view /\ tensor_wf view bytes.
Proof. intros H. destruct from_storage_iff as [[? ?]|[[? ?] _]]; naive_solver congruence. Qed.
End FromStorage.

(** ** Reading the elements *)

Section Reading.
Context (t : Tensor) (bytes : list byte) (Hwf : tensor_wf t bytes).

Lemma numel_spec : numel t = Some (volume (shape t)).
Proof. apply (wf_numel _ _ Hwf). Qed.

Lemma volume_range : 0 <= volume (shape t) <= usize_max.
Proof.
  apply (usize_product_range (shape t) 1); [apply (wf_numel _ _ Hwf)|unfold_ints; lia].
Qed.

Lemma materialisable_volume :
  materialisable t -> 0 <= volume (shape t) * itemsize t <= isize_max.
Proof.
  intros Hm. unfold materialisable in Hm. pose proof volume_range.
  pose proof (volume_le_extent _ (wf_dims _ _ Hwf)).
  pose proof (itemsize_pos t bytes Hwf). nia.
Qed.

Lemma nbytes_spec : materialisable t -> nbytes t = Some (volume (shape t) * itemsize t).
Proof.
  intros Hm%materialisable_volume. unfold nbytes. rewrite numel_spec.
  apply checked_in. unfold_ints. fold (itemsize t). lia.
Qed.

Lemma materialisable_extent : materialisable t -> extent (shape t) <= i64_max.
Proof.
  intros Hm. unfold materialisable in Hm. pose proof (extent_pos (shape t)).
  pose proof (itemsize_pos t bytes Hwf). unfold_ints. nia.
Qed.

(** A tensor with elements in the default layout can always be copied. *)
Lemma default_layout_materialisable :
  strides t = None -> 0 < volume (shape t) -> materialisable t.
Proof.
  intros Hs Hv. unfold materialisable. pose proof (wf_dims _ _ Hwf) as Hd.
  rewrite extent_volume by done. pose proof (wf_span _ _ Hwf Hv) as Hsp.
  unfold layout_strides in Hsp. rewrite Hs, dot_pred_row_major in Hsp by done.
  pose proof (wf_alloc _ _ Hwf). pose proof (wf_offset _ _ Hwf). lia.
Qed.

Lemma effective_strides_spec :
  materialisable t ->
  effective_strides t = Some (layout_strides t) /\
  Forall (fun s => 0 <= s <= i64_max) (layout_strides t).
Proof.
  intros Hm%materialisable_extent. unfold effective_strides, layout_strides.
  pose proof (wf_strides _ _ Hwf) as Hs. pose proof (wf_dims _ _ Hwf) as Hd.
  destruct (strides t) as [ss|]; [done|]. split; [by apply contiguous_strides_spec|].
  revert Hd Hm. clear Hwf Hs. induction (shape t) as [|d ds IH]; intros Hd Hm; [constructor|].
  apply dims_ok_cons in Hd as [Hd Hds]. cbn [extent row_major] in *.
  pose proof (extent_pos ds). pose proof (volume_nonneg ds Hds).
  pose proof (volume_le_extent ds Hds). constructor; [nia|]. apply IH; [done|nia].
Qed.

(** Gathering never panics and yields the elements in row-major order. *)
Lemma gather_into_spec : materialisable t -> gather_into t = Some (logical_bytes t bytes).
Proof.
  intros Hm. unfold gather_into. destruct (effective_strides_spec Hm) as [-> Hs].
  pose proof (wf_offset _ _ Hwf) as Ho. rewrite (wf_bytes _ _ Hwf).
  rewrite slice_Some by lia. rewrite take_ge by (rewrite length_drop; lia).
  rewrite numel_spec. pose proof volume_range.
  assert (repeat 0 (length (shape t)) = unravel (shape t) 0) as ->.
  { clear. induction (shape t) as [|d ds IH]; [done|]. cbn [repeat length unravel].
    by rewrite Zdiv_0_l, Zmod_0_l, IH. }
  assert (0 = 0 mod volume (shape t)) as E by (by rewrite Zmod_0_l).
  rewrite E at 1. fold (itemsize t).
  rewrite (gather_loop_spec t bytes Hwf) by (done || lia). by rewrite Z2Nat.id by lia.
Qed.

Lemma logical_bytes_empty : volume (shape t) = 0 -> logical_bytes t bytes = [].
Proof. intros Hv. unfold logical_bytes. by rewrite Hv. Qed.

Lemma logical_bytes_consecutive :
  (forall k, 0 <= k < volume (shape t) ->
     dot (unravel (shape t) k) (layout_strides t) = k) ->
  logical_bytes t bytes
  = take (Z.to_nat (volume (shape t) * itemsize t)) (drop (Z.to_nat (byte_offset t)) bytes).
Proof.
  intros Hd. pose proof volume_range. pose proof (wf_offset _ _ Hwf).
  unfold logical_bytes.
  rewrite (concat_consecutive bytes (byte_offset t) (dtype_size (dtype t))); try lia.
  - f_equal. unfold itemsize. lia.
  - intros k Hk. unfold elem, elem_offset. rewrite Hd by done. done.
Qed.

(** With explicit strides the check succeeds on row-major layouts only. *)
Lemma is_contiguous_spec :
  materialisable t ->
  exists b, is_contiguous t = Some b /\
    (b = true -> forall k, 0 <= k < volume (shape t) ->
       dot (unravel (shape t) k) (layout_strides t) = k).
Proof.
  intros Hm%materialisable_extent. pose proof (wf_dims _ _ Hwf) as Hd.
  pose proof (wf_rank _ _ Hwf) as Hr. unfold is_contiguous, layout_strides in *.
  destruct (strides t) as [ss|]; cycle 1.
  { exists true. split; [done|]. intros _ k Hk. by apply dot_row_major. }
  destruct (decide (0 < volume (shape t))) as [Hv|Hv].
  - pose proof (is_contiguous_loop_spec (shape t) ss [] Hd Hv Hm Hr) as Hl.
    rewrite app_nil_r in Hl. rewrite Hl. eexists.
    split; [instantiate (1 := contiguous_match (shape t) ss); by destruct (contiguous_match _ _)|].
    intros Hc k Hk. by apply contiguous_match_dot.
  - destruct (is_contiguous_loop_total 1 (rev (zip (shape t) ss))) as [b Hb].
    + apply Forall_rev. rewrite Forall_forall. intros [d s] Hx%elem_of_zip_l.
      by apply (proj1 (Forall_forall _ _) Hd d Hx).
    + done.
    + change (fst <$> ?l) with (map fst l). rewrite map_rev. change (map fst ?l) with (fst <$> l). rewrite fst_zip, extent_rev by lia. lia.
    + exists b. split; [done|]. lia.
Qed.
End Reading.

(** The borrowed fast path and the gathering copy agree: both give the elements
    in row-major order, and neither panics. *)
Lemma to_contiguous_bytes_spec t bytes :
  tensor_wf t bytes -> materialisable t ->
  to_contiguous_bytes t = Some (logical_bytes t bytes).
Proof.
  intros Hwf Hm. unfold to_contiguous_bytes.
  destruct (is_contiguous_spec t bytes Hwf Hm) as (b & -> & Hb).
  rewrite (nbytes_spec t bytes Hwf Hm).
  pose proof (materialisable_volume t bytes Hwf Hm) as Hv.
  destruct b.
  - pose proof (wf_offset _ _ Hwf) as Ho. pose proof (wf_alloc _ _ Hwf) as Ha.
    unfold checked_usize. rewrite checked_in by (unfold_ints; lia).
    rewrite (wf_bytes _ _ Hwf).
    assert (byte_offset t + volume (shape t) * itemsize t <= Z.of_nat (length bytes)).
    { destruct (Z.eq_dec (volume (shape t)) 0) as [->|Hn]; [lia|].
      pose proof (volume_range t bytes Hwf).
      destruct (elem_in_bounds t bytes Hwf (volume (shape t) - 1)) as [_ He]; [lia|].
      unfold elem_offset in He. rewrite Hb in He by (done || lia). lia. }
    rewrite slice_Some by lia. f_equal.
    rewrite (logical_bytes_consecutive t bytes Hwf (Hb eq_refl)). do 2 f_equal. lia.
  - unfold with_capacity. rewrite (proj2 (Z.leb_le _ _)) by lia.
    by apply gather_into_spec.
Qed.

(** ** Allocation *)

(** A buffer filled with exactly the requested bytes reads back as those bytes,
    from a 64-byte-aligned address, wherever the allocator puts it. *)
Lemma aligned_with_spec addr (data : list byte) :
  Z.of_nat (length data) + 63 <= isize_max ->
  exists b, Storage.aligned_with addr (Z.of_nat (length data)) (Some data) = Some (Aligned b) /\
    as_slice (Aligned b) = Some data /\
    (addr + Storage.offset b) mod Storage.ALIGN = 0.
Proof.
  intros Hlen. unfold Storage.aligned_with, Storage.with_aligned_offset, Storage.ALIGN.
  set (off := (64 - addr mod 64) mod 64).
  pose proof (Z.mod_pos_bound (64 - addr mod 64) 64 ltac:(lia)) as Hoff. fold off in Hoff.
  unfold checked_usize. rewrite checked_in by (unfold_ints; lia).
  unfold with_capacity. rewrite (proj2 (Z.leb_le _ _)) by (unfold_ints; lia).
  eexists. split; [reflexivity|]. cbn [Storage.buf Storage.offset Storage.len]. split.
  - cbn [as_slice Storage.as_slice]. unfold Storage.aligned_as_slice.
    cbn [Storage.buf Storage.offset Storage.len].
    unfold checked_usize. rewrite checked_in by (unfold_ints; lia).
    rewrite slice_Some by (rewrite ?length_app, ?repeat_length; lia). f_equal.
    rewrite drop_app_le by (rewrite repeat_length; lia).
    rewrite drop_ge by (rewrite repeat_length; lia). rewrite app_nil_l. apply take_ge. lia.
  - subst off. pose proof (Z.mod_pos_bound addr 64 ltac:(lia)).
    rewrite Zplus_mod_idemp_r. pose proof (Z.div_mod addr 64 ltac:(lia)) as Hd.
    replace (addr + (64 - addr mod 64)) with ((addr / 64 + 1) * 64) by lia.
    by apply Z.mod_mul.
Qed.

Lemma itemsize_eq t u : dtype t = dtype u -> itemsize t = itemsize u.
Proof. unfold itemsize. by intros ->. Qed.

(** A freshly filled default-layout tensor holds exactly the bytes given. *)
Lemma fresh_tensor_spec st d ds (data : list byte) :
  as_slice st = Some data -> Z.of_nat (length data) <= isize_max ->
  d <> Unspecified -> dims_ok ds -> usize_product 1 ds = Some (volume ds) ->
  Z.of_nat (length data) = volume ds * Z.of_nat (dtype_size d) ->
  let t := mkTensor st d ds None 0 in
  from_storage st d ds None 0 = Some (Ok t) /\ tensor_wf t data /\ logical_bytes t data = data.
Proof.
  intros Hst Hlen Hd Hds Hu Hl t.
  assert (W : tensor_wf t data).
  { apply view_wf_iff; cbn; try done; [by apply Forall_nil|]. split_and!; try done; [lia|].
    unfold required. destruct (Z.eqb_spec (volume ds) 0); [lia|].
    pose proof (volume_nonneg ds Hds). rewrite dot_pred_row_major by (done || lia). lia. }
  split; [apply (from_storage_Ok st d ds None 0 data); try done;
          [by apply dims_ok_i64s|by apply Forall_nil]|].
  split; [done|].
  rewrite (logical_bytes_consecutive t data W); [|intros k Hk; by apply dot_row_major].
  cbn. rewrite drop_0. apply take_ge. unfold itemsize. cbn. lia.
Qed.

Lemma checked_nbytes_Ok ds d n :
  i64s ds -> checked_nbytes ds d = Ok n ->
  d <> Unspecified /\ dims_ok ds /\ usize_product 1 ds = Some (volume ds) /\
  n = volume ds * Z.of_nat (dtype_size d) /\ n <= usize_max.
Proof.
  intros Hi. unfold checked_nbytes. case_decide; [done|].
  destruct (checked_numel ds) as [v|] eqn:Hv; [|done].
  apply checked_numel_spec in Hv as [Hd Hu]; [|done].
  pose proof (usize_product_spec ds 1 v Hd Hu) as ->. rewrite Z.mul_1_l in *.
  unfold checked_usize. destruct (checked _ _ _) as [m|] eqn:E; [|done].
  apply checked_Some in E as [-> Hr]. intros [= <-]. split_and!; done || lia.
Qed.

(** [from_vec] accepts exactly the byte strings of the right length. *)
Lemma tensor_from_vec_Ok data ds d t :
  i64s ds -> Z.of_nat (length data) <= isize_max ->
  tensor_from_vec data ds d = Some (Ok t) ->
  t = mkTensor (Adopted data) d ds None 0 /\ tensor_wf t data /\ logical_bytes t data = data.
Proof.
  intros Hi Hl. unfold tensor_from_vec.
  destruct (checked_nbytes ds d) as [n|] eqn:Hn; [|done].
  apply checked_nbytes_Ok in Hn as (Hd & Hdo & Hu & Hn & _); [|done].
  destruct (Z.eqb_spec (Z.of_nat (length data)) n) as [E|]; cbn [negb]; [|done].
  destruct (fresh_tensor_spec (Adopted data) d ds data) as (Hf & W & Hb); try done; [lia|].
  unfold Storage.from_vec. rewrite Hf. by intros [= <-].
Qed.

(** ** Reshape *)

(** A layout that reads consecutively ends inside the storage. *)
Lemma consecutive_span t bytes :
  tensor_wf t bytes ->
  (forall k, 0 <= k < volume (shape t) ->
     dot (unravel (shape t) k) (layout_strides t) = k) ->
  byte_offset t + volume (shape t) * itemsize t <= Z.of_nat (length bytes).
Proof.
  intros Hwf Hb. pose proof (wf_offset _ _ Hwf).
  destruct (Z.eq_dec (volume (shape t)) 0) as [->|Hn]; [lia|].
  pose proof (volume_range t bytes Hwf).
  destruct (elem_in_bounds t bytes Hwf (volume (shape t) - 1)) as [_ He]; [lia|].
  unfold elem_offset in He. rewrite Hb in He by lia. lia.
Qed.

Lemma known_product_range ds known n :
  known_product known ds = Ok n -> 0 <= known <= usize_max -> 0 <= n <= usize_max.
Proof.
  revert known; induction ds as [|d ds IH]; intros known; cbn [known_product]; [naive_solver|].
  destruct (d <? -1); [done|]. destruct (0 <=? d); [|apply IH].
  unfold checked_usize. destruct (checked _ _ _) as [k|] eqn:E; cbn [ok_or]; [|done].
  apply checked_Some in E as [-> E]. intros H _. by apply (IH _ H).
Qed.

Lemma resolve_reshape_dims_total t bytes dims :
  tensor_wf t bytes -> i64s dims ->
  exists r, resolve_reshape_dims t dims = Some r /\
    forall ds, r = Ok ds -> i64s ds /\ length ds = length dims /\
      Forall2 (fun d d' => d <> -1 -> d' = d) dims ds.
Proof.
  intros Hwf Hi. unfold resolve_reshape_dims.
  destruct (Nat.ltb 1 _); [by eexists|].
  destruct (Nat.eqb_spec (length (filter (fun dim => dim = -1) dims)) 0) as [E|E].
  { eexists. split; [done|]. intros ds [= <-]. split_and!; [done|done|].
    clear. induction dims; by constructor. }
  destruct (known_product 1 dims) as [known|]; [|by eexists].
  rewrite (numel_spec t bytes Hwf). destruct ((known =? 0) || _); [by eexists|].
  eexists. split; [done|]. intros ds [= <-]. split; [|split].
  - apply Forall_fmap. eapply Forall_impl; [exact Hi|]. intros d Hd. cbn.
    destruct (d =? -1); [|done]. pose proof (wrap_s_range 64 (volume (shape t) / known)).
    unfold_ints. lia.
  - apply length_fmap.
  - clear. induction dims as [|d dims IH]; [constructor|]. rewrite fmap_cons.
    constructor; [|done]. destruct (Z.eqb_spec d (-1)); [done|done].
Qed.

Lemma length_logical_bytes t bytes :
  tensor_wf t bytes ->
  Z.of_nat (length (logical_bytes t bytes)) = volume (shape t) * itemsize t.
Proof.
  intros Hwf. unfold logical_bytes. rewrite (length_concat_uniform (dtype_size (dtype t))).
  - rewrite length_fmap, length_seqZ. pose proof (volume_range t bytes Hwf).
    unfold itemsize. lia.
  - apply Forall_fmap, Forall_forall. intros k [? Hk]%elem_of_seqZ.
    apply (elem_length t bytes Hwf). lia.
Qed.

(** The two ways a tensor is given new dims: over the same storage ... *)
Lemma reshape_view t bytes ds :
  tensor_wf t bytes -> dims_ok ds -> usize_product 1 ds = Some (volume ds) ->
  volume (shape t) = volume ds ->
  (forall k, 0 <= k < volume (shape t) ->
     dot (unravel (shape t) k) (layout_strides t) = k) ->
  let u := mkTensor (storage t) (dtype t) ds None (byte_offset t) in
  from_storage (storage t) (dtype t) ds None (byte_offset t) = Some (Ok u) /\
  tensor_wf u bytes /\ logical_bytes u bytes = logical_bytes t bytes.
Proof.
  intros Hwf Hdo Hu Hv Hb u. pose proof (consecutive_span t bytes Hwf Hb) as Hsp.
  pose proof (wf_dtype _ _ Hwf) as Hdt. pose proof (wf_offset _ _ Hwf) as Ho.
  pose proof (wf_alloc _ _ Hwf) as Ha. pose proof (wf_bytes _ _ Hwf) as Hbytes.
  assert (Hnil : i64s []) by by apply Forall_nil.
  pose proof (dims_ok_i64s ds Hdo).
  assert (W : tensor_wf u bytes).
  { apply view_wf_iff; cbn; try done; [unfold_ints; lia|]. split_and!; try done; [lia|].
    unfold required. destruct (Z.eqb_spec (volume ds) 0); [lia|].
    pose proof (volume_nonneg ds Hdo). rewrite dot_pred_row_major by (done || lia).
    unfold itemsize in Hsp. lia. }
  split; [|split; [done|]].
  - apply (from_storage_Ok _ _ _ _ _ bytes); try done. unfold_ints. lia.
  - rewrite (logical_bytes_consecutive t bytes Hwf Hb).
    rewrite (logical_bytes_consecutive u bytes W); [|intros k Hk; by apply dot_row_major].
    unfold itemsize. cbn. by rewrite Hv.
Qed.

(** ... or over a copy of its elements. *)
Lemma reshape_copy addr t bytes ds :
  tensor_wf t bytes -> materialisable t -> dims_ok ds ->
  usize_product 1 ds = Some (volume ds) -> volume (shape t) = volume ds ->
  volume (shape t) * itemsize t + 63 <= isize_max ->
  exists st, let u := mkTensor st (dtype t) ds None 0 in
    Storage.aligned_with addr (volume (shape t) * itemsize t) (gather_into t) = Some st /\
    from_storage st (dtype t) ds None 0 = Some (Ok u) /\
    tensor_wf u (logical_bytes t bytes) /\
    logical_bytes u (logical_bytes t bytes) = logical_bytes t bytes.
Proof.
  intros Hwf Hm Hdo Hu Hv Hcap. rewrite (gather_into_spec t bytes Hwf Hm).
  pose proof (length_logical_bytes t bytes Hwf) as Hll.
  destruct (aligned_with_spec addr (logical_bytes t bytes)) as (st & Hal & Hsl & _); [lia|].
  rewrite <- Hll, Hal. exists (Aligned st). split; [done|].
  apply fresh_tensor_spec; try done; [lia|apply (wf_dtype _ _ Hwf)|].
  unfold itemsize in Hll. lia.
Qed.

(** Reshaping never panics; when it succeeds the result has the dims asked for
    (the wildcard apart), the same number of elements and the same bytes. *)
Lemma reshape_spec addr t bytes dims :
  tensor_wf t bytes -> materialisable t -> i64s dims ->
  volume (shape t) * itemsize t + 63 <= isize_max ->
  exists r, reshape addr t dims = Some r /\
    forall u, r = Ok u ->
      dtype u = dtype t /\ volume (shape u) = volume (shape t) /\
      Forall2 (fun d d' => d <> -1 -> d' = d) dims (shape u) /\
      exists bytes', tensor_wf u bytes' /\ logical_bytes u bytes' = logical_bytes t bytes.
Proof.
  intros Hwf Hm Hi Hcap. unfold reshape.
  destruct (resolve_reshape_dims_total t bytes dims Hwf Hi) as ([ds|e] & -> & Hr);
    [|by eexists]. destruct (Hr ds eq_refl) as (Hids & _ & Hf2). clear Hr.
  destruct (checked_numel ds) as [n|] eqn:Hn; [|by eexists].
  apply checked_numel_spec in Hn as [Hdo Hu]; [|done].
  pose proof (usize_product_spec ds 1 n Hdo Hu) as Hnv. rewrite Z.mul_1_l in Hnv. subst n.
  rewrite (numel_spec t bytes Hwf).
  destruct (Z.eqb_spec (volume (shape t)) (volume ds)) as [Hv|]; cbn [negb]; [|by eexists].
  destruct (is_contiguous_spec t bytes Hwf Hm) as ([] & -> & Hb).
  - destruct (reshape_view t bytes ds) as (-> & W & Hl); try done; [by apply Hb|].
    eexists. split; [done|]. intros v [= <-]. split_and!; try done. by exists bytes.
  - rewrite (nbytes_spec t bytes Hwf Hm).
    destruct (reshape_copy addr t bytes ds) as (st & -> & -> & W & Hl); try done.
    eexists. split; [done|]. intros v [= <-]. split_and!; try done. by eexists.
Qed.

(** ** Stack and unstack *)

(** View [index] along axis 0. *)
Definition subview (t : Tensor) (index : Z) : Tensor :=
  mkTensor (storage t) (dtype t) (tail (shape t)) (tail <$> strides t)
    (byte_offset t + index * (default 0 (head (layout_strides t)) * itemsize t)).

Section Unstack.
Context (t : Tensor) (bytes : list byte) (Hwf : tensor_wf t bytes).
Context (d : Z) (ds : list Z) (Hshape : shape t = d :: ds).

Lemma layout_strides_cons :
  exists s ss, layout_strides t = s :: ss /\
    layout_strides (subview t 0) = ss /\ forall i, layout_strides (subview t i) = ss.
Proof.
  pose proof (wf_rank _ _ Hwf) as Hr. unfold layout_strides, subview in *. cbn.
  rewrite Hshape in *. destruct (strides t) as [[|s ss]|]; cbn in *; [done| |]; by eexists _, _.
Qed.

Lemma subview_offset s ss i k :
  layout_strides t = s :: ss -> 0 <= i < d -> 0 <= k < volume ds ->
  elem_offset (subview t i) k = elem_offset t (i * volume ds + k).
Proof.
  intros Hl Hi Hk. destruct layout_strides_cons as (s' & ss' & Hl' & _ & Hsub).
  rewrite Hl in Hl'. injection Hl' as <- <-.
  unfold elem_offset. rewrite (Hsub i), Hl. cbn [subview shape byte_offset].
  rewrite Hshape, Hl. cbn [tail unravel dot head default from_option id].
  rewrite (Z.add_comm (i * volume ds)), Z.div_add, Z.mod_add by lia.
  rewrite Z.div_small, Z.mod_small by lia. unfold itemsize. cbn [subview dtype]. lia.
Qed.

Lemma subview_elem i k :
  0 <= i < d -> 0 <= k < volume ds ->
  elem (subview t i) bytes k = elem t bytes (i * volume ds + k).
Proof.
  intros Hi Hk. destruct layout_strides_cons as (s & ss & Hl & _ & _).
  unfold elem. by rewrite (subview_offset s ss) by done.
Qed.

Lemma subview_in_range i k :
  0 <= i < d -> 0 <= k < volume ds -> 0 <= i * volume ds + k < volume (shape t).
Proof. intros Hi Hk. rewrite Hshape. cbn [volume]. nia. Qed.

Lemma usize_product_tail :
  dims_ok (d :: ds) -> 0 < volume (d :: ds) ->
  usize_product 1 (d :: ds) = Some (volume (d :: ds)) ->
  usize_product 1 ds = Some (volume ds).
Proof.
  intros Hd Hv Hu. destruct (volume_pos_inv _ _ Hd Hv) as [H1 H2].
  apply dims_ok_cons in Hd as [_ Hds].
  pose proof (usize_product_range _ _ _ Hu) as Hr. cbn [volume] in Hr.
  rewrite usize_product_total; [f_equal; lia|done|lia|].
  rewrite extent_volume by done. unfold_ints. nia.
Qed.

Lemma subview_wf i :
  0 < volume (shape t) -> 0 <= i < d -> tensor_wf (subview t i) bytes.
Proof.
  intros Hv Hi. pose proof (wf_dims _ _ Hwf) as Hd. pose proof (wf_numel _ _ Hwf) as Hn.
  pose proof (wf_span _ _ Hwf Hv) as Hsp. pose proof (wf_offset _ _ Hwf) as Ho.
  destruct layout_strides_cons as (s & ss & Hl & _ & Hsub).
  pose proof (layout_strides_nonneg t bytes Hwf) as Hnn.
  pose proof (wf_rank _ _ Hwf) as Hr. pose proof (wf_strides _ _ Hwf) as Hs.
  pose proof (itemsize_pos t bytes Hwf) as Hi0.
  rewrite Hl in Hsp, Hnn, Hr. rewrite Hshape in Hv, Hd, Hn, Hsp, Hr.
  rewrite fmap_cons in Hsp. cbn [dot] in Hsp. apply Forall_cons in Hnn as [Hs0 Hss0].
  destruct (volume_pos_inv _ _ Hd Hv) as [Hd1 Hv1].
  pose proof (usize_product_tail Hd Hv Hn) as Hu. apply dims_ok_cons in Hd as [_ Hds].
  assert (0 <= dot (Z.pred <$> ds) ss).
  { apply dot_nonneg; [|done]. apply Forall_fmap.
    eapply Forall_impl; [by apply volume_pos_dims|]. simpl. lia. }
  assert (Hoff : byte_offset (subview t i) = byte_offset t + i * (s * itemsize t)).
  { cbn. by rewrite Hl. }
  assert (i * (s * itemsize t) <= Z.pred d * s * itemsize t)
    by (rewrite <- Z.mul_assoc; apply Z.mul_le_mono_nonneg_r; nia).
  assert (0 <= i * (s * itemsize t)) by nia.
  split; try (apply Hwf).
  - cbn. by rewrite Hshape.
  - cbn. by rewrite Hshape.
  - rewrite Hsub. cbn. rewrite Hshape. by injection Hr.
  - cbn. destruct (strides t) as [[|s' ss']|]; cbn in *; [constructor| |constructor].
    by apply Forall_cons in Hs as [_ Hs].
  - rewrite Hoff. nia.
  - intros _. rewrite Hoff, Hsub. cbn [subview shape]. rewrite Hshape. cbn [tail].
    change (itemsize (subview t i)) with (itemsize t). nia.
Qed.

(** Without elements the default layout has nothing to step over. *)
Lemma subview_wf_empty i :
  volume (shape t) = 0 -> strides t = None -> 0 <= i < d ->
  usize_product 1 ds = Some (volume ds) -> tensor_wf (subview t i) bytes.
Proof.
  intros Hv Hst Hi Hu. pose proof (wf_dims _ _ Hwf) as Hd. rewrite Hshape in Hd, Hv.
  apply dims_ok_cons in Hd as [Hd Hds]. cbn [volume] in Hv.
  assert (Hv0 : volume ds = 0) by nia.
  split; try (apply Hwf); cbn; rewrite ?Hshape, ?Hst; cbn; try done.
  - unfold layout_strides. cbn. rewrite Hst, Hshape. cbn. apply length_row_major.
  - unfold layout_strides. rewrite Hst, Hshape. cbn. rewrite Hv0.
    pose proof (wf_offset _ _ Hwf). lia.
  - lia.
Qed.
End Unstack.

Lemma unstack_views_spec view f n i :
  (forall k, i <= k < i + Z.of_nat n -> view k = Some (Ok (f k))) ->
  unstack_views n i view = Some (Ok (f <$> seqZ i (Z.of_nat n))).
Proof.
  revert i; induction n as [|n IH]; intros i Hv; cbn [unstack_views]; [done|].
  rewrite Hv by lia. rewrite IH by (intros; apply Hv; lia).
  rewrite Nat2Z.inj_succ, (seqZ_cons i) by lia. rewrite fmap_cons.
  by rewrite Z.pred_succ.
Qed.

Lemma seqZ_blocks n v :
  0 <= v ->
  seqZ 0 (Z.of_nat n * v)
  = concat ((fun i => Z.add (i * v) <$> seqZ 0 v) <$> seqZ 0 (Z.of_nat n)).
Proof.
  intros Hv. induction n as [|n IH]; [done|].
  rewrite Nat2Z.inj_succ, Z.mul_succ_l, seqZ_app, IH by lia.
  rewrite <- Z.add_1_r, seqZ_app, fmap_app, concat_app by lia. f_equal.
  rewrite (seqZ_cons _ 1) by lia. change (Z.pred 1) with 0.
  rewrite fmap_cons, Z.add_0_l, fmap_add_seqZ. cbn [concat seqZ fmap list_fmap].
  rewrite app_nil_r. f_equal. lia.
Qed.

Lemma concat_fmap_concat {A B} (f : A -> list B) (ls : list (list A)) :
  concat (f <$> concat ls) = concat ((fun l => concat (f <$> l)) <$> ls).
Proof.
  induction ls as [|l ls IH]; [done|]. cbn [concat]. rewrite fmap_app, concat_app, IH. done.
Qed.

(** The views along axis 0 partition the elements in order. *)
Lemma logical_bytes_subviews t bytes d ds :
  tensor_wf t bytes -> shape t = d :: ds ->
  concat ((fun i => logical_bytes (subview t i) bytes) <$> seqZ 0 d) = logical_bytes t bytes.
Proof.
  intros Hwf Hs. pose proof (wf_dims _ _ Hwf) as Hd. rewrite Hs in Hd.
  apply dims_ok_cons in Hd as [Hd Hds]. pose proof (volume_nonneg ds Hds).
  unfold logical_bytes at 2. rewrite Hs. cbn [volume].
  replace d with (Z.of_nat (Z.to_nat d)) at 2 by lia.
  rewrite seqZ_blocks, concat_fmap_concat by done. rewrite Z2Nat.id by lia.
  rewrite <- list_fmap_compose. f_equal. apply list_fmap_ext. intros j i Hij. unfold compose.
  apply lookup_seqZ in Hij as [-> Hij]. unfold logical_bytes. cbn [subview shape].
  rewrite Hs. cbn [tail]. rewrite <- list_fmap_compose. f_equal.
  apply list_fmap_ext. intros l k Hlk. apply lookup_seqZ in Hlk as [-> Hlk].
  unfold compose. apply (subview_elem t bytes Hwf d ds Hs); lia.
Qed.

(** [unstack] gives one well-formed view per index of axis 0, and together they
    hold the elements of the tensor in order. *)
Lemma unstack_spec t bytes d ds :
  tensor_wf t bytes -> materialisable t -> shape t = d :: ds -> 0 < volume (shape t) ->
  default 0 (head (layout_strides t)) * itemsize t <= usize_max ->
  unstack t = Some (Ok (subview t <$> seqZ 0 d)) /\
  (forall i, 0 <= i < d -> tensor_wf (subview t i) bytes) /\
  concat ((fun i => logical_bytes (subview t i) bytes) <$> seqZ 0 d) = logical_bytes t bytes.
Proof.
  intros Hwf Hm Hs Hv Hst.
  assert (Hwfs : forall i, 0 <= i < d -> tensor_wf (subview t i) bytes)
    by (intros; by eapply subview_wf).
  split; [|split; [done|by apply (logical_bytes_subviews t bytes d ds)]].
  unfold unstack. rewrite Hs.
  destruct (effective_strides_spec t bytes Hwf Hm) as [-> Hls].
  destruct (layout_strides_cons t bytes Hwf d ds Hs) as (s & ss & Hl & _ & Hsub).
  rewrite Hl in *. apply Forall_cons in Hls as [Hs0 _]. cbn [head default from_option id] in *.
  pose proof (wf_dims _ _ Hwf) as Hd. rewrite Hs in Hd. pose proof Hd as Hd'.
  apply dims_ok_cons in Hd as [Hd _]. pose proof (itemsize_pos t bytes Hwf).
  rewrite !wrap_u_id by (unfold_ints; lia). fold (itemsize t).
  unfold checked_usize. rewrite checked_in by nia.
  replace (seqZ 0 d) with (seqZ 0 (Z.of_nat (Z.to_nat d))) by (f_equal; lia).
  apply unstack_views_spec. intros k Hk.
  assert (Hoff : byte_offset (subview t k) = byte_offset t + k * (s * itemsize t))
    by (cbn; by rewrite Hl).
  pose proof (wf_offset _ _ (Hwfs k ltac:(lia))) as Ho. rewrite Hoff in Ho.
  pose proof (wf_offset _ _ Hwf). pose proof (wf_alloc _ _ Hwf).
  rewrite (checked_in _ _ (k * _)) by (unfold_ints; nia).
  rewrite checked_in by (unfold_ints; lia). rewrite <- Hoff.
  assert (Hview : mkTensor (storage t) (dtype t) ds ((fun _ => tail (s :: ss)) <$> strides t)
                    (byte_offset (subview t k)) = subview t k).
  { unfold subview. rewrite Hs. f_equal. revert Hl. unfold layout_strides.
    destruct (strides t); [by intros ->|done]. }
  rewrite <- Hview at 2. apply (from_storage_Ok _ _ _ _ _ bytes); try done.
  - apply (wf_bytes _ _ Hwf).
  - by apply dims_ok_cons, proj2, dims_ok_i64s in Hd'.
  - pose proof (wf_strides _ _ (Hwfs k ltac:(lia))) as Hst'. rewrite <- Hview in Hst'. cbn in Hst'.
    eapply Forall_impl; [exact Hst'|]. simpl. unfold_ints. lia.
  - rewrite Hoff. unfold_ints. lia.
  - rewrite Hview. apply Hwfs. lia.
Qed.

(** ** Stacking *)

Lemma stack_check_Ok first n ts :
  Forall (fun t => dtype t = dtype first /\ shape t = shape first) ts ->
  stack_check first n ts = Ok tt.
Proof.
  intros H. revert n. induction H as [|t ts [Hd Hs] _ IH]; intros n; [done|].
  cbn [stack_check]. rewrite bool_decide_false by naive_solver. apply IH.
Qed.

(** The first tensor that differs is reported. *)
Lemma stack_check_mismatch first n ts t ts' :
  Forall (fun t => dtype t = dtype first /\ shape t = shape first) ts ->
  dtype t <> dtype first \/ shape t <> shape first ->
  stack_check first n (ts ++ t :: ts') = Err (StackMismatch (n + length ts)).
Proof.
  intros H Ht. revert n. induction H as [|u ts [Hd Hs] _ IH]; intros n; cbn [app stack_check].
  - by rewrite bool_decide_true, Nat.add_0_r.
  - rewrite bool_decide_false by naive_solver. rewrite IH. do 2 f_equal. simpl. lia.
Qed.

Lemma mapM_contiguous ts bss :
  Forall2 tensor_wf ts bss -> Forall materialisable ts ->
  mapM to_contiguous_bytes ts = Some (zip_with logical_bytes ts bss).
Proof.
  intros H. induction H as [|t b ts bss Hw _ IH]; intros Hm; [done|].
  apply Forall_cons in Hm as [Hm Hms]. cbn [mapM zip_with].
  rewrite (to_contiguous_bytes_spec t b Hw Hm). cbn. by rewrite IH.
Qed.

Lemma length_stacked t0 ts bss :
  Forall2 tensor_wf ts bss ->
  Forall (fun t => dtype t = dtype t0 /\ shape t = shape t0) ts ->
  Z.of_nat (length (concat (zip_with logical_bytes ts bss)))
  = Z.of_nat (length ts) * (volume (shape t0) * itemsize t0).
Proof.
  intros H. induction H as [|t b ts bss Hw _ IH]; intros Hs; [done|].
  apply Forall_cons in Hs as [[Hd Hsh] Hs]. cbn [zip_with concat length].
  rewrite length_app, Nat2Z.inj_add, IH by done.
  rewrite (length_logical_bytes t b Hw), Hsh, (itemsize_eq t t0) by done. lia.
Qed.

(** Stacking tensors of one dtype and shape yields a default-layout tensor whose
    elements are theirs, one tensor after the other. *)
Lemma stack_spec addr t0 ts bss :
  Forall2 tensor_wf (t0 :: ts) bss ->
  Forall (fun t => dtype t = dtype t0 /\ shape t = shape t0) ts ->
  Z.of_nat (S (length ts)) * extent (shape t0) * itemsize t0 + 63 <= isize_max ->
  exists st,
    let data := concat (zip_with logical_bytes (t0 :: ts) bss) in
    let u := mkTensor st (dtype t0) (Z.of_nat (S (length ts)) :: shape t0) None 0 in
    stack addr (t0 :: ts) = Some (Ok u) /\ tensor_wf u data /\ logical_bytes u data = data.
Proof.
  intros Hwf Hsame Hcap. set (n := Z.of_nat (S (length ts))) in *.
  assert (Hall : Forall (fun t => dtype t = dtype t0 /\ shape t = shape t0) (t0 :: ts))
    by (by constructor).
  assert (W0 : exists b0, tensor_wf t0 b0) by (inversion Hwf; by eexists). destruct W0 as [b0 W0].
  pose proof (extent_pos (shape t0)). pose proof (itemsize_pos t0 b0 W0) as Hi0.
  pose proof (wf_dims _ _ W0) as Hd0. pose proof (volume_le_extent _ Hd0).
  pose proof (volume_nonneg _ Hd0).
  assert (1 <= n) by (subst n; lia).
  assert (Hm : Forall materialisable (t0 :: ts)).
  { eapply Forall_impl; [exact Hall|]. intros t [Ht1 Ht2]. unfold materialisable.
    rewrite (itemsize_eq t t0), Ht2 by done. unfold_ints. nia. }
  assert (Hm0 : materialisable t0) by (by apply Forall_cons in Hm as [? _]).
  assert (n * volume (shape t0) <= n * extent (shape t0)) by (apply Z.mul_le_mono_nonneg_l; lia).
  assert (n <= n * extent (shape t0)) by nia.
  assert (n * extent (shape t0) <= n * extent (shape t0) * itemsize t0) by nia.
  assert (n * volume (shape t0) * itemsize t0 <= n * extent (shape t0) * itemsize t0)
    by (apply Z.mul_le_mono_nonneg_r; lia).
  pose proof (length_stacked t0 (t0 :: ts) bss Hwf Hall) as Hlen.
  change (length (t0 :: ts)) with (S (length ts)) in *. fold n in Hlen.
  unfold stack. rewrite stack_check_Ok, (nbytes_spec t0 b0 W0 Hm0), (mapM_contiguous _ bss) by done.
  change (length (t0 :: ts)) with (S (length ts)). fold n.
  cbn [fmap option_fmap option_map].
  set (data := concat _) in *. unfold checked_usize. rewrite checked_in by (unfold_ints; lia).
  cbn [ok_or]. destruct (aligned_with_spec addr data) as (st & Hal & Hsl & _); [lia|].
  replace (volume (shape t0) * itemsize t0 * n) with (Z.of_nat (length data)) by lia.
  rewrite Hal. rewrite wrap_s_id by (unfold_ints; lia).
  exists (Aligned st). apply fresh_tensor_spec; try done.
  - lia.
  - apply (wf_dtype _ _ W0).
  - apply dims_ok_cons. split; [unfold_ints; lia|done].
  - rewrite usize_product_total; [by rewrite Z.mul_1_l|..|lia|].
    + apply dims_ok_cons. split; [unfold_ints; lia|done].
    + cbn [extent]. rewrite Z.max_r by lia. unfold_ints. lia.
  - cbn [volume]. unfold itemsize in Hlen. lia.
Qed.

(** ** Properties *)

(** Logical equality compares dtype, shape and elements in C order. *)
Lemma tensor_eq_true t bt u bu :
  tensor_wf t bt -> tensor_wf u bu -> materialisable t -> materialisable u ->
  tensor_eq t u = Some true <->
  dtype t = dtype u /\ shape t = shape u /\ logical_bytes t bt = logical_bytes u bu.
Proof.
  intros Ht Hu Mt Mu. unfold tensor_eq.
  rewrite (to_contiguous_bytes_spec t bt), (to_contiguous_bytes_spec u bu) by done.
  repeat case_bool_decide; naive_solver.
Qed.

Lemma concat_uniform_inj {A} n (ls ls' : list (list A)) :
  Forall (fun c => length c = n) ls -> Forall (fun c => length c = n) ls' ->
  length ls = length ls' -> concat ls = concat ls' -> ls = ls'.
Proof.
  intros H H' Hl Hc. rewrite <- (split_n_concat n ls H), <- (split_n_concat n ls' H').
  by rewrite Hl, Hc.
Qed.

Lemma logical_lengths t0 ts bss :
  Forall2 tensor_wf ts bss ->
  Forall (fun t => dtype t = dtype t0 /\ shape t = shape t0) ts ->
  Forall (fun c => length c = Z.to_nat (volume (shape t0) * itemsize t0))
    (zip_with logical_bytes ts bss).
Proof.
  intros H. induction H as [|t b ts bss Hw _ IH]; intros Hs; [constructor|].
  apply Forall_cons in Hs as [[Hd Hsh] Hs]. constructor; [|by apply IH].
  rewrite <- (itemsize_eq t t0), <- Hsh, <- (length_logical_bytes t b Hw) by done. lia.
Qed.

(** The layouts [from_storage] accepts are exactly those whose every element
    lies inside the storage (with a specified dtype, non-negative dims and
    strides and a size that fits [usize]); it panics on no input. *)
Theorem from_storage_exact (st : Storage) (d : DType) (ds : list Z)
    (ss : option (list Z)) (off : Z) (bytes : list byte) :
  as_slice st = Some bytes -> Z.of_nat (length bytes) <= isize_max ->
  i64s ds -> i64s (default [] ss) -> 0 <= off <= usize_max ->
  let t := mkTensor st d ds ss off in
  exists r, from_storage st d ds ss off = Some r /\
    (is_ok r = true <-> tensor_wf t bytes) /\
    (is_ok r = true -> r = Ok t /\
       forall k, 0 <= k < volume ds ->
         0 <= elem_offset t k /\ elem_offset t k + itemsize t <= Z.of_nat (length bytes)).
Proof.
  intros Hst Hlen Hds Hss Hoff t.
  destruct (from_storage_iff st d ds ss off bytes) as [[-> W]|[[e ->] W]]; try done;
    eexists; split_and!; try done.
  intros _. split; [done|]. intros k Hk.
  destruct (elem_in_bounds t bytes W k Hk) as [Hd He]. split; [|done].
  apply Z.add_nonneg_nonneg; [exact (proj1 (wf_offset _ _ W))|].
  apply Z.mul_nonneg_nonneg; [exact Hd|]. apply Z.lt_le_incl, (itemsize_pos t bytes W).
Qed.

Lemma from_storage_exact_witness :
  exists r, from_storage (Adopted (repeat (byte.of_Z 7) 8)) Int16 [2; 2] (Some [1; 2]) 0 = Some r
    /\ is_ok r = true.
Proof.
  destruct (from_storage_exact (Adopted (repeat (byte.of_Z 7) 8)) Int16 [2; 2] (Some [1; 2]) 0
              (repeat (byte.of_Z 7) 8)) as (r & Hr & _ & _).
  - reflexivity.
  - vm_compute. discriminate.
  - repeat constructor; vm_compute; discriminate.
  - repeat constructor; vm_compute; discriminate.
  - split; vm_compute; discriminate.
  - exists r. split; [exact Hr|]. vm_compute in Hr. injection Hr as <-. reflexivity.
Defined.


(** Reshaping a well-formed tensor never panics; a successful reshape keeps
    the dtype, the explicit dims, the element count and the element bytes,
    whether it shares the storage or copies. *)
Theorem reshape_preserves_elements (addr : Z) (t : Tensor) (bytes : list byte) (dims : list Z) :
  tensor_wf t bytes -> materialisable t -> i64s dims ->
  volume (shape t) * itemsize t + 63 <= isize_max ->
  exists r, reshape addr t dims = Some r /\
    forall u, r = Ok u ->
      dtype u = dtype t /\ volume (shape u) = volume (shape t) /\
      Forall2 (fun d d' => d <> -1 -> d' = d) dims (shape u) /\
      exists bytes', tensor_wf u bytes' /\ logical_bytes u bytes' = logical_bytes t bytes.
Proof. apply reshape_spec. Qed.

Lemma stacked_parts st t0 ts bss :
  Forall2 tensor_wf ts bss ->
  Forall (fun t => dtype t = dtype t0 /\ shape t = shape t0) ts ->
  let n := Z.of_nat (length ts) in
  let data := concat (zip_with logical_bytes ts bss) in
  let u := mkTensor st (dtype t0) (n :: shape t0) None 0 in
  (forall i, 0 <= i < n -> tensor_wf (subview u i) data) ->
  concat ((fun i => logical_bytes (subview u i) data) <$> seqZ 0 n) = data ->
  (fun i => logical_bytes (subview u i) data) <$> seqZ 0 n = zip_with logical_bytes ts bss.
Proof.
  intros Hwf Hall n data u Hws Hcat.
  apply (concat_uniform_inj (Z.to_nat (volume (shape t0) * itemsize t0))).
  - apply Forall_fmap, Forall_forall. intros i [? ?]%elem_of_seqZ. unfold compose.
    pose proof (length_logical_bytes _ _ (Hws i ltac:(lia))) as Hl.
    change (shape (subview u i)) with (shape t0) in Hl.
    change (itemsize (subview u i)) with (itemsize t0) in Hl. lia.
  - by apply logical_lengths.
  - rewrite length_fmap, length_seqZ, length_zip_with_l_eq by (by eapply Forall2_length).
    subst n. lia.
  - by rewrite Hcat.
Qed.

(** Unstacking a stack gives back tensors equal to the ones stacked, in
    order. *)
Theorem unstack_stack (addr : Z) (t0 : Tensor) (ts : list Tensor) (bss : list (list byte)) :
  Forall2 tensor_wf (t0 :: ts) bss ->
  Forall (fun t => dtype t = dtype t0 /\ shape t = shape t0) ts ->
  Z.of_nat (S (length ts)) * extent (shape t0) * itemsize t0 + 63 <= isize_max ->
  0 < volume (shape t0) ->
  exists u views, stack addr (t0 :: ts) = Some (Ok u) /\ unstack u = Some (Ok views) /\
    Forall2 (fun v t => tensor_eq v t = Some true) views (t0 :: ts).
Proof.
  intros Hwf Hsame Hcap Hv.
  destruct (stack_spec addr t0 ts bss Hwf Hsame Hcap) as (st & Hs & W & Hb).
  set (n := Z.of_nat (S (length ts))) in *. set (u := mkTensor st _ _ None 0) in *.
  set (data := concat _) in *.
  assert (W0 : exists b0, tensor_wf t0 b0) by (inversion Hwf; by eexists). destruct W0 as [b0 W0].
  pose proof (itemsize_pos t0 b0 W0). pose proof (extent_pos (shape t0)).
  pose proof (wf_dims _ _ W0) as Hd0. assert (1 <= n) by (subst n; lia).
  assert (Hvu : 0 < volume (shape u)) by (cbn [u shape volume]; nia).
  assert (Mu : materialisable u) by (by eapply default_layout_materialisable).
  assert (extent (shape t0) * itemsize t0 <= isize_max).
  { assert (1 * (extent (shape t0) * itemsize t0) <= n * (extent (shape t0) * itemsize t0))
      by (apply Z.mul_le_mono_nonneg_r; nia). lia. }
  destruct (unstack_spec u data n (shape t0) W Mu eq_refl Hvu) as (Hun & Hws & Hcat).
  { change (volume (shape t0) * itemsize t0 <= usize_max).
    rewrite <- extent_volume by done. unfold_ints. lia. }
  exists u, (subview u <$> seqZ 0 n). split; [done|]. split; [done|].
  assert (Hall : Forall (fun t => dtype t = dtype t0 /\ shape t = shape t0) (t0 :: ts))
    by (by constructor).
  rewrite Hb in Hcat. pose proof (stacked_parts st t0 (t0 :: ts) bss Hwf Hall Hws Hcat) as Hparts.
  apply Forall2_same_length_lookup_2.
  { rewrite length_fmap, length_seqZ. subst n. simpl. lia. }
  intros i v t Hiv Hit. apply list_lookup_fmap_Some in Hiv as (k & -> & Hk).
  destruct (Forall2_lookup_l _ _ _ _ _ Hwf Hit) as (b & Hib & Wt).
  destruct (Forall_lookup_1 _ _ _ _ Hall Hit) as [Hdt Hst].
  pose proof (proj1 (lookup_seqZ _ _ _ _) Hk) as [-> Hik].
  apply (tensor_eq_true _ data t b); try done.
  - apply Hws. lia.
  - unfold materialisable. by rewrite Hst, (itemsize_eq t t0).
  - split_and!; [done..|].
    assert (Hl : zip_with logical_bytes (t0 :: ts) bss !! i = Some (logical_bytes t b))
      by (by rewrite lookup_zip_with, Hit; cbn; rewrite Hib).
    rewrite <- Hparts, list_lookup_fmap in Hl. change (Z.of_nat (length (t0 :: ts))) with n in Hl.
    rewrite Hk in Hl. by injection Hl.
Qed.

(** Copying bytes into a fresh buffer and reading the storage gives the bytes
    back, and the payload starts at a 64-byte-aligned address wherever the
    allocation lies. *)
Theorem storage_from_slice_aligned (addr : Z) (data : list byte) :
  Z.of_nat (length data) + 63 <= isize_max ->
  exists b, Storage.from_slice addr data = Some (Aligned b) /\
    as_slice (Aligned b) = Some data /\
    (addr + Storage.offset b) mod Storage.ALIGN = 0.
Proof. apply aligned_with_spec. Qed.

Lemma storage_from_slice_aligned_witness :
  exists b, Storage.from_slice 1000 (repeat (byte.of_Z 5) 3) = Some (Aligned b).
Proof.
  destruct (storage_from_slice_aligned 1000 (repeat (byte.of_Z 5) 3)) as (b & Hb & _);
    [vm_compute; discriminate|]. exists b. exact Hb.
Defined.

(** A valid tensor without elements can have dims whose product overflows
    [i64]; the accessors that compute strides panic on it, though the
    constructor accepted it. *)
Theorem zero_element_strides_panic :
  let t := mkTensor (Adopted []) Uint8 [0; 2 ^ 62; 4] None 0 in
  let v := mkTensor (Adopted []) Uint8 [0; 2 ^ 62; 4] (Some [1; 4; 1]) 0 in
  from_storage (Adopted []) Uint8 [0; 2 ^ 62; 4] None 0 = Some (Ok t) /\
  from_storage (Adopted []) Uint8 [0; 2 ^ 62; 4] (Some [1; 4; 1]) 0 = Some (Ok v) /\
  numel t = Some 0 /\ effective_strides t = None /\ unstack t = None /\
  is_contiguous v = None /\ to_contiguous_bytes v = None.
Proof. split_and!; by vm_compute. Qed.

(** ** Witnesses *)

(** Closes a comparison of closed integers. *)
Ltac compute_Z := vm_compute; first [reflexivity | discriminate | split; discriminate].

(** A transposed 2x3 view of six bytes. *)
Definition six_bytes : list byte := byte.of_Z <$> [1; 2; 3; 4; 5; 6].
Definition transposed : Tensor := mkTensor (Adopted six_bytes) Uint8 [3; 2] (Some [1; 3]) 0.

Lemma transposed_wf : tensor_wf transposed six_bytes.
Proof.
  split.
  - reflexivity.
  - compute_Z.
  - discriminate.
  - unfold dims_ok. repeat apply Forall_cons_2; [compute_Z..|apply Forall_nil_2].
  - compute_Z.
  - reflexivity.
  - repeat apply Forall_cons_2; [compute_Z..|apply Forall_nil_2].
  - compute_Z.
  - intros _. compute_Z.
Qed.


Lemma reshape_preserves_elements_witness :
  exists r, reshape 0 transposed [-1] = Some r /\ is_ok r = true.
Proof.
  destruct (reshape_preserves_elements 0 transposed six_bytes [-1]) as (r & Hr & _).
  - exact transposed_wf.
  - vm_compute. discriminate.
  - repeat constructor; vm_compute; discriminate.
  - vm_compute. discriminate.
  - exists r. split; [exact Hr|]. vm_compute in Hr. injection Hr as <-. reflexivity.
Defined.

Lemma unstack_stack_witness :
  exists u views, stack 0 [transposed; transposed] = Some (Ok u) /\
    unstack u = Some (Ok views) /\
    Forall2 (fun v t => tensor_eq v t = Some true) views [transposed; transposed].
Proof.
  apply (unstack_stack 0 transposed [transposed] [six_bytes; six_bytes]).
  - repeat apply Forall2_cons_2; [exact transposed_wf..|apply Forall2_nil_2].
  - apply Forall_cons_2; [done|apply Forall_nil_2].
  - vm_compute. discriminate.
  - vm_compute. reflexivity.
Defined.
