(* ===== verification/Types.v ===== *)
(** * Spaces, values and contracts

    The data of [rlmesh-spaces]: [types.rs], [errors.rs], [meta.rs] and the
    value and outcome types of [spaces/value.rs]. *)

From S2P Require Import Prelude BTree Float DType Tensor.

(** ** Errors *)

Inductive SpaceError : Type :=
| Invalid (path : string) (msg : message).

Definition error_path (e : SpaceError) : string := match e with Invalid path _ => path end.

(** [err_space!(path, name, msg)]: the message is [format!("[{}] {}", name, msg)]. *)
Definition space_err (path name : string) (msg : message) : SpaceError :=
  Invalid path (Msg "[{}] {}" [AStr name; nested msg]).

Inductive EnvRuntimeError : Type :=
| InvalidSpace (msg : message)
| InvalidValue (msg : message)
| RuntimeError (msg : message)
| Recoverable (msg : message).

Definition is_recoverable (e : EnvRuntimeError) : bool :=
  match e with
  | InvalidSpace _ | InvalidValue _ | Recoverable _ => true
  | _ => false
  end.

(** ** Bounds and specs *)

Record UniformBounds : Type := { uniform_low : f64; uniform_high : f64 }.
Record ElementwiseBounds : Type := { elementwise_low : list f64; elementwise_high : list f64 }.
Record TypedUniformBounds : Type := { typed_low : list byte; typed_high : list byte }.
Record TypedElementwiseBounds : Type :=
  { typed_elems_low : list byte; typed_elems_high : list byte }.

Inductive BoxBounds : Type :=
| Unbounded (b : bool)
| Uniform (b : UniformBounds)
| Elementwise (b : ElementwiseBounds)
| TypedUniform (b : TypedUniformBounds)
| TypedElementwise (b : TypedElementwiseBounds).

Record BoxSpec : Type := { bounds : option BoxBounds }.
Record DiscreteSpec : Type := { discrete_n : Z; discrete_start : Z }.
Inductive MultiBinarySpec : Type := mkMultiBinary.
Record MultiDiscreteSpec : Type := { nvec : list Z }.

(** Strings of text spaces and values are lists of characters, a character
    being its code point. *)
Record TextSpec : Type := { min_length : Z; max_length : Z; charset : list Z }.

Record DictSpecOf (S : Type) : Type := mkDictSpec { keys : list string; dict_spaces : list S }.
Arguments mkDictSpec {S}.
Arguments keys {S}.
Arguments dict_spaces {S}.

Record TupleSpecOf (S : Type) : Type := mkTupleSpec { tuple_spaces : list S }.
Arguments mkTupleSpec {S}.
Arguments tuple_spaces {S}.

Inductive SpaceKindOf (S : Type) : Type :=
| KBox (b : BoxSpec)
| KDiscrete (d : DiscreteSpec)
| KMultiBinary (m : MultiBinarySpec)
| KMultiDiscrete (m : MultiDiscreteSpec)
| KText (t : TextSpec)
| KDict (d : DictSpecOf S)
| KTuple (t : TupleSpecOf S).
Arguments KBox {S}.
Arguments KDiscrete {S}.
Arguments KMultiBinary {S}.
Arguments KMultiDiscrete {S}.
Arguments KText {S}.
Arguments KDict {S}.
Arguments KTuple {S}.

Inductive SpaceSpec : Type :=
| mkSpec (space_shape : list Z) (space_dtype : DType) (spec : option (SpaceKindOf SpaceSpec)).

Notation DictSpec := (DictSpecOf SpaceSpec).
Notation TupleSpec := (TupleSpecOf SpaceSpec).
Notation SpaceKind := (SpaceKindOf SpaceSpec).

Definition space_shape (s : SpaceSpec) : list Z := let 'mkSpec x _ _ := s in x.
Definition space_dtype (s : SpaceSpec) : DType := let 'mkSpec _ x _ := s in x.
Definition spec (s : SpaceSpec) : option SpaceKind := let 'mkSpec _ _ x := s in x.

Inductive SpaceType : Type :=
| TyUnspecified | TyBox | TyDiscrete | TyMultiBinary | TyMultiDiscrete | TyText | TyDict | TyTuple.

#[export] Instance SpaceType_eq_dec : EqDecision SpaceType.
Proof. solve_decision. Defined.

Definition space_type (s : SpaceSpec) : SpaceType :=
  match spec s with
  | Some (KBox _) => TyBox
  | Some (KDiscrete _) => TyDiscrete
  | Some (KMultiBinary _) => TyMultiBinary
  | Some (KMultiDiscrete _) => TyMultiDiscrete
  | Some (KText _) => TyText
  | Some (KDict _) => TyDict
  | Some (KTuple _) => TyTuple
  | None => TyUnspecified
  end.

Definition space_type_try_from (value : Z) : result SpaceType string :=
  match value with
  | 0 => Ok TyUnspecified
  | 1 => Ok TyBox
  | 2 => Ok TyDiscrete
  | 3 => Ok TyMultiBinary
  | 4 => Ok TyMultiDiscrete
  | 5 => Ok TyText
  | 10 => Ok TyDict
  | 11 => Ok TyTuple
  | _ => Err "invalid space type"%string
  end.

Definition space_type_to_i32 (t : SpaceType) : Z :=
  match t with
  | TyUnspecified => 0
  | TyBox => 1
  | TyDiscrete => 2
  | TyMultiBinary => 3
  | TyMultiDiscrete => 4
  | TyText => 5
  | TyDict => 10
  | TyTuple => 11
  end.

Inductive AutoresetMode : Type := NextStep | SameStep | Disabled.

#[export] Instance AutoresetMode_eq_dec : EqDecision AutoresetMode.
Proof. solve_decision. Defined.

(** [AutoresetMode::default()]. *)
Definition autoreset_default : AutoresetMode := Disabled.

Record UnknownAutoresetMode : Type := mkUnknownAutoresetMode { unknown_mode : Z }.

Definition unknown_autoreset_message (e : UnknownAutoresetMode) : message :=
  Msg "unknown autoreset mode {}" [AZ (unknown_mode e)].

Definition autoreset_try_from (value : Z) : result AutoresetMode UnknownAutoresetMode :=
  match value with
  | 1 => Ok NextStep
  | 2 => Ok SameStep
  | 0 | 3 => Ok Disabled
  | other => Err (mkUnknownAutoresetMode other)
  end.

Definition autoreset_to_i32 (m : AutoresetMode) : Z :=
  match m with NextStep => 1 | SameStep => 2 | Disabled => 3 end.

(** ** Metadata and contracts *)

Inductive MetaValue : Type :=
| MNull
| MBool (b : bool)
| MInt (i : Z)
| MFloat (f : f64)
| MString (s : string)
| MBytes (b : list byte)
| MList (l : list MetaValue)
| MMap (m : list (string * MetaValue)).

Definition MetaMap : Type := btree MetaValue.

Record EnvContract : Type := {
  contract_id : string;
  action_space : option SpaceSpec;
  observation_space : option SpaceSpec;
  metadata : option MetaMap;
  render_mode : string;
  num_envs : Z;
  autoreset_mode : AutoresetMode;
}.

(** ** Values and outcomes *)

Inductive SpaceValue : Type :=
| VBox (t : Tensor)
| VDiscrete (v : Z)
| VMultiBinary (v : list bool)
| VMultiDiscrete (v : list Z)
| VText (s : list Z)
| VDict (m : list (string * SpaceValue))
| VTuple (l : list SpaceValue).

Inductive Conformance : Type :=
| Conforms
| Structural (e : SpaceError)
| Range (e : SpaceError).

Definition conformance_is_ok (c : Conformance) : bool :=
  match c with Conforms => true | _ => false end.

Definition into_result (c : Conformance) : result unit SpaceError :=
  match c with
  | Conforms => Ok tt
  | Structural err | Range err => Err err
  end.

(** Lift an all-structural validator. *)
Definition structural (r : result unit SpaceError) : Conformance :=
  match r with
  | Ok _ => Conforms
  | Err err => Structural err
  end.

Inductive ValidationPolicy : Type := PWarn | PStrict | POff.

Inductive PolicyOutcome : Type :=
| Accept
| WarnWith (e : SpaceError)
| Reject (e : SpaceError).

Definition evaluate (policy : ValidationPolicy) (c : Conformance) : PolicyOutcome :=
  match c with
  | Conforms => Accept
  | Structural err => Reject err
  | Range err =>
      match policy with
      | PWarn => WarnWith err
      | PStrict => Reject err
      | POff => Accept
      end
  end.

(** ** Structure *)

Definition children (s : SpaceSpec) : list SpaceSpec :=
  match spec s with
  | Some (KDict d) => dict_spaces d
  | Some (KTuple t) => tuple_spaces t
  | _ => []
  end.

(** Induction over the tree of a spec. *)
Lemma SpaceSpec_ind' (P : SpaceSpec -> Prop) :
  (forall s, Forall P (children s) -> P s) -> forall s, P s.
Proof.
  intros Hind. fix IH 1. intros [sh dt k]. apply Hind. unfold children. cbn [spec].
  destruct k as [[| | | | |[ks sp]|[sp]]|]; try apply Forall_nil_2; cbn [dict_spaces tuple_spaces].
  - induction sp as [|c sp IHsp]; constructor; [apply IH|exact IHsp].
  - induction sp as [|c sp IHsp]; constructor; [apply IH|exact IHsp].
Qed.

(** The discriminants decode back to their variants. *)
Lemma discriminants_roundtrip :
  (forall t, space_type_try_from (space_type_to_i32 t) = Ok t) /\
  (forall m, autoreset_try_from (autoreset_to_i32 m) = Ok m).
Proof. by split; intros []. Qed.
