(* ===== verification/Fundamental.v ===== *)
(** * Fundamental spaces other than Box

    [spaces/fundamental/{text,discrete,multi_binary,multi_discrete}.rs]: the
    validators of specs and the membership checks of values.  The builders are
    in [Builders]. *)

From S2P Require Import Prelude BTree Float DType Scalar Tensor Types.
#[local] Open Scope string_scope.
#[local] Open Scope Z_scope.

(** ** Text *)

Definition validate_text_at (s : SpaceSpec) (path : string) : result unit SpaceError :=
  match space_shape s with
  | _ :: _ => Err (space_err path "Text" (lit "shape must be empty"))
  | [] =>
      if negb (bool_decide (space_dtype s = Uint8)) then
        Err (space_err path "Text" (lit "dtype must be uint8"))
      else
        match spec s with
        | Some (KText t) =>
            if min_length t <? 0 then
              Err (space_err path "Text" (lit "min_length must be >= 0"))
            else if max_length t <? 0 then
              Err (space_err path "Text" (lit "max_length must be >= 0"))
            else if max_length t <? min_length t then
              Err (space_err path "Text" (lit "min_length must be <= max_length"))
            else Ok tt
        | _ => Err (space_err path "Text" (lit "spec.text must be set"))
        end
  end.

(** [charset.contains(c)]. *)
Definition charset_contains (charset : list Z) (c : Z) : bool := existsb (Z.eqb c) charset.

(** The first character outside the charset, if any. *)
Fixpoint check_charset (charset text : list Z) (path : string) : Conformance :=
  match text with
  | [] => Conforms
  | c :: text =>
      if negb (charset_contains charset c) then
        Range (Invalid path (Msg "character '{c}' not in charset" [AChar c]))
      else check_charset charset text path
  end.

Definition conform_text (s : SpaceSpec) (value : SpaceValue) (path : string) : Conformance :=
  match value with
  | VText text =>
      match spec s with
      | Some (KText t) =>
          let len := Z.of_nat (length text) in
          if len <? min_length t then
            Range (Invalid path (Msg "text length {len} below minimum {}" [AZ len; AZ (min_length t)]))
          else if max_length t <? len then
            Range (Invalid path (Msg "text length {len} exceeds maximum {}" [AZ len; AZ (max_length t)]))
          else
            match charset t with
            | [] => Conforms
            | _ => check_charset (charset t) text path
            end
      | _ => Structural (Invalid path (lit "space is not Text"))
      end
  | _ => Structural (Invalid path (lit "expected Text value"))
  end.

(** ** MultiBinary *)

Definition validate_multibinary_at (s : SpaceSpec) (path : string) : result unit SpaceError :=
  match space_shape s with
  | [] => Err (space_err path "MultiBinary" (lit "shape must be set (rank >= 1)"))
  | _ =>
      if bool_decide (space_dtype s = Unspecified) then
        Err (space_err path "MultiBinary" (lit "dtype must be set"))
      else if negb (Nat.eqb (dtype_size (space_dtype s)) 1) then
        Err (space_err path "MultiBinary"
          (Msg "dtype must be a single-byte type (bool/uint8/int8), got {}"
             [AStr (dtype_name (space_dtype s))]))
      else
        let? _ := try_for_each (fun i d =>
          if d <=? 0 then
            Err (space_err path "MultiBinary" (Msg "shape[{i}] must be > 0" [ANat i]))
          else Ok tt) 0 (space_shape s) in
        match spec s with
        | Some (KMultiBinary _) => Ok tt
        | _ => Err (space_err path "MultiBinary" (lit "spec.multi_binary must be set"))
        end
  end.

(** [shape.iter().try_fold(1usize, ..)]: [None] on a negative dim or an
    overflowing product. *)
Fixpoint try_numel (acc : Z) (l : list Z) : option Z :=
  match l with
  | [] => Some acc
  | d :: l =>
      let! d := checked_usize d in
      let! acc := checked_usize (acc * d) in
      try_numel acc l
  end.

Definition contains_multibinary (s : SpaceSpec) (value : SpaceValue) (path : string)
    : result unit SpaceError :=
  match value with
  | VMultiBinary vals =>
      match spec s with
      | Some (KMultiBinary _) =>
          let? expected_size :=
            ok_or (try_numel 1 (space_shape s))
              (Invalid path (lit "MultiBinary shape has an invalid or too-large dimension")) in
          if negb (Z.of_nat (length vals) =? expected_size) then
            Err (Invalid path (Msg "MultiBinary size mismatch: expected {}, got {}"
                                 [AZ expected_size; ANat (length vals)]))
          else Ok tt
      | _ => Err (Invalid path (lit "space is not MultiBinary"))
      end
  | _ => Err (Invalid path (lit "expected MultiBinary value"))
  end.

(** ** Discrete *)

(** The whole range [start, start + (n-1)] fits the dtype. *)
Definition check_discrete_range (d : DiscreteSpec) (dtype : DType) (path : string)
    : result unit SpaceError :=
  let? max :=
    ok_or (checked_i64 (discrete_start d + (discrete_n d - 1)))
      (Invalid path (lit "[Discrete] start + (n-1) overflowed i64")) in
  try_for_each (fun _ bound =>
    if negb (is_ok (check_int_in_dtype_range bound dtype)) then
      Err (space_err path "Discrete"
        (Msg "value {bound} does not fit dtype {}" [AZ bound; AStr (dtype_name dtype)]))
    else Ok tt) 0 [discrete_start d; max].

Definition validate_discrete_at (s : SpaceSpec) (path : string) : result unit SpaceError :=
  match space_shape s with
  | _ :: _ => Err (space_err path "Discrete" (lit "shape must be empty"))
  | [] =>
      if bool_decide (space_dtype s = Unspecified) then
        Err (space_err path "Discrete" (lit "dtype must be set"))
      else
        let? _ :=
          match space_dtype s with
          | Int64 | Int32 | Uint8 => Ok tt
          | other =>
              Err (space_err path "Discrete"
                (Msg "Discrete.dtype must be an integer type; got {other:?}"
                   [AStr (dtype_debug other)]))
          end in
        match spec s with
        | Some (KDiscrete d) =>
            if discrete_n d <=? 0 then Err (space_err path "Discrete" (lit "n must be > 0"))
            else check_discrete_range d (space_dtype s) path
        | _ => Err (space_err path "Discrete" (lit "spec.discrete must be set"))
        end
  end.

Definition contains_discrete (s : SpaceSpec) (value : SpaceValue) (path : string)
    : result unit SpaceError :=
  match value with
  | VDiscrete val =>
      match spec s with
      | Some (KDiscrete d) =>
          let in_range :=
            (discrete_start d <=? val) &&
            (wrap_u 64 (wrap_s 64 (val - discrete_start d)) <? wrap_u 64 (discrete_n d)) in
          if negb in_range then
            let stop :=
              match checked_i64 (discrete_start d + discrete_n d) with
              | Some stop => pretty stop
              | None => "i64::MAX+1"
              end in
            Err (Invalid path (Msg "value {} not in range [{}, {})"
                                 [AZ val; AZ (discrete_start d); AStr stop]))
          else Ok tt
      | _ => Err (Invalid path (lit "space is not Discrete"))
      end
  | _ => Err (Invalid path (lit "expected Discrete value"))
  end.

(** ** MultiDiscrete *)

(** The element count of the shape, checked dim by dim. *)
Fixpoint multidiscrete_numel (path : string) (i : nat) (numel : Z) (l : list Z)
    : result Z SpaceError :=
  match l with
  | [] => Ok numel
  | d :: l =>
      if d <=? 0 then
        Err (space_err path "MultiDiscrete" (Msg "MultiDiscrete.shape[{i}] must be > 0" [ANat i]))
      else
        let? numel :=
          ok_or (checked_i64 (numel * d))
            (Invalid path (lit "MultiDiscrete.shape product overflowed")) in
        multidiscrete_numel path (S i) numel l
  end.

Definition validate_multidiscrete_at (s : SpaceSpec) (path : string) : result unit SpaceError :=
  match space_shape s with
  | [] => Err (space_err path "MultiDiscrete" (lit "shape must be set (rank >= 1)"))
  | _ =>
      if bool_decide (space_dtype s = Unspecified) then
        Err (space_err path "MultiDiscrete" (lit "dtype must be set"))
      else if negb (is_integer (space_dtype s)) then
        Err (space_err path "MultiDiscrete"
          (Msg "dtype must be an integer type, got {}" [AStr (dtype_name (space_dtype s))]))
      else
        let? numel := multidiscrete_numel path 0 1 (space_shape s) in
        match spec s with
        | Some (KMultiDiscrete md) =>
            match nvec md with
            | [] => Err (space_err path "MultiDiscrete" (lit "nvec must be non-empty"))
            | _ =>
                let? _ := try_for_each (fun i n =>
                  if n <=? 0 then
                    Err (space_err path "MultiDiscrete" (Msg "nvec[{i}] must be > 0" [ANat i]))
                  else if negb (is_ok (check_int_in_dtype_range (n - 1) (space_dtype s))) then
                    Err (space_err path "MultiDiscrete"
                      (Msg "nvec[{i}] - 1 = {} does not fit dtype {}"
                         [ANat i; AZ (n - 1); AStr (dtype_name (space_dtype s))]))
                  else Ok tt) 0 (nvec md) in
                if negb (wrap_s 64 (Z.of_nat (length (nvec md))) =? numel) then
                  Err (space_err path "MultiDiscrete"
                    (lit "shape mismatch: expected len(nvec) == numel(shape)"))
                else Ok tt
            end
        | _ => Err (space_err path "MultiDiscrete" (lit "spec.multi_discrete must be set"))
        end
  end.

Definition contains_multidiscrete (s : SpaceSpec) (value : SpaceValue) (path : string)
    : result unit SpaceError :=
  match value with
  | VMultiDiscrete vals =>
      match spec s with
      | Some (KMultiDiscrete md) =>
          if negb (Nat.eqb (length vals) (length (nvec md))) then
            Err (Invalid path (Msg "MultiDiscrete size mismatch: expected {}, got {}"
                                 [ANat (length (nvec md)); ANat (length vals)]))
          else
            try_for_each (fun i '(val, n) =>
              if (val <? 0) || (n <=? val) then
                Err (Invalid path (Msg "value[{}] = {} not in range [0, {})" [ANat i; AZ val; AZ n]))
              else Ok tt) 0 (zip vals (nvec md))
      | _ => Err (Invalid path (lit "space is not MultiDiscrete"))
      end
  | _ => Err (Invalid path (lit "expected MultiDiscrete value"))
  end.

(** ** What the checks accept *)

Definition is_i64 (z : Z) : Prop := i64_min <= z <= i64_max.

(** The characters of a text are drawn from the charset, an empty one allowing
    all. *)
Definition chars_ok (charset text : list Z) : Prop :=
  charset = [] \/ Forall (fun c => c ∈ charset) text.

Lemma charset_contains_spec charset c : charset_contains charset c = true <-> c ∈ charset.
Proof.
  unfold charset_contains. rewrite existsb_exists. setoid_rewrite Z.eqb_eq.
  rewrite list_elem_of_In. naive_solver.
Qed.

Lemma check_charset_Conforms charset text path :
  check_charset charset text path = Conforms <-> Forall (fun c => c ∈ charset) text.
Proof.
  induction text as [|c text IH]; cbn [check_charset]; [split; [constructor|done]|].
  rewrite Forall_cons, <- charset_contains_spec.
  destruct (charset_contains charset c); cbn [negb]; [rewrite IH|]; naive_solver.
Qed.

Lemma check_charset_not_structural charset text path e :
  check_charset charset text path <> Structural e.
Proof. induction text; cbn [check_charset]; [done|]. by case_match. Qed.

Lemma conform_text_Conforms s t text path :
  spec s = Some (KText t) ->
  conform_text s (VText text) path = Conforms <->
  min_length t <= Z.of_nat (length text) <= max_length t /\ chars_ok (charset t) text.
Proof.
  intros Hs. unfold conform_text, chars_ok. rewrite Hs.
  destruct (Z.ltb_spec (Z.of_nat (length text)) (min_length t)); [split; [done|lia]|].
  destruct (Z.ltb_spec (max_length t) (Z.of_nat (length text))); [split; [done|lia]|].
  destruct (charset t) as [|c cs] eqn:E; [naive_solver lia|].
  rewrite <- E, check_charset_Conforms, E. naive_solver lia.
Qed.

Lemma validate_text_Ok s t path :
  spec s = Some (KText t) ->
  validate_text_at s path = Ok tt <->
  space_shape s = [] /\ space_dtype s = Uint8 /\ 0 <= min_length t <= max_length t.
Proof.
  intros Hs. unfold validate_text_at. rewrite Hs.
  destruct (space_shape s); [|naive_solver].
  case_bool_decide; cbn [negb]; [|naive_solver].
  destruct (Z.ltb_spec (min_length t) 0); [naive_solver lia|].
  destruct (Z.ltb_spec (max_length t) 0); [naive_solver lia|].
  destruct (Z.ltb_spec (max_length t) (min_length t)); naive_solver lia.
Qed.

Lemma check_int_Ok z d :
  is_ok (check_int_in_dtype_range z d) = true <->
  d <> Unspecified /\
  match signed_dtype_range d with Some (lo, hi) => lo <= z <= hi | None => True end.
Proof.
  unfold check_int_in_dtype_range. case_decide; [naive_solver|].
  destruct (signed_dtype_range d) as [[lo hi]|]; [|naive_solver].
  destruct (within lo hi z) eqn:E; cbn [negb is_ok].
  - apply within_spec in E. naive_solver.
  - apply within_false in E. naive_solver.
Qed.

(** The values of a Discrete space. *)
Definition discrete_member (d : DiscreteSpec) (v : Z) : Prop :=
  discrete_start d <= v < discrete_start d + discrete_n d.

(** The wrapping, unsigned offset comparison decides membership exactly, over
    the whole [i64] range. *)
Lemma contains_discrete_Ok s d v path :
  spec s = Some (KDiscrete d) -> is_i64 v -> is_i64 (discrete_start d) ->
  0 < discrete_n d <= i64_max ->
  contains_discrete s (VDiscrete v) path = Ok tt <-> discrete_member d v.
Proof.
  unfold is_i64. unfold_ints. intros Hs Hv Hst Hn. unfold contains_discrete, discrete_member.
  rewrite Hs. rewrite wrap_u_wrap_s by lia. rewrite (wrap_u_id 64 (discrete_n d)) by lia.
  destruct (Z.leb_spec (discrete_start d) v); cbn [andb negb]; [|split; [done|lia]].
  rewrite wrap_u_id by lia.
  destruct (Z.ltb_spec (v - discrete_start d) (discrete_n d)); cbn [negb]; [|split; [done|lia]].
  split; [lia|done].
Qed.

Definition discrete_dtype (d : DType) : Prop := d = Int64 \/ d = Int32 \/ d = Uint8.

#[export] Instance discrete_dtype_dec d : Decision (discrete_dtype d).
Proof. unfold discrete_dtype. apply _. Defined.

(** A dtype's whole range, as stored in the [i64] of a scalar. *)
Definition fits_dtype (d : DType) (z : Z) : Prop :=
  match signed_dtype_range d with Some (lo, hi) => lo <= z <= hi | None => False end.

Lemma fits_check z d : is_integer d = true ->
  is_ok (check_int_in_dtype_range z d) = true <-> fits_dtype d z.
Proof. intros Hd. rewrite check_int_Ok. unfold fits_dtype. destruct d; naive_solver. Qed.

Lemma try_for_each_if {A E} (c : A -> bool) (e : nat -> A -> E) i l :
  try_for_each (fun i x => if c x then Err (e i x) else Ok tt) i l = Ok tt <->
  Forall (fun x => c x = false) l.
Proof.
  revert i; induction l as [|x l IH]; intros i; cbn [try_for_each]; [split; [constructor|done]|].
  rewrite Forall_cons. destruct (c x); [naive_solver|]. rewrite IH. naive_solver.
Qed.

Lemma check_discrete_range_Ok d dtype path :
  is_integer dtype = true ->
  check_discrete_range d dtype path = Ok tt <->
  is_i64 (discrete_start d + (discrete_n d - 1)) /\
  fits_dtype dtype (discrete_start d) /\
  fits_dtype dtype (discrete_start d + (discrete_n d - 1)).
Proof.
  intros Hi. unfold check_discrete_range, is_i64, checked_i64.
  destruct (checked _ _ _) as [m|] eqn:E; cbn [ok_or].
  - apply checked_Some in E as [-> E]. rewrite try_for_each_if, !Forall_cons, Forall_nil.
    rewrite !negb_false_iff, !fits_check by done. naive_solver.
  - apply checked_None in E. naive_solver.
Qed.

Lemma validate_discrete_Ok s d path :
  spec s = Some (KDiscrete d) ->
  validate_discrete_at s path = Ok tt <->
  space_shape s = [] /\ discrete_dtype (space_dtype s) /\ 0 < discrete_n d /\
  is_i64 (discrete_start d + (discrete_n d - 1)) /\
  fits_dtype (space_dtype s) (discrete_start d) /\
  fits_dtype (space_dtype s) (discrete_start d + (discrete_n d - 1)).
Proof.
  intros Hs. unfold validate_discrete_at. rewrite Hs.
  destruct (space_shape s); [|naive_solver].
  destruct (decide (discrete_dtype (space_dtype s))) as [Hd|Hd].
  - assert (Hi : is_integer (space_dtype s) = true) by (by destruct Hd as [->|[->| ->]]).
    rewrite bool_decide_false by (by intros E; rewrite E in Hi).
    assert ((match space_dtype s with Int64 | Int32 | Uint8 => Ok tt
             | other => Err (space_err path "Discrete"
                 (Msg "Discrete.dtype must be an integer type; got {other:?}"
                   [AStr (dtype_debug other)])) end) = Ok tt) as ->
      by (by destruct Hd as [->|[->| ->]]).
    rewrite <- check_discrete_range_Ok by done.
    destruct (Z.leb_spec (discrete_n d) 0); naive_solver lia.
  - split; [|naive_solver]. intros Hv. exfalso. apply Hd. unfold discrete_dtype.
    destruct (space_dtype s); cbn in Hv; naive_solver.
Qed.

Lemma try_numel_Some acc l n :
  Forall (fun d => 0 <= d <= i64_max) l ->
  try_numel acc l = Some n <-> usize_product acc l = Some n.
Proof.
  intros H. revert acc; induction H as [|d l Hd _ IH]; intros acc; [done|].
  cbn [try_numel usize_product]. unfold checked_usize. rewrite checked_in by (unfold_ints; lia).
  rewrite wrap_u_id by (unfold_ints; lia). destruct (checked _ _ _); [apply IH|done].
Qed.

Lemma validate_multibinary_Ok s m path :
  spec s = Some (KMultiBinary m) ->
  validate_multibinary_at s path = Ok tt <->
  space_shape s <> [] /\ dtype_size (space_dtype s) = 1%nat /\
  Forall (fun d => 0 < d) (space_shape s).
Proof.
  intros Hs. unfold validate_multibinary_at. rewrite Hs.
  destruct (space_shape s) as [|d0 ds] eqn:Hsh; [naive_solver|].
  case_bool_decide as Hu; [rewrite Hu; naive_solver|].
  destruct (Nat.eqb_spec (dtype_size (space_dtype s)) 1) as [Hsz|Hsz]; cbn [negb]; [|naive_solver].
  destruct (try_for_each _ 0 (d0 :: ds)) as [[]|e] eqn:E.
  - apply try_for_each_if in E. split; [|done]. intros _. split_and!; [done|done|].
    eapply Forall_impl; [exact E|]. cbn. intros z Hz. by apply Z.leb_gt in Hz.
  - split; [done|]. intros (_ & _ & Hf). exfalso.
    assert (try_for_each (fun i d => if d <=? 0 then
      Err (space_err path "MultiBinary" (Msg "shape[{i}] must be > 0" [ANat i])) else Ok tt)
      0 (d0 :: ds) = Ok tt) as Ht; [|congruence].
    apply try_for_each_if. eapply Forall_impl; [exact Hf|]. cbn. intros z Hz. by apply Z.leb_gt.
Qed.

Lemma contains_multibinary_Ok s m vals path :
  spec s = Some (KMultiBinary m) -> Forall (fun d => 0 <= d <= i64_max) (space_shape s) ->
  contains_multibinary s (VMultiBinary vals) path = Ok tt <->
  usize_product 1 (space_shape s) = Some (Z.of_nat (length vals)).
Proof.
  intros Hs Hd. unfold contains_multibinary. rewrite Hs.
  destruct (try_numel 1 (space_shape s)) as [n|] eqn:E; cbn [ok_or].
  - apply try_numel_Some in E; [|done]. rewrite E.
    destruct (Z.eqb_spec (Z.of_nat (length vals)) n); cbn [negb]; naive_solver.
  - split; [done|]. intros Hu%try_numel_Some; [congruence|done].
Qed.

Lemma contains_multidiscrete_Ok s m vals path :
  spec s = Some (KMultiDiscrete m) ->
  contains_multidiscrete s (VMultiDiscrete vals) path = Ok tt <->
  Forall2 (fun v n => 0 <= v < n) vals (nvec m).
Proof.
  intros Hs. unfold contains_multidiscrete. rewrite Hs.
  destruct (Nat.eqb_spec (length vals) (length (nvec m))) as [Hl|Hl]; cbn [negb];
    [|split; [done|intros Hf; by apply Forall2_length in Hf]].
  generalize 0%nat as i. revert Hl. generalize (nvec m) as ns. clear.
  induction vals as [|v vals IH]; intros [|n ns] Hl i; try done; cbn [zip_with try_for_each].
  rewrite Forall2_cons.
  destruct (Z.ltb_spec v 0); cbn [orb]; [split; [done|lia]|].
  destruct (Z.leb_spec n v); [split; [done|lia]|].
  injection Hl as Hl. rewrite IH by done. naive_solver lia.
Qed.

Lemma multidiscrete_numel_Ok path i acc l m :
  0 < acc <= i64_max ->
  multidiscrete_numel path i acc l = Ok m <->
  Forall (fun d => 0 < d) l /\ m = acc * volume l /\ acc * volume l <= i64_max.
Proof.
  revert i acc; induction l as [|d l IH]; intros i acc Ha; cbn [multidiscrete_numel volume].
  { rewrite Z.mul_1_r. split; [intros [= <-]; split_and!; done || lia || constructor|].
    intros (_ & -> & _). done. }
  rewrite Forall_cons. destruct (Z.leb_spec d 0); [split; [done|lia]|].
  unfold checked_i64. destruct (checked i64_min i64_max (acc * d)) as [a|] eqn:E; cbn [ok_or].
  - apply checked_Some in E as [-> E]. rewrite IH by nia. rewrite Z.mul_assoc. naive_solver.
  - apply checked_None in E. split; [done|]. intros ([_ Hf] & _ & Hb). exfalso. apply E.
    assert (0 < volume l).
    { clear - Hf. induction Hf; cbn [volume]; [lia|]. by apply Z.mul_pos_pos. }
    unfold_ints. nia.
Qed.

Lemma validate_multidiscrete_Ok s m path :
  spec s = Some (KMultiDiscrete m) -> Z.of_nat (length (nvec m)) <= i64_max ->
  validate_multidiscrete_at s path = Ok tt <->
  space_shape s <> [] /\ is_integer (space_dtype s) = true /\
  Forall (fun d => 0 < d) (space_shape s) /\ nvec m <> [] /\
  Forall (fun n => 0 < n /\ fits_dtype (space_dtype s) (n - 1)) (nvec m) /\
  Z.of_nat (length (nvec m)) = volume (space_shape s).
Proof.
  intros Hs Hlen. unfold validate_multidiscrete_at. rewrite Hs.
  destruct (space_shape s) as [|d0 ds]; [naive_solver|].
  case_bool_decide as Hu; [rewrite Hu; naive_solver|].
  destruct (is_integer (space_dtype s)) eqn:Hi; cbn [negb]; [|naive_solver].
  destruct (multidiscrete_numel path 0 1 (d0 :: ds)) as [v|] eqn:E.
  2: { split; [done|]. intros (_ & _ & Hf & _ & _ & Hv). exfalso.
       assert (multidiscrete_numel path 0 1 (d0 :: ds) = Ok (1 * volume (d0 :: ds))); [|congruence].
       apply multidiscrete_numel_Ok; [unfold_ints; lia|]. split_and!; [done|done|]. lia. }
  apply multidiscrete_numel_Ok in E as (Hf & -> & Hb); [|unfold_ints; lia].
  rewrite Z.mul_1_l in *. destruct (nvec m) as [|n0 ns]; [naive_solver|].
  rewrite wrap_s_id by (unfold_ints; lia).
  set (g := fun (i : nat) (n : Z) => _).
  assert (Hg : try_for_each g 0 (n0 :: ns) = Ok tt <->
    Forall (fun n => 0 < n /\ fits_dtype (space_dtype s) (n - 1)) (n0 :: ns)).
  { assert (Hn : forall i n, g i n = Ok tt <-> 0 < n /\ fits_dtype (space_dtype s) (n - 1)).
    { intros i n. subst g. cbn beta. rewrite <- fits_check by done.
      destruct (Z.leb_spec n 0); [split; [done|lia]|]. destruct (is_ok _); naive_solver. }
    rewrite try_for_each_Ok, Forall_lookup.
    split; intros H k n Hk; apply (Hn (0 + k)%nat), (H k n Hk). }
  destruct (try_for_each g 0 (n0 :: ns)) as [[]|e].
  - destruct (Z.eqb_spec (Z.of_nat (length (n0 :: ns))) (volume (d0 :: ds))); naive_solver.
  - naive_solver.
Qed.
