(* ===== verification/BoxSpace.v ===== *)
(** * Box spaces: bounds and validation

    [spaces/fundamental/box_space/space.rs] without the builder itself, which
    is in [Builders]. *)

From S2P Require Import Prelude BTree Float DType Scalar Tensor Types Fundamental.
From Stdlib Require Import SpecFloat.
#[local] Open Scope string_scope.
#[local] Open Scope Z_scope.

(** Bounds requested at the builder, before the dtype is known. *)
Inductive PendingBounds : Type :=
| Ready (b : BoxBounds)
| IntUniform (low high : Z)
| IntTensor (low high : list Z)
| UintUniform (low high : Z)
| UintTensor (low high : list Z).

Definition bound_encode_error (err : ScalarError) : SpaceError :=
  Invalid "Box" (Msg "cannot encode integer Box bounds: {err}" [nested (scalar_error_message err)]).

Inductive BoundSide : Type := Low | High.

Definition label (s : BoundSide) : string := match s with Low => "low" | High => "high" end.

(** [(inclusive_min, exclusive_upper)] in [f64]. *)
Definition int_dtype_f64_bounds (dtype : DType) : f64 * f64 :=
  match dtype with
  | Uint8 => (f64_zero, f64_pow2 8)
  | Uint16 => (f64_zero, f64_pow2 16)
  | Uint32 => (f64_zero, f64_pow2 32)
  | Uint64 => (f64_zero, f64_pow2 64)
  | Int8 => (f64_neg_pow2 7, f64_pow2 7)
  | Int16 => (f64_neg_pow2 15, f64_pow2 15)
  | Int32 => (f64_neg_pow2 31, f64_pow2 31)
  | Int64 => (f64_neg_pow2 63, f64_pow2 63)
  | _ => (f64_neg_infinity, f64_infinity)
  end.

Definition reject_non_integral_int_bound (dtype : DType) (value : f64) (side : BoundSide)
    (path : string) : result unit SpaceError :=
  if negb (is_integer dtype) then Ok tt
  else
    let name := label side in
    if negb (f64_is_finite value) || negb (f64_eqb (f64_fract value) f64_zero) then
      Err (space_err path "Box"
        (Msg "integer-dtype bound {name}={value} must be a finite whole number"
           [AStr name; AF64 (f64_bits value)]))
    else
      let '(min, max_exclusive) := int_dtype_f64_bounds dtype in
      let changes_admitted_set :=
        match side with
        | Low => f64_ge value max_exclusive
        | High => f64_lt value min
        end in
      if changes_admitted_set : bool then
        Err (space_err path "Box"
          (Msg "integer-dtype bound {name}={value} is not representable in {dtype} and would saturate to a different admitted set"
             [AStr name; AF64 (f64_bits value); AStr (dtype_name dtype)]))
      else Ok tt.

(** One pair of [f64] bounds; [what] and [at_elem] are the two message forms. *)
Definition check_float_bounds (dtype : DType) (path : string) (nan above : message)
    (low high : f64) : result unit SpaceError :=
  if f64_is_nan low || f64_is_nan high then Err (space_err path "Box" nan)
  else if f64_gt low high then Err (space_err path "Box" above)
  else
    let? _ := reject_non_integral_int_bound dtype low Low path in
    reject_non_integral_int_bound dtype high High path.

(** [low > high] in the dtype's native domain; unordered is not greater. *)
Definition scalar_gt (low high : Scalar) (dtype : DType) : option bool :=
  let! c := cmp_typed low high dtype in
  Some match c with Some Gt => true | _ => false end.

Definition scalar_is_nan (s : Scalar) : bool :=
  match s with SFloat v => f64_is_nan v | _ => false end.

Section Typed.
Context `{HalfOps}.

Definition encode_int_bound (values : list Z) (dtype : DType)
    : option (result (list byte) SpaceError) :=
  let!? _ := Some (try_for_each (fun _ value =>
    map_err bound_encode_error (check_int_in_dtype_range value dtype)) 0 values) in
  let! encoded := encode_i64_scalars values dtype in
  Some (map_err bound_encode_error encoded).

Definition encode_uint_bound (values : list Z) (dtype : DType)
    : option (result (list byte) SpaceError) :=
  let!? _ := Some (try_for_each (fun _ value =>
    map_err bound_encode_error (check_uint_in_dtype_range value dtype)) 0 values) in
  match dtype with
  | Float16 | Float32 | Float64 =>
      let! encoded := encode_scalars ((fun value => SFloat (f64_of_Z value)) <$> values) dtype in
      Some (map_err bound_encode_error encoded)
  | _ =>
      let! encoded := encode_i64_scalars (wrap_s 64 <$> values) dtype in
      Some (map_err bound_encode_error encoded)
  end.

Definition decode_typed (bytes : list byte) (dtype : DType) (path : string)
    : option (result (list Scalar) SpaceError) :=
  let! r := decode_scalars bytes dtype in
  Some (map_err (fun err => Invalid path
    (Msg "cannot decode typed Box bounds: {err}" [nested (scalar_error_message err)])) r).

Fixpoint check_typed_pairs (dtype : DType) (path : string) (index : nat)
    (l : list (Scalar * Scalar)) : option (result unit SpaceError) :=
  match l with
  | [] => Some (Ok tt)
  | (lo, hi) :: l =>
      if scalar_is_nan lo || scalar_is_nan hi then
        Some (Err (space_err path "Box"
          (Msg "typed bounds invalid: NaN bound at element {index}" [ANat index])))
      else
        let! gt := scalar_gt lo hi dtype in
        if gt : bool then
          Some (Err (space_err path "Box"
            (Msg "typed bounds invalid: low>high at element {index}" [ANat index])))
        else check_typed_pairs dtype path (S index) l
  end.

Definition validate_typed_bounds (low high : list byte) (count : Z) (dtype : DType)
    (path : string) : option (result unit SpaceError) :=
  if decide (dtype = Unspecified) then
    Some (Err (space_err path "Box" (lit "typed bounds require a concrete dtype")))
  else
    let elem := Z.of_nat (dtype_size dtype) in
    let!? expected :=
      Some (ok_or (checked_usize (count * elem))
              (Invalid path (lit "Box typed bounds length overflowed"))) in
    if negb (Z.of_nat (length low) =? expected) || negb (Z.of_nat (length high) =? expected) then
      Some (Err (space_err path "Box"
        (Msg "typed bounds invalid: expected {expected} bytes each ({count} x {elem}-byte {dtype}), got low={}, high={}"
           [AZ expected; AZ count; AZ elem; AStr (dtype_name dtype);
            ANat (length low); ANat (length high)])))
    else
      let!? low_scalars := decode_typed low dtype path in
      let!? high_scalars := decode_typed high dtype path in
      check_typed_pairs dtype path 0 (zip low_scalars high_scalars).

Definition validate_box_at (s : SpaceSpec) (path : string) : option (result unit SpaceError) :=
  match space_shape s with
  | [] => Some (Err (space_err path "Box" (lit "shape must be set (rank >= 1)")))
  | _ =>
      if bool_decide (space_dtype s = Unspecified) then
        Some (Err (space_err path "Box" (lit "dtype must be set")))
      else
        let!? _ := Some (try_for_each (fun i d =>
          if d <=? 0 then Err (space_err path "Box" (Msg "shape[{i}] must be > 0" [ANat i]))
          else Ok tt) 0 (space_shape s)) in
        match spec s with
        | Some (KBox b) =>
            let!? numel :=
              Some (ok_or (usize_product 1 (space_shape s))
                      (Invalid path (lit "Box.shape product overflowed"))) in
            match bounds b with
            | Some (Unbounded _) => Some (Ok tt)
            | Some (Uniform s') =>
                Some (check_float_bounds (space_dtype s) path
                        (lit "scalar bounds invalid: NaN bound")
                        (lit "scalar bounds invalid: low > high")
                        (uniform_low s') (uniform_high s'))
            | Some (Elementwise t) =>
                if negb (Nat.eqb (length (elementwise_low t)) (length (elementwise_high t))) then
                  Some (Err (space_err path "Box"
                    (lit "tensor bounds invalid: low/high length mismatch")))
                else if negb (Z.of_nat (length (elementwise_low t)) =? numel) then
                  Some (Err (space_err path "Box"
                    (Msg "tensor bounds invalid: expected length {numel}" [AZ numel])))
                else
                  Some (try_for_each (fun i '(low, high) =>
                    check_float_bounds (space_dtype s) path
                      (Msg "tensor bounds invalid: NaN bound at element {i}" [ANat i])
                      (Msg "tensor bounds invalid: low>high at element {i}" [ANat i])
                      low high) 0 (zip (elementwise_low t) (elementwise_high t)))
            | Some (TypedUniform t) =>
                validate_typed_bounds (typed_low t) (typed_high t) 1 (space_dtype s) path
            | Some (TypedElementwise t) =>
                validate_typed_bounds (typed_elems_low t) (typed_elems_high t) numel
                  (space_dtype s) path
            | None => Some (Err (space_err path "Box" (lit "bounds must be set")))
            end
        | _ => Some (Err (space_err path "Box" (lit "spec.box must be set")))
        end
  end.
End Typed.

(** ** Typed bounds never panic *)

Lemma scalar_gt_spec a b d :
  scalar_wf a -> scalar_wf b ->
  scalar_gt a b d
  = Some (match scalar_real d a ≫= fun x => scalar_real d b ≫= fun y =>
                  Some (xreal_compare x y) with Some Gt => true | _ => false end).
Proof. intros Ha Hb. unfold scalar_gt. by rewrite cmp_typed_spec. Qed.

Lemma scalar_gt_total a b d : scalar_wf a -> scalar_wf b -> is_Some (scalar_gt a b d).
Proof. intros. rewrite scalar_gt_spec by done. by eexists. Qed.

Section TypedLemmas.
Context `{HalfOps}.

Lemma decode_scalars_wf bytes d vs :
  decode_scalars bytes d = Some (Ok vs) -> Forall scalar_wf vs.
Proof.
  unfold decode_scalars. case_decide; [done|]. case_match; [done|].
  destruct (mapM _ _) as [vs'|] eqn:E; [|done]. intros [= <-]. apply mapM_Some in E.
  induction E; constructor; [by eapply decode_scalar_wf|done].
Qed.

Lemma decode_typed_wf bytes d path vs :
  decode_typed bytes d path = Some (Ok vs) -> decode_scalars bytes d = Some (Ok vs).
Proof.
  unfold decode_typed. destruct (decode_scalars bytes d) as [[|]|]; simpl; congruence.
Qed.

Lemma check_typed_pairs_total d path i l :
  Forall (fun p => scalar_wf p.1 /\ scalar_wf p.2) l ->
  is_Some (check_typed_pairs d path i l).
Proof.
  intros Hl. revert i. induction Hl as [|[lo hi] l [Hlo Hhi] _ IH]; intros i;
    cbn [check_typed_pairs]; [by eexists|].
  case_match; [by eexists|]. destruct (scalar_gt_total lo hi d Hlo Hhi) as [[] ->];
    [by eexists|apply IH].
Qed.

Lemma Forall_zip {A B} (P : A -> Prop) (Q : B -> Prop) l k :
  Forall P l -> Forall Q k -> Forall (fun p => P p.1 /\ Q p.2) (zip l k).
Proof.
  intros Hl. revert k. induction Hl as [|x l Hx _ IH]; intros [|y k] Hk; cbn; try constructor;
    apply Forall_cons in Hk as [Hy Hk]; [done|by apply IH].
Qed.

Lemma validate_typed_bounds_total low high count d path :
  is_Some (validate_typed_bounds low high count d path).
Proof.
  unfold validate_typed_bounds. case_decide; [by eexists|].
  destruct (checked_usize _); cbn [ok_or]; [|by eexists].
  case_match; [by eexists|].
  destruct (decode_scalars_no_panic low d) as [rl Hrl].
  destruct (decode_scalars_no_panic high d) as [rh Hrh].
  unfold decode_typed. rewrite Hrl, Hrh.
  destruct rl as [vl|]; cbn [map_err]; [|by eexists].
  destruct rh as [vh|]; cbn [map_err]; [|by eexists].
  apply check_typed_pairs_total, Forall_zip; by eapply decode_scalars_wf.
Qed.

(** Validating a Box spec panics on no input. *)
Lemma validate_box_total s path : is_Some (validate_box_at s path).
Proof.
  unfold validate_box_at. destruct (space_shape s); [by eexists|].
  case_bool_decide; [by eexists|]. destruct (try_for_each _ _ _); [|by eexists].
  destruct (spec s) as [[b| | | | | |]|]; try (by eexists).
  destruct (usize_product _ _); cbn [ok_or]; [|by eexists].
  destruct (bounds b) as [[]|]; try (by eexists); try apply validate_typed_bounds_total.
  case_match; [by eexists|]. case_match; by eexists.
Qed.
End TypedLemmas.

(** ** Float bounds on integer dtypes *)

(** The values an integer dtype holds. *)
Definition int_range (d : DType) : option (Z * Z) :=
  match d with
  | Uint8 => Some (0, 2 ^ 8 - 1)
  | Uint16 => Some (0, 2 ^ 16 - 1)
  | Uint32 => Some (0, 2 ^ 32 - 1)
  | Uint64 => Some (0, 2 ^ 64 - 1)
  | Int8 => Some (- 2 ^ 7, 2 ^ 7 - 1)
  | Int16 => Some (- 2 ^ 15, 2 ^ 15 - 1)
  | Int32 => Some (- 2 ^ 31, 2 ^ 31 - 1)
  | Int64 => Some (- 2 ^ 63, 2 ^ 63 - 1)
  | _ => None
  end.

Lemma int_range_bounds d lo hi :
  int_range d = Some (lo, hi) ->
  exists fmin fmax, int_dtype_f64_bounds d = (fmin, fmax) /\
    f64_is_finite fmin = true /\ f64_num fmin = lo * f64_one /\
    f64_is_finite fmax = true /\ f64_num fmax = (hi + 1) * f64_one /\ lo <= 0 <= hi.
Proof.
  destruct f64_zero_num as [F0 N0].
  assert (Hp : forall k, k ∈ [7; 8; 15; 16; 31; 32; 63; 64] -> _) by exact f64_pow2_num.
  destruct d; intros [= <- <-]; eexists _, _; (split; [reflexivity|]).
  all: match goal with
       | |- context [f64_pow2 ?k] => destruct (Hp k) as (F1 & N1 & F2 & N2); [set_solver|]
       end.
  all: rewrite ?F0, ?N0, ?F1, ?N1, ?F2, ?N2; split_and!; try reflexivity; lia.
Qed.

(** A whole number: the scaled value is a multiple of one. *)
Lemma fract_zero_integral x :
  f64_is_finite x = true -> f64_eqb (f64_fract x) f64_zero = true ->
  exists z, f64_num x = z * f64_one.
Proof.
  intros Hf He. destruct (f64_fract_num x Hf) as [Hff Hn]. destruct f64_zero_num as [F0 N0].
  rewrite f64_eqb_num, Hn, N0 in He by done. apply Z.eqb_eq in He.
  pose proof f64_one_pos. pose proof (Z.quot_rem (f64_num x) f64_one ltac:(lia)).
  exists (Z.quot (f64_num x) f64_one). lia.
Qed.

(** What the guard accepts: a finite whole number that does not move across the
    dtype's range. *)
Lemma reject_Ok d v side path lo hi :
  int_range d = Some (lo, hi) ->
  reject_non_integral_int_bound d v side path = Ok tt ->
  exists z, f64_is_finite v = true /\ f64_num v = z * f64_one /\
    match side with Low => z <= hi | High => lo <= z end.
Proof.
  intros Hr. unfold reject_non_integral_int_bound.
  assert (is_integer d = true) as -> by (by destruct d). cbn [negb].
  destruct (f64_is_finite v) eqn:Hf; cbn [negb orb]; [|done].
  destruct (f64_eqb (f64_fract v) f64_zero) eqn:Hz; cbn [negb]; [|done].
  destruct (fract_zero_integral v Hf Hz) as [z Hn].
  destruct (int_range_bounds d lo hi Hr) as (fmin & fmax & -> & F1 & N1 & F2 & N2 & _).
  intros Hrej. pose proof f64_one_pos. exists z. split; [done|]. split; [done|].
  destruct side.
  - rewrite f64_ge_num, N2, Hn in Hrej by done.
    destruct (Z.leb_spec ((hi + 1) * f64_one) (z * f64_one)); [done|]. nia.
  - rewrite f64_lt_num, N1, Hn in Hrej by done.
    destruct (Z.ltb_spec (z * f64_one) (lo * f64_one)); [done|]. nia.
Qed.

(** The saturating cast [v as iN] of the wire form. *)
Definition saturated (d : DType) (v : f64) : Z :=
  match int_range d with Some (lo, hi) => f64_as_int lo hi v | None => 0 end.

Lemma saturated_spec d v lo hi z :
  int_range d = Some (lo, hi) -> f64_is_finite v = true -> f64_num v = z * f64_one ->
  saturated d v = saturate lo hi z.
Proof.
  intros Hr Hf Hn. destruct (int_range_bounds d lo hi Hr) as (_ & _ & _ & _ & _ & _ & _ & Hlh).
  unfold saturated. rewrite Hr, f64_as_int_num, Hn by done. pose proof f64_one_pos.
  by rewrite Z.quot_mul by lia.
Qed.

(** On an integer dtype, float bounds that pass the guard admit the same
    values of the dtype after the saturating cast that packs them for the wire. *)
Theorem saturation_keeps_admitted_set (d : DType) (low high : f64) (path : string)
    (lo hi v : Z) :
  int_range d = Some (lo, hi) ->
  reject_non_integral_int_bound d low Low path = Ok tt ->
  reject_non_integral_int_bound d high High path = Ok tt ->
  lo <= v <= hi ->
  (f64_num low <= v * f64_one <= f64_num high <-> saturated d low <= v <= saturated d high).
Proof.
  intros Hr Hl Hh Hv.
  destruct (reject_Ok d low Low path lo hi Hr Hl) as (zl & Fl & Nl & Bl).
  destruct (reject_Ok d high High path lo hi Hr Hh) as (zh & Fh & Nh & Bh).
  rewrite (saturated_spec d low lo hi zl), (saturated_spec d high lo hi zh) by done.
  rewrite Nl, Nh. pose proof f64_one_pos as H1. unfold saturate.
  rewrite <- !(Z.mul_le_mono_pos_r _ _ f64_one H1). lia.
Qed.

Lemma saturation_keeps_admitted_set_witness :
  saturated Uint8 (f64_of_Z (-1)) = 0 /\
  (f64_num (f64_of_Z (-1)) <= 7 * f64_one <= f64_num (f64_of_Z 400) <->
   saturated Uint8 (f64_of_Z (-1)) <= 7 <= saturated Uint8 (f64_of_Z 400)).
Proof.
  split; [vm_compute; reflexivity|].
  apply (saturation_keeps_admitted_set Uint8 (f64_of_Z (-1)) (f64_of_Z 400) "$" 0 255 7).
  - reflexivity.
  - vm_compute. reflexivity.
  - vm_compute. reflexivity.
  - split; discriminate.
Defined.

(** ** Integer bounds given to the builder *)

Section IntBounds.
Context `{HalfLaws}.

Lemma try_for_each_Ok_Forall {A E} (f : A -> result unit E) i l :
  try_for_each (fun _ x => f x) i l = Ok tt <-> Forall (fun x => f x = Ok tt) l.
Proof.
  revert i; induction l as [|x l IH]; intros i; cbn [try_for_each]; [split; [constructor|done]|].
  rewrite Forall_cons. destruct (f x) as [[]|]; [rewrite IH|]; naive_solver.
Qed.

Lemma map_err_Ok {A E F} (f : E -> F) (r : result A E) a : map_err f r = Ok a <-> r = Ok a.
Proof. destruct r; naive_solver. Qed.

Lemma check_int_storable v d :
  is_integer d = true -> check_int_in_dtype_range v d = Ok tt -> storable d (SInt v).
Proof.
  intros Hi Hc. assert (Hok : is_ok (check_int_in_dtype_range v d) = true) by (by rewrite Hc).
  apply check_int_Ok in Hok as [_ Hok]. destruct d; try done; cbn in *; unfold_ints; lia.
Qed.

Lemma check_uint_storable v d :
  is_integer d = true -> 0 <= v <= u64_max -> check_uint_in_dtype_range v d = Ok tt ->
  storable d (SInt (wrap_s 64 v)) /\ scalar_int d (wrap_s 64 v) = v.
Proof.
  intros Hi Hv Hc. destruct (decide (d = Uint64)) as [->|Hd].
  - unfold scalar_int. rewrite decide_True by done.
    rewrite wrap_u_wrap_s, wrap_u_id by (unfold_ints; lia). split; [|done].
    pose proof (wrap_s_range 64 v). cbn [storable]. unfold_ints. lia.
  - assert (fits_dtype d v) as Hf.
    { revert Hc. unfold check_uint_in_dtype_range, fits_dtype.
      rewrite decide_False by (by intros ->).
      destruct d; try done; cbn; (case_match eqn:E; [done|]); reflect_Z; unfold_ints; lia. }
    unfold scalar_int. rewrite decide_False by done.
    assert (v <= i64_max) by (destruct d; try done; cbn in Hf; unfold_ints; lia).
    rewrite wrap_s_id by (unfold_ints; lia). split; [|done].
    destruct d; try done; cbn in *; unfold_ints; lia.
Qed.

Lemma encode_int_bound_exact d values bytes :
  is_integer d = true -> encode_int_bound values d = Some (Ok bytes) ->
  decode_scalars bytes d = Some (Ok (SInt <$> values)) /\ Forall (fits_dtype d) values.
Proof.
  intros Hi. assert (Hd : d <> Unspecified) by (by intros ->). unfold encode_int_bound.
  destruct (try_for_each _ 0 values) as [[]|] eqn:E; [|done].
  apply try_for_each_Ok_Forall in E. rewrite encode_i64_scalars_eq.
  destruct (decode_encode_scalars d (SInt <$> values) Hd) as (bs & -> & _ & Hdec).
  { apply Forall_fmap. eapply Forall_impl; [exact E|]. intros v Hv.
    apply map_err_Ok in Hv. by apply check_int_storable. }
  intros [= <-]. split; [done|]. eapply Forall_impl; [exact E|]. intros v Hv.
  apply map_err_Ok in Hv. apply fits_check; [done|]. by rewrite Hv.
Qed.

Lemma encode_uint_bound_exact d values bytes :
  is_integer d = true -> Forall (fun v => 0 <= v <= u64_max) values ->
  encode_uint_bound values d = Some (Ok bytes) ->
  exists vs, decode_scalars bytes d = Some (Ok vs) /\
    Forall2 (fun s v => scalar_real d s = Some (xint v)) vs values.
Proof.
  intros Hi Hv. assert (Hd : d <> Unspecified) by (by intros ->). unfold encode_uint_bound.
  destruct (try_for_each _ 0 values) as [[]|] eqn:E; [|done].
  apply try_for_each_Ok_Forall in E. rewrite encode_i64_scalars_eq.
  assert (Hst : Forall (fun v => storable d (SInt (wrap_s 64 v)) /\
                  scalar_int d (wrap_s 64 v) = v) values).
  { rewrite Forall_forall in E, Hv |- *. intros v Hin. apply check_uint_storable; auto.
    by apply (map_err_Ok bound_encode_error), E. }
  destruct (decode_encode_scalars d (SInt <$> (wrap_s 64 <$> values)) Hd)
    as (bs & Hbs & _ & Hdec).
  { apply Forall_fmap, Forall_fmap. eapply Forall_impl; [exact Hst|]. by intros v [? _]. }
  rewrite Hbs. intros Hok. assert (bs = bytes) as -> by (destruct d; naive_solver).
  eexists. split; [exact Hdec|]. rewrite <- list_fmap_compose. clear - Hst.
  induction Hst as [|v l [_ Hv] _ IH]; [constructor|]. cbn. constructor; [|done].
  cbn. by rewrite Hv.
Qed.

(** Integer bounds given to the builder are stored exactly: the bytes
    written for [i64] bounds decode to the same integers, and those written for
    [u64] bounds to scalars standing for the same integers. *)
Theorem int_bounds_exact (d : DType) (values : list Z) (bytes : list byte) :
  is_integer d = true ->
  (encode_int_bound values d = Some (Ok bytes) ->
   decode_scalars bytes d = Some (Ok (SInt <$> values))) /\
  (Forall (fun v => 0 <= v <= u64_max) values ->
   encode_uint_bound values d = Some (Ok bytes) ->
   exists vs, decode_scalars bytes d = Some (Ok vs) /\
     Forall2 (fun s v => scalar_real d s = Some (xint v)) vs values).
Proof.
  intros Hi. split.
  - intros He. by apply encode_int_bound_exact.
  - intros Hv He. by apply encode_uint_bound_exact.
Qed.
End IntBounds.

Lemma int_bounds_exact_witness :
  encode_int_bound [-5; 7] Int8 = Some (Ok (byte.of_Z <$> [251; 7])) /\
  decode_scalars (byte.of_Z <$> [251; 7]) Int8 = Some (Ok [SInt (-5); SInt 7]).
Proof.
  assert (He : encode_int_bound [-5; 7] Int8 = Some (Ok (byte.of_Z <$> [251; 7])))
    by (vm_compute; reflexivity).
  split; [exact He|].
  destruct (int_bounds_exact Int8 [-5; 7] (byte.of_Z <$> [251; 7])) as [H _];
    [reflexivity | exact (H He)].
Defined.
