(* ===== verification/BoxValue.v ===== *)
(** * Box values: conformance

    [spaces/fundamental/box_space/value.rs]: the typed, block-wise scans, and
    the element-at-a-time implementation of [value_reference_tests.rs] they
    replaced ([Module Reference]).  The main result is that the two agree on
    every tensor, space and dtype.  A [None] result is a panic. *)

From S2P Require Import Prelude BTree Float DType Scalar Tensor Types Fundamental BoxSpace.
From Stdlib Require Import SpecFloat QArith.
#[local] Open Scope string_scope.
#[local] Open Scope Z_scope.

(** [None]: unbounded on this side. *)
Definition Bound : Type := option Scalar * option Scalar.

Definition BLOCK : nat := 4096.

Inductive Side : Type := Below | Above.

Inductive Finding : Type :=
| FNan (index : nat)
| FRange (index : nat) (side : Side).

Inductive Bounds : Type :=
| BUniform (b : Bound)
| BElementwise (low high : list f64)
| BTypedElementwise (low high : list byte).

Definition finite_float (value : f64) : option Scalar :=
  if f64_is_finite value then Some (SFloat value) else None.

Definition check_typed_bounds (bytes : list byte) (count : Z) (dtype : DType) (path : string)
    : result unit SpaceError :=
  let elem := dtype_size dtype in
  if negb (Nat.eqb (length bytes mod elem) 0) then
    Err (Invalid path (Msg "cannot decode typed Box bounds: {err}"
      [nested (scalar_error_message (ByteLengthMismatch (length bytes) elem dtype))]))
  else
    let got := Z.of_nat (length bytes / elem) in
    if negb (got =? count) then
      Err (Invalid path (Msg "Box typed bounds length mismatch: expected {count} elements, got {got}"
        [AZ count; AZ got]))
    else Ok tt.

(** ** Thresholds *)

Definition float_low (low : option Scalar) (dtype : DType) : f64 :=
  match low with None => f64_neg_infinity | Some low => to_f64 low dtype end.

Definition float_high (high : option Scalar) (dtype : DType) : f64 :=
  match high with None => f64_infinity | Some high => to_f64 high dtype end.

(** An integral scalar's value in its dtype's domain. *)
Definition int_scalar (value : Scalar) (dtype : DType) : Z :=
  if decide (dtype = Uint64) then as_u64 value else as_i64 value.

Definition int_low (low : option Scalar) (dtype : DType) : Z :=
  match low with
  | None => i128_min
  | Some (SFloat f) =>
      if f64_is_nan f then i128_min else f64_as_int i128_min i128_max (f64_ceil f)
  | Some int => int_scalar int dtype
  end.

Definition int_high (high : option Scalar) (dtype : DType) : Z :=
  match high with
  | None => i128_max
  | Some (SFloat f) =>
      if f64_is_nan f then i128_max else f64_as_int i128_min i128_max (f64_floor f)
  | Some int => int_scalar int dtype
  end.

(** ** Scans *)

(** [PartialOrd] of the element types: [None] is unordered. *)
Class PartialOrd (V : Type) : Type := partial_cmp : V -> V -> option comparison.
#[export] Instance f64_partial_ord : PartialOrd f64 := f64_cmp.
#[export] Instance Z_partial_ord : PartialOrd Z := fun a b => Some (a ?= b).
#[export] Instance bool_partial_ord : PartialOrd bool := fun a b => Some (Z.b2z a ?= Z.b2z b).

Definition gt {V} `{PartialOrd V} (a b : V) : bool :=
  match partial_cmp a b with Some Gt => true | _ => false end.

Section ScanAt.
Context {V : Type} `{PartialOrd V} (read : list byte -> V) (bound_at : nat -> option (V * V)).

Fixpoint scan_at_loop (index : nat) (range : option Finding) (elements : list (list byte))
    : option (option Finding) :=
  match elements with
  | [] => Some range
  | bytes :: elements =>
      let v := read bytes in
      match partial_cmp v v with
      | None => Some (Some (FNan index))
      | Some _ =>
          match range with
          | Some _ => scan_at_loop (S index) range elements
          | None =>
              let! (low, high) := bound_at index in
              let range :=
                if gt low v then Some (FRange index Below)
                else if gt v high then Some (FRange index Above)
                else None in
              scan_at_loop (S index) range elements
          end
      end
  end.

Definition scan_at (n : nat) (data : list byte) : option (option Finding) :=
  scan_at_loop 0 None (chunks_exact n data).
End ScanAt.

(** [block.iter().position(p)]. *)
Fixpoint position {A} (p : A -> bool) (l : list A) : option nat :=
  match l with
  | [] => None
  | x :: l => if p x then Some 0%nat else S <$> position p l
  end.

(** [block.iter().enumerate().find_map(..)] of the two scans: the first element
    below or above. *)
Fixpoint find_range {V} (read : list byte -> V) (below above : V -> bool) (index : nat)
    (block : list (list byte)) : option Finding :=
  match block with
  | [] => None
  | bytes :: block =>
      let v := read bytes in
      if below v then Some (FRange index Below)
      else if above v then Some (FRange index Above)
      else find_range read below above (S index) block
  end.

Section ScanFloat.
Context (read : list byte -> f64) (low high : f64).
#[local] Notation below := (fun v => f64_gt low v).
#[local] Notation above := (fun v => f64_gt v high).

Fixpoint scan_float_blocks (block_index : nat) (range : option Finding)
    (blocks : list (list (list byte))) : option Finding :=
  match blocks with
  | [] => range
  | block :: blocks =>
      let base := (block_index * BLOCK)%nat in
      let '(nan, out) :=
        fold_left (fun '(nan, out) bytes =>
          let v := read bytes in
          (nan || f64_is_nan v, out || below v || above v)) block (false, false) in
      if nan : bool then
        let offset := position (fun bytes => f64_is_nan (read bytes)) block in
        Some (FNan (base + default 0%nat offset))
      else
        let range :=
          match range with
          | None => if out : bool then find_range read below above base block else None
          | Some _ => range
          end in
        scan_float_blocks (S block_index) range blocks
  end.

Definition scan_float (n : nat) (data : list byte) : option Finding :=
  scan_float_blocks 0 None (chunks BLOCK (chunks_exact n data)).
End ScanFloat.

Section ScanInt.
(** [ty] is the range of the Rust type [T], which [T::try_from] checks. *)
Context (ty : Z * Z) (read : list byte -> Z).

Fixpoint scan_int_blocks (low high : Z) (block_index : nat)
    (blocks : list (list (list byte))) : option Finding :=
  match blocks with
  | [] => None
  | block :: blocks =>
      let out :=
        fold_left (fun out bytes =>
          let v := read bytes in out || (v <? low) || (high <? v)) block false in
      if out : bool then
        find_range read (fun v => v <? low) (fun v => high <? v) (block_index * BLOCK) block
      else scan_int_blocks low high (S block_index) blocks
  end.

Definition scan_int (n : nat) (data : list byte) (bounds range : Z * Z)
    : option (option Finding) :=
  let elements := chunks_exact n data in
  let '(low, high) := bounds in
  let '(min, max) := range in
  match elements with
  | [] => Some None
  | first :: _ =>
      if (low <=? min) && (max <=? high) then Some None
      else if (max <? low) || (high <? min) then
        let side := if read first <? low then Below else Above in
        Some (Some (FRange 0 side))
      else
        let! low := checked ty.1 ty.2 (Z.max low min) in
        let! high := checked ty.1 ty.2 (Z.min high max) in
        Some (scan_int_blocks low high 0 (chunks BLOCK elements))
  end.
End ScanInt.

(** [range::<T>()] for the integer types. *)
Definition u_range (w : Z) : Z * Z := (0, 2 ^ w - 1).
Definition s_range (w : Z) : Z * Z := (- 2 ^ (w - 1), 2 ^ (w - 1) - 1).

Section Conform.
Context `{HalfOps}.

Definition read_f16 (bytes : list byte) : f64 := half_to_f64 (le_combine bytes).
Definition read_f32 (bytes : list byte) : f64 := f64_of_f32 (F32 (le_combine bytes)).
Definition read_f64 (bytes : list byte) : f64 := F64 (le_combine bytes).
(** [|[b]| b != 0], as a number and as a boolean. *)
Definition read_bool (bytes : list byte) : bool := negb (le_combine bytes =? 0).
Definition read_bool_int (bytes : list byte) : Z := Z.b2z (read_bool bytes).

Definition scan_uniform (data : list byte) (dtype : DType) (bound : Bound)
    : option (option Finding) :=
  let '(low, high) := bound in
  if is_float dtype then
    let fl := float_low low dtype in
    let fh := float_high high dtype in
    Some match dtype with
         | Float16 => scan_float read_f16 fl fh 2 data
         | Float32 => scan_float read_f32 fl fh 4 data
         | _ => scan_float read_f64 fl fh 8 data
         end
  else
    let b := (int_low low dtype, int_high high dtype) in
    match dtype with
    | Bool => scan_int (u_range 8) read_bool_int 1 data b (0, 1)
    | Uint8 => scan_int (u_range 8) le_combine 1 data b (u_range 8)
    | Int8 => scan_int (s_range 8) from_le_s 1 data b (s_range 8)
    | Uint16 => scan_int (u_range 16) le_combine 2 data b (u_range 16)
    | Int16 => scan_int (s_range 16) from_le_s 2 data b (s_range 16)
    | Uint32 => scan_int (u_range 32) le_combine 4 data b (u_range 32)
    | Int32 => scan_int (s_range 32) from_le_s 4 data b (s_range 32)
    | Uint64 => scan_int (u_range 64) le_combine 8 data b (u_range 64)
    | Int64 => scan_int (s_range 64) from_le_s 8 data b (s_range 64)
    | _ => None
    end.

(** The per-element thresholds of [Elementwise] bounds; an index out of range
    panics. *)
Definition elementwise_float (low high : list f64) (index : nat) : option (f64 * f64) :=
  let! l := low !! index in
  let! h := high !! index in
  Some (if f64_is_finite l then l else f64_neg_infinity,
        if f64_is_finite h then h else f64_infinity).

Definition elementwise_int (low high : list f64) (index : nat) : option (Z * Z) :=
  let! l := low !! index in
  let! h := high !! index in
  Some (if f64_is_finite l then f64_as_int i128_min i128_max (f64_ceil l) else i128_min,
        if f64_is_finite h then f64_as_int i128_min i128_max (f64_floor h) else i128_max).

Definition scan_elementwise (data : list byte) (dtype : DType) (low high : list f64)
    : option (option Finding) :=
  let float := elementwise_float low high in
  let int := elementwise_int low high in
  match dtype with
  | Float16 => scan_at read_f16 float 2 data
  | Float32 => scan_at read_f32 float 4 data
  | Float64 => scan_at read_f64 float 8 data
  | Bool => scan_at read_bool_int int 1 data
  | Uint8 => scan_at le_combine int 1 data
  | Int8 => scan_at from_le_s int 1 data
  | Uint16 => scan_at le_combine int 2 data
  | Int16 => scan_at from_le_s int 2 data
  | Uint32 => scan_at le_combine int 4 data
  | Int32 => scan_at from_le_s int 4 data
  | Uint64 => scan_at le_combine int 8 data
  | Int64 => scan_at from_le_s int 8 data
  | Unspecified => None
  end.

(** [typed::<V, N>]. *)
Definition scan_typed {V} `{PartialOrd V} (n : nat) (data low high : list byte)
    (read : list byte -> V) : option (option Finding) :=
  let low := chunks_exact n low in
  let high := chunks_exact n high in
  scan_at read (fun index =>
    let! l := low !! index in
    let! h := high !! index in
    Some (read l, read h)) n data.

Definition scan_typed_elementwise (data : list byte) (dtype : DType) (low high : list byte)
    : option (option Finding) :=
  match dtype with
  | Float16 => scan_typed 2 data low high read_f16
  | Float32 => scan_typed 4 data low high read_f32
  | Float64 => scan_typed 8 data low high read_f64
  | Bool => scan_typed 1 data low high read_bool
  | Uint8 => scan_typed 1 data low high le_combine
  | Int8 => scan_typed 1 data low high from_le_s
  | Uint16 => scan_typed 2 data low high le_combine
  | Int16 => scan_typed 2 data low high from_le_s
  | Uint32 => scan_typed 4 data low high le_combine
  | Int32 => scan_typed 4 data low high from_le_s
  | Uint64 => scan_typed 8 data low high le_combine
  | Int64 => scan_typed 8 data low high from_le_s
  | Unspecified => None
  end.

Definition box_bounds (s : SpaceSpec) (numel : Z) (dtype : DType) (path : string)
    : option (result Bounds SpaceError) :=
  match spec s with
  | Some (KBox sp) =>
      match bounds sp with
      | Some (Uniform b) =>
          Some (Ok (BUniform (finite_float (uniform_low b), finite_float (uniform_high b))))
      | Some (Elementwise b) =>
          let nl := Z.of_nat (length (elementwise_low b)) in
          let nh := Z.of_nat (length (elementwise_high b)) in
          if negb (nl =? numel) || negb (nh =? numel) then
            Some (Err (Invalid path
              (Msg "Box elementwise bounds length mismatch: expected {numel} elements, got low={}, high={}"
                 [AZ numel; AZ nl; AZ nh])))
          else Some (Ok (BElementwise (elementwise_low b) (elementwise_high b)))
      | Some (TypedUniform b) =>
          let!? _ := Some (check_typed_bounds (typed_low b) 1 dtype path) in
          let!? _ := Some (check_typed_bounds (typed_high b) 1 dtype path) in
          let! l := decode_scalar (typed_low b) dtype in
          let! h := decode_scalar (typed_high b) dtype in
          Some (Ok (BUniform (Some l, Some h)))
      | Some (TypedElementwise b) =>
          let!? _ := Some (check_typed_bounds (typed_elems_low b) numel dtype path) in
          let!? _ := Some (check_typed_bounds (typed_elems_high b) numel dtype path) in
          Some (Ok (BTypedElementwise (typed_elems_low b) (typed_elems_high b)))
      | Some (Unbounded _) | None => Some (Ok (BUniform (None, None)))
      end
  | _ => Some (Err (Invalid path (lit "space is not Box")))
  end.

(** The classified outcome of a finding. *)
Definition nan_error (path : string) (index : nat) : Conformance :=
  Structural (Invalid path (Msg "Box value at element {index} is NaN" [ANat index])).

Definition range_error (path : string) (index : nat) (side : Side) : SpaceError :=
  Invalid path (Msg "Box value at element {index} out of bounds: {}"
    [ANat index; AStr match side with
                      | Below => "below low bound"
                      | Above => "above high bound"
                      end]).

Definition conform_box (s : SpaceSpec) (value : SpaceValue) (path : string)
    : option Conformance :=
  match value with
  | VBox tensor =>
      if negb (bool_decide (shape tensor = space_shape s)) then
        Some (Structural (Invalid path (Msg "shape mismatch: expected {:?}, got {:?}"
          [AZs (space_shape s); AZs (shape tensor)])))
      else if negb (bool_decide (dtype tensor = space_dtype s)) then
        Some (Structural (Invalid path (Msg "dtype mismatch: expected {:?}, got {:?}"
          [AStr (dtype_debug (space_dtype s)); AStr (dtype_debug (dtype tensor))])))
      else
        let dt := dtype tensor in
        if decide (dt = Unspecified) then
          Some (Structural (Invalid path (lit "Box value dtype is unspecified")))
        else
          let! n := numel tensor in
          let! b := box_bounds s n dt path in
          match b with
          | Err err => Some (Structural err)
          | Ok b =>
              let! data := to_contiguous_bytes tensor in
              let elem := dtype_size dt in
              if negb (Nat.eqb (length data mod elem) 0) then
                Some (Structural (Invalid path (Msg "cannot decode Box value: {err}"
                  [nested (scalar_error_message (ByteLengthMismatch (length data) elem dt))])))
              else
                let! finding :=
                  match b with
                  | BUniform bound => scan_uniform data dt bound
                  | BElementwise low high => scan_elementwise data dt low high
                  | BTypedElementwise low high => scan_typed_elementwise data dt low high
                  end in
                Some match finding with
                     | None => Conforms
                     | Some (FNan index) => nan_error path index
                     | Some (FRange index side) => Range (range_error path index side)
                     end
          end
  | _ => Some (Structural (Invalid path (lit "expected Box value")))
  end.
End Conform.

(** ** The reference implementation *)

Module Reference.
Section Reference.
Context `{HalfOps}.

Definition decode_typed_bounds (bytes : list byte) (count : Z) (dtype : DType) (path : string)
    : option (result (list Scalar) SpaceError) :=
  let!? scalars := decode_typed bytes dtype path in
  if negb (Z.of_nat (length scalars) =? count) then
    Some (Err (Invalid path (Msg "Box typed bounds length mismatch: expected {count} elements, got {got}"
      [AZ count; AZ (Z.of_nat (length scalars))])))
  else Some (Ok scalars).

Definition box_bounds (s : SpaceSpec) (numel : Z) (dtype : DType) (path : string)
    : option (result (list Bound) SpaceError) :=
  match spec s with
  | Some (KBox sp) =>
      match bounds sp with
      | Some (Uniform b) =>
          Some (Ok (repeat (finite_float (uniform_low b), finite_float (uniform_high b))
                      (Z.to_nat numel)))
      | Some (Elementwise b) =>
          let nl := Z.of_nat (length (elementwise_low b)) in
          let nh := Z.of_nat (length (elementwise_high b)) in
          if negb (nl =? numel) || negb (nh =? numel) then
            Some (Err (Invalid path
              (Msg "Box elementwise bounds length mismatch: expected {numel} elements, got low={}, high={}"
                 [AZ numel; AZ nl; AZ nh])))
          else
            Some (Ok ((fun '(lo, hi) => (finite_float lo, finite_float hi)) <$>
                      zip (elementwise_low b) (elementwise_high b)))
      | Some (TypedUniform b) =>
          let!? low := decode_typed_bounds (typed_low b) 1 dtype path in
          let!? high := decode_typed_bounds (typed_high b) 1 dtype path in
          let! l := head low in
          let! h := head high in
          Some (Ok (repeat (Some l, Some h) (Z.to_nat numel)))
      | Some (TypedElementwise b) =>
          let!? low := decode_typed_bounds (typed_elems_low b) numel dtype path in
          let!? high := decode_typed_bounds (typed_elems_high b) numel dtype path in
          Some (Ok ((fun '(lo, hi) => (Some lo, Some hi)) <$> zip low high))
      | Some (Unbounded _) | None => Some (Ok (repeat (None, None) (Z.to_nat numel)))
      end
  | _ => Some (Err (Invalid path (lit "space is not Box")))
  end.

Definition box_scalar_range (value : Scalar) (low high : option Scalar) (dtype : DType)
    (path : string) (index : nat) : option (option SpaceError) :=
  let! below :=
    match low with Some low => scalar_gt low value dtype | None => Some false end in
  if below : bool then Some (Some (range_error path index Below))
  else
    let! above :=
      match high with Some high => scalar_gt value high dtype | None => Some false end in
    if above : bool then Some (Some (range_error path index Above)) else Some None.

Fixpoint scan (dtype : DType) (path : string) (bounds : list Bound) (index : nat)
    (range : option SpaceError) (values : list Scalar) : option Conformance :=
  match values with
  | [] => Some match range with Some err => Range err | None => Conforms end
  | value :: values =>
      if scalar_is_nan value then Some (nan_error path index)
      else
        match range with
        | Some _ => scan dtype path bounds (S index) range values
        | None =>
            let! (low, high) := bounds !! index in
            let! range := box_scalar_range value low high dtype path index in
            scan dtype path bounds (S index) range values
        end
  end.

Definition conform_box (s : SpaceSpec) (value : SpaceValue) (path : string)
    : option Conformance :=
  match value with
  | VBox tensor =>
      if negb (bool_decide (shape tensor = space_shape s)) then
        Some (Structural (Invalid path (Msg "shape mismatch: expected {:?}, got {:?}"
          [AZs (space_shape s); AZs (shape tensor)])))
      else if negb (bool_decide (dtype tensor = space_dtype s)) then
        Some (Structural (Invalid path (Msg "dtype mismatch: expected {:?}, got {:?}"
          [AStr (dtype_debug (space_dtype s)); AStr (dtype_debug (dtype tensor))])))
      else
        let! n := numel tensor in
        let! b := box_bounds s n (dtype tensor) path in
        match b with
        | Err err => Some (Structural err)
        | Ok b =>
            let! data := to_contiguous_bytes tensor in
            let! values := decode_scalars data (dtype tensor) in
            match values with
            | Err err => Some (Structural (Invalid path (Msg "cannot decode Box value: {err}"
                [nested (scalar_error_message err)])))
            | Ok values => scan (dtype tensor) path b 0 None values
            end
        end
  | _ => Some (Structural (Invalid path (lit "expected Box value")))
  end.
End Reference.
End Reference.

(** ** Classes of elements

    Both implementations classify every element; the answer is the first NaN,
    or else the first element out of bounds. *)

Inductive class : Type := CNan | CBelow | CAbove | CIn.

Fixpoint first_nan (i : nat) (l : list class) : option nat :=
  match l with
  | [] => None
  | CNan :: _ => Some i
  | _ :: l => first_nan (S i) l
  end.

Fixpoint first_range (i : nat) (l : list class) : option Finding :=
  match l with
  | [] => None
  | CBelow :: _ => Some (FRange i Below)
  | CAbove :: _ => Some (FRange i Above)
  | _ :: l => first_range (S i) l
  end.

(** The answer of a scan that starts at element [i] with a deviation already
    found or not. *)
Definition scan_result (i : nat) (range : option Finding) (l : list class) : option Finding :=
  match first_nan i l with
  | Some k => Some (FNan k)
  | None => match range with Some r => Some r | None => first_range i l end
  end.

Lemma first_nan_app i l l' :
  first_nan i (l ++ l')
  = match first_nan i l with Some k => Some k | None => first_nan (i + length l) l' end.
Proof.
  revert i; induction l as [|[] l IH]; intros i; cbn [app first_nan length];
    rewrite ?Nat.add_0_r; try done; rewrite IH; by rewrite Nat.add_succ_r.
Qed.

Lemma first_range_app i l l' :
  first_nan i l = None ->
  first_range i (l ++ l')
  = match first_range i l with Some k => Some k | None => first_range (i + length l) l' end.
Proof.
  revert i; induction l as [|[] l IH]; intros i Hn; cbn [app first_nan first_range length] in *;
    rewrite ?Nat.add_0_r; try done. rewrite IH by done. by rewrite Nat.add_succ_r.
Qed.

(** Scanning a list in two parts. *)
Lemma scan_result_app i range l l' :
  scan_result i range (l ++ l')
  = match first_nan i l with
    | Some k => Some (FNan k)
    | None =>
        scan_result (i + length l)
          (match range with Some r => Some r | None => first_range i l end) l'
    end.
Proof.
  unfold scan_result. rewrite first_nan_app. destruct (first_nan i l) eqn:Hn; [done|].
  destruct (first_nan (i + length l) l'); [done|].
  destruct range; [done|]. by rewrite first_range_app.
Qed.

Section ScanAtSpec.
Context {V : Type} `{PartialOrd V}.

Definition class_at (v low high : V) : class :=
  match partial_cmp v v with
  | None => CNan
  | Some _ => if gt low v then CBelow else if gt v high then CAbove else CIn
  end.

Lemma scan_at_spec (read : list byte -> V) bound_at i range els cl :
  length cl = length els ->
  (forall k e, els !! k = Some e -> exists l h, bound_at (i + k)%nat = Some (l, h) /\
     cl !! k = Some (class_at (read e) l h)) ->
  scan_at_loop read bound_at i range els = Some (scan_result i range cl).
Proof.
  revert i range cl; induction els as [|e els IH]; intros i range [|c cl] Hl Hb;
    cbn [length] in Hl; try lia; cbn [scan_at_loop].
  { unfold scan_result. by destruct range. }
  destruct (Hb 0%nat e eq_refl) as (l & h & Hlh & Hc). cbn in Hc. injection Hc as ->.
  rewrite Nat.add_0_r in Hlh.
  assert (IH' : forall r, scan_at_loop read bound_at (S i) r els
                          = Some (scan_result (S i) r cl)).
  { intros r. apply IH; [lia|]. intros k e' Hk. destruct (Hb (S k) e' Hk) as (l' & h' & H1 & H2).
    exists l', h'. by replace (S i + k)%nat with (i + S k)%nat by lia. }
  unfold class_at, scan_result. destruct (partial_cmp (read e) (read e)); [|done].
  destruct range as [r|]; rewrite ?Hlh, ?IH'; unfold scan_result; cbn [first_nan first_range];
    destruct (gt l (read e)); try done; by destruct (gt (read e) h).
Qed.
End ScanAtSpec.

(** ** Block scans *)

Lemma BLOCK_pos : (0 < BLOCK)%nat.
Proof. unfold BLOCK. lia. Qed.

#[local] Opaque BLOCK.

Section BlockSpec.
Context (read : list byte -> f64) (low high : f64).

Definition float_class (bytes : list byte) : class :=
  let v := read bytes in
  if f64_is_nan v then CNan
  else if f64_gt low v then CBelow
  else if f64_gt v high then CAbove
  else CIn.

#[local] Notation cl l := (float_class <$> l).
#[local] Notation below := (fun v => f64_gt low v).
#[local] Notation above := (fun v => f64_gt v high).

Lemma f64_gt_nan_l x y : f64_is_nan x = true -> f64_gt x y = false.
Proof.
  unfold f64_is_nan, f64_gt, f64_cmp. by destruct (sf64 x).
Qed.

Lemma f64_gt_nan_r x y : f64_is_nan y = true -> f64_gt x y = false.
Proof.
  unfold f64_is_nan, f64_gt, f64_cmp. destruct (sf64 y); try done.
  by destruct (sf64 x) as [[]|[]| |[]].
Qed.

(** The branch-free reduction of a block says whether it has a NaN and whether
    it has an element out of bounds. *)
Lemma fold_block nan out (l : list (list byte)) :
  fold_left (fun '(nan, out) bytes =>
    let v := read bytes in
    (nan || f64_is_nan v, out || below v || above v)) l (nan, out)
  = (nan || existsb (fun b => f64_is_nan (read b)) l,
     out || existsb (fun b => below (read b) || above (read b)) l).
Proof.
  revert nan out; induction l as [|b l IH]; intros nan out; cbn [fold_left existsb].
  { by rewrite !orb_false_r. }
  rewrite IH. by rewrite !orb_assoc.
Qed.

Lemma first_nan_position i l :
  first_nan i (cl l) = (fun k => (i + k)%nat) <$> position (fun b => f64_is_nan (read b)) l.
Proof.
  revert i; induction l as [|b l IH]; intros i; [done|].
  cbn [fmap list_fmap position]. unfold float_class at 1. cbv zeta.
  destruct (f64_is_nan (read b)) eqn:Hn.
  { cbn. by rewrite Nat.add_0_r. }
  transitivity (first_nan (S i) (cl l)).
  { by destruct (f64_gt low (read b)), (f64_gt (read b) high). }
  rewrite IH. destruct (position _ l); [|done]. cbn. f_equal. lia.
Qed.

Lemma existsb_position {A} (p : A -> bool) l :
  existsb p l = match position p l with Some _ => true | None => false end.
Proof.
  induction l as [|x l IH]; [done|]. cbn [existsb position]. destruct (p x); [done|].
  cbn [orb]. rewrite IH. by destruct (position p l).
Qed.

Lemma first_range_find i l :
  first_range i (cl l) = find_range read below above i l.
Proof.
  revert i; induction l as [|b l IH]; intros i; [done|].
  cbn [fmap list_fmap find_range]. unfold float_class at 1. cbv zeta.
  destruct (f64_is_nan (read b)) eqn:Hn.
  { rewrite f64_gt_nan_r, f64_gt_nan_l by done. cbn [first_range]. apply IH. }
  destruct (f64_gt low (read b)); [done|]. destruct (f64_gt (read b) high); [done|].
  apply IH.
Qed.

Lemma find_range_existsb {V} (rd : list byte -> V) bl ab i l :
  existsb (fun b => bl (rd b) || ab (rd b)) l = false -> find_range rd bl ab i l = None.
Proof.
  revert i; induction l as [|b l IH]; intros i; [done|]. cbn [existsb find_range].
  intros [[-> ->]%orb_false_iff Hl]%orb_false_iff. by apply IH.
Qed.

(** The block scan answers as a scan of the classes, whatever the block size. *)
Lemma scan_float_blocks_spec k bi range l :
  (length l <= k * BLOCK)%nat ->
  scan_float_blocks read low high bi range (split_n k BLOCK l)
  = scan_result (bi * BLOCK) range (cl l).
Proof.
  revert bi range l; induction k as [|k IH]; intros bi range l Hl; cbn [split_n].
  { assert (l = []) as -> by (destruct l; [done|cbn in Hl; lia]).
    unfold scan_result. by destruct range. }
  rewrite <- (take_drop BLOCK l), fmap_app, scan_result_app, (take_drop BLOCK l).
  cbn [scan_float_blocks]. rewrite fold_block, first_nan_position, existsb_position.
  destruct (position _ (take BLOCK l)) as [p|]; cbn [orb fmap option_fmap option_map].
  { done. }
  rewrite IH by (rewrite length_drop; lia). rewrite length_fmap, first_range_find.
  set (range' := match range with Some _ => range | None => _ end).
  assert (range' = match range with Some r => Some r | None =>
            find_range read below above (bi * BLOCK) (take BLOCK l) end) as ->.
  { subst range'. destruct range; [done|]. destruct (existsb _ _) eqn:He; [done|].
    symmetry. by apply find_range_existsb. }
  destruct (decide (BLOCK <= length l)%nat).
  { rewrite length_take_le by done. f_equal. lia. }
  rewrite drop_ge by lia. unfold scan_result. by destruct range.
Qed.

Lemma scan_float_spec n data :
  scan_float read low high n data = scan_result 0 None (cl (chunks_exact n data)).
Proof.
  unfold scan_float, chunks. apply (scan_float_blocks_spec _ 0).
  apply ceil_div_mul, BLOCK_pos.
Qed.
End BlockSpec.

(** *** Integers *)

Definition int_class (read : list byte -> Z) (low high : Z) (bytes : list byte) : class :=
  let v := read bytes in
  if v <? low then CBelow else if high <? v then CAbove else CIn.

Lemma int_class_not_nan read low high l i : first_nan i (int_class read low high <$> l) = None.
Proof.
  revert i; induction l as [|b l IH]; intros i; [done|].
  cbn [fmap list_fmap]. unfold int_class at 1. cbv zeta.
  destruct (_ <? _); [apply IH|]. destruct (_ <? _); apply IH.
Qed.

Lemma int_range_find read low high l i :
  first_range i (int_class read low high <$> l)
  = find_range read (fun v => v <? low) (fun v => high <? v) i l.
Proof.
  revert i; induction l as [|b l IH]; intros i; [done|].
  cbn [fmap list_fmap find_range]. unfold int_class at 1. cbv zeta.
  destruct (_ <? _); [done|]. destruct (_ <? _); [done|]. apply IH.
Qed.

Lemma fold_int_block read low high out (l : list (list byte)) :
  fold_left (fun out bytes => let v := read bytes in out || (v <? low) || (high <? v)) l out
  = out || existsb (fun b => (read b <? low) || (high <? read b)) l.
Proof.
  revert out; induction l as [|b l IH]; intros out; cbn [fold_left existsb].
  { by rewrite orb_false_r. }
  rewrite IH. by rewrite !orb_assoc.
Qed.

Lemma find_range_Some {V} (rd : list byte -> V) bl ab i l :
  existsb (fun b => bl (rd b) || ab (rd b)) l = true -> is_Some (find_range rd bl ab i l).
Proof.
  revert i; induction l as [|b l IH]; intros i; [done|]. cbn [existsb find_range].
  destruct (bl (rd b)); [by eexists|]. destruct (ab (rd b)); [by eexists|]. apply IH.
Qed.

Lemma scan_int_blocks_spec read low high k bi l :
  (length l <= k * BLOCK)%nat ->
  scan_int_blocks read low high bi (split_n k BLOCK l)
  = first_range (bi * BLOCK) (int_class read low high <$> l).
Proof.
  revert bi l; induction k as [|k IH]; intros bi l Hl; cbn [split_n].
  { assert (l = []) as -> by (destruct l; [done|cbn in Hl; lia]). done. }
  rewrite <- (take_drop BLOCK l), fmap_app, first_range_app, (take_drop BLOCK l)
    by apply int_class_not_nan.
  cbn [scan_int_blocks]. rewrite fold_int_block, int_range_find. cbn [orb].
  destruct (existsb _ _) eqn:He.
  { destruct (find_range_Some read (fun v => v <? low) (fun v => high <? v)
      (bi * BLOCK) _ He) as [f Hf]. by rewrite Hf. }
  rewrite (find_range_existsb read (fun v => v <? low) (fun v => high <? v)) by done.
  rewrite IH by (rewrite length_drop; lia).
  rewrite length_fmap. destruct (decide (BLOCK <= length l)%nat).
  { rewrite length_take_le by done. f_equal. lia. }
  by rewrite drop_ge by lia.
Qed.

(** The shortcuts and the clamped thresholds of the integer scan do not change
    its answer, when the elements read lie in the dtype's range. *)
Lemma scan_int_spec ty read n data low high range :
  ty.1 <= range.1 -> range.2 <= ty.2 -> range.1 <= range.2 ->
  Forall (fun b => range.1 <= read b <= range.2) (chunks_exact n data) ->
  scan_int ty read n data (low, high) range
  = Some (scan_result 0 None (int_class read low high <$> chunks_exact n data)).
Proof.
  destruct range as [min max]. cbn [fst snd]. intros Hty1 Hty2 Hmm Hr. unfold scan_int, scan_result. rewrite int_class_not_nan.
  cbv zeta. destruct (chunks_exact n data) as [|b l] eqn:Hc; [done|]. rewrite <- Hc in *.
  destruct ((low <=? min) && (max <=? high)) eqn:H1.
  { rewrite int_range_find,
      (find_range_existsb read (fun v => v <? low) (fun v => high <? v)); [done|].
    apply existsb_false_Forall. eapply Forall_impl; [exact Hr|]. cbn. intros x Hx.
    apply andb_true_iff in H1. lia. }
  destruct ((max <? low) || (high <? min)) eqn:H2.
  { rewrite Hc in Hr |- *. apply Forall_cons_1 in Hr as [Hb _].
    cbn [fmap list_fmap]. unfold int_class at 1. cbv zeta.
    destruct (read b <? low) eqn:Hl; [done|].
    assert (high <? read b = true) as ->; [|done]. apply orb_true_iff in H2. lia. }
  apply orb_false_iff in H2. rewrite !checked_in by lia. cbn [mbind option_bind].
  f_equal. unfold chunks. rewrite (scan_int_blocks_spec _ _ _ _ 0) by apply ceil_div_mul, BLOCK_pos.
  f_equal. apply Forall_fmap_ext_1. eapply Forall_impl; [exact Hr|]. cbn. intros x Hx.
  unfold int_class. cbv zeta. repeat case_match; try done; lia.
Qed.

(** ** Thresholds are exact *)

(** The outcome of comparing the numbers two scalars stand for. *)
Definition exceeds (d : DType) (a b : Scalar) : bool :=
  match scalar_real d a ≫= fun x => scalar_real d b ≫= fun y => Some (xreal_compare x y) with
  | Some Gt => true
  | _ => false
  end.

Definition scalar_class (d : DType) (b : Bound) (v : Scalar) : class :=
  if scalar_is_nan v then CNan
  else if from_option (fun low => exceeds d low v) false b.1 then CBelow
  else if from_option (fun high => exceeds d v high) false b.2 then CAbove
  else CIn.

Lemma f64_real_finite f : f64_is_finite f = true -> f64_real f = Some (XFin (f64_Q f)).
Proof. unfold f64_is_finite, f64_real. by destruct (sf64 f). Qed.

Lemma f64_not_finite f :
  f64_is_finite f = false ->
  sf64 f = S754_nan \/ sf64 f = S754_infinity true \/ sf64 f = S754_infinity false.
Proof. unfold f64_is_finite. destruct (sf64 f) as [|[]| |]; auto; done. Qed.

Lemma ceil_gt n z one : 0 < one -> (z <? - (- n / one)) = (z * one <? n).
Proof.
  intros H1. pose proof (Z.div_mod (- n) one ltac:(lia)).
  pose proof (Z.mod_pos_bound (- n) one H1).
  destruct (Z.ltb_spec z (- (- n / one))), (Z.ltb_spec (z * one) n); try done; nia.
Qed.

Lemma floor_lt n z one : 0 < one -> (n / one <? z) = (n <? z * one).
Proof.
  intros H1. pose proof (Z.div_mod n one ltac:(lia)).
  pose proof (Z.mod_pos_bound n one H1).
  destruct (Z.ltb_spec (n / one) z), (Z.ltb_spec n (z * one)); try done; nia.
Qed.

Section Thresholds.
Context (d : DType) (v : Scalar) (z : Z).
Context (Hv : scalar_real d v = Some (xint z)) (Hz : - 2 ^ 64 < z < 2 ^ 64).

Lemma saturate_ltb_r x : (z <? saturate i128_min i128_max x) = (z <? x).
Proof. clear Hv. unfold saturate. unfold_ints. lia. Qed.

Lemma saturate_ltb_l x : (saturate i128_min i128_max x <? z) = (x <? z).
Proof. clear Hv. unfold saturate. unfold_ints. lia. Qed.

Lemma int_scalar_real s : (forall f, s <> SFloat f) -> scalar_real d s = Some (xint (int_scalar s d)).
Proof.
  intros Hs. destruct s as [b|i|f]; [..|by destruct (Hs f)]; unfold int_scalar; cbn;
    unfold scalar_int; by case_decide.
Qed.

Lemma int_low_spec low :
  (z <? int_low low d) = from_option (fun low => exceeds d low v) false low.
Proof.
  assert (Hi : forall s, (forall f, s <> SFloat f) ->
             (z <? int_scalar s d) = exceeds d s v).
  { intros s Hs. unfold exceeds. rewrite (int_scalar_real s Hs), Hv. cbn [mbind option_bind].
    rewrite xint_compare. unfold Z.ltb. rewrite Z.compare_antisym. by destruct (_ ?= z). }
  destruct low as [[b|i|f]|]; cbn [int_low from_option]; [by apply Hi|by apply Hi| |].
  2: { clear Hv Hi. unfold_ints. lia. }
  unfold exceeds. rewrite Hv. cbn [scalar_real].
  destruct (f64_is_finite f) eqn:Hf.
  - assert (f64_is_nan f = false) as -> by (unfold f64_is_nan, f64_is_finite in *; by destruct (sf64 f)).
    rewrite f64_ceil_as_int by (done || (unfold_ints; lia)).
    rewrite saturate_ltb_r, ceil_gt by apply f64_one_pos.
    rewrite f64_real_finite by done. cbn [mbind option_bind].
    rewrite f64_Q_compare_int. unfold Z.ltb. rewrite Z.compare_antisym. by destruct (f64_num f ?= _).
  - clear Hv Hi. unfold f64_is_nan, f64_real, f64_as_int, f64_ceil, f64_rint.
    destruct (f64_not_finite f Hf) as [Hs|[Hs|Hs]]; rewrite !Hs; cbn; rewrite ?Hs; cbn;
      unfold_ints; lia.
Qed.

Lemma int_high_spec high :
  (int_high high d <? z) = from_option (fun high => exceeds d v high) false high.
Proof.
  assert (Hi : forall s, (forall f, s <> SFloat f) ->
             (int_scalar s d <? z) = exceeds d v s).
  { intros s Hs. unfold exceeds. rewrite (int_scalar_real s Hs), Hv. cbn [mbind option_bind].
    rewrite xint_compare. unfold Z.ltb. rewrite Z.compare_antisym. by destruct (z ?= _). }
  destruct high as [[b|i|f]|]; cbn [int_high from_option]; [by apply Hi|by apply Hi| |].
  2: { clear Hv Hi. unfold_ints. lia. }
  unfold exceeds. rewrite Hv. cbn [scalar_real].
  destruct (f64_is_finite f) eqn:Hf.
  - assert (f64_is_nan f = false) as -> by (unfold f64_is_nan, f64_is_finite in *; by destruct (sf64 f)).
    rewrite f64_floor_as_int by (done || (unfold_ints; lia)).
    rewrite saturate_ltb_l, floor_lt by apply f64_one_pos.
    rewrite f64_real_finite by done. cbn [mbind option_bind].
    rewrite <- xreal_compare_antisym, f64_Q_compare_int. unfold Z.ltb. by destruct (f64_num f ?= _).
  - clear Hv Hi. unfold f64_is_nan, f64_real, f64_as_int, f64_floor, f64_rint.
    destruct (f64_not_finite f Hf) as [Hs|[Hs|Hs]]; rewrite !Hs; cbn; rewrite ?Hs; cbn;
      unfold_ints; lia.
Qed.
End Thresholds.

(** ** Element reads *)

Section Reads.
Context `{HalfOps}.

(** The typed read of each dtype, and the range of the values read. *)
Definition elem_float (d : DType) : list byte -> f64 :=
  match d with Float16 => read_f16 | Float32 => read_f32 | _ => read_f64 end.

Definition elem_int (d : DType) : list byte -> Z :=
  match d with
  | Bool => read_bool_int
  | Uint8 | Uint16 | Uint32 | Uint64 => le_combine
  | _ => from_le_s
  end.

Definition elem_range (d : DType) : Z * Z :=
  let w := 8 * Z.of_nat (dtype_size d) in
  match d with
  | Bool => (0, 1)
  | Uint8 | Uint16 | Uint32 | Uint64 => u_range w
  | _ => s_range w
  end.

Lemma decode_elem_float d bs :
  is_float d = true -> length bs = dtype_size d ->
  decode_scalar bs d = Some (SFloat (elem_float d bs)).
Proof. intros Hd Hl. destruct d; try done; cbn [decode_scalar]; by rewrite le_bytes_ok. Qed.

Lemma elem_int_range d bs :
  is_float d = false -> d <> Unspecified -> length bs = dtype_size d ->
  (elem_range d).1 <= elem_int d bs <= (elem_range d).2.
Proof.
  intros Hd Hu Hl. pose proof (le_combine_range bs _ Hl).
  pose proof (from_le_s_range bs ltac:(intros ->; by destruct d)) as Hs. rewrite Hl in Hs.
  destruct d; try done; unfold elem_range, elem_int, u_range, s_range; cbn [fst snd]; try lia.
  unfold read_bool_int. by destruct (read_bool bs).
Qed.

Lemma elem_range_small d :
  is_float d = false -> - 2 ^ 64 < (elem_range d).1 /\ (elem_range d).2 < 2 ^ 64.
Proof. by destruct d. Qed.

Lemma decode_elem_int d bs :
  is_float d = false -> d <> Unspecified -> length bs = dtype_size d ->
  exists v, decode_scalar bs d = Some v /\ (forall f, v <> SFloat f) /\
    scalar_real d v = Some (xint (elem_int d bs)).
Proof.
  intros Hd Hu Hl. destruct d; try done; cbn [decode_scalar dtype_size] in *;
    try (apply length_one in Hl as [b ->]); try rewrite le_bytes_ok by done;
    eexists; (split; [reflexivity|]); (split; [done|]); cbn [scalar_real elem_int];
    rewrite ?from_le_s_one, ?le_combine_one; try done.
  - unfold read_bool_int, read_bool. by rewrite le_combine_one.
  - unfold scalar_int. rewrite decide_True by done. rewrite wrap_u_wrap_s by lia.
    rewrite wrap_u_id; [done|]. by apply (le_combine_range bs 8).
Qed.

(** Bounds as the fast path builds them: on a float dtype they are floats. *)
Definition bound_ok (d : DType) (b : option Scalar) : Prop :=
  is_float d = true -> forall s, b = Some s -> exists f, s = SFloat f.

Lemma f64_gt_exceeds d f g : f64_gt f g = exceeds d (SFloat f) (SFloat g).
Proof. unfold f64_gt, exceeds. by rewrite f64_cmp_exact. Qed.

Lemma f64_gt_neg_inf x : f64_gt f64_neg_infinity x = false.
Proof.
  unfold f64_gt, f64_cmp. replace (sf64 f64_neg_infinity) with (S754_infinity true) by done.
  by destruct (sf64 x) as [|[]| |].
Qed.

Lemma f64_gt_inf x : f64_gt x f64_infinity = false.
Proof.
  unfold f64_gt, f64_cmp. replace (sf64 f64_infinity) with (S754_infinity false) by done.
  by destruct (sf64 x) as [|[]| |].
Qed.

Lemma float_class_exact d b bs v :
  is_float d = true -> length bs = dtype_size d -> bound_ok d b.1 -> bound_ok d b.2 ->
  decode_scalar bs d = Some v ->
  float_class (elem_float d) (float_low b.1 d) (float_high b.2 d) bs = scalar_class d b v.
Proof.
  intros Hd Hl H1 H2. rewrite decode_elem_float by done. intros [= <-].
  unfold float_class, scalar_class. cbn [scalar_is_nan]. destruct (f64_is_nan _); [done|].
  destruct b as [low high]; cbn [fst snd] in *.
  replace (f64_gt (float_low low d) (elem_float d bs))
    with (from_option (fun low => exceeds d low (SFloat (elem_float d bs))) false low).
  2: { destruct low as [s|]; [|symmetry; apply f64_gt_neg_inf].
       destruct (H1 Hd s eq_refl) as [f ->]. symmetry. apply (f64_gt_exceeds d f). }
  replace (f64_gt (elem_float d bs) (float_high high d))
    with (from_option (fun high => exceeds d (SFloat (elem_float d bs)) high) false high).
  2: { destruct high as [s|]; [|symmetry; apply f64_gt_inf].
       destruct (H2 Hd s eq_refl) as [f ->]. symmetry. apply (f64_gt_exceeds d _ f). }
  done.
Qed.

Lemma int_class_exact d b bs v :
  is_float d = false -> d <> Unspecified -> length bs = dtype_size d ->
  decode_scalar bs d = Some v ->
  int_class (elem_int d) (int_low b.1 d) (int_high b.2 d) bs = scalar_class d b v.
Proof.
  intros Hd Hu Hl Hv. destruct (decode_elem_int d bs Hd Hu Hl) as (v' & Hv' & Hf & Hr).
  rewrite Hv in Hv'. injection Hv' as <-.
  pose proof (elem_int_range d bs Hd Hu Hl). pose proof (elem_range_small d Hd).
  unfold int_class, scalar_class. cbv zeta.
  rewrite (int_low_spec d v) by (done || lia). rewrite (int_high_spec d v) by (done || lia).
  destruct v as [| |f]; [done..|]. by destruct (Hf f).
Qed.

(** ** The three scans compute the same classes *)

Section Scans.
Context (d : DType) (data : list byte) (vs : list Scalar).
Context (Hd : d <> Unspecified).
#[local] Notation els := (chunks_exact (dtype_size d) data).
Context (Hvs : Forall2 (fun bs v => decode_scalar bs d = Some v) els vs).

Lemma els_length : Forall (fun e => length e = dtype_size d) els.
Proof. apply chunks_exact_Forall. Qed.

Lemma classes_eq {A} (f : list byte -> A) (g : Scalar -> A) :
  (forall e v, length e = dtype_size d -> decode_scalar e d = Some v -> f e = g v) ->
  f <$> els = g <$> vs.
Proof.
  intros Hfg. apply list_eq_Forall2, Forall2_fmap_2.
  pose proof (Forall2_and_l _ _ _ _ els_length Hvs) as Hl.
  eapply Forall2_impl; [exact Hl|]. cbn. intros e v [He Hv]. by apply Hfg.
Qed.

Lemma scan_uniform_spec b :
  bound_ok d b.1 -> bound_ok d b.2 ->
  scan_uniform data d b = Some (scan_result 0 None (scalar_class d b <$> vs)).
Proof.
  intros H1 H2. destruct (is_float d) eqn:Hf.
  - transitivity (Some (scan_float (elem_float d) (float_low b.1 d) (float_high b.2 d)
                          (dtype_size d) data)).
    { destruct b; by destruct d. }
    rewrite scan_float_spec. do 2 f_equal. apply classes_eq. intros e v He Hv.
    by apply float_class_exact.
  - transitivity (scan_int (if decide (d = Bool) then u_range 8 else elem_range d)
                    (elem_int d) (dtype_size d) data
                    (int_low b.1 d, int_high b.2 d) (elem_range d)).
    { destruct b; by destruct d. }
    rewrite scan_int_spec; [do 2 f_equal| | | |].
    + apply classes_eq. intros e v He Hv. by apply int_class_exact.
    + by destruct d.
    + by destruct d.
    + by destruct d.
    + eapply Forall_impl; [apply els_length|]. intros e He. by apply elem_int_range.
Qed.

Lemma scan_at_classes {V} `{PartialOrd V} (read : list byte -> V) bound_at (bs : list Bound) :
  length bs = length els ->
  (forall k e b v, els !! k = Some e -> bs !! k = Some b -> length e = dtype_size d ->
     decode_scalar e d = Some v ->
     exists l h, bound_at k = Some (l, h) /\ class_at (read e) l h = scalar_class d b v) ->
  scan_at read bound_at (dtype_size d) data
  = Some (scan_result 0 None (zip_with (scalar_class d) bs vs)).
Proof.
  intros Hb Hc. pose proof (Forall2_length _ _ _ Hvs) as Hlen.
  apply scan_at_spec; [rewrite length_zip_with; lia|].
  intros k e He. destruct (Forall2_lookup_l _ _ _ _ _ Hvs He) as (v & Hv & Hev).
  destruct (lookup_lt_is_Some_2 bs k) as [b Hbk].
  { rewrite Hb. by eapply lookup_lt_Some. }
  destruct (Hc k e b v He Hbk (Forall_lookup_1 _ _ _ _ els_length He) Hev) as (l & h & Hlh & Hcl).
  exists l, h. split; [done|]. rewrite lookup_zip_with, Hbk, Hv. cbn. by rewrite Hcl.
Qed.

Lemma class_at_float (v l h : f64) :
  class_at v l h
  = if f64_is_nan v then CNan
    else if f64_gt l v then CBelow else if f64_gt v h then CAbove else CIn.
Proof.
  unfold class_at, gt, partial_cmp, f64_partial_ord, f64_gt.
  destruct (f64_is_nan v) eqn:Hn.
  - unfold f64_cmp, f64_is_nan in *. by destruct (sf64 v).
  - destruct (f64_cmp v v) eqn:Hc; [done|]. unfold f64_cmp, f64_is_nan in *.
    destruct (sf64 v) as [[]|[]| |[]]; done.
Qed.

Lemma class_at_int (v l h : Z) :
  class_at v l h = if v <? l then CBelow else if h <? v then CAbove else CIn.
Proof.
  unfold class_at, gt, partial_cmp, Z_partial_ord, Z.ltb. rewrite (Z.compare_antisym v l).
  rewrite (Z.compare_antisym v h). destruct (v ?= l), (v ?= h); done.
Qed.

Lemma elementwise_float_eq low high k l h :
  low !! k = Some l -> high !! k = Some h ->
  elementwise_float low high k
  = Some (float_low (finite_float l) d, float_high (finite_float h) d).
Proof.
  intros Hl Hh. unfold elementwise_float. rewrite Hl, Hh. unfold finite_float.
  by destruct (f64_is_finite l), (f64_is_finite h).
Qed.

Lemma finite_not_nan x : f64_is_finite x = true -> f64_is_nan x = false.
Proof. unfold f64_is_nan, f64_is_finite. by destruct (sf64 x). Qed.

Lemma elementwise_int_eq low high k l h :
  low !! k = Some l -> high !! k = Some h ->
  elementwise_int low high k
  = Some (int_low (finite_float l) d, int_high (finite_float h) d).
Proof.
  intros Hl Hh. unfold elementwise_int. rewrite Hl, Hh. unfold finite_float.
  destruct (f64_is_finite l) eqn:H1, (f64_is_finite h) eqn:H2; cbn [int_low int_high mbind option_bind];
    by rewrite ?(finite_not_nan l H1), ?(finite_not_nan h H2).
Qed.

Lemma finite_float_ok x : bound_ok d (finite_float x).
Proof. unfold finite_float. intros _ s Hs. case_match; [|done]. injection Hs as <-. by eexists. Qed.

Lemma scan_elementwise_spec low high :
  length low = length els -> length high = length els ->
  scan_elementwise data d low high
  = Some (scan_result 0 None (zip_with (scalar_class d)
      ((fun '(lo, hi) => (finite_float lo, finite_float hi)) <$> zip low high) vs)).
Proof.
  intros Hlow Hhigh. set (bs := _ <$> zip low high).
  assert (Hbs : length bs = length els).
  { subst bs. rewrite length_fmap, length_zip_with. lia. }
  assert (Hk : forall k b, bs !! k = Some b -> exists l h, low !! k = Some l /\
             high !! k = Some h /\ b = (finite_float l, finite_float h)).
  { intros k b (p & -> & Hp)%list_lookup_fmap_Some.
    apply lookup_zip_with_Some in Hp as (l & h & -> & ? & ?). by exists l, h. }
  destruct (is_float d) eqn:Hf.
  - transitivity (scan_at (elem_float d) (elementwise_float low high) (dtype_size d) data);
      [by destruct d|].
    apply scan_at_classes; [done|]. intros k e b v He Hb Hle Hv.
    destruct (Hk k b Hb) as (l & h & Hl & Hh & ->). do 2 eexists.
    split; [by apply elementwise_float_eq|]. rewrite class_at_float.
    apply (float_class_exact d (finite_float l, finite_float h)); try done; apply finite_float_ok.
  - transitivity (scan_at (elem_int d) (elementwise_int low high) (dtype_size d) data);
      [by destruct d|].
    apply scan_at_classes; [done|]. intros k e b v He Hb Hle Hv.
    destruct (Hk k b Hb) as (l & h & Hl & Hh & ->). do 2 eexists.
    split; [by apply elementwise_int_eq|]. rewrite class_at_int.
    by apply (int_class_exact d (finite_float l, finite_float h)).
Qed.

(** Reading a boolean as a number or as a [bool] compares alike. *)
Lemma scan_typed_bool n low high :
  scan_typed n data low high read_bool = scan_typed n data low high read_bool_int.
Proof.
  unfold scan_typed, scan_at. generalize 0%nat, (@None Finding).
  induction (chunks_exact n data) as [|e l IH]; intros i range; [done|].
  cbn [scan_at_loop]. unfold partial_cmp, bool_partial_ord, Z_partial_ord.
  destruct range; [apply IH|].
  destruct (chunks_exact n low !! i) as [lo|]; [|done].
  destruct (chunks_exact n high !! i) as [hi|]; [|done]. apply IH.
Qed.

Lemma int_scalar_elem bs s :
  is_float d = false -> length bs = dtype_size d -> decode_scalar bs d = Some s ->
  int_low (Some s) d = elem_int d bs /\ int_high (Some s) d = elem_int d bs.
Proof.
  intros Hf Hl Hs. destruct (decode_elem_int d bs Hf Hd Hl) as (s' & Hs' & Hn & Hr).
  rewrite Hs in Hs'. injection Hs' as <-. rewrite (int_scalar_real d s Hn) in Hr.
  injection Hr as Hr. destruct s as [| |f]; [done..|]. by destruct (Hn f).
Qed.

Lemma scan_typed_spec low high lows highs :
  Forall2 (fun bs v => decode_scalar bs d = Some v) (chunks_exact (dtype_size d) low) lows ->
  Forall2 (fun bs v => decode_scalar bs d = Some v) (chunks_exact (dtype_size d) high) highs ->
  length lows = length els -> length highs = length els ->
  scan_typed_elementwise data d low high
  = Some (scan_result 0 None (zip_with (scalar_class d)
      ((fun '(lo, hi) => (Some lo, Some hi)) <$> zip lows highs) vs)).
Proof.
  intros Hlow Hhigh Hnl Hnh. set (bs := _ <$> zip lows highs).
  assert (Hbs : length bs = length els).
  { subst bs. rewrite length_fmap, length_zip_with. lia. }
  assert (Hk : forall k b, bs !! k = Some b -> exists lb hb l h,
             chunks_exact (dtype_size d) low !! k = Some lb /\
             chunks_exact (dtype_size d) high !! k = Some hb /\
             length lb = dtype_size d /\ length hb = dtype_size d /\
             decode_scalar lb d = Some l /\ decode_scalar hb d = Some h /\ b = (Some l, Some h)).
  { intros k b (p & -> & Hp)%list_lookup_fmap_Some.
    apply lookup_zip_with_Some in Hp as (l & h & -> & Hl & Hh).
    destruct (Forall2_lookup_r _ _ _ _ _ Hlow Hl) as (lb & ? & ?).
    destruct (Forall2_lookup_r _ _ _ _ _ Hhigh Hh) as (hb & ? & ?).
    exists lb, hb, l, h. split_and!; try done;
      eapply (Forall_lookup_1 _ _ k _ (chunks_exact_Forall _ _)); done. }
  destruct (is_float d) eqn:Hf.
  - transitivity (scan_typed (dtype_size d) data low high (elem_float d)); [by destruct d|].
    apply scan_at_classes; [done|]. intros k e b v He Hb Hle Hv.
    destruct (Hk k b Hb) as (lb & hb & l & h & -> & -> & Hlb & Hhb & Hl & Hh & ->).
    do 2 eexists. split; [reflexivity|]. rewrite class_at_float.
    rewrite decode_elem_float in Hl, Hh by done. injection Hl as <-. injection Hh as <-.
    apply (float_class_exact d (Some (SFloat (elem_float d lb)), Some (SFloat (elem_float d hb))));
      try done; intros _ s [= <-]; by eexists.
  - transitivity (scan_typed (dtype_size d) data low high (elem_int d)).
    { destruct d; try done. apply scan_typed_bool. }
    apply scan_at_classes; [done|]. intros k e b v He Hb Hle Hv.
    destruct (Hk k b Hb) as (lb & hb & l & h & -> & -> & Hlb & Hhb & Hl & Hh & ->).
    do 2 eexists. split; [reflexivity|]. rewrite class_at_int.
    rewrite <- (proj1 (int_scalar_elem lb l Hf Hlb Hl)), <- (proj2 (int_scalar_elem hb h Hf Hhb Hh)).
    by apply (int_class_exact d (Some l, Some h)).
Qed.
End Scans.
End Reads.

(** ** Equivalence with the reference *)

(** The outcome for a finding. *)
Definition outcome (path : string) (f : option Finding) : Conformance :=
  match f with
  | None => Conforms
  | Some (FNan index) => nan_error path index
  | Some (FRange index side) => Range (range_error path index side)
  end.

Definition bound_wf (b : Bound) : Prop :=
  from_option scalar_wf True b.1 /\ from_option scalar_wf True b.2.

Section Equivalence.
Context `{HalfOps}.

Lemma box_scalar_range_spec d path v low high i :
  bound_wf (low, high) -> scalar_wf v ->
  Reference.box_scalar_range v low high d path i
  = Some (if from_option (fun low => exceeds d low v) false low
          then Some (range_error path i Below)
          else if from_option (fun high => exceeds d v high) false high
          then Some (range_error path i Above) else None).
Proof.
  intros [H1 H2] Hv. unfold Reference.box_scalar_range. cbn [fst snd] in *.
  destruct low as [low|]; cbn [from_option] in *.
  1: rewrite scalar_gt_spec by done; fold (exceeds d low v); destruct (exceeds d low v); [done|].
  all: destruct high as [high|]; cbn [from_option] in *; try done;
    rewrite scalar_gt_spec by done; fold (exceeds d v high); by destruct (exceeds d v high).
Qed.

(** [range] of the reference holds the error of the finding the fast path
    keeps. *)
Lemma reference_scan_spec d path bs i range values cl :
  length cl = length values ->
  (forall k v, values !! k = Some v -> exists b, bs !! (i + k)%nat = Some b /\ bound_wf b /\
     scalar_wf v /\ cl !! k = Some (scalar_class d b v)) ->
  Reference.scan d path bs i ((fun '(k, side) => range_error path k side) <$> range) values
  = Some (outcome path (scan_result i ((fun '(k, side) => FRange k side) <$> range) cl)).
Proof.
  revert i range cl; induction values as [|v values IH]; intros i range [|c cl] Hl Hb;
    cbn [length] in Hl; try lia; cbn [Reference.scan].
  { by destruct range as [[]|]. }
  destruct (Hb 0%nat v eq_refl) as ([low high] & Hlh & Hw & Hv & Hc).
  cbn in Hc. injection Hc as ->. rewrite Nat.add_0_r in Hlh.
  assert (IH' : forall r, Reference.scan d path bs (S i)
                  ((fun '(k, side) => range_error path k side) <$> r) values
                  = Some (outcome path (scan_result (S i) ((fun '(k, side) => FRange k side) <$> r) cl))).
  { intros r. apply IH; [lia|]. intros k v' Hk. specialize (Hb (S k) v' Hk).
    by replace (S i + k)%nat with (i + S k)%nat by lia. }
  unfold scan_result, scalar_class. cbn [fst snd]. destruct (scalar_is_nan v); [done|].
  destruct range as [[k side]|].
  - etransitivity; [apply (IH' (Some (k, side)))|]. unfold scan_result.
    destruct (from_option _ _ low); [done|]. by destruct (from_option _ _ high).
  - cbn [fmap option_fmap option_map]. unfold Bound in *. rewrite Hlh. cbn [mbind option_bind].
    rewrite box_scalar_range_spec by done. cbn [mbind option_bind].
    destruct (from_option _ _ low); [apply (IH' (Some (i, Below)))|].
    destruct (from_option _ _ high); [apply (IH' (Some (i, Above)))|]. apply (IH' None).
Qed.

Lemma reference_scan_zip d path bs values :
  length bs = length values -> Forall bound_wf bs -> Forall scalar_wf values ->
  Reference.scan d path bs 0 None values
  = Some (outcome path (scan_result 0 None (zip_with (scalar_class d) bs values))).
Proof.
  intros Hl Hb Hv. apply (reference_scan_spec d path bs 0 None).
  { rewrite length_zip_with. lia. }
  intros k v Hk. destruct (lookup_lt_is_Some_2 bs k) as [b Hbk].
  { rewrite Hl. by eapply lookup_lt_Some. }
  exists b. rewrite lookup_zip_with, Hbk, Hk. split_and!; try done.
  - by eapply (Forall_lookup_1 _ bs).
  - by eapply (Forall_lookup_1 _ values).
Qed.

Lemma typed_bounds_agree bytes count d path :
  d <> Unspecified ->
  (exists e, check_typed_bounds bytes count d path = Err e /\
     Reference.decode_typed_bounds bytes count d path = Some (Err e)) \/
  (exists vs, check_typed_bounds bytes count d path = Ok tt /\
     Reference.decode_typed_bounds bytes count d path = Some (Ok vs) /\
     Forall2 (fun bs v => decode_scalar bs d = Some v) (chunks_exact (dtype_size d) bytes) vs /\
     Z.of_nat (length vs) = count /\ Forall scalar_wf vs /\
     Nat.modulo (length bytes) (dtype_size d) = 0%nat).
Proof.
  intros Hd. unfold check_typed_bounds, Reference.decode_typed_bounds, decode_typed.
  destruct (decide (Nat.modulo (length bytes) (dtype_size d) = 0%nat)) as [Hm|Hm].
  - destruct (decode_scalars_total bytes d Hd Hm) as (vs & Hvs & Hf). rewrite Hvs, Hm.
    pose proof (Forall2_length _ _ _ Hf) as Hl. rewrite length_chunks_exact in Hl.
    cbn [Nat.eqb negb mbind option_bind map_err]. rewrite Hl.
    destruct (Z.of_nat (length vs) =? count) eqn:Hc; cbn [negb]; [right|left; by eexists].
    exists vs. split_and!; try done; [lia|by eapply decode_scalars_wf].
  - left. unfold decode_scalars. rewrite decide_False by done.
    apply Nat.eqb_neq in Hm. rewrite Hm. cbn. by eexists.
Qed.

(** What both [box_bounds] give: the same error, or the bounds of every
    element. *)
Definition bounds_agree (d : DType) (n : nat) (b : Bounds) (bs : list Bound) : Prop :=
  length bs = n /\ Forall bound_wf bs /\
  match b with
  | BUniform b => bs = repeat b n /\ bound_ok d b.1 /\ bound_ok d b.2
  | BElementwise low high =>
      length low = n /\ length high = n /\
      bs = (fun '(lo, hi) => (finite_float lo, finite_float hi)) <$> zip low high
  | BTypedElementwise low high =>
      exists lows highs,
        Forall2 (fun bs v => decode_scalar bs d = Some v) (chunks_exact (dtype_size d) low) lows /\
        Forall2 (fun bs v => decode_scalar bs d = Some v) (chunks_exact (dtype_size d) high) highs /\
        length lows = n /\ length highs = n /\
        bs = (fun '(lo, hi) => (Some lo, Some hi)) <$> zip lows highs
  end.

Lemma finite_float_wf x : from_option scalar_wf True (finite_float x).
Proof. unfold finite_float. by case_match. Qed.

Lemma bounds_agree_uniform d n b :
  bound_wf b -> bound_ok d b.1 -> bound_ok d b.2 ->
  bounds_agree d n (BUniform b) (repeat b n).
Proof.
  intros Hw H1 H2. split_and!; try done; [apply repeat_length|].
  apply Forall_forall. intros x Hx%list_elem_of_In%repeat_spec. by subst x.
Qed.

(** A single decoded element is the decoding of all the bytes. *)
Lemma single_chunk d bytes v :
  d <> Unspecified -> Nat.modulo (length bytes) (dtype_size d) = 0%nat ->
  Forall2 (fun bs v => decode_scalar bs d = Some v) (chunks_exact (dtype_size d) bytes) [v] ->
  decode_scalar bytes d = Some v.
Proof.
  intros Hd Hm Hf. rewrite <- (concat_chunks_exact (dtype_size d) bytes) by (done || by apply dtype_size_pos).
  apply Forall2_cons_inv_r in Hf as (c & cs & Hc & Hcs%Forall2_nil_inv_r & ->). subst cs.
  cbn. by rewrite app_nil_r.
Qed.

Lemma decoded_bound_ok d bs s : decode_scalar bs d = Some s -> bound_ok d (Some s).
Proof.
  intros Hs Hf s' [= <-]. destruct d; try done; cbn [decode_scalar] in Hs;
    (case_match; [|done]); injection Hs as <-; by eexists.
Qed.

Lemma bounds_agree_elementwise d n low high :
  length low = n -> length high = n ->
  bounds_agree d n (BElementwise low high)
    ((fun '(lo, hi) => (finite_float lo, finite_float hi)) <$> zip low high).
Proof.
  intros Hl Hh. split_and!; try done.
  - rewrite length_fmap, length_zip_with. lia.
  - apply Forall_fmap, Forall_true. intros [lo hi]. split; apply finite_float_wf.
Qed.

Lemma bounds_agree_typed d n low high lows highs :
  Forall2 (fun bs v => decode_scalar bs d = Some v) (chunks_exact (dtype_size d) low) lows ->
  Forall2 (fun bs v => decode_scalar bs d = Some v) (chunks_exact (dtype_size d) high) highs ->
  length lows = n -> length highs = n -> Forall scalar_wf lows -> Forall scalar_wf highs ->
  bounds_agree d n (BTypedElementwise low high)
    ((fun '(lo, hi) => (Some lo, Some hi)) <$> zip lows highs).
Proof.
  intros H1 H2 Hl Hh Hwl Hwh. split_and!.
  - rewrite length_fmap, length_zip_with. lia.
  - apply Forall_fmap. eapply Forall_impl; [apply (Forall_zip _ _ _ _ Hwl Hwh)|]. by intros [].
  - by exists lows, highs.
Qed.

Lemma box_bounds_agree s d n path :
  d <> Unspecified ->
  (exists e, box_bounds s (Z.of_nat n) d path = Some (Err e) /\
     Reference.box_bounds s (Z.of_nat n) d path = Some (Err e)) \/
  (exists b bs, box_bounds s (Z.of_nat n) d path = Some (Ok b) /\
     Reference.box_bounds s (Z.of_nat n) d path = Some (Ok bs) /\ bounds_agree d n b bs).
Proof.
  intros Hd. unfold box_bounds, Reference.box_bounds. rewrite ?Nat2Z.id.
  destruct (spec s) as [[sp| | | | | |]|]; try (left; by eexists).
  destruct (bounds sp) as [[?|b|b|b|b]|].
  - right. do 2 eexists. split; [done|]. split; [by rewrite ?Nat2Z.id|]. by apply bounds_agree_uniform.
  - right. do 2 eexists. split; [done|]. split; [by rewrite ?Nat2Z.id|].
    apply bounds_agree_uniform; [split; apply finite_float_wf|apply finite_float_ok..].
  - destruct (_ || _) eqn:Hl; [left; by eexists|]. apply orb_false_iff in Hl as [Hl Hh].
    right. do 2 eexists. split; [done|]. split; [by rewrite ?Nat2Z.id|]. apply bounds_agree_elementwise; lia.
  - destruct (typed_bounds_agree (typed_low b) 1 d path Hd) as
      [(e & -> & ->)|(ls & -> & -> & Hls & Hnl & Hwl & Hml)]; [left; by eexists|].
    destruct (typed_bounds_agree (typed_high b) 1 d path Hd) as
      [(e & -> & ->)|(hs & -> & -> & Hhs & Hnh & Hwh & Hmh)]; [left; by eexists|].
    right. destruct ls as [|l []], hs as [|h []]; cbn in Hnl, Hnh; try lia.
    cbn [mbind option_bind head]. rewrite (single_chunk d _ l), (single_chunk d _ h) by done.
    do 2 eexists. split; [done|]. split; [by rewrite ?Nat2Z.id|].
    apply Forall_inv in Hwl, Hwh.
    apply bounds_agree_uniform; [by split|by eapply decoded_bound_ok, (single_chunk d (typed_low b))|
      by eapply decoded_bound_ok, (single_chunk d (typed_high b))].
  - destruct (typed_bounds_agree (typed_elems_low b) (Z.of_nat n) d path Hd) as
      [(e & -> & ->)|(ls & -> & -> & Hls & Hnl & Hwl & Hml)]; [left; by eexists|].
    destruct (typed_bounds_agree (typed_elems_high b) (Z.of_nat n) d path Hd) as
      [(e & -> & ->)|(hs & -> & -> & Hhs & Hnh & Hwh & Hmh)]; [left; by eexists|].
    right. do 2 eexists. split; [done|]. split; [by rewrite ?Nat2Z.id|]. apply bounds_agree_typed; try done; lia.
  - right. do 2 eexists. split; [done|]. split; [by rewrite ?Nat2Z.id|]. by apply bounds_agree_uniform.
Qed.

Lemma scans_agree d data vs n b bs :
  d <> Unspecified ->
  Forall2 (fun bs v => decode_scalar bs d = Some v) (chunks_exact (dtype_size d) data) vs ->
  length vs = n -> bounds_agree d n b bs ->
  match b with
  | BUniform bound => scan_uniform data d bound
  | BElementwise low high => scan_elementwise data d low high
  | BTypedElementwise low high => scan_typed_elementwise data d low high
  end = Some (scan_result 0 None (zip_with (scalar_class d) bs vs)).
Proof.
  intros Hd Hvs <- (Hbs & Hw & Hb). pose proof (Forall2_length _ _ _ Hvs) as Hlen.
  destruct b as [b|low high|low high].
  - destruct Hb as (-> & H1 & H2). rewrite scan_uniform_spec with (vs := vs) by done.
    do 2 f_equal. clear. induction vs as [|v vs IH]; [done|]. cbn. by rewrite IH.
  - destruct Hb as (Hl & Hh & ->). apply scan_elementwise_spec; try done; lia.
  - destruct Hb as (ls & hs & Hls & Hhs & Hnl & Hnh & ->).
    apply scan_typed_spec; try done; lia.
Qed.

(** What the box check does with a well-formed tensor: the structural errors in
    order, or the outcome of the elements' classes. *)
Lemma conform_box_spec s t bytes path :
  tensor_wf t bytes -> materialisable t ->
  shape t = space_shape s -> dtype t = space_dtype s ->
  (exists e, conform_box s (VBox t) path = Some (Structural e) /\
     Reference.conform_box s (VBox t) path = Some (Structural e) /\
     Reference.box_bounds s (volume (shape t)) (dtype t) path = Some (Err e)) \/
  (exists bs vs,
     Reference.box_bounds s (volume (shape t)) (dtype t) path = Some (Ok bs) /\
     decode_scalars (logical_bytes t bytes) (dtype t) = Some (Ok vs) /\
     length bs = length vs /\
     let o := outcome path (scan_result 0 None (zip_with (scalar_class (dtype t)) bs vs)) in
     conform_box s (VBox t) path = Some o /\ Reference.conform_box s (VBox t) path = Some o).
Proof.
  intros Hwf Hm Hs Hdt. pose proof (wf_dtype _ _ Hwf) as Hd.
  pose proof (volume_range t bytes Hwf) as Hv.
  pose proof (length_logical_bytes t bytes Hwf) as Hlen. unfold itemsize in Hlen.
  pose proof (dtype_size_pos _ Hd) as Hp.
  set (n := Z.to_nat (volume (shape t))).
  assert (Hln : length (logical_bytes t bytes) = (n * dtype_size (dtype t))%nat) by lia.
  assert (Hmod : Nat.modulo (length (logical_bytes t bytes)) (dtype_size (dtype t)) = 0%nat).
  { rewrite Hln. apply Nat.Div0.mod_mul. }
  destruct (decode_scalars_total _ _ Hd Hmod) as (vs & Hvs & Hf).
  assert (Hnv : length vs = n).
  { rewrite <- (Forall2_length _ _ _ Hf), length_chunks_exact, Hln. apply Nat.div_mul. lia. }
  unfold conform_box, Reference.conform_box.
  rewrite !bool_decide_true by done. cbn [negb]. rewrite decide_False by done.
  rewrite (numel_spec t bytes Hwf), (to_contiguous_bytes_spec t bytes Hwf Hm), Hvs, Hmod.
  cbn [mbind option_bind Nat.eqb negb].
  destruct (box_bounds_agree s (dtype t) n path Hd) as [(e & H1 & H2)|(b & bs & H1 & H2 & Hb)];
    unfold n in H1, H2; rewrite Z2Nat.id in H1, H2 by lia; rewrite H1, H2; cbn [mbind option_bind].
  - left. by exists e.
  - right. exists bs, vs. destruct Hb as (Hbs & Hw & Hb'). split_and!; try done; [lia|..].
    + rewrite (scans_agree (dtype t) _ vs n b bs) by done. done.
    + apply reference_scan_zip; [lia|done|by eapply decode_scalars_wf].
Qed.

(** C1: the vectorised, block-wise Box check answers exactly as the
    element-at-a-time reference on every well-formed tensor, whatever the dtype,
    the bound form and the strides, and neither panics. *)
Theorem conform_box_reference (s : SpaceSpec) (t : Tensor) (bytes : list byte) (path : string) :
  tensor_wf t bytes -> materialisable t ->
  exists c, conform_box s (VBox t) path = Some c /\
            Reference.conform_box s (VBox t) path = Some c.
Proof.
  intros Hwf Hm. destruct (decide (shape t = space_shape s)) as [Hs|Hs].
  2: { unfold conform_box, Reference.conform_box. rewrite bool_decide_false by done. by eexists. }
  destruct (decide (dtype t = space_dtype s)) as [Hd|Hd].
  2: { unfold conform_box, Reference.conform_box. rewrite bool_decide_true by done.
       rewrite bool_decide_false by done. by eexists. }
  destruct (conform_box_spec s t bytes path Hwf Hm Hs Hd) as [(e & ? & ? & _)|(bs & vs & ? & ? & ? & Ho)];
    [by eexists|]. cbv zeta in Ho. destruct Ho. by eexists.
Qed.
End Equivalence.

(** ** What the outcome says of the elements *)

Definition side_class (side : Side) : class :=
  match side with Below => CBelow | Above => CAbove end.

Lemma first_nan_None i l : first_nan i l = None <-> Forall (fun c => c <> CNan) l.
Proof.
  revert i; induction l as [|c l IH]; intros i; [by split|].
  rewrite Forall_cons. destruct c; cbn [first_nan]; rewrite ?IH; intuition done.
Qed.

Lemma first_nan_Some i l k :
  first_nan i l = Some k ->
  exists j, k = (i + j)%nat /\ l !! j = Some CNan /\ Forall (fun c => c <> CNan) (take j l).
Proof.
  revert i; induction l as [|c l IH]; intros i; [done|].
  destruct c; cbn [first_nan].
  { intros [= <-]. exists 0%nat. rewrite Nat.add_0_r. by split_and!. }
  all: intros (j & -> & Hj & Ht)%IH; exists (S j); (split; [lia|]); (split; [done|]);
    by constructor.
Qed.

Lemma first_range_None i l :
  first_nan i l = None -> first_range i l = None <-> Forall (fun c => c = CIn) l.
Proof.
  revert i; induction l as [|c l IH]; intros i; [by split|].
  rewrite Forall_cons. destruct c; cbn [first_nan first_range]; intros Hn; try (intuition done).
  rewrite IH by done. intuition done.
Qed.

Lemma first_range_Some i l f :
  first_nan i l = None -> first_range i l = Some f ->
  exists j side, f = FRange (i + j) side /\ l !! j = Some (side_class side) /\
    Forall (fun c => c = CIn) (take j l).
Proof.
  revert i; induction l as [|c l IH]; intros i; [done|].
  destruct c; cbn [first_nan first_range]; intros Hn; [done|..].
  - intros [= <-]. exists 0%nat, Below. rewrite Nat.add_0_r. by split_and!.
  - intros [= <-]. exists 0%nat, Above. rewrite Nat.add_0_r. by split_and!.
  - intros (j & side & -> & Hj & Ht)%IH; [|done]. exists (S j), side.
    split; [f_equal; lia|]. split; [done|]. by constructor.
Qed.

(** The verdict on the classes of the elements. *)
Definition verdict (path : string) (cl : list class) (c : Conformance) : Prop :=
  match c with
  | Conforms => Forall (fun c => c = CIn) cl
  | Structural _ =>
      exists k, cl !! k = Some CNan /\ Forall (fun c => c <> CNan) (take k cl) /\
        c = nan_error path k
  | Range e =>
      Forall (fun c => c <> CNan) cl /\
      exists k side, cl !! k = Some (side_class side) /\
        Forall (fun c => c = CIn) (take k cl) /\ e = range_error path k side
  end.

Lemma outcome_verdict path cl : verdict path cl (outcome path (scan_result 0 None cl)).
Proof.
  unfold scan_result. destruct (first_nan 0 cl) as [k|] eqn:Hn.
  { destruct (first_nan_Some 0 cl k Hn) as (j & -> & Hj & Ht). by exists j. }
  destruct (first_range 0 cl) as [f|] eqn:Hr; [|by apply (first_range_None 0)].
  destruct (first_range_Some 0 cl f Hn Hr) as (j & side & -> & Hj & Ht).
  split; [by apply (first_nan_None 0)|]. by exists j, side.
Qed.

Lemma outcome_Conforms path cl :
  outcome path (scan_result 0 None cl) = Conforms <-> Forall (fun c => c = CIn) cl.
Proof.
  split; intros Hc; [pose proof (outcome_verdict path cl) as Hv; by rewrite Hc in Hv|].
  assert (Hn : first_nan 0 cl = None).
  { apply first_nan_None. eapply Forall_impl; [exact Hc|]. by intros ? ->. }
  unfold scan_result. rewrite Hn. by rewrite (proj2 (first_range_None 0 cl Hn)).
Qed.

(** The verdict of the Box check on a well-formed tensor of the space's
    shape and dtype, in terms of the exact numbers its elements stand for:
    conforming exactly when no element is NaN or outside its bounds, a
    structural failure at the first NaN if there is one, and otherwise a range
    failure at the first element outside its bounds. *)
Theorem conform_box_verdict `{HalfOps} (s : SpaceSpec) (t : Tensor) (bytes : list byte)
    (path : string) (bs : list Bound) :
  tensor_wf t bytes -> materialisable t ->
  shape t = space_shape s -> dtype t = space_dtype s ->
  Reference.box_bounds s (volume (shape t)) (dtype t) path = Some (Ok bs) ->
  exists vs c,
    decode_scalars (logical_bytes t bytes) (dtype t) = Some (Ok vs) /\ length vs = length bs /\
    conform_box s (VBox t) path = Some c /\
    verdict path (zip_with (scalar_class (dtype t)) bs vs) c.
Proof.
  intros Hwf Hm Hs Hd Hb.
  destruct (conform_box_spec s t bytes path Hwf Hm Hs Hd)
    as [(e & _ & _ & He)|(bs' & vs & Hbs & Hvs & Hl & Ho)]; [congruence|].
  rewrite Hb in Hbs. injection Hbs as <-. destruct Ho as [Ho _].
  exists vs, (outcome path (scan_result 0 None (zip_with (scalar_class (dtype t)) bs vs))).
  split_and!; try done. apply outcome_verdict.
Qed.

(** ** Witnesses *)

(** The transposed bytes 1 4 2 5 3 6 against the float bounds 0 and 5. *)
Definition bytes_box : SpaceSpec :=
  mkSpec [3; 2] Uint8 (Some (KBox {| bounds := Some (Uniform
    {| uniform_low := f64_of_Z 0; uniform_high := f64_of_Z 5 |}) |})).

Lemma conform_box_reference_witness :
  exists c, conform_box (H := ieee_half) bytes_box (VBox transposed) "$" = Some c /\
            Reference.conform_box (H := ieee_half) bytes_box (VBox transposed) "$" = Some c.
Proof.
  apply (conform_box_reference (H := ieee_half) bytes_box transposed six_bytes).
  - exact transposed_wf.
  - vm_compute. discriminate.
Defined.

Lemma conform_box_verdict_witness :
  exists vs c,
    decode_scalars (H := ieee_half) (logical_bytes transposed six_bytes) Uint8 = Some (Ok vs) /\
    conform_box (H := ieee_half) bytes_box (VBox transposed) "$" = Some c /\
    c = Range (range_error "$" 5 Above).
Proof.
  destruct (conform_box_verdict (H := ieee_half) bytes_box transposed six_bytes "$"
    (repeat (Some (SFloat (f64_of_Z 0)), Some (SFloat (f64_of_Z 5))) 6)) as (vs & c & Hv & _ & Hc & _).
  - exact transposed_wf.
  - vm_compute. discriminate.
  - reflexivity.
  - reflexivity.
  - vm_compute. reflexivity.
  - exists vs, c. split; [exact Hv|]. split; [exact Hc|].
    vm_compute in Hc. injection Hc as <-. vm_compute. reflexivity.
Defined.
