(* ===== verification/Spaces.v ===== *)
(** * Composite spaces, and the checks over a whole space

    [spaces/composite/{dict,tuple}.rs], [spaces/space.rs] and the functions of
    [spaces/value.rs].  In the source the composite checks and the dispatching
    ones call each other; here the composite ones take the dispatching one as
    an argument.  A [None] result is a panic. *)

From S2P Require Import Prelude Utf8 BTree Float DType Scalar Tensor Types Fundamental BoxSpace BoxValue.
#[local] Open Scope string_scope.
#[local] Open Scope Z_scope.

(** [format!("{path}[{i}]")] and [format!("{path}.{key}")]. *)
Definition index_path (path : string) (i : nat) : string := path +:+ "[" +:+ pretty i +:+ "]".
Definition key_path (path key : string) : string := path +:+ "." +:+ key.

(** ** Validation *)

Section Validate.
Context (validate_space_at : SpaceSpec -> string -> option (result unit SpaceError)).

Fixpoint validate_tuple_children (path : string) (i : nat) (spaces : list SpaceSpec)
    : option (result unit SpaceError) :=
  match spaces with
  | [] => Some (Ok tt)
  | child :: spaces =>
      let!? _ := validate_space_at child (index_path path i) in
      validate_tuple_children path (S i) spaces
  end.

Definition validate_tuple_at (s : SpaceSpec) (path : string) : option (result unit SpaceError) :=
  match space_shape s with
  | _ :: _ => Some (Err (space_err path "Tuple" (lit "shape must be empty")))
  | [] =>
      if negb (bool_decide (space_dtype s = Unspecified)) then
        Some (Err (space_err path "Tuple" (lit "dtype must be 'UNSPECIFIED'")))
      else
        match spec s with
        | Some (KTuple t) => validate_tuple_children path 0 (tuple_spaces t)
        | _ => Some (Err (space_err path "Tuple" (lit "spec.tuple must be set")))
        end
  end.

(** The loop over the keys: [seen] holds the keys inserted so far, and the
    child of a key is the space at its index. *)
Fixpoint validate_dict_children (path : string) (seen : list string) (keys : list string)
    (spaces : list SpaceSpec) {struct spaces} : option (result unit SpaceError) :=
  match spaces, keys with
  | _, [] => Some (Ok tt)
  | spaces, key :: keys =>
      if bool_decide (key = "") then
        Some (Err (space_err path "Dict" (lit "keys must be non-empty")))
      else if bool_decide (key ∈ seen) then
        Some (Err (space_err path "Dict" (Msg "keys must be unique; duplicate: {key}" [AStr key])))
      else
        match spaces with
        | [] => None
        | child :: spaces =>
            let!? _ := validate_space_at child (key_path path key) in
            validate_dict_children path (key :: seen) keys spaces
        end
  end.

Definition validate_dict_at (s : SpaceSpec) (path : string) : option (result unit SpaceError) :=
  match space_shape s with
  | _ :: _ => Some (Err (space_err path "Dict" (lit "shape must be empty")))
  | [] =>
      if negb (bool_decide (space_dtype s = Unspecified)) then
        Some (Err (space_err path "Dict" (lit "dtype must be 'UNSPECIFIED'")))
      else
        match spec s with
        | Some (KDict d) =>
            if negb (Nat.eqb (length (keys d)) (length (dict_spaces d))) then
              Some (Err (space_err path "Dict" (lit "keys/spaces length mismatch")))
            else validate_dict_children path [] (keys d) (dict_spaces d)
        | _ => Some (Err (space_err path "Dict" (lit "spec.dict must be set")))
        end
  end.
End Validate.

(** ** Conformance *)

Section Conform.
Context (conform_at : SpaceSpec -> SpaceValue -> string -> option Conformance).

(** The first range deviation is kept while the loop looks for a structural
    one. *)
Definition keep_first (range : option SpaceError) (err : SpaceError) : option SpaceError :=
  match range with None => Some err | Some _ => range end.

Definition range_outcome (range : option SpaceError) : Conformance :=
  match range with Some err => Range err | None => Conforms end.

Fixpoint conform_tuple_children (path : string) (i : nat) (range : option SpaceError)
    (spaces : list SpaceSpec) (vals : list SpaceValue) : option Conformance :=
  match spaces, vals with
  | sub_space :: spaces, sub_val :: vals =>
      let! c := conform_at sub_space sub_val (index_path path i) in
      match c with
      | Structural err => Some (Structural err)
      | Range err => conform_tuple_children path (S i) (keep_first range err) spaces vals
      | Conforms => conform_tuple_children path (S i) range spaces vals
      end
  | _, _ => Some (range_outcome range)
  end.

Definition conform_tuple (s : SpaceSpec) (value : SpaceValue) (path : string)
    : option Conformance :=
  match value with
  | VTuple tuple_val =>
      match spec s with
      | Some (KTuple t) =>
          if negb (Nat.eqb (length tuple_val) (length (tuple_spaces t))) then
            Some (Structural (Invalid path (Msg "tuple length mismatch: expected {}, got {}"
              [ANat (length (tuple_spaces t)); ANat (length tuple_val)])))
          else conform_tuple_children path 0 None (tuple_spaces t) tuple_val
      | _ => Some (Structural (Invalid path (lit "space is not Tuple")))
      end
  | _ => Some (Structural (Invalid path (lit "expected Tuple value")))
  end.

(** The loop over the keys; at the end the value's own keys are checked. *)
Fixpoint conform_dict_children (path : string) (dict_val : list (string * SpaceValue))
    (range : option SpaceError) (keys : list string) (spaces : list SpaceSpec)
    (finish : option SpaceError -> Conformance) {struct spaces} : option Conformance :=
  match spaces, keys with
  | _, [] => Some (finish range)
  | spaces, key :: keys =>
      match btree_get key dict_val with
      | Some sub_val =>
          match spaces with
          | [] => None
          | space :: spaces =>
              let! c := conform_at space sub_val (key_path path key) in
              match c with
              | Structural err => Some (Structural err)
              | Range err =>
                  conform_dict_children path dict_val (keep_first range err) keys spaces finish
              | Conforms => conform_dict_children path dict_val range keys spaces finish
              end
          end
      | None => Some (Structural (Invalid path (Msg "missing key '{key}'" [AStr key])))
      end
  end.

(** The value's keys outside the space's, in the map's order. *)
Fixpoint unexpected_key (keys : list string) (val_keys : list string) : option string :=
  match val_keys with
  | [] => None
  | key :: val_keys =>
      if negb (bool_decide (key ∈ keys)) then Some key else unexpected_key keys val_keys
  end.

Definition conform_dict (s : SpaceSpec) (value : SpaceValue) (path : string)
    : option Conformance :=
  match value with
  | VDict dict_val =>
      match spec s with
      | Some (KDict d) =>
          conform_dict_children path dict_val None (keys d) (dict_spaces d) (fun range =>
            match unexpected_key (keys d) dict_val.*1 with
            | Some key => Structural (Invalid path (Msg "unexpected key '{key}'" [AStr key]))
            | None => range_outcome range
            end)
      | _ => Some (Structural (Invalid path (lit "space is not Dict")))
      end
  | _ => Some (Structural (Invalid path (lit "expected Dict value")))
  end.
End Conform.

(** ** The whole space *)

Section Spaces.
Context `{HalfOps}.

Fixpoint validate_space_at (space : SpaceSpec) (path : string) {struct space}
    : option (result unit SpaceError) :=
  match space_type space with
  | TyBox => validate_box_at space path
  | TyDiscrete => Some (validate_discrete_at space path)
  | TyMultiBinary => Some (validate_multibinary_at space path)
  | TyMultiDiscrete => Some (validate_multidiscrete_at space path)
  | TyText => Some (validate_text_at space path)
  | TyDict => validate_dict_at validate_space_at space path
  | TyTuple => validate_tuple_at validate_space_at space path
  | TyUnspecified => Some (Err (Invalid path (lit "spec must be set")))
  end.

Definition validate_space (s : SpaceSpec) : option (result unit SpaceError) :=
  validate_space_at s "$".

Fixpoint conform_at (space : SpaceSpec) (value : SpaceValue) (path : string) {struct space}
    : option Conformance :=
  match space_type space with
  | TyBox => conform_box space value path
  | TyDiscrete => Some (structural (contains_discrete space value path))
  | TyMultiBinary => Some (structural (contains_multibinary space value path))
  | TyMultiDiscrete => Some (structural (contains_multidiscrete space value path))
  | TyText => Some (conform_text space value path)
  | TyDict => conform_dict conform_at space value path
  | TyTuple => conform_tuple conform_at space value path
  | TyUnspecified => Some (Structural (Invalid path (lit "space type not specified")))
  end.

Definition conform (space : SpaceSpec) (value : SpaceValue) : option Conformance :=
  conform_at space value "$".

Definition contains (space : SpaceSpec) (value : SpaceValue) : option (result unit SpaceError) :=
  let! c := conform space value in Some (into_result c).

Definition check (policy : ValidationPolicy) (space : SpaceSpec) (value : SpaceValue)
    : option PolicyOutcome :=
  let! c := conform space value in Some (evaluate policy c).
End Spaces.

(** ** Equations *)

Section Equations.
Context `{HalfOps}.

Lemma validate_space_at_eq s path :
  validate_space_at s path
  = match space_type s with
    | TyBox => validate_box_at s path
    | TyDiscrete => Some (validate_discrete_at s path)
    | TyMultiBinary => Some (validate_multibinary_at s path)
    | TyMultiDiscrete => Some (validate_multidiscrete_at s path)
    | TyText => Some (validate_text_at s path)
    | TyDict => validate_dict_at validate_space_at s path
    | TyTuple => validate_tuple_at validate_space_at s path
    | TyUnspecified => Some (Err (Invalid path (lit "spec must be set")))
    end.
Proof. by destruct s. Qed.

Lemma conform_at_eq s value path :
  conform_at s value path
  = match space_type s with
    | TyBox => conform_box s value path
    | TyDiscrete => Some (structural (contains_discrete s value path))
    | TyMultiBinary => Some (structural (contains_multibinary s value path))
    | TyMultiDiscrete => Some (structural (contains_multidiscrete s value path))
    | TyText => Some (conform_text s value path)
    | TyDict => conform_dict conform_at s value path
    | TyTuple => conform_tuple conform_at s value path
    | TyUnspecified => Some (Structural (Invalid path (lit "space type not specified")))
    end.
Proof. by destruct s. Qed.
End Equations.

(** ** Validity does not depend on the path

    The path only goes into the error. *)

Definition same_verdict {A} (r r' : result A SpaceError) : Prop :=
  match r, r' with
  | Ok a, Ok b => a = b
  | Err _, Err _ => True
  | _, _ => False
  end.

Definition same_verdict_opt {A} (r r' : option (result A SpaceError)) : Prop :=
  match r, r' with
  | Some r, Some r' => same_verdict r r'
  | None, None => True
  | _, _ => False
  end.

Lemma same_verdict_refl {A} (r : result A SpaceError) : same_verdict r r.
Proof. by destruct r. Qed.

Lemma same_verdict_bind {A B} (r r' : result A SpaceError) (k k' : A -> result B SpaceError) :
  same_verdict r r' -> (forall a, same_verdict (k a) (k' a)) ->
  same_verdict (let? x := r in k x) (let? x := r' in k' x).
Proof. destruct r, r'; cbn; intros H Hk; try done. subst. apply Hk. Qed.

Lemma same_verdict_opt_bind {A B} (r r' : option (result A SpaceError))
    (k k' : A -> option (result B SpaceError)) :
  same_verdict_opt r r' -> (forall a, same_verdict_opt (k a) (k' a)) ->
  same_verdict_opt (let!? x := r in k x) (let!? x := r' in k' x).
Proof. destruct r as [[]|], r' as [[]|]; cbn; intros H Hk; try done. subst. apply Hk. Qed.

Lemma same_verdict_lift_bind {A B} (r r' : result A SpaceError)
    (k k' : A -> option (result B SpaceError)) :
  same_verdict r r' -> (forall a, same_verdict_opt (k a) (k' a)) ->
  same_verdict_opt (let!? x := Some r in k x) (let!? x := Some r' in k' x).
Proof. apply (same_verdict_opt_bind (Some r) (Some r')). Qed.

Lemma same_verdict_try_for_each {A} (f f' : nat -> A -> result unit SpaceError) i l :
  (forall i x, same_verdict (f i x) (f' i x)) ->
  same_verdict (try_for_each f i l) (try_for_each f' i l).
Proof.
  intros Hf. revert i; induction l as [|x l IH]; intros i; [done|]. cbn [try_for_each].
  apply same_verdict_bind; [apply Hf|]. intros _. apply IH.
Qed.

Lemma same_verdict_ok_or {A} (o : option A) e e' : same_verdict (ok_or o e) (ok_or o e').
Proof. by destruct o. Qed.

Lemma same_verdict_Ok r r' : same_verdict r r' -> r = Ok tt <-> r' = Ok tt.
Proof. destruct r as [[]|], r' as [[]|]; cbn; naive_solver. Qed.

Lemma same_verdict_opt_Ok r r' : same_verdict_opt r r' -> r = Some (Ok tt) <-> r' = Some (Ok tt).
Proof. destruct r as [[[]|]|], r' as [[[]|]|]; cbn; naive_solver. Qed.

(** Follows the shared control flow of two runs that differ in their paths. *)
Ltac same_paths :=
  repeat first
    [ done
    | apply same_verdict_refl
    | apply same_verdict_ok_or
    | apply same_verdict_bind; [|intros ?]
    | apply same_verdict_lift_bind; [|intros ?]
    | apply same_verdict_opt_bind; [|intros ?]
    | apply same_verdict_try_for_each; intros ? ?
    | progress cbn [same_verdict same_verdict_opt negb orb andb]
    | match goal with
      | |- same_verdict (if ?b then _ else _) _ => destruct b
      | |- same_verdict_opt (if ?b then _ else _) _ => destruct b
      | |- same_verdict (match ?b with _ => _ end) _ => destruct b
      | |- same_verdict_opt (match ?b with _ => _ end) _ => destruct b
      end ].

Section Paths.
Context `{HalfOps}.

Lemma validate_leaf_path s p p' :
  same_verdict (validate_discrete_at s p) (validate_discrete_at s p') /\
  same_verdict (validate_multibinary_at s p) (validate_multibinary_at s p') /\
  same_verdict (validate_text_at s p) (validate_text_at s p').
Proof.
  split_and!.
  - unfold validate_discrete_at, check_discrete_range. same_paths.
  - unfold validate_multibinary_at. same_paths.
  - unfold validate_text_at. same_paths.
Qed.

Lemma multidiscrete_numel_path p p' i n l :
  same_verdict (multidiscrete_numel p i n l) (multidiscrete_numel p' i n l).
Proof.
  revert i n; induction l as [|d l IH]; intros i n; [done|]. cbn [multidiscrete_numel].
  same_paths.
Qed.

Lemma validate_multidiscrete_path s p p' :
  same_verdict (validate_multidiscrete_at s p) (validate_multidiscrete_at s p').
Proof.
  unfold validate_multidiscrete_at. destruct (space_shape s); [done|].
  same_paths. apply multidiscrete_numel_path.
Qed.

Lemma decode_typed_path bytes d p p' :
  same_verdict_opt (decode_typed bytes d p) (decode_typed bytes d p').
Proof. unfold decode_typed. by destruct (decode_scalars bytes d) as [[]|]. Qed.

Lemma check_typed_pairs_path d p p' i l :
  same_verdict_opt (check_typed_pairs d p i l) (check_typed_pairs d p' i l).
Proof.
  revert i; induction l as [|[lo hi] l IH]; intros i; [done|]. cbn [check_typed_pairs].
  destruct (_ || _); [done|]. destruct (scalar_gt lo hi d) as [[]|]; [done|apply IH|done].
Qed.

Lemma validate_typed_bounds_path low high count d p p' :
  same_verdict_opt (validate_typed_bounds low high count d p)
    (validate_typed_bounds low high count d p').
Proof.
  unfold validate_typed_bounds. same_paths;
    apply decode_typed_path || apply check_typed_pairs_path.
Qed.

Lemma check_float_bounds_path d p p' m1 m2 low high :
  same_verdict (check_float_bounds d p m1 m2 low high) (check_float_bounds d p' m1 m2 low high).
Proof. unfold check_float_bounds, reject_non_integral_int_bound. same_paths. Qed.

Lemma validate_box_path s p p' : same_verdict_opt (validate_box_at s p) (validate_box_at s p').
Proof.
  unfold validate_box_at. destruct (space_shape s) eqn:?; [done|]. same_paths;
    apply check_float_bounds_path || apply validate_typed_bounds_path.
Qed.
End Paths.

(** ** Valid specs *)

(** A property of every node of a spec's tree. *)
Inductive spec_all (P : SpaceSpec -> Prop) : SpaceSpec -> Prop :=
| spec_all_intro s : P s -> Forall (spec_all P) (children s) -> spec_all P s.

Section Valid.
Context `{HalfOps}.

(** What validation asks of a node, apart from its children. *)
Definition node_valid (s : SpaceSpec) : Prop :=
  match spec s with
  | Some (KDict d) =>
      space_shape s = [] /\ space_dtype s = Unspecified /\
      length (keys d) = length (dict_spaces d) /\ Forall (fun k => k <> "") (keys d) /\
      NoDup (keys d)
  | Some (KTuple _) => space_shape s = [] /\ space_dtype s = Unspecified
  | None => False
  | Some _ => validate_space_at s "$" = Some (Ok tt)
  end.

Definition valid : SpaceSpec -> Prop := spec_all node_valid.

Lemma validate_tuple_children_Ok path i spaces :
  validate_tuple_children validate_space_at path i spaces = Some (Ok tt) <->
  forall k c, spaces !! k = Some c -> validate_space_at c (index_path path (i + k)) = Some (Ok tt).
Proof.
  revert i; induction spaces as [|c spaces IH]; intros i; cbn [validate_tuple_children].
  { split; [intros _ k c; by rewrite lookup_nil|done]. }
  split.
  - intros Hv [|k] c' Hk; cbn in Hk.
    + injection Hk as <-. rewrite Nat.add_0_r. by destruct (validate_space_at c _) as [[[]|]|].
    + rewrite Nat.add_succ_r. apply (proj1 (IH (S i))); [|done].
      by destruct (validate_space_at c _) as [[[]|]|].
  - intros Hv. pose proof (Hv 0%nat c eq_refl) as Hc. rewrite Nat.add_0_r in Hc. rewrite Hc.
    cbn. apply IH. intros k c' Hk. specialize (Hv (S k) c' Hk). by rewrite Nat.add_succ_r in Hv.
Qed.

Lemma validate_dict_children_Ok path seen ks spaces :
  length ks = length spaces ->
  validate_dict_children validate_space_at path seen ks spaces = Some (Ok tt) <->
  Forall (fun k => k <> "") ks /\ NoDup ks /\ (forall k, k ∈ ks -> k ∉ seen) /\
  Forall2 (fun k c => validate_space_at c (key_path path k) = Some (Ok tt)) ks spaces.
Proof.
  revert seen spaces; induction ks as [|k ks IH]; intros seen [|c spaces] Hl; try done;
    cbn [validate_dict_children].
  { split; [|done]. intros _. split_and!; try constructor. set_solver. }
  injection Hl as Hl. rewrite Forall_cons, NoDup_cons, Forall2_cons.
  case_bool_decide as Hk; [naive_solver|].
  case_bool_decide as Hs; [set_solver|].
  destruct (validate_space_at c _) as [[[]|]|] eqn:Hc; [|naive_solver..].
  rewrite IH by done. split.
  - intros (H1 & H2 & H3 & H4). split_and!; try done; [|set_solver]. set_solver.
  - intros ([_ H1] & [H2 H2'] & H3 & [_ H4]). split_and!; try done. set_solver.
Qed.

(** Validation never indexes out of range and never overflows. *)
Lemma validate_space_at_total s path : is_Some (validate_space_at s path).
Proof.
  revert path; induction s as [s IH] using SpaceSpec_ind'; intros path.
  rewrite validate_space_at_eq. unfold space_type, children in *.
  destruct (spec s) as [[b|?|?|?|?|[ks sp]|[sp]]|] eqn:Hs; try (by eexists).
  - apply validate_box_total.
  - unfold validate_dict_at. rewrite Hs. cbn [keys dict_spaces] in *.
    destruct (space_shape s); [|by eexists]. case_match; [by eexists|].
    destruct (Nat.eqb_spec (length ks) (length sp)) as [Hl|]; cbn [negb]; [|by eexists].
    generalize (@nil string). clear Hs. revert ks Hl.
    induction IH as [|c sp Hc _ IHsp]; intros [|k ks] Hl seen; try done;
      cbn [validate_dict_children]; try by eexists.
    injection Hl as Hl. case_match; [by eexists|]. case_match; [by eexists|].
    destruct (Hc (key_path path k)) as [[|] ->]; [|by eexists]. by apply IHsp.
  - unfold validate_tuple_at. rewrite Hs. cbn [tuple_spaces] in *.
    destruct (space_shape s); [|by eexists]. case_match; [by eexists|].
    clear Hs. generalize 0%nat.
    induction IH as [|c sp Hc _ IHsp]; intros i; cbn [validate_tuple_children];
      [by eexists|].
    destruct (Hc (index_path path i)) as [[|] ->]; [|by eexists]. apply IHsp.
Qed.

Lemma leaf_valid s path :
  match spec s with Some (KDict _ | KTuple _) | None => False | _ => True end ->
  validate_space_at s path = Some (Ok tt) <-> validate_space_at s "$" = Some (Ok tt).
Proof.
  intros Hl. apply same_verdict_opt_Ok. rewrite !validate_space_at_eq. unfold space_type.
  destruct (validate_leaf_path s path "$") as (H1 & H2 & H3).
  destruct (spec s) as [[]|]; try done; [apply validate_box_path|apply validate_multidiscrete_path].
Qed.

Lemma valid_dict s ks sp path :
  spec s = Some (KDict (mkDictSpec ks sp)) ->
  (forall p, Forall (fun c => validate_space_at c p = Some (Ok tt) <-> valid c) sp) ->
  validate_space_at s path = Some (Ok tt) <-> valid s.
Proof.
  intros Hs IH. rewrite validate_space_at_eq. unfold space_type, validate_dict_at. rewrite Hs.
  cbn [keys dict_spaces]. split.
  - destruct (space_shape s) eqn:Hsh; [|done]. case_bool_decide as Hd; cbn [negb]; [|done].
    destruct (Nat.eqb_spec (length ks) (length sp)) as [Hl|]; cbn [negb]; [|done].
    intros (H1 & H2 & _ & H3)%validate_dict_children_Ok; [|done].
    constructor; unfold node_valid, children; rewrite Hs; [done|]. cbn [dict_spaces].
    apply Forall_lookup. intros i c Hc.
    destruct (Forall2_lookup_r _ _ _ _ _ H3 Hc) as (k & _ & Hv).
    by apply (Forall_lookup_1 _ _ _ _ (IH (key_path path k)) Hc).
  - intros Hv. inversion Hv as [? Hn Hc]; subst. unfold node_valid, children in *.
    rewrite Hs in *. cbn [keys dict_spaces] in *. destruct Hn as (-> & -> & Hl & H1 & H2).
    rewrite bool_decide_true by done. rewrite Hl, Nat.eqb_refl. cbn [negb].
    apply validate_dict_children_Ok; [done|]. split_and!; [done|done|set_solver|].
    apply Forall2_same_length_lookup_2; [done|]. intros i k c _ Hi.
    apply (Forall_lookup_1 _ _ _ _ (IH _) Hi), (Forall_lookup_1 _ _ _ _ Hc Hi).
Qed.

Lemma valid_tuple s sp path :
  spec s = Some (KTuple (mkTupleSpec sp)) ->
  (forall p, Forall (fun c => validate_space_at c p = Some (Ok tt) <-> valid c) sp) ->
  validate_space_at s path = Some (Ok tt) <-> valid s.
Proof.
  intros Hs IH. rewrite validate_space_at_eq. unfold space_type, validate_tuple_at. rewrite Hs.
  cbn [tuple_spaces]. split.
  - destruct (space_shape s) eqn:Hsh; [|done]. case_bool_decide as Hd; cbn [negb]; [|done].
    intros Hv. constructor; unfold node_valid, children; rewrite Hs; [done|].
    apply Forall_lookup. intros k c Hk. cbn [tuple_spaces] in Hk.
    apply (Forall_lookup_1 _ _ _ _ (IH (index_path path (0 + k))) Hk).
    by apply (proj1 (validate_tuple_children_Ok path 0 sp)).
  - intros Hv. inversion Hv as [? Hn Hc]; subst. unfold node_valid, children in *.
    rewrite Hs in *. destruct Hn as [-> ->]. rewrite bool_decide_true by done. cbn [negb].
    apply validate_tuple_children_Ok. intros k c Hk.
    apply (Forall_lookup_1 _ _ _ _ (IH _) Hk), (Forall_lookup_1 _ _ _ _ Hc Hk).
Qed.

(** Validation accepts exactly the trees whose nodes are all valid, at any
    path. *)
Lemma validate_space_Ok s path : validate_space_at s path = Some (Ok tt) <-> valid s.
Proof.
  revert path; induction s as [s IH] using SpaceSpec_ind'; intros path.
  assert (IH' : forall p, Forall (fun c => validate_space_at c p = Some (Ok tt) <-> valid c)
                            (children s)).
  { intros p. eapply Forall_impl; [exact IH|]. intros c Hc. apply Hc. }
  assert (Hleaf : match spec s with Some (KDict _ | KTuple _) | None => False | _ => True end ->
    validate_space_at s path = Some (Ok tt) <-> valid s).
  { intros Hl. rewrite leaf_valid by done. split.
    - intros Hv. constructor; unfold node_valid, children; destruct (spec s) as [[]|]; done.
    - intros Hv. inversion Hv as [? Hn _]; subst. unfold node_valid in Hn.
      by destruct (spec s) as [[]|]. }
  unfold children in IH'.
  destruct (spec s) as [[b|?|?|?|?|[ks sp]|[sp]]|] eqn:Hs; try (by apply Hleaf).
  - by eapply valid_dict.
  - by eapply valid_tuple.
  - rewrite validate_space_at_eq. unfold space_type. rewrite Hs. split; [done|].
    intros Hv. inversion Hv as [? Hn _]; subst. unfold node_valid in Hn. by rewrite Hs in Hn.
Qed.
End Valid.

(** ** Membership *)

Section Membership.
Context `{HalfOps}.

Definition box_bounds_of (s : SpaceSpec) (d : DType) (n : Z) : option (list Bound) :=
  match Reference.box_bounds s n d "$" with Some (Ok bs) => Some bs | _ => None end.

(** The number [x] is within the bounds [b]. *)
Definition within_bound (d : DType) (b : Bound) (x : xreal) : Prop :=
  (forall l y, b.1 = Some l -> scalar_real d l = Some y -> xreal_compare y x <> Gt) /\
  (forall h y, b.2 = Some h -> scalar_real d h = Some y -> xreal_compare x y <> Gt).

(** An element is a number and, when ranges count, within its bounds. *)
Definition elem_fits (strict : bool) (d : DType) (b : Bound) (v : Scalar) : Prop :=
  exists x, scalar_real d v = Some x /\ (strict = true -> within_bound d b x).

(** Membership of a space.  With [strict] unset it is the part of membership no
    policy may waive: Box bounds and the length and charset of text are left
    out. *)
Inductive fits (strict : bool) : SpaceSpec -> SpaceValue -> Prop :=
| fits_box s b t bytes bs vs :
    spec s = Some (KBox b) -> tensor_wf t bytes ->
    shape t = space_shape s -> dtype t = space_dtype s ->
    box_bounds_of s (dtype t) (volume (shape t)) = Some bs ->
    decode_scalars (logical_bytes t bytes) (dtype t) = Some (Ok vs) ->
    Forall2 (elem_fits strict (dtype t)) bs vs ->
    fits strict s (VBox t)
| fits_discrete s d v :
    spec s = Some (KDiscrete d) -> discrete_member d v -> fits strict s (VDiscrete v)
| fits_multibinary s m vals :
    spec s = Some (KMultiBinary m) ->
    usize_product 1 (space_shape s) = Some (Z.of_nat (length vals)) ->
    fits strict s (VMultiBinary vals)
| fits_multidiscrete s m vals :
    spec s = Some (KMultiDiscrete m) -> Forall2 (fun v n => 0 <= v < n) vals (nvec m) ->
    fits strict s (VMultiDiscrete vals)
| fits_text s t text :
    spec s = Some (KText t) ->
    (strict = true -> min_length t <= Z.of_nat (length text) <= max_length t /\
                      chars_ok (charset t) text) ->
    fits strict s (VText text)
| fits_dict s d m :
    spec s = Some (KDict d) ->
    Forall2 (fun k c => exists v, btree_get k m = Some v /\ fits strict c v) (keys d) (dict_spaces d) ->
    Forall (fun k => k ∈ keys d) m.*1 ->
    fits strict s (VDict m)
| fits_tuple s t vals :
    spec s = Some (KTuple t) -> Forall2 (fits strict) (tuple_spaces t) vals ->
    fits strict s (VTuple vals).

(** *** Well-typed inputs *)

(** The integer fields of a spec's node are [i64]s, and vectors have at most
    [isize::MAX] bytes. *)
Definition node_typed (s : SpaceSpec) : Prop :=
  Forall is_i64 (space_shape s) /\
  match spec s with
  | Some (KDiscrete d) => is_i64 (discrete_n d) /\ is_i64 (discrete_start d)
  | Some (KMultiDiscrete m) => Forall is_i64 (nvec m) /\ 8 * Z.of_nat (length (nvec m)) <= isize_max
  | Some (KText t) => is_i64 (min_length t) /\ is_i64 (max_length t)
  | _ => True
  end.

Definition typed : SpaceSpec -> Prop := spec_all node_typed.

Inductive value_wf : SpaceValue -> Prop :=
| wf_box t bytes : tensor_wf t bytes -> materialisable t -> value_wf (VBox t)
| wf_discrete v : is_i64 v -> value_wf (VDiscrete v)
| wf_multibinary vals : value_wf (VMultiBinary vals)
| wf_multidiscrete vals : Forall is_i64 vals -> value_wf (VMultiDiscrete vals)
| wf_text text : Forall is_char text -> value_wf (VText text)
| wf_dict m : btree_sorted m -> Forall (fun e => value_wf e.2) m -> value_wf (VDict m)
| wf_tuple vals : Forall value_wf vals -> value_wf (VTuple vals).

(** *** Boxes *)

Lemma scalar_real_nan d v : scalar_is_nan v = true <-> scalar_real d v = None.
Proof.
  destruct v as [| |f]; cbn; try (split; congruence).
  unfold f64_is_nan, f64_real. by destruct (sf64 f).
Qed.

Lemma exceeds_spec d a b x :
  scalar_real d b = Some x ->
  exceeds d a b = false <-> (forall y, scalar_real d a = Some y -> xreal_compare y x <> Gt).
Proof.
  intros Hb. unfold exceeds. rewrite Hb. destruct (scalar_real d a) as [y|]; cbn [mbind option_bind];
    [|by split].
  split; [intros E z [= <-] Hc; by rewrite Hc in E|].
  intros E. specialize (E y eq_refl). by destruct (xreal_compare y x).
Qed.

Lemma exceeded_spec d a b x :
  scalar_real d a = Some x ->
  exceeds d a b = false <-> (forall y, scalar_real d b = Some y -> xreal_compare x y <> Gt).
Proof.
  intros Ha. unfold exceeds. rewrite Ha. destruct (scalar_real d b) as [y|]; cbn [mbind option_bind];
    [|by split].
  split; [intros E z [= <-] Hc; by rewrite Hc in E|].
  intros E. specialize (E y eq_refl). by destruct (xreal_compare x y).
Qed.

Lemma class_number d b v : elem_fits false d b v <-> scalar_class d b v <> CNan.
Proof.
  unfold elem_fits, scalar_class. destruct (scalar_is_nan v) eqn:Hn.
  - apply (scalar_real_nan d) in Hn. rewrite Hn. naive_solver.
  - destruct (scalar_real d v) as [x|] eqn:Hr; [|apply scalar_real_nan in Hr; congruence].
    split; [intros _|naive_solver]. by repeat case_match.
Qed.

Lemma class_in d b v : elem_fits true d b v <-> scalar_class d b v = CIn.
Proof.
  unfold elem_fits, scalar_class, within_bound. destruct (scalar_is_nan v) eqn:Hn.
  { apply (scalar_real_nan d) in Hn. rewrite Hn. naive_solver. }
  destruct (scalar_real d v) as [x|] eqn:Hr; [|apply scalar_real_nan in Hr; congruence].
  destruct b as [lo hi]; cbn [fst snd].
  assert (Hlo : from_option (fun low => exceeds d low v) false lo = false <->
    forall l y, lo = Some l -> scalar_real d l = Some y -> xreal_compare y x <> Gt).
  { destruct lo as [l|]; cbn [from_option]; [|naive_solver].
    rewrite (exceeds_spec d l v x Hr). naive_solver. }
  assert (Hhi : from_option (fun high => exceeds d v high) false hi = false <->
    forall h y, hi = Some h -> scalar_real d h = Some y -> xreal_compare x y <> Gt).
  { destruct hi as [h|]; cbn [from_option]; [|naive_solver].
    rewrite (exceeded_spec d v h x Hr). naive_solver. }
  destruct (from_option (fun low => exceeds d low v) false lo),
    (from_option (fun high => exceeds d v high) false hi); naive_solver.
Qed.

Lemma within_ints d l h zl zh x :
  scalar_real d l = Some (xint zl) -> scalar_real d h = Some (xint zh) ->
  within_bound d (Some l, Some h) (xint x) <-> zl <= x <= zh.
Proof.
  intros Hl Hh. unfold within_bound. cbn [fst snd]. split.
  - intros [H1 H2]. specialize (H1 l _ eq_refl Hl). specialize (H2 h _ eq_refl Hh).
    rewrite xint_compare in H1, H2. by split.
  - intros Hz. split; intros s y [= <-] Hy; rewrite ?Hl, ?Hh in Hy; injection Hy as <-;
      rewrite xint_compare; apply Hz.
Qed.

(** The outcome of a check that lets a value through: a range deviation passes
    unless ranges count. *)
Definition delivers (strict : bool) (c : Conformance) : bool :=
  match c with Conforms => true | Range _ => negb strict | Structural _ => false end.

Lemma outcome_delivers strict path d bs vs :
  length bs = length vs ->
  delivers strict (outcome path (scan_result 0 None (zip_with (scalar_class d) bs vs))) = true <->
  Forall2 (elem_fits strict d) bs vs.
Proof.
  intros Hl. set (cl := zip_with _ bs vs).
  assert (Hc : Forall2 (elem_fits strict d) bs vs <->
               Forall (fun c => if strict then c = CIn else c <> CNan) cl).
  { subst cl. clear path. revert vs Hl.
    induction bs as [|b bs IH]; intros [|v vs] Hl; try done; cbn [zip_with].
    injection Hl as Hl. rewrite Forall2_cons, Forall_cons, (IH vs Hl).
    destruct strict; [by rewrite class_in|by rewrite class_number]. }
  rewrite Hc. clear. pose proof (outcome_verdict path cl) as Hv.
  destruct (outcome path _) as [|e|e] eqn:Ho; cbn [verdict delivers] in *.
  - split; [intros _|done]. destruct strict; [done|]. eapply Forall_impl; [exact Hv|]. by intros ? ->.
  - split; [done|]. destruct Hv as (k & Hk & _ & _). intros Hf.
    pose proof (Forall_lookup_1 _ _ _ _ Hf Hk). by destruct strict.
  - destruct Hv as (Hn & k & side & Hk & _ & _). destruct strict; cbn [negb]; [|done].
    split; [done|]. intros Hf. pose proof (Forall_lookup_1 _ _ _ _ Hf Hk). by destruct side.
Qed.

Lemma reference_bounds_path s n d p p' :
  same_verdict_opt (Reference.box_bounds s n d p) (Reference.box_bounds s n d p').
Proof.
  assert (Hd : forall bytes count, same_verdict_opt (Reference.decode_typed_bounds bytes count d p)
                 (Reference.decode_typed_bounds bytes count d p')).
  { intros bytes count. unfold Reference.decode_typed_bounds.
    apply same_verdict_opt_bind; [apply decode_typed_path|]. intros l. by case_match. }
  unfold Reference.box_bounds. destruct (spec s) as [[b| | | | | |]|]; try done.
  destruct (bounds b) as [[]|]; try done.
  - by case_match.
  - apply same_verdict_opt_bind; [apply Hd|]. intros l.
    apply same_verdict_opt_bind; [apply Hd|]. intros h. destruct (head l), (head h); done.
  - apply same_verdict_opt_bind; [apply Hd|]. intros l.
    apply same_verdict_opt_bind; [apply Hd|]. intros h. done.
Qed.

Lemma box_bounds_of_Some s d n path bs :
  Reference.box_bounds s n d path = Some (Ok bs) <-> box_bounds_of s d n = Some bs.
Proof.
  unfold box_bounds_of. pose proof (reference_bounds_path s n d path "$") as Hp.
  destruct (Reference.box_bounds s n d path) as [[]|], (Reference.box_bounds s n d "$") as [[]|];
    cbn in Hp; naive_solver.
Qed.

Lemma tensor_bytes_unique t b b' : tensor_wf t b -> tensor_wf t b' -> b = b'.
Proof. intros H1 H2. pose proof (wf_bytes _ _ H1). pose proof (wf_bytes _ _ H2). congruence. Qed.

Lemma conform_box_fits s b v path :
  spec s = Some (KBox b) -> value_wf v ->
  exists c, conform_box s v path = Some c /\
    forall strict, delivers strict c = true <-> fits strict s v.
Proof.
  intros Hs Hv. destruct Hv as [t bytes Hwf Hm| | | | | |];
    try (eexists; split; [done|]; intros strict; split; [done|]; by inversion 1; congruence).
  assert (Hinv : forall strict, fits strict s (VBox t) ->
    shape t = space_shape s /\ dtype t = space_dtype s /\ exists bs vs,
    box_bounds_of s (dtype t) (volume (shape t)) = Some bs /\
    decode_scalars (logical_bytes t bytes) (dtype t) = Some (Ok vs) /\
    Forall2 (elem_fits strict (dtype t)) bs vs).
  { intros strict Hf. inversion Hf as [s' b' t' bytes' bs vs ? Hwf' ? ? ? Hdec ?| | | | | |]; subst.
    rewrite (tensor_bytes_unique t bytes' bytes Hwf' Hwf) in Hdec. eauto 10. }
  destruct (decide (shape t = space_shape s)) as [Hsh|Hsh].
  2: { unfold conform_box. rewrite bool_decide_false by done. eexists. split; [done|].
       intros strict. split; [done|]. intros (? & _)%Hinv. done. }
  destruct (decide (dtype t = space_dtype s)) as [Hd|Hd].
  2: { unfold conform_box. rewrite bool_decide_true, bool_decide_false by done. eexists.
       split; [done|]. intros strict. split; [done|]. intros (_ & ? & _)%Hinv. done. }
  destruct (conform_box_spec s t bytes path Hwf Hm Hsh Hd)
    as [(e & -> & _ & He)|(bs & vs & Hbs & Hvs & Hl & Hc & _)].
  - eexists. split; [done|]. intros strict. split; [done|].
    intros (_ & _ & bs & vs & Hbs & _)%Hinv. apply (box_bounds_of_Some _ _ _ path) in Hbs. congruence.
  - apply box_bounds_of_Some in Hbs. eexists. split; [exact Hc|]. intros strict.
    rewrite outcome_delivers by done. split.
    + intros Hf. by eapply fits_box.
    + intros (_ & _ & bs' & vs' & Hb' & Hv' & Hf)%Hinv. congruence.
Qed.

(** *** Other leaves *)

Lemma structural_delivers strict r : delivers strict (structural r) = true <-> r = Ok tt.
Proof. destruct r as [[]|]; cbn; naive_solver. Qed.

(** A value of another kind than the space's never fits. *)
Ltac wrong_kind := split; [done | inversion 1; congruence].

Lemma discrete_fits s d v path strict :
  spec s = Some (KDiscrete d) -> node_valid s -> node_typed s -> value_wf v ->
  delivers strict (structural (contains_discrete s v path)) = true <-> fits strict s v.
Proof.
  intros Hs Hv [_ Ht] Hw. unfold node_valid in Hv. rewrite Hs in *.
  rewrite validate_space_at_eq in Hv. unfold space_type in Hv. rewrite Hs in Hv.
  injection Hv as Hv. apply (validate_discrete_Ok s d "$" Hs) in Hv as (_ & _ & Hn & _).
  rewrite structural_delivers. destruct Hw as [|v Hi| | | | |]; unfold contains_discrete at 1;
    try (by wrong_kind). fold (contains_discrete s (VDiscrete v) path).
  destruct Ht as [Hnt Hst]. rewrite (contains_discrete_Ok s d v path)
    by first [done | split; [done|apply Hnt]].
  split; [by intros; eapply fits_discrete|]. inversion 1; congruence.
Qed.

Lemma multibinary_fits s m v path strict :
  spec s = Some (KMultiBinary m) -> node_valid s -> node_typed s ->
  delivers strict (structural (contains_multibinary s v path)) = true <-> fits strict s v.
Proof.
  intros Hs Hv [Hd _]. unfold node_valid in Hv. rewrite Hs in Hv.
  rewrite validate_space_at_eq in Hv. unfold space_type in Hv. rewrite Hs in Hv.
  injection Hv as Hv. apply (validate_multibinary_Ok s m "$" Hs) in Hv as (_ & _ & Hp).
  rewrite structural_delivers. destruct v as [| |vals| | | |]; unfold contains_multibinary at 1;
    try (by wrong_kind). fold (contains_multibinary s (VMultiBinary vals) path).
  rewrite (contains_multibinary_Ok s m vals path Hs).
  - split; [by intros; eapply fits_multibinary|]. inversion 1; congruence.
  - apply Forall_and. split; [|eapply Forall_impl; [exact Hd|]; cbn; unfold is_i64; intros; lia].
    eapply Forall_impl; [exact Hp|]. cbn. intros. lia.
Qed.

Lemma multidiscrete_fits s m v path strict :
  spec s = Some (KMultiDiscrete m) ->
  delivers strict (structural (contains_multidiscrete s v path)) = true <-> fits strict s v.
Proof.
  intros Hs. rewrite structural_delivers.
  destruct v as [| | |vals| | |]; unfold contains_multidiscrete at 1; try (by wrong_kind).
  fold (contains_multidiscrete s (VMultiDiscrete vals) path).
  rewrite (contains_multidiscrete_Ok s m vals path Hs).
  split; [by intros; eapply fits_multidiscrete|]. inversion 1; congruence.
Qed.

Lemma conform_text_not_structural s t text path e :
  spec s = Some (KText t) -> conform_text s (VText text) path <> Structural e.
Proof.
  intros Hs. unfold conform_text. rewrite Hs. do 2 (case_match; [done|]).
  case_match; [done|apply check_charset_not_structural].
Qed.

Lemma text_fits s t v path strict :
  spec s = Some (KText t) ->
  delivers strict (conform_text s v path) = true <-> fits strict s v.
Proof.
  intros Hs. destruct v as [| | | |text| |]; unfold conform_text at 1; try (by wrong_kind).
  fold (conform_text s (VText text) path).
  pose proof (conform_text_Conforms s t text path Hs) as Hc.
  pose proof (conform_text_not_structural s t text path) as Hn.
  destruct (conform_text s (VText text) path) as [|e|e]; cbn [delivers].
  - split; [|done]. intros _. eapply fits_text; [done|]. intros _. by apply Hc.
  - by destruct (Hn e Hs).
  - destruct strict; cbn [negb].
    + split; [done|]. inversion 1; subst. assert (Range e = Conforms); [|done].
      apply Hc. replace t with t0 by congruence. auto.
    + split; [|done]. intros _. by eapply fits_text.
Qed.

(** *** Composites *)

(** What a check of a child gives: it answers, and lets through what fits. *)
Definition checks (c : SpaceSpec) : Prop :=
  forall v path, value_wf v -> exists o, conform_at c v path = Some o /\
    forall strict, delivers strict o = true <-> fits strict c v.

Definition tolerates (strict : bool) (range : option SpaceError) : bool :=
  match range with None => true | Some _ => negb strict end.

Lemma range_outcome_delivers strict range :
  delivers strict (range_outcome range) = tolerates strict range.
Proof. by destruct range. Qed.

Lemma tolerates_keep strict range e :
  tolerates strict (keep_first range e) = negb strict && tolerates strict range.
Proof. by destruct range, strict. Qed.

Lemma conform_tuple_children_spec path i range spaces vals :
  Forall checks spaces -> Forall value_wf vals -> length vals = length spaces ->
  exists o, conform_tuple_children conform_at path i range spaces vals = Some o /\
    forall strict, delivers strict o = true <->
      tolerates strict range = true /\ Forall2 (fits strict) spaces vals.
Proof.
  intros Hc. revert i range vals; induction Hc as [|c spaces Hc _ IH]; intros i range [|v vals] Hw Hl;
    try done; cbn [conform_tuple_children].
  { eexists. split; [done|]. intros strict. rewrite range_outcome_delivers. naive_solver. }
  apply Forall_cons in Hw as [Hv Hw]. injection Hl as Hl.
  destruct (Hc v (index_path path i) Hv) as (o & -> & Ho). cbn [mbind option_bind].
  destruct o as [|e|e]; cbn [delivers] in Ho.
  - destruct (IH (S i) range vals Hw Hl) as (o & -> & Ho'). eexists. split; [done|].
    intros strict. rewrite Ho', Forall2_cons. specialize (Ho strict). naive_solver.
  - eexists. split; [done|]. intros strict. rewrite Forall2_cons. specialize (Ho strict). naive_solver.
  - destruct (IH (S i) (keep_first range e) vals Hw Hl) as (o & -> & Ho'). eexists. split; [done|].
    intros strict. rewrite Ho', Forall2_cons, tolerates_keep. specialize (Ho strict).
    rewrite andb_true_iff. naive_solver.
Qed.

Lemma conform_dict_children_spec path m range ks spaces finish ok :
  Forall checks spaces -> Forall (fun e => value_wf e.2) m -> length ks = length spaces ->
  (forall strict range, delivers strict (finish range) = true <->
     tolerates strict range = true /\ ok) ->
  exists o, conform_dict_children conform_at path m range ks spaces finish = Some o /\
    forall strict, delivers strict o = true <->
      tolerates strict range = true /\
      Forall2 (fun k c => exists v, btree_get k m = Some v /\ fits strict c v) ks spaces /\ ok.
Proof.
  intros Hc Hw. revert range ks; induction Hc as [|c spaces Hc _ IH]; intros range [|k ks] Hl Hf;
    try done; cbn [conform_dict_children].
  { eexists. split; [done|]. intros strict. rewrite Hf. naive_solver. }
  injection Hl as Hl. destruct (btree_get k m) as [v|] eqn:Hg.
  2: { eexists. split; [done|]. intros strict. rewrite Forall2_cons, Hg. naive_solver. }
  assert (Hv : value_wf v).
  { apply btree_get_Some_elem in Hg. rewrite Forall_forall in Hw. apply (Hw (k, v) Hg). }
  destruct (Hc v (key_path path k) Hv) as (o & -> & Ho). cbn [mbind option_bind].
  destruct o as [|e|e]; cbn [delivers] in Ho.
  - destruct (IH range ks Hl Hf) as (o & -> & Ho'). eexists. split; [done|].
    intros strict. rewrite Ho', Forall2_cons, Hg. specialize (Ho strict). naive_solver.
  - eexists. split; [done|]. intros strict. rewrite Forall2_cons, Hg. specialize (Ho strict).
    naive_solver.
  - destruct (IH (keep_first range e) ks Hl Hf) as (o & -> & Ho'). eexists. split; [done|].
    intros strict. rewrite Ho', Forall2_cons, tolerates_keep, Hg. specialize (Ho strict).
    rewrite andb_true_iff. naive_solver.
Qed.

Lemma unexpected_key_None ks vks : unexpected_key ks vks = None <-> Forall (fun k => k ∈ ks) vks.
Proof.
  induction vks as [|k vks IH]; cbn [unexpected_key]; [split; [constructor|done]|].
  rewrite Forall_cons. case_bool_decide; cbn [negb]; [rewrite IH|]; naive_solver.
Qed.

Lemma conform_dict_checks s d :
  spec s = Some (KDict d) -> length (keys d) = length (dict_spaces d) ->
  Forall checks (dict_spaces d) -> checks s.
Proof.
  intros Hs Hl Hc v path Hv. rewrite conform_at_eq. unfold space_type. rewrite Hs.
  destruct Hv as [| | | | |m _ Hm|]; unfold conform_dict;
    try (by eexists; split; [done|]; intros strict; wrong_kind).
  rewrite Hs. eapply conform_dict_children_spec with (range := None)
    (ok := Forall (fun k => k ∈ keys d) m.*1) in Hl as (o & -> & Ho); [|done|done|].
  2: { intros strict range. rewrite <- unexpected_key_None.
       destruct (unexpected_key _ _); [naive_solver|]. rewrite range_outcome_delivers. naive_solver. }
  eexists. split; [done|]. intros strict. rewrite Ho. split.
  - intros (_ & Hf & Hk). by eapply fits_dict.
  - inversion 1; subst. replace d with d0 by congruence. done.
Qed.

Lemma conform_tuple_checks s t :
  spec s = Some (KTuple t) -> Forall checks (tuple_spaces t) -> checks s.
Proof.
  intros Hs Hc v path Hv. rewrite conform_at_eq. unfold space_type. rewrite Hs.
  destruct Hv as [| | | | | |vals Hw]; unfold conform_tuple;
    try (by eexists; split; [done|]; intros strict; wrong_kind).
  rewrite Hs. destruct (Nat.eqb_spec (length vals) (length (tuple_spaces t))) as [Hl|Hl]; cbn [negb].
  - eapply conform_tuple_children_spec with (range := None) in Hl as (o & -> & Ho); [|done..].
    eexists. split; [done|]. intros strict. rewrite Ho. split.
    + intros [_ Hf]. by eapply fits_tuple.
    + inversion 1; subst. replace t with t0 by congruence. done.
  - eexists. split; [done|]. intros strict. split; [done|].
    inversion 1 as [| | | | | |? t' ? Hs' Hf]; subst. apply Forall2_length in Hf.
    replace t' with t in Hf by congruence. lia.
Qed.

Lemma conform_at_checks s : valid s -> typed s -> checks s.
Proof.
  induction s as [s IH] using SpaceSpec_ind'; intros Hv Ht.
  inversion Hv as [? Hn Hvc]; subst. inversion Ht as [? Hnt Htc]; subst.
  assert (IH' : Forall checks (children s)).
  { clear - IH Hvc Htc. induction IH; apply Forall_cons in Hvc as [? ?], Htc as [? ?] || idtac;
      constructor; auto. }
  assert (Hleaf : forall f : SpaceValue -> string -> Conformance,
    (forall v path, conform_at s v path = Some (f v path)) ->
    (forall v path strict, value_wf v -> delivers strict (f v path) = true <-> fits strict s v) ->
    checks s).
  { intros f Hf Hd v path Hw. rewrite Hf. eexists. split; [done|]. intros strict. by apply Hd. }
  unfold children in IH'. unfold node_valid in Hn.
  destruct (spec s) as [[b|d|m|m|t|d|t]|] eqn:Hs; [..|done].
  - intros v path Hw. rewrite conform_at_eq. unfold space_type. rewrite Hs.
    by eapply conform_box_fits.
  - apply (Hleaf (fun v path => structural (contains_discrete s v path))).
    + intros. rewrite conform_at_eq. unfold space_type. by rewrite Hs.
    + intros. eapply discrete_fits; try done. unfold node_valid. by rewrite Hs.
  - apply (Hleaf (fun v path => structural (contains_multibinary s v path))).
    + intros. rewrite conform_at_eq. unfold space_type. by rewrite Hs.
    + intros. eapply multibinary_fits; try done. unfold node_valid. by rewrite Hs.
  - apply (Hleaf (fun v path => structural (contains_multidiscrete s v path))).
    + intros. rewrite conform_at_eq. unfold space_type. by rewrite Hs.
    + intros. by eapply multidiscrete_fits.
  - apply (Hleaf (fun v path => conform_text s v path)).
    + intros. rewrite conform_at_eq. unfold space_type. by rewrite Hs.
    + intros. by eapply text_fits.
  - eapply conform_dict_checks; try done. apply Hn.
  - by eapply conform_tuple_checks.
Qed.
End Membership.

(** ** Valid boxes have usable bounds *)

Section BoxBounds.
Context `{HalfOps}.

(** Both bounds are numbers, and they are in order. *)
Definition bound_consistent (d : DType) (b : Bound) : Prop :=
  (forall l, b.1 = Some l -> is_Some (scalar_real d l)) /\
  (forall h, b.2 = Some h -> is_Some (scalar_real d h)) /\
  (forall l h x y, b.1 = Some l -> b.2 = Some h ->
     scalar_real d l = Some x -> scalar_real d h = Some y -> xreal_compare x y <> Gt).

Lemma f64_real_Some f : f64_is_nan f = false -> is_Some (f64_real f).
Proof. unfold f64_is_nan, f64_real. destruct (sf64 f); try done; by eexists. Qed.

Lemma float_bound_consistent d path m1 m2 low high :
  check_float_bounds d path m1 m2 low high = Ok tt ->
  bound_consistent d (finite_float low, finite_float high).
Proof.
  unfold check_float_bounds. destruct (f64_is_nan low) eqn:Hl, (f64_is_nan high) eqn:Hh; try done.
  cbn [orb]. destruct (f64_gt low high) eqn:Hg; [done|]. intros _.
  unfold finite_float. split_and!; cbn [fst snd].
  - intros l Hf. case_match; [|done]. injection Hf as <-. by apply f64_real_Some.
  - intros h Hf. case_match; [|done]. injection Hf as <-. by apply f64_real_Some.
  - intros l h x y Hf1 Hf2. case_match; [|done]. case_match; [|done].
    injection Hf1 as <-. injection Hf2 as <-. cbn [scalar_real]. intros Hx Hy Hc.
    unfold f64_gt in Hg. rewrite f64_cmp_exact, Hx, Hy in Hg. cbn [mbind option_bind] in Hg.
    by rewrite Hc in Hg.
Qed.

Lemma check_typed_pairs_Ok d path i l :
  Forall (fun p => scalar_wf p.1 /\ scalar_wf p.2) l ->
  check_typed_pairs d path i l = Some (Ok tt) ->
  Forall (fun '(lo, hi) => bound_consistent d (Some lo, Some hi)) l.
Proof.
  intros Hw. revert i; induction Hw as [|[lo hi] l [Hlo Hhi] _ IH]; intros i; [done|].
  cbn [check_typed_pairs fst snd] in *.
  destruct (scalar_is_nan lo) eqn:Hnl, (scalar_is_nan hi) eqn:Hnh; try done. cbn [orb].
  rewrite scalar_gt_spec by done. cbn [mbind option_bind]. fold (exceeds d lo hi).
  destruct (exceeds d lo hi) eqn:Hg; [done|]. intros Hc. constructor; [|by eapply IH].
  destruct (scalar_real d lo) as [x|] eqn:Hx; [|apply scalar_real_nan in Hx; congruence].
  destruct (scalar_real d hi) as [y|] eqn:Hy; [|apply scalar_real_nan in Hy; congruence].
  split_and!; cbn [fst snd].
  - intros l' [= <-]. by eexists.
  - intros h' [= <-]. by eexists.
  - intros l' h' x' y' [= <-] [= <-] Hx' Hy'. unfold exceeds in Hg. rewrite Hx', Hy' in Hg.
    cbn in Hg. by destruct (xreal_compare x' y').
Qed.

Lemma validate_typed_Ok low high count d path :
  0 <= count ->
  validate_typed_bounds low high count d path = Some (Ok tt) ->
  exists ls hs,
    Reference.decode_typed_bounds low count d path = Some (Ok ls) /\
    Reference.decode_typed_bounds high count d path = Some (Ok hs) /\
    Z.of_nat (length ls) = count /\ Z.of_nat (length hs) = count /\
    Forall (fun '(lo, hi) => bound_consistent d (Some lo, Some hi)) (zip ls hs).
Proof.
  intros Hcount. unfold validate_typed_bounds. case_decide as Hd; [done|].
  destruct (checked_usize _) as [n|] eqn:Hn; cbn [ok_or]; [|done]. apply checked_Some in Hn as [-> _].
  destruct (_ || _) eqn:Hlen; [done|]. apply orb_false_iff in Hlen as [Hl Hh].
  pose proof (dtype_size_pos d Hd) as Hp.
  assert (Hdec : forall bytes, negb (Z.of_nat (length bytes) =? count * Z.of_nat (dtype_size d)) = false ->
    exists vs, decode_typed bytes d path = Some (Ok vs) /\ Z.of_nat (length vs) = count /\
      Forall scalar_wf vs).
  { intros bytes Hb. assert (length bytes = Z.to_nat count * dtype_size d)%nat as Hb' by lia.
    destruct (decode_scalars_total bytes d Hd) as (vs & Hvs & Hf).
    { rewrite Hb'. apply Nat.Div0.mod_mul. }
    exists vs. unfold decode_typed. rewrite Hvs. split_and!; [done| |by eapply decode_scalars_wf].
    rewrite <- (Forall2_length _ _ _ Hf), length_chunks_exact, Hb', Nat.div_mul by lia. lia. }
  destruct (Hdec low Hl) as (ls & Hls & Hnl & Hwl). destruct (Hdec high Hh) as (hs & Hhs & Hnh & Hwh).
  rewrite Hls, Hhs. intros Hc. exists ls, hs. unfold Reference.decode_typed_bounds.
  rewrite Hls, Hhs, Hnl, Hnh, Z.eqb_refl. split_and!; try done.
  eapply check_typed_pairs_Ok; [|exact Hc]. by apply Forall_zip.
Qed.

Lemma Forall_repeat {A} (P : A -> Prop) x n : P x -> Forall P (repeat x n).
Proof. intros Hx. induction n; constructor; done. Qed.

Lemma validate_box_bounds s b :
  spec s = Some (KBox b) -> Forall is_i64 (space_shape s) ->
  validate_box_at s "$" = Some (Ok tt) ->
  exists bs, box_bounds_of s (space_dtype s) (volume (space_shape s)) = Some bs /\
    Z.of_nat (length bs) = volume (space_shape s) /\ Forall (bound_consistent (space_dtype s)) bs.
Proof.
  intros Hs Hi Hv. unfold validate_box_at in Hv.
  destruct (space_shape s) as [|d0 ds] eqn:Hsh; [done|]. rewrite <- Hsh in *.
  case_bool_decide as Hd; [done|].
  destruct (try_for_each _ _ _) as [[]|] eqn:Hp in Hv; [|done]. apply try_for_each_if in Hp.
  rewrite Hs in Hv. destruct (usize_product 1 (space_shape s)) as [n|] eqn:Hn; cbn [ok_or] in Hv; [|done].
  assert (Hdims : dims_ok (space_shape s)).
  { apply Forall_and. split; [eapply Forall_impl; [exact Hp|]; cbn; intros; lia|].
    eapply Forall_impl; [exact Hi|]. cbn. unfold is_i64. intros; lia. }
  pose proof (volume_nonneg _ Hdims) as Hv0.
  apply usize_product_spec in Hn; [|done]. rewrite Z.mul_1_l in Hn. subst n.
  unfold box_bounds_of, Reference.box_bounds. rewrite Hs.
  destruct (bounds b) as [[?|u|e|u|e]|]; try done.
  - eexists. split; [done|]. rewrite repeat_length. split; [lia|]. by apply Forall_repeat.
  - injection Hv as Hv. eexists. split; [done|]. rewrite repeat_length. split; [lia|].
    apply Forall_repeat. by eapply float_bound_consistent.
  - destruct (Nat.eqb_spec (length (elementwise_low e)) (length (elementwise_high e))) as [Hl|];
      cbn [negb] in Hv; [|done].
    destruct (Z.eqb_spec (Z.of_nat (length (elementwise_low e))) (volume (space_shape s))) as [Hl'|];
      cbn [negb] in Hv; [|done]. injection Hv as Hv. rewrite <- Hl, Hl', Z.eqb_refl. cbn [negb orb].
    eexists. split; [done|]. rewrite length_fmap, length_zip_with. split; [lia|].
    apply Forall_fmap, Forall_lookup. intros k [lo hi] Hk.
    apply (proj1 (try_for_each_Ok _ _ _) Hv k) in Hk. by eapply float_bound_consistent.
  - destruct (validate_typed_Ok _ _ 1 _ _ ltac:(lia) Hv) as (ls & hs & -> & -> & Hl & Hh & Hf).
    destruct ls as [|l []], hs as [|h []]; cbn in Hl, Hh; try lia.
    cbn [mbind option_bind head]. eexists. split; [done|]. rewrite repeat_length. split; [lia|].
    apply Forall_repeat. by apply Forall_inv in Hf.
  - destruct (validate_typed_Ok _ _ _ _ _ Hv0 Hv) as (ls & hs & -> & -> & Hl & Hh & Hf).
    eexists. split; [done|]. rewrite length_fmap, length_zip_with. split; [lia|].
    apply Forall_fmap. eapply Forall_impl; [exact Hf|]. by intros [].
Qed.
End BoxBounds.

(** ** Properties *)

Section Properties.
Context `{HalfOps}.

(** C2: checking a well-formed value against a valid space always answers, and
    the answer classifies the value: conforming exactly when it is a member of
    the space, structural exactly when it lacks even the part of membership no
    policy may waive, so that a structural deviation anywhere in the tree
    outranks every range deviation, and a range deviation in between. *)
Theorem conform_classifies (s : SpaceSpec) (v : SpaceValue) :
  validate_space s = Some (Ok tt) -> typed s -> value_wf v ->
  exists c, conform s v = Some c /\
    (c = Conforms <-> fits true s v) /\
    ((exists e, c = Structural e) <-> ~ fits false s v) /\
    ((exists e, c = Range e) <-> fits false s v /\ ~ fits true s v).
Proof.
  intros Hv%validate_space_Ok Ht Hw.
  destruct (conform_at_checks s Hv Ht v "$" Hw) as (c & Hc & Hf). exists c.
  rewrite <- !Hf. split; [exact Hc|].
  destruct c; cbn [delivers negb]; naive_solver.
Qed.

(** What the serving side does with a value under each policy: a member is
    always accepted without a warning; a value that is not even structurally a
    member is rejected under every policy; one that deviates only in range is
    delivered with a warning, rejected or accepted silently. *)
Theorem policy_outcomes (policy : ValidationPolicy) (s : SpaceSpec) (v : SpaceValue) :
  validate_space s = Some (Ok tt) -> typed s -> value_wf v ->
  exists o, check policy s v = Some o /\
    (fits true s v -> o = Accept) /\
    (~ fits false s v -> exists e, o = Reject e) /\
    (fits false s v -> ~ fits true s v ->
     match policy with
     | PWarn => exists e, o = WarnWith e
     | PStrict => exists e, o = Reject e
     | POff => o = Accept
     end).
Proof.
  intros Hv%validate_space_Ok Ht Hw.
  destruct (conform_at_checks s Hv Ht v "$" Hw) as (c & Hc & Hf).
  unfold check, conform. rewrite Hc. eexists. split; [done|]. rewrite <- !Hf.
  destruct c; cbn [delivers negb evaluate]; destruct policy; naive_solver.
Qed.

(** Validation answers on every spec, valid or not: it never indexes out of
    range and no arithmetic in it overflows; and the answer does not depend on
    the path it is reported under. *)
Theorem validate_space_total (s : SpaceSpec) (path : string) :
  is_Some (validate_space_at s path) /\
  (validate_space_at s path = Some (Ok tt) <-> validate_space s = Some (Ok tt)).
Proof.
  split; [apply validate_space_at_total|]. unfold validate_space. by rewrite !validate_space_Ok.
Qed.

(** A Dict spec validates exactly when it has no shape and no dtype, one
    space per key, non-empty and distinct keys, and spaces that each validate. *)
Theorem validate_dict_exact (s : SpaceSpec) (d : DictSpec) :
  spec s = Some (KDict d) ->
  validate_space s = Some (Ok tt) <->
  space_shape s = [] /\ space_dtype s = Unspecified /\
  length (keys d) = length (dict_spaces d) /\ Forall (fun k => k <> "") (keys d) /\
  NoDup (keys d) /\ Forall (fun c => validate_space c = Some (Ok tt)) (dict_spaces d).
Proof.
  intros Hs. unfold validate_space. setoid_rewrite validate_space_Ok. split.
  - intros Hv. inversion Hv as [? Hn Hc]; subst. unfold node_valid, children in *.
    rewrite Hs in *. naive_solver.
  - intros (? & ? & ? & ? & ? & Hc). constructor; unfold node_valid, children; rewrite Hs; done.
Qed.

(** A Box spec that validates gives every element of the box a pair of
    bounds that are numbers, with the low one not above the high one, whatever
    the form the bounds are given in. *)
Theorem valid_box_bounds (s : SpaceSpec) (b : BoxSpec) :
  spec s = Some (KBox b) -> Forall is_i64 (space_shape s) ->
  validate_space s = Some (Ok tt) ->
  exists bs, box_bounds_of s (space_dtype s) (volume (space_shape s)) = Some bs /\
    Z.of_nat (length bs) = volume (space_shape s) /\ Forall (bound_consistent (space_dtype s)) bs.
Proof.
  intros Hs Hi Hv. apply (validate_box_bounds s b Hs Hi).
  unfold validate_space in Hv. rewrite validate_space_at_eq in Hv. unfold space_type in Hv.
  by rewrite Hs in Hv.
Qed.
End Properties.

(** ** Witnesses *)

(** A Dict of a box of bytes in 0..5 and a pair of a count and a word. *)
Definition example_space : SpaceSpec :=
  mkSpec [] Unspecified (Some (KDict (mkDictSpec ["frame"; "info"]
    [bytes_box;
     mkSpec [] Unspecified (Some (KTuple (mkTupleSpec
       [mkSpec [] Int64 (Some (KDiscrete {| discrete_n := 4; discrete_start := -1 |}));
        mkSpec [] Uint8 (Some (KText {| min_length := 0; max_length := 3; charset := [97; 98] |}))])))]))).

Definition example_value : SpaceValue :=
  VDict [("frame", VBox transposed); ("info", VTuple [VDiscrete 2; VText [97; 98; 97]])].

Lemma example_typed : typed example_space.
Proof.
  assert (Hb : typed bytes_box).
  { constructor; [|apply Forall_nil_2]. split; [|exact I].
    repeat apply Forall_cons_2; [compute_Z..|apply Forall_nil_2]. }
  constructor; [split; [apply Forall_nil_2|exact I]|].
  apply Forall_cons_2; [exact Hb|]. apply Forall_cons_2; [|apply Forall_nil_2].
  constructor; [split; [apply Forall_nil_2|exact I]|].
  apply Forall_cons_2; [|apply Forall_cons_2; [|apply Forall_nil_2]];
    (constructor; [|apply Forall_nil_2]); (split; [apply Forall_nil_2|]); split; compute_Z.
Qed.

Lemma example_value_wf : value_wf example_value.
Proof.
  apply wf_dict; [by apply btree_sortedb_spec|].
  apply Forall_cons_2; [|apply Forall_cons_2; [|apply Forall_nil_2]].
  - apply (wf_box transposed six_bytes transposed_wf). vm_compute. discriminate.
  - apply wf_tuple. apply Forall_cons_2; [|apply Forall_cons_2; [|apply Forall_nil_2]].
    + apply wf_discrete. compute_Z.
    + apply wf_text. repeat apply Forall_cons_2; [unfold is_char; lia..|apply Forall_nil_2].
Qed.

Lemma conform_classifies_witness :
  exists c, conform (H := ieee_half) example_space example_value = Some c /\
    c = Range (range_error "$.frame" 5 Above).
Proof.
  destruct (conform_classifies (H := ieee_half) example_space example_value) as (c & Hc & _).
  - vm_compute. reflexivity.
  - exact example_typed.
  - exact example_value_wf.
  - exists c. split; [exact Hc|]. vm_compute in Hc. injection Hc as <-. vm_compute. reflexivity.
Defined.

Lemma policy_outcomes_witness :
  exists o, check (H := ieee_half) PStrict example_space example_value = Some o /\
    o = Reject (range_error "$.frame" 5 Above).
Proof.
  destruct (policy_outcomes (H := ieee_half) PStrict example_space example_value) as (o & Ho & _).
  - vm_compute. reflexivity.
  - exact example_typed.
  - exact example_value_wf.
  - exists o. split; [exact Ho|]. vm_compute in Ho. injection Ho as <-. vm_compute. reflexivity.
Defined.

Lemma validate_dict_exact_witness :
  validate_space (H := ieee_half) example_space = Some (Ok tt) /\ NoDup ["frame"; "info"].
Proof.
  assert (Hv : validate_space (H := ieee_half) example_space = Some (Ok tt))
    by (vm_compute; reflexivity).
  split; [exact Hv|].
  apply (proj1 (validate_dict_exact (H := ieee_half) example_space _ eq_refl) Hv).
Defined.

Lemma valid_box_bounds_witness :
  exists bs, box_bounds_of (H := ieee_half) bytes_box Uint8 6 = Some bs /\ length bs = 6%nat.
Proof.
  destruct (valid_box_bounds (H := ieee_half) bytes_box
    {| bounds := Some (Uniform {| uniform_low := f64_of_Z 0; uniform_high := f64_of_Z 5 |}) |})
    as (bs & Hb & Hl & _).
  - reflexivity.
  - repeat apply Forall_cons_2; [compute_Z..|apply Forall_nil_2].
  - vm_compute. reflexivity.
  - exists bs. split; [exact Hb|]. change (volume (space_shape bytes_box)) with 6 in Hl. lia.
Defined.
