(* ===== verification/Walk.v ===== *)
(** * Flattening and assembling values

    [spaces/walk.rs]: a composite value as the list of its fundamental leaves
    in the spec's declared order, and back. *)

From S2P Require Import Prelude BTree Float DType Scalar Tensor Types Fundamental BoxSpace BoxValue Spaces.
#[local] Open Scope string_scope.
#[local] Open Scope Z_scope.

(** [out] is the vector the walk pushes to. *)
Fixpoint collect_specs (s : SpaceSpec) (out : list SpaceSpec) : list SpaceSpec :=
  match spec s with
  | Some (KDict d) => fold_left (fun out c => collect_specs c out) (dict_spaces d) out
  | Some (KTuple t) => fold_left (fun out c => collect_specs c out) (tuple_spaces t) out
  | _ => (out ++ [s])%list
  end.

Definition leaf_specs (s : SpaceSpec) : list SpaceSpec := collect_specs s [].

Section Flatten.
Context (flatten_into : SpaceSpec -> SpaceValue -> list SpaceValue -> result (list SpaceValue) SpaceError).

Fixpoint flatten_dict (m : list (string * SpaceValue)) (keys : list string)
    (spaces : list SpaceSpec) (out : list SpaceValue) {struct spaces}
    : result (list SpaceValue) SpaceError :=
  match spaces, keys with
  | child :: spaces, key :: keys =>
      let? cv :=
        ok_or (btree_get key m)
          (Invalid "$" (Msg "dict missing key {key:?}" [AStr key])) in
      let? out := flatten_into child cv out in
      flatten_dict m keys spaces out
  | _, _ => Ok out
  end.

Fixpoint flatten_tuple (spaces : list SpaceSpec) (vals out : list SpaceValue) {struct spaces}
    : result (list SpaceValue) SpaceError :=
  match spaces, vals with
  | child :: spaces, cv :: vals =>
      let? out := flatten_into child cv out in
      flatten_tuple spaces vals out
  | _, _ => Ok out
  end.
End Flatten.

Fixpoint flatten_into (s : SpaceSpec) (value : SpaceValue) (out : list SpaceValue) {struct s}
    : result (list SpaceValue) SpaceError :=
  match spec s, value with
  | Some (KDict d), VDict m => flatten_dict flatten_into m (keys d) (dict_spaces d) out
  | Some (KTuple t), VTuple v =>
      if negb (Nat.eqb (length v) (length (tuple_spaces t))) then
        Err (Invalid "$" (Msg "tuple arity {} != spec {}"
          [ANat (length v); ANat (length (tuple_spaces t))]))
      else flatten_tuple flatten_into (tuple_spaces t) v out
  | Some (KDict _ | KTuple _), _ =>
      Err (Invalid "$" (lit "composite spec but value is not the matching composite"))
  | _, _ => Ok (out ++ [value])%list
  end.

Definition flatten_leaves (s : SpaceSpec) (value : SpaceValue)
    : result (list SpaceValue) SpaceError := flatten_into s value [].

(** The iterator of the leaves is the list of those not yet taken. *)
Section Assemble.
Context (assemble_from : SpaceSpec -> list SpaceValue -> result (SpaceValue * list SpaceValue) SpaceError).

Fixpoint assemble_dict (m : btree SpaceValue) (keys : list string) (spaces : list SpaceSpec)
    (leaves : list SpaceValue) {struct spaces}
    : result (btree SpaceValue * list SpaceValue) SpaceError :=
  match spaces, keys with
  | child :: spaces, key :: keys =>
      let? (value, leaves) := assemble_from child leaves in
      assemble_dict (btree_insert key value m) keys spaces leaves
  | _, _ => Ok (m, leaves)
  end.

Fixpoint assemble_tuple (v : list SpaceValue) (spaces : list SpaceSpec) (leaves : list SpaceValue)
    {struct spaces} : result (list SpaceValue * list SpaceValue) SpaceError :=
  match spaces with
  | child :: spaces =>
      let? (value, leaves) := assemble_from child leaves in
      assemble_tuple (v ++ [value])%list spaces leaves
  | [] => Ok (v, leaves)
  end.
End Assemble.

Fixpoint assemble_from (s : SpaceSpec) (leaves : list SpaceValue) {struct s}
    : result (SpaceValue * list SpaceValue) SpaceError :=
  match spec s with
  | Some (KDict d) =>
      let? (m, leaves) := assemble_dict assemble_from [] (keys d) (dict_spaces d) leaves in
      Ok (VDict m, leaves)
  | Some (KTuple t) =>
      let? (v, leaves) := assemble_tuple assemble_from [] (tuple_spaces t) leaves in
      Ok (VTuple v, leaves)
  | _ =>
      match leaves with
      | value :: leaves => Ok (value, leaves)
      | [] => Err (Invalid "$" (lit "fewer leaves than spec expects"))
      end
  end.

Definition assemble_value (s : SpaceSpec) (leaves : list SpaceValue) : result SpaceValue SpaceError :=
  let? (value, rest) := assemble_from s leaves in
  match rest with
  | _ :: _ => Err (Invalid "$" (lit "more leaves than spec expects"))
  | [] => Ok value
  end.

(** ** Lemmas *)

(** What both walks rely on: a Dict has one space per key, and distinct keys. *)
Definition keys_ok (s : SpaceSpec) : Prop :=
  match spec s with
  | Some (KDict d) => length (keys d) = length (dict_spaces d) /\ NoDup (keys d)
  | _ => True
  end.

Lemma spec_all_impl (P Q : SpaceSpec -> Prop) s :
  (forall s, P s -> Q s) -> spec_all P s -> spec_all Q s.
Proof.
  intros HPQ. induction s as [s IH] using SpaceSpec_ind'. intros Hs.
  inversion Hs as [? Hn Hc]; subst. constructor; [by apply HPQ|].
  apply Forall_forall. intros c Hin. rewrite Forall_forall in IH, Hc. auto.
Qed.

Lemma valid_keys_ok `{HalfOps} s : valid s -> spec_all keys_ok s.
Proof.
  apply spec_all_impl. clear s. intros s. unfold node_valid, keys_ok.
  destruct (spec s) as [[]|]; naive_solver.
Qed.

Lemma collect_specs_eq s out :
  collect_specs s out
  = match spec s with
    | Some (KDict d) => fold_left (fun out c => collect_specs c out) (dict_spaces d) out
    | Some (KTuple t) => fold_left (fun out c => collect_specs c out) (tuple_spaces t) out
    | _ => (out ++ [s])%list
    end.
Proof. by destruct s. Qed.

Lemma fold_collect spaces out :
  Forall (fun s => forall out, collect_specs s out = (out ++ leaf_specs s)%list) spaces ->
  fold_left (fun out c => collect_specs c out) spaces out
  = (out ++ concat (leaf_specs <$> spaces))%list.
Proof.
  intros Hs. revert out; induction Hs as [|s spaces Hs _ IH]; intros out; cbn;
    [by rewrite app_nil_r|]. by rewrite Hs, IH, app_assoc.
Qed.

Lemma collect_specs_app s out : collect_specs s out = (out ++ leaf_specs s)%list.
Proof.
  revert out; induction s as [s IH] using SpaceSpec_ind'; intros out. unfold leaf_specs.
  rewrite !collect_specs_eq. unfold children in IH.
  destruct (spec s) as [[]|]; try done; by rewrite !fold_collect.
Qed.

(** The leaves of a spec: its own, or those of its children in order. *)
Lemma leaf_specs_eq s :
  leaf_specs s
  = match spec s with
    | Some (KDict _ | KTuple _) => concat (leaf_specs <$> children s)
    | _ => [s]
    end.
Proof.
  unfold leaf_specs at 1. rewrite collect_specs_eq. unfold children.
  destruct (spec s) as [[]|]; try done; rewrite fold_collect; try done;
    apply Forall_true; intros; apply collect_specs_app.
Qed.

Lemma flatten_into_eq s value out :
  flatten_into s value out
  = match spec s, value with
    | Some (KDict d), VDict m => flatten_dict flatten_into m (keys d) (dict_spaces d) out
    | Some (KTuple t), VTuple v =>
        if negb (Nat.eqb (length v) (length (tuple_spaces t))) then
          Err (Invalid "$" (Msg "tuple arity {} != spec {}"
            [ANat (length v); ANat (length (tuple_spaces t))]))
        else flatten_tuple flatten_into (tuple_spaces t) v out
    | Some (KDict _ | KTuple _), _ =>
        Err (Invalid "$" (lit "composite spec but value is not the matching composite"))
    | _, _ => Ok (out ++ [value])%list
    end.
Proof. by destruct s. Qed.

Lemma assemble_from_eq s leaves :
  assemble_from s leaves
  = match spec s with
    | Some (KDict d) =>
        let? (m, leaves) := assemble_dict assemble_from [] (keys d) (dict_spaces d) leaves in
        Ok (VDict m, leaves)
    | Some (KTuple t) =>
        let? (v, leaves) := assemble_tuple assemble_from [] (tuple_spaces t) leaves in
        Ok (VTuple v, leaves)
    | _ =>
        match leaves with
        | value :: leaves => Ok (value, leaves)
        | [] => Err (Invalid "$" (lit "fewer leaves than spec expects"))
        end
    end.
Proof. by destruct s. Qed.

(** *** Inserting a list of entries *)

Definition insert_all (m : btree SpaceValue) (ks : list string) (vs : list SpaceValue)
    : btree SpaceValue :=
  fold_left (fun m '(k, v) => btree_insert k v m) (zip ks vs) m.

Lemma insert_all_sorted m ks vs : btree_sorted m -> btree_sorted (insert_all m ks vs).
Proof.
  unfold insert_all. revert m. induction (zip ks vs) as [|[k v] l IH]; intros m Hm; [done|].
  cbn. by apply IH, btree_insert_sorted.
Qed.

Lemma insert_all_other m ks vs k : k ∉ ks -> btree_get k (insert_all m ks vs) = btree_get k m.
Proof.
  unfold insert_all. revert m vs. induction ks as [|k' ks IH]; intros m [|v vs] Hk; try done.
  cbn. rewrite IH by set_solver. rewrite btree_get_insert.
  destruct (String.eqb_spec k k'); [set_solver|done].
Qed.

Lemma insert_all_get m ks vs :
  NoDup ks -> length ks = length vs ->
  Forall2 (fun k v => btree_get k (insert_all m ks vs) = Some v) ks vs.
Proof.
  revert m vs; induction ks as [|k ks IH]; intros m [|v vs] Hn Hl; try done.
  apply NoDup_cons in Hn as [Hk Hn]. injection Hl as Hl. constructor.
  - change (btree_get k (insert_all (btree_insert k v m) ks vs) = Some v).
    rewrite insert_all_other by done. by rewrite btree_get_insert, String.eqb_refl.
  - apply (IH (btree_insert k v m)); done.
Qed.

(** A map is what inserting its entries, in any order, gives. *)
Lemma insert_all_id m ks vs :
  btree_sorted m -> NoDup ks -> Forall2 (fun k v => btree_get k m = Some v) ks vs ->
  Forall (fun k => k ∈ ks) m.*1 -> insert_all [] ks vs = m.
Proof.
  intros Hm Hn Hg Hk. pose proof (Forall2_length _ _ _ Hg) as Hl.
  apply btree_ext; [by apply insert_all_sorted; constructor|done|]. intros k.
  destruct (decide (k ∈ ks)) as [[i Hi]%list_elem_of_lookup|Hnk].
  - destruct (Forall2_lookup_l _ _ _ _ _ Hg Hi) as (v & Hv & ->).
    by destruct (Forall2_lookup_lr _ _ _ _ _ _ (insert_all_get [] ks vs Hn Hl) Hi Hv).
  - rewrite insert_all_other by done. symmetry. apply btree_get_None.
    rewrite Forall_forall in Hk. intros Hin. by apply Hnk, Hk.
Qed.

(** ** Assembling *)

#[local] Notation count s := (length (leaf_specs s)).

Definition flattens (s : SpaceSpec) (v : SpaceValue) (ls : list SpaceValue) : Prop :=
  forall out, flatten_into s v out = Ok (out ++ ls)%list.

(** With enough leaves, a spec takes as many as it has and gives a value that
    flattens back to them; with too few it fails. *)
Definition assembles (s : SpaceSpec) : Prop :=
  forall leaves,
    if decide (count s <= length leaves)%nat then
      exists v, assemble_from s leaves = Ok (v, drop (count s) leaves) /\
        flattens s v (take (count s) leaves)
    else exists e, assemble_from s leaves = Err e.

#[local] Notation total spaces := (length (concat (leaf_specs <$> spaces))).

Lemma total_cons s spaces : total (s :: spaces) = (count s + total spaces)%nat.
Proof. cbn. by rewrite length_app. Qed.

Lemma take_two {A} n k (l : list A) : take (n + k) l = (take n l ++ take k (drop n l))%list.
Proof. revert l; induction n; intros [|x l]; cbn; rewrite ?take_nil; by f_equal. Qed.

Lemma assemble_dict_spec m ks spaces leaves :
  Forall assembles spaces -> length ks = length spaces ->
  if decide (total spaces <= length leaves)%nat then
    exists vs, assemble_dict assemble_from m ks spaces leaves
      = Ok (insert_all m ks vs, drop (total spaces) leaves) /\ length ks = length vs /\
      forall m', Forall2 (fun k v => btree_get k m' = Some v) ks vs ->
      forall out, flatten_dict flatten_into m' ks spaces out
        = Ok (out ++ take (total spaces) leaves)%list
  else exists e, assemble_dict assemble_from m ks spaces leaves = Err e.
Proof.
  intros Hs. revert m ks leaves; induction Hs as [|s spaces Hs _ IH]; intros m [|k ks] leaves Hl; try done.
  { rewrite decide_True by (cbn; lia). exists []. split_and!; try done.
    intros m' _ out. cbn. by rewrite take_0, app_nil_r. }
  injection Hl as Hl. rewrite total_cons. cbn [assemble_dict flatten_dict].
  specialize (Hs leaves). case_decide as Hc; [|destruct Hs as [e ->]; rewrite decide_False by lia;
    by eexists].
  destruct Hs as (v & -> & Hf). specialize (IH (btree_insert k v m) ks (drop (count s) leaves) Hl).
  rewrite length_drop in IH. destruct (decide (total spaces <= length leaves - count s)%nat).
  - destruct IH as (vs & -> & Hlv & Hfl). rewrite decide_True by lia. exists (v :: vs).
    split_and!; [by rewrite drop_drop|cbn; lia|].
    intros m' Hg out. apply Forall2_cons in Hg as [Hk Hg].
    rewrite Hk. cbn [ok_or]. rewrite Hf, (Hfl m' Hg). by rewrite <- app_assoc, take_two.
  - destruct IH as [e ->]. rewrite decide_False by lia. by eexists.
Qed.

Lemma assemble_tuple_spec acc spaces leaves :
  Forall assembles spaces ->
  if decide (total spaces <= length leaves)%nat then
    exists vs, assemble_tuple assemble_from acc spaces leaves
      = Ok ((acc ++ vs)%list, drop (total spaces) leaves) /\ length spaces = length vs /\
      forall out, flatten_tuple flatten_into spaces vs out
        = Ok (out ++ take (total spaces) leaves)%list
  else exists e, assemble_tuple assemble_from acc spaces leaves = Err e.
Proof.
  intros Hs. revert acc leaves; induction Hs as [|s spaces Hs _ IH]; intros acc leaves.
  { rewrite decide_True by (cbn; lia). exists []. cbn. rewrite app_nil_r. split_and!; try done.
    intros out. by rewrite take_0, app_nil_r. }
  rewrite total_cons. cbn [assemble_tuple flatten_tuple].
  specialize (Hs leaves). case_decide as Hc; [|destruct Hs as [e ->]; rewrite decide_False by lia;
    by eexists].
  destruct Hs as (v & -> & Hf). specialize (IH (acc ++ [v])%list (drop (count s) leaves)).
  rewrite length_drop in IH. destruct (decide (total spaces <= length leaves - count s)%nat).
  - destruct IH as (vs & -> & Hlv & Hfl). rewrite decide_True by lia. exists (v :: vs).
    rewrite <- app_assoc, drop_drop. split_and!; [done|cbn; lia|].
    intros out. rewrite Hf, Hfl. by rewrite <- app_assoc, take_two.
  - destruct IH as [e ->]. rewrite decide_False by lia. by eexists.
Qed.

Lemma assemble_from_spec s : spec_all keys_ok s -> assembles s.
Proof.
  induction s as [s IH] using SpaceSpec_ind'; intros Hs leaves.
  inversion Hs as [? Hk Hc]; subst.
  assert (IH' : Forall assembles (children s)).
  { apply Forall_forall. intros c Hin. rewrite Forall_forall in IH, Hc. auto. }
  rewrite assemble_from_eq. unfold flattens. rewrite leaf_specs_eq.
  unfold keys_ok, children in *.
  destruct (spec s) as [[b|d|m|m|t|d|t]|] eqn:Hsp.
  6: { destruct Hk as [Hl Hn]. pose proof (assemble_dict_spec [] (keys d) (dict_spaces d) leaves IH' Hl) as Ha.
       case_decide; [|destruct Ha as [e ->]; by eexists]. destruct Ha as (vs & -> & Hlv & Hf).
       eexists. split; [done|]. intros out. rewrite flatten_into_eq, Hsp.
       by apply Hf, insert_all_get. }
  6: { pose proof (assemble_tuple_spec [] (tuple_spaces t) leaves IH') as Ha.
       case_decide; [|destruct Ha as [e ->]; by eexists]. destruct Ha as (vs & -> & Hlv & Hf).
       eexists. split; [done|]. intros out. rewrite flatten_into_eq, Hsp.
       rewrite Hlv, Nat.eqb_refl. apply Hf. }
  all: destruct leaves as [|v leaves]; cbn [length];
    [rewrite decide_False by lia; by eexists|rewrite decide_True by lia].
  all: exists v; split; [done|]; intros out; rewrite flatten_into_eq, Hsp; by destruct v.
Qed.

(** ** Flattening *)

Section Flattening.
Context `{HalfOps}.

(** A value of the space's structure flattens to one leaf per leaf spec, each
    a member of its leaf space, from which it is assembled again. *)
Definition walks (strict : bool) (s : SpaceSpec) (v : SpaceValue) : Prop :=
  exists ls, flattens s v ls /\ Forall2 (fits strict) (leaf_specs s) ls /\
    forall rest, assemble_from s (ls ++ rest)%list = Ok (v, rest).

Lemma walks_dict strict m ks spaces :
  Forall (fun s => forall v, value_wf v -> fits strict s v -> walks strict s v) spaces ->
  Forall (fun e => value_wf e.2) m ->
  Forall2 (fun k c => exists v, btree_get k m = Some v /\ fits strict c v) ks spaces ->
  exists vs ls,
    Forall2 (fun k v => btree_get k m = Some v) ks vs /\
    (forall out, flatten_dict flatten_into m ks spaces out = Ok (out ++ ls)%list) /\
    Forall2 (fits strict) (concat (leaf_specs <$> spaces)) ls /\
    forall m0 rest, assemble_dict assemble_from m0 ks spaces (ls ++ rest)%list
      = Ok (insert_all m0 ks vs, rest).
Proof.
  intros Hs Hm Hf. revert Hs; induction Hf as [|k s ks spaces (v & Hg & Hv) _ IH]; intros Hs.
  { exists [], []. split_and!; try constructor; try done. intros out. by rewrite app_nil_r. }
  apply Forall_cons in Hs as [Hs Hss]. destruct (IH Hss) as (vs & ls & Hgs & Hfl & Hfit & Has).
  assert (Hw : value_wf v).
  { apply btree_get_Some_elem in Hg. rewrite Forall_forall in Hm. apply (Hm (k, v) Hg). }
  destruct (Hs v Hw Hv) as (ls' & Hfl' & Hfit' & Has').
  exists (v :: vs), (ls' ++ ls)%list. split_and!.
  - by constructor.
  - intros out. cbn [flatten_dict]. rewrite Hg. cbn [ok_or]. rewrite Hfl', Hfl. by rewrite app_assoc.
  - cbn. by apply Forall2_app.
  - intros m0 rest. cbn [assemble_dict]. rewrite <- app_assoc, Has', Has. done.
Qed.

Lemma walks_tuple strict spaces vs :
  Forall (fun s => forall v, value_wf v -> fits strict s v -> walks strict s v) spaces ->
  Forall value_wf vs -> Forall2 (fits strict) spaces vs ->
  exists ls,
    (forall out, flatten_tuple flatten_into spaces vs out = Ok (out ++ ls)%list) /\
    Forall2 (fits strict) (concat (leaf_specs <$> spaces)) ls /\
    forall acc rest, assemble_tuple assemble_from acc spaces (ls ++ rest)%list
      = Ok ((acc ++ vs)%list, rest).
Proof.
  intros Hs Hw Hf. revert Hs Hw; induction Hf as [|s v spaces vs Hv _ IH]; intros Hs Hw.
  { exists []. split_and!; try constructor; try done; intros; cbn; by rewrite app_nil_r. }
  apply Forall_cons in Hs as [Hs Hss]. apply Forall_cons in Hw as [Hw Hws].
  destruct (IH Hss Hws) as (ls & Hfl & Hfit & Has).
  destruct (Hs v Hw Hv) as (ls' & Hfl' & Hfit' & Has').
  exists (ls' ++ ls)%list. split_and!.
  - intros out. cbn [flatten_tuple]. rewrite Hfl', Hfl. by rewrite app_assoc.
  - cbn. by apply Forall2_app.
  - intros acc rest. cbn [assemble_tuple]. rewrite <- app_assoc, Has', Has. by rewrite <- app_assoc.
Qed.

Lemma fits_walks strict s v :
  spec_all keys_ok s -> value_wf v -> fits strict s v -> walks strict s v.
Proof.
  revert v; induction s as [s IH] using SpaceSpec_ind'; intros v Hs Hw Hf.
  inversion Hs as [? Hk Hc]; subst.
  assert (IH' : Forall (fun s => forall v, value_wf v -> fits strict s v -> walks strict s v) (children s)).
  { apply Forall_forall. intros c Hin v' Hv'. rewrite Forall_forall in IH, Hc. auto. }
  clear IH Hc Hs. unfold walks, flattens.
  inversion Hf as [? b t|? d ?|? m ?|? m ?|? t ?|? d m Hsp Hcs Hks|? t vs Hsp Hcs]; subst.
  6: { inversion Hw as [| | | | |? Hso Hwm|]; subst. unfold keys_ok, children in *. rewrite Hsp in *.
       destruct (walks_dict strict m _ _ IH' Hwm Hcs) as (vs & ls & Hg & Hfl & Hfit & Has).
       exists ls. split_and!.
       - intros out. rewrite flatten_into_eq, Hsp. apply Hfl.
       - rewrite leaf_specs_eq. unfold children. by rewrite Hsp.
       - intros rest. rewrite assemble_from_eq, Hsp, Has. by rewrite (insert_all_id m) by naive_solver. }
  6: { inversion Hw as [| | | | | |? Hwv]; subst. unfold children in *. rewrite Hsp in *.
       destruct (walks_tuple strict _ vs IH' Hwv Hcs) as (ls & Hfl & Hfit & Has).
       exists ls. split_and!.
       - intros out. rewrite flatten_into_eq, Hsp. rewrite (Forall2_length _ _ _ Hcs), Nat.eqb_refl.
         apply Hfl.
       - rewrite leaf_specs_eq. unfold children. by rewrite Hsp.
       - intros rest. by rewrite assemble_from_eq, Hsp, Has. }
  all: match goal with
       | Hk : spec ?s = _ |- context [flatten_into ?s ?v] =>
           exists [v]; split_and!;
             [ intros out; by rewrite flatten_into_eq, Hk
             | rewrite leaf_specs_eq, Hk; by apply Forall2_cons_2; [|constructor]
             | intros rest; by rewrite assemble_from_eq, Hk ]
       end.
Qed.
End Flattening.

(** ** Properties *)

(** A value that is structurally a member of a valid space flattens to one
    leaf per leaf spec, in the declared order and each a member of its own leaf
    space, and assembling those leaves gives the value back. *)
Theorem flatten_assemble `{HalfOps} (strict : bool) (s : SpaceSpec) (v : SpaceValue) :
  validate_space s = Some (Ok tt) -> value_wf v -> fits strict s v ->
  exists ls, flatten_leaves s v = Ok ls /\ Forall2 (fits strict) (leaf_specs s) ls /\
    assemble_value s ls = Ok v.
Proof.
  intros Hs%validate_space_Ok%valid_keys_ok Hw Hf.
  destruct (fits_walks strict s v Hs Hw Hf) as (ls & Hfl & Hfit & Has). exists ls.
  split_and!; [apply Hfl|done|]. unfold assemble_value. specialize (Has []).
  rewrite app_nil_r in Has. by rewrite Has.
Qed.

(** Leaves assemble exactly when there is one per leaf spec of the valid
    space, never a truncation, and the assembled value flattens back to them. *)
Theorem assemble_flatten `{HalfOps} (s : SpaceSpec) (leaves : list SpaceValue) :
  validate_space s = Some (Ok tt) ->
  (length leaves = length (leaf_specs s) ->
   exists v, assemble_value s leaves = Ok v /\ flatten_leaves s v = Ok leaves) /\
  (length leaves <> length (leaf_specs s) -> exists e, assemble_value s leaves = Err e).
Proof.
  intros Hs%validate_space_Ok%valid_keys_ok. unfold assemble_value.
  pose proof (assemble_from_spec s Hs leaves) as Ha. split; intros Hl.
  - rewrite decide_True in Ha by lia. destruct Ha as (v & -> & Hf).
    rewrite drop_ge by lia. exists v. split; [done|].
    unfold flatten_leaves. rewrite Hf, take_ge by lia. done.
  - case_decide; [|destruct Ha as [e ->]; by eexists].
    destruct Ha as (v & -> & _). destruct (drop _ leaves) as [|x r] eqn:Hd; [|by eexists].
    apply (f_equal length) in Hd. rewrite length_drop in Hd. cbn in Hd. lia.
Qed.

(** ** Witnesses *)

(** Keys declared out of their order. *)
Definition walk_space : SpaceSpec :=
  let n := mkSpec [] Int64 (Some (KDiscrete {| discrete_n := 9; discrete_start := 0 |})) in
  mkSpec [] Unspecified (Some (KDict (mkDictSpec ["b"; "a"]
    [n; mkSpec [] Unspecified (Some (KTuple (mkTupleSpec [n; n])))]))).

Definition walk_value : SpaceValue :=
  VDict [("a", VTuple [VDiscrete 1; VDiscrete 2]); ("b", VDiscrete 3)].

Lemma flatten_assemble_witness :
  exists ls, flatten_leaves walk_space walk_value = Ok ls /\
    ls = [VDiscrete 3; VDiscrete 1; VDiscrete 2].
Proof.
  destruct (flatten_assemble (H := ieee_half) true walk_space walk_value) as (ls & Hl & _).
  - vm_compute. reflexivity.
  - apply wf_dict; [by apply btree_sortedb_spec|].
    apply Forall_cons_2; [|apply Forall_cons_2; [|apply Forall_nil_2]]; cbn [snd].
    + apply wf_tuple. repeat apply Forall_cons_2; [apply wf_discrete; compute_Z..|apply Forall_nil_2].
    + apply wf_discrete. compute_Z.
  - assert (Hd : forall k, 0 <= k < 9 -> fits (H := ieee_half) true
      (mkSpec [] Int64 (Some (KDiscrete {| discrete_n := 9; discrete_start := 0 |}))) (VDiscrete k))
      by (intros k Hk; eapply fits_discrete; [reflexivity|exact Hk]).
    eapply fits_dict; [reflexivity|..].
    + apply Forall2_cons_2; [eexists; split; [reflexivity|apply Hd; lia]|].
      apply Forall2_cons_2; [eexists; split; [reflexivity|]|constructor].
      eapply fits_tuple; [reflexivity|].
      apply Forall2_cons_2; [apply Hd; lia|]. apply Forall2_cons_2; [apply Hd; lia|constructor].
    + repeat apply Forall_cons_2; [right; left|left|constructor].
  - exists ls. split; [exact Hl|]. vm_compute in Hl. injection Hl as <-. reflexivity.
Defined.

Lemma assemble_flatten_witness :
  exists v, assemble_value walk_space [VDiscrete 3; VDiscrete 1; VDiscrete 2] = Ok v /\
    flatten_leaves walk_space v = Ok [VDiscrete 3; VDiscrete 1; VDiscrete 2].
Proof.
  apply (proj1 (assemble_flatten (H := ieee_half) walk_space
    [VDiscrete 3; VDiscrete 1; VDiscrete 2] ltac:(vm_compute; reflexivity))).
  vm_compute. reflexivity.
Defined.
