(* ===== verification/Sample.v ===== *)
(** * Sampling values from a space

    [rlmesh-spaces/src/sample.rs]: the sampler every language binding drives.  The
    generator of the [rand] crate is the class [Rng], its documented behaviour
    [RngLaws]; the natural logarithm is the class [Ln].  A sampler threads the
    generator's state and may fail or panic ([None]); memory exhaustion is a panic
    only where a vector of known size is allocated.  The theorems compose the
    sampler with the membership of [Spaces]. *)

From S2P Require Import Prelude Utf8 BTree Float FloatOps DType Scalar Tensor Types Fundamental BoxSpace BoxValue Spaces Walk.
From Stdlib Require Import SpecFloat QArith.
#[local] Open Scope string_scope.
#[local] Open Scope Z_scope.

(** ** The [rand] crate *)

(** The integer types drawn. *)
Inductive IntType : Type := TI64 | TU64 | TUsize.

(** [lo..hi] and [lo..=hi]. *)
Inductive IntRange : Type := HalfOpen (lo hi : Z) | Inclusive (lo hi : Z).

Definition drawn_from (r : IntRange) (z : Z) : Prop :=
  match r with HalfOpen lo hi => lo <= z < hi | Inclusive lo hi => lo <= z <= hi end.

Definition int_type_range (t : IntType) : Z * Z :=
  match t with TI64 => (i64_min, i64_max) | TU64 => (0, u64_max) | TUsize => (0, usize_max) end.

(** The two ends are values of the type, and some value lies between. *)
Definition drawable (t : IntType) (r : IntRange) : Prop :=
  let '(lo, hi) := int_type_range t in
  match r with
  | HalfOpen a b => lo <= a < b /\ b <= hi
  | Inclusive a b => lo <= a <= b /\ b <= hi
  end.

(** [random_range] over integers and over [low..=high] of floats, where [None] is
    its panic, [random::<f64>()] and [random::<bool>()]. *)
Class Rng (R : Type) : Type := {
  draw_int : IntType -> IntRange -> R -> option (Z * R);
  draw_f64 : f64 -> f64 -> R -> option (f64 * R);
  draw_unit : R -> f64 * R;
  draw_bool : R -> bool * R;
}.

(** [SeedableRng::seed_from_u64]. *)
Class Seedable (R : Type) : Type := seed_from_u64 : Z -> R.

(** The bits of a double. *)
Definition is_f64 (x : f64) : Prop := 0 <= f64_bits x < 2 ^ 64.

(** A range that is not empty gives one of its values; a float range gives one when
    its ends and its width are finite, and is refused when one of them is not. *)
Class RngLaws (R : Type) `{Rng R} : Prop := {
  draw_int_in t r st : drawable t r ->
    exists z st', draw_int t r st = Some (z, st') /\ drawn_from r z;
  draw_f64_in low high st :
    f64_is_finite low = true -> f64_is_finite high = true ->
    f64_is_finite (f64_sub high low) = true -> f64_le low high = true ->
    exists x st', draw_f64 low high st = Some (x, st') /\
      f64_le low x = true /\ f64_le x high = true /\ (is_f64 low -> is_f64 high -> is_f64 x);
  draw_f64_wide low high st :
    f64_is_finite (f64_sub high low) = false -> draw_f64 low high st = None;
}.

(** [f64::ln]. *)
Class Ln : Type := f64_ln : f64 -> f64.

(** ** The sampling monad *)

Definition Sampled (R A : Type) : Type := R -> option (result A SpaceError * R).

Section Monad.
Context {R : Type}.

Definition give {A} (a : A) : Sampled R A := fun st => Some (Ok a, st).
Definition decline {A} (m : message) : Sampled R A := fun st => Some (Err (Invalid "$" m), st).
(** A draw that may panic. *)
Definition draw {A} (d : R -> option (A * R)) : Sampled R A :=
  fun st => let! (a, st) := d st in Some (Ok a, st).
(** A step that draws nothing. *)
Definition still {A} (o : option (result A SpaceError)) : Sampled R A :=
  fun st => let! r := o in Some (r, st).
Definition sample_bind {A B} (m : Sampled R A) (k : A -> Sampled R B) : Sampled R B :=
  fun st =>
    let! (r, st) := m st in
    match r with Ok a => k a st | Err e => Some (Err e, st) end.

(** [map(..).collect::<Result<Vec<_>, _>>()]: stops at the first error. *)
Section Each.
Context {A B : Type} (f : A -> Sampled R B).

Fixpoint sample_each (l : list A) : Sampled R (list B) :=
  match l with
  | [] => give []
  | x :: l => sample_bind (f x) (fun y => sample_bind (sample_each l) (fun ys => give (y :: ys)))
  end.
End Each.
End Monad.

Declare Scope sample_scope.
Notation "'let#' x ':=' m 'in' k" := (sample_bind m (fun x => k))
  (at level 200, x name, m at level 100, k at level 200) : sample_scope.
#[local] Open Scope sample_scope.

(** ** Bounds *)

(** [vec![x; n]] of elements of [size] bytes. *)
Definition vec_fill {A} (size : Z) (x : A) (n : Z) : option (list A) :=
  let! _ := with_capacity (size * n) in Some (repeat x (Z.to_nat n)).

Section Bounds.
Context `{HalfOps}.

Definition is_integer_dtype (dtype : DType) : bool :=
  match dtype with
  | Uint8 | Int8 | Int16 | Int32 | Int64 | Uint16 | Uint32 | Uint64 => true
  | _ => false
  end.

Definition normalize_dtype (dtype : DType) : DType :=
  match dtype with Unspecified => Float32 | other => other end.

Definition sample_numel (shape : list Z) : option Z := usize_product 1 shape.

Definition decode_typed_one (bytes : list byte) (dtype : DType) : option (option f64) :=
  let! r := decode_scalars bytes dtype in
  Some match r with
       | Ok scalars => (fun s => to_f64 s dtype) <$> head scalars
       | Err _ => None
       end.

Definition decode_typed_many (bytes : list byte) (dtype : DType) (numel : Z) (default : f64)
    : option (list f64) :=
  let! r := decode_scalars bytes dtype in
  match r with
  | Ok scalars =>
      if Z.of_nat (length scalars) =? numel then Some ((fun s => to_f64 s dtype) <$> scalars)
      else vec_fill 8 default numel
  | Err _ => vec_fill 8 default numel
  end.

Definition elementwise_or_default (values : list f64) (len : Z) (default : f64)
    : option (list f64) :=
  if Z.of_nat (length values) =? len then Some values else vec_fill 8 default len.

(** A pair of vectors, the low one built first. *)
Definition both {A B} (low : option A) (high : option B) : option (A * B) :=
  let! low := low in let! high := high in Some (low, high).

Definition sample_box_bounds (sp : BoxSpec) (numel : Z) (dtype : DType)
    : option (list f64 * list f64) :=
  match bounds sp with
  | Some (Uniform b) =>
      both (vec_fill 8 (uniform_low b) numel) (vec_fill 8 (uniform_high b) numel)
  | Some (Elementwise b) =>
      both (elementwise_or_default (elementwise_low b) numel f64_neg_infinity)
           (elementwise_or_default (elementwise_high b) numel f64_infinity)
  | Some (TypedUniform b) =>
      let! low := decode_typed_one (typed_low b) dtype in
      let! high := decode_typed_one (typed_high b) dtype in
      both (vec_fill 8 (default f64_neg_infinity low) numel)
           (vec_fill 8 (default f64_infinity high) numel)
  | Some (TypedElementwise b) =>
      both (decode_typed_many (typed_elems_low b) dtype numel f64_neg_infinity)
           (decode_typed_many (typed_elems_high b) dtype numel f64_infinity)
  | Some (Unbounded _) | None =>
      both (vec_fill 8 f64_neg_infinity numel) (vec_fill 8 f64_infinity numel)
  end.

(** An open side is [None]. *)
Definition IntEdge : Type := option Z.

Definition scalar_to_int_edge (scalar : Scalar) (dtype : DType) : Z :=
  match scalar with
  | SInt _ => if decide (dtype = Uint64) then as_u64 scalar else as_i64 scalar
  | SFloat value => f64_as_int i128_min i128_max value
  | SBool _ => as_i64 scalar
  end.

Definition edge_low (low : f64) : IntEdge :=
  if f64_is_finite low then Some (f64_as_int i128_min i128_max (f64_ceil low)) else None.

Definition edge_high (high : f64) : IntEdge :=
  if f64_is_finite high then Some (f64_as_int i128_min i128_max (f64_floor high)) else None.

Definition float_edges (values : list f64) (numel : Z) (edge : f64 -> IntEdge)
    : option (list IntEdge) :=
  if Z.of_nat (length values) =? numel then Some (edge <$> values) else vec_fill 32 None numel.

Definition typed_one (bytes : list byte) (dtype : DType) : option IntEdge :=
  let! r := decode_scalars bytes dtype in
  Some match r with
       | Ok scalars => (fun s => scalar_to_int_edge s dtype) <$> head scalars
       | Err _ => None
       end.

Definition typed_many (bytes : list byte) (dtype : DType) (numel : Z) : option (list IntEdge) :=
  let! r := decode_scalars bytes dtype in
  match r with
  | Ok scalars =>
      if Z.of_nat (length scalars) =? numel
      then Some ((fun s => Some (scalar_to_int_edge s dtype)) <$> scalars)
      else vec_fill 32 None numel
  | Err _ => vec_fill 32 None numel
  end.

Definition integer_box_bounds (sp : BoxSpec) (numel : Z) (dtype : DType)
    : option (list IntEdge * list IntEdge) :=
  match bounds sp with
  | Some (Uniform b) =>
      both (vec_fill 32 (edge_low (uniform_low b)) numel)
           (vec_fill 32 (edge_high (uniform_high b)) numel)
  | Some (Elementwise b) =>
      both (float_edges (elementwise_low b) numel edge_low)
           (float_edges (elementwise_high b) numel edge_high)
  | Some (TypedUniform b) =>
      both (let! low := typed_one (typed_low b) dtype in vec_fill 32 low numel)
           (let! high := typed_one (typed_high b) dtype in vec_fill 32 high numel)
  | Some (TypedElementwise b) =>
      both (typed_many (typed_elems_low b) dtype numel) (typed_many (typed_elems_high b) dtype numel)
  | Some (Unbounded _) | None => both (vec_fill 32 None numel) (vec_fill 32 None numel)
  end.
End Bounds.

Definition integer_dtype_bounds (dtype : DType) : Z * Z :=
  match dtype with
  | Bool => (0, 1)
  | Uint8 => (0, 2 ^ 8 - 1)
  | Int8 => (- 2 ^ 7, 2 ^ 7 - 1)
  | Int16 => (- 2 ^ 15, 2 ^ 15 - 1)
  | Uint16 => (0, 2 ^ 16 - 1)
  | Int32 => (- 2 ^ 31, 2 ^ 31 - 1)
  | Uint32 => (0, 2 ^ 32 - 1)
  | Uint64 => (0, 2 ^ 53)
  | _ => (- 2 ^ 53, 2 ^ 53)
  end.

(** ** The sampler *)

Definition f64_one_value : f64 := f64_of_Z 1.
(** [f64::MIN_POSITIVE] and [std::f64::consts::PI]. *)
Definition f64_min_positive : f64 := F64 (2 ^ 52).
Definition f64_PI : f64 := F64 4614256656552045848.

(** The characters of [printable_ascii]. *)
Definition printable_ascii : list Z :=
  (fun c => Z.of_nat (Ascii.nat_of_ascii c)) <$>
    String.list_ascii_of_string "abcdefghijklmnopqrstuvwxyzABCDEFGHIJKLMNOPQRSTUVWXYZ0123456789 .,!?".

Section Sampler.
Context `{HalfOps} {libm : Libm} {ln : Ln} {R : Type} {rng : Rng R}.
(** Where the allocator places the sampled buffers. *)
Context (addr : Z).

Definition exp_sample : Sampled R f64 :=
  let# x := draw (fun st => Some (draw_unit st)) in
  let u := f64_max (f64_sub f64_one_value x) f64_min_positive in
  give (f64_neg (f64_ln u)).

Definition normal_sample : Sampled R f64 :=
  let# x := draw (fun st => Some (draw_unit st)) in
  let# u1 := still (Ok <$> f64_clamp x f64_min_positive f64_one_value) in
  let# u2 := draw (fun st => Some (draw_unit st)) in
  give (f64_mul (f64_sqrt (f64_mul (f64_of_Z (-2)) (f64_ln u1)))
                (f64_cos (f64_mul (f64_mul (f64_of_Z 2) f64_PI) u2))).

Definition sample_continuous (low high : f64) : Sampled R f64 :=
  if f64_is_finite low && f64_is_finite high then
    if f64_gt low high then
      decline (Msg "cannot sample Box element with low {low} greater than high {high}"
                 [AF64 (f64_bits low); AF64 (f64_bits high)])
    else draw (draw_f64 low high)
  else if f64_is_finite low then let# e := exp_sample in give (f64_add low e)
  else if f64_is_finite high then let# e := exp_sample in give (f64_sub high e)
  else normal_sample.

Definition sample_box_scalar (dtype : DType) (bound : f64 * f64) : Sampled R Scalar :=
  let# value := sample_continuous bound.1 bound.2 in
  if decide (dtype = Bool) then give (SBool (negb (f64_eqb (f64_round value) f64_zero)))
  else give (SFloat value).

Definition sample_integer_box_scalar (dtype : DType) (edges : IntEdge * IntEdge)
    : Sampled R Scalar :=
  let '(dtype_lo, dtype_hi) := integer_dtype_bounds dtype in
  let lo := default dtype_lo edges.1 in
  let hi := default dtype_hi edges.2 in
  if hi <? lo then
    decline (Msg "cannot sample integer Box element with low {lo} greater than high {hi}"
               [AZ lo; AZ hi])
  else if (i64_max <? hi) && (0 <=? lo) then
    let hi := default u64_max (checked 0 u64_max hi) in
    let lo := Z.min (default u64_max (checked 0 u64_max lo)) hi in
    let# x := draw (draw_int TU64 (Inclusive lo hi)) in give (SInt (wrap_s 64 x))
  else
    let lo := saturate i64_min i64_max lo in
    let hi := saturate i64_min i64_max hi in
    let# x := draw (draw_int TI64 (Inclusive lo hi)) in give (SInt x).

Definition sample_box (space : SpaceSpec) (sp : BoxSpec) : Sampled R Tensor :=
  let# numel := still (Ok <$> sample_numel (space_shape space)) in
  let# scalars :=
    (if is_integer_dtype (space_dtype space) then
       let# edges := still (Ok <$> integer_box_bounds sp (Z.max numel 1) (space_dtype space)) in
       sample_each (sample_integer_box_scalar (space_dtype space))
         (take (Z.to_nat numel) (zip edges.1 edges.2))
     else
       let# edges := still (Ok <$> sample_box_bounds sp (Z.max numel 1) (space_dtype space)) in
       sample_each (sample_box_scalar (space_dtype space))
         (take (Z.to_nat numel) (zip edges.1 edges.2))) in
  let dtype := normalize_dtype (space_dtype space) in
  let# bytes := still (map_err (fun e => Invalid "$" (scalar_error_message e)) <$>
                         encode_scalars scalars dtype) in
  still (map_err (fun e => Invalid "$" (tensor_error_message e)) <$>
           tensor_from_slice addr bytes (space_shape space) dtype).

Definition sample_multi_binary (space : SpaceSpec) : Sampled R (list bool) :=
  let# numel := still (Ok <$> sample_numel (space_shape space)) in
  let# _ := still (Ok <$> with_capacity numel) in
  sample_each (fun _ => draw (fun st => Some (draw_bool st))) (seq 0 (Z.to_nat numel)).

Definition sample_multi_discrete (sp : MultiDiscreteSpec) : Sampled R (list Z) :=
  sample_each (fun n =>
    if n <=? 0 then
      decline (lit "cannot sample MultiDiscrete space with a non-positive dimension")
    else draw (draw_int TI64 (HalfOpen 0 n))) (nvec sp).

Definition sample_text (sp : TextSpec) : Sampled R (list Z) :=
  let chars := match charset sp with [] => printable_ascii | chars => chars end in
  let# length' :=
    (if max_length sp <=? min_length sp then give (min_length sp)
     else draw (draw_int TI64 (Inclusive (min_length sp) (max_length sp)))) in
  sample_each (fun _ =>
    let# i := draw (draw_int TUsize (HalfOpen 0 (Z.of_nat (length chars)))) in
    still (Ok <$> chars !! Z.to_nat i)) (seq 0 (Z.to_nat length')).

Section Composite.
Context (sample_with : SpaceSpec -> Sampled R SpaceValue).

Fixpoint sample_entries (values : btree SpaceValue) (keys : list string) (spaces : list SpaceSpec)
    {struct spaces} : Sampled R (btree SpaceValue) :=
  match spaces, keys with
  | child :: spaces, key :: keys =>
      let# value := sample_with child in
      sample_entries (btree_insert key value values) keys spaces
  | _, _ => give values
  end.

Definition sample_dict (sp : DictSpec) : Sampled R SpaceValue :=
  let# values := sample_entries [] (keys sp) (dict_spaces sp) in give (VDict values).

Definition sample_tuple (sp : TupleSpec) : Sampled R SpaceValue :=
  let# values := sample_each sample_with (tuple_spaces sp) in give (VTuple values).
End Composite.

Fixpoint sample_with (space : SpaceSpec) {struct space} : Sampled R SpaceValue :=
  match space with
  | mkSpec _ _ None => decline (lit "space spec is missing")
  | mkSpec _ _ (Some (KBox sp)) => let# t := sample_box space sp in give (VBox t)
  | mkSpec _ _ (Some (KDiscrete d)) =>
      if discrete_n d <=? 0 then
        decline (Msg "cannot sample Discrete space with n={}" [AZ (discrete_n d)])
      else
        let# end' := still (Some (ok_or (checked_i64 (discrete_start d + (discrete_n d - 1)))
                              (Invalid "$" (lit "Discrete range exceeds i64::MAX")))) in
        let# v := draw (draw_int TI64 (Inclusive (discrete_start d) end')) in
        give (VDiscrete v)
  | mkSpec _ _ (Some (KMultiBinary _)) => let# v := sample_multi_binary space in give (VMultiBinary v)
  | mkSpec _ _ (Some (KMultiDiscrete sp)) =>
      let# v := sample_multi_discrete sp in give (VMultiDiscrete v)
  | mkSpec _ _ (Some (KText sp)) => let# v := sample_text sp in give (VText v)
  | mkSpec _ _ (Some (KDict sp)) => sample_dict sample_with sp
  | mkSpec _ _ (Some (KTuple sp)) => sample_tuple sample_with sp
  end.

(** The value and the state it leaves are those of a fresh stream. *)
Definition sample_seeded `{Seedable R} (space : SpaceSpec) (seed : Z)
    : option (result SpaceValue SpaceError) :=
  let! (r, _) := sample_with space (seed_from_u64 seed) in Some r.
End Sampler.

Section Equation.
Context `{HalfOps} {libm : Libm} {ln : Ln} {R : Type} {rng : Rng R}.

Lemma sample_with_eq addr s :
  sample_with addr s
  = match spec s with
    | None => decline (lit "space spec is missing")
    | Some (KBox sp) => let# t := sample_box addr s sp in give (VBox t)
    | Some (KDiscrete d) =>
        if discrete_n d <=? 0 then
          decline (Msg "cannot sample Discrete space with n={}" [AZ (discrete_n d)])
        else
          let# end' := still (Some (ok_or (checked_i64 (discrete_start d + (discrete_n d - 1)))
                                (Invalid "$" (lit "Discrete range exceeds i64::MAX")))) in
          let# v := draw (draw_int TI64 (Inclusive (discrete_start d) end')) in
          give (VDiscrete v)
    | Some (KMultiBinary _) => let# v := sample_multi_binary s in give (VMultiBinary v)
    | Some (KMultiDiscrete sp) => let# v := sample_multi_discrete sp in give (VMultiDiscrete v)
    | Some (KText sp) => let# v := sample_text sp in give (VText v)
    | Some (KDict sp) => sample_dict (sample_with addr) sp
    | Some (KTuple sp) => sample_tuple (sample_with addr) sp
    end.
Proof. by destruct s as [? ? [[]|]]. Qed.
End Equation.

(** ** Reasoning about samplers *)

(** From every state the sampler gives a value, and the value has the property. *)
Definition sampled {R A} (m : Sampled R A) (P : A -> Prop) : Prop :=
  forall st, exists a st', m st = Some (Ok a, st') /\ P a.

Section Sampled.
Context {R : Type}.

Lemma sampled_give {A} (a : A) (P : A -> Prop) : P a -> sampled (R := R) (give a) P.
Proof. intros Ha st. by exists a, st. Qed.

Lemma sampled_bind {A B} (m : Sampled R A) (k : A -> Sampled R B) Q P :
  sampled m Q -> (forall a, Q a -> sampled (k a) P) -> sampled (sample_bind m k) P.
Proof.
  intros Hm Hk st. destruct (Hm st) as (a & st' & Ha & Hq). unfold sample_bind. rewrite Ha.
  by apply Hk.
Qed.

Lemma sampled_still {A B} (o : option (result A SpaceError)) a (k : A -> Sampled R B) P :
  o = Some (Ok a) -> sampled (k a) P -> sampled (sample_bind (still o) k) P.
Proof. intros -> Hk st. apply Hk. Qed.

Lemma still_bind {A B} (o : option (result A SpaceError)) a (k : A -> Sampled R B) st :
  o = Some (Ok a) -> sample_bind (still o) k st = k a st.
Proof. by intros ->. Qed.

Lemma bind_panics {A B} (m : Sampled R A) (k : A -> Sampled R B) st :
  m st = None -> sample_bind m k st = None.
Proof. intros E. unfold sample_bind. by rewrite E. Qed.

Lemma sampled_draw {A} (d : R -> A * R) : sampled (draw (fun st => Some (d st))) (fun _ => True).
Proof. intros st. unfold draw. destruct (d st) as [a st']. by exists a, st'. Qed.

Lemma sampled_int `{RngLaws R} t r : drawable t r -> sampled (draw (draw_int t r)) (drawn_from r).
Proof.
  intros Hd st. destruct (draw_int_in t r st Hd) as (z & st' & Hz & Hr).
  exists z, st'. unfold draw. by rewrite Hz.
Qed.

Lemma sampled_impl {A} (m : Sampled R A) (P Q : A -> Prop) :
  sampled m P -> (forall a, P a -> Q a) -> sampled m Q.
Proof. intros Hm HPQ st. destruct (Hm st) as (a & st' & ? & ?). exists a, st'. auto. Qed.

Lemma sampled_each_for {A B C} (f : A -> Sampled R B) (Q : C -> B -> Prop) cs l :
  Forall2 (fun c x => sampled (f x) (Q c)) cs l -> sampled (sample_each f l) (Forall2 Q cs).
Proof.
  induction 1 as [|c x cs l Hx _ IH]; [by apply sampled_give|].
  eapply sampled_bind; [exact Hx|]. intros y Hy. eapply sampled_bind; [exact IH|].
  intros ys Hys. apply sampled_give. by constructor.
Qed.

Lemma sampled_each {A B} (f : A -> Sampled R B) (Q : A -> B -> Prop) l :
  Forall (fun x => sampled (f x) (Q x)) l -> sampled (sample_each f l) (Forall2 Q l).
Proof. intros Hl. by apply sampled_each_for, Forall_Forall2_diag. Qed.
End Sampled.

#[export] Hint Resolve sampled_give sampled_draw : rlmesh.

(** ** Spaces that can be sampled *)

(** A range of floats the generator draws from. *)
Definition f64_spans (low high : f64) : Prop :=
  f64_le low high = true /\ f64_is_finite (f64_sub high low) = true.

Definition low_edge (d : DType) (b : option Scalar) : IntEdge := (fun s => int_low (Some s) d) <$> b.
Definition high_edge (d : DType) (b : option Scalar) : IntEdge := (fun s => int_high (Some s) d) <$> b.

(** The elements the sampler draws members for: integers whose edges, an open one
    standing for the finite one of [integer_dtype_bounds], are values of the dtype in
    order; booleans that may be either; doubles between two finite bounds. *)
Definition elem_samplable (d : DType) (b : Bound) : Prop :=
  match d with
  | Bool =>
      within_bound d b (xint 0) /\ within_bound d b (xint 1) /\
      (forall l h, b = (Some l, Some h) -> f64_spans (to_f64 l d) (to_f64 h d))
  | Float64 =>
      exists l h, b = (Some (SFloat l), Some (SFloat h)) /\ is_f64 l /\ is_f64 h /\
        f64_is_finite l = true /\ f64_is_finite h = true /\ f64_spans l h
  | Float16 | Float32 | Unspecified => False
  | _ =>
      let lo := default (integer_dtype_bounds d).1 (low_edge d b.1) in
      let hi := default (integer_dtype_bounds d).2 (high_edge d b.2) in
      (elem_range d).1 <= lo <= hi /\ hi <= (elem_range d).2
  end.

Section Samplable.
Context `{HalfOps}.

(** The vectors of a sample can be allocated, and a Box's elements have members. *)
Definition node_samplable (s : SpaceSpec) : Prop :=
  match spec s with
  | Some (KBox _) =>
      32 * volume (space_shape s) <= isize_max /\
      forall bs, box_bounds_of s (space_dtype s) (volume (space_shape s)) = Some bs ->
        Forall (elem_samplable (space_dtype s)) bs
  | Some (KMultiBinary _) => volume (space_shape s) <= isize_max
  | Some (KText t) => Forall is_char (charset t) /\ 4 * Z.of_nat (length (charset t)) <= isize_max
  | _ => True
  end.

Definition samplable : SpaceSpec -> Prop := spec_all node_samplable.
End Samplable.

(** ** Bounds agree with the ones checks use *)

Lemma vec_fill_Some {A} size (x : A) n :
  size * n <= isize_max -> vec_fill size x n = Some (repeat x (Z.to_nat n)).
Proof. intros Hn. unfold vec_fill, with_capacity. by rewrite (proj2 (Z.leb_le _ _) Hn). Qed.

Lemma zip_repeat {A B} (x : A) (y : B) n : zip (repeat x n) (repeat y n) = repeat (x, y) n.
Proof. induction n; [done|]. cbn. by f_equal. Qed.

Lemma fmap_repeat {A B} (f : A -> B) x n : f <$> repeat x n = repeat (f x) n.
Proof. induction n; [done|]. cbn. by f_equal. Qed.

Lemma zip_fmap {A B C D} (f : A -> C) (g : B -> D) l k :
  zip (f <$> l) (g <$> k) = (fun p => (f p.1, g p.2)) <$> zip l k.
Proof. revert k; induction l as [|x l IH]; intros [|y k]; try done. cbn. f_equal. apply IH. Qed.

Section Agreement.
Context `{HalfOps}.

Lemma decode_typed_bounds_Ok bytes count d path vs :
  Reference.decode_typed_bounds bytes count d path = Some (Ok vs) ->
  decode_scalars bytes d = Some (Ok vs) /\ Z.of_nat (length vs) = count.
Proof.
  unfold Reference.decode_typed_bounds, decode_typed.
  destruct (decode_scalars bytes d) as [[l|]|]; cbn; try done.
  destruct (Z.eqb_spec (Z.of_nat (length l)) count); cbn [negb]; [|done]. by intros [= <-].
Qed.

Lemma decode_scalars_elems bytes d vs :
  decode_scalars bytes d = Some (Ok vs) ->
  Forall (fun v => exists bs, length bs = dtype_size d /\ decode_scalar bs d = Some v) vs.
Proof.
  unfold decode_scalars. case_decide as Hd; [done|]. case_match; [done|].
  destruct (mapM _ _) as [l|] eqn:E; [|done]. intros [= <-]. apply mapM_Some_1 in E.
  pose proof (chunks_exact_Forall (dtype_size d) bytes) as Hc. revert Hc.
  induction E as [|c v cs vs' Hv _ IH]; [constructor|]. intros [Hc Hcs]%Forall_cons.
  constructor; [by exists c|by apply IH].
Qed.

Lemma int_edge_exact d v :
  is_integer_dtype d = true ->
  (exists bs, length bs = dtype_size d /\ decode_scalar bs d = Some v) ->
  Some (scalar_to_int_edge v d) = low_edge d (Some v) /\
  Some (scalar_to_int_edge v d) = high_edge d (Some v).
Proof.
  intros Hi (bs & Hl & Hv).
  destruct (decode_elem_int d bs) as (v' & Hv' & Hf & _);
    [by destruct d|by destruct d|done|].
  assert (v' = v) as -> by congruence. unfold low_edge, high_edge. cbn [fmap option_fmap option_map].
  destruct v as [b|i|f]; [..|by destruct (Hf f)];
    cbn [int_low int_high scalar_to_int_edge]; unfold int_scalar; by case_decide.
Qed.

Lemma edge_finite d f :
  edge_low f = low_edge d (finite_float f) /\ edge_high f = high_edge d (finite_float f).
Proof.
  unfold edge_low, edge_high, finite_float. destruct (f64_is_finite f) eqn:Hf; [|done].
  unfold low_edge, high_edge. cbn. by rewrite finite_not_nan.
Qed.

(** One pair of edges for each pair of bounds. *)
Definition edges_of (d : DType) (b : Bound) : IntEdge * IntEdge :=
  (low_edge d b.1, high_edge d b.2).

Lemma zip_edges d (ls hs : list Scalar) :
  is_integer_dtype d = true ->
  Forall (fun v => exists bs, length bs = dtype_size d /\ decode_scalar bs d = Some v) ls ->
  Forall (fun v => exists bs, length bs = dtype_size d /\ decode_scalar bs d = Some v) hs ->
  zip ((fun s => Some (scalar_to_int_edge s d)) <$> ls) ((fun s => Some (scalar_to_int_edge s d)) <$> hs)
  = edges_of d <$> ((fun '(lo, hi) => (Some lo, Some hi)) <$> zip ls hs).
Proof.
  intros Hi Hls. revert hs. induction Hls as [|l ls Hl _ IH]; intros hs; [done|].
  intros [|h hs' Hh Hhs]; [done|]. cbn. f_equal; [|by apply IH].
  unfold edges_of. cbn [fst snd]. f_equal; by apply int_edge_exact.
Qed.

Lemma integer_bounds_agree s b n bs :
  spec s = Some (KBox b) -> is_integer_dtype (space_dtype s) = true ->
  32 * n <= isize_max -> box_bounds_of s (space_dtype s) n = Some bs ->
  exists lows highs, integer_box_bounds b n (space_dtype s) = Some (lows, highs) /\
    zip lows highs = edges_of (space_dtype s) <$> bs.
Proof.
  intros Hs Hi Hn Hb. apply (box_bounds_of_Some _ _ _ "$") in Hb. revert Hb.
  unfold Reference.box_bounds, integer_box_bounds. rewrite Hs.
  set (d := space_dtype s) in *. destruct (bounds b) as [[?|u|e|u|e]|].
  all: try (intros [= <-]; rewrite !vec_fill_Some by done; do 2 eexists; split; [done|];
            rewrite zip_repeat, fmap_repeat; f_equal; unfold edges_of; cbn [fst snd];
            by rewrite <- ?(proj1 (edge_finite d _)), <- ?(proj2 (edge_finite d _))).
  - unfold float_edges.
    destruct (_ =? n), (_ =? n); cbn [negb orb]; try done. intros [= <-].
    do 2 eexists. split; [done|]. rewrite zip_fmap, <- list_fmap_compose.
    apply list_fmap_ext. intros i [x y] _. unfold edges_of. cbn. f_equal; apply edge_finite.
  - destruct (Reference.decode_typed_bounds (typed_low u) _ _ _) as [[ls|]|] eqn:El; try done.
    destruct (Reference.decode_typed_bounds (typed_high u) _ _ _) as [[hs|]|] eqn:Eh; try done.
    apply decode_typed_bounds_Ok in El as [El Hl], Eh as [Eh Hh].
    destruct ls as [|l []], hs as [|h []]; cbn in Hl, Hh; try lia. intros [= <-].
    unfold typed_one. rewrite El, Eh. cbn. rewrite !vec_fill_Some by done.
    do 2 eexists. split; [done|]. rewrite zip_repeat, fmap_repeat. f_equal. unfold edges_of. cbn [fst snd].
    apply decode_scalars_elems, Forall_inv in El, Eh. f_equal; by apply int_edge_exact.
  - destruct (Reference.decode_typed_bounds (typed_elems_low e) _ _ _) as [[ls|]|] eqn:El; try done.
    destruct (Reference.decode_typed_bounds (typed_elems_high e) _ _ _) as [[hs|]|] eqn:Eh; try done.
    apply decode_typed_bounds_Ok in El as [El Hl], Eh as [Eh Hh]. intros [= <-].
    unfold typed_many. rewrite El, Eh. cbn. rewrite Hl, Hh, Z.eqb_refl. do 2 eexists. split; [done|].
    apply zip_edges; [done|by eapply decode_scalars_elems..].
Qed.

(** A float bound the sampler uses: the number of the bound, or no finite one when
    the side is open. *)
Definition side_of (d : DType) (b : option Scalar) (f : f64) : Prop :=
  match b with Some s => f = to_f64 s d | None => f64_is_finite f = false end.

Definition sides_of (d : DType) (b : Bound) (p : f64 * f64) : Prop :=
  side_of d b.1 p.1 /\ side_of d b.2 p.2.

Lemma side_of_finite d f : side_of d (finite_float f) f.
Proof. unfold finite_float. by destruct (f64_is_finite f) eqn:E. Qed.

Lemma Forall2_repeat {A B} (P : A -> B -> Prop) x y n :
  P x y -> Forall2 P (repeat x n) (repeat y n).
Proof. intros Hp. induction n; by constructor. Qed.

Lemma float_bounds_agree s b n bs :
  spec s = Some (KBox b) -> 8 * n <= isize_max ->
  box_bounds_of s (space_dtype s) n = Some bs ->
  exists lows highs, sample_box_bounds b n (space_dtype s) = Some (lows, highs) /\
    Forall2 (sides_of (space_dtype s)) bs (zip lows highs).
Proof.
  intros Hs Hn Hb. apply (box_bounds_of_Some _ _ _ "$") in Hb. revert Hb.
  unfold Reference.box_bounds, sample_box_bounds. rewrite Hs.
  set (d := space_dtype s) in *. destruct (bounds b) as [[?|u|e|u|e]|].
  all: try (intros [= <-]; rewrite !vec_fill_Some by done; do 2 eexists; split; [done|];
            rewrite zip_repeat; apply Forall2_repeat; split; (done || apply side_of_finite)).
  - unfold elementwise_or_default.
    destruct (_ =? n), (_ =? n); cbn [negb orb]; try done. intros [= <-].
    do 2 eexists. split; [done|]. apply Forall2_fmap_l, Forall_Forall2_diag, Forall_true.
    intros [x y]. split; apply side_of_finite.
  - destruct (Reference.decode_typed_bounds (typed_low u) _ _ _) as [[ls|]|] eqn:El; try done.
    destruct (Reference.decode_typed_bounds (typed_high u) _ _ _) as [[hs|]|] eqn:Eh; try done.
    apply decode_typed_bounds_Ok in El as [El Hl], Eh as [Eh Hh].
    destruct ls as [|l []], hs as [|h []]; cbn in Hl, Hh; try lia. intros [= <-].
    unfold decode_typed_one. rewrite El, Eh. cbn. rewrite !vec_fill_Some by done.
    do 2 eexists. split; [done|]. rewrite zip_repeat. by apply Forall2_repeat.
  - destruct (Reference.decode_typed_bounds (typed_elems_low e) _ _ _) as [[ls|]|] eqn:El; try done.
    destruct (Reference.decode_typed_bounds (typed_elems_high e) _ _ _) as [[hs|]|] eqn:Eh; try done.
    apply decode_typed_bounds_Ok in El as [El Hl], Eh as [Eh Hh]. intros [= <-].
    unfold decode_typed_many. rewrite El, Eh. cbn. rewrite Hl, Hh, Z.eqb_refl. do 2 eexists.
    split; [done|]. rewrite zip_fmap. apply Forall2_fmap, Forall_Forall2_diag, Forall_true.
    by intros [].
Qed.
End Agreement.

(** ** Elements *)

Section Elements.
Context `{HalfOps} {libm : Libm} {ln : Ln} {R : Type} {rng : Rng R} {laws : RngLaws R}.

Lemma exp_sample_total : sampled (R := R) exp_sample (fun _ => True).
Proof. unfold exp_sample. eapply sampled_bind; eauto with rlmesh. Qed.

Lemma clamp_ordered : f64_le f64_min_positive f64_one_value = true.
Proof. by vm_compute. Qed.

Lemma normal_sample_total : sampled (R := R) normal_sample (fun _ => True).
Proof.
  unfold normal_sample. eapply sampled_bind; [apply sampled_draw|]. intros x _.
  eapply sampled_still; [unfold f64_clamp; by rewrite clamp_ordered|].
  eapply sampled_bind; eauto with rlmesh.
Qed.

Lemma f64_le_gt x y : f64_le x y = true -> f64_gt x y = false.
Proof. unfold f64_le, f64_gt. by destruct (f64_cmp x y) as [[]|]. Qed.

(** A range that spans gives a double of it; any other range with an end that is
    not finite gives some double. *)
Lemma sample_continuous_within low high :
  f64_is_finite low = true -> f64_is_finite high = true -> f64_spans low high ->
  sampled (R := R) (sample_continuous low high) (fun x =>
    f64_le low x = true /\ f64_le x high = true /\ (is_f64 low -> is_f64 high -> is_f64 x)).
Proof.
  intros Hl Hh [Hle Hw] st. unfold sample_continuous. rewrite Hl, Hh. cbn [andb].
  rewrite f64_le_gt by done. destruct (draw_f64_in low high st Hl Hh Hw Hle) as (x & st' & Hx & ?).
  exists x, st'. unfold draw. by rewrite Hx.
Qed.

Lemma sample_continuous_total low high :
  (f64_is_finite low = true -> f64_is_finite high = true -> f64_spans low high) ->
  sampled (R := R) (sample_continuous low high) (fun _ => True).
Proof.
  intros Hs. destruct (f64_is_finite low) eqn:Hl, (f64_is_finite high) eqn:Hh.
  { eapply sampled_impl; [by apply sample_continuous_within; auto|done]. }
  all: unfold sample_continuous; rewrite Hl, Hh; cbn [andb].
  1,2: eapply sampled_bind; [apply exp_sample_total|eauto with rlmesh].
  apply normal_sample_total.
Qed.

Lemma f64_le_real x y a b :
  f64_le x y = true -> f64_real x = Some a -> f64_real y = Some b -> xreal_compare a b <> Gt.
Proof.
  unfold f64_le. rewrite f64_cmp_exact. intros Hle Hx Hy. rewrite Hx, Hy in Hle. cbn in Hle. by destruct (xreal_compare a b).
Qed.

Lemma f64_le_number x y : f64_le x y = true -> is_Some (f64_real x) /\ is_Some (f64_real y).
Proof.
  unfold f64_le. rewrite f64_cmp_exact.
  by destruct (f64_real x), (f64_real y).
Qed.

Definition good_element (d : DType) (b : Bound) (v : Scalar) : Prop :=
  storable d v /\ elem_fits true d b v.

Lemma float_element d b p :
  is_integer_dtype d = false -> elem_samplable d b -> sides_of d b p ->
  sampled (R := R) (sample_box_scalar d p) (good_element d b).
Proof.
  intros Hi He [Hl Hh]. unfold sample_box_scalar. destruct d; try done; cbn [elem_samplable] in He.
  - destruct He as (H0 & H1 & Hs). eapply sampled_bind.
    { apply sample_continuous_total. intros Fl Fh. destruct b as [[l|] [h|]]; cbn in Hl, Hh; try congruence.
      rewrite Hl, Hh. by apply Hs. }
    intros x _. rewrite decide_True by done. apply sampled_give. split; [done|].
    eexists. split; [done|]. intros _. by destruct (negb _).
  - destruct He as (l & h & -> & Bl & Bh & Fl & Fh & Hs). cbn in Hl, Hh. rewrite Hl, Hh.
    eapply sampled_bind; [by apply sample_continuous_within|]. intros x (Hlx & Hxh & Hx).
    rewrite decide_False by done. apply sampled_give. split; [by apply Hx|].
    destruct (f64_le_number _ _ Hlx) as [_ [r Hr]]. exists r. split; [done|]. intros _.
    split; cbn; intros ? y [= <-] Hy;
      [exact (f64_le_real _ _ _ _ Hlx Hy Hr)|exact (f64_le_real _ _ _ _ Hxh Hr Hy)].
Qed.

(** An integer of the dtype between the edges is a member. *)
Lemma int_element_good d b z :
  is_integer_dtype d = true ->
  (elem_range d).1 <= z <= (elem_range d).2 ->
  (forall e, low_edge d b.1 = Some e -> e <= z) ->
  (forall e, high_edge d b.2 = Some e -> z <= e) ->
  good_element d b (SInt (if decide (d = Uint64) then wrap_s 64 z else z)).
Proof.
  intros Hi Hz Hlo Hhi. set (v := SInt _).
  assert (Hv : scalar_real d v = Some (xint z)).
  { subst v. cbn [scalar_real]. unfold scalar_int. case_decide as Hu; [|done].
    subst d. rewrite wrap_u_wrap_s by lia. rewrite wrap_u_id; [done|]. cbn in Hz. lia. }
  assert (Hb : - 2 ^ 64 < z < 2 ^ 64).
  { pose proof (elem_range_small d ltac:(by destruct d)). lia. }
  split.
  - subst v. case_decide as Hu.
    + subst d. cbn. pose proof (wrap_s_range 64 z ltac:(lia)). unfold_ints. lia.
    + destruct d; try done; cbn in *; unfold_ints; lia.
  - apply class_in. unfold scalar_class. change (scalar_is_nan v) with false. cbn [negb].
    rewrite <- (int_low_spec d v z Hv Hb), <- (int_high_spec d v z Hv Hb).
    rewrite (proj2 (Z.ltb_ge _ _)), (proj2 (Z.ltb_ge _ _)); [done|..].
    + destruct b as [? [h|]]; [by apply Hhi|]. cbn. unfold_ints. lia.
    + destruct b as [[l|] ?]; [by apply Hlo|]. cbn. unfold_ints. lia.
Qed.

Lemma int_element d b :
  is_integer_dtype d = true -> elem_samplable d b ->
  sampled (R := R) (sample_integer_box_scalar d (edges_of d b)) (good_element d b).
Proof.
  intros Hi He. unfold sample_integer_box_scalar, edges_of. cbn [fst snd].
  assert (He' : let lo := default (integer_dtype_bounds d).1 (low_edge d b.1) in
     let hi := default (integer_dtype_bounds d).2 (high_edge d b.2) in
     (elem_range d).1 <= lo <= hi /\ hi <= (elem_range d).2) by (by destruct d).
  destruct (integer_dtype_bounds d) as [dlo dhi]. cbn [fst snd] in He'. clear He.
  set (lo := default dlo _) in *. set (hi := default dhi _) in *. destruct He' as [Hlo Hhi].
  assert (Hgood : forall z, lo <= z <= hi ->
    good_element d b (SInt (if decide (d = Uint64) then wrap_s 64 z else z))).
  { intros z Hz. apply int_element_good; [done|lia| |]; intros e Hedge; subst lo hi; rewrite Hedge in *;
      cbn in *; lia. }
  pose proof (elem_range_small d ltac:(by destruct d)) as Hsmall.
  rewrite (proj2 (Z.ltb_ge hi lo)) by lia.
  destruct (Z.ltb_spec i64_max hi) as [Hbig|Hbig]; cbn [andb].
  - assert (d = Uint64) as -> by (destruct d; try done; cbn in Hhi; unfold_ints; lia).
    cbn in Hlo, Hhi. rewrite (proj2 (Z.leb_le 0 lo)) by lia.
    rewrite !checked_in by (unfold_ints; lia). cbn [default from_option id]. rewrite Z.min_l by lia.
    eapply sampled_bind; [apply sampled_int; cbn; unfold_ints; lia|].
    intros z Hz. apply sampled_give. by apply Hgood.
  - assert (Hmin : i64_min <= lo) by (destruct d; try done; cbn in Hlo; unfold_ints; lia).
    assert (saturate i64_min i64_max lo = lo /\ saturate i64_min i64_max hi = hi) as [-> ->]
      by (unfold saturate; lia).
    eapply sampled_bind; [apply sampled_int; cbn; lia|].
    intros z Hz. apply sampled_give. specialize (Hgood z Hz). cbn in Hz.
    case_decide; [|done]. rewrite wrap_s_id in Hgood; [done|unfold_ints; lia..].
Qed.
End Elements.

(** ** Leaves *)

(** [Tensor::from_slice] on bytes of the right length. *)
Lemma from_slice_fresh addr (data : list byte) ds d :
  d <> Unspecified -> dims_ok ds -> usize_product 1 ds = Some (volume ds) ->
  Z.of_nat (length data) = volume ds * Z.of_nat (dtype_size d) ->
  Z.of_nat (length data) + 63 <= isize_max ->
  exists t, tensor_from_slice addr data ds d = Some (Ok t) /\ shape t = ds /\ dtype t = d /\
    tensor_wf t data /\ logical_bytes t data = data.
Proof.
  intros Hd Hds Hu Hl Hcap.
  destruct (aligned_with_spec addr data Hcap) as (b & Hal & Hsl & _).
  destruct (fresh_tensor_spec (Aligned b) d ds data) as (Hs & W & Hb); try done; [lia|].
  exists (mkTensor (Aligned b) d ds None 0). split_and!; try done.
  unfold tensor_from_slice, checked_nbytes, checked_numel. rewrite decide_False by done.
  rewrite (proj2 (checked_numel_spec ds 1 (volume ds) (dims_ok_i64s ds Hds)) (conj Hds Hu)).
  cbn [ok_or]. unfold checked_usize. rewrite checked_in by (unfold_ints; lia). cbn [ok_or].
  rewrite <- Hl, Z.eqb_refl. cbn [negb]. unfold Storage.from_slice. by rewrite Hal.
Qed.

(** What a valid Box node has, beside its bounds. *)
Lemma valid_box_shape `{HalfOps} s b :
  spec s = Some (KBox b) -> Forall is_i64 (space_shape s) ->
  validate_box_at s "$" = Some (Ok tt) ->
  space_dtype s <> Unspecified /\ dims_ok (space_shape s) /\ 0 < volume (space_shape s) /\
  usize_product 1 (space_shape s) = Some (volume (space_shape s)).
Proof.
  intros Hs Hi Hv. unfold validate_box_at in Hv.
  destruct (space_shape s) as [|d0 ds] eqn:Hsh; [done|]. rewrite <- Hsh in *.
  case_bool_decide as Hd; [done|].
  destruct (try_for_each _ _ _) as [[]|] eqn:Hp in Hv; [|done]. apply try_for_each_if in Hp.
  rewrite Hs in Hv. destruct (usize_product 1 (space_shape s)) as [n|] eqn:Hn; cbn [ok_or] in Hv; [|done].
  assert (Hdims : dims_ok (space_shape s)).
  { apply Forall_and. split; [eapply Forall_impl; [exact Hp|]; cbn; intros; lia|].
    eapply Forall_impl; [exact Hi|]. cbn. unfold is_i64. intros; lia. }
  pose proof Hn as Hn'. apply usize_product_spec in Hn'; [|done]. rewrite Z.mul_1_l in Hn'. subst n.
  split_and!; try done. clear -Hp. induction Hp as [|d l Hd _ IH]; cbn [volume]; nia.
Qed.

Section Leaves.
Context `{HL : HalfLaws} {libm : Libm} {ln : Ln} {R : Type} {rng : Rng R} {laws : RngLaws R}.
Context (addr : Z).

(** The value is a member, and one checks can be run on. *)
Definition good_value (s : SpaceSpec) (v : SpaceValue) : Prop := fits true s v /\ value_wf v.

Lemma take_all {A} (l : list A) n : length l = n -> take n l = l.
Proof. intros <-. apply take_ge. lia. Qed.

(** The elements drawn for a Box. *)
Lemma sample_elements s b bs :
  spec s = Some (KBox b) -> 0 < volume (space_shape s) ->
  32 * volume (space_shape s) <= isize_max ->
  box_bounds_of s (space_dtype s) (volume (space_shape s)) = Some bs ->
  Z.of_nat (length bs) = volume (space_shape s) ->
  Forall (elem_samplable (space_dtype s)) bs ->
  let n := volume (space_shape s) in
  sampled (R := R)
    (if is_integer_dtype (space_dtype s) then
       let# edges := still (Ok <$> integer_box_bounds b (Z.max n 1) (space_dtype s)) in
       sample_each (sample_integer_box_scalar (space_dtype s)) (take (Z.to_nat n) (zip edges.1 edges.2))
     else
       let# edges := still (Ok <$> sample_box_bounds b (Z.max n 1) (space_dtype s)) in
       sample_each (sample_box_scalar (space_dtype s)) (take (Z.to_nat n) (zip edges.1 edges.2)))
    (Forall2 (good_element (space_dtype s)) bs).
Proof.
  intros Hs Hp Hcap Hbs Hlen He n. rewrite Z.max_l by (subst n; lia).
  destruct (is_integer_dtype (space_dtype s)) eqn:Hi.
  - destruct (integer_bounds_agree s b n bs) as (lows & highs & Hb & Hz); try done.
    eapply sampled_still; [by rewrite Hb|]. cbn [fst snd].
    rewrite Hz, take_all by (rewrite length_fmap; lia).
    apply sampled_each_for, Forall2_fmap_r, Forall_Forall2_diag. eapply Forall_impl; [exact He|].
    intros x Hx. by apply int_element.
  - destruct (float_bounds_agree s b n bs) as (lows & highs & Hb & Hz); try done; [lia|].
    eapply sampled_still; [by rewrite Hb|]. cbn [fst snd].
    rewrite take_all by (rewrite <- (Forall2_length _ _ _ Hz); lia).
    apply sampled_each_for, Forall2_same_length_lookup. split; [by eapply Forall2_length|].
    intros i x p Hx Hp'. apply float_element; [done|by eapply Forall_lookup|].
    by eapply Forall2_lookup_lr.
Qed.

Lemma sample_box_good s b :
  spec s = Some (KBox b) -> node_valid s -> node_typed s -> node_samplable s ->
  sampled (R := R) (sample_box addr s b) (fun t => good_value s (VBox t)).
Proof.
  unfold node_valid, node_typed, node_samplable. intros Hs. rewrite Hs, validate_space_at_eq.
  unfold space_type. rewrite Hs. intros Hv [Hi _] [Hcap He].
  destruct (valid_box_shape s b Hs Hi Hv) as (Hd & Hds & Hp & Hu).
  destruct (validate_box_bounds s b Hs Hi Hv) as (bs & Hbs & Hlen & _).
  unfold sample_box, sample_numel. eapply sampled_still; [by rewrite Hu|].
  eapply sampled_bind; [exact (sample_elements s b bs Hs Hp Hcap Hbs Hlen (He bs Hbs))|]. intros vs Hvs.
  assert (normalize_dtype (space_dtype s) = space_dtype s) as -> by (by destruct (space_dtype s)).
  destruct (decode_encode_scalars (space_dtype s) vs Hd) as (bytes & Henc & Hbl & Hdec).
  { apply Forall_lookup. intros i v Hv'. destruct (Forall2_lookup_r _ _ _ _ _ Hvs Hv') as (? & _ & Hg).
    apply Hg. }
  eapply sampled_still; [by rewrite Henc|]. rewrite <- (Forall2_length _ _ _ Hvs) in Hbl.
  assert (Hsz : (dtype_size (space_dtype s) <= 8)%nat) by (destruct (space_dtype s); cbn; lia).
  destruct (from_slice_fresh addr bytes (space_shape s) (space_dtype s)) as (t & Ht & Hsh & Hdt & W & Hb);
    try done; [lia|unfold_ints; nia|].
  intros st. exists t, st. unfold still. rewrite Ht. split; [done|]. split.
  - eapply fits_box; rewrite ?Hdt, ?Hsh, ?Hb; try done.
    eapply Forall2_impl; [exact Hvs|]. by intros ? ? [].
  - apply (wf_box t bytes W). unfold materialisable, itemsize.
    rewrite Hsh, Hdt, extent_volume by done. unfold_ints. nia.
Qed.

Lemma sample_discrete_good s d :
  spec s = Some (KDiscrete d) -> node_valid s -> node_typed s ->
  sampled (R := R) (sample_with addr s) (good_value s).
Proof.
  unfold node_valid, node_typed. intros Hs. rewrite Hs, validate_space_at_eq, sample_with_eq.
  unfold space_type. rewrite Hs. intros [= Hv] (_ & Hn & Hst).
  apply (validate_discrete_Ok s d _ Hs) in Hv as (_ & _ & Hpos & Hend & _).
  unfold is_i64 in *. rewrite (proj2 (Z.leb_gt _ _)) by done.
  eapply sampled_still; [unfold checked_i64; by rewrite checked_in|].
  eapply sampled_bind; [apply sampled_int; cbn; unfold_ints; lia|]. cbn. intros v Hv.
  apply sampled_give. split; [eapply fits_discrete; [done|]|apply wf_discrete];
    unfold discrete_member, is_i64; lia.
Qed.

Lemma sample_multibinary_good s m :
  spec s = Some (KMultiBinary m) -> node_valid s -> node_typed s -> node_samplable s ->
  sampled (R := R) (sample_with addr s) (good_value s).
Proof.
  unfold node_valid, node_typed, node_samplable. intros Hs.
  rewrite Hs, validate_space_at_eq, sample_with_eq. unfold space_type. rewrite Hs.
  intros [= Hv] [Hi _] Hcap. apply (validate_multibinary_Ok s m _ Hs) in Hv as (_ & _ & Hp).
  assert (Hds : dims_ok (space_shape s)).
  { apply Forall_and. split; [eapply Forall_impl; [exact Hp|]; cbn; intros; lia|].
    eapply Forall_impl; [exact Hi|]. unfold is_i64. cbn. intros; lia. }
  assert (Hpos : 0 < volume (space_shape s)).
  { clear -Hp. induction Hp as [|d l Hd _ IH]; cbn [volume]; nia. }
  assert (Hu : usize_product 1 (space_shape s) = Some (volume (space_shape s))).
  { rewrite usize_product_total; [by rewrite Z.mul_1_l|done|lia|].
    rewrite extent_volume by done. unfold_ints. lia. }
  unfold sample_multi_binary, sample_numel. eapply sampled_bind.
  { eapply sampled_still; [by rewrite Hu|]. eapply sampled_still.
    { unfold with_capacity. by rewrite (proj2 (Z.leb_le _ _) Hcap). }
    apply (sampled_each _ (fun _ _ => True)), Forall_true. intros _. apply sampled_draw. }
  intros vals Hvals. apply Forall2_length in Hvals. rewrite length_seq in Hvals.
  apply sampled_give. split; [|apply wf_multibinary]. eapply fits_multibinary; [done|].
  rewrite Hu, <- Hvals. f_equal. lia.
Qed.

Lemma sample_multidiscrete_good s m :
  spec s = Some (KMultiDiscrete m) -> node_valid s -> node_typed s ->
  sampled (R := R) (sample_with addr s) (good_value s).
Proof.
  unfold node_valid, node_typed. intros Hs. rewrite Hs, validate_space_at_eq, sample_with_eq.
  unfold space_type. rewrite Hs. intros [= Hv] (_ & Hn & Hlen).
  apply (validate_multidiscrete_Ok s m _ Hs) in Hv as (_ & _ & _ & _ & Hpos & _);
    [|unfold_ints; lia].
  eapply sampled_bind with (Q := Forall2 (fun n v => 0 <= v < n) (nvec m)).
  { apply sampled_each, Forall_forall. intros n Hin.
    rewrite Forall_forall in Hn, Hpos. specialize (Hn n Hin). destruct (Hpos n Hin) as [Hp _].
    unfold is_i64 in Hn. rewrite (proj2 (Z.leb_gt _ _)) by done.
    apply sampled_int. cbn. unfold_ints. lia. }
  intros vals Hvals. apply sampled_give. split.
  - eapply fits_multidiscrete; [done|]. by apply Forall2_flip.
  - apply wf_multidiscrete. apply Forall_lookup. intros i v Hv.
    destruct (Forall2_lookup_r _ _ _ _ _ Hvals Hv) as (n & Hi & Hr).
    pose proof (Forall_lookup_1 _ _ _ _ Hn Hi). unfold is_i64 in *. unfold_ints. lia.
Qed.

Lemma printable_chars :
  Forall is_char printable_ascii /\ 0 < Z.of_nat (length printable_ascii) <= usize_max.
Proof.
  split; [|by vm_compute]. apply Forall_forall. intros c Hc.
  assert (Hb : forallb (within 0 127) printable_ascii = true) by (by vm_compute).
  rewrite forallb_forall in Hb. apply list_elem_of_In, Hb, within_spec in Hc. left. lia.
Qed.

Lemma sample_text_good s t :
  spec s = Some (KText t) -> node_valid s -> node_typed s -> node_samplable s ->
  sampled (R := R) (sample_with addr s) (good_value s).
Proof.
  unfold node_valid, node_typed, node_samplable. intros Hs.
  rewrite Hs, validate_space_at_eq, sample_with_eq. unfold space_type. rewrite Hs.
  intros [= Hv] (_ & Hmin & Hmax) [Hc Hcap]. apply (validate_text_Ok s t _ Hs) in Hv as (_ & _ & Hle).
  unfold is_i64 in *. unfold sample_text.
  set (chars := match charset t with [] => _ | _ => _ end).
  assert (Hchars : Forall is_char chars /\ 0 < Z.of_nat (length chars) <= usize_max /\
    (charset t = [] \/ chars = charset t)).
  { subst chars. destruct (charset t) eqn:E; [destruct printable_chars; by split_and!; auto|].
    split_and!; auto; cbn in *; unfold_ints; lia. }
  destruct Hchars as (Hok & Hne & Hin).
  eapply sampled_bind with (Q := fun text => min_length t <= Z.of_nat (length text) <= max_length t /\
                                            Forall (fun c => c ∈ chars) text).
  - eapply sampled_bind with (Q := fun n => min_length t <= n <= max_length t).
    { destruct (Z.leb_spec (max_length t) (min_length t)); [apply sampled_give; lia|].
      apply sampled_int. cbn. unfold_ints. lia. }
    intros n Hn. eapply sampled_impl.
    { apply (sampled_each _ (fun _ c => c ∈ chars)), Forall_true. intros _.
      eapply sampled_bind; [apply sampled_int; cbn; lia|].
      cbn. intros i Hi st. destruct (lookup_lt_is_Some_2 chars (Z.to_nat i)) as [c Hci]; [lia|].
      exists c, st. unfold still. rewrite Hci. split; [done|]. by eapply list_elem_of_lookup_2. }
    intros text Ht. pose proof (Forall2_length _ _ _ Ht) as Hl. rewrite length_seq in Hl.
    split; [lia|]. apply Forall_lookup. intros i c Hci.
    by destruct (Forall2_lookup_r _ _ _ _ _ Ht Hci) as (? & _ & ?).
  - intros text (Hlen & Hall). apply sampled_give. split.
    + eapply fits_text; [done|]. intros _. split; [done|]. unfold chars_ok.
      destruct Hin as [?|E]; [by left|right]. by rewrite <- E.
    + apply wf_text. eapply Forall_impl; [exact Hall|]. intros c Hc'.
      exact (proj1 (Forall_forall _ _) Hok _ Hc').
Qed.

(** ** Whole spaces *)

Lemma sample_entries_good values ks spaces :
  length ks = length spaces ->
  Forall (fun c => sampled (R := R) (sample_with addr c) (good_value c)) spaces ->
  sampled (R := R) (sample_entries (sample_with addr) values ks spaces) (fun m =>
    exists vs, Forall2 good_value spaces vs /\ m = insert_all values ks vs).
Proof.
  intros Hl Hc. revert values ks Hl.
  induction Hc as [|c spaces Hc _ IH]; intros values [|k ks] Hl; try done.
  { apply sampled_give. by exists []. }
  cbn [sample_entries]. eapply sampled_bind; [exact Hc|]. intros v Hv.
  eapply sampled_impl; [apply IH; by injection Hl|]. intros m (vs & Hvs & ->).
  exists (v :: vs). split; [by constructor|done].
Qed.

(** Every entry of a map built from distinct keys holds the value of its key. *)
Lemma insert_all_entry ks vs k v :
  NoDup ks -> length ks = length vs -> (k, v) ∈ insert_all [] ks vs ->
  exists i, ks !! i = Some k /\ vs !! i = Some v.
Proof.
  intros Hn Hl Hin. apply btree_get_elem in Hin; [|by apply insert_all_sorted; constructor].
  destruct (decide (k ∈ ks)) as [[i Hi]%list_elem_of_lookup|Hk].
  - exists i. split; [done|].
    destruct (Forall2_lookup_l _ _ _ _ _ (insert_all_get [] ks vs Hn Hl) Hi) as (v' & Hv' & Hg). congruence.
  - by rewrite insert_all_other in Hin.
Qed.

Lemma dict_good s d vs :
  spec s = Some (KDict d) -> NoDup (keys d) -> length (keys d) = length (dict_spaces d) ->
  Forall2 good_value (dict_spaces d) vs -> good_value s (VDict (insert_all [] (keys d) vs)).
Proof.
  intros Hs Hn Hl Hvs. pose proof (Forall2_length _ _ _ Hvs) as Hlv.
  assert (Hlk : length (keys d) = length vs) by congruence.
  pose proof (insert_all_get [] _ _ Hn Hlk) as Hget. split.
  - eapply fits_dict; [done| |].
    + apply Forall2_same_length_lookup. split; [done|]. intros i k c Hk Hc.
      destruct (Forall2_lookup_l _ _ _ _ _ Hvs Hc) as (v & Hv & [Hf _]). exists v.
      split; [exact (Forall2_lookup_lr _ _ _ _ _ _ Hget Hk Hv)|done].
    + apply Forall_fmap, Forall_forall. intros [k v] Hin.
      apply insert_all_entry in Hin as (i & Hk & _); [|done..]. by eapply list_elem_of_lookup_2.
  - apply wf_dict; [by apply insert_all_sorted; constructor|]. apply Forall_forall. intros [k v] Hin.
    apply insert_all_entry in Hin as (i & _ & Hv); [|done..].
    by destruct (Forall2_lookup_r _ _ _ _ _ Hvs Hv) as (c & _ & _ & ?).
Qed.

Lemma sample_with_good s :
  valid s -> typed s -> samplable s -> sampled (R := R) (sample_with addr s) (good_value s).
Proof.
  induction s as [s IH] using SpaceSpec_ind'. intros Hv Ht Hsa.
  inversion Hv as [? Hnv Hcv]; inversion Ht as [? Hnt Hct]; inversion Hsa as [? Hns Hcs]; subst.
  assert (IH' : Forall (fun c => sampled (R := R) (sample_with addr c) (good_value c)) (children s)).
  { apply Forall_forall. intros c Hin. rewrite Forall_forall in IH, Hcv, Hct, Hcs.
    exact (IH c Hin (Hcv c Hin) (Hct c Hin) (Hcs c Hin)). }
  clear IH Hv Ht Hsa Hcv Hct Hcs. unfold children in IH'.
  destruct (spec s) as [[b|d|m|m|t|d|t]|] eqn:Hs.
  - rewrite sample_with_eq, Hs. eapply sampled_bind; [by apply sample_box_good|]. intros v Hv.
    by apply sampled_give.
  - by eapply sample_discrete_good.
  - by eapply sample_multibinary_good.
  - by eapply sample_multidiscrete_good.
  - by eapply sample_text_good.
  - rewrite sample_with_eq, Hs. unfold node_valid in Hnv. rewrite Hs in Hnv.
    destruct Hnv as (_ & _ & Hl & _ & Hn).
    eapply sampled_bind; [by apply sample_entries_good|]. intros m (vs & Hvs & ->).
    apply sampled_give. by apply dict_good.
  - rewrite sample_with_eq, Hs. eapply sampled_bind; [by apply sampled_each|]. intros vs Hvs.
    apply sampled_give. split.
    + eapply fits_tuple; [done|]. eapply Forall2_impl; [exact Hvs|]. by intros ? ? [].
    + apply wf_tuple, Forall_lookup. intros i v Hv.
      by destruct (Forall2_lookup_r _ _ _ _ _ Hvs Hv) as (c & _ & _ & ?).
  - by unfold node_valid in Hnv; rewrite Hs in Hnv.
Qed.

End Leaves.

(** ** A generator *)

(** A counter: integers in turn, the two ends of a float range alternately. *)
#[local] Instance counter : Rng Z := {|
  draw_int _ r st :=
    match r with
    | HalfOpen lo hi => if lo <? hi then Some (lo + st mod (hi - lo), st + 1) else None
    | Inclusive lo hi => if lo <=? hi then Some (lo + st mod (hi - lo + 1), st + 1) else None
    end;
  draw_f64 low high st :=
    if f64_is_finite (f64_sub high low) then Some (if Z.even st then low else high, st + 1) else None;
  draw_unit st := (f64_zero, st + 1);
  draw_bool st := (Z.even st, st + 1);
|}.

#[local] Instance counter_seed : Seedable Z := fun seed => seed.

Lemma f64_le_refl x y : f64_le x y = true -> f64_le x x = true /\ f64_le y y = true.
Proof.
  unfold f64_le, f64_cmp. intros Hle.
  assert (is_Some (SFcompare (sf64 x) (sf64 y))) as [Hx Hy]%sf_compare_Some
    by (by destruct (SFcompare _ _) as [[]|]).
  by rewrite !sf_compare_refl.
Qed.

#[local] Instance counter_laws : RngLaws Z.
Proof.
  split.
  - intros t [a b|a b] st Hd; unfold drawable in Hd; cbn [draw_int counter drawn_from].
    + destruct (int_type_range t). rewrite (proj2 (Z.ltb_lt a b)) by lia.
      do 2 eexists. split; [done|]. pose proof (Z.mod_pos_bound st (b - a)). lia.
    + destruct (int_type_range t). rewrite (proj2 (Z.leb_le a b)) by lia.
      do 2 eexists. split; [done|]. pose proof (Z.mod_pos_bound st (b - a + 1)). lia.
  - intros low high st _ _ Hw Hle. cbn [draw_f64 counter]. rewrite Hw.
    do 2 eexists. split; [done|]. destruct (f64_le_refl _ _ Hle). by destruct (Z.even st).
  - intros low high st Hw. cbn [draw_f64 counter]. by rewrite Hw.
Qed.

(** The logarithm is drawn from only for an open side. *)
#[local] Instance no_ln : Ln := fun x => x.
#[local] Instance sample_libm : Libm :=
  {| f64_sin x := x; f64_cos x := x; f64_atan2 x _ := x; f64_hypot x _ := x |}.

Lemma bytes_box_samplable : samplable bytes_box.
Proof.
  constructor; [|apply Forall_nil_2]. split; [vm_compute; discriminate|]. intros bs Hb.
  assert (Some bs = Some (repeat (Some (SFloat (f64_of_Z 0)), Some (SFloat (f64_of_Z 5))) 6)) as [= ->].
  { rewrite <- Hb. by vm_compute. }
  repeat apply Forall_cons_2; [..|apply Forall_nil_2]; repeat split; vm_compute; discriminate.
Qed.


(** ** Where sampling leaves the space *)

Definition unit_box (d : DType) (low high : f64) : SpaceSpec :=
  mkSpec [1] d (Some (KBox {| bounds := Some (Uniform
    {| uniform_low := low; uniform_high := high |}) |})).

(** The sample of a valid space is refused by the space's own check. *)
Definition sample_escapes (s : SpaceSpec) (st : Z) : bool :=
  match validate_space s, sample_with 0 s st with
  | Some (Ok tt), Some (Ok v, _) =>
      match conform s v with Some (Range _) => true | _ => false end
  | _, _ => false
  end.

(** A draw is rounded to the dtype without a clamp: the one value of the box
    [[0.1, 0.1]] of [Float32] rounds above its high bound. *)
Lemma sample_rounds_out_of_float32_box :
  sample_escapes (unit_box Float32 (f64_ratio 1 10) (f64_ratio 1 10)) 0 = true.
Proof. by vm_compute. Qed.

(** An edge outside the dtype is not clamped to it: [Uint8] in [[-5, 10]] is a valid
    box, whose members are the bytes up to 10, and [-5] is drawn and stored as 251. *)
Lemma sample_wraps_out_of_uint8_box :
  sample_escapes (unit_box Uint8 (f64_of_Z (-5)) (f64_of_Z 10)) 0 = true.
Proof. by vm_compute. Qed.

(** The element count of a [MultiBinary] shape may overflow although the spec is
    valid; sampling then panics. *)
Lemma sample_multibinary_overflows :
  validate_space (mkSpec [2 ^ 32; 2 ^ 32] Uint8 (Some (KMultiBinary mkMultiBinary))) = Some (Ok tt) /\
  sample_with 0 (mkSpec [2 ^ 32; 2 ^ 32] Uint8 (Some (KMultiBinary mkMultiBinary))) 0 = None.
Proof. by vm_compute. Qed.

Lemma sample_unit_box_panics `{RngLaws R} {libm : Libm} {ln : Ln} addr low high (st : R) :
  sample_continuous low high st = None -> sample_with addr (unit_box Float64 low high) st = None.
Proof.
  intros E. rewrite sample_with_eq. cbn [spec unit_box]. apply bind_panics. unfold sample_box.
  rewrite (still_bind _ 1) by reflexivity. apply bind_panics. cbn [is_integer_dtype space_dtype unit_box].
  rewrite (still_bind _ ([low], [high])) by reflexivity. cbn [fst snd].
  apply bind_panics. apply bind_panics. exact E.
Qed.

(** Finite bounds whose distance is not: the spec is valid, and sampling panics from
    every state of every generator that refuses such a range. *)
Lemma sample_wide_box_panics `{RngLaws R} {libm : Libm} {ln : Ln} (addr : Z) (st : R) :
  let s := unit_box Float64 (f64_neg (f64_pow2 1023)) (f64_pow2 1023) in
  validate_space s = Some (Ok tt) /\ sample_with addr s st = None.
Proof.
  cbn zeta. split; [by vm_compute|]. apply sample_unit_box_panics.
  assert (Hf : f64_is_finite (f64_neg (f64_pow2 1023)) && f64_is_finite (f64_pow2 1023) = true)
    by (by vm_compute).
  assert (Hg : f64_gt (f64_neg (f64_pow2 1023)) (f64_pow2 1023) = false) by (by vm_compute).
  unfold sample_continuous, draw. rewrite Hf, Hg, draw_f64_wide; [done|by vm_compute].
Qed.
