(* ===== verification/Builders.v ===== *)
(** * Space builders

    The builders of [spaces/fundamental/] and [spaces/composite/]: one module
    per builder, its record with the setters and [build].  Every builder ends
    in [validate_space], so what is built is valid. *)

From S2P Require Import Prelude BTree Float DType Scalar Tensor Types Fundamental BoxSpace BoxValue Spaces.
#[local] Open Scope string_scope.
#[local] Open Scope Z_scope.

(** [validate_space(&spec)?; Ok(spec)]. *)
Definition validated `{HalfOps} (s : SpaceSpec) : option (result SpaceSpec SpaceError) :=
  let!? _ := validate_space s in Some (Ok s).

Module TextBuilder.
Record t : Type := mk { min_length : Z; max_length : Z; charset : list Z }.

Definition new (max_length : Z) : t := mk 1 max_length [].
Definition with_min_length (b : t) (min_length : Z) : t := mk min_length (max_length b) (charset b).
Definition with_max_length (b : t) (max_length : Z) : t := mk (min_length b) max_length (charset b).
Definition with_charset (b : t) (charset : list Z) : t := mk (min_length b) (max_length b) charset.

Definition make_text_at `{HalfOps} (min_length max_length : Z) (charset : list Z)
    : option (result SpaceSpec SpaceError) :=
  validated (mkSpec [] Uint8 (Some (KText
    {| Types.min_length := min_length; Types.max_length := max_length; Types.charset := charset |}))).

Definition build `{HalfOps} (b : t) : option (result SpaceSpec SpaceError) :=
  make_text_at (min_length b) (max_length b) (charset b).
End TextBuilder.

Module MultiBinaryBuilder.
Record t : Type := mk { shape : list Z; dtype : DType }.

Definition scalar (n : Z) : t := mk [n] Uint8.
Definition of_shape (shape : list Z) : t := mk shape Uint8.
Definition with_dtype (b : t) (dtype : DType) : t := mk (shape b) dtype.

Definition build `{HalfOps} (b : t) : option (result SpaceSpec SpaceError) :=
  validated (mkSpec (shape b) (dtype b) (Some (KMultiBinary mkMultiBinary))).
End MultiBinaryBuilder.

Module DiscreteBuilder.
Record t : Type := mk { n : Z; start : Z; dtype : DType }.

Definition new (n : Z) : t := mk n 0 Int64.
Definition with_start (b : t) (start : Z) : t := mk (n b) start (dtype b).
Definition with_dtype (b : t) (dtype : DType) : t := mk (n b) (start b) dtype.

Definition make_discrete_at `{HalfOps} (n start : Z) (dtype : DType)
    : option (result SpaceSpec SpaceError) :=
  validated (mkSpec [] dtype (Some (KDiscrete {| discrete_n := n; discrete_start := start |}))).

Definition build `{HalfOps} (b : t) : option (result SpaceSpec SpaceError) :=
  make_discrete_at (n b) (start b) (dtype b).
End DiscreteBuilder.

Module MultiDiscreteBuilder.
Record t : Type := mk {
  dtype : DType;
  shape : list Z;
  nvec : list Z;
  (** A construction error kept for [build]. *)
  error : option SpaceError;
}.

Definition vector (nvec : list Z) : t := mk Int64 [wrap_s 64 (Z.of_nat (length nvec))] nvec None.

(** The first row whose length is not [c]. *)
Fixpoint ragged_row (c : nat) (i : nat) (rows : list (list Z)) : option (nat * nat) :=
  match rows with
  | [] => None
  | row :: rows =>
      if negb (Nat.eqb (length row) c) then Some (i, length row) else ragged_row c (S i) rows
  end.

Definition matrix (rows : list (list Z)) : t :=
  let r := length rows in
  let c := match rows with [] => 0%nat | row :: _ => length row end in
  let error :=
    match ragged_row c 0 rows with
    | Some (i, len) =>
        Some (Invalid "MultiDiscrete"
          (Msg "matrix rows must be rectangular: row {i} has {} columns, expected {c}"
             [ANat i; ANat len; ANat c]))
    | None => None
    end in
  mk Int64 [wrap_s 64 (Z.of_nat r); wrap_s 64 (Z.of_nat c)] (concat rows) error.

Definition with_dtype (b : t) (dtype : DType) : t := mk dtype (shape b) (nvec b) (error b).

Definition build `{HalfOps} (b : t) : option (result SpaceSpec SpaceError) :=
  match error b with
  | Some error => Some (Err error)
  | None =>
      validated (mkSpec (shape b) (dtype b) (Some (KMultiDiscrete {| Types.nvec := nvec b |})))
  end.
End MultiDiscreteBuilder.

Module BoxSpaceBuilder.
Record t : Type := mk { shape : list Z; dtype : DType; bounds : PendingBounds }.

Definition unbounded (shape : list Z) : t := mk shape Float32 (Ready (Unbounded true)).
Definition scalar (low high : f64) (shape : list Z) : t :=
  mk shape Float32 (Ready (Uniform {| uniform_low := low; uniform_high := high |})).
Definition tensor (low high : list f64) (shape : list Z) : t :=
  mk shape Float32 (Ready (Elementwise {| elementwise_low := low; elementwise_high := high |})).
Definition int_scalar (low high : Z) (shape : list Z) : t := mk shape Int64 (IntUniform low high).
Definition int_tensor (low high : list Z) (shape : list Z) : t := mk shape Int64 (IntTensor low high).
Definition uint_scalar (low high : Z) (shape : list Z) : t := mk shape Uint64 (UintUniform low high).
Definition uint_tensor (low high : list Z) (shape : list Z) : t :=
  mk shape Uint64 (UintTensor low high).
Definition with_dtype (b : t) (dtype : DType) : t := mk (shape b) dtype (bounds b).

Definition build `{HalfOps} (b : t) : option (result SpaceSpec SpaceError) :=
  let!? bs :=
    match bounds b with
    | Ready bounds => Some (Ok bounds)
    | IntUniform low high =>
        let!? low := encode_int_bound [low] (dtype b) in
        let!? high := encode_int_bound [high] (dtype b) in
        Some (Ok (TypedUniform {| typed_low := low; typed_high := high |}))
    | IntTensor low high =>
        let!? low := encode_int_bound low (dtype b) in
        let!? high := encode_int_bound high (dtype b) in
        Some (Ok (TypedElementwise {| typed_elems_low := low; typed_elems_high := high |}))
    | UintUniform low high =>
        let!? low := encode_uint_bound [low] (dtype b) in
        let!? high := encode_uint_bound [high] (dtype b) in
        Some (Ok (TypedUniform {| typed_low := low; typed_high := high |}))
    | UintTensor low high =>
        let!? low := encode_uint_bound low (dtype b) in
        let!? high := encode_uint_bound high (dtype b) in
        Some (Ok (TypedElementwise {| typed_elems_low := low; typed_elems_high := high |}))
    end in
  validated (mkSpec (shape b) (dtype b) (Some (KBox {| Types.bounds := Some bs |}))).
End BoxSpaceBuilder.

Module TupleSpaceBuilder.
Record t : Type := mk { spaces : list SpaceSpec }.

Definition new : t := mk [].
Definition with_space (b : t) (space : SpaceSpec) : t := mk (spaces b ++ [space]).
Definition extend (b : t) (more : list SpaceSpec) : t := mk (spaces b ++ more).

Definition make_tuple_space `{HalfOps} (spaces : list SpaceSpec)
    : option (result SpaceSpec SpaceError) :=
  validated (mkSpec [] Unspecified (Some (KTuple (mkTupleSpec spaces)))).

Definition build `{HalfOps} (b : t) : option (result SpaceSpec SpaceError) :=
  make_tuple_space (spaces b).
End TupleSpaceBuilder.

Module DictSpaceBuilder.
Record t : Type := mk { entries : btree SpaceSpec }.

Definition new : t := mk [].
Definition insert (b : t) (key : string) (space : SpaceSpec) : t :=
  mk (btree_insert key space (entries b)).
Definition extend (b : t) (more : list (string * SpaceSpec)) : t :=
  mk (fold_left (fun m '(k, v) => btree_insert k v m) more (entries b)).

Definition make_dict_space `{HalfOps} (keys : list string) (spaces : list SpaceSpec)
    : option (result SpaceSpec SpaceError) :=
  validated (mkSpec [] Unspecified (Some (KDict (mkDictSpec keys spaces)))).

Definition build `{HalfOps} (b : t) : option (result SpaceSpec SpaceError) :=
  make_dict_space (entries b).*1 (entries b).*2.
End DictSpaceBuilder.

(** ** Building always answers *)

Section Builders.
Context `{HalfOps}.

(** An answer that is either an error or a valid spec. *)
Definition builds_valid (r : option (result SpaceSpec SpaceError)) : Prop :=
  exists x, r = Some x /\ forall s, x = Ok s -> validate_space s = Some (Ok tt).

Lemma validated_Ok s s' :
  validated s = Some (Ok s') <-> s' = s /\ validate_space s = Some (Ok tt).
Proof.
  unfold validated. destruct (validate_space s) as [[[]|]|]; naive_solver.
Qed.

Lemma validated_valid s : builds_valid (validated s).
Proof.
  unfold builds_valid, validated. destruct (validate_space_at_total s "$") as [r Hr].
  unfold validate_space. rewrite Hr. destruct r as [[]|e]; (eexists; split; [done|]); [|done].
  intros s' [= <-]. by rewrite Hr.
Qed.

Lemma encode_int_bound_total values d : is_Some (encode_int_bound values d).
Proof.
  unfold encode_int_bound. destruct (try_for_each _ _ _); [|by eexists].
  rewrite encode_i64_scalars_eq.
  destruct (encode_scalars_no_panic (SInt <$> values) d) as [r ->]. by eexists.
Qed.

Lemma encode_uint_bound_total values d : is_Some (encode_uint_bound values d).
Proof.
  unfold encode_uint_bound. destruct (try_for_each _ _ _); [|by eexists].
  rewrite encode_i64_scalars_eq.
  destruct (encode_scalars_no_panic (SInt <$> (wrap_s 64 <$> values)) d) as [r ->].
  destruct (encode_scalars_no_panic ((fun v => SFloat (f64_of_Z v)) <$> values) d) as [r' ->].
  destruct d; by eexists.
Qed.

Lemma box_build_valid b : builds_valid (BoxSpaceBuilder.build b).
Proof.
  unfold BoxSpaceBuilder.build.
  destruct (BoxSpaceBuilder.bounds b) as [bs|low high|low high|low high|low high].
  - apply validated_valid.
  - destruct (encode_int_bound_total [low] (BoxSpaceBuilder.dtype b)) as [[|] ->]; [|by eexists].
    destruct (encode_int_bound_total [high] (BoxSpaceBuilder.dtype b)) as [[|] ->]; [|by eexists].
    apply validated_valid.
  - destruct (encode_int_bound_total low (BoxSpaceBuilder.dtype b)) as [[|] ->]; [|by eexists].
    destruct (encode_int_bound_total high (BoxSpaceBuilder.dtype b)) as [[|] ->]; [|by eexists].
    apply validated_valid.
  - destruct (encode_uint_bound_total [low] (BoxSpaceBuilder.dtype b)) as [[|] ->]; [|by eexists].
    destruct (encode_uint_bound_total [high] (BoxSpaceBuilder.dtype b)) as [[|] ->]; [|by eexists].
    apply validated_valid.
  - destruct (encode_uint_bound_total low (BoxSpaceBuilder.dtype b)) as [[|] ->]; [|by eexists].
    destruct (encode_uint_bound_total high (BoxSpaceBuilder.dtype b)) as [[|] ->]; [|by eexists].
    apply validated_valid.
Qed.

(** Every builder answers, on any parameters, with an error or with a spec
    that validates. *)
Theorem builders_valid :
  (forall b, builds_valid (TextBuilder.build b)) /\
  (forall b, builds_valid (MultiBinaryBuilder.build b)) /\
  (forall b, builds_valid (DiscreteBuilder.build b)) /\
  (forall b, builds_valid (MultiDiscreteBuilder.build b)) /\
  (forall b, builds_valid (BoxSpaceBuilder.build b)) /\
  (forall b, builds_valid (TupleSpaceBuilder.build b)) /\
  (forall b, builds_valid (DictSpaceBuilder.build b)).
Proof.
  split_and!; intros b; try apply validated_valid; [|apply box_build_valid].
  unfold MultiDiscreteBuilder.build. destruct (MultiDiscreteBuilder.error b); [by eexists|].
  apply validated_valid.
Qed.

(** ** Matrices *)

Lemma ragged_row_None c i rows :
  MultiDiscreteBuilder.ragged_row c i rows = None <-> Forall (fun row => length row = c) rows.
Proof.
  revert i; induction rows as [|row rows IH]; intros i; cbn; [split; [constructor|done]|].
  rewrite Forall_cons. destruct (Nat.eqb_spec (length row) c); cbn; [rewrite IH|]; naive_solver.
Qed.

Definition columns (rows : list (list Z)) : nat :=
  match rows with [] => 0%nat | row :: _ => length row end.

Lemma length_concat_rows c (rows : list (list Z)) :
  Forall (fun row => length row = c) rows -> length (concat rows) = (length rows * c)%nat.
Proof. intros Hr. induction Hr; cbn; [done|]. rewrite length_app. lia. Qed.

(** A matrix of counts builds exactly when it is rectangular, has an entry
    and all its entries are positive; the space has the matrix's shape and its
    entries in row-major order, so no ragged input is read as another
    rectangle. *)
Theorem matrix_build_exact (rows : list (list Z)) (s : SpaceSpec) :
  Forall (Forall is_i64) rows ->
  Z.of_nat (length rows) <= isize_max -> Z.of_nat (columns rows) <= isize_max ->
  Z.of_nat (length (concat rows)) <= isize_max ->
  MultiDiscreteBuilder.build (MultiDiscreteBuilder.matrix rows) = Some (Ok s) <->
  Forall (fun row => length row = columns rows) rows /\ concat rows <> [] /\
  Forall (Forall (fun n => 0 < n)) rows /\
  s = mkSpec [Z.of_nat (length rows); Z.of_nat (columns rows)] Int64
        (Some (KMultiDiscrete {| nvec := concat rows |})).
Proof.
  intros Hi Hr Hc Hl. unfold MultiDiscreteBuilder.build. cbn [MultiDiscreteBuilder.matrix
    MultiDiscreteBuilder.error MultiDiscreteBuilder.shape MultiDiscreteBuilder.dtype
    MultiDiscreteBuilder.nvec]. fold (columns rows). unfold_ints.
  rewrite !wrap_s_id by lia.
  destruct (MultiDiscreteBuilder.ragged_row (columns rows) 0 rows) as [[i len]|] eqn:Hrag.
  { split; [done|]. intros (Hf & _). by apply (ragged_row_None _ 0) in Hf; rewrite Hf in Hrag. }
  apply ragged_row_None in Hrag. rewrite validated_Ok.
  set (s' := mkSpec _ Int64 _).
  assert (Hv : validate_space s' = Some (Ok tt) <-> concat rows <> [] /\
                 Forall (Forall (fun n => 0 < n)) rows).
  2: { rewrite Hv. split; [intros (-> & ? & ?); done|]. by intros (_ & ? & ? & ->). }
  unfold validate_space. rewrite validate_space_at_eq. unfold space_type. cbn [spec s'].
  transitivity (validate_multidiscrete_at s' "$" = Ok tt).
  { split; [by intros [= ->]|by intros ->]. }
  rewrite (validate_multidiscrete_Ok s' {| nvec := concat rows |}) by (done || (unfold_ints; cbn; lia)).
  cbn [space_shape space_dtype s' nvec volume]. rewrite (length_concat_rows _ _ Hrag) in *.
  rewrite !Forall_cons, <- Forall_concat. split.
  - intros (_ & _ & _ & Hn & Hp & _). split; [done|]. eapply Forall_impl; [exact Hp|]. naive_solver.
  - intros [Hn Hp]. assert (length (concat rows) <> 0%nat) as Hz by (by destruct (concat rows)).
    rewrite (length_concat_rows _ _ Hrag) in Hz. split_and!; try done; [nia|nia| |lia].
    apply Forall_concat in Hi. apply Forall_and. split; [done|].
    clear - Hi Hp. induction Hi; [constructor|]. apply Forall_cons in Hp as [? ?]. constructor; [|auto].
    unfold is_i64, fits_dtype in *. cbn. unfold_ints. lia.
Qed.
End Builders.

(** ** Integer boxes *)

Section IntBoxes.
Context `{HalfLaws}.

(** A box with uniform typed bounds that decode to the numbers [low] and [high]. *)
Lemma typed_uniform_bounds d shape lb hb l h low high :
  decode_scalars lb d = Some (Ok [l]) -> decode_scalars hb d = Some (Ok [h]) ->
  scalar_real d l = Some (xint low) -> scalar_real d h = Some (xint high) ->
  let s := mkSpec shape d (Some (KBox {| bounds :=
             Some (TypedUniform {| typed_low := lb; typed_high := hb |}) |})) in
  exists bs, box_bounds_of s d (volume shape) = Some bs /\
    length bs = Z.to_nat (volume shape) /\
    Forall (fun b => forall z, within_bound d b (xint z) <-> low <= z <= high) bs.
Proof.
  intros Hlb Hhb Hl Hh s. unfold box_bounds_of, Reference.box_bounds. cbn [spec s bounds].
  unfold Reference.decode_typed_bounds, decode_typed. cbn [typed_low typed_high].
  rewrite Hlb, Hhb. cbn. eexists. split; [done|]. rewrite repeat_length. split; [done|].
  apply Forall_repeat. intros z. by apply within_ints.
Qed.

Lemma fits_dtype_real d v : is_integer d = true -> fits_dtype d v -> scalar_real d (SInt v) = Some (xint v).
Proof.
  intros Hi Hf. cbn [scalar_real]. unfold scalar_int. case_decide as Hd; [|done]. subst d.
  cbn in Hf. rewrite wrap_u_id; [done|]. unfold_ints. lia.
Qed.

(** A box built with a pair of integer bounds, signed or unsigned, on an
    integer dtype admits at every element exactly the integers between them, to
    the ends of the [i64] and [u64] ranges. *)
Theorem int_box_admits (d : DType) (low high : Z) (shape : list Z) (signed : bool) (s : SpaceSpec) :
  is_integer d = true -> (signed = false -> 0 <= low <= u64_max /\ 0 <= high <= u64_max) ->
  BoxSpaceBuilder.build (BoxSpaceBuilder.with_dtype
    (if signed then BoxSpaceBuilder.int_scalar low high shape
     else BoxSpaceBuilder.uint_scalar low high shape) d) = Some (Ok s) ->
  exists bs, box_bounds_of s d (volume shape) = Some bs /\
    length bs = Z.to_nat (volume shape) /\
    Forall (fun b => forall z, within_bound d b (xint z) <-> low <= z <= high) bs.
Proof.
  intros Hi Hu Hb. destruct signed; unfold BoxSpaceBuilder.build in Hb;
    cbn [BoxSpaceBuilder.with_dtype BoxSpaceBuilder.int_scalar BoxSpaceBuilder.uint_scalar
      BoxSpaceBuilder.bounds BoxSpaceBuilder.dtype BoxSpaceBuilder.shape] in Hb.
  - destruct (encode_int_bound [low] d) as [[lb|]|] eqn:Hlb; try done.
    destruct (encode_int_bound [high] d) as [[hb|]|] eqn:Hhb; try done.
    apply validated_Ok in Hb as [-> _].
    apply (encode_int_bound_exact d) in Hlb as [Hlb Hfl]; [|done].
    apply (encode_int_bound_exact d) in Hhb as [Hhb Hfh]; [|done].
    apply Forall_inv in Hfl, Hfh.
    eapply typed_uniform_bounds; [exact Hlb|exact Hhb|by apply fits_dtype_real..].
  - destruct (encode_uint_bound [low] d) as [[lb|]|] eqn:Hlb; try done.
    destruct (encode_uint_bound [high] d) as [[hb|]|] eqn:Hhb; try done.
    apply validated_Ok in Hb as [-> _]. destruct (Hu eq_refl) as [Hl Hh].
    destruct (encode_uint_bound_exact d [low] lb Hi ltac:(by apply Forall_singleton) Hlb)
      as (ls & Hdl & Hfl).
    destruct (encode_uint_bound_exact d [high] hb Hi ltac:(by apply Forall_singleton) Hhb)
      as (hs & Hdh & Hfh).
    apply Forall2_cons_inv_r in Hfl as (l & ? & Hl' & ->%Forall2_nil_inv_r & ->).
    apply Forall2_cons_inv_r in Hfh as (h & ? & Hh' & ->%Forall2_nil_inv_r & ->).
    by eapply typed_uniform_bounds.
Qed.
End IntBoxes.

(** ** Dicts *)

Section Dicts.
Context `{HalfOps}.

(** The space given last for a key. *)
Definition last_given (more : list (string * SpaceSpec)) (k : string) : option SpaceSpec :=
  fold_left (fun (acc : option SpaceSpec) '(k', c) => if String.eqb k k' then Some c else acc) more None.

Lemma extend_get more m k :
  btree_get k (fold_left (fun m '(k, v) => btree_insert k v m) more m)
  = fold_left (fun (acc : option SpaceSpec) '(k', c) => if String.eqb k k' then Some c else acc) more (btree_get k m).
Proof.
  revert m; induction more as [|[k' c] more IH]; intros m; [done|]. cbn. rewrite IH. f_equal.
  apply btree_get_insert.
Qed.

Lemma extend_sorted (more : list (string * SpaceSpec)) m :
  btree_sorted m -> btree_sorted (fold_left (fun m '(k, v) => btree_insert k v m) more m).
Proof.
  revert m; induction more as [|[k' c] more IH]; intros m Hm; [done|]. cbn.
  by apply IH, btree_insert_sorted.
Qed.

Lemma last_given_Forall (P : string -> SpaceSpec -> Prop) (m : btree SpaceSpec) :
  btree_sorted m ->
  Forall (fun e => P e.1 e.2) m <-> forall k c, btree_get k m = Some c -> P k c.
Proof.
  intros Hm. rewrite Forall_forall. split.
  - intros Hf k c Hg%btree_get_Some_elem. apply (Hf _ Hg).
  - intros Hg [k c] Hin. by apply Hg, btree_get_elem.
Qed.

(** A Dict built from any list of entries, in any order and with repeated
    keys, has its keys strictly increasing and for each key the space given
    last; it builds exactly when every key kept is non-empty and every space
    kept is valid. *)
Theorem dict_build_exact (more : list (string * SpaceSpec)) :
  let b := DictSpaceBuilder.extend DictSpaceBuilder.new more in
  let m := DictSpaceBuilder.entries b in
  btree_sorted m /\ (forall k, btree_get k m = last_given more k) /\
  forall s, DictSpaceBuilder.build b = Some (Ok s) <->
    s = mkSpec [] Unspecified (Some (KDict (mkDictSpec m.*1 m.*2))) /\
    forall k c, last_given more k = Some c -> k <> "" /\ validate_space c = Some (Ok tt).
Proof.
  intros b m.
  assert (Hm : btree_sorted m) by (apply extend_sorted; constructor).
  assert (Hg : forall k, btree_get k m = last_given more k) by (intros k; apply extend_get).
  split; [done|]. split; [done|]. intros s. unfold DictSpaceBuilder.build,
    DictSpaceBuilder.make_dict_space. fold m. rewrite validated_Ok.
  apply and_iff_compat_l. setoid_rewrite <- Hg.
  rewrite <- (last_given_Forall (fun k c => k <> "" /\ validate_space c = Some (Ok tt)) m Hm).
  unfold validate_space. setoid_rewrite validate_space_Ok. split.
  - intros Hv. inversion Hv as [? Hn Hc]; subst. unfold node_valid, children in *.
    cbn [spec keys dict_spaces] in *. destruct Hn as (_ & _ & _ & H1 & _).
    apply Forall_and.
    split; [by apply (Forall_fmap fst (fun k => k <> ""))|by apply (Forall_fmap snd valid)].
  - intros [H1 H2]%Forall_and. constructor; unfold node_valid, children; cbn [spec keys dict_spaces];
      [|by apply (Forall_fmap snd valid)].
    split_and!; try done; [by rewrite !length_fmap|by apply (Forall_fmap fst (fun k => k <> ""))|].
    by apply btree_keys_NoDup.
Qed.
End Dicts.

(** ** Witnesses *)

Lemma matrix_build_exact_witness :
  MultiDiscreteBuilder.build (H := ieee_half) (MultiDiscreteBuilder.matrix [[2; 3; 4]; [5; 6; 7]])
  = Some (Ok (mkSpec [2; 3] Int64 (Some (KMultiDiscrete {| nvec := [2; 3; 4; 5; 6; 7] |})))).
Proof.
  apply (matrix_build_exact (H := ieee_half) [[2; 3; 4]; [5; 6; 7]]).
  - repeat apply Forall_cons_2; try apply Forall_nil_2; compute_Z.
  - compute_Z.
  - compute_Z.
  - compute_Z.
  - split_and!.
    + repeat apply Forall_cons_2; [reflexivity..|apply Forall_nil_2].
    + discriminate.
    + repeat apply Forall_cons_2; try apply Forall_nil_2; lia.
    + reflexivity.
Defined.

Lemma int_box_admits_witness :
  exists s, BoxSpaceBuilder.build (H := ieee_half)
      (BoxSpaceBuilder.with_dtype (BoxSpaceBuilder.uint_scalar 1 u64_max [2]) Uint64) = Some (Ok s) /\
    exists bs, box_bounds_of (H := ieee_half) s Uint64 2 = Some bs /\ length bs = 2%nat.
Proof.
  destruct (BoxSpaceBuilder.build (H := ieee_half)
    (BoxSpaceBuilder.with_dtype (BoxSpaceBuilder.uint_scalar 1 u64_max [2]) Uint64))
    as [[s|]|] eqn:Hb; [|vm_compute in Hb; discriminate..].
  exists s. split; [reflexivity|].
  destruct (int_box_admits (H := ieee_half) Uint64 1 u64_max [2] false s) as (bs & Hbs & Hl & _).
  - reflexivity.
  - intros _. split; compute_Z.
  - exact Hb.
  - exists bs. split; [exact Hbs|exact Hl].
Defined.
