(* ===== verification/WireSpaces.v ===== *)
(** * The wire form of spaces and contracts

    [rlmesh-grpc/src/wire/spaces.rs]: native specs, contracts and metadata to
    and from the generated messages, which are modelled by their [.proto]
    definitions ([rlmesh-proto/proto/rlmesh/]).  A [None] result is a panic. *)

From S2P Require Import Prelude BTree Float DType Scalar Tensor Types Fundamental BoxSpace BoxValue Spaces.
From Stdlib Require Import SpecFloat.
#[local] Open Scope string_scope.
#[local] Open Scope Z_scope.

(** ** Errors *)

Inductive ProtocolError : Type :=
| EncodeError (m : message)
| DecodeError (m : message)
| OutOfRangeError (m : message)
| LengthMismatch (m : message)
| HandshakeFailed (m : message)
| UnexpectedMessage (expected actual : message).

(** [err.to_string()] of a space error. *)
Definition space_error_message (e : SpaceError) : message :=
  match e with Invalid path msg => Msg "{path}: {msg}" [AStr path; nested msg] end.

(** ** Messages *)

Inductive DataType : Type :=
| DtUnspecified | DtBool | DtUint8 | DtUint16 | DtUint32 | DtUint64
| DtInt8 | DtInt16 | DtInt32 | DtInt64 | DtFloat16 | DtFloat32 | DtFloat64.

Definition data_type_to_i32 (d : DataType) : Z :=
  match d with
  | DtUnspecified => 0 | DtBool => 1 | DtUint8 => 2 | DtUint16 => 3 | DtUint32 => 4
  | DtUint64 => 5 | DtInt8 => 6 | DtInt16 => 7 | DtInt32 => 8 | DtInt64 => 9
  | DtFloat16 => 10 | DtFloat32 => 11 | DtFloat64 => 12
  end.

(** [DataType::try_from(i32)]. *)
Definition data_type_try_from (z : Z) : option DataType :=
  match z with
  | 0 => Some DtUnspecified | 1 => Some DtBool | 2 => Some DtUint8 | 3 => Some DtUint16
  | 4 => Some DtUint32 | 5 => Some DtUint64 | 6 => Some DtInt8 | 7 => Some DtInt16
  | 8 => Some DtInt32 | 9 => Some DtInt64 | 10 => Some DtFloat16 | 11 => Some DtFloat32
  | 12 => Some DtFloat64
  | _ => None
  end.

Inductive ProtoBounds : Type :=
| PUnbounded (b : bool)
| PUniform (low high : list byte)
| PElementwise (low high : list byte).

Inductive ProtoKindOf (S : Type) : Type :=
| PBox (bounds : option ProtoBounds)
| PDiscrete (n start : Z)
| PMultiBinary
| PMultiDiscrete (nvec : list Z)
| PText (min_length max_length : Z) (charset : list Z)
| PDict (keys : list string) (spaces : list S)
| PTuple (spaces : list S).
Arguments PBox {S}.
Arguments PDiscrete {S}.
Arguments PMultiBinary {S}.
Arguments PMultiDiscrete {S}.
Arguments PText {S}.
Arguments PDict {S}.
Arguments PTuple {S}.

Inductive ProtoSpec : Type :=
| mkProto (p_shape : list Z) (p_dtype : Z) (p_spec : option (ProtoKindOf ProtoSpec)).

Notation ProtoKind := (ProtoKindOf ProtoSpec).

(** The entries of a [map<string, MetaValue>] are a [HashMap]: the list has them
    in some order, with distinct keys. *)
Inductive ProtoMetaValue : Type := mkProtoMeta (kind : option ProtoMetaKind)
with ProtoMetaKind : Type :=
| PInteger (i : Z)
| PNumber (f : f64)
| PString (s : string)
| PBool (b : bool)
| PBytes (b : list byte)
| PList (items : list ProtoMetaValue)
| PMap (entries : list (string * ProtoMetaValue))
| PNull.

Record ProtoEnvSpec : Type := {
  pe_id : string;
  pe_action_space : option ProtoSpec;
  pe_observation_space : option ProtoSpec;
  pe_metadata : option (list (string * ProtoMetaValue));
}.

Record ProtoEnvContract : Type := {
  pc_spec : option ProtoEnvSpec;
  pc_num_envs : Z;
  pc_render_mode : string;
  pc_autoreset_mode : Z;
}.

(** ** Dtypes *)

Definition proto_dtype_from_native (d : DType) : DataType :=
  match d with
  | Unspecified => DtUnspecified | Bool => DtBool | Uint8 => DtUint8 | Uint16 => DtUint16
  | Uint32 => DtUint32 | Uint64 => DtUint64 | Int8 => DtInt8 | Int16 => DtInt16
  | Int32 => DtInt32 | Int64 => DtInt64 | Float16 => DtFloat16 | Float32 => DtFloat32
  | Float64 => DtFloat64
  end.

Definition native_dtype_from_proto (dtype : Z) : result DType ProtocolError :=
  let? dtype :=
    ok_or (data_type_try_from dtype)
      (DecodeError (Msg "unknown proto dtype value: {dtype}" [AZ dtype])) in
  Ok match dtype with
     | DtUnspecified => Unspecified | DtBool => Bool | DtUint8 => Uint8 | DtUint16 => Uint16
     | DtUint32 => Uint32 | DtUint64 => Uint64 | DtInt8 => Int8 | DtInt16 => Int16
     | DtInt32 => Int32 | DtInt64 => Int64 | DtFloat16 => Float16 | DtFloat32 => Float32
     | DtFloat64 => Float64
     end.

(** ** Specs *)

Section Specs.
Context `{HalfOps}.

Definition validate_bound_byte_lengths (low high : list byte) (count : Z) (dtype : DType)
    : result unit ProtocolError :=
  let elem := dtype_size dtype in
  if Nat.eqb elem 0 then
    Err (DecodeError (lit "Box bounds require a concrete dtype"))
  else
    let? expected :=
      ok_or (checked_usize (count * Z.of_nat elem))
        (DecodeError (lit "Box bounds byte length overflowed")) in
    try_for_each (fun _ '(name, bytes) =>
      if negb (Z.of_nat (length bytes) =? expected) then
        Err (DecodeError (Msg "Box bounds `{name}` carries {} bytes; expected {expected} ({count} {dtype:?} scalar(s))"
          [AStr name; ANat (length bytes); AZ expected; AZ count; AStr (dtype_debug dtype)]))
      else Ok tt) 0 [("low", low); ("high", high)].

Fixpoint box_shape_numel_loop (i : nat) (acc : Z) (shape : list Z) : result Z ProtocolError :=
  match shape with
  | [] => Ok acc
  | dim :: shape =>
      if dim <=? 0 then
        Err (DecodeError (Msg "typed elementwise Box bounds shape[{i}] must be > 0" [ANat i]))
      else
        let? acc :=
          ok_or (checked_usize (acc * wrap_u 64 dim))
            (DecodeError (lit "typed elementwise Box bounds shape product overflowed")) in
        box_shape_numel_loop (S i) acc shape
  end.

Definition checked_box_shape_numel (shape : list Z) : result Z ProtocolError :=
  match shape with
  | [] => Err (DecodeError (lit "typed elementwise Box bounds require a non-empty shape"))
  | _ => box_shape_numel_loop 0 1 shape
  end.

Definition encode_float_bound (value : f64) (dtype : DType) : list byte :=
  match dtype with
  | Float16 => le_split 2 (f64_to_f16_bits value)
  | Float32 => le_split 4 (f32_bits (f32_of_f64 value))
  | Float64 | Unspecified => le_split 8 (f64_bits value)
  | Bool => le_split 1 (Z.b2z (negb (f64_eqb value f64_zero)))
  | Uint8 => le_split 1 (f64_as_int 0 (2 ^ 8 - 1) value)
  | Uint16 => le_split 2 (f64_as_int 0 (2 ^ 16 - 1) value)
  | Uint32 => le_split 4 (f64_as_int 0 (2 ^ 32 - 1) value)
  | Uint64 => le_split 8 (f64_as_int 0 (2 ^ 64 - 1) value)
  | Int8 => le_split 1 (f64_as_int (- 2 ^ 7) (2 ^ 7 - 1) value)
  | Int16 => le_split 2 (f64_as_int (- 2 ^ 15) (2 ^ 15 - 1) value)
  | Int32 => le_split 4 (f64_as_int (- 2 ^ 31) (2 ^ 31 - 1) value)
  | Int64 => le_split 8 (f64_as_int (- 2 ^ 63) (2 ^ 63 - 1) value)
  end.

Definition encode_float_bounds (values : list f64) (dtype : DType) : list byte :=
  concat ((fun value => encode_float_bound value dtype) <$> values).

(** Indexing past the end of the bytes panics; bytes after the ones read are
    ignored. *)
Definition decode_float_bound (bytes : list byte) (dtype : DType) : option f64 :=
  let first n := if Nat.leb n (length bytes) then Some (le_combine (take n bytes)) else None in
  match dtype with
  | Float16 => let! b := first 2%nat in Some (half_to_f64 b)
  | Float32 => let! b := first 4%nat in Some (f64_of_f32 (F32 b))
  | _ => let! b := first 8%nat in Some (F64 b)
  end.

Definition decode_float_bounds (bytes : list byte) (dtype : DType) : option (list f64) :=
  mapM (fun chunk => decode_float_bound chunk dtype) (chunks_exact (dtype_size dtype) bytes).

Definition box_bounds_to_proto (b : BoxBounds) (dtype : DType) : ProtoBounds :=
  match b with
  | Unbounded value => PUnbounded value
  | Uniform b =>
      PUniform (encode_float_bound (uniform_low b) dtype)
               (encode_float_bound (uniform_high b) dtype)
  | Elementwise b =>
      PElementwise (encode_float_bounds (elementwise_low b) dtype)
                   (encode_float_bounds (elementwise_high b) dtype)
  | TypedUniform b => PUniform (typed_low b) (typed_high b)
  | TypedElementwise b => PElementwise (typed_elems_low b) (typed_elems_high b)
  end.

Definition box_bounds_from_proto (b : ProtoBounds) (dtype : DType) (shape : list Z)
    : option (result BoxBounds ProtocolError) :=
  match b with
  | PUnbounded value => Some (Ok (Unbounded value))
  | PUniform low high =>
      let!? _ := Some (validate_bound_byte_lengths low high 1 dtype) in
      if is_float dtype then
        let! l := decode_float_bound low dtype in
        let! h := decode_float_bound high dtype in
        Some (Ok (Uniform {| uniform_low := l; uniform_high := h |}))
      else Some (Ok (TypedUniform {| typed_low := low; typed_high := high |}))
  | PElementwise low high =>
      let!? numel := Some (checked_box_shape_numel shape) in
      let!? _ := Some (validate_bound_byte_lengths low high numel dtype) in
      if is_float dtype then
        let! l := decode_float_bounds low dtype in
        let! h := decode_float_bounds high dtype in
        Some (Ok (Elementwise {| elementwise_low := l; elementwise_high := h |}))
      else Some (Ok (TypedElementwise {| typed_elems_low := low; typed_elems_high := high |}))
  end.

Definition space_kind_to_proto (space_spec_to_proto : SpaceSpec -> ProtoSpec)
    (kind : SpaceKind) (dtype : DType) : ProtoKind :=
  match kind with
  | KBox s => PBox ((fun b => box_bounds_to_proto b dtype) <$> bounds s)
  | KDiscrete s => PDiscrete (discrete_n s) (discrete_start s)
  | KMultiBinary _ => PMultiBinary
  | KMultiDiscrete s => PMultiDiscrete (nvec s)
  | KText s => PText (min_length s) (max_length s) (charset s)
  | KDict s => PDict (keys s) (space_spec_to_proto <$> dict_spaces s)
  | KTuple s => PTuple (space_spec_to_proto <$> tuple_spaces s)
  end.

Fixpoint space_spec_to_proto (s : SpaceSpec) {struct s} : ProtoSpec :=
  mkProto (space_shape s) (data_type_to_i32 (proto_dtype_from_native (space_dtype s)))
    match spec s with
    | Some kind => Some (space_kind_to_proto space_spec_to_proto kind (space_dtype s))
    | None => None
    end.

(** [.map(f).collect::<Result<_, _>>()]. *)
Fixpoint collect_specs_from (f : ProtoSpec -> option (result SpaceSpec ProtocolError))
    (l : list ProtoSpec) : option (result (list SpaceSpec) ProtocolError) :=
  match l with
  | [] => Some (Ok [])
  | x :: l =>
      let!? y := f x in
      let!? ys := collect_specs_from f l in
      Some (Ok (y :: ys))
  end.

Definition space_kind_from_proto
    (space_spec_from_proto : ProtoSpec -> option (result SpaceSpec ProtocolError))
    (kind : ProtoKind) (dtype : DType) (shape : list Z)
    : option (result SpaceKind ProtocolError) :=
  match kind with
  | PBox b =>
      let!? b :=
        match b with
        | None => Some (Ok None)
        | Some b => let!? b := box_bounds_from_proto b dtype shape in Some (Ok (Some b))
        end in
      Some (Ok (KBox {| bounds := b |}))
  | PDiscrete n start => Some (Ok (KDiscrete {| discrete_n := n; discrete_start := start |}))
  | PMultiBinary => Some (Ok (KMultiBinary mkMultiBinary))
  | PMultiDiscrete nvec => Some (Ok (KMultiDiscrete {| Types.nvec := nvec |}))
  | PText min_length max_length charset =>
      Some (Ok (KText {| Types.min_length := min_length; Types.max_length := max_length;
                         Types.charset := charset |}))
  | PDict keys spaces =>
      let!? spaces := collect_specs_from space_spec_from_proto spaces in
      Some (Ok (KDict (mkDictSpec keys spaces)))
  | PTuple spaces =>
      let!? spaces := collect_specs_from space_spec_from_proto spaces in
      Some (Ok (KTuple (mkTupleSpec spaces)))
  end.

Fixpoint space_spec_from_proto (p : ProtoSpec) {struct p}
    : option (result SpaceSpec ProtocolError) :=
  match p with
  | mkProto shape dtype spec =>
      let!? dtype := Some (native_dtype_from_proto dtype) in
      let!? kind :=
        match spec with
        | None => Some (Ok None)
        | Some kind =>
            let!? kind := space_kind_from_proto space_spec_from_proto kind dtype shape in
            Some (Ok (Some kind))
        end in
      let s := mkSpec shape dtype kind in
      let! v := validate_space s in
      let!? _ := Some (map_err (fun err => DecodeError (space_error_message err)) v) in
      Some (Ok s)
  end.
End Specs.

(** ** Metadata *)

Fixpoint meta_value_to_proto (value : MetaValue) : ProtoMetaValue :=
  mkProtoMeta
    match value with
    | MNull => None
    | MBool value => Some (PBool value)
    | MInt value => Some (PInteger value)
    | MFloat value => Some (PNumber value)
    | MString value => Some (PString value)
    | MBytes value => Some (PBytes value)
    | MList value => Some (PList (meta_value_to_proto <$> value))
    | MMap value => Some (PMap ((fun '(key, value) => (key, meta_value_to_proto value)) <$> value))
    end.

Definition meta_map_to_proto (value : MetaMap) : list (string * ProtoMetaValue) :=
  (fun '(key, value) => (key, meta_value_to_proto value)) <$> value.

(** [collect::<BTreeMap<_, _>>()]. *)
Definition collect_btree {V} (l : list (string * V)) : btree V :=
  fold_left (fun m '(k, v) => btree_insert k v m) l [].

Fixpoint meta_value_from_proto (value : ProtoMetaValue) : MetaValue :=
  match value with
  | mkProtoMeta kind =>
      match kind with
      | None | Some PNull => MNull
      | Some (PBool value) => MBool value
      | Some (PInteger value) => MInt value
      | Some (PNumber value) => MFloat value
      | Some (PString value) => MString value
      | Some (PBytes value) => MBytes value
      | Some (PList items) => MList (meta_value_from_proto <$> items)
      | Some (PMap entries) =>
          MMap (collect_btree ((fun '(key, value) => (key, meta_value_from_proto value)) <$> entries))
      end
  end.

Definition meta_map_from_proto (entries : list (string * ProtoMetaValue)) : MetaMap :=
  collect_btree ((fun '(key, value) => (key, meta_value_from_proto value)) <$> entries).

(** ** Contracts *)

Section Contracts.
Context `{HalfOps}.

Definition env_spec_to_proto (c : EnvContract) : ProtoEnvSpec := {|
  pe_id := contract_id c;
  pe_action_space := space_spec_to_proto <$> action_space c;
  pe_observation_space := space_spec_to_proto <$> observation_space c;
  pe_metadata := meta_map_to_proto <$> metadata c;
|}.

(** [.map(f).transpose()?]. *)
Definition transpose_from (p : option ProtoSpec) : option (result (option SpaceSpec) ProtocolError) :=
  match p with
  | None => Some (Ok None)
  | Some p => let!? s := space_spec_from_proto p in Some (Ok (Some s))
  end.

Definition env_spec_from_proto (p : ProtoEnvSpec) : option (result EnvContract ProtocolError) :=
  let!? action := transpose_from (pe_action_space p) in
  let!? observation := transpose_from (pe_observation_space p) in
  Some (Ok {|
    contract_id := pe_id p;
    action_space := action;
    observation_space := observation;
    metadata := meta_map_from_proto <$> pe_metadata p;
    render_mode := "";
    num_envs := 0;
    autoreset_mode := autoreset_default;
  |}).

Definition env_contract_to_proto (c : EnvContract) : ProtoEnvContract := {|
  pc_spec := Some (env_spec_to_proto c);
  pc_num_envs := num_envs c;
  pc_render_mode := render_mode c;
  pc_autoreset_mode := autoreset_to_i32 (autoreset_mode c);
|}.

(** [EnvSpec::default()]. *)
Definition env_spec_default : ProtoEnvSpec :=
  {| pe_id := ""; pe_action_space := None; pe_observation_space := None; pe_metadata := None |}.

(** The mode is decoded before the spec, in the order of the struct's fields. *)
Definition env_contract_from_proto (p : ProtoEnvContract) : option (result EnvContract ProtocolError) :=
  let!? mode :=
    Some (map_err (fun e => DecodeError (unknown_autoreset_message e))
            (autoreset_try_from (pc_autoreset_mode p))) in
  let!? spec := env_spec_from_proto (default env_spec_default (pc_spec p)) in
  Some (Ok {|
    contract_id := contract_id spec;
    action_space := action_space spec;
    observation_space := observation_space spec;
    metadata := metadata spec;
    render_mode := pc_render_mode p;
    num_envs := pc_num_envs p;
    autoreset_mode := mode;
  |}).
End Contracts.

(** ** Specs survive the wire *)

Section Roundtrip.
Context `{HalfOps}.

(** A float bound that the dtype represents exactly. *)
Definition representable (d : DType) (f : f64) : Prop :=
  decode_float_bound (encode_float_bound f d) d = Some f.

(** Bounds whose meaning the wire keeps: float-form bounds on an integer dtype,
    float-form bounds on a float dtype that represents them, and typed bounds on
    an integer or boolean dtype.  Vectors are allocated, so they have at most
    [isize::MAX] bytes. *)
Definition bounds_exact (d : DType) (b : BoxBounds) : Prop :=
  match b with
  | Unbounded _ => True
  | Uniform u =>
      is_integer d = true \/
      is_float d = true /\ representable d (uniform_low u) /\ representable d (uniform_high u)
  | Elementwise e =>
      (is_integer d = true \/
       is_float d = true /\ Forall (representable d) (elementwise_low e) /\
       Forall (representable d) (elementwise_high e)) /\
      Z.of_nat (length (elementwise_low e)) * 8 <= isize_max
  | TypedUniform _ | TypedElementwise _ => is_float d = false
  end.

Definition node_exact (s : SpaceSpec) : Prop :=
  match spec s with
  | Some (KBox b) => from_option (bounds_exact (space_dtype s)) True (bounds b)
  | _ => True
  end.

(** The form a spec has after the wire: float-form bounds on a dtype that is
    not a float come back as the dtype's bytes. *)
Definition wire_bounds (d : DType) (b : BoxBounds) : BoxBounds :=
  if is_float d then b
  else
    match b with
    | Uniform u =>
        TypedUniform {| typed_low := encode_float_bound (uniform_low u) d;
                        typed_high := encode_float_bound (uniform_high u) d |}
    | Elementwise e =>
        TypedElementwise {| typed_elems_low := encode_float_bounds (elementwise_low e) d;
                            typed_elems_high := encode_float_bounds (elementwise_high e) d |}
    | b => b
    end.

Fixpoint wire_form (s : SpaceSpec) {struct s} : SpaceSpec :=
  mkSpec (space_shape s) (space_dtype s)
    match spec s with
    | Some (KBox b) => Some (KBox {| bounds := wire_bounds (space_dtype s) <$> bounds b |})
    | Some (KDict d) => Some (KDict (mkDictSpec (keys d) (wire_form <$> dict_spaces d)))
    | Some (KTuple t) => Some (KTuple (mkTupleSpec (wire_form <$> tuple_spaces t)))
    | k => k
    end.

(** *** Bytes *)

Lemma encode_float_bound_length f d :
  d <> Unspecified -> length (encode_float_bound f d) = dtype_size d.
Proof. destruct d; try done; intros _; cbn [encode_float_bound dtype_size]; apply length_le_split. Qed.

Lemma encode_float_bounds_length l d :
  d <> Unspecified -> length (encode_float_bounds l d) = (length l * dtype_size d)%nat.
Proof.
  intros Hd. unfold encode_float_bounds. induction l as [|f l IH]; [done|]. cbn.
  rewrite length_app, encode_float_bound_length, IH by done. lia.
Qed.

Lemma encode_float_bounds_chunks l d :
  d <> Unspecified ->
  chunks_exact (dtype_size d) (encode_float_bounds l d) = (fun f => encode_float_bound f d) <$> l.
Proof.
  intros Hd. apply chunks_exact_concat; [by apply dtype_size_pos|].
  apply Forall_fmap, Forall_true. intros f. by apply encode_float_bound_length.
Qed.

Lemma bound_lengths_Ok low high count d :
  d <> Unspecified -> 0 <= count ->
  Z.of_nat (length low) = count * Z.of_nat (dtype_size d) ->
  Z.of_nat (length high) = count * Z.of_nat (dtype_size d) ->
  count * Z.of_nat (dtype_size d) <= usize_max ->
  validate_bound_byte_lengths low high count d = Ok tt.
Proof.
  intros Hd Hc Hl Hh Hu. unfold validate_bound_byte_lengths.
  pose proof (dtype_size_pos d Hd). destruct (Nat.eqb_spec (dtype_size d) 0); [lia|].
  unfold checked_usize. rewrite checked_in by lia. cbn [ok_or try_for_each].
  by rewrite Hl, Hh, Z.eqb_refl.
Qed.

Lemma box_shape_numel_loop_Ok i acc shape :
  Forall (fun d => 0 < d) shape ->
  box_shape_numel_loop i acc shape
  = match usize_product acc shape with
    | Some n => Ok n
    | None => Err (DecodeError (lit "typed elementwise Box bounds shape product overflowed"))
    end.
Proof.
  intros Hp. revert i acc; induction Hp as [|d shape Hd _ IH]; intros i acc; [done|].
  cbn [box_shape_numel_loop usize_product]. destruct (Z.leb_spec d 0); [lia|].
  destruct (checked_usize _); [apply IH|done].
Qed.

Lemma decode_float_bounds_exact l d :
  d <> Unspecified -> Forall (representable d) l ->
  decode_float_bounds (encode_float_bounds l d) d = Some l.
Proof.
  intros Hd Hl. unfold decode_float_bounds. rewrite encode_float_bounds_chunks by done.
  induction Hl as [|f l Hf _ IH]; [done|]. cbn. rewrite Hf. cbn. by rewrite IH.
Qed.

(** The element an integer dtype's wire bound decodes to. *)
Lemma encode_float_bound_int f d lo hi :
  int_range d = Some (lo, hi) ->
  exists v, decode_scalar (encode_float_bound f d) d = Some v /\
    scalar_real d v = Some (xint (saturated d f)) /\ (forall g, v <> SFloat g).
Proof.
  intros Hr. assert (Hd : d <> Unspecified) by (by intros ->).
  destruct (decode_elem_int d (encode_float_bound f d)) as (v & Hv & Hn & Hx);
    [by destruct d|done|by apply encode_float_bound_length|].
  exists v. split_and!; [done| |done]. rewrite Hx. do 2 f_equal.
  assert (Hs : lo <= saturated d f <= hi).
  { unfold saturated. rewrite Hr. destruct (int_range_bounds d lo hi Hr) as (_ & _ & _ & _ & _ & _ & _ & ?).
    unfold f64_as_int, saturate. destruct (sf64 f) as [|[]| |]; lia. }
  unfold saturated in *. rewrite Hr in *.
  destruct d; try done; injection Hr as <- <-; cbn [elem_int encode_float_bound];
    (rewrite le_split_unsigned by (cbn; lia)) || (rewrite le_split_signed by (cbn; lia)); done.
Qed.

(** *** Validity of a box, as a whole *)

Definition bounds_valid (b : BoxBounds) (n : Z) (d : DType) : Prop :=
  match b with
  | Unbounded _ => True
  | Uniform u =>
      exists m1 m2, check_float_bounds d "$" m1 m2 (uniform_low u) (uniform_high u) = Ok tt
  | Elementwise e =>
      length (elementwise_low e) = length (elementwise_high e) /\
      Z.of_nat (length (elementwise_low e)) = n /\
      Forall (fun '(low, high) => exists m1 m2, check_float_bounds d "$" m1 m2 low high = Ok tt)
        (zip (elementwise_low e) (elementwise_high e))
  | TypedUniform t => validate_typed_bounds (typed_low t) (typed_high t) 1 d "$" = Some (Ok tt)
  | TypedElementwise t =>
      validate_typed_bounds (typed_elems_low t) (typed_elems_high t) n d "$" = Some (Ok tt)
  end.

Definition box_valid (shape : list Z) (d : DType) (bs : option BoxBounds) : Prop :=
  shape <> [] /\ d <> Unspecified /\ Forall (fun d => 0 < d) shape /\
  exists n b, usize_product 1 shape = Some n /\ bs = Some b /\ bounds_valid b n d.

Lemma check_float_bounds_msg d path m1 m2 m1' m2' low high :
  check_float_bounds d path m1 m2 low high = Ok tt -> check_float_bounds d path m1' m2' low high = Ok tt.
Proof. unfold check_float_bounds. case_match; [done|]. by case_match. Qed.

Lemma validate_bounds_match b n d :
  match b with
  | Unbounded _ => Some (Ok tt)
  | Uniform s' =>
      Some (check_float_bounds d "$" (lit "scalar bounds invalid: NaN bound")
              (lit "scalar bounds invalid: low > high") (uniform_low s') (uniform_high s'))
  | Elementwise t =>
      if negb (Nat.eqb (length (elementwise_low t)) (length (elementwise_high t))) then
        Some (Err (space_err "$" "Box" (lit "tensor bounds invalid: low/high length mismatch")))
      else if negb (Z.of_nat (length (elementwise_low t)) =? n) then
        Some (Err (space_err "$" "Box" (Msg "tensor bounds invalid: expected length {numel}" [AZ n])))
      else
        Some (try_for_each (fun i '(low, high) =>
          check_float_bounds d "$"
            (Msg "tensor bounds invalid: NaN bound at element {i}" [ANat i])
            (Msg "tensor bounds invalid: low>high at element {i}" [ANat i])
            low high) 0 (zip (elementwise_low t) (elementwise_high t)))
  | TypedUniform t => validate_typed_bounds (typed_low t) (typed_high t) 1 d "$"
  | TypedElementwise t => validate_typed_bounds (typed_elems_low t) (typed_elems_high t) n d "$"
  end = Some (Ok tt) <-> bounds_valid b n d.
Proof.
  destruct b as [?|u|e|t|t]; cbn [bounds_valid]; try done.
  - split; [intros [= Hc]; eauto|]. intros (m1 & m2 & Hc). f_equal. by eapply check_float_bounds_msg.
  - destruct (Nat.eqb_spec (length (elementwise_low e)) (length (elementwise_high e)));
      cbn [negb]; [|naive_solver].
    destruct (Z.eqb_spec (Z.of_nat (length (elementwise_low e))) n); cbn [negb]; [|naive_solver].
    rewrite Forall_lookup. split.
    + intros [= Hc]. split_and!; try done. intros k [lo hi] Hk.
      apply (proj1 (try_for_each_Ok _ _ _) Hc k) in Hk. eauto.
    + intros (_ & _ & Hf). f_equal. apply try_for_each_Ok. intros k [lo hi] Hk.
      destruct (Hf k _ Hk) as (m1 & m2 & Hc). by eapply check_float_bounds_msg.
Qed.

Lemma validate_box_iff s b :
  spec s = Some (KBox b) ->
  validate_box_at s "$" = Some (Ok tt) <-> box_valid (space_shape s) (space_dtype s) (bounds b).
Proof.
  intros Hs. unfold validate_box_at, box_valid. rewrite Hs.
  destruct (space_shape s) as [|d0 ds] eqn:Hsh; [naive_solver|]. rewrite <- Hsh.
  case_bool_decide as Hd; [naive_solver|].
  destruct (try_for_each _ 0 (space_shape s)) as [[]|] eqn:Hp.
  2: { split; [done|]. intros (_ & _ & Hf & _).
       rewrite (proj2 (try_for_each_if _ _ _ _)) in Hp; [done|].
       eapply Forall_impl; [exact Hf|]. cbn. intros z Hz. by apply Z.leb_gt. }
  apply try_for_each_if in Hp.
  assert (Hpos : Forall (fun d => 0 < d) (space_shape s)).
  { eapply Forall_impl; [exact Hp|]. cbn. intros z Hz. by apply Z.leb_gt. }
  destruct (usize_product 1 (space_shape s)) as [n|]; cbn [ok_or]; [|naive_solver].
  destruct (bounds b) as [bb|]; [|naive_solver].
  rewrite validate_bounds_match. split; [|naive_solver].
  intros Hb. rewrite Hsh in *. split_and!; try done. eauto.
Qed.

(** *** Float-form bounds on an integer dtype *)

Lemma int_range_Some d : is_integer d = true -> exists lo hi, int_range d = Some (lo, hi).
Proof. destruct d; try done; by do 2 eexists. Qed.

Lemma float_pair_integral d low high m1 m2 lo hi :
  int_range d = Some (lo, hi) -> check_float_bounds d "$" m1 m2 low high = Ok tt ->
  exists zl zh, f64_is_finite low = true /\ f64_num low = zl * f64_one /\
    f64_is_finite high = true /\ f64_num high = zh * f64_one /\ zl <= zh /\ zl <= hi /\ lo <= zh.
Proof.
  intros Hr. unfold check_float_bounds. case_match; [done|].
  destruct (f64_gt low high) eqn:Hg; [done|].
  destruct (reject_non_integral_int_bound d low Low "$") as [[]|] eqn:Hl; [|done]. intros Hh.
  destruct (reject_Ok _ _ _ _ _ _ Hr Hl) as (zl & Fl & Nl & Bl).
  destruct (reject_Ok _ _ _ _ _ _ Hr Hh) as (zh & Fh & Nh & Bh).
  exists zl, zh. split_and!; try done. pose proof f64_one_pos.
  unfold f64_gt in Hg. rewrite f64_cmp_num, Nl, Nh in Hg by done.
  destruct (Z.compare_spec (zl * f64_one) (zh * f64_one)); [nia|nia|done].
Qed.

(** The same admitted elements, for elements of the dtype's range. *)
Definition same_bound (lo hi : Z) (d : DType) (b b' : Bound) : Prop :=
  forall x, lo <= x <= hi -> within_bound d b (xint x) <-> within_bound d b' (xint x).

Lemma within_float d low high zl zh x :
  f64_is_finite low = true -> f64_num low = zl * f64_one ->
  f64_is_finite high = true -> f64_num high = zh * f64_one ->
  within_bound d (finite_float low, finite_float high) (xint x) <-> zl <= x <= zh.
Proof.
  intros Fl Nl Fh Nh. pose proof f64_one_pos. unfold within_bound, finite_float. rewrite Fl, Fh.
  cbn [fst snd]. split.
  - intros [H1 H2]. specialize (H1 _ _ eq_refl (f64_real_finite low Fl)).
    specialize (H2 _ _ eq_refl (f64_real_finite high Fh)).
    rewrite f64_Q_compare_int, Nl in H1. rewrite <- xreal_compare_antisym, f64_Q_compare_int, Nh in H2.
    split.
    + destruct (Z.compare_spec (zl * f64_one) (x * f64_one)); [nia|nia|done].
    + destruct (Z.compare_spec (zh * f64_one) (x * f64_one)); [nia|done|nia].
  - intros Hx. split; intros y r [= <-]; cbn [scalar_real]; rewrite f64_real_finite by done;
      intros [= <-].
    + rewrite f64_Q_compare_int, Nl. destruct (Z.compare_spec (zl * f64_one) (x * f64_one)); nia || done.
    + rewrite <- xreal_compare_antisym, f64_Q_compare_int, Nh.
      destruct (Z.compare_spec (zh * f64_one) (x * f64_one)); nia || done.
Qed.

(** What the wire makes of one pair of float-form bounds. *)
Lemma wire_pair d lo hi low high m1 m2 :
  int_range d = Some (lo, hi) -> check_float_bounds d "$" m1 m2 low high = Ok tt ->
  exists l h zl zh,
    decode_scalar (encode_float_bound low d) d = Some l /\
    decode_scalar (encode_float_bound high d) d = Some h /\
    scalar_real d l = Some (xint zl) /\ scalar_real d h = Some (xint zh) /\ zl <= zh /\
    same_bound lo hi d (finite_float low, finite_float high) (Some l, Some h).
Proof.
  intros Hr Hc. destruct (float_pair_integral d low high m1 m2 lo hi Hr Hc)
    as (zl & zh & Fl & Nl & Fh & Nh & Hz & Hzl & Hzh).
  destruct (encode_float_bound_int low d lo hi Hr) as (l & Hl & Rl & _).
  destruct (encode_float_bound_int high d lo hi Hr) as (h & Hh & Rh & _).
  rewrite (saturated_spec d low lo hi zl Hr Fl Nl) in Rl.
  rewrite (saturated_spec d high lo hi zh Hr Fh Nh) in Rh.
  exists l, h, (saturate lo hi zl), (saturate lo hi zh). split_and!; try done.
  - unfold saturate. lia.
  - intros x Hx. rewrite (within_float d low high zl zh), (within_ints d l h _ _ x Rl Rh) by done.
    unfold saturate. lia.
Qed.

Lemma int_pairs_valid d path i (l : list (Scalar * Scalar)) :
  Forall (fun '(lo, hi) => exists zl zh, scalar_wf lo /\ scalar_wf hi /\
    scalar_real d lo = Some (xint zl) /\ scalar_real d hi = Some (xint zh) /\ zl <= zh) l ->
  check_typed_pairs d path i l = Some (Ok tt).
Proof.
  intros Hl. revert i; induction Hl as [|[lo hi] l (zl & zh & Hwl & Hwh & Hrl & Hrh & Hz) _ IH];
    intros i; [done|]. cbn [check_typed_pairs].
  destruct (scalar_is_nan lo) eqn:Hn; [apply (scalar_real_nan d) in Hn; congruence|].
  destruct (scalar_is_nan hi) eqn:Hn'; [apply (scalar_real_nan d) in Hn'; congruence|].
  cbn [orb]. rewrite scalar_gt_spec, Hrl, Hrh by done. cbn [mbind option_bind].
  rewrite xint_compare. destruct (Z.compare_spec zl zh); [apply IH|apply IH|lia].
Qed.

Lemma typed_bounds_valid d n lb hb ls hs :
  d <> Unspecified -> 0 <= n -> n * Z.of_nat (dtype_size d) <= usize_max ->
  Forall2 (fun bs v => decode_scalar bs d = Some v) (chunks_exact (dtype_size d) lb) ls ->
  Forall2 (fun bs v => decode_scalar bs d = Some v) (chunks_exact (dtype_size d) hb) hs ->
  Z.of_nat (length lb) = n * Z.of_nat (dtype_size d) ->
  Z.of_nat (length hb) = n * Z.of_nat (dtype_size d) ->
  Forall (fun '(lo, hi) => exists zl zh,
    scalar_real d lo = Some (xint zl) /\ scalar_real d hi = Some (xint zh) /\ zl <= zh) (zip ls hs) ->
  validate_typed_bounds lb hb n d "$" = Some (Ok tt).
Proof.
  intros Hd Hn Hu Hl Hh Ll Lh Hp. unfold validate_typed_bounds. rewrite decide_False by done.
  unfold checked_usize. rewrite checked_in by lia. cbn [ok_or]. rewrite Ll, Lh, Z.eqb_refl. cbn [negb orb].
  assert (Hdec : forall b vs, Z.of_nat (length b) = n * Z.of_nat (dtype_size d) ->
    Forall2 (fun bs v => decode_scalar bs d = Some v) (chunks_exact (dtype_size d) b) vs ->
    decode_typed b d "$" = Some (Ok vs) /\ Forall scalar_wf vs).
  { intros b vs Hb Hv. unfold decode_typed, decode_scalars. rewrite decide_False by done.
    replace (length b) with (Z.to_nat n * dtype_size d)%nat by lia.
    rewrite Nat.Div0.mod_mul. cbn [Nat.eqb negb]. rewrite (proj2 (mapM_Some _ _ _) Hv). split; [done|].
    clear - Hv. induction Hv; constructor; [by eapply decode_scalar_wf|done]. }
  destruct (Hdec lb ls Ll Hl) as [-> Wl]. destruct (Hdec hb hs Lh Hh) as [-> Wh].
  apply int_pairs_valid. pose proof (Forall_zip _ _ _ _ Wl Wh) as Hw. clear - Hw Hp.
  induction Hp as [|[lo hi] l (zl & zh & ? & ? & ?) _ IH]; [constructor|].
  apply Forall_cons in Hw as [[? ?] Hw]. constructor; [|by apply IH]. exists zl, zh. done.
Qed.

(** The same for vectors of bounds. *)
Lemma wire_pairs d lo hi low high :
  int_range d = Some (lo, hi) -> length low = length high ->
  Forall (fun '(low, high) => exists m1 m2, check_float_bounds d "$" m1 m2 low high = Ok tt)
    (zip low high) ->
  exists ls hs,
    Forall2 (fun f v => decode_scalar (encode_float_bound f d) d = Some v) low ls /\
    Forall2 (fun f v => decode_scalar (encode_float_bound f d) d = Some v) high hs /\
    Forall (fun '(lo, hi) => exists zl zh,
      scalar_real d lo = Some (xint zl) /\ scalar_real d hi = Some (xint zh) /\ zl <= zh) (zip ls hs) /\
    Forall2 (same_bound lo hi d)
      ((fun '(l, h) => (finite_float l, finite_float h)) <$> zip low high)
      ((fun '(l, h) => (Some l, Some h)) <$> zip ls hs).
Proof.
  intros Hr. revert high; induction low as [|f low IH]; intros [|g high] Hl Hf; try done.
  { exists [], []. split_and!; constructor. }
  injection Hl as Hl. cbn in Hf. apply Forall_cons in Hf as [(m1 & m2 & Hc) Hf].
  destruct (IH high Hl Hf) as (ls & hs & H1 & H2 & H3 & H4).
  destruct (wire_pair d lo hi f g m1 m2 Hr Hc) as (l & h & zl & zh & Hdl & Hdh & Rl & Rh & Hz & Hs).
  exists (l :: ls), (h :: hs). cbn. split_and!; constructor; try done. by exists zl, zh.
Qed.

Lemma float_bounds_chunks d fs vs :
  d <> Unspecified ->
  Forall2 (fun f v => decode_scalar (encode_float_bound f d) d = Some v) fs vs ->
  Forall2 (fun bs v => decode_scalar bs d = Some v)
    (chunks_exact (dtype_size d) (encode_float_bounds fs d)) vs.
Proof. intros Hd Hf. rewrite encode_float_bounds_chunks by done. by apply Forall2_fmap_l. Qed.

Lemma float_bound_chunk d f v :
  d <> Unspecified -> decode_scalar (encode_float_bound f d) d = Some v ->
  Forall2 (fun bs v => decode_scalar bs d = Some v)
    (chunks_exact (dtype_size d) (encode_float_bound f d)) [v].
Proof.
  intros Hd Hv. rewrite <- (app_nil_r (encode_float_bound f d)).
  apply (float_bounds_chunks d [f] [v] Hd). by repeat constructor.
Qed.

Lemma dtype_size_fits d : Z.of_nat (dtype_size d) <= usize_max.
Proof. pose proof (dtype_size_le_8 d). unfold_ints. lia. Qed.

(** Bounds that validate still validate in their wire form. *)
Lemma wire_bounds_valid d n b :
  0 <= n -> d <> Unspecified -> bounds_exact d b -> bounds_valid b n d ->
  bounds_valid (wire_bounds d b) n d.
Proof.
  intros Hn Hd He Hv. unfold wire_bounds. destruct (is_float d) eqn:Hf; [done|].
  destruct b as [?|u|e|t|t]; try done; cbn [bounds_valid bounds_exact] in *.
  - destruct He as [Hi|[? _]]; [|congruence]. destruct (int_range_Some d Hi) as (lo & hi & Hr).
    destruct Hv as (m1 & m2 & Hc).
    destruct (wire_pair d lo hi _ _ m1 m2 Hr Hc) as (l & h & zl & zh & Hl & Hh & Rl & Rh & Hz & _).
    eapply (typed_bounds_valid d 1 _ _ [l] [h]); try done; try lia; rewrite ?Z.mul_1_l;
      cbn [typed_low typed_high];
      [apply dtype_size_fits|by apply float_bound_chunk|by apply float_bound_chunk|
       by rewrite encode_float_bound_length|by rewrite encode_float_bound_length|].
    repeat constructor. by exists zl, zh.
  - destruct He as [[Hi|[? _]] Ha]; [|congruence]. destruct (int_range_Some d Hi) as (lo & hi & Hr).
    destruct Hv as (Hl & Hln & Hp).
    destruct (wire_pairs d lo hi _ _ Hr Hl Hp) as (ls & hs & H1 & H2 & H3 & _).
    pose proof (dtype_size_le_8 d).
    eapply (typed_bounds_valid d n _ _ ls hs); try done; cbn [typed_elems_low typed_elems_high];
      [unfold_ints; nia|by apply float_bounds_chunks|by apply float_bounds_chunks|
       rewrite encode_float_bounds_length by done; lia..].
Qed.

(** *** Membership is kept *)

Lemma decode_typed_bounds_Some d b vs n :
  d <> Unspecified -> Z.of_nat (length b) = Z.of_nat n * Z.of_nat (dtype_size d) ->
  Forall2 (fun bs v => decode_scalar bs d = Some v) (chunks_exact (dtype_size d) b) vs ->
  Reference.decode_typed_bounds b (Z.of_nat n) d "$" = Some (Ok vs).
Proof.
  intros Hd Hb Hv. pose proof (dtype_size_pos d Hd).
  assert (Hl : length vs = n).
  { rewrite <- (Forall2_length _ _ _ Hv), length_chunks_exact.
    replace (length b) with (n * dtype_size d)%nat by lia. by apply Nat.div_mul; lia. }
  unfold Reference.decode_typed_bounds, decode_typed, decode_scalars. rewrite decide_False by done.
  replace (length b) with (n * dtype_size d)%nat by lia.
  rewrite Nat.Div0.mod_mul. cbn [Nat.eqb negb]. rewrite (proj2 (mapM_Some _ _ _) Hv). cbn.
  by rewrite Hl, Z.eqb_refl.
Qed.

(** On elements of the dtype the two bounds admit the same. *)
Definition equiv_bound (d : DType) (b b' : Bound) : Prop :=
  forall strict bytes v, length bytes = dtype_size d -> decode_scalar bytes d = Some v ->
    elem_fits strict d b v <-> elem_fits strict d b' v.

Lemma same_bound_equiv d lo hi b b' :
  int_range d = Some (lo, hi) -> same_bound lo hi d b b' -> equiv_bound d b b'.
Proof.
  intros Hr Hs strict bytes v Hl Hv.
  destruct (decode_elem_int d bytes) as (v' & Hv' & _ & Hx); [by destruct d|by intros ->|done|].
  rewrite Hv in Hv'. injection Hv' as <-.
  pose proof (elem_int_range d bytes ltac:(by destruct d) ltac:(by intros ->) Hl) as Hx'.
  assert (elem_range d = (lo, hi)) as Her by (destruct d; try done; by injection Hr as <- <-).
  rewrite Her in Hx'. cbn [fst snd] in Hx'. unfold elem_fits. rewrite Hx. specialize (Hs _ Hx').
  split; intros (x & [= <-] & Hw); exists (xint (elem_int d bytes)); (split; [done|]);
    intros Hst; by apply Hs, Hw.
Qed.

Lemma equiv_bound_refl d bs : Forall2 (equiv_bound d) bs bs.
Proof. induction bs; constructor; done. Qed.

Lemma equiv_repeat d b b' n : equiv_bound d b b' -> Forall2 (equiv_bound d) (repeat b n) (repeat b' n).
Proof. intros Hb. induction n; constructor; done. Qed.

Lemma box_bounds_equiv shape d bb n :
  d <> Unspecified -> bounds_exact d bb -> bounds_valid bb (Z.of_nat n) d ->
  let s b := mkSpec shape d (Some (KBox {| bounds := Some b |})) in
  option_Forall2 (Forall2 (equiv_bound d))
    (box_bounds_of (s bb) d (Z.of_nat n)) (box_bounds_of (s (wire_bounds d bb)) d (Z.of_nat n)).
Proof.
  intros Hd He Hv s.
  assert (Hsame : forall o, option_Forall2 (Forall2 (equiv_bound d)) o o).
  { intros [bs|]; constructor. apply equiv_bound_refl. }
  unfold wire_bounds. destruct (is_float d) eqn:Hf; [apply Hsame|].
  destruct bb as [?|u|e|t|t]; try apply Hsame; clear Hsame; cbn [bounds_exact bounds_valid] in *.
  - destruct He as [Hi|[? _]]; [|congruence]. destruct (int_range_Some d Hi) as (lo & hi & Hr).
    destruct Hv as (m1 & m2 & Hc).
    destruct (wire_pair d lo hi _ _ m1 m2 Hr Hc) as (l & h & zl & zh & Hl & Hh & Rl & Rh & Hz & Hs).
    unfold box_bounds_of, Reference.box_bounds.
    cbn [spec s bounds typed_low typed_high].
    rewrite (decode_typed_bounds_Some d _ [l] 1), (decode_typed_bounds_Some d _ [h] 1);
      try done; try (by apply float_bound_chunk);
      try (by rewrite encode_float_bound_length by done; lia).
    constructor. apply equiv_repeat. by eapply same_bound_equiv.
  - destruct He as [[Hi|[? _]] Ha]; [|congruence]. destruct (int_range_Some d Hi) as (lo & hi & Hr).
    destruct Hv as (Hl & Hln & Hp).
    destruct (wire_pairs d lo hi _ _ Hr Hl Hp) as (ls & hs & H1 & H2 & H3 & H4).
    unfold box_bounds_of, Reference.box_bounds.
    cbn [spec s bounds typed_elems_low typed_elems_high].
    rewrite <- Hl, Hln, Z.eqb_refl. cbn [negb orb].
    rewrite (decode_typed_bounds_Some d _ ls n), (decode_typed_bounds_Some d _ hs n);
      try done; try (by apply float_bounds_chunks);
      try (rewrite encode_float_bounds_length by done; lia).
    constructor. eapply Forall2_impl; [exact H4|]. intros b b' Hb. by eapply same_bound_equiv.
Qed.

Lemma wire_form_eq s :
  wire_form s
  = mkSpec (space_shape s) (space_dtype s)
      match spec s with
      | Some (KBox b) => Some (KBox {| bounds := wire_bounds (space_dtype s) <$> bounds b |})
      | Some (KDict d) => Some (KDict (mkDictSpec (keys d) (wire_form <$> dict_spaces d)))
      | Some (KTuple t) => Some (KTuple (mkTupleSpec (wire_form <$> tuple_spaces t)))
      | k => k
      end.
Proof. by destruct s. Qed.

Lemma wire_form_cases s :
  wire_form s = s \/ (exists b, spec s = Some (KBox b)) \/
  (exists d, spec s = Some (KDict d)) \/ (exists t, spec s = Some (KTuple t)).
Proof. destruct s as [sh d [[]|]]; eauto 10. Qed.

(** A valid box, taken apart. *)
Lemma valid_box_parts s b :
  spec s = Some (KBox b) -> node_valid s -> node_typed s ->
  exists bb n, s = mkSpec (space_shape s) (space_dtype s) (Some (KBox {| bounds := Some bb |})) /\
    b = {| bounds := Some bb |} /\ space_dtype s <> Unspecified /\ space_shape s <> [] /\
    Forall (fun d => 0 < d) (space_shape s) /\ usize_product 1 (space_shape s) = Some (Z.of_nat n) /\
    Z.of_nat n = volume (space_shape s) /\ bounds_valid bb (Z.of_nat n) (space_dtype s).
Proof.
  intros Hs Hv [Hi _]. unfold node_valid in Hv. rewrite Hs in Hv.
  rewrite validate_space_at_eq in Hv. unfold space_type in Hv. rewrite Hs in Hv.
  apply (validate_box_iff s b Hs) in Hv as (Hne & Hd & Hp & n & bb & Hn & Hb & Hbv).
  assert (Hdims : dims_ok (space_shape s)).
  { apply Forall_and. split; [eapply Forall_impl; [exact Hp|]; cbn; intros; lia|].
    eapply Forall_impl; [exact Hi|]. cbn. unfold is_i64. intros; lia. }
  pose proof (usize_product_spec _ _ _ Hdims Hn) as Hvol. pose proof (volume_nonneg _ Hdims).
  rewrite Z.mul_1_l in Hvol. exists bb, (Z.to_nat n). rewrite Z2Nat.id by lia.
  destruct s as [sh d k], b as [bs]. cbn [spec space_shape space_dtype bounds] in *. subst.
  split_and!; done.
Qed.

Lemma wire_form_valid s : valid s -> typed s -> spec_all node_exact s -> valid (wire_form s).
Proof.
  induction s as [s IH] using SpaceSpec_ind'; intros Hv Ht He.
  inversion Hv as [? Hn Hvc]; subst. inversion Ht as [? Hnt Htc]; subst.
  inversion He as [? Hne Hec]; subst.
  assert (IH' : Forall valid (wire_form <$> children s)).
  { apply Forall_fmap, Forall_forall. intros c Hin. rewrite Forall_forall in IH, Hvc, Htc, Hec.
    apply (IH c Hin); [by apply Hvc|by apply Htc|by apply Hec]. }
  destruct (wire_form_cases s) as [->|[(b & Hs)|[(d & Hs)|(t & Hs)]]]; [done|..]; clear IH Hv Ht He;
    rewrite wire_form_eq; unfold children in IH'; rewrite Hs in *;
    constructor; unfold children; cbn [spec]; try done.
  - destruct (valid_box_parts s b Hs Hn Hnt) as (bb & n & Hs' & -> & Hd & Hne' & Hp & Hu & Hvol & Hbv).
    unfold node_valid. cbn [spec]. rewrite validate_space_at_eq. cbn [space_type spec].
    eapply validate_box_iff; [done|]. cbn [space_shape space_dtype bounds fmap option_fmap option_map].
    unfold node_exact in Hne. rewrite Hs in Hne. cbn in Hne.
    split_and!; try done. eexists _, _. split_and!; [done..|]. apply wire_bounds_valid; done || lia.
  - unfold node_valid in *. rewrite Hs in Hn. cbn. rewrite length_fmap. naive_solver.
  - unfold node_valid in *. rewrite Hs in Hn. done.
Qed.

(** *** The trip itself *)

Lemma dtype_wire d :
  native_dtype_from_proto (data_type_to_i32 (proto_dtype_from_native d)) = Ok d.
Proof. by destruct d. Qed.

Lemma typed_lengths low high n d :
  0 <= n -> validate_typed_bounds low high n d "$" = Some (Ok tt) ->
  Z.of_nat (length low) = n * Z.of_nat (dtype_size d) /\
  Z.of_nat (length high) = n * Z.of_nat (dtype_size d) /\
  n * Z.of_nat (dtype_size d) <= usize_max.
Proof.
  intros Hn. unfold validate_typed_bounds. case_decide; [done|].
  unfold checked_usize. destruct (checked _ _ _) as [m|] eqn:Hm; cbn [ok_or]; [|done].
  apply checked_Some in Hm as [-> Hm]. destruct (_ || _) eqn:Hl; [done|].
  apply orb_false_iff in Hl as [Hl Hh]. intros _. lia.
Qed.

Lemma bounds_trip d shape n b :
  d <> Unspecified -> shape <> [] -> Forall (fun d => 0 < d) shape ->
  usize_product 1 shape = Some (Z.of_nat n) ->
  bounds_exact d b -> bounds_valid b (Z.of_nat n) d ->
  box_bounds_from_proto (box_bounds_to_proto b d) d shape = Some (Ok (wire_bounds d b)).
Proof.
  intros Hd Hne Hp Hu He Hv. pose proof (dtype_size_fits d) as Hsz. pose proof (dtype_size_le_8 d) as Hs8.
  assert (Hnumel : checked_box_shape_numel shape = Ok (Z.of_nat n)).
  { unfold checked_box_shape_numel. destruct shape as [|d0 ds] eqn:Hs; [done|]. rewrite <- Hs in *.
    by rewrite box_shape_numel_loop_Ok, Hu. }
  unfold wire_bounds. destruct b as [?|u|e|t|t]; cbn [box_bounds_to_proto box_bounds_from_proto
    bounds_valid bounds_exact] in *.
  - by destruct (is_float d).
  - rewrite bound_lengths_Ok by (done || lia || (rewrite encode_float_bound_length by done; lia)).
    destruct (is_float d) eqn:Hf; [|done]. destruct He as [Hi|(_ & Hl & Hh)]; [by destruct d|].
    rewrite Hl, Hh. by destruct u.
  - destruct Hv as (Hlh & Hn & _). destruct He as [He Ha]. rewrite Hnumel.
    rewrite bound_lengths_Ok by
      (done || lia || (rewrite encode_float_bounds_length by done; lia) || (unfold_ints; nia)).
    destruct (is_float d) eqn:Hf; [|done]. destruct He as [Hi|(_ & Hl & Hh)]; [by destruct d|].
    rewrite !decode_float_bounds_exact by done. by destruct e.
  - destruct (typed_lengths _ _ 1 d ltac:(lia) Hv) as (H1 & H2 & H3).
    rewrite bound_lengths_Ok by (done || lia). rewrite He. by destruct t.
  - destruct (typed_lengths _ _ (Z.of_nat n) d ltac:(lia) Hv) as (H1 & H2 & H3).
    rewrite Hnumel, bound_lengths_Ok by (done || lia). rewrite He. by destruct t.
Qed.

Lemma collect_trip l :
  Forall (fun s => space_spec_from_proto (space_spec_to_proto s) = Some (Ok (wire_form s))) l ->
  collect_specs_from space_spec_from_proto (space_spec_to_proto <$> l) = Some (Ok (wire_form <$> l)).
Proof. intros Hl. induction Hl as [|s l Hs _ IH]; [done|]. cbn. by rewrite Hs, IH. Qed.

Lemma space_spec_from_proto_eq shape dtype k :
  space_spec_from_proto (mkProto shape dtype k)
  = let!? dtype := Some (native_dtype_from_proto dtype) in
    let!? kind :=
      match k with
      | None => Some (Ok None)
      | Some kind =>
          let!? kind := space_kind_from_proto space_spec_from_proto kind dtype shape in
          Some (Ok (Some kind))
      end in
    let s := mkSpec shape dtype kind in
    let! v := validate_space s in
    let!? _ := Some (map_err (fun err => DecodeError (space_error_message err)) v) in
    Some (Ok s).
Proof. done. Qed.

Lemma space_spec_to_proto_eq s :
  space_spec_to_proto s
  = mkProto (space_shape s) (data_type_to_i32 (proto_dtype_from_native (space_dtype s)))
      match spec s with
      | Some kind => Some (space_kind_to_proto space_spec_to_proto kind (space_dtype s))
      | None => None
      end.
Proof. by destruct s. Qed.

Lemma spec_trip s :
  valid s -> typed s -> spec_all node_exact s ->
  space_spec_from_proto (space_spec_to_proto s) = Some (Ok (wire_form s)).
Proof.
  induction s as [s IH] using SpaceSpec_ind'; intros Hv Ht He.
  pose proof (wire_form_valid s Hv Ht He) as Hw. apply (validate_space_Ok _ "$") in Hw.
  inversion Hv as [? Hn Hvc]; subst. inversion Ht as [? Hnt Htc]; subst.
  inversion He as [? Hne Hec]; subst.
  assert (IH' : Forall (fun s => space_spec_from_proto (space_spec_to_proto s) = Some (Ok (wire_form s)))
                  (children s)).
  { apply Forall_forall. intros c Hin. rewrite Forall_forall in IH, Hvc, Htc, Hec.
    apply (IH c Hin); [by apply Hvc|by apply Htc|by apply Hec]. }
  clear IH Hv Ht He Hvc Htc Hec.
  rewrite space_spec_to_proto_eq, space_spec_from_proto_eq, dtype_wire.
  rewrite wire_form_eq in Hw |- *. unfold children, node_valid in *.
  destruct (spec s) as [[b|[n st]|[]|[nv]|[mi ma cs]|d|t]|] eqn:Hs; try done;
    try (unfold space_kind_to_proto, space_kind_from_proto, validate_space;
         cbn [discrete_n discrete_start nvec min_length max_length charset]; by rewrite Hw).
  - destruct (valid_box_parts s b) as (bb & n & Hs' & -> & Hd & Hne' & Hp & Hu & Hvol & Hbv);
      [done|unfold node_valid; by rewrite Hs|done|].
    unfold node_exact in Hne. rewrite Hs in Hne. cbn in Hne.
    cbn [space_kind_to_proto space_kind_from_proto bounds fmap option_fmap option_map].
    rewrite (bounds_trip _ _ n bb) by done. unfold validate_space.
    cbn [bounds fmap option_fmap option_map] in Hw. by rewrite Hw.
  - unfold space_kind_to_proto, space_kind_from_proto. rewrite collect_trip by done.
    unfold validate_space. by rewrite Hw.
  - unfold space_kind_to_proto, space_kind_from_proto. rewrite collect_trip by done.
    unfold validate_space. by rewrite Hw.
Qed.

(** *** Membership over a whole tree *)

Lemma Forall2_impl_Forall {A B} (P : B -> Prop) (R R' : A -> B -> Prop) l k :
  Forall P k -> Forall2 R l k -> (forall x y, P y -> R x y -> R' x y) -> Forall2 R' l k.
Proof.
  intros Hk Hl Hi. induction Hl; [constructor|]. apply Forall_cons in Hk as [? ?].
  constructor; auto.
Qed.

Lemma elems_equiv strict d data vs bs bs' :
  decode_scalars data d = Some (Ok vs) -> Forall2 (equiv_bound d) bs bs' ->
  Forall2 (elem_fits strict d) bs vs <-> Forall2 (elem_fits strict d) bs' vs.
Proof.
  intros Hdec Hb.
  assert (Hv : Forall (fun v => exists bytes, length bytes = dtype_size d /\
                 decode_scalar bytes d = Some v) vs).
  { unfold decode_scalars in Hdec. case_decide; [done|]. case_match; [done|].
    destruct (mapM _ _) as [vs'|] eqn:E; [|done]. injection Hdec as <-. apply mapM_Some in E.
    apply Forall_lookup. intros k v Hk. destruct (Forall2_lookup_r _ _ _ _ _ E Hk) as (c & Hc & Hd).
    exists c. split; [|done]. by apply (Forall_lookup_1 _ _ _ _ (chunks_exact_Forall _ _) Hc). }
  clear Hdec. revert vs Hv; induction Hb as [|b b' bs bs' Hb _ IH]; intros [|v vs] Hv;
    [done|split; by inversion 1..|].
  apply Forall_cons in Hv as [(bytes & Hl & Hd) Hv].
  rewrite !Forall2_cons, (IH vs Hv), (Hb strict bytes v Hl Hd). done.
Qed.

Lemma wire_fits_box strict s b v :
  spec s = Some (KBox b) -> node_valid s -> node_typed s -> node_exact s ->
  fits strict s v <-> fits strict (wire_form s) v.
Proof.
  intros Hs Hn Ht Hne.
  destruct (valid_box_parts s b Hs Hn Ht) as (bb & n & Hs' & -> & Hd & _ & _ & _ & Hvol & Hbv).
  unfold node_exact in Hne. rewrite Hs in Hne. cbn in Hne.
  pose proof (box_bounds_equiv (space_shape s) (space_dtype s) bb n Hd Hne Hbv) as He. cbv beta zeta in He.
  rewrite <- Hs', Hvol in He.
  assert (Hw : wire_form s = mkSpec (space_shape s) (space_dtype s)
    (Some (KBox {| bounds := Some (wire_bounds (space_dtype s) bb) |}))).
  { rewrite wire_form_eq, Hs. done. }
  rewrite Hw. split; intros Hf; inversion Hf as [? ? t bytes bs vs ? Hwf Hsh Hdt Hb Hdec Hel| | | | | |];
    subst; cbn [spec space_shape space_dtype] in *; try congruence; rewrite Hsh, Hdt in *;
    rewrite Hb in He; inversion He as [bs1 bs2 Heq|]; subst;
    (eapply fits_box; [done|done|done|done|by rewrite Hsh, Hdt|by rewrite Hdt|]); rewrite Hdt.
  - by apply (elems_equiv _ _ _ _ _ _ Hdec Heq).
  - by apply (elems_equiv _ _ _ _ _ _ Hdec Heq).
Qed.

Lemma wire_fits strict s v :
  valid s -> typed s -> spec_all node_exact s ->
  fits strict s v <-> fits strict (wire_form s) v.
Proof.
  revert v; induction s as [s IH] using SpaceSpec_ind'; intros v Hv Ht He.
  inversion Hv as [? Hn Hvc]; subst. inversion Ht as [? Hnt Htc]; subst.
  inversion He as [? Hne Hec]; subst.
  assert (IH' : Forall (fun s => forall v, fits strict s v <-> fits strict (wire_form s) v) (children s)).
  { apply Forall_forall. intros c Hin v'. rewrite Forall_forall in IH, Hvc, Htc, Hec.
    apply (IH c Hin); [by apply Hvc|by apply Htc|by apply Hec]. }
  clear IH Hv Ht He Hvc Htc Hec.
  destruct (wire_form_cases s) as [->|[(b & Hs)|[(d & Hs)|(t & Hs)]]]; [done|by eapply wire_fits_box|..];
    rewrite wire_form_eq, Hs; unfold children in IH'; rewrite Hs in IH'.
  - split; intros Hf; inversion Hf as [| | | | |? d' m Hs' Hc Hk|]; subst;
      cbn [spec] in *; try congruence; [rewrite Hs in Hs'|]; injection Hs' as <-; (eapply fits_dict; [done| |done]);
      cbn [keys dict_spaces] in *.
    + apply Forall2_fmap_r. eapply Forall2_impl_Forall; [exact IH'|exact Hc|]. cbn.
      intros k c Hc' (w & Hw & Hfw). exists w. split; [done|]. by apply Hc'.
    + apply Forall2_fmap_r in Hc. eapply Forall2_impl_Forall; [exact IH'|exact Hc|]. cbn.
      intros k c Hc' (w & Hw & Hfw). exists w. split; [done|]. by apply Hc'.
  - split; intros Hf; inversion Hf as [| | | | | |? t' vals Hs' Hc]; subst;
      cbn [spec] in *; try congruence; [rewrite Hs in Hs'|]; injection Hs' as <-; (eapply fits_tuple; [done|]);
      cbn [tuple_spaces] in *.
    + apply Forall2_fmap_l, Forall2_flip. apply Forall2_flip in Hc.
      eapply Forall2_impl_Forall; [exact IH'|exact Hc|]. intros w c Hc'. apply Hc'.
    + rewrite Forall2_fmap_l in Hc. apply Forall2_flip in Hc. apply Forall2_flip.
      eapply Forall2_impl_Forall; [exact IH'|exact Hc|]. intros w c Hc'. apply Hc'.
Qed.
End Roundtrip.

(** ** Decoding a peer's spec *)

Definition proto_children (p : ProtoSpec) : list ProtoSpec :=
  match p with
  | mkProto _ _ (Some (PDict _ spaces | PTuple spaces)) => spaces
  | _ => []
  end.

Lemma ProtoSpec_ind' (P : ProtoSpec -> Prop) :
  (forall p, Forall P (proto_children p) -> P p) -> forall p, P p.
Proof.
  intros Hind. fix IH 1. intros [sh dt k]. apply Hind. unfold proto_children.
  destruct k as [[| | | | |ks sp|sp]|]; try apply Forall_nil_2.
  - induction sp as [|c sp IHsp]; constructor; [apply IH|exact IHsp].
  - induction sp as [|c sp IHsp]; constructor; [apply IH|exact IHsp].
Qed.

Section Decoding.
Context `{HalfOps}.

Lemma validate_lengths_Ok low high count d :
  0 <= count -> validate_bound_byte_lengths low high count d = Ok tt ->
  d <> Unspecified /\ Z.of_nat (length low) = count * Z.of_nat (dtype_size d) /\
  Z.of_nat (length high) = count * Z.of_nat (dtype_size d).
Proof.
  intros Hc. unfold validate_bound_byte_lengths.
  destruct (Nat.eqb_spec (dtype_size d) 0) as [|Hz]; [done|].
  unfold checked_usize. destruct (checked _ _ _) as [n|] eqn:Hn; cbn [ok_or]; [|done].
  apply checked_Some in Hn as [-> _]. cbn [try_for_each].
  destruct (Z.eqb_spec (Z.of_nat (length low)) (count * Z.of_nat (dtype_size d))); cbn [negb]; [|done].
  destruct (Z.eqb_spec (Z.of_nat (length high)) (count * Z.of_nat (dtype_size d))); cbn [negb]; [|done].
  intros _. split_and!; try done. by intros ->.
Qed.

Lemma decode_float_bound_total bytes d :
  is_float d = true -> length bytes = dtype_size d -> is_Some (decode_float_bound bytes d).
Proof. intros Hf Hl. destruct d; try done; unfold decode_float_bound; rewrite Hl; cbn; by eexists. Qed.

Lemma decode_float_bounds_total bytes d : is_float d = true -> is_Some (decode_float_bounds bytes d).
Proof.
  intros Hf. apply mapM_is_Some_2. eapply Forall_impl; [apply chunks_exact_Forall|].
  intros c Hc. by apply decode_float_bound_total.
Qed.

Lemma box_bounds_from_proto_total b d shape : is_Some (box_bounds_from_proto b d shape).
Proof.
  destruct b as [?|low high|low high]; cbn [box_bounds_from_proto]; [by eexists|..].
  - destruct (validate_bound_byte_lengths low high 1 d) as [[]|] eqn:Hl; [|by eexists].
    apply validate_lengths_Ok in Hl as (_ & Hl & Hh); [|lia].
    destruct (is_float d) eqn:Hf; [|by eexists].
    destruct (decode_float_bound_total low d Hf ltac:(lia)) as [l ->].
    destruct (decode_float_bound_total high d Hf ltac:(lia)) as [h ->]. by eexists.
  - destruct (checked_box_shape_numel shape) as [n|]; [|by eexists].
    destruct (validate_bound_byte_lengths low high n d) as [[]|]; [|by eexists].
    destruct (is_float d) eqn:Hf; [|by eexists].
    destruct (decode_float_bounds_total low d Hf) as [l ->].
    destruct (decode_float_bounds_total high d Hf) as [h ->]. by eexists.
Qed.

Lemma collect_specs_from_total l :
  Forall (fun p => is_Some (space_spec_from_proto p)) l ->
  is_Some (collect_specs_from space_spec_from_proto l).
Proof.
  intros Hl. induction Hl as [|p l [r Hp] _ [rs IH]]; [by eexists|]. cbn [collect_specs_from].
  rewrite Hp, IH. destruct r; [|by eexists]. destruct rs; by eexists.
Qed.

Lemma space_spec_from_proto_Some p : is_Some (space_spec_from_proto p).
Proof.
  induction p as [[sh dt k] IH] using ProtoSpec_ind'. rewrite space_spec_from_proto_eq.
  destruct (native_dtype_from_proto dt) as [d|]; [|by eexists].
  set (kind := match k with None => _ | Some _ => _ end).
  assert (Hk : is_Some kind).
  { subst kind. destruct k as [k|]; [|by eexists].
    assert (is_Some (space_kind_from_proto space_spec_from_proto k d sh)) as [[|] ->];
      [|by eexists|by eexists].
    destruct k as [b| | | | |ks sp|sp]; try (by eexists).
    - cbn [space_kind_from_proto]. destruct b as [b|]; [|by eexists].
      destruct (box_bounds_from_proto_total b d sh) as [[|] ->]; by eexists.
    - unfold space_kind_from_proto. destruct (collect_specs_from_total sp IH) as [[|] ->]; by eexists.
    - unfold space_kind_from_proto. destruct (collect_specs_from_total sp IH) as [[|] ->]; by eexists. }
  destruct Hk as [[k'|] ->]; [|by eexists]. cbv zeta.
  destruct (validate_space_at_total (mkSpec sh d k') "$") as [v Hv]. unfold validate_space.
  rewrite Hv. destruct v; by eexists.
Qed.

Lemma space_spec_from_proto_valid p s : space_spec_from_proto p = Some (Ok s) -> valid s.
Proof.
  destruct p as [sh dt k]. rewrite space_spec_from_proto_eq.
  destruct (native_dtype_from_proto dt) as [d|]; [|done].
  destruct (match k with None => _ | Some _ => _ end) as [[k'|]|]; try done. cbv zeta.
  destruct (validate_space (mkSpec sh d k')) as [[[]|]|] eqn:Hv; try done.
  intros [= <-]. by apply validate_space_Ok in Hv.
Qed.
End Decoding.

(** ** Metadata survives the wire *)

Inductive meta_wf : MetaValue -> Prop :=
| meta_wf_null : meta_wf MNull
| meta_wf_bool b : meta_wf (MBool b)
| meta_wf_int i : meta_wf (MInt i)
| meta_wf_float f : meta_wf (MFloat f)
| meta_wf_string s : meta_wf (MString s)
| meta_wf_bytes b : meta_wf (MBytes b)
| meta_wf_list l : Forall meta_wf l -> meta_wf (MList l)
| meta_wf_map m : btree_sorted m -> Forall (fun e => meta_wf e.2) m -> meta_wf (MMap m).

Definition meta_map_wf (m : MetaMap) : Prop := btree_sorted m /\ Forall (fun e => meta_wf e.2) m.

Lemma MetaValue_ind' (P : MetaValue -> Prop) :
  (forall v,
     match v with
     | MList l => Forall P l
     | MMap m => Forall (fun e => P e.2) m
     | _ => True
     end -> P v) -> forall v, P v.
Proof.
  intros Hind. fix IH 1. intros v. apply Hind. destruct v as [| | | | | |l|m]; try exact I.
  - induction l as [|x l IHl]; constructor; [apply IH|exact IHl].
  - induction m as [|[k x] m IHm]; constructor; [apply IH|exact IHm].
Qed.

Lemma collect_btree_get {V} (l : list (string * V)) m k :
  btree_get k (fold_left (fun m '(k, v) => btree_insert k v m) l m)
  = fold_left (fun (acc : option V) '(k', v) => if String.eqb k k' then Some v else acc) l
      (btree_get k m).
Proof.
  revert m; induction l as [|[k' v] l IH]; intros m; [done|]. cbn. rewrite IH. f_equal.
  apply btree_get_insert.
Qed.

Lemma collect_btree_sorted {V} (l : list (string * V)) m :
  btree_sorted m -> btree_sorted (fold_left (fun m '(k, v) => btree_insert k v m) l m).
Proof.
  revert m; induction l as [|[k v] l IH]; intros m Hm; [done|]. cbn. by apply IH, btree_insert_sorted.
Qed.

Lemma last_wins {V} (l : list (string * V)) k acc :
  NoDup l.*1 ->
  fold_left (fun (acc : option V) '(k', v) => if String.eqb k k' then Some v else acc) l acc
  = match btree_get k l with Some v => Some v | None => acc end.
Proof.
  revert acc; induction l as [|[k' v] l IH]; intros acc Hn; [done|].
  cbn in Hn. apply NoDup_cons in Hn as [Hk Hn]. cbn. rewrite IH by done.
  destruct (String.eqb_spec k k') as [->|]; [|done].
  by rewrite (proj2 (btree_get_None k' l) Hk).
Qed.

Lemma get_permutation {V} (l l' : list (string * V)) k :
  NoDup l.*1 -> l ≡ₚ l' -> btree_get k l = btree_get k l'.
Proof.
  intros Hn Hp. induction Hp as [|[k1 v1] l l' _ IH|[k1 v1] [k2 v2] l|l l' l'' H1 IH1 H2 IH2];
    [done|..].
  - cbn in *. apply NoDup_cons in Hn as [_ Hn]. by rewrite IH.
  - cbn in *. destruct (String.eqb_spec k k1) as [E1|], (String.eqb_spec k k2) as [E2|]; try done.
    apply NoDup_cons in Hn as [Hk _]. subst. set_solver.
  - rewrite IH1 by done. apply IH2. by rewrite <- H1.
Qed.

(** A map collected from its entries in any order. *)
Lemma collect_btree_id {V} (m l : list (string * V)) :
  btree_sorted m -> m ≡ₚ l -> collect_btree l = m.
Proof.
  intros Hm Hp. pose proof (btree_keys_NoDup m Hm) as Hn. unfold btree_keys in Hn.
  apply btree_ext; [by apply collect_btree_sorted; constructor|done|]. intros k.
  unfold collect_btree. rewrite collect_btree_get, last_wins by (by rewrite <- Hp).
  rewrite <- (get_permutation m l k Hn Hp). by destruct (btree_get k m).
Qed.

Lemma entries_trip (m : list (string * MetaValue)) :
  Forall (fun e => meta_value_from_proto (meta_value_to_proto e.2) = e.2) m ->
  ((fun '(key, value) => (key, meta_value_from_proto value)) <$>
   ((fun '(key, value) => (key, meta_value_to_proto value)) <$> m)) = m.
Proof.
  intros Hm. induction Hm as [|[k v] m Hv _ IH]; [done|]. cbn in *. by rewrite Hv, IH.
Qed.

Lemma meta_value_trip v : meta_wf v -> meta_value_from_proto (meta_value_to_proto v) = v.
Proof.
  induction v as [v IH] using MetaValue_ind'. intros Hw.
  destruct Hw as [| | | | | |l Hl|m Hs Hm]; try done.
  - cbn. f_equal. rewrite <- list_fmap_compose. clear - IH Hl.
    induction Hl; [done|]. apply Forall_cons in IH as [? IH]. cbn. f_equal; auto.
  - cbn. f_equal. rewrite entries_trip; [by apply collect_btree_id|].
    clear - IH Hm. induction Hm; [constructor|]. apply Forall_cons in IH as [? IH].
    constructor; auto.
Qed.

(** ** Properties *)

Section Properties.
Context `{HalfOps}.


(** C27: decoding a spec sent by a peer panics on no message, however malformed,
    and a spec it accepts is valid. *)
Theorem spec_decode_safe (p : ProtoSpec) :
  is_Some (space_spec_from_proto p) /\
  forall s, space_spec_from_proto p = Some (Ok s) -> validate_space s = Some (Ok tt).
Proof.
  split; [apply space_spec_from_proto_Some|].
  intros s Hs. by eapply validate_space_Ok, space_spec_from_proto_valid.
Qed.

Lemma transpose_trip (o : option SpaceSpec) :
  (forall s, o = Some s -> valid s /\ typed s /\ spec_all node_exact s) ->
  transpose_from (space_spec_to_proto <$> o) = Some (Ok (wire_form <$> o)).
Proof.
  destruct o as [s|]; [|done]. intros Ho. destruct (Ho s eq_refl) as (Hv & Ht & He).
  cbn [fmap option_fmap option_map transpose_from]. by rewrite spec_trip.
Qed.

(** A contract sent over the wire comes back with every field equal but the
    spaces, which come back in wire form (with the same members), in whatever
    order the metadata entries are carried. *)
Theorem contract_roundtrip (c : EnvContract) (entries : list (string * ProtoMetaValue)) :
  (forall s, action_space c = Some s -> validate_space s = Some (Ok tt) /\ typed s /\ spec_all node_exact s) ->
  (forall s, observation_space c = Some s -> validate_space s = Some (Ok tt) /\ typed s /\ spec_all node_exact s) ->
  (forall m, metadata c = Some m -> meta_map_wf m /\ meta_map_to_proto m ≡ₚ entries) ->
  let p := env_contract_to_proto c in
  let p' := {|
    pc_spec := Some {|
      pe_id := contract_id c;
      pe_action_space := space_spec_to_proto <$> action_space c;
      pe_observation_space := space_spec_to_proto <$> observation_space c;
      pe_metadata := (fun _ => entries) <$> metadata c |};
    pc_num_envs := pc_num_envs p;
    pc_render_mode := pc_render_mode p;
    pc_autoreset_mode := pc_autoreset_mode p |} in
  env_contract_from_proto p' = Some (Ok {|
    contract_id := contract_id c;
    action_space := wire_form <$> action_space c;
    observation_space := wire_form <$> observation_space c;
    metadata := metadata c;
    render_mode := render_mode c;
    num_envs := num_envs c;
    autoreset_mode := autoreset_mode c |}).
Proof.
  intros Ha Ho Hm p p'. unfold env_contract_from_proto. cbn [pc_autoreset_mode p' p env_contract_to_proto].
  rewrite (proj2 discriminants_roundtrip). subst p p'.
  unfold default, env_spec_from_proto.
  cbn [map_err pc_spec from_option id pe_action_space pe_observation_space].
  rewrite !transpose_trip.
  - cbn. f_equal. f_equal. f_equal. destruct (metadata c) as [m|]; [|done]. cbn. f_equal.
    destruct (Hm m eq_refl) as [[Hs Hw] Hp]. unfold meta_map_from_proto.
    apply collect_btree_id; [done|]. rewrite <- Hp. unfold meta_map_to_proto.
    rewrite entries_trip; [done|]. eapply Forall_impl; [exact Hw|]. intros e. apply meta_value_trip.
  - intros s Hs. destruct (Ho s Hs) as (Hv & ? & ?). by apply validate_space_Ok in Hv.
  - intros s Hs. destruct (Ha s Hs) as (Hv & ? & ?). by apply validate_space_Ok in Hv.
Qed.
End Properties.

(** A boolean Box with a float-form low bound other than zero does not
    survive the wire: the packing maps every non-zero bound to true, so a valid
    space with bounds -1 and 0, which admits exactly false, is sent as low true
    and high false and is rejected by the decoder. *)
Theorem bool_box_wire_rejected `{HalfOps} :
  let s := mkSpec [1] Bool (Some (KBox {| bounds := Some (Uniform
             {| uniform_low := f64_of_Z (-1); uniform_high := f64_of_Z 0 |}) |})) in
  validate_space s = Some (Ok tt) /\
  (exists e, space_spec_from_proto (space_spec_to_proto s) = Some (Err e)).
Proof.
  split; [by vm_compute|]. eexists. vm_compute. reflexivity.
Qed.

(** ** Witnesses *)

(** The bytes box of the example, with float-form bounds on an integer dtype,
    and the count and word beside it are exact on the wire. *)
Lemma example_exact : spec_all (node_exact (H := ieee_half)) example_space.
Proof.
  constructor; [exact I|].
  apply Forall_cons_2; [constructor; [left; reflexivity|apply Forall_nil_2]|].
  apply Forall_cons_2; [|apply Forall_nil_2]. constructor; [exact I|].
  apply Forall_cons_2; [|apply Forall_cons_2; [|apply Forall_nil_2]];
    (constructor; [exact I|apply Forall_nil_2]).
Qed.


Lemma spec_decode_safe_witness :
  exists e, space_spec_from_proto (H := ieee_half)
    (mkProto [0] 11 (Some (PBox (Some (PUniform [] []))))) = Some (Err e).
Proof.
  destruct (spec_decode_safe (H := ieee_half) (mkProto [0] 11 (Some (PBox (Some (PUniform [] []))))))
    as [[r Hr] _].
  rewrite Hr. vm_compute in Hr. injection Hr as <-. eexists. reflexivity.
Defined.

Definition example_contract : EnvContract := {|
  contract_id := "env";
  action_space := None;
  observation_space := Some example_space;
  metadata := Some [("fps", MInt 30); ("name", MString "cart")];
  render_mode := "rgb_array";
  num_envs := 4;
  autoreset_mode := NextStep;
|}.

Lemma contract_roundtrip_witness :
  exists c, env_contract_from_proto (H := ieee_half) {|
      pc_spec := Some {|
        pe_id := "env";
        pe_action_space := None;
        pe_observation_space := Some (space_spec_to_proto (H := ieee_half) example_space);
        pe_metadata := Some [("name", mkProtoMeta (Some (PString "cart")));
                             ("fps", mkProtoMeta (Some (PInteger 30)))] |};
      pc_num_envs := 4;
      pc_render_mode := "rgb_array";
      pc_autoreset_mode := 1 |} = Some (Ok c) /\
    metadata c = metadata example_contract.
Proof.
  eexists. split.
  - apply (contract_roundtrip (H := ieee_half) example_contract
      [("name", mkProtoMeta (Some (PString "cart"))); ("fps", mkProtoMeta (Some (PInteger 30)))]).
    + intros s Hs. discriminate.
    + intros s [= <-]. split; [vm_compute; reflexivity|]. split; [exact example_typed|exact example_exact].
    + intros m [= <-]. split.
      * split; [by apply btree_sortedb_spec|]. apply Forall_cons_2; [apply meta_wf_int|].
        apply Forall_cons_2; [apply meta_wf_string|apply Forall_nil_2].
      * apply perm_swap.
  - reflexivity.
Defined.
