(* ===== verification/Leaves.v ===== *)
(** * The wire form of values

    [rlmesh-grpc/src/wire/value/]: the leaf codec ([leaves.rs]), the integer
    sequences ([scalars.rs]), a tensor's bytes ([codec.rs]) and the batched and
    single entry points ([batch.rs], [payload.rs]).  A [None] result is a panic.

    The slab codecs run in parallel above a size threshold, with the results in
    the same order; when several columns fail, the parallel path may report
    another column's error than the sequential one modelled here. *)

From S2P Require Import Prelude Utf8 BTree Float DType Scalar Tensor Types Fundamental BoxSpace BoxValue Spaces Walk WireSpaces.
#[local] Open Scope string_scope.
#[local] Open Scope Z_scope.

(** The results of a fallible map, in order, up to the first failure:
    [.map(f).collect::<Result<Vec<_>, _>>()]. *)
Fixpoint collect_map {A B E} (f : nat -> A -> option (result B E)) (i : nat) (l : list A)
    : option (result (list B) E) :=
  match l with
  | [] => Some (Ok [])
  | x :: l =>
      let!? y := f i x in
      let!? ys := collect_map f (S i) l in
      Some (Ok (y :: ys))
  end.

(** ** Scalars *)

Section Scalars.
Context `{HalfOps}.

Definition float_to_int (value : f64) : result Z ProtocolError :=
  if negb (f64_is_finite value) then
    Err (DecodeError (Msg "non-finite value {value} is not a valid integer" [AF64 (f64_bits value)]))
  else if negb (f64_eqb (f64_fract value) f64_zero) then
    Err (DecodeError (Msg "fractional value {value} is not a valid integer" [AF64 (f64_bits value)]))
  else if f64_lt value (f64_neg_pow2 63) || f64_ge value (f64_pow2 63) then
    Err (DecodeError (Msg "value {value} is out of range for a 64-bit integer" [AF64 (f64_bits value)]))
  else Ok (f64_as_int i64_min i64_max value).

Definition encode_int_sequence (values : list Z) (dtype : DType)
    : option (result (list byte) ProtocolError) :=
  let! r := encode_scalars (SInt <$> values) dtype in
  Some (map_err (fun _ => EncodeError
    (Msg "unsupported scalar encoding for dtype {dtype:?}" [AStr (dtype_debug dtype)])) r).

Definition wire_decode_scalars (bytes : list byte) (dtype : DType)
    : option (result (list Scalar) ProtocolError) :=
  if decide (dtype = Unspecified) then
    Some (Err (DecodeError (lit "cannot decode scalar bytes with unspecified dtype")))
  else
    let! r := decode_scalars bytes dtype in
    Some (map_err (fun err => DecodeError (scalar_error_message err)) r).

Definition scalar_to_int (value : Scalar) : result Z ProtocolError :=
  match value with
  | SBool value => Ok (Z.b2z value)
  | SInt value => Ok value
  | SFloat value => float_to_int value
  end.

Definition decode_int_sequence (bytes : list byte) (dtype : DType)
    : option (result (list Z) ProtocolError) :=
  let!? values := wire_decode_scalars bytes dtype in
  Some (collect_results scalar_to_int values).
End Scalars.

(** ** Leaves *)

(** A contiguous tensor shares its storage with the message; others gather into
    a fresh buffer. *)
Definition tensor_wire_bytes (t : Tensor) : option (list byte) :=
  let! contiguous := is_contiguous t in
  if contiguous : bool then
    let! _ := to_contiguous_bytes t in
    let start := byte_offset t in
    let! n := nbytes t in
    let! stop := checked_usize (start + n) in
    let! bytes := as_slice (storage t) in
    slice bytes start stop
  else to_contiguous_bytes t.

Definition range_check (value : Z) (dtype : DType) : result unit ProtocolError :=
  map_err (fun err => OutOfRangeError (scalar_error_message err)) (check_int_in_dtype_range value dtype).

Definition exact_len (got want : Z) (what : string) : result unit ProtocolError :=
  if negb (got =? want) then
    Err (LengthMismatch (Msg "{what} leaf: got {got} bytes, expected {want}"
      [AStr what; AZ got; AZ want]))
  else Ok tt.

(** [{:?}] of a space type. *)
Definition space_type_debug (t : SpaceType) : string :=
  match t with
  | TyUnspecified => "Unspecified" | TyBox => "Box" | TyDiscrete => "Discrete"
  | TyMultiBinary => "MultiBinary" | TyMultiDiscrete => "MultiDiscrete" | TyText => "Text"
  | TyDict => "Dict" | TyTuple => "Tuple"
  end.

Definition numel (s : SpaceSpec) : result Z ProtocolError :=
  let count :=
    match spec s with
    | Some (KBox _ | KMultiBinary _) => try_numel 1 (space_shape s)
    | Some (KDiscrete _) => Some 1
    | Some (KMultiDiscrete m) => Some (Z.of_nat (length (nvec m)))
    | _ => None
    end in
  ok_or count (DecodeError (Msg "no fixed numel for {:?}" [AStr (space_type_debug (space_type s))])).

Definition leaf_stride (s : SpaceSpec) : result Z ProtocolError :=
  let per_elem :=
    match spec s with Some (KMultiBinary _) => 1 | _ => Z.of_nat (dtype_size (space_dtype s)) end in
  let? n := numel s in
  ok_or (checked_usize (n * per_elem)) (DecodeError (lit "leaf stride overflow")).

Definition decode_utf8 (bytes : list byte) : result (list Z) ProtocolError :=
  map_err (fun err => DecodeError (Msg "text payload is not valid UTF-8: {err}"
    [nested (utf8_error_message err)])) (from_utf8 bytes).

Section Leaf.
Context `{HalfOps}.

Definition encode_leaf (value : SpaceValue) (s : SpaceSpec) : option (result (list byte) ProtocolError) :=
  match spec s, value with
  | Some (KBox _), VBox tensor =>
      if negb (bool_decide (dtype tensor = space_dtype s)) ||
         negb (bool_decide (shape tensor = space_shape s)) then
        Some (Err (EncodeError (Msg "box leaf {:?}{:?} does not match spec {:?}{:?}"
          [AStr (dtype_debug (dtype tensor)); AZs (shape tensor);
           AStr (dtype_debug (space_dtype s)); AZs (space_shape s)])))
      else
        let! bytes := tensor_wire_bytes tensor in Some (Ok bytes)
  | Some (KDiscrete _), VDiscrete index =>
      let!? _ := Some (range_check index (space_dtype s)) in
      encode_int_sequence [index] (space_dtype s)
  | Some (KMultiBinary _), VMultiBinary flags =>
      Some (Ok ((fun f : bool => byte.of_Z (Z.b2z f)) <$> flags))
  | Some (KMultiDiscrete _), VMultiDiscrete values =>
      let!? _ := Some (try_for_each (fun _ value => range_check value (space_dtype s)) 0 values) in
      encode_int_sequence values (space_dtype s)
  | Some (KText _), VText text => Some (Ok (as_bytes text))
  | _, _ =>
      Some (Err (EncodeError (Msg "value kind did not match leaf space {:?}"
        [AStr (space_type_debug (space_type s))])))
  end.

(** [addr] is the address the decoded tensor's storage is allocated at. *)
Definition decode_leaf (addr : Z) (bytes : list byte) (s : SpaceSpec)
    : option (result SpaceValue ProtocolError) :=
  match spec s with
  | Some (KBox _) =>
      let! r := tensor_from_slice addr bytes (space_shape s) (space_dtype s) in
      let!? t := Some (map_err (fun err => DecodeError
        (Msg "invalid box payload: {err}" [nested (tensor_error_message err)])) r) in
      Some (Ok (VBox t))
  | Some (KDiscrete _) =>
      let!? _ := Some (exact_len (Z.of_nat (length bytes))
        (Z.of_nat (dtype_size (space_dtype s))) "discrete") in
      let!? values := decode_int_sequence bytes (space_dtype s) in
      let!? value := Some (ok_or (head values) (LengthMismatch (lit "empty discrete leaf"))) in
      let!? _ := Some (range_check value (space_dtype s)) in
      Some (Ok (VDiscrete value))
  | Some (KMultiBinary _) =>
      let!? n := Some (numel s) in
      let!? _ := Some (exact_len (Z.of_nat (length bytes)) n "multibinary") in
      Some (Ok (VMultiBinary ((fun b => negb (byte.unsigned b =? 0)) <$> bytes)))
  | Some (KMultiDiscrete _) =>
      let!? n := Some (numel s) in
      let! want := checked_usize (n * Z.of_nat (dtype_size (space_dtype s))) in
      let!? _ := Some (exact_len (Z.of_nat (length bytes)) want "multidiscrete") in
      let!? values := decode_int_sequence bytes (space_dtype s) in
      Some (Ok (VMultiDiscrete values))
  | Some (KText _) =>
      let!? text := Some (decode_utf8 bytes) in Some (Ok (VText text))
  | _ =>
      Some (Err (DecodeError (Msg "not a fundamental leaf: {:?}"
        [AStr (space_type_debug (space_type s))])))
  end.
End Leaf.

(** ** Single values *)

Section Values.
Context `{HalfOps}.
(** The address of the storage of the tensor decoded at a leaf position and
    lane. *)
Context (alloc : nat -> nat -> Z).

Definition structural_encode (err : SpaceError) : ProtocolError := EncodeError (space_error_message err).
Definition structural_decode (err : SpaceError) : ProtocolError := DecodeError (space_error_message err).

Definition encode_leaves (value : SpaceValue) (s : SpaceSpec)
    : option (result (list (list byte)) ProtocolError) :=
  let!? values := Some (map_err structural_encode (flatten_leaves s value)) in
  collect_map (fun _ '(leaf_spec, leaf_value) => encode_leaf leaf_value leaf_spec) 0
    (zip (leaf_specs s) values).

Definition decode_leaves (leaves : list (list byte)) (s : SpaceSpec)
    : option (result SpaceValue ProtocolError) :=
  let specs := leaf_specs s in
  if negb (Nat.eqb (length leaves) (length specs)) then
    Some (Err (LengthMismatch (Msg "got {} leaves, spec expects {}"
      [ANat (length leaves); ANat (length specs)])))
  else
    let!? values :=
      collect_map (fun p '(bytes, leaf_spec) => decode_leaf (alloc p 0) bytes leaf_spec) 0
        (zip leaves specs) in
    Some (map_err structural_decode (assemble_value s values)).

(** A wire value is its leaves; a missing one decodes to none. *)
Definition encode_value (value : SpaceValue) (s : SpaceSpec)
    : option (result (list (list byte)) ProtocolError) := encode_leaves value s.

Definition decode_value (payload : option (list (list byte))) (s : SpaceSpec)
    : option (result (option SpaceValue) ProtocolError) :=
  match payload with
  | Some leaves => let!? v := decode_leaves leaves s in Some (Ok (Some v))
  | None => Some (Ok None)
  end.

(** ** Text slabs *)

(** [column] is a lazy iterator over the lanes: a lane without the leaf panics
    when it is reached. *)
Fixpoint text_bodies (column : list (option SpaceValue))
    : option (result (list (list Z)) ProtocolError) :=
  match column with
  | [] => Some (Ok [])
  | value :: column =>
      let! value := value in
      match value with
      | VText text => let!? bodies := text_bodies column in Some (Ok (text :: bodies))
      | _ => Some (Err (EncodeError (lit "expected Text leaf in batch")))
      end
  end.

Definition u64_le (z : Z) : list byte := le_split 8 (wrap_u 64 z).

Definition encode_text_slab (column : list (option SpaceValue)) (n : nat)
    : option (result (list byte) ProtocolError) :=
  let!? bodies := text_bodies column in
  Some (Ok (u64_le (Z.of_nat n) ++
    concat ((fun text => u64_le (Z.of_nat (length (as_bytes text)))) <$> bodies) ++
    concat (as_bytes <$> bodies))%list).

(** [usize::try_from(u64)]: always fits a 64-bit [usize]. *)
Definition usize_from_u64 (v : Z) : result Z ProtocolError :=
  ok_or (checked_usize v) (LengthMismatch (lit "text slab length exceeds usize")).

(** The value read and the cursor after it. *)
Definition read_u64 (buf : list byte) (cur : Z) : option (result (Z * Z) ProtocolError) :=
  let! stop := checked_usize (cur + 8) in
  let!? bytes := Some (ok_or (slice buf cur stop)
    (LengthMismatch (lit "text slab header truncated"))) in
  Some (Ok (le_combine bytes, stop)).

Fixpoint read_lens (slab : list byte) (cur : Z) (n : nat) : option (result (list Z * Z) ProtocolError) :=
  match n with
  | O => Some (Ok ([], cur))
  | S n =>
      let!? (v, cur) := read_u64 slab cur in
      let!? len := Some (usize_from_u64 v) in
      let!? (lens, cur) := read_lens slab cur n in
      Some (Ok (len :: lens, cur))
  end.

Fixpoint read_bodies (slab : list byte) (cur : Z) (lens : list Z)
    : result (list SpaceValue * Z) ProtocolError :=
  match lens with
  | [] => Ok ([], cur)
  | len :: lens =>
      let? stop := ok_or (checked_usize (cur + len)) (DecodeError (lit "text length overflow")) in
      let? bytes := ok_or (slice slab cur stop) (LengthMismatch (lit "text slab body truncated")) in
      let? text := decode_utf8 bytes in
      let? (out, cur) := read_bodies slab stop lens in
      Ok (VText text :: out, cur)
  end.

Definition decode_text_slab (slab : list byte) (n : nat)
    : option (result (list SpaceValue) ProtocolError) :=
  let!? (v, cur) := read_u64 slab 0 in
  let!? count := Some (usize_from_u64 v) in
  if negb (count =? Z.of_nat n) then
    Some (Err (LengthMismatch (Msg "text slab count {count} != N {n}" [AZ count; ANat n])))
  else
    let!? (lens, cur) := read_lens slab cur n in
    let!? (out, cur) := Some (read_bodies slab cur lens) in
    if negb (cur =? Z.of_nat (length slab)) then
      Some (Err (LengthMismatch (lit "trailing bytes in text slab")))
    else Some (Ok out).

(** ** Batches *)

Definition is_text (s : SpaceSpec) : bool :=
  match spec s with Some (KText _) => true | _ => false end.

Definition saturating_mul (a b : Z) : Z := Z.min usize_max (a * b).

(** One leaf of every lane. *)
Definition encode_column (lanes : list (list SpaceValue)) (p : nat) (leaf_spec : SpaceSpec)
    : option (result (list byte) ProtocolError) :=
  let column := (fun lane : list SpaceValue => lane !! p) <$> lanes in
  if is_text leaf_spec then encode_text_slab column (length lanes)
  else
    let!? stride := Some (leaf_stride leaf_spec) in
    let! _ := with_capacity (saturating_mul stride (Z.of_nat (length lanes))) in
    let!? parts :=
      collect_map (fun lane leaf_value =>
        let! leaf_value := leaf_value in
        let!? leaf := encode_leaf leaf_value leaf_spec in
        if negb (Z.of_nat (length leaf) =? stride) then
          Some (Err (LengthMismatch (Msg "batch lane {lane} leaf: got {} bytes, expected stride {stride}"
            [ANat lane; ANat (length leaf); AZ stride])))
        else Some (Ok leaf)) 0 column in
    Some (Ok (concat parts)).

(** [.sum::<usize>()]. *)
Fixpoint usize_sum (acc : Z) (l : list Z) : option Z :=
  match l with
  | [] => Some acc
  | x :: l => let! acc := checked_usize (acc + x) in usize_sum acc l
  end.

Definition encode_leaf_slab (values : list SpaceValue) (s : SpaceSpec)
    : option (result (list (list byte)) ProtocolError) :=
  let specs := leaf_specs s in
  let!? lanes := Some (map_err structural_encode (collect_results (flatten_leaves s) values)) in
  (** The estimate only chooses between the sequential and the parallel run. *)
  let! _ := usize_sum 0 ((fun leaf_spec =>
    match leaf_stride leaf_spec with Ok n => n | Err _ => 0 end) <$> specs) in
  collect_map (fun p leaf_spec => encode_column lanes p leaf_spec) 0 specs.

Definition decode_leaf_column (p : nat) (slab : list byte) (s : SpaceSpec) (n : nat)
    : option (result (list SpaceValue) ProtocolError) :=
  if is_text s then decode_text_slab slab n
  else
    let!? stride := Some (leaf_stride s) in
    let!? want :=
      Some (ok_or (checked_usize (stride * Z.of_nat n)) (DecodeError (lit "slab size overflow"))) in
    if negb (Z.of_nat (length slab) =? want) then
      Some (Err (LengthMismatch (Msg "slab: got {} bytes, expected {n} lanes * {stride}"
        [ANat (length slab); ANat n; AZ stride])))
    else if stride =? 0 then
      collect_map (fun lane _ => decode_leaf (alloc p lane) [] s) 0 (repeat tt n)
    else
      collect_map (fun lane chunk => decode_leaf (alloc p lane) chunk s) 0
        (chunks_exact (Z.to_nat stride) slab).

(** Pushes a column's values to the lanes, an index past the last lane
    panicking. *)
Fixpoint push_column (per_lane : list (list SpaceValue)) (lane : nat) (column : list SpaceValue)
    : option (list (list SpaceValue)) :=
  match column with
  | [] => Some per_lane
  | value :: column =>
      let! values := per_lane !! lane in
      push_column (<[lane := (values ++ [value])%list]> per_lane) (S lane) column
  end.

Fixpoint push_columns (per_lane : list (list SpaceValue)) (columns : list (list SpaceValue))
    : option (list (list SpaceValue)) :=
  match columns with
  | [] => Some per_lane
  | column :: columns =>
      let! per_lane := push_column per_lane 0 column in
      push_columns per_lane columns
  end.

Definition decode_leaf_slab (leaves : list (list byte)) (s : SpaceSpec) (n : nat)
    : option (result (list SpaceValue) ProtocolError) :=
  let specs := leaf_specs s in
  if negb (Nat.eqb (length leaves) (length specs)) then
    Some (Err (LengthMismatch (Msg "got {} leaf slabs, spec expects {}"
      [ANat (length leaves); ANat (length specs)])))
  else
    let! _ := usize_sum 0 ((fun slab => Z.of_nat (length slab)) <$> leaves) in
    let!? columns :=
      collect_map (fun p '(slab, leaf_spec) => decode_leaf_column p slab leaf_spec n) 0
        (zip leaves specs) in
    (** [n] empty vectors of 24 bytes each. *)
    let! _ := with_capacity (24 * Z.of_nat n) in
    let! per_lane := push_columns (repeat [] n) columns in
    Some (collect_results (fun values => map_err structural_decode (assemble_value s values)) per_lane).

Definition encode_batched_partial_values (values : list SpaceValue) (s : SpaceSpec)
    : option (result (list (list byte)) ProtocolError) := encode_leaf_slab values s.

Definition decode_batched_partial_values (payload : option (list (list byte))) (s : SpaceSpec) (n : nat)
    : option (result (list SpaceValue) ProtocolError) :=
  match payload with
  | Some leaves => decode_leaf_slab leaves s n
  | None => Some (Ok [])
  end.
End Values.

(** ** The leaf codec *)

(** A fallible map succeeds when each step does, the results being related to
    the inputs as the steps relate them. *)
Lemma collect_map_build {A B E} (f : nat -> A -> option (result B E)) (R : A -> B -> Prop) i l :
  Forall (fun x => forall i, exists y, f i x = Some (Ok y) /\ R x y) l ->
  exists ys, collect_map f i l = Some (Ok ys) /\ Forall2 R l ys.
Proof.
  intros Hl. revert i; induction Hl as [|x l Hx _ IH]; intros i; cbn [collect_map].
  { exists []. by split. }
  destruct (Hx i) as (y & -> & Hy). destruct (IH (S i)) as (ys & -> & Hys).
  exists (y :: ys). split; [done|]. by constructor.
Qed.

Lemma collect_map_total {A B E} (f : nat -> A -> option (result B E)) (P : B -> Prop) i l :
  Forall (fun x => forall i, exists r, f i x = Some r /\ forall y, r = Ok y -> P y) l ->
  exists r, collect_map f i l = Some r /\
    forall ys, r = Ok ys -> length ys = length l /\ Forall P ys.
Proof.
  intros Hl. revert i; induction Hl as [|x l Hx _ IH]; intros i; cbn [collect_map].
  { eexists. split; [done|]. intros ys [= <-]. by split. }
  destruct (Hx i) as ([y|e] & -> & Hy); [|by eexists].
  destruct (IH (S i)) as ([ys|e] & -> & Hys); [|by eexists].
  eexists. split; [done|]. intros ? [= <-]. destruct (Hys ys eq_refl) as [Hlen HP].
  split; [cbn; lia|]. constructor; auto.
Qed.

Lemma tensor_wire_bytes_spec t bytes :
  tensor_wf t bytes -> materialisable t -> tensor_wire_bytes t = Some (logical_bytes t bytes).
Proof.
  intros Hwf Hm. unfold tensor_wire_bytes.
  destruct (is_contiguous_spec t bytes Hwf Hm) as (b & -> & Hb).
  rewrite (to_contiguous_bytes_spec t bytes) by done. destruct b; [|done].
  specialize (Hb eq_refl). cbn [mbind option_bind].
  rewrite (nbytes_spec t bytes) by done. cbn [mbind option_bind].
  pose proof (consecutive_span t bytes Hwf Hb) as Hspan.
  pose proof (materialisable_volume t bytes Hwf Hm).
  pose proof (wf_offset _ _ Hwf). pose proof (wf_alloc _ _ Hwf).
  unfold checked_usize. rewrite checked_in by (unfold_ints; lia). cbn [mbind option_bind].
  rewrite (wf_bytes _ _ Hwf). cbn [mbind option_bind]. rewrite slice_Some by lia.
  rewrite (logical_bytes_consecutive t bytes) by done. do 2 f_equal. lia.
Qed.

(** Two tensors with the same elements, wherever these are stored. *)
Definition tensor_eqv (t u : Tensor) : Prop :=
  dtype t = dtype u /\ shape t = shape u /\
  exists bt bu, tensor_wf t bt /\ tensor_wf u bu /\ logical_bytes t bt = logical_bytes u bu.

Inductive value_eqv : SpaceValue -> SpaceValue -> Prop :=
| eqv_box t u : tensor_eqv t u -> value_eqv (VBox t) (VBox u)
| eqv_discrete v : value_eqv (VDiscrete v) (VDiscrete v)
| eqv_multibinary vals : value_eqv (VMultiBinary vals) (VMultiBinary vals)
| eqv_multidiscrete vals : value_eqv (VMultiDiscrete vals) (VMultiDiscrete vals)
| eqv_text text : value_eqv (VText text) (VText text)
| eqv_dict m m' :
    Forall2 (fun e e' => e.1 = e'.1 /\ value_eqv e.2 e'.2) m m' -> value_eqv (VDict m) (VDict m')
| eqv_tuple vs vs' : Forall2 value_eqv vs vs' -> value_eqv (VTuple vs) (VTuple vs').

(** A tensor of the space can be allocated, padding included. *)
Definition node_sized (s : SpaceSpec) : Prop :=
  match spec s with
  | Some (KBox _) =>
      extent (space_shape s) * Z.of_nat (dtype_size (space_dtype s)) + 63 <= isize_max
  | _ => True
  end.

Definition sized : SpaceSpec -> Prop := spec_all node_sized.

Section LeafLemmas.
Context `{HalfLaws}.

Lemma int_sequence_roundtrip d zs :
  is_integer d = true -> Forall (fits_dtype d) zs ->
  exists bytes, encode_int_sequence zs d = Some (Ok bytes) /\
    length bytes = (length zs * dtype_size d)%nat /\ decode_int_sequence bytes d = Some (Ok zs).
Proof.
  intros Hd Hz. assert (Hu : d <> Unspecified) by (by intros ->).
  assert (Hs : Forall (storable d) (SInt <$> zs)).
  { apply Forall_fmap. eapply Forall_impl; [exact Hz|]. intros z Hzf. cbn.
    apply check_int_storable; [done|]. apply (fits_check z d Hd) in Hzf.
    by destruct (check_int_in_dtype_range z d) as [[]|]. }
  destruct (decode_encode_scalars d _ Hu Hs) as (bytes & He & Hl & Hdec).
  rewrite length_fmap in Hl. exists bytes. unfold encode_int_sequence, decode_int_sequence.
  rewrite He. split_and!; [done..|]. unfold wire_decode_scalars. rewrite decide_False, Hdec by done.
  cbn. do 2 f_equal. clear. induction zs as [|z zs IH]; [done|]. cbn. by rewrite IH.
Qed.

Lemma range_check_Ok d z : is_integer d = true -> fits_dtype d z -> range_check z d = Ok tt.
Proof.
  intros Hd Hz. unfold range_check. apply (fits_check z d Hd) in Hz.
  by destruct (check_int_in_dtype_range z d) as [[]|].
Qed.

(** What the codec relies on at a leaf. *)
Definition leaf_ok (s : SpaceSpec) : Prop := node_valid s /\ node_typed s /\ node_sized s.

(** A leaf value's bytes decode back to it, and for a fixed-width leaf there
    are as many as its stride. *)
Definition leaf_codec (s : SpaceSpec) (v : SpaceValue) (bytes : list byte) : Prop :=
  encode_leaf v s = Some (Ok bytes) /\
  (forall addr, exists v', decode_leaf addr bytes s = Some (Ok v') /\ value_eqv v v') /\
  (is_text s = false -> leaf_stride s = Ok (Z.of_nat (length bytes))) /\
  (is_text s = true -> exists text, v = VText text /\ Forall is_char text).

(** A tensor read from bytes holds exactly these; it fails only on a wrong
    length or shape. *)
Lemma tensor_from_slice_spec addr data ds d :
  i64s ds -> Z.of_nat (length data) + 63 <= isize_max ->
  exists r, tensor_from_slice addr data ds d = Some r /\
    match r with
    | Ok t => dtype t = d /\ shape t = ds /\ tensor_wf t data /\ logical_bytes t data = data
    | Err _ => checked_nbytes ds d <> Ok (Z.of_nat (length data))
    end.
Proof.
  intros Hi Hl. unfold tensor_from_slice.
  destruct (checked_nbytes ds d) as [n|e] eqn:Hn; [|by eexists].
  apply checked_nbytes_Ok in Hn as (Hd & Hdo & Hu & Hn & _); [|done].
  destruct (Z.eqb_spec (Z.of_nat (length data)) n) as [E|E]; cbn [negb];
    [|eexists; split; [done|]; congruence].
  unfold Storage.from_slice. destruct (aligned_with_spec addr data Hl) as (b & -> & Hb & _).
  destruct (fresh_tensor_spec (Aligned b) d ds data) as (Hf & W & Hlb); try done; [lia..|].
  cbn [mbind option_bind]. rewrite Hf. eexists. split; [done|]. done.
Qed.

Lemma checked_nbytes_wf t bytes :
  tensor_wf t bytes -> materialisable t ->
  checked_nbytes (shape t) (dtype t) = Ok (volume (shape t) * itemsize t).
Proof.
  intros Hwf Hm. unfold checked_nbytes. rewrite decide_False by apply (wf_dtype _ _ Hwf).
  unfold checked_numel. pose proof (wf_dims _ _ Hwf) as Hd.
  rewrite (proj2 (checked_numel_spec (shape t) 1 (volume (shape t)) (dims_ok_i64s _ Hd)))
    by (split; [done|apply (wf_numel _ _ Hwf)]).
  pose proof (materialisable_volume t bytes Hwf Hm). unfold itemsize in *.
  unfold checked_usize. by rewrite checked_in by (unfold_ints; lia).
Qed.

Lemma box_leaf s b t :
  spec s = Some (KBox b) -> leaf_ok s -> value_wf (VBox t) -> fits false s (VBox t) ->
  exists bytes, leaf_codec s (VBox t) bytes.
Proof.
  intros Hs (_ & [Ht _] & Hz) Hw Hf. inversion Hw as [? bytes Hwf Hm| | | | | |]; subst.
  inversion Hf as [s' b' t' bytes' bs vs ? _ Hsh Hdt _ _ _| | | | | |]; subst.
  unfold node_sized in Hz. rewrite Hs, <- Hsh, <- Hdt in Hz. rewrite <- Hsh in Ht.
  pose proof (length_logical_bytes t bytes Hwf) as Hlen.
  pose proof (materialisable_volume t bytes Hwf Hm) as Hv.
  pose proof (volume_le_extent _ (wf_dims _ _ Hwf)) as Hve.
  pose proof (itemsize_pos t bytes Hwf) as Hip.
  exists (logical_bytes t bytes). unfold leaf_codec, encode_leaf, is_text. rewrite Hs.
  rewrite !bool_decide_true by done. cbn [negb orb].
  rewrite (tensor_wire_bytes_spec t bytes) by done. split_and!; [done| |intros _|done].
  - intros addr. unfold decode_leaf. rewrite Hs, <- Hsh, <- Hdt.
    assert (Hl63 : Z.of_nat (length (logical_bytes t bytes)) + 63 <= isize_max)
      by (rewrite Hlen; unfold itemsize in *; nia).
    destruct (tensor_from_slice_spec addr (logical_bytes t bytes) (shape t) (dtype t) Ht Hl63)
      as ([u|e] & -> & Hu); cbn [mbind option_bind map_err].
    + destruct Hu as (Hd & Hs' & Hwu & Hlb). eexists. split; [done|]. constructor.
      split_and!; [done..|]. by exists bytes, (logical_bytes t bytes).
    + destruct Hu. rewrite Hlen. by apply (checked_nbytes_wf t bytes).
  - unfold leaf_stride, numel. rewrite Hs, <- Hsh, <- Hdt.
    rewrite (proj2 (try_numel_Some 1 (shape t) (volume (shape t)) (wf_dims _ _ Hwf)))
      by apply (wf_numel _ _ Hwf). cbn [ok_or]. unfold checked_usize.
    fold (itemsize t). rewrite checked_in by (unfold_ints; lia). cbn [ok_or]. by rewrite Hlen.
Qed.

(** What validation tells of an integer leaf. *)
Lemma discrete_leaf_valid s d :
  spec s = Some (KDiscrete d) -> node_valid s ->
  is_integer (space_dtype s) = true /\ forall v, discrete_member d v -> fits_dtype (space_dtype s) v.
Proof.
  intros Hs Hv. unfold node_valid in Hv. rewrite Hs, validate_space_at_eq in Hv.
  unfold space_type in Hv. rewrite Hs in Hv. injection Hv as Hv.
  apply (validate_discrete_Ok s d "$" Hs) in Hv as (_ & Hd & Hn & _ & Hlo & Hhi).
  split; [by destruct Hd as [->|[->| ->]]|]. intros v Hm. unfold discrete_member in Hm.
  unfold fits_dtype in *. destruct (signed_dtype_range _) as [[lo hi]|]; [lia|done].
Qed.

Lemma multidiscrete_leaf_valid s m :
  spec s = Some (KMultiDiscrete m) -> node_valid s -> node_typed s ->
  is_integer (space_dtype s) = true /\
  Forall (fun n => fits_dtype (space_dtype s) (n - 1)) (nvec m) /\
  Z.of_nat (length (nvec m)) * Z.of_nat (dtype_size (space_dtype s)) <= usize_max.
Proof.
  intros Hs Hv [_ Ht]. unfold node_valid in Hv. rewrite Hs, validate_space_at_eq in *.
  destruct Ht as [_ Ht]. unfold space_type in Hv. rewrite Hs in Hv. injection Hv as Hv.
  apply (validate_multidiscrete_Ok s m "$" Hs) in Hv as (_ & Hd & _ & _ & Hn & _);
    [|unfold_ints; lia].
  split_and!; [done| |].
  - eapply Forall_impl; [exact Hn|]. naive_solver.
  - pose proof (dtype_size_le_8 (space_dtype s)). unfold_ints. nia.
Qed.

Lemma discrete_leaf s d v :
  spec s = Some (KDiscrete d) -> leaf_ok s -> fits false s (VDiscrete v) ->
  exists bytes, leaf_codec s (VDiscrete v) bytes.
Proof.
  intros Hs (Hv & _) Hf. destruct (discrete_leaf_valid s d Hs Hv) as [Hd Hr].
  inversion Hf as [|? d' ? ? Hm| | | | |]; subst. assert (d' = d) as -> by congruence.
  specialize (Hr v Hm). pose proof (dtype_size_le_8 (space_dtype s)).
  destruct (int_sequence_roundtrip (space_dtype s) [v]) as (bytes & He & Hl & Hdec); [done| |].
  { by repeat constructor. }
  cbn [length] in Hl. rewrite Nat.mul_1_l in Hl. exists bytes.
  unfold leaf_codec, encode_leaf, decode_leaf, is_text, leaf_stride, numel. rewrite Hs, range_check_Ok by done.
  cbn [mbind option_bind ok_or]. split_and!; [done| |intros _|done].
  - intros _. unfold exact_len. rewrite Hl, Z.eqb_refl. cbn [negb].
    rewrite Hdec. cbn [head ok_or]. rewrite range_check_Ok by done. eexists. by split; [|constructor].
  - rewrite Z.mul_1_l. unfold checked_usize. rewrite checked_in by (unfold_ints; lia).
    cbn [ok_or]. by rewrite Hl.
Qed.

Lemma multidiscrete_leaf s m vals :
  spec s = Some (KMultiDiscrete m) -> leaf_ok s -> fits false s (VMultiDiscrete vals) ->
  exists bytes, leaf_codec s (VMultiDiscrete vals) bytes.
Proof.
  intros Hs (Hv & Ht & _) Hf. destruct (multidiscrete_leaf_valid s m Hs Hv Ht) as (Hd & Hr & Hz).
  inversion Hf as [| | |? m' ? ? Hm| | |]; subst. assert (m' = m) as -> by congruence.
  assert (Hvals : Forall (fits_dtype (space_dtype s)) vals).
  { clear - Hm Hr Hd. induction Hm as [|v n vals ns Hvn _ IH]; [constructor|].
    apply Forall_cons in Hr as [Hn Hr]. constructor; [|auto]. clear - Hn Hvn Hd.
    unfold fits_dtype in *. destruct (space_dtype s); try done; cbn in *; unfold_ints; lia. }
  apply Forall2_length in Hm.
  destruct (int_sequence_roundtrip (space_dtype s) vals) as (bytes & He & Hl & Hdec); [done..|].
  exists bytes. unfold leaf_codec, encode_leaf, decode_leaf, is_text, leaf_stride, numel.
  rewrite Hs. rewrite (proj2 (try_for_each_Ok _ 0 vals)).
  2: { intros k x Hk. apply range_check_Ok; [done|]. by eapply Forall_lookup_1. }
  cbn [mbind option_bind ok_or]. unfold checked_usize. rewrite checked_in by (unfold_ints; lia).
  cbn [mbind option_bind ok_or]. split_and!; [done| |intros _|done].
  - intros _. unfold exact_len. replace (Z.of_nat (length bytes) =? _) with true by lia.
    cbn [negb]. rewrite Hdec. eexists. by split; [|constructor].
  - f_equal. lia.
Qed.

Lemma multibinary_leaf s m vals :
  spec s = Some (KMultiBinary m) -> leaf_ok s -> fits false s (VMultiBinary vals) ->
  exists bytes, leaf_codec s (VMultiBinary vals) bytes.
Proof.
  intros Hs (Hv & [Ht _] & _) Hf. unfold node_valid in Hv. rewrite Hs, validate_space_at_eq in Hv.
  unfold space_type in Hv. rewrite Hs in Hv. injection Hv as Hv.
  apply (validate_multibinary_Ok s m "$" Hs) in Hv as (_ & _ & Hp).
  inversion Hf as [| |? m' ? ? Hm| | | |]; subst.
  assert (Hn : try_numel 1 (space_shape s) = Some (Z.of_nat (length vals))).
  { apply try_numel_Some; [|done]. apply Forall_and. split.
    - eapply Forall_impl; [exact Hp|]. cbn. lia.
    - eapply Forall_impl; [exact Ht|]. unfold is_i64. cbn. lia. }
  pose proof (usize_product_range _ _ _ Hm) as Hr.
  eexists. unfold leaf_codec, encode_leaf, decode_leaf, is_text, leaf_stride, numel. rewrite Hs, Hn.
  cbn [ok_or]. split_and!; [done| |intros _|done].
  - intros _. unfold exact_len. rewrite length_fmap, Z.eqb_refl. cbn [negb]. eexists.
    split; [|constructor]. do 3 f_equal. clear. induction vals as [|[] vals IH]; [done|..]; cbn; by rewrite IH.
  - rewrite Z.mul_1_r. unfold checked_usize. rewrite checked_in by (unfold_ints; lia).
    cbn [ok_or]. by rewrite length_fmap.
Qed.

Lemma text_leaf s t text :
  spec s = Some (KText t) -> value_wf (VText text) -> leaf_codec s (VText text) (as_bytes text).
Proof.
  intros Hs Hw. inversion Hw as [| | | |? Hc| |]; subst.
  unfold leaf_codec, encode_leaf, decode_leaf, is_text, decode_utf8. rewrite Hs.
  rewrite from_utf8_as_bytes by done. split_and!; [done| |done|by eexists].
  intros _. eexists. by split; [|constructor].
Qed.

(** Every member of a leaf space goes over the wire and back. *)
Lemma leaf_roundtrip s v :
  leaf_ok s -> match spec s with Some (KDict _ | KTuple _) => False | _ => True end ->
  value_wf v -> fits false s v -> exists bytes, leaf_codec s v bytes.
Proof.
  intros Hs Hk Hw Hf. inversion Hf as [? b t|? d ?|? m ?|? m ?|? t ?|? d m Hsp|? t vs Hsp]; subst.
  - by eapply box_leaf.
  - by eapply discrete_leaf.
  - by eapply multibinary_leaf.
  - by eapply multidiscrete_leaf.
  - eexists. by eapply text_leaf.
  - by rewrite Hsp in Hk.
  - by rewrite Hsp in Hk.
Qed.
End LeafLemmas.

(** ** Values *)

Definition is_leaf (s : SpaceSpec) : Prop :=
  match spec s with Some (KDict _ | KTuple _) => False | _ => True end.

Lemma leaf_specs_all P s : spec_all P s -> Forall (fun l => P l /\ is_leaf l) (leaf_specs s).
Proof.
  induction s as [s IH] using SpaceSpec_ind'. intros Hs. inversion Hs as [? Hn Hc]; subst.
  assert (Hcs : Forall (Forall (fun l => P l /\ is_leaf l)) (leaf_specs <$> children s)).
  { apply Forall_fmap, Forall_forall. intros c Hin. rewrite Forall_forall in IH, Hc. cbn. auto. }
  apply Forall_concat in Hcs. rewrite leaf_specs_eq.
  destruct (spec s) as [[]|] eqn:Hsp; try done;
    (constructor; [|constructor]); unfold is_leaf; by rewrite Hsp.
Qed.

Lemma flatten_into_wf s v out ls :
  value_wf v -> Forall value_wf out -> flatten_into s v out = Ok ls -> Forall value_wf ls.
Proof.
  revert v out ls; induction s as [s IH] using SpaceSpec_ind'; intros v out ls Hv Ho.
  rewrite flatten_into_eq. unfold children in IH.
  assert (Hleaf : @Ok _ SpaceError (out ++ [v])%list = Ok ls -> Forall value_wf ls).
  { intros [= <-]. apply Forall_app. by repeat constructor. }
  destruct (spec s) as [[| | | | |d|t]|]; try done.
  - destruct Hv as [| | | | |m _ Hm|]; try done. generalize (keys d). clear Hleaf.
    revert out Ho; induction IH as [|c spaces Hc _ IHs]; intros out Ho [|k ks]; cbn [flatten_dict];
      try (by intros [= <-]).
    destruct (btree_get k m) as [v|] eqn:Hg; [|done]. cbn [ok_or].
    destruct (flatten_into c v out) as [out'|] eqn:Hf; [|done].
    apply IHs. apply (Hc v out out'); [|done..]. apply btree_get_Some_elem in Hg.
    rewrite Forall_forall in Hm. by apply (Hm (k, v)).
  - destruct Hv as [| | | | | |vs Hvs]; try done. case_match; [done|]. clear - IH Hvs Ho.
    revert out vs Ho Hvs; induction IH as [|c spaces Hc _ IHs]; intros out [|v vs] Ho Hvs;
      cbn [flatten_tuple]; try (by intros [= <-]).
    apply Forall_cons in Hvs as [Hv Hvs].
    destruct (flatten_into c v out) as [out'|] eqn:Hf; [|done]. apply IHs; [|done]. by apply (Hc v out).
Qed.

(** *** Assembling related leaves *)

Notation map_eqv := (Forall2 (fun e e' : string * SpaceValue => e.1 = e'.1 /\ value_eqv e.2 e'.2)).

Lemma btree_insert_eqv k v v' m m' :
  value_eqv v v' -> map_eqv m m' -> map_eqv (btree_insert k v m) (btree_insert k v' m').
Proof.
  intros Hv Hm. induction Hm as [|[k1 v1] [k2 v2] m m' [Hk Hv1] Hm IH]; cbn.
  { by repeat constructor. }
  cbn in Hk, Hv1. subst k2. case_match; repeat constructor; done.
Qed.

Definition assembles_eqv (s : SpaceSpec) : Prop :=
  forall ls ls' v rest, Forall2 value_eqv ls ls' -> assemble_from s ls = Ok (v, rest) ->
  exists v' rest', assemble_from s ls' = Ok (v', rest') /\ value_eqv v v' /\ Forall2 value_eqv rest rest'.

Lemma assemble_dict_eqv spaces : Forall assembles_eqv spaces ->
  forall m m' ks ls ls' r rest, map_eqv m m' -> Forall2 value_eqv ls ls' ->
  assemble_dict assemble_from m ks spaces ls = Ok (r, rest) ->
  exists r' rest', assemble_dict assemble_from m' ks spaces ls' = Ok (r', rest') /\
    map_eqv r r' /\ Forall2 value_eqv rest rest'.
Proof.
  induction 1 as [|c spaces Hc _ IH]; intros m m' [|k ks] ls ls' r rest Hm Hl;
    cbn [assemble_dict]; try (intros [= <- <-]; by eauto).
  destruct (assemble_from c ls) as [[v rest1]|] eqn:Ha; [|done]. intros Hr.
  destruct (Hc _ _ _ _ Hl Ha) as (v' & rest1' & -> & Hv & Hrest).
  eapply IH; [|done..]. by apply btree_insert_eqv.
Qed.

Lemma assemble_tuple_eqv spaces : Forall assembles_eqv spaces ->
  forall acc acc' ls ls' r rest, Forall2 value_eqv acc acc' -> Forall2 value_eqv ls ls' ->
  assemble_tuple assemble_from acc spaces ls = Ok (r, rest) ->
  exists r' rest', assemble_tuple assemble_from acc' spaces ls' = Ok (r', rest') /\
    Forall2 value_eqv r r' /\ Forall2 value_eqv rest rest'.
Proof.
  induction 1 as [|c spaces Hc _ IH]; intros acc acc' ls ls' r rest Hm Hl;
    cbn [assemble_tuple]; try (intros [= <- <-]; by eauto).
  destruct (assemble_from c ls) as [[v rest1]|] eqn:Ha; [|done]. intros Hr.
  destruct (Hc _ _ _ _ Hl Ha) as (v' & rest1' & -> & Hv & Hrest).
  eapply IH; [|done..]. apply Forall2_app; [done|]. by repeat constructor.
Qed.

Lemma assemble_from_eqv s : assembles_eqv s.
Proof.
  induction s as [s IH] using SpaceSpec_ind'. intros ls ls' v rest Hl. rewrite !assemble_from_eq.
  unfold children in IH. destruct (spec s) as [[| | | | |d|t]|].
  6: { destruct (assemble_dict _ _ _ _ ls) as [[r rest1]|] eqn:Ha; [|done]. intros [= <- <-].
       destruct (assemble_dict_eqv _ IH [] [] _ _ ls' _ _ ltac:(constructor) Hl Ha)
         as (r' & rest' & -> & Hr & Hrest). do 2 eexists. split; [done|]. by split; [constructor|]. }
  6: { destruct (assemble_tuple _ _ _ ls) as [[r rest1]|] eqn:Ha; [|done]. intros [= <- <-].
       destruct (assemble_tuple_eqv _ IH [] [] _ ls' _ _ ltac:(constructor) Hl Ha)
         as (r' & rest' & -> & Hr & Hrest). do 2 eexists. split; [done|]. by split; [constructor|]. }
  all: destruct Hl as [|x y ls ls' Hx Hl]; [done|]; intros [= <- <-]; by eauto.
Qed.

Lemma assemble_value_eqv s ls ls' v :
  Forall2 value_eqv ls ls' -> assemble_value s ls = Ok v ->
  exists v', assemble_value s ls' = Ok v' /\ value_eqv v v'.
Proof.
  intros Hl. unfold assemble_value. destruct (assemble_from s ls) as [[u rest]|] eqn:Ha; [|done].
  destruct (assemble_from_eqv s _ _ _ _ Hl Ha) as (u' & rest' & -> & Hu & Hr).
  destruct Hr; [|done]. intros [= <-]. by eauto.
Qed.

(** *** One value *)

Section ValueLemmas.
Context `{HL : HalfLaws}.
Context (alloc : nat -> nat -> Z).

#[local] Notation enc := (fun (_ : nat) '(leaf_spec, leaf_value) => encode_leaf leaf_value leaf_spec).
#[local] Notation dec := (fun (p : nat) '(bytes, leaf_spec) => decode_leaf (alloc p 0) bytes leaf_spec).
#[local] Notation coded := (fun l v => exists bytes, leaf_codec l v bytes).

Lemma valid_leaf_ok s :
  valid s -> typed s -> sized s -> Forall (fun l => leaf_ok l /\ is_leaf l) (leaf_specs s).
Proof.
  intros Hv%leaf_specs_all Ht%leaf_specs_all Hz%leaf_specs_all.
  unfold leaf_ok. rewrite Forall_forall in *. intros l Hin.
  destruct (Hv l Hin), (Ht l Hin), (Hz l Hin). done.
Qed.

(** The leaves of a member, each with its bytes. *)
Lemma value_coded s v :
  valid s -> typed s -> sized s -> value_wf v -> fits false s v ->
  exists ls, flatten_leaves s v = Ok ls /\ assemble_value s ls = Ok v /\
    Forall2 coded (leaf_specs s) ls.
Proof.
  intros Hv Ht Hz Hw Hf. pose proof (valid_leaf_ok s Hv Ht Hz) as Hls.
  destruct (fits_walks false s v (valid_keys_ok s Hv) Hw Hf) as (ls & Hfl & Hfit & Has).
  exists ls. split_and!; [apply Hfl| |].
  - unfold assemble_value. specialize (Has []). rewrite app_nil_r in Has. by rewrite Has.
  - pose proof (flatten_into_wf s v [] ls Hw (Forall_nil_2 _) (Hfl [])) as Hwl.
    clear - Hls Hfit Hwl HL. revert Hls Hwl.
    induction Hfit as [|l x specs ls Hx _ IH]; intros Hls Hwl; [constructor|].
    apply Forall_cons in Hls as [[Hl Hk] Hls]. apply Forall_cons in Hwl as [Hwx Hwl].
    constructor; [by apply leaf_roundtrip|auto].
Qed.

Lemma leaves_coded specs ls : Forall2 coded specs ls ->
  forall i j, exists bss ls', collect_map enc i (zip specs ls) = Some (Ok bss) /\
    length bss = length specs /\ collect_map dec j (zip bss specs) = Some (Ok ls') /\
    Forall2 value_eqv ls ls'.
Proof.
  induction 1 as [|l v specs ls (bytes & He & Hd & _) _ IH]; intros i j.
  { exists [], []. by split_and!. }
  destruct (Hd (alloc j 0)) as (v' & Hd' & Hv). destruct (IH (S i) (S j)) as (bss & ls' & H1 & H2 & H3 & H4).
  exists (bytes :: bss), (v' :: ls'). cbn [zip_with collect_map length].
  rewrite He, H1, Hd', H3. split_and!; [done|lia|done|]. by constructor.
Qed.

Lemma value_codec s v :
  valid s -> typed s -> sized s -> value_wf v -> fits false s v ->
  exists leaves v', encode_leaves v s = Some (Ok leaves) /\
    length leaves = length (leaf_specs s) /\
    decode_leaves alloc leaves s = Some (Ok v') /\ value_eqv v v'.
Proof.
  intros Hv Ht Hz Hw Hf. destruct (value_coded s v) as (ls & Hfl & Has & Hc); [done..|].
  destruct (leaves_coded _ _ Hc 0%nat 0%nat) as (bss & ls' & He & Hl & Hd & Heq).
  destruct (assemble_value_eqv s ls ls' v Heq Has) as (v' & Has' & Hv').
  exists bss, v'. unfold encode_leaves, decode_leaves. rewrite Hfl. cbn [map_err].
  rewrite Hl, Nat.eqb_refl. cbn [negb]. rewrite He, Hd, Has'. done.
Qed.

(** *** Decoding anything *)

Lemma decode_int_sequence_total bytes d :
  exists r, decode_int_sequence bytes d = Some r /\ forall zs, r = Ok zs -> Forall is_i64 zs.
Proof.
  unfold decode_int_sequence, wire_decode_scalars. case_decide; [by eexists|].
  destruct (decode_scalars_no_panic bytes d) as [r Hr]. rewrite Hr.
  destruct r as [vs|e]; [|by eexists]. eexists. split; [done|]. cbn.
  apply decode_scalars_wf in Hr. intros zs Hz%collect_results_Ok.
  induction Hz as [|v z vs zs Hv _ IH]; [constructor|].
  apply Forall_cons in Hr as [Hw Hr]. constructor; [|auto].
  destruct v as [b|i|f]; cbn in Hv; [injection Hv as <-; destruct b; by vm_compute|
    by injection Hv as <-|].
  unfold float_to_int in Hv. repeat case_match; try done. injection Hv as <-.
  unfold f64_as_int, saturate, is_i64. repeat case_match; unfold_ints; lia.
Qed.

Lemma decode_leaf_total addr bytes s :
  leaf_ok s -> is_leaf s -> Z.of_nat (length bytes) + 63 <= isize_max ->
  exists r, decode_leaf addr bytes s = Some r /\ forall v, r = Ok v -> value_wf v.
Proof.
  intros (Hv & Ht & Hz) Hk Hl. unfold decode_leaf, is_leaf in *.
  destruct (spec s) as [[b|d|m|m|t|d|t]|] eqn:Hs; try done; try by eexists.
  - destruct (tensor_from_slice_spec addr bytes (space_shape s) (space_dtype s) (proj1 Ht) Hl)
      as ([u|e] & -> & Hu); cbn [mbind option_bind map_err]; [|by eexists].
    destruct Hu as (Hd & Hsh & Hwf & _). eexists. split; [done|]. intros ? [= <-].
    apply (wf_box u bytes Hwf). unfold materialisable, itemsize, node_sized in *.
    rewrite Hs in Hz. rewrite Hd, Hsh. lia.
  - unfold exact_len. destruct (negb _); [by eexists|].
    destruct (decode_int_sequence_total bytes (space_dtype s)) as ([zs|] & -> & Hzs); [|by eexists].
    destruct zs as [|z zs]; [by eexists|]. cbn [head ok_or mbind option_bind].
    destruct (range_check z _) as [[]|]; [|by eexists]. eexists. split; [done|].
    intros ? [= <-]. constructor. exact (Forall_inv (Hzs _ eq_refl)).
  - destruct (numel s) as [n|]; [|by eexists]. unfold exact_len. destruct (negb _); [by eexists|].
    eexists. split; [done|]. intros ? [= <-]. constructor.
  - destruct (multidiscrete_leaf_valid s m Hs Hv Ht) as (_ & _ & Hsz).
    unfold numel. rewrite Hs. cbn [ok_or]. unfold checked_usize.
    rewrite checked_in by (unfold_ints; lia). cbn [mbind option_bind].
    unfold exact_len. destruct (negb _); [by eexists|].
    destruct (decode_int_sequence_total bytes (space_dtype s)) as ([zs|] & -> & Hzs); [|by eexists].
    eexists. split; [done|]. intros ? [= <-]. constructor. by apply Hzs.
  - unfold decode_utf8. destruct (from_utf8 bytes) as [text|] eqn:E; [|by eexists].
    eexists. split; [done|]. intros ? [= <-]. constructor. by apply utf8_exact in E as [].
Qed.

Lemma btree_insert_wf k v m :
  value_wf v -> Forall (fun e => value_wf e.2) m ->
  Forall (fun e => value_wf e.2) (btree_insert k v m).
Proof.
  intros Hv. induction 1 as [|[k' v'] m Hv' Hm IH]; cbn; [by repeat constructor|].
  case_match; by repeat constructor.
Qed.

Definition assembles_wf (s : SpaceSpec) : Prop :=
  forall ls v rest, Forall value_wf ls -> assemble_from s ls = Ok (v, rest) ->
  value_wf v /\ Forall value_wf rest.

Lemma assemble_dict_wf spaces : Forall assembles_wf spaces ->
  forall m ks ls r rest, btree_sorted m -> Forall (fun e => value_wf e.2) m -> Forall value_wf ls ->
  assemble_dict assemble_from m ks spaces ls = Ok (r, rest) ->
  btree_sorted r /\ Forall (fun e => value_wf e.2) r /\ Forall value_wf rest.
Proof.
  induction 1 as [|c spaces Hc _ IH]; intros m [|k ks] ls r rest Hs Hm Hl; cbn [assemble_dict];
    try (intros [= <- <-]; done).
  destruct (assemble_from c ls) as [[v rest1]|] eqn:Ha; [|done].
  destruct (Hc _ _ _ Hl Ha) as [Hv Hr].
  apply IH; [by apply btree_insert_sorted| |done]. by apply btree_insert_wf.
Qed.

Lemma assemble_tuple_wf spaces : Forall assembles_wf spaces ->
  forall acc ls r rest, Forall value_wf acc -> Forall value_wf ls ->
  assemble_tuple assemble_from acc spaces ls = Ok (r, rest) ->
  Forall value_wf r /\ Forall value_wf rest.
Proof.
  induction 1 as [|c spaces Hc _ IH]; intros acc ls r rest Hm Hl; cbn [assemble_tuple];
    try (intros [= <- <-]; done).
  destruct (assemble_from c ls) as [[v rest1]|] eqn:Ha; [|done].
  destruct (Hc _ _ _ Hl Ha) as [Hv Hr]. apply IH; [|done]. apply Forall_app. by repeat constructor.
Qed.

Lemma assemble_from_wf s : assembles_wf s.
Proof.
  induction s as [s IH] using SpaceSpec_ind'. intros ls v rest Hl. rewrite assemble_from_eq.
  unfold children in IH. destruct (spec s) as [[| | | | |d|t]|].
  6: { destruct (assemble_dict _ _ _ _ ls) as [[r rest1]|] eqn:Ha; [|done]. intros [= <- <-].
       apply (assemble_dict_wf _ IH) in Ha as (H1 & H2 & H3); try done; [|constructor].
       split; [by constructor|done]. }
  6: { destruct (assemble_tuple _ _ _ ls) as [[r rest1]|] eqn:Ha; [|done]. intros [= <- <-].
       apply (assemble_tuple_wf _ IH) in Ha as (H1 & H2); try done.
       split; [by constructor|done]. }
  all: destruct Hl as [|x ls Hx Hl]; [done|]; intros [= <- <-]; done.
Qed.

Lemma assemble_value_wf s ls v :
  Forall value_wf ls -> assemble_value s ls = Ok v -> value_wf v.
Proof.
  intros Hl. unfold assemble_value. destruct (assemble_from s ls) as [[u rest]|] eqn:Ha; [|done].
  apply assemble_from_wf in Ha as [Hu _]; [|done]. destruct rest; [|done]. by intros [= <-].
Qed.

(** Bytes of a wire message can be copied to an aligned buffer. *)
Definition copyable (bytes : list byte) : Prop := Z.of_nat (length bytes) + 63 <= isize_max.

Lemma decode_leaves_total leaves s :
  valid s -> typed s -> sized s -> Forall copyable leaves ->
  exists r, decode_leaves alloc leaves s = Some r /\ forall v, r = Ok v -> value_wf v.
Proof.
  intros Hv Ht Hz Hl. unfold decode_leaves. destruct (negb _); [by eexists|].
  destruct (collect_map_total dec value_wf 0 (zip leaves (leaf_specs s))) as (r & -> & Hr).
  { pose proof (valid_leaf_ok s Hv Ht Hz) as Hs. apply Forall_forall. intros [bytes l] Hin i.
    pose proof (elem_of_zip_l _ _ _ _ Hin) as H1. pose proof (elem_of_zip_r _ _ _ _ Hin) as H2.
    rewrite Forall_forall in Hl. rewrite Forall_forall in Hs. destruct (Hs l H2).
    apply decode_leaf_total; [done..|by apply Hl]. }
  destruct r as [ls|e]; [|by eexists]. destruct (Hr ls eq_refl) as [_ Hw].
  destruct (assemble_value s ls) as [v|e] eqn:Ha; eexists; (split; [done|]); [|done].
  intros ? [= <-]. by eapply assemble_value_wf.
Qed.
End ValueLemmas.

(** ** Text slabs *)

Lemma slice_app {A} (pre x post : list A) :
  slice (pre ++ x ++ post) (Z.of_nat (length pre)) (Z.of_nat (length pre) + Z.of_nat (length x)) = Some x.
Proof.
  rewrite slice_Some by (rewrite ?length_app; lia). f_equal.
  rewrite Nat2Z.id, drop_app_length. apply take_app_length'. lia.
Qed.

Lemma length_u64_le z : length (u64_le z) = 8%nat.
Proof. apply length_le_split. Qed.

Lemma u64_le_read z : 0 <= z <= u64_max -> le_combine (u64_le z) = z.
Proof. intros Hz. apply read_unsigned; [done|]. unfold_ints. lia. Qed.

Lemma read_u64_app pre z post :
  0 <= z <= u64_max -> Z.of_nat (length pre) + 8 <= usize_max ->
  read_u64 (pre ++ u64_le z ++ post) (Z.of_nat (length pre))
  = Some (Ok (z, Z.of_nat (length (pre ++ u64_le z)%list))).
Proof.
  intros Hz Hl. unfold read_u64, checked_usize. rewrite checked_in by (unfold_ints; lia).
  cbn [mbind option_bind]. pose proof (slice_app pre (u64_le z) post) as Hs.
  rewrite length_u64_le in Hs. change (Z.of_nat 8) with 8 in Hs. rewrite Hs. cbn [ok_or].
  rewrite u64_le_read by done. do 3 f_equal. rewrite length_app, length_u64_le. lia.
Qed.

Lemma usize_from_u64_Ok z : 0 <= z <= usize_max -> usize_from_u64 z = Ok z.
Proof. intros Hz. unfold usize_from_u64, checked_usize. by rewrite checked_in by (unfold_ints; lia). Qed.

Lemma read_lens_app lens pre post :
  Forall (fun z => 0 <= z <= usize_max) lens ->
  Z.of_nat (length pre) + 8 * Z.of_nat (length lens) <= usize_max ->
  read_lens (pre ++ concat (u64_le <$> lens) ++ post) (Z.of_nat (length pre)) (length lens)
  = Some (Ok (lens, Z.of_nat (length (pre ++ concat (u64_le <$> lens))%list))).
Proof.
  intros Hl. revert pre; induction Hl as [|z lens Hz _ IH]; intros pre Hp; cbn [read_lens length].
  { cbn. by rewrite app_nil_r. }
  cbn [length] in Hp. cbn [fmap list_fmap concat]. rewrite <- app_assoc.
  rewrite read_u64_app by (unfold_ints; lia). rewrite usize_from_u64_Ok by done.
  specialize (IH (pre ++ u64_le z)%list). rewrite length_app, length_u64_le in IH.
  rewrite (app_assoc pre). rewrite length_app, length_u64_le.
  rewrite IH by lia. do 3 f_equal. by rewrite <- app_assoc.
Qed.

Lemma read_bodies_app texts pre :
  Forall (Forall is_char) texts ->
  Z.of_nat (length (pre ++ concat (as_bytes <$> texts))%list) <= usize_max ->
  read_bodies (pre ++ concat (as_bytes <$> texts)) (Z.of_nat (length pre))
    ((fun text => Z.of_nat (length (as_bytes text))) <$> texts)
  = Ok (VText <$> texts, Z.of_nat (length (pre ++ concat (as_bytes <$> texts))%list)).
Proof.
  intros Ht. revert pre; induction Ht as [|text texts Hc _ IH]; intros pre Hp;
    cbn [fmap list_fmap read_bodies].
  { cbn. by rewrite app_nil_r. }
  cbn [fmap list_fmap concat] in *. rewrite !length_app in Hp.
  unfold checked_usize. rewrite checked_in by (unfold_ints; lia). cbn [ok_or].
  rewrite slice_app. cbn [ok_or]. unfold decode_utf8. rewrite from_utf8_as_bytes by done. cbn [map_err].
  specialize (IH (pre ++ as_bytes text)%list). rewrite !length_app in IH.
  rewrite (app_assoc pre). replace (Z.of_nat (length pre) + Z.of_nat (length (as_bytes text)))
    with (Z.of_nat (length pre + length (as_bytes text))) by lia.
  rewrite IH by lia. do 2 f_equal. rewrite !length_app. lia.
Qed.

Lemma text_bodies_Ok texts :
  text_bodies (Some <$> (VText <$> texts)) = Some (Ok texts).
Proof. induction texts as [|t texts IH]; [done|]. cbn. by rewrite IH. Qed.

Lemma length_body texts t :
  t ∈ texts -> (length (as_bytes t) <= length (concat (as_bytes <$> texts)))%nat.
Proof.
  induction texts as [|u texts IH]; [set_solver|]. cbn [fmap list_fmap concat]. rewrite length_app.
  intros [->|Hin]%elem_of_cons; [lia|]. specialize (IH Hin). lia.
Qed.

Lemma text_slab_codec texts :
  Forall (Forall is_char) texts ->
  exists slab, encode_text_slab (Some <$> (VText <$> texts)) (length texts) = Some (Ok slab) /\
    (Z.of_nat (length slab) <= usize_max ->
     decode_text_slab slab (length texts) = Some (Ok (VText <$> texts))).
Proof.
  intros Ht. unfold encode_text_slab. rewrite text_bodies_Ok. eexists. split; [done|].
  set (head := u64_le (Z.of_nat (length texts))).
  set (lens := (fun text => Z.of_nat (length (as_bytes text))) <$> texts).
  assert (Hlens : concat ((fun text => u64_le (Z.of_nat (length (as_bytes text)))) <$> texts)
                  = concat (u64_le <$> lens)).
  { subst lens. by rewrite <- list_fmap_compose. }
  assert (Hl8 : length (concat (u64_le <$> lens)) = (8 * length texts)%nat).
  { subst lens. clear. induction texts as [|t ts IH]; [done|].
    cbn [fmap list_fmap concat length]. rewrite length_app, length_u64_le, IH. lia. }
  rewrite Hlens. set (bodies := concat (as_bytes <$> texts)). intros Hlen.
  rewrite !length_app, Hl8 in Hlen. unfold head in Hlen. rewrite length_u64_le in Hlen.
  unfold decode_text_slab.
  pose proof (read_u64_app [] (Z.of_nat (length texts)) (concat (u64_le <$> lens) ++ bodies)) as Hn.
  cbn [app length] in Hn. change (Z.of_nat 0) with 0 in Hn. fold head in Hn. rewrite Hn by (unfold_ints; lia). clear Hn.
  rewrite usize_from_u64_Ok, Z.eqb_refl by lia. cbn [negb].
  assert (Hll : length texts = length lens) by (subst lens; by rewrite length_fmap).
  fold head. replace (read_lens _ _ (length texts))
    with (Some (@Ok _ ProtocolError (lens, Z.of_nat (length (head ++ concat (u64_le <$> lens))%list)))).
  2: { rewrite Hll. symmetry. apply read_lens_app.
       - subst lens. apply Forall_fmap, Forall_forall. intros t Hin. cbn.
         pose proof (length_body texts t Hin) as Hb. fold bodies in Hb. lia.
       - unfold head. rewrite length_u64_le. lia. }
  pose proof (read_bodies_app texts (head ++ concat (u64_le <$> lens)) Ht) as Hb.
  fold bodies lens in Hb. rewrite app_assoc. rewrite Hb; [by rewrite Z.eqb_refl|].
  rewrite !length_app, Hl8. unfold head. rewrite length_u64_le. lia.
Qed.

Lemma read_u64_total slab cur :
  0 <= cur <= Z.of_nat (length slab) -> Z.of_nat (length slab) + 8 <= usize_max ->
  exists r, read_u64 slab cur = Some r /\
    forall v c, r = Ok (v, c) -> 0 <= c <= Z.of_nat (length slab).
Proof.
  intros Hc Hl. unfold read_u64, checked_usize. rewrite checked_in by (unfold_ints; lia).
  cbn [mbind option_bind]. unfold slice.
  destruct ((0 <=? cur) && (cur <=? cur + 8) && (cur + 8 <=? Z.of_nat (length slab))) eqn:E;
    cbn [ok_or]; [|by eexists].
  eexists. split; [done|]. intros ? ? [= _ <-]. reflect_Z. lia.
Qed.

Lemma read_lens_total slab n cur :
  0 <= cur <= Z.of_nat (length slab) -> Z.of_nat (length slab) + 8 <= usize_max ->
  exists r, read_lens slab cur n = Some r /\
    forall lens c, r = Ok (lens, c) -> length lens = n.
Proof.
  intros Hc Hl. revert cur Hc; induction n as [|n IH]; intros cur Hc; cbn [read_lens].
  { eexists. split; [done|]. by intros ? ? [= <- _]. }
  destruct (read_u64_total slab cur Hc Hl) as ([[v c]|e] & -> & Hr); [|by eexists].
  destruct (usize_from_u64 v) as [len|]; [|by eexists].
  destruct (IH c (Hr v c eq_refl)) as ([[lens c']|] & -> & Hlens); [|by eexists].
  eexists. split; [done|]. intros ? ? [= <- <-]. cbn. by rewrite (Hlens lens c').
Qed.

Lemma read_bodies_wf slab lens cur out c :
  read_bodies slab cur lens = Ok (out, c) -> length out = length lens /\ Forall value_wf out.
Proof.
  revert cur out c; induction lens as [|len lens IH]; intros cur out c; cbn [read_bodies].
  { by intros [= <- <-]. }
  destruct (checked_usize (cur + len)) as [stop|]; cbn [ok_or]; [|done].
  destruct (slice slab cur stop) as [bytes|]; cbn [ok_or]; [|done].
  unfold decode_utf8. destruct (from_utf8 bytes) as [text|] eqn:Ht; cbn [map_err]; [|done].
  destruct (read_bodies slab stop lens) as [[out' c']|] eqn:Hr; [|done]. intros [= <- <-].
  apply IH in Hr as [Hl Hw]. split; [cbn; lia|]. constructor; [|done].
  constructor. by apply utf8_exact in Ht as [].
Qed.

Lemma decode_text_slab_total slab n :
  Z.of_nat (length slab) + 8 <= usize_max ->
  exists r, decode_text_slab slab n = Some r /\
    forall out, r = Ok out -> length out = n /\ Forall value_wf out.
Proof.
  intros Hl. unfold decode_text_slab.
  destruct (read_u64_total slab 0) as ([[v c]|e] & -> & Hr); [lia|done| |by eexists].
  destruct (usize_from_u64 v) as [count|]; [|by eexists].
  destruct (negb _); [by eexists|].
  destruct (read_lens_total slab n c (Hr v c eq_refl) Hl) as ([[lens c']|] & -> & Hlens); [|by eexists].
  destruct (read_bodies slab c' lens) as [[out c'']|] eqn:Hb; [|by eexists].
  destruct (negb _); [by eexists|]. eexists. split; [done|]. intros ? [= <-].
  rewrite <- (Hlens lens c' eq_refl). by eapply read_bodies_wf.
Qed.

(** ** Batches *)

(** *** Columns to lanes *)

Lemma push_column_spec column per_lane k :
  (k + length column = length per_lane)%nat ->
  push_column per_lane k column
  = Some (take k per_lane ++ zip_with (fun vs v => (vs ++ [v])%list) (drop k per_lane) column)%list.
Proof.
  revert per_lane k; induction column as [|v column IH]; intros per_lane k Hk; cbn [push_column].
  { rewrite zip_with_nil_r, app_nil_r, firstn_all2; [done|]. cbn in Hk. lia. }
  cbn [length] in Hk. destruct (lookup_lt_is_Some_2 per_lane k ltac:(lia)) as [vs Hvs].
  rewrite Hvs. cbn [mbind option_bind]. rewrite IH by (rewrite length_insert; lia). f_equal.
  rewrite (drop_S per_lane vs k) by done. cbn [zip_with].
  rewrite (take_S_r _ k (vs ++ [v])%list) by (apply list_lookup_insert_eq; lia).
  rewrite take_insert_ge, drop_insert_lt by lia. by rewrite <- app_assoc.
Qed.

(** Lane [j] of the columns. *)
Definition lane_of (columns : list (list SpaceValue)) (j : nat) (lane : list SpaceValue) : Prop :=
  Forall2 (fun column v => column !! j = Some v) columns lane.

Lemma push_columns_spec columns per_lane n :
  length per_lane = n -> Forall (fun column => length column = n) columns ->
  exists lanes, push_columns per_lane columns = Some lanes /\ length lanes = n /\
    forall j lane, lanes !! j = Some lane ->
      exists old new, per_lane !! j = Some old /\ lane = (old ++ new)%list /\ lane_of columns j new.
Proof.
  intros Hn Hc. revert per_lane Hn; induction Hc as [|column columns Hl _ IH]; intros per_lane Hn;
    cbn [push_columns].
  { exists per_lane. split_and!; [done..|]. intros j lane Hj. exists lane, [].
    rewrite app_nil_r. split_and!; [done..|]. constructor. }
  rewrite push_column_spec, take_0, drop_0 by lia. cbn [app mbind option_bind].
  destruct (IH (zip_with (fun vs v => (vs ++ [v])%list) per_lane column)) as (lanes & -> & Hlen & Hl').
  { rewrite length_zip_with. lia. }
  exists lanes. split_and!; [done..|]. intros j lane Hj.
  destruct (Hl' j lane Hj) as (old & new & Ho & -> & Hnew).
  apply lookup_zip_with_Some in Ho as (vs & v & -> & Hvs & Hv).
  exists vs, (v :: new). rewrite <- app_assoc. split_and!; [done..|]. by constructor.
Qed.

Lemma collect_map_index {A B E} (f : nat -> A -> option (result B E)) (R : nat -> A -> B -> Prop) i l :
  (forall k x, l !! k = Some x -> exists y, f (i + k)%nat x = Some (Ok y) /\ R (i + k)%nat x y) ->
  exists ys, collect_map f i l = Some (Ok ys) /\ length ys = length l /\
    forall k x y, l !! k = Some x -> ys !! k = Some y -> R (i + k)%nat x y.
Proof.
  revert i; induction l as [|x l IH]; intros i Hl; cbn [collect_map].
  { exists []. split_and!; [done..|]. intros k x y. by rewrite lookup_nil. }
  destruct (Hl 0%nat x eq_refl) as (y & Hy & HR). rewrite Nat.add_0_r in Hy, HR. rewrite Hy.
  destruct (IH (S i)) as (ys & -> & Hlen & Hys).
  { intros k z Hk. rewrite Nat.add_succ_l, <- Nat.add_succ_r. by apply (Hl (S k)). }
  exists (y :: ys). split_and!; [done|cbn; lia|].
  intros [|k] x' y' Hx Hy'; cbn in Hx, Hy'; [by simplify_eq; rewrite Nat.add_0_r|].
  rewrite Nat.add_succ_r, <- Nat.add_succ_l. by apply Hys.
Qed.

Section BatchLemmas.
Context `{HL : HalfLaws}.
Context (alloc : nat -> nat -> Z).

#[local] Notation coded := (fun l v => exists bytes, leaf_codec l v bytes).

(** The stride of a leaf, as the size estimate counts it. *)
Definition fixed_stride (leaf_spec : SpaceSpec) : Z :=
  match leaf_stride leaf_spec with Ok n => n | Err _ => 0 end.

(** The slabs of [n] lanes can be allocated and their sizes added up. *)
Definition batch_sized (s : SpaceSpec) (n : nat) : Prop :=
  Forall (fun l => is_text l = false ->
    exists k, leaf_stride l = Ok k /\ k * Z.of_nat n <= isize_max) (leaf_specs s) /\
  is_Some (usize_sum 0 (fixed_stride <$> leaf_specs s)) /\ 24 * Z.of_nat n <= isize_max.

Lemma decode_parts p l vals parts :
  Forall2 (leaf_codec l) vals parts ->
  forall i, exists vals',
    collect_map (fun lane chunk => decode_leaf (alloc p lane) chunk l) i parts = Some (Ok vals') /\
    Forall2 value_eqv vals vals'.
Proof.
  induction 1 as [|v bytes vals parts (_ & Hd & _) _ IH]; intros i; cbn [collect_map].
  { exists []. by split. }
  destruct (Hd (alloc p i)) as (v' & -> & Hv). destruct (IH (S i)) as (vals' & -> & Hvals).
  exists (v' :: vals'). split; [done|]. by constructor.
Qed.

Lemma collect_repeat {A B E} (f : nat -> A -> option (result B E)) (a : A) i n :
  collect_map (fun lane (_ : unit) => f lane a) i (repeat tt n) = collect_map f i (repeat a n).
Proof. revert i; induction n as [|n IH]; intros i; [done|]. cbn. by rewrite IH. Qed.

(** The bytes of the lanes of a fixed-width leaf split where they were joined. *)
Lemma fixed_column p l vals parts k :
  is_text l = false -> leaf_stride l = Ok k -> 0 <= k -> k * Z.of_nat (length vals) <= isize_max ->
  Forall2 (leaf_codec l) vals parts ->
  exists vals', decode_leaf_column alloc p (concat parts) l (length vals) = Some (Ok vals') /\
    Forall2 value_eqv vals vals'.
Proof.
  intros Ht Hk Hk0 Hn Hp. destruct (decode_parts p l vals parts Hp 0) as (vals' & Hd & Hv).
  assert (Hlen : Forall (fun b => length b = Z.to_nat k) parts).
  { clear - Hp Ht Hk. induction Hp as [|v b vals parts Hb _ IH]; constructor; [|done].
    destruct Hb as (_ & _ & Hst & _). specialize (Hst Ht). rewrite Hk in Hst.
    injection Hst as ->. by rewrite Nat2Z.id. }
  pose proof (Forall2_length _ _ _ Hp) as Hl. pose proof (length_concat_uniform _ _ Hlen) as Hc.
  exists vals'. split; [|done]. unfold decode_leaf_column. rewrite Ht, Hk.
  unfold checked_usize. rewrite checked_in by (unfold_ints; lia). cbn [ok_or].
  replace (Z.of_nat (length (concat parts)) =? _) with true by (symmetry; apply Z.eqb_eq; nia).
  cbn [negb]. destruct (Z.eqb_spec k 0) as [->|Hne].
  - assert (parts = repeat [] (length vals)) as Hr.
    { rewrite Hl. clear - Hlen. induction Hlen as [|b parts Hb _ IH]; [done|]. cbn in *.
      apply nil_length_inv in Hb as ->. by f_equal. }
    rewrite Hr in Hd. rewrite <- Hd.
    apply (collect_repeat (fun lane chunk => decode_leaf (alloc p lane) chunk l)).
  - by rewrite chunks_exact_concat by (done || lia).
Qed.

Lemma text_column l vals :
  is_text l = true -> Forall (coded l) vals ->
  exists texts, vals = VText <$> texts /\ Forall (Forall is_char) texts.
Proof.
  intros Ht. induction 1 as [|v vals (bytes & _ & _ & _ & Hv) _ (texts & -> & Hc)];
    [by exists []|].
  destruct (Hv Ht) as (text & -> & Htext). exists (text :: texts). split; [done|]. by constructor.
Qed.

Lemma value_eqv_texts texts : Forall2 value_eqv (VText <$> texts) (VText <$> texts).
Proof. induction texts; cbn; constructor; [constructor|done]. Qed.

Lemma leaf_stride_nonneg l k : leaf_stride l = Ok k -> 0 <= k <= usize_max.
Proof.
  unfold leaf_stride. destruct (numel l) as [n|]; [|done].
  destruct (checked_usize _) as [k'|] eqn:E; [|done]. intros [= <-].
  apply checked_Some in E as [-> Hr]. done.
Qed.

(** One leaf position of a batch. *)
Lemma column_codec lanes p l vals :
  (fun lane : list SpaceValue => lane !! p) <$> lanes = Some <$> vals -> Forall (coded l) vals ->
  (is_text l = false -> exists k, leaf_stride l = Ok k /\ k * Z.of_nat (length lanes) <= isize_max) ->
  exists slab, encode_column lanes p l = Some (Ok slab) /\
    (Z.of_nat (length slab) <= usize_max -> exists vals',
       decode_leaf_column alloc p slab l (length lanes) = Some (Ok vals') /\
       Forall2 value_eqv vals vals').
Proof.
  intros Hcol Hc Hk. assert (Hlen : length lanes = length vals).
  { apply (f_equal length) in Hcol. by rewrite !length_fmap in Hcol. }
  unfold encode_column. rewrite Hcol, Hlen in *. destruct (is_text l) eqn:Ht.
  - destruct (text_column l vals Ht Hc) as (texts & -> & Htexts). rewrite length_fmap.
    destruct (text_slab_codec texts Htexts) as (slab & -> & Hd). exists slab. split; [done|].
    intros Hs. exists (VText <$> texts). unfold decode_leaf_column. rewrite Ht, Hd by done.
    split; [done|apply value_eqv_texts].
  - destruct (Hk eq_refl) as (k & Hst & Hcap). rewrite Hst.
    pose proof (leaf_stride_nonneg l k Hst) as [Hk0 _].
    unfold with_capacity, saturating_mul.
    replace (_ <=? isize_max) with true by (symmetry; apply Z.leb_le; lia).
    cbn [mbind option_bind].
    destruct (collect_map_build (A := option SpaceValue) (E := ProtocolError) (fun lane leaf_value =>
        let! leaf_value := leaf_value in
        let!? leaf := encode_leaf leaf_value l in
        if negb (Z.of_nat (length leaf) =? k) then
          Some (Err (LengthMismatch (Msg "batch lane {lane} leaf: got {} bytes, expected stride {stride}"
            [ANat lane; ANat (length leaf); AZ k])))
        else Some (Ok leaf)) (fun ov bytes => exists v, ov = Some v /\ leaf_codec l v bytes)
        0 (Some <$> vals)) as (parts & -> & Hparts).
    { apply Forall_fmap. eapply Forall_impl; [exact Hc|]. intros v (bytes & Hb) i. cbn.
      pose proof Hb as (He & _ & Hs & _). rewrite He. specialize (Hs Ht). rewrite Hst in Hs.
      injection Hs as ->. rewrite Z.eqb_refl. cbn. by eauto. }
    eexists. split; [done|]. intros _. eapply fixed_column; try done.
    clear - Hparts. rewrite Forall2_fmap_l in Hparts. eapply Forall2_impl; [exact Hparts|].
    intros v b (v' & [= <-] & Hb). done.
Qed.

Lemma usize_sum_lengths acc (slabs : list (list byte)) :
  0 <= acc -> acc + Z.of_nat (length (concat slabs)) <= usize_max ->
  usize_sum acc ((fun slab => Z.of_nat (length slab)) <$> slabs)
  = Some (acc + Z.of_nat (length (concat slabs))).
Proof.
  revert acc; induction slabs as [|slab slabs IH]; intros acc Ha Hl; cbn [usize_sum fmap list_fmap concat] in *.
  { f_equal. cbn. lia. }
  rewrite length_app in *. unfold checked_usize. rewrite checked_in by (unfold_ints; lia).
  cbn [mbind option_bind]. rewrite IH by lia. f_equal. lia.
Qed.

Lemma length_slab slabs k (slab : list byte) :
  slabs !! k = Some slab -> (length slab <= length (concat slabs))%nat.
Proof.
  revert k; induction slabs as [|x slabs IH]; intros [|k] Hk; cbn in Hk; try done; cbn [concat];
    rewrite length_app; [simplify_eq; lia|]. specialize (IH k Hk). lia.
Qed.

Lemma lanes_column specs lanes k l :
  Forall (Forall2 coded specs) lanes -> specs !! k = Some l ->
  exists vals, (fun lane : list SpaceValue => lane !! k) <$> lanes = Some <$> vals /\
    Forall (coded l) vals.
Proof.
  intros Hl Hk. induction Hl as [|lane lanes Hlane _ (vals & IH & Hc)]; [by exists []|].
  destruct (Forall2_lookup_l _ _ _ _ _ Hlane Hk) as (v & Hv & Hcv).
  exists (v :: vals). cbn. rewrite Hv, IH. split; [done|]. by constructor.
Qed.

(** Lane [j] of the decoded columns holds the values lane [j] was built from. *)
Lemma lane_eqv lanes columns j lane lane' :
  lanes !! j = Some lane -> length lane = length columns ->
  (forall k column, columns !! k = Some column -> exists vals,
     (fun lane : list SpaceValue => lane !! k) <$> lanes = Some <$> vals /\
     Forall2 value_eqv vals column) ->
  lane_of columns j lane' -> Forall2 value_eqv lane lane'.
Proof.
  intros Hj Hlen Hcols Hl. pose proof (Forall2_length _ _ _ Hl) as Hlen'.
  apply Forall2_same_length_lookup. split; [lia|]. intros k v v' Hv Hv'.
  destruct (Forall2_lookup_r _ _ _ _ _ Hl Hv') as (column & Hc & Hcj).
  destruct (Hcols k column Hc) as (vals & Hvals & Heqv).
  apply (f_equal (.!! j)) in Hvals. rewrite !list_lookup_fmap, Hj in Hvals. cbn in Hvals.
  rewrite Hv in Hvals. destruct (vals !! j) as [u|] eqn:Hu; [|done]. cbn in Hvals. simplify_eq.
  exact (Forall2_lookup_lr _ _ _ _ _ _ Heqv Hu Hcj).
Qed.

Lemma flatten_lanes s values :
  valid s -> typed s -> sized s -> Forall value_wf values -> Forall (fits false s) values ->
  exists lanes, collect_results (flatten_leaves s) values = Ok lanes /\
    Forall2 (fun v lane => assemble_value s lane = Ok v /\ Forall2 coded (leaf_specs s) lane)
      values lanes.
Proof.
  intros Hv Ht Hz Hw Hf. induction Hw as [|v values Hwv _ IH]; [by exists []|].
  apply Forall_cons in Hf as [Hfv Hf]. destruct (IH Hf) as (lanes & Hc & Hl).
  destruct (value_coded s v) as (ls & Hfl & Has & Hcd); [done..|].
  exists (ls :: lanes). cbn. rewrite Hfl, Hc. split; [done|]. by constructor.
Qed.

(** The columns of a batch, each decoding back to its leaf of every lane. *)
Lemma encode_columns s lanes :
  Forall (Forall2 coded (leaf_specs s)) lanes -> batch_sized s (length lanes) ->
  exists slabs, collect_map (fun p l => encode_column lanes p l) 0 (leaf_specs s) = Some (Ok slabs) /\
    length slabs = length (leaf_specs s) /\
    (Z.of_nat (length (concat slabs)) <= usize_max -> exists columns,
       collect_map (fun p '(slab, l) => decode_leaf_column alloc p slab l (length lanes)) 0
         (zip slabs (leaf_specs s)) = Some (Ok columns) /\
       length columns = length (leaf_specs s) /\
       forall k column, columns !! k = Some column -> exists vals,
         (fun lane : list SpaceValue => lane !! k) <$> lanes = Some <$> vals /\
         Forall2 value_eqv vals column).
Proof.
  intros Hl (Hb & _ & _).
  set (R := fun k l (slab : list byte) => Z.of_nat (length slab) <= usize_max -> exists vals vals',
    (fun lane : list SpaceValue => lane !! k) <$> lanes = Some <$> vals /\
    decode_leaf_column alloc k slab l (length lanes) = Some (Ok vals') /\ Forall2 value_eqv vals vals').
  destruct (collect_map_index (fun p l => encode_column lanes p l) R 0 (leaf_specs s))
    as (slabs & He & Hlen & HR).
  { intros k l Hk. cbn [Nat.add]. destruct (lanes_column _ _ _ _ Hl Hk) as (vals & Hcol & Hc).
    destruct (column_codec lanes k l vals Hcol Hc) as (slab & He & Hd).
    { exact (Forall_lookup_1 _ _ _ _ Hb Hk). }
    exists slab. split; [done|]. intros Hs. destruct (Hd Hs) as (vals' & ? & ?). by exists vals, vals'. }
  exists slabs. split_and!; [done..|]. intros Htot. cbn [Nat.add] in HR.
  destruct (collect_map_index (E := ProtocolError)
    (fun p '(slab, l) => decode_leaf_column alloc p slab l (length lanes))
    (fun k (_ : list byte * SpaceSpec) column => exists vals,
       (fun lane : list SpaceValue => lane !! k) <$> lanes = Some <$> vals /\
       Forall2 value_eqv vals column) 0 (zip slabs (leaf_specs s))) as (columns & Hd & Hlc & HC).
  { intros k [slab l] Hk. cbn [Nat.add]. apply lookup_zip_Some in Hk as [Hk1 Hk2].
    pose proof (length_slab _ _ _ Hk1).
    destruct (HR k l slab Hk2 Hk1 ltac:(lia)) as (vals & vals' & Hv & Hdec & Heq).
    exists vals'. split; [done|]. by exists vals. }
  rewrite length_zip_with in Hlc.
  exists columns. split_and!; [done|lia|]. intros k column Hk.
  destruct (lookup_lt_is_Some_2 (zip slabs (leaf_specs s)) k) as [x Hx].
  { rewrite length_zip_with. apply lookup_lt_Some in Hk. lia. }
  by apply (HC k x column).
Qed.

Lemma column_length lanes k vals (column : list SpaceValue) :
  (fun lane : list SpaceValue => lane !! k) <$> lanes = Some <$> vals ->
  Forall2 value_eqv vals column -> length column = length lanes.
Proof.
  intros Hv Hc. apply (f_equal length) in Hv. rewrite !length_fmap in Hv.
  apply Forall2_length in Hc. lia.
Qed.

Lemma assemble_lanes s values lanes lanes' :
  Forall2 (fun v lane => assemble_value s lane = Ok v /\ Forall2 coded (leaf_specs s) lane) values lanes ->
  Forall2 (Forall2 value_eqv) lanes lanes' ->
  exists values',
    collect_results (fun ls => map_err structural_decode (assemble_value s ls)) lanes' = Ok values' /\
    Forall2 value_eqv values values'.
Proof.
  intros Hl. revert lanes'; induction Hl as [|v lane values lanes [Hv _] _ IH]; intros lanes' Hl';
    inversion Hl' as [|? lane' ? ? Hlane Hrest]; subst; [by exists []|].
  destruct (assemble_value_eqv s lane lane' v Hlane Hv) as (v' & Hv' & Heq).
  destruct (IH _ Hrest) as (values' & Hc & Hvs). exists (v' :: values'). cbn.
  rewrite Hv', Hc. split; [done|]. by constructor.
Qed.

Lemma batch_codec s values :
  valid s -> typed s -> sized s -> batch_sized s (length values) ->
  Forall value_wf values -> Forall (fits false s) values ->
  exists slabs, encode_leaf_slab values s = Some (Ok slabs) /\
    (Z.of_nat (length (concat slabs)) <= usize_max -> exists values',
       decode_leaf_slab alloc slabs s (length values) = Some (Ok values') /\
       Forall2 value_eqv values values').
Proof.
  intros Hv Ht Hz Hb Hw Hf. destruct (flatten_lanes s values) as (lanes & Hfl & Hl); [done..|].
  pose proof (Forall2_length _ _ _ Hl) as Hn. rewrite Hn in *.
  assert (Hcoded : Forall (Forall2 coded (leaf_specs s)) lanes).
  { clear - Hl. induction Hl as [|v lane vs ls [_ Hx] _ IH]; by constructor. }
  destruct (encode_columns s lanes Hcoded Hb) as (slabs & He & Hlen & Hd).
  destruct Hb as (_ & [total Hsum] & Hcap).
  exists slabs. unfold encode_leaf_slab. rewrite Hfl. cbn [map_err]. unfold fixed_stride in Hsum.
  rewrite Hsum. cbn [mbind option_bind]. split; [done|]. intros Htot.
  destruct (Hd Htot) as (columns & Hcols & Hlc & HC).
  unfold decode_leaf_slab. rewrite Hlen, Nat.eqb_refl. cbn [negb].
  rewrite usize_sum_lengths by lia. cbn [mbind option_bind]. rewrite Hcols.
  unfold with_capacity. rewrite (proj2 (Z.leb_le _ _) Hcap). cbn [mbind option_bind].
  destruct (push_columns_spec columns (repeat [] (length lanes)) (length lanes))
    as (lanes' & -> & Hl' & Hlanes'); [apply repeat_length| |].
  { apply Forall_lookup. intros k column Hk. destruct (HC k column Hk) as (vals & H1 & H2).
    by eapply column_length. }
  cbn [mbind option_bind].
  destruct (assemble_lanes s values lanes lanes') as (values' & -> & Hvs); [done| |by exists values'].
  apply Forall2_same_length_lookup. split; [done|]. intros j lane lane' Hj Hj'.
  destruct (Hlanes' j lane' Hj') as (old & new & Hold & -> & Hnew).
  apply list_elem_of_lookup_2, list_elem_of_In, repeat_spec in Hold as ->.
  apply (lane_eqv lanes columns j); [done| |done..].
  rewrite Hlc. symmetry. eapply Forall2_length. exact (Forall_lookup_1 _ _ _ _ Hcoded Hj).
Qed.

(** *** Decoding any batch *)

Lemma decode_leaf_column_total p slab l n :
  leaf_ok l -> is_leaf l -> copyable slab ->
  exists r, decode_leaf_column alloc p slab l n = Some r /\
    forall out, r = Ok out -> length out = n /\ Forall value_wf out.
Proof.
  intros Hl Hk Hs. unfold decode_leaf_column. destruct (is_text l).
  { apply decode_text_slab_total. unfold copyable in Hs. unfold_ints. lia. }
  destruct (leaf_stride l) as [k|e] eqn:Hst; [|by eexists]. apply leaf_stride_nonneg in Hst.
  unfold checked_usize. destruct (checked _ _ _) as [want|] eqn:E; cbn [ok_or]; [|by eexists].
  apply checked_Some in E as [-> Hr].
  destruct (Z.eqb_spec (Z.of_nat (length slab)) (k * Z.of_nat n)) as [Hlen|]; cbn [negb]; [|by eexists].
  destruct (Z.eqb_spec k 0) as [->|Hk0].
  - destruct (collect_map_total (E := ProtocolError)
      (fun lane (_ : unit) => decode_leaf (alloc p lane) [] l) value_wf 0 (repeat tt n)) as (r & -> & Hout).
    { apply Forall_repeat. intros i. apply decode_leaf_total; [done..|]. unfold_ints. cbn. lia. }
    exists r. split; [done|]. intros out Ho. destruct (Hout out Ho) as [H1 H2].
    by rewrite repeat_length in H1.
  - destruct (collect_map_total (E := ProtocolError)
      (fun lane chunk => decode_leaf (alloc p lane) chunk l) value_wf 0
      (chunks_exact (Z.to_nat k) slab)) as (r & -> & Hout).
    { destruct n as [|n]; [destruct slab; [|cbn in Hlen; lia]|].
      { pose proof (length_chunks_exact (Z.to_nat k) (@nil byte)) as Hnil.
        rewrite Nat.Div0.div_0_l in Hnil. apply nil_length_inv in Hnil as ->. constructor. }
      eapply Forall_impl; [apply chunks_exact_Forall|]. intros chunk Hc i.
      apply decode_leaf_total; [done..|]. unfold copyable in Hs. rewrite Hc. nia. }
    exists r. split; [done|]. intros out Ho. destruct (Hout out Ho) as [H1 H2]. split; [|done].
    rewrite H1, length_chunks_exact. replace (length slab) with (n * Z.to_nat k)%nat by nia.
    apply Nat.div_mul. lia.
Qed.

Lemma decode_leaf_slab_total leaves s n :
  valid s -> typed s -> sized s -> Forall copyable leaves ->
  Z.of_nat (length (concat leaves)) <= usize_max -> 24 * Z.of_nat n <= isize_max ->
  exists r, decode_leaf_slab alloc leaves s n = Some r /\
    forall values, r = Ok values -> length values = n /\ Forall value_wf values.
Proof.
  intros Hv Ht Hz Hl Htot Hn. unfold decode_leaf_slab. destruct (negb _); [by eexists|].
  rewrite usize_sum_lengths by lia. cbn [mbind option_bind].
  destruct (collect_map_total (E := ProtocolError)
    (fun p '(slab, leaf_spec) => decode_leaf_column alloc p slab leaf_spec n)
    (fun column => length column = n /\ Forall value_wf column) 0 (zip leaves (leaf_specs s)))
    as (r & -> & Hr).
  { pose proof (valid_leaf_ok s Hv Ht Hz) as Hs. apply Forall_forall. intros [bytes l] Hin i.
    pose proof (elem_of_zip_l _ _ _ _ Hin) as H1. pose proof (elem_of_zip_r _ _ _ _ Hin) as H2.
    rewrite Forall_forall in Hl. rewrite Forall_forall in Hs. destruct (Hs l H2).
    apply decode_leaf_column_total; [done..|by apply Hl]. }
  destruct r as [columns|e]; [|by eexists]. destruct (Hr columns eq_refl) as [_ Hc].
  unfold with_capacity. rewrite (proj2 (Z.leb_le _ _) Hn). cbn [mbind option_bind].
  destruct (push_columns_spec columns (repeat [] n) n) as (lanes & -> & Hlen & Hlanes);
    [apply repeat_length|by eapply Forall_impl; [exact Hc|intros ? []]|].
  cbn [mbind option_bind]. eexists. split; [done|]. intros values Hvals%collect_results_Ok.
  split; [apply Forall2_length in Hvals; lia|]. apply Forall_lookup. intros j v Hj.
  destruct (Forall2_lookup_r _ _ _ _ _ Hvals Hj) as (lane & Hlane & Ha).
  apply map_err_Ok in Ha. eapply assemble_value_wf; [|exact Ha].
  destruct (Hlanes j lane Hlane) as (old & new & Hold & -> & Hnew).
  apply list_elem_of_lookup_2, list_elem_of_In, repeat_spec in Hold as ->. cbn [app].
  clear - Hnew Hc. induction Hnew as [|column x columns lane Hx _ IH]; [constructor|].
  apply Forall_cons in Hc as [[_ Hcol] Hc]. constructor; [|auto].
  exact (Forall_lookup_1 _ _ _ _ Hcol Hx).
Qed.
End BatchLemmas.

(** ** Properties *)

Section Properties.
Context `{HalfLaws}.
Context (alloc : nat -> nat -> Z).

(** C17: every value that is structurally a member of a valid space goes over the
    wire and back: it encodes without error to one byte string per leaf of the
    space, and these decode to the same value, the tensors compared by their
    elements whatever their strides and storage. *)
Theorem value_roundtrip (s : SpaceSpec) (v : SpaceValue) :
  validate_space s = Some (Ok tt) -> typed s -> sized s -> value_wf v -> fits false s v ->
  exists leaves v', encode_value v s = Some (Ok leaves) /\
    length leaves = length (leaf_specs s) /\
    decode_value alloc (Some leaves) s = Some (Ok (Some v')) /\ value_eqv v v'.
Proof.
  intros Hv%validate_space_Ok Ht Hz Hw Hf.
  destruct (value_codec alloc s v Hv Ht Hz Hw Hf) as (leaves & v' & He & Hl & Hd & Heq).
  exists leaves, v'. unfold encode_value, decode_value. rewrite Hd. done.
Qed.

(** C24: decoding a peer's bytes against a valid space never panics, whatever the
    bytes are, and what it delivers is a well-formed value, on which the
    conformance check gives a verdict. *)
Theorem value_decode_safe (s : SpaceSpec) (leaves : list (list byte)) :
  validate_space s = Some (Ok tt) -> typed s -> sized s -> Forall copyable leaves ->
  exists r, decode_value alloc (Some leaves) s = Some r /\
    forall v, r = Ok (Some v) -> value_wf v /\ is_Some (conform s v).
Proof.
  intros Hv%validate_space_Ok Ht Hz Hl. unfold decode_value.
  destruct (decode_leaves_total alloc leaves s Hv Ht Hz Hl) as ([v|e] & -> & Hr); [|by eexists].
  eexists. split; [done|]. intros ? [= <-]. specialize (Hr v eq_refl). split; [done|].
  destruct (conform_at_checks s Hv Ht v "$" Hr) as (c & Hc & _). by exists c.
Qed.


(** C26: decoding a peer's batch never panics, whatever the bytes, and delivers
    exactly the [n] lanes the receiver asked for, each well-formed. *)
Theorem batch_decode_safe (s : SpaceSpec) (leaves : list (list byte)) (n : nat) :
  validate_space s = Some (Ok tt) -> typed s -> sized s -> Forall copyable leaves ->
  Z.of_nat (length (concat leaves)) <= usize_max -> 24 * Z.of_nat n <= isize_max ->
  exists r, decode_batched_partial_values alloc (Some leaves) s n = Some r /\
    forall values, r = Ok values -> length values = n /\ Forall value_wf values.
Proof. intros Hv%validate_space_Ok. by apply decode_leaf_slab_total. Qed.
End Properties.

(** A Box of doubles whose stride is [2^63] bytes. *)
Definition huge_box : SpaceSpec :=
  mkSpec [2 ^ 60] Float64 (Some (KBox {| bounds := Some (Unbounded true) |})).

(** Encoding a batch can panic where encoding one value reports an error: on
    a valid space of a very large shape the buffer for all lanes is reserved
    before the first lane is checked, and on two such leaves the size estimate
    overflows even for a batch of no lanes. *)
Theorem batch_encode_panics `{HalfOps} :
  validate_space huge_box = Some (Ok tt) /\
  (exists e, encode_value (VDiscrete 0) huge_box = Some (Err e)) /\
  encode_batched_partial_values [VDiscrete 0] huge_box = None /\
  encode_batched_partial_values []
    (mkSpec [] Unspecified (Some (KTuple (mkTupleSpec [huge_box; huge_box])))) = None.
Proof. split_and!; [by vm_compute|by eexists|by vm_compute..]. Qed.

(** ** Witnesses *)

Lemma example_valid : validate_space (H := ieee_half) example_space = Some (Ok tt).
Proof. vm_compute. reflexivity. Qed.

Lemma example_sized : sized example_space.
Proof.
  constructor; [exact I|]. apply Forall_cons_2; [|apply Forall_cons_2; [|apply Forall_nil_2]].
  - constructor; [|apply Forall_nil_2]. vm_compute. discriminate.
  - constructor; [exact I|]. apply Forall_cons_2; [|apply Forall_cons_2; [|apply Forall_nil_2]];
      (constructor; [exact I|apply Forall_nil_2]).
Qed.

Lemma example_fits : fits (H := ieee_half) false example_space example_value.
Proof.
  destruct (conform_at_checks (H := ieee_half) example_space
    (proj1 (validate_space_Ok _ "$") example_valid) example_typed example_value "$" example_value_wf)
    as (c & Hc & Hf).
  apply Hf. vm_compute in Hc. injection Hc as <-. reflexivity.
Qed.

Lemma value_roundtrip_witness :
  exists leaves v', encode_value (H := ieee_half) example_value example_space = Some (Ok leaves) /\
    length leaves = 3%nat /\
    decode_value (H := ieee_half) (fun _ _ => 4096) (Some leaves) example_space = Some (Ok (Some v')) /\
    value_eqv example_value v'.
Proof.
  destruct (value_roundtrip (H := ieee_half) (fun _ _ => 4096) example_space example_value
    example_valid example_typed example_sized example_value_wf example_fits)
    as (leaves & v' & H1 & H2 & H3 & H4).
  exists leaves, v'. split; [exact H1|]. split; [exact H2|]. split; [exact H3|exact H4].
Defined.

Lemma value_decode_safe_witness :
  exists r, decode_value (H := ieee_half) (fun _ _ => 4096) (Some [[]; []; [byte.of_Z 255]]) example_space
    = Some r.
Proof.
  destruct (value_decode_safe (H := ieee_half) (fun _ _ => 4096) example_space
    [[]; []; [byte.of_Z 255]] example_valid example_typed example_sized) as (r & Hr & _).
  - repeat apply Forall_cons_2; [vm_compute; discriminate..|apply Forall_nil_2].
  - exists r. exact Hr.
Defined.


Lemma batch_decode_safe_witness :
  exists r, decode_batched_partial_values (H := ieee_half) (fun _ _ => 4096)
    (Some [[]; []; [byte.of_Z 255]]) example_space 3 = Some r.
Proof.
  destruct (batch_decode_safe (H := ieee_half) (fun _ _ => 4096) example_space
    [[]; []; [byte.of_Z 255]] 3 example_valid example_typed example_sized) as (r & Hr & _).
  - repeat apply Forall_cons_2; [vm_compute; discriminate..|apply Forall_nil_2].
  - vm_compute. discriminate.
  - vm_compute. discriminate.
  - exists r. exact Hr.
Defined.
