(* ===== verification/Edition.v ===== *)
(** * Workflow editions and the session floor

    The hand-written part of [rlmesh-proto/src/lib.rs] that settles which
    edition a session runs at: edition names and their order, the typed
    [Edition] and its defaults, the offers of the participants, the selection
    rule and the three-party session floor with its diagnosis.

    [CURRENT_WORKFLOW_EDITION] and [SUPPORTED_WORKFLOW_EDITIONS] are generated
    by the build script, so they are the fields of a class, [Build]; what the
    code relies on about them is [BuildLaws]. *)

From S2P Require Import Prelude BTree Utf8 Types.
From Stdlib Require Import Ascii.

(** ** Comparison functions

    [Ord::cmp] of strings (bytewise), booleans and tuples (lexicographic). *)

Class TotalCmp {A : Type} (cmp : A -> A -> comparison) : Prop := {
  cmp_eq a b : cmp a b = Eq <-> a = b;
  cmp_opp a b : cmp b a = CompOpp (cmp a b);
  cmp_lt_trans a b c : cmp a b = Lt -> cmp b c = Lt -> cmp a c = Lt;
}.

Definition lex_cmp {A B} (f : A -> A -> comparison) (g : B -> B -> comparison)
    (x y : A * B) : comparison :=
  match f x.1 y.1 with Eq => g x.2 y.2 | c => c end.

(** [max_by_key]: the last of the greatest elements. *)
Definition max_by_key {A K} (cmp : K -> K -> comparison) (key : A -> K) (l : list A)
    : option A :=
  match l with
  | [] => None
  | x :: l =>
      Some (fold_left
        (fun best y => match cmp (key best) (key y) with Gt => best | _ => y end) l x)
  end.

(** ** [str] operations *)

(** The code points of the Unicode property White_Space, in UTF-8. *)
Definition white_space : list (list byte) :=
  encode_char <$>
    [9; 10; 11; 12; 13; 32; 133; 160; 5760; 8192; 8193; 8194; 8195; 8196; 8197; 8198;
     8199; 8200; 8201; 8202; 8232; 8233; 8239; 8287; 12288].

Fixpoint starts_with (p s : list byte) : bool :=
  match p, s with
  | [], _ => true
  | x :: p, y :: s => bool_decide (x = y) && starts_with p s
  | _ :: _, [] => false
  end.

(** Remove the patterns at the front, one at a time; a non-empty pattern is
    removed at each round, so the length of the string is enough fuel. *)
Fixpoint strip (pats : list (list byte)) (fuel : nat) (s : list byte) : list byte :=
  match fuel with
  | O => s
  | S fuel =>
      match List.find (fun p => starts_with p s) pats with
      | Some p => strip pats fuel (drop (length p) s)
      | None => s
      end
  end.

Definition trim_start (s : list byte) : list byte := strip white_space (length s) s.
Definition trim_end (s : list byte) : list byte :=
  reverse (strip (reverse <$> white_space) (length s) (reverse s)).

(** [str::trim]. *)
Definition trim (s : string) : string :=
  String.string_of_list_byte (trim_end (trim_start (String.list_byte_of_string s))).

(** [str::split_once] at a character. *)
Fixpoint split_once (c : Ascii.ascii) (s : string) : option (string * string) :=
  match s with
  | EmptyString => None
  | String x s =>
      if Ascii.eqb x c then Some (EmptyString, s)
      else match split_once c s with
           | Some (a, b) => Some (String x a, b)
           | None => None
           end
  end.

Fixpoint str_contains (pat s : string) : bool :=
  String.prefix pat s ||
  match s with EmptyString => false | String _ s => str_contains pat s end.

Definition is_empty (s : string) : bool := String.eqb s "".

(** ** Edition names *)

Definition edition_sort_key (edition : string) : string * bool * string :=
  match split_once "-"%char edition with
  | Some (base, suffix) => (base, true, suffix)
  | None => (edition, false, "")
  end.

Definition key_cmp : string * bool * string -> string * bool * string -> comparison :=
  lex_cmp (lex_cmp String.compare Bool.compare) String.compare.

Definition not_gt (c : comparison) : bool := match c with Gt => false | _ => true end.
Definition is_lt (c : comparison) : bool := match c with Lt => true | _ => false end.

Definition want_admits (want edition : string) : bool :=
  match edition_sort_key want with
  | (base, false, _) => not_gt (String.compare (edition_sort_key edition).1.1 base)
  | want => not_gt (key_cmp (edition_sort_key edition) want)
  end.

(** ** The typed edition *)

Inductive Edition : Type := E2026_06.

#[export] Instance Edition_eq_dec : EqDecision Edition.
Proof. solve_decision. Defined.

Record UnknownEdition : Type := mkUnknownEdition { unknown_name : string }.

Definition edition_all : list Edition := [E2026_06].

Definition base (e : Edition) : string := match e with E2026_06 => "2026.06" end.

Definition parse (edition : string) : result Edition UnknownEdition :=
  let name := trim edition in
  let base_name := (edition_sort_key name).1.1 in
  ok_or (List.find (fun e => String.eqb (base e) base_name) edition_all)
    (mkUnknownEdition name).

(** The wire's [AutoresetMode] keeps the unspecified value the native enum
    ([Types.AutoresetMode]) does not have. *)
Inductive ProtoAutoresetMode : Type :=
| ProtoUnspecified | ProtoNextStep | ProtoSameStep | ProtoDisabled.

#[export] Instance ProtoAutoresetMode_eq_dec : EqDecision ProtoAutoresetMode.
Proof. solve_decision. Defined.

Record EditionDefaults : Type := {
  default_max_episode_steps : Z;
  trial_index_option_key : string;
  driver_owned_reset_modes : list ProtoAutoresetMode;
  success_info_keys : list string;
  conformance_warning_info_key : string;
}.

Definition DEFAULTS_2026_06 : EditionDefaults := {|
  default_max_episode_steps := 100000;
  trial_index_option_key := "trial_index";
  driver_owned_reset_modes := [ProtoDisabled; ProtoUnspecified];
  success_info_keys := ["is_success"; "success"; "task_success"];
  conformance_warning_info_key := "rlmesh.conformance.warning";
|}.

Definition defaults (e : Edition) : EditionDefaults :=
  match e with E2026_06 => DEFAULTS_2026_06 end.

(** ** Generations and capabilities *)

Definition PROTOCOL_GENERATION : string := "rlmesh-wire-v1".

Definition is_protocol_generation_supported (generation : string) : bool :=
  String.eqb (trim generation) PROTOCOL_GENERATION.

Definition evaluate_handshake (client_protocol_generation : string) : bool :=
  is_protocol_generation_supported client_protocol_generation.

Definition generation_mismatch_message (client_protocol_generation : string) : message :=
  Msg "protocol generation {client_protocol_generation} not compatible with server {PROTOCOL_GENERATION}"
    [AStr client_protocol_generation; AStr PROTOCOL_GENERATION].

Definition capability_map (names : list string) : gmap string string :=
  list_to_map (reverse ((fun name => (name, "true")) <$> names)).

Definition has_capability (map : gmap string string) (name : string) : bool :=
  match map !! name with Some value => String.eqb value "true" | None => false end.

(** ** Offers *)

Record SessionOffer : Type := mkOffer { editions : list string; preferred : option string }.

Definition SessionOffer_new (names : list string) : SessionOffer :=
  mkOffer (trim <$> names) None.

(** [SessionOffer::can]. *)
Definition can (o : SessionOffer) : list string :=
  List.filter (fun e => negb (is_empty e)) (trim <$> editions o).

(** [Option::filter] on a trimmed string. *)
Definition non_empty (s : option string) : option string :=
  match s with Some s => if is_empty s then None else Some s | None => None end.

(** [SessionOffer::want]. *)
Definition want (o : SessionOffer) : option string := non_empty (trim <$> preferred o).

Record TierOffer : Type := mkTier { tier : string; tier_can : list string; tier_want : option string }.

Record EditionRefusal : Type := mkRefusal { tiers : list TierOffer }.

Definition involves_dev_build (r : EditionRefusal) : bool :=
  existsb (fun t => existsb (str_contains "-dev.") (tier_can t)) (tiers r).

Definition DEV_BUILD_HINT : string :=
  "dev builds only interoperate with the identical build; rebuild both sides from the same tree state, or build both with RLMESH_RELEASE_BUILD=1 to speak the sealed edition".

Definition refusal_hint (r : EditionRefusal) : string :=
  if involves_dev_build r then "; hint: " +:+ DEV_BUILD_HINT else "".

(** ** Selection *)

Definition refuse (ts : list (string * SessionOffer)) : EditionRefusal :=
  mkRefusal ((fun '(t, offer) => mkTier t (editions offer) (want offer)) <$> ts).

Definition in_every_can (ts : list (string * SessionOffer)) (e : string) : bool :=
  forallb (fun '(_, offer) => existsb (fun other => String.eqb other e) (can offer)) ts.

Definition every_want_admits (ts : list (string * SessionOffer)) (e : string) : bool :=
  forallb (fun '(_, offer) =>
    match want offer with Some w => want_admits w e | None => true end) ts.

Definition select_workflow_edition (ts : list (string * SessionOffer))
    : result string EditionRefusal :=
  let? (_, first) := ok_or (head ts) (refuse ts) in
  ok_or
    (max_by_key key_cmp edition_sort_key
      (List.filter (every_want_admits ts) (List.filter (in_every_can ts) (can first))))
    (refuse ts).

Definition negotiate_workflow_edition (peer runtime : SessionOffer)
    : result string EditionRefusal :=
  select_workflow_edition [("env", peer); ("runtime", runtime)].

(** ** The session floor *)

Inductive RuntimeCap : Type := Capability | Declaration.

Record SessionFloor : Type := {
  selected_workflow_edition : string;
  desired_workflow_edition : string;
  runtime_cap : option RuntimeCap;
}.

Definition runtime_limited (f : SessionFloor) : bool :=
  match runtime_cap f with Some _ => true | None => false end.

(** [Result::unwrap_or_else(|_| d)]. *)
Definition unwrap_or {A E} (r : result A E) (d : A) : A :=
  match r with Ok a => a | Err _ => d end.

Definition negotiate_session_floor (env model runtime : SessionOffer)
    : result SessionFloor EditionRefusal :=
  let? selected :=
    select_workflow_edition [("env", env); ("model", model); ("runtime", runtime)] in
  let desired :=
    unwrap_or (select_workflow_edition [("env", env); ("model", model)]) selected in
  let cap :=
    if negb (String.eqb desired selected) then
      let undeclared := mkOffer (editions runtime) None in
      let capable :=
        unwrap_or
          (select_workflow_edition
            [("env", env); ("model", model); ("runtime", undeclared)]) selected in
      Some (if is_lt (key_cmp (edition_sort_key selected) (edition_sort_key capable))
            then Declaration else Capability)
    else None in
  Ok {| selected_workflow_edition := selected;
        desired_workflow_edition := desired;
        runtime_cap := cap |}.

(** ** This build *)

Class Build : Type := {
  CURRENT_WORKFLOW_EDITION : string;
  SUPPORTED_WORKFLOW_EDITIONS : list string;
}.

(** [build.rs] puts the current edition in the list, and the tests of the crate
    require its name to have an arm. *)
Class BuildLaws `{Build} : Prop := {
  current_supported : CURRENT_WORKFLOW_EDITION ∈ SUPPORTED_WORKFLOW_EDITIONS;
  current_parses : is_ok (parse CURRENT_WORKFLOW_EDITION) = true;
}.

Section ThisBuild.
Context `{Build}.

(** [expect] panics when the name has no arm. *)
Definition edition_current : option Edition := result_ok (parse CURRENT_WORKFLOW_EDITION).

Definition is_retained_edition (e : Edition) : bool :=
  existsb
    (fun retained => match parse retained with Ok e' => bool_decide (e' = e) | Err _ => false end)
    SUPPORTED_WORKFLOW_EDITIONS.

Definition cannot_drive (edition : string) : message :=
  Msg "runtime cannot drive workflow edition {:?}; this build implements {:?}"
    (AStr (trim edition) :: (AStr <$> SUPPORTED_WORKFLOW_EDITIONS)).

Definition parse_retained_edition (edition : string) : result Edition message :=
  match result_ok (parse edition) with
  | Some e => if is_retained_edition e then Ok e else Err (cannot_drive edition)
  | None => Err (cannot_drive edition)
  end.

Definition parse_declared_edition (edition : string) : result Edition message :=
  let? parsed := parse_retained_edition edition in
  let want := trim edition in
  if existsb (want_admits want) SUPPORTED_WORKFLOW_EDITIONS then Ok parsed
  else Err (Msg "workflow edition {want:?} admits none of the editions this build offers ({SUPPORTED_WORKFLOW_EDITIONS:?}), so declaring it would refuse every session; declare one of those, or the bare {:?} base, instead"
    (AStr want :: (AStr <$> SUPPORTED_WORKFLOW_EDITIONS) ++ [AStr (base parsed)])).

Definition supported_workflow_editions : list string := SUPPORTED_WORKFLOW_EDITIONS.

Definition declared_workflow_edition (declared : option string) : string :=
  default CURRENT_WORKFLOW_EDITION (non_empty (trim <$> declared)).

(** [SessionOffer::this_build]. *)
Definition this_build (declared : option string) : SessionOffer :=
  mkOffer supported_workflow_editions (Some (declared_workflow_edition declared)).

Record HandshakeRequest : Type := {
  protocol_generation : string;
  hs_capabilities : gmap string string;
  hs_supported_workflow_editions : list string;
  preferred_workflow_edition : string;
}.

(** [core_handshake_request], without the peer description the server only
    logs. *)
Definition core_handshake_request (capabilities : list string) (declared : option string)
    : HandshakeRequest := {|
  protocol_generation := PROTOCOL_GENERATION;
  hs_capabilities := capability_map capabilities;
  hs_supported_workflow_editions := supported_workflow_editions;
  preferred_workflow_edition := declared_workflow_edition declared;
|}.

(** [env_floor] of [rlmesh-grpc/src/floor.rs]; its log lines are left out. *)
Definition env_floor (env_offer model_offer : SessionOffer) (declared : option string)
    : result SessionFloor message :=
  map_err (fun refusal => Msg
      "no mutual workflow edition across env, model, and runtime: {refusal}; the runtime re-frames env<->model traffic, so a session can only run at an edition all three support{}"
      [AStr (refusal_hint refusal)])
    (negotiate_session_floor env_offer model_offer (this_build declared)).
End ThisBuild.

(** ** The order of editions *)

#[export] Instance string_total_cmp : TotalCmp String.compare.
Proof.
  split.
  - intros a b. split; [apply String.compare_eq_iff | intros ->; apply compare_refl].
  - intros a b. by rewrite String.compare_antisym.
  - intros a b c. apply str_lt_trans.
Qed.

#[export] Instance bool_total_cmp : TotalCmp Bool.compare.
Proof. split; [intros [] [] | intros [] [] | intros [] [] []]; simpl; try split; congruence. Qed.

#[export] Instance lex_total_cmp {A B} (f : A -> A -> comparison) (g : B -> B -> comparison)
  `{TotalCmp A f, TotalCmp B g} : TotalCmp (lex_cmp f g).
Proof.
  split; unfold lex_cmp.
  - intros [a b] [c d]; simpl. pose proof (cmp_eq (cmp := f) a c) as Hf.
    pose proof (cmp_eq (cmp := g) b d) as Hg.
    destruct (f a c); [|naive_solver..]. rewrite Hg. naive_solver.
  - intros [a b] [c d]; simpl. rewrite (cmp_opp (cmp := f) a c), (cmp_opp (cmp := g) b d).
    by destruct (f a c).
  - intros [a1 b1] [a2 b2] [a3 b3]; simpl.
    pose proof (cmp_lt_trans (cmp := f) a1 a2 a3) as Ht.
    pose proof (cmp_lt_trans (cmp := g) b1 b2 b3) as Hg.
    destruct (f a1 a2) eqn:E12; destruct (f a2 a3) eqn:E23; try done.
    + apply (cmp_eq (cmp := f)) in E12 as ->, E23 as ->.
      by rewrite (proj2 (cmp_eq (cmp := f) a3 a3) eq_refl).
    + apply (cmp_eq (cmp := f)) in E12 as ->. by rewrite E23.
    + apply (cmp_eq (cmp := f)) in E23 as ->. by rewrite E12.
    + by rewrite Ht.
Qed.

#[export] Instance key_total_cmp : TotalCmp key_cmp.
Proof. apply _. Qed.

Section Cmp.
Context {K : Type} (cmp : K -> K -> comparison) `{!TotalCmp cmp}.

Lemma cmp_refl a : cmp a a = Eq.
Proof. by apply cmp_eq. Qed.

Lemma not_gt_refl a : not_gt (cmp a a) = true.
Proof. by rewrite cmp_refl. Qed.

Lemma not_gt_trans a b c :
  not_gt (cmp a b) = true -> not_gt (cmp b c) = true -> not_gt (cmp a c) = true.
Proof.
  pose proof (cmp_lt_trans a b c) as Ht.
  destruct (cmp a b) eqn:E1; destruct (cmp b c) eqn:E2; try done; intros _ _;
    try (apply cmp_eq in E1 as ->); try (apply cmp_eq in E2 as ->).
  - by rewrite cmp_refl.
  - by rewrite E2.
  - by rewrite E1.
  - by rewrite Ht.
Qed.

Lemma not_gt_antisym a b : not_gt (cmp a b) = true -> not_gt (cmp b a) = true -> a = b.
Proof.
  rewrite (cmp_opp a b). destruct (cmp a b) eqn:E; try done. intros _ _. by apply cmp_eq in E.
Qed.

Lemma not_gt_total a b : not_gt (cmp a b) = true \/ not_gt (cmp b a) = true.
Proof. rewrite (cmp_opp a b). destruct (cmp a b); auto. Qed.

Lemma is_lt_not_gt a b : is_lt (cmp a b) = negb (not_gt (cmp b a)).
Proof. rewrite (cmp_opp a b). by destruct (cmp a b). Qed.

Lemma max_by_key_Some {A} (key : A -> K) l m :
  max_by_key cmp key l = Some m ->
  m ∈ l /\ forall y, y ∈ l -> not_gt (cmp (key y) (key m)) = true.
Proof.
  destruct l as [|x l]; [done|]. simpl. intros [= <-].
  revert x. induction l as [|y l IH]; intros x; simpl.
  - split; [left|]. intros y ->%list_elem_of_singleton. apply not_gt_refl.
  - destruct (IH (match cmp (key x) (key y) with Gt => x | _ => y end)) as [Hin Hmax].
    set (best := match cmp (key x) (key y) with Gt => x | _ => y end) in *.
    assert (best = x \/ best = y) as Hb by (unfold best; destruct (cmp _ _); auto).
    assert (not_gt (cmp (key x) (key best)) = true /\ not_gt (cmp (key y) (key best)) = true)
      as [Hx Hy].
    { unfold best. destruct (cmp (key x) (key y)) eqn:E; rewrite ?cmp_refl, ?E; try done.
      by rewrite (cmp_opp (key x) (key y)), E. }
    split.
    + apply elem_of_cons in Hin as [->|Hin]; [|set_solver]. destruct Hb as [-> | ->]; set_solver.
    + pose proof (Hmax best ltac:(left)) as Hbest.
      intros z [-> | [-> | Hz]%elem_of_cons]%elem_of_cons;
        [by eapply not_gt_trans.. | apply Hmax; set_solver].
Qed.

Lemma max_by_key_None {A} (key : A -> K) l : max_by_key cmp key l = None <-> l = [].
Proof. by destruct l. Qed.
End Cmp.

(** ** Names *)

Lemma split_once_Some c s a b : split_once c s = Some (a, b) -> s = a +:+ String c b.
Proof.
  revert a b. induction s as [|x s IH]; intros a b; simpl; [done|].
  destruct (Ascii.eqb_spec x c) as [->|_]; [by intros [= <- <-]|].
  destruct (split_once c s) as [[a' b']|] eqn:E; [|done].
  intros [= <- <-]. by rewrite (IH a' b').
Qed.

(** An edition name is determined by its key. *)
Lemma edition_sort_key_inj e e' : edition_sort_key e = edition_sort_key e' -> e = e'.
Proof.
  unfold edition_sort_key.
  destruct (split_once _ e) as [[a b]|] eqn:E1; destruct (split_once _ e') as [[a' b']|] eqn:E2;
    try congruence.
  intros [= <- <-]. apply split_once_Some in E1, E2. congruence.
Qed.

Definition edition_le (e e' : string) : Prop :=
  not_gt (key_cmp (edition_sort_key e) (edition_sort_key e')) = true.

#[export] Instance edition_le_refl : Reflexive edition_le.
Proof. intros e. apply (not_gt_refl key_cmp). Qed.

#[export] Instance edition_le_trans : Transitive edition_le.
Proof. intros e1 e2 e3. apply (not_gt_trans key_cmp). Qed.

#[export] Instance edition_le_antisym : AntiSymm (=) edition_le.
Proof. intros e1 e2 H1 H2. by apply edition_sort_key_inj, (not_gt_antisym key_cmp). Qed.

Lemma edition_le_base e e' :
  edition_le e e' ->
  not_gt (String.compare (edition_sort_key e).1.1 (edition_sort_key e').1.1) = true.
Proof.
  unfold edition_le, key_cmp, lex_cmp. by destruct (String.compare _ _) eqn:E.
Qed.

(** A declaration is a ceiling: what it admits is closed downwards. *)
Lemma want_admits_down w e e' : want_admits w e = true -> edition_le e' e -> want_admits w e' = true.
Proof.
  unfold want_admits. destruct (edition_sort_key w) as [[b []] s]; intros Hw Hle.
  - by eapply (not_gt_trans key_cmp).
  - eapply (not_gt_trans String.compare); [by apply edition_le_base | done].
Qed.

Lemma want_admits_self_ceiling w e : edition_le e w -> want_admits w e = true.
Proof.
  intros Hle. pose proof (edition_le_base _ _ Hle) as Hb. revert Hle Hb.
  unfold want_admits, edition_le. by destruct (edition_sort_key w) as [[b []] s].
Qed.

(** ** [str::trim] is idempotent *)

Lemma starts_with_spec p s : starts_with p s = true <-> exists t, s = p ++ t.
Proof.
  revert s. induction p as [|x p IH]; intros s; simpl; [naive_solver|].
  destruct s as [|y s]; [naive_solver|].
  rewrite andb_true_iff, bool_decide_eq_true, IH. naive_solver.
Qed.

Definition stripped (pats : list (list byte)) (s : list byte) : Prop :=
  forall p, p ∈ pats -> starts_with p s = false.

Lemma strip_stripped pats fuel s :
  Forall (fun p => p <> []) pats -> (length s <= fuel)%nat -> stripped pats (strip pats fuel s).
Proof.
  intros Hp. revert s. induction fuel as [|fuel IH]; intros s Hs; simpl.
  - destruct s; simpl in Hs; [|lia]. intros p Hin. rewrite Forall_forall in Hp.
    specialize (Hp p Hin). by destruct p.
  - destruct (List.find _ pats) as [p|] eqn:E.
    + apply IH. apply List.find_some in E as [Hin Hst]. apply list_elem_of_In in Hin.
      rewrite Forall_forall in Hp. specialize (Hp p Hin).
      apply starts_with_spec in Hst as [t ->]. rewrite drop_app_length.
      rewrite length_app in Hs. destruct p; [done | simpl in Hs; lia].
    + intros p Hin. apply list_elem_of_In in Hin. by apply (List.find_none _ _ E).
Qed.

Lemma strip_id pats fuel s : stripped pats s -> strip pats fuel s = s.
Proof.
  intros Hs. destruct fuel as [|fuel]; simpl; [done|].
  destruct (List.find _ pats) as [p|] eqn:E; [|done].
  apply List.find_some in E as [Hin Hst]. apply list_elem_of_In in Hin. by rewrite Hs in Hst.
Qed.

Lemma stripped_prefix pats s t : stripped pats (s ++ t) -> stripped pats s.
Proof.
  intros H p Hp. destruct (starts_with p s) eqn:E; [|done].
  apply starts_with_spec in E as [u ->]. rewrite <- (H p Hp). symmetry.
  apply starts_with_spec. exists (u ++ t). by rewrite (assoc (++)).
Qed.

Lemma strip_suffix pats fuel s : exists t, s = t ++ strip pats fuel s.
Proof.
  revert s. induction fuel as [|fuel IH]; intros s; simpl; [by exists []|].
  destruct (List.find _ pats) as [p|] eqn:E; [|by exists []].
  apply List.find_some in E as [_ [t ->]%starts_with_spec]. rewrite drop_app_length.
  destruct (IH t) as [u Hu]. exists (p ++ u). by rewrite <- (assoc (++)), <- Hu.
Qed.

Lemma white_space_non_empty : Forall (fun p => p <> []) white_space.
Proof. vm_compute. repeat constructor; discriminate. Qed.

Lemma trim_end_stripped s :
  stripped white_space s -> stripped white_space (trim_end s).
Proof.
  intros H. unfold trim_end.
  destruct (strip_suffix (reverse <$> white_space) (length s) (reverse s)) as [t Ht].
  apply (stripped_prefix _ _ (reverse t)). rewrite <- reverse_app, <- Ht, reverse_involutive.
  done.
Qed.

Lemma trim_end_idem s : trim_end (trim_end s) = trim_end s.
Proof.
  unfold trim_end. rewrite reverse_involutive. f_equal. apply strip_id, strip_stripped.
  - apply Forall_fmap. eapply Forall_impl; [apply white_space_non_empty|].
    intros p Hp Hr. apply Hp. rewrite <- (reverse_involutive p). simpl in Hr. by rewrite Hr.
  - by rewrite length_reverse.
Qed.

Lemma trim_trim s : trim (trim s) = trim s.
Proof.
  unfold trim. rewrite String.list_byte_of_string_of_list_byte. f_equal.
  set (b := trim_start (String.list_byte_of_string s)).
  assert (stripped white_space b) as Hb.
  { apply strip_stripped; [apply white_space_non_empty | done]. }
  replace (trim_start (trim_end b)) with (trim_end b); [apply trim_end_idem|].
  symmetry. by apply strip_id, trim_end_stripped.
Qed.

Lemma can_trimmed o e : e ∈ can o -> trim e = e /\ e <> "".
Proof.
  unfold can. rewrite list_elem_of_In, List.filter_In, <- list_elem_of_In.
  intros [Hin He]. apply list_elem_of_fmap in Hin as (x & -> & _).
  split; [apply trim_trim|]. intros Hx. by rewrite Hx in He.
Qed.

(** ** The selection rule *)

(** What every participant can drive and no declaration excludes. *)
Definition acceptable (ts : list (string * SessionOffer)) (e : string) : Prop :=
  forall t o, (t, o) ∈ ts ->
    e ∈ can o /\ forall w, want o = Some w -> want_admits w e = true.

(** The greatest such edition. *)
Definition best (ts : list (string * SessionOffer)) (e : string) : Prop :=
  acceptable ts e /\ forall e', acceptable ts e' -> edition_le e' e.

Lemma best_unique ts e e' : best ts e -> best ts e' -> e = e'.
Proof. intros [H1 H2] [H3 H4]. apply (anti_symm edition_le); auto. Qed.

Lemma forallb_tiers (f : SessionOffer -> bool) (ts : list (string * SessionOffer)) :
  forallb (fun '(_, o) => f o) ts = true <-> forall t o, (t, o) ∈ ts -> f o = true.
Proof.
  rewrite forallb_forall. split.
  - intros H t o Hin. apply list_elem_of_In in Hin. apply (H _ Hin).
  - intros H [t o] Hin. apply list_elem_of_In in Hin. by eapply H.
Qed.

Lemma acceptable_spec ts e :
  acceptable ts e <-> in_every_can ts e = true /\ every_want_admits ts e = true.
Proof.
  unfold in_every_can, every_want_admits. rewrite !forallb_tiers. unfold acceptable. split.
  - intros H. split; intros t o Hin; destruct (H t o Hin) as [Hc Hw].
    + apply existsb_exists. exists e. rewrite <- list_elem_of_In. by rewrite String.eqb_refl.
    + destruct (want o); auto.
  - intros [H1 H2] t o Hin. specialize (H1 t o Hin). specialize (H2 t o Hin). split.
    + apply existsb_exists in H1 as (x & Hx & Heq%String.eqb_eq). subst.
      by apply list_elem_of_In.
    + intros w Hw. by rewrite Hw in H2.
Qed.

Lemma candidates_spec ts t o e :
  (t, o) ∈ ts ->
  e ∈ List.filter (every_want_admits ts) (List.filter (in_every_can ts) (can o))
  <-> acceptable ts e.
Proof.
  intros Hin. rewrite list_elem_of_In, !List.filter_In, <- list_elem_of_In, acceptable_spec.
  split; [naive_solver|]. intros [H1 H2]. repeat split; try done.
  by apply (proj2 (acceptable_spec ts e) (conj H1 H2) t o).
Qed.

Lemma select_spec ts :
  match select_workflow_edition ts with
  | Ok e => best ts e
  | Err r => r = refuse ts /\ (ts = [] \/ forall e, ~ acceptable ts e)
  end.
Proof.
  unfold select_workflow_edition. destruct ts as [|[t o] ts]; [naive_solver|].
  set (all := (t, o) :: ts). cbn [head all ok_or].
  assert ((t, o) ∈ all) as Hin by left.
  destruct (max_by_key _ _ _) as [m|] eqn:E; cbn [ok_or].
  - apply (max_by_key_Some key_cmp) in E as [Hm Hmax]. rewrite (candidates_spec all t o) in Hm by done.
    split; [done|]. intros e' He'. apply Hmax. by apply (candidates_spec all t o).
  - apply max_by_key_None in E. split; [done|]. right. intros e He.
    apply (candidates_spec all t o) in He; [|done]. rewrite E in He. set_solver.
Qed.

Lemma select_Ok ts e : select_workflow_edition ts = Ok e -> best ts e.
Proof. intros H. pose proof (select_spec ts) as Hs. by rewrite H in Hs. Qed.

Lemma select_best ts e : ts <> [] -> best ts e -> select_workflow_edition ts = Ok e.
Proof.
  intros Hne Hb. pose proof (select_spec ts) as Hs.
  destruct (select_workflow_edition ts) as [e'|r].
  - f_equal. by eapply best_unique.
  - destruct Hs as [_ [->|Hno]]; [done|]. by destruct (Hno e (proj1 Hb)).
Qed.

Lemma select_acceptable ts e :
  ts <> [] -> acceptable ts e -> exists e', select_workflow_edition ts = Ok e' /\ edition_le e e'.
Proof.
  intros Hne Ha. pose proof (select_spec ts) as Hs.
  destruct (select_workflow_edition ts) as [e'|r].
  - exists e'. split; [done|]. by apply Hs.
  - destruct Hs as [_ [->|Hno]]; [done|]. by destruct (Hno e).
Qed.

Lemma acceptable_mono ts ts' e :
  (forall t o, (t, o) ∈ ts -> exists t' o', (t', o') ∈ ts' /\ can o' = can o /\
    (want o = want o' \/ want o = None)) ->
  acceptable ts' e -> acceptable ts e.
Proof.
  intros H Ha t o Hin. destruct (H t o Hin) as (t' & o' & Hin' & Hc & Hw).
  destruct (Ha t' o' Hin') as [Hc' Hw']. rewrite <- Hc. split; [done|].
  destruct Hw as [-> | ->]; [done|]. by intros w [=].
Qed.

Section Floor.
Context (env model runtime : SessionOffer).

Definition peers : list (string * SessionOffer) := [("env", env); ("model", model)].
Definition session : list (string * SessionOffer) :=
  [("env", env); ("model", model); ("runtime", runtime)].
Definition undeclared_session : list (string * SessionOffer) :=
  [("env", env); ("model", model); ("runtime", mkOffer (editions runtime) None)].

Lemma session_peers e : acceptable session e -> acceptable peers e.
Proof. intros H t o Hin. apply (H t o). set_solver. Qed.

Lemma undeclared_peers e : acceptable undeclared_session e -> acceptable peers e.
Proof. intros H t o Hin. apply (H t o). set_solver. Qed.

Lemma session_undeclared e : acceptable session e -> acceptable undeclared_session e.
Proof.
  apply acceptable_mono. intros t o Hin. unfold undeclared_session in Hin.
  apply elem_of_cons in Hin as [[= -> ->]|Hin]; [exists "env", env; set_solver|].
  apply elem_of_cons in Hin as [[= -> ->]|Hin]; [exists "model", model; set_solver|].
  apply list_elem_of_singleton in Hin as [= -> ->]. exists "runtime", runtime.
  split; [set_solver|]. split; [done | by right].
Qed.

(** The fallbacks of [unwrap_or_else] are never taken. *)
Lemma select_peers e :
  best session e ->
  exists d, select_workflow_edition peers = Ok d /\ best peers d /\ edition_le e d.
Proof.
  intros [Ha _]. destruct (select_acceptable peers e) as (d & Hd & Hle); [done| by apply session_peers|].
  exists d. split; [done|]. split; [by apply select_Ok | done].
Qed.

Lemma select_undeclared e :
  best session e ->
  exists d, select_workflow_edition undeclared_session = Ok d /\
    best undeclared_session d /\ edition_le e d.
Proof.
  intros [Ha _].
  destruct (select_acceptable undeclared_session e) as (d & Hd & Hle);
    [done | by apply session_undeclared|].
  exists d. split; [done|]. split; [by apply select_Ok | done].
Qed.

Lemma floor_Ok f :
  negotiate_session_floor env model runtime = Ok f ->
  exists c,
    best session (selected_workflow_edition f) /\
    best peers (desired_workflow_edition f) /\
    edition_le (selected_workflow_edition f) (desired_workflow_edition f) /\
    best undeclared_session c /\
    edition_le (selected_workflow_edition f) c /\ edition_le c (desired_workflow_edition f) /\
    runtime_cap f =
      if String.eqb (desired_workflow_edition f) (selected_workflow_edition f) then None
      else Some (if is_lt (key_cmp (edition_sort_key (selected_workflow_edition f))
                             (edition_sort_key c)) then Declaration else Capability).
Proof.
  unfold negotiate_session_floor. fold session peers undeclared_session.
  destruct (select_workflow_edition session) as [e|r] eqn:E; [|done].
  apply select_Ok in E. destruct (select_peers e E) as (d & -> & Hd & Hed).
  destruct (select_undeclared e E) as (c & -> & Hc & Hec).
  intros [= <-]. exists c. cbn [unwrap_or selected_workflow_edition desired_workflow_edition
    runtime_cap]. do 5 (split; [done|]). split; [apply Hd, undeclared_peers, Hc|].
  by destruct (String.eqb d e).
Qed.

Lemma floor_Err r :
  negotiate_session_floor env model runtime = Err r ->
  r = refuse session /\ forall e, ~ acceptable session e.
Proof.
  unfold negotiate_session_floor. fold session peers undeclared_session.
  pose proof (select_spec session) as Hs.
  destruct (select_workflow_edition session) as [e|r']; [done|].
  intros [= <-]. destruct Hs as [-> [[=]|Hs]]. done.
Qed.
End Floor.

Lemma is_lt_edition e e' :
  is_lt (key_cmp (edition_sort_key e) (edition_sort_key e')) = true <->
  edition_le e e' /\ e <> e'.
Proof.
  unfold edition_le. split.
  - destruct (key_cmp _ _) eqn:E; try done. intros _. split; [done|]. intros ->.
    by rewrite (cmp_refl key_cmp) in E.
  - intros [Hle Hne]. destruct (key_cmp _ _) eqn:E; try done.
    apply (cmp_eq (cmp := key_cmp)) in E. by apply edition_sort_key_inj in E.
Qed.

(** ** Properties *)

(** Whatever the participants offer, the selection rule returns the greatest
    edition that every participant can drive and no declaration excludes, and it
    refuses, naming every participant's offer, exactly when there is none; so the
    result does not depend on the order in which the participants are listed. *)
Theorem select_greatest_mutual ts :
  ts <> [] ->
  (forall e, select_workflow_edition ts = Ok e <-> best ts e) /\
  (select_workflow_edition ts = Err (refuse ts) <-> forall e, ~ acceptable ts e) /\
  (forall ts', ts ≡ₚ ts' ->
     result_ok (select_workflow_edition ts) = result_ok (select_workflow_edition ts')).
Proof.
  intros Hne.
  assert (forall e, select_workflow_edition ts = Ok e <-> best ts e) as Hok.
  { intros e. split; [apply select_Ok | by apply select_best]. }
  split; [done|]. split.
  - pose proof (select_spec ts) as Hs. destruct (select_workflow_edition ts) as [e|r].
    + split; [done|]. intros Hno. by destruct (Hno e (proj1 Hs)).
    + split; [intros _; naive_solver | naive_solver].
  - intros ts' Hp.
    assert (forall e, best ts e <-> best ts' e) as Hb.
    { intros e. unfold best, acceptable. by setoid_rewrite Hp. }
    assert (ts' <> []) as Hne' by (intros ->; by apply Permutation_nil_r in Hp).
    pose proof (select_spec ts) as H1. pose proof (select_spec ts') as H2.
    destruct (select_workflow_edition ts) as [e|r], (select_workflow_edition ts') as [e'|r'];
      simpl; try done.
    + f_equal. eapply best_unique; [exact H1 | by apply Hb].
    + destruct H2 as [_ [?|Hno]]; [done|]. by destruct (Hno e (proj1 (proj1 (Hb e) H1))).
    + destruct H1 as [_ [?|Hno]]; [done|]. by destruct (Hno e' (proj1 (proj2 (Hb e') H2))).
Qed.

(** C40: the session floor.  When the three-party negotiation succeeds, the selected
    edition is the greatest mutual one of env, model and runtime, the desired one is
    the greatest mutual one of env and model and is never below it, no cap is
    reported exactly when the two agree, and the cap is blamed on the runtime's
    declaration exactly when dropping that declaration would lift the session.
    It fails exactly when no edition is acceptable to all three. *)
Theorem session_floor_exact env model runtime :
  match negotiate_session_floor env model runtime with
  | Ok f =>
      best (session env model runtime) (selected_workflow_edition f) /\
      best (peers env model) (desired_workflow_edition f) /\
      edition_le (selected_workflow_edition f) (desired_workflow_edition f) /\
      (runtime_limited f = false <-> desired_workflow_edition f = selected_workflow_edition f) /\
      (runtime_cap f = Some Declaration <->
       exists e, acceptable (undeclared_session env model runtime) e /\
         edition_le (selected_workflow_edition f) e /\ e <> selected_workflow_edition f)
  | Err r =>
      r = refuse (session env model runtime) /\
      forall e, ~ acceptable (session env model runtime) e
  end.
Proof.
  destruct (negotiate_session_floor env model runtime) as [f|r] eqn:E;
    [|by apply floor_Err in E].
  destruct (floor_Ok _ _ _ _ E) as (c & Hs & Hd & Hle & Hc & Hsc & Hcd & Hcap).
  do 3 (split; [done|]). unfold runtime_limited. rewrite Hcap.
  destruct (String.eqb_spec (desired_workflow_edition f) (selected_workflow_edition f))
    as [Heq|Hne].
  - split; [done|]. split; [done|]. intros (e & Ha & Hse & Hne). destruct Hne.
    apply (anti_symm edition_le); [|done]. rewrite <- Heq. by apply Hd, (undeclared_peers _ _ runtime).
  - split; [done|]. destruct (is_lt _) eqn:Elt.
    + apply is_lt_edition in Elt as [_ Hlt]. split; [|done]. intros _.
      exists c. split; [apply Hc|]. by split.
    + split; [done|]. intros (e & Ha & Hse & Hne'). exfalso.
      assert (is_lt (key_cmp (edition_sort_key (selected_workflow_edition f))
        (edition_sort_key c)) = true) as Ht; [|congruence].
      apply is_lt_edition. split; [done|]. intros Hx. apply Hne'.
      apply (anti_symm edition_le); [|done]. rewrite Hx. by apply Hc.
Qed.

Lemma select_greatest_mutual_witness :
  select_workflow_edition
    [("env", mkOffer ["2026.06"; " 2026.09 "] None); ("runtime", mkOffer ["2026.09"; "2026.06"] (Some "2026.06"))]
  = Ok "2026.06".
Proof.
  apply (select_greatest_mutual
    [("env", mkOffer ["2026.06"; " 2026.09 "] None);
     ("runtime", mkOffer ["2026.09"; "2026.06"] (Some "2026.06"))]); [discriminate|].
  apply select_Ok. vm_compute. reflexivity.
Defined.

(** A participant that declares nothing behaves as one that declares the greatest
    edition it can drive. *)
Lemma undeclared_wants_max t o m (l1 l2 : list (string * SessionOffer)) :
  want o = None -> m ∈ can o -> (forall e, e ∈ can o -> edition_le e m) ->
  result_ok (select_workflow_edition (l1 ++ (t, o) :: l2)) =
  result_ok (select_workflow_edition (l1 ++ (t, mkOffer (editions o) (Some m)) :: l2)).
Proof.
  intros Hw Hm Hmax. set (o' := mkOffer (editions o) (Some m)).
  assert (want o' = Some m) as Hw'.
  { unfold want, o', non_empty, is_empty. simpl. destruct (can_trimmed _ _ Hm) as [-> Hne].
    by destruct (String.eqb_spec m ""). }
  assert (forall e, acceptable (l1 ++ (t, o) :: l2) e <-> acceptable (l1 ++ (t, o') :: l2) e) as Ha.
  { intros e. unfold acceptable. split; intros H t1 o1 Hin.
    - apply elem_of_app in Hin as [Hin|[[= -> ->]|Hin]%elem_of_cons]; [apply (H t1); set_solver| |
        apply (H t1); set_solver].
      destruct (H t o) as [Hc _]; [set_solver|]. split; [done|]. intros w Hw1.
      rewrite Hw' in Hw1. injection Hw1 as <-. by apply want_admits_self_ceiling, Hmax.
    - apply elem_of_app in Hin as [Hin|[[= -> ->]|Hin]%elem_of_cons]; [apply (H t1); set_solver| |
        apply (H t1); set_solver].
      destruct (H t o') as [Hc _]; [set_solver|]. split; [done|]. by rewrite Hw. }
  assert (forall e, best (l1 ++ (t, o) :: l2) e <-> best (l1 ++ (t, o') :: l2) e) as Hb.
  { intros e. unfold best. by setoid_rewrite Ha. }
  pose proof (select_spec (l1 ++ (t, o) :: l2)) as H1.
  pose proof (select_spec (l1 ++ (t, o') :: l2)) as H2.
  destruct (select_workflow_edition (l1 ++ (t, o) :: l2)) as [e|r],
    (select_workflow_edition (l1 ++ (t, o') :: l2)) as [e'|r']; simpl; try done.
  - f_equal. eapply best_unique; [exact H1 | by apply Hb].
  - destruct H2 as [_ [H2|H2]]; [by destruct l1|]. by destruct (H2 e (proj1 (proj1 (Hb e) H1))).
  - destruct H1 as [_ [H1|H1]]; [by destruct l1|]. by destruct (H1 e' (proj1 (proj2 (Hb e') H2))).
Qed.

Section Declared.
Context `{Build}.

(** The names of the build's list carry no whitespace and are not empty. *)
Definition supported_clean : Prop :=
  Forall (fun e => trim e = e /\ e <> "") SUPPORTED_WORKFLOW_EDITIONS.

Lemma can_this_build declared :
  supported_clean -> can (this_build declared) = SUPPORTED_WORKFLOW_EDITIONS.
Proof.
  unfold can, this_build, supported_workflow_editions, supported_clean. cbn [editions].
  induction 1 as [|e l [He Hne] _ IH]; [done|]. rewrite fmap_cons. cbn [List.filter].
  rewrite IH, He. unfold is_empty. by destruct (String.eqb_spec e "").
Qed.

Lemma can_new names : can (SessionOffer_new names) = can (mkOffer names None).
Proof.
  unfold can, SessionOffer_new. cbn [editions]. f_equal. rewrite <- list_fmap_compose.
  apply list_fmap_ext. intros i x _. apply trim_trim.
Qed.

Lemma parse_non_empty d e : parse d = Ok e -> trim d <> "".
Proof. unfold parse. intros Hp Hd. rewrite Hd in Hp. vm_compute in Hp. done. Qed.

Lemma parse_retained_Ok d e : parse_retained_edition d = Ok e -> parse d = Ok e.
Proof. unfold parse_retained_edition. destruct (parse d); simpl; [|done]. by case_match; intros [= ->]. Qed.

Lemma want_this_build d e :
  parse_retained_edition d = Ok e -> want (this_build (Some d)) = Some (trim d).
Proof.
  intros Hd%parse_retained_Ok%parse_non_empty.
  unfold want, this_build, declared_workflow_edition, non_empty, is_empty. simpl.
  destruct (String.eqb_spec (trim d) ""); [done|]. simpl. rewrite trim_trim.
  by destruct (String.eqb_spec (trim d) "").
Qed.

(** A declaration that names a retained edition is accepted exactly when some
    session of this build can run under it: an accepted one always settles with an
    undeclared peer of the same build, and under a refused one every negotiation the
    build takes part in, with whatever peers, is refused. *)
Theorem declaration_accepted_iff_usable d e :
  supported_clean -> parse_retained_edition d = Ok e ->
  (parse_declared_edition d = Ok e <->
     is_ok (negotiate_workflow_edition (SessionOffer_new SUPPORTED_WORKFLOW_EDITIONS)
       (this_build (Some d))) = true) /\
  (parse_declared_edition d <> Ok e ->
     forall t ts, (t, this_build (Some d)) ∈ ts ->
       select_workflow_edition ts = Err (refuse ts)).
Proof.
  intros Hclean Hd. pose proof (want_this_build _ _ Hd) as Hw.
  pose proof (can_this_build (Some d) Hclean) as Hcan.
  assert (parse_declared_edition d = Ok e <->
    exists c, c ∈ SUPPORTED_WORKFLOW_EDITIONS /\ want_admits (trim d) c = true) as Hacc.
  { unfold parse_declared_edition. rewrite Hd. setoid_rewrite list_elem_of_In.
    rewrite <- existsb_exists. by destruct (existsb _ _). }
  assert (forall t ts c, (t, this_build (Some d)) ∈ ts -> acceptable ts c ->
    parse_declared_edition d = Ok e) as Huse.
  { intros t ts c Hin Ha. destruct (Ha _ _ Hin) as [Hc Ha']. rewrite Hcan in Hc.
    apply Hacc. exists c. auto. }
  split; [split|].
  - intros (c & Hc & Hadm)%Hacc. unfold negotiate_workflow_edition.
    destruct (select_acceptable [("env", SessionOffer_new SUPPORTED_WORKFLOW_EDITIONS);
      ("runtime", this_build (Some d))] c) as (e' & -> & _); [done| |done].
    intros t o [[= -> ->]|[= -> ->]%list_elem_of_singleton]%elem_of_cons.
    + split; [|done]. rewrite can_new. unfold can in *. cbn [editions this_build] in *.
      by unfold supported_workflow_editions in Hcan; rewrite Hcan.
    + rewrite Hcan, Hw. split; [done|]. by intros w [= <-].
  - pose proof (select_spec [("env", SessionOffer_new SUPPORTED_WORKFLOW_EDITIONS);
      ("runtime", this_build (Some d))]) as Hs. unfold negotiate_workflow_edition.
    destruct (select_workflow_edition _) as [c|]; [|done]. intros _.
    refine (Huse "runtime" _ c _ (proj1 Hs)). right. left.
  - intros Hno t ts Hin. pose proof (select_spec ts) as Hs.
    destruct (select_workflow_edition ts) as [c|r].
    + by destruct Hno; apply (Huse t ts c), Hs.
    + by destruct Hs as [-> _].
Qed.
End Declared.

(** A release build: one sealed edition. *)
Definition release_build : Build :=
  {| CURRENT_WORKFLOW_EDITION := "2026.06"; SUPPORTED_WORKFLOW_EDITIONS := ["2026.06"] |}.

(** A development build of the same base. *)
Definition dev_build : Build :=
  {| CURRENT_WORKFLOW_EDITION := "2026.06-dev.1f2e3d";
     SUPPORTED_WORKFLOW_EDITIONS := ["2026.06-dev.1f2e3d"] |}.

Lemma declaration_accepted_iff_usable_witness :
  @parse_declared_edition dev_build "2026.06 " = Ok E2026_06 /\
  @parse_declared_edition dev_build "2026.06-dev.0" <> Ok E2026_06 /\
  negotiate_workflow_edition (SessionOffer_new ["2026.06-dev.1f2e3d"])
    (@this_build dev_build (Some "2026.06-dev.0"))
  = Err (refuse [("env", SessionOffer_new ["2026.06-dev.1f2e3d"]);
                 ("runtime", @this_build dev_build (Some "2026.06-dev.0"))]).
Proof.
  assert (@supported_clean dev_build) as Hc.
  { repeat constructor; try discriminate; by vm_compute. }
  assert (@parse_declared_edition dev_build "2026.06-dev.0" <> Ok E2026_06) as Hno
    by (vm_compute; discriminate).
  split; [|split; [done|]].
  - apply (@declaration_accepted_iff_usable dev_build "2026.06 " E2026_06 Hc); by vm_compute.
  - eapply (proj2 (@declaration_accepted_iff_usable dev_build "2026.06-dev.0" E2026_06 Hc
      ltac:(by vm_compute)) Hno "runtime"). right. left.
Defined.
