(* ===== verification/Info.v ===== *)
(** * Per-lane infos and endpoint timings

    What [rlmesh-proto/src/lib.rs] and [rlmesh/src/env/lanes.rs] do with the
    info map of a vector step and with the timing split an endpoint reports:
    [batch_infos] builds the Gymnasium vector layout from the lanes' own maps,
    [lane_final_info] reads one lane back, [EndpointPhases] is the split and
    [nest], [fold_phases], [lane_skew_ns] combine splits. *)

From S2P Require Import Prelude BTree Float Types WireSpaces.
From stdpp Require Import sorting.
#[local] Open Scope Z_scope.

(** ** Reading one lane of a vector info *)

Notation ProtoMetaMap := (list (string * ProtoMetaValue)).

Definition contains_key (key : string) (m : ProtoMetaMap) : bool :=
  match btree_get key m with Some _ => true | None => false end.

Definition meta_bool_at (value : ProtoMetaValue) (lane : nat) : option bool :=
  match value with
  | mkProtoMeta (Some (PList items)) =>
      match items !! lane with
      | Some (mkProtoMeta (Some (PBool flag))) => Some flag
      | _ => None
      end
  | _ => None
  end.

(** [key.strip_prefix('_')]. *)
Definition strip_underscore (key : string) : option string :=
  match key with
  | String c rest => if Ascii.eqb c (Ascii.ascii_of_nat 95) then Some rest else None
  | EmptyString => None
  end.

(** The two [filter]s: the key is not the mask of another key, and its own mask,
    if it has one, is set for the lane. *)
Definition lane_sets (info : ProtoMetaMap) (lane : nat) (key : string) : bool :=
  negb match strip_underscore key with
       | Some masked => contains_key masked info
       | None => false
       end
  && match btree_get ("_" +:+ key) info with
     | Some mask => bool_decide (meta_bool_at mask lane = Some true)
     | None => true
     end.

Section LaneEntries.
Context (lane_value : ProtoMetaValue -> option (option ProtoMetaValue)).
Context (sets : string -> bool).

Fixpoint lane_entries (entries : ProtoMetaMap) : option ProtoMetaMap :=
  match entries with
  | [] => Some []
  | (key, value) :: entries =>
      if sets key then
        let! v := lane_value value in
        let! rest := lane_entries entries in
        Some (match v with Some v => (key, v) :: rest | None => rest end)
      else lane_entries entries
  end.
End LaneEntries.

(** The [filter_map]: a nested map is sliced in turn, a list of the vector's width
    gives the lane's item, anything else is dropped.  Indexing panics when the
    lane is outside the list. *)
Fixpoint lane_value (lane width : nat) (value : ProtoMetaValue)
    : option (option ProtoMetaValue) :=
  match value with
  | mkProtoMeta kind =>
      match kind with
      | Some (PMap map) =>
          let! m := lane_entries (lane_value lane width) (lane_sets map lane) map in
          Some (Some (mkProtoMeta (Some (PMap m))))
      | Some (PList items) =>
          if Nat.eqb (length items) width then
            let! item := items !! lane in Some (Some item)
          else Some None
      | _ => Some None
      end
  end.

Definition vector_info_lane (info : ProtoMetaMap) (lane width : nat) : option ProtoMetaMap :=
  lane_entries (lane_value lane width) (lane_sets info lane) info.

Definition lane_final_info (info : option ProtoMetaMap) (lane width : nat)
    : option (option ProtoMetaMap) :=
  match info with
  | None => Some None
  | Some info =>
      match btree_get "final_info" info with
      | None =>
          if Nat.eqb width 1 then Some (Some info)
          else
            let! sliced := vector_info_lane info lane width in
            Some (if bool_decide (sliced = []) then None else Some sliced)
      | Some final_info =>
          let is_present :=
            match btree_get "_final_info" info with
            | Some mask => default false (meta_bool_at mask lane)
            | None => Nat.eqb width 1
            end in
          if negb is_present then Some None
          else
            match final_info with
            | mkProtoMeta (Some (PMap map)) => Some (Some map)
            | mkProtoMeta (Some (PList items)) =>
                match items !! lane with
                | Some (mkProtoMeta (Some (PMap map))) => Some (Some map)
                | _ => Some None
                end
            | _ => Some None
            end
      end
  end.

(** ** Writing it *)

(** [batch_infos] of [rlmesh/src/env/lanes.rs]. *)
Definition batch_infos (infos : list (option MetaMap)) (done : option (list bool))
    : option MetaMap :=
  match infos with
  | [info] => info
  | _ =>
      if forallb (fun i => match i with None => true | Some _ => false end) infos then None
      else
        let mask := match done with Some d => d | None => replicate (length infos) true end in
        let batched := btree_insert "final_info"
          (MList ((fun info => MMap (default [] info)) <$> infos)) [] in
        Some (btree_insert "_final_info" (MList (MBool <$> mask)) batched)
  end.

(** ** Endpoint timings *)

Record EndpointPhases : Type := {
  decode_ns : Z;
  user_ns : Z;
  encode_ns : Z;
  queue_ns : Z;
  adapter_ns : Z;
  held_episodes : option Z;
  held_state_bytes : option Z;
  in_flight : Z;
  phase_lane_skew_ns : option Z;
}.

Definition phases_default : EndpointPhases := {|
  decode_ns := 0; user_ns := 0; encode_ns := 0; queue_ns := 0; adapter_ns := 0;
  held_episodes := None; held_state_bytes := None; in_flight := 0;
  phase_lane_skew_ns := None;
|}.

(** [EndpointPhases::reported]. *)
Definition reported (ns : Z) : option Z := if ns =? 0 then None else Some ns.

(** [u64::saturating_add]; [saturating_sub] stops at zero. *)
Definition sat_add (a b : Z) : Z := Z.min u64_max (a + b).
Definition sat_sub (a b : Z) : Z := Z.max 0 (a - b).

Definition with_split (decode user encode : Z) (skew : option Z) : EndpointPhases := {|
  decode_ns := decode; user_ns := user; encode_ns := encode; queue_ns := 0; adapter_ns := 0;
  held_episodes := None; held_state_bytes := None; in_flight := 0;
  phase_lane_skew_ns := skew;
|}.

(** [EndpointPhases::from_durations], of three durations in nanoseconds. *)
Definition from_durations (decode user encode : Z) : EndpointPhases :=
  with_split (Z.min decode u64_max) (Z.min user u64_max) (Z.min encode u64_max) None.

(** [EndpointPhases::nest]. *)
Definition nest (decode call encode : Z) (inner : EndpointPhases) : EndpointPhases :=
  let inner_wire := sat_add (decode_ns inner) (encode_ns inner) in
  if call <? inner_wire then with_split decode call encode (phase_lane_skew_ns inner)
  else with_split (sat_add decode (decode_ns inner)) (call - inner_wire)
         (sat_add encode (encode_ns inner)) (phase_lane_skew_ns inner).

(** [lane_skew_ns].  [select_nth_unstable] puts the element of that rank of the
    sorted slice at its index and the ones that sort after it behind; the result
    depends on the slice only through its sorted order. *)
Definition lane_skew_ns (lane_ns : list Z) : Z :=
  if Nat.ltb (length lane_ns) 2 then 0
  else
    let k := Nat.div (length lane_ns - 1) 2 in
    let sorted := merge_sort Z.le lane_ns in
    let median := default 0 (sorted !! k) in
    let slower := drop (S k) sorted in
    sat_sub (match slower with [] => median | x :: l => fold_left Z.max l x end) median.

(** One round of the loop of [fold_phases]: the sums are overflow-checked. *)
Definition fold_phases_step (acc : EndpointPhases * Z * Z) (phases : EndpointPhases)
    : option (EndpointPhases * Z * Z) :=
  let '(folded, min_user, max_user) := acc in
  let! d := checked 0 u64_max (decode_ns folded + decode_ns phases) in
  let! u := checked 0 u64_max (user_ns folded + user_ns phases) in
  let! e := checked 0 u64_max (encode_ns folded + encode_ns phases) in
  Some ({| decode_ns := d; user_ns := u; encode_ns := e;
           queue_ns := Z.max (queue_ns folded) (queue_ns phases);
           adapter_ns := adapter_ns folded; held_episodes := held_episodes folded;
           held_state_bytes := held_state_bytes folded; in_flight := in_flight folded;
           phase_lane_skew_ns := phase_lane_skew_ns folded |},
        Z.min min_user (user_ns phases), Z.max max_user (user_ns phases)).

Fixpoint fold_phases_loop (acc : EndpointPhases * Z * Z) (l : list EndpointPhases)
    : option (EndpointPhases * Z * Z) :=
  match l with
  | [] => Some acc
  | phases :: l => let! acc := fold_phases_step acc phases in fold_phases_loop acc l
  end.

(** [fold_phases] of [rlmesh/src/env/lanes.rs]. *)
Definition fold_phases (lane_phases : list EndpointPhases) : option EndpointPhases :=
  match lane_phases with
  | [phases] => Some phases
  | _ =>
      let! (folded, min_user, max_user) :=
        fold_phases_loop (phases_default, u64_max, 0) lane_phases in
      Some
        (if negb (bool_decide (lane_phases = [])) && (0 <? max_user) then
           {| decode_ns := decode_ns folded; user_ns := user_ns folded;
              encode_ns := encode_ns folded; queue_ns := queue_ns folded;
              adapter_ns := adapter_ns folded; held_episodes := held_episodes folded;
              held_state_bytes := held_state_bytes folded; in_flight := in_flight folded;
              phase_lane_skew_ns := Some (sat_sub max_user min_user) |}
         else folded)
  end.

(** ** One lane of a vector info *)

Lemma ProtoMeta_ind' (P : ProtoMetaValue -> Prop) :
  (forall k,
     match k with
     | Some (PList l) => Forall P l
     | Some (PMap m) => Forall (fun e => P e.2) m
     | _ => True
     end -> P (mkProtoMeta k)) -> forall v, P v.
Proof.
  intros Hind. fix IH 1. intros [k]. apply Hind. destruct k as [[| | | | |l|m|]|]; try exact I.
  - induction l as [|x l IHl]; constructor; [apply IH | exact IHl].
  - induction m as [|[k x] m IHm]; constructor; [apply IH | exact IHm].
Qed.

Lemma lane_entries_total f sets (m : ProtoMetaMap) :
  Forall (fun e => is_Some (f e.2)) m -> is_Some (lane_entries f sets m).
Proof.
  induction 1 as [|[k v] m [r Hr] _ [rest Hrest]]; simpl in *; [by eexists|].
  destruct (sets k); [|by eexists]. rewrite Hr, Hrest. by eexists.
Qed.

Lemma lane_value_total lane width v : (lane < width)%nat -> is_Some (lane_value lane width v).
Proof.
  intros Hl. induction v as [k IH] using ProtoMeta_ind'. simpl.
  destruct k as [[| | | | |l|m|]|]; try by eexists.
  - destruct (Nat.eqb_spec (length l) width) as [<-|]; [|by eexists].
    destruct (lookup_lt_is_Some_2 l lane Hl) as [x ->]. by eexists.
  - destruct (lane_entries_total (lane_value lane width) (lane_sets m lane) m IH) as [r ->].
    by eexists.
Qed.

Lemma vector_info_lane_total info lane width :
  (lane < width)%nat -> is_Some (vector_info_lane info lane width).
Proof.
  intros Hl. apply lane_entries_total, Forall_forall. intros e _. by apply lane_value_total.
Qed.

(** Reading a lane inside the vector never panics. *)
Lemma lane_final_info_total info lane width :
  (lane < width)%nat -> is_Some (lane_final_info info lane width).
Proof.
  intros Hl. unfold lane_final_info. destruct info as [info|]; [|by eexists].
  destruct (vector_info_lane_total info lane width Hl) as [r Hr].
  repeat case_match; simplify_eq/=; by eexists.
Qed.

Lemma lane_entries_keys f sets (m : ProtoMetaMap) r k :
  lane_entries f sets m = Some r -> k ∈ r.*1 -> k ∈ m.*1.
Proof.
  revert r. induction m as [|[k' v] m IH]; intros r; simpl; [intros [= <-]; set_solver|].
  destruct (sets k'); [|set_solver].
  destruct (f v) as [[v'|]|]; [| |done]; destruct (lane_entries f sets m) as [rest|]; try done;
    intros [= <-]; set_solver.
Qed.

Lemma lane_entries_get f sets (m : ProtoMetaMap) r k :
  NoDup m.*1 -> lane_entries f sets m = Some r ->
  btree_get k r =
    if sets k then match btree_get k m with Some v => mjoin (f v) | None => None end else None.
Proof.
  revert r. induction m as [|[k' v] m IH]; intros r Hn; simpl.
  { intros [= <-]. simpl. by destruct (sets k). }
  apply NoDup_cons in Hn as [Hk Hn].
  destruct (String.eqb_spec k k') as [->|Hne].
  - assert (forall rest, lane_entries f sets m = Some rest -> btree_get k' rest = None) as Hrest.
    { intros rest Hr. apply btree_get_None. intros Hin. by eapply Hk, lane_entries_keys. }
    destruct (sets k').
    + destruct (f v) as [[v'|]|]; [| |done]; destruct (lane_entries f sets m) as [rest|]; try done;
        intros [= <-]; simpl; [by rewrite String.eqb_refl | by apply Hrest].
    + apply Hrest.
  - destruct (sets k'); [|by apply IH].
    destruct (f v) as [[v'|]|]; [| |done]; destruct (lane_entries f sets m) as [rest|]; try done;
      intros [= <-]; simpl; [|by apply IH].
    destruct (String.eqb_spec k k'); [done|]. by apply IH.
Qed.

(** The lane of a vector info holds a key exactly when the key is not a mask, its
    mask does not clear the lane, and its value has a part for the lane: the
    lane's item of a full-width list or the lane of a nested info. *)
Lemma vector_info_lane_get info lane width r k :
  NoDup info.*1 -> vector_info_lane info lane width = Some r ->
  btree_get k r =
    if lane_sets info lane k then
      match btree_get k info with Some v => mjoin (lane_value lane width v) | None => None end
    else None.
Proof. apply lane_entries_get. Qed.

(** ** The lanes' infos come back *)

Lemma meta_map_to_proto_get m k :
  btree_get k (meta_map_to_proto m) = meta_value_to_proto <$> btree_get k m.
Proof.
  unfold meta_map_to_proto. induction m as [|[k' v] m IH]; [done|]. simpl.
  by destruct (String.eqb k k').
Qed.

Lemma batch_infos_wide infos done :
  (2 <= length infos)%nat -> (exists m, Some m ∈ infos) ->
  batch_infos infos done =
    Some [("_final_info", MList (MBool <$> match done with Some d => d | None =>
             replicate (length infos) true end));
          ("final_info", MList ((fun info => MMap (default [] info)) <$> infos))].
Proof.
  intros Hlen (m & Hm). unfold batch_infos. destruct infos as [|i1 [|i2 infos]]; simpl in Hlen; try lia.
  set (l := i1 :: i2 :: infos) in *.
  assert (forallb (fun i : option MetaMap => match i with None => true | Some _ => false end) l = false)
    as ->; [|done].
  apply not_true_iff_false. intros Hf. rewrite forallb_forall in Hf.
  apply list_elem_of_In in Hm. by specialize (Hf _ Hm).
Qed.

Definition lane_done (done : option (list bool)) (i : nat) : bool :=
  match done with Some d => default false (d !! i) | None => true end.

Lemma mask_lane infos done i info :
  infos !! i = Some info ->
  meta_bool_at (meta_value_to_proto (MList (MBool <$> match done with Some d => d | None =>
    replicate (length (A := option MetaMap) infos) true end))) i
  = match done with Some d => d !! i | None => Some true end.
Proof.
  intros Hi. simpl. rewrite <- list_fmap_compose, list_lookup_fmap.
  destruct done as [d|]; [by destruct (d !! i)|].
  rewrite lookup_replicate_2; [done|]. by eapply lookup_lt_Some.
Qed.

Lemma batched_lane infos done i info :
  (2 <= length infos)%nat -> (exists m, Some m ∈ infos) -> infos !! i = Some info ->
  lane_final_info (meta_map_to_proto <$> batch_infos infos done) i (length infos)
  = Some (if lane_done done i then Some (meta_map_to_proto (default [] info)) else None).
Proof.
  intros Hlen Hm Hi. rewrite batch_infos_wide by done. cbn [fmap option_fmap option_map].
  unfold lane_final_info. rewrite !meta_map_to_proto_get. cbn [btree_get].
  change (String.eqb "final_info" "_final_info") with false. rewrite !String.eqb_refl.
  cbn [fmap option_fmap option_map].
  replace (default false _) with (lane_done done i).
  2:{ unfold lane_done. rewrite (mask_lane infos done i info Hi). by destruct done. }
  destruct (lane_done done i); [|done]. simpl.
  unfold MetaMap, btree in *. rewrite <- list_fmap_compose, list_lookup_fmap, Hi. done.
Qed.

(** What a lane of a multi-lane step reports as its info is what the wire layer
    reads back for that lane: exactly the lanes that completed the step get one, it
    is the lane's own map (empty when the lane reported none), decoded to the map
    the lane sent. *)
Theorem lane_info_roundtrip infos done i info :
  (2 <= length infos)%nat -> (exists m, Some m ∈ infos) -> infos !! i = Some info ->
  meta_map_wf (default [] info) ->
  exists r,
    lane_final_info (meta_map_to_proto <$> batch_infos infos done) i (length infos) = Some r /\
    meta_map_from_proto <$> r = if lane_done done i then Some (default [] info) else None.
Proof.
  intros Hlen Hm Hi Hwf. eexists. split; [by apply batched_lane|].
  destruct (lane_done done i); [|done]. cbn [fmap option_fmap option_map]. f_equal.
  destruct Hwf as [Hs Hw]. pose proof (meta_value_trip (MMap (default [] info))) as Ht.
  specialize (Ht (meta_wf_map _ Hs Hw)). simpl in Ht. by injection Ht.
Qed.

Lemma lane_info_roundtrip_witness :
  exists r,
    lane_final_info
      (meta_map_to_proto <$> batch_infos [Some [("is_success", MBool true)]; None] (Some [true; false]))
      0 2 = Some r /\
    meta_map_from_proto <$> r = Some [("is_success", MBool true)].
Proof.
  apply (lane_info_roundtrip [Some [("is_success", MBool true)]; None] (Some [true; false]) 0
    (Some [("is_success", MBool true)])).
  - simpl. lia.
  - eexists. left.
  - reflexivity.
  - split; repeat constructor.
Defined.

(** ** Timings *)

(** [nest] loses no time: short of saturation the phases of the combined split add
    up to the outer measurement. *)
Lemma nest_conserves decode call encode inner :
  0 <= decode -> 0 <= call -> 0 <= encode ->
  0 <= decode_ns inner -> 0 <= encode_ns inner ->
  decode_ns inner + encode_ns inner <= u64_max ->
  decode + call + encode <= u64_max ->
  let n := nest decode call encode inner in
  decode_ns n + user_ns n + encode_ns n = decode + call + encode /\
  decode <= decode_ns n /\ encode <= encode_ns n /\ 0 <= user_ns n <= call.
Proof.
  intros ??????? n. subst n. unfold nest, sat_add.
  destruct (Z.ltb_spec call (Z.min u64_max (decode_ns inner + encode_ns inner))); simpl; lia.
Qed.

(** The two definitions of an op's lane skew disagree: for the same lanes the
    folded split reports the slowest lane against the fastest, [lane_skew_ns] the
    slowest against the median. *)
Definition user_lane (ns : Z) : EndpointPhases := with_split 0 ns 0 None.

(** For three lanes that took 1, 10 and 10 ns, the documented skew (the slowest
    lane against the median one) is 0, and the split a multi-lane env reports under
    the same name is 9. *)
Theorem fold_phases_skew_differs :
  lane_skew_ns [1; 10; 10] = 0 /\
  (fold_phases (user_lane <$> [1; 10; 10]) ≫= phase_lane_skew_ns) = Some 9.
Proof. vm_compute. done. Qed.
