(* ===== verification/Episode.v ===== *)
(** * Episode tracking on the env server

    [rlmesh-grpc/src/env/episode.rs]: the tracker that follows, per lane of the
    served env, the running episode, the owed autoreset observation and the
    episodes a reset interrupted.

    [HashMap<i32, Episode>] and [HashSet<i32>] are stdpp's [gmap] and [gset];
    the order in which [HashMap::drain] yields the entries is not specified, so
    it is a parameter of [complete_all].  The wall clock is a parameter of every
    operation that reads it, one value per read. *)

From S2P Require Import Prelude Float Types WireSpaces Info.

(** ** Data *)

(** A read of [SystemTime::now().duration_since(UNIX_EPOCH)] in nanoseconds,
    [None] when the clock predates the epoch. *)
Definition clock_read : Type := option Z.

Definition unix_nanos_now (c : clock_read) : Z :=
  match c with Some d => if d <=? i64_max then d else i64_max | None => 0 end.

Record Episode : Type := mkEpisode {
  ep_id : string;
  ep_seed : option Z;
  ep_env_index : Z;
  ep_step_count : Z;
  ep_cumulative_reward : f64;
  ep_start_timestamp_ns : Z;
}.

Record EpisodeMetadata : Type := mkMetadata {
  episode_id : string;
  seed : option Z;
  env_index : Z;
  step_count : Z;
  cumulative_reward : f64;
  terminated : bool;
  truncated : bool;
  start_timestamp_ns : Z;
  end_timestamp_ns : Z;
  final_info : option ProtoMetaMap;
}.

Definition Episode_new (c : clock_read) (env_index : Z) (seed : option Z) (id : string)
    : Episode :=
  mkEpisode id seed env_index 0 f64_zero (unix_nanos_now c).

(** [Episode::record_step]: the counter is overflow-checked. *)
Definition Episode_record_step (reward : f64) (e : Episode) : option Episode :=
  let! n := checked_i64 (ep_step_count e + 1) in
  Some (mkEpisode (ep_id e) (ep_seed e) (ep_env_index e) n
    (f64_add (ep_cumulative_reward e) reward) (ep_start_timestamp_ns e)).

(** [Episode::complete]. *)
Definition Episode_complete (c : clock_read) (terminated truncated : bool)
    (final_info : option ProtoMetaMap) (e : Episode) : EpisodeMetadata :=
  mkMetadata (ep_id e) (ep_seed e) (wrap_u 32 (Z.max (ep_env_index e) 0)) (ep_step_count e)
    (ep_cumulative_reward e) terminated truncated (ep_start_timestamp_ns e)
    (unix_nanos_now c) final_info.

Definition MAX_INTERRUPTED_EPISODES : nat := 100.

Inductive LaneState : Type := Active | PendingAutoreset | Idle.

#[export] Instance LaneState_eq_dec : EqDecision LaneState.
Proof. solve_decision. Defined.

Record EpisodeTracker : Type := mkTracker {
  active : gmap Z Episode;
  pending_autoreset : gset Z;
  interrupted : list EpisodeMetadata;
  interrupted_dropped : Z;
}.

(** ** Operations *)

Definition tracker_new : EpisodeTracker := mkTracker ∅ ∅ [] 0.

Definition push_interrupted (m : EpisodeMetadata) (t : EpisodeTracker) : EpisodeTracker :=
  if Nat.leb MAX_INTERRUPTED_EPISODES (length (interrupted t)) then
    mkTracker (active t) (pending_autoreset t) (drop 1 (interrupted t) ++ [m])
      (Z.min u64_max (interrupted_dropped t + 1))
  else
    mkTracker (active t) (pending_autoreset t) (interrupted t ++ [m]) (interrupted_dropped t).

Definition take_interrupted (t : EpisodeTracker) : list EpisodeMetadata * EpisodeTracker :=
  (interrupted t, mkTracker (active t) (pending_autoreset t) [] 0).

(** The two reads of the clock are the start of the new episode and the end of the
    one it replaces. *)
Definition start_episode (now : clock_read * clock_read) (lane : Z) (seed : option Z)
    (id : string) (t : EpisodeTracker) : EpisodeTracker :=
  let started := mkTracker (<[lane := Episode_new now.1 lane seed id]> (active t))
    (pending_autoreset t ∖ {[lane]}) (interrupted t) (interrupted_dropped t) in
  match active t !! lane with
  | Some old => push_interrupted (Episode_complete now.2 false true None old) started
  | None => started
  end.

Definition drain_interrupted (t : EpisodeTracker) : list EpisodeMetadata * EpisodeTracker :=
  take_interrupted t.

Definition record_step (lane : Z) (reward : f64) (t : EpisodeTracker) : option EpisodeTracker :=
  match active t !! lane with
  | Some e =>
      let! e := Episode_record_step reward e in
      Some (mkTracker (<[lane := e]> (active t)) (pending_autoreset t) (interrupted t)
        (interrupted_dropped t))
  | None => Some t
  end.

Definition complete_episode (now : clock_read) (lane : Z) (terminated truncated : bool)
    (final_info : option ProtoMetaMap) (t : EpisodeTracker)
    : option EpisodeMetadata * EpisodeTracker :=
  match active t !! lane with
  | Some e =>
      (Some (Episode_complete now terminated truncated final_info e),
       mkTracker (delete lane (active t)) (pending_autoreset t) (interrupted t)
         (interrupted_dropped t))
  | None => (None, t)
  end.

(** The order of a hash map's entries. *)
Class HashOrder : Type := drain : gmap Z Episode -> list (Z * Episode).
Class HashOrderLaws `{HashOrder} : Prop := drain_entries m : drain m ≡ₚ map_to_list m.

Definition complete_all `{HashOrder} (now : Z -> clock_read) (t : EpisodeTracker)
    : list EpisodeMetadata * EpisodeTracker :=
  let '(completed, t) := take_interrupted t in
  (completed ++ ((fun '(lane, e) => Episode_complete (now lane) false true None e) <$> drain (active t)),
   mkTracker ∅ ∅ (interrupted t) (interrupted_dropped t)).

Definition active_episode_id (lane : Z) (t : EpisodeTracker) : option string :=
  ep_id <$> active t !! lane.

Definition lane_state (lane : Z) (t : EpisodeTracker) : LaneState :=
  match active t !! lane with
  | Some _ => Active
  | None => if bool_decide (lane ∈ pending_autoreset t) then PendingAutoreset else Idle
  end.

Definition expect_autoreset (lane : Z) (t : EpisodeTracker) : EpisodeTracker :=
  mkTracker (active t) (pending_autoreset t ∪ {[lane]}) (interrupted t) (interrupted_dropped t).

(** The order of the model's own maps is one such order. *)
Definition map_order : HashOrder := map_to_list.
Lemma map_order_laws : @HashOrderLaws map_order.
Proof. intros m. done. Qed.

(** ** What the tracker maintains *)

(** Every episode is filed under its own lane, a lane that owes an autoreset
    observation runs no episode, and the buffer of interrupted episodes is bounded
    (and full if anything was dropped from it). *)
Record tracker_wf (t : EpisodeTracker) : Prop := {
  wf_filed lane e : active t !! lane = Some e ->
    ep_env_index e = lane /\ 0 <= lane <= i32_max /\ 0 <= ep_step_count e;
  wf_disjoint lane : lane ∈ pending_autoreset t -> active t !! lane = None;
  wf_buffer : (length (interrupted t) <= MAX_INTERRUPTED_EPISODES)%nat;
  wf_dropped : 0 <= interrupted_dropped t <= u64_max;
  wf_full : 0 < interrupted_dropped t -> length (interrupted t) = MAX_INTERRUPTED_EPISODES;
}.

Lemma tracker_new_wf : tracker_wf tracker_new.
Proof.
  split; simpl; try (unfold_ints; lia).
  - intros lane e He. by rewrite lookup_empty in He.
  - intros lane _. apply lookup_empty.
Qed.

Lemma push_interrupted_active m t : active (push_interrupted m t) = active t.
Proof. unfold push_interrupted. by case_match. Qed.

Lemma push_interrupted_pending m t :
  pending_autoreset (push_interrupted m t) = pending_autoreset t.
Proof. unfold push_interrupted. by case_match. Qed.

Lemma push_interrupted_wf m t : tracker_wf t -> tracker_wf (push_interrupted m t).
Proof.
  intros [Hf Hd Hb Hdr Hfull]. unfold push_interrupted.
  destruct (Nat.leb_spec MAX_INTERRUPTED_EPISODES (length (interrupted t))) as [Hle|Hlt];
    split; simpl; try done; rewrite ?length_app, ?length_drop; simpl;
    unfold MAX_INTERRUPTED_EPISODES in *; try (unfold_ints; lia).
Qed.

Lemma active_start_episode now lane sd id t :
  active (start_episode now lane sd id t) = <[lane := Episode_new now.1 lane sd id]> (active t).
Proof.
  unfold start_episode. destruct (active t !! lane); [by rewrite push_interrupted_active | done].
Qed.

Lemma pending_start_episode now lane sd id t :
  pending_autoreset (start_episode now lane sd id t) = pending_autoreset t ∖ {[lane]}.
Proof.
  unfold start_episode. destruct (active t !! lane); [by rewrite push_interrupted_pending | done].
Qed.

Lemma start_episode_wf now lane sd id t :
  0 <= lane <= i32_max -> tracker_wf t -> tracker_wf (start_episode now lane sd id t).
Proof.
  intros Hl Hwf. assert (tracker_wf (mkTracker (<[lane := Episode_new now.1 lane sd id]> (active t))
    (pending_autoreset t ∖ {[lane]}) (interrupted t) (interrupted_dropped t))) as Hs.
  { destruct Hwf as [Hf Hd Hb Hdr Hfull]. split; simpl; try done.
    - intros lane' e [[<- <-]|[Hne He]]%lookup_insert_Some; simpl; [|by apply Hf]. lia.
    - intros lane' [Hp Hne]%elem_of_difference. rewrite lookup_insert_ne by set_solver. auto. }
  unfold start_episode. destruct (active t !! lane); [by apply push_interrupted_wf | done].
Qed.

Lemma take_interrupted_wf t : tracker_wf t -> tracker_wf (take_interrupted t).2.
Proof. intros [Hf Hd Hb Hdr Hfull]. split; simpl; try done; unfold_ints; lia. Qed.

Lemma record_step_wf lane reward t t' :
  record_step lane reward t = Some t' -> tracker_wf t -> tracker_wf t'.
Proof.
  intros Hr Hwf. unfold record_step in Hr. destruct (active t !! lane) as [e|] eqn:He; [|congruence].
  unfold Episode_record_step in Hr.
  destruct (checked_i64 _) as [n|] eqn:Hn; [|done]. simplify_eq/=.
  apply checked_Some in Hn as [-> Hn]. destruct Hwf as [Hf Hd Hb Hdr Hfull]. split; simpl; try done.
  - intros lane' e' [[<- <-]|[Hne He']]%lookup_insert_Some; simpl; [|by apply Hf].
    destruct (Hf _ _ He) as (? & ? & ?). lia.
  - intros lane' Hp. rewrite lookup_insert_ne; [auto|]. intros ->. by rewrite Hd in He.
Qed.

Lemma complete_episode_wf now lane term trunc info t :
  tracker_wf t -> tracker_wf (complete_episode now lane term trunc info t).2.
Proof.
  intros Hwf. unfold complete_episode. destruct (active t !! lane) as [e|]; [|done].
  destruct Hwf as [Hf Hd Hb Hdr Hfull]. split; simpl; try done.
  - intros lane' e' [Hne He']%lookup_delete_Some. by apply Hf.
  - intros lane' Hp. apply lookup_delete_None. right. auto.
Qed.

Lemma expect_autoreset_wf lane t :
  active t !! lane = None -> tracker_wf t -> tracker_wf (expect_autoreset lane t).
Proof.
  intros Hn [Hf Hd Hb Hdr Hfull]. split; simpl; try done.
  intros lane' [Hp| ->%elem_of_singleton]%elem_of_union; auto.
Qed.

Lemma complete_all_new `{HashOrder} now t : (complete_all now t).2 = tracker_new.
Proof. done. Qed.

(** ** Accounting

    An episode is identified by its lane, id, seed and start; the account of a
    tracker is every episode it still has to report. *)

Definition episode_key : Type := Z * string * option Z * Z.
Definition key_of (e : Episode) : episode_key :=
  (ep_env_index e, ep_id e, ep_seed e, ep_start_timestamp_ns e).
Definition reported_key (m : EpisodeMetadata) : episode_key :=
  (env_index m, episode_id m, seed m, start_timestamp_ns m).

Definition running_keys (t : EpisodeTracker) : list episode_key :=
  (fun x => key_of x.2) <$> map_to_list (active t).
Definition account (t : EpisodeTracker) : list episode_key :=
  running_keys t ++ (reported_key <$> interrupted t).

(** What pushing onto a full buffer loses. *)
Definition evicted (t : EpisodeTracker) : list EpisodeMetadata :=
  if Nat.leb MAX_INTERRUPTED_EPISODES (length (interrupted t)) then take 1 (interrupted t) else [].

Lemma reported_key_complete now term trunc info e :
  0 <= ep_env_index e <= i32_max ->
  reported_key (Episode_complete now term trunc info e) = key_of e.
Proof.
  intros H. unfold reported_key, key_of, Episode_complete. simpl.
  rewrite Z.max_l by lia. rewrite wrap_u_id by (unfold_ints; lia). done.
Qed.

Lemma push_interrupted_list m t :
  evicted t ++ interrupted (push_interrupted m t) = interrupted t ++ [m].
Proof.
  unfold evicted, push_interrupted.
  destruct (Nat.leb_spec MAX_INTERRUPTED_EPISODES (length (interrupted t))); simpl; [|done].
  by rewrite (assoc (++)), take_drop.
Qed.

Lemma running_insert_new lane e t t' :
  active t !! lane = None -> active t' = <[lane := e]> (active t) ->
  running_keys t' ≡ₚ key_of e :: running_keys t.
Proof. intros Hn Ha. unfold running_keys. by rewrite Ha, map_to_list_insert. Qed.

Lemma running_delete lane e t :
  active t !! lane = Some e ->
  running_keys t ≡ₚ key_of e :: ((fun x => key_of x.2) <$> map_to_list (delete lane (active t))).
Proof. intros He. unfold running_keys. by rewrite <- (map_to_list_delete _ _ _ He). Qed.

Lemma running_replace lane e e' t t' :
  active t !! lane = Some e -> active t' = <[lane := e']> (active t) ->
  key_of e :: running_keys t' ≡ₚ key_of e' :: running_keys t.
Proof.
  intros He Ha. rewrite (running_delete lane e t He). unfold running_keys. rewrite Ha.
  rewrite <- insert_delete_eq, map_to_list_insert by apply lookup_delete_eq.
  simpl. apply Permutation_swap.
Qed.

(** Starting an episode adds it to the account; all the account can lose is the
    oldest entry of a full buffer. *)
Definition start_loses (lane : Z) (t : EpisodeTracker) : list EpisodeMetadata :=
  match active t !! lane with Some _ => evicted t | None => [] end.

Lemma start_episode_account now lane sd id t :
  tracker_wf t ->
  key_of (Episode_new now.1 lane sd id) :: account t
  ≡ₚ account (start_episode now lane sd id t) ++ (reported_key <$> start_loses lane t).
Proof.
  intros Hwf. set (e' := Episode_new now.1 lane sd id). unfold account, start_loses.
  pose proof (active_start_episode now lane sd id t) as Ha. fold e' in Ha.
  destruct (active t !! lane) as [e|] eqn:He.
  - pose proof (running_replace lane e e' t _ He Ha) as Hr.
    destruct (wf_filed t Hwf _ _ He) as (Hi & Hl & _).
    set (t1 := mkTracker (<[lane := e']> (active t)) (pending_autoreset t ∖ {[lane]})
      (interrupted t) (interrupted_dropped t)).
    assert (start_episode now lane sd id t
      = push_interrupted (Episode_complete now.2 false true None e) t1) as Hs
      by (unfold start_episode; by rewrite He).
    pose proof (push_interrupted_list (Episode_complete now.2 false true None e) t1) as Hp.
    rewrite Hs in *. change (evicted t1) with (evicted t) in Hp. simpl in Hp.
    apply (f_equal (fmap reported_key)) in Hp. rewrite !fmap_app in Hp. simpl in Hp.
    rewrite reported_key_complete in Hp by lia.
    rewrite <- (assoc (++)), (comm (++) (reported_key <$> interrupted _)), Hp.
    rewrite app_comm_cons, <- Hr. simpl. rewrite (comm (++) (reported_key <$> interrupted t)).
    apply Permutation_middle.
  - assert (interrupted (start_episode now lane sd id t) = interrupted t) as ->
      by (unfold start_episode; by rewrite He).
    rewrite app_nil_r, (running_insert_new lane e' t _ He Ha). done.
Qed.

Lemma record_step_account lane reward t t' :
  record_step lane reward t = Some t' -> account t' ≡ₚ account t.
Proof.
  unfold record_step. destruct (active t !! lane) as [e|] eqn:He; [|by intros [= ->]].
  unfold Episode_record_step. destruct (checked_i64 _) as [n|]; [|done]. intros [= <-].
  unfold account. simpl. apply Permutation_app; [|done].
  eapply (Permutation_cons_inv (a := key_of e)). rewrite (running_replace lane e); [|done|done].
  done.
Qed.

Lemma complete_episode_account now lane term trunc info t :
  tracker_wf t ->
  account t ≡ₚ
  match (complete_episode now lane term trunc info t).1 with Some m => [reported_key m] | None => [] end
  ++ account (complete_episode now lane term trunc info t).2.
Proof.
  intros Hwf. unfold complete_episode. destruct (active t !! lane) as [e|] eqn:He; [|done].
  destruct (wf_filed t Hwf _ _ He) as (Hi & Hl & _). simpl.
  rewrite reported_key_complete by lia. unfold account.
  rewrite (running_delete lane e t He). done.
Qed.

Lemma take_interrupted_account t :
  account t ≡ₚ (reported_key <$> (take_interrupted t).1) ++ account (take_interrupted t).2.
Proof. unfold account. simpl. by rewrite app_nil_r, (comm (++)). Qed.

(** Closing reports everything that is left. *)
Lemma complete_all_account `{HashOrderLaws} now t :
  tracker_wf t -> reported_key <$> (complete_all now t).1 ≡ₚ account t.
Proof.
  intros Hwf. unfold complete_all, account. simpl. rewrite fmap_app, (comm (++)).
  apply Permutation_app; [|done]. unfold running_keys. rewrite <- drain_entries.
  rewrite <- list_fmap_compose. rewrite (list_fmap_ext _ (fun x => key_of x.2) (drain (active t))); [done|].
  intros i [lane e] Hin%list_elem_of_lookup_2. simpl. apply reported_key_complete.
  rewrite drain_entries, elem_of_map_to_list in Hin.
  destruct (wf_filed t Hwf _ _ Hin) as (-> & ? & _). done.
Qed.
