(* ===== verification/EnvServer.v ===== *)
(** * The env server

    [rlmesh-grpc/src/env/server.rs] and [env/wire.rs]: the handler of one Join
    request ([handle_env_request] with the validation of lanes and the update of
    the episode tracker).

    The served env is code of the user, so it is a class, [Environment], with the
    operations the transport calls; its replies are unconstrained.  A deadline that
    elapses and every clock read are parameters of the handler. *)

From S2P Require Import Prelude BTree Float Types WireSpaces Edition Info Episode.

(** ** Errors *)

Inductive EnvErrorCode : Type :=
| CUnspecified | CTimeout | CInvalidAction | CNotReady | CBusy | CUnsupported
| CInternal | CCrashed | CCancelled | CClosed.

#[export] Instance EnvErrorCode_eq_dec : EqDecision EnvErrorCode.
Proof. solve_decision. Defined.

Record EnvError : Type := mkEnvError {
  err_code : EnvErrorCode;
  err_message : message;
  err_is_recoverable : bool;
  err_debug_info : option string;
}.

Definition EnvError_new (code : EnvErrorCode) (msg : message) : EnvError :=
  mkEnvError code msg
    match code with
    | CTimeout | CInvalidAction | CNotReady | CBusy | CUnsupported => true
    | _ => false
    end None.

(** The codes on the wire. *)
Definition env_error_code_to_i32 (c : EnvErrorCode) : Z :=
  match c with
  | CUnspecified => 0 | CTimeout => 1 | CInvalidAction => 2 | CNotReady => 3 | CBusy => 4
  | CUnsupported => 5 | CInternal => 10 | CCrashed => 11 | CCancelled => 12 | CClosed => 13
  end.

Definition env_error_code_try_from (z : Z) : option EnvErrorCode :=
  List.find (fun c => z =? env_error_code_to_i32 c)
    [CUnspecified; CTimeout; CInvalidAction; CNotReady; CBusy; CUnsupported; CInternal;
     CCrashed; CCancelled; CClosed].

Record ProtoEnvError : Type := mkProtoEnvError {
  pe_code : Z;
  pe_message : message;
  pe_is_recoverable : bool;
  pe_debug_info : string;
  pe_interrupted_episodes : list EpisodeMetadata;
}.

Definition env_error_to_proto (e : EnvError) : ProtoEnvError :=
  mkProtoEnvError (env_error_code_to_i32 (err_code e)) (err_message e) (err_is_recoverable e)
    (default "" (err_debug_info e)) [].

Definition proto_error_to_env_error (e : ProtoEnvError) : EnvError :=
  mkEnvError (default CUnspecified (env_error_code_try_from (pe_code e))) (pe_message e)
    (pe_is_recoverable e)
    (if is_empty (pe_debug_info e) then None else Some (pe_debug_info e)).

(** ** Messages of the Join stream *)

(** A [SpaceValue] is its leaves; the server only passes it through. *)
Definition ProtoSpaceValue : Type := list (list byte).

Record ResetRequest : Type := mkResetRequest {
  reset_seeds : list Z;
  reset_options : option ProtoMetaMap;
  reset_timeout_ms : Z;
  reset_env_indices : list Z;
  reset_episode_ids : list string;
}.

Record StepRequest : Type := mkStepRequest {
  step_action : option ProtoSpaceValue;
  step_timeout_ms : Z;
  step_env_indices : list Z;
  step_episode_ids : list string;
}.

Record RenderRequest : Type := mkRenderRequest {
  render_env_indices : list Z;
  render_timeout_ms : Z;
}.

Inductive RequestKind : Type :=
| RReset (r : ResetRequest)
| RStep (r : StepRequest)
| RRender (r : RenderRequest)
| RClose (reason : string)
| RConfigure (selected_workflow_edition : string).

Record JoinRequest : Type := mkJoinRequest { req_kind : option RequestKind; req_id : string }.

Record ResetResponse : Type := mkResetResponse {
  reset_observation : option ProtoSpaceValue;
  reset_infos : option ProtoMetaMap;
}.

Record StepResponse : Type := mkStepResponse {
  step_observation : option ProtoSpaceValue;
  rewards : list f64;
  terminated_mask : list byte;
  truncated_mask : list byte;
  infos : option ProtoMetaMap;
  completed_episodes : list EpisodeMetadata;
  env_indices : list Z;
}.

Record RenderResponse : Type := mkRenderResponse { frame : option (list byte); format : Z }.

Inductive ResponseKind : Type :=
| KReset (r : ResetResponse)
| KStep (r : StepResponse)
| KRender (r : RenderResponse)
| KClose (final_episodes : list EpisodeMetadata)
| KConfigure
| KError (e : ProtoEnvError).

Record JoinResponse : Type := mkJoinResponse {
  resp_kind : ResponseKind;
  endpoint_total_ns : Z;
  resp_decode_ns : option Z;
  resp_user_ns : option Z;
  resp_encode_ns : option Z;
  resp_queue_ns : option Z;
  resp_lane_skew_ns : option Z;
  resp_id : string;
}.

(** ** The served env *)

(** An operation returns its reply and the env it leaves; [num_envs], the
    contract's autoreset mode and [supports_lanes] are static. *)
Class Environment (E : Type) : Type := {
  env_num_envs : Z;
  env_autoreset_mode : AutoresetMode;
  env_supports_lanes : bool;
  env_reset : ResetRequest -> E -> result (ResetResponse * EndpointPhases) EnvError * E;
  env_step : StepRequest -> E -> result (StepResponse * EndpointPhases) EnvError * E;
  env_render : RenderRequest -> E -> result (RenderResponse * EndpointPhases) EnvError * E;
  env_pin_workflow_edition : Edition -> E -> E;
}.

(** [run_env_op_with_deadline]: the operation always runs to completion; when the
    deadline elapsed first its outcome is dropped. *)
Definition run_env_op_with_deadline {T} (outcome : result T EnvError) (timeout_ms : Z)
    (elapsed : bool) (operation : string) : result T EnvError :=
  if timeout_ms =? 0 then outcome
  else if elapsed then
    Err (EnvError_new CTimeout
      (Msg "{operation} timed out after {timeout_ms}ms" [AStr operation; AZ timeout_ms]))
  else outcome.

(** ** Lanes *)

(** [lane as i32]. *)
Definition as_i32 : Z -> Z := wrap_s 32.

(** Lanes [0..num_envs]. *)
Definition all_lanes (num_envs : Z) : list Z := Z.of_nat <$> seq 0 (Z.to_nat num_envs).

Definition is_lane_scoped (req : JoinRequest) : bool :=
  match req_kind req with
  | Some (RStep step) => negb (bool_decide (step_env_indices step = []))
  | Some (RReset reset) => negb (bool_decide (reset_env_indices reset = []))
  | _ => false
  end.

Fixpoint validate_lanes (num_envs : Z) (seen : gset Z) (lanes : list Z)
    : result unit message :=
  match lanes with
  | [] => Ok tt
  | idx :: lanes =>
      if num_envs <=? idx then
        Err (Msg "partial reset: env_index {idx} out of range for num_envs {num_envs}"
          [AZ idx; AZ num_envs])
      else if bool_decide (idx ∈ seen) then
        Err (Msg "partial reset: duplicate env_index {idx}" [AZ idx])
      else validate_lanes num_envs ({[idx]} ∪ seen) lanes
  end.

Definition validate_partial_reset (partial : bool) (env_indices seeds : list Z)
    (episode_ids : list string) (num_envs : Z) : result unit message :=
  if negb partial then Ok tt
  else if negb (bool_decide (seeds = [])) && negb (Nat.eqb (length seeds) (length env_indices)) then
    Err (Msg "partial reset: seeds length {} does not match env_indices length {} (provide one seed per reset lane, or none)"
      [ANat (length seeds); ANat (length env_indices)])
  else if negb (bool_decide (episode_ids = [])) &&
          negb (Nat.eqb (length episode_ids) (length env_indices)) then
    Err (Msg "partial reset: episode_ids length {} does not match env_indices length {} (provide one episode id per reset lane, or none)"
      [ANat (length episode_ids); ANat (length env_indices)])
  else validate_lanes num_envs ∅ env_indices.

Definition lane_bit (mask : list byte) (idx : nat) : bool :=
  match mask !! idx with Some b => negb (byte.unsigned b =? 0) | None => false end.

Definition reward_at (ok : StepResponse) (pos : nat) : f64 := default f64_zero (rewards ok !! pos).

Definition lane_is_done (ok : StepResponse) (pos : nat) : bool :=
  lane_bit (terminated_mask ok) pos || lane_bit (truncated_mask ok) pos.

Definition internal (msg : message) : option EnvError := Some (EnvError_new CInternal msg).

(** The three per-lane vectors must be empty or cover the lanes. *)
Fixpoint validate_widths (num_envs : nat) (vectors : list (string * nat)) : option EnvError :=
  match vectors with
  | [] => None
  | (label, len) :: vectors =>
      if negb (Nat.eqb len 0) && negb (Nat.eqb len num_envs) then
        internal (Msg "StepResponse.{label} has length {len}, which is neither empty nor the env's lane count {num_envs}; a partial per-lane vector would silently mask lanes"
          [AStr label; ANat len; ANat num_envs])
      else validate_widths num_envs vectors
  end.

Fixpoint validate_next_step (ok : StepResponse) (t : EpisodeTracker) (pos : nat) (lanes : list Z)
    : option EnvError :=
  match lanes with
  | [] => None
  | env_idx :: lanes =>
      match lane_state (as_i32 env_idx) t with
      | PendingAutoreset =>
          if lane_is_done ok pos then
            internal (Msg "NEXT_STEP lane {env_idx} reported a terminal step where its autoreset observation was expected; after a completion the env must deliver one fresh (non-terminal) observation"
              [AZ env_idx])
          else if negb (f64_eqb (reward_at ok pos) f64_zero) then
            internal (Msg "NEXT_STEP lane {env_idx} carried a non-zero reward ({reward}) on its autoreset observation; the fresh observation after a completion must carry reward 0"
              [AZ env_idx; AF64 (f64_bits (reward_at ok pos))])
          else validate_next_step ok t (S pos) lanes
      | Idle =>
          internal (Msg "NEXT_STEP lane {env_idx} was stepped with no active episode and no pending autoreset; reset the lane before stepping it, and the env may only autoreset the step after a completion"
            [AZ env_idx])
      | Active => validate_next_step ok t (S pos) lanes
      end
  end.

Definition validate_step_lanes (ok : StepResponse) (lanes : list Z) (next_step : bool)
    (t : EpisodeTracker) : option EnvError :=
  match validate_widths (length lanes)
          [("rewards", length (rewards ok)); ("terminated_mask", length (terminated_mask ok));
           ("truncated_mask", length (truncated_mask ok))] with
  | Some e => Some e
  | None => if negb next_step then None else validate_next_step ok t 0 lanes
  end.

(** ** Updating the tracker *)

(** The reads of the clock a request makes, per lane: the start of an episode and
    the end of one. *)
Definition clocks : Type := Z -> clock_read * clock_read.

(** The arm of one lane in [apply_step_to_tracker]; the completed episode, if any,
    is returned beside the tracker. *)
Definition apply_lane (now : clocks) (ok : StepResponse) (next_step : bool)
    (pushed_ids : list string) (width pos : nat) (lane_idx : Z) (t : EpisodeTracker)
    : option (list EpisodeMetadata * EpisodeTracker) :=
  let terminated := lane_bit (terminated_mask ok) pos in
  let truncated := lane_bit (truncated_mask ok) pos in
  let lane := as_i32 lane_idx in
  match lane_state lane t with
  | Active =>
      let! t := record_step lane (reward_at ok pos) t in
      if terminated || truncated then
        let! info := lane_final_info (infos ok) pos width in
        let '(metadata, t) := complete_episode (now lane).2 lane terminated truncated info t in
        Some (match metadata with Some m => [m] | None => [] end,
              if next_step then expect_autoreset lane t else t)
      else Some ([], t)
  | PendingAutoreset =>
      Some ([], start_episode (now lane) lane None (default "" (pushed_ids !! pos)) t)
  | Idle => Some ([], t)
  end.

Fixpoint apply_lanes (now : clocks) (ok : StepResponse) (next_step : bool)
    (pushed_ids : list string) (width pos : nat) (lanes : list Z) (t : EpisodeTracker)
    : option (list EpisodeMetadata * EpisodeTracker) :=
  match lanes with
  | [] => Some ([], t)
  | lane :: lanes =>
      let! (done, t) := apply_lane now ok next_step pushed_ids width pos lane t in
      let! (rest, t) := apply_lanes now ok next_step pushed_ids width (S pos) lanes t in
      Some (done ++ rest, t)
  end.

Definition set_completed (ok : StepResponse) (l : list EpisodeMetadata) : StepResponse :=
  mkStepResponse (step_observation ok) (rewards ok) (terminated_mask ok) (truncated_mask ok)
    (infos ok) l (env_indices ok).

Definition set_env_indices (ok : StepResponse) (l : list Z) : StepResponse :=
  mkStepResponse (step_observation ok) (rewards ok) (terminated_mask ok) (truncated_mask ok)
    (infos ok) (completed_episodes ok) l.

Definition apply_step_to_tracker (now : clocks) (ok : StepResponse) (lanes : list Z)
    (next_step : bool) (pushed_ids : list string) (t : EpisodeTracker)
    : option (StepResponse * EpisodeTracker) :=
  let '(drained, t) := drain_interrupted t in
  let! (completed, t) := apply_lanes now ok next_step pushed_ids (length lanes) 0 lanes t in
  Some (set_completed ok (drained ++ completed), t).

(** The loops of the Reset arm: an episode per reset lane, seeds and ids read by
    position. *)
Fixpoint start_lanes (now : clocks) (seeds : list Z) (ids : list string) (i : nat)
    (lanes : list Z) (t : EpisodeTracker) : EpisodeTracker :=
  match lanes with
  | [] => t
  | lane :: lanes =>
      start_lanes now seeds ids (S i) lanes
        (start_episode (now (as_i32 lane)) (as_i32 lane) (seeds !! i) (default "" (ids !! i)) t)
  end.

(** ** The handler *)

(** [str::replace] of a non-empty pattern; the length of the string is enough
    fuel. *)
Fixpoint str_replace (fuel : nat) (from to s : string) : string :=
  match fuel with
  | O => s
  | S fuel =>
      match s with
      | EmptyString => EmptyString
      | String c s' =>
          if String.prefix from s
          then to +:+ str_replace fuel from to
                 (String.substring (String.length from) (String.length s - String.length from) s)
          else String c (str_replace fuel from to s')
      end
  end.

(** The arguments of these messages are numbers, so only the template is touched. *)
Definition message_replace (from to : string) (m : message) : message :=
  Msg (str_replace (String.length (template m)) from to (template m)) (args m).

Section Handler.
Context {E : Type} `{Environment E} `{Build} `{HashOrder}.

Definition error_response (e : EnvError) : ResponseKind := KError (env_error_to_proto e).

(** The Reset arm up to the tracker lock: what the env answered, if it was asked. *)
Definition reset_op (supports_lanes late : bool) (req : ResetRequest) (env : E)
    : result (ResetResponse * EndpointPhases) EnvError * E :=
  let partial := negb (bool_decide (reset_env_indices req = [])) in
  if partial && negb supports_lanes then
    (Err (EnvError_new CUnsupported
       (lit "partial reset (ResetRequest.env_indices) is not supported by this environment")), env)
  else
    match validate_partial_reset partial (reset_env_indices req) (reset_seeds req)
            (reset_episode_ids req) env_num_envs with
    | Err msg => (Err (EnvError_new CInvalidAction msg), env)
    | Ok _ =>
        let '(outcome, env) := env_reset req env in
        (run_env_op_with_deadline outcome (reset_timeout_ms req) late "env.reset", env)
    end.

(** The lanes a reset restarts. *)
Definition reset_lanes (req : ResetRequest) : list Z :=
  if bool_decide (reset_env_indices req = []) then all_lanes env_num_envs
  else reset_env_indices req.

(** ... and from the lock on. *)
Definition reset_commit (now : clocks) (req : ResetRequest)
    (r : result (ResetResponse * EndpointPhases) EnvError) (t : EpisodeTracker)
    : ResponseKind * EndpointPhases * EpisodeTracker :=
  match r with
  | Ok (ok, phases) =>
      (KReset ok, phases,
       start_lanes now (reset_seeds req) (reset_episode_ids req) 0 (reset_lanes req) t)
  | Err e => (error_response e, phases_default, t)
  end.

(** The Step arm up to the tracker lock. *)
Definition step_op (supports_lanes late : bool) (req : StepRequest) (env : E)
    : result (StepResponse * EndpointPhases) EnvError * E :=
  let subset := negb (bool_decide (step_env_indices req = [])) in
  if bool_decide (env_autoreset_mode = SameStep) then
    (Err (EnvError_new CUnsupported
       (lit "SAME_STEP autoreset is not supported by the runtime; serve the environment with NEXT_STEP or DISABLED autoreset")), env)
  else if subset && negb supports_lanes then
    (Err (EnvError_new CUnsupported
       (lit "subset stepping (StepRequest.env_indices) is not supported by this environment")), env)
  else
    let validation :=
      if subset then
        map_err (message_replace "partial reset" "subset step")
          (validate_partial_reset true (step_env_indices req) [] [] env_num_envs)
      else Ok tt in
    match validation with
    | Err msg => (Err (EnvError_new CInvalidAction msg), env)
    | Ok _ =>
        let '(outcome, env) := env_step req env in
        (run_env_op_with_deadline outcome (step_timeout_ms req) late "env.step", env)
    end.

(** The lanes a step covers, in response order. *)
Definition step_lanes (req : StepRequest) : list Z :=
  if bool_decide (step_env_indices req = []) then all_lanes env_num_envs
  else step_env_indices req.

(** ... and from the lock on. *)
Definition step_commit (now : clocks) (req : StepRequest)
    (r : result (StepResponse * EndpointPhases) EnvError) (t : EpisodeTracker)
    : option (ResponseKind * EndpointPhases * EpisodeTracker) :=
  match r with
  | Ok (ok, phases) =>
      let ok := if bool_decide (step_env_indices req = []) then ok
                else set_env_indices ok (step_env_indices req) in
      let next_step := bool_decide (env_autoreset_mode = NextStep) in
      match validate_step_lanes ok (step_lanes req) next_step t with
      | Some e => Some (error_response e, phases, t)
      | None =>
          let! (ok, t) :=
            apply_step_to_tracker now ok (step_lanes req) next_step (step_episode_ids req) t in
          Some (KStep ok, phases, t)
      end
  | Err e => Some (error_response e, phases_default, t)
  end.

Definition not_implemented (pin : string) : ProtoEnvError :=
  mkProtoEnvError (env_error_code_to_i32 CInvalidAction)
    (Msg "runtime pinned this env to workflow edition {pin:?}, which this env build does not implement (implements {:?})"
      (AStr pin :: (AStr <$> SUPPORTED_WORKFLOW_EDITIONS)))
    false "" [].

Definition unrecognized : ProtoEnvError :=
  mkProtoEnvError (env_error_code_to_i32 CUnsupported)
    (lit "empty or unrecognized Join request (a newer-edition arm this build does not implement?)")
    true "" [].

(** The Configure arm.  [Edition::current] is evaluated for an empty pin. *)
Definition configure (pin : string) (env : E) : option (ResponseKind * E) :=
  let! edition :=
    if is_empty pin then let! e := edition_current in Some (Ok e)
    else Some (parse_retained_edition pin) in
  Some (match edition with
        | Ok edition => (KConfigure, env_pin_workflow_edition edition env)
        | Err _ => (KError (not_implemented pin), env)
        end).

Definition respond (req : JoinRequest) (elapsed_ns : Z) (kind : ResponseKind)
    (phases : EndpointPhases) : JoinResponse :=
  mkJoinResponse kind (Z.min elapsed_ns u64_max) (reported (decode_ns phases))
    (reported (user_ns phases)) (reported (encode_ns phases)) (reported (queue_ns phases))
    (phase_lane_skew_ns phases) (req_id req).

(** [handle_env_request]. *)
Definition handle_env_request (now : clocks) (late : bool) (elapsed_ns : Z)
    (supports_lanes : bool) (req : JoinRequest) (env : E) (t : EpisodeTracker)
    : option (JoinResponse * E * EpisodeTracker) :=
  let! (kind, phases, env, t) :=
    match req_kind req with
    | Some (RReset r) =>
        let '(outcome, env) := reset_op supports_lanes late r env in
        let '(kind, phases, t) := reset_commit now r outcome t in
        Some (kind, phases, env, t)
    | Some (RStep r) =>
        let '(outcome, env) := step_op supports_lanes late r env in
        let! (kind, phases, t) := step_commit now r outcome t in
        Some (kind, phases, env, t)
    | Some (RRender r) =>
        let '(outcome, env) := env_render r env in
        match run_env_op_with_deadline outcome (render_timeout_ms r) late "env.render" with
        | Ok (ok, phases) => Some (KRender ok, phases, env, t)
        | Err e => Some (error_response e, phases_default, env, t)
        end
    | Some (RClose _) =>
        let '(final_episodes, t) := complete_all (fun lane => (now lane).2) t in
        Some (KClose final_episodes, phases_default, env, t)
    | Some (RConfigure pin) =>
        let! (kind, env) := configure pin env in
        Some (kind, phases_default, env, t)
    | None => Some (KError unrecognized, phases_default, env, t)
    end in
  Some (respond req elapsed_ns kind phases, env, t).
End Handler.
