(* ===== verification/Ledger.v ===== *)
(** * The contract of the env server's episode accounting

    What [rlmesh-grpc/src/env/server.rs] promises its client about the lanes of the
    served env, as a transition system that has neither hash maps nor loops: each
    lane runs an episode (with every reward it was given), owes its autoreset
    observation, or is idle; a request moves the lanes it names and no other.
    [handler_refines_ledger] is the refinement: whatever the env answers, every
    reply of the handler is a transition of this system, and the tracker is the
    system's state in another representation. *)

From S2P Require Import Prelude Float Types WireSpaces Edition Info Episode EnvServer.

(** ** The abstract state *)

Record Run : Type := mkRun {
  run_id : string;
  run_seed : option Z;
  run_start : Z;
  run_rewards : list f64;
}.

Inductive Lane : Type := LRun (r : Run) | LOwed | LIdle.

(** The lanes, and every interrupted episode not yet reported. *)
Record Ledger : Type := mkLedger {
  lanes : Z -> Lane;
  unreported : list EpisodeMetadata;
}.

Definition ledger_new : Ledger := mkLedger (fun _ => LIdle) [].

(** The metadata of an episode that ends: its steps are counted, its rewards are
    added up in the order they were given. *)
Definition summary (now : clock_read) (lane : Z) (term trunc : bool)
    (info : option ProtoMetaMap) (r : Run) : EpisodeMetadata :=
  mkMetadata (run_id r) (run_seed r) lane (Z.of_nat (length (run_rewards r)))
    (fold_left f64_add (run_rewards r) f64_zero) term trunc (run_start r)
    (unix_nanos_now now) info.

Definition fresh (now : clock_read) (sd : option Z) (id : string) : Run :=
  mkRun id sd (unix_nanos_now now) [].

Definition add_reward (reward : f64) (r : Run) : Run :=
  mkRun (run_id r) (run_seed r) (run_start r) (run_rewards r ++ [reward]).

(** ** Moving lanes *)

(** The position of a lane among the lanes a request covers. *)
Definition pos_of (lane : Z) (ls : list Z) : option nat :=
  fst <$> list_find (fun x => x = lane) ls.

(** Every covered lane moves by [f], which sees its position; the others stay. *)
Definition move (f : nat -> Z -> Lane -> Lane) (base : nat) (ls : list Z) (L : Z -> Lane)
    : Z -> Lane :=
  fun lane => match pos_of lane ls with
              | Some pos => f (base + pos)%nat lane (L lane)
              | None => L lane
              end.

(** A step on one lane. *)
Definition lane_after_step (now : clocks) (ok : StepResponse) (next_step : bool)
    (ids : list string) (pos : nat) (lane : Z) (l : Lane) : Lane :=
  match l with
  | LRun r =>
      if lane_is_done ok pos then if next_step then LOwed else LIdle
      else LRun (add_reward (reward_at ok pos) r)
  | LOwed => LRun (fresh (now lane).1 None (default "" (ids !! pos)))
  | LIdle => LIdle
  end.

(** ... and what the step reports of it. *)
Definition lane_report (now : clocks) (ok : StepResponse) (width : nat) (pos : nat) (lane : Z)
    (l : Lane) : option EpisodeMetadata :=
  match l with
  | LRun r =>
      if lane_is_done ok pos then
        Some (summary (now lane).2 lane (lane_bit (terminated_mask ok) pos)
          (lane_bit (truncated_mask ok) pos) (mjoin (lane_final_info (infos ok) pos width))
          (add_reward (reward_at ok pos) r))
      else None
  | _ => None
  end.

(** A legal reply under NEXT_STEP: an idle lane is not stepped, and the owed
    observation is neither terminal nor rewarded. *)
Definition lane_legal (ok : StepResponse) (pos : nat) (l : Lane) : Prop :=
  match l with
  | LRun _ => True
  | LOwed => lane_is_done ok pos = false /\ f64_eqb (reward_at ok pos) f64_zero = true
  | LIdle => False
  end.

(** A reset on one lane, and the interruption it reports later. *)
Definition lane_after_reset (now : clocks) (seeds : list Z) (ids : list string) (pos : nat)
    (lane : Z) (_ : Lane) : Lane :=
  LRun (fresh (now lane).1 (seeds !! pos) (default "" (ids !! pos))).

Definition lane_interrupted (now : clocks) (lane : Z) (l : Lane) : option EpisodeMetadata :=
  match l with LRun r => Some (summary (now lane).2 lane false true None r) | _ => None end.

(** The reports of the covered lanes, in the order of the request. *)
Definition reports (f : nat -> Z -> Lane -> option EpisodeMetadata) (base : nat) (ls : list Z)
    (L : Z -> Lane) : list EpisodeMetadata :=
  omap (fun '(pos, lane) => f pos lane (L lane)) (zip (seq base (length ls)) ls).

(** Only the most recent interruptions are kept. *)
Definition kept (l : list EpisodeMetadata) : list EpisodeMetadata :=
  drop (length l - MAX_INTERRUPTED_EPISODES) l.

(** ** Transitions *)

Section Transitions.
Context {E : Type} `{Environment E}.

Definition step_width_ok (ok : StepResponse) (width : nat) : Prop :=
  (length (rewards ok) = 0 \/ length (rewards ok) = width)%nat /\
  (length (terminated_mask ok) = 0 \/ length (terminated_mask ok) = width)%nat /\
  (length (truncated_mask ok) = 0 \/ length (truncated_mask ok) = width)%nat.

Definition covered (ls : list Z) : Prop :=
  NoDup ls /\ Forall (fun lane => 0 <= lane < env_num_envs) ls.

Inductive ledger_step (now : clocks) (req : option RequestKind) (L : Ledger)
    : ResponseKind -> Ledger -> Prop :=
| ledger_error e : ledger_step now req L (KError e) L
| ledger_reset r ok :
    req = Some (RReset r) -> covered (reset_lanes r) ->
    ledger_step now req L (KReset ok)
      (mkLedger
        (move (lane_after_reset now (reset_seeds r) (reset_episode_ids r)) 0 (reset_lanes r) (lanes L))
        (unreported L ++ reports (fun _ => lane_interrupted now) 0 (reset_lanes r) (lanes L)))
| ledger_stepped r ok ok' :
    req = Some (RStep r) -> covered (step_lanes r) ->
    let next := bool_decide (env_autoreset_mode = NextStep) in
    step_width_ok ok (length (step_lanes r)) ->
    (next = true -> forall pos lane, step_lanes r !! pos = Some lane ->
       lane_legal ok pos (lanes L lane)) ->
    ok' = set_completed ok
      (kept (unreported L) ++
       reports (lane_report now ok (length (step_lanes r))) 0 (step_lanes r) (lanes L)) ->
    ledger_step now req L (KStep ok')
      (mkLedger (move (lane_after_step now ok next (step_episode_ids r)) 0 (step_lanes r) (lanes L)) [])
| ledger_render r ok : req = Some (RRender r) -> ledger_step now req L (KRender ok) L
| ledger_configure pin : req = Some (RConfigure pin) -> ledger_step now req L KConfigure L
| ledger_close reason final (ls : list Z) :
    req = Some (RClose reason) -> NoDup ls ->
    (forall lane, lane ∈ ls <-> exists r, lanes L lane = LRun r) ->
    final ≡ₚ kept (unreported L) ++ reports (fun _ => lane_interrupted now) 0 ls (lanes L) ->
    ledger_step now req L (KClose final) ledger_new.
End Transitions.

(** ** The representation *)

Definition episode_of (lane : Z) (r : Run) : Episode :=
  mkEpisode (run_id r) (run_seed r) lane (Z.of_nat (length (run_rewards r)))
    (fold_left f64_add (run_rewards r) f64_zero) (run_start r).

Definition lane_tracked (t : EpisodeTracker) (lane : Z) (l : Lane) : Prop :=
  match l with
  | LRun r => active t !! lane = Some (episode_of lane r) /\ lane ∉ pending_autoreset t /\
              0 <= lane <= i32_max
  | LOwed => active t !! lane = None /\ lane ∈ pending_autoreset t
  | LIdle => active t !! lane = None /\ lane ∉ pending_autoreset t
  end.

Record tracks (t : EpisodeTracker) (L : Ledger) : Prop := {
  tracks_lanes lane : lane_tracked t lane (lanes L lane);
  tracks_buffer : interrupted t = kept (unreported L);
  tracks_dropped : interrupted_dropped t =
    Z.min u64_max (Z.of_nat (length (unreported L) - MAX_INTERRUPTED_EPISODES));
}.

(** ** Positions and moves *)

Lemma pos_of_head x ls : pos_of x (x :: ls) = Some 0%nat.
Proof. unfold pos_of. simpl. by rewrite decide_True. Qed.

Lemma pos_of_tail lane x ls : lane <> x -> pos_of lane (x :: ls) = S <$> pos_of lane ls.
Proof.
  intros Hne. unfold pos_of. simpl. rewrite decide_False by done.
  by destruct (list_find _ ls) as [[]|].
Qed.

Lemma pos_of_None lane ls : lane ∉ ls -> pos_of lane ls = None.
Proof.
  intros Hn. unfold pos_of. destruct (list_find _ ls) as [[i x]|] eqn:Hf; [|done].
  apply list_find_Some in Hf as (Hi & -> & _). by apply list_elem_of_lookup_2 in Hi.
Qed.

Definition set_lane (L : Z -> Lane) (x : Z) (l : Lane) : Z -> Lane :=
  fun lane => if decide (lane = x) then l else L lane.

Lemma set_lane_eq L x l : set_lane L x l x = l.
Proof. unfold set_lane. by rewrite decide_True. Qed.

Lemma set_lane_ne L x l y : y <> x -> set_lane L x l y = L y.
Proof. intros H. unfold set_lane. by rewrite decide_False. Qed.

Lemma move_cons f base x ls L lane :
  NoDup (x :: ls) ->
  move f base (x :: ls) L lane = move f (S base) ls (set_lane L x (f base x (L x))) lane.
Proof.
  intros [Hx _]%NoDup_cons. unfold move. destruct (decide (lane = x)) as [->|Hne].
  - rewrite pos_of_head, (pos_of_None x ls Hx), set_lane_eq. by rewrite Nat.add_0_r.
  - rewrite pos_of_tail, set_lane_ne by done. destruct (pos_of lane ls); simpl; [|done].
    by rewrite Nat.add_succ_r.
Qed.

Lemma reports_unfold f base x ls L :
  reports f base (x :: ls) L = option_list (f base x (L x)) ++ reports f (S base) ls L.
Proof. unfold reports. cbn. by destruct (f base x (L x)). Qed.

Lemma reports_ext f base ls L L' :
  (forall lane, lane ∈ ls -> L lane = L' lane) -> reports f base ls L = reports f base ls L'.
Proof.
  revert base. induction ls as [|x ls IH]; intros base Hl; [done|].
  rewrite !reports_unfold, (Hl x) by left. f_equal. apply IH. intros lane Hin. apply Hl. by right.
Qed.

Lemma reports_cons f base x ls L l :
  NoDup (x :: ls) ->
  reports f base (x :: ls) L
  = option_list (f base x (L x)) ++ reports f (S base) ls (set_lane L x l).
Proof.
  intros [Hx _]%NoDup_cons. rewrite (reports_ext f (S base) ls (set_lane L x l) L).
  - apply reports_unfold.
  - intros lane Hin. apply set_lane_ne. by intros ->.
Qed.

(** ** The buffer *)

Lemma length_kept U : length (kept U) = Nat.min (length U) MAX_INTERRUPTED_EPISODES.
Proof. unfold kept. rewrite length_drop. lia. Qed.

Lemma kept_nil : kept [] = [].
Proof. done. Qed.

Lemma push_tracks t L m :
  interrupted t = kept (unreported L) ->
  interrupted_dropped t =
    Z.min u64_max (Z.of_nat (length (unreported L) - MAX_INTERRUPTED_EPISODES)) ->
  interrupted (push_interrupted m t) = kept (unreported L ++ [m]) /\
  interrupted_dropped (push_interrupted m t) =
    Z.min u64_max (Z.of_nat (length (unreported L ++ [m]) - MAX_INTERRUPTED_EPISODES)).
Proof.
  intros Hi Hd. set (U := unreported L) in *.
  assert (0 < MAX_INTERRUPTED_EPISODES)%nat as Hmax by (unfold MAX_INTERRUPTED_EPISODES; lia).
  assert (length (interrupted t) = Nat.min (length U) MAX_INTERRUPTED_EPISODES) as Hlen
    by (by rewrite Hi, length_kept).
  unfold push_interrupted, kept. rewrite length_app. cbn [length].
  destruct (Nat.leb_spec MAX_INTERRUPTED_EPISODES (length (interrupted t))) as [Hle|Hlt];
    cbn [interrupted interrupted_dropped]; rewrite Hi, ?Hd; unfold kept.
  - split; [|unfold_ints; lia]. rewrite drop_drop, drop_app_le by lia. do 2 f_equal. lia.
  - split; [|unfold_ints; lia].
    replace (length U - MAX_INTERRUPTED_EPISODES)%nat with 0%nat by lia.
    by replace (length U + 1 - MAX_INTERRUPTED_EPISODES)%nat with 0%nat by lia.
Qed.

(** ** Each operation is simulated *)

Lemma tracks_new : tracks tracker_new ledger_new.
Proof. split; simpl; [|done|done]. intros lane. split; [apply lookup_empty | set_solver]. Qed.

Lemma tracks_ext t L L' U :
  (forall lane, L lane = L' lane) -> tracks t (mkLedger L U) -> tracks t (mkLedger L' U).
Proof. intros Hl [H1 H2 H3]. split; [|done|done]. intros lane. simpl. rewrite <- Hl. apply H1. Qed.

Lemma lane_tracked_ext t t' lane l :
  active t' !! lane = active t !! lane ->
  (lane ∈ pending_autoreset t' <-> lane ∈ pending_autoreset t) ->
  lane_tracked t lane l -> lane_tracked t' lane l.
Proof. intros Ha Hp. unfold lane_tracked. rewrite Ha. destruct l; by rewrite Hp. Qed.

Lemma complete_summary now lane term trunc info r :
  0 <= lane <= i32_max ->
  Episode_complete now term trunc info (episode_of lane r) = summary now lane term trunc info r.
Proof.
  intros Hl. unfold Episode_complete, episode_of, summary. simpl.
  by rewrite Z.max_l, wrap_u_id by (unfold_ints; lia).
Qed.

Lemma as_i32_id lane : 0 <= lane <= i32_max -> as_i32 lane = lane.
Proof. intros H. apply wrap_s_id; [done|]. unfold_ints. lia. Qed.

Lemma lane_state_tracked t lane l :
  lane_tracked t lane l ->
  lane_state lane t = match l with LRun _ => Active | LOwed => PendingAutoreset | LIdle => Idle end.
Proof.
  unfold lane_tracked, lane_state. destruct l; [intros (-> & _) | intros (-> & Hp)..]; [done|..].
  - by rewrite bool_decide_true.
  - by rewrite bool_decide_false.
Qed.

Lemma tracks_start now lane sd id t L :
  0 <= lane <= i32_max -> tracks t L ->
  tracks (start_episode now lane sd id t)
    (mkLedger (set_lane (lanes L) lane (LRun (fresh now.1 sd id)))
       (unreported L ++ option_list (match lanes L lane with
          | LRun r => Some (summary now.2 lane false true None r) | _ => None end))).
Proof.
  intros Hl [Hlanes Hb Hd].
  assert (forall lane', lane_tracked (start_episode now lane sd id t) lane'
    (set_lane (lanes L) lane (LRun (fresh now.1 sd id)) lane')) as Hlt.
  { intros lane'. destruct (decide (lane' = lane)) as [->|Hne].
    - rewrite set_lane_eq. unfold lane_tracked.
      rewrite active_start_episode, pending_start_episode, lookup_insert_eq. set_solver.
    - rewrite set_lane_ne by done. eapply lane_tracked_ext; [| |apply Hlanes].
      + by rewrite active_start_episode, lookup_insert_ne.
      + rewrite pending_start_episode. set_solver. }
  pose proof (Hlanes lane) as Htr. unfold lane_tracked in Htr.
  unfold start_episode in *.
  destruct (lanes L lane) as [r| |] eqn:EL; [destruct Htr as [Ha _] | destruct Htr as [Ha _]..];
    rewrite Ha in *; split; simpl; rewrite ?app_nil_r; try done.
  - rewrite complete_summary by done. by apply push_tracks.
  - rewrite complete_summary by done. by apply push_tracks.
Qed.

Lemma tracks_start_lanes now seeds ids i ls t L :
  NoDup ls -> Forall (fun lane => 0 <= lane <= i32_max) ls -> tracks t L ->
  tracks (start_lanes now seeds ids i ls t)
    (mkLedger (move (lane_after_reset now seeds ids) i ls (lanes L))
       (unreported L ++ reports (fun _ => lane_interrupted now) i ls (lanes L))).
Proof.
  intros Hnd. revert i t L. induction ls as [|x ls IH]; intros i t L Hr Ht.
  { simpl. rewrite app_nil_r. by destruct L. }
  apply Forall_cons in Hr as [Hx Hr]. cbn [start_lanes]. rewrite as_i32_id by done.
  eapply (tracks_ext _ (move (lane_after_reset now seeds ids) (S i) ls
    (set_lane (lanes L) x (LRun (fresh (now x).1 (seeds !! i) (default "" (ids !! i))))))).
  { intros lane. by rewrite move_cons. }
  rewrite (reports_cons _ _ _ _ _ (LRun (fresh (now x).1 (seeds !! i) (default "" (ids !! i))))) by done.
  rewrite (assoc (++)). apply NoDup_cons in Hnd as [_ Hnd].
  by apply (IH Hnd (S i) _ (mkLedger _ _)), (tracks_start (now x)).
Qed.

Lemma record_step_tracked t lane r reward t' :
  lane_tracked t lane (LRun r) -> record_step lane reward t = Some t' ->
  t' = mkTracker (<[lane := episode_of lane (add_reward reward r)]> (active t))
         (pending_autoreset t) (interrupted t) (interrupted_dropped t).
Proof.
  intros (Ha & _) Hr. unfold record_step in Hr. rewrite Ha in Hr.
  unfold Episode_record_step in Hr. destruct (checked_i64 _) as [n|] eqn:Hn; [|done].
  simplify_eq/=. apply checked_Some in Hn as [-> _]. unfold episode_of. simpl.
  by rewrite length_app, fold_left_app, Nat2Z.inj_add.
Qed.

Lemma tracks_apply_lane now ok next ids width pos lane t L done t' :
  0 <= lane <= i32_max -> tracks t L ->
  apply_lane now ok next ids width pos lane t = Some (done, t') ->
  done = option_list (lane_report now ok width pos lane (lanes L lane)) /\
  tracks t' (mkLedger (set_lane (lanes L) lane (lane_after_step now ok next ids pos lane (lanes L lane)))
    (unreported L)).
Proof.
  intros Hl Ht Hap. pose proof (tracks_lanes _ _ Ht lane) as Hlt.
  unfold apply_lane in Hap. rewrite as_i32_id, (lane_state_tracked _ _ _ Hlt) in Hap by done.
  unfold lane_report, lane_after_step. destruct (lanes L lane) as [r| |] eqn:EL.
  - destruct (record_step lane _ t) as [t1|] eqn:Hr; [|done].
    pose proof (record_step_tracked _ _ _ _ _ Hlt Hr) as ->. destruct Hlt as (_ & Hp & _).
    unfold lane_is_done. destruct (lane_bit _ pos || lane_bit _ pos).
    + destruct (lane_final_info (infos ok) pos width) as [info|]; [|done].
      unfold complete_episode in Hap. simpl in Hap. rewrite lookup_insert_eq in Hap.
      injection Hap as <- <-. rewrite complete_summary by done. split; [done|].
      split; [|by destruct next; apply Ht..]. intros lane'.
      destruct (decide (lane' = lane)) as [->|Hne]; cbn [lanes].
      * rewrite set_lane_eq. destruct next; unfold lane_tracked; simpl;
          (split; [apply lookup_delete_eq | set_solver]).
      * rewrite set_lane_ne by done. eapply lane_tracked_ext; [| |apply Ht].
        -- destruct next; simpl; by rewrite lookup_delete_ne, lookup_insert_ne by done.
        -- destruct next; simpl; set_solver.
    + injection Hap as <- <-. split; [done|]. split; [|apply Ht..]. intros lane'.
      destruct (decide (lane' = lane)) as [->|Hne]; cbn [lanes].
      * rewrite set_lane_eq. unfold lane_tracked. simpl. by rewrite lookup_insert_eq.
      * rewrite set_lane_ne by done. eapply lane_tracked_ext; [| |apply Ht]; simpl; [|done].
        by rewrite lookup_insert_ne.
  - injection Hap as <- <-. split; [done|].
    pose proof (tracks_start (now lane) lane None (default "" (ids !! pos)) t L Hl Ht) as Hs.
    rewrite EL in Hs. simpl in Hs. by rewrite app_nil_r in Hs.
  - injection Hap as <- <-. split; [done|]. destruct L as [L U]. simpl in *.
    eapply tracks_ext; [|exact Ht]. intros lane'. unfold set_lane. by case_decide; subst.
Qed.

Lemma tracks_apply_lanes now ok next ids width pos ls t L done t' :
  NoDup ls -> Forall (fun lane => 0 <= lane <= i32_max) ls -> tracks t L ->
  apply_lanes now ok next ids width pos ls t = Some (done, t') ->
  done = reports (lane_report now ok width) pos ls (lanes L) /\
  tracks t' (mkLedger (move (lane_after_step now ok next ids) pos ls (lanes L)) (unreported L)).
Proof.
  intros Hnd. revert pos t L done t'. induction ls as [|x ls IH]; intros pos t L done t' Hr Ht Hap.
  { simpl in Hap. injection Hap as <- <-. split; [done|]. by destruct L. }
  apply Forall_cons in Hr as [Hx Hr]. cbn [apply_lanes] in Hap.
  destruct (apply_lane now ok next ids width pos x t) as [[d1 t1]|] eqn:H1; [|done].
  destruct (apply_lanes now ok next ids width (S pos) ls t1) as [[d2 t2]|] eqn:H2; [|done].
  injection Hap as <- <-. destruct (tracks_apply_lane _ _ _ _ _ _ _ _ _ _ _ Hx Ht H1) as [-> Ht1].
  pose proof (proj2 (proj1 (NoDup_cons x ls) Hnd)) as Hnd'.
  destruct (IH Hnd' _ _ _ _ _ Hr Ht1 H2) as [-> Ht2]. split.
  - symmetry. by apply reports_cons.
  - eapply tracks_ext; [|exact Ht2]. intros lane. cbn [lanes]. by rewrite move_cons.
Qed.

Lemma tracks_take t L :
  tracks t L -> tracks (take_interrupted t).2 (mkLedger (lanes L) []).
Proof. intros [H1 H2 H3]. split; simpl; [|done|done]. intros lane. apply H1. Qed.

(** ** Validation *)

Lemma validate_widths_None num vs :
  validate_widths num vs = None ->
  Forall (fun v => v.2 = 0 \/ v.2 = num)%nat vs.
Proof.
  induction vs as [|[label len] vs IH]; simpl; [constructor|].
  destruct (Nat.eqb_spec len 0), (Nat.eqb_spec len num); simpl; try done; constructor; auto.
Qed.

Lemma validate_next_step_None ok t L pos ls :
  (forall lane, lane_tracked t lane (L lane)) ->
  Forall (fun lane => 0 <= lane <= i32_max) ls ->
  validate_next_step ok t pos ls = None <->
  forall i lane, ls !! i = Some lane -> lane_legal ok (pos + i) (L lane).
Proof.
  intros Ht Hr. revert pos. induction ls as [|x ls IH]; intros pos.
  { split; [intros _ i lane Hi; by rewrite lookup_nil in Hi | done]. }
  apply Forall_cons in Hr as [Hx Hr]. specialize (IH Hr (S pos)). cbn [validate_next_step].
  rewrite as_i32_id, (lane_state_tracked _ _ _ (Ht x)) by done.
  assert ((forall i lane, (x :: ls) !! i = Some lane -> lane_legal ok (pos + i) (L lane)) <->
    lane_legal ok pos (L x) /\ forall i lane, ls !! i = Some lane -> lane_legal ok (S pos + i) (L lane))
    as ->.
  { split.
    - intros H. split; [specialize (H 0%nat x eq_refl); by rewrite Nat.add_0_r in H|].
      intros i lane Hi. specialize (H (S i) lane Hi). by rewrite Nat.add_succ_r in H.
    - intros [H1 H2] [|i] lane Hi; simpl in Hi.
      + injection Hi as ->. by rewrite Nat.add_0_r.
      + rewrite Nat.add_succ_r. by apply H2. }
  unfold lane_legal at 1. destruct (L x) as [r| |].
  - rewrite IH. naive_solver.
  - destruct (lane_is_done ok pos); [split; [done | intros [[? ?] ?]; done]|].
    destruct (f64_eqb _ _); simpl; [rewrite IH; naive_solver|].
    split; [done | intros [[? ?] ?]; done].
  - split; [done | by intros [? ?]].
Qed.

Lemma validate_lanes_Ok num seen ls :
  validate_lanes num seen ls = Ok tt ->
  NoDup ls /\ (forall x, x ∈ ls -> x ∉ seen) /\ Forall (fun x => x < num) ls.
Proof.
  revert seen. induction ls as [|x ls IH]; intros seen; simpl.
  { intros _. split; [constructor|]. split; [set_solver | constructor]. }
  destruct (Z.leb_spec num x); [done|]. case_bool_decide as Hs; [done|].
  intros (Hnd & Hns & Hf)%IH. split; [constructor; set_solver|]. split; [set_solver | by constructor].
Qed.

Lemma validate_partial_reset_Ok ls seeds ids num :
  validate_partial_reset true ls seeds ids num = Ok tt ->
  NoDup ls /\ Forall (fun x => x < num) ls.
Proof.
  unfold validate_partial_reset. simpl. repeat (case_match; try done).
  intros (? & _ & ?)%validate_lanes_Ok. done.
Qed.

Lemma all_lanes_covered num : NoDup (all_lanes num) /\ Forall (fun lane => 0 <= lane < num) (all_lanes num).
Proof.
  unfold all_lanes. split.
  - apply NoDup_fmap_2; [by intros ?? ?%Nat2Z.inj | apply NoDup_seq].
  - apply Forall_fmap, Forall_seq. intros i Hi. simpl. lia.
Qed.

(** ** The handler *)

Section Refinement.
Context {E : Type} `{Environment E} `{Build} `{HashOrderLaws}.

(** Lane indices are [uint32] on the wire and the tracker's keys are [i32]: a lane
    count above [2^31] would fold lanes together. *)
Definition lanes_fit : Prop := env_num_envs <= 2 ^ 31.

Definition request_typed (req : option RequestKind) : Prop :=
  match req with
  | Some (RReset r) => Forall (fun x => 0 <= x) (reset_env_indices r)
  | Some (RStep r) => Forall (fun x => 0 <= x) (step_env_indices r)
  | _ => True
  end.

Lemma covered_fit ls :
  lanes_fit -> covered ls -> Forall (fun lane => 0 <= lane <= i32_max) ls.
Proof. unfold lanes_fit. intros Hn [_ Hf]. eapply Forall_impl; [exact Hf|]. unfold_ints. simpl. lia. Qed.

Lemma covered_indices ls :
  Forall (fun x => 0 <= x) ls ->
  NoDup ls /\ Forall (fun x => x < env_num_envs) ls -> covered ls.
Proof.
  intros Hlo [Hnd Hhi]. split; [done|]. rewrite Forall_forall in Hlo, Hhi |- *. intros x Hx.
  specialize (Hlo x Hx). specialize (Hhi x Hx). simpl in *. lia.
Qed.

Lemma reset_op_covered sl late r env ok env' :
  Forall (fun x => 0 <= x) (reset_env_indices r) ->
  reset_op sl late r env = (Ok ok, env') -> covered (reset_lanes r).
Proof.
  intros Ht Hop. unfold reset_op in Hop. unfold reset_lanes.
  destruct (bool_decide_reflect (reset_env_indices r = [])) as [|Hne]; [apply all_lanes_covered|].
  simpl in Hop. destruct (negb sl); [done|].
  destruct (validate_partial_reset _ _ _ _ _) as [[]|] eqn:Hv; [|done].
  by apply covered_indices; [|eapply validate_partial_reset_Ok].
Qed.

Lemma step_op_covered sl late r env ok env' :
  Forall (fun x => 0 <= x) (step_env_indices r) ->
  step_op sl late r env = (Ok ok, env') -> covered (step_lanes r).
Proof.
  intros Ht Hop. unfold step_op in Hop. unfold step_lanes.
  destruct (bool_decide_reflect (step_env_indices r = [])) as [|Hne]; [apply all_lanes_covered|].
  simpl in Hop. case_bool_decide; [done|]. destruct (negb sl); [done|].
  destruct (validate_partial_reset _ _ _ _ _) as [[]|] eqn:Hv; [|done].
  by apply covered_indices; [|eapply validate_partial_reset_Ok].
Qed.

Lemma reset_commit_refines now r ok phases t L :
  lanes_fit -> covered (reset_lanes r) -> tracks t L ->
  exists L', ledger_step now (Some (RReset r)) L (reset_commit now r (Ok (ok, phases)) t).1.1 L' /\
    tracks (reset_commit now r (Ok (ok, phases)) t).2 L'.
Proof.
  intros Hn Hc Ht. eexists. split; [by eapply ledger_reset|]. simpl.
  apply tracks_start_lanes; [apply Hc | by apply covered_fit | done].
Qed.

Lemma step_commit_refines now r ok phases t L kind ph t' :
  lanes_fit -> covered (step_lanes r) -> tracks t L ->
  step_commit now r (Ok (ok, phases)) t = Some (kind, ph, t') ->
  exists L', ledger_step now (Some (RStep r)) L kind L' /\ tracks t' L'.
Proof.
  intros Hn Hc Ht. pose proof (covered_fit _ Hn Hc) as Hfit. unfold step_commit.
  set (ok1 := if bool_decide _ then _ else _). set (next := bool_decide _).
  destruct (validate_step_lanes ok1 (step_lanes r) next t) as [e|] eqn:Hv.
  { intros [= <- <- <-]. exists L. split; [constructor | done]. }
  destruct (apply_step_to_tracker _ _ _ _ _ _) as [[ok' t1]|] eqn:Hap; [|done].
  intros [= <- <- <-]. unfold apply_step_to_tracker in Hap.
  destruct (drain_interrupted t) as [drained t0] eqn:Hdr. unfold drain_interrupted in Hdr.
  destruct (apply_lanes _ _ _ _ _ _ _ _) as [[completed t2]|] eqn:Hls; [|done].
  injection Hap as <- <-.
  pose proof (tracks_take t L Ht) as Ht0. rewrite Hdr in Ht0.
  destruct (tracks_apply_lanes _ _ _ _ _ _ _ _ _ _ _ (proj1 Hc) Hfit Ht0 Hls) as [-> Ht2].
  unfold validate_step_lanes in Hv.
  destruct (validate_widths _ _) eqn:Hw; [done|]. apply validate_widths_None in Hw.
  eexists. split; [eapply (ledger_stepped now _ L r ok1)|exact Ht2]; [done|done|..].
  - repeat (apply Forall_cons in Hw as [? Hw]). by simpl in *.
  - fold next. intros Hnext pos lane Hpos. rewrite Hnext in Hv. simpl in Hv.
    by apply (proj1 (validate_next_step_None ok1 t (lanes L) 0 (step_lanes r)
      (tracks_lanes _ _ Ht) Hfit) Hv pos lane).
  - unfold take_interrupted in Hdr. injection Hdr as <- <-. by rewrite (tracks_buffer _ _ Ht).
Qed.

(** The lanes with a running episode, in the order the map is drained. *)
Lemma reports_drained now t L (es : list (Z * Episode)) base :
  (forall lane e, (lane, e) ∈ es -> active t !! lane = Some e) ->
  tracks t L ->
  (fun '(lane, e) => Episode_complete ((now lane : clock_read * clock_read).2) false true None e) <$> es
  = reports (fun _ => lane_interrupted now) base es.*1 (lanes L).
Proof.
  intros Hes Ht. revert base. induction es as [|[lane e] es IH]; intros base; [done|].
  rewrite fmap_cons. cbn [fst]. change (((lane, e) :: es).*1) with (lane :: es.*1).
  rewrite reports_unfold. rewrite <- (IH ltac:(intros; apply Hes; by right) (S base)).
  pose proof (Hes lane e ltac:(left)) as Ha. pose proof (tracks_lanes _ _ Ht lane) as Hl.
  unfold lane_interrupted. destruct (lanes L lane) as [r| |];
    [destruct Hl as (Hr & _ & Hrange) | destruct Hl as [Hr _]..]; rewrite Hr in Ha; [|done..].
  injection Ha as <-. by rewrite complete_summary.
Qed.

Lemma close_refines now reason t L :
  tracks t L ->
  ledger_step now (Some (RClose reason)) L
    (KClose (complete_all (fun lane => (now lane).2) t).1) ledger_new.
Proof.
  intros Ht. set (es := drain (active t)).
  assert (forall lane e, (lane, e) ∈ es <-> active t !! lane = Some e) as Hes.
  { intros lane e. unfold es. by rewrite drain_entries, elem_of_map_to_list. }
  eapply (ledger_close now _ L reason _ es.*1); [done|..].
  - unfold es. rewrite drain_entries. apply NoDup_fst_map_to_list.
  - intros lane. rewrite list_elem_of_fmap. pose proof (tracks_lanes _ _ Ht lane) as Hl. split.
    + intros ([lane' e] & -> & Hin%Hes). simpl in *.
      destruct (lanes L lane') as [r| |]; [by eexists | by destruct Hl; congruence..].
    + intros [r Hr]. rewrite Hr in Hl. exists (lane, episode_of lane r).
      split; [done|]. by apply Hes, Hl.
  - simpl. rewrite (tracks_buffer _ _ Ht). fold es.
    by rewrite (reports_drained now t L es 0) by (try done; intros ???%Hes; done).
Qed.

Lemma handler_simulates now late elapsed sl req env t L resp env' t' :
  lanes_fit -> request_typed (req_kind req) -> tracks t L ->
  handle_env_request now late elapsed sl req env t = Some (resp, env', t') ->
  exists L', ledger_step now (req_kind req) L (resp_kind resp) L' /\ tracks t' L'.
Proof.
  intros Hn Hty Ht Hh. unfold handle_env_request in Hh.
  destruct (req_kind req) as [[r|r|r|reason|pin]|] eqn:Ek.
  - destruct (reset_op sl late r env) as [outcome env1] eqn:Hop.
    destruct outcome as [[ok ph]|e].
    + pose proof (reset_op_covered _ _ _ _ _ _ Hty Hop) as Hc. simpl in Hh. simplify_eq/=.
      by apply (reset_commit_refines now r ok ph).
    + simplify_eq/=. exists L. split; [constructor | done].
  - destruct (step_op sl late r env) as [outcome env1] eqn:Hop. destruct outcome as [[ok ph]|e].
    + pose proof (step_op_covered _ _ _ _ _ _ Hty Hop) as Hc.
      destruct (step_commit now r (Ok (ok, ph)) t) as [[[kind ph'] t1]|] eqn:Hs; [|done].
      simplify_eq/=. by eapply step_commit_refines.
    + simplify_eq/=. exists L. split; [constructor | done].
  - destruct (env_render r env) as [outcome env1].
    destruct (run_env_op_with_deadline _ _ _ _) as [[ok ph]|e]; simplify_eq/=; exists L;
      (split; [by econstructor | done]).
  - simplify_eq/=. exists ledger_new. split; [by apply close_refines | apply tracks_new].
  - destruct (configure pin env) as [[kind env1]|] eqn:Hc; [|done]. simplify_eq/=. exists L.
    split; [|done]. unfold configure in Hc.
    destruct (is_empty pin); [destruct edition_current as [ed|] | destruct (parse_retained_edition pin)];
      simplify_eq/=; by econstructor.
  - simplify_eq/=. exists L. split; [constructor | done].
Qed.
End Refinement.

(** ** Sequences of requests *)

(** One handled request: its clock reads, whether its deadline elapsed, how long it
    took, whether lanes are served, and the request. *)
Record Call : Type := mkCall {
  call_now : clocks;
  call_late : bool;
  call_elapsed : Z;
  call_lanes : bool;
  call_req : JoinRequest;
}.

Section Serving.
Context {E : Type} `{Environment E} `{Build} `{HashOrder}.

Definition handle (c : Call) (env : E) (t : EpisodeTracker)
    : option (JoinResponse * E * EpisodeTracker) :=
  handle_env_request (call_now c) (call_late c) (call_elapsed c) (call_lanes c) (call_req c) env t.

Fixpoint handle_all (calls : list Call) (env : E) (t : EpisodeTracker)
    : option (list JoinResponse * E * EpisodeTracker) :=
  match calls with
  | [] => Some ([], env, t)
  | c :: calls =>
      let! (resp, env, t) := handle c env t in
      let! (resps, env, t) := handle_all calls env t in
      Some (resp :: resps, env, t)
  end.

Inductive ledger_steps : list Call -> Ledger -> list JoinResponse -> Ledger -> Prop :=
| ledger_steps_nil L : ledger_steps [] L [] L
| ledger_steps_cons c calls L resp L1 resps L2 :
    ledger_step (call_now c) (req_kind (call_req c)) L (resp_kind resp) L1 ->
    ledger_steps calls L1 resps L2 ->
    ledger_steps (c :: calls) L (resp :: resps) L2.
End Serving.

Definition calls_typed (calls : list Call) : Prop :=
  Forall (fun c => request_typed (req_kind (call_req c))) calls.

Lemma handle_all_simulates {E} `{Environment E} `{Build} `{HashOrderLaws} calls env t L resps env' t' :
  lanes_fit -> calls_typed calls -> tracks t L ->
  handle_all calls env t = Some (resps, env', t') ->
  exists L', ledger_steps calls L resps L' /\ tracks t' L'.
Proof.
  intros Hn Hty. revert env t L resps. induction Hty as [|c calls Hc _ IH]; intros env t L resps Ht Hh.
  { simpl in Hh. injection Hh as <- <- <-. exists L. split; [constructor | done]. }
  cbn [handle_all] in Hh. destruct (handle c env t) as [[[resp env1] t1]|] eqn:Hc1; [|done].
  destruct (handle_all calls env1 t1) as [[[rs env2] t2]|] eqn:Hc2; [|done]. injection Hh as <- <- <-.
  destruct (handler_simulates _ _ _ _ _ _ _ _ _ _ _ Hn Hc Ht Hc1) as (L1 & Hl1 & Ht1).
  destruct (IH _ _ _ _ Ht1 Hc2) as (L2 & Hl2 & Ht2). exists L2. split; [by econstructor | done].
Qed.

(** ** Properties *)

(** A scripted env, for the concrete runs: one lane, NEXT_STEP, each step answered
    by the next entry of the script. *)
Definition script : Type := list StepResponse.

Definition scripted_env : Environment script := {|
  env_num_envs := 1;
  env_autoreset_mode := NextStep;
  env_supports_lanes := true;
  env_reset := fun _ s => (Ok (mkResetResponse None None, phases_default), s);
  env_step := fun _ s =>
    match s with
    | ok :: s => (Ok (ok, phases_default), s)
    | [] => (Err (EnvError_new CClosed (lit "script exhausted")), [])
    end;
  env_render := fun _ s => (Ok (mkRenderResponse None 1, phases_default), s);
  env_pin_workflow_edition := fun _ s => s;
|}.

Definition f64_one_bits : f64 := f64_of_Z 1.
Definition plain_step (reward : f64) (term : Z) : StepResponse :=
  mkStepResponse None [reward] [byte.of_Z term] [byte.of_Z 0] None [] [].

Definition no_clock : clocks := fun _ => (Some 5, Some 9).
Definition call_of (kind : RequestKind) : Call :=
  mkCall no_clock false 7 true (mkJoinRequest (Some kind) "r").
Definition reset_call (id : string) : Call :=
  call_of (RReset (mkResetRequest [] None 0 [] [id])).
Definition step_call (id : string) : Call :=
  call_of (RStep (mkStepRequest None 0 [] [id])).

(** Reset, a step, a terminal step, the autoreset observation, a step, close. *)
Definition sample_calls : list Call :=
  [reset_call "a"; step_call "a"; step_call "a"; step_call "b"; step_call "b"; call_of (RClose "")].
Definition sample_script : script :=
  [plain_step f64_one_bits 0; plain_step f64_one_bits 1; plain_step f64_zero 0; plain_step f64_one_bits 0].

(** C3: the env server refines its contract.  For every env, whatever it answers, and
    every sequence of requests it handles from a fresh tracker, there is a run of the
    lane contract with the same replies: an error moves nothing; a reset starts the
    named lanes with the ids and seeds at their positions and owes a report of the
    episodes it interrupted (the last hundred of them); a step is answered only when
    every lane's move is legal, reports each lane that ended with its steps counted
    and its rewards summed, and moves no other lane; closing reports every running
    episode.  The tracker represents the contract's state throughout. *)
Theorem handler_refines_ledger {E} `{Environment E} `{Build} `{HashOrderLaws} calls env resps env' t' :
  lanes_fit -> calls_typed calls ->
  handle_all calls env tracker_new = Some (resps, env', t') ->
  exists L', ledger_steps calls ledger_new resps L' /\ tracks t' L'.
Proof. intros Hn Hty Hh. by eapply handle_all_simulates, Hh; [| |apply tracks_new]. Qed.

Lemma handler_refines_ledger_witness :
  exists resps t L',
    @handle_all script scripted_env release_build map_order sample_calls sample_script tracker_new
      = Some (resps, [], t) /\
    @ledger_steps script scripted_env sample_calls ledger_new resps L' /\ tracks t L' /\
    (fun r => match resp_kind r with
              | KStep ok => episode_id <$> completed_episodes ok
              | KClose l => episode_id <$> l
              | _ => [] end) <$> resps = [[]; []; ["a"]; []; []; ["b"]].
Proof.
  destruct (@handle_all script scripted_env release_build map_order sample_calls sample_script tracker_new)
    as [[[resps env] t]|] eqn:Hh; [|vm_compute in Hh; discriminate].
  pose proof (@handler_refines_ledger script scripted_env release_build map_order map_order_laws
    sample_calls sample_script resps env t) as Hr.
  destruct Hr as (L' & Hs & Ht).
  - vm_compute. discriminate.
  - repeat constructor.
  - exact Hh.
  - exists resps, t, L'. vm_compute in Hh. injection Hh as <- <- <-.
    split; [reflexivity|]. split; [exact Hs|]. split; [exact Ht | reflexivity].
Defined.
