(* ===== verification/Session.v ===== *)
(** * Join sessions of the env server

    The accounting of episodes across requests and the Join session of
    [rlmesh-grpc/src/env/server.rs] ([GrpcEnvServer::join]): the loop that answers
    the requests of one stream, in order for whole-env requests and concurrently for
    lane-scoped ones, and what it leaves behind when the stream ends. *)

From S2P Require Import Prelude Float Types WireSpaces Edition Info Episode EnvServer Ledger.

(** ** Every episode is reported once *)

Definition positions (ls : list Z) (base : nat) : list (nat * Z) := zip (seq base (length ls)) ls.

Definition reset_key (now : clocks) (seeds : list Z) (ids : list string) (x : nat * Z) : episode_key :=
  key_of (Episode_new (now x.2).1 x.2 (seeds !! x.1) (default "" (ids !! x.1))).

Definition roll_key (now : clocks) (ids : list string) (t : EpisodeTracker) (x : nat * Z)
    : option episode_key :=
  match lane_state x.2 t with
  | PendingAutoreset => Some (key_of (Episode_new (now x.2).1 x.2 None (default "" (ids !! x.1))))
  | _ => None
  end.

Section Accounts.
Context {E : Type} `{Environment E}.

(** The episodes a request starts on the tracker it finds. *)
Definition started (now : clocks) (req : option RequestKind) (resp : ResponseKind) (t : EpisodeTracker)
    : list episode_key :=
  match req, resp with
  | Some (RReset r), KReset _ =>
      reset_key now (reset_seeds r) (reset_episode_ids r) <$> positions (reset_lanes r) 0
  | Some (RStep r), KStep _ =>
      omap (roll_key now (step_episode_ids r) t) (positions (step_lanes r) 0)
  | _, _ => []
  end.

(** The episodes a reply reports. *)
Definition reported_episodes (resp : ResponseKind) : list EpisodeMetadata :=
  match resp with
  | KStep ok => completed_episodes ok
  | KClose final => final
  | _ => []
  end.
End Accounts.

Lemma start_episode_dropped now lane sd id t :
  0 <= interrupted_dropped t <= u64_max ->
  interrupted_dropped (start_episode now lane sd id t)
  = Z.min u64_max (interrupted_dropped t + Z.of_nat (length (start_loses lane t))).
Proof.
  intros Hd. unfold start_episode, start_loses, evicted, push_interrupted.
  destruct (active t !! lane); cbn [interrupted interrupted_dropped length]; [|lia].
  destruct (Nat.leb_spec MAX_INTERRUPTED_EPISODES (length (interrupted t))) as [Hle|];
    cbn [interrupted_dropped length]; [|lia].
  rewrite length_take, Nat.min_l; [done|]. unfold MAX_INTERRUPTED_EPISODES in Hle. lia.
Qed.

Lemma start_episode_room now lane sd id t :
  (length (interrupted t) < MAX_INTERRUPTED_EPISODES)%nat ->
  start_loses lane t = [] /\
  (length (interrupted (start_episode now lane sd id t)) <= S (length (interrupted t)))%nat.
Proof.
  intros Hlt. unfold start_loses, evicted, start_episode, push_interrupted.
  destruct (active t !! lane); cbn [interrupted]; [|split; [done | lia]].
  destruct (Nat.leb_spec MAX_INTERRUPTED_EPISODES (length (interrupted t))); [lia|].
  cbn [interrupted]. rewrite length_app. split; [done | simpl; lia].
Qed.

Lemma start_lanes_account now seeds ids base ls t :
  Forall (fun lane => 0 <= lane <= i32_max) ls -> tracker_wf t ->
  exists lost,
    (reset_key now seeds ids <$> positions ls base) ++ account t
      ≡ₚ account (start_lanes now seeds ids base ls t) ++ (reported_key <$> lost) /\
    tracker_wf (start_lanes now seeds ids base ls t) /\
    interrupted_dropped (start_lanes now seeds ids base ls t)
      = Z.min u64_max (interrupted_dropped t + Z.of_nat (length lost)) /\
    ((length (interrupted t) + length ls <= MAX_INTERRUPTED_EPISODES)%nat -> lost = []).
Proof.
  intros Hr. revert base t. induction Hr as [|x ls Hx _ IH]; intros base t Hwf.
  { exists []. simpl. rewrite app_nil_r. split; [done|]. split; [done|].
    pose proof (wf_dropped t Hwf). split; [lia | done]. }
  cbn [start_lanes]. rewrite as_i32_id by done.
  set (t1 := start_episode (now x) x (seeds !! base) (default "" (ids !! base)) t).
  assert (tracker_wf t1) as Hwf1 by (by apply start_episode_wf).
  destruct (IH (S base) t1 Hwf1) as (lost & Hp & Hw & Hd & Hroom).
  exists (lost ++ start_loses x t). split; [|split; [done|split]].
  - rewrite fmap_app, (assoc (++)), <- Hp.
    change (positions (x :: ls) base) with ((base, x) :: positions ls (S base)).
    pose proof (start_episode_account (now x) x (seeds !! base) (default "" (ids !! base)) t Hwf)
      as Ha. fold t1 in Ha.
    rewrite fmap_cons, <- (assoc (++) _ (account t1)), <- Ha. apply Permutation_middle.
  - rewrite Hd, length_app. unfold t1. rewrite start_episode_dropped by apply Hwf.
    pose proof (wf_dropped t Hwf). lia.
  - cbn [length]. intros Hlen.
    destruct (start_episode_room (now x) x (seeds !! base) (default "" (ids !! base)) t) as [Hno Hlen1];
      [lia|]. fold t1 in Hlen1. rewrite Hno, Hroom by lia. done.
Qed.

Lemma apply_lane_other now ok next ids width pos lane lane' t done t' :
  0 <= lane <= i32_max -> lane' <> lane ->
  apply_lane now ok next ids width pos lane t = Some (done, t') ->
  lane_state lane' t' = lane_state lane' t.
Proof.
  intros Hl Hne Hap. unfold apply_lane in Hap. rewrite as_i32_id in Hap by done.
  assert (active t' !! lane' = active t !! lane' /\
    (lane' ∈ pending_autoreset t' <-> lane' ∈ pending_autoreset t)) as [Ha Hp].
  { destruct (lane_state lane t) eqn:Es.
    - unfold record_step in Hap. destruct (active t !! lane) as [e|] eqn:He.
      + destruct (Episode_record_step _ e) as [e'|]; [|done].
        destruct (lane_bit _ _ || lane_bit _ _).
        * destruct (lane_final_info _ _ _) as [info|]; [|done].
          unfold complete_episode in Hap. simpl in Hap. rewrite lookup_insert_eq in Hap.
          destruct next; injection Hap as <- <-; simpl;
            (split; [by rewrite lookup_delete_ne, lookup_insert_ne by done | set_solver]).
        * injection Hap as <- <-. simpl. by rewrite lookup_insert_ne.
      + unfold lane_state in Es. rewrite He in Es. by destruct (bool_decide _).
    - injection Hap as <- <-. rewrite active_start_episode, pending_start_episode.
      split; [by rewrite lookup_insert_ne | set_solver].
    - by injection Hap as <- <-. }
  unfold lane_state. rewrite Ha. destruct (active t !! lane'); [done|].
  by rewrite (bool_decide_ext _ _ Hp).
Qed.

Lemma apply_lane_account now ok next ids width pos lane t done t' :
  0 <= lane <= i32_max -> tracker_wf t ->
  apply_lane now ok next ids width pos lane t = Some (done, t') ->
  option_list (roll_key now ids t (pos, lane)) ++ account t
    ≡ₚ (reported_key <$> done) ++ account t' /\
  tracker_wf t' /\ interrupted_dropped t' = interrupted_dropped t.
Proof.
  intros Hl Hwf Hap. unfold apply_lane in Hap. rewrite as_i32_id in Hap by done.
  unfold roll_key. cbn [fst snd]. destruct (lane_state lane t) eqn:Es.
  - destruct (record_step lane _ t) as [t1|] eqn:Hr; [|done].
    pose proof (record_step_wf _ _ _ _ Hr Hwf) as Hwf1.
    pose proof (record_step_account _ _ _ _ Hr) as Ha1.
    assert (interrupted_dropped t1 = interrupted_dropped t) as Hd1.
    { unfold record_step in Hr. repeat case_match; simplify_eq/=; done. }
    destruct (lane_bit _ _ || lane_bit _ _); [|by injection Hap as <- <-].
    destruct (lane_final_info _ _ _) as [info|]; [|done].
    pose proof (complete_episode_account (now lane).2 lane (lane_bit (terminated_mask ok) pos)
      (lane_bit (truncated_mask ok) pos) info t1 Hwf1) as Ha2.
    pose proof (complete_episode_wf (now lane).2 lane (lane_bit (terminated_mask ok) pos)
      (lane_bit (truncated_mask ok) pos) info t1 Hwf1) as Hwf2.
    destruct (complete_episode _ _ _ _ _ t1) as [md t2] eqn:Hc. cbn [fst snd] in Ha2, Hwf2.
    assert (active t2 !! lane = None /\ interrupted_dropped t2 = interrupted_dropped t) as [Hn2 Hd2].
    { unfold complete_episode in Hc. destruct (active t1 !! lane) eqn:E1; simplify_eq/=; [|done].
      split; [apply lookup_delete_eq | done]. }
    injection Hap as <- <-. cbn [app option_list]. rewrite <- Ha1, Ha2.
    split; [destruct md; destruct next; done|].
    destruct next; [|done]. split; [by apply expect_autoreset_wf | done].
  - injection Hap as <- <-. cbn [option_list app fmap list_fmap].
    pose proof (start_episode_account (now lane) lane None (default "" (ids !! pos)) t Hwf) as Ha.
    assert (active t !! lane = None) as Hn.
    { unfold lane_state in Es. by destruct (active t !! lane). }
    unfold start_loses in Ha. rewrite Hn, app_nil_r in Ha. split; [done|].
    split; [by apply start_episode_wf|]. unfold start_episode. by rewrite Hn.
  - by injection Hap as <- <-.
Qed.

Lemma omap_unfold {A B} (f : A -> option B) x l :
  omap f (x :: l) = option_list (f x) ++ omap f l.
Proof. cbn. by destruct (f x). Qed.

Lemma roll_keys_ext now ids t t' ls base :
  (forall lane, lane ∈ ls -> lane_state lane t' = lane_state lane t) ->
  omap (roll_key now ids t') (positions ls base) = omap (roll_key now ids t) (positions ls base).
Proof.
  revert base. induction ls as [|x ls IH]; intros base Hs; [done|].
  change (positions (x :: ls) base) with ((base, x) :: positions ls (S base)).
  rewrite !omap_unfold, (IH (S base)) by (intros lane Hin; apply Hs; set_solver).
  f_equal. unfold roll_key. cbn [fst snd]. by rewrite (Hs x) by set_solver.
Qed.

Lemma apply_lanes_account now ok next ids width base ls t done t' :
  NoDup ls -> Forall (fun lane => 0 <= lane <= i32_max) ls -> tracker_wf t ->
  apply_lanes now ok next ids width base ls t = Some (done, t') ->
  omap (roll_key now ids t) (positions ls base) ++ account t
    ≡ₚ (reported_key <$> done) ++ account t' /\
  tracker_wf t' /\ interrupted_dropped t' = interrupted_dropped t.
Proof.
  intros Hnd. revert base t done t'. induction ls as [|x ls IH]; intros base t done t' Hr Hwf Hap.
  { simpl in Hap. by injection Hap as <- <-. }
  apply Forall_cons in Hr as [Hx Hr]. apply NoDup_cons in Hnd as [Hnx Hnd].
  cbn [apply_lanes] in Hap.
  destruct (apply_lane now ok next ids width base x t) as [[d1 t1]|] eqn:H1; [|done].
  destruct (apply_lanes now ok next ids width (S base) ls t1) as [[d2 t2]|] eqn:H2; [|done].
  injection Hap as <- <-.
  destruct (apply_lane_account _ _ _ _ _ _ _ _ _ _ Hx Hwf H1) as (Ha1 & Hwf1 & Hd1).
  destruct (IH Hnd _ _ _ _ Hr Hwf1 H2) as (Ha2 & Hwf2 & Hd2).
  split; [|split; [done | congruence]].
  rewrite (roll_keys_ext now ids t t1) in Ha2.
  2:{ intros lane Hin. eapply apply_lane_other; [exact Hx| |exact H1]. by intros ->. }
  change (positions (x :: ls) base) with ((base, x) :: positions ls (S base)).
  rewrite omap_unfold, fmap_app, <- !(assoc (++)), <- Ha2.
  by rewrite (Permutation_app_swap_app (reported_key <$> d1)), <- Ha1, Permutation_app_swap_app.
Qed.

(** ** The session *)

(** A lane-scoped request in the [JoinSet]: spawned; its env op has returned and it
    waits for the tracker lock; its reply is ready to be put on the channel. *)
Inductive Task : Type :=
| Spawned (req : JoinRequest)
| ResetDone (req : JoinRequest) (r : ResetRequest)
    (outcome : result (ResetResponse * EndpointPhases) EnvError)
| StepDone (req : JoinRequest) (r : StepRequest)
    (outcome : result (StepResponse * EndpointPhases) EnvError)
| Replying (req : JoinRequest) (resp : JoinResponse).

Definition task_req (t : Task) : JoinRequest :=
  match t with
  | Spawned req | ResetDone req _ _ | StepDone req _ _ | Replying req _ => req
  end.

(** The stream is served; it ended (with the terminal reply, if there is one) and
    the in-flight lane ops are awaited; the slot is released. *)
Inductive Stage : Type :=
| Serving
| Draining (terminal : option JoinResponse)
| Released (terminal : option JoinResponse).

Record Session (E : Type) : Type := mkSession {
  s_env : E;
  s_tracker : EpisodeTracker;
  s_inflight : list Task;
  s_sent : list JoinResponse;
  s_first : bool;
  s_stage : Stage;
}.
Arguments mkSession {E}.
Arguments s_env {E}.
Arguments s_tracker {E}.
Arguments s_inflight {E}.
Arguments s_sent {E}.
Arguments s_first {E}.
Arguments s_stage {E}.

(** What happened in a step of the session. *)
Inductive Event : Type :=
| EvReceived (req : JoinRequest)
| EvAnswered (now : clocks) (req : JoinRequest) (resp : JoinResponse) (before : EpisodeTracker)
| EvServed (now : clocks) (req : JoinRequest) (resp : JoinResponse) (before : EpisodeTracker)
| EvSwept (leftover : list EpisodeMetadata)
| EvTaskPanic (req : JoinRequest)
| EvPanic (req : JoinRequest)
| EvInternal.

Definition is_configure (req : JoinRequest) : bool :=
  match req_kind req with Some (RConfigure _) => true | _ => false end.

Definition is_close (req : JoinRequest) : bool :=
  match req_kind req with Some (RClose _) => true | _ => false end.

Definition is_fatal (resp : JoinResponse) : bool :=
  match resp_kind resp with KError e => negb (pe_is_recoverable e) | _ => false end.

Section SessionSteps.
Context {E : Type} `{Environment E} `{Build} `{HashOrder}.

(** [mem::take(&mut first_request)]: a first request that is not a pin settles the
    session at this build's edition. *)
Definition settle (first : bool) (req : JoinRequest) (env : E) : option E :=
  if first && negb (is_configure req) then
    let! e := edition_current in Some (env_pin_workflow_edition e env)
  else Some env.

Definition opens (env : E) (t : EpisodeTracker) : Session E :=
  mkSession env t [] [] true Serving.

Inductive session_step : Session E -> Event -> Session E -> Prop :=
| step_spawn s req env :
    s_stage s = Serving -> env_supports_lanes = true -> is_lane_scoped req = true ->
    settle (s_first s) req (s_env s) = Some env ->
    session_step s (EvReceived req)
      (mkSession env (s_tracker s) (s_inflight s ++ [Spawned req]) (s_sent s) false Serving)
| step_reset_op s l1 l2 req r late outcome env :
    s_inflight s = l1 ++ Spawned req :: l2 -> req_kind req = Some (RReset r) ->
    reset_op true late r (s_env s) = (outcome, env) ->
    session_step s EvInternal
      (mkSession env (s_tracker s) (l1 ++ ResetDone req r outcome :: l2) (s_sent s) (s_first s)
         (s_stage s))
| step_step_op s l1 l2 req r late outcome env :
    s_inflight s = l1 ++ Spawned req :: l2 -> req_kind req = Some (RStep r) ->
    step_op true late r (s_env s) = (outcome, env) ->
    session_step s EvInternal
      (mkSession env (s_tracker s) (l1 ++ StepDone req r outcome :: l2) (s_sent s) (s_first s)
         (s_stage s))
| step_reset_commit s l1 l2 req r outcome now elapsed kind phases t :
    s_inflight s = l1 ++ ResetDone req r outcome :: l2 ->
    reset_commit now r outcome (s_tracker s) = (kind, phases, t) ->
    session_step s (EvAnswered now req (respond req elapsed kind phases) (s_tracker s))
      (mkSession (s_env s) t (l1 ++ Replying req (respond req elapsed kind phases) :: l2) (s_sent s)
         (s_first s) (s_stage s))
| step_step_commit s l1 l2 req r outcome now elapsed kind phases t :
    s_inflight s = l1 ++ StepDone req r outcome :: l2 ->
    step_commit now r outcome (s_tracker s) = Some (kind, phases, t) ->
    session_step s (EvAnswered now req (respond req elapsed kind phases) (s_tracker s))
      (mkSession (s_env s) t (l1 ++ Replying req (respond req elapsed kind phases) :: l2) (s_sent s)
         (s_first s) (s_stage s))
| step_send s l1 l2 req resp :
    s_inflight s = l1 ++ Replying req resp :: l2 ->
    session_step s EvInternal
      (mkSession (s_env s) (s_tracker s) (l1 ++ l2) (s_sent s ++ [resp]) (s_first s) (s_stage s))
| step_task_panic s l1 l2 task env :
    s_inflight s = l1 ++ task :: l2 -> (forall req resp, task <> Replying req resp) ->
    session_step s (EvTaskPanic (task_req task))
      (mkSession env (s_tracker s) (l1 ++ l2) (s_sent s) (s_first s) (s_stage s))
| step_serial s req now late elapsed env0 resp env t :
    s_stage s = Serving -> env_supports_lanes && is_lane_scoped req = false -> s_inflight s = [] ->
    settle (s_first s) req (s_env s) = Some env0 ->
    handle_env_request now late elapsed env_supports_lanes req env0 (s_tracker s) = Some (resp, env, t) ->
    session_step s (EvServed now req resp (s_tracker s))
      (if is_close req || is_fatal resp
       then mkSession env t [] (s_sent s) false (Draining (Some resp))
       else mkSession env t [] (s_sent s ++ [resp]) false Serving)
| step_panic s req env :
    s_stage s = Serving -> env_supports_lanes && is_lane_scoped req = false -> s_inflight s = [] ->
    session_step s (EvPanic req)
      (mkSession env (s_tracker s) [] (s_sent s) false (Released None))
| step_stream_end s :
    s_stage s = Serving ->
    session_step s EvInternal
      (mkSession (s_env s) (s_tracker s) (s_inflight s) (s_sent s) (s_first s) (Draining None))
| step_sweep s terminal now leftover t :
    s_stage s = Draining terminal -> s_inflight s = [] ->
    complete_all now (s_tracker s) = (leftover, t) ->
    session_step s (EvSwept leftover)
      (mkSession (s_env s) t [] (s_sent s) (s_first s) (Released terminal))
| step_terminal s resp :
    s_stage s = Released (Some resp) ->
    session_step s EvInternal
      (mkSession (s_env s) (s_tracker s) (s_inflight s) (s_sent s ++ [resp]) (s_first s)
         (Released None)).

Inductive session_run : Session E -> list Event -> Session E -> Prop :=
| run_nil s : session_run s [] s
| run_snoc s tr s' ev s'' :
    session_run s tr s' -> session_step s' ev s'' -> session_run s (tr ++ [ev]) s''.
End SessionSteps.

(** ** Requests cannot panic the handler *)

(** Step counters are [i64]; they are below the maximum unless an episode ran for
    [2^63 - 1] steps. *)
Definition counters_below (t : EpisodeTracker) : Prop :=
  forall lane e, active t !! lane = Some e -> 0 <= ep_step_count e < i64_max.

Lemma counters_below_new : counters_below tracker_new.
Proof. intros lane e He. unfold tracker_new in He. cbn [active] in He. by rewrite lookup_empty in He. Qed.

Lemma count_step n : 0 <= n < i64_max -> checked_i64 (n + 1) = Some (n + 1).
Proof. intros Hn. apply checked_in. unfold_ints. lia. Qed.

Lemma apply_lane_total now ok next ids width pos lane t :
  (pos < width)%nat ->
  (forall e, active t !! as_i32 lane = Some e -> 0 <= ep_step_count e < i64_max) ->
  is_Some (apply_lane now ok next ids width pos lane t).
Proof.
  intros Hp Hb. unfold apply_lane. destruct (lane_state _ t); [|by eexists..].
  unfold record_step, Episode_record_step.
  destruct (active t !! as_i32 lane) as [e|] eqn:He.
  - specialize (Hb _ eq_refl). rewrite (count_step _ Hb).
    destruct (lane_bit _ _ || lane_bit _ _); [|by eexists].
    destruct (lane_final_info_total (infos ok) pos width Hp) as [info ->].
    destruct (complete_episode _ _ _ _ _ _). by eexists.
  - destruct (lane_bit _ _ || lane_bit _ _); [|by eexists].
    destruct (lane_final_info_total (infos ok) pos width Hp) as [info ->].
    destruct (complete_episode _ _ _ _ _ _). by eexists.
Qed.

Lemma apply_lane_active_other now ok next ids width pos lane lane' t done t' :
  0 <= lane <= i32_max -> lane' <> lane ->
  apply_lane now ok next ids width pos lane t = Some (done, t') ->
  active t' !! lane' = active t !! lane'.
Proof.
  intros Hl Hne Hap. unfold apply_lane in Hap. rewrite as_i32_id in Hap by done.
  unfold record_step, complete_episode in Hap.
  repeat (case_match; simplify_eq/=; try done);
    rewrite ?active_start_episode, ?lookup_delete_ne, ?lookup_insert_ne by done; done.
Qed.

Lemma apply_lanes_total now ok next ids width pos ls t :
  (pos + length ls <= width)%nat -> NoDup ls -> Forall (fun lane => 0 <= lane <= i32_max) ls ->
  (forall lane e, lane ∈ ls -> active t !! lane = Some e -> 0 <= ep_step_count e < i64_max) ->
  is_Some (apply_lanes now ok next ids width pos ls t).
Proof.
  revert pos t. induction ls as [|x ls IH]; intros pos t Hlen Hnd Hr Hb; [by eexists|].
  apply Forall_cons in Hr as [Hx Hr]. apply NoDup_cons in Hnd as [Hnx Hnd]. simpl in Hlen.
  cbn [apply_lanes].
  destruct (apply_lane_total now ok next ids width pos x t ltac:(lia)) as [[d t1] Hap].
  { rewrite as_i32_id by done. intros e. apply Hb. left. }
  rewrite Hap. destruct (IH (S pos) t1 ltac:(lia) Hnd Hr) as [[d2 t2] ->]; [|by eexists].
  intros lane e Hin. assert (lane <> x) as Hne by (by intros ->).
  rewrite (apply_lane_active_other _ _ _ _ _ _ _ _ _ _ _ Hx Hne Hap). apply Hb. by right.
Qed.

Section Totality.
Context {E : Type} `{Environment E} `{BuildLaws} `{HashOrder}.

Lemma edition_current_Some : is_Some edition_current.
Proof. unfold edition_current. pose proof current_parses as Hp. by destruct (parse _). Qed.

Lemma step_commit_total now r ok phases t :
  lanes_fit -> covered (step_lanes r) -> counters_below t ->
  is_Some (step_commit now r (Ok (ok, phases)) t).
Proof.
  intros Hn Hc Hb. unfold step_commit. destruct (validate_step_lanes _ _ _ _); [by eexists|].
  unfold apply_step_to_tracker. destruct (drain_interrupted t) as [drained t0] eqn:Hd.
  unfold drain_interrupted, take_interrupted in Hd. injection Hd as <- <-.
  edestruct (apply_lanes_total now) as [[done t1] ->]; [| | | |by eexists].
  - done.
  - apply Hc.
  - by apply covered_fit.
  - intros lane e _. apply Hb.
Qed.

Lemma configure_total pin env : is_Some (configure pin env).
Proof.
  unfold configure. destruct edition_current_Some as [e ->].
  destruct (is_empty pin); simpl; by eexists.
Qed.

(** C21: no request makes the env server's handler panic, whatever the peer sends and
    the env answers: empty or unknown requests, lanes out of range or repeated,
    masks and infos of any width and shape included.  The exception is an episode of
    2^63 - 1 steps. *)
Theorem handler_never_panics now late elapsed sl req env t :
  lanes_fit -> request_typed (req_kind req) -> counters_below t ->
  is_Some (handle_env_request now late elapsed sl req env t).
Proof.
  intros Hn Hty Hb. unfold handle_env_request.
  destruct (req_kind req) as [[r|r|r|reason|pin]|].
  - destruct (reset_op sl late r env) as [outcome env1].
    destruct (reset_commit now r outcome t) as [[kind ph] t1]. by eexists.
  - destruct (step_op sl late r env) as [[[ok ph]|e] env1] eqn:Hop; [|by eexists].
    pose proof (step_op_covered _ _ _ _ _ _ Hty Hop) as Hc.
    destruct (step_commit_total now r ok ph t Hn Hc Hb) as [[[kind ph'] t1] ->]. by eexists.
  - destruct (env_render r env) as [outcome env1].
    destruct (run_env_op_with_deadline _ _ _ _) as [[ok ph]|e]; by eexists.
  - by eexists.
  - destruct (configure_total pin env) as [[kind env1] ->]. by eexists.
  - by eexists.
Qed.

Lemma settle_total first req env : is_Some (settle first req env).
Proof.
  unfold settle. destruct edition_current_Some as [e ->]. destruct (first && _); by eexists.
Qed.
End Totality.

Lemma release_build_laws : @BuildLaws release_build.
Proof. split; [left | by vm_compute]. Qed.

Lemma handler_never_panics_witness :
  is_Some (@handle_env_request script scripted_env release_build map_order no_clock false 3 true
    (mkJoinRequest (Some (RStep (mkStepRequest None 0 [0; 0; 4294967295] []))) "r")
    sample_script tracker_new).
Proof.
  apply (@handler_never_panics script scripted_env release_build release_build_laws map_order).
  - vm_compute. discriminate.
  - repeat constructor; vm_compute; discriminate.
  - apply counters_below_new.
Defined.

(** ** Invariants of a session *)

Section SessionProperties.
Context {E : Type} `{Environment E} `{BuildLaws} `{HashOrderLaws}.
Implicit Types (s : Session E).

Definition no_panic (tr : list Event) : Prop := Forall (fun ev => forall req, ev <> EvPanic req) tr.

Lemma no_panic_app tr ev : no_panic (tr ++ [ev]) <-> no_panic tr /\ forall req, ev <> EvPanic req.
Proof. unfold no_panic. by rewrite Forall_app, Forall_singleton. Qed.

(** Once the slot is released nothing of the session is left. *)
Lemma released_clean_inv env t0 tr s :
  session_run (opens env t0) tr s -> no_panic tr ->
  match s_stage s with
  | Released _ => s_tracker s = tracker_new /\ s_inflight s = []
  | _ => True
  end.
Proof.
  intros Hrun. remember (opens env t0) as s0 eqn:Hs0.
  induction Hrun as [|s0 tr s ev s' Hrun IH Hstep]; [by subst|].
  intros [Hnp Hev]%no_panic_app. specialize (IH Hs0 Hnp).
  destruct Hstep; cbn [s_stage s_tracker s_inflight] in *; try done;
    try match goal with
    | Hin : s_inflight s = ?l1 ++ _ :: _ |- _ =>
        destruct (s_stage s); [done..|]; destruct IH as [_ IH]; rewrite IH in Hin; by destruct l1
    end.
  - by destruct (is_close req || is_fatal resp).
  - by destruct (Hev req).
  - match goal with Hc : complete_all _ _ = _ |- _ => unfold complete_all in Hc; simplify_eq/= end.
    done.
  - match goal with Hst : s_stage s = _ |- _ => rewrite Hst in IH end. done.
Qed.

(** ** Every request is answered once *)

Definition received (ev : Event) : option JoinRequest :=
  match ev with
  | EvReceived req => Some req
  | EvServed _ req _ _ => Some req
  | EvPanic req => Some req
  | _ => None
  end.

Definition crashed (ev : Event) : option JoinRequest :=
  match ev with EvTaskPanic req | EvPanic req => Some req | _ => None end.

Definition terminal_reply (st : Stage) : list JoinResponse :=
  match st with
  | Draining (Some r) | Released (Some r) => [r]
  | _ => []
  end.

Definition task_ids_ok (task : Task) : Prop :=
  match task with
  | Spawned req => is_lane_scoped req = true
  | ResetDone req r _ => req_kind req = Some (RReset r)
  | StepDone req r _ => req_kind req = Some (RStep r)
  | Replying req resp => resp_id resp = req_id req
  end.

Definition ids (l : list JoinRequest) : list string := req_id <$> l.

(** Received requests are answered, in flight, held back as the terminal reply, or
    crashed. *)
Definition replies_ok (tr : list Event) (s : Session E) : Prop :=
  Forall task_ids_ok (s_inflight s) /\
  ids (omap received tr) ≡ₚ
    (resp_id <$> s_sent s) ++ ids (task_req <$> s_inflight s) ++
    (resp_id <$> terminal_reply (s_stage s)) ++ ids (omap crashed tr).

Lemma handle_resp_id now late elapsed sl req (env : E) t resp env' t' :
  handle_env_request now late elapsed sl req env t = Some (resp, env', t') ->
  resp_id resp = req_id req.
Proof.
  unfold handle_env_request. intros Hh.
  match type of Hh with (match ?X with _ => _ end) = _ => destruct X as [[[[kind ph] env1] t1]|] end;
    [|done].
  by injection Hh as <- <- <-.
Qed.

Lemma replies_ok_task tr s l1 l2 task task' ev env t :
  replies_ok tr s -> s_inflight s = l1 ++ task :: l2 ->
  task_req task' = task_req task -> task_ids_ok task' ->
  received ev = None -> crashed ev = None ->
  replies_ok (tr ++ [ev])
    (mkSession env t (l1 ++ task' :: l2) (s_sent s) (s_first s) (s_stage s)).
Proof.
  intros [Hf Hp] Hin Hreq Htask Hrec Hcr. rewrite Hin in Hf, Hp.
  apply Forall_app in Hf as [Hf1 [_ Hf2]%Forall_cons].
  split; [apply Forall_app; split; [done | by constructor]|].
  cbn [s_inflight s_sent s_stage]. rewrite !omap_app. cbn. rewrite Hrec, Hcr, !app_nil_r, Hp.
  unfold ids. by rewrite !fmap_app, !fmap_cons, Hreq.
Qed.

Ltac split_tasks Hf :=
  cbn [s_inflight] in *;
  repeat match goal with Hin : s_inflight _ = _ |- _ => rewrite Hin in Hf; clear Hin end;
  rewrite ?Forall_app, ?Forall_cons in *; naive_solver.

Lemma replies_ok_step tr s ev s' :
  replies_ok tr s -> (match s_stage s with Released _ => s_inflight s = [] | _ => True end) ->
  session_step s ev s' -> replies_ok (tr ++ [ev]) s'.
Proof.
  intros Hok Hrel Hstep. pose proof Hok as [Hf Hp].
  destruct Hstep; try (eapply replies_ok_task; [done|done|done|done|done|done]);
    try match goal with
    | Hh : handle_env_request _ _ _ _ _ _ _ = Some _ |- _ => apply handle_resp_id in Hh
    end;
    try match goal with |- context [if ?b then _ else _] => destruct b end;
    (split; [split_tasks Hf|]);
    cbn [s_inflight s_sent s_stage terminal_reply] in *;
    rewrite ?omap_app; cbn [omap list_omap received crashed]; rewrite ?app_nil_r; unfold ids in *;
    repeat match goal with Hst : s_stage _ = _ |- _ => rewrite Hst in Hp; clear Hst end;
    repeat match goal with Hin : s_inflight _ = _ |- _ => rewrite Hin in Hf, Hp; clear Hin end.
  all: rewrite ?fmap_app, ?fmap_cons, ?fmap_nil in *; cbn [terminal_reply] in *;
    rewrite ?fmap_cons, ?fmap_nil in *; cbn [task_req app] in *;
    try match goal with Hr : resp_id _ = req_id _ |- _ => rewrite ?Hr in * end;
    try (apply Forall_app in Hf as [_ [Hr _]%Forall_cons]; cbn [task_ids_ok] in Hr; rewrite ?Hr);
    solve_perm.
Qed.

Lemma session_replies env t0 tr s :
  session_run (opens env t0) tr s -> no_panic tr -> replies_ok tr s.
Proof.
  intros Hrun. remember (opens env t0) as s0 eqn:Hs0.
  induction Hrun as [s0|s0 tr s ev s' Hrun IH Hstep]; [by subst|].
  intros Hnp. pose proof (proj1 (no_panic_app _ _) Hnp) as [Hnp' Hev].
  eapply replies_ok_step; [by apply IH | | done]. subst s0.
  pose proof (released_clean_inv _ _ _ _ Hrun Hnp') as Hrel. destruct (s_stage s); naive_solver.
Qed.

(** ** What a session reports *)

(** A reset that may interrupt more episodes than the buffer has room for. *)
Definition overflows (req : option RequestKind) (before : EpisodeTracker) : Prop :=
  match req with
  | Some (RReset r) =>
      (MAX_INTERRUPTED_EPISODES < length (interrupted before) + length (reset_lanes r))%nat
  | _ => False
  end.

Definition balanced (now : clocks) (req : option RequestKind) (kind : ResponseKind)
    (t t' : EpisodeTracker) : Prop :=
  tracker_wf t' /\
  exists lost,
    started now req kind t ++ account t
      ≡ₚ (reported_key <$> reported_episodes kind) ++ (reported_key <$> lost) ++ account t' /\
    (~ overflows req t -> lost = []).

Lemma balanced_inert now req kind t :
  tracker_wf t -> started now req kind t = [] -> reported_episodes kind = [] ->
  balanced now req kind t t.
Proof. intros Hwf Hs Hr. split; [done|]. exists []. by rewrite Hs, Hr. Qed.

Lemma reset_commit_balanced now r outcome t :
  lanes_fit -> (forall ok, outcome = Ok ok -> covered (reset_lanes r)) -> tracker_wf t ->
  balanced now (Some (RReset r)) (reset_commit now r outcome t).1.1 t (reset_commit now r outcome t).2.
Proof.
  intros Hn Hc Hwf. destruct outcome as [[ok ph]|e]; [|by apply balanced_inert].
  specialize (Hc _ eq_refl). cbn.
  destruct (start_lanes_account now (reset_seeds r) (reset_episode_ids r) 0 (reset_lanes r) t)
    as (lost & Hp & Hw & _ & Hroom); [by apply covered_fit | done|].
  split; [done|]. exists lost. cbn. split; [rewrite Hp; apply (comm (++))|].
  intros Hno. apply Hroom. lia.
Qed.

Lemma step_commit_balanced now r outcome t kind ph t' :
  lanes_fit -> (forall ok, outcome = Ok ok -> covered (step_lanes r)) -> tracker_wf t ->
  step_commit now r outcome t = Some (kind, ph, t') ->
  balanced now (Some (RStep r)) kind t t'.
Proof.
  intros Hn Hc Hwf Hs. unfold step_commit in Hs. destruct outcome as [[ok ph1]|e].
  2:{ simplify_eq/=. by apply balanced_inert. }
  specialize (Hc _ eq_refl).
  destruct (validate_step_lanes _ _ _ t); [simplify_eq/=; by apply balanced_inert|].
  destruct (apply_step_to_tracker _ _ _ _ _ _) as [[ok' t1]|] eqn:Hap; [|done]. simplify_eq/=.
  unfold apply_step_to_tracker, drain_interrupted, take_interrupted in Hap.
  destruct (apply_lanes _ _ _ _ _ _ _ _) as [[completed t2]|] eqn:Hls; [|done].
  injection Hap as <- <-.
  destruct (apply_lanes_account _ _ _ _ _ _ _ _ _ _ (proj1 Hc) (covered_fit _ Hn Hc)
    (take_interrupted_wf t Hwf) Hls) as (Hp & Hw & _).
  split; [done|]. exists []. split; [|done]. cbn. rewrite fmap_app, <- (assoc (++)), <- Hp.
  rewrite (roll_keys_ext now _ t (take_interrupted t).2) by done.
  rewrite (take_interrupted_account t). cbn. rewrite Permutation_app_swap_app. done.
Qed.

Lemma handler_balanced now late elapsed sl req (env : E) t resp env' t' :
  lanes_fit -> request_typed (req_kind req) -> tracker_wf t ->
  handle_env_request now late elapsed sl req env t = Some (resp, env', t') ->
  balanced now (req_kind req) (resp_kind resp) t t'.
Proof.
  intros Hn Hty Hwf Hh. unfold handle_env_request in Hh.
  destruct (req_kind req) as [[r|r|r|reason|pin]|] eqn:Ek.
  - destruct (reset_op sl late r env) as [outcome env1] eqn:Hop.
    pose proof (reset_commit_balanced now r outcome t Hn) as Hb.
    destruct (reset_commit now r outcome t) as [[kind ph] t1]. simplify_eq/=. apply Hb; [|done].
    intros ok ->. by eapply reset_op_covered.
  - destruct (step_op sl late r env) as [outcome env1] eqn:Hop.
    destruct (step_commit now r outcome t) as [[[kind ph] t1]|] eqn:Hs; [|done]. simplify_eq/=.
    eapply step_commit_balanced; [done| |done|done]. intros ok ->. by eapply step_op_covered.
  - destruct (env_render r env) as [outcome env1].
    destruct (run_env_op_with_deadline _ _ _ _) as [[ok ph]|e]; simplify_eq/=; by apply balanced_inert.
  - simplify_eq/=. split; [apply tracker_new_wf|]. exists []. split; [|done].
    pose proof (complete_all_account (fun lane => (now lane).2) t Hwf) as Ha.
    unfold complete_all in Ha. cbn in Ha |- *. rewrite Ha. cbn. by rewrite app_nil_r.
  - destruct (configure pin env) as [[kind env1]|] eqn:Hc; [|done]. simplify_eq/=.
    apply balanced_inert; [done|done|]. unfold configure in Hc.
    destruct (is_empty pin); [destruct edition_current as [ed|] | destruct (parse_retained_edition pin)];
      simplify_eq/=; done.
  - simplify_eq/=. by apply balanced_inert.
Qed.

Definition event_typed (ev : Event) : Prop :=
  match ev with
  | EvReceived req | EvServed _ req _ _ => request_typed (req_kind req)
  | _ => True
  end.

Definition started_by (ev : Event) : list episode_key :=
  match ev with
  | EvAnswered now req resp before | EvServed now req resp before =>
      started now (req_kind req) (resp_kind resp) before
  | _ => []
  end.

(** Episodes leave the tracker in a reply, or are swept when the session ends. *)
Definition ended_by (ev : Event) : list EpisodeMetadata :=
  match ev with
  | EvAnswered _ _ resp _ | EvServed _ _ resp _ => reported_episodes (resp_kind resp)
  | EvSwept leftover => leftover
  | _ => []
  end.

Definition event_overflows (ev : Event) : Prop :=
  match ev with
  | EvAnswered _ req _ before | EvServed _ req _ before => overflows (req_kind req) before
  | _ => False
  end.

Definition task_covered (task : Task) : Prop :=
  match task with
  | Spawned req => request_typed (req_kind req)
  | ResetDone req r outcome =>
      req_kind req = Some (RReset r) /\ forall ok, outcome = Ok ok -> covered (reset_lanes r)
  | StepDone req r outcome =>
      req_kind req = Some (RStep r) /\ forall ok, outcome = Ok ok -> covered (step_lanes r)
  | Replying _ _ => True
  end.

Definition books_ok (t0 : EpisodeTracker) (tr : list Event) (s : Session E) : Prop :=
  tracker_wf (s_tracker s) /\ Forall task_covered (s_inflight s) /\
  exists lost,
    (tr ≫= started_by) ++ account t0
      ≡ₚ (reported_key <$> (tr ≫= ended_by)) ++ (reported_key <$> lost) ++ account (s_tracker s) /\
    (Forall (fun ev => ~ event_overflows ev) tr -> lost = []).

Lemma bind_snoc {A B} (f : A -> list B) l x : (l ++ [x]) ≫= f = (l ≫= f) ++ f x.
Proof. rewrite bind_app. cbn. by rewrite app_nil_r. Qed.

(** A step that leaves the tracker alone and neither starts nor ends episodes. *)
Lemma books_ok_inert t0 tr s ev s' :
  books_ok t0 tr s -> s_tracker s' = s_tracker s -> Forall task_covered (s_inflight s') ->
  started_by ev = [] -> ended_by ev = [] -> books_ok t0 (tr ++ [ev]) s'.
Proof.
  intros (Hwf & _ & lost & Hp & Ho) Ht Hf Hs He. rewrite <- Ht in *. split; [done|].
  split; [done|]. exists lost. rewrite !bind_snoc, Hs, He, !app_nil_r. split; [done|].
  intros [Hno _]%Forall_app. auto.
Qed.

Lemma books_ok_balanced t0 tr s ev s' now req resp :
  books_ok t0 tr s -> Forall task_covered (s_inflight s') ->
  balanced now (req_kind req) (resp_kind resp) (s_tracker s) (s_tracker s') ->
  ev = EvAnswered now req resp (s_tracker s) \/ ev = EvServed now req resp (s_tracker s) ->
  books_ok t0 (tr ++ [ev]) s'.
Proof.
  intros (Hwf & _ & lost & Hp & Ho) Hf (Hwf' & lost' & Hp' & Ho') Hev.
  assert (started_by ev = started now (req_kind req) (resp_kind resp) (s_tracker s) /\
    ended_by ev = reported_episodes (resp_kind resp) /\
    event_overflows ev = overflows (req_kind req) (s_tracker s)) as (Hs & He & Hov)
    by (destruct Hev as [-> | ->]; done).
  split; [done|]. split; [done|]. exists (lost ++ lost').
  rewrite !bind_snoc, Hs, He, !fmap_app. split; [solve_perm|].
  intros [Hno Hno']%Forall_app. rewrite Forall_singleton in Hno'. rewrite Hov in Hno'.
  by rewrite (Ho Hno), (Ho' Hno').
Qed.

Ltac covered_tasks Hf :=
  cbn [s_inflight] in *;
  repeat match goal with Hin : s_inflight _ = _ |- _ => rewrite Hin in Hf; clear Hin end;
  rewrite ?Forall_app, ?Forall_cons in *; naive_solver.

Lemma books_ok_step t0 tr s ev s' :
  lanes_fit -> event_typed ev -> books_ok t0 tr s ->
  session_step s ev s' -> books_ok t0 (tr ++ [ev]) s'.
Proof.
  intros Hn Hty Hb Hstep. pose proof Hb as (Hwf & Hf & _).
  destruct Hstep; cbn [event_typed] in Hty.
  - eapply books_ok_inert; [done|done| |done|done]. covered_tasks Hf.
  - eapply books_ok_inert; [done|done| |done|done].
    assert (request_typed (req_kind req)) as Hreq by covered_tasks Hf.
    match goal with Hk : req_kind req = _ |- _ => rewrite Hk in Hreq end.
    assert (task_covered (ResetDone req r outcome))
      by (split; [done | intros ok ->; by eapply reset_op_covered]). covered_tasks Hf.
  - eapply books_ok_inert; [done|done| |done|done].
    assert (request_typed (req_kind req)) as Hreq by covered_tasks Hf.
    match goal with Hk : req_kind req = _ |- _ => rewrite Hk in Hreq end.
    assert (task_covered (StepDone req r outcome))
      by (split; [done | intros ok ->; by eapply step_op_covered]). covered_tasks Hf.
  - assert (task_covered (ResetDone req r outcome)) as [Hk Hc] by covered_tasks Hf.
    eapply books_ok_balanced; [done| | |by left]; [covered_tasks Hf|]. cbn. rewrite Hk.
    pose proof (reset_commit_balanced now r outcome (s_tracker s) Hn Hc Hwf) as Hbal.
    match goal with Hr : reset_commit _ _ _ _ = _ |- _ => by rewrite Hr in Hbal end.
  - assert (task_covered (StepDone req r outcome)) as [Hk Hc] by covered_tasks Hf.
    eapply books_ok_balanced; [done| | |by left]; [covered_tasks Hf|]. cbn. rewrite Hk.
    by eapply step_commit_balanced.
  - eapply books_ok_inert; [done|done| |done|done]. covered_tasks Hf.
  - eapply books_ok_inert; [done|done| |done|done]. covered_tasks Hf.
  - eapply books_ok_balanced; [done| | |by right].
    + destruct (is_close req || is_fatal resp); constructor.
    + destruct (is_close req || is_fatal resp); by eapply handler_balanced.
  - eapply books_ok_inert; [done|done| |done|done]. constructor.
  - by eapply books_ok_inert.
  - destruct Hb as (_ & _ & lost & Hp & Ho).
    match goal with Hc : complete_all _ _ = _ |- _ =>
      pose proof (complete_all_account now (s_tracker s) Hwf) as Ha; rewrite Hc in Ha;
      unfold complete_all in Hc; simplify_eq/= end.
    split; [apply tracker_new_wf|]. split; [constructor|]. exists lost.
    rewrite !bind_snoc. cbn [started_by ended_by s_tracker]. rewrite fmap_app, app_nil_r.
    split; [|intros [Hno _]%Forall_app; auto].
    change (account (mkTracker ∅ ∅ [] 0)) with (@nil episode_key). rewrite app_nil_r.
    rewrite Hp, <- Ha. solve_perm.
  - by eapply books_ok_inert.
Qed.

Lemma session_books env t0 tr s :
  lanes_fit -> tracker_wf t0 -> Forall event_typed tr ->
  session_run (opens env t0) tr s -> books_ok t0 tr s.
Proof.
  intros Hn Hwf Hty Hrun. remember (opens env t0) as s0 eqn:Hs0.
  induction Hrun as [s0|s0 tr s ev s' Hrun IH Hstep].
  - subst. split; [done|]. split; [constructor|]. by exists [].
  - apply Forall_app in Hty as [Hty Hev]. rewrite Forall_singleton in Hev.
    eapply books_ok_step; [done|done| |done]. by apply IH.
Qed.

(** ** The end of a session *)

Definition stream_ended (s : Session E) : Prop := s_stage s <> Serving.
Definition finished (s : Session E) : Prop := s_stage s = Released None /\ s_inflight s = [].

Definition task_weight (task : Task) : nat :=
  match task with Spawned _ => 3 | ResetDone _ _ _ | StepDone _ _ _ => 2 | Replying _ _ => 1 end.

(** The steps left once the stream has ended. *)
Definition steps_left (s : Session E) : nat :=
  sum_list_with task_weight (s_inflight s) +
  match s_stage s with Released None => 0 | Released (Some _) => 1 | _ => 2 end.

Lemma ended_step s ev s' :
  stream_ended s -> session_step s ev s' ->
  stream_ended s' /\ (steps_left s' < steps_left s)%nat /\
  event_typed ev /\ (forall req, ev <> EvPanic req).
Proof.
  unfold stream_ended, steps_left.
  intros He Hstep. destruct Hstep; cbn [s_stage s_inflight] in *; try done;
    repeat match goal with
    | Hin : s_inflight _ = _ |- _ => rewrite Hin
    | Hst : s_stage _ = _ |- _ => rewrite Hst
    end; rewrite ?sum_list_with_app; cbn [sum_list_with task_weight];
    (split; [done|]); (split; [|done]); try lia.
  - destruct task; cbn [task_weight]; lia.
  - destruct terminal; cbn; lia.
Qed.

Lemma run_app s tr s' tr' s'' :
  session_run s tr s' -> session_run s' tr' s'' -> session_run s (tr ++ tr') s''.
Proof.
  intros H1' H2'. induction H2' as [|s0 tr2 s1 ev s2 Hrun IH Hstep]; [by rewrite app_nil_r|].
  rewrite (assoc (++)). econstructor; eauto.
Qed.

Lemma ended_run s tr s' :
  stream_ended s -> session_run s tr s' ->
  stream_ended s' /\ (length tr + steps_left s' <= steps_left s)%nat /\
  Forall event_typed tr /\ no_panic tr.
Proof.
  intros He Hrun. induction Hrun as [|s0 tr s1 ev s2 Hrun IH Hstep].
  - split; [done|]. split; [simpl; lia|]. split; constructor.
  - destruct (IH He) as (He1 & Hlen & Hty & Hnp).
    destruct (ended_step _ _ _ He1 Hstep) as (He2 & Hlt & Hev & Hne).
    split; [done|]. rewrite length_app. cbn [length]. split; [lia|].
    split; [apply Forall_app; split; [done | by apply Forall_singleton] | by apply no_panic_app].
Qed.

Lemma ended_progress s :
  lanes_fit -> stream_ended s -> Forall task_covered (s_inflight s) -> Forall task_ids_ok (s_inflight s) ->
  counters_below (s_tracker s) ->
  finished s \/ exists ev s', session_step s ev s' /\ forall req, ev <> EvTaskPanic req.
Proof.
  intros Hn He Hc Hi Hb. unfold stream_ended in He.
  destruct (s_inflight s) as [|task rest] eqn:Hin.
  - destruct (s_stage s) as [|terminal|[resp|]] eqn:Hst; [done| | |by left]; right.
    + destruct (complete_all (fun _ => None) (s_tracker s)) as [leftover t] eqn:Hca.
      eexists _, _. split; [by eapply step_sweep | done].
    + eexists _, _. split; [by eapply step_terminal | done].
  - right. apply Forall_cons in Hc as [Hc _]. apply Forall_cons in Hi as [Hi _].
    destruct task as [req|req r outcome|req r outcome|req resp]; cbn in Hc, Hi.
    + unfold is_lane_scoped in Hi. destruct (req_kind req) as [[r|r| | |]|] eqn:Ek; try done.
      * destruct (reset_op true false r (s_env s)) as [outcome env1] eqn:Hop.
        eexists _, _. split; [by eapply (step_reset_op s [] rest) | done].
      * destruct (step_op true false r (s_env s)) as [outcome env1] eqn:Hop.
        eexists _, _. split; [by eapply (step_step_op s [] rest) | done].
    + destruct (reset_commit (fun _ => (None, None)) r outcome (s_tracker s)) as [[kind ph] t] eqn:Hco.
      eexists _, _. split; [by eapply (step_reset_commit s [] rest _ _ _ _ 0) | done].
    + assert (is_Some (step_commit (fun _ => (None, None)) r outcome (s_tracker s))) as [[[kind ph] t] Hco].
      { destruct outcome as [[ok ph]|e]; [|by eexists]. apply step_commit_total; [done| |done].
        by apply (proj2 Hc (ok, ph)). }
      eexists _, _. split; [by eapply (step_step_commit s [] rest _ _ _ _ 0) | done].
    + eexists _, _. split; [by eapply (step_send s [] rest) | done].
Qed.

Lemma finished_stuck s ev s' : finished s -> ~ session_step s ev s'.
Proof.
  intros [Hst Hin] Hstep. destruct Hstep; try congruence;
    match goal with Hl : s_inflight s = ?l1 ++ _ :: _ |- _ => rewrite Hin in Hl; by destruct l1 end.
Qed.

(** ** Properties *)


End SessionProperties.

(** ** Concrete sessions *)

Definition lane_step_req : JoinRequest :=
  mkJoinRequest (Some (RStep (mkStepRequest None 0 [0] ["a"]))) "lane".
Definition reset_req (id : string) : JoinRequest :=
  mkJoinRequest (Some (RReset (mkResetRequest [] None 0 [] [id]))) "reset".
Definition close_req : JoinRequest := mkJoinRequest (Some (RClose "bye")) "close".
Definition whole_step_req : JoinRequest :=
  mkJoinRequest (Some (RStep (mkStepRequest None 0 [] []))) "step".

Notation scripted_opens := (@opens script (sample_script) tracker_new).
Notation scripted_run := (@session_run script scripted_env release_build map_order).

(** A reset, a lane step, and a close up to its terminal reply. *)
Definition tracker_a : EpisodeTracker := start_lanes no_clock [] ["a"] 0 [0] tracker_new.
Definition step_reply : ResponseKind * EndpointPhases * EpisodeTracker :=
  default (KConfigure, phases_default, tracker_new)
    (@step_commit script scripted_env no_clock (mkStepRequest None 0 [0] ["a"])
       (Ok (plain_step f64_one_bits 0, phases_default)) tracker_a).
Definition tracker_b : EpisodeTracker := step_reply.2.

Definition reset_resp : JoinResponse :=
  respond (reset_req "a") 1 (KReset (mkResetResponse None None)) phases_default.
Definition lane_resp : JoinResponse := respond lane_step_req 1 step_reply.1.1 step_reply.1.2.
Definition close_resp : JoinResponse :=
  respond close_req 1 (KClose (@complete_all map_order (fun _ => Some 9) tracker_b).1) phases_default.

Definition in_session (sc : script) (t : EpisodeTracker) (tasks : list Task)
    (sent : list JoinResponse) (stage : Stage) : Session script :=
  mkSession sc t tasks sent false stage.

Definition sample_trace : list Event :=
  [EvServed no_clock (reset_req "a") reset_resp tracker_new; EvReceived lane_step_req; EvInternal;
   EvAnswered no_clock lane_step_req lane_resp tracker_a; EvInternal;
   EvServed no_clock close_req close_resp tracker_b].
Definition sample_end : Session script :=
  in_session (tail sample_script) tracker_new [] [reset_resp; lane_resp] (Draining (Some close_resp)).

Notation scripted_step := (@session_step script scripted_env release_build map_order).

Lemma sample_reset :
  scripted_step scripted_opens (EvServed no_clock (reset_req "a") reset_resp tracker_new)
    (in_session sample_script tracker_a [] [reset_resp] Serving).
Proof.
  exact (@step_serial script scripted_env release_build map_order scripted_opens (reset_req "a") no_clock false 1 sample_script reset_resp
    sample_script tracker_a eq_refl eq_refl eq_refl eq_refl eq_refl).
Qed.

Lemma sample_spawn :
  scripted_step (in_session sample_script tracker_a [] [reset_resp] Serving) (EvReceived lane_step_req)
    (in_session sample_script tracker_a [Spawned lane_step_req] [reset_resp] Serving).
Proof.
  apply (@step_spawn script scripted_env release_build map_order
    (in_session sample_script tracker_a [] [reset_resp] Serving) lane_step_req sample_script); reflexivity.
Qed.

Notation lane_outcome :=
  (StepDone lane_step_req (mkStepRequest None 0 [0] ["a"])
     (Ok (plain_step f64_one_bits 0, phases_default))).

Lemma sample_op :
  scripted_step (in_session sample_script tracker_a [Spawned lane_step_req] [reset_resp] Serving) EvInternal
    (in_session (tail sample_script) tracker_a [lane_outcome] [reset_resp] Serving).
Proof.
  apply (@step_step_op script scripted_env release_build map_order
    (in_session sample_script tracker_a [Spawned lane_step_req] [reset_resp] Serving) [] []
    lane_step_req (mkStepRequest None 0 [0] ["a"]) false
    (Ok (plain_step f64_one_bits 0, phases_default)) (tail sample_script)); reflexivity.
Qed.

Lemma sample_commit :
  scripted_step (in_session (tail sample_script) tracker_a [lane_outcome] [reset_resp] Serving)
    (EvAnswered no_clock lane_step_req lane_resp tracker_a)
    (in_session (tail sample_script) tracker_b [Replying lane_step_req lane_resp] [reset_resp] Serving).
Proof.
  apply (@step_step_commit script scripted_env release_build map_order
    (in_session (tail sample_script) tracker_a [lane_outcome] [reset_resp] Serving) [] [] lane_step_req
    (mkStepRequest None 0 [0] ["a"]) (Ok (plain_step f64_one_bits 0, phases_default)) no_clock 1
    step_reply.1.1 step_reply.1.2 tracker_b); [reflexivity|].
  unfold step_reply, tracker_b, step_reply. cbn [s_tracker in_session].
  destruct (step_commit _ _ _ _) as [[[k ph] t]|] eqn:Hc; [reflexivity|].
  apply (f_equal (fun o => match o with Some _ => true | None => false end)) in Hc.
  vm_compute in Hc. discriminate.
Qed.

Lemma sample_send :
  scripted_step
    (in_session (tail sample_script) tracker_b [Replying lane_step_req lane_resp] [reset_resp] Serving)
    EvInternal (in_session (tail sample_script) tracker_b [] [reset_resp; lane_resp] Serving).
Proof.
  apply (@step_send script scripted_env release_build map_order
    (in_session (tail sample_script) tracker_b [Replying lane_step_req lane_resp] [reset_resp] Serving)
    [] [] lane_step_req lane_resp). reflexivity.
Qed.

Lemma sample_close :
  scripted_step
    (in_session (tail sample_script) tracker_b [] [reset_resp; lane_resp] Serving)
    (EvServed no_clock close_req close_resp tracker_b) sample_end.
Proof.
  refine (@step_serial script scripted_env release_build map_order (in_session (tail sample_script) tracker_b [] [reset_resp; lane_resp] Serving)
    close_req no_clock false 1 (tail sample_script) close_resp (tail sample_script) tracker_new
    eq_refl eq_refl eq_refl eq_refl eq_refl).
Qed.

Lemma sample_session : scripted_run scripted_opens sample_trace sample_end.
Proof.
  refine (run_snoc _ [_; _; _; _; _] _ _ _ _ sample_close).
  refine (run_snoc _ [_; _; _; _] _ _ _ _ sample_send).
  refine (run_snoc _ [_; _; _] _ _ _ _ sample_commit).
  refine (run_snoc _ [_; _] _ _ _ _ sample_op).
  refine (run_snoc _ [_] _ _ _ _ sample_spawn).
  exact (run_snoc _ [] _ _ _ (run_nil _) sample_reset).
Qed.

Lemma sample_trace_typed : Forall event_typed sample_trace.
Proof. repeat constructor; discriminate. Qed.

Lemma sample_trace_no_panic : no_panic sample_trace.
Proof. repeat constructor; intros req; discriminate. Qed.

Lemma scripted_fit : @lanes_fit script scripted_env.
Proof. vm_compute. discriminate. Qed.

(** The session after its sweep, and after its terminal reply. *)
Definition swept (s : Session script) (resp : JoinResponse) : Session script :=
  mkSession (s_env s) tracker_new [] (s_sent s) (s_first s) (Released (Some resp)).
Definition closed (s : Session script) (resp : JoinResponse) : Session script :=
  mkSession (s_env s) tracker_new [] (s_sent s ++ [resp]) (s_first s) (Released None).

Lemma finish_session s resp :
  s_stage s = Draining (Some resp) -> s_inflight s = [] ->
  exists leftover,
    scripted_run s (([] ++ [EvSwept leftover]) ++ [EvInternal]) (closed s resp).
Proof.
  intros Hst Hin. exists (@complete_all map_order (fun _ => Some 1) (s_tracker s)).1.
  eapply (run_snoc _ _ (swept s resp)).
  - eapply run_snoc; [apply run_nil|].
    by apply (step_sweep s (Some resp) (fun _ => Some 1)).
  - by apply (step_terminal (swept s resp) resp).
Qed.



(** A panicking env leaks its session.  A reset runs, the next request's env op
    panics: the slot is free for another session, but the tracker still holds the
    episode, and the first step of the next session reports it. *)
Theorem panic_leaks_session :
  exists tr s resps env t,
    scripted_run scripted_opens tr s /\ s_stage s = Released None /\
    active_episode_id 0 (s_tracker s) = Some "a" /\
    @handle_all script scripted_env release_build map_order [reset_call "b"; step_call "b"]
      sample_script (s_tracker s) = Some (resps, env, t) /\
    (fun r => episode_id <$> reported_episodes (resp_kind r)) <$> resps = [[]; ["a"]].
Proof.
  exists ([EvServed no_clock (reset_req "a") reset_resp tracker_new] ++ [EvPanic whole_step_req]),
    (in_session sample_script tracker_a [] [reset_resp] (Released None)).
  eexists _, _, _. split.
  - eapply run_snoc; [exact (run_snoc _ [] _ _ _ (run_nil _) sample_reset)|].
    apply (@step_panic script scripted_env release_build map_order
      (in_session sample_script tracker_a [] [reset_resp] Serving) whole_step_req sample_script);
      reflexivity.
  - split; [reflexivity|]. split; [vm_compute; reflexivity|]. split; reflexivity.
Qed.

(** Under NEXT_STEP, a step that rolls the episode and misses its deadline. *)
Definition timeout_calls : list Call :=
  [reset_call "a"; step_call "a";
   mkCall no_clock true 7 true (mkJoinRequest (Some (RStep (mkStepRequest None 50 [] ["b"]))) "r");
   step_call "b"].
Definition timeout_script : script :=
  [plain_step f64_one_bits 1; plain_step f64_zero 0; plain_step f64_one_bits 0].

(** A recoverable timeout can end the session.  The env delivers its autoreset
    observation after the deadline: the client gets a recoverable timeout, the tracker
    still awaits the observation, and the retried step, an ordinary rewarded one, is
    refused as a contract violation that is not recoverable. *)
Theorem timeout_desyncs_tracker :
  exists resps env t,
    @handle_all script scripted_env release_build map_order timeout_calls timeout_script tracker_new
      = Some (resps, env, t) /\
    (fun r => match resp_kind r with KError e => Some (pe_code e, pe_is_recoverable e) | _ => None end)
      <$> resps = [None; None; Some (1, true); Some (10, false)].
Proof. eexists _, _, _. split; [reflexivity | vm_compute; reflexivity]. Qed.
