(* ===== verification/Route.v ===== *)
(** * The state of a route

    [rlmesh-runtime/src/episodes.rs] (the registry of episode records) and
    [rlmesh-runtime/src/state] (per-lane slots, the route-global slot and trial
    counters, the seeds, surplus marks and model-side lifecycle of the episodes, and
    the requests built from them).

    Counters are overflow-checked, so an operation that counts returns an [option];
    the wall clock is a parameter of the operations that read it.  [BTreeMap],
    [HashMap] and [HashSet], of which only lookups are used, are [gmap] and
    [gset]. *)

From S2P Require Import Prelude Float Types WireSpaces Edition Info Episode.
From Stdlib Require Import SpecFloat.

(** ** Episode records *)

Record EpisodeRecord : Type := mkRecord {
  record_id : string;
  rec_index : Z;
  rec_env_index : Z;
  started_from_auto_reset : bool;
}.

Record EpisodeRecordRegistry : Type := mkRegistry {
  next_index : Z;
  by_episode_id : gmap string EpisodeRecord;
}.

Definition registry_new : EpisodeRecordRegistry := mkRegistry 0 ∅.

(** [{:06}]: zero-padded on the left, the sign first. *)
Fixpoint zero_digits (n : nat) : string :=
  match n with O => EmptyString | S n => String (Ascii.ascii_of_nat 48) (zero_digits n) end.
Definition pad_left (width : nat) (digits : string) : string :=
  zero_digits (width - String.length digits) +:+ digits.
Definition fmt06 (z : Z) : string :=
  if z <? 0 then "-" +:+ pad_left 5 (pretty (- z)) else pad_left 6 (pretty z).

Definition make_record (index env_index : Z) (auto_reset : bool) : EpisodeRecord :=
  mkRecord ("ep-" +:+ fmt06 index) index env_index auto_reset.

(** One round of the loop of [ensure_for_slots], at position [env_index]: the record
    id of the row and the record it started, if any. *)
Definition ensure_one (auto_reset : bool) (indices : list (option Z)) (env_index : nat)
    (id : string) (r : EpisodeRecordRegistry)
    : option (string * option EpisodeRecord * EpisodeRecordRegistry) :=
  if is_empty id then Some ("", None, r)
  else
    match by_episode_id r !! id with
    | Some existing => Some (record_id existing, None, r)
    | None =>
        let! next := checked_i64 (next_index r + 1) in
        let index := default next (mjoin (indices !! env_index)) in
        let record := make_record index (wrap_s 32 (Z.of_nat env_index)) auto_reset in
        Some (record_id record, Some record, mkRegistry next (<[id := record]> (by_episode_id r)))
    end.

Fixpoint ensure_loop (auto_reset : bool) (indices : list (option Z)) (env_index : nat)
    (ids : list string) (r : EpisodeRecordRegistry)
    : option (list string * list (string * EpisodeRecord) * EpisodeRecordRegistry) :=
  match ids with
  | [] => Some ([], [], r)
  | id :: ids =>
      let! (rid, started, r) := ensure_one auto_reset indices env_index id r in
      let! (rids, rest, r) := ensure_loop auto_reset indices (S env_index) ids r in
      Some (rid :: rids,
            (match started with Some record => [(id, record)] | None => [] end) ++ rest, r)
  end.

Definition ensure_for_slots (ids : list string) (auto_reset : bool) (indices : list (option Z))
    (r : EpisodeRecordRegistry)
    : option (list string * list (string * EpisodeRecord) * EpisodeRecordRegistry) :=
  ensure_loop auto_reset indices 0 ids r.

Definition record_for (id : string) (r : EpisodeRecordRegistry) : option EpisodeRecord :=
  by_episode_id r !! id.

(** ** Slots *)

Record EpisodeState : Type := mkEpisodeState {
  es_episode_id : string;
  es_episode_record_id : string;
  es_episode_index : Z;
  es_started_from_auto_reset : bool;
  es_predicted : bool;
  es_ended : bool;
}.

Record StartedEpisode : Type := mkStarted { st_episode_id : string; st_record : EpisodeRecord }.

Record SlotState : Type := mkSlot {
  slot_env_index : Z;
  slot_episode : option EpisodeState;
  slot_step : Z;
  slot_reset : bool;
  slot_cumulative_reward : f64;
  slot_started_at_ns : Z;
  slot_predict_ns : Z;
  slot_step_ns : Z;
}.

Record RouteSnapshot : Type := mkSnapshot {
  snap_episode_id : string;
  snap_episode_record_id : string;
  snap_episode_ids : list string;
  snap_episode_record_ids : list string;
  snap_step : Z;
  snap_env_index : Z;
  snap_reset : bool;
}.

Inductive RequestPhase : Type := ResetObservation | StepObservation.

Definition phase_str (p : RequestPhase) : string :=
  match p with
  | ResetObservation => "reset_observation"
  | StepObservation => "step_observation"
  end.

(** The summary of a completed episode ([spec.rs]). *)
Record EpisodeSummary : Type := mkSummary {
  sum_episode_index : Z;
  sum_env_index : Z;
  sum_seed : option Z;
  sum_trial_index : option Z;
  sum_step_count : Z;
  sum_cumulative_reward : f64;
  sum_terminated : bool;
  sum_truncated : bool;
  sum_duration_ms : Z;
  sum_success : option bool;
  sum_predict_ms : option f64;
  sum_step_ms : option f64;
}.

(** The identities of the route's participants. *)
Record RouteIds : Type := mkIds {
  session_id : string;
  env_id : string;
  env_component_id : string;
  model_component_id : string;
}.

Record RouteState : Type := mkRoute {
  route_ids : RouteIds;
  slots : list SlotState;
  request_seq : Z;
  total_steps : Z;
  total_episodes : Z;
  records : EpisodeRecordRegistry;
  episode_summaries : list EpisodeSummary;
  seed_by_episode : gmap string Z;
  next_slot : Z;
  max_episodes : option Z;
  trial_by_episode : gmap string Z;
  trial_cursor : Z;
  surplus : gset string;
}.

(** Field updates. *)
Definition set_slots (slots' : list SlotState) (s : RouteState) : RouteState :=
  mkRoute (route_ids s) slots' (request_seq s) (total_steps s) (total_episodes s) (records s)
    (episode_summaries s) (seed_by_episode s) (next_slot s) (max_episodes s)
    (trial_by_episode s) (trial_cursor s) (surplus s).

Definition set_request_seq (request_seq' : Z) (s : RouteState) : RouteState :=
  mkRoute (route_ids s) (slots s) request_seq' (total_steps s) (total_episodes s) (records s)
    (episode_summaries s) (seed_by_episode s) (next_slot s) (max_episodes s)
    (trial_by_episode s) (trial_cursor s) (surplus s).

Definition set_total_steps (total_steps' : Z) (s : RouteState) : RouteState :=
  mkRoute (route_ids s) (slots s) (request_seq s) total_steps' (total_episodes s) (records s)
    (episode_summaries s) (seed_by_episode s) (next_slot s) (max_episodes s)
    (trial_by_episode s) (trial_cursor s) (surplus s).

Definition set_total_episodes (total_episodes' : Z) (s : RouteState) : RouteState :=
  mkRoute (route_ids s) (slots s) (request_seq s) (total_steps s) total_episodes' (records s)
    (episode_summaries s) (seed_by_episode s) (next_slot s) (max_episodes s)
    (trial_by_episode s) (trial_cursor s) (surplus s).

Definition set_records (records' : EpisodeRecordRegistry) (s : RouteState) : RouteState :=
  mkRoute (route_ids s) (slots s) (request_seq s) (total_steps s) (total_episodes s) records'
    (episode_summaries s) (seed_by_episode s) (next_slot s) (max_episodes s)
    (trial_by_episode s) (trial_cursor s) (surplus s).

Definition set_episode_summaries (episode_summaries' : list EpisodeSummary) (s : RouteState) : RouteState :=
  mkRoute (route_ids s) (slots s) (request_seq s) (total_steps s) (total_episodes s)
    (records s) episode_summaries' (seed_by_episode s) (next_slot s) (max_episodes s)
    (trial_by_episode s) (trial_cursor s) (surplus s).

Definition set_seed_by_episode (seed_by_episode' : gmap string Z) (s : RouteState) : RouteState :=
  mkRoute (route_ids s) (slots s) (request_seq s) (total_steps s) (total_episodes s)
    (records s) (episode_summaries s) seed_by_episode' (next_slot s) (max_episodes s)
    (trial_by_episode s) (trial_cursor s) (surplus s).

Definition set_next_slot (next_slot' : Z) (s : RouteState) : RouteState :=
  mkRoute (route_ids s) (slots s) (request_seq s) (total_steps s) (total_episodes s)
    (records s) (episode_summaries s) (seed_by_episode s) next_slot' (max_episodes s)
    (trial_by_episode s) (trial_cursor s) (surplus s).

Definition set_trial_by_episode (trial_by_episode' : gmap string Z) (s : RouteState) : RouteState :=
  mkRoute (route_ids s) (slots s) (request_seq s) (total_steps s) (total_episodes s)
    (records s) (episode_summaries s) (seed_by_episode s) (next_slot s) (max_episodes s)
    trial_by_episode' (trial_cursor s) (surplus s).

Definition set_trial_cursor (trial_cursor' : Z) (s : RouteState) : RouteState :=
  mkRoute (route_ids s) (slots s) (request_seq s) (total_steps s) (total_episodes s)
    (records s) (episode_summaries s) (seed_by_episode s) (next_slot s) (max_episodes s)
    (trial_by_episode s) trial_cursor' (surplus s).

Definition set_surplus (surplus' : gset string) (s : RouteState) : RouteState :=
  mkRoute (route_ids s) (slots s) (request_seq s) (total_steps s) (total_episodes s)
    (records s) (episode_summaries s) (seed_by_episode s) (next_slot s) (max_episodes s)
    (trial_by_episode s) (trial_cursor s) surplus'.

(** [now_unix_ns]; the same function as [unix_nanos_now] of the env server. *)
Definition now_unix_ns : clock_read -> Z := unix_nanos_now.

Definition slot_new (now : clock_read) (index : Z) : SlotState :=
  mkSlot (if index <=? i32_max then index else i32_max) None 0 true f64_zero (now_unix_ns now) 0 0.

(** [RouteState::new]. *)
Definition route_new (now : Z -> clock_read) (who : RouteIds) (num_envs : Z) (budget : option Z)
    : RouteState := {|
  route_ids := who;
  slots := (fun i => slot_new (now i) i) <$> (Z.of_nat <$> seq 0 (Z.to_nat (Z.max num_envs 1)));
  request_seq := 0;
  total_steps := 0;
  total_episodes := 0;
  records := registry_new;
  episode_summaries := [];
  seed_by_episode := ∅;
  next_slot := 0;
  max_episodes := budget;
  trial_by_episode := ∅;
  trial_cursor := 0;
  surplus := ∅;
|}.

(** ** Counters *)

(** [claim_trial_indices]: the base saturates, the rest is checked. *)
Definition claim_trial_indices (base : Z) (lanes : nat) (s : RouteState)
    : option (list Z * RouteState) :=
  let start := Z.min u64_max (base + trial_cursor s) in
  let! cursor := checked 0 u64_max (trial_cursor s + Z.of_nat lanes) in
  if bool_decide (lanes = 0%nat) || (start + (Z.of_nat lanes - 1) <=? u64_max) then
    Some ((fun i => start + Z.of_nat i) <$> seq 0 lanes, set_trial_cursor cursor s)
  else None.

(** Remember a value per episode of a reset batch. *)
Definition note_all (m : gmap string Z) (ids : list string) (values : list Z) : gmap string Z :=
  fold_left (fun m '(id, v) => <[id := v]> m) (zip ids values) m.

Definition note_episode_trials (ids : list string) (trials : list Z) (s : RouteState) : RouteState :=
  set_trial_by_episode (note_all (trial_by_episode s) ids trials) s.

Definition note_episode_seeds (ids : list string) (seeds : list Z) (s : RouteState) : RouteState :=
  set_seed_by_episode (note_all (seed_by_episode s) ids seeds) s.

Definition trial_for_episode (id : string) (s : RouteState) : option Z := trial_by_episode s !! id.
Definition seed_for_episode (id : string) (s : RouteState) : option Z := seed_by_episode s !! id.

(** [first..last]. *)
Definition z_range (first last : Z) : list Z :=
  (fun i => first + Z.of_nat i) <$> seq 0 (Z.to_nat (last - first)).

Definition claim_slots (count : nat) (bounded : bool) (s : RouteState)
    : option (option (list Z) * RouteState) :=
  let first := next_slot s in
  let! last := checked 0 u64_max (first + Z.of_nat count) in
  if bounded && match max_episodes s with Some max => max <? last | None => false end
  then Some (None, s)
  else Some (Some (z_range first last), set_next_slot last s).

Definition claim_slots_upto (count : nat) (s : RouteState) : option (list Z * RouteState) :=
  let first := next_slot s in
  let remaining :=
    match max_episodes s with Some max => sat_sub max first | None => Z.of_nat count end in
  let! last := checked 0 u64_max (first + Z.min (Z.of_nat count) remaining) in
  Some (z_range first last, set_next_slot last s).

Definition mark_surplus (id : string) (s : RouteState) : RouteState :=
  set_surplus ({[id]} ∪ surplus s) s.

Definition is_surplus (id : string) (s : RouteState) : bool := bool_decide (id ∈ surplus s).

(** ** Reading slots *)

Definition slot_position (env_index : Z) (s : RouteState) : option nat :=
  if env_index <=? i32_max
  then fst <$> list_find (fun slot => slot_env_index slot = env_index) (slots s)
  else None.

Definition episode_id_at (env_index : Z) (s : RouteState) : option string :=
  let! position := slot_position env_index s in
  let! slot := slots s !! position in
  let! episode := slot_episode slot in
  Some (es_episode_id episode).

Definition all_surplus_at (positions : list nat) (s : RouteState) : bool :=
  forallb (fun position =>
    match slots s !! position with
    | Some slot =>
        match slot_episode slot with
        | Some episode => bool_decide (es_episode_id episode ∈ surplus s)
        | None => false
        end
    | None => false
    end) positions.

(** [x / y], rounded to nearest. *)
Definition f64_div (x y : f64) : f64 := f64_of_sf (SFdiv 53 1024 (sf64 x) (sf64 y)).

Definition per_step (ns step : Z) : f64 :=
  f64_div (f64_div (f64_of_Z ns) (f64_of_Z 1000000)) (f64_of_Z step).

Definition slot_timings_ms (env_index : Z) (s : RouteState) : option f64 * option f64 :=
  match slot_position env_index s ≫= (fun p => slots s !! p) with
  | None => (None, None)
  | Some slot =>
      if slot_step slot <=? 0 then (None, None)
      else (Some (per_step (slot_predict_ns slot) (slot_step slot)),
            Some (per_step (slot_step_ns slot) (slot_step slot)))
  end.

Definition record_episode_summary (summary : EpisodeSummary) (s : RouteState) : RouteState :=
  set_episode_summaries (episode_summaries s ++ [summary]) s.

Definition take_episode_summaries (s : RouteState) : list EpisodeSummary * RouteState :=
  (episode_summaries s, set_episode_summaries [] s).

Definition slots_at (positions : list nat) (s : RouteState) : list SlotState :=
  omap (fun position => slots s !! position) positions.

Definition slot_episode_id (slot : SlotState) : string :=
  match slot_episode slot with Some e => es_episode_id e | None => "" end.
Definition slot_record_id (slot : SlotState) : string :=
  match slot_episode slot with Some e => es_episode_record_id e | None => "" end.

Definition episode_ids_at (positions : list nat) (s : RouteState) : list string :=
  slot_episode_id <$> slots_at positions s.

Definition snapshot_at (positions : list nat) (s : RouteState) : RouteSnapshot :=
  let slots := slots_at positions s in
  let episode_ids := slot_episode_id <$> slots in
  let episode_record_ids := slot_record_id <$> slots in
  let primary := head slots in
  mkSnapshot (default "" (head episode_ids)) (default "" (head episode_record_ids)) episode_ids
    episode_record_ids
    (match primary with Some slot => slot_step slot | None => 0 end)
    (match primary with Some slot => slot_env_index slot | None => 0 end)
    (match primary with Some slot => slot_reset slot | None => false end).

Record RuntimeEnvContext : Type := mkContext {
  ctx_env_id : string;
  ctx_env_component_id : string;
  ctx_model_component_id : string;
  ctx_lane : option Z;
}.

Definition env_context (s : RouteState) : RuntimeEnvContext :=
  let who := route_ids s in
  mkContext (env_id who) (env_component_id who) (model_component_id who) None.

Definition group_context (positions : list nat) (lane_group : bool) (s : RouteState)
    : RuntimeEnvContext :=
  let who := route_ids s in
  mkContext (env_id who) (env_component_id who) (model_component_id who)
    (if lane_group then
       let! position := head positions in
       let! slot := slots s !! position in
       if 0 <=? slot_env_index slot then Some (slot_env_index slot) else None
     else None).

(** ** Advancing slots *)

(** The model-side flags a slot carries over, and the slot a sync leaves. *)
Definition carried_flags (id : string) (slot : SlotState) : bool * bool :=
  match slot_episode slot with
  | Some previous =>
      if bool_decide (es_episode_id previous = id) then (es_predicted previous, es_ended previous)
      else (false, false)
  | None => (false, false)
  end.

Definition rolled (id : string) (slot : SlotState) : bool :=
  negb (is_empty id) && negb (bool_decide (id = slot_episode_id slot)).

Definition sync_slot (now : clock_read) (registry : EpisodeRecordRegistry) (id rid : string)
    (reset_steps auto_reset : bool) (slot : SlotState) : SlotState :=
  let (predicted, ended) := carried_flags id slot in
  let episode :=
    if is_empty id then None
    else
      let index := match record_for id registry with Some record => rec_index record | None => 0 end in
      Some (mkEpisodeState id rid index auto_reset predicted ended) in
  if reset_steps || rolled id slot
  then mkSlot (slot_env_index slot) episode 0 true f64_zero (now_unix_ns now) 0 0
  else mkSlot (slot_env_index slot) episode (slot_step slot) (slot_reset slot)
         (slot_cumulative_reward slot) (slot_started_at_ns slot) (slot_predict_ns slot)
         (slot_step_ns slot).

(** What a lane that rolls forgets about the episode it held. *)
Definition forget_episode (id : string) (s : RouteState) : RouteState :=
  set_surplus (surplus s ∖ {[id]})
    (set_trial_by_episode (delete id (trial_by_episode s))
      (set_seed_by_episode (delete id (seed_by_episode s)) s)).

(** One round of the loop of [sync_slots], at the group's row [index]. *)
Definition sync_position (now : nat -> clock_read) (ids rids : list string)
    (reset_steps auto_reset : bool) (index position : nat) (s : RouteState) : RouteState :=
  match slots s !! position with
  | None => s
  | Some slot =>
      let id := default "" (ids !! index) in
      let rid := default "" (rids !! index) in
      let previous := slot_episode_id slot in
      let s := if rolled id slot && negb (is_empty previous) then forget_episode previous s else s in
      set_slots
        (<[position := sync_slot (now index) (records s) id rid reset_steps auto_reset slot]> (slots s)) s
  end.

Fixpoint sync_loop (now : nat -> clock_read) (ids rids : list string)
    (reset_steps auto_reset : bool) (index : nat) (positions : list nat) (s : RouteState)
    : RouteState :=
  match positions with
  | [] => s
  | position :: positions =>
      sync_loop now ids rids reset_steps auto_reset (S index) positions
        (sync_position now ids rids reset_steps auto_reset index position s)
  end.

Definition sync_slots (now : nat -> clock_read) (positions : list nat) (ids rids : list string)
    (reset_steps auto_reset : bool) (s : RouteState) : RouteState :=
  sync_loop now ids rids reset_steps auto_reset 0 positions s.

(** [slot as i64 + 1]. *)
Definition episode_index_of (slot : Z) : option Z := checked_i64 (wrap_s 64 slot + 1).

(** The episode index each row asks for. *)
Definition row_index (claimed : list (option Z)) (row : nat) : option (option Z) :=
  match mjoin (claimed !! row) with
  | Some slot => let! index := episode_index_of slot in Some (Some index)
  | None => Some None
  end.

Definition row_indices (positions : list nat) (claimed : list (option Z)) : option (list (option Z)) :=
  mapM (row_index claimed) (seq 0 (length positions)).

Definition started_episodes (started : list (string * EpisodeRecord)) : list StartedEpisode :=
  (fun '(id, record) => mkStarted id record) <$> started.

Definition start_episodes_at (now : nat -> clock_read) (positions : list nat) (ids : list string)
    (auto_reset : bool) (claimed : list Z) (s : RouteState)
    : option (list StartedEpisode * RouteState) :=
  let! indices := row_indices positions (Some <$> claimed) in
  let! (rids, started, registry) := ensure_for_slots ids auto_reset indices (records s) in
  Some (started_episodes started,
        sync_slots now positions ids rids true auto_reset (set_records registry s)).

Definition observe_episode_ids_at (now : nat -> clock_read) (positions : list nat)
    (ids : list string) (claimed : list (option Z)) (s : RouteState)
    : option (list StartedEpisode * RouteState) :=
  let! indices := row_indices positions claimed in
  let! (rids, started, registry) := ensure_for_slots ids true indices (records s) in
  Some (started_episodes started,
        sync_slots now positions ids rids false true (set_records registry s)).

(** A slot advanced by one step; durations are in nanoseconds, cast to [u64]. *)
Definition step_slot (reward : f64) (step predict : Z) (slot : SlotState) : option SlotState :=
  let! count := checked_i64 (slot_step slot + 1) in
  let! step_ns := checked 0 u64_max (slot_step_ns slot + wrap_u 64 step) in
  let! predict_ns := checked 0 u64_max (slot_predict_ns slot + wrap_u 64 predict) in
  Some (mkSlot (slot_env_index slot) (slot_episode slot) count false
          (f64_add (slot_cumulative_reward slot) reward) (slot_started_at_ns slot) predict_ns step_ns).

Fixpoint record_steps (rewards : list f64) (step predict : Z) (row : nat) (positions : list nat)
    (all : list SlotState) : option (list SlotState) :=
  match positions with
  | [] => Some all
  | position :: positions =>
      match all !! position with
      | None => record_steps rewards step predict (S row) positions all
      | Some slot =>
          let! slot := step_slot (default f64_zero (rewards !! row)) step predict slot in
          record_steps rewards step predict (S row) positions (<[position := slot]> all)
      end
  end.

Definition record_step_at (positions : list nat) (rewards : list f64) (step predict : Z)
    (s : RouteState) : option RouteState :=
  let! total := checked_i64 (total_steps s + 1) in
  let! all := record_steps rewards step predict 0 positions (slots s) in
  Some (set_slots all (set_total_steps total s)).

Definition complete_episode (id : string) (s : RouteState)
    : option (option EpisodeRecord * RouteState) :=
  let! total := checked_i64 (total_episodes s + 1) in
  Some (record_for id (records s), set_total_episodes total s).

(** ** The model-side lifecycle of an episode *)

Definition mark_ended (e : EpisodeState) : EpisodeState :=
  mkEpisodeState (es_episode_id e) (es_episode_record_id e) (es_episode_index e)
    (es_started_from_auto_reset e) (es_predicted e) true.

Definition mark_episode_predicted (e : EpisodeState) : EpisodeState :=
  mkEpisodeState (es_episode_id e) (es_episode_record_id e) (es_episode_index e)
    (es_started_from_auto_reset e) true (es_ended e).

Definition set_episode (episode : option EpisodeState) (slot : SlotState) : SlotState :=
  mkSlot (slot_env_index slot) episode (slot_step slot) (slot_reset slot)
    (slot_cumulative_reward slot) (slot_started_at_ns slot) (slot_predict_ns slot)
    (slot_step_ns slot).

Definition end_episode_at (env_index : Z) (s : RouteState) : option string * RouteState :=
  match (let! position := slot_position env_index s in
         let! slot := slots s !! position in
         let! episode := slot_episode slot in
         Some (position, slot, episode)) with
  | None => (None, s)
  | Some (position, slot, episode) =>
      if es_ended episode then (None, s)
      else (Some (es_episode_id episode),
            set_slots (<[position := set_episode (Some (mark_ended episode)) slot]> (slots s)) s)
  end.

(** The id a slot yields at teardown, and the slot it leaves. *)
Definition end_live (slot : SlotState) : option string * SlotState :=
  match slot_episode slot with
  | Some episode =>
      if es_predicted episode && negb (es_ended episode)
      then (Some (es_episode_id episode), set_episode (Some (mark_ended episode)) slot)
      else (None, slot)
  | None => (None, slot)
  end.

Definition end_live_episodes (s : RouteState) : list string * RouteState :=
  (omap (fun slot => fst (end_live slot)) (slots s),
   set_slots ((fun slot => snd (end_live slot)) <$> slots s) s).

Definition predict_slot (slot : SlotState) : SlotState :=
  match slot_episode slot with
  | Some episode => set_episode (Some (mark_episode_predicted episode)) slot
  | None => slot
  end.

Definition mark_predicted (positions : list nat) (s : RouteState) : RouteState :=
  set_slots (fold_left (fun all position => alter predict_slot position all) positions (slots s)) s.

(** ** Requests *)

Definition next_request_id (phase : string) (s : RouteState) : option (string * RouteState) :=
  let! seq := checked 0 u64_max (request_seq s + 1) in
  Some (env_id (route_ids s) +:+ ":" +:+ phase +:+ ":" +:+ fmt06 seq, set_request_seq seq s).

Record AdapterContext : Type := mkAdapterContext {
  ac_session_id : string;
  ac_env_id : string;
  ac_request_id : string;
}.

#[export] Instance AdapterContext_eq_dec : EqDecision AdapterContext.
Proof. solve_decision. Defined.

Record EpisodeInfo : Type := mkEpisodeInfo { ei_episode_id : string; ei_seed : option Z }.

(** An encoded value is its leaves ([leaves_value]); the route only passes it on. *)
Definition ValueLeaves : Type := list (list byte).

Record ObservationHistoryFrame : Type := mkFrame {
  frame_observation : option ValueLeaves;
  frame_episode_info : list EpisodeInfo;
  frame_step : Z;
}.

(** [PredictRequest]; the history of a chunked model is filled in by the driver, and
    [step] is left unset. *)
Record PredictRequest : Type := mkPredict {
  pr_context : AdapterContext;
  pr_observation : option ValueLeaves;
  pr_episode_info : list EpisodeInfo;
  pr_history : list ObservationHistoryFrame;
  pr_step : option Z;
}.

Record ResetAdapterRequest : Type := mkResetAdapter {
  rar_context : AdapterContext;
  rar_episode_ids : list string;
}.

Record ReleaseAdapterRequest : Type := mkReleaseAdapter {
  rel_context : AdapterContext;
  rel_reason : string;
}.

Definition adapter_context (phase : string) (s : RouteState) : option (AdapterContext * RouteState) :=
  let! (request_id, s) := next_request_id phase s in
  Some (mkAdapterContext (session_id (route_ids s)) (env_id (route_ids s)) request_id, s).

Definition predict_request_at (positions : list nat) (observation : option ValueLeaves)
    (phase : RequestPhase) (s : RouteState) : option (PredictRequest * RouteState) :=
  let info := (fun id => mkEpisodeInfo id (seed_for_episode id s)) <$> episode_ids_at positions s in
  let! (context, s) := adapter_context (phase_str phase) s in
  Some (mkPredict context observation info [] None, s).

Definition reset_adapter_request (ids : list string) (s : RouteState)
    : option (ResetAdapterRequest * RouteState) :=
  let! (context, s) := adapter_context "reset_adapter" s in
  Some (mkResetAdapter context ids, s).

Definition release_adapter_request (reason : string) (s : RouteState)
    : option (ReleaseAdapterRequest * RouteState) :=
  let! (context, s) := adapter_context "release_adapter" s in
  Some (mkReleaseAdapter context reason, s).

(** ** Claims *)

(** The claims a driver makes of the route's episode slots. *)
Inductive Claim : Type :=
  | ClaimAll (count : nat)
  | ClaimUpto (count : nat).

Definition claim (c : Claim) (s : RouteState) : option (list Z * RouteState) :=
  match c with
  | ClaimAll count =>
      let! (claimed, s) := claim_slots count true s in Some (default [] claimed, s)
  | ClaimUpto count => claim_slots_upto count s
  end.

Fixpoint claim_all (cs : list Claim) (s : RouteState) : option (list Z * RouteState) :=
  match cs with
  | [] => Some ([], s)
  | c :: cs =>
      let! (claimed, s) := claim c s in
      let! (rest, s) := claim_all cs s in
      Some (claimed ++ rest, s)
  end.

(** The trial ordinals of a sequence of resets of the given widths. *)
Fixpoint claim_trials (base : Z) (widths : list nat) (s : RouteState)
    : option (list Z * RouteState) :=
  match widths with
  | [] => Some ([], s)
  | lanes :: widths =>
      let! (trials, s) := claim_trial_indices base lanes s in
      let! (rest, s) := claim_trials base widths s in
      Some (trials ++ rest, s)
  end.

Definition within_budget (s : RouteState) : Prop :=
  match max_episodes s with Some max => next_slot s <= max | None => True end.

Lemma length_z_range a b : length (z_range a b) = Z.to_nat (b - a).
Proof. unfold z_range. by rewrite length_fmap, length_seq. Qed.

Lemma lookup_z_range a b i :
  z_range a b !! i = if decide (i < Z.to_nat (b - a))%nat then Some (a + Z.of_nat i) else None.
Proof.
  unfold z_range. rewrite list_lookup_fmap. case_decide as Hi.
  - rewrite lookup_seq_lt by done. done.
  - rewrite lookup_seq_ge by lia. done.
Qed.

Lemma z_range_app a b c : a <= b -> b <= c -> z_range a b ++ z_range b c = z_range a c.
Proof.
  intros Hab Hbc. apply list_eq. intros i. rewrite lookup_app, !lookup_z_range, length_z_range.
  repeat case_decide; try lia; try done; f_equal; lia.
Qed.

Lemma NoDup_z_range a b : NoDup (z_range a b).
Proof.
  apply NoDup_fmap_2_strong; [intros x y _ _ Hxy; lia | apply NoDup_seq].
Qed.

Lemma claim_next c s claimed s' :
  0 <= next_slot s -> within_budget s -> claim c s = Some (claimed, s') ->
  claimed = z_range (next_slot s) (next_slot s') /\ next_slot s <= next_slot s' /\
  max_episodes s' = max_episodes s /\ within_budget s'.
Proof.
  intros Hpos Hin H. unfold within_budget, claim, claim_slots, claim_slots_upto, checked, sat_sub in *.
  destruct c as [count|count]; destruct (max_episodes s) as [max|] eqn:Hmax; simpl in *;
    repeat case_match; simplify_eq/=; rewrite ?Hmax;
    (split_and!; [| lia | done | lia || done]); try done.
  unfold z_range. by rewrite Z.sub_diag.
Qed.

Lemma claim_all_next cs s claimed s' :
  0 <= next_slot s -> within_budget s -> claim_all cs s = Some (claimed, s') ->
  claimed = z_range (next_slot s) (next_slot s') /\ next_slot s <= next_slot s' /\
  max_episodes s' = max_episodes s /\ within_budget s'.
Proof.
  revert s claimed. induction cs as [|c cs IH]; simpl; intros s claimed Hpos Hin H.
  - simplify_eq. split_and!; [|lia|done..]. unfold z_range. by rewrite Z.sub_diag.
  - destruct (claim c s) as [[here s1]|] eqn:Hc; simpl in H; [|done].
    destruct (claim_all cs s1) as [[rest s2]|] eqn:Hcs; simpl in H; simplify_eq.
    apply claim_next in Hc as (-> & Hle & Hmax & Hin1); [|done..].
    apply IH in Hcs as (-> & Hle' & Hmax' & Hin'); [|lia|done].
    split_and!; [by apply z_range_app | lia | congruence | done].
Qed.

(** Over any sequence of bounded episode claims a route makes (whole groups, refused
    once any of them would fall past the budget, and partial ones), the slots handed out
    are exactly [0, 1, ..., n-1]: contiguous from zero in claim order, each once, never
    more than [max_episodes]; and a partial claim comes up short only by exhausting
    the budget. *)
Theorem claims_fill_budget now who num_envs budget cs count claimed s more s' :
  (forall max, budget = Some max -> 0 <= max) ->
  claim_all cs (route_new now who num_envs budget) = Some (claimed, s) ->
  claim_slots_upto count s = Some (more, s') ->
  claimed ++ more = z_range 0 (next_slot s') /\ NoDup (claimed ++ more) /\
  (forall max, budget = Some max -> Z.of_nat (length (claimed ++ more)) <= max) /\
  ((length more < count)%nat -> budget = Some (next_slot s')).
Proof.
  intros Hbudget Hcs Hmore.
  apply claim_all_next in Hcs as (-> & Hle & Hmax & Hin); [|simpl; lia|];
    [|unfold within_budget; simpl; destruct budget; [by apply Hbudget|done]].
  pose proof Hmore as Hm. apply (claim_next (ClaimUpto count)) in Hm as (-> & Hle' & Hmax' & Hin');
    [|simpl in *; lia|done].
  simpl in *. rewrite z_range_app by lia.
  rewrite !length_z_range. split_and!; [done | apply NoDup_z_range | |].
  - intros max ->. unfold within_budget in Hin'. rewrite Hmax', Hmax in Hin'. lia.
  - intros Hshort. unfold claim_slots_upto, sat_sub in Hmore. rewrite Hmax in Hmore.
    unfold within_budget in Hin. rewrite Hmax in Hin.
    destruct (checked _ _ _) eqn:Hc in Hmore; simplify_eq/=. apply checked_Some in Hc as [-> _].
    destruct (max_episodes s); [f_equal|]; lia.
Qed.

Definition route_a : RouteState :=
  route_new (fun _ => None) (mkIds "session" "env" "env-c" "model-c") 4 (Some 3).

Lemma claims_fill_budget_witness :
  claim_all [ClaimAll 2; ClaimAll 2] route_a = Some ([0; 1], set_next_slot 2 route_a) /\
  [0; 1] ++ [2] = z_range 0 3 /\ NoDup ([0; 1] ++ [2]).
Proof.
  split; [reflexivity|].
  destruct (claims_fill_budget (fun _ => None) (mkIds "session" "env" "env-c" "model-c") 4 (Some 3)
    [ClaimAll 2; ClaimAll 2] 4 [0; 1] (set_next_slot 2 route_a) [2] (set_next_slot 3 route_a))
    as (Heq & Hnd & _); [intros max [= <-]; lia | reflexivity | reflexivity | done].
Defined.

Definition total_width (widths : list nat) : Z := Z.of_nat (sum_list widths).

Lemma claim_trials_from base widths s :
  0 <= base -> 0 <= trial_cursor s -> base + trial_cursor s + total_width widths <= u64_max ->
  exists s', claim_trials base widths s =
      Some (z_range (base + trial_cursor s) (base + trial_cursor s + total_width widths), s') /\
    trial_cursor s' = trial_cursor s + total_width widths.
Proof.
  unfold total_width. revert s. induction widths as [|w widths IH]; simpl; intros s Hb Hc Hle.
  { exists s. rewrite !Z.add_0_r. unfold z_range. by rewrite Z.sub_diag. }
  unfold claim_trial_indices. rewrite checked_in by lia. simpl. rewrite Z.min_r by lia.
  rewrite (proj2 (Z.leb_le _ u64_max)), orb_true_r by lia. simpl.
  destruct (IH (set_trial_cursor (trial_cursor s + Z.of_nat w) s)) as (s' & -> & Hcur);
    simpl in *; [lia..|].
  exists s'. split; [|lia]. do 2 f_equal.
  rewrite <- (z_range_app (base + trial_cursor s) (base + (trial_cursor s + Z.of_nat w))) by lia.
  f_equal; [unfold z_range; do 2 f_equal; lia | f_equal; lia].
Qed.

(** The resets of a route take consecutive trial ordinals from its base, one per
    restarted lane: whatever their widths, the ordinals are exactly
    [base, ..., base + total - 1], so no two episodes share one and a route with budget
    [M] leaves [base + M] to the next shard.  (The base is at most [u64::MAX] less the
    lanes restarted, below which the count cannot overflow.) *)
Theorem trial_ordinals_contiguous now who num_envs budget base widths :
  0 <= base -> base + total_width widths <= u64_max ->
  exists s', claim_trials base widths (route_new now who num_envs budget) =
      Some (z_range base (base + total_width widths), s') /\
    NoDup (z_range base (base + total_width widths)).
Proof.
  intros Hb Hle.
  destruct (claim_trials_from base widths (route_new now who num_envs budget)) as (s' & Heq & _);
    simpl; [lia..|]. rewrite Heq. simpl. rewrite Z.add_0_r. eauto using NoDup_z_range.
Qed.

Lemma trial_ordinals_contiguous_witness :
  exists s', claim_trials 100 [2; 1; 2]%nat route_a = Some ([100; 101; 102; 103; 104], s').
Proof.
  destruct (trial_ordinals_contiguous (fun _ => None) (mkIds "session" "env" "env-c" "model-c") 4
    (Some 3) 100 [2; 1; 2]%nat) as (s' & Heq & _); [lia | done | exists s'; exact Heq].
Defined.

(** At the top of the range the saturating base hands the same trial ordinal to two
    episodes, where the documentation says no two episodes ever share one. *)
Theorem trial_ordinals_repeat :
  exists s', claim_trials u64_max [1; 1]%nat route_a = Some ([u64_max; u64_max], s').
Proof. eexists. reflexivity. Qed.

(** ** Records *)

(** The record id an id resolves to, and the ids a round of [ensure_for_slots] starts. *)
Definition resolved (r : EpisodeRecordRegistry) (id : string) : string :=
  if is_empty id then "" else match record_for id r with Some rec => record_id rec | None => "" end.

Lemma ensure_one_spec auto indices row id r rid new r' :
  ensure_one auto indices row id r = Some (rid, new, r') ->
  by_episode_id r ⊆ by_episode_id r' /\ rid = resolved r' id /\
  (is_empty id = false -> is_Some (record_for id r')) /\
  match new with
  | Some _ => is_empty id = false /\ record_for id r = None
  | None => r' = r
  end /\
  (forall x, record_for x r = None -> x <> id -> record_for x r' = None).
Proof.
  unfold ensure_one, resolved, record_for. intros H.
  destruct (is_empty id) eqn:He; simplify_eq; [done|].
  destruct (by_episode_id r !! id) as [rec|] eqn:Hid; simplify_eq.
  - rewrite Hid. eauto.
  - destruct (checked_i64 _) as [next|]; simplify_eq/=. rewrite lookup_insert_eq.
    split_and!; eauto.
    + by apply insert_subseteq.
    + intros x Hx Hne. by rewrite lookup_insert_ne.
Qed.

Lemma resolved_mono r r' id :
  by_episode_id r ⊆ by_episode_id r' -> (is_empty id = false -> is_Some (record_for id r)) ->
  resolved r' id = resolved r id.
Proof.
  unfold resolved, record_for. intros Hsub Hid. destruct (is_empty id); [done|].
  destruct (Hid eq_refl) as [rec Hrec]. by rewrite Hrec, (lookup_weaken _ _ _ _ Hrec Hsub).
Qed.

Lemma ensure_loop_spec auto indices ids : forall row r rids started r',
  ensure_loop auto indices row ids r = Some (rids, started, r') ->
  by_episode_id r ⊆ by_episode_id r' /\ rids = resolved r' <$> ids /\
  Forall (fun id => is_empty id = false -> is_Some (record_for id r')) ids /\
  NoDup started.*1 /\
  (forall id, id ∈ started.*1 <-> id ∈ ids /\ is_empty id = false /\ record_for id r = None).
Proof.
  induction ids as [|id ids IH]; simpl; intros row r rids started r' H.
  { simplify_eq/=. split_and!; [done|done|constructor|constructor|].
    intros id. rewrite elem_of_nil. naive_solver. }
  destruct (ensure_one _ _ _ _ _) as [[[rid new] r1]|] eqn:H1; simpl in H; [|done].
  destruct (ensure_loop _ _ _ _ _) as [[[rids1 rest] r2]|] eqn:H2; simplify_eq/=.
  apply ensure_one_spec in H1 as (Hs1 & -> & Hid & Hnew & Hold).
  apply IH in H2 as (Hs2 & -> & Hall & Hnd & Hrest). clear IH.
  split_and!; [by etrans | f_equal; symmetry; by apply resolved_mono | | |].
  - constructor; [|done]. intros He. destruct (Hid He) as [rec Hrec]. exists rec.
    by apply (lookup_weaken _ _ _ _ Hrec Hs2).
  - rewrite fmap_app. destruct new as [rec|]; simpl; [|done]. constructor; [|done].
    rewrite Hrest. intros (_ & He & Hn). destruct (Hid He) as [? Hsome]. congruence.
  - intros x. rewrite fmap_app, elem_of_app, Hrest, elem_of_cons.
    destruct (decide (x = id)) as [->|Hne].
    + destruct new as [rec|]; simpl; rewrite ?list_elem_of_singleton, ?elem_of_nil; [naive_solver|].
      subst r1. split; [intros [[]|?]; tauto |]. intros (_ & He & Hn).
      destruct (Hid He) as [? Hsome]. congruence.
    + assert (record_for x r1 = None <-> record_for x r = None) as ->.
      { split; [|by eauto]. unfold record_for. intros Hx. destruct (by_episode_id r !! x) eqn:Hr; [|done].
        rewrite (lookup_weaken _ _ _ _ Hr Hs1) in Hx. done. }
      destruct new; simpl; rewrite ?list_elem_of_singleton, ?elem_of_nil; naive_solver.
Qed.

Lemma ensure_loop_known auto indices ids : forall row r,
  Forall (fun id => is_empty id = false -> is_Some (record_for id r)) ids ->
  ensure_loop auto indices row ids r = Some (resolved r <$> ids, [], r).
Proof.
  induction ids as [|id ids IH]; simpl; intros row r Hall; [done|]. inv Hall as [|? ? Hid Hall'].
  assert (ensure_one auto indices row id r = Some (resolved r id, None, r)) as ->.
  { unfold ensure_one, resolved, record_for in *. destruct (is_empty id); [done|].
    destruct (Hid eq_refl) as [rec Hrec]. by rewrite Hrec. }
  simpl. by rewrite IH.
Qed.

(** The record registry is stable and idempotent.  Ensuring records for a batch of
    episode ids keeps every earlier record, gives each row the record id of its own
    episode (none for an empty row), reports as started exactly the ids that had no
    record, each once even if it appears on several rows, and observing the same batch
    again, whatever its indices, starts nothing and changes nothing. *)
Theorem registry_idempotent ids auto indices r rids started r' :
  ensure_for_slots ids auto indices r = Some (rids, started, r') ->
  by_episode_id r ⊆ by_episode_id r' /\ rids = resolved r' <$> ids /\
  NoDup started.*1 /\
  (forall id, id ∈ started.*1 <-> id ∈ ids /\ is_empty id = false /\ record_for id r = None) /\
  (forall auto' indices', ensure_for_slots ids auto' indices' r' = Some (rids, [], r')).
Proof.
  intros H. apply ensure_loop_spec in H as (Hsub & -> & Hall & Hnd & Hst).
  split_and!; try done. intros auto' indices'. by apply ensure_loop_known.
Qed.

Lemma registry_idempotent_witness :
  NoDup (["a"; "b"] : list string) /\
  exists r', ensure_for_slots ["a"; "b"; "a"] true [] r' = Some (["ep-000001"; "ep-000002"; "ep-000001"], [], r').
Proof.
  destruct (ensure_for_slots ["a"; "b"; "a"] false [] registry_new) as [[[rids started] r']|] eqn:H;
    [|discriminate H].
  pose proof (registry_idempotent _ _ _ _ _ _ _ H) as (_ & _ & Hnd & _ & Hagain).
  injection H as <- <- <-. split; [exact Hnd | eexists; apply Hagain].
Defined.

(** ** The model-side lifecycle of a route's episodes *)

(** What a lane shows of its episode: its id, whether a predict carried it and whether
    its end was announced. *)
Record Held : Type := mkHeld { held_id : string; held_predicted : bool; held_ended : bool }.

Definition held_of (e : EpisodeState) : Held :=
  mkHeld (es_episode_id e) (es_predicted e) (es_ended e).
Definition view (s : RouteState) : list (option Held) :=
  (fun slot => held_of <$> slot_episode slot) <$> slots s.

(** A row of a sync on the view. *)
Definition sync_held (id : string) (h : option Held) : option Held :=
  if is_empty id then None
  else
    match h with
    | Some e => if bool_decide (held_id e = id) then h else Some (mkHeld id false false)
    | None => Some (mkHeld id false false)
    end.

(** The operations of a route that bear on the lifecycle, with the ids they announce
    as ended to the model. *)
Inductive RouteOp : Type :=
  | OpStart (now : nat -> clock_read) (positions : list nat) (ids : list string) (auto : bool)
      (claimed : list Z)
  | OpObserve (now : nat -> clock_read) (positions : list nat) (ids : list string)
      (claimed : list (option Z))
  | OpStep (positions : list nat) (rewards : list f64) (step predict : Z)
  | OpComplete (id : string)
  | OpPredict (positions : list nat)
  | OpEnd (env_index : Z).

Definition run_op (op : RouteOp) (s : RouteState) : option (list string * RouteState) :=
  match op with
  | OpStart now positions ids auto claimed =>
      let! (_, s) := start_episodes_at now positions ids auto claimed s in Some ([], s)
  | OpObserve now positions ids claimed =>
      let! (_, s) := observe_episode_ids_at now positions ids claimed s in Some ([], s)
  | OpStep positions rewards step predict =>
      let! s := record_step_at positions rewards step predict s in Some ([], s)
  | OpComplete id => let! (_, s) := complete_episode id s in Some ([], s)
  | OpPredict positions => Some ([], mark_predicted positions s)
  | OpEnd env_index =>
      let (id, s) := end_episode_at env_index s in Some (option_list id, s)
  end.

(** The rows an operation assigns to lanes, and the ids a predict carries. *)
Definition rows_from (index : nat) (positions : list nat) (ids : list string)
    : list (nat * string) :=
  imap (fun i p => (p, default "" (ids !! (index + i)%nat))) positions.

Definition rows (op : RouteOp) : list (nat * string) :=
  match op with
  | OpStart _ positions ids _ _ | OpObserve _ positions ids _ => rows_from 0 positions ids
  | _ => []
  end.

Definition holds (v : list (option Held)) (p : nat) : option string := held_id <$> mjoin (v !! p).

Definition carried (op : RouteOp) (s : RouteState) : list string :=
  match op with
  | OpPredict positions => omap (holds (view s)) positions
  | _ => []
  end.

(** A row may keep the lane's episode, clear the lane or bring an id never seen before;
    a lane gives up an episode only once it ended, or if no predict ever carried it. *)
Definition row_ok (seen : gset string) (h : option Held) (id : string) : Prop :=
  (is_empty id = true \/ held_id <$> h = Some id \/ id ∉ seen) /\
  match h with
  | Some e => held_id e = id \/ held_ended e = true \/ held_predicted e = false
  | None => True
  end.

Fixpoint rows_ok (seen : gset string) (v : list (option Held)) (rs : list (nat * string)) : Prop :=
  match rs with
  | [] => True
  | (p, id) :: rs =>
      match v !! p with Some h => row_ok seen h id | None => True end /\
      rows_ok (seen ∪ {[id]}) (alter (sync_held id) p v) rs
  end.

(** A route, the ids announced as ended so far, the ids it has ever held, and those
    a predict carried. *)
Inductive life : RouteState -> list string -> gset string -> list string -> Prop :=
  | life_new now who num_envs budget : life (route_new now who num_envs budget) [] ∅ []
  | life_op op s out s' ended seen predicted :
      life s ended seen predicted -> rows_ok seen (view s) (rows op) ->
      run_op op s = Some (out, s') ->
      life s' (ended ++ out) (seen ∪ list_to_set (rows op).*2) (predicted ++ carried op s).

(** *** The operations on the view *)

Lemma view_set_slots all s : view (set_slots all s) = (fun slot => held_of <$> slot_episode slot) <$> all.
Proof. done. Qed.

Lemma sync_slot_held now r id rid reset auto slot :
  held_of <$> slot_episode (sync_slot now r id rid reset auto slot) =
  sync_held id (held_of <$> slot_episode slot).
Proof.
  unfold sync_slot, carried_flags, sync_held. destruct (is_empty id) eqn:He.
  - repeat case_match; done.
  - destruct (slot_episode slot) as [e|]; simpl; [|repeat case_match; simplify_eq/=; done].
    destruct (bool_decide (es_episode_id e = id)) eqn:Hb; [apply bool_decide_eq_true in Hb|];
      repeat case_match; simplify_eq/=; done.
Qed.

Lemma view_sync_position now ids rids reset auto index p s :
  view (sync_position now ids rids reset auto index p s) =
  alter (sync_held (default "" (ids !! index))) p (view s).
Proof.
  unfold sync_position. destruct (slots s !! p) as [slot|] eqn:Hp.
  - assert (forall s0, slots s0 = slots s ->
      view (set_slots (<[p:=sync_slot (now index) (records s0) (default "" (ids !! index))
        (default "" (rids !! index)) reset auto slot]> (slots s0)) s0) =
      alter (sync_held (default "" (ids !! index))) p (view s)) as Hgen.
    { intros s0 Hs0. rewrite view_set_slots, list_fmap_insert, Hs0, sync_slot_held.
      apply list_eq. intros j. destruct (decide (p = j)) as [<-|Hne].
      - rewrite list_lookup_insert_eq by (rewrite length_fmap; by eapply lookup_lt_Some).
        unfold view. by rewrite list_lookup_alter_eq, list_lookup_fmap, Hp.
      - by rewrite list_lookup_alter_ne, list_lookup_insert_ne. }
    cbv zeta. destruct (rolled _ _ && _); by apply Hgen.
  - apply list_eq. intros j. destruct (decide (p = j)) as [<-|Hne].
    + rewrite list_lookup_alter_eq. unfold view. by rewrite list_lookup_fmap, Hp.
    + by rewrite list_lookup_alter_ne.
Qed.

(** The view after the rows of a sync. *)
Fixpoint sync_rows (rs : list (nat * string)) (v : list (option Held)) : list (option Held) :=
  match rs with
  | [] => v
  | (p, id) :: rs => sync_rows rs (alter (sync_held id) p v)
  end.

Lemma view_sync_loop now ids rids reset auto positions : forall index s,
  view (sync_loop now ids rids reset auto index positions s) =
  sync_rows (rows_from index positions ids) (view s).
Proof.
  induction positions as [|p positions IH]; simpl; intros index s; [done|].
  rewrite IH, view_sync_position, Nat.add_0_r. f_equal. apply imap_ext.
  intros i q _. simpl. do 3 f_equal. lia.
Qed.

Lemma record_steps_held rewards step predict positions : forall row all all',
  record_steps rewards step predict row positions all = Some all' ->
  (fun slot => held_of <$> slot_episode slot) <$> all' =
  (fun slot => held_of <$> slot_episode slot) <$> all.
Proof.
  induction positions as [|p positions IH]; simpl; intros row all all' H; [by simplify_eq|].
  destruct (all !! p) as [slot|] eqn:Hp; [|by apply IH in H].
  unfold step_slot in H.
  destruct (checked_i64 _); simpl in H; [|done].
  destruct (checked _ _ (slot_step_ns _ + _)); simpl in H; [|done].
  destruct (checked _ _ _); simpl in H; [|done].
  apply IH in H as ->. rewrite list_fmap_insert. apply list_insert_id. simpl.
  by rewrite list_lookup_fmap, Hp.
Qed.

Definition predict_held (h : option Held) : option Held :=
  (fun e => mkHeld (held_id e) true (held_ended e)) <$> h.
Definition end_held (h : option Held) : option Held :=
  (fun e => mkHeld (held_id e) (held_predicted e) true) <$> h.

Fixpoint predict_rows (positions : list nat) (v : list (option Held)) : list (option Held) :=
  match positions with
  | [] => v
  | p :: positions => predict_rows positions (alter predict_held p v)
  end.

Lemma view_mark_predicted positions s :
  view (mark_predicted positions s) = predict_rows positions (view s).
Proof.
  unfold mark_predicted. rewrite view_set_slots. unfold view. generalize (slots s) as all.
  induction positions as [|p positions IH]; simpl; intros all; [done|]. rewrite IH. f_equal.
  apply list_fmap_alter. apply Forall_true. intros slot. unfold predict_slot.
  destruct (slot_episode slot) eqn:He; simpl; by rewrite ?He.
Qed.

Lemma end_episode_at_view env_index s out s' :
  end_episode_at env_index s = (out, s') ->
  match out with
  | Some id => exists p e, view s !! p = Some (Some e) /\ held_id e = id /\ held_ended e = false /\
      view s' = alter end_held p (view s)
  | None => s' = s
  end.
Proof.
  unfold end_episode_at. intros H.
  destruct (slot_position env_index s) as [p|]; simplify_eq/=; [|done].
  destruct (slots s !! p) as [slot|] eqn:Hp; simplify_eq/=; [|done].
  destruct (slot_episode slot) as [e|] eqn:He; simplify_eq/=; [|done].
  destruct (es_ended e) eqn:Hend; simplify_eq/=; [done|].
  exists p, (held_of e).
  assert (view s !! p = Some (Some (held_of e))) as Hv.
  { unfold view. by rewrite list_lookup_fmap, Hp; simpl; rewrite He. }
  split_and!; try done. rewrite view_set_slots, list_fmap_insert. simpl.
  apply list_eq. intros j. destruct (decide (p = j)) as [<-|Hne].
  - rewrite list_lookup_alter_eq, Hv, list_lookup_insert_eq; [done|].
    rewrite length_fmap. by eapply lookup_lt_Some.
  - by rewrite list_lookup_alter_ne, list_lookup_insert_ne.
Qed.

(** *** The invariant *)

Record life_inv (v : list (option Held)) (ended : list string) (seen : gset string)
    (predicted : list string) : Prop := {
  inv_once : NoDup ended;
  inv_ended_seen : forall id, id ∈ ended -> id ∈ seen;
  inv_held_seen : forall p e, v !! p = Some (Some e) -> held_id e ∈ seen;
  inv_distinct : forall p q e f, v !! p = Some (Some e) -> v !! q = Some (Some f) ->
    held_id e = held_id f -> p = q;
  inv_flag_ended : forall p e, v !! p = Some (Some e) -> held_ended e = true <-> held_id e ∈ ended;
  inv_flag_predicted : forall p e, v !! p = Some (Some e) ->
    held_predicted e = true <-> held_id e ∈ predicted;
  inv_predicted : forall id, id ∈ predicted ->
    id ∈ seen /\ (id ∈ ended \/ exists p e, v !! p = Some (Some e) /\ held_id e = id);
}.

(** A lane of an altered view. *)
Lemma alter_cases (f : option Held -> option Held) (p q : nat) (v : list (option Held)) x :
  alter f p v !! q = Some x ->
  (p = q /\ exists h, v !! p = Some h /\ x = f h) \/ (p <> q /\ v !! q = Some x).
Proof.
  destruct (decide (p = q)) as [<-|Hne].
  - rewrite list_lookup_alter_eq. destruct (v !! p) as [h|] eqn:Hv; simpl; [|done].
    intros [= <-]. eauto.
  - rewrite list_lookup_alter_ne by done. eauto.
Qed.

(** An operation that keeps every lane's id keeps the part of the invariant about ids. *)
Lemma keep_holder (f : option Held -> option Held) (p : nat) (v : list (option Held)) (q : nat) e :
  (forall h, held_id <$> f h = held_id <$> h) -> v !! q = Some (Some e) ->
  exists e', alter f p v !! q = Some (Some e') /\ held_id e' = held_id e.
Proof.
  intros Hf Hq. destruct (decide (p = q)) as [<-|Hne].
  - rewrite list_lookup_alter_eq, Hq. simpl. specialize (Hf (Some e)).
    destruct (f (Some e)) as [e'|]; simplify_eq/=. eauto.
  - rewrite list_lookup_alter_ne by done. eauto.
Qed.

Lemma kept_holder (f : option Held -> option Held) (p : nat) (v : list (option Held)) (q : nat) e :
  (forall h, held_id <$> f h = held_id <$> h) -> alter f p v !! q = Some (Some e) ->
  exists e', v !! q = Some (Some e') /\ held_id e' = held_id e.
Proof.
  intros Hf [(<- & h & Hh & Hx)|[_ Hq]]%alter_cases; [|eauto].
  specialize (Hf h). rewrite <- Hx in Hf. destruct h; simplify_eq/=. eauto.
Qed.

(** What a lane holds after a row was there before, or is a fresh episode; and what it
    held before is there after, or ended, or never reached the model. *)
Lemma row_after seen (v : list (option Held)) p id q e :
  match v !! p with Some h => row_ok seen h id | None => True end ->
  alter (sync_held id) p v !! q = Some (Some e) ->
  v !! q = Some (Some e) \/ (q = p /\ e = mkHeld id false false /\ id ∉ seen).
Proof.
  intros Hok [(<- & h & Hh & Hx)|[_ Hq]]%alter_cases; [|by left]. rewrite Hh in *.
  unfold sync_held in Hx. destruct (is_empty id) eqn:He; [done|]. destruct Hok as [Hid _].
  destruct h as [e0|]; [case_bool_decide as Hsame|]; simplify_eq/=; [by left|..];
    right; split_and!; try done; destruct Hid as [?|[?|?]]; simplify_eq/=; congruence || done.
Qed.

Lemma row_before seen (v : list (option Held)) p id q e :
  match v !! p with Some h => row_ok seen h id | None => True end ->
  v !! q = Some (Some e) -> is_empty (held_id e) = false ->
  alter (sync_held id) p v !! q = Some (Some e) \/ held_ended e = true \/ held_predicted e = false.
Proof.
  intros Hok Hq Hne. destruct (decide (p = q)) as [->|Hpq];
    [|left; by rewrite list_lookup_alter_ne].
  rewrite Hq in Hok. destruct Hok as [_ [<-|?]]; [|by right].
  left. rewrite list_lookup_alter_eq, Hq. simpl. unfold sync_held.
  by rewrite Hne, bool_decide_eq_true_2.
Qed.

Definition non_empty_ids (v : list (option Held)) : Prop :=
  forall (p : nat) e, v !! p = Some (Some e) -> is_empty (held_id e) = false.

Lemma non_empty_row v p id : non_empty_ids v -> non_empty_ids (alter (sync_held id) p v).
Proof.
  intros Hv q e [(<- & h & Hh & Hx)|[_ Hq]]%alter_cases; [|by eapply Hv].
  unfold sync_held in Hx. destruct (is_empty id) eqn:He; [done|].
  destruct h as [e0|]; [case_bool_decide|]; simplify_eq/=; try done; by eapply Hv.
Qed.

Lemma inv_row v ended seen predicted p id :
  life_inv v ended seen predicted -> non_empty_ids v ->
  match v !! p with Some h => row_ok seen h id | None => True end ->
  life_inv (alter (sync_held id) p v) ended (seen ∪ {[id]}) predicted.
Proof.
  intros [Hnd Hes Hhs Hd Hfe Hfp Hp] Hne Hok.
  assert (forall q e, alter (sync_held id) p v !! q = Some (Some e) ->
    v !! q = Some (Some e) \/ (q = p /\ e = mkHeld id false false /\ id ∉ seen)) as Hafter.
  { intros q e. by apply row_after. }
  constructor.
  - done.
  - set_solver.
  - intros q e [?%Hhs|(-> & -> & _)]%Hafter; set_solver.
  - intros q r e f [Hq|(-> & -> & Hid)]%Hafter [Hr|(-> & -> & Hid')]%Hafter Heq; simpl in *; subst; eauto.
    + by apply Hhs in Hq.
    + by apply Hhs in Hr.
  - intros q e [?%Hfe|(-> & -> & Hid)]%Hafter; [done|]. simpl. split; [done|]. by intros ?%Hes.
  - intros q e [?%Hfp|(-> & -> & Hid)]%Hafter; [done|]. simpl. split; [done|]. by intros [? _]%Hp.
  - intros x Hx. destruct (Hp x Hx) as [Hseen [?|(q & e & Hq & <-)]]; (split; [set_solver|]); [by left|].
    destruct (row_before seen v p id q e) as [?|[?|?]]; eauto.
    + left. by apply (Hfe q e Hq).
    + apply (Hfp q e Hq) in Hx. congruence.
Qed.

Lemma inv_rows rs : forall v ended seen predicted,
  life_inv v ended seen predicted -> non_empty_ids v -> rows_ok seen v rs ->
  life_inv (sync_rows rs v) ended (seen ∪ list_to_set rs.*2) predicted /\ non_empty_ids (sync_rows rs v).
Proof.
  induction rs as [|[p id] rs IH]; simpl; intros v ended seen predicted Hinv Hne Hok.
  - by rewrite union_empty_r_L.
  - destruct Hok as [Hrow Hrows]. rewrite union_assoc_L.
    apply IH; [by apply inv_row | by apply non_empty_row | done].
Qed.

Lemma inv_end v ended seen predicted p e :
  life_inv v ended seen predicted -> v !! p = Some (Some e) -> held_ended e = false ->
  life_inv (alter end_held p v) (ended ++ [held_id e]) seen predicted.
Proof.
  intros [Hnd Hes Hhs Hd Hfe Hfp Hp] He Hend.
  assert (forall h, held_id <$> end_held h = held_id <$> h) as Hid by by intros [?|].
  assert (held_id e ∉ ended) as Hfresh by (rewrite <- (Hfe p e He); by rewrite Hend).
  constructor.
  - apply NoDup_app. split_and!; [done| |by apply NoDup_singleton].
    intros x Hx Hxe. apply list_elem_of_singleton in Hxe as ->. done.
  - intros x. rewrite elem_of_app, list_elem_of_singleton. intros [?| ->]; eauto.
  - intros q f Hq. destruct (kept_holder _ _ _ _ _ Hid Hq) as (f' & Hf' & <-). eauto.
  - intros q r f g Hq Hr. destruct (kept_holder _ _ _ _ _ Hid Hq) as (f' & Hf' & <-).
    destruct (kept_holder _ _ _ _ _ Hid Hr) as (g' & Hg' & <-). eauto.
  - intros q f [(<- & h & Hh & Hx)|[Hne Hq]]%alter_cases; rewrite elem_of_app, list_elem_of_singleton.
    + rewrite He in Hh. simplify_eq/=. tauto.
    + rewrite (Hfe q f Hq). split; [by left|]. intros [?|Heq]; [done|]. by destruct Hne; eauto.
  - intros q f [(<- & h & Hh & Hx)|[Hne Hq]]%alter_cases; [|eauto].
    rewrite He in Hh. simplify_eq/=. eauto.
  - intros x Hx. destruct (Hp x Hx) as [? [?|(q & f & Hq & <-)]]; (split; [done|]).
    + left. apply elem_of_app. by left.
    + right. destruct (keep_holder end_held p v q f Hid Hq) as (f' & ? & ?). eauto.
Qed.

Lemma predict_held_id h : held_id <$> predict_held h = held_id <$> h.
Proof. by destruct h. Qed.

Lemma holds_Some v p id : holds v p = Some id <-> exists e, v !! p = Some (Some e) /\ held_id e = id.
Proof. unfold holds. destruct (v !! p) as [[e|]|]; simpl; naive_solver. Qed.

Lemma inv_predict v ended seen predicted p :
  life_inv v ended seen predicted ->
  life_inv (alter predict_held p v) ended seen (predicted ++ option_list (holds v p)).
Proof.
  intros [Hnd Hes Hhs Hd Hfe Hfp Hp].
  assert (forall x, x ∈ option_list (holds v p) <-> exists e, v !! p = Some (Some e) /\ held_id e = x)
    as Hnew.
  { intros x. rewrite <- holds_Some. destruct (holds v p); simpl;
      rewrite ?list_elem_of_singleton, ?elem_of_nil; naive_solver. }
  constructor; [done | done | ..].
  - intros q f Hq. destruct (kept_holder _ _ _ _ _ predict_held_id Hq) as (f' & Hf' & <-). eauto.
  - intros q r f g Hq Hr. destruct (kept_holder _ _ _ _ _ predict_held_id Hq) as (f' & Hf' & <-).
    destruct (kept_holder _ _ _ _ _ predict_held_id Hr) as (g' & Hg' & <-). eauto.
  - intros q f [(<- & h & Hh & Hx)|[Hne Hq]]%alter_cases; [|eauto].
    destruct h as [e|]; simplify_eq/=. by apply (Hfe p e).
  - intros q f [(<- & h & Hh & Hx)|[Hne Hq]]%alter_cases; rewrite elem_of_app, Hnew.
    + destruct h as [e|]; simplify_eq/=. split; [|done]. eauto.
    + rewrite (Hfp q f Hq). split; [by left|]. intros [?|(e & He & Heq)]; [done|].
      by destruct Hne; eauto.
  - intros x. rewrite elem_of_app, Hnew.
    assert (forall q e, v !! q = Some (Some e) ->
      exists p' e', alter predict_held p v !! p' = Some (Some e') /\ held_id e' = held_id e) as Hkeep.
    { intros q e Hq. destruct (keep_holder _ p _ _ _ predict_held_id Hq) as (? & ? & ?). eauto. }
    intros [[? [?|(q & e & Hq & <-)]]%Hp|(e & He & <-)]; eauto.
Qed.

Lemma holds_predict p q v : holds (alter predict_held p v) q = holds v q.
Proof.
  unfold holds. destruct (decide (p = q)) as [<-|Hne].
  - rewrite list_lookup_alter_eq. by destruct (v !! p) as [[e|]|].
  - by rewrite list_lookup_alter_ne.
Qed.

Lemma inv_predicts positions : forall v ended seen predicted,
  life_inv v ended seen predicted ->
  life_inv (predict_rows positions v) ended seen (predicted ++ omap (holds v) positions).
Proof.
  induction positions as [|p positions IH]; intros v ended seen predicted Hinv.
  - by rewrite app_nil_r.
  - apply (inv_predict _ _ _ _ p) in Hinv. apply IH in Hinv. simpl.
    rewrite (list_omap_ext (holds (alter predict_held p v)) (holds v) positions positions) in Hinv.
    + rewrite <- app_assoc in Hinv. by destruct (holds v p).
    + apply Forall_Forall2_diag, Forall_true. intros q. apply holds_predict.
Qed.

Lemma non_empty_kept (f : option Held -> option Held) p v :
  (forall h, held_id <$> f h = held_id <$> h) -> non_empty_ids v -> non_empty_ids (alter f p v).
Proof. intros Hf Hv q e Hq. destruct (kept_holder _ _ _ _ _ Hf Hq) as (? & ?%Hv & <-). done. Qed.

Lemma non_empty_predicts positions v : non_empty_ids v -> non_empty_ids (predict_rows positions v).
Proof.
  revert v. induction positions as [|p positions IH]; simpl; intros v Hv; [done|].
  apply IH, non_empty_kept; [apply predict_held_id | done].
Qed.

Lemma run_op_inv op s out s' ended seen predicted :
  life_inv (view s) ended seen predicted -> non_empty_ids (view s) ->
  rows_ok seen (view s) (rows op) -> run_op op s = Some (out, s') ->
  life_inv (view s') (ended ++ out) (seen ∪ list_to_set (rows op).*2) (predicted ++ carried op s) /\
  non_empty_ids (view s').
Proof.
  intros Hinv Hne Hok H.
  destruct op; unfold run_op, start_episodes_at, observe_episode_ids_at, record_step_at,
    complete_episode in H; simpl rows in *; simpl carried; rewrite ?app_nil_r.
  1-2: (destruct (row_indices _ _); simpl in H; [|done];
    destruct (ensure_for_slots _ _ _ _) as [[[rids started] registry]|]; simplify_eq/=;
    unfold sync_slots; rewrite view_sync_loop, app_nil_r; by apply inv_rows).
  all: simpl list_to_set; rewrite ?union_empty_r_L.
  - destruct (checked_i64 _); simpl in H; [|done].
    destruct (record_steps _ _ _ _ _ _) as [all|] eqn:Hsteps; simplify_eq/=.
    rewrite view_set_slots, (record_steps_held _ _ _ _ _ _ _ Hsteps), app_nil_r. done.
  - destruct (checked_i64 _); simplify_eq/=. by rewrite app_nil_r.
  - simplify_eq. rewrite view_mark_predicted, app_nil_r.
    split; [by apply inv_predicts | by apply non_empty_predicts].
  - destruct (end_episode_at env_index s) as [id s1] eqn:Hend. simplify_eq.
    apply end_episode_at_view in Hend. destruct id as [id|]; simpl.
    + destruct Hend as (p & e & Hp & <- & Hend & ->).
      split; [by apply inv_end | apply non_empty_kept; [by intros [?|] | done]].
    + subst. by rewrite app_nil_r.
Qed.

Lemma life_invariant s ended seen predicted :
  life s ended seen predicted -> life_inv (view s) ended seen predicted /\ non_empty_ids (view s).
Proof.
  induction 1 as [now who n budget|op s out s' ended seen predicted Hl [Hinv Hne] Hok Hrun];
    [|by eapply run_op_inv].
  assert (forall p e, view (route_new now who n budget) !! p <> Some (Some e)) as Hno.
  { intros p e. unfold view, route_new. simpl. rewrite !list_lookup_fmap.
    destruct (seq _ _ !! p); simpl; congruence. }
  split; [|by intros p e ?%Hno].
  constructor; first [by intros p e ?%Hno | by intros p q e f ?%Hno | apply NoDup_nil_2 | set_solver].
Qed.

Lemma NoDup_omap_lookup {A B} (f : A -> option B) (l : list A) :
  (forall i j x, l !! i ≫= f = Some x -> l !! j ≫= f = Some x -> i = j) -> NoDup (omap f l).
Proof.
  induction l as [|a l IH]; simpl; intros Hinj; [constructor|].
  assert (NoDup (omap f l)) as Hl.
  { apply IH. intros i j x Hi Hj. specialize (Hinj (S i) (S j) x Hi Hj). lia. }
  destruct (f a) as [b|] eqn:Hfa; [|done]. constructor; [|done].
  intros (x & Hx & Hfx)%list_elem_of_omap. apply list_elem_of_lookup in Hx as [j Hj].
  specialize (Hinj 0%nat (S j) b). simpl in Hinj. rewrite Hj in Hinj. by specialize (Hinj Hfa Hfx).
Qed.

(** The id a lane yields at teardown. *)
Definition live_held (h : option Held) : option string :=
  match h with
  | Some e => if held_predicted e && negb (held_ended e) then Some (held_id e) else None
  | None => None
  end.

Lemma end_live_view s :
  fst (end_live_episodes s) = omap live_held (view s) /\
  omap live_held (view (snd (end_live_episodes s))) = [].
Proof.
  unfold end_live_episodes, view. simpl. generalize (slots s) as all.
  induction all as [|slot all [IH1 IH2]]; csimpl; [done|]. rewrite IH1, IH2.
  unfold end_live. destruct (slot_episode slot) as [e|] eqn:He; simpl; rewrite ?He; [|done]. simpl.
  destruct (es_predicted e) eqn:Hp, (es_ended e) eqn:Hend; simpl; rewrite ?He; simpl;
    by rewrite ?Hp, ?Hend.
Qed.


Definition no_clock : nat -> clock_read := fun _ => None.
Definition after (op : RouteOp) (s : RouteState) : RouteState :=
  match run_op op s with Some (_, s) => s | None => s end.
Definition op_start : RouteOp := OpStart no_clock [0; 1]%nat ["a"; "b"] false [0; 1].
Definition op_predict : RouteOp := OpPredict [0; 1]%nat.
Definition op_end : RouteOp := OpEnd 0.
Definition op_roll : RouteOp := OpObserve no_clock [0; 1]%nat ["c"; "b"] [Some 2; None].
Definition route_b : RouteState := after op_start route_a.
Definition route_c : RouteState := after op_predict route_b.
Definition route_d : RouteState := after op_end route_c.
Definition route_e : RouteState := after op_roll route_d.

Lemma run_after op s out : fst <$> run_op op s = Some out -> run_op op s = Some (out, after op s).
Proof. unfold after. destruct (run_op op s) as [[o s']|]; simpl; congruence. Qed.

Lemma rows_start_ok : rows_ok ∅ [None; None; None; None] (rows op_start).
Proof.
  refine (conj (conj (or_intror (or_intror _)) I) (conj (conj (or_intror (or_intror _)) I) I));
    apply (bool_decide_eq_true_1 _); vm_compute; reflexivity.
Qed.

Lemma rows_roll_ok seen : "c" ∉ seen ->
  rows_ok seen [Some (mkHeld "a" true true); Some (mkHeld "b" true false); None; None] (rows op_roll).
Proof.
  intros Hc. exact (conj (conj (or_intror (or_intror Hc)) (or_intror (or_introl eq_refl)))
    (conj (conj (or_intror (or_introl eq_refl)) (or_introl eq_refl)) I)).
Qed.


(** The record of an episode started by a one-lane group has [env_index] 0 whatever
    the lane: [ensure_for_slots] numbers rows of the group, not lanes of the route, so
    lane 3's episode is announced as lane 0's where the record documents its origin
    lane. *)
Theorem lane_start_reports_row :
  exists s', start_episodes_at no_clock [3]%nat ["a"] false [0] route_a =
      Some ([mkStarted "a" (mkRecord "ep-000001" 1 0 false)], s') /\
    episode_id_at 3 s' = Some "a" /\ episode_id_at 0 s' = None.
Proof. eexists. split; [reflexivity | split; reflexivity]. Qed.
