(* ===== verification/SessionSpec.v ===== *)
(** * Session specs and the relay seam

    [rlmesh-runtime/src/spec.rs]: the spec of a session, [validate], the reset options
    a session delivers, the ceiling of a served peer; and
    [rlmesh-runtime/src/hooks/relay.rs]: what a relayed payload is checked against and
    the default policy's verdict. *)

From S2P Require Import Prelude BTree Float DType Types WireSpaces Edition Info Route.

(** ** Reset options *)

Definition ENV_RESET_OPTIONS_KEY : string := "rlmesh.env.v1.reset_options".
Definition TRIAL_INDEX_OPTION : string := "trial_index".

Definition names_key (key : string) (item : ProtoMetaValue) : bool :=
  match item with
  | mkProtoMeta (Some (PString declared)) => String.eqb declared key
  | _ => false
  end.

Definition declares_reset_option (contract : ProtoEnvContract) (key : string) : bool :=
  match (let! spec := pc_spec contract in
         let! metadata := pe_metadata spec in
         btree_get ENV_RESET_OPTIONS_KEY metadata) with
  | Some (mkProtoMeta (Some (PList items))) => existsb (names_key key) items
  | Some (mkProtoMeta (Some (PString declared))) => String.eqb declared key
  | _ => false
  end.

(** [trial as i64]. *)
Definition trial_meta (trial : Z) : ProtoMetaValue := mkProtoMeta (Some (PInteger (wrap_s 64 trial))).

Definition reset_options_for (contract : ProtoEnvContract) (option_key : string) (trials : list Z)
    : option ProtoMetaMap :=
  match trials with
  | [] => None
  | first :: rest =>
      if negb (declares_reset_option contract option_key) then None
      else
        let value :=
          match rest with
          | [] => trial_meta first
          | _ => mkProtoMeta (Some (PList (trial_meta <$> trials)))
          end in
        Some [(option_key, value)]
  end.

(** ** Peers *)

Record PeerCeiling : Type := mkCeiling {
  ceiling_edition : Edition;
  ceiling_dtypes : list DType;
  ceiling_capabilities : gmap string string;
  ceiling_max_message_size : Z;
}.

Definition wire_v1 (edition : Edition) (capabilities : gmap string string) (max_message_size : Z)
    : PeerCeiling :=
  mkCeiling edition DType_ALL capabilities max_message_size.

Section Spec.
Context `{Build}.

Definition highest_shared_edition (supported : list string) : option Edition :=
  let! name := max_by_key key_cmp edition_sort_key
    (List.filter (fun name => is_ok (parse_retained_edition name)) supported) in
  result_ok (parse_retained_edition name).

(** ** The session *)

(** [RuntimeLimits], in milliseconds. *)
Record RuntimeLimits : Type := mkLimits {
  env_connect_timeout : Z;
  model_connect_timeout : Z;
  configure_route_timeout : Z;
  env_reset_timeout : Z;
  model_predict_timeout : Z;
  env_step_timeout : Z;
  service_close_timeout : Z;
  telemetry_window : Z;
}.

Definition default_limits : RuntimeLimits :=
  mkLimits 60000 600000 600000 300000 300000 300000 5000 1000.

(** [as_millis().try_into().unwrap_or(i64::MAX)]. *)
Definition duration_ms_i64 (millis : Z) : Z := Z.min millis i64_max.

Definition env_step_timeout_ms (l : RuntimeLimits) : Z := duration_ms_i64 (env_step_timeout l).
Definition env_reset_timeout_ms (l : RuntimeLimits) : Z := duration_ms_i64 (env_reset_timeout l).

Record RuntimeSessionSpec : Type := mkSpec {
  spec_ids : RouteIds;
  workflow_edition : Edition;
  env_contract : ProtoEnvContract;
  spec_num_envs : Z;
  base_seed : option Z;
  episode_seeds : list Z;
  spec_max_episodes : option Z;
  spec_trial_index_base : option Z;
  max_episode_steps : option Z;
  max_episode_seconds : option f64;
  close_env_on_end : bool;
  limits : RuntimeLimits;
  subset_step : bool;
  env_ceiling : option PeerCeiling;
  model_ceiling : option PeerCeiling;
}.

Definition trial_index_base (s : RuntimeSessionSpec) : Z := default 0 (spec_trial_index_base s).

Definition edition_defaults (s : RuntimeSessionSpec) : EditionDefaults := defaults (workflow_edition s).

Definition observation_space (s : RuntimeSessionSpec) : option ProtoSpec :=
  let! spec := pc_spec (env_contract s) in pe_observation_space spec.
Definition action_space (s : RuntimeSessionSpec) : option ProtoSpec :=
  let! spec := pc_spec (env_contract s) in pe_action_space spec.

(** [AutoresetMode::try_from(i32)] of the generated bindings. *)
Definition proto_autoreset_try_from (z : Z) : option ProtoAutoresetMode :=
  match z with
  | 0 => Some ProtoUnspecified
  | 1 => Some ProtoNextStep
  | 2 => Some ProtoSameStep
  | 3 => Some ProtoDisabled
  | _ => None
  end.

Definition driver_owns_resets (s : RuntimeSessionSpec) : bool :=
  match proto_autoreset_try_from (pc_autoreset_mode (env_contract s)) with
  | Some mode => bool_decide (mode ∈ driver_owned_reset_modes (edition_defaults s))
  | None => false
  end.

Definition is_some {A} (o : option A) : bool := match o with Some _ => true | None => false end.

(** [if condition { return Err(message) }]. *)
Definition refuse_if (condition : bool) (why : message) : result unit message :=
  if condition then Err why else Ok tt.

(** The checks under an env that restarts its own lanes. *)
Definition validate_env_owned (s : RuntimeSessionSpec) : result unit message :=
  let? _ := refuse_if (negb (bool_decide (episode_seeds s = [])))
    (lit "episode_seeds requires an env with autoreset disabled: under NEXT_STEP autoreset the env seeds its own episode rolls, so explicit per-episode seeds cannot apply") in
  let? _ := refuse_if (negb (trial_index_base s =? 0))
    (lit "trial_index_base requires an env with autoreset disabled: under NEXT_STEP autoreset the env restarts its own lanes, so the runtime has no reset on which to deliver a trial ordinal") in
  refuse_if (is_some (max_episode_steps s) || is_some (max_episode_seconds s))
    (lit "max_episode_steps / max_episode_seconds require an env with autoreset disabled: under NEXT_STEP autoreset the env owns lane resets, so the runtime cannot truncate an episode").

Definition at_most_zero (cap : option f64) : bool :=
  match cap with Some cap => f64_ge f64_zero cap | None => false end.

Definition validate (s : RuntimeSessionSpec) : result unit message :=
  let who := spec_ids s in
  let mode := pc_autoreset_mode (env_contract s) in
  let? _ := refuse_if (is_empty (trim (session_id who))) (lit "runtime session_id must not be empty") in
  let? _ := refuse_if (is_empty (trim (env_id who))) (lit "runtime env_id must not be empty") in
  let? _ := refuse_if (is_empty (trim (env_component_id who)))
    (lit "runtime env_component_id must not be empty") in
  let? _ := refuse_if (is_empty (trim (model_component_id who)))
    (lit "runtime model_component_id must not be empty") in
  let? _ := refuse_if (spec_num_envs s =? 0) (lit "runtime num_envs must be greater than zero") in
  let? _ := refuse_if (negb (is_some (observation_space s)))
    (lit "runtime env_contract is missing observation_space") in
  let? _ := refuse_if (negb (is_some (action_space s)))
    (lit "runtime env_contract is missing action_space") in
  let? _ := refuse_if (bool_decide (spec_max_episodes s = Some 0))
    (lit "runtime max_episodes must be greater than zero when set") in
  let? _ := refuse_if match max_episode_steps s with Some cap => cap <=? 0 | None => false end
    (lit "runtime max_episode_steps must be greater than zero when set") in
  let? _ := refuse_if (at_most_zero (max_episode_seconds s))
    (lit "runtime max_episode_seconds must be greater than zero when set") in
  let? _ := if driver_owns_resets s then Ok tt else validate_env_owned s in
  let? _ := parse_retained_edition (base (workflow_edition s)) in
  let? _ := refuse_if (negb (is_some (proto_autoreset_try_from mode)))
    (Msg "unknown autoreset mode {} on the wire; this build supports UNSPECIFIED, NEXT_STEP, SAME_STEP, DISABLED only"
      [AZ mode]) in
  let? _ := refuse_if (mode =? 2)
    (lit "SAME_STEP autoreset is reserved but not yet supported by the runtime; construct the env with NEXT_STEP or DISABLED autoreset") in
  refuse_if ((1 <? spec_num_envs s) && negb (subset_step s) && negb (mode =? 1))
    (lit "vectorized runtime sessions (num_envs > 1) require NEXT_STEP autoreset unless the env steps lanes individually (the `subset_step` capability); DISABLED autoreset needs per-lane reset, which a stock gymnasium vector env cannot do. Use NEXT_STEP autoreset, serve lanes, or run with num_envs == 1.").
End Spec.

(** ** The relay seam *)

Inductive Leg : Type := EnvToModel | ModelToEnv.

Definition target (leg : Leg) : string :=
  match leg with EnvToModel => "model" | ModelToEnv => "env" end.

Record PayloadFacts : Type := mkFacts {
  facts_space : ProtoSpec;
  facts_byte_len : Z;
  facts_leaves : ValueLeaves;
}.

Definition leaves_len (leaves : ValueLeaves) : Z := Z.of_nat (sum_list (length <$> leaves)).

(** [PayloadFacts::new]; the sum of the lengths of leaves in memory fits a [usize]. *)
Definition facts_new (space : ProtoSpec) (leaves : ValueLeaves) : PayloadFacts :=
  mkFacts space (leaves_len leaves) leaves.

Section FindMap.
Context {A B : Type} (f : A -> option B).

(** [Iterator::find_map]. *)
Fixpoint find_map (l : list A) : option B :=
  match l with
  | [] => None
  | x :: l => match f x with Some y => Some y | None => find_map l end
  end.
End FindMap.

Fixpoint dtype_outside (ceiling : PeerCeiling) (space : ProtoSpec) : option DType :=
  match space with
  | mkProto _ dtype spec =>
      match spec with
      | Some (PDict _ spaces) => find_map (dtype_outside ceiling) spaces
      | Some (PTuple spaces) => find_map (dtype_outside ceiling) spaces
      | _ =>
          match dtype_try_from dtype with
          | Ok d => if bool_decide (d ∈ ceiling_dtypes ceiling) then None else Some d
          | Err _ => None
          end
      end
  end.

Definition payload_exceeds (facts : PayloadFacts) (ceiling : PeerCeiling) : option message :=
  match dtype_outside ceiling (facts_space facts) with
  | Some d => Some (Msg "dtype {} is outside its ceiling" [AStr (dtype_name d)])
  | None =>
      if ceiling_max_message_size ceiling <? facts_byte_len facts
      then Some (Msg "{} bytes exceeds its {}-byte message cap"
        [AZ (facts_byte_len facts); AZ (ceiling_max_message_size ceiling)])
      else None
  end.

(** [RelayDecision]; the advisory of a conversion is its text. *)
Inductive RelayDecision : Type :=
  | Forward
  | Convert (leaves : ValueLeaves) (space : option ProtoSpec) (advisory : message)
  | Refuse (why : message).

(** [RelayPolicy] and its default implementation, [RefusingRelayPolicy]. *)
Definition RelayPolicy : Type := Leg -> PeerCeiling -> PayloadFacts -> RelayDecision.

Definition refusing_reconcile : RelayPolicy :=
  fun _ ceiling payload =>
    match payload_exceeds payload ceiling with Some why => Refuse why | None => Forward end.

(** ** What a relayed payload needs of its target *)

(** A leaf of a space tree and its dtype code. *)
Inductive leaf_code : ProtoSpec -> Z -> Prop :=
  | leaf_here shape dtype spec :
      match spec with Some (PDict _ _) | Some (PTuple _) => False | _ => True end ->
      leaf_code (mkProto shape dtype spec) dtype
  | leaf_dict shape dtype keys spaces space code :
      space ∈ spaces -> leaf_code space code ->
      leaf_code (mkProto shape dtype (Some (PDict keys spaces))) code
  | leaf_tuple shape dtype spaces space code :
      space ∈ spaces -> leaf_code space code ->
      leaf_code (mkProto shape dtype (Some (PTuple spaces))) code.

Definition decodable (ceiling : PeerCeiling) (code : Z) : Prop :=
  forall d, dtype_try_from code = Ok d -> d ∈ ceiling_dtypes ceiling.

Lemma find_map_None {A B} (f : A -> option B) l :
  find_map f l = None <-> Forall (fun x => f x = None) l.
Proof.
  induction l as [|x l IH]; simpl; [done|]. rewrite Forall_cons.
  destruct (f x); [naive_solver | tauto].
Qed.

Lemma leaf_code_inv shape dtype spec code :
  leaf_code (mkProto shape dtype spec) code <->
  match spec with
  | Some (PDict _ spaces) | Some (PTuple spaces) => exists space, space ∈ spaces /\ leaf_code space code
  | _ => code = dtype
  end.
Proof.
  split.
  - intros Hl. inv Hl; eauto. by destruct spec as [[]|].
  - destruct spec as [[]|]; intros Hl; try (subst; by constructor);
      destruct Hl as (space & Hin & Hl); econstructor; eauto.
Qed.

Lemma outside_children ceiling spaces :
  Forall (fun space => dtype_outside ceiling space = None <->
    forall code, leaf_code space code -> decodable ceiling code) spaces ->
  find_map (dtype_outside ceiling) spaces = None <->
  forall code, (exists space, space ∈ spaces /\ leaf_code space code) -> decodable ceiling code.
Proof.
  intros Hch. rewrite find_map_None, Forall_forall. rewrite Forall_forall in Hch. split.
  - intros Hnone code (space & Hin & Hl). by apply (Hch space Hin) in Hl; [|apply Hnone].
  - intros Hall space Hin. apply (Hch space Hin). eauto.
Qed.

Lemma dtype_outside_None ceiling space :
  dtype_outside ceiling space = None <-> forall code, leaf_code space code -> decodable ceiling code.
Proof.
  induction space as [[shape dtype spec] IH] using ProtoSpec_ind'.
  setoid_rewrite leaf_code_inv.
  assert (match dtype_try_from dtype with
     | Ok d => if bool_decide (d ∈ ceiling_dtypes ceiling) then None else Some d
     | Err _ => None
     end = None <-> forall code, code = dtype -> decodable ceiling code) as Hleaf.
  { unfold decodable. destruct (dtype_try_from dtype) as [d|] eqn:Hd.
    - case_bool_decide as Hin; split; try done.
      + intros _ code -> d' Hd'. congruence.
      + intros Hall. by destruct Hin; apply (Hall dtype).
    - split; [|done]. intros _ code -> d' Hd'. congruence. }
  destruct spec as [[| | | | |keys spaces|spaces]|]; simpl in IH |- *; try exact Hleaf;
    by apply outside_children.
Qed.

(** The default relay policy never converts: it forwards a payload exactly when
    every leaf of its space, however nested, has a dtype the target decodes and the
    payload fits the target's message cap, and refuses it otherwise.  Against a
    wire-v1 peer only the size can be refused. *)
Theorem relay_verdict_exact leg ceiling facts :
  (refusing_reconcile leg ceiling facts = Forward <->
     (forall code, leaf_code (facts_space facts) code -> decodable ceiling code) /\
     facts_byte_len facts <= ceiling_max_message_size ceiling) /\
  (refusing_reconcile leg ceiling facts <> Forward ->
     exists why, refusing_reconcile leg ceiling facts = Refuse why) /\
  (forall edition capabilities cap,
     refusing_reconcile leg (wire_v1 edition capabilities cap) facts = Forward <->
     facts_byte_len facts <= cap).
Proof.
  assert (forall ceiling, refusing_reconcile leg ceiling facts = Forward <->
     (forall code, leaf_code (facts_space facts) code -> decodable ceiling code) /\
     facts_byte_len facts <= ceiling_max_message_size ceiling) as Hexact.
  { intros c. rewrite <- dtype_outside_None. unfold refusing_reconcile, payload_exceeds.
    destruct (dtype_outside c (facts_space facts)); [split; [done | by intros []]|].
    destruct (Z.ltb_spec (ceiling_max_message_size c) (facts_byte_len facts)).
    - split; [done | intros []; lia].
    - done. }
  split_and!; [apply Hexact | |].
  - unfold refusing_reconcile. destruct (payload_exceeds facts ceiling); eauto; done.
  - intros edition capabilities cap. rewrite Hexact. simpl. split; [tauto|]. intros ?. split; [|done].
    intros code _ d _. apply list_elem_of_In. destruct d; simpl; tauto.
Qed.

(** ** What a validated session promises *)

(** The conditions under which the driver runs a session, in any order. *)
Record drivable `{Build} (s : RuntimeSessionSpec) : Prop := {
  drivable_named : Forall (fun name => is_empty (trim name) = false)
    [session_id (spec_ids s); env_id (spec_ids s); env_component_id (spec_ids s);
     model_component_id (spec_ids s)];
  drivable_width : spec_num_envs s <> 0;
  drivable_spaces : is_Some (observation_space s) /\ is_Some (action_space s);
  drivable_budget : spec_max_episodes s <> Some 0;
  drivable_steps : forall cap, max_episode_steps s = Some cap -> 0 < cap;
  drivable_seconds : forall cap, max_episode_seconds s = Some cap -> f64_ge f64_zero cap = false;
  drivable_mode : pc_autoreset_mode (env_contract s) ∈ [0; 1; 3];
  (** Under an env that restarts its own lanes, nothing the driver's resets would
      deliver is asked for. *)
  drivable_env_owned : driver_owns_resets s = false ->
    episode_seeds s = [] /\ trial_index_base s = 0 /\ max_episode_steps s = None /\
    max_episode_seconds s = None;
  (** Lanes are restarted one by one, by the env or by a driver that steps them
      individually. *)
  drivable_lanes : 1 < spec_num_envs s -> subset_step s = true \/ pc_autoreset_mode (env_contract s) = 1;
  drivable_edition : is_ok (parse_retained_edition (base (workflow_edition s))) = true;
}.

Lemma refuse_if_Ok condition why : refuse_if condition why = Ok tt <-> condition = false.
Proof. unfold refuse_if. by destruct condition. Qed.

Lemma bind_Ok_unit {A E} (r : result A E) (k : result unit E) :
  (let? _ := r in k) = Ok tt <-> is_ok r = true /\ k = Ok tt.
Proof. destruct r; simpl; naive_solver. Qed.

Lemma refuse_if_is_ok condition why : is_ok (refuse_if condition why) = true <-> condition = false.
Proof. unfold refuse_if. by destruct condition. Qed.

Lemma is_some_false {A} (o : option A) : is_some o = false <-> o = None.
Proof. by destruct o. Qed.
Lemma is_some_true {A} (o : option A) : is_some o = true <-> is_Some o.
Proof. destruct o; simpl; split; first [done | by eauto | by intros [? ?]]. Qed.

Lemma validate_env_owned_ok s :
  is_ok (validate_env_owned s) = true <->
  episode_seeds s = [] /\ trial_index_base s = 0 /\ max_episode_steps s = None /\
  max_episode_seconds s = None.
Proof.
  assert (is_ok (validate_env_owned s) = true <-> validate_env_owned s = Ok tt) as ->
    by (destruct (validate_env_owned s) as [[]|]; done).
  unfold validate_env_owned. rewrite !bind_Ok_unit, !refuse_if_is_ok, refuse_if_Ok.
  rewrite !negb_false_iff, bool_decide_eq_true, Z.eqb_eq, orb_false_iff, !is_some_false. done.
Qed.

Lemma mode_supported mode :
  is_some (proto_autoreset_try_from mode) = true /\ mode <> 2 <-> mode ∈ [0; 1; 3].
Proof.
  rewrite !elem_of_cons, elem_of_nil. unfold proto_autoreset_try_from.
  split; [|intros [->|[->|[->|[]]]]; done].
  intros [Hmode Hne]. destruct mode as [|p|p]; [auto| |done].
  destruct p as [[[]|[]|]|[[]|[]|]|]; simpl in Hmode; try discriminate; tauto.
Qed.

Section Validate.
Context `{Build}.

Lemma positive_steps (cap : option Z) :
  match cap with Some cap => cap <=? 0 | None => false end = false <->
  forall c, cap = Some c -> 0 < c.
Proof.
  destruct cap as [c|]; [|done]. rewrite Z.leb_gt. split; [by intros ? ? [= <-] | eauto].
Qed.

Lemma positive_seconds (cap : option f64) :
  at_most_zero cap = false <-> forall c, cap = Some c -> f64_ge f64_zero c = false.
Proof. destruct cap; simpl; [split; [by intros ? ? [= <-] | eauto] | done]. Qed.

Lemma lanes_driven s :
  (1 <? spec_num_envs s) && negb (subset_step s) &&
    negb (pc_autoreset_mode (env_contract s) =? 1) = false <->
  (1 < spec_num_envs s -> subset_step s = true \/ pc_autoreset_mode (env_contract s) = 1).
Proof.
  destruct (Z.ltb_spec 1 (spec_num_envs s)), (subset_step s),
    (Z.eqb_spec (pc_autoreset_mode (env_contract s)) 1); simpl; split;
    try done; try lia; try tauto; intros Hl; exfalso; destruct (Hl ltac:(lia)); done.
Qed.

(** [validate] accepts exactly the sessions the driver can run: named parties, at
    least one lane, both spaces, positive limits, an edition this build drives, a mode
    it understands, seeds, trial ordinals and caps only where the driver owns the
    resets, and several lanes only where they can be restarted one at a time. *)
Theorem validate_exact s : validate s = Ok tt <-> drivable s.
Proof.
  assert (is_ok (if driver_owns_resets s then Ok tt else validate_env_owned s) = true <->
    (driver_owns_resets s = false -> episode_seeds s = [] /\ trial_index_base s = 0 /\
      max_episode_steps s = None /\ max_episode_seconds s = None)) as Howned.
  { rewrite <- validate_env_owned_ok. destruct (driver_owns_resets s); simpl; [|tauto].
    split; [intros _ ?; discriminate | done]. }
  unfold validate.
  rewrite !bind_Ok_unit, !refuse_if_is_ok, refuse_if_Ok, Howned, lanes_driven, positive_steps,
    positive_seconds, !negb_false_iff, !is_some_true, !Z.eqb_neq,
    bool_decide_eq_false.
  pose proof (mode_supported (pc_autoreset_mode (env_contract s))) as Hmode.
  rewrite is_some_true in Hmode. split.
  - intros (? & ? & ? & ? & ? & ? & ? & ? & ? & ? & ? & ? & ? & ? & ?).
    constructor; try tauto. by repeat apply Forall_cons_2.
  - intros [Hn]. rewrite !Forall_cons in Hn. tauto.
Qed.
End Validate.

(** A single-lane session against a minimal contract. *)
Definition minimal_space : ProtoSpec := mkProto [] 9 (Some (PDiscrete 2 0)).
Definition minimal_contract : ProtoEnvContract := {|
  pc_spec := Some {| pe_id := "env"; pe_action_space := Some minimal_space;
    pe_observation_space := Some minimal_space; pe_metadata := None |};
  pc_num_envs := 1; pc_render_mode := ""; pc_autoreset_mode := 3 |}.
Definition minimal_session (seconds : option f64) : RuntimeSessionSpec :=
  mkSpec (mkIds "session" "env" "env-c" "model-c") E2026_06 minimal_contract 1 None [] (Some 5) None
    None seconds false default_limits false None None.

Definition f64_nan : f64 := F64 9221120237041090560.

(** A NaN [max_episode_seconds] passes validation, which promises a cap greater than
    zero, and then no elapsed time ever reaches it: the session runs uncapped. *)
Theorem nan_cap_validates :
  f64_is_nan f64_nan = true /\ @validate release_build (minimal_session (Some f64_nan)) = Ok tt /\
  forall elapsed, f64_ge elapsed f64_nan = false.
Proof.
  split_and!; [vm_compute; reflexivity | vm_compute; reflexivity |].
  intros elapsed. unfold f64_ge, f64_cmp. replace (sf64 f64_nan) with SpecFloat.S754_nan
    by (vm_compute; reflexivity). by destruct (sf64 elapsed).
Qed.
