(* ===== verification/Driver.v ===== *)
(** * The run driver

    [rlmesh-runtime/src/driver.rs]: the loop that drives the lanes of one route
    through reset, predict and step.  Lanes are driven in groups (one per lane of a
    lane endpoint, else one for the whole vector), each with its env phase, its
    predict state, the action frames it still has to play and, on a history route,
    the observations the model has not seen yet.

    The served env and model, the hooks and the scheduler are code behind traits, so
    what they answer is an argument of the operation that asks; the clock is one too.
    Minted ids come from a parameter [mint].  An operation is a function in a small
    state and error monad: [None] is a panic, [Err] ends the route.  Telemetry and log
    lines are left out. *)

From S2P Require Import Prelude BTree Float Types WireSpaces Edition Info Episode EnvServer Route SessionSpec.

(** ** Data *)

(** [RuntimeError]; the boxed sources are left out. *)
Inductive RuntimeError : Type :=
  | InvalidSpec (why : message)
  | OperationTimeout (route component operation : string) (step : Z)
  | RouteCancelled (route : string) (step : Z) (reason : string)
  | EnvRpc (operation : string) (step : Z) (why : message) (recoverable : bool)
  | ModelRpc (component : string) (why : message) (recoverable : bool)
  | ModelRouteMismatch (component request : string)
  | ProtocolFailure (why : message)
  | Hook (why : message).

Inductive EnvPhase : Type := PhReady | PhStepping | PhResetting | PhIdle.

#[export] Instance EnvPhase_eq_dec : EqDecision EnvPhase.
Proof. solve_decision. Defined.

Definition HISTORY_BACKLOG_CAP : nat := 1023.

Inductive PredictState : Type :=
  | PNone
  | PWanted (msg : PredictRequest)
  | PInFlight (stale : bool)
  | PReady (frames : list ValueLeaves).

(** [EpisodeCompletedEvent]: the summary and the ids it is filed under. *)
Record CompletedEvent : Type := mkCompleted {
  ce_episode_id : string;
  ce_record_id : string;
  ce_summary : EpisodeSummary;
}.

(** A group of lanes; [g_env] is whether it holds its env handle, and [g_pending_predict]
    is in nanoseconds. *)
Record Group : Type := mkGroup {
  g_lanes : list Z;
  g_positions : list nat;
  g_lane_group : bool;
  g_whole : bool;
  g_phase : EnvPhase;
  g_predict : PredictState;
  g_env : bool;
  g_replay : list ValueLeaves;
  g_obs_msg : option PredictRequest;
  g_history : list ObservationHistoryFrame;
  g_steps : Z;
  g_pending_roll : gmap Z string;
  g_pending_completed : list CompletedEvent;
  g_pending_start : option (list string * list Z);
  g_reset_generation : Z;
  g_pending_predict : Z;
}.

(** Field updates. *)
Definition set_g_phase (v : EnvPhase) (g : Group) : Group :=
  mkGroup (g_lanes g) (g_positions g) (g_lane_group g) (g_whole g) v (g_predict g) (g_env g)
    (g_replay g) (g_obs_msg g) (g_history g) (g_steps g) (g_pending_roll g)
    (g_pending_completed g) (g_pending_start g) (g_reset_generation g) (g_pending_predict g).
Definition set_g_predict (v : PredictState) (g : Group) : Group :=
  mkGroup (g_lanes g) (g_positions g) (g_lane_group g) (g_whole g) (g_phase g) v (g_env g)
    (g_replay g) (g_obs_msg g) (g_history g) (g_steps g) (g_pending_roll g)
    (g_pending_completed g) (g_pending_start g) (g_reset_generation g) (g_pending_predict g).
Definition set_g_env (v : bool) (g : Group) : Group :=
  mkGroup (g_lanes g) (g_positions g) (g_lane_group g) (g_whole g) (g_phase g) (g_predict g) v
    (g_replay g) (g_obs_msg g) (g_history g) (g_steps g) (g_pending_roll g)
    (g_pending_completed g) (g_pending_start g) (g_reset_generation g) (g_pending_predict g).
Definition set_g_replay (v : list ValueLeaves) (g : Group) : Group :=
  mkGroup (g_lanes g) (g_positions g) (g_lane_group g) (g_whole g) (g_phase g) (g_predict g)
    (g_env g) v (g_obs_msg g) (g_history g) (g_steps g) (g_pending_roll g)
    (g_pending_completed g) (g_pending_start g) (g_reset_generation g) (g_pending_predict g).
Definition set_g_obs_msg (v : option PredictRequest) (g : Group) : Group :=
  mkGroup (g_lanes g) (g_positions g) (g_lane_group g) (g_whole g) (g_phase g) (g_predict g)
    (g_env g) (g_replay g) v (g_history g) (g_steps g) (g_pending_roll g)
    (g_pending_completed g) (g_pending_start g) (g_reset_generation g) (g_pending_predict g).
Definition set_g_history (v : list ObservationHistoryFrame) (g : Group) : Group :=
  mkGroup (g_lanes g) (g_positions g) (g_lane_group g) (g_whole g) (g_phase g) (g_predict g)
    (g_env g) (g_replay g) (g_obs_msg g) v (g_steps g) (g_pending_roll g)
    (g_pending_completed g) (g_pending_start g) (g_reset_generation g) (g_pending_predict g).
Definition set_g_steps (v : Z) (g : Group) : Group :=
  mkGroup (g_lanes g) (g_positions g) (g_lane_group g) (g_whole g) (g_phase g) (g_predict g)
    (g_env g) (g_replay g) (g_obs_msg g) (g_history g) v (g_pending_roll g)
    (g_pending_completed g) (g_pending_start g) (g_reset_generation g) (g_pending_predict g).
Definition set_g_pending_roll (v : gmap Z string) (g : Group) : Group :=
  mkGroup (g_lanes g) (g_positions g) (g_lane_group g) (g_whole g) (g_phase g) (g_predict g)
    (g_env g) (g_replay g) (g_obs_msg g) (g_history g) (g_steps g) v (g_pending_completed g)
    (g_pending_start g) (g_reset_generation g) (g_pending_predict g).
Definition set_g_pending_completed (v : list CompletedEvent) (g : Group) : Group :=
  mkGroup (g_lanes g) (g_positions g) (g_lane_group g) (g_whole g) (g_phase g) (g_predict g)
    (g_env g) (g_replay g) (g_obs_msg g) (g_history g) (g_steps g) (g_pending_roll g) v
    (g_pending_start g) (g_reset_generation g) (g_pending_predict g).
Definition set_g_pending_start (v : option (list string * list Z)) (g : Group) : Group :=
  mkGroup (g_lanes g) (g_positions g) (g_lane_group g) (g_whole g) (g_phase g) (g_predict g)
    (g_env g) (g_replay g) (g_obs_msg g) (g_history g) (g_steps g) (g_pending_roll g)
    (g_pending_completed g) v (g_reset_generation g) (g_pending_predict g).
Definition set_g_reset_generation (v : Z) (g : Group) : Group :=
  mkGroup (g_lanes g) (g_positions g) (g_lane_group g) (g_whole g) (g_phase g) (g_predict g)
    (g_env g) (g_replay g) (g_obs_msg g) (g_history g) (g_steps g) (g_pending_roll g)
    (g_pending_completed g) (g_pending_start g) v (g_pending_predict g).
Definition set_g_pending_predict (v : Z) (g : Group) : Group :=
  mkGroup (g_lanes g) (g_positions g) (g_lane_group g) (g_whole g) (g_phase g) (g_predict g)
    (g_env g) (g_replay g) (g_obs_msg g) (g_history g) (g_steps g) (g_pending_roll g)
    (g_pending_completed g) (g_pending_start g) (g_reset_generation g) v.

Definition width (g : Group) : nat := length (g_lanes g).

Definition busy (g : Group) : bool :=
  match g_phase g with PhStepping | PhResetting => true | _ => false end.

(** An env operation in flight, with the request it carries. *)
Inductive EnvOp : Type :=
  | FlyReset (gid : nat) (initial : bool) (req : ResetRequest)
  | FlyStep (gid : nat) (req : StepRequest).

(** A predict in flight: the groups it carries and their contexts, in order. *)
Definition PredictOp : Type := list (nat * AdapterContext).

(** What the model is sent. *)
Inductive ModelMsg : Type :=
  | MPredict (requests : list PredictRequest)
  | MEvict (request : ResetAdapterRequest).

(** The hook events that carry episode ids. *)
Inductive HookEvent : Type :=
  | HStarted (episode : StartedEpisode) (event_seed event_trial : option Z)
  | HObservation (ids : list string) (is_reset : bool)
  | HAction (ids : list string) (step : Z)
  | HStep (id : string) (step : Z) (rewards : list f64) (lane_terminated lane_truncated roll : list bool)
  | HCompleted (event : CompletedEvent).

(** The driver's own mutable state with the locals of [run_loop], and what it sent to the
    model and to the hooks. *)
Record Driver : Type := mkDriver {
  d_route : RouteState;
  d_groups : list Group;
  d_env_ops : list EnvOp;
  d_predicts : list PredictOp;
  d_pending_evictions : list string;
  d_held_evictions : list (nat * string);
  d_minted : nat;
  d_sent : list ModelMsg;
  d_hooks : list HookEvent;
}.

Definition set_d_route (v : RouteState) (d : Driver) : Driver :=
  mkDriver v (d_groups d) (d_env_ops d) (d_predicts d) (d_pending_evictions d)
    (d_held_evictions d) (d_minted d) (d_sent d) (d_hooks d).
Definition set_d_groups (v : list Group) (d : Driver) : Driver :=
  mkDriver (d_route d) v (d_env_ops d) (d_predicts d) (d_pending_evictions d)
    (d_held_evictions d) (d_minted d) (d_sent d) (d_hooks d).
Definition set_d_env_ops (v : list EnvOp) (d : Driver) : Driver :=
  mkDriver (d_route d) (d_groups d) v (d_predicts d) (d_pending_evictions d)
    (d_held_evictions d) (d_minted d) (d_sent d) (d_hooks d).
Definition set_d_predicts (v : list PredictOp) (d : Driver) : Driver :=
  mkDriver (d_route d) (d_groups d) (d_env_ops d) v (d_pending_evictions d)
    (d_held_evictions d) (d_minted d) (d_sent d) (d_hooks d).
Definition set_d_pending_evictions (v : list string) (d : Driver) : Driver :=
  mkDriver (d_route d) (d_groups d) (d_env_ops d) (d_predicts d) v (d_held_evictions d)
    (d_minted d) (d_sent d) (d_hooks d).
Definition set_d_held_evictions (v : list (nat * string)) (d : Driver) : Driver :=
  mkDriver (d_route d) (d_groups d) (d_env_ops d) (d_predicts d) (d_pending_evictions d) v
    (d_minted d) (d_sent d) (d_hooks d).
Definition set_d_minted (v : nat) (d : Driver) : Driver :=
  mkDriver (d_route d) (d_groups d) (d_env_ops d) (d_predicts d) (d_pending_evictions d)
    (d_held_evictions d) v (d_sent d) (d_hooks d).
Definition set_d_sent (v : list ModelMsg) (d : Driver) : Driver :=
  mkDriver (d_route d) (d_groups d) (d_env_ops d) (d_predicts d) (d_pending_evictions d)
    (d_held_evictions d) (d_minted d) v (d_hooks d).
Definition set_d_hooks (v : list HookEvent) (d : Driver) : Driver :=
  mkDriver (d_route d) (d_groups d) (d_env_ops d) (d_predicts d) (d_pending_evictions d)
    (d_held_evictions d) (d_minted d) (d_sent d) v.

(** ** Operations as a monad *)

Definition op (A : Type) : Type := Driver -> option (result A RuntimeError * Driver).

Definition ret {A} (a : A) : op A := fun d => Some (Ok a, d).
Definition fail {A} (e : RuntimeError) : op A := fun d => Some (Err e, d).
Definition bind {A B} (m : op A) (k : A -> op B) : op B :=
  fun d =>
    match m d with
    | Some (Ok a, d) => k a d
    | Some (Err e, d) => Some (Err e, d)
    | None => None
    end.
Definition get {A} (f : Driver -> A) : op A := fun d => Some (Ok (f d), d).
Definition modify (f : Driver -> Driver) : op unit := fun d => Some (Ok tt, f d).
(** A value whose absence is a panic. *)
Definition need {A} (o : option A) : op A := fun d => let! a := o in Some (Ok a, d).
Definition lift {A} (r : result A RuntimeError) : op A := fun d => Some (r, d).

Notation "'let*' x ':=' m 'in' k" :=
  (bind m (fun x => k)) (at level 200, x pattern, k at level 200, right associativity).

Fixpoint for_each {A} (f : A -> op unit) (l : list A) : op unit :=
  match l with
  | [] => ret tt
  | x :: l => let* _ := f x in for_each f l
  end.

(** Indexing [groups] panics out of range. *)
Definition group (gid : nat) : op Group := fun d => let! g := d_groups d !! gid in Some (Ok g, d).
Definition set_group (gid : nat) (g : Group) : op unit :=
  modify (fun d => set_d_groups (<[gid := g]> (d_groups d)) d).
Definition on_group (gid : nat) (f : Group -> Group) : op unit :=
  let* g := group gid in set_group gid (f g).

(** An operation of the route state. *)
Definition route {A} (f : RouteState -> option (A * RouteState)) : op A :=
  fun d => let! (a, s) := f (d_route d) in Some (Ok a, set_d_route s d).
Definition update_route (f : RouteState -> RouteState) : op unit :=
  modify (fun d => set_d_route (f (d_route d)) d).
Definition hook (event : HookEvent) : op unit :=
  modify (fun d => set_d_hooks (d_hooks d ++ [event]) d).

(** ** Pure helpers *)

(** [success_from_final_info]: the first key holding a bool or a number decides. *)
Definition decides (final_info : ProtoMetaMap) (key : string) : option bool :=
  match btree_get key final_info with
  | Some (mkProtoMeta (Some (PBool value))) => Some value
  | Some (mkProtoMeta (Some (PInteger value))) => Some (negb (value =? 0))
  | Some (mkProtoMeta (Some (PNumber value))) => Some (negb (f64_eqb value f64_zero))
  | _ => None
  end.

Definition success_from_final_info (keys : list string) (final_info : option ProtoMetaMap)
    : option bool :=
  let! entries := final_info in find_map (decides entries) keys.

(** FNV-1a over the seed's inputs, with the sign bit cleared. *)
Definition FNV_OFFSET : Z := 0xcbf29ce484222325.
Definition FNV_PRIME : Z := 0x100000001b3.

Definition fnv_update (hash : Z) (bytes : list byte) : Z :=
  fold_left (fun hash byte => wrap_u 64 (Z.lxor hash (byte.unsigned byte) * FNV_PRIME)) bytes hash.

Definition deterministic_reset_seed (base_seed : Z) (session : string) (generation env_index : Z) : Z :=
  let hash := fnv_update FNV_OFFSET (le_split 8 (wrap_u 64 base_seed)) in
  let hash := fnv_update hash [Byte.xff] in
  let hash := fnv_update hash (String.list_byte_of_string session) in
  let hash := fnv_update hash [Byte.xfd] in
  let hash := fnv_update hash (le_split 8 generation) in
  let hash := fnv_update hash [Byte.xfc] in
  let hash := fnv_update hash (le_split 8 env_index) in
  Z.land hash i64_max.

(** The loop of [episode_ids_with_roll] over the map's entries, in whatever order. *)
Definition place_roll (lanes : list Z) (ids : list string) (roll : Z * string) : list string :=
  match list_find (fun lane => lane = roll.1) lanes with
  | Some (position, _) => alter (fun _ => roll.2) position ids
  | None => ids
  end.

Definition episode_ids_with_roll (ids : list string) (lanes : list Z) (pending_roll : gmap Z string)
    : list string :=
  fold_left (place_roll lanes) (map_to_list pending_roll) ids.

Definition is_none (p : PredictState) : bool := match p with PNone => true | _ => false end.
Definition is_wanted (p : PredictState) : bool := match p with PWanted _ => true | _ => false end.
Definition is_in_flight (p : PredictState) : bool := match p with PInFlight _ => true | _ => false end.
Definition no_frames (g : Group) : bool := match g_replay g with [] => true | _ => false end.

(** [PredictScheduler::plan], and the default policy. *)
Definition Plan : Type := list nat -> nat -> list nat.
Definition eager : Plan := fun waiting _ => waiting.

(** What a driver is set up with: the session, the prefetch lead, whether the model
    negotiated observation history and whether it fuses predicts, the ids minted, and
    the order in which the keys of a hash map come out. *)
Class Setup : Type := {
  spec : RuntimeSessionSpec;
  prefetch_lead : Z;
  deliver_history : bool;
  fuses : bool;
  mint : nat -> string;
  keys : gmap Z string -> list Z;
}.

Section Driver.
Context `{Setup}.

(** The session's [driver_owns_resets]: an unknown mode falls back to [DISABLED]. *)
Definition autoreset_mode : ProtoAutoresetMode :=
  default ProtoDisabled (proto_autoreset_try_from (pc_autoreset_mode (env_contract spec))).
Definition owns_resets : bool :=
  bool_decide (autoreset_mode ∈ driver_owned_reset_modes (edition_defaults spec)).

Definition lane_partition : list (list Z) :=
  let all := Z.of_nat <$> seq 0 (Z.to_nat (Z.max (spec_num_envs spec) 1)) in
  if subset_step spec && (1 <? Z.max (spec_num_envs spec) 1)
  then (fun lane => [lane]) <$> all else [all].

Definition group_new (lanes : list Z) : Group :=
  let lane_group := subset_step spec && (1 <? Z.max (spec_num_envs spec) 1) in
  mkGroup lanes (Z.to_nat <$> lanes) lane_group (negb lane_group) PhReady PNone true [] None [] 0 ∅ []
    None 0 0.

Definition groups : list Group := group_new <$> lane_partition.

(** ** Starting episodes *)

Definition seeds_for (g : Group) (claimed : list Z) : list Z :=
  match episode_seeds spec with
  | _ :: _ => default [] (mapM (fun slot => episode_seeds spec !! Z.to_nat slot) claimed)
  | [] =>
      match base_seed spec with
      | None => []
      | Some base =>
          if g_lane_group g
          then (fun slot => deterministic_reset_seed base (session_id (spec_ids spec)) slot 0) <$> claimed
          else (fun lane => deterministic_reset_seed base (session_id (spec_ids spec))
                  (g_reset_generation g) lane) <$> g_lanes g
      end
  end.

Definition mint_episode_ids (count : nat) : op (list string) :=
  fun d => Some (Ok (mint <$> seq (d_minted d) count), set_d_minted (d_minted d + count)%nat d).

Definition planned_trial_indices (lanes : nat) : op (list Z) :=
  if owns_resets then route (claim_trial_indices (trial_index_base spec) lanes) else ret [].

Definition trial_options (trials : list Z) : option ProtoMetaMap :=
  reset_options_for (env_contract spec) (trial_index_option_key (edition_defaults spec)) trials.

Definition requested_lanes (g : Group) : list Z := if g_whole g then [] else g_lanes g.

(** The slots a reset of the group claims. *)
Definition claim_for (g : Group) : op (list Z) :=
  if g_lane_group g then
    let* claimed := route (claim_slots (width g) true) in ret (default [] claimed)
  else route (claim_slots_upto (width g)).

Definition mark_all_surplus (ids : list string) (s : RouteState) : RouteState :=
  fold_left (fun s id => mark_surplus id s) ids s.

(** The group as it leaves for a reset. *)
Definition resetting (ids : list string) (claimed : list Z) (g : Group) : Group :=
  set_g_phase PhResetting (set_g_env false (set_g_pending_roll ∅ (set_g_history [] (set_g_replay []
    (set_g_pending_start (Some (ids, claimed)) g))))).

Definition begin_reset (gid : nat) (initial : bool) : op unit :=
  let* g := group gid in
  let* claimed := claim_for g in
  match claimed with
  | [] => set_group gid (set_g_predict PNone (set_g_phase PhIdle g))
  | _ =>
      let* generation :=
        if initial then ret (g_reset_generation g)
        else need (checked 0 u64_max (g_reset_generation g + 1)) in
      let g := set_g_reset_generation generation g in
      let seeds := seeds_for g claimed in
      let* ids := mint_episode_ids (width g) in
      let* _ := update_route (mark_all_surplus (drop (length claimed) ids)) in
      let* _ := update_route (note_episode_seeds ids seeds) in
      let* trials := planned_trial_indices (width g) in
      let* _ := update_route (note_episode_trials ids trials) in
      let request := mkResetRequest seeds (trial_options trials)
        (Z.max (env_reset_timeout_ms (limits spec)) 0) (requested_lanes g) ids in
      let* _ := need (if g_env g then Some tt else None) in
      let* _ := set_group gid (resetting ids claimed g) in
      modify (fun d => set_d_env_ops (d_env_ops d ++ [FlyReset gid initial request]) d)
  end.

(** ** Requests to the model *)

(** [latest_request]: the group's latest observation as a request, taken off the
    backlog on a history route. *)
Definition latest_request (g : Group) : option PredictRequest * Group :=
  match g_obs_msg g with
  | None => (None, g)
  | Some msg =>
      if deliver_history then
        if bool_decide (frame_step <$> last (g_history g) = pr_step msg) then
          let rows := take (length (g_history g) - 1) (g_history g) in
          (Some (mkPredict (pr_context msg) (pr_observation msg) (pr_episode_info msg) rows
             (pr_step msg)), set_g_history [] g)
        else (None, g)
      else (Some msg, g)
  end.

(** ** Dispatching *)

(** A group without frames takes over a chunk that arrived early; without one there is
    nothing to play. *)
Definition refill (g : Group) : option Group :=
  match g_replay g, g_predict g with
  | [], PReady frames => Some (set_g_predict PNone (set_g_replay frames g))
  | [], _ => None
  | _, _ => Some g
  end.

(** The prefetch arm. *)
Definition prefetch (g : Group) : Group :=
  if (0 <? prefetch_lead) && (Z.of_nat (length (g_replay g)) <=? prefetch_lead) && is_none (g_predict g)
  then
    match latest_request g with
    | (Some msg, g) => set_g_predict (PWanted msg) g
    | (None, g) => g
    end
  else g.

(** The body of the loop of [dispatch_steps]; [transform] is what the action transform
    and the relay policy make of the group's action. *)
Definition dispatch_step (transform : nat -> ValueLeaves -> result (option ValueLeaves) RuntimeError)
    (gid : nat) : op unit :=
  let* g := group gid in
  match g_phase g, refill g with
  | PhReady, Some g =>
    match g_replay g with
    | [] => set_group gid g
    | frame :: rest =>
      let g := prefetch (set_g_replay rest g) in
      let* _ := set_group gid g in
      let* s := get d_route in
      let snapshot := snapshot_at (g_positions g) s in
      let* action_step := need (checked_i64 (snap_step snapshot + 1)) in
      let* action := lift (transform gid frame) in
      let* _ := hook (HAction (snap_episode_ids snapshot) action_step) in
      let ids := episode_ids_with_roll (episode_ids_at (g_positions g) s) (g_lanes g) (g_pending_roll g) in
      let request := mkStepRequest action (Z.max (env_step_timeout_ms (limits spec)) 0)
        (requested_lanes g) ids in
      let* _ := need (if g_env g then Some tt else None) in
      let* _ := set_group gid (set_g_phase PhStepping (set_g_env false g)) in
      modify (fun d => set_d_env_ops (d_env_ops d ++ [FlyStep gid request]) d)
    end
  | _, _ => ret tt
  end.

Definition dispatch_steps (transform : nat -> ValueLeaves -> result (option ValueLeaves) RuntimeError)
    : op unit :=
  let* all := get d_groups in for_each (dispatch_step transform) (seq 0 (length all)).

(** The loop of [predict_for]: a group that is not waiting is unreachable. *)
Fixpoint take_wanted (chosen : list nat) : op (list (nat * PredictRequest)) :=
  match chosen with
  | [] => ret []
  | gid :: chosen =>
      let* g := group gid in
      match g_predict g with
      | PWanted msg =>
          let* _ := set_group gid (set_g_predict (PInFlight false) g) in
          let* _ := update_route (mark_predicted (g_positions g)) in
          let* rest := take_wanted chosen in
          ret ((gid, msg) :: rest)
      | _ => need None
      end
  end.

Definition predict_for (chosen : list nat) : op unit :=
  let* taken := take_wanted chosen in
  modify (fun d =>
    set_d_sent (d_sent d ++ [MPredict (snd <$> taken)])
      (set_d_predicts (d_predicts d ++ [(fun '(gid, msg) => (gid, pr_context msg)) <$> taken]) d)).

Definition waiting (gs : list Group) : list nat :=
  List.filter (fun gid => match gs !! gid with Some g => is_wanted (g_predict g) | None => false end)
    (seq 0 (length gs)).

Definition dispatch_predict (plan : Plan) (force : bool) : op unit :=
  let* d := get (fun d => d) in
  if fuses && negb (bool_decide (length (d_predicts d) = 0%nat)) then ret tt
  else
    let wait := waiting (d_groups d) in
    match wait with
    | [] => ret tt
    | _ =>
        let chosen := List.filter (fun gid => bool_decide (gid ∈ wait))
          (plan wait (length (List.filter busy (d_groups d)))) in
        let chosen := match chosen with [] => if force then wait else [] | _ => chosen end in
        match chosen with
        | [] => ret tt
        | _ => if fuses then predict_for chosen else for_each (fun gid => predict_for [gid]) chosen
        end
    end.

(** ** Evictions *)

(** [end_episode_at] for each lane, in order. *)
Fixpoint end_all (env_indices : list Z) (s : RouteState) : list string * RouteState :=
  match env_indices with
  | [] => ([], s)
  | env_index :: env_indices =>
      let (id, s) := end_episode_at env_index s in
      let (ids, s) := end_all env_indices s in
      (option_list id ++ ids, s)
  end.

Definition queue_evictions (gid : nat) (g : Group) (env_indices : list Z) : op unit :=
  let* ids := route (fun s => Some (end_all env_indices s)) in
  if is_in_flight (g_predict g)
  then modify (fun d => set_d_held_evictions (d_held_evictions d ++ ((fun id => (gid, id)) <$> ids)) d)
  else modify (fun d => set_d_pending_evictions (d_pending_evictions d ++ ids) d).

(** [flush_evictions]: the queued ids go out whatever becomes of the call. *)
Definition flush_evictions : op unit :=
  let* ids := get d_pending_evictions in
  match ids with
  | [] => ret tt
  | _ =>
      let* _ := modify (set_d_pending_evictions []) in
      let* request := route (reset_adapter_request ids) in
      modify (fun d => set_d_sent (d_sent d ++ [MEvict request]) d)
  end.

(** ** Observing *)

(** [observe]; [transform] is what the observation transform and the relay policy make
    of the observation. *)
Definition observe (transform : option ValueLeaves -> result (option ValueLeaves) RuntimeError)
    (gid : nat) (observation : option ValueLeaves) (phase : RequestPhase) (is_reset : bool) : op unit :=
  let* g := group gid in
  let* msg := route (predict_request_at (g_positions g) observation phase) in
  let* s := get d_route in
  let* transformed := lift (transform observation) in
  let* _ := hook (HObservation (snap_episode_ids (snapshot_at (g_positions g) s)) is_reset) in
  let replans := no_frames g && is_none (g_predict g) in
  let own step rows := mkPredict (pr_context msg) transformed (pr_episode_info msg) rows step in
  let* (msg, g) :=
    if deliver_history then
      if replans then ret (own (Some (g_steps g)) (g_history g), set_g_history [] g)
      else if (HISTORY_BACKLOG_CAP <=? length (g_history g))%nat then
        fail (ProtocolFailure (Msg
          "route {} buffered {} observation-history rows without a predict: the model endpoint returned a chunk longer than any execution horizon the runtime supports"
          [AStr (env_id (route_ids s)); ANat (length (g_history g))]))
      else
        let row := mkFrame transformed (pr_episode_info msg) (g_steps g) in
        ret (own (Some (g_steps g)) [], set_g_history (g_history g ++ [row]) g)
    else ret (own None [], g) in
  let g := set_g_phase PhReady (set_g_obs_msg (Some msg) g) in
  set_group gid (if replans then set_g_predict (PWanted msg) g else g).

(** ** A predict lands *)

Record Prediction : Type := mkPrediction {
  pd_context : AdapterContext;
  pd_actions : list ValueLeaves;
}.

(** What a landed predict does to its group. *)
Definition apply_frames (frames : list ValueLeaves) (g : Group) : Group :=
  match g_predict g with
  | PInFlight true =>
      if bool_decide (g_phase g = PhReady) && no_frames g then
        let (msg, g) := latest_request g in
        set_g_predict (match msg with Some msg => PWanted msg | None => PNone end) g
      else set_g_predict PNone g
  | PInFlight false =>
      if no_frames g then set_g_predict PNone (set_g_replay frames g)
      else set_g_predict (PReady frames) g
  | _ => g
  end.

(** The evictions held behind a group's predict go out. *)
Definition release_held (gid : nat) : op unit :=
  modify (fun d =>
    set_d_held_evictions (List.filter (fun '(held, _) => negb (bool_decide (held = gid))) (d_held_evictions d))
      (set_d_pending_evictions
        (d_pending_evictions d ++
         (snd <$> List.filter (fun '(held, _) => bool_decide (held = gid)) (d_held_evictions d))) d)).

Definition apply_prediction (rpc : Z) (gid : nat) (expected : AdapterContext)
    (result : result Prediction RuntimeError) : op unit :=
  let* prediction := lift result in
  let* s := get d_route in
  let component := model_component_id (route_ids s) in
  if negb (bool_decide (pd_context prediction = expected))
  then fail (ModelRouteMismatch component (ac_request_id expected))
  else
    match pd_actions prediction with
    | [] => fail (ProtocolFailure (Msg
        "model endpoint {} returned a predict response with no actions" [AStr component]))
    | frames =>
        let* _ := on_group gid (fun g =>
          apply_frames frames (set_g_pending_predict (g_pending_predict g + rpc) g)) in
        release_held gid
    end.

Fixpoint apply_predictions (rpc : Z) (requests : PredictOp) (results : list (result Prediction RuntimeError))
    : op unit :=
  match requests, results with
  | (gid, expected) :: requests, result :: results =>
      let* _ := apply_prediction rpc gid expected result in
      apply_predictions rpc requests results
  | _, _ => ret tt
  end.

Definition on_predict_outcome (requests : PredictOp) (rpc : Z)
    (outcome : result (list (result Prediction RuntimeError)) RuntimeError) : op unit :=
  let* results := lift outcome in
  let* s := get d_route in
  if negb (Nat.eqb (length results) (length requests)) then
    fail (ProtocolFailure (Msg "model endpoint {} answered {} of {} grouped predicts"
      [AStr (model_component_id (route_ids s)); ANat (length results); ANat (length requests)]))
  else apply_predictions rpc requests results.

(** ** Completions *)

(** [i32::try_from(u32).unwrap_or(i32::MAX)]. *)
Definition lane_i32 (env_index : Z) : Z := Z.min env_index i32_max.

(** [(end - start).max(0) / 1_000_000]. *)
Definition duration_ms (completed : EpisodeMetadata) : option Z :=
  let! elapsed := checked_i64 (end_timestamp_ns completed - start_timestamp_ns completed) in
  Some (Z.max elapsed 0 / 1000000).

(** One round of the loop of [complete_episodes]. *)
Definition complete_one (completed : EpisodeMetadata) : op (list CompletedEvent) :=
  let* s := get d_route in
  if is_surplus (episode_id completed) s then ret []
  else
    let (predict_ms, step_ms) := slot_timings_ms (env_index completed) s in
    let* record := route (complete_episode (episode_id completed)) in
    let* duration := need (duration_ms completed) in
    let summary := mkSummary (match record with Some r => rec_index r | None => 0 end)
      (lane_i32 (env_index completed)) (seed_for_episode (episode_id completed) s)
      (trial_for_episode (episode_id completed) s) (step_count completed) (cumulative_reward completed)
      (terminated completed) (truncated completed) duration
      (success_from_final_info (success_info_keys (edition_defaults spec)) (final_info completed))
      predict_ms step_ms in
    let* _ := if is_some (spec_max_episodes spec) then update_route (record_episode_summary summary)
              else ret tt in
    ret [mkCompleted (episode_id completed) (match record with Some r => record_id r | None => "" end) summary].

Fixpoint complete_episodes (episodes : list EpisodeMetadata) : op (list CompletedEvent) :=
  match episodes with
  | [] => ret []
  | completed :: episodes =>
      let* here := complete_one completed in
      let* rest := complete_episodes episodes in
      ret (here ++ rest)
  end.

Definition fan_out_completions (events : list CompletedEvent) : op unit :=
  for_each (fun event => hook (HCompleted event)) events.

(** The caps in force, and whether a slot is at one of them. *)
Definition step_cap : option Z :=
  match max_episode_steps spec with
  | Some cap => Some cap
  | None => if owns_resets then Some (default_max_episode_steps (edition_defaults spec)) else None
  end.

Definition at_cap (now_ns : Z) (slot : SlotState) : option bool :=
  let! elapsed := checked_i64 (now_ns - slot_started_at_ns slot) in
  let seconds := f64_div (f64_of_Z (Z.max elapsed 0)) (f64_of_Z 1000000000) in
  Some (match step_cap with Some cap => cap <=? slot_step slot | None => false end
    || match max_episode_seconds spec with Some cap => f64_ge seconds cap | None => false end).

(** The [filter_map] of [capped_completions], on the row of the group. *)
Definition capped_lane (now_ns : Z) (env_done : list Z) (infos : option ProtoMetaMap) (rows row : nat)
    (slot : SlotState) : option (list EpisodeMetadata) :=
  match slot_episode slot with
  | None => Some []
  | Some episode =>
      if (slot_env_index slot <? 0) || bool_decide (slot_env_index slot ∈ env_done) then Some []
      else
        let! capped := at_cap now_ns slot in
        if capped then
          let! info := lane_final_info infos row rows in
          Some [mkMetadata (es_episode_id episode) None (slot_env_index slot) (slot_step slot)
            (slot_cumulative_reward slot) false true (slot_started_at_ns slot) now_ns info]
        else Some []
  end.

Fixpoint capped_lanes (now_ns : Z) (env_done : list Z) (infos : option ProtoMetaMap) (rows row : nat)
    (slots : list SlotState) : option (list EpisodeMetadata) :=
  match slots with
  | [] => Some []
  | slot :: slots =>
      let! here := capped_lane now_ns env_done infos rows row slot in
      let! rest := capped_lanes now_ns env_done infos rows (S row) slots in
      Some (here ++ rest)
  end.

Definition capped_completions (now : clock_read) (s : RouteState) (positions : list nat)
    (env_completed : list EpisodeMetadata) (infos : option ProtoMetaMap)
    : option (list EpisodeMetadata) :=
  if is_some step_cap || is_some (max_episode_seconds spec)
  then capped_lanes (now_unix_ns now) (env_index <$> env_completed) infos (length positions) 0
         (slots_at positions s)
  else Some [].

(** ** A step lands *)

(** The completions the route still recognises: those naming the episode the lane
    holds. *)
Definition recognised (s : RouteState) (completed : EpisodeMetadata) : bool :=
  bool_decide (episode_id_at (env_index completed) s = Some (episode_id completed)).

Definition lane_flags (ids : list string) (ended : EpisodeMetadata -> bool) (completed : list EpisodeMetadata)
    : list bool :=
  (fun id => existsb (fun m => String.eqb (episode_id m) id && ended m) completed) <$> ids.

(** The slots the rolling lanes claim, in lane order. *)
Fixpoint claim_rolls (pending_roll : gmap Z string) (lanes : list Z) : op (list (option Z)) :=
  match lanes with
  | [] => ret []
  | lane :: lanes =>
      let* slot :=
        if is_some (pending_roll !! lane) then
          let* claimed := route (claim_slots 1 true) in
          ret (claimed ≫= head)
        else ret None in
      let* rest := claim_rolls pending_roll lanes in
      ret (slot :: rest)
  end.

(** A rolled lane that got no slot runs surplus. *)
Fixpoint mark_rolls (pending_roll : gmap Z string) (lanes : list Z) (ids : list string)
    (rolling : list (option Z)) (s : RouteState) : RouteState :=
  match lanes, ids, rolling with
  | lane :: lanes, id :: ids, slot :: rolling =>
      mark_rolls pending_roll lanes ids rolling
        (if is_some (pending_roll !! lane) && negb (is_some slot) then mark_surplus id s else s)
  | _, _, _ => s
  end.

Definition invoke_started_episodes (started : list StartedEpisode) : op unit :=
  let* s := get d_route in
  for_each (fun e =>
    if is_surplus (st_episode_id e) s then ret tt
    else hook (HStarted e (seed_for_episode (st_episode_id e) s) (trial_for_episode (st_episode_id e) s)))
    started.

(** The deferred completions and evictions of the lanes in [pending_roll] go out. *)
Definition settle_rolls (gid : nat) : op (gmap Z string) :=
  let* g := group gid in
  let* _ := set_group gid (set_g_pending_completed [] g) in
  let* _ := fan_out_completions (g_pending_completed g) in
  let* _ := on_group gid (set_g_pending_roll ∅) in
  let* _ := queue_evictions gid g (keys (g_pending_roll g)) in
  ret (g_pending_roll g).

(** The autoreset roll of [on_step]. *)
Definition roll (now : nat -> clock_read) (gid : nat) : op unit :=
  let* pending_roll := settle_rolls gid in
  let* g := group gid in
  let* s := get d_route in
  let ids := episode_ids_with_roll (episode_ids_at (g_positions g) s) (g_lanes g) pending_roll in
  let* rolling := claim_rolls pending_roll (g_lanes g) in
  let* _ := update_route (mark_rolls pending_roll (g_lanes g) ids rolling) in
  let* started := route (observe_episode_ids_at now (g_positions g) ids rolling) in
  invoke_started_episodes started.

(** Mint the next id of each lane that completed, once per lane. *)
Fixpoint mint_rolls (completed : list EpisodeMetadata) (pending_roll : gmap Z string)
    : op (gmap Z string) :=
  match completed with
  | [] => ret pending_roll
  | m :: completed =>
      match pending_roll !! env_index m with
      | Some _ => mint_rolls completed pending_roll
      | None =>
          let* ids := mint_episode_ids 1 in
          mint_rolls completed (<[env_index m := default "" (head ids)]> pending_roll)
      end
  end.

(** What an episode end leaves of a group's plan. *)
Definition replan (g : Group) : Group :=
  set_g_predict (match g_predict g with PInFlight _ => PInFlight true | _ => PNone end)
    (set_g_replay [] g).

Definition budget_spent (s : RouteState) : bool :=
  match spec_max_episodes spec with
  | Some limit => wrap_s 64 limit <=? total_episodes s
  | None => false
  end.

(** The group has nothing scored left to run. *)
Definition retires (g : Group) (s : RouteState) : bool :=
  ((negb (g_lane_group g) || negb owns_resets) && budget_spent s) || all_surplus_at (g_positions g) s.

Definition retire (gid : nat) : op unit :=
  let* _ := settle_rolls gid in
  on_group gid (fun g => set_g_predict PNone (set_g_phase PhIdle g)).

(** The accounting of a step, up to the lanes that finished with it. *)
Definition account_step (now : nat -> clock_read) (gid : nat) (response : StepResponse) (rpc : Z)
    : op (list EpisodeMetadata * bool) :=
  let* g := group gid in
  let* steps := need (checked_i64 (g_steps g + 1)) in
  let predict := g_pending_predict g in
  let* _ := set_group gid (set_g_pending_predict 0 (set_g_steps steps (set_g_phase PhReady g))) in
  let* _ := route (fun s =>
    let! s := record_step_at (g_positions g) (rewards response) rpc predict s in Some (tt, s)) in
  let* s := get d_route in
  let completed := List.filter (recognised s) (completed_episodes response) in
  let* capped := need (capped_completions (now 0%nat) s (g_positions g) completed (infos response)) in
  let completed := completed ++ capped in
  let ids := episode_ids_at (g_positions g) s in
  let snapshot := snapshot_at (g_positions g) s in
  let* _ := hook (HStep (snap_episode_id snapshot) (snap_step snapshot) (rewards response)
    (lane_flags ids terminated completed) (lane_flags ids truncated completed)
    ((fun lane => is_some (g_pending_roll g !! lane)) <$> g_lanes g)) in
  ret (completed, negb (bool_decide (g_pending_roll g = ∅))).

Definition on_step (now : nat -> clock_read)
    (transform : option ValueLeaves -> result (option ValueLeaves) RuntimeError)
    (gid : nat) (response : StepResponse) (rpc : Z) : op unit :=
  let* (completed, rolled) := account_step now gid response rpc in
  let* _ := if rolled : bool then roll now gid else ret tt in
  let* events := complete_episodes completed in
  let* g := group gid in
  let* _ :=
    if owns_resets then
      let* _ := fan_out_completions events in
      queue_evictions gid g (env_index <$> completed)
    else set_group gid (set_g_pending_completed (g_pending_completed g ++ events) g) in
  let* _ :=
    match completed with
    | [] => ret tt
    | _ =>
        let* g := group gid in
        let* pending_roll := if owns_resets then ret (g_pending_roll g)
                             else mint_rolls completed (g_pending_roll g) in
        set_group gid (set_g_pending_roll pending_roll (replan g))
    end in
  let* g := group gid in
  let* s := get d_route in
  if retires g s then retire gid
  else if owns_resets && negb (bool_decide (length completed = 0%nat)) then begin_reset gid false
  else observe transform gid (step_observation response) StepObservation false.

(** ** A reset lands *)

Definition on_reset (now : nat -> clock_read)
    (transform : option ValueLeaves -> result (option ValueLeaves) RuntimeError)
    (gid : nat) (initial : bool) (response : ResetResponse) : op unit :=
  let* g := group gid in
  let* (ids, claimed) := need (g_pending_start g) in
  let* _ := set_group gid (set_g_pending_start None g) in
  let* started := route (start_episodes_at now (g_positions g) ids (negb initial) claimed) in
  let* _ := invoke_started_episodes started in
  observe transform gid (reset_observation response) ResetObservation true.

(** ** The loop *)

(** The state of a finished env operation: the group has its handle back. *)
Definition landed (gid : nat) : op unit := on_group gid (set_g_env true).

(** A reply to an env operation. *)
Inductive EnvReply : Type :=
  | ReplyReset (r : result ResetResponse RuntimeError)
  | ReplyStep (r : result StepResponse RuntimeError).

Definition on_env_outcome (now : nat -> clock_read)
    (transform : option ValueLeaves -> result (option ValueLeaves) RuntimeError)
    (rpc : Z) (o : EnvOp) (reply : EnvReply) : op unit :=
  match o, reply with
  | FlyReset gid initial _, ReplyReset r =>
      let* _ := landed gid in
      let* response := lift r in
      on_reset now transform gid initial response
  | FlyStep gid _, ReplyStep r =>
      let* _ := landed gid in
      let* response := lift r in
      on_step now transform gid response rpc
  | _, _ => need None
  end.

(** Where the loop is: at its top, waiting for an operation to land, or out. *)
Inductive Where : Type :=
  | Top
  | Waiting
  | Finished
  | Failed (e : RuntimeError).

Definition all_idle (d : Driver) : bool :=
  forallb (fun g => bool_decide (g_phase g = PhIdle)) (d_groups d).

Definition nothing_flying (d : Driver) : bool :=
  match d_env_ops d, d_predicts d with [], [] => true | _, _ => false end.

Definition stalled (d : Driver) : RuntimeError :=
  ProtocolFailure (Msg "route {} stalled with no operation in flight" [AStr (env_id (route_ids (d_route d)))]).

(** The body of the loop up to [select!]. *)
Definition dispatch (plan : Plan)
    (transform : nat -> ValueLeaves -> result (option ValueLeaves) RuntimeError) : op unit :=
  let* _ := (fun d => match d_predicts d with [] => flush_evictions d | _ => ret tt d end) in
  let* _ := dispatch_steps transform in
  let* force := get nothing_flying in
  let* _ := dispatch_predict plan force in
  let* d := get (fun d => d) in
  if nothing_flying d then fail (stalled d) else ret tt.

(** The start of [run_loop]: every group's first reset. *)
Definition driver_new (now : Z -> clock_read) : Driver :=
  mkDriver (route_new now (spec_ids spec) (spec_num_envs spec) (spec_max_episodes spec)) groups [] [] []
    [] 0 [] [].

Definition start : op unit := for_each (fun gid => begin_reset gid true) (seq 0 (length groups)).

Definition outcome (r : result unit RuntimeError) (next : Where) : Where :=
  match r with Ok _ => next | Err e => Failed e end.

(** One step of the loop.  Cancellation is a step of its own, at the top and while
    waiting; a panic takes no step. *)
Inductive drives : Where -> Driver -> Where -> Driver -> Prop :=
  | drive_done d :
      all_idle d = true -> nothing_flying d = true -> drives Top d Finished d
  | drive_dispatch plan transform d r d' :
      all_idle d && nothing_flying d = false ->
      dispatch plan transform d = Some (r, d') -> drives Top d (outcome r Waiting) d'
  | drive_env now transform rpc reply o l1 l2 d r d' :
      d_env_ops d = l1 ++ o :: l2 ->
      on_env_outcome now transform rpc o reply (set_d_env_ops (l1 ++ l2) d) = Some (r, d') ->
      drives Waiting d (outcome r Top) d'
  | drive_predict rpc results requests l1 l2 d r d' :
      d_predicts d = l1 ++ requests :: l2 ->
      on_predict_outcome requests rpc results (set_d_predicts (l1 ++ l2) d) = Some (r, d') ->
      drives Waiting d (outcome r Top) d'
  | drive_cancel w step reason d :
      w = Top \/ w = Waiting ->
      drives w d (Failed (RouteCancelled (env_id (route_ids (d_route d))) step reason)) d.

(** A route of the driver, from its first resets. *)
Inductive route_run : Where -> Driver -> Prop :=
  | run_start now r d :
      start (driver_new now) = Some (r, d) -> route_run (outcome r Top) d
  | run_drive w d w' d' : route_run w d -> drives w d w' d' -> route_run w' d'.

(** ** Teardown *)

(** What follows the loop: unless a predict was abandoned, the held evictions and the
    live episodes' ends go out before the model is released. *)
Definition teardown (abandoned : bool) : op unit :=
  if abandoned then
    modify (fun d => set_d_pending_evictions [] (set_d_held_evictions [] d))
  else
    let* held := get d_held_evictions in
    let* live := route (fun s => Some (end_live_episodes s)) in
    let* _ := modify (fun d =>
      set_d_pending_evictions (d_pending_evictions d ++ (snd <$> held) ++ live) (set_d_held_evictions [] d)) in
    flush_evictions.
End Driver.
