(* ===== verification/DriverInv.v ===== *)
(** * The invariant of the run driver

    What holds of every group of a route, at the top of the loop and while it waits: its
    lanes are those it was made with; a group that steps or resets has exactly that
    operation in flight, with a request for its lanes, and has handed out its env handle;
    no other group has one; a prediction under way is in exactly one predict in flight;
    and a ready group has a frame to play or a prediction it wants, awaits or can ask for
    again.  Every handler keeps it. *)

From S2P Require Import Prelude Episode EnvServer Route SessionSpec Driver.

(** ** Reasoning on operations *)

(** [m] run from [d] meets [Q] unless it panics or fails. *)
Definition wp {A} (m : op A) (Q : A -> Driver -> Prop) (d : Driver) : Prop :=
  match m d with
  | Some (Ok a, d') => Q a d'
  | _ => True
  end.

Lemma wp_bind {A B} (m : op A) (k : A -> op B) Q d :
  wp m (fun a => wp (k a) Q) d -> wp (bind m k) Q d.
Proof. unfold wp, bind. by destruct (m d) as [[[a|e] d']|]. Qed.

Lemma wp_mono {A} (m : op A) (Q Q' : A -> Driver -> Prop) d :
  wp m Q d -> (forall a d', Q a d' -> Q' a d') -> wp m Q' d.
Proof. unfold wp. destruct (m d) as [[[a|e] d']|]; eauto. Qed.

Lemma wp_get {A} (f : Driver -> A) Q d : Q (f d) d -> wp (get f) Q d.
Proof. done. Qed.
Lemma wp_ret {A} (a : A) Q d : Q a d -> wp (ret a) Q d.
Proof. done. Qed.
Lemma wp_modify f Q d : Q tt (f d) -> wp (modify f) Q d.
Proof. done. Qed.
Lemma wp_fail {A} e (Q : A -> Driver -> Prop) d : wp (fail e) Q d.
Proof. done. Qed.
Lemma wp_need {A} (o : option A) Q d : (forall a, o = Some a -> Q a d) -> wp (need o) Q d.
Proof. unfold wp, need. destruct o; simpl; eauto. Qed.
Lemma wp_lift {A} (r : result A RuntimeError) Q d : (forall a, r = Ok a -> Q a d) -> wp (lift r) Q d.
Proof. unfold wp, lift. destruct r; simpl; eauto. Qed.
Lemma wp_group gid Q d : (forall g, d_groups d !! gid = Some g -> Q g d) -> wp (group gid) Q d.
Proof. unfold wp, group. destruct (d_groups d !! gid); simpl; eauto. Qed.
Lemma wp_route {A} (f : RouteState -> option (A * RouteState)) Q d :
  (forall a s, f (d_route d) = Some (a, s) -> Q a (set_d_route s d)) -> wp (route f) Q d.
Proof. unfold wp, route. destruct (f (d_route d)) as [[a s]|]; simpl; eauto. Qed.

(** An invariant of a loop. *)
Lemma wp_for_each {A} (f : A -> op unit) (I : list A -> Driver -> Prop) l d :
  (forall x l d, I (x :: l) d -> wp (f x) (fun _ => I l) d) ->
  I l d -> wp (for_each f l) (fun _ => I []) d.
Proof.
  intros Hf. revert d. induction l as [|x l IH]; intros d Hl; [exact Hl|]. simpl.
  apply wp_bind. eapply wp_mono; [by apply Hf|]. intros [] d'. apply IH.
Qed.

(** Symbolic execution. *)
Ltac wp_step :=
  first
    [ apply wp_bind
    | apply wp_get
    | apply wp_ret
    | apply wp_modify
    | apply wp_fail
    | apply wp_need; intros
    | apply wp_lift; intros
    | apply wp_route; intros ].

(** ** The part of the driver the progress of a route depends on *)

Definition core (d : Driver) : list Group * list EnvOp * list PredictOp :=
  (d_groups d, d_env_ops d, d_predicts d).

(** An operation that leaves it alone. *)
Definition quiet {A} (m : op A) : Prop :=
  forall d r d', m d = Some (r, d') -> core d' = core d.

Lemma quiet_wp {A} (m : op A) (P : list Group * list EnvOp * list PredictOp -> Prop) d :
  quiet m -> P (core d) -> wp m (fun _ d' => P (core d')) d.
Proof.
  intros Hm Hd. unfold wp. destruct (m d) as [[[a|e] d']|] eqn:H; try done. by rewrite (Hm _ _ _ H).
Qed.

Create HintDb quiet.

Lemma quiet_ret {A} (a : A) : quiet (ret a).
Proof. by intros d r d' [= <- <-]. Qed.
Lemma quiet_fail {A} e : quiet (@fail A e).
Proof. by intros d r d' [= <- <-]. Qed.
Lemma quiet_get {A} (f : Driver -> A) : quiet (get f).
Proof. by intros d r d' [= <- <-]. Qed.
Lemma quiet_need {A} (o : option A) : quiet (need o).
Proof. intros d r d'. unfold need. destruct o; simpl; [by intros [= <- <-] | done]. Qed.
Lemma quiet_lift {A} (r : result A RuntimeError) : quiet (lift r).
Proof. by intros d r' d' [= <- <-]. Qed.
Lemma quiet_route {A} (f : RouteState -> option (A * RouteState)) : quiet (route f).
Proof.
  intros d r d'. unfold route. destruct (f (d_route d)) as [[a s]|]; simpl; [by intros [= <- <-] | done].
Qed.
Lemma quiet_modify f : (forall d, core (f d) = core d) -> quiet (modify f).
Proof. intros Hf d r d' [= <- <-]. apply Hf. Qed.
Lemma quiet_bind {A B} (m : op A) (k : A -> op B) :
  quiet m -> (forall a, quiet (k a)) -> quiet (bind m k).
Proof.
  intros Hm Hk d r d'. unfold bind. destruct (m d) as [[[a|e] d1]|] eqn:H1; [| |done].
  - intros H2. rewrite (Hk _ _ _ _ H2). by eapply Hm.
  - intros [= <- <-]. by eapply Hm.
Qed.
Lemma quiet_for_each {A} (f : A -> op unit) l : (forall x, quiet (f x)) -> quiet (for_each f l).
Proof. intros Hf. induction l; simpl; [apply quiet_ret | apply quiet_bind; eauto]. Qed.

#[export] Hint Resolve quiet_ret quiet_fail quiet_get quiet_need quiet_lift quiet_route : quiet.
#[export] Hint Extern 1 (quiet (bind _ _)) => apply quiet_bind; [|intros ?] : quiet.
#[export] Hint Extern 1 (quiet (for_each _ _)) => apply quiet_for_each; intros ? : quiet.
#[export] Hint Extern 1 (quiet (modify _)) => apply quiet_modify; done : quiet.
#[export] Hint Extern 2 (quiet (match ?x with _ => _ end)) => destruct x : quiet.

Section Quiet.
Context `{Setup}.

Lemma quiet_mint n : quiet (mint_episode_ids n).
Proof. intros d r d'. unfold mint_episode_ids. by intros [= <- <-]. Qed.
Lemma quiet_hook e : quiet (hook e).
Proof. unfold hook. eauto with quiet. Qed.
Lemma quiet_update_route f : quiet (update_route f).
Proof. unfold update_route. eauto with quiet. Qed.
#[local] Hint Resolve quiet_mint quiet_hook quiet_update_route : quiet.

Lemma quiet_claim_for g : quiet (claim_for g).
Proof. unfold claim_for. auto with quiet. Qed.
Lemma quiet_trials n : quiet (planned_trial_indices n).
Proof. unfold planned_trial_indices. auto with quiet. Qed.
Lemma quiet_queue gid g l : quiet (queue_evictions gid g l).
Proof. unfold queue_evictions. auto with quiet. Qed.
Lemma quiet_flush : quiet flush_evictions.
Proof. unfold flush_evictions. auto 8 with quiet. Qed.
Lemma quiet_release gid : quiet (release_held gid).
Proof. unfold release_held. auto with quiet. Qed.
Lemma quiet_fan_out l : quiet (fan_out_completions l).
Proof. unfold fan_out_completions. auto with quiet. Qed.
Lemma quiet_started l : quiet (invoke_started_episodes l).
Proof. unfold invoke_started_episodes. auto 8 with quiet. Qed.
Lemma quiet_claim_rolls m l : quiet (claim_rolls m l).
Proof. induction l; simpl; auto 8 with quiet. Qed.
Lemma quiet_mint_rolls l : forall m, quiet (mint_rolls l m).
Proof. induction l; simpl; intros m; auto 8 with quiet. Qed.
Lemma quiet_complete_one m : quiet (complete_one m).
Proof.
  unfold complete_one. apply quiet_bind; [auto with quiet|]. intros s. destruct (is_surplus _ _); [auto with quiet|].
  destruct (slot_timings_ms _ _). auto 12 with quiet.
Qed.
Lemma quiet_complete l : quiet (complete_episodes l).
Proof. induction l; simpl; auto using quiet_complete_one with quiet. Qed.
End Quiet.

#[export] Hint Resolve quiet_mint quiet_hook quiet_update_route quiet_claim_for quiet_trials quiet_queue
  quiet_flush quiet_release quiet_fan_out quiet_started quiet_claim_rolls quiet_mint_rolls
  quiet_complete : quiet.

(** ** The invariant *)

Definition op_gid (o : EnvOp) : nat := match o with FlyReset gid _ _ | FlyStep gid _ => gid end.

(** What is in flight for a group. *)
Definition ops_of (gid : nat) (ops : list EnvOp) : list EnvOp := filter (fun o => op_gid o = gid) ops.
Definition preds_of (gid : nat) (preds : list PredictOp) : list nat :=
  filter (fun i => i = gid) (preds ≫= fmap fst).

Lemma ops_of_snoc gid ops o : op_gid o = gid -> ops_of gid (ops ++ [o]) = ops_of gid ops ++ [o].
Proof. intros Ho. unfold ops_of. rewrite filter_app, filter_cons_True; done. Qed.
Lemma ops_of_snoc_ne gid ops o : op_gid o <> gid -> ops_of gid (ops ++ [o]) = ops_of gid ops.
Proof. intros Ho. unfold ops_of. rewrite filter_app, filter_cons_False by done. apply app_nil_r. Qed.

Lemma preds_of_app gid l1 l2 : preds_of gid (l1 ++ l2) = preds_of gid l1 ++ preds_of gid l2.
Proof. unfold preds_of. by rewrite bind_app, filter_app. Qed.
Lemma preds_of_one gid (p : PredictOp) : preds_of gid [p] = filter (fun i => i = gid) (p.*1).
Proof. unfold preds_of. simpl. by rewrite app_nil_r. Qed.

Lemma filter_eq_notin (gid : nat) l : gid ∉ l -> filter (fun i => i = gid) l = [].
Proof.
  induction l as [|i l IH]; [done|]. intros Hin. rewrite filter_cons_False by set_solver. set_solver.
Qed.
Lemma filter_eq_in (gid : nat) l : gid ∈ l -> NoDup l -> length (filter (fun i => i = gid) l) = 1%nat.
Proof.
  induction l as [|i l IH]; [by intros ?%elem_of_nil|]. intros Hin [Hi Hnd]%NoDup_cons.
  destruct (decide (i = gid)) as [->|Hne].
  - rewrite filter_cons_True by done. simpl. by rewrite filter_eq_notin.
  - rewrite filter_cons_False by done. apply IH; set_solver.
Qed.
Lemma filter_eq_pos (gid : nat) l : gid ∈ l -> (1 <= length (filter (fun i => i = gid) l))%nat.
Proof.
  intros Hin. destruct (filter _ _) eqn:Hf; simpl; [|lia].
  assert (gid ∈ filter (fun i => i = gid) l) as Hg by (by apply list_elem_of_filter).
  rewrite Hf in Hg. by apply elem_of_nil in Hg.
Qed.

Section Invariant.
Context `{Setup}.

(** What of a group never changes. *)
Definition shape (g : Group) : list Z * list nat * bool * bool :=
  (g_lanes g, g_positions g, g_lane_group g, g_whole g).
Definition well_shaped (gid : nat) (g : Group) : Prop := shape <$> groups !! gid = Some (shape g).

(** A request for the lanes of the group, with an id and at most a seed for each. *)
Definition op_ok (gid : nat) (o : EnvOp) : Prop :=
  exists g, groups !! gid = Some g /\
  match o with
  | FlyReset _ _ r =>
      reset_env_indices r = requested_lanes g /\ length (reset_episode_ids r) = width g /\
      (g_lane_group g = true -> reset_seeds r = [] \/ length (reset_seeds r) = width g)
  | FlyStep _ r => step_env_indices r = requested_lanes g
  end.

(** A stale prediction can be asked for again. *)
Definition rearms (g : Group) : Prop := exists msg, fst (latest_request g) = Some msg.

Lemma rearms_stable g g' :
  g_obs_msg g' = g_obs_msg g -> g_history g' = g_history g -> rearms g -> rearms g'.
Proof.
  unfold rearms, latest_request. intros -> ->. destruct (g_obs_msg g); [|done].
  destruct deliver_history; [|done]. by case_bool_decide.
Qed.

Definition live (g : Group) : Prop :=
  g_replay g <> [] \/
  match g_predict g with
  | PNone => False
  | PWanted _ => True
  | PReady frames => frames <> []
  | PInFlight stale => stale = true -> rearms g
  end.

Lemma live_stable g g' :
  g_obs_msg g' = g_obs_msg g -> g_history g' = g_history g -> g_replay g' = g_replay g ->
  g_predict g' = g_predict g -> live g -> live g'.
Proof.
  unfold live. intros Ho Hh -> ->. destruct (g_predict g); try done.
  intros [?|Hr]; [by left|]. right. intros Hs. eapply rearms_stable; eauto.
Qed.

Definition frames_ok (g : Group) : Prop := forall frames, g_predict g = PReady frames -> frames <> [].

Definition in_flight_count (g : Group) : nat := if is_in_flight (g_predict g) then 1%nat else 0%nat.

(** A retired group may leave a predict behind. *)
Definition pred_ok (n : nat) (g : Group) : Prop :=
  n = in_flight_count g \/ (g_phase g = PhIdle /\ g_predict g = PNone /\ n <= 1)%nat.

Definition sent (gid : nat) (g : Group) (ops : list EnvOp) : Prop :=
  match g_phase g with
  | PhStepping => exists r, ops = [FlyStep gid r] /\ op_ok gid (FlyStep gid r)
  | PhResetting =>
      is_Some (g_pending_start g) /\
      exists initial r, ops = [FlyReset gid initial r] /\ op_ok gid (FlyReset gid initial r)
  | _ => ops = []
  end.

Definition env_ok (gid : nat) (g : Group) (ops : list EnvOp) : Prop :=
  sent gid g ops /\ g_env g = negb (busy g) /\ (g_phase g = PhReady -> live g).

(** A group whose handler is running. *)
Definition free (g : Group) (ops : list EnvOp) : Prop :=
  ops = [] /\ g_env g = true /\ g_phase g <> PhIdle.

(** What holds of a group: those in [E] have their handler running, those in [S] their
    prediction in between. *)
Record holds (E S : list nat) (ops : list EnvOp) (preds : list PredictOp) (gid : nat) (g : Group) : Prop := {
  h_shape : well_shaped gid g;
  h_frames : frames_ok g;
  h_free : gid ∈ E -> free g (ops_of gid ops);
  h_env : gid ∉ E -> env_ok gid g (ops_of gid ops);
  h_out : gid ∈ S -> preds_of gid preds = [];
  h_pred : gid ∉ S -> pred_ok (length (preds_of gid preds)) g;
}.

(** The operations in flight are of groups there are. *)
Definition in_range (n : nat) (ops : list EnvOp) (preds : list PredictOp) : Prop :=
  Forall (fun o => (op_gid o < n)%nat) ops /\ Forall (fun gid => (gid < n)%nat) (preds ≫= fmap fst).

Definition inv_of (E S : list nat) (c : list Group * list EnvOp * list PredictOp) : Prop :=
  let '(gs, ops, preds) := c in
  in_range (length gs) ops preds /\
  forall gid g, gs !! gid = Some g -> holds E S ops preds gid g.

Definition inv (E S : list nat) (d : Driver) : Prop := inv_of E S (core d).

Lemma inv_quiet {A} (m : op A) E S d : quiet m -> inv E S d -> wp m (fun _ => inv E S) d.
Proof. intros Hm Hd. by apply (quiet_wp m (inv_of E S)). Qed.

Lemma inv_holds E S d gid g : inv E S d -> d_groups d !! gid = Some g ->
  holds E S (d_env_ops d) (d_predicts d) gid g.
Proof. intros Hd. apply Hd. Qed.

(** What is known of a group depends on what is in flight for it only. *)
Lemma holds_stable E S E' S' ops ops' preds preds' gid g :
  holds E S ops preds gid g -> ops_of gid ops' = ops_of gid ops ->
  preds_of gid preds' = preds_of gid preds -> (gid ∈ E' <-> gid ∈ E) -> (gid ∈ S' <-> gid ∈ S) ->
  holds E' S' ops' preds' gid g.
Proof.
  intros [Hs Hf Hfr He Ho Hp] Hops Hpreds HE HS. by split; rewrite ?Hops, ?Hpreds, ?HE, ?HS.
Qed.

(** A group whose handler is done. *)
Lemma holds_done E ops preds gid g :
  gid ∉ E -> well_shaped gid g -> frames_ok g -> env_ok gid g (ops_of gid ops) ->
  pred_ok (length (preds_of gid preds)) g -> holds E [] ops preds gid g.
Proof. intros HE Hs Hf He Hp. split; try done. by intros ?%elem_of_nil. Qed.

(** A running group. *)
Lemma holds_running E ops preds gid g :
  holds (gid :: E) [] ops preds gid g ->
  well_shaped gid g /\ frames_ok g /\ free g (ops_of gid ops) /\ pred_ok (length (preds_of gid preds)) g.
Proof.
  intros [Hs Hf Hfr _ _ Hp]. split_and!; [done | done | apply Hfr; by left | apply Hp, not_elem_of_nil].
Qed.

Lemma running_others (E : list nat) gid i : i <> gid -> i ∈ E <-> i ∈ gid :: E.
Proof. intros Hne. rewrite elem_of_cons. tauto. Qed.

(** Replacing a group. *)
Lemma inv_set_group E S E' S' gid g d :
  inv E S d ->
  (forall i, i <> gid -> i ∈ E' <-> i ∈ E) -> (forall i, i <> gid -> i ∈ S' <-> i ∈ S) ->
  holds E' S' (d_env_ops d) (d_predicts d) gid g ->
  wp (set_group gid g) (fun _ => inv E' S') d.
Proof.
  intros [Hr Hd] HE HS Hg. split; [simpl; by rewrite length_insert|]. intros i gi. simpl. rewrite list_lookup_insert.
  case_decide as Hi'.
  - destruct Hi' as [<- _]. by intros [= <-].
  - intros Hgi. assert (i <> gid) as Hne.
    { intros ->. apply Hi'. split; [done|]. by eapply lookup_lt_Some. }
    eapply holds_stable; [by apply Hd | done | done | by apply HE | by apply HS].
Qed.

(** A handler's group keeps what is in flight for it. *)
Record kept (g g' : Group) : Prop := {
  k_shape : shape g' = shape g;
  k_flight : is_in_flight (g_predict g') = is_in_flight (g_predict g);
  k_frames : forall frames, g_predict g' = PReady frames -> g_predict g = PReady frames;
}.

Lemma kept_pred g g' n : kept g g' -> g_phase g <> PhIdle -> pred_ok n g -> pred_ok n g'.
Proof.
  intros [_ Hfl _] Hph [->|[? _]]; [left|done]. unfold in_flight_count. by rewrite Hfl.
Qed.
Lemma kept_shape g g' gid : kept g g' -> well_shaped gid g -> well_shaped gid g'.
Proof. unfold well_shaped. by intros [-> _ _]. Qed.
Lemma kept_frames g g' : kept g g' -> frames_ok g -> frames_ok g'.
Proof. intros [_ _ Hk] Hf frames Hp. by apply Hf, Hk. Qed.

Lemma wp_set_kept E gid g g' d :
  inv (gid :: E) [] d -> d_groups d !! gid = Some g -> kept g g' -> g_env g' = g_env g ->
  g_phase g' <> PhIdle -> wp (set_group gid g') (fun _ => inv (gid :: E) []) d.
Proof.
  intros Hd Hg Hk He Hph.
  destruct (holds_running _ _ _ _ _ (inv_holds _ _ _ _ _ Hd Hg)) as (Hs & Hf & (Hops & Hgenv & Hni) & Hp).
  eapply inv_set_group; [done | done | done |]. split.
  - by eapply kept_shape.
  - by eapply kept_frames.
  - intros _. split; [done|]. by rewrite He.
  - intros Hn. destruct Hn. by left.
  - by intros ?%elem_of_nil.
  - intros _. by eapply kept_pred.
Qed.

(** ** Handlers *)

(** The invariant with what is known of one group. *)
Definition knows (E : list nat) (gid : nat) (g : Group) (d : Driver) : Prop :=
  inv E [] d /\ d_groups d !! gid = Some g.

Lemma core_then {A B} (m : op A) (k : A -> op B) Q (P : list Group * list EnvOp * list PredictOp -> Prop) d :
  quiet m -> P (core d) -> (forall a d', P (core d') -> wp (k a) Q d') -> wp (bind m k) Q d.
Proof. intros Hm Hd Hk. apply wp_bind. eapply wp_mono; [by apply (quiet_wp m P)|]. exact Hk. Qed.

(** Step through a quiet operation. *)
Lemma quiet_then {A B} (m : op A) (k : A -> op B) Q E gid g d :
  quiet m -> knows E gid g d -> (forall a d', knows E gid g d' -> wp (k a) Q d') -> wp (bind m k) Q d.
Proof. intros Hm Hd. by apply (core_then m k Q (fun c => inv_of E [] c /\ c.1.1 !! gid = Some g)). Qed.

Lemma quiet_then_inv {A B} (m : op A) (k : A -> op B) Q E d :
  quiet m -> inv E [] d -> (forall a d', inv E [] d' -> wp (k a) Q d') -> wp (bind m k) Q d.
Proof. intros Hm Hd. by apply (core_then m k Q (inv_of E [])). Qed.

(** [wp_quiet a K] steps through a quiet operation, naming its result [a] and the
    renewed hypothesis [K]. *)
Tactic Notation "wp_quiet" simple_intropattern(a) ident(K) :=
  let d := fresh "d" in
  first [ eapply quiet_then; [solve [auto 8 with quiet] | exact K |]; clear K; intros a d K
        | eapply quiet_then_inv; [solve [auto 8 with quiet] | exact K |]; clear K; intros a d K ].

Lemma group_then {B} (k : Group -> op B) Q E gid d :
  inv E [] d -> (forall g, knows E gid g d -> wp (k g) Q d) -> wp (bind (group gid) k) Q d.
Proof. intros Hd Hk. apply wp_bind, wp_group. intros g Hg. apply Hk. by split. Qed.

(** Step through an operation with a lemma. *)
Lemma inv_then {A B} (m : op A) (k : A -> op B) Q E S d :
  wp m (fun _ => inv E S) d -> (forall a d', inv E S d' -> wp (k a) Q d') -> wp (bind m k) Q d.
Proof. intros Hm Hk. apply wp_bind. eapply wp_mono; [exact Hm | exact Hk]. Qed.

Lemma knows_running E gid g d : knows (gid :: E) gid g d -> g_phase g <> PhIdle /\ g_env g = true.
Proof.
  intros [Hd Hg]. by destruct (holds_running _ _ _ _ _ (inv_holds _ _ _ _ _ Hd Hg)) as (_ & _ & (_ & ? & ?) & _).
Qed.

(** Replace a running group by one with its prediction kept. *)
Lemma set_then {B} (k : unit -> op B) Q E gid g g' d :
  knows (gid :: E) gid g d -> kept g g' -> g_env g' = g_env g -> g_phase g' <> PhIdle ->
  (forall d', knows (gid :: E) gid g' d' -> wp (k tt) Q d') -> wp (bind (set_group gid g') k) Q d.
Proof.
  intros [Hd Hg] Hk He Hph Hnext. apply wp_bind.
  pose proof (wp_set_kept E gid g g' d Hd Hg Hk He Hph) as Hset. apply Hnext. split; [done|]. simpl.
  apply list_lookup_insert_eq. by eapply lookup_lt_Some.
Qed.

Lemma inv_idle E gid g d :
  gid ∉ E -> knows (gid :: E) gid g d -> forall g', shape g' = shape g -> g_env g' = true ->
  wp (set_group gid (set_g_predict PNone (set_g_phase PhIdle g'))) (fun _ => inv E []) d.
Proof.
  intros Hnew [Hd Hg] g' Hs' He'.
  destruct (holds_running _ _ _ _ _ (inv_holds _ _ _ _ _ Hd Hg)) as (Hs & Hf & (Hops & Hgenv & Hni) & Hp).
  eapply inv_set_group; [done | intros; by apply running_others | done |]. apply holds_done; try done.
  - unfold well_shaped in *. by rewrite Hs, <- Hs'.
  - right. split_and!; [done..|]. destruct Hp as [->|(? & _)]; [|done].
    unfold in_flight_count. destruct (is_in_flight _); lia.
Qed.

(** Sending a group off with an env operation. *)
Lemma inv_send E gid g g' o d :
  gid ∉ E -> knows (gid :: E) gid g d -> kept g g' -> op_gid o = gid -> g_env g' = false -> busy g' = true ->
  sent gid g' [o] ->
  wp (bind (set_group gid g') (fun _ => modify (fun d => set_d_env_ops (d_env_ops d ++ [o]) d)))
    (fun _ => inv E []) d.
Proof.
  intros Hnew [[Hr Hd] Hg] Hk Ho He Hb Hsent.
  destruct (holds_running _ _ _ _ _ (Hd _ _ Hg)) as (Hs & Hf & (Hops & Hgenv & Hni) & Hp). pose proof (lookup_lt_Some _ _ _ Hg) as Hlt.
  split; simpl.
  { rewrite length_insert. split; [|apply Hr]. apply Forall_app. split; [apply Hr|].
    constructor; [by rewrite Ho | done]. }
  intros i gi. rewrite list_lookup_insert. case_decide as Hi'.
  - destruct Hi' as [<- _]. intros [= <-]. apply holds_done; [done | by eapply kept_shape | by eapply kept_frames | |].
    + rewrite ops_of_snoc, Hops by done. split_and!; [done | by rewrite He, Hb |].
      intros Hph. unfold busy in Hb. by rewrite Hph in Hb.
    + by eapply kept_pred.
  - intros Hgi. assert (i <> gid) as Hne by (intros ->; tauto).
    eapply holds_stable; [by apply Hd | | done | by apply running_others | done].
    apply ops_of_snoc_ne. by rewrite Ho.
Qed.

(** *** Resets *)

Lemma shape_asks g g' : shape g = shape g' ->
  requested_lanes g = requested_lanes g' /\ width g = width g' /\ g_lane_group g = g_lane_group g'.
Proof. unfold shape, requested_lanes, width. by intros [= -> _ -> ->]. Qed.

Lemma shaped_as E gid g d : knows E gid g d -> exists g0, groups !! gid = Some g0 /\ shape g0 = shape g.
Proof.
  intros [Hd Hg]. pose proof (h_shape _ _ _ _ _ _ (inv_holds _ _ _ _ _ Hd Hg)) as Hs.
  unfold well_shaped in Hs. destruct (groups !! gid) as [g0|]; [|done]. exists g0. split; [done|].
  by apply (inj Some).
Qed.

Lemma seeds_for_length g claimed : g_lane_group g = true ->
  seeds_for g claimed = [] \/ length (seeds_for g claimed) = length claimed.
Proof.
  intros Hg. unfold seeds_for. rewrite Hg. destruct (episode_seeds spec) as [|sd sds].
  { destruct (base_seed spec); [right; by rewrite length_fmap | by left]. }
  destruct (mapM _ claimed) eqn:Hm; [right; symmetry; by eapply length_mapM | by left].
Qed.

(** An operation that changes nothing in flight, with what is known of its result. *)
Lemma result_then {A B} (m : op A) (k : A -> op B) Q R E gid g d :
  quiet m -> wp m (fun a _ => R a) d -> knows E gid g d ->
  (forall a d', R a -> knows E gid g d' -> wp (k a) Q d') -> wp (bind m k) Q d.
Proof.
  intros Hm Hr [Hd Hg] Hk. apply wp_bind. unfold wp in *. destruct (m d) as [[[a|e] d']|] eqn:Heq; try done.
  apply Hk; [done|]. pose proof (Hm _ _ _ Heq) as Hc. split; [unfold inv; by rewrite Hc|].
  injection Hc as -> _ _. done.
Qed.

Lemma wp_claim_for g d : wp (claim_for g)
  (fun claimed _ => g_lane_group g = true -> claimed = [] \/ length claimed = width g) d.
Proof.
  unfold claim_for. destruct (g_lane_group g).
  - apply wp_bind, wp_route. intros claimed s Hc. apply wp_ret. intros _. revert Hc.
    unfold claim_slots. destruct (checked _ _ _) as [last|] eqn:Hl; [|done]. apply checked_Some in Hl as [-> _].
    simpl. case_match; intros [= <- _]; [by left | right]. simpl. rewrite length_z_range. lia.
  - unfold wp. by destruct (route _ d) as [[[]]|].
Qed.

Lemma wp_mint n d : wp (mint_episode_ids n) (fun ids _ => length ids = n) d.
Proof. unfold wp, mint_episode_ids. by rewrite length_fmap, length_seq. Qed.

(** A reset restarts the group or retires it. *)
Lemma inv_begin_reset E gid initial d :
  gid ∉ E -> inv (gid :: E) [] d -> wp (begin_reset gid initial) (fun _ => inv E []) d.
Proof.
  intros Hnew Hd. unfold begin_reset. eapply group_then; [done|]. intros g Hg.
  eapply result_then; [auto with quiet | apply wp_claim_for | exact Hg |]. clear d Hd Hg. intros claimed d Hcl Hg.
  destruct (knows_running _ _ _ _ Hg) as [Hph Henv].
  destruct claimed as [|slot claimed]; [by eapply inv_idle|].
  wp_quiet generation Hg. cbv zeta. set (g' := set_g_reset_generation _ g).
  eapply result_then; [auto with quiet | apply wp_mint | exact Hg |]. intros ids d1 Hids Hg1.
  do 4 wp_quiet ? Hg1. wp_quiet ? Hg1.
  eapply inv_send; [done | apply Hg1 | by split | done | done | done |].
  split; [by eexists|]. eexists _, _. split; [done|].
  destruct (shaped_as _ _ _ _ Hg1) as (g0 & Hg0 & Hs). exists g0. split; [done|].
  destruct (shape_asks g0 g Hs) as (-> & -> & ->). simpl.
  split_and!; [done | done |]. intros Hl. destruct (Hcl Hl) as [|<-]; [done|]. by apply seeds_for_length.
Qed.

(** *** Observations *)

Lemma live_waiting msg g : live (set_g_predict (PWanted msg) g).
Proof. by right. Qed.

Lemma live_covered g g' :
  no_frames g && is_none (g_predict g) = false -> frames_ok g ->
  g_replay g' = g_replay g -> g_predict g' = g_predict g -> rearms g' -> live g'.
Proof.
  intros Hno Hf Hr Hp Hre. unfold live. rewrite Hr, Hp. unfold no_frames in Hno.
  destruct (g_replay g); [right|by left].
  destruct (g_predict g) eqn:Hg; try done. by apply Hf.
Qed.

(** A running group is ready again. *)
Lemma inv_ready gid g g' d :
  knows [gid] gid g d -> kept g g' -> g_env g' = true -> g_phase g' = PhReady -> live g' ->
  wp (set_group gid g') (fun _ => inv [] []) d.
Proof.
  intros [Hd Hg] Hk He Hph Hl.
  destruct (holds_running _ _ _ _ _ (inv_holds _ _ _ _ _ Hd Hg)) as (Hs & Hf & (Hops & Hgenv & Hni) & Hp).
  eapply inv_set_group; [done | intros; by apply running_others | done |]. apply holds_done.
  - apply not_elem_of_nil.
  - by eapply kept_shape.
  - by eapply kept_frames.
  - split; [unfold sent; by rewrite Hph|]. unfold busy. by rewrite He, Hph.
  - by eapply kept_pred.
Qed.

Lemma inv_observe transform gid observation phase is_reset d :
  inv [gid] [] d -> wp (observe transform gid observation phase is_reset) (fun _ => inv [] []) d.
Proof.
  intros Hd. unfold observe. eapply group_then; [done|]. intros g Hg.
  do 4 wp_quiet ? Hg. cbv zeta. destruct (knows_running _ _ _ _ Hg) as [_ He].
  pose proof (h_frames _ _ _ _ _ _ (inv_holds _ _ _ _ _ (proj1 Hg) (proj2 Hg))) as Hf.
  destruct (no_frames g && is_none (g_predict g)) eqn:Hre.
  - assert (Hn : is_in_flight (g_predict g) = false).
    { apply andb_true_iff in Hre as [_ Hn]. by destruct (g_predict g). }
    apply wp_bind. destruct deliver_history; apply wp_ret;
      (eapply inv_ready; [exact Hg | by split | done | done | apply live_waiting]).
  - apply wp_bind. destruct deliver_history eqn:Hh; [destruct (_ <=? _)%nat; [done|]|];
      apply wp_ret; (eapply inv_ready; [exact Hg | by split | done | done | eapply live_covered; [done..|]]);
      unfold rearms, latest_request; simpl; rewrite Hh.
    + rewrite last_snoc. simpl. rewrite bool_decide_eq_true_2 by done. eauto.
    + eauto.
Qed.

(** *** Steps *)

Lemma inv_on_group E gid f d :
  (forall g, kept g (f g)) -> (forall g, g_env (f g) = g_env g) -> (forall g, g_phase (f g) = g_phase g) ->
  inv (gid :: E) [] d -> wp (on_group gid f) (fun _ => inv (gid :: E) []) d.
Proof.
  intros Hk He Hp Hd. unfold on_group. eapply group_then; [done|]. intros g Hg.
  eapply wp_set_kept; [apply Hg | apply Hg | done | done |]. rewrite Hp. by eapply knows_running.
Qed.

Lemma inv_settle_rolls E gid d :
  inv (gid :: E) [] d -> wp (settle_rolls gid) (fun _ => inv (gid :: E) []) d.
Proof.
  intros Hd. unfold settle_rolls. eapply group_then; [done|]. intros g Hg.
  eapply set_then; [done | by split | done | apply (knows_running _ _ _ _ Hg) |]. intros d1 Hg1. wp_quiet ? Hg1.
  eapply inv_then; [apply inv_on_group; [by split | done | done | apply Hg1]|].
  intros [] d2 Hd2. wp_quiet ? Hd2. by apply wp_ret.
Qed.

Lemma inv_retire gid d :
  inv [gid] [] d -> wp (retire gid) (fun _ => inv [] []) d.
Proof.
  intros Hd. unfold retire. eapply inv_then; [by apply inv_settle_rolls|].
  intros ? d1 Hd1. unfold on_group. eapply group_then; [done|]. intros g Hg.
  eapply inv_idle; [apply not_elem_of_nil | done | done | apply (knows_running _ _ _ _ Hg)].
Qed.

Lemma inv_roll E now gid d :
  inv (gid :: E) [] d -> wp (roll now gid) (fun _ => inv (gid :: E) []) d.
Proof.
  intros Hd. unfold roll. eapply inv_then; [by apply inv_settle_rolls|].
  intros pending d1 Hd1. eapply group_then; [done|]. intros g Hg. do 4 wp_quiet ? Hg.
  apply inv_quiet; [auto with quiet | apply Hg].
Qed.

Lemma inv_account_step E now gid response rpc d :
  inv (gid :: E) [] d -> wp (account_step now gid response rpc) (fun _ => inv (gid :: E) []) d.
Proof.
  intros Hd. unfold account_step. eapply group_then; [done|]. intros g Hg.
  wp_quiet ? Hg. eapply set_then; [done | by split | done | done |]. intros d1 Hg1.
  do 4 wp_quiet ? Hg1. apply wp_ret, Hg1.
Qed.

Lemma replan_kept pending g : kept g (set_g_pending_roll pending (replan g)).
Proof. unfold replan. split; simpl; by destruct (g_predict g). Qed.

Lemma inv_on_step now transform gid response rpc d :
  inv [gid] [] d -> wp (on_step now transform gid response rpc) (fun _ => inv [] []) d.
Proof.
  intros Hd. unfold on_step. eapply inv_then; [by apply inv_account_step|].
  intros [completed rolled] d1 Hd1. eapply inv_then.
  { destruct rolled; [by apply inv_roll | by apply wp_ret]. }
  intros [] d2 Hd2. wp_quiet ? Hd2. eapply group_then; [done|]. intros g Hg.
  destruct (knows_running _ _ _ _ Hg) as [Hph _]. eapply inv_then.
  { destruct owns_resets; [apply inv_quiet; [auto with quiet | apply Hg]|].
    by eapply wp_set_kept; [apply Hg | apply Hg | | |]. }
  intros [] d3 Hd3. eapply inv_then.
  { destruct completed; [by apply wp_ret|]. eapply group_then; [done|]. intros g' Hg'.
    wp_quiet ? Hg'. eapply wp_set_kept; [apply Hg' | apply Hg' | apply replan_kept | done |].
    apply (knows_running _ _ _ _ Hg'). }
  intros [] d4 Hd4. eapply group_then; [done|]. intros g' Hg'. wp_quiet ? Hg'.
  destruct (retires _ _); [apply inv_retire, Hg'|].
  destruct (_ && _); [apply inv_begin_reset; [by intros ?%elem_of_nil | apply Hg'] | apply inv_observe, Hg'].
Qed.

Lemma inv_on_reset now transform gid initial response d :
  inv [gid] [] d -> wp (on_reset now transform gid initial response) (fun _ => inv [] []) d.
Proof.
  intros Hd. unfold on_reset. eapply group_then; [done|]. intros g Hg. wp_quiet [ids claimed] Hg.
  eapply set_then; [done | by split | done | apply (knows_running _ _ _ _ Hg) |].
  intros d1 Hg1. do 2 wp_quiet ? Hg1. apply inv_observe, Hg1.
Qed.

(** *** An env operation lands *)

Lemma ops_of_mid gid l1 o l2 : op_gid o = gid -> ops_of gid (l1 ++ o :: l2) = ops_of gid l1 ++ o :: ops_of gid l2.
Proof. intros Ho. unfold ops_of. rewrite filter_app, filter_cons_True; done. Qed.
Lemma ops_of_mid_ne gid l1 o l2 : op_gid o <> gid -> ops_of gid (l1 ++ l2) = ops_of gid (l1 ++ o :: l2).
Proof. intros Ho. unfold ops_of. by rewrite !filter_app, filter_cons_False. Qed.

Lemma sent_only gid g l1 o l2 : sent gid g (l1 ++ o :: l2) ->
  l1 ++ l2 = [] /\ busy g = true.
Proof.
  unfold sent, busy. intros Hs. destruct (g_phase g).
  - by destruct l1.
  - destruct Hs as (r & Hl & _). destruct l1 as [|? [|]]; try done. by injection Hl as _ ->.
  - destruct Hs as (_ & i & r & Hl & _). destruct l1 as [|? [|]]; try done. by injection Hl as _ ->.
  - by destruct l1.
Qed.

Lemma inv_landed l1 o l2 d :
  d_env_ops d = l1 ++ o :: l2 -> inv [] [] d ->
  wp (landed (op_gid o)) (fun _ => inv [op_gid o] []) (set_d_env_ops (l1 ++ l2) d).
Proof.
  intros Hops [Hr Hd]. unfold landed, on_group. apply wp_bind, wp_group. simpl. intros g Hg.
  destruct (Hd _ _ Hg) as [Hs Hf _ He _ Hp]. destruct (He (not_elem_of_nil _)) as (Hsent & _ & _).
  rewrite Hops, ops_of_mid in Hsent by done. apply sent_only in Hsent as [Hnil Hb].
  split; simpl.
  { rewrite length_insert. split; [|apply Hr]. destruct Hr as [Hr _]. simpl in Hr. rewrite Hops in Hr.
    apply Forall_app in Hr as [? [_ ?]%Forall_cons]. by apply Forall_app. }
  intros i gi. rewrite list_lookup_insert. case_decide as Hi'.
  - destruct Hi' as [<- _]. intros [= <-]. split; try done.
    + intros _. split_and!; [unfold ops_of in *; by rewrite filter_app | done |].
      simpl. intros Hph. unfold busy in Hb. by rewrite Hph in Hb.
    + intros Hn. destruct Hn. by left.
    + by intros ?%elem_of_nil.
  - intros Hgi. assert (i <> op_gid o) as Hne.
    { intros ->. apply Hi'. split; [done|]. by eapply lookup_lt_Some. }
    eapply holds_stable; [by apply Hd | | done | symmetry; by apply running_others | done].
    rewrite Hops. by apply ops_of_mid_ne.
Qed.

Lemma inv_on_env_outcome now transform rpc l1 o l2 reply d :
  d_env_ops d = l1 ++ o :: l2 -> inv [] [] d ->
  wp (on_env_outcome now transform rpc o reply) (fun _ => inv [] []) (set_d_env_ops (l1 ++ l2) d).
Proof.
  intros Hops Hd. pose proof (inv_landed _ _ _ _ Hops Hd) as Hl.
  destruct o, reply; simpl in *; try done; (eapply inv_then; [exact Hl|]); intros [] d1 Hd1; wp_quiet ? Hd1;
    [by apply inv_on_reset | by apply inv_on_step].
Qed.

(** *** Predicts land *)

Lemma latest_request_kept g : shape (latest_request g).2 = shape g /\ g_phase (latest_request g).2 = g_phase g
  /\ g_env (latest_request g).2 = g_env g /\ g_pending_start (latest_request g).2 = g_pending_start g
  /\ g_predict (latest_request g).2 = g_predict g.
Proof.
  unfold latest_request. destruct (g_obs_msg g); [|done]. destruct deliver_history; [|done].
  by case_bool_decide.
Qed.

Lemma apply_frames_kept frames g : let g' := apply_frames frames g in
  shape g' = shape g /\ g_phase g' = g_phase g /\ g_env g' = g_env g /\ g_pending_start g' = g_pending_start g.
Proof.
  unfold apply_frames. destruct (g_predict g) as [| |[]|]; try done.
  - destruct (_ && _); [|done]. destruct (latest_request_kept g) as (? & ? & ? & ? & _).
    by destruct (latest_request g).
  - by destruct (no_frames g).
Qed.

Lemma apply_frames_lands frames g :
  is_in_flight (g_predict (apply_frames frames g)) = false.
Proof.
  unfold apply_frames. destruct (g_predict g) as [| |[]|] eqn:Hp; rewrite ?Hp; try done.
  - destruct (_ && _); [|done]. by destruct (latest_request g) as [[msg|] ?].
  - by destruct (no_frames g).
Qed.

Lemma apply_frames_ok frames g : frames <> [] -> frames_ok g -> frames_ok (apply_frames frames g).
Proof.
  unfold apply_frames. intros Hne Hf l. destruct (g_predict g) as [| |[]|] eqn:Hp; try (rewrite ?Hp; done).
  - destruct (_ && _); [|done]. by destruct (latest_request g) as [[msg|] ?].
  - destruct (no_frames g); simpl; [done|]. by intros [= <-].
  - rewrite Hp. intros [= <-]. by apply Hf.
Qed.

Lemma apply_frames_live frames g :
  frames <> [] -> g_phase g = PhReady -> live g -> live (apply_frames frames g).
Proof.
  unfold apply_frames, no_frames. intros Hne Hph Hl. rewrite Hph. simpl.
  destruct (g_predict g) as [| |[]|] eqn:Hp; try done.
  - destruct (g_replay g) eqn:Hr; simpl; [|left; simpl; by rewrite Hr].
    destruct Hl as [Hl|Hl]; [done|]. rewrite Hp in Hl. destruct (Hl eq_refl) as [msg Hm].
    destruct (latest_request g) as [? g']. simpl in Hm. subst. by right.
  - destruct (g_replay g) eqn:Hr; left; simpl; [done | by rewrite Hr].
Qed.

(** What is known of a group's env operation depends on these fields. *)
Lemma env_ok_stable gid g g' ops :
  env_ok gid g ops -> g_phase g' = g_phase g -> g_env g' = g_env g ->
  g_pending_start g' = g_pending_start g -> (g_phase g = PhReady -> live g -> live g') -> env_ok gid g' ops.
Proof.
  unfold env_ok, sent, busy. intros (Hs & He & Hl) -> -> -> Hl'. split_and!; [done | done | auto].
Qed.

Lemma inv_apply_prediction S rpc gid expected r d :
  inv [] (gid :: S) d -> wp (apply_prediction rpc gid expected r) (fun _ => inv [] S) d.
Proof.
  intros Hd. unfold apply_prediction. apply wp_bind, wp_lift. intros p _. apply wp_bind, wp_get.
  destruct (negb _); [done|]. destruct (pd_actions p) as [|frame frames]; [done|].
  eapply inv_then; [|intros [] d1 Hd1; apply inv_quiet; [auto with quiet | exact Hd1]].
  unfold on_group. apply wp_bind, wp_group. intros g Hg.
  destruct (inv_holds _ _ _ _ _ Hd Hg) as [Hs Hf _ He Ho _]. set (g1 := set_g_pending_predict _ g).
  destruct (apply_frames_kept (frame :: frames) g1) as (Hsh & Hph & Henv & Hst).
  eapply inv_set_group; [exact Hd | done | intros; by apply running_others |]. split.
  - unfold well_shaped in *. by rewrite Hsh.
  - by apply apply_frames_ok.
  - by intros ?%elem_of_nil.
  - intros Hn. eapply env_ok_stable; [by apply He | done | done | done |].
    intros Hr Hl. apply apply_frames_live; [done | done |]. by eapply live_stable, Hl.
  - intros _. apply Ho. by left.
  - intros _. left. unfold in_flight_count. rewrite apply_frames_lands, Ho; [done | by left].
Qed.

Lemma inv_apply_predictions rpc requests : forall results d,
  length results = length requests -> inv [] (requests.*1) d ->
  wp (apply_predictions rpc requests results) (fun _ => inv [] []) d.
Proof.
  induction requests as [|[gid expected] requests IH]; intros [|r results] d Hlen Hd; try done. simpl.
  eapply inv_then; [apply inv_apply_prediction, Hd|]. intros [] d1 Hd1. apply IH; [|done]. by injection Hlen.
Qed.

Lemma preds_of_mid gid l1 p l2 :
  length (preds_of gid (l1 ++ p :: l2)) =
  (length (preds_of gid (l1 ++ l2)) + length (filter (fun i => i = gid) (p.*1)))%nat.
Proof.
  change (p :: l2) with ([p] ++ l2). rewrite !preds_of_app, preds_of_one, !length_app. lia.
Qed.

Lemma pred_ok_bound n g : pred_ok n g -> (n <= 1)%nat.
Proof. intros [->|(_ & _ & ?)]; [|done]. unfold in_flight_count. destruct (is_in_flight _); lia. Qed.

Lemma inv_predict_landing l1 requests l2 d :
  d_predicts d = l1 ++ requests :: l2 -> inv [] [] d ->
  inv [] (requests.*1) (set_d_predicts (l1 ++ l2) d).
Proof.
  intros Hps [[Hr Hrp] Hd]. split; simpl.
  { split; [done|]. rewrite Hps, bind_app in Hrp. simpl in Hrp. rewrite bind_app.
    apply Forall_app in Hrp as [? [_ ?]%Forall_app]. by apply Forall_app. }
  intros gid g Hg. destruct (Hd _ _ Hg) as [Hs Hf _ He _ Hp]. specialize (Hp (not_elem_of_nil _)).
  rewrite Hps in Hp. rewrite preds_of_mid in Hp. split; try done; [by intros ?%elem_of_nil | |].
  - intros Hin%filter_eq_pos. apply pred_ok_bound in Hp. apply nil_length_inv. lia.
  - intros Hin. rewrite filter_eq_notin in Hp by done. simpl in Hp. by rewrite Nat.add_0_r in Hp.
Qed.

Lemma inv_on_predict_outcome l1 requests l2 rpc results d :
  d_predicts d = l1 ++ requests :: l2 -> inv [] [] d ->
  wp (on_predict_outcome requests rpc results) (fun _ => inv [] []) (set_d_predicts (l1 ++ l2) d).
Proof.
  intros Hps Hd. unfold on_predict_outcome. apply wp_bind, wp_lift. intros rs _. apply wp_bind, wp_get.
  destruct (Nat.eqb_spec (length rs) (length requests)); [|done]. simpl.
  apply inv_apply_predictions; [done|]. by apply inv_predict_landing.
Qed.

(** *** Predicts leave *)

(** The groups in [S] have their prediction under way. *)
Definition taking (S : list nat) (d : Driver) : Prop :=
  inv [] S d /\ NoDup S /\
  forall gid, gid ∈ S -> exists g, d_groups d !! gid = Some g /\ is_in_flight (g_predict g) = true.

Lemma taking_set S gid g msg d :
  taking S d -> d_groups d !! gid = Some g -> g_predict g = PWanted msg ->
  wp (set_group gid (set_g_predict (PInFlight false) g)) (fun _ => taking (gid :: S)) d.
Proof.
  intros (Hd & Hnd & HS) Hg Hp. destruct (inv_holds _ _ _ _ _ Hd Hg) as [Hs Hf _ He _ Hpr].
  assert (Hnew : gid ∉ S).
  { intros Hin. destruct (HS _ Hin) as (g' & Hg' & Hfl). rewrite Hg in Hg'. injection Hg' as <-.
    by rewrite Hp in Hfl. }
  specialize (Hpr Hnew). split_and!.
  - eapply inv_set_group; [done | done | intros; symmetry; by apply running_others |].
    split; try done.
    + by intros ?%elem_of_nil.
    + intros Hn. eapply env_ok_stable; [by apply He | done | done | done |]. intros _ _. by right.
    + intros _. destruct Hpr as [Hn|(_ & Hn & _)]; [|by rewrite Hp in Hn]. apply nil_length_inv.
      unfold in_flight_count in Hn. by rewrite Hp in Hn.
    + intros Hn. destruct Hn. by left.
  - by constructor.
  - simpl. intros i [->|Hi]%elem_of_cons.
    + eexists. split; [by apply list_lookup_insert_eq, (lookup_lt_Some _ _ g) | done].
    + destruct (HS _ Hi) as (gi & Hgi & Hfl). exists gi. split; [|done].
      rewrite list_lookup_insert_ne; [done|]. by intros ->.
Qed.

Lemma taking_quiet {A} (m : op A) S d : quiet m -> taking S d -> wp m (fun _ => taking S) d.
Proof.
  intros Hm Hd. by apply (quiet_wp m (fun c => inv_of [] S c /\ NoDup S /\
    forall gid, gid ∈ S -> exists g, c.1.1 !! gid = Some g /\ is_in_flight (g_predict g) = true)).
Qed.

Lemma taking_wanted chosen : forall S d, taking S d ->
  wp (take_wanted chosen) (fun taken d' => exists S', Permutation S' (taken.*1 ++ S) /\ taking S' d') d.
Proof.
  induction chosen as [|gid chosen IH]; intros S d Hd; simpl; [apply wp_ret; by exists S|].
  apply wp_bind, wp_group. intros g Hg. destruct (g_predict g) eqn:Hp; try done.
  apply wp_bind. eapply wp_mono; [by eapply taking_set|]. intros [] d1 Hd1.
  apply wp_bind. eapply wp_mono; [apply taking_quiet; [auto with quiet | exact Hd1]|]. intros [] d2 Hd2.
  apply wp_bind. eapply wp_mono; [by apply IH|]. intros taken d3 (S' & HS' & Hd3).
  apply wp_ret. exists S'. split; [|done]. rewrite HS'. simpl. symmetry. apply Permutation_middle.
Qed.

Lemma inv_predict_for chosen d : inv [] [] d -> wp (predict_for chosen) (fun _ => inv [] []) d.
Proof.
  intros Hd. unfold predict_for. apply wp_bind. eapply wp_mono; [apply (taking_wanted chosen []); split_and!|].
  - done.
  - constructor.
  - by intros gid ?%elem_of_nil.
  - intros taken d' (S' & HS' & [[Hr Hd'] [Hnd Hfl]]). rewrite app_nil_r in HS'. apply wp_modify.
    assert (Hgids : ((fun '(gid, msg) => (gid, pr_context msg)) <$> taken).*1 = taken.*1).
    { rewrite <- list_fmap_compose. apply list_fmap_ext. by intros ? []. }
    split; simpl.
    { split; [apply Hr|]. rewrite bind_app. apply Forall_app. split; [apply Hr|]. simpl.
      rewrite app_nil_r, Hgids, <- HS'. apply Forall_forall. intros gid (g & Hg & _)%Hfl.
      by eapply lookup_lt_Some. }
    intros gid g Hg. destruct (Hd' _ _ Hg) as [Hs Hf _ He Ho Hp].
    split; try done; [by intros ?%elem_of_nil..|]. intros _.
    rewrite preds_of_app, preds_of_one, length_app, Hgids. destruct (decide (gid ∈ S')) as [Hin|Hin].
    + rewrite Ho by done. simpl. destruct (Hfl _ Hin) as (g' & Hg' & Hfl').
      simpl in Hg. rewrite Hg in Hg'. injection Hg' as <-. left. unfold in_flight_count. rewrite Hfl'.
      apply filter_eq_in; [by rewrite <- HS' | by rewrite <- HS'].
    + rewrite filter_eq_notin by (by rewrite <- HS'). simpl. rewrite Nat.add_0_r. by apply Hp.
Qed.

(** *** The start *)

Lemma inv_start now : wp start (fun _ => inv [] []) (driver_new now).
Proof.
  unfold start. eapply wp_mono; [apply wp_for_each with (I := fun l d => NoDup l /\ inv l [] d)|].
  - intros gid l d [[Hn Hnd]%NoDup_cons Hd]. eapply wp_mono; [by apply inv_begin_reset | done].
  - split; [apply NoDup_seq|]. split; [by split|]. intros gid g Hg.
    assert (Hin : gid ∈ seq 0 (length groups)).
    { apply elem_of_seq. apply lookup_lt_Some in Hg. simpl in *. lia. }
    assert (Hnew : g_predict g = PNone /\ g_env g = true /\ g_phase g = PhReady).
    { apply list_elem_of_lookup_2, list_elem_of_fmap in Hg as (lanes & -> & _). done. }
    destruct Hnew as (Hp & He & Hph). split.
    + unfold well_shaped. simpl in Hg. by rewrite Hg.
    + intros frames. by rewrite Hp.
    + intros _. split_and!; [done | done | by rewrite Hph].
    + done.
    + by intros ?%elem_of_nil.
    + intros _. left. unfold in_flight_count. by rewrite Hp.
  - by intros [] d [_ Hd].
Qed.
End Invariant.
