(* ===== verification/DriverProgress.v ===== *)
(** * A route never stalls

    The loop of the run driver always has an operation in flight when it waits: the
    dispatch at its top plays what the ready groups have, and when nothing is in flight
    then some group wants a prediction, which the forced dispatch sends. *)

From S2P Require Import Prelude Episode EnvServer Route SessionSpec Driver DriverInv.

Section Progress.
Context `{Setup}.

(** The group is not ready, or its prediction is wanted or on its way. *)
Definition played (g : Group) : Prop :=
  g_phase g = PhReady -> is_wanted (g_predict g) || is_in_flight (g_predict g) = true.

(** Something is in flight, or some group is not idle. *)
Definition active (d : Driver) : Prop :=
  nothing_flying d = false \/ exists gid g, d_groups d !! gid = Some g /\ g_phase g <> PhIdle.

(** ** Steps *)

Lemma prefetch_kept g : kept g (prefetch g) /\ g_env (prefetch g) = g_env g /\ g_phase (prefetch g) = g_phase g.
Proof.
  unfold prefetch. destruct (_ && is_none _) eqn:Hn; [|done]. apply andb_true_iff in Hn as [_ Hn].
  destruct (latest_request_kept g) as (? & ? & ? & ? & Hp). destruct (latest_request g) as [[msg|] g'];
    simpl in *; (split; [split|]; simpl; rewrite ?Hp; try done; by destruct (g_predict g)).
Qed.

Lemma refill_kept g g' frames : refill g = Some g' ->
  shape (set_g_replay frames g') = shape g /\ g_env g' = g_env g /\ g_phase g' = g_phase g /\ kept g (set_g_replay frames g').
Proof.
  unfold refill. destruct (g_replay g); [|by intros [= <-]].
  destruct (g_predict g) eqn:Hp; try done. intros [= <-]. split_and!; try done. split; simpl; by rewrite ?Hp.
Qed.

Lemma kept_trans g1 g2 g3 : kept g1 g2 -> kept g2 g3 -> kept g1 g3.
Proof. intros [Hs Hf Hr] [Hs' Hf' Hr']. split; [congruence | congruence | auto]. Qed.

(** A ready group with nothing to play awaits a prediction. *)
Lemma live_played g : live g -> refill g = None -> played g.
Proof.
  unfold live, refill, played. destruct (g_replay g); [|done]. intros [|Hl]; [done|].
  by destruct (g_predict g).
Qed.

Lemma refill_frames g g' : frames_ok g -> refill g = Some g' -> g_replay g' <> [].
Proof.
  unfold refill. intros Hf. destruct (g_replay g) eqn:Hr; [|intros [= <-]; by rewrite Hr].
  destruct (g_predict g) eqn:Hp; try done. intros [= <-]. by apply Hf.
Qed.

(** A ready group is taken up. *)
Lemma inv_take_up gid g d :
  inv [] [] d -> d_groups d !! gid = Some g -> g_phase g = PhReady -> inv [gid] [] d.
Proof.
  intros [Hr Hd] Hg Hph. split; [done|]. intros i gi Hi. destruct (decide (i = gid)) as [->|Hne].
  - simpl in Hi. rewrite Hg in Hi. injection Hi as <-. destruct (Hd _ _ Hg) as [Hs Hf _ He Ho Hp].
    destruct (He (not_elem_of_nil _)) as (Hsent & Henv & _). unfold sent, busy in *. rewrite Hph in *.
    split; [done | done | | | done | done].
    + intros _. unfold free. by rewrite Hph.
    + intros Hn. destruct Hn. by left.
  - eapply holds_stable; [by apply Hd | done | done | symmetry; by apply running_others | done].
Qed.

(** What a step leaves: the driver as it was with the group played, or the group's step
    in flight. *)
Definition stepped (gid : nat) (d d' : Driver) : Prop :=
  (d' = d /\ forall g, d_groups d !! gid = Some g -> played g) \/
  (inv [] [] d' /\ nothing_flying d' = false /\
   exists g', d_groups d' = <[gid := g']> (d_groups d) /\ g_phase g' = PhStepping).

Lemma send_step_spec gid g g' request (d0 d : Driver) :
  knows [gid] gid g d -> d_groups d = <[gid := g]> (d_groups d0) -> kept g g' ->
  g_env g' = false -> g_phase g' = PhStepping -> step_env_indices request = requested_lanes g ->
  wp (bind (set_group gid g') (fun _ => modify (fun d => set_d_env_ops (d_env_ops d ++ [FlyStep gid request]) d)))
    (fun _ => stepped gid d0) d.
Proof.
  intros Hg Hgs Hk He Hph Hreq.
  assert (Hs : sent gid g' [FlyStep gid request]).
  { unfold sent. rewrite Hph. exists request. split; [done|].
    destruct (shaped_as _ _ _ _ Hg) as (g0 & Hg0 & Hs0). exists g0. split; [done|].
    by destruct (shape_asks g0 g Hs0) as (-> & _). }
  pose proof (inv_send [] gid g g' (FlyStep gid request) d (not_elem_of_nil _) Hg Hk eq_refl He
    (ltac:(unfold busy; by rewrite Hph)) Hs) as Hend.
  right. split; [exact Hend|]. split; simpl.
  - unfold nothing_flying. simpl. by destruct (d_env_ops d).
  - exists g'. split; [|done]. rewrite Hgs. apply list_insert_insert_eq.
Qed.

Lemma dispatch_step_spec transform gid d : inv [] [] d ->
  wp (dispatch_step transform gid) (fun _ => stepped gid d) d.
Proof.
  intros Hd. unfold dispatch_step. apply wp_bind, wp_group. intros g Hg.
  destruct (inv_holds _ _ _ _ _ Hd Hg) as [_ Hf _ He _ _].
  destruct (He (not_elem_of_nil _)) as (_ & _ & Hl).
  assert (Hstay : played g -> stepped gid d d) by (intros Hp; left; split; [done|]; intros; by simplify_eq).
  destruct (decide (g_phase g = PhReady)) as [Hph|Hph].
  2: { assert (played g) by (by intros ?). by destruct (g_phase g), (refill g); try done; apply wp_ret, Hstay. }
  rewrite Hph. destruct (refill g) as [g1|] eqn:Hre; [|apply wp_ret, Hstay, live_played; auto].
  destruct (g_replay g1) as [|frame rest] eqn:Hr; [by destruct (refill_frames g g1)|].
  destruct (refill_kept g g1 rest Hre) as (_ & Henv1 & Hph1 & Hk1).
  destruct (prefetch_kept (set_g_replay rest g1)) as (Hk2 & Henv2 & Hph2). simpl in *.
  cbv zeta. set (g2 := prefetch _) in *. pose proof (kept_trans _ _ _ Hk1 Hk2) as Hk.
  pose proof (inv_take_up _ _ _ Hd Hg Hph) as Hd'. assert (Hni : g_phase g2 <> PhIdle) by congruence.
  set (P c := (inv_of [gid] [] c /\ c.1.1 !! gid = Some g2) /\ c.1.1 = <[gid := g2]> (d_groups d)).
  apply wp_bind. eapply wp_mono with (Q := fun _ d1 => P (core d1)).
  { split; [|done]. split; [by apply (wp_set_kept [] gid g); [| | |congruence|]|].
    by apply list_lookup_insert_eq, (lookup_lt_Some _ _ g). }
  intros [] d1 Hd1. do 5 (eapply (core_then _ _ _ P); [auto with quiet | exact Hd1 |];
    clear d1 Hd1; intros ? d1 Hd1).
  destruct Hd1 as [Hk1' Hgs]. by eapply (send_step_spec gid g2).
Qed.

Lemma dispatch_steps_spec transform d : inv [] [] d -> active d ->
  wp (dispatch_steps transform) (fun _ d' =>
    inv [] [] d' /\ active d' /\ forall gid g, d_groups d' !! gid = Some g -> played g) d.
Proof.
  intros Hd Ha. unfold dispatch_steps. apply wp_bind, wp_get.
  set (I (l : list nat) d := inv [] [] d /\ active d /\
    forall gid g, d_groups d !! gid = Some g -> gid ∈ l \/ played g).
  eapply wp_mono; [apply wp_for_each with (I := I)|].
  - clear d Hd Ha. intros gid l d (Hd & Ha & Hp). eapply wp_mono; [by apply dispatch_step_spec|].
    intros [] d' [[-> Hg]|(Hd' & Hf & g' & Hgs & Hph)]; (split; [done|split; [|intros i gi Hi]]).
    + done.
    + destruct (Hp i gi Hi) as [[->|?]%elem_of_cons|?]; eauto.
    + by left.
    + rewrite Hgs in Hi. apply list_lookup_insert_Some in Hi as [(-> & -> & _)|(Hne & Hi)].
      * right. unfold played. by rewrite Hph.
      * destruct (Hp i gi Hi) as [[->|?]%elem_of_cons|?]; [done | by left | by right].
  - split; [done|split; [done|]]. intros gid g Hg. left. apply elem_of_seq.
    apply lookup_lt_Some in Hg. lia.
  - intros [] d' (Hd' & Ha' & Hp). split; [done|split; [done|]]. intros gid g Hg.
    destruct (Hp gid g Hg) as [Hbad|?]; [by apply elem_of_nil in Hbad | done].
Qed.

(** Without anything in flight, some group then waits for a prediction. *)
Lemma played_waits d :
  inv [] [] d -> active d -> (forall gid g, d_groups d !! gid = Some g -> played g) ->
  nothing_flying d = true -> waiting (d_groups d) <> [].
Proof.
  intros Hd [Hf|(gid & g & Hg & Hidle)] Hp Hno; [by rewrite Hno in Hf|].
  unfold nothing_flying in Hno. destruct (d_env_ops d) eqn:Hops; [|done].
  destruct (d_predicts d) eqn:Hpreds; [|done].
  destruct (inv_holds _ _ _ _ _ Hd Hg) as [_ _ _ He _ Hpr]. rewrite Hops, Hpreds in *.
  destruct (He (not_elem_of_nil _)) as (Hs & _ & _). specialize (Hpr (not_elem_of_nil _)).
  assert (Hready : g_phase g = PhReady).
  { unfold sent in Hs. destruct (g_phase g); try done; [by destruct Hs as (? & ? & _)|].
    by destruct Hs as (_ & ? & ? & ? & _). }
  assert (Hw : is_wanted (g_predict g) = true).
  { destruct Hpr as [Hn|(Hn & _)]; [|by rewrite Hready in Hn]. unfold in_flight_count in Hn.
    apply (Hp gid g Hg), orb_true_iff in Hready as [?|Hfl]; [done|]. by rewrite Hfl in Hn. }
  intros Hnil. assert (Hin : In gid (waiting (d_groups d))); [|by rewrite Hnil in Hin].
  apply filter_In. rewrite Hg. split; [|done]. apply in_seq. apply lookup_lt_Some in Hg. lia.
Qed.

(** ** Predicts *)

Lemma predict_for_spec chosen d : inv [] [] d ->
  wp (predict_for chosen) (fun _ d' => inv [] [] d' /\ nothing_flying d' = false) d.
Proof.
  intros Hd. pose proof (inv_predict_for chosen d Hd) as Hi. unfold predict_for, bind, wp in *.
  destruct (take_wanted chosen d) as [[[taken|e] d']|]; try done. split; [exact Hi|].
  unfold nothing_flying. simpl. by destruct (d_env_ops d'), (d_predicts d').
Qed.

Lemma predict_all_spec l d :
  inv [] [] d -> (l = [] -> nothing_flying d = false) ->
  wp (for_each (fun gid => predict_for [gid]) l) (fun _ d' => inv [] [] d' /\ nothing_flying d' = false) d.
Proof.
  intros Hd Hl. eapply wp_mono;
    [apply wp_for_each with (I := fun l d => inv [] [] d /\ (l = [] -> nothing_flying d = false))|].
  - intros gid l' d' [Hd' _]. eapply wp_mono; [by apply predict_for_spec|]. simpl. tauto.
  - done.
  - intros [] d' [Hd' Hf]. auto.
Qed.

(** A forced dispatch leaves something in flight. *)
Lemma dispatch_predict_spec plan d :
  inv [] [] d -> (nothing_flying d = true -> waiting (d_groups d) <> []) ->
  wp (dispatch_predict plan (nothing_flying d)) (fun _ d' => inv [] [] d' /\ nothing_flying d' = false) d.
Proof.
  intros Hd Hw. unfold dispatch_predict. apply wp_bind, wp_get.
  destruct (fuses && _) eqn:Hb.
  { apply wp_ret. split; [done|]. apply andb_true_iff in Hb as [_ Hb]. unfold nothing_flying.
    destruct (d_predicts d); [done|]. by destruct (d_env_ops d). }
  cbv zeta. destruct (waiting (d_groups d)) as [|w ws] eqn:Hwait.
  { apply wp_ret. split; [done|]. destruct (nothing_flying d); [by destruct Hw|done]. }
  set (chosen := List.filter _ _). clearbody chosen.
  destruct chosen as [|c cs]; [destruct (nothing_flying d) eqn:Hf; [|by apply wp_ret]|];
    (destruct fuses; [by apply predict_for_spec | by apply predict_all_spec]).
Qed.
End Progress.

(** ** The errors of the dispatch *)

(** An operation whose errors are all in [R]. *)
Definition errs {A} (R : RuntimeError -> Prop) (m : op A) : Prop :=
  forall d e d', m d = Some (Err e, d') -> R e.

Definition wpe {A} (R : RuntimeError -> Prop) (m : op A) (Q : A -> Driver -> Prop) (d : Driver) : Prop :=
  match m d with
  | Some (Ok a, d') => Q a d'
  | Some (Err e, _) => R e
  | None => True
  end.

Lemma wpe_bind {A B} R (m : op A) (k : A -> op B) Q d :
  errs R m -> wp m (fun a => wpe R (k a) Q) d -> wpe R (bind m k) Q d.
Proof.
  unfold wp, wpe, bind. intros He. destruct (m d) as [[[a|e] d']|] eqn:Hm; try done. intros _. by eapply He.
Qed.

Create HintDb errs.

Lemma errs_ret {A} R (a : A) : errs R (ret a).
Proof. done. Qed.
Lemma errs_get {A} R (f : Driver -> A) : errs R (get f).
Proof. done. Qed.
Lemma errs_modify R f : errs R (modify f).
Proof. done. Qed.
Lemma errs_need {A} R (o : option A) : errs R (need o).
Proof. intros d e d'. unfold need. by destruct o. Qed.
Lemma errs_group R gid : errs R (group gid).
Proof. intros d e d'. unfold group. by destruct (d_groups d !! gid). Qed.
Lemma errs_set_group R gid g : errs R (set_group gid g).
Proof. done. Qed.
Lemma errs_route {A} R (f : RouteState -> option (A * RouteState)) : errs R (route f).
Proof. intros d e d'. unfold route. by destruct (f (d_route d)) as [[]|]. Qed.
Lemma errs_lift {A} (R : RuntimeError -> Prop) (r : result A RuntimeError) :
  (forall e, r = Err e -> R e) -> errs R (lift r).
Proof. intros Hr d e d'. unfold lift. intros [= -> _]. by apply Hr. Qed.
Lemma errs_bind {A B} R (m : op A) (k : A -> op B) :
  errs R m -> (forall a, errs R (k a)) -> errs R (bind m k).
Proof.
  intros Hm Hk d e d'. unfold bind. destruct (m d) as [[[a|e1] d1]|] eqn:H1; [apply Hk | | done].
  intros [= <- <-]. by eapply Hm.
Qed.
Lemma errs_for_each {A} R (f : A -> op unit) l : (forall x, errs R (f x)) -> errs R (for_each f l).
Proof. intros Hf. induction l; simpl; [apply errs_ret | apply errs_bind; eauto]. Qed.

#[export] Hint Resolve errs_ret errs_get errs_modify errs_need errs_group errs_set_group errs_route : errs.
#[export] Hint Extern 1 (errs _ (bind _ _)) => apply errs_bind; [|intros ?] : errs.
#[export] Hint Extern 1 (errs _ (for_each _ _)) => apply errs_for_each; intros ? : errs.
#[export] Hint Extern 2 (errs _ (match ?x with _ => _ end)) => destruct x : errs.

Section Errors.
Context `{Setup}.

Definition of_transform (transform : nat -> ValueLeaves -> result (option ValueLeaves) RuntimeError)
    (e : RuntimeError) : Prop :=
  exists gid frame, transform gid frame = Err e.

Lemma errs_hook R e : errs R (hook e).
Proof. unfold hook. eauto with errs. Qed.
Lemma errs_update_route R f : errs R (update_route f).
Proof. unfold update_route. eauto with errs. Qed.
Lemma errs_transform transform gid frame : errs (of_transform transform) (lift (transform gid frame)).
Proof. apply errs_lift. intros e He. by exists gid, frame. Qed.
#[local] Hint Resolve errs_hook errs_update_route errs_transform : errs.

Lemma errs_flush R : errs R flush_evictions.
Proof. unfold flush_evictions. auto 8 with errs. Qed.
Lemma errs_dispatch_steps transform : errs (of_transform transform) (dispatch_steps transform).
Proof. unfold dispatch_steps, dispatch_step. auto 20 with errs. Qed.
Lemma errs_take_wanted R chosen : errs R (take_wanted chosen).
Proof. induction chosen; simpl; auto 10 with errs. Qed.
#[local] Hint Resolve errs_take_wanted : errs.
Lemma errs_dispatch_predict R plan force : errs R (dispatch_predict plan force).
Proof. unfold dispatch_predict, predict_for. auto 12 with errs. Qed.
End Errors.

(** ** Routes *)

Section Routes.
Context `{Setup}.

Lemma not_done_active d : all_idle d && nothing_flying d = false -> active d.
Proof.
  unfold active, all_idle. destruct (nothing_flying d); [|by left]. rewrite andb_true_r. intros Hidle.
  right. induction (d_groups d) as [|g gs IH]; [done|]. simpl in Hidle.
  case_bool_decide as Hg; [|by exists 0%nat, g].
  destruct (IH Hidle) as (gid & gi & ? & ?). by exists (S gid), gi.
Qed.

Lemma dispatch_progress plan transform d :
  inv [] [] d -> active d ->
  wpe (of_transform transform) (dispatch plan transform)
    (fun _ d' => inv [] [] d' /\ nothing_flying d' = false) d.
Proof.
  intros Hd Ha. unfold dispatch. apply wpe_bind.
  { intros d1 e d2. destruct (d_predicts d1); [apply errs_flush | done]. }
  set (P c := inv_of [] [] c /\
    ((match c.1.2, c.2 with [], [] => true | _, _ => false end) = false \/
     exists gid g, c.1.1 !! gid = Some g /\ g_phase g <> PhIdle)).
  eapply wp_mono; [apply (quiet_wp _ P); [|by split]|].
  { intros d1 r d2. destruct (d_predicts d1); [apply quiet_flush | apply quiet_ret]. }
  intros [] d1 [Hd1 Ha1]. apply wpe_bind; [apply errs_dispatch_steps|].
  eapply wp_mono; [by apply dispatch_steps_spec|]. intros [] d2 (Hd2 & Ha2 & Hp2).
  apply wpe_bind; [apply errs_get|]. apply wp_get.
  apply wpe_bind; [apply errs_dispatch_predict|].
  eapply wp_mono; [apply dispatch_predict_spec; [done | by apply played_waits]|].
  intros [] d3 [Hd3 Hf3]. apply wpe_bind; [apply errs_get|]. apply wp_get. by rewrite Hf3.
Qed.

Lemma wp_outcome (m : op unit) Q d r d' next w :
  wp m (fun _ => Q) d -> m d = Some (r, d') -> outcome r next = w -> (forall e, w <> Failed e) -> Q d'.
Proof. unfold wp. intros Hm Hr. rewrite Hr in Hm. destruct r as [[]|e]; [done|]. intros <- Hw. by destruct (Hw e). Qed.

(** The invariant holds throughout a route. *)
Lemma inv_route w d : route_run w d -> (forall e, w <> Failed e) -> inv [] [] d.
Proof.
  induction 1 as [now r d Hrun | w d w' d' Hrun IH Hdr]; intros Hw.
  { by eapply (wp_outcome start); [apply inv_start | | |]. }
  assert (Hwd : forall e, w <> Failed e) by (intros e ->; inversion Hdr; naive_solver).
  specialize (IH Hwd). inversion Hdr; subst; try done.
  - assert (Hwp : wp (dispatch plan transform) (fun _ => inv [] []) d).
    { pose proof (dispatch_progress plan transform d IH ltac:(by apply not_done_active)) as Hp.
      unfold wp, wpe in *. destruct (dispatch _ _ d) as [[[[]|] ?]|]; tauto. }
    by eapply wp_outcome.
  - by eapply (wp_outcome (on_env_outcome _ _ _ _ _)); [eapply inv_on_env_outcome | | |].
  - by eapply (wp_outcome (on_predict_outcome _ _ _)); [eapply inv_on_predict_outcome | | |].
Qed.

(** C5: a route that is not done always finds something to wait for: the dispatch at the
    top of the loop leaves an operation in flight, its only errors are the action
    transform's, and the driver's own stall error is never raised, whatever the endpoints
    answered so far. *)
Theorem route_never_stalls plan transform d r d' :
  route_run Top d -> all_idle d && nothing_flying d = false ->
  dispatch plan transform d = Some (r, d') ->
  match r with
  | Ok _ => nothing_flying d' = false
  | Err e => exists gid frame, transform gid frame = Err e
  end.
Proof.
  intros Hrun Hnot Hd. pose proof (inv_route _ _ Hrun ltac:(done)) as Hinv.
  pose proof (dispatch_progress plan transform d Hinv (not_done_active _ Hnot)) as Hp.
  unfold wpe in Hp. rewrite Hd in Hp. destruct r; [apply Hp | exact Hp].
Qed.
End Routes.

(** ** A route of one lane *)

Definition digit (n : nat) : string := String (Ascii.ascii_of_nat (48 + n)) EmptyString.

Definition setup_of (s : RuntimeSessionSpec) : Setup := {|
  spec := s; prefetch_lead := 0; deliver_history := false; fuses := false;
  mint := fun n => ("ep-" ++ digit n)%string; keys := fun m => fst <$> map_to_list m |}.

Definition one_lane : Setup := setup_of (minimal_session None).

(** The driver an operation leaves. *)
Definition after {A} (m : op A) (d : Driver) : Driver := match m d with Some (_, d') => d' | None => d end.

Lemma after_runs {A} (m : op A) d r : fst <$> m d = Some r -> m d = Some (r, after m d).
Proof. unfold after. destruct (m d) as [[r' d']|]; simpl; [by intros [= ->] | done]. Qed.

Definition no_time : nat -> clock_read := fun _ => Some 5.
Definition passes {A B} : A -> B -> result B RuntimeError := fun _ x => Ok x.
Definition plays : nat -> ValueLeaves -> result (option ValueLeaves) RuntimeError := fun _ x => Ok (Some x).
Definition never : Plan := fun _ _ => [].

Definition a_started : Driver := after (@start one_lane) (@driver_new one_lane (fun _ => Some 1)).
Definition a_waiting : Driver := after (@dispatch one_lane never plays) a_started.
Definition a_request : EnvOp :=
  default (FlyReset 0 true (mkResetRequest [] None 0 [] [])) (head (d_env_ops a_waiting)).
Definition a_reply : EnvReply := ReplyReset (Ok (mkResetResponse (Some [[Byte.x01]]) None)).
Definition a_top : Driver :=
  after (@on_env_outcome one_lane no_time Ok 0 a_request a_reply) (set_d_env_ops ([] ++ []) a_waiting).

Lemma a_started_run : @start one_lane (@driver_new one_lane (fun _ => Some 1)) = Some (Ok tt, a_started).
Proof. unfold a_started. apply after_runs. vm_compute. reflexivity. Qed.
Lemma a_waiting_run : @dispatch one_lane never plays a_started = Some (Ok tt, a_waiting).
Proof. unfold a_waiting. apply after_runs. vm_compute. reflexivity. Qed.
Lemma a_top_run :
  @on_env_outcome one_lane no_time Ok 0 a_request a_reply (set_d_env_ops ([] ++ []) a_waiting) =
  Some (Ok tt, a_top).
Proof. unfold a_top. apply after_runs. vm_compute. reflexivity. Qed.

Lemma a_top_reached : @route_run one_lane Top a_top.
Proof.
  eapply (run_drive Waiting a_waiting).
  - eapply (run_drive Top a_started).
    + exact (run_start _ _ _ a_started_run).
    + refine (@drive_dispatch one_lane never plays a_started (Ok tt) _ _ a_waiting_run). vm_compute. reflexivity.
  - refine (@drive_env one_lane no_time Ok 0 a_reply a_request [] [] a_waiting (Ok tt) _ _ a_top_run).
    vm_compute. reflexivity.
Qed.

(** At the top of the loop after the first observation, under a scheduler that never
    plans a predict. *)
Lemma route_never_stalls_witness :
  nothing_flying a_top = true /\ nothing_flying (after (@dispatch one_lane never plays) a_top) = false.
Proof.
  split; [vm_compute; reflexivity|].
  apply (@route_never_stalls one_lane never plays a_top (Ok tt) (after (@dispatch one_lane never plays) a_top)
    a_top_reached).
  - vm_compute. reflexivity.
  - apply (after_runs (@dispatch one_lane never plays)). vm_compute. reflexivity.
Defined.
