(* ===== verification/DriverServed.v ===== *)
(** * The driver's operations and the env server

    The requests of the run driver as the env server sees them: no lane is ever under two
    env operations, no group in two predicts, and the server's validation refuses none of
    the requests, so each reaches the served env. *)

From S2P Require Import Prelude Types WireSpaces Edition Info Episode EnvServer Ledger Route SessionSpec Driver DriverInv DriverProgress.

(** ** Lists *)

Lemma NoDup_by_filter {A} (f : A -> nat) (l : list A) :
  (forall x, x ∈ l -> (length (filter (fun y => f y = f x) l) <= 1)%nat) -> NoDup (f <$> l).
Proof.
  induction l as [|x l IH]; intros Hl; [constructor|]. constructor.
  - intros (y & Hy & Hin)%list_elem_of_fmap. specialize (Hl x ltac:(by left)).
    rewrite filter_cons_True in Hl by done. simpl in Hl.
    assert (y ∈ filter (fun y => f y = f x) l) as Hf by (by apply list_elem_of_filter).
    destruct (filter _ l); [by apply elem_of_nil in Hf | simpl in Hl; lia].
  - apply IH. intros y Hy. specialize (Hl y ltac:(by right)). rewrite filter_cons in Hl.
    case_decide; simpl in Hl; lia.
Qed.

Lemma validate_lanes_one num lane : lane < num -> validate_lanes num ∅ [lane] = Ok tt.
Proof. intros Hl. simpl. destruct (Z.leb_spec num lane); [lia|]. by rewrite bool_decide_eq_false_2 by set_solver. Qed.

(** ** The groups *)

Section Groups.
Context `{Setup}.

Definition lanes_run : Z := Z.max (spec_num_envs spec) 1.
Definition by_lane : bool := subset_step spec && (1 <? lanes_run).

(** A group is a lane or, when the env cannot step lanes, all of them. *)
Lemma groups_cases gid g : groups !! gid = Some g ->
  g_lane_group g = by_lane /\
  if by_lane then g_lanes g = [Z.of_nat gid] /\ requested_lanes g = [Z.of_nat gid] /\ Z.of_nat gid < lanes_run
  else gid = 0%nat /\ g_lanes g = all_lanes lanes_run /\ requested_lanes g = [].
Proof.
  unfold groups, lane_partition, requested_lanes. fold lanes_run. fold by_lane.
  rewrite list_lookup_fmap. intros (lanes & Hl & ->)%fmap_Some. unfold group_new. simpl. fold lanes_run. fold by_lane.
  split; [done|]. destruct by_lane; simpl.
  - rewrite !list_lookup_fmap in Hl. destruct (seq 0 _ !! gid) as [i|] eqn:Hi; [|done].
    apply lookup_seq in Hi as [-> Hlt]. injection Hl as <-. simpl. split_and!; [done | done | lia].
  - by destruct gid; [injection Hl as <-|].
Qed.
End Groups.

(** ** The server's view *)

(** The server behind the session: it serves the contract the session validated, on the
    session's lanes, and steps lanes individually where the session relies on it. *)
Record serves `{Setup} `{Build} {E} `{Environment E} (supports_lanes : bool) : Prop := {
  serves_valid : validate spec = Ok tt;
  serves_width : env_num_envs = lanes_run;
  serves_mode : pc_autoreset_mode (env_contract spec) = autoreset_to_i32 env_autoreset_mode;
  serves_lanes : subset_step spec = true -> supports_lanes = true;
}.

Lemma validate_not_same_step `{Build} s : validate s = Ok tt -> pc_autoreset_mode (env_contract s) <> 2.
Proof. unfold validate. rewrite !bind_Ok_unit, !refuse_if_is_ok, !Z.eqb_neq. tauto. Qed.

Section Served.
Context `{Setup} `{Build} {E : Type} `{Environment E} (supports_lanes : bool) (Hserves : serves supports_lanes).

(** The lanes the server resets or steps for a request. *)
Definition op_lanes (o : EnvOp) : list Z :=
  match o with FlyReset _ _ r => reset_lanes r | FlyStep _ r => step_lanes r end.

Lemma op_lanes_group o : op_ok (op_gid o) o ->
  op_lanes o = if by_lane then [Z.of_nat (op_gid o)] else all_lanes lanes_run.
Proof.
  intros (g & Hg & Ho). destruct (groups_cases _ _ Hg) as [_ Hc].
  destruct o as [gid initial r|gid r]; simpl in *; unfold reset_lanes, step_lanes; rewrite (serves_width _ Hserves).
  - destruct Ho as (-> & _). destruct by_lane; destruct Hc as (? & ? & ?).
    + by rewrite bool_decide_eq_false_2; [|congruence].
    + by rewrite bool_decide_eq_true_2.
  - rewrite Ho. destruct by_lane; destruct Hc as (? & ? & ?).
    + by rewrite bool_decide_eq_false_2; [|congruence].
    + by rewrite bool_decide_eq_true_2.
Qed.

(** An operation in flight is its group's only one and asks for its lanes. *)
Lemma op_in_flight d o : inv [] [] d -> o ∈ d_env_ops d ->
  op_ok (op_gid o) o /\ ops_of (op_gid o) (d_env_ops d) = [o].
Proof.
  intros [[Hr _] Hd] Ho. rewrite Forall_forall in Hr. specialize (Hr o Ho). simpl in Hr.
  apply lookup_lt_is_Some in Hr as [g Hg]. destruct (Hd _ _ Hg) as [_ _ _ He _ _].
  destruct (He (not_elem_of_nil _)) as (Hs & _ & _).
  assert (Hin : o ∈ ops_of (op_gid o) (d_env_ops d)) by (by apply list_elem_of_filter).
  unfold sent in Hs. destruct (g_phase g).
  - rewrite Hs in Hin. by apply elem_of_nil in Hin.
  - destruct Hs as (r & Hl & Hok). rewrite Hl in Hin |- *. by apply list_elem_of_singleton in Hin as ->.
  - destruct Hs as (_ & i & r & Hl & Hok). rewrite Hl in Hin |- *. by apply list_elem_of_singleton in Hin as ->.
  - rewrite Hs in Hin. by apply elem_of_nil in Hin.
Qed.

Lemma predict_gids d : inv [] [] d -> NoDup (d_predicts d ≫= fmap fst).
Proof.
  intros [[_ Hr] Hd]. rewrite <- (list_fmap_id (_ ≫= _)). apply NoDup_by_filter. intros gid Hin.
  rewrite Forall_forall in Hr. specialize (Hr gid Hin). apply lookup_lt_is_Some in Hr as [g Hg].
  destruct (Hd _ _ Hg) as [_ _ _ _ _ Hp]. exact (pred_ok_bound _ _ (Hp (not_elem_of_nil _))).
Qed.

Lemma by_lane_supported : by_lane = true -> supports_lanes = true.
Proof. unfold by_lane. intros [? _]%andb_true_iff. by apply (serves_lanes _ Hserves). Qed.

Lemma not_same_step : env_autoreset_mode <> SameStep.
Proof.
  intros Hm. apply (validate_not_same_step spec (serves_valid _ Hserves)).
  by rewrite (serves_mode _ Hserves), Hm.
Qed.

(** Which lanes an operation covers tells its group. *)
Lemma op_gid_lane o lane : op_ok (op_gid o) o ->
  lane ∈ (if by_lane then [Z.of_nat (op_gid o)] else all_lanes lanes_run) ->
  op_gid o = if by_lane then Z.to_nat lane else 0%nat.
Proof.
  intros (g & Hg & _). destruct (groups_cases _ _ Hg) as [_ Hc]. destruct by_lane; [|by destruct Hc].
  intros ->%list_elem_of_singleton. by rewrite Nat2Z.id.
Qed.

(** The validation of a request for the lanes of a group. *)
Lemma lanes_valid gid g seeds ids :
  groups !! gid = Some g -> (g_lane_group g = true -> seeds = [] \/ length seeds = width g) ->
  ids = [] \/ length ids = width g ->
  validate_partial_reset (negb (bool_decide (requested_lanes g = []))) (requested_lanes g) seeds ids
    env_num_envs = Ok tt.
Proof.
  intros Hg Hseeds Hids. destruct (groups_cases _ _ Hg) as [Hl Hc]. rewrite Hl in Hseeds.
  rewrite (serves_width _ Hserves). destruct by_lane; destruct Hc as (Hlanes & Hreq & Hlt).
  - unfold validate_partial_reset, width in *. rewrite Hreq, Hlanes in *.
    rewrite bool_decide_eq_false_2 by done. cbn [negb].
    assert (Hlen : forall {A} (l : list A) (b : bool), l = [] \/ length l = length [Z.of_nat gid] ->
      (b = false -> l <> []) -> negb b && negb (Nat.eqb (length l) (length [Z.of_nat gid])) = false).
    { intros A l [] [->|Hlen] Hb; try done; [by destruct (Hb eq_refl)|]. by rewrite Hlen. }
    rewrite Hlen; [|by apply Hseeds | by intros ?%bool_decide_eq_false].
    rewrite Hlen; [|by apply Hids | by intros ?%bool_decide_eq_false].
    by apply validate_lanes_one.
  - by rewrite Hlt, bool_decide_eq_true_2.
Qed.

(** C6: while a route runs, no lane is under two env operations at once, as the server
    counts the lanes of a request, and no group is in two predicts. *)
Theorem lanes_exclusive w d :
  route_run w d -> (forall e, w <> Failed e) ->
  NoDup (d_env_ops d ≫= op_lanes) /\ NoDup (d_predicts d ≫= fmap fst).
Proof.
  intros Hrun Hw. pose proof (inv_route _ _ Hrun Hw) as Hd. split; [|by apply predict_gids].
  assert (Hgids : NoDup (op_gid <$> d_env_ops d)).
  { apply NoDup_by_filter. intros o Ho. destruct (op_in_flight _ _ Hd Ho) as [_ Hl].
    unfold ops_of in Hl. by rewrite Hl. }
  apply NoDup_bind; [| |by eapply NoDup_fmap_1].
  - intros o o' lane Ho Ho'. destruct (op_in_flight _ _ Hd Ho) as [Hok Hl].
    destruct (op_in_flight _ _ Hd Ho') as [Hok' Hl'].
    rewrite !op_lanes_group by done. intros Hin Hin'. assert (Heq : op_gid o = op_gid o').
    { pose proof (op_gid_lane _ _ Hok Hin). pose proof (op_gid_lane _ _ Hok' Hin'). congruence. }
    rewrite Heq in Hl. congruence.
  - intros o Ho. rewrite op_lanes_group by (by eapply op_in_flight). destruct by_lane; [apply NoDup_singleton|].
    apply all_lanes_covered.
Qed.

(** C7: the server refuses none of the driver's requests: each reset and each step in
    flight passes its checks and is answered by the env itself. *)
Theorem requests_served w d o late (env : E) :
  route_run w d -> (forall e, w <> Failed e) -> o ∈ d_env_ops d ->
  match o with
  | FlyReset _ _ r =>
      reset_op supports_lanes late r env =
      (run_env_op_with_deadline (env_reset r env).1 (reset_timeout_ms r) late "env.reset", (env_reset r env).2)
  | FlyStep _ r =>
      step_op supports_lanes late r env =
      (run_env_op_with_deadline (env_step r env).1 (step_timeout_ms r) late "env.step", (env_step r env).2)
  end.
Proof.
  intros Hrun Hw Ho. destruct (op_in_flight _ _ (inv_route _ _ Hrun Hw) Ho) as [(g & Hg & Hok) _].
  assert (Hsl : negb (bool_decide (requested_lanes g = [])) && negb supports_lanes = false).
  { destruct (groups_cases _ _ Hg) as [_ Hc]. destruct by_lane eqn:Hb.
    - rewrite by_lane_supported by done. apply andb_false_r.
    - destruct Hc as (_ & _ & ->). by rewrite bool_decide_eq_true_2. }
  destruct o as [gid initial r|gid r].
  - destruct Hok as (Hlanes & Hids & Hseeds). unfold reset_op.
    rewrite Hlanes, Hsl, (lanes_valid _ _ _ _ Hg) by auto. by destruct (env_reset r env).
  - unfold step_op. rewrite bool_decide_eq_false_2 by apply not_same_step. rewrite Hok, Hsl.
    assert (Hv : (if negb (bool_decide (requested_lanes g = [])) then
        map_err (message_replace "partial reset" "subset step")
          (validate_partial_reset true (requested_lanes g) [] [] env_num_envs) else Ok tt) = Ok tt).
    { pose proof (lanes_valid _ _ [] [] Hg ltac:(auto) ltac:(auto)) as Hv.
      destruct (negb _); [by rewrite Hv | done]. }
    rewrite Hv. by destruct (env_step r env).
Qed.
End Served.

(** ** A route of two lanes *)

Definition two_lanes : Setup := setup_of
  (mkSpec (mkIds "session" "env" "env-c" "model-c") E2026_06 minimal_contract 2 (Some 7) [] (Some 5) None
    None None false default_limits true None None).

(** An env that answers every reset and no step. *)
Definition two_lane_env : Environment unit := {|
  env_num_envs := 2; env_autoreset_mode := Disabled; env_supports_lanes := true;
  env_reset := fun _ e => (Ok (mkResetResponse None None, phases_default), e);
  env_step := fun _ e => (Err (EnvError_new CNotReady (lit "")), e);
  env_render := fun _ e => (Err (EnvError_new CNotReady (lit "")), e);
  env_pin_workflow_edition := fun _ e => e |}.

Lemma two_lanes_served : @serves two_lanes release_build unit two_lane_env true.
Proof. split; try done; vm_compute; reflexivity. Qed.

Definition b_started : Driver := after (@start two_lanes) (@driver_new two_lanes (fun _ => Some 1)).

Lemma b_started_reached : @route_run two_lanes Top b_started.
Proof.
  refine (@run_start two_lanes (fun _ => Some 1) (Ok tt) b_started _). unfold b_started.
  apply after_runs. vm_compute. reflexivity.
Qed.

Lemma lanes_exclusive_witness :
  d_env_ops b_started ≫= @op_lanes unit two_lane_env = [0; 1] /\ NoDup (d_env_ops b_started ≫= @op_lanes unit two_lane_env).
Proof.
  split; [vm_compute; reflexivity|].
  apply (@lanes_exclusive two_lanes release_build unit two_lane_env true two_lanes_served Top b_started
    b_started_reached).
  done.
Defined.

Definition b_request : ResetRequest :=
  match d_env_ops b_started with FlyReset _ _ r :: _ => r | _ => mkResetRequest [] None 0 [] [] end.

Lemma requests_served_witness :
  reset_env_indices b_request = [0] /\
  @reset_op unit two_lane_env true false b_request tt = (Ok (mkResetResponse None None, phases_default), tt).
Proof.
  split; [vm_compute; reflexivity|].
  refine (@requests_served two_lanes release_build unit two_lane_env true two_lanes_served Top b_started
    (FlyReset 0 true b_request) false tt b_started_reached _ _); [done|].
  apply (list_elem_of_lookup_2 _ 0). vm_compute. reflexivity.
Defined.
