(* ===== verification/DriverRuns.v ===== *)
(** * Runs of the driver

    Concrete routes of one lane, driven turn by turn, on which the driver leaves what its
    comments promise: a predict sent after the eviction of its episode, an action of one
    episode's plan played in the next, and the panics a scheduler or a peer can reach. *)

From S2P Require Import Prelude Float WireSpaces Edition Episode EnvServer Route SessionSpec Driver DriverProgress.

(** ** Driving a route by hand *)

(** A turn of the loop: a dispatch, or the oldest operation landing. *)
Inductive Turn : Type :=
  | Dispatch (plan : Plan)
  | ResetLands (observation : ValueLeaves)
  | StepLands (response : StepResponse)
  | PredictLands (frames : list ValueLeaves).

Section Turns.
Context `{Setup}.

Definition turn (t : Turn) (d : Driver) : option (result unit RuntimeError * Driver) :=
  match t, d_env_ops d, d_predicts d with
  | Dispatch plan, _, _ =>
      if all_idle d && nothing_flying d then None else dispatch plan plays d
  | ResetLands observation, o :: ops, _ =>
      on_env_outcome no_time Ok 0 o (ReplyReset (Ok (mkResetResponse (Some observation) None)))
        (set_d_env_ops ([] ++ ops) d)
  | StepLands response, o :: ops, _ =>
      on_env_outcome no_time Ok 0 o (ReplyStep (Ok response)) (set_d_env_ops ([] ++ ops) d)
  | PredictLands frames, _, p :: ps =>
      on_predict_outcome p 0 (Ok ((fun '(_, context) => Ok (mkPrediction context frames)) <$> p))
        (set_d_predicts ([] ++ ps) d)
  | _, _, _ => None
  end.

Definition next (t : Turn) (w : Where) : option Where :=
  match t, w with
  | Dispatch _, Top => Some Waiting
  | (ResetLands _ | StepLands _ | PredictLands _), Waiting => Some Top
  | _, _ => None
  end.

Fixpoint turns (ts : list Turn) (w : Where) (d : Driver) : option (Where * Driver) :=
  match ts with
  | [] => Some (w, d)
  | t :: ts =>
      match next t w, turn t d with
      | Some w, Some (Ok _, d) => turns ts w d
      | _, _ => None
      end
  end.

Lemma turn_drives t w w' d d' :
  next t w = Some w' -> turn t d = Some (Ok tt, d') -> drives w d w' d'.
Proof.
  intros Hn Ht. destruct t, w; try discriminate Hn; injection Hn as <-; unfold turn in Ht.
  - destruct (all_idle d && nothing_flying d) eqn:Hidle; [done|].
    exact (drive_dispatch plan plays d (Ok tt) d' Hidle Ht).
  - destruct (d_env_ops d) as [|o ops] eqn:Ho; [done|].
    exact (drive_env no_time Ok 0 _ o [] ops d (Ok tt) d' Ho Ht).
  - destruct (d_env_ops d) as [|o ops] eqn:Ho; [done|].
    exact (drive_env no_time Ok 0 _ o [] ops d (Ok tt) d' Ho Ht).
  - destruct (d_env_ops d), (d_predicts d) as [|p ps] eqn:Hp; try done;
      exact (drive_predict 0 _ p [] ps d (Ok tt) d' Hp Ht).
Qed.

Lemma turns_run ts w d w' d' : route_run w d -> turns ts w d = Some (w', d') -> route_run w' d'.
Proof.
  revert w d. induction ts as [|t ts IH]; intros w d Hrun; simpl; [by intros [= <- <-]|].
  destruct (next t w) as [w1|] eqn:Hn; [|done]. destruct (turn t d) as [[[[]|] d1]|] eqn:Ht; try done.
  apply IH. eapply run_drive; [exact Hrun|]. by eapply turn_drives.
Qed.

(** The route's first resets, then the turns. *)
Definition driven (ts : list Turn) : option (Where * Driver) :=
  match start (driver_new (fun _ => Some 1)) with
  | Some (Ok _, d) => turns ts Top d
  | _ => None
  end.

Lemma driven_run ts w d : driven ts = Some (w, d) -> route_run w d.
Proof.
  unfold driven. destruct (start _) as [[[[]|] d0]|] eqn:Hs; try done.
  apply turns_run. exact (run_start _ _ _ Hs).
Qed.

(** The driver the turns leave. *)
Definition reached (ts : list Turn) : Driver :=
  match driven ts with Some (_, d) => d | None => driver_new (fun _ => None) end.

Lemma driven_reached ts w : fst <$> driven ts = Some w -> driven ts = Some (w, reached ts).
Proof. unfold reached. destruct (driven ts) as [[w' d]|]; simpl; [by intros [= ->] | done]. Qed.

Lemma driven_reaches {A} ts (f : Driver -> A) w a :
  fst <$> driven ts = Some w -> f (reached ts) = a -> exists d, route_run w d /\ f d = a.
Proof. intros Hw Hf. exists (reached ts). split; [by apply (driven_run ts), driven_reached | done]. Qed.
End Turns.

(** ** Under an env that restarts its own lane *)

Definition next_step_contract : ProtoEnvContract := {|
  pc_spec := pc_spec minimal_contract; pc_num_envs := 1; pc_render_mode := ""; pc_autoreset_mode := 1 |}.

(** A prefetch one frame ahead. *)
Definition prefetching : Setup := {|
  spec := mkSpec (mkIds "session" "env" "env-c" "model-c") E2026_06 next_step_contract 1 None [] (Some 5) None
    None None false default_limits false None None;
  prefetch_lead := 1; deliver_history := false; fuses := false;
  mint := fun n => ("ep-" ++ digit n)%string; keys := fun m => fst <$> map_to_list m |}.

Definition obs_value (n : Z) : ValueLeaves := [[byte.of_Z n]].
Definition plain (n : Z) : StepResponse := mkStepResponse (Some (obs_value n)) [f64_zero] [] [] None [] [].
Definition ends (id : string) (n : Z) : StepResponse :=
  mkStepResponse (Some (obs_value n)) [f64_zero] [] [] None
    [mkMetadata id None 0 1 f64_zero true false 0 0 None] [].

(** The first episode ends at its first step; its terminal observation is predicted on,
    and the first frame of that chunk is the env's autoreset step. *)
Definition to_roll : list Turn :=
  [Dispatch never; ResetLands (obs_value 10);
   Dispatch never; PredictLands [obs_value 20];
   Dispatch never; StepLands (ends "ep-0" 11);
   Dispatch never; PredictLands [obs_value 21; obs_value 22];
   Dispatch never; StepLands (plain 12);
   Dispatch never].

Definition episodes_of (m : ModelMsg) : string * list string :=
  match m with
  | MPredict requests => ("predict", (requests ≫= fun r => ei_episode_id <$> pr_episode_info r))
  | MEvict request => ("evict", rar_episode_ids request)
  end.

(** The steps in flight, by episode and action. *)
Definition step_of (o : EnvOp) : option (list string * option ValueLeaves) :=
  match o with FlyStep _ r => Some (step_episode_ids r, step_action r) | FlyReset _ _ _ => None end.

(** The comment on [queue_evictions] promises that the model never sees a predict under
    an id after that id's eviction.  A prefetch that the scheduler has not sent by the
    time the lane rolls breaks it: the eviction goes out, and the predict follows. *)
Theorem predict_follows_eviction :
  exists d, @route_run prefetching Waiting d /\
    episodes_of <$> d_sent d =
      [("predict", ["ep-0"]); ("predict", ["ep-0"]); ("evict", ["ep-0"]); ("predict", ["ep-0"])].
Proof.
  eapply (driven_reaches (to_roll ++ [StepLands (plain 13); Dispatch never])
    (fun d => episodes_of <$> d_sent d)); vm_compute; reflexivity.
Qed.

(** An episode end flushes the buffered actions so that no plan leaks into the next
    episode, but the roll does not: the second frame of the chunk predicted on the first
    episode's terminal observation (22) is the second episode's first action. *)
Theorem plan_crosses_episodes :
  exists d, @route_run prefetching Waiting d /\
    omap step_of (d_env_ops d) = [(["ep-1"], Some (obs_value 22))].
Proof.
  eapply (driven_reaches to_roll (fun d => omap step_of (d_env_ops d))); vm_compute; reflexivity.
Qed.

(** ** Panics *)

(** A plan is only filtered for groups that wait, not for repetitions: naming one twice
    reaches the [unreachable!] of [predict_for]. *)
Theorem repeated_plan_panics :
  @route_run one_lane Top a_top /\ @dispatch one_lane (fun waiting _ => waiting ++ waiting) plays a_top = None.
Proof. split; [exact a_top_reached | vm_compute; reflexivity]. Qed.

(** The timestamps of a completion are the peer's, and their difference is taken in
    [i64]: an episode that starts at the least one panics the driver. *)
Theorem peer_timestamps_panic :
  turn (H := prefetching) (StepLands (mkStepResponse None [f64_zero] [] [] None
      [mkMetadata "ep-0" None 0 1 f64_zero true false i64_min 0 None] []))
    (reached (H := prefetching) (take 5 to_roll)) = None /\
  @route_run prefetching Waiting (reached (H := prefetching) (take 5 to_roll)).
Proof.
  split; [vm_compute; reflexivity|]. apply (driven_run (take 5 to_roll)), driven_reached. vm_compute. reflexivity.
Qed.
