(* ===== verification/AdapterValue.v ===== *)
(** * The adapter payload values

    [src/crates/rlmesh-adapters/src/]: the [Value] tree the apply engine works on
    ([apply/value.rs]), structured paths ([path.rs]), the raw-observation envelope
    and the lookups into it ([apply/lookup.rs], [plans.rs]), and the typed views and
    casts of a tensor.  A function that can panic returns an [option]; the
    [expect]s are part of the definitions and the lemmas show they hold. *)

From stdpp Require Import pretty.
From coqutil Require Import Word.LittleEndianList.
From S2P Require Import Prelude BTree Float FloatOps DType Scalar Tensor.
#[local] Open Scope Z_scope.

(** ** Values *)

#[local] Unset Elimination Schemes.
Inductive Value : Type :=
| ValNone
| ValBool (b : bool)
| ValInt (i : Z)
| ValTuple (items : list Value)
| ValTensor (t : Tensor)
| ValText (s : list Z)
| ValBytes (bs : list byte)
| ValNumber (f : f64)
| ValList (items : list Value)
| ValMap (m : btree Value).
#[local] Set Elimination Schemes.

(** A failure to apply: the message, and the error of a host callback it wraps. *)
Record ApplyError : Type := { apply_source : option string; apply_message : message }.

Definition apply_error (m : message) : ApplyError :=
  {| apply_source := None; apply_message := m |}.

(** ** Paths *)

Inductive PathSeg : Type :=
| PKey (key : string)
| PIndex (index : nat).

#[export] Instance PathSeg_eq_dec : EqDecision PathSeg.
Proof. solve_decision. Defined.

Definition NodePath : Type := list PathSeg.

Definition path_root : NodePath := [].
Definition is_root (p : NodePath) : bool := match p with [] => true | _ => false end.
Definition push_key (p : NodePath) (key : string) : NodePath := p ++ [PKey key].
Definition push_index (p : NodePath) (index : nat) : NodePath := p ++ [PIndex index].
Definition path_first (p : NodePath) : option PathSeg := head p.
Definition path_rest (p : NodePath) : NodePath := tail p.

Definition seg_display (position : nat) (segment : PathSeg) : string :=
  match segment with
  | PKey key => if decide (0 < position)%nat then "." +:+ key else key
  | PIndex index => "[" +:+ pretty (N.of_nat index) +:+ "]"
  end.

Definition path_display (p : NodePath) : string :=
  match p with
  | [] => "<root>"
  | _ => String.concat "" (imap seg_display p)
  end.

Definition OBS_ROOT_KEY : string := "<obs>".

Definition envelope_key (source : NodePath) : string :=
  match path_first source with Some (PKey key) => key | _ => OBS_ROOT_KEY end.

(** ** Walking a tree *)

Definition value_kind (v : Value) : string :=
  match v with
  | ValTensor _ => "a tensor"
  | ValText _ => "text"
  | ValBytes _ => "bytes"
  | ValNone => "None"
  | ValBool _ => "a bool"
  | ValInt _ => "an integer"
  | ValTuple _ => "a tuple"
  | ValNumber _ => "a number"
  | ValList _ => "a list"
  | ValMap _ => "a map"
  end.

Definition quoted_keys {V} (m : btree V) : string :=
  String.concat ", " ((fun k => "'" +:+ k +:+ "'") <$> btree_keys m).

(** The descent shared by the two resolvers.  A [&mut] to the addressed node is
    the node with the write back into the tree it was found in. *)
Section Walk.
Context (missing_key : string -> btree Value -> ApplyError)
        (oob : nat -> nat -> ApplyError)
        (mismatch : PathSeg -> Value -> ApplyError).

Fixpoint resolve_walk (cur : Value) (path : NodePath)
    : result (Value * (Value -> Value)) ApplyError :=
  match path with
  | [] => Ok (cur, fun v => v)
  | segment :: path =>
      match segment, cur with
      | PKey key, ValMap m =>
          let? child := ok_or (btree_get key m) (missing_key key m) in
          let? (found, write) := resolve_walk child path in
          Ok (found, fun v => ValMap (btree_insert key (write v) m))
      | PIndex index, ValList items =>
          let? child := ok_or (items !! index) (oob index (length items)) in
          let? (found, write) := resolve_walk child path in
          Ok (found, fun v => ValList (<[index := write v]> items))
      | PIndex index, ValTuple items =>
          let? child := ok_or (items !! index) (oob index (length items)) in
          let? (found, write) := resolve_walk child path in
          Ok (found, fun v => ValTuple (<[index := write v]> items))
      | _, _ => Err (mismatch segment cur)
      end
  end.
End Walk.

Definition seg_want (segment : PathSeg) : string * string :=
  match segment with
  | PKey key => ("a Dict", "'" +:+ key +:+ "'")
  | PIndex index => ("a Tuple", "[" +:+ pretty (N.of_nat index) +:+ "]")
  end.

Definition resolve_source (root : Value) (path : NodePath) : result Value ApplyError :=
  let? (found, _) :=
    resolve_walk
      (fun key m => apply_error
         (Msg "observation path '{}' is missing key '{key}'; available: [{}]"
            [AStr (path_display path); AStr key; AStr (quoted_keys m)]))
      (fun index len => apply_error
         (Msg "observation path '{}' index [{index}] is out of range (len {len})"
            [AStr (path_display path); ANat index; ANat len]))
      (fun segment other => apply_error
         (Msg "observation path '{}' expected {want} at {at}, got {}"
            [AStr (path_display path); AStr (seg_want segment).1; AStr (seg_want segment).2;
             AStr (value_kind other)]))
      root path in
  Ok found.

Definition resolve_source_mut (root : Value) (path : NodePath)
    : result (Value * (Value -> Value)) ApplyError :=
  resolve_walk
    (fun key _ => apply_error
       (Msg "payload path '{path}' is missing key '{key}'" [AStr (path_display path); AStr key]))
    (fun index len => apply_error
       (Msg "payload path '{path}' index [{index}] is out of range (len {len})"
          [AStr (path_display path); ANat index; ANat len]))
    (fun segment other => apply_error
       (Msg "payload path '{path}' expected {want} at {at}, got {}"
          [AStr (path_display path); AStr (seg_want segment).1; AStr (seg_want segment).2;
           AStr (value_kind other)]))
    root path.

Definition resolve_in_obs (raw_obs : btree Value) (source : NodePath) : result Value ApplyError :=
  let key := envelope_key source in
  let? entry := ok_or (btree_get key raw_obs) (apply_error
    (Msg "observation is missing entry '{key}' for source '{source}'; available: [{}]"
       [AStr key; AStr (path_display source); AStr (quoted_keys raw_obs)])) in
  let remaining := if (key =? OBS_ROOT_KEY)%string then source else path_rest source in
  resolve_source entry remaining.

(** ** Typed views of a tensor *)

(** [expect] on a tensor constructor. *)
Definition expect {A E} (r : option (result A E)) : option A :=
  match r with Some (Ok a) => Some a | _ => None end.

Definition tensor_error (e : TensorError) : ApplyError := apply_error (tensor_error_message e).
Definition scalar_error (e : ScalarError) : ApplyError := apply_error (scalar_error_message e).

(** [map_err] under a possible panic. *)
Definition lift_err {A E F} (f : E -> F) (r : option (result A E)) : option (result A F) :=
  map_err f <$> r.

Definition f32_le_bytes (x : f32) : list byte := le_split 4 (f32_bits x).

Definition tensor_from_f32 (shape : list Z) (data : list f32) : option Tensor :=
  expect (tensor_from_vec (concat (f32_le_bytes <$> data)) shape Float32).

Definition tensor_from_u8 (shape : list Z) (data : list byte) : option Tensor :=
  expect (tensor_from_vec data shape Uint8).

(** [Bool] is in the integer family here. *)
Definition integer_family (d : DType) : bool :=
  match d with
  | Bool | Uint8 | Int8 | Int16 | Uint16 | Int32 | Uint32 | Int64 | Uint64 => true
  | _ => false
  end.

Definition u8_pixels (t : Tensor) : option (result (list byte) ApplyError) :=
  if negb (bool_decide (dtype t = Uint8)) then
    Some (Err (apply_error (lit "resize expects uint8 image data")))
  else
    let! bytes := to_contiguous_bytes t in
    Some (Ok bytes).

Fixpoint gather_elements (size : Z) (bytes : list byte) (indices : list Z) : option (list byte) :=
  match indices with
  | [] => Some []
  | index :: indices =>
      let! start := checked_usize (index * size) in
      let! next := checked_usize (index + 1) in
      let! stop := checked_usize (next * size) in
      let! chunk := slice bytes start stop in
      let! rest := gather_elements size bytes indices in
      Some (chunk ++ rest)
  end.

Definition gather (t : Tensor) (indices out_shape : list Z) : option Tensor :=
  let! bytes := to_contiguous_bytes t in
  let! out := gather_elements (Z.of_nat (dtype_size (dtype t))) bytes indices in
  expect (tensor_from_vec out out_shape (dtype t)).

(** [dim as i64] wraps. *)
Definition shape_i64 (shape : list Z) : list Z := wrap_s 64 <$> shape.
Definition shape_usize (t : Tensor) : list Z := (fun dim => Z.max 0 dim) <$> shape t.

Section Views.
Context `{HalfOps}.

Definition decode_tensor (t : Tensor) : option (list Scalar) :=
  let! bytes := to_contiguous_bytes t in
  expect (decode_scalars bytes (dtype t)).

Definition to_f64_vec (t : Tensor) : option (list f64) :=
  let! scalars := decode_tensor t in
  Some ((fun scalar => to_f64 scalar (dtype t)) <$> scalars).

Definition to_f32_vec (t : Tensor) : option (list f32) :=
  let! scalars := decode_tensor t in
  Some ((fun scalar => f32_of_f64 (to_f64 scalar (dtype t))) <$> scalars).

(** One pixel of [to_u8_pixels]. *)
Definition to_u8_pixel (float : bool) (src_range : option (f64 * f64)) (value : f64) : option byte :=
  let byte_max := f64_of_Z 255 in
  let value :=
    if float then
      match src_range with
      | Some (low, high) =>
          if f64_gt high low
          then f64_mul (f64_quot (f64_sub value low) (f64_sub high low)) byte_max
          else f64_mul value byte_max
      | None => f64_mul value byte_max
      end
    else value in
  let! clamped := f64_clamp (f64_round_ties_even value) f64_zero byte_max in
  Some (byte.of_Z (f64_as_int 0 255 clamped)).

Definition to_u8_pixels (t : Tensor) (src_range : option (f64 * f64)) : option (list byte) :=
  if bool_decide (dtype t = Uint8) then to_contiguous_bytes t
  else
    let! values := to_f64_vec t in
    mapM (to_u8_pixel (negb (integer_family (dtype t))) src_range) values.

(** ** Casts *)

Fixpoint integral_scalars (target : DType) (values : list f64) : result (list Scalar) ApplyError :=
  match values with
  | [] => Ok []
  | value :: values =>
      if negb (f64_eqb (f64_fract value) f64_zero) then
        Err (apply_error (Msg "cannot cast non-integral value {value} to {}"
                            [AF64 (f64_bits value); AStr (dtype_name target)]))
      else
        let integral := f64_as_int i64_min i64_max value in
        let? _ := map_err scalar_error (check_int_in_dtype_range integral target) in
        let? rest := integral_scalars target values in
        Ok (SInt integral :: rest)
  end.

Definition encode_f64_to (values : list f64) (shape : list Z) (target : DType)
    : option (result Tensor ApplyError) :=
  let!? scalars :=
    Some (if integer_family target then integral_scalars target values
          else Ok (SFloat <$> values)) in
  let!? bytes := lift_err scalar_error (encode_scalars scalars target) in
  lift_err tensor_error (tensor_from_vec bytes shape target).

Definition cast (t : Tensor) (target : DType) : option (result Tensor ApplyError) :=
  if bool_decide (dtype t = target) then Some (Ok t)
  else
    let! values := to_f64_vec t in
    encode_f64_to values (shape t) target.

(** ** Numeric payloads *)

Fixpoint numeric_vector (v : Value) : option (result (list f32) ApplyError) :=
  match v with
  | ValNone => Some (Err (apply_error (lit "expected a numeric value, got None")))
  | ValTensor t =>
      let! values := to_f32_vec t in
      Some (Ok values)
  | ValInt number => Some (Ok [f32_of_Z number])
  | ValBool flag => Some (Ok [f32_of_Z (Z.b2z flag)])
  | ValNumber number => Some (Ok [f32_of_f64 number])
  | ValList items | ValTuple items =>
      (fix extend (items : list Value) : option (result (list f32) ApplyError) :=
         match items with
         | [] => Some (Ok [])
         | item :: items =>
             let!? out := numeric_vector item in
             let!? rest := extend items in
             Some (Ok (out ++ rest))
         end) items
  | ValMap m =>
      (fix data (l : btree Value) : option (result (list f32) ApplyError) :=
         match l with
         | [] => Some (Err (apply_error
                   (Msg "expected numeric payload mapping with a 'data' key, got keys [{}]"
                      [AStr (quoted_keys m)])))
         | (key, value) :: l =>
             if (key =? "data")%string then numeric_vector value else data l
         end) m
  | ValBytes _ =>
      Some (Err (apply_error (lit "bytes values are only valid for image adapter inputs")))
  | ValText _ => Some (Err (apply_error (lit "expected a numeric value, got text")))
  end.
End Views.

(** ** Affine maps *)

Definition map_range_entry (src_low span dst_low dst_high entry : f32) : f32 :=
  f32_add (f32_mul (f32_quot (f32_sub entry src_low) span) (f32_sub dst_high dst_low)) dst_low.

Definition map_range (value : list f32) (src dst : f64 * f64) : result (list f32) ApplyError :=
  let (src_low, src_high) := (f32_of_f64 src.1, f32_of_f64 src.2) in
  let (dst_low, dst_high) := (f32_of_f64 dst.1, f32_of_f64 dst.2) in
  let span := f32_sub src_high src_low in
  if f32_eqb span f32_zero then
    Err (apply_error (lit "source range for an affine map has zero width"))
  else Ok (map_range_entry src_low span dst_low dst_high <$> value).

(** ** Dense tensors

    [dense t data]: [t] is well formed, small enough to be copied, and its elements
    in row-major order are [data]. *)

Definition dense (t : Tensor) (data : list byte) : Prop :=
  exists bytes, tensor_wf t bytes /\ materialisable t /\ logical_bytes t bytes = data.

(** A shape a tensor of dtype [d] can be allocated with. *)
Record fits (ds : list Z) (d : DType) : Prop := {
  fits_dtype : d <> Unspecified;
  fits_dims : dims_ok ds;
  fits_extent : extent ds * Z.of_nat (dtype_size d) <= isize_max;
}.

Lemma dense_bytes t data : dense t data -> to_contiguous_bytes t = Some data.
Proof. intros (bytes & Hwf & Hm & <-). by apply to_contiguous_bytes_spec. Qed.

Lemma dense_length t data :
  dense t data -> Z.of_nat (length data) = volume (shape t) * Z.of_nat (dtype_size (dtype t)).
Proof. intros (bytes & Hwf & Hm & <-). by apply length_logical_bytes. Qed.

Lemma dense_fits t data : dense t data -> fits (shape t) (dtype t).
Proof.
  intros (bytes & Hwf & Hm & _). split; [apply (wf_dtype _ _ Hwf)|apply (wf_dims _ _ Hwf)|done].
Qed.

Lemma fits_volume ds d : fits ds d -> 0 <= volume ds /\ volume ds * Z.of_nat (dtype_size d) <= isize_max.
Proof.
  intros [Hd Hds He]. pose proof (volume_nonneg ds Hds). pose proof (volume_le_extent ds Hds).
  pose proof (dtype_size_pos d Hd). split; [done|nia].
Qed.

Definition dense_tensor (data : list byte) (ds : list Z) (d : DType) : Tensor :=
  mkTensor (Adopted data) d ds None 0.

(** [from_vec] on bytes of the right length. *)
Lemma from_vec_dense data ds d :
  fits ds d -> Z.of_nat (length data) = volume ds * Z.of_nat (dtype_size d) ->
  tensor_from_vec data ds d = Some (Ok (dense_tensor data ds d)) /\
  dense (dense_tensor data ds d) data.
Proof.
  intros Hf Hl. destruct (fits_volume ds d Hf) as [Hv Hb]. destruct Hf as [Hd Hds He].
  pose proof (dtype_size_pos d Hd). pose proof (extent_pos ds).
  assert (usize_product 1 ds = Some (volume ds)) as Hu.
  { rewrite usize_product_total by (try done; unfold_ints; nia). f_equal. lia. }
  destruct (fresh_tensor_spec (Adopted data) d ds data) as (Hs & W & Hb'); try done; [lia|].
  split; [|exists data; by split_and!].
  unfold tensor_from_vec, checked_nbytes, checked_numel. rewrite decide_False by done.
  rewrite (proj2 (checked_numel_spec ds 1 (volume ds) (dims_ok_i64s ds Hds)) (conj Hds Hu)).
  cbn [ok_or]. unfold checked_usize. rewrite checked_in by (unfold_ints; lia). cbn [ok_or].
  by rewrite <- Hl, Z.eqb_refl.
Qed.

Lemma shape_usize_dense t data : dense t data -> shape_usize t = shape t.
Proof.
  intros [_ Hds _]%dense_fits. unfold shape_usize. rewrite <- (list_fmap_id (shape t)) at 2.
  apply list_fmap_ext. intros i d Hi. pose proof (Forall_lookup_1 _ _ _ _ Hds Hi). simpl in *. lia.
Qed.

Lemma shape_i64_ok ds : dims_ok ds -> shape_i64 ds = ds.
Proof.
  intros Hds. unfold shape_i64. rewrite <- (list_fmap_id ds) at 2.
  apply list_fmap_ext. intros i d Hi. pose proof (Forall_lookup_1 _ _ _ _ Hds Hi). simpl in *.
  apply wrap_s_id; unfold_ints; lia.
Qed.

(** ** Nodes of a tree *)

Definition child (v : Value) (seg : PathSeg) : option Value :=
  match seg, v with
  | PKey key, ValMap m => btree_get key m
  | PIndex index, (ValList items | ValTuple items) => items !! index
  | _, _ => None
  end.

Fixpoint node_at (v : Value) (path : NodePath) : option Value :=
  match path with
  | [] => Some v
  | seg :: path => let! v := child v seg in node_at v path
  end.

(** Neither path leads through the other's node. *)
Definition path_disjoint (p q : NodePath) : Prop := ~ p `prefix_of` q /\ ~ q `prefix_of` p.

Lemma path_disjoint_cons s p q : path_disjoint (s :: p) (s :: q) <-> path_disjoint p q.
Proof.
  unfold path_disjoint. split; intros [H1 H2]; split; intros Hp.
  - by apply H1, prefix_cons.
  - by apply H2, prefix_cons.
  - by apply H1; apply prefix_cons_inv_2 in Hp.
  - by apply H2; apply prefix_cons_inv_2 in Hp.
Qed.

Lemma path_disjoint_nil_l p : ~ path_disjoint [] p.
Proof. intros [H _]. apply H, prefix_nil. Qed.

Lemma path_disjoint_sym p q : path_disjoint p q -> path_disjoint q p.
Proof. unfold path_disjoint. tauto. Qed.

Lemma child_node v seg path w :
  child v seg = Some w -> node_at v (seg :: path) = node_at w path.
Proof. intros H. cbn [node_at]. by rewrite H. Qed.

Section WalkLemmas.
Context (missing_key : string -> btree Value -> ApplyError)
        (oob : nat -> nat -> ApplyError)
        (mismatch : PathSeg -> Value -> ApplyError).
Let walk := resolve_walk missing_key oob mismatch.

(** The walk finds exactly the node the path names. *)
Lemma resolve_walk_found root path v :
  node_at root path = Some v <-> exists write, walk root path = Ok (v, write).
Proof.
  subst walk. revert root; induction path as [|seg path IH]; intros root; cbn [node_at resolve_walk].
  - split; [intros [= ->]; by eexists|by intros [? [= -> _]]].
  - destruct seg as [key|index], root; cbn [child]; try (split; [done|by intros [? ?]]).
    + destruct (btree_get key m) as [w|]; cbn [ok_or]; [|split; [done|by intros [? ?]]].
      rewrite IH. destruct (resolve_walk _ _ _ w path) as [[]|]; naive_solver.
    + destruct (items !! index) as [w|]; cbn [ok_or]; [|split; [done|by intros [? ?]]].
      rewrite IH. destruct (resolve_walk _ _ _ w path) as [[]|]; naive_solver.
    + destruct (items !! index) as [w|]; cbn [ok_or]; [|split; [done|by intros [? ?]]].
      rewrite IH. destruct (resolve_walk _ _ _ w path) as [[]|]; naive_solver.
Qed.

(** One step of a successful walk. *)
Lemma resolve_walk_step root seg path found write v :
  walk root (seg :: path) = Ok (found, write) ->
  exists w write', child root seg = Some w /\ walk w path = Ok (found, write') /\
    child (write v) seg = Some (write' v) /\
    forall s, s <> seg -> child (write v) s = child root s.
Proof.
  subst walk. cbn [resolve_walk]. intros Hw.
  destruct seg as [key|index], root; try done; cbn [child] in *;
    (destruct (btree_get key m) as [w|] eqn:Hk || destruct (items !! index) as [w|] eqn:Hk);
    cbn [ok_or] in Hw; try done;
    destruct (resolve_walk _ _ _ w path) as [[f wr]|] eqn:Hr; try done;
    injection Hw as <- <-; exists w, wr; split_and!; try done; cbn [child].
  - by rewrite btree_get_insert, String.eqb_refl.
  - intros [k|?] Hne; [|done]. cbn [child]. rewrite btree_get_insert.
    destruct (String.eqb_spec k key) as [->|]; done.
  - by rewrite list_lookup_insert_eq by (by eapply lookup_lt_Some).
  - intros [?|k] Hne; [done|]. cbn [child]. rewrite list_lookup_insert_ne; [done|congruence].
  - by rewrite list_lookup_insert_eq by (by eapply lookup_lt_Some).
  - intros [?|k] Hne; [done|]. cbn [child]. rewrite list_lookup_insert_ne; [done|congruence].
Qed.

(** A value written back is read at its path, and the nodes beside it stay. *)
Lemma resolve_walk_write root path found write v :
  walk root path = Ok (found, write) ->
  node_at (write v) path = Some v /\
  forall q, path_disjoint path q -> node_at (write v) q = node_at root q.
Proof.
  revert root found write; induction path as [|seg path IH]; intros root found write Hw.
  - injection Hw as <- <-. split; [done|]. by intros q ?%path_disjoint_nil_l.
  - destruct (resolve_walk_step _ _ _ _ _ v Hw) as (w & write' & Hc & Hr & Hc' & Ho).
    destruct (IH _ _ _ Hr) as [H1 H2]. split; [by rewrite (child_node _ _ _ _ Hc')|].
    intros [|s q] Hq; [by apply path_disjoint_sym, path_disjoint_nil_l in Hq|].
    destruct (decide (s = seg)) as [->|Hne].
    + apply path_disjoint_cons in Hq. rewrite (child_node _ _ _ _ Hc'), (child_node _ _ _ _ Hc).
      by apply H2.
    + cbn [node_at]. by rewrite Ho.
Qed.
End WalkLemmas.

Lemma resolve_source_Ok root path v : resolve_source root path = Ok v <-> node_at root path = Some v.
Proof.
  unfold resolve_source.
  match goal with |- context [resolve_walk ?a ?b ?c root path] =>
    rewrite (resolve_walk_found a b c root path v); destruct (resolve_walk a b c root path) as [[]|]
  end; naive_solver.
Qed.

(** The node a source path names in the envelope. *)
Definition obs_node (raw_obs : btree Value) (source : NodePath) : option Value :=
  let! entry := btree_get (envelope_key source) raw_obs in
  node_at entry (if (envelope_key source =? OBS_ROOT_KEY)%string then source else path_rest source).

Lemma resolve_in_obs_Ok raw_obs source v :
  resolve_in_obs raw_obs source = Ok v <-> obs_node raw_obs source = Some v.
Proof.
  unfold resolve_in_obs, obs_node.
  destruct (btree_get _ raw_obs) as [entry|]; cbn [ok_or]; [|done]. apply resolve_source_Ok.
Qed.
