(* ===== verification/AdapterGeometry.v ===== *)
(** * Rotation encodings

    [src/crates/rlmesh-adapters/src/apply/geometry.rs], [spec/rotations.rs] and
    [spec/rotation_literal.rs]: conversion of a flat rotation vector between
    encodings in [f32] arithmetic, and the fixed rotation a model part may apply.
    An out-of-range index and [unreachable!] are a panic, [None]. *)

From S2P Require Import Prelude Float FloatOps Tensor AdapterValue.
#[local] Open Scope nat_scope.

(** ** The vocabulary *)

Inductive RotationEncoding : Type :=
| QuatXyzw | QuatWxyz | AxisAngle | Rot6d | Rot6dRowMajor | EulerXyz | GravityXyz.

#[export] Instance RotationEncoding_eq_dec : EqDecision RotationEncoding.
Proof. solve_decision. Defined.

Definition RotationEncoding_ALL : list RotationEncoding :=
  [QuatXyzw; QuatWxyz; AxisAngle; Rot6d; Rot6dRowMajor; EulerXyz; GravityXyz].

Definition encoding_dims (e : RotationEncoding) : nat :=
  match e with
  | QuatXyzw | QuatWxyz => 4
  | AxisAngle | EulerXyz | GravityXyz => 3
  | Rot6d | Rot6dRowMajor => 6
  end.

Definition is_sink (e : RotationEncoding) : bool :=
  match e with GravityXyz => true | _ => false end.

Definition encoding_str (e : RotationEncoding) : string :=
  match e with
  | QuatXyzw => "quat_xyzw"
  | QuatWxyz => "quat_wxyz"
  | AxisAngle => "axis_angle"
  | Rot6d => "rot6d"
  | Rot6dRowMajor => "rot6d_rowmajor"
  | EulerXyz => "euler_xyz"
  | GravityXyz => "gravity_xyz"
  end.

Definition encoding_from_wire (name : string) : option RotationEncoding :=
  List.find (fun e => (encoding_str e =? name)%string) RotationEncoding_ALL.

(** ** Three-element arrays and matrices *)

Record arr3 (A : Type) : Type := A3 { a0 : A; a1 : A; a2 : A }.
Arguments A3 {A} a0 a1 a2.
Arguments a0 {A} _.
Arguments a1 {A} _.
Arguments a2 {A} _.

(** Indexing by a loop counter below three. *)
Definition at3 {A} (v : arr3 A) (i : nat) : A :=
  match i with 0 => a0 v | 1 => a1 v | _ => a2 v end.
Definition tab3 {A} (f : nat -> A) : arr3 A := A3 (f 0) (f 1) (f 2).
Definition map3 {A B} (f : A -> B) (v : arr3 A) : arr3 B := A3 (f (a0 v)) (f (a1 v)) (f (a2 v)).
Definition list3 {A} (v : arr3 A) : list A := [a0 v; a1 v; a2 v].

Definition Matrix : Type := arr3 (arr3 f32).
Definition entry (m : Matrix) (row col : nat) : f32 := at3 (at3 m row) col.
(** [f64::from(matrix[row][col])]. *)
Definition entry64 (m : Matrix) (row col : nat) : f64 := f64_of_f32 (entry m row col).

Definition one32 : f32 := f32_of_Z 1.
Definition one64 : f64 := f64_of_Z 1.
Definition two64 : f64 := f64_of_Z 2.
Definition quarter : f64 := f64_ratio 1 4.

Definition EPS : f64 := f64_ratio 1 100000000.
Definition GIMBAL_EPS : f64 := f64_ratio 1 10000.

Definition norm (values : list f32) : f64 :=
  f64_of_f32 (f32_sqrt (f32_sum ((fun x => f32_mul x x) <$> values))).

Definition eye : Matrix :=
  A3 (A3 one32 f32_zero f32_zero) (A3 f32_zero one32 f32_zero) (A3 f32_zero f32_zero one32).

Definition mat_mul (left right : Matrix) : Matrix :=
  tab3 (fun row => tab3 (fun col =>
    f32_sum ((fun inner => f32_mul (entry left row inner) (entry right inner col)) <$> seq 0 3))).

(** ** Between encodings and matrices *)

Definition as_quat_xyzw (quat : list f32) (encoding : RotationEncoding) : option (list f32) :=
  let! q0 := quat !! 0 in
  let! q1 := quat !! 1 in
  let! q2 := quat !! 2 in
  let! q3 := quat !! 3 in
  Some (if decide (encoding = QuatWxyz) then [q1; q2; q3; q0] else [q0; q1; q2; q3]).

Section Geometry.
Context `{Libm}.

Definition quat_xyzw_to_axis_angle (quat : list f32) : option (list f32) :=
  let quat_norm := norm quat in
  if f64_le quat_norm EPS then Some (replicate 3 f32_zero)
  else
    let scale := f32_of_f64 quat_norm in
    let unit := (fun x => f32_quot x scale) <$> quat in
    let xyz := take 3 unit in
    let! w := unit !! 3 in
    let w := f64_of_f32 w in
    let sin_half := norm xyz in
    if f64_le sin_half EPS then Some (replicate 3 f32_zero)
    else
      let angle := f64_mul two64 (f64_atan2 sin_half w) in
      let factor := f32_of_f64 (f64_quot angle sin_half) in
      Some ((fun x => f32_mul x factor) <$> xyz).

Definition matrix_to_quat_xyzw (matrix : Matrix) : list f32 :=
  let m := entry64 matrix in
  let trace := f64_add (f64_add (m 0 0) (m 1 1)) (m 2 2) in
  let '(x, y, z, w) :=
    if f64_gt trace f64_zero then
      let s := f64_mul two64 (f64_sqrt (f64_add trace one64)) in
      (f64_quot (f64_sub (m 2 1) (m 1 2)) s,
       f64_quot (f64_sub (m 0 2) (m 2 0)) s,
       f64_quot (f64_sub (m 1 0) (m 0 1)) s,
       f64_mul quarter s)
    else if f64_gt (m 0 0) (m 1 1) && f64_gt (m 0 0) (m 2 2) then
      let s := f64_mul two64
        (f64_sqrt (f64_sub (f64_sub (f64_add one64 (m 0 0)) (m 1 1)) (m 2 2))) in
      (f64_mul quarter s,
       f64_quot (f64_add (m 0 1) (m 1 0)) s,
       f64_quot (f64_add (m 0 2) (m 2 0)) s,
       f64_quot (f64_sub (m 2 1) (m 1 2)) s)
    else if f64_gt (m 1 1) (m 2 2) then
      let s := f64_mul two64
        (f64_sqrt (f64_sub (f64_sub (f64_add one64 (m 1 1)) (m 0 0)) (m 2 2))) in
      (f64_quot (f64_add (m 0 1) (m 1 0)) s,
       f64_mul quarter s,
       f64_quot (f64_add (m 1 2) (m 2 1)) s,
       f64_quot (f64_sub (m 0 2) (m 2 0)) s)
    else
      let s := f64_mul two64
        (f64_sqrt (f64_sub (f64_sub (f64_add one64 (m 2 2)) (m 0 0)) (m 1 1))) in
      (f64_quot (f64_add (m 0 2) (m 2 0)) s,
       f64_quot (f64_add (m 1 2) (m 2 1)) s,
       f64_mul quarter s,
       f64_quot (f64_sub (m 1 0) (m 0 1)) s) in
  f32_of_f64 <$> [x; y; z; w].

Definition rot6d_basis_to_matrix (v1 v2 : arr3 f32) : Matrix :=
  let b1_scale := f32_of_f64 (f64_add (norm (list3 v1)) EPS) in
  let b1 := map3 (fun x => f32_quot x b1_scale) v1 in
  let dot := f32_sum (zip_with f32_mul (list3 b1) (list3 v2)) in
  let b2 := tab3 (fun i => f32_sub (at3 v2 i) (f32_mul dot (at3 b1 i))) in
  let b2_scale := f32_of_f64 (f64_add (norm (list3 b2)) EPS) in
  let b2 := map3 (fun x => f32_quot x b2_scale) b2 in
  let b3 :=
    A3 (f32_sub (f32_mul (a1 b1) (a2 b2)) (f32_mul (a2 b1) (a1 b2)))
       (f32_sub (f32_mul (a2 b1) (a0 b2)) (f32_mul (a0 b1) (a2 b2)))
       (f32_sub (f32_mul (a0 b1) (a1 b2)) (f32_mul (a1 b1) (a0 b2))) in
  tab3 (fun i => A3 (at3 b1 i) (at3 b2 i) (at3 b3 i)).

(** Three indexed elements of a slice. *)
Definition pick3 (value : list f32) (i j k : nat) : option (arr3 f32) :=
  let! x := value !! i in
  let! y := value !! j in
  let! z := value !! k in
  Some (A3 x y z).

Definition quat_to_matrix (quat : list f32) : Matrix :=
  let quat := f64_of_f32 <$> quat in
  let quat_norm := f64_sqrt (f64_sum ((fun c => f64_mul c c) <$> quat)) in
  if f64_le quat_norm EPS then eye
  else
    match (fun component => f64_quot component quat_norm) <$> quat with
    | [x; y; z; w] =>
        let (xx, yy) := (f64_mul x x, f64_mul y y) in
        let zz := f64_mul z z in
        let (xy, xz) := (f64_mul x y, f64_mul x z) in
        let yz := f64_mul y z in
        let (wx, wy) := (f64_mul w x, f64_mul w y) in
        let wz := f64_mul w z in
        map3 (map3 f32_of_f64)
          (A3 (A3 (f64_sub one64 (f64_mul two64 (f64_add yy zz)))
                  (f64_mul two64 (f64_sub xy wz)) (f64_mul two64 (f64_add xz wy)))
              (A3 (f64_mul two64 (f64_add xy wz))
                  (f64_sub one64 (f64_mul two64 (f64_add xx zz))) (f64_mul two64 (f64_sub yz wx)))
              (A3 (f64_mul two64 (f64_sub xz wy)) (f64_mul two64 (f64_add yz wx))
                  (f64_sub one64 (f64_mul two64 (f64_add xx yy)))))
    | _ => eye
    end.

Definition axis_angle_to_matrix (value : list f32) : option Matrix :=
  let angle := norm value in
  if f64_le angle EPS then Some eye
  else
    let scale := f32_of_f64 angle in
    let! v := pick3 value 0 1 2 in
    let x := f32_quot (a0 v) scale in
    let y := f32_quot (a1 v) scale in
    let z := f32_quot (a2 v) scale in
    let skew : Matrix :=
      A3 (A3 f32_zero (f32_neg z) y) (A3 z f32_zero (f32_neg x)) (A3 (f32_neg y) x f32_zero) in
    let sin := f32_of_f64 (f64_sin angle) in
    let cos := f32_of_f64 (f64_sub one64 (f64_cos angle)) in
    Some (tab3 (fun row => tab3 (fun col =>
      let skew_sq :=
        f32_sum ((fun inner => f32_mul (entry skew row inner) (entry skew inner col)) <$> seq 0 3) in
      f32_add (entry eye row col)
        (f32_add (f32_mul sin (entry skew row col)) (f32_mul cos skew_sq))))).

Definition euler_to_matrix (v : arr3 f32) : Matrix :=
  let roll := f64_of_f32 (a0 v) in
  let pitch := f64_of_f32 (a1 v) in
  let yaw := f64_of_f32 (a2 v) in
  let (sr, cr) := (f64_sin roll, f64_cos roll) in
  let (sp, cp) := (f64_sin pitch, f64_cos pitch) in
  let (sy, cy) := (f64_sin yaw, f64_cos yaw) in
  map3 (map3 f32_of_f64)
    (A3 (A3 (f64_mul cy cp)
            (f64_sub (f64_mul (f64_mul cy sp) sr) (f64_mul sy cr))
            (f64_add (f64_mul (f64_mul cy sp) cr) (f64_mul sy sr)))
        (A3 (f64_mul sy cp)
            (f64_add (f64_mul (f64_mul sy sp) sr) (f64_mul cy cr))
            (f64_sub (f64_mul (f64_mul sy sp) cr) (f64_mul cy sr)))
        (A3 (f64_neg sp) (f64_mul cp sr) (f64_mul cp cr))).

Definition to_matrix (value : list f32) (encoding : RotationEncoding) : option Matrix :=
  match encoding with
  | GravityXyz => None
  | QuatXyzw | QuatWxyz =>
      let! quat := as_quat_xyzw value encoding in
      Some (quat_to_matrix quat)
  | AxisAngle => axis_angle_to_matrix value
  | Rot6d =>
      let! v1 := pick3 value 0 1 2 in
      let! v2 := pick3 value 3 4 5 in
      Some (rot6d_basis_to_matrix v1 v2)
  | Rot6dRowMajor =>
      let! v1 := pick3 value 0 2 4 in
      let! v2 := pick3 value 1 3 5 in
      Some (rot6d_basis_to_matrix v1 v2)
  | EulerXyz =>
      let! v := pick3 value 0 1 2 in
      Some (euler_to_matrix v)
  end.

Definition matrix_to_euler (matrix : Matrix) : option (list f32) :=
  let m := entry64 matrix in
  let! sin_pitch := f64_clamp (f64_neg (m 2 0)) (f64_neg one64) one64 in
  let cos_pitch := f64_hypot (m 2 1) (m 2 2) in
  let pitch := f64_atan2 sin_pitch cos_pitch in
  let (roll, yaw) :=
    if f64_gt cos_pitch GIMBAL_EPS
    then (f64_atan2 (m 2 1) (m 2 2), f64_atan2 (m 1 0) (m 0 0))
    else (f64_atan2 (f64_mul sin_pitch (m 0 1)) (m 1 1), f64_zero) in
  Some (f32_of_f64 <$> [roll; pitch; yaw]).

Definition matrix_to (matrix : Matrix) (encoding : RotationEncoding) : option (list f32) :=
  let m := entry matrix in
  match encoding with
  | GravityXyz => Some (f32_neg <$> [m 2 0; m 2 1; m 2 2])
  | AxisAngle =>
      let quat := matrix_to_quat_xyzw matrix in
      let! w := quat !! 3 in
      quat_xyzw_to_axis_angle (if f32_lt w f32_zero then f32_neg <$> quat else quat)
  | Rot6d => Some [m 0 0; m 1 0; m 2 0; m 0 1; m 1 1; m 2 1]
  | Rot6dRowMajor => Some [m 0 0; m 0 1; m 1 0; m 1 1; m 2 0; m 2 1]
  | QuatXyzw => Some (matrix_to_quat_xyzw matrix)
  | QuatWxyz =>
      let quat := matrix_to_quat_xyzw matrix in
      let! w := quat !! 3 in
      let! v := pick3 quat 0 1 2 in
      Some [w; a0 v; a1 v; a2 v]
  | EulerXyz => matrix_to_euler matrix
  end.

Definition check_source (value : list f32) (source : RotationEncoding) : result unit ApplyError :=
  if is_sink source then
    Err (apply_error
      (Msg "encoding {} is a sink (a direction, not a rotation) and cannot be converted out of; only a rotation encoding converts into it"
         [AStr (encoding_str source)]))
  else
    let expected := encoding_dims source in
    if negb (length value =? expected) then
      Err (apply_error (Msg "expected {expected}-element {} rotation, got shape ({},)"
             [ANat expected; AStr (encoding_str source); ANat (length value)]))
    else Ok tt.

Definition convert_rotation (value : list f32) (source target : RotationEncoding)
    : option (result (list f32) ApplyError) :=
  if decide (source = target) then Some (Ok value)
  else
    let!? _ := Some (check_source value source) in
    if decide ((source = QuatXyzw \/ source = QuatWxyz) /\ target = AxisAngle) then
      let! quat := as_quat_xyzw value source in
      let! out := quat_xyzw_to_axis_angle quat in
      Some (Ok out)
    else
      let! matrix := to_matrix value source in
      let! out := matrix_to matrix target in
      Some (Ok out).

(** ** A fixed rotation *)

Record RotationLiteral : Type := {
  lit_encoding : RotationEncoding;
  lit_value : list f64;
}.

Definition cross (left right : arr3 f32) : arr3 f32 :=
  A3 (f32_sub (f32_mul (a1 left) (a2 right)) (f32_mul (a2 left) (a1 right)))
     (f32_sub (f32_mul (a2 left) (a0 right)) (f32_mul (a0 left) (a2 right)))
     (f32_sub (f32_mul (a0 left) (a1 right)) (f32_mul (a1 left) (a0 right))).

Definition from_columns (c0 c1 : arr3 f32) : Matrix :=
  let c2 := cross c0 c1 in
  tab3 (fun i => A3 (at3 c0 i) (at3 c1 i) (at3 c2 i)).

Definition literal_matrix (l : RotationLiteral) : option Matrix :=
  let value := f32_of_f64 <$> lit_value l in
  match lit_encoding l with
  | Rot6d =>
      let! c0 := pick3 value 0 1 2 in
      let! c1 := pick3 value 3 4 5 in
      Some (from_columns c0 c1)
  | Rot6dRowMajor =>
      let! c0 := pick3 value 0 2 4 in
      let! c1 := pick3 value 1 3 5 in
      Some (from_columns c0 c1)
  | other => to_matrix value other
  end.

Definition ORTHONORMAL_TOL : f64 := f64_ratio 1 10000.

(** Columns [left] and [right] are orthonormal. *)
Definition orthonormal_pair (m : Matrix) (left right : nat) : bool :=
  let dot := f64_sum ((fun row => f64_mul (entry64 m row left) (entry64 m row right)) <$> seq 0 3) in
  let want := if left =? right then one64 else f64_zero in
  negb (f64_gt (f64_abs (f64_sub dot want)) ORTHONORMAL_TOL).

Definition orthonormal (m : Matrix) : bool :=
  forallb (fun left => forallb (orthonormal_pair m left) (seq 0 3)) (seq 0 3).

Definition determinant (m : Matrix) : f64 :=
  let e := entry64 m in
  f64_add
    (f64_sub
       (f64_mul (e 0 0) (f64_sub (f64_mul (e 1 1) (e 2 2)) (f64_mul (e 1 2) (e 2 1))))
       (f64_mul (e 0 1) (f64_sub (f64_mul (e 1 0) (e 2 2)) (f64_mul (e 1 2) (e 2 0)))))
    (f64_mul (e 0 2) (f64_sub (f64_mul (e 1 0) (e 2 1)) (f64_mul (e 1 1) (e 2 0)))).

(** The Debug rendering of the value list is left out of the messages. *)
Definition literal_try_from (encoding : RotationEncoding) (value : list f64)
    : option (result RotationLiteral message) :=
  if is_sink encoding then
    Some (Err (Msg "post_rotate: encoding {:?} is a direction, not a rotation; only a rotation encoding converts into it, and none out of it"
                 [AStr (encoding_str encoding)]))
  else if negb (length value =? encoding_dims encoding) then
    Some (Err (Msg "post_rotate: encoding {:?} needs {expected} values, got {}"
                 [AStr (encoding_str encoding); ANat (encoding_dims encoding); ANat (length value)]))
  else match List.find (fun x => negb (f64_is_finite x)) value with
  | Some bad => Some (Err (Msg "post_rotate: value {bad} must be finite" [AF64 (f64_bits bad)]))
  | None =>
      let literal := {| lit_encoding := encoding; lit_value := value |} in
      let! matrix := literal_matrix literal in
      if negb (orthonormal matrix) then
        Some (Err (Msg "post_rotate: {:?} value {:?} is not a rotation (its columns are not orthonormal)"
                     [AStr (encoding_str encoding)]))
      else if f64_gt (f64_abs (f64_sub (determinant matrix) one64)) ORTHONORMAL_TOL then
        Some (Err (Msg "post_rotate: {:?} value {:?} has determinant {det} (a rotation has 1; a reflection is not supported)"
                     [AStr (encoding_str encoding); AF64 (f64_bits (determinant matrix))]))
      else Some (Ok literal)
  end.

Definition convert_rotation_with (value : list f32) (source target : RotationEncoding)
    (post : option RotationLiteral) : option (result (list f32) ApplyError) :=
  match post with
  | None => convert_rotation value source target
  | Some post =>
      let!? _ := Some (check_source value source) in
      let! matrix := to_matrix value source in
      let! fixed := literal_matrix post in
      let! out := matrix_to (mat_mul matrix fixed) target in
      Some (Ok out)
  end.
End Geometry.

(** ** Widths and errors *)

Section GeometryLemmas.
Context `{Libm}.
#[local] Opaque f64_add f64_sub f64_mul f64_quot f64_sqrt f64_gt f64_le f32_of_f64 norm.

Lemma pick3_total value i j k :
  i < length value -> j < length value -> k < length value -> is_Some (pick3 value i j k).
Proof.
  intros [x Hx]%lookup_lt_is_Some_2 [y Hy]%lookup_lt_is_Some_2 [z Hz]%lookup_lt_is_Some_2.
  unfold pick3. rewrite Hx, Hy, Hz. by eexists.
Qed.

Lemma as_quat_total quat e :
  4 <= length quat -> exists q, as_quat_xyzw quat e = Some q /\ length q = 4.
Proof.
  destruct quat as [|q0 [|q1 [|q2 [|q3 quat]]]]; simpl; intros Hl; try lia.
  unfold as_quat_xyzw. simpl. eexists. split; [done|]. by case_decide.
Qed.

Lemma quat_axis_angle_total quat :
  length quat = 4 -> exists out, quat_xyzw_to_axis_angle quat = Some out /\ length out = 3.
Proof.
  intros Hl. unfold quat_xyzw_to_axis_angle.
  destruct (f64_le _ _); [by eexists|].
  destruct quat as [|q0 [|q1 [|q2 [|q3 [|]]]]]; simpl in Hl; try lia. simpl.
  destruct (f64_le _ _); by eexists.
Qed.

Lemma length_matrix_quat m : length (matrix_to_quat_xyzw m) = 4.
Proof.
  unfold matrix_to_quat_xyzw.
  destruct (f64_gt (f64_add _ _) f64_zero); [done|].
  destruct (_ && _); [done|]. by destruct (f64_gt _ _).
Qed.

(** Decoding a source of its declared width succeeds. *)
Lemma to_matrix_total value e :
  is_sink e = false -> length value = encoding_dims e -> is_Some (to_matrix value e).
Proof.
  intros Hs Hl. destruct e; try done; simpl in Hl; cbn [to_matrix].
  1, 2: destruct (as_quat_total value QuatXyzw) as (q & Hq & _); [lia|];
        destruct value as [|? [|? [|? [|? ?]]]]; simpl in Hl; try lia; by eexists.
  - unfold axis_angle_to_matrix. destruct (f64_le _ _); [by eexists|].
    destruct (pick3_total value 0 1 2) as [v ->]; [lia..|]. by eexists.
  - destruct (pick3_total value 0 1 2) as [v ->]; [lia..|].
    destruct (pick3_total value 3 4 5) as [w ->]; [lia..|]. by eexists.
  - destruct (pick3_total value 0 2 4) as [v ->]; [lia..|].
    destruct (pick3_total value 1 3 5) as [w ->]; [lia..|]. by eexists.
  - destruct (pick3_total value 0 1 2) as [v ->]; [lia..|]. by eexists.
Qed.

(** Encoding a matrix succeeds with the target's width. *)
Lemma matrix_to_total m e :
  exists out, matrix_to m e = Some out /\ length out = encoding_dims e.
Proof.
  pose proof (length_matrix_quat m) as Hq.
  destruct (lookup_lt_is_Some_2 (matrix_to_quat_xyzw m) 3) as [w Hw]; [lia|].
  destruct e; cbn [matrix_to]; try (by eexists).
  - rewrite Hw. destruct (pick3_total (matrix_to_quat_xyzw m) 0 1 2) as [v ->]; [lia..|]. by eexists.
  - rewrite Hw. apply quat_axis_angle_total. case_match; by rewrite ?length_fmap.
  - unfold matrix_to_euler, f64_clamp.
    replace (f64_le (f64_neg one64) one64) with true by done.
    case_match; by eexists.
Qed.
End GeometryLemmas.

Section Conversions.
Context `{Libm}.
#[local] Opaque f64_add f64_sub f64_mul f64_quot f64_sqrt f64_gt f64_le f32_of_f64 norm to_matrix matrix_to.

Lemma check_source_Ok value e :
  check_source value e = Ok tt <-> is_sink e = false /\ length value = encoding_dims e.
Proof.
  unfold check_source. destruct (is_sink e); [naive_solver|].
  destruct (Nat.eqb_spec (length value) (encoding_dims e)); naive_solver.
Qed.

Lemma check_source_cases value e :
  check_source value e = Ok tt \/ exists err, check_source value e = Err err.
Proof. destruct (check_source value e) as [[]|err]; eauto. Qed.

Lemma literal_matrix_total l :
  is_sink (lit_encoding l) = false -> length (lit_value l) = encoding_dims (lit_encoding l) ->
  is_Some (literal_matrix l).
Proof.
  intros Hs Hl. unfold literal_matrix.
  assert (length (f32_of_f64 <$> lit_value l) = encoding_dims (lit_encoding l)) as Hl'
    by (by rewrite length_fmap).
  destruct (lit_encoding l); try (by apply to_matrix_total); simpl in Hl'.
  - destruct (pick3_total (f32_of_f64 <$> lit_value l) 0 1 2) as [v ->]; [lia..|].
    destruct (pick3_total (f32_of_f64 <$> lit_value l) 3 4 5) as [w ->]; [lia..|]. by eexists.
  - destruct (pick3_total (f32_of_f64 <$> lit_value l) 0 2 4) as [v ->]; [lia..|].
    destruct (pick3_total (f32_of_f64 <$> lit_value l) 1 3 5) as [w ->]; [lia..|]. by eexists.
Qed.

(** What the codec accepts has the width its matrix is read with. *)
Lemma literal_try_from_Ok e value l :
  literal_try_from e value = Some (Ok l) ->
  lit_encoding l = e /\ lit_value l = value /\ is_sink e = false /\
  length value = encoding_dims e /\ Forall (fun x => f64_is_finite x = true) value /\
  exists m, literal_matrix l = Some m /\ orthonormal m = true.
Proof.
  unfold literal_try_from. destruct (is_sink e); [done|].
  destruct (Nat.eqb_spec (length value) (encoding_dims e)) as [Hl|]; cbn [negb]; [|done].
  destruct (List.find _ value) eqn:Hf; [done|].
  destruct (literal_matrix _) as [m|] eqn:Hm; [|done].
  destruct (orthonormal m) eqn:Ho; cbn [negb]; [|done].
  destruct (f64_gt _ _); [done|]. intros [= <-]. split_and!; try done; [|by eauto].
  apply Forall_forall. intros x Hx%list_elem_of_In.
  pose proof (List.find_none _ _ Hf x Hx) as Hn. by apply negb_false_iff in Hn.
Qed.

(** A conversion never panics.  It gives the target's width when the source is a
    rotation of its own width, refuses every other source that has to be decoded,
    and passes a value already in the target encoding through as it is. *)
Lemma convert_rotation_spec value source target :
  exists r, convert_rotation value source target = Some r /\
  match r with
  | Ok out => (source = target /\ out = value) \/
      (source <> target /\ is_sink source = false /\
       length value = encoding_dims source /\ length out = encoding_dims target)
  | Err _ => source <> target /\ (is_sink source = true \/ length value <> encoding_dims source)
  end.
Proof.
  unfold convert_rotation. destruct (decide (source = target)) as [|Hne].
  { eexists. split; [done|]. by left. }
  destruct (check_source value source) as [[]|err] eqn:Hc.
  - apply check_source_Ok in Hc as [Hs Hl].
    case_decide as Hq.
    + destruct (as_quat_total value source) as (q & Hq' & Hq4).
      { destruct Hq as [[-> | ->] _]; simpl in Hl; lia. }
      destruct (quat_axis_angle_total q Hq4) as (out & Ho & Hlen). rewrite Hq', Ho.
      eexists. split; [done|]. right. destruct Hq as [_ ->]. done.
    + destruct (to_matrix_total value source Hs Hl) as [m ->].
      destruct (matrix_to_total m target) as (out & -> & Ho).
      eexists. split; [done|]. by right.
  - eexists. split; [done|]. split; [done|].
    destruct (is_sink source) eqn:Hs; [by left|right]. intros Hl.
    by rewrite (proj2 (check_source_Ok _ _) (conj Hs Hl)) in Hc.
Qed.

Lemma convert_rotation_with_spec value source target post :
  (forall l, post = Some l ->
     is_sink (lit_encoding l) = false /\ length (lit_value l) = encoding_dims (lit_encoding l)) ->
  exists r, convert_rotation_with value source target post = Some r /\
  match r with
  | Ok out => (post = None /\ source = target /\ out = value) \/
      (is_sink source = false /\
       length value = encoding_dims source /\ length out = encoding_dims target)
  | Err _ => is_sink source = true \/ length value <> encoding_dims source
  end.
Proof.
  intros Hp. unfold convert_rotation_with. destruct post as [l|].
  2: { destruct (convert_rotation_spec value source target) as (r & -> & Hr).
       eexists. split; [done|]. destruct r; naive_solver. }
  destruct (check_source value source) as [[]|err] eqn:Hc.
  - apply check_source_Ok in Hc as [Hs Hl].
    destruct (to_matrix_total value source Hs Hl) as [m ->].
    destruct (Hp l eq_refl) as [Hs' Hl'].
    destruct (literal_matrix_total l Hs' Hl') as [m' ->].
    destruct (matrix_to_total (mat_mul m m') target) as (out & -> & Ho).
    eexists. split; [done|]. by right.
  - eexists. split; [done|].
    destruct (is_sink source) eqn:Hs; [by left|right]. intros Hl.
    by rewrite (proj2 (check_source_Ok _ _) (conj Hs Hl)) in Hc.
Qed.
End Conversions.

(** A conversion with a rotation the codec accepted never panics, whatever the
    value: it fails exactly on a source that is a direction or has the wrong width,
    except that a value already in the target encoding is passed through when no
    rotation is applied; every other result has the target's width. *)
Theorem convert_rotation_total `{Libm} (value : list f32) (source target : RotationEncoding)
    (e : RotationEncoding) (fixed : list f64) (post : option RotationLiteral) :
  (forall l, post = Some l -> literal_try_from e fixed = Some (Ok l)) ->
  exists r, convert_rotation_with value source target post = Some r /\
  match r with
  | Ok out => (post = None /\ source = target /\ out = value) \/
      (is_sink source = false /\
       length value = encoding_dims source /\ length out = encoding_dims target)
  | Err _ => is_sink source = true \/ length value <> encoding_dims source
  end.
Proof.
  intros Hp. apply convert_rotation_with_spec. intros l Hl.
  destruct (literal_try_from_Ok _ _ _ (Hp l Hl)) as (<- & <- & ? & ? & _). done.
Qed.

(** Rz(-90 deg) by its first two columns. *)
Definition quarter_turn : list f64 :=
  f64_of_Z <$> [0; -1; 0; 1; 0; 0]%Z.

Definition no_libm : Libm :=
  {| f64_sin x := x; f64_cos x := x; f64_atan2 x _ := x; f64_hypot x _ := x |}.

Lemma convert_rotation_total_witness :
  exists l, @literal_try_from no_libm Rot6d quarter_turn = Some (Ok l) /\
  exists r, @convert_rotation_with no_libm (f32_of_Z <$> [0; 0; 0; 1]%Z) QuatXyzw Rot6d (Some l)
    = Some r /\
  match r with
  | Ok out => (Some l = None /\ QuatXyzw = Rot6d /\ out = f32_of_Z <$> [0; 0; 0; 1]%Z) \/
      (is_sink QuatXyzw = false /\
       length (f32_of_Z <$> [0; 0; 0; 1]%Z) = encoding_dims QuatXyzw /\
       length out = encoding_dims Rot6d)
  | Err _ => is_sink QuatXyzw = true \/
      length (f32_of_Z <$> [0; 0; 0; 1]%Z) <> encoding_dims QuatXyzw
  end.
Proof.
  exists {| lit_encoding := Rot6d; lit_value := quarter_turn |}.
  assert (@literal_try_from no_libm Rot6d quarter_turn
            = Some (Ok {| lit_encoding := Rot6d; lit_value := quarter_turn |})) as E
    by (vm_compute; reflexivity).
  split; [exact E|].
  apply (@convert_rotation_total no_libm (f32_of_Z <$> [0; 0; 0; 1]%Z) QuatXyzw Rot6d Rot6d
           quarter_turn).
  intros l [= <-]. exact E.
Defined.

(** ** Encodings that differ in element order *)

(** [xyzw] to [wxyz], and the interleaving of two columns. *)
Definition scalar_first (quat : list f32) : list f32 :=
  match quat with [x; y; z; w] => [w; x; y; z] | _ => quat end.
Definition interleave (cols : list f32) : list f32 :=
  match cols with
  | [a; b; c; d; e; f] => [a; d; b; e; c; f]
  | _ => cols
  end.

Section Order.
Context `{Libm}.
#[local] Opaque quat_to_matrix rot6d_basis_to_matrix quat_xyzw_to_axis_angle matrix_to.

Lemma scalar_first_decodes quat :
  length quat = 4 ->
  length (scalar_first quat) = 4 /\
  as_quat_xyzw (scalar_first quat) QuatWxyz = as_quat_xyzw quat QuatXyzw /\
  to_matrix (scalar_first quat) QuatWxyz = to_matrix quat QuatXyzw.
Proof. by destruct quat as [|? [|? [|? [|? [|]]]]]. Qed.

Lemma interleave_decodes cols :
  length cols = 6 ->
  length (interleave cols) = 6 /\
  to_matrix (interleave cols) Rot6dRowMajor = to_matrix cols Rot6d.
Proof. by destruct cols as [|? [|? [|? [|? [|? [|? [|]]]]]]]. Qed.

Lemma convert_decoded value source target :
  source <> target -> is_sink source = false -> length value = encoding_dims source ->
  convert_rotation value source target =
  (if decide ((source = QuatXyzw \/ source = QuatWxyz) /\ target = AxisAngle) then
     let! quat := as_quat_xyzw value source in
     let! out := quat_xyzw_to_axis_angle quat in
     Some (Ok out)
   else
     let! matrix := to_matrix value source in
     let! out := matrix_to matrix target in
     Some (Ok out)).
Proof.
  intros Hne Hs Hl. unfold convert_rotation. rewrite decide_False by done.
  by rewrite (proj2 (check_source_Ok value source) (conj Hs Hl)).
Qed.
End Order.

(** The order of a source's elements is all that tells apart the two quaternion
    encodings, and the two 6D ones: the same rotation in either converts to the same
    result in every third encoding. *)
Theorem order_encodings_agree `{Libm} (target : RotationEncoding) :
  (forall quat, length quat = 4%nat -> target <> QuatXyzw -> target <> QuatWxyz ->
     convert_rotation (scalar_first quat) QuatWxyz target = convert_rotation quat QuatXyzw target) /\
  (forall cols, length cols = 6%nat -> target <> Rot6d -> target <> Rot6dRowMajor ->
     convert_rotation (interleave cols) Rot6dRowMajor target = convert_rotation cols Rot6d target).
Proof.
  split.
  - intros quat Hl H1 H2. destruct (scalar_first_decodes quat Hl) as (Hl' & Hq & Hm).
    rewrite !convert_decoded by done. rewrite Hq, Hm.
    destruct (decide (target = AxisAngle)) as [->|];
      [by rewrite !decide_True by auto|by rewrite !decide_False by tauto].
  - intros cols Hl H1 H2. destruct (interleave_decodes cols Hl) as (Hl' & Hm).
    rewrite !convert_decoded by done. rewrite Hm.
    by rewrite !decide_False by (by intros [[?|?] _]).
Qed.

Lemma order_encodings_agree_witness :
  @convert_rotation no_libm (scalar_first (f32_of_Z <$> [0; 0; 1; 1]%Z)) QuatWxyz Rot6d
  = @convert_rotation no_libm (f32_of_Z <$> [0; 0; 1; 1]%Z) QuatXyzw Rot6d.
Proof. apply (@order_encodings_agree no_libm Rot6d); done. Defined.

(** An authored rotation is to be checked orthonormal and not repaired, but the
    matrix of a quaternion is that of its normalisation: one of norm two, and the
    zero quaternion, are accepted. *)
Theorem quaternion_literal_not_checked `{Libm} :
  literal_try_from QuatXyzw (f64_of_Z <$> [0; 0; 0; 2]%Z) =
    Some (Ok {| lit_encoding := QuatXyzw; lit_value := f64_of_Z <$> [0; 0; 0; 2]%Z |}) /\
  literal_try_from QuatXyzw (f64_of_Z <$> [0; 0; 0; 0]%Z) =
    Some (Ok {| lit_encoding := QuatXyzw; lit_value := f64_of_Z <$> [0; 0; 0; 0]%Z |}).
Proof. split; vm_compute; reflexivity. Qed.
