(* ===== verification/AdapterPlans.v ===== *)
(** * Resolved plans

    [src/crates/rlmesh-adapters/src/plans.rs] and [plans/*.rs]: the instructions
    resolution leaves for one model input or for the action vector, and the
    [ResolvedAdapter] that gathers them with the frame windows and the
    previous-action parts it holds per episode. *)

From S2P Require Import Prelude BTree Float FloatOps Tensor AdapterValue AdapterGeometry.

(** ** Vocabulary *)

Inductive ImageLayout : Type := Hwc | Chw.
Inductive FitMode : Type := FitStretch | FitCrop | FitPad.
Inductive StackPad : Type := PadFirst | PadBlack.
Inductive StateContainer : Type := StateArray | StateList.
Inductive TextContainer : Type := TextStr | TextList.

#[export] Instance ImageLayout_eq_dec : EqDecision ImageLayout.
Proof. solve_decision. Defined.
#[export] Instance FitMode_eq_dec : EqDecision FitMode.
Proof. solve_decision. Defined.
#[export] Instance StackPad_eq_dec : EqDecision StackPad.
Proof. solve_decision. Defined.
#[export] Instance StateContainer_eq_dec : EqDecision StateContainer.
Proof. solve_decision. Defined.
#[export] Instance TextContainer_eq_dec : EqDecision TextContainer.
Proof. solve_decision. Defined.

(** ** Plans *)

Record CropPlan : Type := {
  crop_fraction : f64;
  crop_area : option f64;
  crop_slice : bool;
  crop_cut_dims : option (Z * Z);
}.

Record ImagePlan : Type := {
  ip_placement : NodePath;
  ip_source : NodePath;
  ip_src_layout : ImageLayout;
  ip_dst_layout : ImageLayout;
  ip_flip : bool;
  ip_size : option (Z * Z);
  ip_fit : FitMode;
  ip_resample : string;
  ip_dtype : string;
  ip_normalize : option (f64 * f64);
  ip_lead_dims : nat;
  ip_src_range : option (f64 * f64);
  ip_stack : Z;
  ip_zero_fill : option (Z * Z * Z);
  ip_fill : byte;
  ip_jpeg_quality : option Z;
  ip_crop : option CropPlan;
  ip_swap_rb : bool;
  ip_render : option (Z * Z);
  ip_offsets : option (list Z);
  ip_stack_pad : StackPad;
  ip_frame_bytes : Z;
  ip_role_rebound : option (string * string);
  ip_part : option string;
}.

Record PreviousAction : Type := {
  pa_role : string;
  pa_start : nat;
  pa_stop : nat;
}.

Record StatePiece : Type := {
  sp_source : NodePath;
  sp_src_offset : option nat;
  sp_src_dim : option nat;
  sp_src_encoding : option RotationEncoding;
  sp_dst_encoding : option RotationEncoding;
  sp_post_rotate : option RotationLiteral;
  sp_dim : option nat;
  sp_index : option nat;
  sp_src_range : option (f64 * f64);
  sp_dst_range : option (f64 * f64);
  sp_scale : option f64;
  sp_offset : option f64;
  sp_axis_scale : option (list f64);
  sp_axis_offset : option (list f64);
  sp_gather : option (list nat);
  sp_labels : option (list string);
  sp_fill : option f64;
  sp_absent_role : option string;
  sp_previous : option PreviousAction;
  sp_frame : option string;
  sp_provenance : option string;
  sp_part : option string;
  sp_width : option nat;
}.

Record StatePlan : Type := {
  st_placement : NodePath;
  st_pieces : list StatePiece;
  st_pad_to : option nat;
  st_clip : option (f64 * f64);
  st_native_width : option nat;
  st_dtype : string;
  st_reshape : option (list Z);
  st_container : StateContainer;
}.

Record TextPlan : Type := {
  tp_placement : NodePath;
  tp_source : option NodePath;
  tp_container : TextContainer;
  tp_fill : option (list Z);
}.

Record CustomPlan : Type := {
  cp_placement : NodePath;
  cp_placement_key : string;
  cp_transform : string;
}.

Inductive ObsPlan : Type :=
| OImage (p : ImagePlan)
| OState (p : StatePlan)
| OText (p : TextPlan)
| OCustom (p : CustomPlan).

Record ActionSegment : Type := {
  as_role : option string;
  as_start : Z;
  as_stop : Z;
  as_src_encoding : option RotationEncoding;
  as_dst_encoding : option RotationEncoding;
  as_src_range : option (f64 * f64);
  as_dst_range : option (f64 * f64);
  as_model_scale : option f64;
  as_model_offset : option f64;
  as_model_axis_scale : option (list f64);
  as_model_axis_offset : option (list f64);
  as_model_invert : bool;
  as_model_threshold : option f64;
  as_scale : option f64;
  as_offset : option f64;
  as_axis_scale : option (list f64);
  as_axis_offset : option (list f64);
  as_invert : bool;
  as_threshold : option f64;
  as_scatter : option (list nat);
  as_labels : option (list string);
  as_model_labels : option (list string);
  as_binarize : bool;
  as_clip : option (f64 * f64);
  as_frame : option string;
  as_reference : option string;
  as_part : option string;
  as_fill : option (nat * f64);
}.

Record ActionPlan : Type := {
  ap_segments : list ActionSegment;
  ap_clip : option (f64 * f64);
  ap_in_dim : nat;
}.

(** ** The adapter *)

Record StackedPlacement : Type := {
  sk_placement : NodePath;
  sk_key : string;
  sk_depth : Z;
  sk_plan_index : nat;
  sk_offsets : option (list Z);
  sk_span : Z;
  sk_stack_pad : StackPad;
  sk_frame_bytes : Z;
}.

Record HistoryWindow : Type := {
  hw_key : string;
  hw_span : Z;
  hw_frame_bytes : Z;
}.

(** A non-fatal note ([src/crates/rlmesh-spaces/src/advisory.rs]). *)
Inductive AdvisorySeverity : Type := SevInfo | SevCaution.

Record Advisory : Type := { adv_severity : AdvisorySeverity; adv_message : message }.

Definition advisory_info (m : message) : Advisory := {| adv_severity := SevInfo; adv_message := m |}.
Definition advisory_caution (m : message) : Advisory :=
  {| adv_severity := SevCaution; adv_message := m |}.

Record ResolvedAdapter : Type := {
  ra_obs_plans : list ObsPlan;
  ra_action_plan : ActionPlan;
  ra_stacked : list StackedPlacement;
  ra_previous : list string;
  ra_resolve_advisories : list Advisory;
  ra_quiet_advisories : list Advisory;
}.

(** The span of a window: [(1 - oldest) as u32], the subtraction on [i32]. *)
Definition image_span (p : ImagePlan) : option Z :=
  match ip_offsets p with
  | Some (oldest :: _) =>
      let! span := checked i32_min i32_max (1 - oldest) in
      Some (wrap_u 32 span)
  | _ => Some (ip_stack p)
  end.

Definition stacked_placement (plan_index : nat) (plan : ObsPlan) : option (list StackedPlacement) :=
  match plan with
  | OImage image =>
      if 1 <? ip_stack image then
        let! span := image_span image in
        Some [{| sk_placement := ip_placement image;
                 sk_key := path_display (ip_placement image);
                 sk_depth := ip_stack image;
                 sk_plan_index := plan_index;
                 sk_offsets := ip_offsets image;
                 sk_span := span;
                 sk_stack_pad := ip_stack_pad image;
                 sk_frame_bytes := ip_frame_bytes image |}]
      else Some []
  | _ => Some []
  end.

Fixpoint stacked_placements (plan_index : nat) (plans : list ObsPlan)
    : option (list StackedPlacement) :=
  match plans with
  | [] => Some []
  | plan :: plans =>
      let! here := stacked_placement plan_index plan in
      let! rest := stacked_placements (S plan_index) plans in
      Some (here ++ rest)
  end.

Definition reads_action (plan : ObsPlan) : option string :=
  match plan with
  | OState state =>
      if existsb (fun piece => match sp_previous piece with Some _ => true | None => false end)
           (st_pieces state)
      then Some (path_display (st_placement state)) else None
  | _ => None
  end.

Definition adapter_new (obs_plans : list ObsPlan) (action_plan : ActionPlan)
    (resolve_advisories quiet_advisories : list Advisory) : option ResolvedAdapter :=
  let! stacked := stacked_placements 0 obs_plans in
  Some {| ra_obs_plans := obs_plans;
          ra_action_plan := action_plan;
          ra_stacked := stacked;
          ra_previous := omap reads_action obs_plans;
          ra_resolve_advisories := resolve_advisories;
          ra_quiet_advisories := quiet_advisories |}.

(** A [BTreeSet] of keys, as the map with its elements. *)
Definition keys_insert (key : string) (keys : btree unit) : btree unit := btree_insert key tt keys.

Definition plan_keys (keys : btree unit) (plan : ObsPlan) : btree unit :=
  match plan with
  | OImage image =>
      match ip_zero_fill image with
      | None => keys_insert (envelope_key (ip_source image)) keys
      | Some _ => keys
      end
  | OState state =>
      fold_left (fun keys piece =>
        match sp_fill piece with
        | None => keys_insert (envelope_key (sp_source piece)) keys
        | Some _ => keys
        end) (st_pieces state) keys
  | OText text =>
      match tp_source text with
      | Some source => keys_insert (envelope_key source) keys
      | None => keys
      end
  | OCustom _ => keys
  end.

Definition referenced_obs_keys (a : ResolvedAdapter) : btree unit :=
  fold_left plan_keys (ra_obs_plans a) [].

Definition stacks (a : ResolvedAdapter) : btree Z :=
  fold_left (fun m entry => btree_insert (sk_key entry) (sk_depth entry) m) (ra_stacked a) [].

Definition history_keys (a : ResolvedAdapter) : list string :=
  (sk_key <$> ra_stacked a) ++ ra_previous a.

Definition holds_history (a : ResolvedAdapter) : bool :=
  negb (match ra_stacked a with [] => true | _ => false end)
  || negb (match ra_previous a with [] => true | _ => false end).

Definition reads_previous_action (a : ResolvedAdapter) : bool :=
  negb (match ra_previous a with [] => true | _ => false end).

Definition history_windows (a : ResolvedAdapter) : list HistoryWindow :=
  (fun entry => {| hw_key := sk_key entry; hw_span := sk_span entry;
                   hw_frame_bytes := sk_frame_bytes entry |}) <$> ra_stacked a.
