(* ===== verification/AdapterImage.v ===== *)
(** * The image pipeline

    [src/crates/rlmesh-adapters/src/apply/image.rs]: decode, layout, rotation,
    JPEG round trip, crop, resize and the final dtype and layout of one model image.
    Decoding and encoding of image files is third-party code, the class [ImageCodec].

    Indices into a buffer are computed exactly and the access is checked: a [usize]
    product that would overflow is also beyond every buffer, and both panics are
    [None].  A product that is not an index is checked on its own. *)

From S2P Require Import Prelude BTree Float FloatOps DType Scalar Tensor AdapterValue AdapterGeometry AdapterPlans.
#[local] Open Scope Z_scope.

(** ** Image files *)

(** [image::DynamicImage]: what the pipeline asks of it. *)
Record DynamicImage : Type := {
  img_width : Z;
  img_height : Z;
  img_channel_count : Z;
  img_luma8 : list byte;
  img_luma_alpha8 : list byte;
  img_rgb8 : list byte;
  img_rgba8 : list byte;
}.

Class ImageCodec : Type := {
  (** [image::load_from_memory] *)
  load_from_memory : list byte -> result DynamicImage string;
  (** [image::load_from_memory_with_format(_, Jpeg)] *)
  load_jpeg : list byte -> result DynamicImage string;
  (** [jpeg_encoder], 4:2:0 with averaged chroma: quality, pixels, width, height *)
  encode_jpeg : Z -> list byte -> Z -> Z -> result (list byte) string;
}.

(** The four conversions give one sample per channel and pixel; an encoded frame
    decodes to a frame of its size. *)
Record dynamic_image_wf (d : DynamicImage) : Prop := {
  img_dims : 0 <= img_width d < 2 ^ 32 /\ 0 <= img_height d < 2 ^ 32;
  img_luma8_len : Z.of_nat (length (img_luma8 d)) = img_height d * img_width d;
  img_luma_alpha8_len : Z.of_nat (length (img_luma_alpha8 d)) = img_height d * img_width d * 2;
  img_rgb8_len : Z.of_nat (length (img_rgb8 d)) = img_height d * img_width d * 3;
  img_rgba8_len : Z.of_nat (length (img_rgba8 d)) = img_height d * img_width d * 4;
  img_alloc : Z.of_nat (length (img_rgba8 d)) <= isize_max;
}.

Class ImageCodecLaws (C : ImageCodec) : Prop := {
  load_wf raw d : load_from_memory raw = Ok d -> dynamic_image_wf d;
  jpeg_wf raw d : load_jpeg raw = Ok d -> dynamic_image_wf d;
  jpeg_dims q pixels w h raw d :
    encode_jpeg q pixels w h = Ok raw -> load_jpeg raw = Ok d ->
    img_width d = w /\ img_height d = h;
}.

(** ** Buffers *)

Definition byte_max : f64 := f64_of_Z 255.

(** [data[i]]. *)
Definition index {A} (data : list A) (i : Z) : option A := data !! Z.to_nat i.

(** [out[i..i + n].copy_from_slice(chunk)]. *)
Definition copy_from_slice (out : list byte) (at_ : Z) (chunk : list byte) : option (list byte) :=
  if at_ + Z.of_nat (length chunk) <=? Z.of_nat (length out)
  then Some (list_inserts (Z.to_nat at_) chunk out) else None.

(** A loop over [steps] that may panic. *)
Definition foldlM {A B} (f : B -> A -> option B) : list A -> B -> option B :=
  fix go steps acc :=
    match steps with
    | [] => Some acc
    | step :: steps => let! acc := f acc step in go steps acc
    end.

(** [for a in 0..n { for b in 0..m { .. } }]: the pairs in loop order. *)
Definition grid (n m : Z) : list (Z * Z) :=
  a ← seqZ 0 n; pair a <$> seqZ 0 m.

(** [z.clamp(low, high)] on integers. *)
Definition int_clamp (z low high : Z) : option Z :=
  if low <=? high then Some (Z.max low (Z.min high z)) else None.

Definition vec_of {A} (x : A) (size n : Z) : option (list A) :=
  let! _ := with_capacity (n * size) in
  Some (replicate (Z.to_nat n) x).

(** ** Dimensions *)

Definition image_dims (t : Tensor) : result (Z * Z * Z) ApplyError :=
  match shape_usize t with
  | [a; b; c] => Ok (a, b, c)
  | _ => Err (apply_error (Msg "expected an HWC image with 3 axes, got shape {:?}" [AZs (shape t)]))
  end.

Definition crop_cut (src : Z) (fraction : f64) : option Z :=
  int_clamp (f64_as_int 0 usize_max (f64_round (f64_mul (f64_of_Z src) fraction))) 1 (Z.max src 1).

(** ** Decode *)

Section Decode.
Context `{HalfOps} `{ImageCodec}.

(** The tensor of a decoded file, with the file's own channels. *)
Definition decoded_tensor (d : DynamicImage) : option Tensor :=
  let (pixels, channels) :=
    if img_channel_count d =? 1 then (img_luma8 d, 1)
    else if img_channel_count d =? 2 then (img_luma_alpha8 d, 2)
    else if img_channel_count d =? 4 then (img_rgba8 d, 4)
    else (img_rgb8 d, 3) in
  tensor_from_u8 [img_height d; img_width d; channels] pixels.

Definition decode_image (value : Value) (src_range : option (f64 * f64))
    : option (result Tensor ApplyError) :=
  let!? tensor :=
    match value with
    | ValTensor t => Some (Ok t)
    | ValBytes raw =>
        match load_from_memory raw with
        | Err err => Some (Err (apply_error (Msg "could not decode image bytes: {err}" [AStr err])))
        | Ok d =>
            let! t := decoded_tensor d in
            Some (Ok t)
        end
    | _ => Some (Err (apply_error
             (lit "expected an image array observation value or encoded image bytes")))
    end in
  let! contiguous :=
    if bool_decide (dtype tensor = Uint8) then is_contiguous tensor else Some false in
  if contiguous then Some (Ok tensor)
  else
    let! pixels := to_u8_pixels tensor src_range in
    let! t := tensor_from_u8 (shape tensor) pixels in
    Some (Ok t).

(** ** JPEG *)

Definition jpeg_encode (t : Tensor) (quality : Z) : option (result (list byte) ApplyError) :=
  let!? (height, width, channels) := Some (image_dims t) in
  if negb (channels =? 3) then
    Some (Err (apply_error (Msg "jpeg_quality needs a 3-channel image, got {channels} channel(s)"
                 [AZ channels])))
  else if negb ((width <? 2 ^ 16) && (height <? 2 ^ 16)) then
    Some (Err (apply_error
      (Msg "jpeg_quality cannot encode a {height}x{width} frame; JPEG dimensions are 16-bit"
         [AZ height; AZ width])))
  else
    let!? pixels := u8_pixels t in
    match encode_jpeg quality pixels width height with
    | Ok encoded => Some (Ok encoded)
    | Err err => Some (Err (apply_error (Msg "could not jpeg-encode the image: {err}" [AStr err])))
    end.

Definition jpeg_roundtrip (t : Tensor) (quality : Z) : option (result Tensor ApplyError) :=
  let!? encoded := jpeg_encode t quality in
  match load_jpeg encoded with
  | Err err => Some (Err (apply_error (Msg "could not decode the jpeg image: {err}" [AStr err])))
  | Ok decoded =>
      let! out := tensor_from_u8 (shape t) (img_rgb8 decoded) in
      Some (Ok out)
  end.
End Decode.

(** ** Pixel moves *)

Definition flip_180 (t : Tensor) : option (result Tensor ApplyError) :=
  let!? (_, _, channels) := Some (image_dims t) in
  let! pixel := checked_usize (Z.max channels 1 * Z.of_nat (dtype_size (dtype t))) in
  let! bytes := to_contiguous_bytes t in
  if pixel =? 0 then None
  else
    let out := concat (reverse (chunks_exact (Z.to_nat pixel) bytes)) in
    lift_err tensor_error (tensor_from_vec out (shape t) (dtype t)).

Definition swap_rb (t : Tensor) : option (result Tensor ApplyError) :=
  let!? (height, width, channels) := Some (image_dims t) in
  if negb (channels =? 3) then
    Some (Err (apply_error (Msg "channel_order {:?} needs a 3-channel image, got {channels} channel(s)"
                 [AStr "bgr"; AZ channels])))
  else
    let! _ := numel t in
    let! pixels := checked_usize (height * width) in
    let indices := pixel ← seqZ 0 pixels; [pixel * 3 + 2; pixel * 3 + 1; pixel * 3] in
    let! out := gather t indices (shape t) in
    Some (Ok out).

(** One element moved by the transpose. *)
Definition move_element (size : Z) (bytes : list byte) (out : list byte) (move : Z * Z)
    : option (list byte) :=
  let (src, dst) := move in
  let! element := slice bytes (src * size) (src * size + size) in
  copy_from_slice out (dst * size) element.

(** The moves of the two transposes, in loop order: source and destination element. *)
Definition moves_to_chw (plane channels : Z) : list (Z * Z) :=
  (fun '(channel, pixel) => (pixel * channels + channel, channel * plane + pixel))
    <$> grid channels plane.
Definition moves_to_hwc (plane channels : Z) : list (Z * Z) :=
  (fun '(pixel, channel) => (channel * plane + pixel, pixel * channels + channel))
    <$> grid plane channels.

Definition to_layout (t : Tensor) (source target : ImageLayout)
    : option (result Tensor ApplyError) :=
  if decide (source = target) then Some (Ok t)
  else
    let size := Z.of_nat (dtype_size (dtype t)) in
    let! bytes := to_contiguous_bytes t in
    let out := replicate (length bytes) Byte.x00 in
    let!? (out, dims) :=
      match target with
      | Chw =>
          let!? (height, width, channels) := Some (image_dims t) in
          let! plane := checked_usize (height * width) in
          let! out := foldlM (move_element size bytes) (moves_to_chw plane channels) out in
          Some (Ok (out, [channels; height; width]))
      | Hwc =>
          let!? (channels, height, width) := Some (image_dims t) in
          let! plane := checked_usize (height * width) in
          let! out := foldlM (move_element size bytes) (moves_to_hwc plane channels) out in
          Some (Ok (out, [height; width; channels]))
      end in
    lift_err tensor_error (tensor_from_vec out (shape_i64 dims) (dtype t)).

(** The source elements of a center crop, in loop order. *)
Definition crop_indices (off_row off_col src_width height width channels : Z) : list Z :=
  '(row, col) ← grid height width;
  seqZ (((off_row + row) * src_width + (off_col + col)) * channels) channels.

Definition crop_center (t : Tensor) (height width : Z) : option (result Tensor ApplyError) :=
  let!? (src_height, src_width, channels) := Some (image_dims t) in
  let! row_slack := checked_usize (src_height - height) in
  let! col_slack := checked_usize (src_width - width) in
  let! area := checked_usize (height * width) in
  let! count := checked_usize (area * channels) in
  let! _ := with_capacity (count * 8) in
  let indices := crop_indices (row_slack / 2) (col_slack / 2) src_width height width channels in
  let! out := gather t indices (shape_i64 [height; width; channels]) in
  Some (Ok out).

(** One pixel copied into the padded frame. *)
Definition pad_pixel (data : list byte) (off_row off_col src_width width channels : Z)
    (out : list byte) (pixel : Z * Z) : option (list byte) :=
  let (row, col) := pixel in
  let dst := ((off_row + row) * width + (off_col + col)) * channels in
  let src := (row * src_width + col) * channels in
  let! chunk := slice data src (src + channels) in
  copy_from_slice out dst chunk.

Definition pad_center (t : Tensor) (height width : Z) : option (result Tensor ApplyError) :=
  let!? (src_height, src_width, channels) := Some (image_dims t) in
  if (src_height =? height) && (src_width =? width) then Some (Ok t)
  else
    let! row_slack := checked_usize (height - src_height) in
    let! col_slack := checked_usize (width - src_width) in
    let!? data := u8_pixels t in
    let! area := checked_usize (height * width) in
    let! count := checked_usize (area * channels) in
    let! out := vec_of Byte.x00 1 count in
    let! out := foldlM (pad_pixel data (row_slack / 2) (col_slack / 2) src_width width channels)
                  (grid src_height src_width) out in
    let! out := tensor_from_u8 (shape_i64 [height; width; channels]) out in
    Some (Ok out).

(** ** Resampling *)

Inductive Kernel : Type := Triangle | Cubic | Lanczos3 | Area.

#[export] Instance Kernel_eq_dec : EqDecision Kernel.
Proof. solve_decision. Defined.

(** [roi_src] input pixels, the span [start, end) sampled from them, [roi_dst]
    output pixels. *)
Record Roi : Type := { roi_src : Z; roi_start : f64; roi_end : f64; roi_dst : Z }.

Definition roi_full (src dst : Z) : Roi :=
  {| roi_src := src; roi_start := f64_zero; roi_end := f64_of_Z src; roi_dst := dst |}.

Definition roi_is_identity (r : Roi) : bool :=
  (roi_dst r =? roi_src r) && f64_eqb (roi_start r) f64_zero
  && f64_eqb (roi_end r) (f64_of_Z (roi_src r)).

Definition zoom_roi (src dst : Z) (zoom : option f64) : Roi :=
  match zoom with
  | None => roi_full src dst
  | Some fraction =>
      let span := f64_mul (f64_of_Z src) fraction in
      let start := f64_quot (f64_sub (f64_of_Z src) span) two64 in
      {| roi_src := src; roi_start := start; roi_end := f64_add start span; roi_dst := dst |}
  end.

Definition half64 : f64 := f64_ratio 1 2.

Definition roi_scale (r : Roi) : f64 :=
  f64_quot (f64_sub (roi_end r) (roi_start r)) (f64_of_Z (roi_dst r)).

(** The centre of output pixel [i] in source coordinates. *)
Definition roi_center (r : Roi) (i : Z) : f64 :=
  f64_add (roi_start r) (f64_mul (f64_add (f64_of_Z i) half64) (roi_scale r)).

Definition to_pixel (value : f64) : option byte :=
  let! clamped := f64_clamp (f64_round_ties_even value) f64_zero byte_max in
  Some (byte.of_Z (f64_as_int 0 255 clamped)).

Definition finish_pixels (blended : list f64) (dims : list Z) : option Tensor :=
  let! data := mapM to_pixel blended in
  tensor_from_u8 (shape_i64 dims) data.

(** The two taps of output pixel [i] and the weight of the second. *)
Definition bilinear_coord (r : Roi) (i : Z) : option (Z * Z * f64) :=
  let pos := f64_sub (roi_center r i) half64 in
  let! lo := int_clamp (f64_as_int i64_min i64_max (f64_floor pos)) 0 (roi_src r - 1) in
  let! last := checked_usize (roi_src r - 1) in
  let hi := Z.min (lo + 1) last in
  let! weight := f64_clamp (f64_sub pos (f64_of_Z lo)) f64_zero one64 in
  Some (lo, hi, weight).

(** [f64::from(data[(row * src_width + col) * channels + channel])]. *)
Definition pixel_at (data : list byte) (src_width channels row col channel : Z) : option f64 :=
  let! b := index data ((row * src_width + col) * channels + channel) in
  Some (f64_of_Z (byte.unsigned b)).

Definition mix (a b w : f64) : f64 := f64_add (f64_mul a (f64_sub one64 w)) (f64_mul b w).

Definition bilinear_pixel (data : list byte) (src_width channels : Z)
    (row col : Z * Z * f64) (channel : Z) : option f64 :=
  let '(row0, row1, row_w) := row in
  let '(col0, col1, col_w) := col in
  let pixel := pixel_at data src_width channels in
  let! p00 := pixel row0 col0 channel in
  let! p01 := pixel row0 col1 channel in
  let! p10 := pixel row1 col0 channel in
  let! p11 := pixel row1 col1 channel in
  Some (mix (mix p00 p01 col_w) (mix p10 p11 col_w) row_w).

(** [for a in xs { for b in ys { for c in zs { .. } } }]. *)
Definition product3 {A B C} (xs : list A) (ys : list B) (zs : list C) : list (A * B * C) :=
  x ← xs; y ← ys; z ← zs; [(x, y, z)].

Definition resize_bilinear (t : Tensor) (row_roi col_roi : Roi)
    : option (result Tensor ApplyError) :=
  let!? (_, src_width, channels) := Some (image_dims t) in
  let (height, width) := (roi_dst row_roi, roi_dst col_roi) in
  let!? data := u8_pixels t in
  let! rows := mapM (bilinear_coord row_roi) (seqZ 0 height) in
  let! cols := mapM (bilinear_coord col_roi) (seqZ 0 width) in
  let! area := checked_usize (height * width) in
  let! count := checked_usize (area * channels) in
  let! _ := with_capacity (count * 8) in
  let! blended :=
    mapM (fun '(row, col, channel) => bilinear_pixel data src_width channels row col channel)
      (product3 rows cols (seqZ 0 channels)) in
  let! out := finish_pixels blended [height; width; channels] in
  Some (Ok out).

Definition support (k : Kernel) : f64 :=
  match k with
  | Area => half64
  | Triangle => f64_of_Z 1
  | Cubic => f64_of_Z 2
  | Lanczos3 => f64_of_Z 3
  end.

Definition filterscale (k : Kernel) (scale : f64) : f64 :=
  match k with Area => scale | _ => f64_max scale one64 end.

Definition PI : f64 := F64 4614256656552045848.

Section Filters.
Context `{Libm}.

Definition sinc (x : f64) : f64 :=
  if f64_eqb x f64_zero then one64
  else let x := f64_mul x PI in f64_quot (f64_sin x) x.

Definition kernel_weight (k : Kernel) (tap : Z) (center fscale : f64) : f64 :=
  let tap := f64_of_Z tap in
  let x := f64_abs (f64_quot (f64_sub (f64_add tap half64) center) fscale) in
  match k with
  | Area =>
      let low := f64_sub center (f64_quot fscale two64) in
      let high := f64_add center (f64_quot fscale two64) in
      f64_max (f64_sub (f64_min high (f64_add tap one64)) (f64_max low tap)) f64_zero
  | Triangle => f64_max (f64_sub one64 x) f64_zero
  | Cubic =>
      let A := f64_neg half64 in
      if f64_lt x one64 then
        f64_add
          (f64_mul (f64_mul (f64_sub (f64_mul (f64_add A (f64_of_Z 2)) x) (f64_add A (f64_of_Z 3))) x) x)
          one64
      else if f64_lt x two64 then
        f64_mul
          (f64_sub (f64_mul (f64_add (f64_mul (f64_sub x (f64_of_Z 5)) x) (f64_of_Z 8)) x) (f64_of_Z 4))
          A
      else f64_zero
  | Lanczos3 =>
      if f64_lt x (f64_of_Z 3) then f64_mul (sinc x) (sinc (f64_quot x (f64_of_Z 3))) else f64_zero
  end.

(** The taps of output pixel [out]: the first one and the normalised weights. *)
Definition filter_row (k : Kernel) (support : f64) (r : Roi) (out : Z) : option (Z * list f64) :=
  let fscale := filterscale k (roi_scale r) in
  let reach := f64_mul support fscale in
  let center := roi_center r out in
  let (low, high) :=
    match k with
    | Area => (f64_floor (f64_sub center reach), f64_ceil (f64_add center reach))
    | _ => (f64_trunc (f64_add (f64_sub center reach) half64),
            f64_trunc (f64_add (f64_add center reach) half64))
    end in
  let! lo := int_clamp (f64_as_int i64_min i64_max low) 0 (roi_src r) in
  let! hi := int_clamp (f64_as_int i64_min i64_max high) lo (roi_src r) in
  let row := (fun tap => kernel_weight k tap center fscale) <$> seqZ lo (hi - lo) in
  let total := f64_sum row in
  Some (lo, if f64_gt total f64_zero then (fun w => f64_quot w total) <$> row else row).

Definition filter_weights (k : Kernel) (support : f64) (r : Roi) : option (list (Z * list f64)) :=
  mapM (filter_row k support r) (seqZ 0 (roi_dst r)).

(** The weights of an axis are memoised per thread, by kernel, sizes and the bits of
    the span. *)
Definition WeightKey : Type := Kernel * Z * Z * Z * Z.
Definition WeightCache : Type := list (WeightKey * list (Z * list f64)).

Definition weight_key (k : Kernel) (r : Roi) : WeightKey :=
  (k, roi_src r, roi_dst r, f64_bits (roi_start r), f64_bits (roi_end r)).

Definition axis_weights (cache : WeightCache) (k : Kernel) (r : Roi)
    : option (WeightCache * list (Z * list f64)) :=
  match List.find (fun '(key, _) => bool_decide (key = weight_key k r)) cache with
  | Some (_, weights) => Some (cache, weights)
  | None =>
      let! weights := filter_weights k (support k) r in
      Some ((weight_key k r, weights) :: cache, weights)
  end.

(** [acc += weight * at(lo + offset)] over the taps, from [0.0]. *)
Fixpoint weighted_sum (at_ : Z -> option f64) (acc : f64) (tap : Z) (weights : list f64)
    : option f64 :=
  match weights with
  | [] => Some acc
  | weight :: weights =>
      let! x := at_ tap in
      weighted_sum at_ (f64_add acc (f64_mul weight x)) (tap + 1) weights
  end.

(** One output of the horizontal pass, clamped to the pixel range. *)
Definition horizontal_at (data : list byte) (src_width channels row : Z)
    (col : Z * list f64) (channel : Z) : option f64 :=
  let (lo, weights) := col in
  let! acc := weighted_sum (fun tap => pixel_at data src_width channels row tap channel)
                f64_zero lo weights in
  f64_clamp acc f64_zero byte_max.

Definition vertical_at (horizontal : list f64) (width channels : Z) (row : Z * list f64)
    (col channel : Z) : option f64 :=
  let (lo, weights) := row in
  weighted_sum (fun tap => index horizontal ((tap * width + col) * channels + channel))
    f64_zero lo weights.

(** Both passes fill their buffer in index order. *)
Definition filter_passes (data : list byte) (src_height src_width channels height width : Z)
    (row_weights col_weights : list (Z * list f64)) : option (list f64) :=
  let! area := checked_usize (src_height * width) in
  let! count := checked_usize (area * channels) in
  let! _ := with_capacity (count * 8) in
  let! horizontal :=
    mapM (fun '(row, col, channel) => horizontal_at data src_width channels row col channel)
      (product3 (seqZ 0 src_height) col_weights (seqZ 0 channels)) in
  let! area := checked_usize (height * width) in
  let! count := checked_usize (area * channels) in
  let! _ := with_capacity (count * 8) in
  mapM (fun '(row, col, channel) => vertical_at horizontal width channels row col channel)
    (product3 row_weights (seqZ 0 width) (seqZ 0 channels)).

(** The resize with the memo ... *)
Definition resize_filter_memo (cache : WeightCache) (t : Tensor) (row_roi col_roi : Roi) (k : Kernel)
    : option (WeightCache * result Tensor ApplyError) :=
  match image_dims t with
  | Err e => Some (cache, Err e)
  | Ok (src_height, src_width, channels) =>
      let (height, width) := (roi_dst row_roi, roi_dst col_roi) in
      match u8_pixels t with
      | None => None
      | Some (Err e) => Some (cache, Err e)
      | Some (Ok data) =>
          let! (cache, col_weights) := axis_weights cache k col_roi in
          let! (cache, row_weights) := axis_weights cache k row_roi in
          let! blended := filter_passes data src_height src_width channels height width
                            row_weights col_weights in
          let! out := finish_pixels blended [height; width; channels] in
          Some (cache, Ok out)
      end
  end.

(** ... and with the weights built in place, which [resize_filter_memo_spec] shows is
    the same: the rest of the pipeline uses this one. *)
Definition resize_filter (t : Tensor) (row_roi col_roi : Roi) (k : Kernel)
    : option (result Tensor ApplyError) :=
  let!? (src_height, src_width, channels) := Some (image_dims t) in
  let (height, width) := (roi_dst row_roi, roi_dst col_roi) in
  let!? data := u8_pixels t in
  let! col_weights := filter_weights k (support k) col_roi in
  let! row_weights := filter_weights k (support k) row_roi in
  let! blended := filter_passes data src_height src_width channels height width
                    row_weights col_weights in
  let! out := finish_pixels blended [height; width; channels] in
  Some (Ok out).

Definition RESAMPLES : list string :=
  ["bilinear"; "bilinear_aa"; "bicubic_aa"; "lanczos3_aa"; "area"].

Definition resize_roi (t : Tensor) (height width : Z) (zoom : option f64) (resample : string)
    : option (result Tensor ApplyError) :=
  let!? (src_height, src_width, _) := Some (image_dims t) in
  if (height =? 0) || (width =? 0) || (src_height =? 0) || (src_width =? 0) then
    Some (Err (apply_error
      (Msg "cannot resize an image with a zero dimension (source {src_height}x{src_width}, target {height}x{width})"
         [AZ src_height; AZ src_width; AZ height; AZ width])))
  else
    let row_roi := zoom_roi src_height height zoom in
    let col_roi := zoom_roi src_width width zoom in
    if roi_is_identity row_roi && roi_is_identity col_roi then Some (Ok t)
    else if (resample =? "bilinear")%string then resize_bilinear t row_roi col_roi
    else if (resample =? "bilinear_aa")%string then resize_filter t row_roi col_roi Triangle
    else if (resample =? "bicubic_aa")%string then resize_filter t row_roi col_roi Cubic
    else if (resample =? "lanczos3_aa")%string then resize_filter t row_roi col_roi Lanczos3
    else if (resample =? "area")%string then resize_filter t row_roi col_roi Area
    else Some (Err (apply_error (Msg "unsupported resample {other:?}" [AStr resample]))).

(** [(side * scale).round() as usize]. *)
Definition scaled_side (side scale : f64) : Z :=
  f64_as_int 0 usize_max (f64_round (f64_mul side scale)).

Definition fit_resize (t : Tensor) (height width : Z) (resample : string) (fit : FitMode)
    (zoom : option f64) : option (result Tensor ApplyError) :=
  let!? (src_height, src_width, _) := Some (image_dims t) in
  let fraction := default one64 zoom in
  let box_height := f64_mul (f64_of_Z src_height) fraction in
  let box_width := f64_mul (f64_of_Z src_width) fraction in
  let row_ratio := f64_quot (f64_of_Z height) box_height in
  let col_ratio := f64_quot (f64_of_Z width) box_width in
  match fit with
  | FitStretch => resize_roi t height width zoom resample
  | FitCrop =>
      let scale := f64_max row_ratio col_ratio in
      let scaled_height := Z.max (scaled_side box_height scale) height in
      let scaled_width := Z.max (scaled_side box_width scale) width in
      let!? scaled :=
        resize_roi t (wrap_u 32 scaled_height) (wrap_u 32 scaled_width) zoom resample in
      crop_center scaled height width
  | FitPad =>
      let scale := f64_min row_ratio col_ratio in
      let! scaled_height := int_clamp (scaled_side box_height scale) 1 height in
      let! scaled_width := int_clamp (scaled_side box_width scale) 1 width in
      let!? scaled :=
        resize_roi t (wrap_u 32 scaled_height) (wrap_u 32 scaled_width) zoom resample in
      pad_center scaled height width
  end.
End Filters.

(** ** The model's dtype and layout *)

(** [low + (v / 255.0) * (high - low)] in [f32]. *)
Definition normalize_f32 (low high v : f32) : f32 :=
  f32_add low (f32_mul (f32_quot v (f32_of_Z 255)) (f32_sub high low)).

(** Entry [v] of the lookup tables. *)
Definition table_entry (low high : f32) (v : byte) : f32 :=
  normalize_f32 low high (f32_of_Z (byte.unsigned v)).

Section Finalize.
Context `{HalfOps} (addr : Z).

Definition finalize_dtype (t : Tensor) (dtype_str : string) (normalize : option (f64 * f64))
    : option (result Tensor ApplyError) :=
  let!? target := Some (ok_or (dtype_from_name dtype_str)
    (apply_error (Msg "unsupported dtype {dtype:?} for an image output" [AStr dtype_str]))) in
  match normalize with
  | Some (low, high) =>
      let (low, high) := (f32_of_f64 low, f32_of_f64 high) in
      if bool_decide (dtype t = Uint8) && bool_decide (target = Float32) then
        let! bytes := to_contiguous_bytes t in
        let out := v ← bytes; f32_le_bytes (table_entry low high v) in
        lift_err tensor_error (tensor_from_vec out (shape t) target)
      else
        let! values := to_f32_vec t in
        let scaled := (fun value => f64_of_f32 (normalize_f32 low high value)) <$> values in
        encode_f64_to scaled (shape t) target
  | None => cast t target
  end.

(** The places the pixels of a frame go to in the transposed one, in loop order. *)
Definition camera_writes (group plane : Z) (bytes : list byte) : list (Z * byte) :=
  concat (imap (fun pixel px =>
            imap (fun channel v => (Z.of_nat channel * plane + Z.of_nat pixel, v)) px)
          (chunks_exact (Z.to_nat group) bytes)).

Definition camera_write (low high : f32) (out : list f32) (write : Z * byte)
    : option (list f32) :=
  let (dst, v) := write in
  if dst <? Z.of_nat (length out)
  then Some (<[Z.to_nat dst := table_entry low high v]> out) else None.

(** [None] inside hands the frame to the generic tail. *)
Definition finalize_camera_chw (t : Tensor) (plan : ImagePlan) : option (option Tensor) :=
  match ip_normalize plan with
  | None => Some None
  | Some (low, high) =>
      if negb (bool_decide (dtype t = Uint8)) || negb (ip_dtype plan =? "float32")%string
         || negb (bool_decide (ip_dst_layout plan = Chw)) then Some None
      else match shape_usize t with
      | [height; width; channels] =>
          let (low, high) := (f32_of_f64 low, f32_of_f64 high) in
          let! plane := checked_usize (height * width) in
          let! bytes := to_contiguous_bytes t in
          let! out := vec_of f32_zero 4 (Z.of_nat (length bytes)) in
          let! out := foldlM (camera_write low high)
                        (camera_writes (Z.max channels 1) plane bytes) out in
          let! out := tensor_from_f32 (shape_i64 [channels; height; width]) out in
          Some (Some out)
      | _ => Some None
      end
  end.

Definition add_lead_dims (t : Tensor) (count : nat) : option Tensor :=
  match count with
  | 0%nat => Some t
  | _ => expect (reshape addr t (replicate count 1 ++ shape t))
  end.

Definition finalize_image (t : Tensor) (plan : ImagePlan) : option (result Value ApplyError) :=
  let!? t := if ip_swap_rb plan then swap_rb t else Some (Ok t) in
  let! camera := finalize_camera_chw t plan in
  match camera with
  | Some t =>
      let! t := add_lead_dims t (ip_lead_dims plan) in
      Some (Ok (ValTensor t))
  | None =>
      let!? t := finalize_dtype t (ip_dtype plan) (ip_normalize plan) in
      let!? t := to_layout t Hwc (ip_dst_layout plan) in
      let! t := add_lead_dims t (ip_lead_dims plan) in
      Some (Ok (ValTensor t))
  end.

Definition apply_zero_fill_image (plan : ImagePlan) (height width channels : Z)
    : option (result Value ApplyError) :=
  let! area := checked_usize (height * width) in
  let! count := checked_usize (area * channels) in
  let! pixels := vec_of (ip_fill plan) 1 count in
  let! fill := tensor_from_u8 (shape_i64 [height; width; channels]) pixels in
  finalize_image fill plan.
End Finalize.

(** ** One model image *)

Section ApplyImage.
Context `{HalfOps} `{ImageCodec} `{Libm} (addr : Z).

Definition when {A E} (cond : bool) (f : A -> option (result A E)) (a : A) : option (result A E) :=
  if cond then f a else Some (Ok a).

Definition apply_image (plan : ImagePlan) (raw_obs : btree Value) : option (result Value ApplyError) :=
  match ip_zero_fill plan with
  | Some (height, width, channels) => apply_zero_fill_image addr plan height width channels
  | None =>
      let!? source := Some (resolve_in_obs raw_obs (ip_source plan)) in
      let!? image := decode_image source (ip_src_range plan) in
      let!? image := to_layout image (ip_src_layout plan) Hwc in
      let!? image := when (ip_flip plan) flip_180 image in
      let!? image :=
        match ip_jpeg_quality plan with
        | Some quality => jpeg_roundtrip image quality
        | None => Some (Ok image)
        end in
      let!? (image, zoom) :=
        match ip_crop plan with
        | Some crop =>
            if crop_slice crop then
              let!? (height, width, _) := Some (image_dims image) in
              let! cut_height := crop_cut height (crop_fraction crop) in
              let! cut_width := crop_cut width (crop_fraction crop) in
              let!? image := crop_center image cut_height cut_width in
              Some (Ok (image, None))
            else Some (Ok (image, Some (crop_fraction crop)))
        | None => Some (Ok (image, None))
        end in
      let!? size :=
        match ip_size plan, zoom with
        | Some size, _ => Some (Ok (Some size))
        | None, Some _ =>
            let!? (height, width, _) := Some (image_dims image) in
            Some (Ok (Some (wrap_u 32 height, wrap_u 32 width)))
        | None, None => Some (Ok None)
        end in
      let!? image :=
        match size with
        | Some (height, width) =>
            fit_resize image height width (ip_resample plan) (ip_fit plan) zoom
        | None => Some (Ok image)
        end in
      finalize_image addr image plan
  end.
End ApplyImage.
