(* ===== verification/AdapterImageSpec.v ===== *)
(** * Correctness of the image pipeline

    What the moves, crops and resizes of [AdapterImage] do to the pixels, that the
    camera fast path is the generic tail, that the memo of filter weights is
    transparent, and the shape and dtype of every image produced. *)

From S2P Require Import Prelude BTree Float FloatOps DType Scalar Tensor AdapterValue AdapterGeometry AdapterPlans AdapterImage.
#[local] Open Scope Z_scope.

(** ** Loops over a grid *)

(** The pairs in loop order are the quotients and remainders of the counter. *)
Lemma grid_seqZ n m :
  0 <= n -> 0 <= m -> grid n m = (fun k => (k / m, k mod m)) <$> seqZ 0 (n * m).
Proof.
  intros Hn Hm. unfold grid. rewrite <- (Z2Nat.id n Hn). generalize (Z.to_nat n) as i. clear n Hn.
  induction i as [|i IH]; [done|].
  rewrite seqZ_S, bind_app, IH. rewrite Nat2Z.inj_succ.
  replace (Z.succ (Z.of_nat i) * m) with (Z.of_nat i * m + m) by lia.
  rewrite (seqZ_app 0 _ m), fmap_app by lia. f_equal. rewrite !Z.add_0_l.
  cbn [mbind list_bind]. rewrite app_nil_r.
  rewrite <- (Z.add_0_r (Z.of_nat i * m)) at 1. rewrite <- fmap_add_seqZ, <- list_fmap_compose.
  apply list_fmap_ext. intros k b Hb. apply lookup_seqZ in Hb as [-> Hb]. unfold compose.
  rewrite !Z.add_0_l. f_equal.
  - rewrite Z.add_comm, Z.div_add, Z.div_small by lia. lia.
  - rewrite Z.add_comm, Z.mod_add, Z.mod_small by lia. lia.
Qed.

(** ** Elements of a buffer *)

(** Element [k] of a buffer of [size]-byte elements. *)
Definition element (size : Z) (bytes : list byte) (k : Z) : list byte :=
  take (Z.to_nat size) (drop (Z.to_nat (k * size)) bytes).

Lemma slice_element size bytes k :
  0 <= size -> 0 <= k -> (k + 1) * size <= Z.of_nat (length bytes) ->
  slice bytes (k * size) (k * size + size) = Some (element size bytes k) /\
  length (element size bytes k) = Z.to_nat size.
Proof.
  intros Hs Hk Hl. split.
  - rewrite slice_Some by nia. unfold element. do 2 f_equal. lia.
  - unfold element. rewrite length_take, length_drop. nia.
Qed.

(** A walk of the destination in order concatenates the elements read. *)
Lemma moves_in_order size bytes srcs k done rest :
  0 <= size -> 0 <= k ->
  Forall (fun s => 0 <= s /\ (s + 1) * size <= Z.of_nat (length bytes)) srcs ->
  Z.of_nat (length done) = k * size ->
  Z.of_nat (length rest) = Z.of_nat (length srcs) * size ->
  foldlM (move_element size bytes) (zip srcs (seqZ k (Z.of_nat (length srcs)))) (done ++ rest)
  = Some (done ++ concat (element size bytes <$> srcs)).
Proof.
  intros Hsz Hk Hs. revert k done rest Hk.
  induction Hs as [|s srcs [Hs0 Hs] _ IH]; intros k done rest Hk Hd Hr.
  - destruct rest; [|simpl in Hr; lia]. done.
  - cbn [length]. rewrite seqZ_cons by lia. cbn [zip_with foldlM move_element].
    destruct (slice_element size bytes s) as [-> He]; [lia..|].
    unfold copy_from_slice. rewrite (proj2 (Z.leb_le _ _)) by (rewrite length_app; cbn [length] in Hr; lia).
    replace (Z.to_nat (k * size)) with (length done + 0)%nat by lia.
    rewrite list_inserts_app_r.
    assert (Z.to_nat size <= length rest)%nat by (cbn [length] in Hr; nia).
    rewrite <- (take_drop (Z.to_nat size) rest) at 1.
    rewrite list_inserts_0_r by (rewrite length_take; lia).
    rewrite app_assoc. replace (Z.pred (Z.of_nat (S (length srcs)))) with (Z.of_nat (length srcs)) by lia.
    rewrite IH; [by rewrite fmap_cons; cbn [concat]; rewrite app_assoc|lia|..].
    + rewrite length_app. lia.
    + rewrite length_drop. cbn [length] in Hr. lia.
Qed.

(** Element sources as a function of the destination. *)
Definition chw_source (plane channels k : Z) : Z := (k mod plane) * channels + k / plane.
Definition hwc_source (plane channels k : Z) : Z := (k mod channels) * plane + k / channels.

Lemma zip_fmap_seqZ {A} (f : Z -> A) n : (fun k => (f k, k)) <$> seqZ 0 n = zip (f <$> seqZ 0 n) (seqZ 0 n).
Proof.
  generalize (seqZ 0 n) as l. induction l as [|k l IH]; [done|]. cbn. by rewrite <- IH.
Qed.

Lemma moves_to_chw_eq plane channels :
  0 <= plane -> 0 <= channels ->
  moves_to_chw plane channels =
  zip (chw_source plane channels <$> seqZ 0 (channels * plane)) (seqZ 0 (channels * plane)).
Proof.
  intros Hp Hc. unfold moves_to_chw. rewrite grid_seqZ, <- list_fmap_compose by done.
  rewrite <- zip_fmap_seqZ. apply list_fmap_ext. intros i k Hk. apply lookup_seqZ in Hk as [-> Hk].
  unfold compose, chw_source. rewrite Z.add_0_l. f_equal.
  assert (plane <> 0) by nia. pose proof (Z.div_mod (Z.of_nat i) plane ltac:(done)). lia.
Qed.

Lemma moves_to_hwc_eq plane channels :
  0 <= plane -> 0 <= channels ->
  moves_to_hwc plane channels =
  zip (hwc_source plane channels <$> seqZ 0 (plane * channels)) (seqZ 0 (plane * channels)).
Proof.
  intros Hp Hc. unfold moves_to_hwc. rewrite grid_seqZ, <- list_fmap_compose by done.
  rewrite <- zip_fmap_seqZ. apply list_fmap_ext. intros i k Hk. apply lookup_seqZ in Hk as [-> Hk].
  unfold compose, hwc_source. rewrite Z.add_0_l. f_equal.
  assert (channels <> 0) by nia. pose proof (Z.div_mod (Z.of_nat i) channels ltac:(done)). lia.
Qed.

Lemma chw_source_range plane channels k :
  0 <= plane -> 0 <= channels -> 0 <= k < channels * plane -> 0 <= chw_source plane channels k < plane * channels.
Proof.
  intros Hp Hc Hk. unfold chw_source. assert (0 < plane) by nia.
  pose proof (Z.mod_pos_bound k plane ltac:(done)). pose proof (Z.div_pos k plane ltac:(lia) ltac:(done)).
  assert (k / plane < channels) by (apply Z.div_lt_upper_bound; lia). nia.
Qed.

Lemma hwc_source_range plane channels k :
  0 <= plane -> 0 <= channels -> 0 <= k < plane * channels -> 0 <= hwc_source plane channels k < channels * plane.
Proof.
  intros Hp Hc Hk. pose proof (chw_source_range channels plane k Hc Hp). unfold chw_source, hwc_source in *. lia.
Qed.

(** The two transposes undo each other. *)
Lemma chw_hwc_source plane channels k :
  0 <= plane -> 0 <= channels -> 0 <= k < plane * channels -> chw_source plane channels (hwc_source plane channels k) = k.
Proof.
  intros Hp Hc Hk. unfold chw_source, hwc_source. assert (0 < channels) by nia.
  pose proof (Z.div_pos k channels ltac:(lia) ltac:(done)). pose proof (Z.mod_pos_bound k channels ltac:(done)).
  assert (k / channels < plane) by (apply Z.div_lt_upper_bound; lia).
  assert (0 < plane) by nia.
  rewrite (Z.add_comm (k mod channels * plane)), Z.mod_add, (Z.mod_small (k / channels)), Z.div_add, (Z.div_small (k / channels) plane) by lia.
  pose proof (Z.div_mod k channels ltac:(lia)). lia.
Qed.

Lemma hwc_chw_source plane channels k :
  0 <= plane -> 0 <= channels -> 0 <= k < channels * plane -> hwc_source plane channels (chw_source plane channels k) = k.
Proof.
  intros Hp Hc Hk. pose proof (chw_hwc_source channels plane k Hc Hp). unfold chw_source, hwc_source in *. lia.
Qed.

(** ** Layouts *)

(** The elements of [data] at the given places. *)
Definition picked (size : Z) (data : list byte) (places : list Z) : list byte :=
  concat (element size data <$> places).

Lemma length_picked size data places :
  0 <= size -> Forall (fun s => 0 <= s /\ (s + 1) * size <= Z.of_nat (length data)) places ->
  Z.of_nat (length (picked size data places)) = Z.of_nat (length places) * size.
Proof.
  intros Hs Hp. unfold picked. rewrite (length_concat_uniform (Z.to_nat size)).
  - rewrite length_fmap. lia.
  - apply Forall_fmap. eapply Forall_impl; [exact Hp|]. intros s [? ?]. by apply slice_element.
Qed.

(** An element of what was picked. *)
Lemma element_picked size data places i s :
  0 <= size -> Forall (fun s => 0 <= s /\ (s + 1) * size <= Z.of_nat (length data)) places ->
  places !! Z.to_nat i = Some s -> 0 <= i ->
  element size (picked size data places) i = element size data s.
Proof.
  intros Hs Hp Hi H0. unfold element at 1, picked.
  apply list_elem_of_split_length in Hi as (l1 & l2 & -> & Hl).
  apply Forall_app in Hp as [Hp1 [Hs2 _]%Forall_cons].
  assert (length (concat (element size data <$> l1)) = Z.to_nat (i * size)) as Hl1.
  { pose proof (length_picked size data l1 Hs Hp1) as H. unfold picked in H. lia. }
  rewrite fmap_app, concat_app, fmap_cons. cbn [concat].
  rewrite drop_app_length' by lia.
  destruct (slice_element size data s) as [_ He]; [lia..|].
  by rewrite take_app_length' by lia.
Qed.

Lemma dims3_ok a b c : dims_ok [a; b; c] -> 0 <= a /\ 0 <= b /\ 0 <= c.
Proof. rewrite !dims_ok_cons. lia. Qed.

(** A permutation of three axes is allocated where the original is. *)
Lemma fits_rotate a b c d : fits [a; b; c] d -> fits [c; a; b] d /\ fits [b; c; a] d.
Proof.
  intros [Hd Hds He].
  assert (dims_ok [c; a; b] /\ dims_ok [b; c; a]) as [H1 H2]
    by (rewrite !dims_ok_cons in *; tauto).
  cbn [extent] in He.
  split; split; try done; cbn [extent]; lia.
Qed.

Lemma fits_plane a b c d : fits [a; b; c] d -> checked_usize (a * b) = Some (a * b) /\
  checked_usize (b * c) = Some (b * c).
Proof.
  intros [Hd Hds He]. destruct (dims3_ok _ _ _ Hds) as (Ha & Hb & Hc).
  pose proof (dtype_size_pos d Hd). cbn [extent] in He.
  assert (Z.max 1 a * Z.max 1 b <= Z.max 1 a * (Z.max 1 b * (Z.max 1 c * 1))) by nia.
  assert (Z.max 1 b * Z.max 1 c <= Z.max 1 a * (Z.max 1 b * (Z.max 1 c * 1))) by nia.
  assert (a * b <= Z.max 1 a * Z.max 1 b) by nia.
  assert (b * c <= Z.max 1 b * Z.max 1 c) by nia.
  unfold checked_usize. rewrite !checked_in by (unfold_ints; nia). done.
Qed.

Lemma image_dims_dense t data a b c :
  dense t data -> shape t = [a; b; c] -> image_dims t = Ok (a, b, c).
Proof. intros Hd Hs. unfold image_dims. by rewrite (shape_usize_dense t data Hd), Hs. Qed.

Section Layout.
Context (t : Tensor) (data : list byte) (Hdense : dense t data).
Let size : Z := Z.of_nat (dtype_size (dtype t)).

Lemma chw_places_ok plane channels :
  0 <= plane -> 0 <= channels -> Z.of_nat (length data) = plane * channels * size ->
  Forall (fun s => 0 <= s /\ (s + 1) * size <= Z.of_nat (length data))
    (chw_source plane channels <$> seqZ 0 (channels * plane)).
Proof.
  intros Hp Hc Hl. apply Forall_fmap, Forall_seqZ. intros k Hk. unfold compose.
  pose proof (chw_source_range plane channels k Hp Hc ltac:(lia)).
  assert (0 <= size) by (subst size; lia). nia.
Qed.

Lemma hwc_places_ok plane channels :
  0 <= plane -> 0 <= channels -> Z.of_nat (length data) = plane * channels * size ->
  Forall (fun s => 0 <= s /\ (s + 1) * size <= Z.of_nat (length data))
    (hwc_source plane channels <$> seqZ 0 (plane * channels)).
Proof.
  intros Hp Hc Hl. apply Forall_fmap, Forall_seqZ. intros k Hk. unfold compose.
  pose proof (hwc_source_range plane channels k Hp Hc ltac:(lia)).
  assert (0 <= size) by (subst size; lia). nia.
Qed.

(** The loop fills the whole buffer. *)
Lemma moves_fill (places : list Z) :
  Forall (fun s => 0 <= s /\ (s + 1) * size <= Z.of_nat (length data)) places ->
  Z.of_nat (length data) = Z.of_nat (length places) * size ->
  foldlM (move_element size data) (zip places (seqZ 0 (Z.of_nat (length places))))
    (replicate (length data) Byte.x00) = Some (picked size data places).
Proof.
  intros Hp Hl.
  apply (moves_in_order size data places 0 [] (replicate (length data) Byte.x00)); try done.
  - subst size; lia.
  - by rewrite length_replicate.
Qed.

Lemma to_layout_chw h w c :
  shape t = [h; w; c] ->
  to_layout t Hwc Chw = Some (Ok (dense_tensor
    (picked size data (chw_source (h * w) c <$> seqZ 0 (c * (h * w)))) [c; h; w] (dtype t))) /\
  Z.of_nat (length (picked size data (chw_source (h * w) c <$> seqZ 0 (c * (h * w)))))
    = volume [c; h; w] * size /\ fits [c; h; w] (dtype t).
Proof.
  intros Hs. pose proof (dense_fits t data Hdense) as Hf. rewrite Hs in Hf.
  destruct (dims3_ok _ _ _ (fits_dims _ _ Hf)) as (Hh & Hw & Hc).
  destruct (fits_rotate _ _ _ _ Hf) as [Hf' _]. destruct (fits_plane _ _ _ _ Hf) as [Hp _].
  pose proof (dense_length t data Hdense) as Hl. rewrite Hs in Hl. cbn [volume] in Hl. fold size in Hl.
  assert (Z.of_nat (length data) = h * w * c * size) as Hl' by lia.
  pose proof (chw_places_ok (h * w) c ltac:(nia) Hc Hl') as Hpl.
  assert (Z.of_nat (length (chw_source (h * w) c <$> seqZ 0 (c * (h * w)))) = c * (h * w)) as Hn
    by (rewrite length_fmap, length_seqZ; nia).
  assert (Z.of_nat (length (picked size data (chw_source (h * w) c <$> seqZ 0 (c * (h * w)))))
            = volume [c; h; w] * size) as Hlen.
  { rewrite length_picked, Hn by (done || subst size; lia). cbn [volume]. lia. }
  split; [|done]. unfold to_layout. rewrite decide_False by done. fold size.
  rewrite (dense_bytes t data Hdense), (image_dims_dense t data h w c Hdense Hs), Hp.
  rewrite moves_to_chw_eq by nia. rewrite <- Hn at 2. rewrite moves_fill by (done || lia).
  rewrite shape_i64_ok by apply (fits_dims _ _ Hf').
  destruct (from_vec_dense _ [c; h; w] (dtype t) Hf' Hlen) as [-> _]. done.
Qed.

Lemma to_layout_hwc h w c :
  shape t = [c; h; w] ->
  to_layout t Chw Hwc = Some (Ok (dense_tensor
    (picked size data (hwc_source (h * w) c <$> seqZ 0 (h * w * c))) [h; w; c] (dtype t))) /\
  Z.of_nat (length (picked size data (hwc_source (h * w) c <$> seqZ 0 (h * w * c))))
    = volume [h; w; c] * size /\ fits [h; w; c] (dtype t).
Proof.
  intros Hs. pose proof (dense_fits t data Hdense) as Hf. rewrite Hs in Hf.
  destruct (dims3_ok _ _ _ (fits_dims _ _ Hf)) as (Hc & Hh & Hw).
  destruct (fits_rotate _ _ _ _ Hf) as [_ Hf']. destruct (fits_plane _ _ _ _ Hf) as [_ Hp].
  pose proof (dense_length t data Hdense) as Hl. rewrite Hs in Hl. cbn [volume] in Hl. fold size in Hl.
  assert (Z.of_nat (length data) = h * w * c * size) as Hl' by lia.
  pose proof (hwc_places_ok (h * w) c ltac:(nia) Hc Hl') as Hpl.
  assert (Z.of_nat (length (hwc_source (h * w) c <$> seqZ 0 (h * w * c))) = h * w * c) as Hn
    by (rewrite length_fmap, length_seqZ; nia).
  assert (Z.of_nat (length (picked size data (hwc_source (h * w) c <$> seqZ 0 (h * w * c))))
            = volume [h; w; c] * size) as Hlen.
  { rewrite length_picked, Hn by (done || subst size; lia). cbn [volume]. lia. }
  split; [|done]. unfold to_layout. rewrite decide_False by done. fold size.
  rewrite (dense_bytes t data Hdense), (image_dims_dense t data c h w Hdense Hs), Hp.
  rewrite moves_to_hwc_eq by nia. rewrite <- Hn at 2. rewrite moves_fill by (done || lia).
  rewrite shape_i64_ok by apply (fits_dims _ _ Hf').
  destruct (from_vec_dense _ [h; w; c] (dtype t) Hf' Hlen) as [-> _]. done.
Qed.
End Layout.

(** ** Round trip of the layouts *)

(** Picking every element in order copies the buffer. *)
Lemma picked_all size data n :
  0 <= size -> 0 <= n -> Z.of_nat (length data) = n * size -> picked size data (seqZ 0 n) = data.
Proof.
  intros Hs Hn Hl. unfold picked, element.
  rewrite (concat_consecutive data 0 (Z.to_nat size) n); try done.
  - rewrite drop_0. apply take_ge. lia.
  - intros k Hk. do 2 f_equal. lia.
Qed.

(** Picking from what was picked. *)
Lemma picked_picked size data places places' :
  0 <= size ->
  Forall (fun s => 0 <= s /\ (s + 1) * size <= Z.of_nat (length data)) places ->
  Forall (fun i => 0 <= i < Z.of_nat (length places)) places' ->
  picked size (picked size data places) places' =
  picked size data ((fun i => places !!! Z.to_nat i) <$> places').
Proof.
  intros Hs Hp Hp'. unfold picked at 1 3. rewrite <- list_fmap_compose. f_equal.
  apply list_fmap_ext. intros j i Hi. pose proof (Forall_lookup_1 _ _ _ _ Hp' Hi) as Hr.
  simpl in Hr. unfold compose. apply element_picked; try done; [|lia].
  apply list_lookup_lookup_total_lt. lia.
Qed.

Lemma lookup_total_fmap_seqZ (f : Z -> Z) n i :
  0 <= i < n -> (f <$> seqZ 0 n) !!! Z.to_nat i = f i.
Proof.
  intros Hi. apply list_lookup_total_correct. rewrite list_lookup_fmap, lookup_seqZ_lt by lia.
  cbn. do 2 f_equal. lia.
Qed.

Lemma fmap_seqZ_id (f : Z -> Z) n : (forall k, 0 <= k < n -> f k = k) -> f <$> seqZ 0 n = seqZ 0 n.
Proof.
  intros Hf. rewrite <- (list_fmap_id (seqZ 0 n)) at 2. apply list_fmap_ext.
  intros i k Hk. apply lookup_seqZ in Hk as [-> ?]. by rewrite Hf by lia.
Qed.

(** Picking back what the transpose to [chw] picked. *)
Lemma hwc_chw_picked t data plane c :
  0 <= plane -> 0 <= c -> Z.of_nat (length data) = plane * c * itemsize t ->
  picked (itemsize t) (picked (itemsize t) data (chw_source plane c <$> seqZ 0 (c * plane)))
    (hwc_source plane c <$> seqZ 0 (plane * c)) = data.
Proof.
  intros Hp Hc Hl. pose proof (chw_places_ok t data plane c Hp Hc Hl) as Hpl.
  assert (forall k, 0 <= k < plane * c -> 0 <= hwc_source plane c k < c * plane) as Hr
    by (intros; by apply hwc_source_range).
  rewrite picked_picked; [|unfold itemsize; lia|done|].
  2: { rewrite length_fmap, length_seqZ. apply Forall_fmap, Forall_seqZ.
       intros k Hk. unfold compose. specialize (Hr k). lia. }
  rewrite <- list_fmap_compose, fmap_seqZ_id.
  - apply picked_all; [unfold itemsize; lia|nia|lia].
  - intros k Hk. unfold compose. rewrite lookup_total_fmap_seqZ by (by apply Hr).
    by apply chw_hwc_source.
Qed.

(** Transposing a frame to [chw] puts element [(row, col, channel)] at
    [(channel, row, col)], and transposing back restores the frame: the same shape,
    dtype and elements. *)
Theorem layout_roundtrip (t : Tensor) (data : list byte) (h w c : Z) :
  dense t data -> shape t = [h; w; c] ->
  exists u, to_layout t Hwc Chw = Some (Ok u) /\ shape u = [c; h; w] /\ dtype u = dtype t /\
  exists data', dense u data' /\
    (forall row col channel, 0 <= row < h -> 0 <= col < w -> 0 <= channel < c ->
       element (itemsize t) data' ((channel * h + row) * w + col) =
       element (itemsize t) data ((row * w + col) * c + channel)) /\
  exists v, to_layout u Chw Hwc = Some (Ok v) /\
    shape v = shape t /\ dtype v = dtype t /\ dense v data.
Proof.
  intros Hd Hs. destruct (to_layout_chw t data Hd h w c Hs) as (-> & Hl & Hf).
  set (places := chw_source (h * w) c <$> seqZ 0 (c * (h * w))) in *.
  eexists. split; [done|]. split; [done|]. split; [done|].
  destruct (from_vec_dense _ _ _ Hf Hl) as [_ Hd'].
  exists (picked (itemsize t) data places). split; [done|].
  destruct (dims3_ok _ _ _ (fits_dims _ _ Hf)) as (Hc & Hh & Hw).
  pose proof (dense_length t data Hd) as Hlen. rewrite Hs in Hlen. cbn [volume] in Hlen.
  assert (0 <= h * w) as Hhw by nia.
  pose proof (chw_places_ok t data (h * w) c Hhw Hc ltac:(lia)) as Hp. fold places in Hp.
  split.
  - intros row col channel Hr Hcol Hch.
    assert (0 <= row * w + col < h * w) by nia.
    replace ((channel * h + row) * w + col) with (row * w + col + channel * (h * w)) by lia.
    assert (0 <= row * w + col + channel * (h * w) < c * (h * w)) by nia.
    rewrite (element_picked _ data places _ ((row * w + col) * c + channel)); try done;
      [unfold itemsize; lia| |lia].
    subst places. rewrite list_lookup_fmap, lookup_seqZ_lt by lia.
    cbn [fmap option_fmap option_map]. f_equal.
    unfold chw_source. rewrite Z.add_0_l, Z2Nat.id by lia.
    rewrite Z.mod_add, Z.div_add, Z.mod_small, Z.div_small by lia. lia.
  - destruct (to_layout_hwc _ _ Hd' h w c eq_refl) as (-> & Hl' & Hf').
    eexists. split; [done|]. split; [done|]. split; [done|].
    destruct (from_vec_dense _ _ _ Hf' Hl') as [_ Hd'']. cbn [dense_tensor dtype] in *.
    fold (itemsize t) in *.
    subst places. by rewrite (hwc_chw_picked t data (h * w) c) in Hd'' |- * by (done || lia).
Qed.

(** ** The camera path *)

(** Writes that agree with [g] on their places, and cover what does not yet, leave
    [g] everywhere. *)
Lemma camera_writes_fill low high (g : Z -> f32) writes out :
  Forall (fun '(d, v) => 0 <= d < Z.of_nat (length out) /\ table_entry low high v = g d) writes ->
  (forall i, 0 <= i < Z.of_nat (length out) ->
     i ∈ writes.*1 \/ out !! Z.to_nat i = Some (g i)) ->
  foldlM (camera_write low high) writes out = Some (g <$> seqZ 0 (Z.of_nat (length out))).
Proof.
  revert out; induction writes as [|[d v] writes IH]; intros out Hw Hc; cbn [foldlM].
  - f_equal. apply list_eq. intros i. rewrite list_lookup_fmap.
    destruct (decide (i < length out)%nat) as [Hi|Hi].
    + rewrite lookup_seqZ_lt by lia.
      destruct (Hc (Z.of_nat i)) as [Hin|Hin]; [lia|by apply not_elem_of_nil in Hin|].
      by rewrite Nat2Z.id in Hin.
    + by rewrite lookup_seqZ_ge, lookup_ge_None_2 by lia.
  - apply Forall_cons in Hw as [[Hd Hg] Hw]. cbn [camera_write].
    rewrite (proj2 (Z.ltb_lt _ _)) by lia. rewrite IH; rewrite ?length_insert; try done.
    intros i Hi. destruct (decide (i = d)) as [->|Hne].
    + right. rewrite list_lookup_insert_eq by lia. by rewrite Hg.
    + rewrite list_lookup_insert_ne by lia. specialize (Hc i Hi). rewrite fmap_cons in Hc.
      set_solver.
Qed.

Lemma elem_camera_writes group plane bytes d v :
  (d, v) ∈ camera_writes group plane bytes <->
  exists pixel channel px,
    chunks_exact (Z.to_nat group) bytes !! pixel = Some px /\ px !! channel = Some v /\
    d = Z.of_nat channel * plane + Z.of_nat pixel.
Proof.
  unfold camera_writes. rewrite list_elem_of_In, in_concat. split.
  - intros (l & [pixel Hl]%list_elem_of_In%list_elem_of_lookup & Hin%list_elem_of_In).
    rewrite list_lookup_imap in Hl. destruct (_ !! pixel) as [px|] eqn:Hpx; simplify_eq/=.
    apply list_elem_of_lookup in Hin as [channel Hc].
    rewrite list_lookup_imap in Hc. destruct (px !! channel) as [v'|] eqn:Hv; simplify_eq/=.
    by exists pixel, channel, px.
  - intros (pixel & channel & px & Hpx & Hv & ->).
    eexists. split; [apply list_elem_of_In, list_elem_of_lookup; exists pixel|].
    + by rewrite list_lookup_imap, Hpx.
    + apply list_elem_of_In, list_elem_of_lookup. exists channel. by rewrite list_lookup_imap, Hv.
Qed.

Lemma chunks_exact_lookup {A} n (l : list A) pixel channel v :
  (0 < n)%nat -> Nat.modulo (length l) n = 0%nat ->
  (exists px, chunks_exact n l !! pixel = Some px /\ px !! channel = Some v) <->
  (channel < n)%nat /\ l !! (pixel * n + channel)%nat = Some v.
Proof.
  intros Hn Hm. unfold chunks_exact. split.
  - intros (px & Hp & Hc). pose proof (lookup_lt_Some _ _ _ Hp) as Hlt. rewrite length_split_n in Hlt.
    rewrite split_n_lookup in Hp by done. injection Hp as <-.
    apply lookup_take_Some in Hc as [Hc ?]. by rewrite lookup_drop in Hc.
  - intros [Hc Hl]. pose proof (lookup_lt_Some _ _ _ Hl).
    pose proof (Nat.div_mod_eq (length l) n) as Hd. rewrite Hm in Hd.
    assert (pixel < length l / n)%nat by nia.
    eexists. split; [by apply split_n_lookup|].
    rewrite lookup_take_lt by done. by rewrite lookup_drop.
Qed.

Section Camera.
Context (t : Tensor) (data : list byte) (Hdense : dense t data).
Context (h w c : Z) (Hshape : shape t = [h; w; c]) (Htype : dtype t = Uint8).

Lemma camera_dims : 0 <= h /\ 0 <= w /\ 0 <= c /\ Z.of_nat (length data) = h * w * c.
Proof.
  pose proof (dense_fits t data Hdense) as [_ Hds _]. rewrite Hshape in Hds.
  pose proof (dense_length t data Hdense) as Hl. rewrite Hshape, Htype in Hl. cbn [volume] in Hl.
  destruct (dims3_ok _ _ _ Hds) as (? & ? & ?). split_and!; try done. cbn in Hl. lia.
Qed.

(** The frame's byte that ends up at place [d]. *)
Definition camera_byte (d : Z) : byte :=
  default Byte.x00 (data !! Z.to_nat (chw_source (h * w) c d)).

Lemma camera_writes_agree low high :
  foldlM (camera_write low high) (camera_writes (Z.max c 1) (h * w) data)
    (replicate (length data) f32_zero)
  = Some ((fun d => table_entry low high (camera_byte d)) <$> seqZ 0 (h * w * c)).
Proof.
  destruct camera_dims as (Hh & Hw & Hc & Hl). assert (0 <= h * w) as Hp by nia.
  destruct (Z.eq_dec c 0) as [E|Hc0].
  { assert (length data = 0%nat) as H0 by (subst; lia). destruct data; [|done].
    rewrite E. by replace (h * w * 0) with 0 by lia. }
  replace (Z.max c 1) with c by lia.
  rewrite (camera_writes_fill low high (fun d => table_entry low high (camera_byte d)));
    rewrite length_replicate; [by rewrite Hl|..].
  - apply Forall_forall. intros [d v]. rewrite elem_camera_writes.
    intros (pixel & channel & px & Hpx & Hv & ->).
    destruct (proj1 (chunks_exact_lookup (Z.to_nat c) data pixel channel v ltac:(lia)
                ltac:(apply Nat2Z.inj; rewrite Nat2Z.inj_mod, Hl, Z2Nat.id by lia; apply Z.mod_mul; lia)))
      as [Hch Hd]; [by eauto|].
    pose proof (lookup_lt_Some _ _ _ Hd) as Hlt.
    assert (Z.of_nat pixel < h * w) by nia.
    split; [nia|]. f_equal. unfold camera_byte.
    enough (Z.to_nat (chw_source (h * w) c (Z.of_nat channel * (h * w) + Z.of_nat pixel))
            = (pixel * Z.to_nat c + channel)%nat) as -> by (by rewrite Hd).
    unfold chw_source. rewrite (Z.add_comm (Z.of_nat channel * (h * w))).
    rewrite Z.mod_add, Z.div_add, Z.mod_small, Z.div_small by lia. lia.
  - intros d Hd. left. assert (0 < h * w) by nia.
    pose proof (chw_source_range (h * w) c d ltac:(lia) ltac:(lia) ltac:(lia)) as Hr.
    destruct (lookup_lt_is_Some_2 data (Z.to_nat (chw_source (h * w) c d))) as [v Hv]; [lia|].
    apply list_elem_of_fmap. exists (d, v). split; [done|]. apply elem_camera_writes.
    pose proof (Z.mod_pos_bound d (h * w) ltac:(lia)). pose proof (Z.div_pos d (h * w) ltac:(lia) ltac:(lia)).
    assert (d / (h * w) < c) by (apply Z.div_lt_upper_bound; lia).
    destruct (proj2 (chunks_exact_lookup (Z.to_nat c) data (Z.to_nat (d mod (h * w)))
                (Z.to_nat (d / (h * w))) v ltac:(lia)
                ltac:(apply Nat2Z.inj; rewrite Nat2Z.inj_mod, Hl, Z2Nat.id by lia; apply Z.mod_mul; lia)))
      as (px & Hpx & Hpv).
    { split; [lia|]. rewrite <- Hv. f_equal. unfold chw_source. nia. }
    exists (Z.to_nat (d mod (h * w))), (Z.to_nat (d / (h * w))), px. split_and!; try done.
    pose proof (Z.div_mod d (h * w) ltac:(lia)). lia.
Qed.
End Camera.

(** An element of a concatenation of elements. *)
Lemma element_concat size (ls : list (list byte)) k x :
  Forall (fun l => length l = Z.to_nat size) ls -> 0 <= size -> 0 <= k ->
  ls !! Z.to_nat k = Some x -> element size (concat ls) k = x.
Proof.
  intros Hl Hs Hk Hx. apply list_elem_of_split_length in Hx as (l1 & l2 & -> & Hn).
  apply Forall_app in Hl as [Hl1 [Hx _]%Forall_cons]. unfold element.
  pose proof (length_concat_uniform _ _ Hl1) as Hc. rewrite concat_app. cbn [concat].
  rewrite drop_app_length' by lia. by rewrite take_app_length' by lia.
Qed.

Lemma length_f32_bytes x : length (f32_le_bytes x) = 4%nat.
Proof. apply length_le_split. Qed.

(** Picking elements of encoded [f32]s. *)
Lemma picked_f32 (f : byte -> f32) data places :
  Forall (fun s => 0 <= s < Z.of_nat (length data)) places ->
  picked 4 (concat ((fun v => f32_le_bytes (f v)) <$> data)) places =
  concat (f32_le_bytes <$> ((fun s => f (default Byte.x00 (data !! Z.to_nat s))) <$> places)).
Proof.
  intros Hp. unfold picked. f_equal. rewrite <- list_fmap_compose.
  apply list_fmap_ext. intros i s Hs. pose proof (Forall_lookup_1 _ _ _ _ Hp Hs) as Hr. simpl in Hr.
  destruct (lookup_lt_is_Some_2 data (Z.to_nat s)) as [v Hv]; [lia|].
  apply element_concat; try lia.
  - apply Forall_fmap, Forall_forall. intros x _. apply length_f32_bytes.
  - unfold compose. by rewrite list_lookup_fmap, Hv.
Qed.

Section FastPath.
Context `{HalfOps} (t : Tensor) (data : list byte) (Hdense : dense t data).
Context (h w c : Z) (Hshape : shape t = [h; w; c]) (Htype : dtype t = Uint8).
Context (Hroom : fits (shape t) Float32).

(** The table path of [finalize_dtype]. *)
Lemma finalize_table low high :
  let flat := concat ((fun v => f32_le_bytes (table_entry (f32_of_f64 low) (f32_of_f64 high) v))
                        <$> data) in
  finalize_dtype t "float32" (Some (low, high))
    = Some (Ok (dense_tensor flat (shape t) Float32)) /\
  dense (dense_tensor flat (shape t) Float32) flat.
Proof.
  intros flat. destruct (from_vec_dense flat (shape t) Float32 Hroom) as [Hv Hd].
  { pose proof (dense_length t data Hdense) as Hl. rewrite Htype in Hl. cbn [dtype_size] in Hl.
    subst flat. rewrite (length_concat_uniform 4), length_fmap; [cbn [dtype_size]; lia|].
    apply Forall_fmap, Forall_forall. intros x _. apply length_f32_bytes. }
  split; [|done]. unfold finalize_dtype.
  replace (dtype_from_name "float32") with (Some Float32) by done. cbn [ok_or].
  rewrite !bool_decide_eq_true_2 by done. cbn [andb].
  rewrite (dense_bytes t data Hdense). 
  replace (data ≫= _) with flat; [by rewrite Hv|].
  subst flat. clear. induction data as [|v l IH]; [done|]. cbn. by rewrite IH.
Qed.

(** The fast path writes what the generic tail computes. *)
Lemma camera_chw_generic low high plan :
  ip_normalize plan = Some (low, high) -> ip_dtype plan = "float32" -> ip_dst_layout plan = Chw ->
  exists u mid, finalize_camera_chw t plan = Some (Some u) /\
    finalize_dtype t (ip_dtype plan) (ip_normalize plan) = Some (Ok mid) /\
    to_layout mid Hwc (ip_dst_layout plan) = Some (Ok u).
Proof.
  intros Hn Hd Hl. destruct (finalize_table low high) as [Ht Hdm].
  set (flat := concat _) in *. rewrite Hn, Hd, Hl. rewrite Ht.
  destruct (to_layout_chw _ flat Hdm h w c Hshape) as (Hto & Hlen & Hf).
  cbn [dense_tensor dtype dtype_size] in Hto, Hlen, Hf.
  eexists _, _. split; [|split; [done|exact Hto]].
  destruct (camera_dims t data Hdense h w c Hshape Htype) as (Hh & Hw & Hc & Hld).
  unfold finalize_camera_chw. rewrite Hn, Hd, Hl, Htype.
  cbn [bool_decide negb orb]. rewrite !bool_decide_eq_true_2 by done. cbn [negb orb String.eqb].
  rewrite (shape_usize_dense t data Hdense), Hshape.
  destruct (fits_plane h w c Float32) as [-> _]; [by rewrite <- Hshape|].
  rewrite (dense_bytes t data Hdense). unfold vec_of, with_capacity.
  destruct (fits_volume _ _ Hroom) as [_ Hv]. rewrite Hshape in Hv. cbn [volume dtype_size] in Hv.
  rewrite (proj2 (Z.leb_le _ _)) by lia. rewrite Nat2Z.id.
  rewrite (camera_writes_agree t data Hdense h w c Hshape Htype).
  unfold tensor_from_f32. rewrite shape_i64_ok by apply (fits_dims _ _ Hf).
  change (Z.of_nat 4) with 4 in *. subst flat.
  rewrite picked_f32 in Hlen |- *.
  2, 3: apply Forall_fmap, Forall_seqZ; intros k Hk; unfold compose;
      pose proof (chw_source_range (h * w) c k ltac:(nia) Hc ltac:(lia)); lia.
  do 2 rewrite <- list_fmap_compose in Hlen. rewrite <- list_fmap_compose.
  do 2 rewrite <- list_fmap_compose. replace (h * w * c) with (c * (h * w)) by lia.
  destruct (from_vec_dense _ _ _ Hf Hlen) as [E _]. unfold compose in E |- *.
  unfold camera_byte. by rewrite E.
Qed.
End FastPath.

(** C39: The camera fast path, where it applies, produces exactly the tensor the generic
    tail does, and neither panics; where it does not apply it hands the frame on. *)
Theorem camera_fast_path_generic `{HalfOps} (t : Tensor) (data : list byte) (plan : ImagePlan) :
  dense t data -> fits (shape t) Float32 ->
  exists r, finalize_camera_chw t plan = Some r /\
  match r with
  | None => ip_normalize plan = None \/ dtype t <> Uint8 \/ ip_dtype plan <> "float32" \/
      ip_dst_layout plan <> Chw \/ length (shape t) <> 3%nat
  | Some u => exists mid, finalize_dtype t (ip_dtype plan) (ip_normalize plan) = Some (Ok mid) /\
      to_layout mid Hwc (ip_dst_layout plan) = Some (Ok u)
  end.
Proof.
  intros Hd Hroom.
  destruct (ip_normalize plan) as [[low high]|] eqn:Hn.
  2: { exists None. unfold finalize_camera_chw. rewrite Hn. by auto. }
  destruct (decide (dtype t = Uint8)) as [Ht|Ht].
  2: { exists None. unfold finalize_camera_chw. rewrite Hn, bool_decide_eq_false_2 by done. auto. }
  destruct (decide (ip_dtype plan = "float32")) as [Hs|Hs].
  2: { exists None. unfold finalize_camera_chw. rewrite Hn, bool_decide_eq_true_2 by done.
       rewrite (proj2 (String.eqb_neq _ _)) by done. auto. }
  destruct (decide (ip_dst_layout plan = Chw)) as [Hl|Hl].
  2: { exists None. unfold finalize_camera_chw. rewrite Hn, bool_decide_eq_true_2 by done.
       rewrite Hs, (bool_decide_eq_false_2 (ip_dst_layout plan = Chw)) by done. auto 6. }
  destruct (shape t) as [|h [|w [|c [|]]]] eqn:Hsh.
  1, 2, 3, 5: exists None; unfold finalize_camera_chw;
    rewrite Hn, Hs, Hl, !bool_decide_eq_true_2, (shape_usize_dense t data Hd), Hsh by done;
    split; [done|]; do 4 right; simpl; lia.
  rewrite <- Hsh in Hroom.
  destruct (camera_chw_generic t data Hd h w c Hsh Ht Hroom low high plan Hn Hs Hl)
    as (u & mid & Hc & Hf & Hto). rewrite Hn in Hf.
  exists (Some u). eauto.
Qed.

(** ** The lookup table *)

Lemma u8_widen v : f32_of_f64 (to_f64 (SInt (byte.unsigned v)) Uint8) = f32_of_Z (byte.unsigned v).
Proof. by destruct v; vm_compute. Qed.

Lemma decode_u8 `{HalfOps} (data : list byte) :
  decode_scalars data Uint8 = Some (Ok ((fun v => SInt (byte.unsigned v)) <$> data)).
Proof.
  destruct (decode_scalars_total data Uint8) as (vs & -> & Hv); [done|by rewrite Nat.mod_1_r|].
  do 2 f_equal. cbn [dtype_size] in Hv.
  assert (chunks_exact 1 data = (fun v => [v]) <$> data) as E.
  { rewrite <- (chunks_exact_concat 1 ((fun v => [v]) <$> data)); [|lia|].
    - f_equal. clear Hv. induction data as [|v l IH]; [done|]. cbn. by rewrite <- IH.
    - by apply Forall_fmap, Forall_forall. }
  rewrite E in Hv. clear E. revert vs Hv; induction data as [|v l IH]; intros vs Hv.
  - by inversion Hv.
  - rewrite fmap_cons in Hv. apply Forall2_cons_inv_l in Hv as (s & vs' & Hs & Hv & ->).
    rewrite (IH _ Hv), fmap_cons. f_equal. cbn in Hs. injection Hs as <-. f_equal.
Qed.

(** The generic branch of [finalize_dtype]: scale in [f32], widen, encode. *)
Definition normalize_generic `{HalfOps} (t : Tensor) (target : DType) (low high : f64)
    : option (result Tensor ApplyError) :=
  let! values := to_f32_vec t in
  encode_f64_to
    ((fun value => f64_of_f32 (normalize_f32 (f32_of_f64 low) (f32_of_f64 high) value)) <$> values)
    (shape t) target.

Lemma encode_floats_f32 `{HalfOps} (xs : list f32) :
  Forall (fun x => f32_of_f64 (f64_of_f32 x) = x) xs ->
  encode_scalars (SFloat <$> (f64_of_f32 <$> xs)) Float32 = Some (Ok (concat (f32_le_bytes <$> xs))).
Proof.
  intros Hx. unfold encode_scalars. rewrite decide_False by done.
  enough (mapM (fun v => encode_one v Float32) (SFloat <$> (f64_of_f32 <$> xs))
          = Some (f32_le_bytes <$> xs)) as -> by done.
  apply mapM_Some. induction Hx as [|x xs Hx _ IH]; [constructor|].
  rewrite !fmap_cons. constructor; [|done].
  unfold encode_one, float_value. by rewrite Hx.
Qed.

(** The lookup table of an 8-bit frame gives the bytes of the generic branch: the
    tables hold what it computes, for every range, infinite and NaN ones included. *)
Theorem table_path_generic `{HalfOps} (t : Tensor) (data : list byte) (low high : f64) :
  dense t data -> dtype t = Uint8 -> fits (shape t) Float32 ->
  exists u, finalize_dtype t "float32" (Some (low, high)) = Some (Ok u) /\
    normalize_generic t Float32 low high = Some (Ok u) /\ shape u = shape t.
Proof.
  intros Hd Ht Hroom. destruct (finalize_table t data Hd Ht Hroom low high) as [Hf _].
  set (flat := concat _) in Hf. exists (dense_tensor flat (shape t) Float32). split; [done|].
  split; [|done]. unfold normalize_generic, to_f32_vec, decode_tensor.
  rewrite (dense_bytes t data Hd), Ht, decode_u8. cbn [expect].
  unfold encode_f64_to. cbn [integer_family].
  set (g := fun v => table_entry (f32_of_f64 low) (f32_of_f64 high) v).
  assert ((fun value => f64_of_f32 (normalize_f32 (f32_of_f64 low) (f32_of_f64 high) value)) <$>
            ((fun scalar => f32_of_f64 (to_f64 scalar Uint8)) <$>
               ((fun v => SInt (byte.unsigned v)) <$> data)) = f64_of_f32 <$> (g <$> data)) as ->.
  { rewrite <- !list_fmap_compose. apply list_fmap_ext. intros i v _. unfold compose, g, table_entry.
    by rewrite u8_widen. }
  rewrite encode_floats_f32; [|apply Forall_fmap, Forall_forall; intros v _; apply f32_add_widen_narrow].
  cbn [lift_err fmap option_fmap option_map map_err].
  replace (concat (f32_le_bytes <$> (g <$> data))) with flat
    by (subst flat; by rewrite <- list_fmap_compose).
  destruct (from_vec_dense flat (shape t) Float32 Hroom) as [-> _]; [|done].
  pose proof (dense_length t data Hd) as Hl. rewrite Ht in Hl. cbn [dtype_size] in Hl |- *.
  subst flat. rewrite (length_concat_uniform 4), length_fmap; [lia|].
  apply Forall_fmap, Forall_forall. intros x _. apply length_f32_bytes.
Qed.

(** ** The memo of filter weights *)

Section Memo.
Context `{Libm}.

Lemma weight_key_inj k r k' r' : weight_key k r = weight_key k' r' -> k = k' /\ r = r'.
Proof. destruct r as [? [] [] ?], r' as [? [] [] ?]. unfold weight_key. simpl. by intros [= -> -> -> -> ->]. Qed.

(** Every memoised entry holds the weights of its key. *)
Definition cache_ok (cache : WeightCache) : Prop :=
  Forall (fun '(key, weights) =>
    forall k r, weight_key k r = key -> filter_weights k (support k) r = Some weights) cache.

Lemma axis_weights_spec cache k r :
  cache_ok cache ->
  match axis_weights cache k r with
  | Some (cache', weights) => filter_weights k (support k) r = Some weights /\ cache_ok cache'
  | None => filter_weights k (support k) r = None
  end.
Proof.
  intros Hc. unfold axis_weights.
  destruct (List.find _ cache) as [[key weights]|] eqn:Hf.
  - apply List.find_some in Hf as [Hin Hk]. apply bool_decide_eq_true_1 in Hk as ->.
    split; [|done]. by apply (proj1 (Forall_forall _ _) Hc _ (proj2 (list_elem_of_In _ _) Hin)).
  - destruct (filter_weights k (support k) r) as [weights|] eqn:Hw; [|done]. split; [done|].
    apply Forall_cons. split; [|done]. by intros k' r' [-> ->]%weight_key_inj.
Qed.

Lemma resize_filter_memo_spec cache t row_roi col_roi k :
  cache_ok cache ->
  match resize_filter_memo cache t row_roi col_roi k with
  | Some (cache', r) => resize_filter t row_roi col_roi k = Some r /\ cache_ok cache'
  | None => resize_filter t row_roi col_roi k = None
  end.
Proof.
  intros Hc. unfold resize_filter_memo, resize_filter.
  destruct (image_dims t) as [[[h w] c]|]; [|done].
  destruct (u8_pixels t) as [[data|]|]; [|done..].
  pose proof (axis_weights_spec cache k col_roi Hc) as H1.
  destruct (axis_weights cache k col_roi) as [[cache1 cols]|]; [|by rewrite H1].
  destruct H1 as [-> Hc1]. pose proof (axis_weights_spec cache1 k row_roi Hc1) as H2.
  destruct (axis_weights cache1 k row_roi) as [[cache2 rows]|]; [|by rewrite H2].
  destruct H2 as [-> Hc2].
  destruct (filter_passes _ _ _ _ _ _ _ _) as [blended|]; [|done].
  by destruct (finish_pixels _ _).
Qed.

(** A thread's resizes, one after another. *)
Fixpoint resizes (cache : WeightCache) (jobs : list (Tensor * Roi * Roi * Kernel))
    : option (list (result Tensor ApplyError)) :=
  match jobs with
  | [] => Some []
  | (t, row_roi, col_roi, k) :: jobs =>
      let! (cache, r) := resize_filter_memo cache t row_roi col_roi k in
      let! rest := resizes cache jobs in
      Some (r :: rest)
  end.

Lemma resizes_spec jobs cache :
  cache_ok cache ->
  resizes cache jobs = mapM (fun '(t, row_roi, col_roi, k) => resize_filter t row_roi col_roi k) jobs.
Proof.
  revert cache; induction jobs as [|[[[t rr] cr] k] jobs IH]; intros cache Hc; [done|].
  cbn [resizes mapM]. pose proof (resize_filter_memo_spec cache t rr cr k Hc) as Hs.
  destruct (resize_filter_memo cache t rr cr k) as [[cache' r]|]; [|by rewrite Hs].
  destruct Hs as [-> Hc']. rewrite (IH _ Hc').
  cbn [mbind option_bind]. by destruct (mapM _ jobs).
Qed.
End Memo.

(** However many frames a thread resizes, of whatever sizes, spans and kernels, the
    memo of filter weights never changes a result. *)
Theorem weight_memo_transparent `{Libm} (jobs : list (Tensor * Roi * Roi * Kernel)) :
  resizes [] jobs = mapM (fun '(t, row_roi, col_roi, k) => resize_filter t row_roi col_roi k) jobs.
Proof. apply resizes_spec. constructor. Qed.

(** ** Shapes and dtypes *)

(** Destruct the scrutinee a successful computation starts with. *)
Ltac peel H :=
  match type of H with
  | match ?c with _ => _ end = _ => destruct c eqn:?; try discriminate H
  end.

Lemma from_storage_shape st d ds ss off t :
  from_storage st d ds ss off = Some (Ok t) -> shape t = ds /\ dtype t = d.
Proof.
  unfold from_storage. intros H. repeat peel H; by injection H as <-.
Qed.

Lemma from_vec_shape data ds d t :
  tensor_from_vec data ds d = Some (Ok t) -> shape t = ds /\ dtype t = d.
Proof. unfold tensor_from_vec. intros H. do 2 peel H. by eapply from_storage_shape. Qed.

Lemma expect_Some {A E} (r : option (result A E)) a : expect r = Some a <-> r = Some (Ok a).
Proof. destruct r as [[]|]; cbn; naive_solver. Qed.

Lemma lift_err_Ok {A E F} (f : E -> F) (r : option (result A E)) a :
  lift_err f r = Some (Ok a) <-> r = Some (Ok a).
Proof. destruct r as [[]|]; cbn; naive_solver. Qed.

Lemma from_u8_shape ds data t :
  tensor_from_u8 ds data = Some t -> shape t = ds /\ dtype t = Uint8.
Proof. unfold tensor_from_u8. rewrite expect_Some. apply from_vec_shape. Qed.

Lemma gather_shape t indices ds u :
  gather t indices ds = Some u -> shape u = ds /\ dtype u = dtype t.
Proof. unfold gather. intros H. do 2 peel H. rewrite expect_Some in H. by eapply from_vec_shape. Qed.

Lemma reshape_shape addr t dims u :
  reshape addr t dims = Some (Ok u) -> Forall (fun d => d <> -1) dims ->
  shape u = dims /\ dtype u = dtype t.
Proof.
  unfold reshape, resolve_reshape_dims. intros H Hd.
  assert (length (filter (fun dim => dim = -1) dims) = 0%nat) as Hz.
  { destruct (filter _ dims) as [|d l] eqn:E; [done|].
    assert (d ∈ filter (fun dim => dim = -1) dims) as Hin by (rewrite E; left).
    apply list_elem_of_filter in Hin as [-> Hin]. by apply (proj1 (Forall_forall _ _) Hd) in Hin. }
  rewrite Hz in H. cbn in H. repeat peel H; by eapply from_storage_shape.
Qed.

(** [t] is an 8-bit frame of the given dimensions. *)
Record frame (t : Tensor) (h w c : Z) : Prop := {
  frame_shape : shape t = [h; w; c];
  frame_dims : dims_ok [h; w; c];
  frame_dtype : dtype t = Uint8;
}.

Lemma frame_image_dims t h w c : frame t h w c -> image_dims t = Ok (h, w, c).
Proof.
  intros [Hs Hd _]. unfold image_dims, shape_usize. rewrite Hs. cbn.
  destruct (dims3_ok _ _ _ Hd) as (? & ? & ?). rewrite !Z.max_r by done. done.
Qed.

Definition u32 (z : Z) : Prop := 0 <= z < 2 ^ 32.

(** A tensor with the dimensions computed for it. *)
Lemma u8_frame h w c data t :
  dims_ok [h; w; c] -> tensor_from_u8 (shape_i64 [h; w; c]) data = Some t -> frame t h w c.
Proof. intros Hd [Hs Ht]%from_u8_shape. rewrite shape_i64_ok in Hs by done. by split. Qed.

Lemma dims_u32 h w a b c : u32 h -> u32 w -> dims_ok [a; b; c] -> dims_ok [h; w; c].
Proof. unfold u32. rewrite !dims_ok_cons. unfold_ints. naive_solver lia. Qed.

Lemma flip_frame t u h w c : frame t h w c -> flip_180 t = Some (Ok u) -> frame u h w c.
Proof.
  intros Hf. unfold flip_180. rewrite (frame_image_dims _ _ _ _ Hf). intros H. do 3 peel H.
  rewrite lift_err_Ok in H. apply from_vec_shape in H as [Hs Ht]. destruct Hf. split; congruence.
Qed.

Lemma swap_frame t u h w c : frame t h w c -> swap_rb t = Some (Ok u) -> frame u h w c.
Proof.
  intros Hf. unfold swap_rb. rewrite (frame_image_dims _ _ _ _ Hf). intros H. do 4 peel H.
  injection H as <-. match goal with G : gather _ _ _ = _ |- _ => apply gather_shape in G as [Hs Ht] end.
  destruct Hf. split; congruence.
Qed.

Lemma crop_frame t u h w c h' w' :
  frame t h w c -> dims_ok [h'; w'; c] -> crop_center t h' w' = Some (Ok u) -> frame u h' w' c.
Proof.
  intros Hf Hd. unfold crop_center. rewrite (frame_image_dims _ _ _ _ Hf). intros H. do 6 peel H.
  injection H as <-. match goal with G : gather _ _ _ = _ |- _ => apply gather_shape in G as [Hs Ht] end.
  rewrite shape_i64_ok in Hs by done. destruct Hf. split; congruence.
Qed.

Lemma pad_frame t u h w c h' w' :
  frame t h w c -> dims_ok [h'; w'; c] -> pad_center t h' w' = Some (Ok u) -> frame u h' w' c.
Proof.
  intros Hf Hd. unfold pad_center. rewrite (frame_image_dims _ _ _ _ Hf). intros H.
  destruct (_ && _) eqn:E; [injection H as <-|].
  - apply andb_true_iff in E as [->%Z.eqb_eq ->%Z.eqb_eq]. done.
  - repeat peel H. injection H as <-. by eapply u8_frame.
Qed.

(** An 8-bit image of any rank. *)
Definition u8_image (t : Tensor) : Prop := dtype t = Uint8 /\ dims_ok (shape t).

Lemma u8_image_frame t h w c : u8_image t -> image_dims t = Ok (h, w, c) -> frame t h w c.
Proof.
  intros [Ht Hd] Hi. unfold image_dims, shape_usize in Hi.
  destruct (shape t) as [|a [|b [|d [|]]]] eqn:Hs; try discriminate Hi.
  destruct (dims3_ok _ _ _ Hd) as (? & ? & ?). cbn in Hi. rewrite !Z.max_r in Hi by done.
  injection Hi as -> -> ->. split; congruence.
Qed.

Lemma frame_u8_image t h w c : frame t h w c -> u8_image t.
Proof. intros [Hs Hd Ht]. split; congruence. Qed.

Lemma bilinear_frame t u h w c rr cr :
  frame t h w c -> u32 (roi_dst rr) -> u32 (roi_dst cr) ->
  resize_bilinear t rr cr = Some (Ok u) -> frame u (roi_dst rr) (roi_dst cr) c.
Proof.
  intros Hf Hr Hc. unfold resize_bilinear. rewrite (frame_image_dims _ _ _ _ Hf). intros H.
  repeat peel H. injection H as <-.
  match goal with G : finish_pixels _ _ = _ |- _ => unfold finish_pixels in G; peel G end.
  eapply u8_frame; [|done]. eapply dims_u32, (frame_dims _ _ _ _ Hf); done.
Qed.

Section Shapes.
Context `{HalfOps} `{ImageCodec} `{!ImageCodecLaws H0} `{Libm} (addr : Z).

Lemma filter_frame t u h w c rr cr k :
  frame t h w c -> u32 (roi_dst rr) -> u32 (roi_dst cr) ->
  resize_filter t rr cr k = Some (Ok u) -> frame u (roi_dst rr) (roi_dst cr) c.
Proof.
  intros Hf Hr Hc. unfold resize_filter. rewrite (frame_image_dims _ _ _ _ Hf). intros H2.
  repeat peel H2. injection H2 as <-.
  match goal with G : finish_pixels _ _ = _ |- _ => unfold finish_pixels in G; peel G end.
  eapply u8_frame; [|done]. eapply dims_u32, (frame_dims _ _ _ _ Hf); done.
Qed.

Lemma zoom_roi_dst src dst zoom : roi_dst (zoom_roi src dst zoom) = dst /\ roi_src (zoom_roi src dst zoom) = src.
Proof. by destruct zoom. Qed.

Lemma resize_frame t u h w c h' w' zoom resample :
  frame t h w c -> u32 h' -> u32 w' ->
  resize_roi t h' w' zoom resample = Some (Ok u) -> frame u h' w' c.
Proof.
  intros Hf Hh Hw. unfold resize_roi. rewrite (frame_image_dims _ _ _ _ Hf). intros H2. peel H2.
  destruct (zoom_roi_dst h h' zoom) as [Er Es], (zoom_roi_dst w w' zoom) as [Er' Es'].
  destruct (roi_is_identity _ && _) eqn:E.
  - injection H2 as <-. unfold roi_is_identity in E.
    rewrite !andb_true_iff, !Z.eqb_eq in E. rewrite Er, Er', Es, Es' in E. naive_solver.
  - rewrite <- Er, <- Er'. rewrite <- Er in Hh. rewrite <- Er' in Hw.
    repeat peel H2; first [by eapply bilinear_frame | by eapply filter_frame].
Qed.

Lemma wrap_u32 z : u32 (wrap_u 32 z).
Proof. unfold u32. apply wrap_u_range. lia. Qed.

Lemma fit_frame t u h w c h' w' resample fit zoom :
  frame t h w c -> u32 h' -> u32 w' ->
  fit_resize t h' w' resample fit zoom = Some (Ok u) -> frame u h' w' c.
Proof.
  intros Hf Hh Hw. unfold fit_resize. rewrite (frame_image_dims _ _ _ _ Hf). intros H2.
  pose proof (dims_u32 _ _ _ _ _ Hh Hw (frame_dims _ _ _ _ Hf)) as Hd.
  destruct fit.
  - by eapply resize_frame.
  - peel H2. match goal with r : result _ _ |- _ => destruct r as [scaled|]; [|done] end.
    eapply crop_frame, H2; [|done]. eapply resize_frame; [exact Hf| | |done]; apply wrap_u32.
  - do 3 peel H2. match goal with r : result _ _ |- _ => destruct r as [scaled|]; [|done] end.
    eapply pad_frame, H2; [|done]. eapply resize_frame; [exact Hf| | |done]; apply wrap_u32.
Qed.

Lemma jpeg_frame t u h w c q :
  frame t h w c -> jpeg_roundtrip t q = Some (Ok u) -> frame u h w c.
Proof.
  intros Hf. unfold jpeg_roundtrip. intros H2. repeat peel H2. injection H2 as <-.
  match goal with G : tensor_from_u8 _ _ = _ |- _ => apply from_u8_shape in G as [Hs Ht] end.
  destruct Hf. split; congruence.
Qed.

Lemma decode_u8_image v range t :
  (forall s, v = ValTensor s -> dims_ok (shape s)) ->
  decode_image v range = Some (Ok t) -> u8_image t.
Proof.
  intros Hv. unfold decode_image. intros H2.
  destruct (match v with ValTensor _ => _ | _ => _ end) as [[s|]|] eqn:E; try discriminate H2.
  assert (dims_ok (shape s)) as Hd.
  { destruct v; try discriminate E; [injection E as <-; by apply Hv|].
    destruct (load_from_memory bs) as [d|] eqn:Hl; [|discriminate E].
    destruct (decoded_tensor d) as [u|] eqn:Hu; [|discriminate E]. injection E as <-.
    pose proof (img_dims _ (load_wf _ _ Hl)) as [Hw Hh]. unfold decoded_tensor in Hu.
    assert (dims_ok [img_height d; img_width d; 1] /\ dims_ok [img_height d; img_width d; 2] /\
            dims_ok [img_height d; img_width d; 3] /\ dims_ok [img_height d; img_width d; 4])
      as (? & ? & ? & ?) by (rewrite !dims_ok_cons; split_and!; try (unfold_ints; lia); constructor).
    repeat case_match; simplify_eq; apply from_u8_shape in Hu as [-> _]; done. }
  destruct (decide (dtype s = Uint8)) as [Ht|Ht].
  - rewrite bool_decide_eq_true_2 in H2 by done. do 2 peel H2; [by injection H2 as <-|].
    repeat peel H2. injection H2 as <-.
    match goal with G : tensor_from_u8 _ _ = _ |- _ => apply from_u8_shape in G as [Hs Ht'] end.
    split; congruence.
  - rewrite bool_decide_eq_false_2 in H2 by done. repeat peel H2. injection H2 as <-.
    match goal with G : tensor_from_u8 _ _ = _ |- _ => apply from_u8_shape in G as [Hs Ht'] end.
    split; congruence.
Qed.
End Shapes.

(** The axes of a frame in a layout. *)
Definition layout_dims (l : ImageLayout) (h w c : Z) : list Z :=
  match l with Hwc => [h; w; c] | Chw => [c; h; w] end.

Lemma dims_ok_layout l h w c : dims_ok (layout_dims l h w c) <-> dims_ok [h; w; c].
Proof. destruct l; cbn [layout_dims]; [done|]. rewrite !dims_ok_cons. tauto. Qed.

Lemma image_dims_shape t a b c :
  dims_ok (shape t) -> image_dims t = Ok (a, b, c) -> shape t = [a; b; c].
Proof.
  intros Hd Hi. unfold image_dims, shape_usize in Hi.
  destruct (shape t) as [|x [|y [|z [|]]]]; try discriminate Hi.
  destruct (dims3_ok _ _ _ Hd) as (? & ? & ?). cbn in Hi. rewrite !Z.max_r in Hi by done.
  by injection Hi as -> -> ->.
Qed.

(** From the frame layout to a model layout. *)
Lemma to_layout_from_hwc t u h w c target :
  shape t = [h; w; c] -> dims_ok [h; w; c] -> to_layout t Hwc target = Some (Ok u) ->
  shape u = layout_dims target h w c /\ dtype u = dtype t.
Proof.
  intros Hs Hd. unfold to_layout. destruct (decide (Hwc = target)) as [<-|Hne].
  { intros [= <-]. done. }
  destruct target; [done|]. intros H. peel H.
  destruct (image_dims t) as [[[a b] d]|] eqn:Hi; [|done].
  apply image_dims_shape in Hi; [|by rewrite Hs]. rewrite Hs in Hi. injection Hi as <- <- <-.
  destruct (checked_usize (h * w)); [|done]. destruct (foldlM _ _ _); [|done].
  rewrite lift_err_Ok in H. apply from_vec_shape in H as [Hu ->]. split; [|done].
  rewrite Hu. apply (shape_i64_ok (layout_dims Chw h w c)). by apply dims_ok_layout.
Qed.

(** From an env layout to the frame layout. *)
Lemma to_layout_u8_image t u source :
  u8_image t -> to_layout t source Hwc = Some (Ok u) -> u8_image u.
Proof.
  intros [Ht Hd]. unfold to_layout. destruct (decide (source = Hwc)) as [->|Hne].
  { by intros [= <-]. }
  intros H. peel H. destruct (image_dims t) as [[[a b] d]|] eqn:Hi; [|done].
  apply image_dims_shape in Hi; [|done].
  destruct (checked_usize (b * d)); [|done]. destruct (foldlM _ _ _); [|done].
  rewrite lift_err_Ok in H. apply from_vec_shape in H as [Hu Hut]. rewrite Hi in Hd.
  assert (dims_ok [b; d; a]) as Hd' by (rewrite !dims_ok_cons in *; tauto).
  rewrite (shape_i64_ok _ Hd') in Hu. split; congruence.
Qed.

Section Finalized.
Context `{HalfOps} (addr : Z).

Lemma encode_shape values ds d u :
  encode_f64_to values ds d = Some (Ok u) -> shape u = ds /\ dtype u = d.
Proof.
  unfold encode_f64_to. intros H1. destruct (if integer_family d then _ else _); [|done].
  destruct (lift_err _ _) as [[]|]; try done. rewrite lift_err_Ok in H1. by apply from_vec_shape in H1.
Qed.

Lemma finalize_dtype_shape t name norm u :
  finalize_dtype t name norm = Some (Ok u) ->
  shape u = shape t /\ dtype_from_name name = Some (dtype u).
Proof.
  unfold finalize_dtype. destruct (dtype_from_name name) as [d|]; cbn [ok_or]; [|done].
  intros H1. destruct norm as [[low high]|].
  - destruct (_ && _).
    + peel H1. rewrite lift_err_Ok in H1. by apply from_vec_shape in H1 as [-> ->].
    + peel H1. by apply encode_shape in H1 as [-> ->].
  - unfold cast in H1. case_bool_decide as E; [by injection H1 as <-; rewrite E|].
    peel H1. by apply encode_shape in H1 as [-> ->].
Qed.

Lemma camera_shape t plan u :
  dims_ok (shape t) -> finalize_camera_chw t plan = Some (Some u) ->
  dtype_from_name (ip_dtype plan) = Some (dtype u) /\ ip_dst_layout plan = Chw /\
  exists h w c, shape t = [h; w; c] /\ shape u = [c; h; w].
Proof.
  intros Hd. unfold finalize_camera_chw. destruct (ip_normalize plan) as [[low high]|]; [|done].
  destruct (_ || _) eqn:E; [done|]. rewrite !orb_false_iff, !negb_false_iff in E.
  destruct E as [[_ ->%String.eqb_eq] ->%bool_decide_eq_true_1].
  destruct (shape_usize t) as [|h [|w [|c [|]]]] eqn:Hs; try done. intros H1. repeat peel H1.
  injection H1 as <-.
  match goal with G : tensor_from_f32 _ _ = _ |- _ =>
    unfold tensor_from_f32 in G; rewrite expect_Some in G; apply from_vec_shape in G as [Hu ->] end.
  split; [done|]. split; [done|]. exists h, w, c.
  assert (shape t = [h; w; c]) as Ht by (apply (image_dims_shape t h w c Hd); unfold image_dims; by rewrite Hs).
  split; [done|]. rewrite Hu. apply shape_i64_ok. rewrite Ht in Hd.
  by apply (dims_ok_layout Chw) in Hd.
Qed.

Lemma lead_shape t n u :
  dims_ok (shape t) -> add_lead_dims addr t n = Some u ->
  shape u = replicate n 1 ++ shape t /\ dtype u = dtype t.
Proof.
  intros Hd. destruct n as [|n]; [by intros [= <-]|]. cbn [add_lead_dims].
  rewrite expect_Some. intros H1. eapply reshape_shape; [exact H1|].
  apply Forall_app. split; [by apply Forall_replicate|].
  eapply Forall_impl; [exact Hd|]. cbn. lia.
Qed.

(** The tail both image paths end with. *)
Lemma finalize_frame t plan v h w c :
  frame t h w c -> finalize_image addr t plan = Some (Ok v) ->
  exists u, v = ValTensor u /\ dtype_from_name (ip_dtype plan) = Some (dtype u) /\
    shape u = replicate (ip_lead_dims plan) 1 ++ layout_dims (ip_dst_layout plan) h w c.
Proof.
  intros Hf. unfold finalize_image. intros H1.
  destruct (if ip_swap_rb plan then _ else _) as [[s|]|] eqn:Hs; try done.
  assert (frame s h w c) as [Hss Hsd Hst].
  { destruct (ip_swap_rb plan); [by eapply swap_frame|by injection Hs as <-]. }
  assert (dims_ok (layout_dims (ip_dst_layout plan) h w c)) as Hl by (by apply dims_ok_layout).
  destruct (finalize_camera_chw s plan) as [[u|]|] eqn:Hc; [| |done].
  - destruct (camera_shape s plan u) as (Hdt & Hlay & a & b & d & Hsh & Hu);
      [by rewrite Hss|done|]. rewrite Hss in Hsh. injection Hsh as <- <- <-.
    rewrite Hlay in Hl |- *. peel H1. injection H1 as <-.
    match goal with G : add_lead_dims _ _ _ = _ |- _ => apply lead_shape in G as [Hw Ht]; [|by rewrite Hu] end.
    eexists. split; [done|]. rewrite Hw, Ht, Hu. done.
  - destruct (finalize_dtype s _ _) as [[u|]|] eqn:Hd; try done.
    apply finalize_dtype_shape in Hd as [Hus Hud]. rewrite Hss in Hus.
    destruct (to_layout u Hwc _) as [[u'|]|] eqn:Hto; try done.
    apply (to_layout_from_hwc u u' h w c _ Hus Hsd) in Hto as [Hus' Hut'].
    peel H1. injection H1 as <-.
    match goal with G : add_lead_dims _ _ _ = _ |- _ => apply lead_shape in G as [Hw Ht]; [|by rewrite Hus'] end.
    eexists. split; [done|]. rewrite Hw, Ht, Hus', Hut'. done.
Qed.
End Finalized.

(** The size a plan asks for: of the frame it synthesises, else of its resize. *)
Definition plan_size (plan : ImagePlan) : option (Z * Z) :=
  match ip_zero_fill plan with
  | Some (h, w, _) => Some (h, w)
  | None => ip_size plan
  end.

(** The fields of a plan are [u32]s. *)
Definition plan_u32 (plan : ImagePlan) : Prop :=
  (forall h w c, ip_zero_fill plan = Some (h, w, c) -> u32 h /\ u32 w /\ u32 c) /\
  (forall h w, ip_size plan = Some (h, w) -> u32 h /\ u32 w).

Section ApplyShape.
Context `{HalfOps} `{ImageCodec} `{!ImageCodecLaws H0} `{Libm} (addr : Z).

Lemma zero_fill_shape plan h w c v :
  u32 h -> u32 w -> u32 c -> apply_zero_fill_image addr plan h w c = Some (Ok v) ->
  exists u, v = ValTensor u /\ dtype_from_name (ip_dtype plan) = Some (dtype u) /\
    shape u = replicate (ip_lead_dims plan) 1 ++ layout_dims (ip_dst_layout plan) h w c.
Proof.
  unfold u32, apply_zero_fill_image. intros Hh Hw Hc H2. do 4 peel H2.
  eapply finalize_frame, H2. eapply u8_frame; [|done].
  rewrite !dims_ok_cons. unfold_ints. split_and!; try lia. constructor.
Qed.

(** The steps before the resize keep an 8-bit image. *)
Lemma prepared_u8 plan t0 t1 t2 t3 source :
  (forall s, source = ValTensor s -> dims_ok (shape s)) ->
  decode_image source (ip_src_range plan) = Some (Ok t0) ->
  to_layout t0 (ip_src_layout plan) Hwc = Some (Ok t1) ->
  when (ip_flip plan) flip_180 t1 = Some (Ok t2) ->
  match ip_jpeg_quality plan with
  | Some quality => jpeg_roundtrip t2 quality
  | None => Some (Ok t2)
  end = Some (Ok t3) -> u8_image t3.
Proof.
  intros Hs Hd Hl Hf Hj.
  pose proof (to_layout_u8_image _ _ _ (decode_u8_image _ _ _ Hs Hd) Hl) as Hu1.
  assert (u8_image t2) as Hu2.
  { unfold when in Hf. destruct (ip_flip plan); [|by injection Hf as <-].
    destruct (image_dims t1) as [[[a b] c]|] eqn:Hi; [|unfold flip_180 in Hf; by rewrite Hi in Hf].
    eapply frame_u8_image, flip_frame; [by apply u8_image_frame|done]. }
  destruct (ip_jpeg_quality plan) as [q|]; [|by injection Hj as <-].
  destruct (image_dims t2) as [[[a b] c]|] eqn:Hi.
  - eapply frame_u8_image, jpeg_frame; [by apply u8_image_frame|done].
  - unfold jpeg_roundtrip, jpeg_encode in Hj. by rewrite Hi in Hj.
Qed.

Lemma crop_cut_range src fraction n : crop_cut src fraction = Some n -> 1 <= n <= Z.max src 1.
Proof.
  unfold crop_cut, int_clamp. destruct (Z.leb_spec 1 (Z.max src 1)); [|done]. intros [= <-]. lia.
Qed.

Lemma cropped_u8 crop t h w c ch cw u :
  u8_image t -> image_dims t = Ok (h, w, c) ->
  crop_cut h (crop_fraction crop) = Some ch -> crop_cut w (crop_fraction crop) = Some cw ->
  crop_center t ch cw = Some (Ok u) -> u8_image u.
Proof.
  intros Ht Hi Hh Hw Hc. pose proof (u8_image_frame _ _ _ _ Ht Hi) as Hf.
  apply crop_cut_range in Hh, Hw. eapply frame_u8_image, crop_frame; [exact Hf| |done].
  pose proof (frame_dims _ _ _ _ Hf) as Hd. rewrite !dims_ok_cons in *. unfold_ints. naive_solver lia.
Qed.
End ApplyShape.

(** C38: Every image that is produced is a tensor of the plan's dtype, of the size the
    plan asks for in the plan's layout, behind its leading unit axes: whatever the
    env's frame is, encoded or an array, and whichever steps the plan takes. *)
Theorem apply_image_typed `{HalfOps} `{C : ImageCodec} `{!ImageCodecLaws C} `{Libm} (addr : Z)
    (plan : ImagePlan) (raw_obs : btree Value) (h w : Z) (v : Value) :
  plan_u32 plan -> plan_size plan = Some (h, w) ->
  (forall s, obs_node raw_obs (ip_source plan) = Some (ValTensor s) -> dims_ok (shape s)) ->
  apply_image addr plan raw_obs = Some (Ok v) ->
  exists u c, v = ValTensor u /\ dtype_from_name (ip_dtype plan) = Some (dtype u) /\
    shape u = replicate (ip_lead_dims plan) 1 ++ layout_dims (ip_dst_layout plan) h w c.
Proof.
  intros [Hz Hsz] Hps Hobs. unfold apply_image, plan_size in *.
  destruct (ip_zero_fill plan) as [[[h0 w0] c0]|].
  { injection Hps as -> ->. destruct (Hz _ _ _ eq_refl) as (? & ? & ?).
    intros Hr. destruct (zero_fill_shape addr plan h w c0 v) as (u & ?); eauto. }
  destruct (Hsz _ _ Hps) as [Hh Hw]. rewrite Hps.
  destruct (resolve_in_obs raw_obs (ip_source plan)) as [source|] eqn:Hres; [|done].
  destruct (decode_image source _) as [[t0|]|] eqn:Hd; try done.
  destruct (to_layout t0 _ _) as [[t1|]|] eqn:Hl; try done.
  destruct (when _ _ t1) as [[t2|]|] eqn:Hf; try done.
  destruct (match ip_jpeg_quality plan with Some _ => _ | None => _ end) as [[t3|]|] eqn:Hj; try done.
  assert (u8_image t3) as H3.
  { eapply (prepared_u8 plan); try done. intros s ->. apply Hobs. by apply resolve_in_obs_Ok. }
  intros Hrest.
  destruct (match ip_crop plan with Some _ => _ | None => _ end) as [[[t4 zoom]|]|] eqn:Hcr; try done.
  assert (u8_image t4) as H4.
  { destruct (ip_crop plan) as [crop|]; [|by injection Hcr as <- _].
    destruct (crop_slice crop); [|by injection Hcr as <- _].
    destruct (image_dims t3) as [[[a b] c]|] eqn:Hi; [|done].
    destruct (crop_cut a _) as [ch|] eqn:Hch; [|done]. destruct (crop_cut b _) as [cw|] eqn:Hcw; [|done].
    destruct (crop_center t3 ch cw) as [[t5|]|] eqn:Hc; try done. injection Hcr as <- _.
    by eapply (cropped_u8 crop). }
  destruct (fit_resize t4 h w _ _ zoom) as [[t5|]|] eqn:Hfit; try done.
  destruct (image_dims t4) as [[[a b] c]|] eqn:Hi; [|unfold fit_resize in Hfit; by rewrite Hi in Hfit].
  pose proof (fit_frame _ _ _ _ _ _ _ _ _ _ (u8_image_frame _ _ _ _ H4 Hi) Hh Hw Hfit) as Hfr.
  destruct (finalize_frame addr t5 plan v _ _ _ Hfr Hrest) as (u & ?). by exists u, c.
Qed.

(** ** Witnesses *)

(** A library that decodes nothing. *)
Definition no_codec : ImageCodec :=
  {| load_from_memory _ := Err "unsupported"; load_jpeg _ := Err "unsupported";
     encode_jpeg _ _ _ _ := Err "unsupported" |}.

#[export] Instance no_codec_laws : ImageCodecLaws no_codec.
Proof. split; done. Qed.

(** A frame of two rows of two pixels. *)
Definition sample_bytes : list byte := byte.of_Z <$> [0; 10; 20; 30; 40; 50; 60; 70; 80; 90; 100; 255].
Definition sample_frame : Tensor := dense_tensor sample_bytes [2; 2; 3] Uint8.

Lemma sample_dense : dense sample_frame sample_bytes.
Proof.
  apply from_vec_dense; [|done]. split; [done| |by vm_compute].
  repeat constructor; by vm_compute.
Qed.

Lemma sample_fits : fits (shape sample_frame) Float32.
Proof. split; [done| |by vm_compute]. repeat constructor; by vm_compute. Qed.

(** Resized to one row of two pixels, normalised, channels first. *)
Definition sample_plan : ImagePlan := {|
  ip_placement := [PKey "rgb"]; ip_source := [PKey "cam"];
  ip_src_layout := Hwc; ip_dst_layout := Chw; ip_flip := true; ip_size := Some (1, 2);
  ip_fit := FitStretch; ip_resample := "bilinear"; ip_dtype := "float32";
  ip_normalize := Some (f64_of_Z (-1), f64_of_Z 1); ip_lead_dims := 1; ip_src_range := None;
  ip_stack := 1; ip_zero_fill := None; ip_fill := byte.of_Z 0; ip_jpeg_quality := None;
  ip_crop := None; ip_swap_rb := true; ip_render := None; ip_offsets := None;
  ip_stack_pad := PadFirst; ip_frame_bytes := 24; ip_role_rebound := None; ip_part := None |}.

Lemma layout_roundtrip_witness :
  exists u, to_layout sample_frame Hwc Chw = Some (Ok u) /\ shape u = [3; 2; 2].
Proof.
  destruct (layout_roundtrip sample_frame sample_bytes 2 2 3 sample_dense eq_refl)
    as (u & Hu & Hs & _).
  by exists u.
Defined.

Lemma camera_fast_path_generic_witness :
  exists u mid, finalize_camera_chw sample_frame sample_plan = Some (Some u) /\
    finalize_dtype sample_frame "float32" (Some (f64_of_Z (-1), f64_of_Z 1)) = Some (Ok mid) /\
    to_layout mid Hwc Chw = Some (Ok u).
Proof.
  destruct (camera_fast_path_generic sample_frame sample_bytes sample_plan sample_dense sample_fits)
    as ([u|] & Hr & Hu).
  - destruct Hu as (mid & Hm & Hl). by exists u, mid.
  - exfalso. destruct Hu as [Hn|[Hn|[Hn|[Hn|Hn]]]]; by apply Hn || discriminate Hn.
Defined.

Lemma table_path_generic_witness :
  exists u, finalize_dtype sample_frame "float32" (Some (f64_of_Z 0, f64_of_Z 1)) = Some (Ok u) /\
    normalize_generic sample_frame Float32 (f64_of_Z 0) (f64_of_Z 1) = Some (Ok u) /\
    shape u = [2; 2; 3].
Proof.
  exact (table_path_generic sample_frame sample_bytes (f64_of_Z 0) (f64_of_Z 1)
           sample_dense eq_refl sample_fits).
Defined.

Definition sample_obs : btree Value := [("cam", ValTensor sample_frame)].

Lemma sample_plan_u32 : plan_u32 sample_plan.
Proof. split; [done|]. intros h w [= <- <-]. split; by vm_compute. Qed.

Lemma sample_applies :
  exists v, @apply_image ieee_half no_codec no_libm 0 sample_plan sample_obs = Some (Ok v).
Proof.
  destruct (@apply_image ieee_half no_codec no_libm 0 sample_plan sample_obs) as [[v|e]|] eqn:E;
    [by exists v|exfalso..]; revert E; vm_compute; discriminate.
Qed.

Lemma apply_image_typed_witness :
  exists v, @apply_image ieee_half no_codec no_libm 0 sample_plan sample_obs = Some (Ok v) /\
  exists u c, v = ValTensor u /\ dtype_from_name (ip_dtype sample_plan) = Some (dtype u) /\
    shape u = replicate (ip_lead_dims sample_plan) 1 ++ layout_dims (ip_dst_layout sample_plan) 1 2 c.
Proof.
  destruct sample_applies as [v Hv]. exists v. split; [exact Hv|].
  apply (@apply_image_typed ieee_half no_codec no_codec_laws no_libm 0 sample_plan sample_obs 1 2 v).
  - exact sample_plan_u32.
  - reflexivity.
  - intros s Hs. injection Hs as <-. exact (fits_dims _ _ sample_fits).
  - exact Hv.
Defined.
