(* ===== verification/AdapterApply.v ===== *)
(** * Applying plans

    [src/crates/rlmesh-adapters/src/apply.rs] and [apply/{state,action,text,obs}.rs]:
    a model's state, text and image inputs from a raw observation, scattered into the
    payload tree, and the env's action vector from a model's output. *)

From S2P Require Import Prelude BTree Float FloatOps DType Scalar Tensor AdapterValue AdapterGeometry AdapterPlans AdapterImage.
#[local] Open Scope Z_scope.

(** [entry.clamp(low, high)] on every entry. *)
Definition clamp_all (bounds : option (f64 * f64)) (values : list f32) : option (list f32) :=
  match bounds with
  | Some (low, high) =>
      mapM (fun entry => f32_clamp entry (f32_of_f64 low) (f32_of_f64 high)) values
  | None => Some values
  end.

(** [for (entry, x) in value.iter_mut().zip(axis)]: entries past the axis stay. *)
Fixpoint zip_axis (f : f32 -> f32 -> f32) (value : list f32) (axis : list f64) : list f32 :=
  match value, axis with
  | entry :: value, x :: axis => f entry (f32_of_f64 x) :: zip_axis f value axis
  | _, _ => value
  end.

Definition affine_scalar (f : f32 -> f32 -> f32) (x : option f64) (value : list f32) : list f32 :=
  match x with
  | Some x => (fun entry => f entry (f32_of_f64 x)) <$> value
  | None => value
  end.

Definition affine_axis (f : f32 -> f32 -> f32) (axis : option (list f64)) (value : list f32)
    : list f32 :=
  match axis with Some axis => zip_axis f value axis | None => value end.

Definition apply_affine (value : list f32) (scale : option f64) (axis_scale : option (list f64))
    (offset : option f64) (axis_offset : option (list f64)) : list f32 :=
  let value := affine_scalar f32_mul scale value in
  let value := affine_axis f32_mul axis_scale value in
  let value := affine_scalar f32_add offset value in
  affine_axis f32_add axis_offset value.

(** [map_range] when both ranges are declared ([state] skips equal ones). *)
Definition range_map (src dst : option (f64 * f64)) (skip_equal : bool) (value : list f32)
    : result (list f32) ApplyError :=
  match src, dst with
  | Some src, Some dst =>
      if skip_equal && f64_eqb src.1 dst.1 && f64_eqb src.2 dst.2 then Ok value
      else map_range value src dst
  | _, _ => Ok value
  end.

(** ** State inputs *)

Fixpoint reshape_known (shape_spec : list Z) (all : list Z) (position : nat)
    (inferred : option nat) (known : Z) : result (option nat * Z) ApplyError :=
  match shape_spec with
  | [] => Ok (inferred, known)
  | dim :: shape_spec =>
      if dim =? -1 then
        match inferred with
        | Some _ => Err (apply_error (lit "reshape allows at most one -1 dimension"))
        | None => reshape_known shape_spec all (S position) (Some position) known
        end
      else if dim <? 0 then Err (apply_error (Msg "invalid reshape dimension {dim}" [AZ dim]))
      else
        let? known := ok_or (checked_usize (known * dim))
          (apply_error (Msg "reshape dimensions {shape_spec:?} overflow" [AZs all])) in
        reshape_known shape_spec all (S position) inferred known
  end.

Definition reshape_dims (shape_spec : list Z) (len : Z) : result (list Z) ApplyError :=
  let? (inferred, known) := reshape_known shape_spec shape_spec 0 None 1 in
  let out := (fun dim => if dim <? 0 then 0 else dim) <$> shape_spec in
  let refused := apply_error (Msg "cannot reshape {len} elements into {shape_spec:?}"
                                [AZ len; AZs shape_spec]) in
  match inferred with
  | Some position =>
      if (known =? 0) || negb (len mod known =? 0) then Err refused
      else Ok (<[position := len / known]> out)
  | None => if negb (known =? len) then Err refused else Ok out
  end.

(** [slice[index as usize]] for every index. *)
Definition gather_panicking (slice : list f32) (indices : list nat) : option (list f32) :=
  mapM (fun i => slice !! i) indices.

(** Permute the named axes of a runtime value. *)
Fixpoint gather_axes (source : NodePath) (value : list f32) (indices : list nat)
    : result (list f32) ApplyError :=
  match indices with
  | [] => Ok []
  | index :: indices =>
      match value !! index with
      | None => Err (apply_error
          (Msg "state piece '{}' gathers axis {index} but the runtime observation has only {} elements"
             [AStr (path_display source); ANat index; ANat (length value)]))
      | Some entry =>
          let? rest := gather_axes source value indices in
          Ok (entry :: rest)
      end
  end.

Section State.
Context `{HalfOps} `{Libm} (addr : Z).

(** A piece that reads the previous action. *)
Definition previous_piece (action : PreviousAction) (gather : option (list nat)) (row : list f32)
    : option (result (list f32) ApplyError) :=
  if decide (pa_start action <= pa_stop action <= length row)%nat then
    let slice := take (pa_stop action - pa_start action) (drop (pa_start action) row) in
    match gather with
    | Some gather =>
        let! out := gather_panicking slice gather in
        Some (Ok out)
    | None => Some (Ok slice)
    end
  else Some (Err (apply_error
    (Msg "previous action for '{}' reads [{}, {}) but the recorded action has {} elements"
       [AStr (pa_role action); ANat (pa_start action); ANat (pa_stop action); ANat (length row)]))).

(** A piece the env does not provide. *)
Definition fill_piece (piece : StatePiece) (fill : f64) : list f32 :=
  apply_affine (replicate (default 0%nat (sp_dim piece)) (f32_of_f64 fill))
    None (sp_axis_scale piece) None (sp_axis_offset piece).

(** The env field out of its leaf. *)
Definition slice_field (piece : StatePiece) (value : list f32)
    : option (result (list f32) ApplyError) :=
  match sp_src_offset piece with
  | None => Some (Ok value)
  | Some start =>
      let stop := match sp_src_dim piece with
                  | Some dim => (start + dim)%nat
                  | None => length value
                  end in
      if decide (length value < stop)%nat then
        Some (Err (apply_error
          (Msg "state layout field '{}' needs indices [{start}, {end}) but the runtime observation has only {} elements"
             [AStr (path_display (sp_source piece)); ANat start; ANat stop; ANat (length value)])))
      else if decide (start <= stop)%nat then Some (Ok (take (stop - start) (drop start value)))
      else None
  end.

Definition rotate_piece (piece : StatePiece) (value : list f32)
    : option (result (list f32) ApplyError) :=
  match sp_src_encoding piece, sp_dst_encoding piece with
  | Some src, Some dst =>
      if bool_decide (src <> dst) || match sp_post_rotate piece with Some _ => true | None => false end
      then convert_rotation_with value src dst (sp_post_rotate piece)
      else Some (Ok value)
  | _, _ => Some (Ok value)
  end.

(** The model's own index or leading dims of the value. *)
Definition narrow_piece (piece : StatePiece) (value : list f32) : list f32 :=
  match sp_index piece, sp_dim piece with
  | Some index, _ =>
      if decide (index <= Nat.min (length value) (index + 1))%nat
      then take (Nat.min (length value) (index + 1) - index) (drop index value) else []
  | None, Some dim => take dim value
  | None, None => value
  end.

Definition observed_piece (piece : StatePiece) (raw_obs : btree Value)
    : option (result (list f32) ApplyError) :=
  let!? source := Some (resolve_in_obs raw_obs (sp_source piece)) in
  let!? value := numeric_vector source in
  let!? value := slice_field piece value in
  let!? value :=
    Some match sp_gather piece with
    | Some gather => gather_axes (sp_source piece) value gather
    | None => Ok value
    end in
  let!? value := rotate_piece piece value in
  let value := narrow_piece piece value in
  let!? value := Some (range_map (sp_src_range piece) (sp_dst_range piece) true value) in
  let refused (width : nat) := Some (Err (apply_error
    (Msg "state piece '{}' resolved to {width} dims but the runtime observation yields {}"
       [AStr (path_display (sp_source piece)); ANat width; ANat (length value)]))) in
  let affine := Some (Ok (apply_affine value (sp_scale piece) (sp_axis_scale piece)
                            (sp_offset piece) (sp_axis_offset piece))) in
  match sp_width piece with
  | Some width => if decide (length value <> width) then refused width else affine
  | None => affine
  end.

Definition state_piece (piece : StatePiece) (raw_obs : btree Value) (previous : option (list f32))
    : option (result (list f32) ApplyError) :=
  match sp_previous piece, previous with
  | Some action, Some row => previous_piece action (sp_gather piece) row
  | _, _ =>
      match sp_fill piece with
      | Some fill => Some (Ok (fill_piece piece fill))
      | None => observed_piece piece raw_obs
      end
  end.

Fixpoint state_pieces (pieces : list StatePiece) (raw_obs : btree Value)
    (previous : option (list f32)) : option (result (list f32) ApplyError) :=
  match pieces with
  | [] => Some (Ok [])
  | piece :: pieces =>
      let!? here := state_piece piece raw_obs previous in
      let!? rest := state_pieces pieces raw_obs previous in
      Some (Ok (here ++ rest))
  end.

Definition pad_state (plan : StatePlan) (state : list f32) : result (list f32) ApplyError :=
  match st_pad_to plan with
  | None => Ok state
  | Some pad_to =>
      if decide (pad_to < length state)%nat then
        Err (apply_error (Msg "state for '{}' has {} dims, more than pad_to={pad_to}"
               [AStr (path_display (st_placement plan)); ANat (length state); ANat pad_to]))
      else Ok (state ++ replicate (pad_to - length state) f32_zero)
  end.

Definition list_value (t : Tensor) : option (list Value) :=
  let! values := to_f64_vec t in
  Some (ValNumber <$> values).

(** The assembled vector as the model's tensor or list. *)
Definition state_value (plan : StatePlan) (state : list f32) : option (result Value ApplyError) :=
  let len := Z.of_nat (length state) in
  let!? target := Some (ok_or (dtype_from_name (st_dtype plan))
    (apply_error (Msg "unsupported state dtype {:?}" [AStr (st_dtype plan)]))) in
  let! flat := tensor_from_f32 [len] state in
  let!? tensor := cast flat target in
  let!? tensor :=
    match st_reshape plan with
    | Some shape_spec =>
        let!? dims := Some (reshape_dims shape_spec len) in
        lift_err tensor_error (reshape addr tensor (shape_i64 dims))
    | None => Some (Ok tensor)
    end in
  if decide (st_container plan = StateList) then
    let! items := list_value tensor in
    Some (Ok (ValList items))
  else Some (Ok (ValTensor tensor)).

Definition apply_state (plan : StatePlan) (raw_obs : btree Value) (previous : option (list f32))
    : option (result Value ApplyError) :=
  let!? state := state_pieces (st_pieces plan) raw_obs previous in
  let! state := clamp_all (st_clip plan) state in
  let!? state := Some (pad_state plan state) in
  state_value plan state.
End State.

(** ** Text inputs *)

(** The Debug rendering of a value that is not text is left out of the message. *)
Definition apply_text (plan : TextPlan) (raw_obs : btree Value) : result (option Value) ApplyError :=
  let? value :=
    match tp_source plan with
    | Some source =>
        match resolve_in_obs raw_obs source with
        | Ok (ValText text) => Ok (Some text)
        | Ok _ => Err (apply_error
            (Msg "text input '{}' resolved to '{}', but {other:?} is not a string"
               [AStr (path_display (tp_placement plan)); AStr (path_display source)]))
        | Err _ => Ok None
        end
    | None => Ok None
    end in
  match (match value with Some value => Some value | None => tp_fill plan end) with
  | None => Ok None
  | Some value =>
      Ok (Some (if decide (tp_container plan = TextList) then ValList [ValText value]
                else ValText value))
  end.

(** ** The payload tree *)

Fixpoint insert_at (node : Value) (segments : NodePath) (value : Value) : result Value ApplyError :=
  match segments with
  | [] => Ok value
  | head :: rest =>
      let node :=
        match head, node with
        | PKey _, ValList [] => ValMap []
        | PIndex _, ValMap [] => ValList []
        | _, _ => node
        end in
      match head, node with
      | PKey key, ValMap m =>
          let child := default (ValMap []) (btree_get key m) in
          let? child := insert_at child rest value in
          Ok (ValMap (btree_insert key child m))
      | PKey key, _ => Err (apply_error
          (Msg "payload placement conflict: expected a Map to place key '{key}'" [AStr key]))
      | PIndex index, ValList items =>
          let items := items ++ replicate (index + 1 - length items) (ValMap []) in
          let? child := insert_at (default (ValMap []) (items !! index)) rest value in
          Ok (ValList (<[index := child]> items))
      | PIndex index, _ => Err (apply_error
          (Msg "payload placement conflict: expected a List to place index [{index}]" [ANat index]))
      end
  end.

(** [NodeBuilder]: nothing until the first placement. *)
Definition NodeBuilder : Type := option Value.

Definition place (root : NodeBuilder) (placement : NodePath) (value : Value)
    : result NodeBuilder ApplyError :=
  if is_root placement then
    match root with
    | Some _ => Err (apply_error (lit "two model inputs both target the root payload placement"))
    | None => Ok (Some value)
    end
  else
    let root := default (match path_first placement with
                         | Some (PIndex _) => ValList []
                         | _ => ValMap []
                         end) root in
    let? root := insert_at root placement value in
    Ok (Some root).

Definition finish (root : NodeBuilder) : Value := default (ValMap []) root.

(** ** Observations *)

(** A host callback for the custom inputs; it may leave a key out. *)
Definition CustomTransform : Type :=
  string -> string -> btree Value -> result (option Value) ApplyError.

Definition NoCustoms : CustomTransform := fun model_key _ _ =>
  Err (apply_error
    (Msg "custom input '{model_key}' requires a host-language transform; provide a CustomTransform implementation"
       [AStr model_key])).

Definition SkipCustoms : CustomTransform := fun _ _ _ => Ok None.

Section Observations.
Context `{HalfOps} `{ImageCodec} `{Libm} (addr : Z).

Definition plan_placement (plan : ObsPlan) : NodePath :=
  match plan with
  | OImage p => ip_placement p
  | OState p => st_placement p
  | OText p => tp_placement p
  | OCustom p => cp_placement p
  end.

(** The value one plan produces, [None] when it leaves its placement out. *)
Definition apply_plan (plan : ObsPlan) (raw_obs : btree Value) (customs : CustomTransform)
    (previous : option (list f32)) : option (result (option Value) ApplyError) :=
  match plan with
  | OImage p =>
      let!? value := apply_image addr p raw_obs in
      Some (Ok (Some value))
  | OState p =>
      let!? value := apply_state addr p raw_obs previous in
      Some (Ok (Some value))
  | OText p => Some (apply_text p raw_obs)
  | OCustom p => Some (customs (cp_placement_key p) (cp_transform p) raw_obs)
  end.

Fixpoint transform_plans (plans : list ObsPlan) (raw_obs : btree Value) (customs : CustomTransform)
    (previous : option (list f32)) (builder : NodeBuilder)
    : option (result NodeBuilder ApplyError) :=
  match plans with
  | [] => Some (Ok builder)
  | plan :: plans =>
      let!? produced := apply_plan plan raw_obs customs previous in
      let!? builder :=
        match produced with
        | Some value => Some (place builder (plan_placement plan) value)
        | None => Some (Ok builder)
        end in
      transform_plans plans raw_obs customs previous builder
  end.

Definition transform_obs (plans : list ObsPlan) (raw_obs : btree Value) (customs : CustomTransform)
    (previous : option (list f32)) : option (result Value ApplyError) :=
  let!? builder := transform_plans plans raw_obs customs previous None in
  Some (Ok (finish builder)).

(** The frame of one stacked input. *)
Definition stacked_frame (plans : list ObsPlan) (entry : StackedPlacement) (raw_obs : btree Value)
    : option (result Tensor ApplyError) :=
  let! plan := plans !! sk_plan_index entry in
  match plan with
  | OImage image_plan =>
      let!? value := apply_image addr image_plan raw_obs in
      Some match value with
      | ValTensor frame => Ok frame
      | _ => Err (apply_error (Msg "frame-stacked input '{}' must be a tensor" [AStr (sk_key entry)]))
      end
  | _ => Some (Err (apply_error (Msg "frame-stacked input '{}' is not an image" [AStr (sk_key entry)])))
  end.

Fixpoint observe_frames (plans : list ObsPlan) (stacked : list StackedPlacement)
    (raw_obs : btree Value) : option (result (list Tensor) ApplyError) :=
  match stacked with
  | [] => Some (Ok [])
  | entry :: stacked =>
      let!? frame := stacked_frame plans entry raw_obs in
      let!? rest := observe_frames plans stacked raw_obs in
      Some (Ok (frame :: rest))
  end.

Definition adapter_transform_obs (a : ResolvedAdapter) (raw_obs : btree Value)
    (customs : CustomTransform) : option (result Value ApplyError) :=
  transform_obs (ra_obs_plans a) raw_obs customs None.

Definition history_frames (a : ResolvedAdapter) (raw_obs : btree Value)
    : option (result (list Tensor) ApplyError) :=
  observe_frames (ra_obs_plans a) (ra_stacked a) raw_obs.
End Observations.

(** ** Actions *)

Definition binary_snap (value : f32) : f32 :=
  if f32_ge value f32_zero then f32_of_Z 1 else f32_of_Z (-1).

Definition apply_scalar_corrections (piece : list f32) (scale : option f64)
    (axis_scale : option (list f64)) (offset : option f64) (axis_offset : option (list f64))
    (invert : bool) (threshold : option f64) : list f32 :=
  let piece := apply_affine piece scale axis_scale offset axis_offset in
  let piece := if invert then f32_neg <$> piece else piece in
  match threshold with
  | Some threshold => (fun entry => f32_sub entry (f32_of_f64 threshold)) <$> piece
  | None => piece
  end.

(** A raw [0.0] stays neutral unless a threshold was declared. *)
Definition binarize (segment : ActionSegment) (entry : f32) : f32 :=
  let thresholded := match as_threshold segment, as_model_threshold segment with
                     | None, None => false
                     | _, _ => true
                     end in
  if thresholded || negb (f32_eqb entry f32_zero) then binary_snap entry else entry.

Section Actions.
Context `{HalfOps} `{Libm}.

Definition action_segment (segment : ActionSegment) (action : list f32)
    : option (result (list f32) ApplyError) :=
  match as_fill segment with
  | Some (width, value) => Some (Ok (replicate width (f32_of_f64 value)))
  | None =>
      let! piece := slice action (as_start segment) (as_stop segment) in
      let!? piece :=
        match as_src_encoding segment, as_dst_encoding segment with
        | Some src, Some dst =>
            if decide (src <> dst) then convert_rotation piece src dst else Some (Ok piece)
        | _, _ => Some (Ok piece)
        end in
      let!? piece := Some (range_map (as_src_range segment) (as_dst_range segment) false piece) in
      let piece := apply_scalar_corrections piece
        (as_model_scale segment) (as_model_axis_scale segment) (as_model_offset segment)
        (as_model_axis_offset segment) (as_model_invert segment) (as_model_threshold segment) in
      let! piece :=
        match as_scatter segment with
        | Some scatter => gather_panicking piece scatter
        | None => Some piece
        end in
      let piece := apply_scalar_corrections piece
        (as_scale segment) (as_axis_scale segment) (as_offset segment)
        (as_axis_offset segment) (as_invert segment) (as_threshold segment) in
      let piece := if as_binarize segment then binarize segment <$> piece else piece in
      let! piece := clamp_all (as_clip segment) piece in
      Some (Ok piece)
  end.

Fixpoint action_segments (segments : list ActionSegment) (action : list f32)
    : option (result (list f32) ApplyError) :=
  match segments with
  | [] => Some (Ok [])
  | segment :: segments =>
      let!? piece := action_segment segment action in
      let!? rest := action_segments segments action in
      Some (Ok (piece ++ rest))
  end.

Definition transform_action (plan : ActionPlan) (raw_action : Value)
    : option (result Tensor ApplyError) :=
  let!? action := numeric_vector raw_action in
  if decide (length action <> ap_in_dim plan) then
    Some (Err (apply_error (Msg "expected {}-dim model action, got shape ({},)"
                 [ANat (ap_in_dim plan); ANat (length action)])))
  else
    let!? pieces := action_segments (ap_segments plan) action in
    let! pieces := clamp_all (ap_clip plan) pieces in
    let! out := tensor_from_f32 [Z.of_nat (length pieces)] pieces in
    Some (Ok out).
End Actions.
