(* ===== verification/AdapterApplySpec.v ===== *)
(** * Correctness of the applied plans

    Every value a plan produces is read back at its placement, an observation is read
    only through the keys the adapter declares, and the action vector has the plan's
    width, stays in its clips and is produced without a panic. *)

From S2P Require Import Prelude BTree Float FloatOps DType Scalar Tensor AdapterValue AdapterGeometry AdapterPlans AdapterImage AdapterImageSpec AdapterApply.
#[local] Open Scope Z_scope.

(** ** Placements *)

(** A container takes the kind its next segment needs while it is empty. *)
Definition adapted (head : PathSeg) (node : Value) : Value :=
  match head, node with
  | PKey _, ValList [] => ValMap []
  | PIndex _, ValMap [] => ValList []
  | _, _ => node
  end.

Lemma adapted_child head node s w : child node s = Some w -> child (adapted head node) s = Some w.
Proof. destruct head, node as [| | |[]| | | | |[]|[|[]]], s; done. Qed.

(** One step of a successful insertion. *)
Lemma insert_at_step node seg rest v node' :
  insert_at node (seg :: rest) v = Ok node' ->
  exists c c', insert_at c rest v = Ok c' /\ child node' seg = Some c' /\
    (forall w, child node seg = Some w -> c = w) /\
    forall s w, s <> seg -> child node s = Some w -> child node' s = Some w.
Proof.
  cbn [insert_at]. fold (adapted seg node). intros Hi.
  assert (forall s w, child node s = Some w -> child (adapted seg node) s = Some w) as Ha
    by apply adapted_child.
  revert Hi Ha. generalize (adapted seg node) as a. intros a Hi Ha.
  destruct seg as [key|index], a as [| | | | | | | |items|m]; try done.
  - destruct (insert_at _ rest v) as [c'|] eqn:Hc; [|done]. injection Hi as <-.
    eexists _, c'. split; [done|]. cbn [child]. rewrite btree_get_insert, String.eqb_refl.
    split; [done|]. split.
    + intros w Hw. specialize (Ha (PKey key) w Hw). cbn in Ha. by rewrite Ha.
    + intros s w Hne Hs. specialize (Ha s w Hs). destruct s as [k|?]; [|done]. cbn in Ha |- *.
      rewrite btree_get_insert. destruct (String.eqb_spec k key) as [->|]; done.
  - destruct (insert_at _ rest v) as [c'|] eqn:Hc; [|done]. injection Hi as <-.
    set (grown := items ++ _) in *.
    assert (index < length grown)%nat as Hlen
      by (subst grown; rewrite length_app, length_replicate; lia).
    eexists _, c'. split; [done|]. cbn [child]. rewrite list_lookup_insert_eq by done.
    split; [done|]. split.
    + intros w Hw. specialize (Ha (PIndex index) w Hw). cbn in Ha.
      subst grown. by rewrite (lookup_app_l_Some _ _ _ _ Ha).
    + intros s w Hne Hs. specialize (Ha s w Hs). destruct s as [?|k]; [done|]. cbn in Ha |- *.
      rewrite list_lookup_insert_ne by congruence. by apply lookup_app_l_Some.
Qed.

(** The value inserted is read at its path, and what was at a path beside it stays. *)
Lemma insert_at_spec segs node v node' :
  insert_at node segs v = Ok node' ->
  node_at node' segs = Some v /\
  forall q w, path_disjoint segs q -> node_at node q = Some w -> node_at node' q = Some w.
Proof.
  revert node node'; induction segs as [|seg rest IH]; intros node node' Hi.
  - injection Hi as <-. split; [done|]. by intros q w ?%path_disjoint_nil_l.
  - destruct (insert_at_step _ _ _ _ _ Hi) as (c & c' & Hc & Hc' & Hw & Ho).
    destruct (IH _ _ Hc) as [H1 H2]. split; [by rewrite (child_node _ _ _ _ Hc')|].
    intros [|s q] w Hq Hn; [by apply path_disjoint_sym, path_disjoint_nil_l in Hq|].
    cbn [node_at] in Hn. destruct (child node s) as [x|] eqn:Hx; [|done].
    destruct (decide (s = seg)) as [->|Hne].
    + apply path_disjoint_cons in Hq. rewrite (child_node _ _ _ _ Hc').
      apply H2; [done|]. by rewrite (Hw _ Hx).
    + by rewrite (child_node _ _ _ _ (Ho _ _ Hne Hx)).
Qed.

(** What the builder holds at a path. *)
Definition built (b : NodeBuilder) (p : NodePath) : option Value :=
  let! root := b in node_at root p.

Lemma place_spec b p v b' :
  place b p v = Ok b' ->
  built b' p = Some v /\
  forall q w, path_disjoint p q -> built b q = Some w -> built b' q = Some w.
Proof.
  unfold place. destruct p as [|seg p]; cbn [is_root].
  - destruct b; [done|]. intros [= <-]. split; [done|]. by intros q w ?%path_disjoint_nil_l.
  - destruct (insert_at _ _ _) as [root|] eqn:Hi; [|done]. intros [= <-].
    apply insert_at_spec in Hi as [H1 H2]. split; [done|].
    intros q w Hq Hb. destruct b as [r|]; [|done]. by apply H2.
Qed.

Section Placed.
Context `{HalfOps} `{ImageCodec} `{Libm} (addr : Z).
Context (raw_obs : btree Value) (customs : CustomTransform) (previous : option (list f32)).

Lemma transform_plans_spec plans b b' :
  transform_plans addr plans raw_obs customs previous b = Some (Ok b') ->
  ForallOrdPairs path_disjoint (plan_placement <$> plans) ->
  (forall q w, Forall (fun p => path_disjoint (plan_placement p) q) plans ->
     built b q = Some w -> built b' q = Some w) /\
  forall i plan v, plans !! i = Some plan ->
    apply_plan addr plan raw_obs customs previous = Some (Ok (Some v)) ->
    built b' (plan_placement plan) = Some v.
Proof.
  revert b; induction plans as [|plan plans IH]; intros b Ht Hd.
  { injection Ht as <-. split; [done|]. by intros i plan v Hi. }
  rewrite fmap_cons in Hd. inversion Hd as [|? ? Hhd Hd']; subst. cbn [transform_plans] in Ht.
  destruct (apply_plan addr plan raw_obs customs previous) as [[[v|]|]|] eqn:Ha; try done.
  - destruct (place b (plan_placement plan) v) as [b1|] eqn:Hp; [|done].
    apply place_spec in Hp as [Hp1 Hp2]. destruct (IH _ Ht Hd') as [H3 H4]. split.
    + intros q w [Hq Hq']%Forall_cons Hb. apply H3; [done|]. by apply Hp2.
    + intros [|i] plan' v' Hi Hv; [|by eapply H4]. injection Hi as <-. rewrite Ha in Hv.
      injection Hv as <-. apply H3; [|done]. rewrite Forall_fmap in Hhd.
      eapply Forall_impl; [exact Hhd|]. intros p. apply path_disjoint_sym.
  - destruct (IH _ Ht Hd') as [H3 H4]. split.
    + intros q w [Hq Hq']%Forall_cons Hb. by apply H3.
    + intros [|i] plan' v' Hi Hv; [|by eapply H4]. injection Hi as <-. by rewrite Ha in Hv.
Qed.
End Placed.

(** When the placements of the inputs are pairwise disjoint, every value a plan
    produces is read back from the payload at the placement of the plan, whatever the
    nesting of maps and lists it goes into and whichever inputs are left out. *)
Lemma payload_reads_back `{HalfOps} `{ImageCodec} `{Libm} (addr : Z) (plans : list ObsPlan)
    (raw_obs : btree Value) (customs : CustomTransform) (previous : option (list f32))
    (payload : Value) :
  ForallOrdPairs path_disjoint (plan_placement <$> plans) ->
  transform_obs addr plans raw_obs customs previous = Some (Ok payload) ->
  forall i plan v, plans !! i = Some plan ->
    apply_plan addr plan raw_obs customs previous = Some (Ok (Some v)) ->
    resolve_source payload (plan_placement plan) = Ok v.
Proof.
  intros Hd Ht i plan v Hi Hv. unfold transform_obs in Ht.
  destruct (transform_plans addr plans raw_obs customs previous None) as [[b|]|] eqn:Hp; try done.
  injection Ht as <-. destruct (transform_plans_spec addr _ _ _ _ _ _ Hp Hd) as [_ H2].
  specialize (H2 i plan v Hi Hv). apply resolve_source_Ok. by destruct b.
Qed.

(** ** Referenced keys *)

Lemma keys_insert_get k k' keys :
  is_Some (btree_get k (keys_insert k' keys)) <-> k = k' \/ is_Some (btree_get k keys).
Proof.
  unfold keys_insert. rewrite btree_get_insert.
  destruct (String.eqb_spec k k') as [->|]; naive_solver.
Qed.

(** The sources one plan resolves in the observation. *)
Definition plan_sources (plan : ObsPlan) : list NodePath :=
  match plan with
  | OImage image => match ip_zero_fill image with None => [ip_source image] | Some _ => [] end
  | OState state =>
      omap (fun piece => match sp_fill piece with None => Some (sp_source piece) | Some _ => None end)
        (st_pieces state)
  | OText text => match tp_source text with Some source => [source] | None => [] end
  | OCustom _ => []
  end.

Lemma plan_keys_get plan keys k :
  is_Some (btree_get k (plan_keys keys plan)) <->
  k ∈ envelope_key <$> plan_sources plan \/ is_Some (btree_get k keys).
Proof.
  destruct plan as [image|state|text|custom]; cbn [plan_keys plan_sources].
  - destruct (ip_zero_fill image); cbn; [set_solver|]. rewrite keys_insert_get. set_solver.
  - revert keys; induction (st_pieces state) as [|piece pieces IH]; intros keys; [set_solver|].
    cbn [fold_left omap list_omap]. rewrite IH. destruct (sp_fill piece); [done|].
    rewrite fmap_cons, keys_insert_get. set_solver.
  - destruct (tp_source text); cbn; [|set_solver]. rewrite keys_insert_get. set_solver.
  - set_solver.
Qed.

Lemma fold_keys_get plans keys k :
  is_Some (btree_get k (fold_left plan_keys plans keys)) <->
  (exists plan, plan ∈ plans /\ k ∈ envelope_key <$> plan_sources plan) \/ is_Some (btree_get k keys).
Proof.
  revert keys; induction plans as [|plan plans IH]; intros keys; cbn [fold_left]; [set_solver|].
  rewrite IH, plan_keys_get. set_solver.
Qed.

Section Referenced.
Context `{HalfOps} `{ImageCodec} `{Libm} (addr : Z).
Context (raw raw' : btree Value).

(** The two observations have the same entry for the source. *)
Definition same_entry (source : NodePath) : Prop :=
  btree_get (envelope_key source) raw = btree_get (envelope_key source) raw'.

Lemma resolve_same source :
  same_entry source ->
  match resolve_in_obs raw source with
  | Ok v => resolve_in_obs raw' source = Ok v
  | Err _ => exists e, resolve_in_obs raw' source = Err e
  end.
Proof.
  intros Hs. assert (obs_node raw source = obs_node raw' source) as Ho
    by (unfold obs_node; by rewrite Hs).
  destruct (resolve_in_obs raw source) as [v|e] eqn:Hr.
  - apply resolve_in_obs_Ok. rewrite <- Ho. by apply resolve_in_obs_Ok.
  - destruct (resolve_in_obs raw' source) as [v|e'] eqn:Hr'; [|by eauto].
    apply resolve_in_obs_Ok in Hr'. rewrite <- Ho in Hr'. apply resolve_in_obs_Ok in Hr'. congruence.
Qed.

Lemma image_same plan v :
  Forall same_entry (plan_sources (OImage plan)) ->
  apply_image addr plan raw = Some (Ok v) -> apply_image addr plan raw' = Some (Ok v).
Proof.
  unfold apply_image. cbn [plan_sources]. destruct (ip_zero_fill plan); [done|].
  intros [Hs _]%Forall_cons. pose proof (resolve_same _ Hs) as Hr.
  destruct (resolve_in_obs raw (ip_source plan)); [by rewrite Hr|done].
Qed.

Lemma piece_same piece previous v :
  (sp_fill piece = None -> same_entry (sp_source piece)) ->
  state_piece piece raw previous = Some (Ok v) -> state_piece piece raw' previous = Some (Ok v).
Proof.
  unfold state_piece. intros Hs.
  assert (match sp_fill piece with
          | Some fill => Some (Ok (fill_piece piece fill))
          | None => observed_piece piece raw
          end = Some (Ok v) ->
          match sp_fill piece with
          | Some fill => Some (Ok (fill_piece piece fill))
          | None => observed_piece piece raw'
          end = Some (Ok v)) as Hf.
  { destruct (sp_fill piece); [done|]. unfold observed_piece.
    pose proof (resolve_same _ (Hs eq_refl)) as Hr.
    destruct (resolve_in_obs raw (sp_source piece)); [by rewrite Hr|done]. }
  by destruct (sp_previous piece), previous.
Qed.

Lemma pieces_same pieces previous v :
  Forall (fun piece => sp_fill piece = None -> same_entry (sp_source piece)) pieces ->
  state_pieces pieces raw previous = Some (Ok v) -> state_pieces pieces raw' previous = Some (Ok v).
Proof.
  intros Hs. revert v; induction Hs as [|piece pieces Hp _ IH]; intros v; [done|].
  cbn [state_pieces]. destruct (state_piece piece raw previous) as [[here|]|] eqn:Hh; try done.
  rewrite (piece_same _ _ _ Hp Hh).
  destruct (state_pieces pieces raw previous) as [[rest|]|]; try done.
  by rewrite (IH _ eq_refl).
Qed.

Lemma text_same plan r :
  Forall same_entry (plan_sources (OText plan)) ->
  apply_text plan raw = Ok r -> apply_text plan raw' = Ok r.
Proof.
  unfold apply_text. cbn [plan_sources]. destruct (tp_source plan) as [source|]; [|done].
  intros [Hs _]%Forall_cons. pose proof (resolve_same _ Hs) as Hr.
  destruct (resolve_in_obs raw source); [by rewrite Hr|]. by destruct Hr as [? ->].
Qed.

Lemma plan_same plan customs previous r :
  (forall key entrypoint, customs key entrypoint raw = customs key entrypoint raw') ->
  Forall same_entry (plan_sources plan) ->
  apply_plan addr plan raw customs previous = Some (Ok r) ->
  apply_plan addr plan raw' customs previous = Some (Ok r).
Proof.
  intros Hc Hs. destruct plan as [image|state|text|custom]; cbn [apply_plan].
  - destruct (apply_image addr image raw) as [[v|]|] eqn:Hi; try done.
    by rewrite (image_same _ _ Hs Hi).
  - unfold apply_state. destruct (state_pieces _ raw previous) as [[v|]|] eqn:Hp; try done.
    enough (Forall (fun piece => sp_fill piece = None -> same_entry (sp_source piece)) (st_pieces state))
      as Hps by (by rewrite (pieces_same _ _ _ Hps Hp)).
    clear Hp. cbn [plan_sources] in Hs. induction (st_pieces state) as [|piece pieces IH] in Hs |- *; [done|].
    cbn [omap list_omap] in Hs. constructor.
    + intros Hf. rewrite Hf in Hs. by apply Forall_cons in Hs as [? _].
    + apply IH. destruct (sp_fill piece); [done|]. by apply Forall_cons in Hs as [_ ?].
  - intros [= Ht]. by rewrite (text_same _ _ Hs Ht).
  - by rewrite Hc.
Qed.

Lemma transform_plans_same plans customs previous b b' :
  (forall key entrypoint, customs key entrypoint raw = customs key entrypoint raw') ->
  Forall (fun plan => Forall same_entry (plan_sources plan)) plans ->
  transform_plans addr plans raw customs previous b = Some (Ok b') ->
  transform_plans addr plans raw' customs previous b = Some (Ok b').
Proof.
  intros Hc Hs. revert b; induction Hs as [|plan plans Hp _ IH]; intros b; [done|].
  cbn [transform_plans].
  destruct (apply_plan addr plan raw customs previous) as [[r|]|] eqn:Ha; try done.
  rewrite (plan_same _ _ _ _ Hc Hp Ha). destruct r as [v|]; [|apply IH].
  destruct (place _ _ _); [apply IH|done].
Qed.
End Referenced.


(** ** Numeric values *)

Section ValueInd.
Context (P : Value -> Prop).
Context (Hleaf : forall v, match v with ValTuple _ | ValList _ | ValMap _ => False | _ => True end -> P v).
Context (Htuple : forall l, Forall P l -> P (ValTuple l)).
Context (Hlist : forall l, Forall P l -> P (ValList l)).
Context (Hmap : forall m, Forall (fun kv => P kv.2) m -> P (ValMap m)).

Fixpoint Value_nested_ind (v : Value) : P v :=
  let each := fix each (l : list Value) : Forall P l :=
    match l with
    | [] => Forall_nil_2 P
    | v :: l => Forall_cons_2 P v l (Value_nested_ind v) (each l)
    end in
  match v with
  | ValTuple l => Htuple l (each l)
  | ValList l => Hlist l (each l)
  | ValMap m => Hmap m
      ((fix entries (m : list (string * Value)) : Forall (fun kv => P kv.2) m :=
          match m with
          | [] => Forall_nil_2 _
          | kv :: m => Forall_cons_2 (fun kv => P kv.2) kv m (Value_nested_ind kv.2) (entries m)
          end) m)
  | ValNone => Hleaf ValNone I
  | ValBool b => Hleaf (ValBool b) I
  | ValInt i => Hleaf (ValInt i) I
  | ValTensor t => Hleaf (ValTensor t) I
  | ValText s => Hleaf (ValText s) I
  | ValBytes bs => Hleaf (ValBytes bs) I
  | ValNumber f => Hleaf (ValNumber f) I
  end.
End ValueInd.

(** Every tensor of the tree is dense. *)
Fixpoint value_dense (v : Value) : Prop :=
  match v with
  | ValTensor t => exists data, dense t data
  | ValTuple l | ValList l => foldr (fun v acc => value_dense v /\ acc) True l
  | ValMap m => foldr (fun kv acc => value_dense kv.2 /\ acc) True m
  | _ => True
  end.

Section Numeric.
Context `{HalfOps}.

Lemma decode_tensor_total t data :
  dense t data -> exists vs, decode_tensor t = Some vs /\ Z.of_nat (length vs) = volume (shape t).
Proof.
  intros Hd. unfold decode_tensor. rewrite (dense_bytes t data Hd).
  pose proof (dense_length t data Hd) as Hl. destruct (dense_fits t data Hd) as [Ht Hdm _].
  pose proof (dtype_size_pos _ Ht) as Hp. pose proof (volume_nonneg _ Hdm).
  assert (length data = (Z.to_nat (volume (shape t)) * dtype_size (dtype t))%nat) as Hn by lia.
  destruct (decode_scalars_total data (dtype t) Ht) as (vs & -> & Hv).
  { rewrite Hn. apply Nat.Div0.mod_mul. }
  exists vs. split; [done|]. apply Forall2_length in Hv.
  rewrite length_chunks_exact, Hn, Nat.div_mul in Hv by lia. lia.
Qed.

Lemma to_f32_vec_total t data :
  dense t data -> exists xs, to_f32_vec t = Some xs /\ Z.of_nat (length xs) = volume (shape t).
Proof.
  intros Hd. unfold to_f32_vec. destruct (decode_tensor_total t data Hd) as (vs & -> & Hl).
  eexists. split; [done|]. by rewrite length_fmap.
Qed.

Lemma numeric_vector_total v : value_dense v -> is_Some (numeric_vector v).
Proof.
  induction v as [v Hv|l IH|l IH|m IH] using Value_nested_ind; intros Hd.
  - destruct v; try done; cbn; try (by eexists).
    destruct Hd as [data Hd]. destruct (to_f32_vec_total _ _ Hd) as (xs & -> & _). by eexists.
  - cbn [numeric_vector value_dense] in *. induction IH as [|v l Hv _ IHl]; [by eexists|].
    cbn in Hd. destruct Hd as [Hd1 Hd2]. destruct (Hv Hd1) as [[xs|] ->]; [|by eexists].
    destruct (IHl Hd2) as [[ys|] ->]; by eexists.
  - cbn [numeric_vector value_dense] in *. induction IH as [|v l Hv _ IHl]; [by eexists|].
    cbn in Hd. destruct Hd as [Hd1 Hd2]. destruct (Hv Hd1) as [[xs|] ->]; [|by eexists].
    destruct (IHl Hd2) as [[ys|] ->]; by eexists.
  - cbn [numeric_vector value_dense] in *. generalize (quoted_keys m) as keys. intros keys.
    induction IH as [|[k v] l Hv _ IHl]; [by eexists|].
    cbn in Hd. destruct Hd as [Hd1 Hd2]. cbn in Hv |- *.
    destruct (k =? "data")%string; [by apply Hv|by apply IHl].
Qed.
End Numeric.

(** ** Actions *)

Lemma length_zip_axis f value axis : length (zip_axis f value axis) = length value.
Proof. revert axis; induction value as [|x value IH]; intros [|y axis]; cbn; by rewrite ?IH. Qed.

Lemma length_affine value scale axis_scale offset axis_offset :
  length (apply_affine value scale axis_scale offset axis_offset) = length value.
Proof.
  unfold apply_affine, affine_axis, affine_scalar.
  destruct scale, axis_scale, offset, axis_offset; by rewrite ?length_zip_axis, ?length_fmap, ?length_zip_axis, ?length_fmap.
Qed.

Lemma length_corrections piece scale axis_scale offset axis_offset invert threshold :
  length (apply_scalar_corrections piece scale axis_scale offset axis_offset invert threshold)
  = length piece.
Proof.
  unfold apply_scalar_corrections. destruct threshold, invert; by rewrite ?length_fmap, ?length_affine, ?length_fmap, ?length_affine.
Qed.

Lemma range_map_length src dst skip value out :
  range_map src dst skip value = Ok out -> length out = length value.
Proof.
  unfold range_map, map_range. destruct src as [[]|], dst as [[]|]; try (by intros [= <-]).
  destruct (_ && _); [by intros [= <-]|]. cbn. destruct (f32_eqb _ _); [done|].
  intros [= <-]. by rewrite length_fmap.
Qed.

Lemma mapM_total {A B} (f : A -> option B) (l : list A) :
  Forall (fun x => is_Some (f x)) l -> exists k, mapM f l = Some k /\ length k = length l.
Proof.
  intros Hl. destruct (mapM_is_Some_2 f l) as [k Hk]; [done|]. exists k. split; [done|].
  by apply mapM_Some, Forall2_length in Hk.
Qed.

(** [low <= high] as the clamps compare them. *)
Definition ordered (bounds : option (f64 * f64)) : Prop :=
  forall low high, bounds = Some (low, high) -> f32_le (f32_of_f64 low) (f32_of_f64 high) = true.

(** A number of the range, or a NaN. *)
Definition clipped (bounds : option (f64 * f64)) (x : f32) : Prop :=
  forall low high, bounds = Some (low, high) -> f32_is_nan x = false ->
  f32_le (f32_of_f64 low) x = true /\ f32_le x (f32_of_f64 high) = true.

Lemma clamp_all_spec bounds values :
  ordered bounds ->
  exists out, clamp_all bounds values = Some out /\ length out = length values /\
    Forall (clipped bounds) out.
Proof.
  intros Ho. destruct bounds as [[low high]|]; cbn [clamp_all].
  2: { exists values. split_and!; try done. apply Forall_forall. by intros x _ low high. }
  specialize (Ho low high eq_refl).
  destruct (mapM_total (fun entry => f32_clamp entry (f32_of_f64 low) (f32_of_f64 high)) values)
    as (out & Hm & Hl).
  { apply Forall_forall. intros x _. by apply f32_clamp_total. }
  exists out. split_and!; try done. apply mapM_Some in Hm.
  clear Hl. induction Hm as [|x y values out Hxy _ IH]; constructor; [|done].
  intros l h [= <- <-] Hn. eapply f32_clamp_range; [exact Hxy|].
  destruct (f32_is_nan x) eqn:Hx; [|done]. apply f32_clamp_nan in Hxy as ->; [|done]. congruence.
Qed.

(** The width of a segment before and after its scatter. *)
Definition source_width (s : ActionSegment) : nat :=
  match as_src_encoding s, as_dst_encoding s with
  | Some src, Some dst =>
      if decide (src = dst) then Z.to_nat (as_stop s - as_start s) else encoding_dims dst
  | _, _ => Z.to_nat (as_stop s - as_start s)
  end.

Definition segment_width (s : ActionSegment) : nat :=
  match as_fill s with
  | Some (width, _) => width
  | None => match as_scatter s with Some scatter => length scatter | None => source_width s end
  end.

(** What resolution establishes of a segment. *)
Record segment_ok (in_dim : nat) (s : ActionSegment) : Prop := {
  seg_slice : as_fill s = None -> 0 <= as_start s <= as_stop s /\ as_stop s <= Z.of_nat in_dim;
  seg_scatter : forall scatter, as_scatter s = Some scatter ->
    Forall (fun i => i < source_width s)%nat scatter;
  seg_clip : ordered (as_clip s);
}.

Section ActionSpec.
Context `{HalfOps} `{Libm}.

Lemma rotated_segment s piece :
  length piece = Z.to_nat (as_stop s - as_start s) ->
  exists r, match as_src_encoding s, as_dst_encoding s with
            | Some src, Some dst =>
                if decide (src <> dst) then convert_rotation piece src dst else Some (Ok piece)
            | _, _ => Some (Ok piece)
            end = Some r /\ forall out, r = Ok out -> length out = source_width s.
Proof.
  intros Hl. unfold source_width.
  destruct (as_src_encoding s) as [src|], (as_dst_encoding s) as [dst|];
    try (by eexists; split; [done|]; intros out [= <-]).
  destruct (decide (src = dst)) as [E|E].
  - rewrite decide_False by auto. eexists. split; [done|]. by intros out [= <-].
  - rewrite decide_True by done. destruct (convert_rotation_spec piece src dst) as (r & -> & Hr).
    exists r. split; [done|]. intros out ->. naive_solver.
Qed.

Lemma action_segment_spec in_dim s action :
  segment_ok in_dim s -> length action = in_dim ->
  exists r, action_segment s action = Some r /\
    forall piece, r = Ok piece -> length piece = segment_width s /\
      (as_fill s = None -> Forall (clipped (as_clip s)) piece).
Proof.
  intros [Hsl Hsc Hcl] Ha. unfold action_segment, segment_width.
  destruct (as_fill s) as [[width value]|].
  { eexists. split; [done|]. intros piece [= <-]. by rewrite length_replicate. }
  destruct (Hsl eq_refl) as [[Hs1 Hs2] Hs3].
  rewrite slice_Some by lia.
  set (piece0 := take _ _).
  destruct (rotated_segment s piece0) as (r & -> & Hr).
  { subst piece0. rewrite length_take, length_drop. lia. }
  destruct r as [piece1|]; [|by eexists]. specialize (Hr _ eq_refl).
  destruct (range_map _ _ false piece1) as [piece2|] eqn:Hm; [|by eexists].
  apply range_map_length in Hm.
  set (piece3 := apply_scalar_corrections piece2 _ _ _ _ _ _).
  assert (length piece3 = source_width s) as H3 by (subst piece3; rewrite length_corrections; congruence).
  assert (exists piece4, match as_scatter s with
            | Some scatter => gather_panicking piece3 scatter
            | None => Some piece3
            end = Some piece4 /\
            length piece4 = match as_scatter s with Some scatter => length scatter | None => source_width s end)
    as (piece4 & -> & H4).
  { destruct (as_scatter s) as [scatter|]; [|by eauto]. apply mapM_total.
    eapply Forall_impl; [by apply Hsc|]. intros i Hi. apply lookup_lt_is_Some_2. cbn in Hi. lia. }
  set (piece5 := if as_binarize s then _ else _).
  destruct (clamp_all_spec (as_clip s) piece5 Hcl) as (out & -> & Hlen & Hclip).
  eexists. split; [done|]. intros p [= <-]. split; [|done].
  rewrite Hlen, <- H4. subst piece5. destruct (as_binarize s); by rewrite ?length_fmap, length_corrections.
Qed.

Definition action_width (plan : ActionPlan) : nat := sum_list (segment_width <$> ap_segments plan).

Lemma action_segments_spec in_dim segments action :
  Forall (segment_ok in_dim) segments -> length action = in_dim ->
  exists r, action_segments segments action = Some r /\
    forall out, r = Ok out -> exists pieces, out = concat pieces /\
      Forall2 (fun s piece => length piece = segment_width s /\
        (as_fill s = None -> Forall (clipped (as_clip s)) piece)) segments pieces.
Proof.
  intros Hs Ha. induction Hs as [|s segments Hs _ IH]; cbn [action_segments].
  { eexists. split; [done|]. intros out [= <-]. by exists []. }
  destruct (action_segment_spec in_dim s action Hs Ha) as (r & -> & Hr).
  destruct r as [piece|]; [|by eexists]. specialize (Hr _ eq_refl).
  destruct IH as (r' & -> & Hr'). destruct r' as [rest|]; [|by eexists].
  destruct (Hr' _ eq_refl) as (pieces & -> & Hp).
  eexists. split; [done|]. intros out [= <-]. exists (piece :: pieces). by split; [|constructor].
Qed.

Lemma tensor_from_f32_total xs :
  Z.of_nat (length xs) * 4 <= isize_max ->
  tensor_from_f32 [Z.of_nat (length xs)] xs
    = Some (dense_tensor (concat (f32_le_bytes <$> xs)) [Z.of_nat (length xs)] Float32) /\
  dense (dense_tensor (concat (f32_le_bytes <$> xs)) [Z.of_nat (length xs)] Float32)
    (concat (f32_le_bytes <$> xs)).
Proof.
  intros Hl. unfold tensor_from_f32.
  destruct (from_vec_dense (concat (f32_le_bytes <$> xs)) [Z.of_nat (length xs)] Float32)
    as [-> Hd]; [| |by split].
  - split; [done|rewrite dims_ok_cons; split; [unfold_ints; lia|constructor]|].
    cbn. unfold_ints. lia.
  - rewrite (length_concat_uniform 4), length_fmap.
    + cbn [volume dtype_size]. lia.
    + apply Forall_fmap, Forall_forall. intros x _. apply length_f32_bytes.
Qed.
End ActionSpec.

Lemma length_pieces (segments : list ActionSegment) (pieces : list (list f32)) :
  Forall2 (fun s piece => length piece = segment_width s /\
    (as_fill s = None -> Forall (clipped (as_clip s)) piece)) segments pieces ->
  length (concat pieces) = sum_list (segment_width <$> segments).
Proof.
  induction 1 as [|s piece segments pieces [Hl _] _ IH]; [done|].
  cbn [concat]. rewrite fmap_cons, length_app, Hl, IH. done.
Qed.

(** Applying a resolved action plan never panics, whatever the model outputs.  A
    produced action is a flat float32 tensor of the plan's width, every number in it
    lies in the plan's clip, and without one every number of a driven segment lies in
    the clip of its segment. *)
Lemma transform_action_spec `{HalfOps} `{Libm} (plan : ActionPlan) (raw_action : Value) :
  Forall (segment_ok (ap_in_dim plan)) (ap_segments plan) -> ordered (ap_clip plan) ->
  Z.of_nat (action_width plan) * 4 <= isize_max -> value_dense raw_action ->
  exists r, transform_action plan raw_action = Some r /\
  forall t, r = Ok t -> exists xs,
    t = dense_tensor (concat (f32_le_bytes <$> xs)) [Z.of_nat (action_width plan)] Float32 /\
    dense t (concat (f32_le_bytes <$> xs)) /\
    length xs = action_width plan /\ Forall (clipped (ap_clip plan)) xs /\
    (ap_clip plan = None -> exists pieces, xs = concat pieces /\
       Forall2 (fun s piece => length piece = segment_width s /\
         (as_fill s = None -> Forall (clipped (as_clip s)) piece)) (ap_segments plan) pieces).
Proof.
  intros Hs Hc Hw Hv. unfold transform_action.
  destruct (numeric_vector_total raw_action Hv) as [[action|] ->]; [|by eexists].
  destruct (decide (length action <> ap_in_dim plan)) as [|Hl]; [by eexists|].
  apply dec_stable in Hl.
  destruct (action_segments_spec _ _ action Hs Hl) as ([out|] & -> & Ho); [|by eexists].
  destruct (Ho _ eq_refl) as (pieces & -> & Hp). pose proof (length_pieces _ _ Hp) as Hlen.
  destruct (clamp_all_spec (ap_clip plan) (concat pieces) Hc) as (xs & Hx & Hxl & Hxc).
  rewrite Hx. assert (length xs = action_width plan) as Hxw by (unfold action_width; congruence).
  destruct (tensor_from_f32_total xs) as [-> Hd]; [by rewrite Hxw|].
  eexists. split; [done|]. intros t [= <-]. exists xs. rewrite Hxw in *. split_and!; try done.
  intros Hn. exists pieces. split; [|done]. rewrite Hn in Hx. cbn in Hx. congruence.
Qed.

(** ** Witnesses *)

(** The sample frame under [inputs.rgb] and a task text at [inputs.task]. *)
Definition sample_plans : list ObsPlan :=
  [OImage {|
     ip_placement := [PKey "inputs"; PKey "rgb"]; ip_source := [PKey "cam"];
     ip_src_layout := Hwc; ip_dst_layout := Chw; ip_flip := true; ip_size := None;
     ip_fit := FitStretch; ip_resample := "bilinear"; ip_dtype := "uint8";
     ip_normalize := None; ip_lead_dims := 1; ip_src_range := None;
     ip_stack := 1; ip_zero_fill := None; ip_fill := byte.of_Z 0; ip_jpeg_quality := None;
     ip_crop := None; ip_swap_rb := true; ip_render := None; ip_offsets := None;
     ip_stack_pad := PadFirst; ip_frame_bytes := 12; ip_role_rebound := None; ip_part := None |};
   OText {| tp_placement := [PKey "inputs"; PKey "task"]; tp_source := Some [PKey "goal"];
            tp_container := TextStr; tp_fill := None |}].

Definition sample_raw : btree Value :=
  [("cam", ValTensor sample_frame); ("goal", ValText [112; 105; 99; 107])].

Definition sample_transform (raw : btree Value) : option (result Value ApplyError) :=
  @transform_obs ieee_half no_codec no_libm 0 sample_plans raw NoCustoms None.

Definition sample_adapter (act : ActionPlan) : ResolvedAdapter :=
  {| ra_obs_plans := sample_plans; ra_action_plan := act; ra_stacked := []; ra_previous := [];
     ra_resolve_advisories := []; ra_quiet_advisories := [] |}.


(** Two joints, driven in the other order and clipped, and a constant. *)
Definition sample_segment (scatter : option (list nat)) (clip : option (f64 * f64))
    (fill : option (nat * f64)) : ActionSegment := {|
  as_role := Some "joints"; as_start := 0; as_stop := 2; as_src_encoding := None;
  as_dst_encoding := None; as_src_range := None; as_dst_range := None;
  as_model_scale := None; as_model_offset := None; as_model_axis_scale := None;
  as_model_axis_offset := None; as_model_invert := false; as_model_threshold := None;
  as_scale := Some (f64_of_Z 2); as_offset := None; as_axis_scale := None; as_axis_offset := None;
  as_invert := false; as_threshold := None; as_scatter := scatter; as_labels := None;
  as_model_labels := None; as_binarize := false; as_clip := clip; as_frame := None;
  as_reference := None; as_part := None; as_fill := fill |}.

Definition sample_action : ActionPlan := {|
  ap_segments := [sample_segment (Some [1; 0]%nat) (Some (f64_of_Z (-1), f64_of_Z 1)) None;
                  sample_segment None None (Some (1%nat, f64_of_Z 3))];
  ap_clip := None; ap_in_dim := 2 |}.
