(* ===== verification/AdapterHistory.v ===== *)
(** * Episode history and the per-lane seam

    [src/crates/rlmesh-adapters/src/stateful.rs]: the frame windows and recorded
    actions an adapter keeps per episode, the assembly of one lane's model input, the
    observe tick of a replayed step, the conversion of one lane's action, and the
    bridge between space values and payload values.

    The buffers of a route are explicit state; a failing call keeps the changes it made
    before it failed. *)

From stdpp Require Import gmap strings.
From S2P Require Import Prelude BTree Float FloatOps DType Scalar Tensor Types AdapterValue AdapterGeometry AdapterPlans AdapterImage AdapterApply.
#[local] Open Scope Z_scope.

#[export] Instance PathSeg_countable : Countable PathSeg.
Proof.
  apply (inj_countable'
    (fun seg => match seg with PKey key => inl key | PIndex index => inr index end)
    (fun code => match code with inl key => PKey key | inr index => PIndex index end)).
  by intros [].
Defined.

#[export] Instance NodePath_countable : Countable NodePath := list_countable.

(** ** State *)

Record Window : Type := { frames : list Tensor }.

Record EpisodeWindows : Type := {
  windows : gmap NodePath Window;
  ep_last_step : option Z;
  actions : gmap Z (list f32);
  first_step : option Z;
}.

Notation FrameBuffers := (gmap string EpisodeWindows).

Definition window_default : Window := {| frames := [] |}.
Definition episode_default : EpisodeWindows :=
  {| windows := ∅; ep_last_step := None; actions := ∅; first_step := None |}.

Definition set_windows (w : gmap NodePath Window) (e : EpisodeWindows) : EpisodeWindows :=
  {| windows := w; ep_last_step := ep_last_step e; actions := actions e;
     first_step := first_step e |}.
Definition set_last_step (s : option Z) (e : EpisodeWindows) : EpisodeWindows :=
  {| windows := windows e; ep_last_step := s; actions := actions e; first_step := first_step e |}.
Definition set_actions (a : gmap Z (list f32)) (e : EpisodeWindows) : EpisodeWindows :=
  {| windows := windows e; ep_last_step := ep_last_step e; actions := a;
     first_step := first_step e |}.
Definition set_first_step (s : option Z) (e : EpisodeWindows) : EpisodeWindows :=
  {| windows := windows e; ep_last_step := ep_last_step e; actions := actions e;
     first_step := s |}.

(** [self.inner.entry(episode_id).or_default()]. *)
Definition episode_entry (episode_id : string) (b : FrameBuffers) : EpisodeWindows :=
  default episode_default (b !! episode_id).

(** A call on the buffers: a panic, or the buffers after it with its result. *)
Definition Buffered (A : Type) : Type :=
  FrameBuffers -> option (FrameBuffers * result A ApplyError).

Definition ret {A} (a : A) : Buffered A := fun b => Some (b, Ok a).
Definition fail {A} (e : ApplyError) : Buffered A := fun b => Some (b, Err e).
(** A step that does not touch the buffers. *)
Definition lift {A} (r : option (result A ApplyError)) : Buffered A :=
  fun b => let! r := r in Some (b, r).

Definition bind {A B} (m : Buffered A) (k : A -> Buffered B) : Buffered B := fun b =>
  match m b with
  | None => None
  | Some (b, Err e) => Some (b, Err e)
  | Some (b, Ok a) => k a b
  end.

Declare Scope buffers_scope.
Notation "'let~' x ':=' m 'in' k" := (bind m (fun x => k))
  (at level 10, x pattern, m at level 100, k at level 200,
   format "'[v' 'let~'  x  ':='  m  'in' '/' k ']'") : buffers_scope.
#[local] Open Scope buffers_scope.

Definition with_episode {A} (episode_id : string)
    (f : EpisodeWindows -> option (EpisodeWindows * result A ApplyError)) : Buffered A := fun b =>
  let! (e, r) := f (episode_entry episode_id b) in
  Some (<[episode_id := e]> b, r).

(** ** Lifecycle and queries *)

Definition buffers_new : FrameBuffers := ∅.
Definition evict (b : FrameBuffers) (episode_id : string) : FrameBuffers := delete episode_id b.
Definition clear (_ : FrameBuffers) : FrameBuffers := ∅.
Definition episodes (b : FrameBuffers) : nat := size b.
Definition holds (b : FrameBuffers) (episode_id : string) : bool :=
  bool_decide (is_Some (b !! episode_id)).

(** [iter.sum()] of [u64]s. *)
Fixpoint sum_u64 (l : list Z) : option Z :=
  match l with
  | [] => Some 0
  | x :: l => let! rest := sum_u64 l in checked 0 u64_max (x + rest)
  end.

Definition episode_bytes (e : EpisodeWindows) : option Z :=
  let! sizes := mapM nbytes (concat ((fun kv => frames kv.2) <$> map_to_list (windows e))) in
  let! frame_bytes := sum_u64 sizes in
  let! action_bytes :=
    sum_u64 ((fun kv => Z.of_nat (length kv.2) * 4) <$> map_to_list (actions e)) in
  checked 0 u64_max (frame_bytes + action_bytes).

Definition state_bytes (b : FrameBuffers) : option Z :=
  let! sizes := mapM (fun kv => episode_bytes kv.2) (map_to_list b) in
  sum_u64 sizes.

Definition last_step (b : FrameBuffers) (episode_id : string) : option Z :=
  b !! episode_id ≫= ep_last_step.

(** [keys().next_back()]. *)
Definition last_key {V} (m : gmap Z V) : option Z :=
  foldr (fun kv acc => Some match acc with Some k => Z.max k kv.1 | None => kv.1 end)
    None (map_to_list m).

Definition chunk_start (b : FrameBuffers) (episode_id : string) : option Z :=
  match b !! episode_id with
  | None => Some 0
  | Some e =>
      let observed := default 0 (ep_last_step e) in
      match last_key (actions e) with
      | None => Some observed
      | Some last => let! next := checked_i64 (last + 1) in Some (Z.max observed next)
      end
  end.

Definition next_step (b : FrameBuffers) (episode_id : string) : option Z :=
  match last_step b episode_id with
  | None => Some 0
  | Some last => checked_i64 (last + 1)
  end.

(** ** Steps *)

Definition previous_action (episode_id : string) (step : Z) : Buffered (option (list f32)) :=
  with_episode episode_id (fun e =>
    let first := default step (first_step e) in
    let e := set_first_step (Some first) e in
    if first =? step then Some (e, Ok None)
    else
      let! wanted := checked_i64 (step - 1) in
      let e := set_actions (filter (fun kv => wanted <= kv.1) (actions e)) e in
      Some (e, match actions e !! wanted with
               | Some row => Ok (Some row)
               | None => Err (apply_error
                   (Msg "episode {episode_id}: the observation at step {step} reads the previous action but no action was recorded for step {wanted}; every executed action of the episode must reach apply_actions (or transform_action) once, under its step"
                      [AStr episode_id; AZ step; AZ wanted]))
               end)).

Definition advance_step (episode_id : string) (step : Z) : Buffered unit :=
  with_episode episode_id (fun e =>
    match ep_last_step e with
    | Some last =>
        let! next := checked_i64 (last + 1) in
        if negb (step =? next) then
          Some (e, Err (apply_error
            (Msg "observation history for episode {episode_id} is not consecutive: step {step} arrived after step {last} (expected {}); every env step of the episode must reach the model exactly once, in order"
               [AStr episode_id; AZ step; AZ last; AZ next])))
        else Some (set_last_step (Some step) e, Ok tt)
    | None => Some (set_last_step (Some step) e, Ok tt)
    end).

(** ** Windows *)

Definition MAX_EXECUTION_HORIZON : Z := 1024.

Record EncodingTransform : Type := {
  repack_obs : Value -> result Value ApplyError;
  repack_action : Value -> result Value ApplyError;
}.

Definition NoEncodings : EncodingTransform :=
  {| repack_obs payload := Ok payload; repack_action action := Ok action |}.

Section History.
Context `{HalfOps} `{ImageCodec} `{Libm} (addr : Z).

Definition black_frame (frame : Tensor) (plan : ImagePlan) : option (result Tensor ApplyError) :=
  let level := match ip_normalize plan with
               | Some (low, _) => f64_of_f32 (f32_of_f64 low)
               | None => f64_zero
               end in
  let! n := numel frame in
  encode_f64_to (replicate (Z.to_nat n) level) (shape frame) (dtype frame).

(** A [VecDeque] that holds [span] frames drops its oldest for the new one.  (The
    debug assertion on the depth is not part of a release build.) *)
Definition window_push (w : Window) (frame : Tensor) (entry : StackedPlacement) (plan : ImagePlan)
    : option (result Window ApplyError) :=
  let span := Z.to_nat (sk_span entry) in
  let!? padded :=
    match frames w with
    | [] =>
        let!? pad := match sk_stack_pad entry with
                     | PadFirst => Some (Ok frame)
                     | PadBlack => black_frame frame plan
                     end in
        Some (Ok (replicate (span - 1) pad))
    | held => Some (Ok held)
    end in
  let kept := if (length padded =? span)%nat then tail padded else padded in
  Some (Ok {| frames := kept ++ [frame] |}).

(** The frame [offset] steps back from the newest. *)
Definition frame_back (w : Window) (offset : Z) : option Tensor :=
  let newest := Z.of_nat (length (frames w)) - 1 in
  if Z.abs offset <=? Z.max newest 0 then frames w !! Z.to_nat (Z.max newest 0 - Z.abs offset)
  else None.

Fixpoint pick_offsets (w : Window) (entry : StackedPlacement) (offsets : list Z)
    : result (list Tensor) ApplyError :=
  match offsets with
  | [] => Ok []
  | offset :: offsets =>
      let? frame := ok_or (frame_back w offset) (apply_error
        (Msg "frame window for '{}' holds {} frame(s), too few to reach offset {offset}"
           [AStr (sk_key entry); ANat (length (frames w)); AZ offset])) in
      let? rest := pick_offsets w entry offsets in
      Ok (frame :: rest)
  end.

Definition window_gather (w : Window) (entry : StackedPlacement)
    : option (result Tensor ApplyError) :=
  let!? picked :=
    Some match sk_offsets entry with
    | None => Ok (frames w)
    | Some offsets => pick_offsets w entry offsets
    end in
  lift_err (fun err => apply_error (Msg "frame-stack failed: {err}" [nested (tensor_error_message err)]))
    (stack addr picked).

(** ** Action chunks *)

(** The rows of a Dict chunk: step [i] of every field. *)
Definition zip_fields (fields : list (string * list Value)) (horizon : nat) : option (list Value) :=
  mapM (fun i =>
    let! entries := mapM (fun '(key, frames) => let! frame := frames !! i in Some (key, frame)) fields in
    Some (ValMap entries)) (seq 0 horizon).

Fixpoint split_chunk (raw_action : Value) : option (result (list Value) ApplyError) :=
  match raw_action with
  | ValTensor t =>
      match shape t with
      | [] => Some (Ok [ValTensor t])
      | _ =>
          let!? rows := lift_err
            (fun err => apply_error (Msg "action chunk split failed: {err}"
                                       [nested (tensor_error_message err)])) (unstack t) in
          Some (Ok (ValTensor <$> rows))
      end
  | ValList actions => Some (Ok actions)
  | ValMap m =>
      let!? (fields, horizon) :=
        (fix split_fields (m : btree Value) (horizon : option nat)
            : option (result (list (string * list Value) * option nat) ApplyError) :=
           match m with
           | [] => Some (Ok ([], horizon))
           | (key, value) :: m =>
               let!? frames := split_chunk value in
               let disagree := match horizon with
                               | Some h => negb (h =? length frames)%nat
                               | None => false
                               end in
               if disagree then
                 Some (Err (apply_error
                   (Msg "action chunk fields disagree on horizon: {h} vs {}"
                      [ANat (default 0%nat horizon); ANat (length frames)])))
               else
                 let!? (rest, horizon) := split_fields m (Some (length frames)) in
                 Some (Ok ((key, frames) :: rest, horizon))
           end) m None in
      let! rows := zip_fields fields (default 0%nat horizon) in
      Some (Ok rows)
  | other => Some (Ok [other])
  end.

(** ** Assembly *)

Definition get_window (placement : NodePath) (e : EpisodeWindows) : Window :=
  default window_default (windows e !! placement).

(** Push a frame into a placement's window and give the window back. *)
Definition push_frame (adapter : ResolvedAdapter) (episode_id : string) (entry : StackedPlacement)
    (frame : Tensor) : Buffered Window :=
  with_episode episode_id (fun e =>
    match ra_obs_plans adapter !! sk_plan_index entry with
    | Some (OImage image_plan) =>
        let window := get_window (sk_placement entry) e in
        let! r := window_push window frame entry image_plan in
        match r with
        | Ok window => Some (set_windows (<[sk_placement entry := window]> (windows e)) e, Ok window)
        | Err err => Some (set_windows (<[sk_placement entry := window]> (windows e)) e, Err err)
        end
    | _ => None
    end).

Fixpoint stack_frames (adapter : ResolvedAdapter) (episode_id : string)
    (stacked : list StackedPlacement) (payload : Value) : Buffered Value :=
  match stacked with
  | [] => ret payload
  | entry :: stacked =>
      let~ (slot, write) := lift (Some (resolve_source_mut payload (sk_placement entry))) in
      match slot with
      | ValTensor frame =>
          let~ window := push_frame adapter episode_id entry frame in
          let~ gathered := lift (window_gather window entry) in
          stack_frames adapter episode_id stacked (write (ValTensor gathered))
      | _ => fail (apply_error (Msg "frame-stacked input '{}' must be a tensor" [AStr (sk_key entry)]))
      end
  end.

Definition assemble_obs (adapter : ResolvedAdapter) (raw_obs : btree Value) (episode_id : string)
    (step : Z) (customs : CustomTransform) (encodings : EncodingTransform) : Buffered Value :=
  let~ previous := (if reads_previous_action adapter then previous_action episode_id step else ret None) in
  let~ payload := lift (transform_obs addr (ra_obs_plans adapter) raw_obs customs previous) in
  let~ payload := lift (Some (repack_obs encodings payload)) in
  match ra_stacked adapter with
  | [] => ret payload
  | stacked =>
      let~ _ := with_episode episode_id (fun e => Some (e, Ok tt)) in
      stack_frames adapter episode_id stacked payload
  end.

Fixpoint push_frames (adapter : ResolvedAdapter) (episode_id : string)
    (pairs : list (StackedPlacement * Tensor)) : Buffered unit :=
  match pairs with
  | [] => ret tt
  | (entry, frame) :: pairs =>
      let~ _ := push_frame adapter episode_id entry frame in
      push_frames adapter episode_id pairs
  end.

Definition observe_obs (adapter : ResolvedAdapter) (raw_obs : btree Value) (episode_id : string)
    : Buffered unit :=
  match ra_stacked adapter with
  | [] => ret tt
  | stacked =>
      let~ frames := lift (history_frames addr adapter raw_obs) in
      let~ _ := with_episode episode_id (fun e => Some (e, Ok tt)) in
      push_frames adapter episode_id (zip stacked frames)
  end.

(** ** Actions *)

Fixpoint integral_values (kind : string) (values : list f64) : result (list Z) ApplyError :=
  match values with
  | [] => Ok []
  | value :: values =>
      if f64_is_finite value && f64_eqb (f64_fract value) f64_zero then
        let? rest := integral_values kind values in
        Ok (f64_as_int i64_min i64_max value :: rest)
      else Err (apply_error (Msg "{kind} action must be an integer, got {value}"
                               [AStr kind; AF64 (f64_bits value)]))
  end.

Definition tensor_to_space_value (action : Tensor) (space : SpaceSpec)
    : option (result SpaceValue ApplyError) :=
  match spec space with
  | Some (KBox _) =>
      let!? casted := cast action (space_dtype space) in
      let!? reshaped := lift_err
        (fun err => apply_error (Msg "action reshape: {err}" [nested (tensor_error_message err)]))
        (reshape addr casted (space_shape space)) in
      Some (Ok (VBox reshaped))
  | Some (KDiscrete _) =>
      let! values := to_f64_vec action in
      let!? integral := Some (integral_values "Discrete" values) in
      let!? first := Some (ok_or (head integral)
        (apply_error (lit "Discrete action produced an empty vector"))) in
      Some (Ok (VDiscrete first))
  | Some (KMultiBinary _) =>
      let! values := to_f64_vec action in
      Some (Ok (VMultiBinary ((fun v => negb (f64_eqb v f64_zero)) <$> values)))
  | Some (KMultiDiscrete _) =>
      let! values := to_f64_vec action in
      let!? integral := Some (integral_values "MultiDiscrete" values) in
      Some (Ok (VMultiDiscrete integral))
  | Some (KText _ | KDict _ | KTuple _) =>
      Some (Err (apply_error (lit "a resolved adapter cannot produce a text/dict/tuple action")))
  | None => Some (Err (apply_error (lit "action space spec is missing")))
  end.

Definition record_action (adapter : ResolvedAdapter) (raw_action : Value) (episode_id : string)
    (step : Z) : Buffered unit :=
  if negb (reads_previous_action adapter) then ret tt
  else
    let~ row := lift (numeric_vector raw_action) in
    if decide (length row <> ap_in_dim (ra_action_plan adapter)) then
      fail (apply_error
        (Msg "cannot record the action executed at step {step}: it has {} elements but the action plan reads {}"
           [AZ step; ANat (length row); ANat (ap_in_dim (ra_action_plan adapter))]))
    else with_episode episode_id (fun e => Some (set_actions (<[step := row]> (actions e)) e, Ok tt)).

Definition apply_actions (adapter : ResolvedAdapter) (raw_action : Value) (space : SpaceSpec)
    (encodings : EncodingTransform) (episode_id : string) (step : Z) : Buffered SpaceValue :=
  let~ action := lift (Some (repack_action encodings raw_action)) in
  let~ env_action := lift (transform_action (ra_action_plan adapter) action) in
  let~ value := lift (tensor_to_space_value env_action space) in
  let~ _ := record_action adapter action episode_id step in
  ret value.

(** ** Comparing two outputs *)

Definition max_diff (xs ys : list f64) : f64 :=
  fold_left f64_max (zip_with (fun x y => f64_abs (f64_sub x y)) xs ys) f64_zero.

(** [None] inside: the two do not line up. *)
Fixpoint value_max_abs_diff (left right : Value) : option (option f64) :=
  match left, right with
  | ValTensor a, ValTensor b =>
      if negb (bool_decide (shape a = shape b)) then Some None
      else
        let! xs := to_f64_vec a in
        let! ys := to_f64_vec b in
        Some (Some (max_diff xs ys))
  | ValNone, ValNone => Some (Some f64_zero)
  | ValBool a, ValBool b => Some (Some (if Bool.eqb a b then f64_zero else one64))
  | ValInt a, ValInt b => Some (Some (f64_of_Z (Z.abs (a - b))))
  | ValNumber a, ValNumber b => Some (Some (f64_abs (f64_sub a b)))
  | ValList a, ValList b | ValTuple a, ValTuple b =>
      if negb (length a =? length b)%nat then Some None
      else
        (fix go (worst : f64) (a b : list Value) : option (option f64) :=
           match a, b with
           | x :: a, y :: b =>
               let! d := value_max_abs_diff x y in
               match d with
               | Some d => go (f64_max worst d) a b
               | None => Some None
               end
           | _, _ => Some (Some worst)
           end) f64_zero a b
  | ValMap a, ValMap b =>
      if negb (length a =? length b)%nat then Some None
      else
        (fix go (worst : f64) (a : btree Value) : option (option f64) :=
           match a with
           | (key, x) :: a =>
               match btree_get key b with
               | None => Some None
               | Some y =>
                   let! d := value_max_abs_diff x y in
                   match d with
                   | Some d => go (f64_max worst d) a
                   | None => Some None
                   end
               end
           | [] => Some (Some worst)
           end) f64_zero a
  | _, _ => Some None
  end.

(** ** Space values *)

Definition byte_of_bool (b : bool) : byte := if b then Byte.x01 else Byte.x00.

Definition leaf_error (template : string) (m : message) : ApplyError :=
  apply_error (Msg template [nested m]).

Fixpoint space_value_to_value (value : SpaceValue) (space : SpaceSpec)
    : option (result Value ApplyError) :=
  match value with
  | VBox t => Some (Ok (ValTensor t))
  | VDiscrete v => Some (Ok (ValInt v))
  | VText text => Some (Ok (ValText text))
  | VMultiBinary values =>
      let!? t := lift_err
        (fun err => leaf_error "multibinary observation leaf: {err}" (tensor_error_message err))
        (tensor_from_vec (byte_of_bool <$> values) (space_shape space) (space_dtype space)) in
      Some (Ok (ValTensor t))
  | VMultiDiscrete values =>
      let!? bytes := lift_err
        (fun err => leaf_error "multidiscrete observation leaf: {err}" (scalar_error_message err))
        (encode_i64_scalars values (space_dtype space)) in
      let!? t := lift_err
        (fun err => leaf_error "multidiscrete observation leaf: {err}" (tensor_error_message err))
        (tensor_from_vec bytes (space_shape space) (space_dtype space)) in
      Some (Ok (ValTensor t))
  | VDict values =>
      match spec space with
      | Some (KDict d) =>
          (fix fields (specs : list (string * SpaceSpec)) (out : btree Value)
              : option (result Value ApplyError) :=
             match specs with
             | [] => Some (Ok (ValMap out))
             | (key, child_space) :: specs =>
                 (fix find (l : list (string * SpaceValue)) : option (result Value ApplyError) :=
                    match l with
                    | [] => fields specs out
                    | (k, child) :: l =>
                        if (key =? k)%string then
                          let!? v := space_value_to_value child child_space in
                          fields specs (btree_insert key v out)
                        else find l
                    end) values
             end) (zip (keys d) (dict_spaces d)) []
      | _ => Some (Err (apply_error (lit "dict observation value without a dict space")))
      end
  | VTuple values =>
      match spec space with
      | Some (KTuple tspec) =>
          let!? out :=
            (fix go (values : list SpaceValue) (spaces : list SpaceSpec)
                : option (result (list Value) ApplyError) :=
               match values, spaces with
               | child :: values, child_space :: spaces =>
                   let!? v := space_value_to_value child child_space in
                   let!? rest := go values spaces in
                   Some (Ok (v :: rest))
               | _, _ => Some (Ok [])
               end) values (tuple_spaces tspec) in
          Some (Ok (ValTuple out))
      | _ => Some (Err (apply_error (lit "tuple observation value without a tuple space")))
      end
  end.

Fixpoint obs_entries (values : list (string * SpaceValue)) (referenced : btree unit)
    (specs : list (string * SpaceSpec)) (out : btree Value)
    : option (result (btree Value) ApplyError) :=
  match specs with
  | [] => Some (Ok out)
  | (key, child_space) :: specs =>
      match btree_get key referenced, btree_get key values with
      | Some _, Some child =>
          if (key =? OBS_ROOT_KEY)%string then
            Some (Err (apply_error
              (Msg "env observation has a top-level key '{OBS_ROOT_KEY}', which collides with the reserved whole-observation envelope key; rename the env key"
                 [AStr OBS_ROOT_KEY])))
          else
            let!? v := space_value_to_value child child_space in
            obs_entries values referenced specs (btree_insert key v out)
      | _, _ => obs_entries values referenced specs out
      end
  end.

Definition space_value_to_obs_map (value : SpaceValue) (space : SpaceSpec) (referenced : btree unit)
    : option (result (btree Value) ApplyError) :=
  match value with
  | VDict values =>
      match spec space with
      | Some (KDict d) => obs_entries values referenced (zip (keys d) (dict_spaces d)) []
      | _ => Some (Err (apply_error (lit "dict observation value without a dict space")))
      end
  | _ =>
      let!? v := space_value_to_value value space in
      Some (Ok [(OBS_ROOT_KEY, v)])
  end.
End History.
