(* ===== verification/AdapterHistorySpec.v ===== *)
(** * Correctness of the episode history

    A window holds the most recent frames of its episode, whichever ticks delivered
    them; steps are accepted in order; the action read back is the one recorded for
    the step before; the episodes of a route do not affect one another. *)

From stdpp Require Import gmap strings.
From S2P Require Import Prelude BTree Float FloatOps DType Scalar Tensor Types AdapterValue AdapterGeometry AdapterPlans AdapterImage AdapterImageSpec AdapterApply AdapterApplySpec AdapterHistory.
#[local] Open Scope Z_scope.
#[local] Open Scope buffers_scope.

(** ** Calls and the episodes they touch *)

(** A call leaves every other episode as it was. *)
Definition only_touches {A} (episode_id : string) (m : Buffered A) : Prop :=
  forall b b' r, m b = Some (b', r) -> forall other, other <> episode_id -> b' !! other = b !! other.

Lemma touches_ret {A} ep (a : A) : only_touches ep (ret a).
Proof. intros b b' r [= <- <-]. done. Qed.

Lemma touches_fail {A} ep e : only_touches ep (@fail A e).
Proof. intros b b' r [= <- <-]. done. Qed.

Lemma touches_lift {A} ep (x : option (result A ApplyError)) : only_touches ep (lift x).
Proof. intros b b' r. unfold lift. destruct x; [|done]. by intros [= <- <-]. Qed.

Lemma touches_bind {A B} ep (m : Buffered A) (k : A -> Buffered B) :
  only_touches ep m -> (forall a, only_touches ep (k a)) -> only_touches ep (bind m k).
Proof.
  intros Hm Hk b b' r. unfold bind. destruct (m b) as [[b1 [a|e]]|] eqn:E; [| |done].
  - intros Hb other Ho. rewrite (Hk a _ _ _ Hb other Ho). by eapply Hm.
  - intros [= <- <-]. by eapply Hm.
Qed.

Lemma touches_episode {A} ep (f : EpisodeWindows -> option (EpisodeWindows * result A ApplyError)) :
  only_touches ep (with_episode ep f).
Proof.
  intros b b' r. unfold with_episode. destruct (f _) as [[e r']|]; [|done].
  intros [= <- <-] other Ho. by rewrite lookup_insert_ne.
Qed.

Create HintDb touches.
#[export] Hint Resolve touches_ret touches_fail touches_lift touches_bind touches_episode : touches.

Section Touches.
Context `{HalfOps} `{ImageCodec} `{Libm} (addr : Z).

Lemma touches_push_frame a ep entry frame : only_touches ep (push_frame a ep entry frame).
Proof. apply touches_episode. Qed.

Lemma touches_stack a ep stacked payload : only_touches ep (stack_frames addr a ep stacked payload).
Proof.
  revert payload; induction stacked as [|entry stacked IH]; intros payload; [apply touches_ret|].
  cbn [stack_frames]. apply touches_bind; [apply touches_lift|]. intros [slot write].
  destruct slot; auto with touches. apply touches_bind; [apply touches_push_frame|]. intros window.
  apply touches_bind; auto with touches.
Qed.

Lemma touches_push_frames a ep pairs : only_touches ep (push_frames a ep pairs).
Proof.
  induction pairs as [|[entry frame] pairs IH]; [apply touches_ret|]. cbn [push_frames].
  apply touches_bind; auto using touches_push_frame.
Qed.
End Touches.

(** The calls of one lane's episode, its lifecycle apart, change that episode alone:
    a request on one lane cannot disturb the windows, steps or recorded actions of
    another, whether it succeeds or fails. *)
Theorem episodes_isolated `{HalfOps} `{ImageCodec} `{Libm} (addr : Z) (a : ResolvedAdapter)
    (episode_id : string) (step : Z) (raw_obs : btree Value) (raw_action : Value)
    (space : SpaceSpec) (customs : CustomTransform) (encodings : EncodingTransform) :
  only_touches episode_id (advance_step episode_id step) /\
  only_touches episode_id (assemble_obs addr a raw_obs episode_id step customs encodings) /\
  only_touches episode_id (observe_obs addr a raw_obs episode_id) /\
  only_touches episode_id (record_action a raw_action episode_id step) /\
  only_touches episode_id (apply_actions addr a raw_action space encodings episode_id step).
Proof.
  assert (forall v, only_touches episode_id (record_action a v episode_id step)) as Hrec.
  { intros v. unfold record_action. destruct (negb _); [apply touches_ret|].
    apply touches_bind; [apply touches_lift|]. intros row. case_decide; auto with touches. }
  split_and!; [apply touches_episode| | |apply Hrec|].
  - unfold assemble_obs. apply touches_bind.
    { destruct (reads_previous_action a); [apply touches_episode|apply touches_ret]. }
    intros previous. repeat (apply touches_bind; [by auto with touches|intros ?]).
    destruct (ra_stacked a); [apply touches_ret|].
    apply touches_bind; [apply touches_episode|]. intros _. apply touches_stack.
  - unfold observe_obs. destruct (ra_stacked a); [apply touches_ret|].
    apply touches_bind; [apply touches_lift|]. intros frames.
    apply touches_bind; [apply touches_episode|]. intros _. apply touches_push_frames.
  - unfold apply_actions. repeat (apply touches_bind; [by auto with touches|intros ?]).
    auto with touches.
Qed.

(** ** Windows *)

Section Windows.
Context `{HalfOps} `{ImageCodec} `{Libm} (addr : Z).
Context (entry : StackedPlacement) (plan : ImagePlan).
Let span : nat := Z.to_nat (sk_span entry).

(** Frames delivered one after another. *)
Fixpoint pushes (w : Window) (fs : list Tensor) : option (result Window ApplyError) :=
  match fs with
  | [] => Some (Ok w)
  | frame :: fs =>
      let!? w := window_push w frame entry plan in
      pushes w fs
  end.

(** What the window is filled with before the episode's first frame. *)
Definition pad_of (frame : Tensor) : option (result Tensor ApplyError) :=
  match sk_stack_pad entry with PadFirst => Some (Ok frame) | PadBlack => black_frame frame plan end.

(** The frame [k] steps before the newest, or the pad before the first. *)
Definition frame_ago (pad : Tensor) (fs : list Tensor) (k : nat) : Tensor :=
  default pad (reverse fs !! k).

(** The last [span] frames of the padded stream. *)
Definition recent (pad : Tensor) (fs : list Tensor) : list Tensor :=
  drop (length fs - 1) (replicate (span - 1) pad ++ fs).

Lemma length_recent pad fs : (1 <= span)%nat -> fs <> [] -> length (recent pad fs) = span.
Proof.
  intros Hs Hf. unfold recent. rewrite length_drop, length_app, length_replicate.
  destruct fs; [done|]. simpl. lia.
Qed.

Lemma recent_ago pad fs :
  (1 <= span)%nat -> fs <> [] -> recent pad fs = frame_ago pad fs <$> reverse (seq 0 span).
Proof.
  intros Hs Hf. apply list_eq. intros i.
  assert (1 <= length fs)%nat as Hn by (destruct fs; [done|simpl; lia]).
  rewrite list_lookup_fmap. destruct (decide (i < span)%nat) as [Hi|Hi].
  - rewrite (proj2 (reverse_lookup_Some (seq 0 span) i (span - 1 - i)%nat))
      by (rewrite length_seq, lookup_seq; lia).
    cbn. unfold recent, frame_ago. rewrite lookup_drop.
    destruct (decide (length fs - 1 + i < span - 1)%nat) as [Hp|Hp].
    + rewrite lookup_app_l by (rewrite length_replicate; lia).
      rewrite lookup_replicate_2 by lia.
      rewrite (lookup_ge_None_2 (reverse fs)) by (rewrite length_reverse; lia). done.
    + rewrite lookup_app_r by (rewrite length_replicate; lia). rewrite length_replicate.
      rewrite (reverse_lookup fs) by lia.
      replace (length fs - 1 + i - (span - 1))%nat with (length fs - S (span - 1 - i))%nat by lia.
      by destruct (lookup_lt_is_Some_2 fs (length fs - S (span - 1 - i))) as [f ->]; [lia|].
  - rewrite (lookup_ge_None_2 (recent pad fs)) by (rewrite length_recent by done; lia).
    by rewrite lookup_ge_None_2 by (rewrite length_reverse, length_seq; lia).
Qed.

Lemma window_push_first frame pad :
  (1 <= span)%nat -> pad_of frame = Some (Ok pad) ->
  window_push window_default frame entry plan = Some (Ok {| frames := recent pad [frame] |}).
Proof.
  unfold window_push, pad_of, recent. fold span. intros Hs Hp. cbn [window_default frames].
  rewrite Hp, length_replicate, (proj2 (Nat.eqb_neq _ _)) by lia. done.
Qed.

Lemma window_push_next pad fs frame :
  (1 <= span)%nat -> fs <> [] ->
  window_push {| frames := recent pad fs |} frame entry plan
  = Some (Ok {| frames := recent pad (fs ++ [frame]) |}).
Proof.
  intros Hs Hf. pose proof (length_recent pad fs Hs Hf) as Hl.
  unfold window_push. fold span. cbn [frames].
  destruct (recent pad fs) as [|f l] eqn:Hr; [simpl in Hl; lia|]. rewrite <- Hr, Hl, Nat.eqb_refl in *.
  do 3 f_equal. unfold recent.
  assert (1 <= length fs)%nat by (destruct fs; [done|simpl; lia]).
  rewrite app_assoc, length_app, (drop_app_le (_ ++ fs))
    by (rewrite length_app, length_replicate; cbn [length]; lia).
  f_equal. cbn [length]. replace (length fs + 1 - 1)%nat with (length fs - 1 + 1)%nat by lia.
  rewrite <- drop_drop. by destruct (drop (length fs - 1) _).
Qed.

Lemma pushes_app w fs fs' :
  pushes w (fs ++ fs') = let!? w := pushes w fs in pushes w fs'.
Proof.
  revert w; induction fs as [|f fs IH]; intros w; [done|]. cbn [pushes app].
  destruct (window_push w f entry plan) as [[w'|]|]; [apply IH|done..].
Qed.

(** A window holds the last frames of the padded stream. *)
Lemma pushes_recent first fs pad :
  (1 <= span)%nat -> pad_of first = Some (Ok pad) ->
  pushes window_default (first :: fs) = Some (Ok {| frames := recent pad (first :: fs) |}).
Proof.
  intros Hs Hp. induction fs as [|f fs IH] using rev_ind.
  - cbn [pushes]. by rewrite (window_push_first first pad Hs Hp).
  - rewrite app_comm_cons, pushes_app, IH. cbn [pushes]. by rewrite window_push_next.
Qed.

Lemma frame_back_ago pad fs o :
  (1 <= span)%nat -> fs <> [] -> (Z.to_nat (Z.abs o) < span)%nat ->
  frame_back {| frames := recent pad fs |} o = Some (frame_ago pad fs (Z.to_nat (Z.abs o))).
Proof.
  intros Hs Hf Ho. pose proof (length_recent pad fs Hs Hf) as Hl.
  unfold frame_back. cbn [frames]. rewrite Hl.
  rewrite (proj2 (Z.leb_le _ _)) by lia. rewrite (recent_ago pad fs Hs Hf), list_lookup_fmap.
  rewrite (proj2 (reverse_lookup_Some (seq 0 span) _ (Z.to_nat (Z.abs o)))); [done|].
  rewrite length_seq, lookup_seq. lia.
Qed.

Lemma pick_offsets_ago pad fs offsets :
  (1 <= span)%nat -> fs <> [] -> Forall (fun o => (Z.to_nat (Z.abs o) < span)%nat) offsets ->
  pick_offsets {| frames := recent pad fs |} entry offsets
  = Ok ((fun o => frame_ago pad fs (Z.to_nat (Z.abs o))) <$> offsets).
Proof.
  intros Hs Hf Ho. induction Ho as [|o offsets Ho _ IH]; [done|]. cbn [pick_offsets].
  rewrite frame_back_ago by done. cbn [ok_or]. by rewrite IH.
Qed.
End Windows.

(** The offsets law resolution checks: none is newer than the current frame or older
    than the first. *)
Definition offsets_law (p : ImagePlan) : Prop :=
  match ip_offsets p with
  | Some (oldest :: rest) => i32_min + 1 < oldest <= 0 /\ Forall (fun o => oldest <= o <= 0) rest
  | Some [] => False
  | None => True
  end.

Lemma stacked_entry i p entry :
  offsets_law p -> 1 < ip_stack p -> stacked_placement i (OImage p) = Some [entry] ->
  (1 <= Z.to_nat (sk_span entry))%nat /\ sk_offsets entry = ip_offsets p /\
  sk_stack_pad entry = ip_stack_pad p /\ sk_plan_index entry = i /\
  sk_placement entry = ip_placement p /\
  (ip_offsets p = None -> sk_span entry = ip_stack p) /\
  forall offsets, ip_offsets p = Some offsets ->
    Forall (fun o => (Z.to_nat (Z.abs o) < Z.to_nat (sk_span entry))%nat) offsets.
Proof.
  unfold offsets_law, stacked_placement, image_span. intros Hl Hs.
  rewrite (proj2 (Z.ltb_lt _ _)) by done.
  destruct (ip_offsets p) as [[|oldest rest]|] eqn:Ho; [done| |].
  - rewrite checked_in by (unfold_ints; lia). rewrite wrap_u_id by (unfold_ints; lia).
    intros [= <-]. cbn. split_and!; try done; [lia|]. intros offsets [= <-].
    destruct Hl as [Hold Hr]. constructor; [lia|]. eapply Forall_impl; [exact Hr|]. cbn. lia.
  - intros [= <-]. cbn. split_and!; try done. lia.
Qed.

(** C35: However many frames an episode has delivered, the stacked input is the stack,
    oldest first, of the frames its offsets name (the last [stack] ones without
    offsets), and of the pad where they reach before the episode's start. *)
Theorem window_gathers_recent `{HalfOps} `{ImageCodec} `{Libm} (addr : Z) (i : nat) (p : ImagePlan)
    (entry : StackedPlacement) (first : Tensor) (fs : list Tensor) (pad : Tensor) :
  offsets_law p -> 1 < ip_stack p -> stacked_placement i (OImage p) = Some [entry] ->
  pad_of entry p first = Some (Ok pad) ->
  exists w, pushes entry p window_default (first :: fs) = Some (Ok w) /\
    length (frames w) = Z.to_nat (sk_span entry) /\
    window_gather addr w entry =
      lift_err (fun err => apply_error
                  (Msg "frame-stack failed: {err}" [nested (tensor_error_message err)]))
        (stack addr
           match ip_offsets p with
           | Some offsets => (fun o => frame_ago pad (first :: fs) (Z.to_nat (Z.abs o))) <$> offsets
           | None => frame_ago pad (first :: fs) <$> reverse (seq 0 (Z.to_nat (ip_stack p)))
           end).
Proof.
  intros Hl Hs He Hp. destruct (stacked_entry _ _ _ Hl Hs He) as (Hspan & Ho & _ & _ & _ & Hn & Hf).
  eexists. split; [by apply pushes_recent|]. split; [by apply length_recent|].
  unfold window_gather. rewrite Ho. destruct (ip_offsets p) as [offsets|].
  - rewrite pick_offsets_ago by (done || by apply Hf). done.
  - cbn [frames]. rewrite recent_ago by done. by rewrite <- (Hn eq_refl).
Qed.

(** ** The observe tick *)

(** An entry belongs to the image plan it names. *)
Definition entry_of (plans : list ObsPlan) (entry : StackedPlacement) : Prop :=
  exists p, plans !! sk_plan_index entry = Some (OImage p) /\ sk_placement entry = ip_placement p.

Lemma stacked_placements_spec plans : forall k stacked,
  stacked_placements k plans = Some stacked ->
  sk_placement <$> stacked `sublist_of` plan_placement <$> plans /\
  Forall (fun entry => (k <= sk_plan_index entry)%nat /\ exists p,
    plans !! (sk_plan_index entry - k)%nat = Some (OImage p) /\
    sk_placement entry = ip_placement p) stacked.
Proof.
  induction plans as [|plan plans IH]; intros k stacked; cbn [stacked_placements].
  { intros [= <-]. by split. }
  destruct (stacked_placement k plan) as [here|] eqn:Hh; [|done].
  destruct (stacked_placements (S k) plans) as [rest|] eqn:Hr; [|done]. intros [= <-].
  destruct (IH _ _ Hr) as [Hs Hf].
  assert (Forall (fun entry => (k <= sk_plan_index entry)%nat /\ exists p,
            (plan :: plans) !! (sk_plan_index entry - k)%nat = Some (OImage p) /\
            sk_placement entry = ip_placement p) rest) as Hf'.
  { eapply Forall_impl; [exact Hf|]. intros entry (Hk & p & Hp & He). split; [lia|]. exists p.
    replace (sk_plan_index entry - k)%nat with (S (sk_plan_index entry - S k)) by lia. done. }
  unfold stacked_placement in Hh.
  destruct plan as [image| | |]; [|injection Hh as <-; split; [by constructor|done]..].
  destruct (1 <? ip_stack image); [|injection Hh as <-; split; [by constructor|done]].
  destruct (image_span image); [|done]. injection Hh as <-. cbn [app].
  split; [rewrite fmap_cons; by constructor|]. constructor; [|done]. cbn.
  split; [lia|]. exists image. by rewrite Nat.sub_diag.
Qed.

Lemma sublist_ForallOrdPairs {A} (R : A -> A -> Prop) (l k : list A) :
  l `sublist_of` k -> ForallOrdPairs R k -> ForallOrdPairs R l.
Proof.
  induction 1 as [|x l k Hl IH|x l k Hl IH]; intros Hk; [constructor|..];
    inversion Hk as [|? ? Hx Hk']; subst; [|by apply IH].
  constructor; [|by apply IH]. apply Forall_forall. intros y Hy.
  by apply (proj1 (Forall_forall _ _) Hx), (elem_of_sublist _ _ _ Hy).
Qed.

Lemma adapter_new_spec plans act r q a :
  adapter_new plans act r q = Some a ->
  ra_obs_plans a = plans /\ ra_action_plan a = act /\
  Forall (entry_of plans) (ra_stacked a) /\
  (ForallOrdPairs path_disjoint (plan_placement <$> plans) ->
   ForallOrdPairs path_disjoint (sk_placement <$> ra_stacked a)).
Proof.
  unfold adapter_new. destruct (stacked_placements 0 plans) as [stacked|] eqn:Hs; [|done].
  intros [= <-]. cbn. apply stacked_placements_spec in Hs as [Hsub Hf]. split_and!; try done.
  - eapply Forall_impl; [exact Hf|]. intros entry (_ & p & Hp & He). exists p.
    by rewrite Nat.sub_0_r in Hp.
  - intros Hd. by eapply sublist_ForallOrdPairs.
Qed.

Section Ticks.
Context `{HalfOps} `{ImageCodec} `{Libm} (addr : Z) (a : ResolvedAdapter) (ep : string).

(** The two buffers hold the same windows for the episode. *)
Definition same_windows (b b' : FrameBuffers) : Prop :=
  windows (episode_entry ep b) = windows (episode_entry ep b').

Lemma episode_entry_insert e (b : FrameBuffers) : episode_entry ep (<[ep := e]> b) = e.
Proof. unfold episode_entry. by rewrite lookup_insert_eq. Qed.

Lemma push_frame_windows entry frame b b' b1 w :
  same_windows b b' -> push_frame a ep entry frame b = Some (b1, Ok w) ->
  exists b1', push_frame a ep entry frame b' = Some (b1', Ok w) /\ same_windows b1 b1'.
Proof.
  unfold same_windows, push_frame, with_episode, get_window. intros Hs.
  destruct (ra_obs_plans a !! sk_plan_index entry) as [[image| | |]|]; try done. rewrite <- Hs.
  destruct (window_push _ frame entry image) as [[w'|]|]; try done. intros [= <- <-].
  eexists. split; [done|]. rewrite !episode_entry_insert. cbn. by rewrite Hs.
Qed.

(** The frame of an entry is the tensor its plan produces. *)
Lemma stacked_frame_of entry raw_obs customs previous plan frame :
  ra_obs_plans a !! sk_plan_index entry = Some (OImage plan) ->
  apply_plan addr (OImage plan) raw_obs customs previous = Some (Ok (Some (ValTensor frame))) ->
  stacked_frame addr (ra_obs_plans a) entry raw_obs = Some (Ok frame).
Proof.
  intros Hp Ha. unfold stacked_frame. rewrite Hp. cbn [apply_plan] in Ha.
  destruct (apply_image addr plan raw_obs) as [[v|]|]; try done. by injection Ha as ->.
Qed.

(** Stacking pushes the frames the payload has at the placements of its entries. *)
Lemma stack_frames_ticks raw_obs stacked payload b b1 out b' :
  ForallOrdPairs path_disjoint (sk_placement <$> stacked) ->
  Forall (fun entry => forall frame, node_at payload (sk_placement entry) = Some (ValTensor frame) ->
    stacked_frame addr (ra_obs_plans a) entry raw_obs = Some (Ok frame)) stacked ->
  stack_frames addr a ep stacked payload b = Some (b1, Ok out) -> same_windows b b' ->
  exists frames b1', observe_frames addr (ra_obs_plans a) stacked raw_obs = Some (Ok frames) /\
    push_frames a ep (zip stacked frames) b' = Some (b1', Ok tt) /\ same_windows b1 b1'.
Proof.
  revert payload b b'; induction stacked as [|entry stacked IH];
    intros payload b b' Hd Hfr Hst Hs.
  { injection Hst as <- <-. by exists [], b'. }
  rewrite fmap_cons in Hd. inversion Hd as [|? ? Hhd Hd']; subst.
  apply Forall_cons in Hfr as [Hfe Hfr]. cbn [stack_frames] in Hst. unfold bind, lift in Hst.
  destruct (resolve_source_mut payload (sk_placement entry)) as [[slot write]|] eqn:Hr; [|done].
  destruct slot as [| | | |frame| | | | |]; try done.
  destruct (push_frame a ep entry frame b) as [[b2 [w|]]|] eqn:Hp; try done.
  destruct (push_frame_windows _ _ _ _ _ _ Hs Hp) as (b2' & Hp' & Hs').
  destruct (window_gather addr w entry) as [[g|]|]; try done.
  assert (node_at payload (sk_placement entry) = Some (ValTensor frame)) as Hn
    by (eapply resolve_walk_found; by eexists).
  destruct (resolve_walk_write _ _ _ _ _ _ _ (ValTensor g) Hr) as [_ Hw].
  destruct (IH (write (ValTensor g)) b2 b2' Hd') as (frames & b1' & Ho & Hpf & Hsw); try done.
  { rewrite Forall_fmap in Hhd. clear -Hhd Hfr Hw.
    induction Hfr as [|e' stacked He _ IH']; [constructor|].
    apply Forall_cons in Hhd as [Hd1 Hd2]. constructor; [|by apply IH'].
    intros f. rewrite Hw by done. apply He. }
  exists (frame :: frames), b1'. cbn [observe_frames zip_with push_frames].
  rewrite (Hfe _ Hn), Ho. split; [done|]. unfold bind. rewrite Hp'. done.
Qed.
End Ticks.

Section Assembled.
Context `{HalfOps} `{ImageCodec} `{Libm} (addr : Z).

Lemma transform_plans_each plans raw_obs customs previous b b' :
  transform_plans addr plans raw_obs customs previous b = Some (Ok b') ->
  Forall (fun plan => exists r, apply_plan addr plan raw_obs customs previous = Some (Ok r)) plans.
Proof.
  revert b; induction plans as [|plan plans IH]; intros b Ht; [constructor|].
  cbn [transform_plans] in Ht.
  destruct (apply_plan addr plan raw_obs customs previous) as [[r|]|] eqn:Ha; try done.
  constructor; [by eexists|]. destruct r as [v|]; [|by eapply IH].
  destruct (place b (plan_placement plan) v); [by eapply IH|done].
Qed.

(** The payload has each stacked input's frame at its placement. *)
Lemma assembled_frame plans raw_obs customs previous payload entry frame a :
  ra_obs_plans a = plans -> ForallOrdPairs path_disjoint (plan_placement <$> plans) ->
  transform_obs addr plans raw_obs customs previous = Some (Ok payload) ->
  entry_of plans entry -> node_at payload (sk_placement entry) = Some (ValTensor frame) ->
  stacked_frame addr (ra_obs_plans a) entry raw_obs = Some (Ok frame).
Proof.
  intros Ha Hd Ht (p & Hp & Hpl) Hn. unfold transform_obs in Ht.
  destruct (transform_plans addr plans raw_obs customs previous None) as [[b|]|] eqn:Htp; try done.
  injection Ht as <-. pose proof (transform_plans_each _ _ _ _ _ _ Htp) as He.
  destruct (proj1 (Forall_lookup _ _) He _ _ Hp) as [r Hr].
  assert (exists v, r = Some v) as [v ->].
  { cbn [apply_plan] in Hr. destruct (apply_image addr p raw_obs) as [[v|]|]; try done.
    injection Hr as <-. by eexists. }
  destruct (transform_plans_spec addr _ _ _ _ _ _ Htp Hd) as [_ H2].
  specialize (H2 _ _ _ Hp Hr). cbn [plan_placement] in H2. rewrite <- Hpl in H2.
  destruct b as [root|]; [|done]. cbn in H2, Hn. rewrite H2 in Hn. injection Hn as ->.
  eapply stacked_frame_of; [by rewrite Ha|exact Hr].
Qed.

Lemma previous_action_windows ep step b b' r :
  previous_action ep step b = Some (b', r) -> same_windows ep b b'.
Proof.
  unfold previous_action, with_episode, same_windows. intros Hp.
  destruct (_ =? step); cbn in Hp; [|destruct (checked_i64 (step - 1)); cbn in Hp; [|done]];
    injection Hp as <- <-; by rewrite episode_entry_insert.
Qed.
End Assembled.


(** ** Steps in order *)

Fixpoint advance_all (ep : string) (steps : list Z) : Buffered unit :=
  match steps with
  | [] => ret tt
  | step :: steps => let~ _ := advance_step ep step in advance_all ep steps
  end.

Definition i64_step (s : Z) : Prop := i64_min <= s < i64_max.

(** Every step follows the one before by one. *)
Fixpoint consecutive (last : option Z) (steps : list Z) : bool :=
  match steps with
  | [] => true
  | step :: steps =>
      match last with Some last => step =? last + 1 | None => true end
      && consecutive (Some step) steps
  end.

Lemma advance_step_spec ep step (b : FrameBuffers) :
  (forall last, last_step b ep = Some last -> i64_step last) ->
  let follows := match last_step b ep with Some last => step =? last + 1 | None => true end in
  exists b' r, advance_step ep step b = Some (b', r) /\
    (if follows then r = Ok tt /\ last_step b' ep = Some step
     else (exists e, r = Err e) /\ last_step b' ep = last_step b ep).
Proof.
  unfold advance_step, with_episode, last_step, episode_entry, i64_step. intros Hl.
  destruct (b !! ep) as [e|] eqn:Hb; cbn [default from_option mbind option_bind id] in *.
  2: { eexists _, _. split; [done|]. rewrite lookup_insert_eq. done. }
  destruct (ep_last_step e) as [last|] eqn:He.
  - unfold checked_i64. rewrite checked_in by (specialize (Hl _ eq_refl); lia).
    destruct (step =? last + 1); cbn [negb]; eexists _, _; (split; [done|]);
      rewrite lookup_insert_eq; cbn; eauto.
  - eexists _, _. split; [done|]. by rewrite lookup_insert_eq.
Qed.

(** A runtime that delivers history is held to consecutive steps: an episode's steps
    are accepted exactly when each follows the last by one, from any first step. *)
Theorem advance_step_consecutive (ep : string) (steps : list Z) (b : FrameBuffers) :
  last_step b ep = None -> Forall i64_step steps ->
  exists b' r, advance_all ep steps b = Some (b', r) /\
    (r = Ok tt <-> consecutive None steps = true).
Proof.
  intros Hn Hs. rewrite <- Hn.
  assert (forall last, last_step b ep = Some last -> i64_step last) as Hl by (by rewrite Hn).
  clear Hn. revert b Hl; induction Hs as [|step steps Hst _ IH]; intros b Hl.
  { by eexists _, _. }
  destruct (advance_step_spec ep step b Hl) as (b1 & r & Ha & Hr). cbn [advance_all consecutive].
  unfold bind. rewrite Ha.
  destruct (match last_step b ep with Some last => step =? last + 1 | None => true end).
  - destruct Hr as [-> Hl1]. destruct (IH b1) as (b2 & r2 & -> & H2); [by rewrite Hl1; intros ? [= <-]|].
    rewrite Hl1 in H2. by eexists _, _.
  - destruct Hr as [[e ->] _]. eexists _, _. split; [done|]. by split.
Qed.

(** ** The previous action *)

(** An episode's calls: an executed action recorded under its step, or an observation
    reading the action before its own. *)
Inductive event : Type :=
| ERecord (step : Z) (v : Value)
| ERead (step : Z).

Section Recorded.
Context `{HalfOps} (a : ResolvedAdapter) (ep : string).

Definition row_of (v : Value) : list f32 :=
  match numeric_vector v with Some (Ok row) => row | _ => [] end.

(** What the calls return: [None] for a record. *)
Fixpoint replay (trace : list event) (b : FrameBuffers)
    : option (list (option (result (option (list f32)) unit))) :=
  match trace with
  | [] => Some []
  | ERecord step v :: trace =>
      let! (b, r) := record_action a v ep step b in
      let! rest := replay trace b in
      Some (None :: rest)
  | ERead step :: trace =>
      let! (b, r) := previous_action ep step b in
      let! rest := replay trace b in
      Some (Some (map_err (fun _ => tt) r) :: rest)
  end.

(** The specification keeps every record and the first read. *)
Record history : Type := { recorded : list (Z * list f32); first_read : option Z }.

Definition latest (h : history) (step : Z) : option (list f32) :=
  snd <$> List.find (fun kv => kv.1 =? step) (recorded h).

Definition spec_read (h : history) (step : Z) : result (option (list f32)) unit :=
  match first_read h with
  | None => Ok None
  | Some first =>
      if first =? step then Ok None
      else match latest h (step - 1) with Some row => Ok (Some row) | None => Err tt end
  end.

Fixpoint spec_replay (trace : list event) (h : history)
    : list (option (result (option (list f32)) unit)) :=
  match trace with
  | [] => []
  | ERecord step v :: trace =>
      None :: spec_replay trace
        {| recorded := (step, row_of v) :: recorded h; first_read := first_read h |}
  | ERead step :: trace =>
      Some (spec_read h step) :: spec_replay trace
        {| recorded := recorded h;
           first_read := Some (default step (first_read h)) |}
  end.

(** The records are of the plan's width, and the reads go forward. *)
Fixpoint trace_ok (low : Z) (trace : list event) : Prop :=
  match trace with
  | [] => True
  | ERecord step v :: trace =>
      (exists row, numeric_vector v = Some (Ok row) /\ length row = ap_in_dim (ra_action_plan a)) /\
      trace_ok low trace
  | ERead step :: trace => low <= step <= i64_max /\ trace_ok step trace
  end.

(** The episode has every record a later read can ask for. *)
Definition tracks (low : Z) (b : FrameBuffers) (h : history) : Prop :=
  first_step (episode_entry ep b) = first_read h /\
  forall k, low - 1 <= k -> actions (episode_entry ep b) !! k = latest h k.

Lemma record_tracks low b h step v row :
  reads_previous_action a = true -> tracks low b h ->
  numeric_vector v = Some (Ok row) -> length row = ap_in_dim (ra_action_plan a) ->
  exists b', record_action a v ep step b = Some (b', Ok tt) /\
    tracks low b' {| recorded := (step, row_of v) :: recorded h; first_read := first_read h |}.
Proof.
  intros Hr [Hf Ht] Hv Hl. unfold record_action. rewrite Hr. cbn [negb].
  unfold bind, lift. rewrite Hv. rewrite decide_False by (intros ?; done).
  eexists. split; [done|]. split; rewrite episode_entry_insert; [done|].
  intros k Hk. cbn [set_actions actions]. unfold latest, row_of. rewrite Hv. cbn [recorded List.find fst].
  destruct (Z.eqb_spec step k) as [->|Hne].
  - by rewrite lookup_insert_eq.
  - rewrite lookup_insert_ne by done. by apply Ht.
Qed.

Lemma read_tracks low b h step :
  i64_min < low -> low <= step <= i64_max -> tracks low b h ->
  exists b' r, previous_action ep step b = Some (b', r) /\ map_err (fun _ => tt) r = spec_read h step /\
    tracks step b' {| recorded := recorded h; first_read := Some (default step (first_read h)) |}.
Proof.
  intros Hlow Hst [Hf Ht]. unfold previous_action, with_episode, spec_read. rewrite Hf.
  assert (forall k, step - 1 <= k -> actions (episode_entry ep b) !! k = latest h k) as Ht'
    by (intros k Hk; apply Ht; lia).
  destruct (first_read h) as [first|]; cbn [default from_option id].
  2: { rewrite Z.eqb_refl. eexists _, _. split; [done|]. split; [done|].
       split; rewrite episode_entry_insert; [done|]. by apply Ht'. }
  destruct (Z.eqb_spec first step) as [->|Hne].
  { eexists _, _. split; [done|]. split; [done|]. split; rewrite episode_entry_insert; [done|]. by apply Ht'. }
  unfold checked_i64. rewrite checked_in by lia. cbn [set_actions actions set_first_step].
  assert (forall k, step - 1 <= k ->
    filter (fun kv : Z * list f32 => step - 1 <= kv.1) (actions (episode_entry ep b)) !! k = latest h k) as Hfil.
  { intros k Hk. rewrite map_lookup_filter, <- (Ht' k Hk).
    destruct (actions (episode_entry ep b) !! k); [|done]. cbn. by rewrite option_guard_True by done. }
  eexists _, _. split; [done|]. split.
  - rewrite Hfil by lia. by destruct (latest h (step - 1)).
  - split; rewrite episode_entry_insert; [done|]. exact Hfil.
Qed.

Lemma replay_refines trace : forall low b h,
  reads_previous_action a = true -> i64_min < low -> trace_ok low trace -> tracks low b h ->
  replay trace b = Some (spec_replay trace h).
Proof.
  induction trace as [|[step v|step] trace IH]; intros low b h Hr Hlow Hok Ht; [done|..];
    cbn [replay spec_replay trace_ok] in *.
  - destruct Hok as [(row & Hv & Hl) Hok].
    destruct (record_tracks low b h step v row Hr Ht Hv Hl) as (b' & -> & Ht').
    by rewrite (IH low b' _ Hr Hlow Hok Ht').
  - destruct Hok as [Hst Hok].
    destruct (read_tracks low b h step Hlow Hst Ht) as (b' & r & -> & Hs & Ht').
    rewrite (IH step b' _ Hr ltac:(lia) Hok Ht'). by rewrite Hs.
Qed.
End Recorded.

(** C34: Pruning the recorded actions never shows: over any calls of an episode whose
    reads go forward, each observation reads exactly the action last recorded for the
    step before its own, the first one reads none, and a step whose action was never
    recorded is refused. *)
Theorem previous_action_refines `{HalfOps} (a : ResolvedAdapter) (ep : string) (low : Z)
    (trace : list event) :
  reads_previous_action a = true -> i64_min < low -> trace_ok a low trace ->
  replay a ep trace buffers_new = Some (spec_replay trace {| recorded := []; first_read := None |}).
Proof.
  intros Hr Hlow Hok. by apply (replay_refines a ep trace low).
Qed.

(** ** Witnesses *)

(** The sample frame stacked with the one two steps before. *)
Definition stacked_plan : ImagePlan := {|
  ip_placement := [PKey "rgb"]; ip_source := [PKey "cam"];
  ip_src_layout := Hwc; ip_dst_layout := Hwc; ip_flip := false; ip_size := None;
  ip_fit := FitStretch; ip_resample := "bilinear"; ip_dtype := "uint8";
  ip_normalize := None; ip_lead_dims := 0; ip_src_range := None;
  ip_stack := 2; ip_zero_fill := None; ip_fill := byte.of_Z 0; ip_jpeg_quality := None;
  ip_crop := None; ip_swap_rb := false; ip_render := None; ip_offsets := Some [-2; 0];
  ip_stack_pad := PadFirst; ip_frame_bytes := 12; ip_role_rebound := None; ip_part := None |}.

Definition stacked_frame_entry : StackedPlacement :=
  {| sk_placement := [PKey "rgb"]; sk_key := "rgb"; sk_depth := 2; sk_plan_index := 0;
     sk_offsets := Some [-2; 0]; sk_span := 3; sk_stack_pad := PadFirst; sk_frame_bytes := 12 |}.

Lemma stacked_plan_law : offsets_law stacked_plan.
Proof. cbn. split; [|repeat constructor]; unfold_ints; lia. Qed.

Lemma window_gathers_recent_witness :
  exists w, @pushes ieee_half stacked_frame_entry stacked_plan window_default
              [sample_frame; sample_frame] = Some (Ok w) /\ length (frames w) = 3%nat.
Proof.
  destruct (@window_gathers_recent ieee_half no_codec no_libm 0 0 stacked_plan stacked_frame_entry
              sample_frame [sample_frame] sample_frame stacked_plan_law) as (w & Hw & Hl & _).
  - reflexivity.
  - reflexivity.
  - reflexivity.
  - exists w. split; [exact Hw|exact Hl].
Defined.

Definition stacked_adapter : ResolvedAdapter :=
  {| ra_obs_plans := [OImage stacked_plan]; ra_action_plan := sample_action;
     ra_stacked := [stacked_frame_entry]; ra_previous := [];
     ra_resolve_advisories := []; ra_quiet_advisories := [] |}.


Lemma advance_step_consecutive_witness :
  exists b' r, advance_all "e1" [4; 5; 7] buffers_new = Some (b', r) /\
    (r = Ok tt <-> consecutive None [4; 5; 7] = true).
Proof.
  apply (advance_step_consecutive "e1" [4; 5; 7] buffers_new).
  - reflexivity.
  - repeat constructor; unfold_ints; lia.
Defined.

Definition sample_row (x : Z) : Value := ValList [ValInt x; ValInt 0].

Definition recording_adapter : ResolvedAdapter :=
  {| ra_obs_plans := []; ra_action_plan := sample_action; ra_stacked := []; ra_previous := ["state"];
     ra_resolve_advisories := []; ra_quiet_advisories := [] |}.

(** The first read, the record of a two-step chunk, the reads of its steps, and a
    read past it. *)
Definition sample_trace : list event :=
  [ERead 0; ERecord 0 (sample_row 1); ERecord 1 (sample_row 2); ERead 1; ERead 2; ERead 9].

Lemma sample_trace_ok : @trace_ok ieee_half recording_adapter 0 sample_trace.
Proof.
  cbn [trace_ok sample_trace].
  split_and!; try (unfold_ints; lia); try done; eexists; (split; [by vm_compute|done]).
Qed.

Lemma previous_action_refines_witness :
  @replay ieee_half recording_adapter "e1" sample_trace buffers_new =
    Some (@spec_replay ieee_half sample_trace {| recorded := []; first_read := None |}).
Proof.
  apply (@previous_action_refines ieee_half recording_adapter "e1" 0 sample_trace).
  - reflexivity.
  - unfold_ints; lia.
  - exact sample_trace_ok.
Defined.
