(* ===== verification/AdapterSpec.v ===== *)
(** * Adapter specs

    The declarations an env and a model publish about their observations and
    actions: [src/crates/rlmesh-adapters/src/roles/] and [roles/registry.rs] (the
    vocabulary of roles), [spec/] (the attributes, the accept sets, the encodings, the
    env's tags and the model's input tree, with the rules their codec enforces in
    [TryFrom]) and [spec/strict.rs] (the gates on what a core does not understand).
    Parsing and printing JSON is serde's; of an unrecognised field only the name is
    kept, of a leaf of an unrecognised kind the kind and the role. *)

From Stdlib Require Import Ascii.
From S2P Require Import Prelude BTree Float FloatOps AdapterValue AdapterGeometry AdapterPlans.

(** A list of strings in a message. *)
Definition strs (l : list string) : arg := AMsg "{:?}" (AStr <$> l).

(** ** Roles *)

Inductive DimLaw : Type := Fixed (dim : nat) | ByEncoding | Variable_.
Inductive FrameLaw : Type := Frameless | Framed.
Inductive ReferenceLaw : Type := Unreferenced | Referenced.

#[export] Instance FrameLaw_eq_dec : EqDecision FrameLaw.
Proof. solve_decision. Defined.
#[export] Instance ReferenceLaw_eq_dec : EqDecision ReferenceLaw.
Proof. solve_decision. Defined.

Record RoleDef : Type := mkRole {
  rd_name : string;
  rd_dim : DimLaw;
  rd_doc : string;
  rd_frame : FrameLaw;
  rd_reference : ReferenceLaw;
}.

Definition core_ROLES : list RoleDef :=
  [mkRole "image/primary" Variable_ "primary camera frame" Frameless Unreferenced;
   mkRole "image/secondary" Variable_ "secondary camera frame" Frameless Unreferenced;
   mkRole "text/instruction" Variable_ "natural-language task instruction" Frameless Unreferenced;
   mkRole "proprio/joint_pos" Variable_ "joint positions (DoF varies by embodiment)"
     Frameless Unreferenced;
   mkRole "proprio/joint_vel" Variable_ "joint velocities (DoF varies by embodiment)"
     Frameless Unreferenced;
   mkRole "action/joint_pos" Variable_ "commanded joint positions (DoF varies by embodiment)"
     Frameless Unreferenced;
   mkRole "action/joint_vel" Variable_ "commanded joint velocities (DoF varies by embodiment)"
     Frameless Unreferenced].

Definition manipulation_ROLES : list RoleDef :=
  [mkRole "image/wrist" Variable_ "wrist camera frame" Frameless Unreferenced;
   mkRole "proprio/eef_pos" (Fixed 3) "end-effector Cartesian position" Framed Unreferenced;
   mkRole "proprio/eef_rot" ByEncoding "end-effector rotation" Framed Unreferenced;
   mkRole "proprio/gripper" Variable_ "gripper width (finger count varies)" Frameless Unreferenced;
   mkRole "proprio/eef_wrench" (Fixed 6) "end-effector wrench [fx, fy, fz, tx, ty, tz]"
     Framed Unreferenced;
   mkRole "action/delta_eef_pos" (Fixed 3) "Cartesian end-effector position delta"
     Frameless Referenced;
   mkRole "action/delta_eef_rot" ByEncoding "end-effector rotation delta" Frameless Referenced;
   mkRole "action/gripper" Variable_ "gripper command" Frameless Unreferenced;
   mkRole "action/eef_pos" (Fixed 3) "absolute Cartesian end-effector position target"
     Framed Unreferenced;
   mkRole "action/eef_rot" ByEncoding "absolute end-effector rotation target" Framed Unreferenced].

Definition body_ROLES : list RoleDef :=
  [mkRole "proprio/base_ang_vel" (Fixed 3) "base angular velocity (gyro)" Framed Unreferenced;
   mkRole "proprio/base_rot" ByEncoding "base orientation" Framed Unreferenced;
   mkRole "command/base_vel" (Fixed 3) "commanded base velocity [vx, vy, wz]" Framed Unreferenced].

Definition DOMAINS : list (list RoleDef) := [core_ROLES; manipulation_ROLES; body_ROLES].

Definition role_def (name : string) : option RoleDef :=
  List.find (fun role => String.eqb (rd_name role) name) (concat DOMAINS).

Definition is_known_role (name : string) : bool := bool_decide (is_Some (role_def name)).
Definition is_escape_role (name : string) : bool := String.prefix "x/" name.
Definition is_sanctioned_role (name : string) : bool := is_escape_role name || is_known_role name.

Definition KINDS : list string := ["image/"; "proprio/"; "text/"; "action/"; "command/"].

(** [str::split_once]. *)
Fixpoint split_once (c : Ascii.ascii) (s : string) : option (string * string) :=
  match s with
  | EmptyString => None
  | String x s =>
      if Ascii.eqb x c then Some (EmptyString, s)
      else match split_once c s with
           | Some (before, rest) => Some (String x before, rest)
           | None => None
           end
  end.

Definition is_known_kind (role : string) : bool :=
  match split_once "/"%char role with
  | Some (kind, _) => String.eqb kind "x" || existsb (String.eqb (String.append kind "/")) KINDS
  | None => true
  end.

Definition check_role (role : string) : result unit message :=
  if is_known_kind role then Ok tt
  else Err (Msg "role {role:?} carries a kind this core does not define; the kinds are {KINDS:?}. Use one of them, or prefix a deliberately non-standard role with the x/ escape (e.g. x/target_pos)"
              [AStr role; strs KINDS]).

Definition is_kindless (role : string) : bool :=
  match split_once "/"%char role with Some _ => false | None => true end.

Definition kindless_hint (role : string) : option message :=
  if is_kindless role then
    Some (Msg "{role:?} names no kind, so the closed-kind check never sees it: prefix it with one of {KINDS:?}, or with the x/ escape if it is deliberately non-standard (e.g. x/{role})"
            [AStr role; strs KINDS; AStr role])
  else None.

(** ** Check-only attributes *)

Definition FRAMES : list string := ["world"; "robot_base"; "tool"].
Definition REFERENCES : list string := ["current"; "target"].
Definition PROVENANCES : list string := ["sensed"; "estimated"; "privileged"].

(** A [FrameRef] is the string it was declared with. *)
Inductive Attr : Type := AttrFrame | AttrReference | AttrProvenance.

Definition attr_name (a : Attr) : string :=
  match a with AttrFrame => "frame" | AttrReference => "reference" | AttrProvenance => "provenance" end.

Definition attr_vocabulary (a : Attr) : list string :=
  match a with AttrFrame => FRAMES | AttrReference => REFERENCES | AttrProvenance => PROVENANCES end.

Definition recognizes (a : Attr) (value : string) : bool :=
  existsb (String.eqb value) (attr_vocabulary a).

(** ** Accept sets *)

Class WireVocab (T : Type) : Type := {
  from_wire : string -> option T;
  as_wire : T -> string;
}.

Inductive Entry (T : Type) : Type := Known (value : T) | UnknownEntry (raw : string).
Arguments Known {T}.
Arguments UnknownEntry {T}.

Record AcceptSet (T : Type) : Type := { entries : list (Entry T) }.
Arguments entries {T}.

Section AcceptSets.
Context {T : Type} `{WireVocab T} `{EqDecision T}.

Definition entry_parse (raw : string) : Entry T :=
  match from_wire raw with Some value => Known value | None => UnknownEntry raw end.

Definition entry_wire (e : Entry T) : string :=
  match e with Known value => as_wire value | UnknownEntry raw => raw end.

Definition single (value : T) : AcceptSet T := {| entries := [Known value] |}.

Definition known (set : AcceptSet T) : list T :=
  omap (fun e => match e with Known value => Some value | UnknownEntry _ => None end) (entries set).

Definition first_known (set : AcceptSet T) : option T := head (known set).
Definition accepts (set : AcceptSet T) (value : T) : bool :=
  existsb (fun k => bool_decide (k = value)) (known set).
Definition wire_names (set : AcceptSet T) : list string := entry_wire <$> entries set.

(** The list form of the deserializer: repeated names are dropped. *)
Fixpoint dedup (seen : list string) (raws : list string) : list (Entry T) :=
  match raws with
  | [] => []
  | raw :: raws =>
      if existsb (String.eqb raw) seen then dedup seen raws
      else entry_parse raw :: dedup (raw :: seen) raws
  end.

Definition accept_set_of (raws : list string) : result (AcceptSet T) message :=
  match dedup [] raws with
  | [] => Err (lit "an encoding preference list must name at least one encoding")
  | es => Ok {| entries := es |}
  end.
End AcceptSets.

Inductive Provenance : Type := Sensed | Estimated | Privileged.

#[export] Instance Provenance_eq_dec : EqDecision Provenance.
Proof. solve_decision. Defined.

Definition provenance_str (p : Provenance) : string :=
  match p with Sensed => "sensed" | Estimated => "estimated" | Privileged => "privileged" end.

#[export] Instance Provenance_vocab : WireVocab Provenance :=
  {| from_wire name := List.find (fun p => String.eqb (provenance_str p) name)
                         [Sensed; Estimated; Privileged];
     as_wire := provenance_str |}.

#[export] Instance RotationEncoding_vocab : WireVocab RotationEncoding :=
  {| from_wire := encoding_from_wire; as_wire := encoding_str |}.

Definition layout_str (l : ImageLayout) : string := match l with Hwc => "hwc" | Chw => "chw" end.

Definition fit_str (f : FitMode) : string :=
  match f with FitStretch => "stretch" | FitCrop => "crop" | FitPad => "pad" end.

#[export] Instance FitMode_vocab : WireVocab FitMode :=
  {| from_wire name := List.find (fun f => String.eqb (fit_str f) name)
                         [FitStretch; FitCrop; FitPad];
     as_wire := fit_str |}.

(** ** Encodings *)

Record CustomEncoding : Type := {
  ce_base : RotationEncoding;
  ce_name : string;
  ce_from_base : option string;
  ce_to_base : option string;
}.

Definition custom_validate (c : CustomEncoding) : result unit message :=
  match ce_from_base c, ce_to_base c with
  | None, None => Err (Msg "custom encoding {:?} needs at least one of from_base (observation side) or to_base (action side)"
                         [AStr (ce_name c)])
  | _, _ => Ok tt
  end.

Inductive Encoding (N : Type) : Type := Native (native : N) | CustomEnc (custom : CustomEncoding).
Arguments Native {N}.
Arguments CustomEnc {N}.

Notation StateEncoding := (Encoding (AcceptSet RotationEncoding)).
Notation ActionEncoding := (Encoding RotationEncoding).

Definition encoding_custom {N} (e : Encoding N) : option CustomEncoding :=
  match e with CustomEnc custom => Some custom | Native _ => None end.

Definition state_accept_set (e : StateEncoding) : AcceptSet RotationEncoding :=
  match e with Native set => set | CustomEnc custom => single (ce_base custom) end.

Definition state_base (e : StateEncoding) : option RotationEncoding :=
  match e with Native set => first_known set | CustomEnc custom => Some (ce_base custom) end.

Definition action_base (e : ActionEncoding) : RotationEncoding :=
  match e with Native encoding => encoding | CustomEnc custom => ce_base custom end.

(** ** Labels and per-axis vectors *)

Fixpoint repeated (seen : list string) (labels : list string) : option string :=
  match labels with
  | [] => None
  | label :: labels =>
      if existsb (String.eqb label) seen then Some label else repeated (label :: seen) labels
  end.

Definition check_labels (labels : list string) (locus : arg) : result unit message :=
  match labels with
  | [] => Err (Msg "{locus}: labels must name at least one axis" [locus])
  | _ =>
      match repeated [] labels with
      | Some label => Err (Msg "{locus}: label {label:?} is repeated" [locus; AStr label])
      | None => Ok tt
      end
  end.

Definition check_axis (values : option (list f64)) (name : string) (locus : arg)
    : result unit message :=
  match values with
  | None => Ok tt
  | Some [] => Err (Msg "{locus}: {name} must carry at least one value" [locus; AStr name])
  | Some values =>
      if forallb f64_is_finite values then Ok tt
      else Err (Msg "{locus}: {name} must be finite" [locus; AStr name])
  end.

(** ** Actions *)

Record Actuator : Type := {
  act_role : option string;
  act_dim : nat;
  act_encoding : option ActionEncoding;
  act_range : option (f64 * f64);
  act_binary : bool;
  act_scale : option f64;
  act_offset : option f64;
  act_axis_scale : option (list f64);
  act_axis_offset : option (list f64);
  act_invert : bool;
  act_threshold : option f64;
  act_clip : bool;
  act_fill : f64;
  act_optional : bool;
  act_frame : option string;
  act_reference : option string;
  act_part : option string;
  act_labels : option (list string);
  act_unknown : list string;
}.

Record Action : Type := {
  al_components : list Actuator;
  al_clip : option (f64 * f64);
}.

Definition is_some {A} (o : option A) : bool := match o with Some _ => true | None => false end.

(** A role (or none) in a message. *)
Definition opt_str (o : option string) : arg :=
  match o with Some s => AMsg "Some({:?})" [AStr s] | None => AStr "None" end.

(** [value != 0.0]. *)
Definition nonzero (x : f64) : bool := negb (f64_eqb x f64_zero).

Definition one_form (name : string) (scalar : option f64) (axis : option (list f64)) (locus : arg)
    : result unit message :=
  if is_some scalar && is_some axis then
    Err (Msg "{locus}: sets both {name} and axis_{name}; a quantity is a scalar or a per-axis vector, not both"
           [locus; AStr name; AStr name])
  else check_axis axis (String.append "axis_" name) locus.

(** An opaque actuator carries [dim] and [fill] alone. *)
Definition opaque_extra (c : Actuator) : bool :=
  is_some (act_encoding c) || is_some (act_range c) || is_some (act_scale c) ||
  is_some (act_offset c) || is_some (act_axis_scale c) || is_some (act_axis_offset c) ||
  act_invert c || is_some (act_threshold c) || act_binary c || act_clip c || act_optional c ||
  is_some (act_frame c) || is_some (act_reference c) || is_some (act_part c) ||
  is_some (act_labels c).

Definition key_eqb (a b : string * option string) : bool := bool_decide (a = b).

Definition check_actuator (seen : list (string * option string)) (c : Actuator)
    : result (list (string * option string)) message :=
  let locus := AMsg "actuator {:?}" [opt_str (act_role c)] in
  if negb (f64_is_finite (act_fill c)) then
    Err (Msg "actuator {:?} fill must be finite" [opt_str (act_role c)])
  else
  let? _ :=
    match action_base <$> act_encoding c with
    | Some encoding =>
        if is_sink encoding then
          Err (Msg "{locus}: encoding {:?} is observation-only (a direction gravity points, not a rotation a controller can take); declare a rotation encoding"
                 [locus; AStr (encoding_str encoding)])
        else Ok tt
    | None => Ok tt
    end in
  let? _ := one_form "scale" (act_scale c) (act_axis_scale c) locus in
  let? _ := one_form "offset" (act_offset c) (act_axis_offset c) locus in
  let? _ :=
    match act_labels c with
    | Some labels =>
        let? _ := check_labels labels locus in
        if decide (length labels <> act_dim c) then
          Err (Msg "{locus}: declares dim {} but names {} labels; one label per axis"
                 [locus; ANat (act_dim c); ANat (length labels)])
        else Ok tt
    | None => Ok tt
    end in
  match act_role c with
  | Some role =>
      if existsb (key_eqb (role, act_part c)) seen then
        Err match act_part c with
            | Some part => Msg "an action layout declares role {role:?} under part {part:?} more than once"
                             [AStr role; AStr part]
            | None => Msg "an action layout declares role {role:?} more than once" [AStr role]
            end
      else if nonzero (act_fill c) && negb (act_optional c) then
        Err (Msg "actuator {role:?}: fill applies only to a role-less (opaque) or optional actuator; a roled, non-optional actuator takes its values from the model"
               [AStr role])
      else Ok ((role, act_part c) :: seen)
  | None =>
      if opaque_extra c then
        Err (lit "a role-less (opaque) actuator carries only dim and fill; drop encoding/range/scale/offset/axis_scale/axis_offset/invert/threshold/binary/clip/optional/frame/reference/part/labels (an opaque actuator is already always filled)")
      else Ok seen
  end.

Fixpoint check_actuators (seen : list (string * option string)) (cs : list Actuator)
    : result unit message :=
  match cs with
  | [] => Ok tt
  | c :: cs => let? seen := check_actuator seen c in check_actuators seen cs
  end.

(** The codec's rule for an [Action]. *)
Definition action_try_from (wire : Action) : result Action message :=
  let? _ := check_actuators [] (al_components wire) in
  Ok wire.

(** ** The model's inputs *)

Inductive Normalize : Type := NormOff | NormUnit | NormRange (low high : f64).

Definition normalize_range (n : Normalize) : option (f64 * f64) :=
  match n with
  | NormOff => None
  | NormUnit => Some (f64_zero, f64_of_Z 1)
  | NormRange low high => Some (low, high)
  end.

Definition CROP_MODES : list string := ["zoom"; "slice"].
Definition CHANNEL_ORDERS : list string := ["rgb"; "bgr"].
Definition MAX_STACK_SPAN : Z := 128.

Record Image : Type := {
  im_role : string;
  im_part : option string;
  im_height : option Z;
  im_width : option Z;
  im_layout : ImageLayout;
  im_channels : option Z;
  im_dtype : string;
  im_normalize : Normalize;
  im_lead_dims : nat;
  im_upside_down : bool;
  im_resample : string;
  im_allow_upscale : bool;
  im_fit : option (AcceptSet FitMode);
  im_optional : bool;
  im_fill : option byte;
  im_stack : Z;
  im_crop : option f64;
  im_crop_area : option f64;
  im_crop_mode : string;
  im_jpeg_quality : option Z;
  im_channel_order : string;
  im_render : option (Z * Z);
  im_offsets : option (list Z);
  im_stack_pad : StackPad;
  im_unknown : list string;
}.

Inductive PartSource : Type := FromObservation | FromAction.

#[export] Instance PartSource_eq_dec : EqDecision PartSource.
Proof. solve_decision. Defined.

Record ConcatPart : Type := {
  cc_role : option string;
  cc_source : PartSource;
  cc_encoding : option StateEncoding;
  cc_dim : option nat;
  cc_index : option nat;
  cc_range : option (f64 * f64);
  cc_optional : bool;
  cc_fill : f64;
  cc_post_rotate : option RotationLiteral;
  cc_scale : option f64;
  cc_offset : option f64;
  cc_axis_scale : option (list f64);
  cc_axis_offset : option (list f64);
  cc_frame : option string;
  cc_provenance : option (AcceptSet Provenance);
  cc_part : option string;
  cc_labels : option (list string);
  cc_unknown : list string;
}.

(** The fields that map an env feature. *)
Definition maps_feature (w : ConcatPart) : bool :=
  is_some (cc_encoding w) || is_some (cc_index w) || is_some (cc_range w) || cc_optional w ||
  is_some (cc_post_rotate w) || is_some (cc_scale w) || is_some (cc_offset w) ||
  is_some (cc_axis_scale w) || is_some (cc_axis_offset w) || is_some (cc_frame w) ||
  is_some (cc_provenance w).

Definition check_part_labels (w : ConcatPart) (locus : arg) : result unit message :=
  match cc_labels w with
  | None => Ok tt
  | Some labels =>
      let? _ := check_labels labels locus in
      if is_some (cc_index w) then
        Err (Msg "{locus}: sets both labels and index; labels name every axis of the leaf, so drop one of them" [locus])
      else
        match cc_dim w with
        | Some dim =>
            if decide (dim <> length labels) then
              Err (Msg "{locus}: declares dim {dim} but names {} labels; labels fix the width, so drop dim or make them agree"
                     [locus; ANat dim; ANat (length labels)])
            else Ok tt
        | None => Ok tt
        end
  end.

Definition check_roled_part (w : ConcatPart) (role : string) : result unit message :=
  if nonzero (cc_fill w) && negb (cc_optional w) && bool_decide (cc_source w = FromObservation) then
    Err (Msg "state part {role:?}: fill applies only to a constant (role-less) or optional part; a roled, non-optional part takes its values from the env" [AStr role])
  else
    match cc_post_rotate w, cc_encoding w with
    | Some _, None =>
        Err (Msg "state part {role:?}: post_rotate needs a rotation encoding" [AStr role])
    | Some _, Some encoding =>
        if is_some (encoding_custom encoding) then
          Err (Msg "state part {role:?}: post_rotate cannot combine with a custom encoding; fold the rotation into the repack" [AStr role])
        else Ok tt
    | None, _ => Ok tt
    end.

Definition check_constant_part (w : ConcatPart) : result unit message :=
  if negb (is_some (cc_dim w)) then
    Err (lit "a constant (role-less) state part needs dim to size itself")
  else if maps_feature w || is_some (cc_part w) || is_some (cc_labels w) then
    Err (lit "a constant (role-less) state part carries only dim and fill; drop encoding/index/range/optional/post_rotate/scale/offset/axis_scale/axis_offset/frame/provenance/part/labels")
  else Ok tt.

Definition part_try_from (w : ConcatPart) : result ConcatPart message :=
  let locus := AMsg "state part {:?}" [opt_str (cc_role w)] in
  if is_some (cc_dim w) && is_some (cc_index w) then
    Err (Msg "state part {:?} sets both dim and index; index selects one element and dim truncates to the leading N -- set one, not both"
           [opt_str (cc_role w)])
  else if negb (f64_is_finite (cc_fill w)) then
    Err (Msg "state part {:?} fill must be finite" [opt_str (cc_role w)])
  else
  let? _ :=
    if decide (cc_source w = FromAction) then
      if negb (is_some (cc_role w)) then
        Err (lit "a state part with source 'action' needs the role of the actuator it reads")
      else if maps_feature w then
        Err (Msg "{locus}: source 'action' reads the model's own raw output and carries only part/labels/dim/fill; drop encoding/index/range/optional/post_rotate/scale/offset/axis_scale/axis_offset/frame/provenance" [locus])
      else Ok tt
    else Ok tt in
  let? _ := one_form "scale" (cc_scale w) (cc_axis_scale w) locus in
  let? _ := one_form "offset" (cc_offset w) (cc_axis_offset w) locus in
  let? _ := check_part_labels w locus in
  let? _ := match cc_role w with
            | Some role => check_roled_part w role
            | None => check_constant_part w
            end in
  Ok w.

(** A bare role on the wire. *)
Definition role_part (role : string) : ConcatPart := {|
  cc_role := Some role; cc_source := FromObservation; cc_encoding := None; cc_dim := None;
  cc_index := None; cc_range := None; cc_optional := false; cc_fill := f64_zero;
  cc_post_rotate := None; cc_scale := None; cc_offset := None; cc_axis_scale := None;
  cc_axis_offset := None; cc_frame := None; cc_provenance := None; cc_part := None;
  cc_labels := None; cc_unknown := [] |}.

Record State : Type := {
  sta_components : list ConcatPart;
  sta_pad_to : option nat;
  sta_dtype : string;
  sta_reshape : option (list Z);
  sta_container : StateContainer;
  sta_clip : option (f64 * f64);
  sta_unknown : list string;
}.

Definition state_try_from (w : State) : result State message :=
  match sta_components w with
  | [] => Err (lit "a state input needs at least one component")
  | components =>
      if forallb (fun part => negb (is_some (cc_role part))) components then
        Err (lit "a state input of only constant parts reads nothing from the env; give it at least one roled part")
      else Ok w
  end.

Record Text : Type := {
  tx_role : string;
  tx_container : TextContainer;
  tx_fill : option (list Z);
  tx_unknown : list string;
}.

Record Custom : Type := { cu_transform : string; cu_unknown : list string }.

Inductive ModelLeaf : Type :=
| MImage (input : Image)
| MState (input : State)
| MText (input : Text)
| MCustom (input : Custom)
| MUnknown (kind : string).

Inductive InputNode : Type :=
| INLeaf (leaf : ModelLeaf)
| INDict (children : btree InputNode)
| INTuple (items : list InputNode).

Record ModelSpec : Type := { ms_input : InputNode; ms_output : Action }.

(** The camera sizes the image inputs assert, in document order. *)
Fixpoint render_requests_of (node : InputNode) : list (string * (Z * Z)) :=
  match node with
  | INLeaf (MImage image) =>
      match im_render image with Some size => [(im_role image, size)] | None => [] end
  | INLeaf _ => []
  | INDict children => concat (map (fun kv => render_requests_of kv.2) children)
  | INTuple items => concat (map render_requests_of items)
  end.

Definition render_requests (spec : ModelSpec) : list (string * (Z * Z)) :=
  render_requests_of (ms_input spec).

(** ** The env's tags *)

Record ImageTag : Type := {
  it_role : string;
  it_layout : ImageLayout;
  it_upside_down : bool;
  it_part : option string;
  it_unknown : list string;
}.

Record StateTag : Type := {
  stg_role : string;
  stg_encoding : option (AcceptSet RotationEncoding);
  stg_range : option (f64 * f64);
  stg_frame : option string;
  stg_provenance : option string;
  stg_part : option string;
  stg_labels : option (list string);
  stg_unknown : list string;
}.

Record TextTag : Type := { tt_role : string; tt_unknown : list string }.

Record Field : Type := {
  fd_role : option string;
  fd_dim : nat;
  fd_encoding : option (AcceptSet RotationEncoding);
  fd_range : option (f64 * f64);
  fd_frame : option string;
  fd_provenance : option string;
  fd_part : option string;
  fd_labels : option (list string);
  fd_unknown : list string;
}.

Definition field_try_from (w : Field) : result Field message :=
  if (fd_dim w <? 1)%nat then
    Err (Msg "state field dim must be >= 1, got {}" [ANat (fd_dim w)])
  else if negb (is_some (fd_role w)) &&
          (is_some (fd_encoding w) || is_some (fd_range w) || is_some (fd_frame w) ||
           is_some (fd_provenance w) || is_some (fd_part w) || is_some (fd_labels w)) then
    Err (lit "a role-less field (a skip) cannot carry an encoding, range, frame, provenance, part or labels")
  else
  let? _ :=
    match fd_labels w with
    | Some labels =>
        let locus := AMsg "state field {:?}" [opt_str (fd_role w)] in
        let? _ := check_labels labels locus in
        if decide (length labels <> fd_dim w) then
          Err (Msg "{locus}: declares dim {} but names {} labels; one label per element"
                 [locus; ANat (fd_dim w); ANat (length labels)])
        else Ok tt
    | None => Ok tt
    end in
  Ok w.

Record SplitLayout : Type := { sl_fields : list Field }.

(** A leaf's identity: role, part and provenance. *)
Notation LeafKey := (string * option string * option string)%type.

Definition leaf_key_eqb (a b : LeafKey) : bool := bool_decide (a = b).

Fixpoint check_fields (seen : list LeafKey) (fields : list Field) : result unit message :=
  match fields with
  | [] => Ok tt
  | field :: fields =>
      match fd_role field with
      | None => check_fields seen fields
      | Some role =>
          let key := (role, fd_part field, fd_provenance field) in
          if existsb (leaf_key_eqb key) seen then
            Err match fd_part field with
                | Some part => Msg "a state layout declares role {role:?} under part {part:?} more than once"
                                 [AStr role; AStr part]
                | None => Msg "a state layout declares role {role:?} more than once" [AStr role]
                end
          else check_fields (key :: seen) fields
      end
  end.

Definition split_try_from (w : SplitLayout) : result SplitLayout message :=
  match sl_fields w with
  | [] => Err (lit "a state layout needs at least one field")
  | fields => let? _ := check_fields [] fields in Ok w
  end.

Inductive ObsLeaf : Type :=
| ObImage (tag : ImageTag)
| ObState (tag : StateTag)
| ObSplit (layout : SplitLayout)
| ObText (tag : TextTag)
| ObUnknown (kind : string) (role : option string).

Inductive ObsNode : Type :=
| ONLeaf (leaf : ObsLeaf)
| ONDict (children : btree ObsNode)
| ONTuple (items : list ObsNode).

Record EnvTags : Type := { et_observation : ObsNode; et_action : Action }.

(** ** The env's features, joined with its spaces *)

Record EnvImage : Type := {
  ei_source : NodePath;
  ei_role : string;
  ei_part : option string;
  ei_layout : ImageLayout;
  ei_upside_down : bool;
  ei_height : Z;
  ei_width : Z;
  ei_channels : Z;
  ei_value_range : option (f64 * f64);
}.

Record EnvState : Type := {
  es_source : NodePath;
  es_role : string;
  es_part : option string;
  es_slice_offset : option nat;
  es_dim : option nat;
  es_encoding : option (AcceptSet RotationEncoding);
  es_range : option (f64 * f64);
  es_frame : option string;
  es_provenance : option string;
  es_labels : option (list string);
}.

Record EnvText : Type := { etx_source : NodePath; etx_role : string }.

Inductive EnvFeature : Type :=
| FImage (image : EnvImage)
| FState (state : EnvState)
| FText (text : EnvText).

Record UnknownFeature : Type := {
  uf_source : NodePath;
  uf_role : option string;
  uf_kind : string;
}.

Record EnvFeatures : Type := {
  ef_observation : list EnvFeature;
  ef_action : Action;
  ef_unknown : list UnknownFeature;
  ef_advisories : list Advisory;
}.

(** ** The gates *)

(** [iter.try_for_each]. *)
Fixpoint try_each {A E} (f : A -> result unit E) (l : list A) : result unit E :=
  match l with
  | [] => Ok tt
  | x :: l => let? _ := f x in try_each f l
  end.

(** ... with the position. *)
Fixpoint try_each_at {A E} (i : nat) (f : nat -> A -> result unit E) (l : list A) : result unit E :=
  match l with
  | [] => Ok tt
  | x :: l => let? _ := f i x in try_each_at (S i) f l
  end.

Definition is_reserved_ext (key : string) : bool := String.prefix "x-" key || String.prefix "ext." key.

Definition first_bare_field (unknown : list string) : option string :=
  List.find (fun key => negb (is_reserved_ext key)) unknown.

Definition bare_field_at (unknown : list string) (locus : arg) : result unit message :=
  match first_bare_field unknown with
  | None => Ok tt
  | Some field => Err (Msg "{locus} declares unrecognized field {field:?}; upgrade the runtime or drop the field (or prefix it `x-` to mark it ignorable)"
                         [locus; AStr field])
  end.

Definition bare_field (unknown : list string) (path : NodePath) : result unit message :=
  bare_field_at unknown (AMsg "feature {:?}" [AStr (path_display path)]).

Definition reject_action (action : Action) : result unit message :=
  try_each_at 0 (fun index actuator =>
    bare_field_at (act_unknown actuator)
      (AMsg "action component[{index}] (role {:?})"
         [ANat index; AStr (default "opaque" (act_role actuator))])) (al_components action).

Definition unknown_kind_msg (domain kind : string) (path : NodePath) : message :=
  Msg "{domain} {:?} declares unrecognized kind {kind:?}; this core cannot build it (upgrade the runtime, or this spec cannot be published here)"
    [AStr domain; AStr (path_display path); AStr kind].

Definition obs_leaf (leaf : ObsLeaf) (path : NodePath) (reject_kinds : bool) : result unit message :=
  match leaf with
  | ObImage tag => bare_field (it_unknown tag) path
  | ObState tag => bare_field (stg_unknown tag) path
  | ObText tag => bare_field (tt_unknown tag) path
  | ObSplit layout =>
      try_each_at 0 (fun index field =>
        bare_field_at (fd_unknown field)
          (AMsg "feature {:?} field[{index}]" [AStr (path_display path); ANat index]))
        (sl_fields layout)
  | ObUnknown kind _ => if reject_kinds then Err (unknown_kind_msg "observation" kind path) else Ok tt
  end.

Definition model_leaf (leaf : ModelLeaf) (path : NodePath) (reject_kinds : bool)
    : result unit message :=
  match leaf with
  | MImage input => bare_field (im_unknown input) path
  | MState input =>
      let? _ := bare_field (sta_unknown input) path in
      try_each_at 0 (fun index part =>
        bare_field_at (cc_unknown part)
          (AMsg "feature {:?} part[{index}]" [AStr (path_display path); ANat index]))
        (sta_components input)
  | MText input => bare_field (tx_unknown input) path
  | MCustom input => bare_field (cu_unknown input) path
  | MUnknown kind => if reject_kinds then Err (unknown_kind_msg "model input" kind path) else Ok tt
  end.

(** The walks of the two trees: a leaf's check at its path, in document order. *)
Section Walks.
Context (obs : ObsLeaf -> NodePath -> result unit message).
Context (inp : ModelLeaf -> NodePath -> result unit message).

Fixpoint walk_obs (node : ObsNode) (path : NodePath) : result unit message :=
  match node with
  | ONLeaf leaf => obs leaf path
  | ONDict children =>
      (fix go l := match l with
                   | [] => Ok tt
                   | (key, child) :: l => let? _ := walk_obs child (push_key path key) in go l
                   end) children
  | ONTuple items =>
      (fix go i l := match l with
                     | [] => Ok tt
                     | child :: l => let? _ := walk_obs child (push_index path i) in go (S i) l
                     end) 0%nat items
  end.

Fixpoint walk_input (node : InputNode) (path : NodePath) : result unit message :=
  match node with
  | INLeaf leaf => inp leaf path
  | INDict children =>
      (fix go l := match l with
                   | [] => Ok tt
                   | (key, child) :: l => let? _ := walk_input child (push_key path key) in go l
                   end) children
  | INTuple items =>
      (fix go i l := match l with
                     | [] => Ok tt
                     | child :: l => let? _ := walk_input child (push_index path i) in go (S i) l
                     end) 0%nat items
  end.
End Walks.

Definition reject_bare_fields_env (tags : EnvTags) : result unit message :=
  let? _ := walk_obs (fun leaf path => obs_leaf leaf path false) (et_observation tags) path_root in
  reject_action (et_action tags).

Definition reject_bare_fields_model (spec : ModelSpec) : result unit message :=
  let? _ := walk_input (fun leaf path => model_leaf leaf path false) (ms_input spec) path_root in
  reject_action (ms_output spec).

(** *** Role policies *)

Inductive RolePolicy : Type := Passthrough | Strict | Forbid.

#[export] Instance RolePolicy_eq_dec : EqDecision RolePolicy.
Proof. solve_decision. Defined.

Definition policy_allows (policy : RolePolicy) (role : string) : bool :=
  match policy with
  | Passthrough => true
  | Strict => is_sanctioned_role role
  | Forbid => is_known_role role
  end.

Definition reject_role (role : string) (locus : arg) (policy : RolePolicy) : result unit message :=
  let? _ := map_err (fun reason => Msg "{locus}: {reason}" [locus; nested reason]) (check_role role) in
  if policy_allows policy role then Ok tt
  else
    Err (Msg "{locus} declares unregistered role {role:?}; {hint}{kindless}"
           [locus; AStr role;
            AStr (if decide (policy = Forbid)
                  then "use a blessed role (this gate forbids every unregistered role, including the `x/` escape)"
                  else "use a blessed role, or the `x/` escape namespace for an intentionally non-standard one");
            match kindless_hint role with
            | Some hint => AMsg ". {hint}" [nested hint]
            | None => AStr EmptyString
            end]).

Definition obs_leaf_roles (policy : RolePolicy) (leaf : ObsLeaf) (path : NodePath)
    : result unit message :=
  let locus := AMsg "observation {:?}" [AStr (path_display path)] in
  match leaf with
  | ObImage tag => reject_role (it_role tag) locus policy
  | ObState tag => reject_role (stg_role tag) locus policy
  | ObText tag => reject_role (tt_role tag) locus policy
  | ObSplit layout =>
      try_each (fun field => match fd_role field with
                             | Some role => reject_role role locus policy
                             | None => Ok tt
                             end) (sl_fields layout)
  | ObUnknown _ _ => Ok tt
  end.

Definition model_leaf_roles (policy : RolePolicy) (leaf : ModelLeaf) (path : NodePath)
    : result unit message :=
  let locus := AMsg "model input {:?}" [AStr (path_display path)] in
  match leaf with
  | MImage input => reject_role (im_role input) locus policy
  | MState input =>
      try_each (fun role => reject_role role locus policy) (omap cc_role (sta_components input))
  | MText input => reject_role (tx_role input) locus policy
  | MCustom _ | MUnknown _ => Ok tt
  end.

Definition reject_action_roles (action : Action) (policy : RolePolicy) : result unit message :=
  try_each_at 0 (fun index actuator =>
    match act_role actuator with
    | Some role => reject_role role (AMsg "action component[{index}]" [ANat index]) policy
    | None => Ok tt
    end) (al_components action).

Definition reject_unsanctioned_roles_env (tags : EnvTags) (policy : RolePolicy)
    : result unit message :=
  let? _ := walk_obs (obs_leaf_roles policy) (et_observation tags) path_root in
  reject_action_roles (et_action tags) policy.

Definition reject_unsanctioned_roles_model (spec : ModelSpec) (policy : RolePolicy)
    : result unit message :=
  let? _ := walk_input (model_leaf_roles policy) (ms_input spec) path_root in
  reject_action_roles (ms_output spec) policy.

(** The publish gate. *)
Definition reject_unknowns_env (tags : EnvTags) : result unit message :=
  let? _ := walk_obs (fun leaf path => obs_leaf leaf path true) (et_observation tags) path_root in
  let? _ := reject_action (et_action tags) in
  reject_unsanctioned_roles_env tags Passthrough.

Definition reject_unknowns_model (spec : ModelSpec) : result unit message :=
  let? _ := walk_input (fun leaf path => model_leaf leaf path true) (ms_input spec) path_root in
  let? _ := reject_action (ms_output spec) in
  reject_unsanctioned_roles_model spec Passthrough.

(** *** Geometry policies *)

Inductive FramePolicy : Type := FramesAllow | FramesRequire.

Definition require_attr (role : string) (attr : Attr) (declared : option string) (locus : arg)
    : result unit message :=
  let owed :=
    match attr, role_def role with
    | AttrFrame, Some def => bool_decide (rd_frame def = Framed)
    | AttrReference, Some def => bool_decide (rd_reference def = Referenced)
    | AttrProvenance, Some _ | _, None => false
    end in
  if negb owed || is_some declared then Ok tt
  else Err (Msg "{locus} declares role {role:?} without a {}; this gate requires one of {:?}"
              [locus; AStr role; AStr (attr_name attr); strs (attr_vocabulary attr)]).

Definition obs_leaf_frames (leaf : ObsLeaf) (path : NodePath) : result unit message :=
  let locus := AMsg "observation {:?}" [AStr (path_display path)] in
  match leaf with
  | ObState tag => require_attr (stg_role tag) AttrFrame (stg_frame tag) locus
  | ObSplit layout =>
      try_each (fun field => match fd_role field with
                             | Some role => require_attr role AttrFrame (fd_frame field) locus
                             | None => Ok tt
                             end) (sl_fields layout)
  | _ => Ok tt
  end.

Definition model_leaf_frames (leaf : ModelLeaf) (path : NodePath) : result unit message :=
  match leaf with
  | MState input =>
      let locus := AMsg "model input {:?}" [AStr (path_display path)] in
      try_each (fun part => match cc_role part with
                            | Some role => require_attr role AttrFrame (cc_frame part) locus
                            | None => Ok tt
                            end) (sta_components input)
  | _ => Ok tt
  end.

Definition reject_unframed_action (action : Action) : result unit message :=
  try_each_at 0 (fun index actuator =>
    match act_role actuator with
    | None => Ok tt
    | Some role =>
        let locus := AMsg "action component[{index}]" [ANat index] in
        let? _ := require_attr role AttrFrame (act_frame actuator) locus in
        require_attr role AttrReference (act_reference actuator) locus
    end) (al_components action).

Definition reject_unframed_roles_env (tags : EnvTags) (policy : FramePolicy) : result unit message :=
  match policy with
  | FramesAllow => Ok tt
  | FramesRequire =>
      let? _ := walk_obs obs_leaf_frames (et_observation tags) path_root in
      reject_unframed_action (et_action tags)
  end.

Definition reject_unframed_roles_model (spec : ModelSpec) (policy : FramePolicy)
    : result unit message :=
  match policy with
  | FramesAllow => Ok tt
  | FramesRequire =>
      let? _ := walk_input model_leaf_frames (ms_input spec) path_root in
      reject_unframed_action (ms_output spec)
  end.
