(* ===== verification/AdapterJoin.v ===== *)
(** * Joining tags with spaces

    [src/crates/rlmesh-adapters/src/space_view.rs] (the projection of a space the
    resolver reads) and [join.rs]: the env's tags checked against its spaces and
    turned into the features a model's inputs are matched with. *)

From S2P Require Import Prelude BTree Float FloatOps DType Scalar Tensor Types AdapterValue AdapterGeometry AdapterPlans AdapterSpec.
#[local] Open Scope Z_scope.

(** ** Views of spaces *)

Inductive SpaceViewKind : Type :=
| VBox | VDiscrete | VMultiBinary | VMultiDiscrete | VText | VDict | VTuple | VUnspecified.

#[export] Instance SpaceViewKind_eq_dec : EqDecision SpaceViewKind.
Proof. solve_decision. Defined.

Inductive SpaceView : Type :=
| mkView (kind : SpaceViewKind) (shape : list Z) (dtype : string)
    (low high : option (list f64)) (keys : list string) (children : list SpaceView).

Definition sv_kind (v : SpaceView) : SpaceViewKind := let 'mkView k _ _ _ _ _ _ := v in k.
Definition sv_shape (v : SpaceView) : list Z := let 'mkView _ s _ _ _ _ _ := v in s.
Definition sv_low (v : SpaceView) : option (list f64) := let 'mkView _ _ _ l _ _ _ := v in l.
Definition sv_high (v : SpaceView) : option (list f64) := let 'mkView _ _ _ _ h _ _ := v in h.
Definition sv_keys (v : SpaceView) : list string := let 'mkView _ _ _ _ _ k _ := v in k.
Definition sv_children (v : SpaceView) : list SpaceView := let 'mkView _ _ _ _ _ _ c := v in c.

(** [None] on an overflow of the product. *)
Definition view_numel (v : SpaceView) : option Z := usize_product 1 (Z.max 0 <$> sv_shape v).

(** [keys.position] and [children.get]. *)
Fixpoint keyed_child {A} (key : string) (keys : list string) (children : list A) : option A :=
  match keys, children with
  | candidate :: keys, child :: children =>
      if String.eqb candidate key then Some child else keyed_child key keys children
  | _, _ => None
  end.

Definition view_child (v : SpaceView) (key : string) : option SpaceView :=
  if decide (sv_kind v <> VDict) then None else keyed_child key (sv_keys v) (sv_children v).

Definition child_at (v : SpaceView) (index : nat) : option SpaceView :=
  if decide (sv_kind v <> VTuple) then None else sv_children v !! index.

Section Views.
Context `{HalfOps}.

(** Bytes that do not decode leave the side unbounded. *)
Definition decode_typed (bytes : list byte) (dtype : DType) : option (option (list f64)) :=
  let! r := decode_scalars bytes dtype in
  Some match r with Ok scalars => Some ((fun s => to_f64 s dtype) <$> scalars) | Err _ => None end.

Definition box_bounds_f64 (bounds : option BoxBounds) (dtype : DType)
    : option (option (list f64) * option (list f64)) :=
  match bounds with
  | None | Some (Unbounded _) => Some (None, None)
  | Some (Uniform u) => Some (Some [uniform_low u], Some [uniform_high u])
  | Some (Elementwise e) => Some (Some (elementwise_low e), Some (elementwise_high e))
  | Some (TypedUniform t) =>
      let! low := decode_typed (typed_low t) dtype in
      let! high := decode_typed (typed_high t) dtype in
      Some (low, high)
  | Some (TypedElementwise t) =>
      let! low := decode_typed (typed_elems_low t) dtype in
      let! high := decode_typed (typed_elems_high t) dtype in
      Some (low, high)
  end.

Definition view_kind (s : SpaceSpec) : SpaceViewKind :=
  match spec s with
  | Some (KBox _) => VBox
  | Some (KDiscrete _) => VDiscrete
  | Some (KMultiBinary _) => VMultiBinary
  | Some (KMultiDiscrete _) => VMultiDiscrete
  | Some (KText _) => VText
  | Some (KDict _) => VDict
  | Some (KTuple _) => VTuple
  | None => VUnspecified
  end.

(** [SpaceView::from]. *)
Fixpoint view_of (s : SpaceSpec) : option SpaceView :=
  let! (low, high) :=
    match spec s with
    | Some (KBox b) => box_bounds_f64 (bounds b) (space_dtype s)
    | _ => Some (None, None)
    end in
  let! (keys, children) :=
    match spec s with
    | Some (KDict d) => let! children := mapM view_of (dict_spaces d) in Some (keys d, children)
    | Some (KTuple t) => let! children := mapM view_of (tuple_spaces t) in Some ([], children)
    | _ => Some ([], [])
    end in
  Some (mkView (view_kind s) (space_shape s) (dtype_name (space_dtype s)) low high keys children).
End Views.

(** ** Errors *)

Inductive JoinError : Type :=
| KeyNotInSpace (key : string)
| ClassMismatch (key expected : string) (actual : arg)
| TupleArityMismatch (path : string) (expected actual : nat)
| EncodingWidthMismatch (key encoding : string) (dims width : nat)
| StateLayoutWidthMismatch (key : string) (layout_sum width : nat)
| StateLayoutWidthOverflow (key : string)
| DuplicateLayoutRole (key role : string)
| LabelWidthMismatch (key : string) (labels width : nat)
| InvalidRole (key : string) (reason : message)
| InvalidLabels (key : string) (reason : message)
| ActionRoleOnObservation (key role : string)
| RangeDisagreement (key : string) (tag space : f64 * f64)
| ActionClass (actual : arg)
| ActionWidthMismatch (action_width component_sum : nat)
| ActionWidthOverflow
| ActionEncodingMismatch (role encoding : string) (dims dim : nat)
| RoleDimMismatch (key role : string) (expected actual : nat).

Definition range_arg (r : f64 * f64) : arg := AMsg "({}, {})" [AF64 (f64_bits r.1); AF64 (f64_bits r.2)].

Definition join_error_message (e : JoinError) : message :=
  match e with
  | KeyNotInSpace key =>
      Msg "observation key {key:?} does not resolve to a leaf of the observation space" [AStr key]
  | ClassMismatch key expected actual =>
      Msg "observation {key:?} is tagged as {expected} but the space is {actual}"
        [AStr key; AStr expected; actual]
  | TupleArityMismatch path expected actual =>
      Msg "observation tuple at {path:?} declares {actual} item(s) but the space has {expected}"
        [AStr path; ANat actual; ANat expected]
  | EncodingWidthMismatch key encoding dims width =>
      Msg "state {key:?} declares encoding {encoding} ({dims} dims) but the space width is {width}"
        [AStr key; AStr encoding; ANat dims; ANat width]
  | StateLayoutWidthMismatch key layout_sum width =>
      Msg "state layout for {key:?} sums to {layout_sum} dims but the space width is {width}"
        [AStr key; ANat layout_sum; ANat width]
  | StateLayoutWidthOverflow key =>
      Msg "state layout for {key:?} declares dims that overflow u32" [AStr key]
  | DuplicateLayoutRole key role =>
      Msg "state layout for {key:?} declares role {role:?} more than once" [AStr key; AStr role]
  | LabelWidthMismatch key labels width =>
      Msg "state {key:?} names {labels} labels but the space width is {width}; one label per element"
        [AStr key; ANat labels; ANat width]
  | InvalidRole key reason | InvalidLabels key reason =>
      Msg "{key:?}: {reason}" [AStr key; nested reason]
  | ActionRoleOnObservation key role =>
      Msg "observation {key:?} declares role {role:?}, an action kind; a command is carried by an actuator, and a model reads its previous action with source='action' (Previous), not from an env observation"
        [AStr key; AStr role]
  | RangeDisagreement key tag space =>
      Msg "{key:?} tag range {tag:?} disagrees with the space's finite bounds {space:?}"
        [AStr key; range_arg tag; range_arg space]
  | ActionClass actual => Msg "the action space must be a Box but it is {actual}" [actual]
  | ActionWidthMismatch action_width component_sum =>
      Msg "action component dims sum to {component_sum} but the action space width is {action_width}"
        [ANat component_sum; ANat action_width]
  | ActionWidthOverflow => lit "action component dims overflow u32"
  | ActionEncodingMismatch role encoding dims dim =>
      Msg "action component {role:?} declares encoding {encoding} ({dims} dims) but its dim is {dim}"
        [AStr role; AStr encoding; ANat dims; ANat dim]
  | RoleDimMismatch key role expected actual =>
      Msg "{key:?} declares role {role:?}, which is {expected}-D by convention, but its width is {actual}"
        [AStr key; AStr role; ANat expected; ANat actual]
  end.

(** ** Checks *)

Definition check_role_dim_law (role : string) (actual : nat) (key : string) : result unit JoinError :=
  match role_def role with
  | Some {| rd_dim := Fixed expected |} =>
      if decide (actual <> expected) then Err (RoleDimMismatch key role expected actual) else Ok tt
  | _ => Ok tt
  end.

Definition check_role_identity (role key : string) : result unit JoinError :=
  map_err (InvalidRole key) (check_role role).

Definition check_observation_role (role key : string) : result unit JoinError :=
  if String.prefix "action/" role then Err (ActionRoleOnObservation key role) else Ok tt.

Definition is_numeric (v : SpaceView) : bool :=
  match sv_kind v with VBox | VDiscrete | VMultiBinary | VMultiDiscrete => true | _ => false end.

(** [u32::try_from(numel).unwrap_or(u32::MAX)]; [None] when [numel] overflows. *)
Definition width_of (v : SpaceView) : option nat :=
  let! n := view_numel v in
  Some (Z.to_nat (Z.min n u32_max)).

Definition describe_space (v : SpaceView) : arg :=
  match sv_kind v with
  | VBox => AMsg "a {}-D Box" [ANat (length (sv_shape v))]
  | VDiscrete => AStr "a Discrete space"
  | VMultiBinary => AStr "a MultiBinary space"
  | VMultiDiscrete => AStr "a MultiDiscrete space"
  | VText => AStr "a Text space"
  | VDict => AStr "a Dict space"
  | VTuple => AStr "a Tuple space"
  | VUnspecified => AStr "an unspecified space"
  end.

(** A dimension that is no [u32] counts as [0]. *)
Definition pixel_dim (shape : list Z) (index : nat) : Z :=
  match shape !! index with
  | Some d => if (0 <=? d) && (d <=? u32_max) then d else 0
  | None => 0
  end.

Definition image_hwc (shape : list Z) (layout : ImageLayout) : Z * Z * Z :=
  let dim := pixel_dim shape in
  match layout with
  | Hwc => (dim 0%nat, dim 1%nat, dim 2%nat)
  | Chw => (dim 1%nat, dim 2%nat, dim 0%nat)
  end.

(** *** Ranges *)

Definition slice_uniform (bounds : list f64) (offset dim : nat) : option f64 :=
  match bounds with
  | [only] => Some only
  | _ =>
      let! part := slice bounds (Z.of_nat offset) (Z.of_nat (offset + dim)) in
      let! first := head part in
      if existsb (fun value => negb (f64_eqb value first)) part then None else Some first
  end.

Definition slice_uniform_finite_range (v : SpaceView) (offset dim : nat) : option (f64 * f64) :=
  let! lows := sv_low v in
  let! lo := slice_uniform lows offset dim in
  let! highs := sv_high v in
  let! hi := slice_uniform highs offset dim in
  if f64_is_finite lo && f64_is_finite hi then Some (lo, hi) else None.

Definition uniform_finite_range (v : SpaceView) (width : nat) : option (f64 * f64) :=
  slice_uniform_finite_range v 0 width.

Definition close (x y : f64) : bool :=
  f64_le (f64_abs (f64_sub x y))
    (f64_mul (f64_ratio 1 1000000) (f64_max (f64_max (f64_abs x) (f64_abs y)) (f64_of_Z 1))).

Definition ranges_agree (a b : f64 * f64) : bool := close a.1 b.1 && close a.2 b.2.

Definition reconcile_range (space tag : option (f64 * f64)) (key : string)
    : result (option (f64 * f64)) JoinError :=
  match space, tag with
  | Some space, Some tag =>
      if ranges_agree space tag then Ok (Some tag) else Err (RangeDisagreement key tag space)
  | Some space, None => Ok (Some space)
  | None, tag => Ok tag
  end.

(** [try_fold(0u32, checked_add)]. *)
Fixpoint sum_u32 (acc : nat) (dims : list nat) : option nat :=
  match dims with
  | [] => Some acc
  | dim :: dims =>
      if Z.of_nat (acc + dim) <=? u32_max then sum_u32 (acc + dim) dims else None
  end.

(** ** Features *)

Definition check_native (encoding : option (AcceptSet RotationEncoding)) (width : nat) (key : string)
    : result unit JoinError :=
  match encoding with
  | Some set =>
      match first_known set with
      | Some native =>
          if decide (width <> encoding_dims native) then
            Err (EncodingWidthMismatch key (encoding_str native) (encoding_dims native) width)
          else Ok tt
      | None => Ok tt
      end
  | None => Ok tt
  end.

Definition check_roles (role : string) (width : nat) (key : string) : result unit JoinError :=
  let? _ := check_role_dim_law role width key in
  let? _ := check_role_identity role key in
  check_observation_role role key.

Definition check_state_labels (labels : option (list string)) (width : nat) (key : string)
    : result unit JoinError :=
  match labels with
  | None => Ok tt
  | Some labels =>
      let? _ := map_err (InvalidLabels key) (check_labels labels (AStr key)) in
      if decide (length labels <> width) then Err (LabelWidthMismatch key (length labels) width)
      else Ok tt
  end.

Fixpoint split_fields (source : NodePath) (leaf : SpaceView) (fields : list Field)
    (seen : list LeafKey) (offset : nat) : result (list EnvFeature) JoinError :=
  let path := path_display source in
  match fields with
  | [] => Ok []
  | field :: fields =>
      match fd_role field with
      | None => split_fields source leaf fields seen (offset + fd_dim field)
      | Some role =>
          let? _ := check_native (fd_encoding field) (fd_dim field) path in
          let? _ := check_roles role (fd_dim field) path in
          let key := (role, fd_part field, fd_provenance field) in
          if existsb (leaf_key_eqb key) seen then Err (DuplicateLayoutRole path role)
          else
            let? range := reconcile_range (slice_uniform_finite_range leaf offset (fd_dim field))
                            (fd_range field) path in
            let? rest := split_fields source leaf fields (key :: seen) (offset + fd_dim field) in
            Ok (FState {| es_source := source; es_role := role; es_part := fd_part field;
                          es_slice_offset := Some offset; es_dim := Some (fd_dim field);
                          es_encoding := fd_encoding field; es_range := range;
                          es_frame := fd_frame field; es_provenance := fd_provenance field;
                          es_labels := fd_labels field |} :: rest)
      end
  end.

Definition join_split (source : NodePath) (layout : SplitLayout) (leaf : SpaceView)
    : option (result (list EnvFeature) JoinError) :=
  let path := path_display source in
  if negb (is_numeric leaf) then
    Some (Err (ClassMismatch path "a numeric state" (describe_space leaf)))
  else
    let! width := width_of leaf in
    Some
      (let? layout_sum := ok_or (sum_u32 0 (fd_dim <$> sl_fields layout))
                            (StateLayoutWidthOverflow path) in
       if decide (layout_sum <> width) then Err (StateLayoutWidthMismatch path layout_sum width)
       else split_fields source leaf (sl_fields layout) [] 0).

Definition join_image (source : NodePath) (image : ImageTag) (leaf : SpaceView)
    : option (result (list EnvFeature) JoinError) :=
  let path := path_display source in
  if bool_decide (sv_kind leaf <> VBox) || negb (length (sv_shape leaf) =? 3)%nat then
    Some (Err (ClassMismatch path "an image (3-D Box)" (describe_space leaf)))
  else
    let!? _ := Some (check_role_identity (it_role image) path) in
    let!? _ := Some (check_observation_role (it_role image) path) in
    let '(height, width, channels) := image_hwc (sv_shape leaf) (it_layout image) in
    let! numel := width_of leaf in
    Some (Ok [FImage {| ei_source := source; ei_role := it_role image; ei_part := it_part image;
                        ei_layout := it_layout image; ei_upside_down := it_upside_down image;
                        ei_height := height; ei_width := width; ei_channels := channels;
                        ei_value_range := uniform_finite_range leaf numel |}]).

Definition join_state (source : NodePath) (state : StateTag) (leaf : SpaceView)
    : option (result (list EnvFeature) JoinError) :=
  let path := path_display source in
  if negb (is_numeric leaf) then
    Some (Err (ClassMismatch path "a numeric state" (describe_space leaf)))
  else
    let! width := width_of leaf in
    Some
      (let? _ := check_native (stg_encoding state) width path in
       let? _ := check_roles (stg_role state) width path in
       let? _ := check_state_labels (stg_labels state) width path in
       let? range := reconcile_range (uniform_finite_range leaf width) (stg_range state) path in
       Ok [FState {| es_source := source; es_role := stg_role state; es_part := stg_part state;
                     es_slice_offset := None; es_dim := Some width;
                     es_encoding := stg_encoding state; es_range := range;
                     es_frame := stg_frame state; es_provenance := stg_provenance state;
                     es_labels := stg_labels state |}]).

Definition join_text (source : NodePath) (text : TextTag) (leaf : SpaceView)
    : result (list EnvFeature) JoinError :=
  let path := path_display source in
  if decide (sv_kind leaf <> VText) then
    Err (ClassMismatch path "a text space" (describe_space leaf))
  else
    let? _ := check_role_identity (tt_role text) path in
    let? _ := check_observation_role (tt_role text) path in
    Ok [FText {| etx_source := source; etx_role := tt_role text |}].

Definition join_feature (source : NodePath) (tag : ObsLeaf) (leaf : SpaceView)
    : option (result (list EnvFeature) JoinError) :=
  match tag with
  | ObUnknown _ _ => Some (Ok [])
  | ObImage image => join_image source image leaf
  | ObState state => join_state source state leaf
  | ObSplit layout => join_split source layout leaf
  | ObText text => Some (join_text source text leaf)
  end.

(** The features found and the leaves of unrecognised kinds. *)
Notation Joined := (list EnvFeature * list UnknownFeature)%type.

Fixpoint join_node (node : ObsNode) (view : SpaceView) (source : NodePath)
    : option (result Joined JoinError) :=
  match node with
  | ONLeaf (ObUnknown kind role) =>
      Some (Ok ([], [{| uf_source := source; uf_role := role; uf_kind := kind |}]))
  | ONLeaf leaf =>
      let!? features := join_feature source leaf view in
      Some (Ok (features, []))
  | ONDict children =>
      if decide (sv_kind view <> VDict) then
        Some (Err (ClassMismatch (path_display source) "a Dict space" (describe_space view)))
      else
        (fix go l :=
           match l with
           | [] => Some (Ok ([], []))
           | (key, child) :: l =>
               let child_path := push_key source key in
               match view_child view key with
               | None => Some (Err (KeyNotInSpace (path_display child_path)))
               | Some child_view =>
                   let!? here := join_node child child_view child_path in
                   let!? rest := go l in
                   Some (Ok (here.1 ++ rest.1, here.2 ++ rest.2))
               end
           end) children
  | ONTuple items =>
      if decide (sv_kind view <> VTuple) then
        Some (Err (ClassMismatch (path_display source) "a Tuple space" (describe_space view)))
      else if decide (length items <> length (sv_children view)) then
        Some (Err (TupleArityMismatch (path_display source) (length (sv_children view)) (length items)))
      else
        (fix go index l :=
           match l with
           | [] => Some (Ok ([], []))
           | item :: l =>
               let! child_view := sv_children view !! index in
               let!? here := join_node item child_view (push_index source index) in
               let!? rest := go (S index) l in
               Some (Ok (here.1 ++ rest.1, here.2 ++ rest.2))
           end) 0%nat items
  end.

(** ** The action *)

Definition set_act_range (range : option (f64 * f64)) (c : Actuator) : Actuator := {|
  act_role := act_role c; act_dim := act_dim c; act_encoding := act_encoding c;
  act_range := range; act_binary := act_binary c; act_scale := act_scale c;
  act_offset := act_offset c; act_axis_scale := act_axis_scale c;
  act_axis_offset := act_axis_offset c; act_invert := act_invert c;
  act_threshold := act_threshold c; act_clip := act_clip c; act_fill := act_fill c;
  act_optional := act_optional c; act_frame := act_frame c; act_reference := act_reference c;
  act_part := act_part c; act_labels := act_labels c; act_unknown := act_unknown c |}.

Fixpoint join_components (space : SpaceView) (offset : nat) (components : list Actuator)
    : result (list Actuator) JoinError :=
  match components with
  | [] => Ok []
  | c :: components =>
      let? here :=
        match act_role c with
        | None => Ok c
        | Some role =>
            let? _ :=
              match action_base <$> act_encoding c with
              | Some encoding =>
                  if decide (act_dim c <> encoding_dims encoding) then
                    Err (ActionEncodingMismatch role (encoding_str encoding)
                           (encoding_dims encoding) (act_dim c))
                  else Ok tt
              | None => Ok tt
              end in
            let? _ := check_role_dim_law role (act_dim c) role in
            let? _ := check_role_identity role role in
            let? range := reconcile_range (slice_uniform_finite_range space offset (act_dim c))
                            (act_range c) role in
            Ok (set_act_range range c)
        end in
      let? rest := join_components space (offset + act_dim c) components in
      Ok (here :: rest)
  end.

Definition resolve_action (action : Action) (space : SpaceView) : option (result Action JoinError) :=
  if decide (sv_kind space <> VBox) then Some (Err (ActionClass (describe_space space)))
  else
    let! action_width := width_of space in
    Some
      (let? component_sum := ok_or (sum_u32 0 (act_dim <$> al_components action)) ActionWidthOverflow in
       if decide (component_sum <> action_width) then
         Err (ActionWidthMismatch action_width component_sum)
       else
         let? components := join_components space 0 (al_components action) in
         Ok {| al_components := components; al_clip := al_clip action |}).

(** ** Advisories *)

Definition role_registry_advisory (role : string) : option Advisory :=
  if is_sanctioned_role role then None
  else
    Some (advisory_info
      (Msg "role {role:?} is not in the role registry; it resolves only when the env and model agree on its exact string. Prefer a blessed role, mark it intentionally non-standard with an `x/` prefix, or -- for dims no model reads -- use a role-less (opaque) actuator{hint}"
         [AStr role;
          match kindless_hint role with Some hint => AMsg ". {hint}" [nested hint] | None => AStr EmptyString end])).

Definition PLAUSIBLE_CHANNELS : Z := 4.

Definition image_layout_advisory (image : EnvImage) : option Advisory :=
  let '(declared, opposite_channels, other) :=
    match ei_layout image with
    | Hwc => ("hwc", ei_height image, "chw")
    | Chw => ("chw", ei_width image, "hwc")
    end in
  if (PLAUSIBLE_CHANNELS <? ei_channels image) &&
     (1 <=? opposite_channels) && (opposite_channels <=? PLAUSIBLE_CHANNELS) then
    Some (advisory_info
      (Msg "image {}: shape implies {} channels under layout={declared}; this looks like {other} -- declare layout={other} if so"
         [AStr (ei_role image); AZ (ei_channels image); AStr declared; AStr other; AStr other]))
  else None.

Definition feature_role (f : EnvFeature) : string :=
  match f with FImage i => ei_role i | FState s => es_role s | FText t => etx_role t end.

Definition join (tags : EnvTags) (obs_space action_space : SpaceView)
    : option (result EnvFeatures JoinError) :=
  let!? joined := join_node (et_observation tags) obs_space path_root in
  let!? action := resolve_action (et_action tags) action_space in
  let layouts := omap (fun f => match f with FImage i => image_layout_advisory i | _ => None end) joined.1 in
  let roles := omap role_registry_advisory
                 ((feature_role <$> joined.1) ++ omap act_role (al_components action)) in
  Some (Ok {| ef_observation := joined.1; ef_action := action; ef_unknown := joined.2;
              ef_advisories := layouts ++ roles |}).
