(* ===== verification/AdapterResolve.v ===== *)
(** * Resolution

    [src/crates/rlmesh-adapters/src/resolver.rs] and [resolver/*.rs]: an env's
    features and a model's inputs and outputs matched role by role into the plans of
    [AdapterPlans].  The planners push advisories as they go; [Planned] threads them
    with the error and the panic.  The texts of [fmt.rs] (quoted keys, the hint of a
    missing role) stay arguments of the messages they appear in. *)

From S2P Require Import Prelude BTree Float FloatOps DType Tensor AdapterValue AdapterGeometry AdapterPlans AdapterImage AdapterSpec AdapterJoin.
#[local] Open Scope Z_scope.

(** ** Errors and advisories *)

Inductive ErrorCode : Type :=
| InvalidTag | Duplicate | MissingRole | DimMismatch | EncodingMismatch | SliceOutOfRange
| MissingWidth | Unsupported | UntrustedEntrypoint | FrameMismatch | RenderMismatch
| UnsupportedKind | LabelMismatch | ProvenanceMismatch | Ambiguous | CodeActionRoleOnObservation.

Record AdapterResolutionError : Type := { are_code : ErrorCode; are_message : message }.

Definition err (code : ErrorCode) (m : message) : AdapterResolutionError :=
  {| are_code := code; are_message := m |}.

Notation Resolved A := (result A AdapterResolutionError).

(** A result with the advisories pushed on the way, or a panic. *)
Definition Planned (A : Type) : Type := option (Resolved (A * list Advisory)).

Definition done_with {A} (a : A) : Planned A := Some (Ok (a, [])).
Definition refuse {A} (code : ErrorCode) (m : message) : Planned A := Some (Err (err code m)).
Definition push (a : Advisory) : Planned unit := Some (Ok (tt, [a])).
Definition pure {A} (r : Resolved A) : Planned A :=
  match r with Ok a => Some (Ok (a, [])) | Err e => Some (Err e) end.
Definition may_panic {A} (o : option A) : Planned A :=
  match o with Some a => Some (Ok (a, [])) | None => None end.

Definition plan_bind {A B} (m : Planned A) (k : A -> Planned B) : Planned B :=
  match m with
  | None => None
  | Some (Err e) => Some (Err e)
  | Some (Ok (a, pushed)) =>
      match k a with
      | None => None
      | Some (Err e) => Some (Err e)
      | Some (Ok (b, more)) => Some (Ok (b, pushed ++ more))
      end
  end.

Declare Scope planned_scope.
Delimit Scope planned_scope with planned.
Notation "'let@' x ':=' m 'in' k" := (plan_bind m (fun x => k))
  (at level 200, x pattern, m at level 100, k at level 200) : planned_scope.
#[local] Open Scope planned_scope.

(** A loop that pushes results. *)
Fixpoint plan_each {A B} (f : A -> Planned B) (l : list A) : Planned (list B) :=
  match l with
  | [] => done_with []
  | x :: l => let@ y := f x in let@ ys := plan_each f l in done_with (y :: ys)
  end.

(** ** Keyed leaves *)

Definition opt_compare (a b : option string) : comparison :=
  match a, b with
  | None, None => Eq
  | None, Some _ => Lt
  | Some _, None => Gt
  | Some a, Some b => String.compare a b
  end.

Definition leaf_compare (a b : LeafKey) : comparison :=
  match String.compare a.1.1 b.1.1 with
  | Eq => match opt_compare a.1.2 b.1.2 with Eq => opt_compare a.2 b.2 | c => c end
  | c => c
  end.

(** [BTreeMap<LeafKey, T>]: its entries in order. *)
Notation leaves T := (list (LeafKey * T)).

Fixpoint leaf_insert {T} (key : LeafKey) (v : T) (m : leaves T) : leaves T :=
  match m with
  | [] => [(key, v)]
  | (key', v') :: rest =>
      match leaf_compare key key' with
      | Lt => (key, v) :: m
      | Eq => (key, v) :: rest
      | Gt => (key', v') :: leaf_insert key v rest
      end
  end.

Definition has_key {T} (m : leaves T) (key : LeafKey) : bool :=
  existsb (fun kv => leaf_key_eqb kv.1 key) m.

Definition has_role {T} (m : leaves T) (role : string) : bool :=
  existsb (fun kv => String.eqb kv.1.1.1 role) m.

Definition duplicate_message (label : string) (key : LeafKey) : message :=
  Msg "duplicate {label} role {}{part}{provenance}"
    [AStr label; AStr key.1.1;
     match key.1.2 with Some part => AMsg " under part {}" [AStr part] | None => AStr EmptyString end;
     match key.2 with Some p => AMsg " with provenance {}" [AStr p] | None => AStr EmptyString end].

Fixpoint index_from {T} (features : list (LeafKey * T)) (label : string) (by_key : leaves T)
    : Resolved (leaves T) :=
  match features with
  | [] => Ok by_key
  | (key, feature) :: features =>
      if has_key by_key key then Err (err Duplicate (duplicate_message label key))
      else index_from features label (leaf_insert key feature by_key)
  end.

Definition index_by_key {T} (features : list (LeafKey * T)) (label : string) : Resolved (leaves T) :=
  index_from features label [].

Fixpoint index_roles_from {T} (features : list (string * T)) (label : string) (by_role : btree T)
    : Resolved (btree T) :=
  match features with
  | [] => Ok by_role
  | (role, feature) :: features =>
      if is_some (btree_get role by_role) then
        Err (err Duplicate (Msg "duplicate {label} role {}" [AStr label; AStr role]))
      else index_roles_from features label (btree_insert role feature by_role)
  end.

Definition index_by_role {T} (features : list (string * T)) (label : string) : Resolved (btree T) :=
  index_roles_from features label [].

(** [quoted_leaf_keys]. *)
Definition quoted_leaf_keys {T} (m : leaves T) : arg :=
  strs ((fun kv => String.append kv.1.1.1
           (String.append (match kv.1.1.2 with Some p => String.append "#" p | None => EmptyString end)
              (match kv.1.2 with Some p => String.append "#" p | None => EmptyString end))) <$> m).

(** [missing_role_hint], by what it is given. *)
Definition missing_role_hint (role : string) (offered : list string) : arg :=
  AMsg "missing_role_hint" [AStr role; strs offered].

(** ** Binding *)

Record Bound (T : Type) : Type := { bound_feature : T; bound_part : option string }.
Arguments bound_feature {T}.
Arguments bound_part {T}.

Definition under_part {T} (by_key : leaves T) (role : string) (wanted : option string) : leaves T :=
  List.filter (fun kv => String.eqb kv.1.1.1 role && bool_decide (kv.1.1.2 = wanted)) by_key.

(** The parts a role is declared under, sorted and once each. *)
Definition parts_of {T} (by_key : leaves T) (role : string) : list string :=
  btree_keys (fold_left (fun acc part => btree_insert part tt acc)
    (omap (fun kv => if String.eqb kv.1.1.1 role then kv.1.1.2 else None) by_key) []).

Definition sole {T} (candidates : list T) : option T :=
  match candidates with [only] => Some only | _ => None end.

(** The first wanted provenance that a candidate declares. *)
Fixpoint first_wanted {T} (wanted : list string) (candidates : leaves T) : option (LeafKey * T) :=
  match wanted with
  | [] => None
  | w :: wanted =>
      match List.find (fun kv => bool_decide (kv.1.2 = Some w)) candidates with
      | Some found => Some found
      | None => first_wanted wanted candidates
      end
  end.

Definition choose {T} (provenance : option (AcceptSet Provenance)) (candidates : leaves T)
    : option (LeafKey * T) :=
  match provenance with
  | Some set =>
      match first_wanted (wire_names set) candidates with
      | Some found => Some found
      | None => sole candidates
      end
  | None => sole candidates
  end.

(** The leaves a seeker may bind: those under its part, or, of a seeker that names
    none, those under the only part the role is declared with. *)
Definition candidates_for {T} (by_key : leaves T) (role : string) (part : option string)
    (seeker : arg) (what offerer : string) : Planned (option (leaves T)) :=
  match under_part by_key role part with
  | [] =>
      match part with
      | Some _ => done_with None
      | None =>
          match parts_of by_key role with
          | [] => done_with None
          | [only] =>
              let@ _ := push (advisory_info
                (Msg "{seeker}: {what} {} declares no part and the {offerer} declares it only under part {}; bound to that leaf (declare part= to pin it)"
                   [seeker; AStr what; AStr role; AStr offerer; AStr only])) in
              done_with (Some (under_part by_key role (Some only)))
          | several =>
              refuse MissingRole
                (Msg "{seeker} needs {what} {} but the {offerer} declares it under parts {several:?}; declare part="
                   [seeker; AStr what; AStr role; AStr offerer; strs several])
          end
      end
  | candidates => done_with (Some candidates)
  end.

Definition bind_leaf {T} (by_key : leaves T) (role : string) (part : option string)
    (provenance : option (AcceptSet Provenance)) (seeker : arg) (what offerer : string)
    : Planned (option (Bound T)) :=
  let@ found := candidates_for by_key role part seeker what offerer in
  match found with
  | None => done_with None
  | Some candidates =>
      match choose provenance candidates with
      | Some ((_, bound, _), feature) =>
          done_with (Some {| bound_feature := feature; bound_part := bound |})
      | None =>
          let offered := (fun kv => default "none" kv.1.2) <$> candidates in
          match provenance with
          | None =>
              refuse Ambiguous
                (Msg "{seeker}: {what} {} declares no provenance and the {offerer} declares it under provenances {offered:?}; declare provenance= to pin one"
                   [seeker; AStr what; AStr role; AStr offerer; strs offered])
          | Some set =>
              refuse ProvenanceMismatch
                (Msg "{seeker}: {what} {} accepts provenance {:?} but the {offerer} declares it under {offered:?}"
                   [seeker; AStr what; AStr role; strs (wire_names set); AStr offerer; strs offered])
          end
      end
  end.

(** ** Shared rules *)

Definition at_ (placement : NodePath) : arg := AStr (path_display placement).

Definition reject_referenced_unknown (role : string) (placement : NodePath)
    (unknown_roles : btree string) : Resolved unit :=
  match btree_get role unknown_roles with
  | Some kind =>
      Err (err UnsupportedKind
        (Msg "model input {} needs role {} but the env declares it as unrecognized observation kind {}; upgrade the runtime"
           [at_ placement; AStr role; AStr kind]))
  | None => Ok tt
  end.

Definition check_recognized (attr : Attr) (role side : string) (declared : option string)
    : Resolved unit :=
  match declared with
  | Some value =>
      if recognizes attr value then Ok tt
      else Err (err FrameMismatch
             (Msg "role {}: the {side} declares unrecognized {name} {}; this core knows {:?}"
                [AStr role; AStr side; AStr (attr_name attr); AStr value; strs (attr_vocabulary attr)]))
  | None => Ok tt
  end.

Definition check_geometry (attr : Attr) (role : string) (env model : option string)
    : Planned (option string) :=
  let name := attr_name attr in
  let@ _ := pure (check_recognized attr role "env" env) in
  let@ _ := pure (check_recognized attr role "model" model) in
  match env, model with
  | None, None => done_with None
  | Some env, None => done_with (Some env)
  | None, Some model =>
      let@ _ := push (advisory_caution
        (Msg "role {}: the model declares {name} {} but the env declares none, so the {name} it was trained against cannot be verified -- declare it on the env to silence this"
           [AStr role; AStr name; AStr model; AStr name])) in
      done_with (Some model)
  | Some env, Some model =>
      if String.eqb env model then done_with (Some env)
      else refuse FrameMismatch
             (Msg "role {}: the model expects {name} {} but the env declares {}"
                [AStr role; AStr name; AStr model; AStr env])
  end.

(** [names.join("|")]. *)
Fixpoint join_names (names : list string) : string :=
  match names with
  | [] => EmptyString
  | [name] => name
  | name :: names => String.append name (String.append "|" (join_names names))
  end.

Definition check_provenance (role : string) (env : option string)
    (model : option (AcceptSet Provenance)) : Planned (option string) :=
  let attr := AttrProvenance in
  let@ _ :=
    match env with
    | Some value =>
        if recognizes attr value then done_with tt
        else refuse ProvenanceMismatch
               (Msg "role {}: the env declares unrecognized provenance {}; this core knows {:?}"
                  [AStr role; AStr value; strs (attr_vocabulary attr)])
    | None => done_with tt
    end in
  let@ _ :=
    match model with
    | Some set =>
        if is_some (first_known set) then done_with tt
        else refuse ProvenanceMismatch
               (Msg "role {}: the model declares unrecognized provenance {:?}; this core knows {:?}"
                  [AStr role; strs (wire_names set); strs (attr_vocabulary attr)])
    | None => done_with tt
    end in
  match env, model with
  | None, None => done_with None
  | Some env, None => done_with (Some env)
  | None, Some set =>
      let declared := join_names (wire_names set) in
      let@ _ := push (advisory_caution
        (Msg "role {}: the model declares provenance {} but the env declares none, so where the values it was trained on came from cannot be verified -- declare it on the env to silence this"
           [AStr role; AStr declared])) in
      done_with (Some declared)
  | Some env, Some set =>
      if existsb (String.eqb env) (wire_names set) then done_with (Some env)
      else refuse ProvenanceMismatch
             (Msg "role {}: the model expects provenance {:?} but the env declares {}"
                [AStr role; strs (wire_names set); AStr env])
  end.

Definition part_suffix (part : option string) : arg :=
  match part with Some part => AMsg " (part {})" [AStr part] | None => AStr EmptyString end.

Definition check_axis_width (values : option (list f64)) (name : string) (width : option nat)
    (locus : arg) : Resolved unit :=
  match values, width with
  | Some values, Some width =>
      if decide (length values <> width) then
        Err (err DimMismatch (Msg "{locus}: {name} has {} values but the resolved width is {width}"
                                [locus; AStr name; ANat (length values); ANat width]))
      else Ok tt
  | _, _ => Ok tt
  end.

(** ** Labels *)

Record LabelSetDiff : Type := { wanted_only : list string; available_only : list string }.

Definition describe_diff (d : LabelSetDiff) (wanted available : string) : arg :=
  AMsg "{}"
    ((match wanted_only d with [] => [] | l => [AMsg "the {available} lacks {:?}" [AStr available; strs l]] end) ++
     (match available_only d with [] => [] | l => [AMsg "the {wanted} lacks {:?}" [AStr wanted; strs l]] end)).

Definition not_in (labels other : list string) : list string :=
  List.filter (fun label => negb (existsb (String.eqb label) other)) labels.

(** [iter.position]. *)
Fixpoint label_position (label : string) (available : list string) : option nat :=
  match available with
  | [] => None
  | have :: available =>
      if String.eqb have label then Some 0%nat else S <$> label_position label available
  end.

(** [None] outside is the panic of [expect("same set")]. *)
Definition label_permutation (wanted available : list string)
    : option (result (option (list nat)) LabelSetDiff) :=
  let diff := {| wanted_only := not_in wanted available; available_only := not_in available wanted |} in
  match wanted_only diff, available_only diff with
  | [], [] =>
      let! permutation := mapM (fun label => label_position label available) wanted in
      let identity := bool_decide (permutation = seq 0 (length permutation)) in
      Some (Ok (if identity then None else Some permutation))
  | _, _ => Some (Err diff)
  end.

Definition with_diff {A} (r : option (result A LabelSetDiff)) (f : LabelSetDiff -> message) : Planned A :=
  match r with
  | None => None
  | Some (Ok a) => done_with a
  | Some (Err diff) => refuse LabelMismatch (f diff)
  end.

Definition label_scatter (role : string) (env model : Actuator) : Planned (option (list nat)) :=
  match act_labels model with
  | None => done_with None
  | Some model_labels =>
      match act_labels env with
      | None =>
          refuse LabelMismatch
            (Msg "action role {}: the model names labels {:?} but the env actuator declares none; label the env actuator (labels=) so the axes can be aligned"
               [AStr role; strs model_labels])
      | Some env_labels =>
          with_diff (label_permutation env_labels model_labels) (fun diff =>
            Msg "action role {}: the model names labels {:?} but {}; the two must name the same set"
              [AStr role; strs model_labels; describe_diff diff "env actuator" "model"])
      end
  end.

Definition label_gather (role : string) (env model : option (list string)) (at_ : arg)
    (offerer : string) : Planned (option (list nat)) :=
  match model with
  | None => done_with None
  | Some model =>
      match env with
      | None =>
          refuse LabelMismatch
            (Msg "model input {at}: state role {} names labels {:?} but the {offerer} declares none; label the {offerer} (labels=) so the axes can be aligned"
               [at_; AStr role; strs model; AStr offerer; AStr offerer])
      | Some env =>
          with_diff (label_permutation model env) (fun diff =>
            Msg "model input {at}: state role {} names labels {:?} but {}; the two must name the same set"
              [at_; AStr role; strs model; describe_diff diff "model input" offerer])
      end
  end.

(** ** The action *)

Definition check_action_role_dim (role : string) (dim : nat) : Resolved unit :=
  match role_def role with
  | Some {| rd_dim := Fixed expected |} =>
      if decide (dim <> expected) then
        Err (err DimMismatch
          (Msg "action role {}: model declares {dim} dims but the role is {expected}-D by convention"
             [AStr role; ANat dim; ANat expected]))
      else Ok tt
  | _ => Ok tt
  end.

Definition quoted_encoding (e : option RotationEncoding) : arg :=
  match e with Some e => AStr (encoding_str e) | None => AStr "None" end.

(** The host-side arm of a custom encoding on the action side. *)
Definition check_action_custom (model : Actuator) (role : string) : Resolved unit :=
  match act_encoding model with
  | Some (CustomEnc custom) =>
      if negb (is_some (ce_to_base custom)) then
        Err (err Unsupported (Msg "action role {}: an action custom encoding needs to_base" [AStr role]))
      else if decide (act_dim model <> encoding_dims (ce_base custom)) then
        Err (err DimMismatch
          (Msg "action role {}: a custom encoding preserves its base width {} but the actuator declares dim {}"
             [AStr role; ANat (encoding_dims (ce_base custom)); ANat (act_dim model)]))
      else Ok tt
  | _ => Ok tt
  end.

Definition check_converting (model env : Actuator) (role : string) (src dst : RotationEncoding)
    : Resolved unit :=
  if bool_decide (act_dim model <> encoding_dims src) || bool_decide (act_dim env <> encoding_dims dst) then
    Err (err DimMismatch
      (Msg "action role {}: dims {}->{} do not match encodings {}->{}"
         [AStr role; ANat (act_dim model); ANat (act_dim env); quoted_encoding (Some src);
          quoted_encoding (Some dst)]))
  else if is_some (act_axis_scale model) || is_some (act_axis_offset model) then
    Err (err Unsupported
      (Msg "action role {}: the model's axis_scale/axis_offset cannot apply across a rotation conversion {}->{}; use a scalar scale/offset or declare them on the env"
         [AStr role; quoted_encoding (Some src); quoted_encoding (Some dst)]))
  else Ok tt.

Definition same_dims (model env : Actuator) (role : string) : Resolved unit :=
  if decide (act_dim model <> act_dim env) then
    Err (err DimMismatch
      (Msg "action role {}: model outputs {} dims but the env expects {}"
         [AStr role; ANat (act_dim model); ANat (act_dim env)]))
  else Ok tt.

Definition check_action_dims (model env : Actuator) (role : string) : Resolved unit :=
  let? _ := check_action_role_dim role (act_dim model) in
  let? _ := check_action_custom model role in
  let model_encoding := action_base <$> act_encoding model in
  let env_encoding := action_base <$> act_encoding env in
  match model_encoding, env_encoding with
  | Some src, Some dst =>
      if decide (src <> dst) then check_converting model env role src dst
      else same_dims model env role
  | None, None => same_dims model env role
  | _, _ =>
      Err (err EncodingMismatch
        (Msg "action role {}: cannot convert encoding {} to {}; both sides must declare a rotation encoding"
           [AStr role; quoted_encoding model_encoding; quoted_encoding env_encoding]))
  end.

Record ModelOutputs : Type := {
  mo_by_key : leaves (nat * Actuator);
  mo_in_dim : nat;
}.

Definition checked_add_u32 (a b : nat) : option nat :=
  if Z.of_nat (a + b) <=? u32_max then Some (a + b)%nat else None.

Fixpoint place_outputs (cursor : nat) (components : list Actuator)
    : Resolved (list (LeafKey * (nat * Actuator)) * nat) :=
  match components with
  | [] => Ok ([], cursor)
  | c :: components =>
      let? next := ok_or (checked_add_u32 cursor (act_dim c))
        (err DimMismatch (lit "model action component dims overflow u32")) in
      let? (placed, total) := place_outputs next components in
      Ok (match act_role c with
          | Some role => ((role, act_part c, None), (cursor, c)) :: placed
          | None => placed
          end, total)
  end.

Definition index_outputs (model : Action) : Resolved ModelOutputs :=
  let? (placed, total) := place_outputs 0 (al_components model) in
  let? by_key := index_by_key placed "model action" in
  Ok {| mo_by_key := by_key; mo_in_dim := total |}.

(** A segment that reads nothing: [dim] copies of [fill]. *)
Definition fill_segment (role : option string) (labels : option (list string)) (part : option string)
    (dim : nat) (fill : f64) : ActionSegment := {|
  as_role := role; as_start := 0; as_stop := 0; as_src_encoding := None; as_dst_encoding := None;
  as_src_range := None; as_dst_range := None; as_model_scale := None; as_model_offset := None;
  as_model_axis_scale := None; as_model_axis_offset := None; as_model_invert := false;
  as_model_threshold := None; as_scale := None; as_offset := None; as_axis_scale := None;
  as_axis_offset := None; as_invert := false; as_threshold := None; as_scatter := None;
  as_labels := labels; as_model_labels := None; as_binarize := false; as_clip := None;
  as_frame := None; as_reference := None; as_part := part; as_fill := Some (dim, fill) |}.

(** [Option<(f64, f64)>] compared as floats are. *)
Definition same_range (a b : option (f64 * f64)) : bool :=
  match a, b with
  | None, None => true
  | Some a, Some b => f64_eqb a.1 b.1 && f64_eqb a.2 b.2
  | _, _ => false
  end.

Definition check_axes (role : string) (model env : Actuator) : Resolved unit :=
  let locus := AMsg "action role {}" [AStr role] in
  let? _ := check_axis_width (act_axis_scale model) "the model's axis_scale" (Some (act_dim model)) locus in
  let? _ := check_axis_width (act_axis_offset model) "the model's axis_offset" (Some (act_dim model)) locus in
  let? _ := check_axis_width (act_axis_scale env) "the env's axis_scale" (Some (act_dim env)) locus in
  check_axis_width (act_axis_offset env) "the env's axis_offset" (Some (act_dim env)) locus.

Definition action_clip (role : string) (env : Actuator) : Resolved (option (f64 * f64)) :=
  if act_clip env then
    match act_range env with
    | Some range => Ok (Some range)
    | None => Err (err Unsupported
                (Msg "action role {}: clip=true clamps to range, but no range is declared" [AStr role]))
    end
  else Ok None.

(** The segment of an env actuator that a model output drives. *)
Definition driven_segment (role : string) (env : Actuator) (start : nat) (model : Actuator)
    (part : option string) : Planned ActionSegment :=
  let@ scatter := label_scatter role env model in
  let@ _ := pure (check_action_dims model env role) in
  let@ _ := pure (check_axes role model env) in
  let@ _ := if act_clip model then
              refuse Unsupported (Msg "action role {}: clip is an env-side clamp; declare it on the env actuator" [AStr role])
            else done_with tt in
  let binarize := act_binary env || act_binary model in
  let@ _ := if (is_some (act_threshold env) || is_some (act_threshold model)) && negb binarize then
              refuse Unsupported (Msg "action role {}: threshold requires a binary component (set binary=true)" [AStr role])
            else done_with tt in
  let@ clip := pure (action_clip role env) in
  let@ frame := check_geometry AttrFrame role (act_frame env) (act_frame model) in
  let@ reference := check_geometry AttrReference role (act_reference env) (act_reference model) in
  let same := same_range (act_range model) (act_range env) in
  let@ stop := may_panic (checked_add_u32 start (act_dim model)) in
  done_with {|
    as_role := Some role; as_start := Z.of_nat start; as_stop := Z.of_nat stop;
    as_src_encoding := action_base <$> act_encoding model;
    as_dst_encoding := action_base <$> act_encoding env;
    as_src_range := if same then None else act_range model;
    as_dst_range := if same then None else act_range env;
    as_model_scale := act_scale model; as_model_offset := act_offset model;
    as_model_axis_scale := act_axis_scale model; as_model_axis_offset := act_axis_offset model;
    as_model_invert := act_invert model; as_model_threshold := act_threshold model;
    as_scale := act_scale env; as_offset := act_offset env;
    as_axis_scale := act_axis_scale env; as_axis_offset := act_axis_offset env;
    as_invert := act_invert env; as_threshold := act_threshold env;
    as_scatter := scatter; as_labels := act_labels env;
    as_model_labels := match act_labels model with Some l => Some l | None => act_labels env end;
    as_binarize := binarize; as_clip := clip; as_frame := frame; as_reference := reference;
    as_part := part; as_fill := None |}.

Definition role_segment (outputs : ModelOutputs) (role : string) (env : Actuator)
    : Planned ActionSegment :=
  let offsets := mo_by_key outputs in
  let@ bound := bind_leaf offsets role (act_part env) None (AStr "env action") "role" "model" in
  match bound with
  | Some bound =>
      let (start, model) := bound_feature bound in
      driven_segment role env start model (bound_part bound)
  | None =>
      if act_optional env then
        done_with (fill_segment (Some role) (act_labels env) (act_part env) (act_dim env) (act_fill env))
      else
        refuse MissingRole
          (Msg "env action needs role {}{} but the model only outputs {}{}"
             [AStr role; part_suffix (act_part env); quoted_leaf_keys offsets;
              missing_role_hint role ((fun kv => kv.1.1.1) <$> offsets)])
  end.

Fixpoint plan_segments (outputs : ModelOutputs) (seen : list LeafKey) (components : list Actuator)
    : Planned (list ActionSegment) :=
  match components with
  | [] => done_with []
  | env :: components =>
      match act_role env with
      | None =>
          let@ rest := plan_segments outputs seen components in
          done_with (fill_segment None None None (act_dim env) (act_fill env) :: rest)
      | Some role =>
          let key := (role, act_part env, None) in
          if existsb (leaf_key_eqb key) seen then
            refuse Duplicate
              match act_part env with
              | Some part => Msg "duplicate env action role {} under part {}" [AStr role; AStr part]
              | None => Msg "duplicate env action role {}" [AStr role]
              end
          else
            let@ segment := role_segment outputs role env in
            let@ rest := plan_segments outputs (key :: seen) components in
            done_with (segment :: rest)
      end
  end.

Definition plan_action (model env : Action) (outputs : ModelOutputs) : Planned ActionPlan :=
  let@ _ := if is_some (al_clip model) then
              refuse Unsupported (lit "clip is an env-side actuator clamp; the model action declaration must leave it unset")
            else done_with tt in
  let@ segments := plan_segments outputs [] (al_components env) in
  done_with {| ap_segments := segments; ap_clip := al_clip env; ap_in_dim := mo_in_dim outputs |}.

(** ** Text and custom inputs *)

Definition plan_text (input : Text) (placement : NodePath) (texts_by_role : btree EnvText)
    (unknown_roles : btree string) : Resolved TextPlan :=
  let env_text := btree_get (tx_role input) texts_by_role in
  let? _ :=
    match env_text with
    | Some _ => Ok tt
    | None =>
        let? _ := reject_referenced_unknown (tx_role input) placement unknown_roles in
        if is_some (tx_fill input) then Ok tt
        else Err (err MissingRole
               (Msg "model input {} needs text role {} but the env offers {} and no fill is set"
                  [at_ placement; AStr (tx_role input); strs (btree_keys texts_by_role)]))
    end in
  Ok {| tp_placement := placement; tp_source := etx_source <$> env_text;
        tp_container := tx_container input; tp_fill := tx_fill input |}.

Definition plan_custom (input : Custom) (placement : NodePath) (trust_entrypoints : bool)
    : Resolved CustomPlan :=
  if negb trust_entrypoints then
    Err (err UntrustedEntrypoint
      (Msg "custom input {} references entrypoint {}; pass resolve(..., trust_entrypoints=True) to allow importing it"
         [at_ placement; AStr (cu_transform input)]))
  else Ok {| cp_placement := placement; cp_placement_key := path_display placement;
             cp_transform := cu_transform input |}.

(** ** State inputs *)

Definition fill_width (component : ConcatPart) (role : string) (at_ : arg) : Resolved nat :=
  match cc_index component, cc_labels component, cc_dim component, cc_encoding component ≫= state_base with
  | Some _, _, _, _ => Ok 1%nat
  | None, Some labels, _, _ => Ok (length labels)
  | None, None, Some dim, _ => Ok dim
  | None, None, None, Some native => Ok (encoding_dims native)
  | None, None, None, None =>
      Err (err MissingWidth
        (Msg "model input {at}: optional state role {} needs dim, index, or encoding to size its zero fill"
           [at_; AStr role]))
  end.

Definition folded_fill (component : ConcatPart) : f64 :=
  f64_add (f64_mul (cc_fill component) (default (f64_of_Z 1) (cc_scale component)))
    (default f64_zero (cc_offset component)).

Definition fill_piece (width : nat) (fill : f64) (absent_role part : option string)
    (component : ConcatPart) : StatePiece := {|
  sp_source := path_root; sp_src_offset := None; sp_src_dim := None; sp_src_encoding := None;
  sp_dst_encoding := None; sp_post_rotate := None; sp_dim := Some width; sp_index := None;
  sp_src_range := None; sp_dst_range := None; sp_scale := None; sp_offset := None;
  sp_axis_scale := cc_axis_scale component; sp_axis_offset := cc_axis_offset component;
  sp_gather := None; sp_labels := cc_labels component; sp_fill := Some fill;
  sp_absent_role := absent_role; sp_previous := None; sp_frame := None; sp_provenance := None;
  sp_part := part; sp_width := Some width |}.

Definition previous_action_piece (component : ConcatPart) (role : string) (at_ : arg)
    (outputs : ModelOutputs) : Planned StatePiece :=
  let@ bound := bind_leaf (mo_by_key outputs) role (cc_part component) None
                  (AMsg "model input {at}" [at_]) "previous action role" "model" in
  match bound with
  | None =>
      refuse MissingRole
        (Msg "model input {at} reads the previous action for role {}{} but no actuator emits it; the model outputs {}"
           [at_; AStr role; part_suffix (cc_part component); quoted_leaf_keys (mo_by_key outputs)])
  | Some bound =>
      let (start, actuator) := bound_feature bound in
      let@ gather := label_gather role (act_labels actuator) (cc_labels component) at_ "actuator" in
      let width := act_dim actuator in
      let@ _ :=
        match cc_dim component with
        | Some dim =>
            if decide (dim <> width) then
              refuse DimMismatch
                (Msg "model input {at}: previous action role {} declares dim {dim} but the actuator emits {width}"
                   [at_; AStr role; ANat dim; ANat width])
            else done_with tt
        | None => done_with tt
        end in
      let@ stop := may_panic (checked_add_u32 start (act_dim actuator)) in
      done_with {|
        sp_source := path_root; sp_src_offset := None; sp_src_dim := None; sp_src_encoding := None;
        sp_dst_encoding := None; sp_post_rotate := None; sp_dim := Some width; sp_index := None;
        sp_src_range := None; sp_dst_range := None; sp_scale := None; sp_offset := None;
        sp_axis_scale := None; sp_axis_offset := None; sp_gather := gather;
        sp_labels := match cc_labels component with Some l => Some l | None => act_labels actuator end;
        sp_fill := Some (cc_fill component); sp_absent_role := None;
        sp_previous := Some {| pa_role := role; pa_start := start; pa_stop := stop |};
        sp_frame := None; sp_provenance := None; sp_part := bound_part bound; sp_width := Some width |}
  end.

Definition quoted_accept_set (s : option (AcceptSet RotationEncoding)) : arg :=
  match s with None => AStr "None" | Some set => strs (wire_names set) end.

Definition select_state_encoding (role : string) (env model : option (AcceptSet RotationEncoding))
    : Resolved (option RotationEncoding * option RotationEncoding) :=
  match env, model with
  | None, None => Ok (None, None)
  | Some env_set, Some model_set =>
      let? native := ok_or (first_known env_set)
        (err EncodingMismatch
           (Msg "state role {}: env declares only unrecognized rotation encoding(s) {:?}; upgrade the runtime to one that recognizes them"
              [AStr role; strs (wire_names env_set)])) in
      let? preferred := ok_or (first_known model_set)
        (err EncodingMismatch
           (Msg "state role {}: model declares only unrecognized rotation encoding(s) {:?}; upgrade the runtime to one that recognizes them"
              [AStr role; strs (wire_names model_set)])) in
      let dst := if accepts model_set native then native else preferred in
      if is_sink native && bool_decide (dst <> native) then
        Err (err EncodingMismatch
          (Msg "state role {}: the env declares encoding {} which is a direction, not a rotation, so it cannot be converted to {}; only a rotation encoding converts into it"
             [AStr role; quoted_encoding (Some native); quoted_encoding (Some dst)]))
      else Ok (Some native, Some dst)
  | _, _ =>
      Err (err EncodingMismatch
        (Msg "state role {}: cannot convert encoding {} to {}; both sides must declare a rotation encoding"
           [AStr role; quoted_accept_set env; quoted_accept_set model]))
  end.

(** What a custom encoding needs of an observation. *)
Definition model_accept_set (component : ConcatPart) (role : string)
    : Resolved (option (AcceptSet RotationEncoding)) :=
  match cc_encoding component with
  | None => Ok None
  | Some encoding =>
      let? _ :=
        match encoding_custom encoding with
        | None => Ok tt
        | Some custom =>
            let base_dims := encoding_dims (ce_base custom) in
            if negb (is_some (ce_from_base custom)) then
              Err (err Unsupported (Msg "state role {}: an observation custom encoding needs from_base" [AStr role]))
            else if is_some (cc_index component) ||
                    match cc_dim component with Some dim => bool_decide (dim <> base_dims) | None => false end then
              Err (err Unsupported
                (Msg "state role {}: a custom encoding keeps its base width; drop index and set dim to {base_dims} or omit it"
                   [AStr role; ANat base_dims]))
            else Ok tt
        end in
      Ok (Some (state_accept_set encoding))
  end.

Definition converts_to (src dst : option RotationEncoding) (component : ConcatPart) : bool :=
  match src, dst with
  | Some src, Some dst => bool_decide (src <> dst) || is_some (cc_post_rotate component)
  | _, _ => false
  end.

(** The width the part is cut from, when it is known. *)
Definition source_width_of (env : EnvState) (component : ConcatPart) (src dst : option RotationEncoding)
    : option nat :=
  if converts_to src dst component then encoding_dims <$> dst
  else match cc_labels component with
       | Some labels => Some (length labels)
       | None => es_dim env
       end.

Definition check_slice (env : EnvState) (component : ConcatPart) (role : string)
    (source_width : option nat) : Resolved unit :=
  match source_width with
  | None => Ok tt
  | Some width =>
      match cc_index component, cc_dim component with
      | Some index, _ =>
          if (width <=? index)%nat then
            Err (err SliceOutOfRange
              (Msg "state role {}: index {index} is out of range for the width-{width} source feature {}"
                 [AStr role; ANat index; ANat width; at_ (es_source env)]))
          else Ok tt
      | None, Some dim =>
          if (width <? dim)%nat then
            Err (err SliceOutOfRange
              (Msg "state role {}: requested {dim} dims but the source feature {} has width {width}"
                 [AStr role; ANat dim; at_ (es_source env); ANat width]))
          else Ok tt
      | None, None => Ok tt
      end
  end.

Definition piece_width (component : ConcatPart) (source_width : option nat) : option nat :=
  match cc_index component, cc_dim component with
  | Some _, _ => Some 1%nat
  | None, Some dim => Some dim
  | None, None => source_width
  end.

(** A part read from the env leaf it is bound to. *)
Definition bound_piece (component : ConcatPart) (role : string) (at_arg : arg) (env : EnvState)
    (part : option string) : Planned StatePiece :=
  let locus := AMsg "model input {at}: state role {}" [at_arg; AStr role] in
  let@ gather := label_gather role (es_labels env) (cc_labels component) at_arg "env leaf" in
  let@ model_set := pure (model_accept_set component role) in
  let@ (src, dst) := pure (select_state_encoding role (es_encoding env) model_set) in
  let@ _ :=
    match src with
    | Some encoding =>
        if is_sink encoding && is_some (cc_post_rotate component) then
          refuse EncodingMismatch
            (Msg "state role {}: post_rotate needs a rotation to decode but the env declares encoding {}, a direction"
               [AStr role; quoted_encoding src])
        else done_with tt
    | None => done_with tt
    end in
  let@ frame := check_geometry AttrFrame role (es_frame env) (cc_frame component) in
  let@ provenance := check_provenance role (es_provenance env) (cc_provenance component) in
  let@ _ :=
    match src, dst, es_dim env with
    | Some s, Some d, Some env_dim =>
        if bool_decide (s <> d) && bool_decide (env_dim <> encoding_dims s) then
          refuse DimMismatch
            (Msg "state role {}: env feature {} declares {env_dim} dims but encoding {} has {}"
               [AStr role; at_ (es_source env); ANat env_dim; quoted_encoding src; ANat (encoding_dims s)])
        else done_with tt
    | _, _, _ => done_with tt
    end in
  let source_width := source_width_of env component src dst in
  let@ _ := pure (check_slice env component role source_width) in
  let width := piece_width component source_width in
  let@ _ := pure (check_axis_width (cc_axis_scale component) "axis_scale" width locus) in
  let@ _ := pure (check_axis_width (cc_axis_offset component) "axis_offset" width locus) in
  let labels := match cc_labels component with Some l => Some l | None => es_labels env end in
  done_with {|
    sp_source := es_source env; sp_src_offset := es_slice_offset env;
    sp_src_dim := match es_slice_offset env with Some _ => es_dim env | None => None end;
    sp_src_encoding := src; sp_dst_encoding := dst; sp_post_rotate := cc_post_rotate component;
    sp_dim := match cc_dim component with Some dim => Some dim | None => length <$> cc_labels component end;
    sp_index := cc_index component; sp_src_range := es_range env; sp_dst_range := cc_range component;
    sp_scale := cc_scale component; sp_offset := cc_offset component;
    sp_axis_scale := cc_axis_scale component; sp_axis_offset := cc_axis_offset component;
    sp_gather := gather;
    sp_labels := match labels, width with
                 | Some l, Some w => if decide (length l = w) then Some l else None
                 | l, None => l
                 | None, _ => None
                 end;
    sp_fill := None; sp_absent_role := None; sp_previous := None; sp_frame := frame;
    sp_provenance := provenance; sp_part := part; sp_width := width |}.

(** An optional part the env lacks. *)
Definition absent_piece (component : ConcatPart) (role : string) (at_arg : arg)
    : Resolved StatePiece :=
  let locus := AMsg "model input {at}: state role {}" [at_arg; AStr role] in
  let? width := fill_width component role at_arg in
  let? _ := check_axis_width (cc_axis_scale component) "axis_scale" (Some width) locus in
  let? _ := check_axis_width (cc_axis_offset component) "axis_offset" (Some width) locus in
  Ok (fill_piece width (folded_fill component) (Some role) (cc_part component) component).

Definition plan_piece (placement : NodePath) (states_by_role : leaves EnvState)
    (outputs : ModelOutputs) (unknown_roles : btree string) (component : ConcatPart)
    : Planned StatePiece :=
  let at_arg := at_ placement in
  match cc_role component with
  | None =>
      let@ width := may_panic (cc_dim component) in
      done_with (fill_piece width (cc_fill component) None None component)
  | Some role =>
      if decide (cc_source component = FromAction) then
        previous_action_piece component role at_arg outputs
      else if is_some (cc_encoding component ≫= encoding_custom) && cc_optional component then
        refuse Unsupported
          (Msg "state role {}: a custom encoding cannot be optional (its host-side repack has no zero form)"
             [AStr role])
      else
        let@ bound := bind_leaf states_by_role role (cc_part component) (cc_provenance component)
                        (AMsg "model input {at}" [at_arg]) "state role" "env" in
        match bound with
        | Some bound => bound_piece component role at_arg (bound_feature bound) (bound_part bound)
        | None =>
            let@ _ := pure (reject_referenced_unknown role placement unknown_roles) in
            if cc_optional component then pure (absent_piece component role at_arg)
            else
              refuse MissingRole
                (Msg "model input {at} needs state role {}{} but the env offers {}{}"
                   [at_arg; AStr role; part_suffix (cc_part component); quoted_leaf_keys states_by_role;
                    missing_role_hint role ((fun kv => kv.1.1.1) <$> states_by_role)])
        end
  end.

(** [try_fold] over the widths. *)
Fixpoint sum_widths (total : nat) (pieces : list StatePiece) : option nat :=
  match pieces with
  | [] => Some total
  | piece :: pieces =>
      let! width := sp_width piece in
      let! total := checked_add_u32 total width in
      sum_widths total pieces
  end.

Definition plan_state (input : State) (placement : NodePath) (states_by_role : leaves EnvState)
    (outputs : ModelOutputs) (unknown_roles : btree string) : Planned StatePlan :=
  let@ _ := if is_some (dtype_from_name (sta_dtype input)) then done_with tt
            else refuse Unsupported
                   (Msg "model input {at}: unknown dtype {}" [at_ placement; AStr (sta_dtype input)]) in
  let@ pieces := plan_each (plan_piece placement states_by_role outputs unknown_roles)
                   (sta_components input) in
  done_with {| st_placement := placement; st_pieces := pieces; st_pad_to := sta_pad_to input;
               st_clip := sta_clip input; st_native_width := sum_widths 0 pieces;
               st_dtype := sta_dtype input; st_reshape := sta_reshape input;
               st_container := sta_container input |}.

(** ** Image inputs *)

Definition known_size (env : EnvImage) : bool :=
  negb (ei_height env =? 0) && negb (ei_width env =? 0).

(** [crop_cut(side as usize, fraction) as u32]. *)
Definition crop_cut_u32 (side : Z) (fraction : f64) : option Z :=
  let! cut := crop_cut side fraction in
  Some (wrap_u 32 cut).

(** The two sides of the box a fraction keeps of a camera. *)
Definition crop_box (env : EnvImage) (fraction : f64) : option (Z * Z) :=
  let! height := crop_cut_u32 (ei_height env) fraction in
  let! width := crop_cut_u32 (ei_width env) fraction in
  Some (height, width).

Definition crop_plan (input : Image) (at_arg : arg) (env : EnvImage) : Planned (option CropPlan) :=
  if is_some (im_crop input) && is_some (im_crop_area input) then
    refuse Unsupported
      (Msg "model input {at}: pass crop (a side fraction) or crop_area (an area fraction), not both" [at_arg])
  else
    match (match im_crop input with Some f => Some f | None => f64_sqrt <$> im_crop_area input end) with
    | None => done_with None
    | Some fraction =>
        let slice := String.eqb (im_crop_mode input) "slice" in
        let@ cut := if slice && known_size env then
                      let@ box := may_panic (crop_box env fraction) in done_with (Some box)
                    else done_with None in
        done_with (Some {| crop_fraction := fraction; crop_area := im_crop_area input;
                           crop_slice := slice; crop_cut_dims := cut |})
    end.

(** The panic of a product past [u64::MAX]. *)
Definition frame_bytes (dtype : string) (size : option (Z * Z)) (channels : option Z) : option Z :=
  match size, channels, dtype_from_name dtype with
  | Some (height, width), Some channels, Some dtype =>
      let! pixels := checked 0 u64_max (height * width) in
      let! samples := checked 0 u64_max (pixels * channels) in
      checked 0 u64_max (samples * Z.of_nat (dtype_size dtype))
  | _, _, _ => Some 0
  end.

(** [windows(2).all(|pair| pair[0] < pair[1])]. *)
Fixpoint strictly_increasing (l : list Z) : bool :=
  match l with
  | a :: (b :: _) as rest => (a <? b) && strictly_increasing rest
  | _ => true
  end.

Definition stack_window (input : Image) (at_arg : arg) : Planned (option (list Z)) :=
  let@ _ :=
    if bool_decide (im_stack_pad input <> PadFirst) && (im_stack input <=? 1) then
      refuse Unsupported
        (Msg "model input {at}: stack_pad only applies to a stacked image; set stack > 1 or drop stack_pad" [at_arg])
    else done_with tt in
  match im_offsets input with
  | None => done_with None
  | Some offsets =>
      match offsets with
      | [] =>
          refuse Unsupported
            (Msg "model input {at}: offsets must be non-positive and strictly increasing, ending at 0 (the current frame), got {offsets:?}" [at_arg])
      | oldest :: _ =>
          if negb (strictly_increasing offsets) || negb (bool_decide (last offsets = Some 0)) || (0 <? oldest) then
            refuse Unsupported
              (Msg "model input {at}: offsets must be non-positive and strictly increasing, ending at 0 (the current frame), got {offsets:?}"
                 (at_arg :: (AZ <$> offsets)))
          else if negb (Z.of_nat (length offsets) =? im_stack input) then
            refuse Unsupported
              (Msg "model input {at}: stack={} disagrees with {} offset(s) {offsets:?}; a frame window declares both and they are never inferred from each other"
                 (at_arg :: AZ (im_stack input) :: ANat (length offsets) :: (AZ <$> offsets)))
          else
            let@ span := may_panic (checked i32_min i32_max (1 - oldest)) in
            if MAX_STACK_SPAN <? span then
              refuse Unsupported
                (Msg "model input {at}: stack={} over offsets {offsets:?} spans {span} consecutive frames, more than the {MAX_STACK_SPAN} a window may hold"
                   (at_arg :: AZ (im_stack input) :: AZ span :: AZ MAX_STACK_SPAN :: (AZ <$> offsets)))
            else done_with (Some offsets)
      end
  end.

Definition upscale_source (env : EnvImage) (crop : option CropPlan) (height width : Z) : arg :=
  let camera := AMsg "the env's {}x{} camera" [AZ (ei_height env); AZ (ei_width env)] in
  match crop with
  | None => camera
  | Some crop =>
      AMsg "the {source_height}x{source_width} crop box the model's {declared} cuts from {camera}"
        [AZ height; AZ width;
         match crop_area crop with
         | Some area => AMsg "crop_area={area}" [AF64 (f64_bits area)]
         | None => AMsg "crop={}" [AF64 (f64_bits (crop_fraction crop))]
         end; camera]
  end.

Definition upscale_remedy (crop : option CropPlan) : arg :=
  AMsg "set allow_upscale on the model's Image input (`adapt.Image(..., allow_upscale=True)`) to interpolate detail that is not there, or have the env publish a larger camera{crop_less}"
    [AStr (if is_some crop then ", or crop less" else EmptyString)].

(** Whether [mode] scales a known camera up to the target. *)
Definition upscales (known : bool) (env_height env_width target_height target_width : Z)
    (mode : FitMode) : bool :=
  known &&
  match mode with
  | FitStretch | FitCrop => (env_height <? target_height) || (env_width <? target_width)
  | FitPad => (env_height <? target_height) && (env_width <? target_width)
  end.

Definition fit_message (input : Image) (at_arg : arg) (env : EnvImage) (crop : option CropPlan)
    (env_height env_width target_height target_width : Z) (permitted : list FitMode) : message :=
  match im_fit input with
  | None =>
      Msg "model input {at}: target {target_height}x{target_width} changes the env's {env_height}x{env_width} aspect ratio; set fit to 'stretch', 'crop', or 'pad'"
        [at_arg; AZ target_height; AZ target_width; AZ env_height; AZ env_width]
  | Some set =>
      match permitted with
      | [] =>
          Msg "model input {at}: target {target_height}x{target_width} changes the env's {env_height}x{env_width} aspect ratio and the declared fit {:?} names no mode this build recognizes; expected 'stretch', 'crop', or 'pad'"
            [at_arg; AZ target_height; AZ target_width; AZ env_height; AZ env_width; strs (wire_names set)]
      | _ =>
          Msg "model input {at}: every declared fit would upscale {} to {target_height}x{target_width}; declare a fit that downscales (e.g. 'pad'), or {}"
            [at_arg; upscale_source env crop env_height env_width; AZ target_height; AZ target_width;
             upscale_remedy crop]
      end
  end.

Definition resolve_fit (input : Image) (at_arg : arg) (env : EnvImage) (size : option (Z * Z))
    (crop : option CropPlan) : Planned FitMode :=
  match size with
  | None => done_with FitStretch
  | Some (target_height, target_width) =>
      let@ (env_height, env_width) :=
        match crop with
        | Some crop => may_panic (crop_box env (crop_fraction crop))
        | None => done_with (ei_height env, ei_width env)
        end in
      let known := negb (env_height =? 0) && negb (env_width =? 0) in
      let up := upscales known env_height env_width target_height target_width in
      let aspect_differs := known && negb (env_height * target_width =? env_width * target_height) in
      let permitted := match im_fit input with Some set => AdapterSpec.known set | None => [] end in
      if aspect_differs then
        match List.find (fun mode => im_allow_upscale input || negb (up mode)) permitted with
        | Some mode => done_with mode
        | None => refuse Unsupported (fit_message input at_arg env crop env_height env_width
                                        target_height target_width permitted)
        end
      else
        match im_fit input, permitted with
        | Some set, [] =>
            refuse Unsupported
              (Msg "model input {at}: the declared fit {:?} names no mode this build recognizes; expected 'stretch', 'crop', or 'pad'"
                 [at_arg; strs (wire_names set)])
        | _, _ =>
            let mode := default FitStretch (head permitted) in
            if negb (im_allow_upscale input) && up mode then
              refuse Unsupported
                (Msg "model input {at}: target {target_height}x{target_width} upscales {}; {}"
                   [at_arg; AZ target_height; AZ target_width;
                    upscale_source env crop env_height env_width; upscale_remedy crop])
            else done_with (if known then FitStretch else mode)
        end
  end.

Definition zero_fill_image_plan (input : Image) (placement : NodePath) : Planned ImagePlan :=
  let@ offsets := stack_window input (at_ placement) in
  match im_height input, im_width input, im_channels input with
  | Some height, Some width, Some channels =>
      let@ bytes := may_panic (frame_bytes (im_dtype input) (Some (height, width)) (Some channels)) in
      done_with {|
        ip_placement := placement; ip_source := path_root; ip_src_layout := Hwc;
        ip_dst_layout := im_layout input; ip_flip := false; ip_size := None; ip_fit := FitStretch;
        ip_resample := im_resample input; ip_dtype := im_dtype input;
        ip_normalize := normalize_range (im_normalize input); ip_lead_dims := im_lead_dims input;
        ip_src_range := None; ip_stack := im_stack input;
        ip_zero_fill := Some (height, width, channels);
        ip_fill := default (byte.of_Z 0) (im_fill input); ip_jpeg_quality := None; ip_crop := None;
        ip_swap_rb := false; ip_render := None; ip_offsets := offsets;
        ip_stack_pad := im_stack_pad input; ip_frame_bytes := bytes; ip_role_rebound := None;
        ip_part := im_part input |}
  | _, _, _ =>
      refuse MissingWidth
        (Msg "model input {}: an optional image the env does not provide needs height, width, and channels to size the zero-filled frame"
           [at_ placement])
  end.

Definition check_vocabulary (field value : string) (vocabulary : list string) (at_arg : arg)
    : Resolved unit :=
  if existsb (String.eqb value) vocabulary then Ok tt
  else Err (err Unsupported
         (Msg "model input {at}: unsupported {field} {}; expected one of {vocabulary:?}"
            [at_arg; AStr field; AStr value; strs vocabulary])).

(** The checks of a bound camera before its plan is derived. *)
Definition check_camera (input : Image) (at_arg : arg) (env : EnvImage) : Resolved unit :=
  let? _ := check_vocabulary "resample" (im_resample input) RESAMPLES at_arg in
  let? _ := check_vocabulary "crop_mode" (im_crop_mode input) CROP_MODES at_arg in
  let? _ := check_vocabulary "channel_order" (im_channel_order input) CHANNEL_ORDERS at_arg in
  let? _ := if is_some (dtype_from_name (im_dtype input)) then Ok tt
            else Err (err Unsupported
                   (Msg "model input {at}: unknown dtype {}" [at_arg; AStr (im_dtype input)])) in
  let? _ :=
    match im_channels input with
    | Some expected =>
        if negb (ei_channels env =? 0) && negb (ei_channels env =? expected) then
          Err (err Unsupported
            (Msg "model input {at}: expects {expected} channel(s) but the env image has {}; the adapter does not convert between channel counts (e.g. RGB vs grayscale)"
               [at_arg; AZ expected; AZ (ei_channels env)]))
        else Ok tt
    | None => Ok tt
    end in
  match im_render input with
  | Some (height, width) =>
      if known_size env && negb ((ei_height env =? height) && (ei_width env =? width)) then
        Err (err RenderMismatch
          (Msg "model input {at}: declares render {height}x{width} but the bound camera {} renders {}x{}"
             [at_arg; AZ height; AZ width; AStr (ei_role env); AZ (ei_height env); AZ (ei_width env)]))
      else Ok tt
  | None => Ok tt
  end.

(** The channels of the frame, when they are known. *)
Definition planned_channels (input : Image) (env : EnvImage) : option Z :=
  let channels := default (ei_channels env) (im_channels input) in
  if channels =? 0 then None else Some channels.

Definition check_three_channels (input : Image) (at_arg : arg) (env : EnvImage) : Resolved unit :=
  match planned_channels input env with
  | Some channels =>
      if channels =? 3 then Ok tt
      else
        let refusal (what : string) :=
          Err (err Unsupported (Msg "model input {at}: {what} needs a 3-channel image, got {channels} channel(s)"
                                  [at_arg; AStr what; AZ channels])) in
        if String.eqb (im_channel_order input) "bgr" then refusal "channel_order bgr"
        else if is_some (im_jpeg_quality input) then refusal "jpeg_quality"
        else Ok tt
  | None => Ok tt
  end.

Definition target_size (input : Image) (env : EnvImage) : option (Z * Z) :=
  match im_height input, im_width input with
  | Some height, Some width => Some (height, width)
  | Some height, None => Some (height, ei_width env)
  | None, Some width => Some (ei_height env, width)
  | None, None => None
  end.

Definition processed_size (env : EnvImage) (size : option (Z * Z)) (crop : option CropPlan)
    : option (Z * Z) :=
  match size with
  | Some size => Some size
  | None =>
      match crop ≫= crop_cut_dims with
      | Some cut => Some cut
      | None => if known_size env then Some (ei_height env, ei_width env) else None
      end
  end.

(** The plan of an input bound to a camera. *)
Definition camera_plan (input : Image) (placement : NodePath) (env : EnvImage) (part : option string)
    (role_rebound : option (string * string)) : Planned ImagePlan :=
  let at_arg := at_ placement in
  let@ _ := pure (check_camera input at_arg env) in
  let render := if known_size env then im_render input else None in
  let size := target_size input env in
  let@ _ := pure (check_three_channels input at_arg env) in
  let@ crop := crop_plan input at_arg env in
  let@ fit := resolve_fit input at_arg env size crop in
  let@ offsets := stack_window input at_arg in
  let@ bytes := may_panic (frame_bytes (im_dtype input) (processed_size env size crop)
                             (planned_channels input env)) in
  done_with {|
    ip_placement := placement; ip_source := ei_source env; ip_src_layout := ei_layout env;
    ip_dst_layout := im_layout input; ip_flip := xorb (ei_upside_down env) (im_upside_down input);
    ip_size := size; ip_fit := fit; ip_resample := im_resample input; ip_dtype := im_dtype input;
    ip_normalize := normalize_range (im_normalize input); ip_lead_dims := im_lead_dims input;
    ip_src_range := ei_value_range env; ip_stack := im_stack input; ip_zero_fill := None;
    ip_fill := default (byte.of_Z 0) (im_fill input); ip_jpeg_quality := im_jpeg_quality input;
    ip_crop := crop; ip_swap_rb := String.eqb (im_channel_order input) "bgr"; ip_render := render;
    ip_offsets := offsets; ip_stack_pad := im_stack_pad input; ip_frame_bytes := bytes;
    ip_role_rebound := role_rebound; ip_part := part |}.

Definition missing_camera (input : Image) (at_arg : arg) (images_by_role : leaves EnvImage)
    : Planned ImagePlan :=
  refuse MissingRole
    (Msg "model input {at} wants an image with role {}{} but the env offers {}"
       [at_arg; AStr (im_role input); part_suffix (im_part input); quoted_leaf_keys images_by_role]).

Definition plan_image (input : Image) (placement : NodePath) (images_by_role : leaves EnvImage)
    (unknown_roles : btree string) : Planned ImagePlan :=
  let at_arg := at_ placement in
  let@ _ := if is_some (im_fill input) && negb (im_optional input) then
              refuse Unsupported
                (Msg "model input {at}: fill only applies to an optional camera; set optional or drop fill" [at_arg])
            else done_with tt in
  let@ bound := bind_leaf images_by_role (im_role input) (im_part input) None
                  (AMsg "model input {at}" [at_arg]) "image role" "env" in
  match bound with
  | Some bound => camera_plan input placement (bound_feature bound) (bound_part bound) None
  | None =>
      let@ _ := pure (reject_referenced_unknown (im_role input) placement unknown_roles) in
      match sole images_by_role with
      | Some ((_, only_part, _), only) =>
          if negb (im_optional input) && negb (is_some (im_part input)) && is_sanctioned_role (im_role input)
          then camera_plan input placement only only_part (Some (im_role input, ei_role only))
          else if im_optional input then zero_fill_image_plan input placement
          else missing_camera input at_arg images_by_role
      | None =>
          if im_optional input then zero_fill_image_plan input placement
          else missing_camera input at_arg images_by_role
      end
  end.

(** ** The whole adapter *)

(** The leaves of the input tree with where they go, in document order. *)
Fixpoint collect_leaves (node : InputNode) (placement : NodePath) : list (ModelLeaf * NodePath) :=
  match node with
  | INLeaf leaf => [(leaf, placement)]
  | INDict children =>
      concat (map (fun kv => collect_leaves kv.2 (push_key placement kv.1)) children)
  | INTuple items =>
      (fix go index l :=
         match l with
         | [] => []
         | item :: l => collect_leaves item (push_index placement index) ++ go (S index) l
         end) 0%nat items
  end.

Definition check_model_role (role : string) (locus : arg) : Resolved unit :=
  map_err (fun reason => err UnsupportedKind
             (Msg "{locus}: {reason}; if a newer peer wrote it, upgrade the runtime" [locus; nested reason]))
    (check_role role).

Definition check_model_roles (spec : ModelSpec) : Resolved unit :=
  let? _ := try_each (fun '(leaf, placement) =>
      let locus := AMsg "model input {}" [at_ placement] in
      match leaf with
      | MImage input => check_model_role (im_role input) locus
      | MState input => try_each (fun role => check_model_role role locus) (omap cc_role (sta_components input))
      | MText input => check_model_role (tx_role input) locus
      | MCustom _ | MUnknown _ => Ok tt
      end) (collect_leaves (ms_input spec) path_root) in
  try_each (fun role => check_model_role role (AStr "model action"))
    (omap act_role (al_components (ms_output spec))).

(** The indexed sides of a resolution. *)
Record Offered : Type := {
  of_images : leaves EnvImage;
  of_states : leaves EnvState;
  of_texts : btree EnvText;
  of_unknown : btree string;
}.

Definition offered_by (env : EnvFeatures) : Resolved Offered :=
  let? images := index_by_key (omap (fun f => match f with
      | FImage i => Some ((ei_role i, ei_part i, None), i)
      | _ => None
      end) (ef_observation env)) "env image" in
  let? states := index_by_key (omap (fun f => match f with
      | FState s => Some ((es_role s, es_part s, es_provenance s), s)
      | _ => None
      end) (ef_observation env)) "env state" in
  let? texts := index_by_role (omap (fun f => match f with
      | FText t => Some (etx_role t, t)
      | _ => None
      end) (ef_observation env)) "env text" in
  Ok {| of_images := images; of_states := states; of_texts := texts;
        of_unknown := fold_left (fun acc u => match uf_role u with
                                             | Some role => btree_insert role (uf_kind u) acc
                                             | None => acc
                                             end) (ef_unknown env) [] |}.

Definition plan_leaf (offered : Offered) (outputs : ModelOutputs) (trust_entrypoints : bool)
    (placed : ModelLeaf * NodePath) : Planned ObsPlan :=
  let (leaf, placement) := placed in
  match leaf with
  | MImage input =>
      let@ plan := plan_image input placement (of_images offered) (of_unknown offered) in
      done_with (OImage plan)
  | MState input =>
      let@ plan := plan_state input placement (of_states offered) outputs (of_unknown offered) in
      done_with (OState plan)
  | MText input =>
      let@ plan := pure (plan_text input placement (of_texts offered) (of_unknown offered)) in
      done_with (OText plan)
  | MCustom input =>
      let@ plan := pure (plan_custom input placement trust_entrypoints) in
      done_with (OCustom plan)
  | MUnknown kind =>
      refuse UnsupportedKind
        (Msg "model input {} is of unrecognized kind {}; upgrade the runtime" [at_ placement; AStr kind])
  end.

(** *** Advisories of the whole *)

(** A [BTreeSet<&str>]. *)
Definition str_set (l : list string) : list string :=
  btree_keys (fold_left (fun acc s => btree_insert s tt acc) l []).

(** The model's roles the env does not answer. *)
Definition unanswered_roles (offered : Offered) (env_action : Action) (spec : ModelSpec) : list string :=
  let leaf_roles (placed : ModelLeaf * NodePath) :=
    match placed.1 with
    | MImage input => if has_role (of_images offered) (im_role input) then [] else [im_role input]
    | MState input =>
        List.filter (fun role => negb (has_role (of_states offered) role))
          (omap cc_role (List.filter (fun part => bool_decide (cc_source part = FromObservation))
                           (sta_components input)))
    | MText input => if is_some (btree_get (tx_role input) (of_texts offered)) then [] else [tx_role input]
    | _ => []
    end in
  let env_roles := omap act_role (al_components env_action) in
  str_set (concat (leaf_roles <$> collect_leaves (ms_input spec) path_root) ++
           List.filter (fun role => negb (existsb (String.eqb role) env_roles))
             (omap act_role (al_components (ms_output spec)))).

Definition unknown_advisory (u : UnknownFeature) : Advisory :=
  advisory_info (Msg "env feature {} (role {}): unrecognized kind {}; ignored (no model input requires it)"
    [at_ (uf_source u); AStr (default "<none>" (uf_role u)); AStr (uf_kind u)]).

Definition ad_hoc_advisory (role : string) : Advisory :=
  advisory_info (Msg "model declares ad-hoc role {} that this env does not: an ad-hoc role matches only on the exact string, so it resolves to a fill here -- use a registered role, or the {} namespace to mark it intentionally non-standard{hint}"
    [AStr role; AStr "x/";
     match kindless_hint role with Some hint => AMsg ". {hint}" [nested hint] | None => AStr EmptyString end]).

Definition plan_advisories (plan : ObsPlan) : list Advisory :=
  match plan with
  | OImage image =>
      match ip_role_rebound image with
      | Some (requested, bound) =>
          [advisory_caution (Msg "model input {}: no env camera has role {}; bound to the env's only camera ({}) instead -- declare the matching role on one side to silence this"
             [at_ (ip_placement image); AStr requested; AStr bound])]
      | None => []
      end
  | OState state =>
      (if existsb (fun piece => negb (is_some (sp_fill piece)) && is_some (sp_dst_range piece) &&
                                negb (is_some (sp_src_range piece))) (st_pieces state) then
         [advisory_info (Msg "model input {}: a state range is set but the env feature is unbounded, so the range is a no-op (it remaps an env range, it does not clamp)"
            [at_ (st_placement state)])]
       else []) ++
      (if existsb (fun piece => is_some (sp_dst_range piece) &&
                                (is_some (sp_scale piece) || is_some (sp_offset piece))) (st_pieces state) then
         [advisory_info (Msg "model input {}: a state part sets both range and scale/offset; the range map runs first and the affine applies to its result"
            [at_ (st_placement state)])]
       else [])
  | _ => []
  end.

Definition segment_advisories (segment : ActionSegment) : list Advisory :=
  if is_some (as_src_range segment) && negb (is_some (as_dst_range segment)) then
    [advisory_info (Msg "model action (role {}): a range is set but the env actuator is unbounded, so the range is a no-op (it remaps into an env range, it does not clamp)"
       [AStr (default "?" (as_role segment))])]
  else [].

(** A stable sort by what [key] renders. *)
Fixpoint insert_by {A} (key : A -> string) (x : A) (l : list A) : list A :=
  match l with
  | [] => [x]
  | y :: l' =>
      match String.compare (key x) (key y) with
      | Lt | Eq => x :: l
      | Gt => y :: insert_by key x l'
      end
  end.

Definition sort_by {A} (key : A -> string) (l : list A) : list A := foldr (insert_by key) [] l.

Section Resolve.
(** The text a message renders to, by which advisories are sorted. *)
Context (render : message -> string).

Definition sort_advisories (l : list Advisory) : list Advisory := sort_by (fun a => render (adv_message a)) l.

Definition resolve_features (env : EnvFeatures) (spec : ModelSpec) (outputs : ModelOutputs)
    (trust_entrypoints : bool) : option (Resolved ResolvedAdapter) :=
  let!? offered := Some (offered_by env) in
  let!? (obs_plans, pushed) := plan_each (plan_leaf offered outputs trust_entrypoints)
                                 (collect_leaves (ms_input spec) path_root) in
  let!? (action_plan, more) := plan_action (ms_output spec) (ef_action env) outputs in
  let ad_hoc := List.filter (fun role => negb (is_sanctioned_role role))
                  (unanswered_roles offered (ef_action env) spec) in
  let advisories := (unknown_advisory <$> ef_unknown env) ++ (ad_hoc_advisory <$> ad_hoc) ++
                    concat (plan_advisories <$> obs_plans) ++
                    concat (segment_advisories <$> ap_segments action_plan) in
  let! adapter := adapter_new obs_plans action_plan (sort_advisories advisories)
                    (sort_advisories (ef_advisories env ++ pushed ++ more)) in
  Some (Ok adapter).

Definition resolve (env_tags : EnvTags) (observation_space action_space : SpaceView)
    (spec : ModelSpec) (trust_entrypoints : bool) : option (Resolved ResolvedAdapter) :=
  let!? _ := Some (map_err (err UnsupportedKind) (reject_bare_fields_env env_tags)) in
  let!? _ := Some (map_err (err UnsupportedKind) (reject_bare_fields_model spec)) in
  let!? _ := Some (check_model_roles spec) in
  let!? outputs := Some (index_outputs (ms_output spec)) in
  let! joined := join env_tags observation_space action_space in
  let!? env := Some (map_err (fun e =>
      err (match e with ActionRoleOnObservation _ _ => CodeActionRoleOnObservation | _ => InvalidTag end)
        (join_error_message e)) joined) in
  resolve_features env spec outputs trust_entrypoints.
End Resolve.
