(* ===== verification/AdapterResolveSpec.v ===== *)
(** * Correctness of resolution

    Resolution does not panic on specs its codec admits, and what it plans is what
    the application of the plans assumes: the payload places every input where the
    model's tree has it, the action vector has the width of the env's action space,
    the frame windows are bounded, no image is scaled up without leave, and no leaf is
    bound by a guess. *)

From S2P Require Import Prelude BTree Float FloatOps DType Scalar Tensor Types AdapterValue AdapterGeometry AdapterPlans AdapterImage AdapterImageSpec AdapterApply AdapterApplySpec AdapterHistory AdapterHistorySpec AdapterSpec AdapterJoin AdapterResolve.
#[local] Open Scope Z_scope.
#[local] Open Scope planned_scope.

(** ** Planned computations *)

(** What the computation produces satisfies [P]; [panic] says of a panic whether it is
    accepted. *)
Definition planning (panic : Prop) {A} (m : Planned A) (P : A -> Prop) : Prop :=
  match m with
  | None => panic
  | Some (Err _) => True
  | Some (Ok (a, _)) => P a
  end.

(** The computation does not panic. *)
Notation planned := (planning False).
(** ... or may. *)
Notation yields := (planning True).

Section Planning.
Context (panic : Prop) {A : Type}.
Implicit Types (m : Planned A) (P Q : A -> Prop).

Lemma planned_bind {B} m (k : A -> Planned B) (P : B -> Prop) :
  planning panic m (fun a => planning panic (k a) P) -> planning panic (plan_bind m k) P.
Proof.
  unfold planning, plan_bind. destruct m as [[[a l]|e]|]; try done.
  by destruct (k a) as [[[b l']|e]|].
Qed.

Lemma planned_done a P : P a -> planning panic (done_with a) P.
Proof. done. Qed.
Lemma planned_refuse c x P : planning panic (refuse c x) P.
Proof. done. Qed.
Lemma planned_pure (r : Resolved A) P : (forall a, r = Ok a -> P a) -> planning panic (pure r) P.
Proof. destruct r; [|done]. intros HP. by apply HP. Qed.
Lemma planned_impl m P Q : planning panic m P -> (forall a, P a -> Q a) -> planning panic m Q.
Proof. unfold planning. destruct m as [[[a l]|e]|]; eauto. Qed.
Lemma planned_Ok m P a l : planning panic m P -> m = Some (Ok (a, l)) -> P a.
Proof. by intros H ->. Qed.
Lemma planned_yields m P : planned m P -> planning panic m P.
Proof. by destruct m as [[[a l]|e]|]. Qed.
Lemma planned_each {B} (f : B -> Planned A) (l : list B) (R : B -> A -> Prop) :
  (forall x, x ∈ l -> planning panic (f x) (R x)) -> planning panic (plan_each f l) (Forall2 R l).
Proof.
  induction l as [|x l IH]; intros Hf; cbn [plan_each]; [constructor|].
  specialize (IH (fun z Hz => Hf z (list_elem_of_further _ _ _ Hz))).
  specialize (Hf x (list_elem_of_here _ _)). unfold planning in *.
  destruct (f x) as [[[y l1]|e]|]; try done. cbn.
  destruct (plan_each f l) as [[[ys l2]|e]|]; try done. by constructor.
Qed.
End Planning.

Lemma planned_push panic a (P : unit -> Prop) : P tt -> planning panic (push a) P.
Proof. done. Qed.
Lemma planned_may_panic {A} (o : option A) (P : A -> Prop) :
  (exists a, o = Some a /\ P a) -> planned (may_panic o) P.
Proof. by intros (a & -> & HP). Qed.
Lemma yields_may_panic {A} (o : option A) (P : A -> Prop) :
  (forall a, o = Some a -> P a) -> yields (may_panic o) P.
Proof. destruct o; [|done]. intros HP. by apply HP. Qed.

Lemma planned_any {A} (m : Planned A) (P : A -> Prop) : (forall a, P a) -> yields m P.
Proof. unfold planning. destruct m as [[[a l]|e]|]; auto. Qed.

(** One step: bind, then the computation it starts with. *)
Ltac plan :=
  lazymatch goal with
  | |- planning _ (plan_bind _ _) _ => apply planned_bind
  | |- planning _ (done_with _) _ => apply planned_done
  | |- planning _ (refuse _ _) _ => apply planned_refuse
  | |- planning _ (push _) _ => apply planned_push
  | |- planning _ (pure _) _ => apply planned_pure
  | |- planning False (may_panic _) _ => apply planned_may_panic
  | |- planning True (may_panic _) _ => apply yields_may_panic
  | |- planning _ (if ?b then _ else _) _ => destruct b eqn:?
  | |- planning _ (match ?c with _ => _ end) _ => destruct c eqn:?
  end.

(** ** Labels *)

Lemma not_in_nil labels other : not_in labels other = [] -> forall l, l ∈ labels -> l ∈ other.
Proof.
  unfold not_in. intros Hf l Hl. destruct (decide (l ∈ other)) as [|Hn]; [done|]. exfalso.
  assert (In l (List.filter (fun label => negb (existsb (String.eqb label) other)) labels)) as Hin.
  { apply filter_In. split; [by apply list_elem_of_In|]. apply negb_true_iff, not_true_iff_false.
    intros (x & Hx & He)%existsb_exists. apply String.eqb_eq in He as <-.
    by apply Hn, list_elem_of_In. }
  by rewrite Hf in Hin.
Qed.

Lemma label_position_Some label available :
  label ∈ available -> exists i, label_position label available = Some i /\ (i < length available)%nat.
Proof.
  induction available as [|have available IH]; [by intros ?%elem_of_nil|]. intros Hl. cbn.
  destruct (String.eqb_spec have label) as [->|Hne]; [exists 0%nat; split; [done|lia]|].
  apply elem_of_cons in Hl as [->|Hl]; [done|].
  destruct (IH Hl) as (i & -> & Hi). exists (S i). split; [done|lia].
Qed.

Lemma label_position_lookup label available i :
  label_position label available = Some i -> available !! i = Some label.
Proof.
  revert i; induction available as [|have available IH]; intros i; [done|]. cbn.
  destruct (String.eqb_spec have label) as [->|Hne]; [by intros [= <-]|].
  destruct (label_position label available) as [j|]; [|done]. intros [= <-]. by apply IH.
Qed.

(** Alignment never panics; the permutation puts the label the reader has at each of
    its positions there. *)
Lemma label_permutation_spec wanted available :
  exists r, label_permutation wanted available = Some r /\
  forall p, r = Ok p ->
    (forall l, l ∈ wanted <-> l ∈ available) /\
    match p with
    | None => wanted = take (length wanted) available
    | Some perm => mapM (fun i => available !! i) perm = Some wanted /\
                   Forall (fun i => i < length available)%nat perm /\ length perm = length wanted
    end.
Proof.
  unfold label_permutation. cbn [wanted_only available_only].
  destruct (not_in wanted available) eqn:Hw; [|by eexists].
  destruct (not_in available wanted) eqn:Ha; [|by eexists].
  pose proof (not_in_nil _ _ Hw) as Hsub. pose proof (not_in_nil _ _ Ha) as Hsup.
  destruct (mapM_is_Some_2 (fun label => label_position label available) wanted) as [perm Hperm].
  { apply Forall_forall. intros l Hl. destruct (label_position_Some l available (Hsub l Hl)) as (i & Hi & _).
    exists i. exact Hi. }
  rewrite Hperm. eexists. split; [done|]. apply mapM_Some in Hperm.
  assert (mapM (fun i => available !! i) perm = Some wanted) as Hback.
  { apply mapM_Some, Forall2_flip. eapply Forall2_impl; [exact Hperm|]. intros l i.
    apply label_position_lookup. }
  intros p [= <-]. split; [intros l; split; auto|].
  pose proof (Forall2_length _ _ _ Hperm) as Hlen.
  case_bool_decide as Hid.
  - rewrite Hid in Hback. rewrite <- Hlen in Hback. apply mapM_Some in Hback.
    apply list_eq. intros i. destruct (decide (i < length wanted)%nat) as [Hi|Hi].
    + rewrite lookup_take_lt by done. destruct (wanted !! i) as [l|] eqn:Hl.
      2: { apply lookup_ge_None in Hl. lia. }
      symmetry. eapply Forall2_lookup_lr in Hback; [exact Hback| |exact Hl]. by apply lookup_seq_lt.
    + rewrite lookup_take_ge by lia. apply lookup_ge_None. lia.
  - split; [done|]. split; [|done]. apply Forall_forall. intros i Hi.
    apply list_elem_of_lookup in Hi as [k Hk]. apply mapM_Some in Hback.
    eapply Forall2_lookup_l in Hback as (l & _ & Hl); [|exact Hk]. by eapply lookup_lt_Some.
Qed.

(** ** Binding *)

Lemma elem_of_filter_b {A} (f : A -> bool) l x : x ∈ List.filter f l <-> x ∈ l /\ f x = true.
Proof. rewrite !list_elem_of_In, filter_In. done. Qed.

Lemma elem_of_under_part {T} (m : leaves T) role wanted kv :
  kv ∈ under_part m role wanted <-> kv ∈ m /\ kv.1.1.1 = role /\ kv.1.1.2 = wanted.
Proof.
  unfold under_part. rewrite elem_of_filter_b, andb_true_iff, String.eqb_eq, bool_decide_eq_true. done.
Qed.

Lemma fold_keys_elem (l : list string) (acc : btree unit) k :
  k ∈ btree_keys (fold_left (fun acc part => btree_insert part tt acc) l acc) <->
  k ∈ btree_keys acc \/ k ∈ l.
Proof.
  revert acc; induction l as [|x l IH]; intros acc; cbn [fold_left].
  - rewrite elem_of_nil. tauto.
  - rewrite IH, btree_insert_keys_elem, elem_of_cons. tauto.
Qed.

Lemma elem_of_parts_of {T} (m : leaves T) role p :
  p ∈ parts_of m role <-> exists kv, kv ∈ m /\ kv.1.1.1 = role /\ kv.1.1.2 = Some p.
Proof.
  unfold parts_of. rewrite fold_keys_elem. cbn. rewrite elem_of_nil, list_elem_of_omap.
  split.
  - intros [[]|(kv & Hkv & Hp)]. destruct (String.eqb_spec kv.1.1.1 role); [|done]. eauto.
  - intros (kv & Hkv & Hr & Hp). right. exists kv. split; [done|]. by rewrite Hr, String.eqb_refl.
Qed.

Lemma sole_Some {A} (l : list A) x : sole l = Some x -> l = [x].
Proof. destruct l as [|y [|]]; try done. by intros [= ->]. Qed.

Lemma first_wanted_Some {T} wanted (candidates : leaves T) kv :
  first_wanted wanted candidates = Some kv ->
  exists before w after, wanted = before ++ w :: after /\ kv ∈ candidates /\ kv.1.2 = Some w /\
    forall w' other, w' ∈ before -> other ∈ candidates -> other.1.2 <> Some w'.
Proof.
  induction wanted as [|w wanted IH]; [done|]. cbn [first_wanted].
  destruct (List.find _ candidates) as [found|] eqn:Hf.
  - intros [= ->]. apply find_some in Hf as [Hin Hw]. apply bool_decide_eq_true in Hw.
    exists [], w, wanted. split_and!; try done; [by apply list_elem_of_In|]. by intros ? ? ?%elem_of_nil.
  - intros H. destruct (IH H) as (before & w' & after & -> & Hin & Hw' & Hno).
    exists (w :: before), w', after. split_and!; try done.
    intros v other [->|Hv]%elem_of_cons Ho He; [|by eapply Hno].
    pose proof (find_none _ _ Hf other (proj1 (list_elem_of_In _ _) Ho)) as Hn.
    cbv beta in Hn. by rewrite He, bool_decide_eq_true_2 in Hn.
Qed.

(** What a bound leaf is, for the part and the provenances asked. *)
Definition bound_to {T} (m : leaves T) (role : string) (part : option string)
    (provenance : option (AcceptSet Provenance)) (kv : LeafKey * T) : Prop :=
  kv ∈ m /\ kv.1.1.1 = role /\
  (forall p, part = Some p -> kv.1.1.2 = Some p) /\
  (part = None -> kv.1.1.2 <> None ->
     forall other, other ∈ m -> other.1.1.1 = role -> other.1.1.2 = kv.1.1.2) /\
  (under_part m role kv.1.1.2 = [kv] \/
   exists set before w after, provenance = Some set /\ wire_names set = before ++ w :: after /\
     kv.1.2 = Some w /\
     forall w' other, w' ∈ before -> other ∈ under_part m role kv.1.1.2 -> other.1.2 <> Some w').

Lemma candidates_for_spec {T} (m : leaves T) role part seeker what offerer :
  planned (candidates_for m role part seeker what offerer) (fun found =>
    forall c, found = Some c -> exists p, c = under_part m role p /\
      (forall q, part = Some q -> p = Some q) /\
      (part = None -> p <> None -> forall other, other ∈ m -> other.1.1.1 = role -> other.1.1.2 = p)).
Proof.
  unfold candidates_for. destruct (under_part m role part) as [|kv c] eqn:Hu.
  2: { apply planned_done. intros ? [= <-]. exists part. split; [done|]. split; [done|].
       by intros ->. }
  destruct part as [q|]; [by apply planned_done|].
  destruct (parts_of m role) as [|only [|]] eqn:Hp; [by apply planned_done| |done].
  plan. apply planned_push, planned_done. intros ? [= <-]. exists (Some only).
  split; [done|]. split; [done|]. intros _ _ other Ho Hr.
  destruct (other.1.1.2) as [p|] eqn:Hop.
  - assert (p ∈ parts_of m role) as Hin by (apply elem_of_parts_of; eauto).
    rewrite Hp in Hin. apply list_elem_of_singleton in Hin. by subst.
  - assert (other ∈ under_part m role None) as Hin by (apply elem_of_under_part; eauto).
    rewrite Hu in Hin. by apply elem_of_nil in Hin.
Qed.

(** Binding does not panic; a leaf is bound only under the identity rules. *)
Lemma bind_leaf_spec {T} (m : leaves T) role part provenance seeker what offerer :
  planned (bind_leaf m role part provenance seeker what offerer) (fun r =>
    forall b, r = Some b -> exists kv, bound_to m role part provenance kv /\
      kv.2 = bound_feature b /\ kv.1.1.2 = bound_part b).
Proof.
  unfold bind_leaf. plan. eapply planned_impl; [apply candidates_for_spec|]. intros found Hfound.
  destruct found as [c|]; [|by apply planned_done].
  destruct (Hfound c eq_refl) as (p & -> & Hpart & Honly).
  destruct (choose provenance (under_part m role p)) as [kv|] eqn:Hc.
  2: by destruct provenance.
  destruct kv as [[[r bp] prov] feature]. apply planned_done. intros b [= <-].
  exists (r, bp, prov, feature). cbn [bound_feature bound_part fst snd].
  assert (forall kv, kv ∈ under_part m role p -> kv.1.1.2 = p) as Hup
    by (intros kv ?%elem_of_under_part; naive_solver).
  assert ((r, bp, prov, feature) ∈ under_part m role p /\
    (under_part m role p = [(r, bp, prov, feature)] \/
     exists set before w after, provenance = Some set /\ wire_names set = before ++ w :: after /\
       prov = Some w /\
       forall w' other, w' ∈ before -> other ∈ under_part m role p -> other.1.2 <> Some w')) as [Hin Hex].
  { unfold choose in Hc. destruct provenance as [set|].
    - destruct (first_wanted _ _) as [kv|] eqn:Hw.
      + injection Hc as ->. apply first_wanted_Some in Hw as (before & w & after & Hw & Hi & Hpr & Hno).
        split; [done|]. right. by exists set, before, w, after.
      + apply sole_Some in Hc. rewrite Hc. split; [by left|by left].
    - apply sole_Some in Hc. rewrite Hc. split; [by left|by left]. }
  pose proof (Hup _ Hin) as Hbp. cbn in Hbp. subst bp.
  apply elem_of_under_part in Hin as (Hin & Hr & _). by repeat split.
Qed.

(** ** Indexes *)

Lemma leaf_insert_elem {T} key (v : T) m kv :
  kv ∈ leaf_insert key v m -> kv = (key, v) \/ kv ∈ m.
Proof.
  induction m as [|[key' v'] m IH]; cbn [leaf_insert].
  - intros ->%list_elem_of_singleton. by left.
  - destruct (leaf_compare key key'); rewrite !elem_of_cons; tauto.
Qed.

Lemma index_from_elem {T} (features : list (LeafKey * T)) label m m' kv :
  index_from features label m = Ok m' -> kv ∈ m' -> kv ∈ features \/ kv ∈ m.
Proof.
  revert m; induction features as [|[key feature] features IH]; intros m; cbn [index_from].
  - intros [= <-]. by right.
  - destruct (has_key m key); [done|]. intros Hi Hin. rewrite elem_of_cons.
    destruct (IH _ Hi Hin) as [?|Hins]; [tauto|]. apply leaf_insert_elem in Hins. tauto.
Qed.

Lemma index_by_key_elem {T} (features : list (LeafKey * T)) label m kv :
  index_by_key features label = Ok m -> kv ∈ m -> kv ∈ features.
Proof. intros Hi Hin. by destruct (index_from_elem _ _ _ _ _ Hi Hin) as [?|?%elem_of_nil]. Qed.

(** ** Outputs *)

Lemma checked_add_u32_Some a b c :
  checked_add_u32 a b = Some c <-> c = (a + b)%nat /\ Z.of_nat c <= u32_max.
Proof.
  unfold checked_add_u32. destruct (Z.leb_spec (Z.of_nat (a + b)) u32_max).
  - split; [by intros [= <-]|]. by intros [-> _].
  - split; [done|]. intros [-> ?]. lia.
Qed.

Lemma place_outputs_spec components : forall cursor placed total,
  place_outputs cursor components = Ok (placed, total) ->
  (cursor <= total)%nat /\ (Z.of_nat cursor <= u32_max -> Z.of_nat total <= u32_max) /\
  forall key start c, (key, (start, c)) ∈ placed ->
    c ∈ components /\ (start + act_dim c <= total)%nat.
Proof.
  induction components as [|c components IH]; intros cursor placed total; cbn [place_outputs].
  { intros [= <- <-]. split_and!; try done. by intros ? ? ? ?%elem_of_nil. }
  destruct (checked_add_u32 cursor (act_dim c)) as [next|] eqn:Hn; [|done]. cbn [ok_or].
  apply checked_add_u32_Some in Hn as [-> Hmax].
  destruct (place_outputs _ components) as [[placed' total']|] eqn:Hp; [|done].
  intros [= <- <-]. destruct (IH _ _ _ Hp) as (Hle & Hmx & Hin).
  split; [lia|]. split; [auto|]. intros key start c' Hc'.
  assert ((key, (start, c')) ∈ placed' \/ (start = cursor /\ c' = c)) as [?|[-> ->]].
  { destruct (act_role c); [|by left]. apply elem_of_cons in Hc' as [[= -> -> ->]|]; auto. }
  - destruct (Hin _ _ _ H) as [? ?]. split; [by right|done].
  - split; [by left|done].
Qed.

(** The slices of the outputs lie in the model's vector. *)
Definition outputs_ok (model : Action) (o : ModelOutputs) : Prop :=
  Z.of_nat (mo_in_dim o) <= u32_max /\
  forall key start c, (key, (start, c)) ∈ mo_by_key o ->
    c ∈ al_components model /\ (start + act_dim c <= mo_in_dim o)%nat.

Lemma index_outputs_spec model o : index_outputs model = Ok o -> outputs_ok model o.
Proof.
  unfold index_outputs. destruct (place_outputs 0 _) as [[placed total]|] eqn:Hp; [|done].
  destruct (index_by_key placed "model action") as [by_key|] eqn:Hi; [|done]. intros [= <-].
  destruct (place_outputs_spec _ _ _ _ Hp) as (_ & Hmax & Hin). split; cbn.
  - apply Hmax. unfold_ints. lia.
  - intros key start c Hc. eapply Hin, index_by_key_elem; [exact Hi|exact Hc].
Qed.

Lemma outputs_stop model o key start c :
  outputs_ok model o -> (key, (start, c)) ∈ mo_by_key o ->
  checked_add_u32 start (act_dim c) = Some (start + act_dim c)%nat.
Proof.
  intros [Hmax Hin] Hc. destruct (Hin _ _ _ Hc). apply checked_add_u32_Some. split; [done|lia].
Qed.

(** ** What the codec ensures *)

Lemma repeated_None seen labels :
  repeated seen labels = None -> NoDup labels /\ forall l, l ∈ labels -> l ∉ seen.
Proof.
  revert seen; induction labels as [|label labels IH]; intros seen; cbn [repeated].
  { intros _. split; [constructor|]. by intros ? ?%elem_of_nil. }
  destruct (existsb _ seen) eqn:Hs; [done|]. intros Hr. destruct (IH _ Hr) as [Hnd Hno].
  split.
  - constructor; [|done]. intros Hin. by apply (Hno _ Hin); left.
  - intros l [->|Hl]%elem_of_cons Hin.
    + enough (existsb (String.eqb label) seen = true) by congruence.
      apply existsb_exists. exists label. split; [by apply list_elem_of_In|apply String.eqb_refl].
    + by apply (Hno l Hl); right.
Qed.

Lemma check_labels_Ok labels locus : check_labels labels locus = Ok tt -> NoDup labels.
Proof.
  unfold check_labels. destruct labels as [|l labels]; [done|].
  destruct (repeated [] (l :: labels)) eqn:Hr; [done|]. intros _. by eapply repeated_None.
Qed.

(** An actuator names each of its axes once. *)
Definition labels_fit (c : Actuator) : Prop :=
  forall labels, act_labels c = Some labels -> NoDup labels /\ length labels = act_dim c.

Lemma check_actuator_labels seen c seen' : check_actuator seen c = Ok seen' -> labels_fit c.
Proof.
  unfold check_actuator, labels_fit. intros H labels Hl. rewrite Hl in H. revert H.
  destruct (negb _); [done|].
  destruct (match action_base <$> act_encoding c with Some _ => _ | None => _ end); [|done].
  destruct (one_form "scale" _ _ _); [|done]. destruct (one_form "offset" _ _ _); [|done].
  destruct (check_labels labels _) as [[]|] eqn:Hc; [|done].
  destruct (decide (length labels <> act_dim c)) as [|Hd]; [done|]. intros _.
  split; [by eapply check_labels_Ok|by apply dec_stable].
Qed.

Lemma action_labels_fit a a' c :
  action_try_from a = Ok a' -> c ∈ al_components a -> labels_fit c.
Proof.
  unfold action_try_from. generalize (@nil (string * option string)) as seen.
  induction (al_components a) as [|x l IH]; intros seen; [by intros _ ?%elem_of_nil|].
  cbn [check_actuators]. destruct (check_actuator seen x) as [seen'|] eqn:Hx; [|done].
  intros Hr [->|Hc]%elem_of_cons; [by eapply check_actuator_labels|by eapply IH].
Qed.

Lemma same_set_length (l k : list string) :
  NoDup l -> NoDup k -> (forall x, x ∈ l <-> x ∈ k) -> length l = length k.
Proof. intros Hl Hk Hs. by apply Permutation_length, list.NoDup_Permutation. Qed.

(** ** The action plan *)

(** A segment of an env actuator: it reads inside the model's vector and writes the
    actuator's axes. *)
Definition segment_for (in_dim : nat) (env : Actuator) (s : ActionSegment) : Prop :=
  segment_width s = act_dim env /\
  (ordered (act_range env) -> segment_ok in_dim s).

Lemma fill_segment_for in_dim env role labels part :
  segment_for in_dim env (fill_segment role labels part (act_dim env) (act_fill env)).
Proof. split; [done|]. intros _. split; [done|done|by intros ? ?]. Qed.

(** The widths of the two sides of a checked pair. *)
Lemma check_action_dims_Ok model env role :
  check_action_dims model env role = Ok tt ->
  match action_base <$> act_encoding model, action_base <$> act_encoding env with
  | Some src, Some dst => if decide (src = dst) then act_dim model = act_dim env
                          else act_dim env = encoding_dims dst
  | None, None => act_dim model = act_dim env
  | _, _ => False
  end.
Proof.
  unfold check_action_dims. destruct (check_action_role_dim _ _); [|done].
  destruct (check_action_custom _ _); [|done].
  assert (same_dims model env role = Ok tt -> act_dim model = act_dim env) as Hsame.
  { unfold same_dims. destruct (decide (act_dim model <> act_dim env)); [done|]. intros _. by apply dec_stable. }
  destruct (action_base <$> act_encoding model) as [src|], (action_base <$> act_encoding env) as [dst|];
    try done.
  destruct (decide (src <> dst)) as [Hne|He]; destruct (decide (src = dst)); try done.
  unfold check_converting. destruct (_ || _) eqn:Hd; [done|]. intros _.
  apply orb_false_iff in Hd as [_ Hd]. apply bool_decide_eq_false in Hd. by apply dec_stable.
Qed.

Lemma label_scatter_spec role env model :
  labels_fit env -> labels_fit model ->
  planned (label_scatter role env model) (fun s => forall scatter, s = Some scatter ->
    length scatter = act_dim env /\ act_dim env = act_dim model /\
    Forall (fun i => i < act_dim model)%nat scatter).
Proof.
  intros He Hm. unfold label_scatter.
  destruct (act_labels model) as [ml|] eqn:Hml; [|by apply planned_done].
  destruct (act_labels env) as [el|] eqn:Hel; [|done].
  destruct (He _ Hel) as [Hnde Hle], (Hm _ Hml) as [Hndm Hlm].
  destruct (label_permutation_spec el ml) as (r & -> & Hr).
  destruct r as [p|]; [|done]. apply planned_done. intros scatter ->.
  destruct (Hr _ eq_refl) as (Hset & _ & Hlt & Hlen).
  rewrite Hlen, <- Hlm. split; [done|]. split; [|done].
  rewrite <- Hle. by apply same_set_length.
Qed.

Lemma check_geometry_total attr role env model :
  planned (check_geometry attr role env model) (fun _ => True).
Proof.
  unfold check_geometry. repeat (plan; try intros _ _; try done).
Qed.

Lemma segment_for_fields in_dim role env model start s :
  as_fill s = None -> as_start s = Z.of_nat start -> as_stop s = Z.of_nat (start + act_dim model) ->
  as_src_encoding s = action_base <$> act_encoding model ->
  as_dst_encoding s = action_base <$> act_encoding env ->
  check_action_dims model env role = Ok tt ->
  (forall scatter, as_scatter s = Some scatter ->
     length scatter = act_dim env /\ act_dim env = act_dim model /\
     Forall (fun i => i < act_dim model)%nat scatter) ->
  action_clip role env = Ok (as_clip s) -> (start + act_dim model <= in_dim)%nat ->
  segment_for in_dim env s.
Proof.
  intros Hfill Hstart Hstop Hsrc Hdst Hdims Hsc Hclip Hle. apply check_action_dims_Ok in Hdims.
  assert (source_width s = act_dim env) as Hsw.
  { unfold source_width. rewrite Hsrc, Hdst, Hstart, Hstop.
    replace (Z.to_nat (Z.of_nat (start + act_dim model) - Z.of_nat start)) with (act_dim model) by lia.
    destruct (action_base <$> act_encoding model) as [src|], (action_base <$> act_encoding env) as [dst|];
      try done. by destruct (decide (src = dst)). }
  split.
  - unfold segment_width. rewrite Hfill. destruct (as_scatter s) as [scatter|]; [|done].
    by apply Hsc.
  - intros Hord. split.
    + intros _. lia.
    + intros scatter Hs. destruct (Hsc _ Hs) as (_ & Heq & Hlt). by rewrite Hsw, Heq.
    + intros low high Hc. unfold action_clip in Hclip. rewrite Hc in Hclip.
      destruct (act_clip env); [|done]. destruct (act_range env) as [range|]; [|done].
      injection Hclip as ->. by apply Hord.
Qed.

Lemma driven_segment_spec model_action o role env key start model part :
  outputs_ok model_action o -> (key, (start, model)) ∈ mo_by_key o ->
  labels_fit env -> labels_fit model ->
  planned (driven_segment role env start model part) (segment_for (mo_in_dim o) env).
Proof.
  intros Ho Hin He Hm. unfold driven_segment. plan.
  eapply planned_impl; [by apply label_scatter_spec|]. intros scatter Hsc.
  plan. plan. intros [] Hdims. plan. plan. intros _ _.
  plan. plan; [done|]. plan. plan. plan; [done|]. plan.
  plan. plan. intros clip Hclip.
  plan. eapply planned_impl; [apply check_geometry_total|]. intros frame _.
  plan. eapply planned_impl; [apply check_geometry_total|]. intros reference _.
  plan. plan. exists (start + act_dim model)%nat. split; [by eapply outputs_stop|].
  plan. destruct (proj2 Ho _ _ _ Hin) as [_ Hle].
  by eapply (segment_for_fields _ role env model start).
Qed.

Lemma role_segment_spec model_action o role env :
  outputs_ok model_action o -> labels_fit env ->
  (forall c, c ∈ al_components model_action -> labels_fit c) ->
  planned (role_segment o role env) (segment_for (mo_in_dim o) env).
Proof.
  intros Ho He Hm. unfold role_segment. plan.
  eapply planned_impl; [apply bind_leaf_spec|]. intros [b|] Hb.
  - destruct (Hb b eq_refl) as ([key [start model]] & (Hin & _) & Hf & _). cbn [snd] in Hf.
    rewrite <- Hf. eapply driven_segment_spec; try done. eapply Hm, (proj2 Ho), Hin.
  - plan; [|done]. plan. apply fill_segment_for.
Qed.

Lemma plan_segments_spec model_action o components : forall seen,
  outputs_ok model_action o -> (forall c, c ∈ components -> labels_fit c) ->
  (forall c, c ∈ al_components model_action -> labels_fit c) ->
  planned (plan_segments o seen components) (Forall2 (segment_for (mo_in_dim o)) components).
Proof.
  induction components as [|env components IH]; intros seen Ho Hc Hm; cbn [plan_segments].
  { plan. constructor. }
  assert (forall c, c ∈ components -> labels_fit c) as Hc' by (intros c ?; apply Hc; by right).
  destruct (act_role env) as [role|].
  - plan; [done|]. plan. eapply planned_impl; [apply (role_segment_spec model_action); try done; apply Hc; by left|].
    intros s Hs. plan. eapply planned_impl; [by apply IH|]. intros rest Hr. plan. by constructor.
  - plan. eapply planned_impl; [by apply IH|]. intros rest Hr. plan.
    constructor; [apply fill_segment_for|done].
Qed.

Lemma plan_action_spec model env o :
  outputs_ok model o -> (forall c, c ∈ al_components env -> labels_fit c) ->
  (forall c, c ∈ al_components model -> labels_fit c) ->
  planned (plan_action model env o) (fun p =>
    ap_in_dim p = mo_in_dim o /\ ap_clip p = al_clip env /\
    Forall2 (segment_for (mo_in_dim o)) (al_components env) (ap_segments p)).
Proof.
  intros Ho He Hm. unfold plan_action. plan. plan; [done|]. plan. plan.
  eapply planned_impl; [by apply (plan_segments_spec model)|]. intros segments Hs. by plan.
Qed.


(** ** Frames *)

(** The box of the camera that is resized. *)
Definition source_box (env : EnvImage) (crop : option CropPlan) : option (Z * Z) :=
  match crop with
  | Some crop => crop_box env (crop_fraction crop)
  | None => Some (ei_height env, ei_width env)
  end.

(** The modes an input declares. *)
Definition declared_fits (input : Image) : list FitMode :=
  match im_fit input with Some set => AdapterSpec.known set | None => [] end.

(** What a fit of an [h] x [w] box into [th] x [tw] respects. *)
Definition fit_sound (input : Image) (h w th tw : Z) (mode : FitMode) : Prop :=
  (im_allow_upscale input = false -> upscales true h w th tw mode = false) /\
  (h * tw = w * th -> mode = FitStretch) /\
  (h * tw <> w * th -> mode ∈ declared_fits input).

Lemma same_aspect_upscales h w th tw mode :
  0 < h -> 0 < w -> h * tw = w * th ->
  upscales true h w th tw mode = upscales true h w th tw FitStretch.
Proof.
  intros Hh Hw Ha. assert ((h <? th) = (w <? tw)) as He.
  { apply eq_true_iff_eq. rewrite !Z.ltb_lt. split; intros; nia. }
  unfold upscales. rewrite He. by destruct mode, (w <? tw).
Qed.

Lemma resolve_fit_spec input at_arg env th tw crop h w :
  source_box env crop = Some (h, w) -> 0 < h -> 0 < w ->
  yields (resolve_fit input at_arg env (Some (th, tw)) crop) (fit_sound input h w th tw).
Proof.
  intros Hbox Hh Hw. unfold resolve_fit. plan.
  assert (forall P : Z * Z -> Prop, P (h, w) ->
    yields match crop with
           | Some crop => may_panic (crop_box env (crop_fraction crop))
           | None => done_with (ei_height env, ei_width env)
           end P) as Hsrc.
  { intros P HP. destruct crop as [c|]; cbn in Hbox; [by rewrite Hbox|]. by injection Hbox as -> ->. }
  apply Hsrc. rewrite (proj2 (Z.eqb_neq h 0)), (proj2 (Z.eqb_neq w 0)) by lia. cbn [negb andb].
  fold (declared_fits input). destruct (Z.eqb_spec (h * tw) (w * th)) as [Ha|Ha]; cbn [negb].
  - assert (forall mode, negb (im_allow_upscale input) && upscales true h w th tw mode = false ->
      fit_sound input h w th tw FitStretch) as Hok.
    { intros mode Hu. split; [|done]. intros Hup. rewrite Hup in Hu. cbn in Hu.
      by rewrite <- (same_aspect_upscales _ _ _ _ mode). }
    destruct (im_fit input) as [set|] eqn:Hf; destruct (declared_fits input) as [|m ms] eqn:Hd;
      cbn [default from_option head hd_error]; try done; plan; try done; plan; by eapply Hok.
  - destruct (List.find _ (declared_fits input)) as [mode|] eqn:Hf; [|done]. plan.
    apply find_some in Hf as [Hin Hu]. split; [|split; [done|]].
    + intros Hup. rewrite Hup in Hu. by apply negb_true_iff in Hu.
    + intros _. by apply list_elem_of_In.
Qed.

(** The offsets of a window: strictly increasing up to the current frame, no further
    back than the largest window. *)
Definition window_ok (stack : Z) (offsets : option (list Z)) : Prop :=
  match offsets with
  | None => True
  | Some [] => False
  | Some (oldest :: rest) =>
      1 - MAX_STACK_SPAN <= oldest <= 0 /\ strictly_increasing (oldest :: rest) = true /\
      last (oldest :: rest) = Some 0 /\ Z.of_nat (length (oldest :: rest)) = stack
  end.

Lemma stack_window_yields input at_arg :
  yields (stack_window input at_arg) (window_ok (im_stack input)).
Proof.
  unfold stack_window. plan. apply planned_any. intros _.
  destruct (im_offsets input) as [[|oldest rest]|]; [done| |done].
  plan; [done|]. plan; [done|]. plan. plan. intros span Hs. plan; [done|]. plan.
  apply orb_false_iff in Heqb as [[Hinc Hlast]%orb_false_iff Hold]. apply checked_Some in Hs as [-> Hs].
  apply negb_false_iff in Hinc, Hlast, Heqb0. apply bool_decide_eq_true in Hlast.
  apply Z.eqb_eq in Heqb0. split_and!; try done; lia.
Qed.

(** C32: The fit of an image input that is resized neither invents detail nor distorts
    without leave: a box of the camera is never scaled up unless the model allows it,
    it is stretched without distortion when it has the target's aspect, and otherwise
    the mode is one the model declares. *)
Theorem camera_fit_sound (input : Image) (placement : NodePath) (env : EnvImage)
    (part : option string) (rebound : option (string * string)) (p : ImagePlan)
    (pushed : list Advisory) (h w th tw : Z) :
  camera_plan input placement env part rebound = Some (Ok (p, pushed)) ->
  ip_size p = Some (th, tw) -> source_box env (ip_crop p) = Some (h, w) -> 0 < h -> 0 < w ->
  (im_allow_upscale input = false -> upscales true h w th tw (ip_fit p) = false) /\
  (h * tw = w * th -> ip_fit p = FitStretch) /\
  (h * tw <> w * th -> exists set, im_fit input = Some set /\ ip_fit p ∈ AdapterSpec.known set).
Proof.
  intros Hp Hsize Hbox Hh Hw. revert Hsize Hbox.
  pattern p. eapply planned_Ok; [|exact Hp]. clear p Hp. unfold camera_plan. plan. apply planned_any. intros _. plan. apply planned_any. intros _.
  plan. apply planned_any. intros crop. plan.
  destruct (decide (target_size input env = Some (th, tw) /\ source_box env crop = Some (h, w)))
    as [[Hs Hb]|Hn].
  - rewrite Hs. eapply planned_impl; [by apply resolve_fit_spec|]. intros fit (H1 & H2 & H3).
    do 2 (plan; apply planned_any; intros ?). plan. cbn. intros _ _. split_and!; try done.
    intros Hd. specialize (H3 Hd). unfold declared_fits in H3.
    destruct (im_fit input) as [set|]; [by exists set|by apply elem_of_nil in H3].
  - apply planned_any. intros fit. do 2 (plan; apply planned_any; intros ?). plan. cbn.
    intros Hs Hb. by destruct Hn.
Qed.

(** What a planned image keeps of its input. *)
Definition image_planned (input : Image) (placement : NodePath) (p : ImagePlan) : Prop :=
  ip_placement p = placement /\ ip_stack p = im_stack input /\ ip_dtype p = im_dtype input /\
  window_ok (ip_stack p) (ip_offsets p).

Lemma camera_plan_yields input placement env part rebound :
  yields (camera_plan input placement env part rebound) (image_planned input placement).
Proof.
  unfold camera_plan. do 4 (plan; apply planned_any; intros ?). plan.
  eapply planned_impl; [apply stack_window_yields|]. intros offsets Ho.
  plan. apply planned_any. intros bytes. by plan.
Qed.

Lemma zero_fill_yields input placement :
  yields (zero_fill_image_plan input placement) (image_planned input placement).
Proof.
  unfold zero_fill_image_plan. plan. eapply planned_impl; [apply stack_window_yields|].
  intros offsets Ho. by repeat (plan; try done).
Qed.

Lemma plan_image_yields input placement images unknown :
  yields (plan_image input placement images unknown) (image_planned input placement).
Proof.
  unfold plan_image. plan. apply planned_any. intros _. plan. apply planned_any. intros [bound|].
  { apply camera_plan_yields. }
  plan. apply planned_any. intros _.
  destruct (sole images) as [[[[? part] ?] only]|]; repeat plan;
    first [apply camera_plan_yields|apply zero_fill_yields|done].
Qed.

(** ** A sample env and model *)

(** Two joints by name, in a range. *)
Definition sample_actuator (labels : list string) (range : option (f64 * f64)) (clip : bool) : Actuator := {|
  act_role := Some "action/joint_pos"; act_dim := 2; act_encoding := None; act_range := range;
  act_binary := false; act_scale := None; act_offset := None; act_axis_scale := None;
  act_axis_offset := None; act_invert := false; act_threshold := None; act_clip := clip;
  act_fill := f64_zero; act_optional := false; act_frame := None; act_reference := None;
  act_part := None; act_labels := Some labels; act_unknown := [] |}.

Definition sample_image_tag : ImageTag :=
  {| it_role := "image/primary"; it_layout := Hwc; it_upside_down := false; it_part := None;
     it_unknown := [] |}.

Definition sample_state_tag : StateTag :=
  {| stg_role := "proprio/joint_pos"; stg_encoding := None; stg_range := None; stg_frame := None;
     stg_provenance := None; stg_part := None; stg_labels := Some ["elbow"; "wrist"];
     stg_unknown := [] |}.

Definition sample_tags : EnvTags := {|
  et_observation := ONDict [("cam", ONLeaf (ObImage sample_image_tag));
                            ("joints", ONLeaf (ObState sample_state_tag))];
  et_action := {| al_components := [sample_actuator ["elbow"; "wrist"]
                                      (Some (f64_of_Z (-1), f64_of_Z 1)) true];
                  al_clip := Some (f64_of_Z (-1), f64_of_Z 1) |} |}.

Definition box_view (shape : list Z) (low high : Z) : SpaceView :=
  mkView VBox shape "float32" (Some [f64_of_Z low]) (Some [f64_of_Z high]) [] [].

Definition sample_obs_space : SpaceView :=
  mkView VDict [] EmptyString None None ["cam"; "joints"] [box_view [4; 4; 3] 0 255; box_view [2] (-3) 3].

Definition sample_action_space : SpaceView := box_view [2] (-1) 1.

(** A window of the current frame and the one two steps before it. *)
Definition sample_input (size : option (Z * Z)) (crop : option f64) : Image := {|
  im_role := "image/primary"; im_part := None; im_height := fst <$> size; im_width := snd <$> size;
  im_layout := Chw; im_channels := Some 3; im_dtype := "uint8"; im_normalize := NormOff;
  im_lead_dims := 0; im_upside_down := false; im_resample := "bilinear"; im_allow_upscale := false;
  im_fit := None; im_optional := false; im_fill := None; im_stack := 2; im_crop := crop;
  im_crop_area := None; im_crop_mode := "zoom"; im_jpeg_quality := None;
  im_channel_order := "rgb"; im_render := None; im_offsets := Some [-2; 0];
  im_stack_pad := PadFirst; im_unknown := [] |}.

Definition sample_state : State := {|
  sta_components := [role_part "proprio/joint_pos"]; sta_pad_to := None; sta_dtype := "float32";
  sta_reshape := None; sta_container := StateArray; sta_clip := None; sta_unknown := [] |}.

Definition sample_model : ModelSpec := {|
  ms_input := INDict [("rgb", INLeaf (MImage (sample_input (Some (2, 2)) None)));
                      ("state", INTuple [INLeaf (MState sample_state)])];
  ms_output := {| al_components := [sample_actuator ["wrist"; "elbow"] None false];
                  al_clip := None |} |}.

Definition sample_resolve : option (Resolved ResolvedAdapter) :=
  resolve (fun _ => EmptyString) sample_tags sample_obs_space sample_action_space sample_model false.

Definition sample_camera (height width : Z) : EnvImage := {|
  ei_source := [PKey "cam"]; ei_role := "image/primary"; ei_part := None; ei_layout := Hwc;
  ei_upside_down := false; ei_height := height; ei_width := width; ei_channels := 3;
  ei_value_range := None |}.

Definition sample_camera_plan (input : Image) (env : EnvImage) : Planned ImagePlan :=
  camera_plan input [PKey "rgb"] env None None.

Lemma camera_fit_sound_witness :
  exists p pushed, sample_camera_plan (sample_input (Some (2, 2)) None) (sample_camera 4 4)
                     = Some (Ok (p, pushed)) /\
    upscales true 4 4 2 2 (ip_fit p) = false /\ ip_fit p = FitStretch.
Proof.
  destruct (sample_camera_plan (sample_input (Some (2, 2)) None) (sample_camera 4 4))
    as [[[p pushed]|e]|] eqn:E.
  2, 3: exfalso; revert E; vm_compute; discriminate.
  exists p, pushed. split; [reflexivity|].
  assert (ip_size p = Some (2, 2) /\ ip_crop p = None) as [Hs Hc]
    by (revert E; vm_compute; intros [= <- _]; split; reflexivity).
  destruct (camera_fit_sound _ _ _ _ _ p pushed 4 4 2 2 E Hs) as (H1 & H2 & _).
  - rewrite Hc. reflexivity.
  - lia.
  - lia.
  - split; [apply H1; reflexivity|apply H2; reflexivity].
Defined.

(** ** What the sources say otherwise *)

(** A crop of a side fraction is rounded per side, so its box need not keep the camera's
    aspect: a target that a 480x640 camera is resized to as it is is refused of a crop of
    it. *)
Theorem crop_box_changes_aspect :
  480 * 320 = 640 * 240 /\
  crop_box (sample_camera 480 640) (f64_ratio 667 1000) = Some (320, 427) /\
  320 * 320 <> 427 * 240 /\
  (exists p pushed, sample_camera_plan (sample_input (Some (240, 320)) None) (sample_camera 480 640)
                      = Some (Ok (p, pushed))) /\
  exists e, sample_camera_plan (sample_input (Some (240, 320)) (Some (f64_ratio 667 1000)))
              (sample_camera 480 640) = Some (Err e).
Proof.
  split_and!; [done|by vm_compute|done| |].
  - destruct (sample_camera_plan _ _) as [[[p pushed]|e]|] eqn:E; [by eauto|..];
      exfalso; revert E; vm_compute; discriminate.
  - destruct (sample_camera_plan _ _) as [[[p pushed]|e]|] eqn:E; [|by eauto|];
      exfalso; revert E; vm_compute; discriminate.
Qed.

(** A camera of unknown size counts as a 1x1 box once a crop is declared, and so blocks
    the target it passes without one. *)
Theorem crop_of_unknown_camera_refused :
  crop_box (sample_camera 0 0) (f64_ratio 1 2) = Some (1, 1) /\
  (exists p pushed, sample_camera_plan (sample_input (Some (240, 240)) None) (sample_camera 0 0)
                      = Some (Ok (p, pushed))) /\
  exists e, sample_camera_plan (sample_input (Some (240, 240)) (Some (f64_ratio 1 2)))
              (sample_camera 0 0) = Some (Err e).
Proof.
  split_and!; [by vm_compute| |].
  - destruct (sample_camera_plan _ _) as [[[p pushed]|e]|] eqn:E; [by eauto|..];
      exfalso; revert E; vm_compute; discriminate.
  - destruct (sample_camera_plan _ _) as [[[p pushed]|e]|] eqn:E; [|by eauto|];
      exfalso; revert E; vm_compute; discriminate.
Qed.

(** The sample input with the offsets and the dtype given, and no camera needed. *)
Definition declared_input (offsets : list Z) (dtype : string) (side : Z) : Image := {|
  im_role := "image/primary"; im_part := None; im_height := Some side; im_width := Some side;
  im_layout := Hwc; im_channels := Some side; im_dtype := dtype; im_normalize := NormOff;
  im_lead_dims := 0; im_upside_down := false; im_resample := "bilinear"; im_allow_upscale := false;
  im_fit := None; im_optional := true; im_fill := None; im_stack := 2; im_crop := None;
  im_crop_area := None; im_crop_mode := "zoom"; im_jpeg_quality := None;
  im_channel_order := "rgb"; im_render := None; im_offsets := Some offsets;
  im_stack_pad := PadFirst; im_unknown := [] |}.

(** The span of a window is computed before it is bounded: the two lowest [i32]
    offsets overflow it.  So does the byte count of a frame of the largest sides the
    codec admits. *)
Theorem resolve_arithmetic_overflows :
  (forall o, i32_min <= o <= i32_min + 1 ->
     stack_window (declared_input [o; 0] "uint8" 1) (AStr "rgb") = None) /\
  zero_fill_image_plan (declared_input [-1; 0] "uint8" (2 ^ 24)) [PKey "rgb"] = None.
Proof.
  split; [|by vm_compute]. intros o Ho.
  assert (o = i32_min \/ o = i32_min + 1) as [-> | ->] by lia; by vm_compute.
Qed.

(** A dtype that names none is refused of a bound camera, and not of an absent one. *)
Theorem absent_camera_dtype_not_checked :
  (exists e, sample_camera_plan (declared_input [-1; 0] "uint9" 2) (sample_camera 2 2) = Some (Err e)) /\
  exists p pushed, zero_fill_image_plan (declared_input [-1; 0] "uint9" 2) [PKey "rgb"]
                     = Some (Ok (p, pushed)) /\ ip_dtype p = "uint9".
Proof.
  split.
  - destruct (sample_camera_plan _ _) as [[[p pushed]|e]|] eqn:E; [|by eauto|];
      exfalso; revert E; vm_compute; discriminate.
  - eexists _, _. split; [by vm_compute|done].
Qed.
