(* ===== verification/AdapterResolved.v ===== *)
(** * What a resolved adapter guarantees

    The composition of [join], the planners and the application of their plans: the
    action an adapter produces fits the env's action space, every input is read back
    where the model's tree has it, and resolution itself does not panic. *)

From S2P Require Import Prelude BTree Float FloatOps DType Scalar Tensor Types AdapterValue AdapterGeometry AdapterPlans AdapterImage AdapterImageSpec AdapterApply AdapterApplySpec AdapterHistory AdapterHistorySpec AdapterSpec AdapterJoin AdapterResolve AdapterResolveSpec.
#[local] Open Scope Z_scope.
#[local] Open Scope planned_scope.

(** ** The steps of a resolution *)

(** What the steps of a resolution that succeeds produced. *)
Record resolution (tags : EnvTags) (obs_space action_space : SpaceView) (spec : ModelSpec)
    (trust : bool) (a : ResolvedAdapter) : Prop := {
  rs_steps : exists outputs env offered pushed more,
    index_outputs (ms_output spec) = Ok outputs /\
    join tags obs_space action_space = Some (Ok env) /\
    offered_by env = Ok offered /\
    plan_each (plan_leaf offered outputs trust) (collect_leaves (ms_input spec) path_root)
      = Some (Ok (ra_obs_plans a, pushed)) /\
    plan_action (ms_output spec) (ef_action env) outputs = Some (Ok (ra_action_plan a, more));
  rs_stacked : stacked_placements 0 (ra_obs_plans a) = Some (ra_stacked a);
}.

Lemma resolve_steps render tags obs_space action_space spec trust a :
  resolve render tags obs_space action_space spec trust = Some (Ok a) ->
  resolution tags obs_space action_space spec trust a.
Proof.
  unfold resolve.
  destruct (reject_bare_fields_env tags) as [[]|]; [|done]. cbn [map_err].
  destruct (reject_bare_fields_model spec) as [[]|]; [|done]. cbn [map_err].
  destruct (check_model_roles spec) as [[]|]; [|done].
  destruct (index_outputs (ms_output spec)) as [outputs|] eqn:Ho; [|done].
  destruct (join tags obs_space action_space) as [[env|]|] eqn:Hj; try done. cbn [map_err].
  unfold resolve_features. destruct (offered_by env) as [offered|] eqn:Hf; [|done].
  destruct (plan_each _ _) as [[[plans pushed]|]|] eqn:Hp; try done.
  destruct (plan_action _ _ _) as [[[act more]|]|] eqn:Ha; try done.
  unfold adapter_new. destruct (stacked_placements 0 plans) as [stacked|] eqn:Hs; [|done].
  intros [= <-]. split; [|done]. by exists outputs, env, offered, pushed, more.
Qed.

(** ** The action *)

Lemma sum_u32_spec dims : forall acc total,
  sum_u32 acc dims = Some total ->
  total = (acc + sum_list dims)%nat /\ (Z.of_nat acc <= u32_max -> Z.of_nat total <= u32_max).
Proof.
  induction dims as [|d dims IH]; intros acc total; cbn [sum_u32].
  - intros [= <-]. cbn. split; [lia|done].
  - destruct (Z.leb_spec (Z.of_nat (acc + d)) u32_max); [|done]. intros Hs.
    destruct (IH _ _ Hs) as [-> Hle]. cbn. split; [lia|]. intros _. by apply Hle.
Qed.

(** The bounds a space gives a slice are ordered. *)
Definition bounds_ordered (v : SpaceView) : Prop :=
  forall offset dim, ordered (slice_uniform_finite_range v offset dim).

(** The actuator of the tag, with the range it agrees on with the space. *)
Definition joined_actuator (space : SpaceView) (c c' : Actuator) : Prop :=
  act_dim c' = act_dim c /\ act_labels c' = act_labels c /\
  (bounds_ordered space -> ordered (act_range c) -> ordered (act_range c')).

Lemma reconcile_ordered space tag key r :
  ordered space -> ordered tag -> reconcile_range space tag key = Ok r -> ordered r.
Proof.
  unfold reconcile_range. intros Hs Ht.
  destruct space as [s|], tag as [t|]; [destruct (ranges_agree s t)|..]; try done; by intros [= <-].
Qed.

Lemma join_components_spec space components : forall offset out,
  join_components space offset components = Ok out ->
  Forall2 (joined_actuator space) components out.
Proof.
  induction components as [|c components IH]; intros offset out; cbn [join_components].
  { by intros [= <-]. }
  destruct (match act_role c with Some _ => _ | None => _ end) as [here|] eqn:Hh; [|done].
  destruct (join_components space _ components) as [rest|] eqn:Hr; [|done]. intros [= <-].
  constructor; [|by eapply IH].
  destruct (act_role c) as [role|]; [|by injection Hh as <-].
  destruct (match action_base <$> act_encoding c with Some _ => _ | None => _ end); [|done].
  destruct (check_role_dim_law _ _ _); [|done]. destruct (check_role_identity _ _); [|done].
  destruct (reconcile_range _ _ _) as [range|] eqn:Hrange; [|done]. injection Hh as <-.
  split_and!; try done. intros Hs Hc. by eapply reconcile_ordered; [apply Hs| |exact Hrange].
Qed.

Lemma resolve_action_spec action space out :
  resolve_action action space = Some (Ok out) ->
  al_clip out = al_clip action /\
  Forall2 (joined_actuator space) (al_components action) (al_components out) /\
  exists width, width_of space = Some width /\ Z.of_nat width <= u32_max /\
    width = sum_list (act_dim <$> al_components action).
Proof.
  unfold resolve_action. destruct (decide _); [done|].
  destruct (width_of space) as [width|] eqn:Hw; [|done].
  destruct (sum_u32 0 _) as [total|] eqn:Ht; [|done]. cbn [ok_or].
  destruct (decide (total <> width)) as [|Hd]; [done|]. apply dec_stable in Hd as ->.
  destruct (join_components space 0 _) as [components|] eqn:Hj; [|done]. intros [= <-].
  apply sum_u32_spec in Ht as [Ht Hm]. split; [done|].
  split; [by eapply join_components_spec|]. exists width. split_and!; try done.
  apply Hm. unfold_ints. lia.
Qed.

Lemma joined_labels action space out c :
  action_try_from action = Ok action ->
  Forall2 (joined_actuator space) (al_components action) (al_components out) ->
  c ∈ al_components out -> labels_fit c.
Proof.
  intros Hcodec Hcs Hin. apply list_elem_of_lookup in Hin as [i Hi].
  eapply Forall2_lookup_r in Hcs as (c0 & Hc0 & Hd & Hl & _); [|exact Hi].
  unfold labels_fit. rewrite Hd, Hl. eapply action_labels_fit; [exact Hcodec|].
  by eapply list_elem_of_lookup_2.
Qed.

Lemma join_action tags obs_space action_space env :
  join tags obs_space action_space = Some (Ok env) ->
  resolve_action (et_action tags) action_space = Some (Ok (ef_action env)).
Proof.
  unfold join. destruct (join_node _ _ _) as [[joined|]|]; try done.
  destruct (resolve_action _ _) as [[action|]|]; try done. by intros [= <-].
Qed.

Lemma segments_of_actuators space in_dim components joined segments :
  bounds_ordered space -> (forall c, c ∈ components -> ordered (act_range c)) ->
  Forall2 (joined_actuator space) components joined ->
  Forall2 (segment_for in_dim) joined segments ->
  Forall (segment_ok in_dim) segments /\
  segment_width <$> segments = act_dim <$> components.
Proof.
  intros Hspace Hc Hj. revert segments.
  induction Hj as [|c c' components joined (Hd & _ & Ho) _ IH];
    intros segments Hs; inversion Hs as [|? s ? segments' [Hw Hok] Hs']; subst; [done|].
  destruct (IH (fun x Hx => Hc x (list_elem_of_further _ _ _ Hx)) _ Hs') as [Hoks Hws].
  split; [constructor; [|done]; by apply Hok, Ho, Hc, list_elem_of_here|].
  rewrite !fmap_cons, Hws. by f_equal; congruence.
Qed.

(** What the codec and the space promise of an env's action. *)
Record env_action_ok (action : Action) (space : SpaceView) : Prop := {
  eao_codec : action_try_from action = Ok action;
  eao_clip : ordered (al_clip action);
  eao_ranges : forall c, c ∈ al_components action -> ordered (act_range c);
  eao_space : bounds_ordered space;
}.

(** A resolved action plan satisfies what its application assumes. *)
Lemma resolved_action_plan tags obs_space action_space spec trust a :
  env_action_ok (et_action tags) action_space ->
  action_try_from (ms_output spec) = Ok (ms_output spec) ->
  resolution tags obs_space action_space spec trust a ->
  Forall (segment_ok (ap_in_dim (ra_action_plan a))) (ap_segments (ra_action_plan a)) /\
  ap_clip (ra_action_plan a) = al_clip (et_action tags) /\
  exists width, width_of action_space = Some width /\ Z.of_nat width <= u32_max /\
    action_width (ra_action_plan a) = width.
Proof.
  intros [Hcodec Hclip Hranges Hspace] Hmodel [Hsteps _].
  destruct Hsteps as (outputs & env & offered & pushed & more & Ho & Hj & _ & _ & Hp).
  apply join_action in Hj.
  destruct (resolve_action_spec _ _ _ Hj) as (Hc & Hcs & width & Hw & Hmax & Hsum).
  assert (forall c, c ∈ al_components (ef_action env) -> labels_fit c) as Hel
    by (intros c Hin; eapply joined_labels; [exact Hcodec|exact Hcs|exact Hin]).
  assert (forall c, c ∈ al_components (ms_output spec) -> labels_fit c) as Hml
    by (intros c Hin; by eapply action_labels_fit).
  pose proof (planned_Ok _ _ _ _ _ (plan_action_spec _ _ _ (index_outputs_spec _ _ Ho) Hel Hml) Hp)
    as (Hin & Hpc & Hsegs).
  rewrite <- Hin in Hsegs. destruct (segments_of_actuators _ _ _ _ _ Hspace Hranges Hcs Hsegs) as [Hok Hws].
  split; [done|]. split; [congruence|]. exists width. split_and!; try done.
  unfold action_width. by rewrite Hws.
Qed.

(** C28: An adapter that resolves between an env and a model whose specs their codec
    admits never panics on an action, whatever the model outputs, and the action it
    produces fits the env: a dense float32 vector with as many numbers as the env's
    action space, every number inside the clip the env declares. *)
Theorem resolved_action_fits `{HalfOps} `{Libm} (render : message -> string) (tags : EnvTags)
    (obs_space action_space : SpaceView) (spec : ModelSpec) (trust : bool) (a : ResolvedAdapter)
    (raw_action : Value) :
  env_action_ok (et_action tags) action_space ->
  action_try_from (ms_output spec) = Ok (ms_output spec) ->
  resolve render tags obs_space action_space spec trust = Some (Ok a) ->
  value_dense raw_action ->
  exists width r, width_of action_space = Some width /\
  transform_action (ra_action_plan a) raw_action = Some r /\
  forall t, r = Ok t -> exists xs,
    t = dense_tensor (concat (f32_le_bytes <$> xs)) [Z.of_nat width] Float32 /\
    dense t (concat (f32_le_bytes <$> xs)) /\ length xs = width /\
    Forall (clipped (al_clip (et_action tags))) xs.
Proof.
  intros He Hm Hr Hv. apply resolve_steps in Hr.
  destruct (resolved_action_plan _ _ _ _ _ _ He Hm Hr) as (Hs & Hc & width & Hw & Hmax & Ha).
  destruct (transform_action_spec (ra_action_plan a) raw_action) as (r & Ht & Hx); try done.
  - rewrite Hc. apply He.
  - rewrite Ha. unfold_ints. unfold u32_max in Hmax. lia.
  - exists width, r. split_and!; try done. intros t Hok.
    destruct (Hx t Hok) as (xs & Hxs & Hd & Hl & Hcl & _). rewrite Ha, Hc in *. by exists xs.
Qed.

(** ** Where the inputs go *)

Section InputInd.
Context (P : InputNode -> Prop).
Context (Hleaf : forall leaf, P (INLeaf leaf)).
Context (Hdict : forall m, Forall (fun kv => P kv.2) m -> P (INDict m)).
Context (Htuple : forall l, Forall P l -> P (INTuple l)).

Fixpoint InputNode_nested_ind (n : InputNode) : P n :=
  match n with
  | INLeaf leaf => Hleaf leaf
  | INDict m => Hdict m
      ((fix entries (m : list (string * InputNode)) : Forall (fun kv => P kv.2) m :=
          match m with
          | [] => Forall_nil_2 _
          | kv :: m => Forall_cons_2 (fun kv => P kv.2) kv m (InputNode_nested_ind kv.2) (entries m)
          end) m)
  | INTuple l => Htuple l
      ((fix each (l : list InputNode) : Forall P l :=
          match l with
          | [] => Forall_nil_2 P
          | n :: l => Forall_cons_2 P n l (InputNode_nested_ind n) (each l)
          end) l)
  end.
End InputInd.

(** Every dict of the tree is a map: its keys are in order. *)
Fixpoint input_maps (n : InputNode) : Prop :=
  match n with
  | INLeaf _ => True
  | INDict m => btree_sorted m /\ foldr (fun kv acc => input_maps kv.2 /\ acc) True m
  | INTuple l => foldr (fun n acc => input_maps n /\ acc) True l
  end.

Lemma pairs_app {A} (R : A -> A -> Prop) l k :
  ForallOrdPairs R l -> ForallOrdPairs R k -> (forall x y, x ∈ l -> y ∈ k -> R x y) ->
  ForallOrdPairs R (l ++ k).
Proof.
  intros Hl Hk Hlk. induction Hl as [|x l Hx Hl IH]; [done|]. cbn. constructor.
  - apply Forall_app. split; [done|]. apply Forall_forall. intros y Hy. apply Hlk; [by left|done].
  - apply IH. intros a b Ha Hb. apply Hlk; [by right|done].
Qed.

Lemma under_disjoint (p : NodePath) s s' q q' :
  s <> s' -> (p ++ [s]) `prefix_of` q -> (p ++ [s']) `prefix_of` q' -> path_disjoint q q'.
Proof.
  intros Hs [t ->] [t' ->]. rewrite <- !app_assoc.
  induction p as [|x p IH]; [|by apply path_disjoint_cons]. cbn.
  split; intros Hp; apply Hs; by apply prefix_cons_inv_1 in Hp.
Qed.

(** The leaves lie under the placement and apart from each other. *)
Definition placed_apart (n : InputNode) : Prop :=
  forall p, Forall (fun q => p `prefix_of` q) (snd <$> collect_leaves n p) /\
    ForallOrdPairs path_disjoint (snd <$> collect_leaves n p).

Lemma forest_apart (p : NodePath) (kids : list (PathSeg * InputNode)) :
  NoDup (fst <$> kids) -> Forall (fun k => placed_apart k.2) kids ->
  Forall (fun q => p `prefix_of` q)
    (snd <$> concat (map (fun k => collect_leaves k.2 (p ++ [k.1])) kids)) /\
  ForallOrdPairs path_disjoint
    (snd <$> concat (map (fun k => collect_leaves k.2 (p ++ [k.1])) kids)) /\
  forall q, q ∈ (snd <$> concat (map (fun k => collect_leaves k.2 (p ++ [k.1])) kids)) ->
    exists s, s ∈ (fst <$> kids) /\ (p ++ [s]) `prefix_of` q.
Proof.
  induction kids as [|[s n] kids IH]; cbn [map concat fst snd].
  { intros _ _. split_and!; [constructor|constructor|]. by intros q ?%elem_of_nil. }
  rewrite fmap_cons. intros [Hs Hnd]%NoDup_cons [Hn Hk]%Forall_cons. cbn [fst snd] in *.
  destruct (IH Hnd Hk) as (Hp & Ha & Hu). destruct (Hn (p ++ [s])) as [Hps Has].
  rewrite fmap_app. split_and!.
  - apply Forall_app. split; [|done]. eapply Forall_impl; [exact Hps|]. intros q Hq.
    by eapply prefix_app_l.
  - apply pairs_app; [done..|]. intros q q' Hq Hq'. destruct (Hu _ Hq') as (s' & Hs' & Hpre).
    eapply under_disjoint; [|by eapply Forall_forall in Hps|exact Hpre]. by intros ->.
  - intros q [Hq|Hq]%elem_of_app.
    + exists s. split; [by left|]. by eapply Forall_forall in Hps.
    + destruct (Hu _ Hq) as (s' & Hs' & Hpre). exists s'. split; [by right|done].
Qed.

(** The children of a node with the segment each is under. *)
Definition kids_of (n : InputNode) : list (PathSeg * InputNode) :=
  match n with
  | INLeaf _ => []
  | INDict m => map (fun kv => (PKey kv.1, kv.2)) m
  | INTuple l => zip (PIndex <$> seq 0 (length l)) l
  end.

Lemma collect_kids n p : (forall leaf, n <> INLeaf leaf) ->
  collect_leaves n p = concat (map (fun k => collect_leaves k.2 (p ++ [k.1])) (kids_of n)).
Proof.
  destruct n as [leaf|m|l]; intros Hn; [by destruct (Hn leaf)| |]; cbn [collect_leaves kids_of].
  - by rewrite map_map.
  - generalize 0%nat. induction l as [|n l IH]; intros i; [done|]. cbn. by rewrite IH.
Qed.

Lemma kids_distinct n : input_maps n -> NoDup (fst <$> kids_of n).
Proof.
  destruct n as [leaf|m|l]; cbn [input_maps kids_of].
  - intros _. constructor.
  - intros [Hm%btree_keys_NoDup _].
    replace (fst <$> map (fun kv => (PKey kv.1, kv.2)) m) with (PKey <$> btree_keys m).
    + by apply NoDup_fmap; [intros ? ? [= ->]|].
    + unfold btree_keys. clear. induction m as [|kv m IH]; [done|]. cbn. by rewrite IH.
  - intros _. rewrite fst_zip by (by rewrite length_fmap, length_seq).
    by apply NoDup_fmap; [intros ? ? [= ->]|apply NoDup_seq].
Qed.

Lemma leaves_apart n : input_maps n -> placed_apart n.
Proof.
  induction n as [leaf|m IH|l IH] using InputNode_nested_ind; intros Hm p.
  - cbn. split; repeat constructor. done.
  - rewrite collect_kids by done.
    destruct (forest_apart p (kids_of (INDict m))) as (H1 & H2 & _); [by apply kids_distinct| |done].
    cbn [kids_of]. destruct Hm as [_ Hm]. revert Hm.
    induction IH as [|kv m Hkv _ IHm]; cbn; intros Hm; constructor; [by apply Hkv, Hm|apply IHm, Hm].
  - rewrite collect_kids by done.
    destruct (forest_apart p (kids_of (INTuple l))) as (H1 & H2 & _); [by apply kids_distinct| |done].
    cbn [kids_of input_maps] in *. generalize 0%nat. revert Hm.
    induction IH as [|n l Hn _ IHl]; cbn; intros Hm i; constructor; [by apply Hn, Hm|apply IHl, Hm].
Qed.

(** *** Plans keep the placement of their leaf *)

(** The plan of a leaf is of its kind and goes where the leaf is. *)
Definition plan_for (placed : ModelLeaf * NodePath) (plan : ObsPlan) : Prop :=
  plan_placement plan = placed.2 /\
  match placed.1, plan with
  | MImage input, OImage p => image_planned input placed.2 p
  | MState _, OState _ | MText _, OText _ | MCustom _, OCustom _ => True
  | _, _ => False
  end.

Lemma plan_leaf_yields offered outputs trust placed :
  yields (plan_leaf offered outputs trust placed) (plan_for placed).
Proof.
  destruct placed as [[input|input|input|input|kind] placement]; cbn [plan_leaf]; try plan.
  - eapply planned_impl; [apply plan_image_yields|]. intros p Hp. plan.
    split; [apply Hp|done].
  - unfold plan_state. plan. apply planned_any. intros _. plan. apply planned_any. intros pieces.
    plan. by plan.
  - plan. unfold plan_text. intros p Hp. plan.
    destruct (match btree_get _ _ with Some _ => _ | None => _ end); [|done]. by injection Hp as <-.
  - plan. unfold plan_custom. intros p Hp. plan. destruct (negb trust); [done|]. by injection Hp as <-.
Qed.

Lemma resolved_plans tags obs_space action_space spec trust a :
  resolution tags obs_space action_space spec trust a ->
  Forall2 plan_for (collect_leaves (ms_input spec) path_root) (ra_obs_plans a).
Proof.
  intros [(outputs & env & offered & pushed & more & _ & _ & _ & Hp & _) _].
  eapply planned_Ok; [|exact Hp]. apply planned_each. intros placed _. apply plan_leaf_yields.
Qed.

Lemma resolved_placements tags obs_space action_space spec trust a :
  resolution tags obs_space action_space spec trust a -> input_maps (ms_input spec) ->
  ForallOrdPairs path_disjoint (plan_placement <$> ra_obs_plans a).
Proof.
  intros Hr Hm. replace (plan_placement <$> ra_obs_plans a)
    with (snd <$> collect_leaves (ms_input spec) path_root); [by apply leaves_apart|].
  apply resolved_plans in Hr. induction Hr as [|placed plan leaves plans [Hp _] _ IH]; [done|].
  rewrite !fmap_cons, IH. by rewrite Hp.
Qed.

(** C29: Every input of the model's tree has a plan of its kind, and in the payload an
    adapter assembles, what that plan makes of the observation is found at exactly the
    position the model's tree has the input, whatever the nesting of dicts and tuples
    and whichever optional inputs are left out. *)
Theorem resolved_payload_reads_back `{HalfOps} `{ImageCodec} `{Libm} (addr : Z)
    (render : message -> string) (tags : EnvTags) (obs_space action_space : SpaceView)
    (spec : ModelSpec) (trust : bool) (a : ResolvedAdapter) (raw_obs : btree Value)
    (customs : CustomTransform) (previous : option (list f32)) (payload : Value) :
  input_maps (ms_input spec) ->
  resolve render tags obs_space action_space spec trust = Some (Ok a) ->
  transform_obs addr (ra_obs_plans a) raw_obs customs previous = Some (Ok payload) ->
  Forall2 (fun '(leaf, placement) plan =>
      plan_for (leaf, placement) plan /\
      exists r, apply_plan addr plan raw_obs customs previous = Some (Ok r) /\
        forall v, r = Some v -> resolve_source payload placement = Ok v)
    (collect_leaves (ms_input spec) path_root) (ra_obs_plans a).
Proof.
  intros Hm Hr%resolve_steps Ht. pose proof (resolved_placements _ _ _ _ _ _ Hr Hm) as Hd.
  apply resolved_plans in Hr. apply Forall2_same_length_lookup_2; [by eapply Forall2_length|].
  intros i [leaf placement] plan Hl Hp.
  pose proof (Forall2_lookup_lr _ _ _ _ _ _ Hr Hl Hp) as Hfor. split; [done|].
  assert (exists r, apply_plan addr plan raw_obs customs previous = Some (Ok r)) as [r Happ].
  { unfold transform_obs in Ht.
    destruct (transform_plans addr _ raw_obs customs previous None) as [[b|]|] eqn:Htp; try done.
    by eapply Forall_lookup_1 in Hp; [|by eapply transform_plans_each]. }
  exists r. split; [done|]. intros v ->.
  destruct Hfor as [Hpl _]. cbn [snd] in Hpl. rewrite <- Hpl.
  by eapply payload_reads_back.
Qed.

(** ** Frame windows *)

Lemma increasing_bounds oldest rest :
  strictly_increasing (oldest :: rest) = true -> last (oldest :: rest) = Some 0 ->
  Forall (fun o => oldest <= o <= 0) (oldest :: rest).
Proof.
  revert oldest. induction rest as [|o rest IH]; intros oldest Hs Hl.
  { injection Hl as ->. repeat constructor; lia. }
  cbn [strictly_increasing] in Hs. apply andb_true_iff in Hs as [Ho%Z.ltb_lt Hs].
  rewrite last_cons_cons in Hl. pose proof (IH _ Hs Hl) as Hf.
  pose proof (proj1 (Forall_cons _ _ _) Hf) as [[_ H0] _]. constructor; [lia|].
  eapply Forall_impl; [exact Hf|]. cbn. lia.
Qed.

Lemma window_ok_law p : window_ok (ip_stack p) (ip_offsets p) -> offsets_law p.
Proof.
  unfold window_ok, offsets_law. destruct (ip_offsets p) as [[|oldest rest]|]; [done| |done].
  intros (Ho & Hs & Hl & _). pose proof (increasing_bounds _ _ Hs Hl) as [_ Hr]%Forall_cons.
  unfold MAX_STACK_SPAN in Ho. split; [unfold_ints; lia|done].
Qed.

Lemma stacked_placements_for plans : forall k stacked,
  stacked_placements k plans = Some stacked ->
  Forall (fun entry => (k <= sk_plan_index entry)%nat /\ exists p,
    plans !! (sk_plan_index entry - k)%nat = Some (OImage p) /\ 1 < ip_stack p /\
    stacked_placement (sk_plan_index entry) (OImage p) = Some [entry]) stacked.
Proof.
  induction plans as [|plan plans IH]; intros k stacked; cbn [stacked_placements].
  { intros [= <-]. constructor. }
  destruct (stacked_placement k plan) as [here|] eqn:Hh; [|done].
  destruct (stacked_placements (S k) plans) as [rest|] eqn:Hr; [|done]. intros [= <-].
  apply Forall_app. split.
  - destruct plan as [p| | |]; cbn in Hh; try (injection Hh as <-; constructor).
    destruct (Z.ltb_spec 1 (ip_stack p)) as [H1|]; [|injection Hh as <-; constructor].
    destruct (image_span p) as [span|] eqn:Hs; [|done]. injection Hh as <-.
    constructor; [|constructor]. cbn [sk_plan_index]. split; [lia|]. exists p.
    rewrite Nat.sub_diag. split_and!; try done. cbn.
    by rewrite (proj2 (Z.ltb_lt _ _) H1), Hs.
  - eapply Forall_impl; [by apply IH|]. intros entry (Hk & p & Hp & Hrest). split; [lia|].
    exists p. replace (sk_plan_index entry - k)%nat with (S (sk_plan_index entry - S k)) by lia.
    by split.
Qed.

(** C33: Every frame window of a resolved adapter is made by an image plan and is what the
    history needs: its offsets, when it has them, are as many as the input stacks,
    strictly increasing and end at the current frame, none is older than the window
    reaches back, and the frames an episode holds for it are at most 128, or as many
    as the input stacks. *)
Theorem resolved_windows_bounded (render : message -> string) (tags : EnvTags)
    (obs_space action_space : SpaceView) (spec : ModelSpec) (trust : bool) (a : ResolvedAdapter)
    (entry : StackedPlacement) :
  resolve render tags obs_space action_space spec trust = Some (Ok a) ->
  entry ∈ ra_stacked a ->
  exists p, ra_obs_plans a !! sk_plan_index entry = Some (OImage p) /\
    sk_placement entry = ip_placement p /\ 1 < ip_stack p /\ offsets_law p /\
    1 <= sk_span entry <= Z.max MAX_STACK_SPAN (sk_depth entry) /\
    forall offsets, sk_offsets entry = Some offsets ->
      Z.of_nat (length offsets) = sk_depth entry /\ strictly_increasing offsets = true /\
      last offsets = Some 0 /\ Forall (fun o => - sk_span entry < o <= 0) offsets.
Proof.
  intros Hr%resolve_steps Hin. pose proof (resolved_plans _ _ _ _ _ _ Hr) as Hplans.
  destruct Hr as [_ Hs]. apply stacked_placements_for in Hs.
  eapply Forall_forall in Hs as (_ & p & Hp & H1 & He); [|exact Hin]. rewrite Nat.sub_0_r in Hp.
  exists p. eapply Forall2_lookup_r in Hplans as ([leaf placement] & _ & _ & Hk); [|exact Hp].
  destruct leaf as [input| | | |]; try done. destruct Hk as (_ & _ & _ & Hw). cbn in He, Hw.
  pose proof (window_ok_law _ Hw) as Hlaw. split; [done|].
  rewrite (proj2 (Z.ltb_lt _ _) H1) in He. unfold image_span in He.
  destruct (ip_offsets p) as [[|oldest rest]|] eqn:Ho; [done| |].
  - destruct Hw as (Hold & Hinc & Hlast & Hlen). unfold MAX_STACK_SPAN in *.
    rewrite checked_in in He by (unfold_ints; lia). rewrite wrap_u_id in He by (unfold_ints; lia).
    injection He as <-. cbn [sk_placement sk_span sk_depth sk_offsets]. split_and!; try done; try lia.
    intros offsets [= <-]. split_and!; try done. eapply Forall_impl; [by apply increasing_bounds|].
    cbn. lia.
  - injection He as <-. cbn [sk_placement sk_span sk_depth sk_offsets]. split_and!; try done; lia.
Qed.

(** ** Witnesses *)

Lemma sample_env_action_ok : env_action_ok (et_action sample_tags) sample_action_space.
Proof.
  split; [by vm_compute|by intros ? ? [= <- <-]| |].
  - intros c [->|[]%elem_of_nil]%elem_of_cons. by intros ? ? [= <- <-].
  - intros offset dim low high [= <- <-]. by vm_compute.
Qed.

Lemma sample_output_ok : action_try_from (ms_output sample_model) = Ok (ms_output sample_model).
Proof. by vm_compute. Qed.

Lemma sample_input_maps : input_maps (ms_input sample_model).
Proof. cbn. split_and!; try done. by apply btree_sortedb_spec. Qed.

Lemma resolved_action_fits_witness :
  exists a r, sample_resolve = Some (Ok a) /\
  @transform_action ieee_half no_libm (ra_action_plan a) (ValList [ValInt 5; ValInt 0]) = Some r /\
  forall t, r = Ok t -> exists xs, dense t (concat (f32_le_bytes <$> xs)) /\ length xs = 2%nat /\
    Forall (clipped (Some (f64_of_Z (-1), f64_of_Z 1))) xs.
Proof.
  destruct sample_resolve as [[a|e]|] eqn:E.
  2, 3: exfalso; revert E; vm_compute; discriminate.
  destruct (@resolved_action_fits ieee_half no_libm _ _ _ _ _ _ a (ValList [ValInt 5; ValInt 0])
              sample_env_action_ok sample_output_ok E) as (width & r & Hw & Hr & Ht).
  { repeat split. }
  exists a, r. split; [reflexivity|]. split; [exact Hr|]. intros t Ho.
  destruct (Ht t Ho) as (xs & _ & Hd & Hl & Hc). exists xs.
  injection Hw as <-. split; [exact Hd|]. split; [exact Hl|exact Hc].
Defined.

(** A 4x4 frame and two joints. *)
Definition sample_observation : btree Value :=
  [("cam", ValTensor (dense_tensor (replicate 48 Byte.x40) [4; 4; 3] Uint8));
   ("joints", ValTensor (dense_tensor (concat (f32_le_bytes <$> [f32_of_f64 (f64_of_Z 1); f32_of_f64 (f64_of_Z 2)]))
                          [2] Float32))].

(** The payload the sample adapter assembles of it. *)
Definition sample_payload : option (ResolvedAdapter * Value) :=
  match sample_resolve with
  | Some (Ok a) =>
      match @transform_obs ieee_half no_codec no_libm 0 (ra_obs_plans a) sample_observation NoCustoms None with
      | Some (Ok payload) => Some (a, payload)
      | _ => None
      end
  | _ => None
  end.

Lemma sample_payload_Some : bool_decide (is_Some sample_payload) = true.
Proof. vm_compute. reflexivity. Qed.

Lemma sample_payload_inv :
  exists a payload, sample_resolve = Some (Ok a) /\
    @transform_obs ieee_half no_codec no_libm 0 (ra_obs_plans a) sample_observation NoCustoms None
      = Some (Ok payload).
Proof.
  pose proof sample_payload_Some as H. apply bool_decide_eq_true in H. unfold sample_payload in H.
  destruct sample_resolve as [[a|]|]; [|by destruct H..]. exists a.
  destruct (transform_obs _ _ _ _ _) as [[payload|]|]; [by exists payload|by destruct H..].
Qed.

Lemma resolved_payload_reads_back_witness :
  exists a payload, sample_resolve = Some (Ok a) /\
    @transform_obs ieee_half no_codec no_libm 0 (ra_obs_plans a) sample_observation NoCustoms None
      = Some (Ok payload) /\
    exists v, resolve_source payload [PKey "state"; PIndex 0] = Ok v.
Proof.
  destruct sample_payload_inv as (a & payload & E & T).
  exists a, payload. split; [exact E|]. split; [exact T|].
  pose proof (@resolved_payload_reads_back ieee_half no_codec no_libm 0 _ _ _ _ _ _ a
                sample_observation NoCustoms None payload sample_input_maps E T) as H.
  destruct (Forall2_lookup_l _ _ _ 1 (MState sample_state, [PKey "state"; PIndex 0]) H eq_refl)
    as (plan & _ & Hfor & r & Hr & Hv).
  destruct r as [v|]; [exists v; apply Hv; reflexivity|].
  exfalso. destruct Hfor as [_ Hk]. destruct plan as [| | |]; try destruct Hk.
  cbn [apply_plan] in Hr. destruct (apply_state _ _ _) as [[v|]|]; discriminate.
Defined.

Lemma sample_stacked a : sample_resolve = Some (Ok a) -> length (ra_stacked a) = 1%nat.
Proof.
  assert (match sample_resolve with Some (Ok a) => length (ra_stacked a) | _ => 0%nat end = 1%nat) as H
    by by vm_compute.
  intros E. by rewrite E in H.
Qed.

Lemma resolved_windows_bounded_witness :
  exists a entry, sample_resolve = Some (Ok a) /\ entry ∈ ra_stacked a /\
    sk_span entry <= Z.max MAX_STACK_SPAN (sk_depth entry).
Proof.
  destruct sample_resolve as [[a|e]|] eqn:E.
  2, 3: exfalso; revert E; vm_compute; discriminate.
  destruct (ra_stacked a) as [|entry rest] eqn:S.
  1: exfalso; pose proof (sample_stacked a E) as N; rewrite S in N; discriminate.
  exists a, entry. split; [reflexivity|]. split; [rewrite S; left|].
  destruct (resolved_windows_bounded _ _ _ _ _ _ a entry E) as (p & _ & _ & _ & _ & Hs & _).
  - rewrite S. left.
  - exact (proj2 Hs).
Defined.
