(* ===== verification/AdapterTotal.v ===== *)
(** * Resolution does not panic

    On specs their codecs admit and sizes that fit, [resolve] returns: an adapter, or
    the error that says why not.  The bounds are on what the arithmetic of the sources
    does not check: the number of elements of a space, the bytes of a frame and the
    oldest offset of a window. *)

From S2P Require Import Prelude BTree Float FloatOps DType Scalar Tensor Types AdapterValue AdapterGeometry AdapterPlans AdapterImage AdapterImageSpec AdapterApply AdapterApplySpec AdapterHistory AdapterHistorySpec AdapterSpec AdapterJoin AdapterResolve AdapterResolveSpec AdapterResolved.
#[local] Open Scope Z_scope.
#[local] Open Scope planned_scope.

(** ** Sizes *)

(** The largest side of an image: three such sides of 8-byte samples fit [u64]. *)
Definition MAX_SIDE : Z := 2 ^ 20.

Definition side_ok (d : Z) : Prop := 0 <= d <= MAX_SIDE.

(** Every view of the tree has a number of elements that fits, and small sides. *)
Fixpoint view_ok (v : SpaceView) : Prop :=
  let 'mkView _ shape _ _ _ _ children := v in
  is_Some (usize_product 1 (Z.max 0 <$> shape)) /\ Forall (fun d => d <= MAX_SIDE) shape /\
  foldr (fun child acc => view_ok child /\ acc) True children.

Lemma view_ok_children v child : view_ok v -> child ∈ sv_children v -> view_ok child.
Proof.
  destruct v as [kind shape dtype low high keys children]. cbn. intros (_ & _ & Hc).
  induction children as [|c children IH]; [by intros ?%elem_of_nil|]. cbn in Hc.
  intros [->|Hin]%elem_of_cons; [apply Hc|]. apply IH; [apply Hc|done].
Qed.

Lemma view_ok_width v : view_ok v -> is_Some (width_of v).
Proof.
  destruct v as [kind shape dtype low high keys children]. cbn. intros ([n Hn] & _ & _).
  unfold width_of, view_numel. cbn. rewrite Hn. by eexists.
Qed.

Lemma view_ok_side v i : view_ok v -> side_ok (pixel_dim (sv_shape v) i).
Proof.
  destruct v as [kind shape dtype low high keys children]. cbn. intros (_ & Hs & _).
  assert (side_ok 0) as H0 by done.
  unfold pixel_dim. destruct (shape !! i) as [d|] eqn:Hd; [|done].
  eapply Forall_lookup_1 in Hs; [|exact Hd]. destruct (Z.leb_spec 0 d); [|done].
  by destruct (d <=? u32_max).
Qed.

Lemma keyed_child_elem {A} key keys (children : list A) child :
  keyed_child key keys children = Some child -> child ∈ children.
Proof.
  revert children; induction keys as [|k keys IH]; intros [|c children]; try done. cbn.
  destruct (String.eqb k key); [intros [= ->]; by left|]. intros H. right. by eapply IH.
Qed.

(** ** The join *)

Definition feature_ok (f : EnvFeature) : Prop :=
  match f with
  | FImage i => side_ok (ei_height i) /\ side_ok (ei_width i) /\ side_ok (ei_channels i)
  | _ => True
  end.

(** The join does not panic, and its images have small sides. *)
Definition joins {A} (features : A -> list EnvFeature) (r : option (result A JoinError)) : Prop :=
  match r with
  | None => False
  | Some (Err _) => True
  | Some (Ok a) => Forall feature_ok (features a)
  end.

Lemma split_fields_ok source leaf fields : forall seen offset out,
  split_fields source leaf fields seen offset = Ok out -> Forall feature_ok out.
Proof.
  induction fields as [|f fields IH]; intros seen offset out; cbn [split_fields].
  { intros [= <-]. constructor. }
  destruct (fd_role f) as [role|]; [|by apply IH].
  destruct (check_native _ _ _); [|done]. destruct (check_roles _ _ _); [|done].
  destruct (existsb _ seen); [done|]. destruct (reconcile_range _ _ _); [|done].
  destruct (split_fields _ _ _ _ _) as [rest|] eqn:Hr; [|done]. intros [= <-].
  constructor; [done|]. by eapply IH.
Qed.

Lemma join_feature_ok source tag leaf :
  view_ok leaf -> joins id (join_feature source tag leaf).
Proof.
  intros Hv. destruct (view_ok_width _ Hv) as [width Hw].
  destruct tag as [image|state|layout|text|kind role]; cbn [join_feature].
  - unfold join_image. destruct (_ || _); [done|].
    destruct (check_role_identity _ _); [|done]. destruct (check_observation_role _ _); [|done].
    destruct (image_hwc _ _) as [[h w] c] eqn:Hi. rewrite Hw. cbn.
    constructor; [|constructor]. cbn. unfold image_hwc in Hi.
    destruct (it_layout image); injection Hi as <- <- <-; split_and!; by apply view_ok_side.
  - unfold join_state. destruct (negb _); [done|]. rewrite Hw. cbn.
    destruct (check_native _ _ _); [|done]. destruct (check_roles _ _ _); [|done].
    destruct (check_state_labels _ _ _); [|done]. destruct (reconcile_range _ _ _); [|done].
    by repeat constructor.
  - unfold join_split. destruct (negb _); [done|]. rewrite Hw. cbn.
    destruct (sum_u32 0 _); [|done]. cbn. destruct (decide _); [done|].
    destruct (split_fields _ _ _ _ _) eqn:Hs; [|done]. cbn. by eapply split_fields_ok.
  - unfold join_text. destruct (decide _); [done|]. destruct (check_role_identity _ _); [|done].
    destruct (check_observation_role _ _); [|done]. by repeat constructor.
  - constructor.
Qed.

Section ObsInd.
Context (P : ObsNode -> Prop).
Context (Hleaf : forall leaf, P (ONLeaf leaf)).
Context (Hdict : forall m, Forall (fun kv => P kv.2) m -> P (ONDict m)).
Context (Htuple : forall l, Forall P l -> P (ONTuple l)).

Fixpoint ObsNode_nested_ind (n : ObsNode) : P n :=
  match n with
  | ONLeaf leaf => Hleaf leaf
  | ONDict m => Hdict m
      ((fix entries (m : list (string * ObsNode)) : Forall (fun kv => P kv.2) m :=
          match m with
          | [] => Forall_nil_2 _
          | kv :: m => Forall_cons_2 (fun kv => P kv.2) kv m (ObsNode_nested_ind kv.2) (entries m)
          end) m)
  | ONTuple l => Htuple l
      ((fix each (l : list ObsNode) : Forall P l :=
          match l with
          | [] => Forall_nil_2 P
          | n :: l => Forall_cons_2 P n l (ObsNode_nested_ind n) (each l)
          end) l)
  end.
End ObsInd.

(** A child, then the rest. *)
Lemma joins_cons (here rest : option (result (list EnvFeature * list UnknownFeature) JoinError)) :
  joins fst here -> joins fst rest ->
  joins fst (let!? h := here in let!? r := rest in Some (Ok (h.1 ++ r.1, h.2 ++ r.2))).
Proof.
  unfold joins. destruct here as [[h|]|], rest as [[r|]|]; try done. cbn. intros Hh Hr.
  by apply Forall_app.
Qed.

Lemma join_node_ok node : forall view source,
  view_ok view -> joins fst (join_node node view source).
Proof.
  induction node as [leaf|m IH|l IH] using ObsNode_nested_ind; intros view source Hv;
    cbn [join_node].
  - pose proof (join_feature_ok source leaf view Hv) as Hj.
    destruct leaf; try (by destruct (join_feature source _ view) as [[f|]|]). constructor.
  - destruct (decide _); [done|]. induction IH as [|[key child] m Hc _ IHm]; [constructor|].
    destruct (view_child view key) as [child_view|] eqn:Hk; [|done].
    apply joins_cons; [|exact IHm]. apply Hc. eapply view_ok_children; [exact Hv|].
    unfold view_child in Hk. destruct (decide _); [done|]. by eapply keyed_child_elem.
  - destruct (decide _); [done|]. destruct (decide _) as [|Hlen]; [done|]. apply dec_stable in Hlen.
    assert (0 + length l = length (sv_children view))%nat as Hl by done. clear Hlen. revert Hl.
    generalize 0%nat. induction IH as [|item l Hn _ IHl]; intros i Hl; [constructor|].
    destruct (lookup_lt_is_Some_2 (sv_children view) i) as [child_view Hc]; [cbn in Hl; lia|].
    rewrite Hc. apply joins_cons; [|apply IHl; cbn in Hl; lia]. apply Hn.
    eapply view_ok_children; [exact Hv|]. by eapply list_elem_of_lookup_2.
Qed.

Lemma join_ok tags obs_space action_space :
  view_ok obs_space -> view_ok action_space ->
  joins ef_observation (join tags obs_space action_space).
Proof.
  intros Ho Ha. unfold join. pose proof (join_node_ok (et_observation tags) _ path_root Ho) as Hj.
  destruct (join_node _ _ _) as [[joined|]|]; try done.
  unfold resolve_action. destruct (decide _); [done|].
  destruct (view_ok_width _ Ha) as [width ->]. cbn. destruct (sum_u32 0 _); [|done]. cbn.
  destruct (decide _); [done|]. by destruct (join_components _ _ _).
Qed.

(** ** State inputs *)

Notation total m := (planned m (fun _ => True)).

Lemma planned_total {A} (m : Planned A) (P : A -> Prop) : total m -> yields m P -> planned m P.
Proof. by destruct m as [[[a l]|e]|]. Qed.

Lemma total_of {A} (m : Planned A) (P : A -> Prop) : planned m P -> total m.
Proof. by destruct m as [[[a l]|e]|]. Qed.

Lemma label_gather_total role env model at_arg offerer :
  total (label_gather role env model at_arg offerer).
Proof.
  unfold label_gather. destruct model as [m|]; [|done]. destruct env as [e|]; [|done].
  destruct (label_permutation_spec m e) as (r & -> & _). by destruct r.
Qed.

Lemma check_provenance_total role env model : total (check_provenance role env model).
Proof. unfold check_provenance. repeat (plan; try done). Qed.

#[local] Hint Resolve label_gather_total check_provenance_total check_geometry_total : total.

(** A bound step by its own lemma, any other by its rule. *)
Ltac totals :=
  repeat first
    [ progress intros
    | exact I
    | eapply planned_impl; [solve [eauto with total]|]
    | plan ].

Lemma bound_piece_total component role at_arg env part :
  total (bound_piece component role at_arg env part).
Proof. unfold bound_piece. totals. Qed.

Lemma previous_action_piece_total model component role at_arg o :
  outputs_ok model o -> total (previous_action_piece component role at_arg o).
Proof.
  intros Ho. unfold previous_action_piece. plan. eapply planned_impl; [apply bind_leaf_spec|].
  intros [b|] Hb; [|done]. destruct (Hb b eq_refl) as ([key [start c]] & (Hin & _) & Hf & _).
  cbn [snd] in Hf. rewrite <- Hf. totals; try done.
  all: exists (start + act_dim c)%nat; split; [by eapply outputs_stop|totals].
Qed.

Lemma constant_part_sized c : part_try_from c = Ok c -> cc_role c = None -> is_Some (cc_dim c).
Proof.
  unfold part_try_from. intros Hc Hr. rewrite Hr in Hc. revert Hc.
  destruct (_ && _); [done|]. destruct (negb _); [done|].
  destruct (if decide (cc_source c = FromAction) then _ else _); [|done].
  destruct (one_form "scale" _ _ _); [|done]. destruct (one_form "offset" _ _ _); [|done].
  destruct (check_part_labels _ _); [|done]. unfold check_constant_part.
  by destruct (cc_dim c).
Qed.

Lemma plan_piece_total model placement states o unknown c :
  outputs_ok model o -> part_try_from c = Ok c ->
  total (plan_piece placement states o unknown c).
Proof.
  intros Ho Hc. unfold plan_piece. destruct (cc_role c) as [role|] eqn:Hr.
  - destruct (decide _); [by eapply previous_action_piece_total|]. plan; [done|]. plan.
    eapply planned_impl; [apply bind_leaf_spec|]. intros [b|] _; [apply bound_piece_total|]. totals.
  - destruct (constant_part_sized c Hc Hr) as [dim ->]. by plan.
Qed.

Lemma plan_state_total model input placement states o unknown :
  outputs_ok model o -> Forall (fun c => part_try_from c = Ok c) (sta_components input) ->
  total (plan_state input placement states o unknown).
Proof.
  intros Ho Hc. unfold plan_state. plan. plan; [|done]. plan. plan.
  eapply planned_impl; [|by intros; plan].
  apply (planned_each _ _ _ (fun _ _ => True)). intros c Hin.
  eapply plan_piece_total; [exact Ho|]. by eapply Forall_forall in Hc.
Qed.

(** ** Image inputs *)

Lemma crop_cut_side side fraction : side_ok side ->
  exists cut, crop_cut_u32 side fraction = Some cut /\ side_ok cut.
Proof.
  intros Hs. unfold crop_cut_u32, crop_cut, int_clamp, side_ok, MAX_SIDE in *.
  rewrite (proj2 (Z.leb_le 1 (Z.max side 1))) by lia. eexists. split; [done|].
  generalize (f64_as_int 0 usize_max (f64_round (f64_mul (f64_of_Z side) fraction))). intros z.
  rewrite wrap_u_id; lia.
Qed.

Definition sides_ok (size : option (Z * Z)) : Prop :=
  forall h w, size = Some (h, w) -> side_ok h /\ side_ok w.

Definition camera_ok (i : EnvImage) : Prop := feature_ok (FImage i).

Lemma crop_box_total i fraction : camera_ok i ->
  exists box, crop_box i fraction = Some box /\ sides_ok (Some box).
Proof.
  intros (Hh & Hw & _). unfold crop_box.
  destruct (crop_cut_side _ fraction Hh) as (h & -> & Ch), (crop_cut_side _ fraction Hw) as (w & -> & Cw).
  eexists. split; [done|]. by intros ? ? [= <- <-].
Qed.

Lemma crop_plan_total input at_arg i : camera_ok i ->
  planned (crop_plan input at_arg i) (fun crop => sides_ok (crop ≫= crop_cut_dims)).
Proof.
  intros Hi. unfold crop_plan. plan; [done|].
  destruct (match im_crop input with Some _ => _ | None => _ end) as [fraction|]; [|by plan].
  plan. plan; [|by plan; plan]. plan. plan.
  destruct (crop_box_total i fraction Hi) as (box & Hb & Hs). exists box. split; [done|].
  plan. by plan.
Qed.

Lemma resolve_fit_total input at_arg i size crop : camera_ok i ->
  total (resolve_fit input at_arg i size crop).
Proof.
  intros Hi. unfold resolve_fit. destruct size as [[th tw]|]; [|done]. plan.
  assert (forall P : Z * Z -> Prop, (forall box, P box) ->
    planned match crop with
            | Some crop => may_panic (crop_box i (crop_fraction crop))
            | None => done_with (ei_height i, ei_width i)
            end P) as Hsrc.
  { intros P HP. destruct crop as [c|]; [|by apply HP]. plan.
    destruct (crop_box_total i (crop_fraction c) Hi) as (box & -> & _). by exists box. }
  apply Hsrc. intros [h w]. totals.
Qed.

(** The offsets of a window are [i32]s, short of the two lowest. *)
Definition offsets_ok (input : Image) : Prop :=
  forall offsets, im_offsets input = Some offsets -> Forall (fun o => i32_min + 1 < o <= i32_max) offsets.

Lemma stack_window_total input at_arg : offsets_ok input -> total (stack_window input at_arg).
Proof.
  intros Ho. unfold stack_window. plan. plan; [done|]. plan.
  destruct (im_offsets input) as [[|oldest rest]|] eqn:Hi; [done| |done].
  plan; [done|]. plan; [done|]. plan. plan. exists (1 - oldest).
  specialize (Ho _ Hi) as [Hold _]%Forall_cons.
  split; [apply checked_in; unfold_ints; lia|]. totals.
Qed.

Lemma frame_bytes_total dtype size channels :
  sides_ok size -> (forall c, channels = Some c -> side_ok c) ->
  is_Some (frame_bytes dtype size channels).
Proof.
  intros Hs Hc. unfold frame_bytes. destruct size as [[h w]|]; [|by eexists].
  destruct channels as [c|]; [|by eexists]. destruct (dtype_from_name dtype) as [d|]; [|by eexists].
  destruct (Hs _ _ eq_refl) as [Hh Hw]. specialize (Hc _ eq_refl). unfold side_ok, MAX_SIDE in *.
  assert (h * w <= 2 ^ 40) by nia. assert (0 <= h * w) by nia.
  assert (0 <= h * w * c <= 2 ^ 60) by nia.
  assert (0 <= Z.of_nat (dtype_size d) <= 8) by (destruct d; cbn; lia).
  assert (0 <= h * w * c * Z.of_nat (dtype_size d) <= 2 ^ 63) by nia.
  rewrite checked_in by (unfold_ints; lia). cbn. rewrite checked_in by (unfold_ints; lia). cbn.
  rewrite checked_in by (unfold_ints; lia). by eexists.
Qed.

(** What the arithmetic of an image input needs of its declaration. *)
Record image_ok (input : Image) : Prop := {
  iok_height : forall h, im_height input = Some h -> side_ok h;
  iok_width : forall w, im_width input = Some w -> side_ok w;
  iok_channels : forall c, im_channels input = Some c -> side_ok c;
  iok_offsets : offsets_ok input;
}.

Lemma camera_plan_total input placement i part rebound :
  image_ok input -> camera_ok i -> total (camera_plan input placement i part rebound).
Proof.
  intros [Hh Hw Hc Ho] Hi. pose proof Hi as (Ih & Iw & Ic). unfold camera_plan.
  plan. plan. intros _ _. plan. plan. intros _ _.
  plan. eapply planned_impl; [by apply crop_plan_total|]. intros crop Hcrop.
  plan. eapply planned_impl; [by apply resolve_fit_total|]. intros fit _.
  plan. eapply planned_impl; [by apply stack_window_total|]. intros offsets _.
  plan. plan. destruct (frame_bytes_total (im_dtype input)
    (processed_size i (target_size input i) crop) (planned_channels input i)) as [bytes Hb].
  - unfold processed_size, target_size. intros h w.
    destruct (im_height input) as [h'|] eqn:?, (im_width input) as [w'|] eqn:?;
      try (intros [= <- <-]; by auto).
    destruct (crop ≫= crop_cut_dims) as [cut|] eqn:Hcut; [intros [= ->]; by apply Hcrop|].
    destruct (known_size i); [|done]. by intros [= <- <-].
  - unfold planned_channels. intros c. destruct (_ =? 0); [done|]. intros [= <-].
    destruct (im_channels input) as [c'|] eqn:?; cbn; auto.
  - exists bytes. split; [done|]. by plan.
Qed.

Lemma zero_fill_total input placement : image_ok input -> total (zero_fill_image_plan input placement).
Proof.
  intros [Hh Hw Hc Ho]. unfold zero_fill_image_plan. plan.
  eapply planned_impl; [by apply stack_window_total|]. intros offsets _.
  destruct (im_height input) as [h|]; [|done]. destruct (im_width input) as [w|]; [|done].
  destruct (im_channels input) as [c|]; [|done]. plan. plan.
  destruct (frame_bytes_total (im_dtype input) (Some (h, w)) (Some c)) as [bytes Hb].
  - intros ? ? [= <- <-]. auto.
  - intros ? [= <-]. auto.
  - exists bytes. split; [done|]. by plan.
Qed.

Lemma plan_image_total input placement images unknown :
  image_ok input -> Forall (fun kv => camera_ok kv.2) images ->
  total (plan_image input placement images unknown).
Proof.
  intros Hin Him. unfold plan_image. plan. plan; [done|]. plan. plan.
  eapply planned_impl; [apply bind_leaf_spec|]. intros [b|] Hb.
  - destruct (Hb b eq_refl) as (kv & (Hkv & _) & <- & _). apply camera_plan_total; [done|].
    by eapply Forall_forall in Him.
  - plan. plan. intros _ _. destruct (sole images) as [[[[r part] prov] only]|] eqn:Hs.
    + apply sole_Some in Hs as ->. apply Forall_cons in Him as [Him _]. cbn [snd] in Him.
      plan; [by apply camera_plan_total|].
      plan; [by apply zero_fill_total|done].
    + plan; [by apply zero_fill_total|done].
Qed.

(** ** The whole *)

(** What a codec admits of a leaf, and the sizes of an image. *)
Definition leaf_ok (leaf : ModelLeaf) : Prop :=
  match leaf with
  | MImage input => image_ok input
  | MState input => Forall (fun c => part_try_from c = Ok c) (sta_components input)
  | _ => True
  end.

Lemma offered_cameras env offered :
  Forall feature_ok (ef_observation env) -> offered_by env = Ok offered ->
  Forall (fun kv => camera_ok kv.2) (of_images offered).
Proof.
  unfold offered_by. intros Hf.
  destruct (index_by_key _ "env image") as [images|] eqn:Hi; [|done].
  destruct (index_by_key _ "env state"); [|done]. destruct (index_by_role _ "env text"); [|done].
  intros [= <-]. cbn. apply Forall_forall. intros kv Hkv.
  eapply index_by_key_elem in Hkv; [|exact Hi].
  apply list_elem_of_omap in Hkv as (f & Hin & Hf'). destruct f as [i| |]; try done.
  injection Hf' as <-. exact (proj1 (Forall_forall _ _) Hf _ Hin).
Qed.

Lemma plan_leaf_total model offered o trust leaf placement :
  outputs_ok model o -> Forall (fun kv => camera_ok kv.2) (of_images offered) -> leaf_ok leaf ->
  total (plan_leaf offered o trust (leaf, placement)).
Proof.
  intros Ho Hi Hl. destruct leaf as [input|input|input|input|kind]; cbn [plan_leaf]; [plan..|done].
  - eapply planned_impl; [by apply plan_image_total|]. intros; by plan.
  - eapply planned_impl; [by eapply plan_state_total|]. intros; by plan.
  - plan. intros; by plan.
  - plan. intros; by plan.
Qed.

Lemma stacked_placements_total plans : forall k,
  Forall (fun plan => match plan with OImage p => offsets_law p | _ => True end) plans ->
  is_Some (stacked_placements k plans).
Proof.
  induction plans as [|plan plans IH]; intros k; [by eexists|].
  intros [Hp Hps]%Forall_cons. cbn [stacked_placements]. destruct (IH (S k) Hps) as [rest ->].
  assert (is_Some (stacked_placement k plan)) as [here ->]; [|by eexists].
  destruct plan as [p| | |]; cbn; [|by eexists..]. destruct (1 <? ip_stack p); [|by eexists].
  unfold image_span, offsets_law in *. destruct (ip_offsets p) as [[|oldest rest']|]; [by eexists| |by eexists].
  rewrite checked_in by (unfold_ints; lia). by eexists.
Qed.

Lemma plans_law placed plan : plan_for placed plan ->
  match plan with OImage p => offsets_law p | _ => True end.
Proof.
  destruct placed as [[input| | | |] placement], plan as [p| | |]; intros [_ H]; try done.
  destruct H as (_ & _ & _ & Hw). by apply window_ok_law.
Qed.

Lemma plans_total model env offered o trust spec :
  outputs_ok model o -> Forall feature_ok (ef_observation env) -> offered_by env = Ok offered ->
  Forall (fun placed => leaf_ok placed.1) (collect_leaves (ms_input spec) path_root) ->
  planned (plan_each (plan_leaf offered o trust) (collect_leaves (ms_input spec) path_root))
    (Forall2 plan_for (collect_leaves (ms_input spec) path_root)).
Proof.
  intros Ho Hf Hoff Hl. apply planned_each. intros [leaf placement] Hin.
  apply planned_total; [|apply plan_leaf_yields].
  eapply plan_leaf_total; [exact Ho|by eapply offered_cameras|].
  exact (proj1 (Forall_forall _ _) Hl _ Hin).
Qed.

(** C30: Resolution returns.  Between tags and a model whose declarations their codecs
    admit, over spaces whose element counts fit and image sides of at most 2^20, with
    no window offset at the bottom of [i32], [resolve] does not panic: it produces an
    adapter or the error that says what does not fit. *)
Theorem resolve_total (render : message -> string) (tags : EnvTags)
    (obs_space action_space : SpaceView) (spec : ModelSpec) (trust : bool) :
  action_try_from (et_action tags) = Ok (et_action tags) ->
  action_try_from (ms_output spec) = Ok (ms_output spec) ->
  Forall (fun placed => leaf_ok placed.1) (collect_leaves (ms_input spec) path_root) ->
  view_ok obs_space -> view_ok action_space ->
  exists r, resolve render tags obs_space action_space spec trust = Some r.
Proof.
  intros Het Hms Hl Hos Has. unfold resolve.
  destruct (reject_bare_fields_env tags) as [[]|]; [|by eexists]. cbn [map_err].
  destruct (reject_bare_fields_model spec) as [[]|]; [|by eexists]. cbn [map_err].
  destruct (check_model_roles spec) as [[]|]; [|by eexists].
  destruct (index_outputs (ms_output spec)) as [o|] eqn:Ho; [|by eexists].
  apply index_outputs_spec in Ho. pose proof (join_ok tags _ _ Hos Has) as Hj.
  destruct (join tags obs_space action_space) as [[env|]|] eqn:Hjoin; [|by eexists|done].
  cbn [map_err]. cbn in Hj. unfold resolve_features.
  destruct (offered_by env) as [offered|] eqn:Hoff; [|by eexists].
  pose proof (plans_total _ _ _ _ trust _ Ho Hj Hoff Hl) as Hplans.
  destruct (plan_each _ _) as [[[plans pushed]|]|]; [|by eexists|done]. cbn in Hplans.
  apply join_action, resolve_action_spec in Hjoin as (_ & Hcs & _).
  pose proof (plan_action_spec _ (ef_action env) _ Ho
    (fun c => joined_labels _ _ _ c Het Hcs) (fun c => action_labels_fit _ _ c Hms)) as Hact.
  destruct (plan_action _ _ _) as [[[act more]|]|]; [|by eexists|done].
  unfold adapter_new. destruct (stacked_placements_total plans 0) as [stacked ->]; [|by eexists].
  apply Forall_forall. intros plan Hin. apply list_elem_of_lookup in Hin as [i Hi].
  eapply Forall2_lookup_r in Hplans as (placed & _ & Hfor); [|exact Hi]. by eapply plans_law.
Qed.

Lemma sample_leaves_ok :
  Forall (fun placed => leaf_ok placed.1) (collect_leaves (ms_input sample_model) path_root).
Proof.
  constructor; [|constructor; [|constructor]]; cbn.
  - split; cbn; [by intros ? [= <-]..|]. intros offsets [= <-].
    repeat constructor; unfold_ints; lia.
  - constructor; [|constructor]. by vm_compute.
Qed.

Lemma sample_views_ok : view_ok sample_obs_space /\ view_ok sample_action_space.
Proof. cbn. split_and!; try (by eexists); repeat constructor; done. Qed.

Lemma resolve_total_witness : exists r, sample_resolve = Some r.
Proof.
  apply (resolve_total (fun _ => EmptyString) sample_tags sample_obs_space sample_action_space
           sample_model false).
  - vm_compute. reflexivity.
  - vm_compute. reflexivity.
  - exact sample_leaves_ok.
  - exact (proj1 sample_views_ok).
  - exact (proj2 sample_views_ok).
Defined.
