(* ===== verification/FacadeError.v ===== *)
(** * Errors of the facade

    [rlmesh/src/error.rs], with the attachment of host exceptions of [binding.rs]: the
    error type of every facade call, its class in the cross-language hierarchy, what is
    recoverable and what is worth retrying, and how the errors of the layers below are
    mapped onto it.  A text is a [message]; comparing two texts needs the rendering,
    a parameter. *)

From stdpp Require Import strings.
From S2P Require Import Prelude WireSpaces EnvServer AdapterValue.
#[local] Open Scope string_scope.
#[local] Open Scope Z_scope.

(** ** Codes and details *)

Inductive ModelErrorCode : Type :=
| MUnspecified | MInvalidRequest | MNotConfigured | MBusy | MUnsupported | MInternal | MCancelled
| MClosed.

(** The wire's codes and the facade's have the same names. *)
Record EnvironmentError : Type := {
  ee_code : EnvErrorCode;
  ee_message : message;
  ee_is_recoverable : bool;
}.

Record ModelError : Type := {
  me_code : ModelErrorCode;
  me_message : message;
  me_is_recoverable : bool;
}.

(** [adapter_resolution] carries no data of its own. *)
Record InvalidArgumentError : Type := {
  ia_message : message;
  ia_adapter_resolution : bool;
}.

Definition model_error_code_str (c : ModelErrorCode) : string :=
  match c with
  | MUnspecified => "UNSPECIFIED" | MInvalidRequest => "INVALID_REQUEST"
  | MNotConfigured => "NOT_CONFIGURED" | MBusy => "BUSY" | MUnsupported => "UNSUPPORTED"
  | MInternal => "INTERNAL" | MCancelled => "CANCELLED" | MClosed => "CLOSED"
  end.

Definition env_error_code_str (c : EnvErrorCode) : string :=
  match c with
  | CUnspecified => "UNSPECIFIED" | CTimeout => "TIMEOUT" | CInvalidAction => "INVALID_ACTION"
  | CNotReady => "NOT_READY" | CBusy => "BUSY" | CUnsupported => "UNSUPPORTED"
  | CInternal => "INTERNAL" | CCrashed => "CRASHED" | CCancelled => "CANCELLED"
  | CClosed => "CLOSED"
  end.

(** ** Classes *)

Inductive ErrorClass : Type :=
| RLMeshException | ProtocolException | EnvironmentException | RecoverableEnvironmentException
| ModelException | ValueError | AdapterResolutionClass | TypeError | RuntimeErrorClass | OSError
| ConnectionError | TimeoutError | KeyboardInterrupt.

#[export] Instance ErrorClass_eq_dec : EqDecision ErrorClass.
Proof. solve_decision. Defined.

Definition ErrorClass_ALL : list ErrorClass :=
  [RLMeshException; ProtocolException; EnvironmentException; RecoverableEnvironmentException;
   ModelException; ValueError; AdapterResolutionClass; TypeError; RuntimeErrorClass; OSError;
   ConnectionError; TimeoutError; KeyboardInterrupt].

Definition class_name (c : ErrorClass) : string :=
  match c with
  | RLMeshException => "RLMeshException" | ProtocolException => "ProtocolException"
  | EnvironmentException => "EnvironmentException"
  | RecoverableEnvironmentException => "RecoverableEnvironmentException"
  | ModelException => "ModelException" | ValueError => "ValueError"
  | AdapterResolutionClass => "AdapterResolutionError" | TypeError => "TypeError"
  | RuntimeErrorClass => "RuntimeError" | OSError => "OSError"
  | ConnectionError => "ConnectionError" | TimeoutError => "TimeoutError"
  | KeyboardInterrupt => "KeyboardInterrupt"
  end.

Definition class_base (c : ErrorClass) : option ErrorClass :=
  match c with
  | RLMeshException => Some RuntimeErrorClass
  | ProtocolException | EnvironmentException | ModelException => Some RLMeshException
  | RecoverableEnvironmentException => Some EnvironmentException
  | AdapterResolutionClass => Some ValueError
  | ConnectionError | TimeoutError => Some OSError
  | ValueError | TypeError | RuntimeErrorClass | OSError | KeyboardInterrupt => None
  end.

(** The number of classes above one, by which the walk to the root ends. *)
Definition class_depth (c : ErrorClass) : nat :=
  match c with
  | RecoverableEnvironmentException => 3
  | ProtocolException | EnvironmentException | ModelException => 2
  | RLMeshException | AdapterResolutionClass | ConnectionError | TimeoutError => 1
  | _ => 0
  end.

Fixpoint subclass_walk (fuel : nat) (class : option ErrorClass) (base : ErrorClass) : bool :=
  match fuel, class with
  | S fuel, Some current =>
      if decide (current = base) then true else subclass_walk fuel (class_base current) base
  | _, _ => false
  end.

Definition is_subclass_of (c base : ErrorClass) : bool :=
  subclass_walk (S (class_depth c)) (Some c) base.

(** ** The error type *)

(** A host exception is attached by its identity, with the text the host authored. *)
Inductive Error : Type :=
| Internal (m : message)
| Protocol (m : message)
| Environment (e : EnvironmentError)
| Model (e : ModelError)
| InvalidArgument (e : InvalidArgumentError)
| Type_ (m : message)
| Runtime (m : message)
| Os (m : message)
| Connection (m : message)
| Timeout (nanos : Z)
| Cancelled
| Attached (e : Error) (payload : Z) (authored : option message).

Definition error_model (m : message) : Error :=
  Model {| me_code := MInternal; me_message := m; me_is_recoverable := false |}.
Definition error_model_recoverable (m : message) : Error :=
  Model {| me_code := MInternal; me_message := m; me_is_recoverable := true |}.
Definition error_environment (m : message) : Error :=
  Environment {| ee_code := CInternal; ee_message := m; ee_is_recoverable := false |}.
Definition error_environment_recoverable (m : message) : Error :=
  Environment {| ee_code := CInternal; ee_message := m; ee_is_recoverable := true |}.
Definition invalid_argument (m : message) : Error :=
  InvalidArgument {| ia_message := m; ia_adapter_resolution := false |}.
Definition error_adapter_resolution (m : message) : Error :=
  InvalidArgument {| ia_message := m; ia_adapter_resolution := true |}.
Definition invalid_address (m : message) : Error :=
  invalid_argument (Msg "invalid address: {message}" [nested m]).
Definition error_server (m : message) : Error := Internal (Msg "server error: {message}" [nested m]).

Fixpoint error_class (e : Error) : ErrorClass :=
  match e with
  | Internal _ => RLMeshException
  | Protocol _ => ProtocolException
  | Environment e => if ee_is_recoverable e then RecoverableEnvironmentException else EnvironmentException
  | Model _ => ModelException
  | InvalidArgument e => if ia_adapter_resolution e then AdapterResolutionClass else ValueError
  | Type_ _ => TypeError
  | Runtime _ => RuntimeErrorClass
  | Os _ => OSError
  | Connection _ => ConnectionError
  | Timeout _ => TimeoutError
  | Cancelled => KeyboardInterrupt
  | Attached e _ _ => error_class e
  end.

Fixpoint error_is_recoverable (e : Error) : bool :=
  match e with
  | Attached e _ _ => error_is_recoverable e
  | Environment e => ee_is_recoverable e
  | Model e => me_is_recoverable e
  | _ => false
  end.

Fixpoint is_transient (e : Error) : bool :=
  match e with
  | Attached e _ _ => is_transient e
  | Connection _ | Timeout _ => true
  | e => error_is_recoverable e
  end.

(** The text of an error. *)
Fixpoint error_message (e : Error) : message :=
  match e with
  | Attached e _ authored => default (error_message e) authored
  | Internal m | Protocol m | Type_ m | Runtime m | Os m | Connection m => m
  | Environment e => Msg "[{}] {}" [AStr (env_error_code_str (ee_code e)); nested (ee_message e)]
  | Model e => Msg "[{}] {}" [AStr (model_error_code_str (me_code e)); nested (me_message e)]
  | InvalidArgument e => ia_message e
  | Timeout nanos => Msg "operation timed out after {duration:?}" [AZ nanos]
  | Cancelled => lit "cancelled"
  end.

(** [AttachedError::attach] and [with_message]; the payload of the latter is the unit. *)
Definition attach (e : Error) (payload : Z) : Error :=
  match e with
  | Attached e _ authored => Attached e payload authored
  | e => Attached e payload None
  end.

Definition with_message (e : Error) (unit_payload : Z) (m : message) : Error :=
  match e with
  | Attached e payload _ => Attached e payload (Some m)
  | e => Attached e unit_payload (Some m)
  end.

(** ** Errors of the layers below *)

(** [tonic::Code], of which the mapping tells two apart. *)
Inductive GrpcCode : Type :=
| GUnauthenticated | GDeadlineExceeded | GUnavailable | GResourceExhausted | GAborted | GCancelled
| GOther (name : string).

Definition grpc_code_name (c : GrpcCode) : string :=
  match c with
  | GUnauthenticated => "Unauthenticated" | GDeadlineExceeded => "DeadlineExceeded"
  | GUnavailable => "Unavailable" | GResourceExhausted => "ResourceExhausted"
  | GAborted => "Aborted" | GCancelled => "Cancelled" | GOther name => name
  end.

Inductive TransportError : Type :=
| Io (m : message)
| ConnectionClosed
| BindFailed (m : message)
| ConnectFailed (m : message)
| InvalidAddress (m : message)
| MessageTooLarge (size max : Z)
| Unavailable (m : message)
| Status (code : GrpcCode) (m : message).

Inductive ClientError : Type :=
| NotConnected
| NotHandshaked
| InvalidToken (problem : string)
| InvalidTlsCaFile (m : message).

Definition client_error_message (e : ClientError) : message :=
  match e with
  | NotConnected => lit "not connected"
  | NotHandshaked => lit "handshake not completed"
  | InvalidToken problem =>
      Msg "the endpoint token cannot be sent in the authorization header: it {0}" [AStr problem]
  | InvalidTlsCaFile m => m
  end.

(** A wire model error has the fields of [ModelError] and debug information. *)
Inductive GrpcError : Type :=
| GTransport (e : TransportError)
| GProtocol (e : ProtocolError)
| GEnvironment (e : EnvError)
| GModel (e : ModelError) (debug_info : option string)
| GTimeout (nanos : Z)
| GCancelledError (m : message)
| GClient (e : ClientError).

Definition grpc_is_recoverable (e : GrpcError) : bool :=
  match e with
  | GTimeout _ => true
  | GEnvironment e => err_is_recoverable e
  | GModel e _ => me_is_recoverable e
  | GTransport (Unavailable _) => true
  | GTransport (Status GDeadlineExceeded _) => true
  | _ => false
  end.

Definition status_to_grpc_error (code : GrpcCode) (m : message) : GrpcError :=
  match code with
  | GUnavailable | GResourceExhausted | GAborted => GTransport (Unavailable m)
  | GCancelled => GCancelledError m
  | code => GTransport (Status code m)
  end.

Definition KEY_REJECTED : string :=
  "the server rejected the API key; pass the key it expects as api_key (or set RLMESH_API_KEY for an https:// address)".

Section Mapping.
(** [ProtocolError::to_string], and an [Error] found behind a host callback's failure. *)
Context (protocol_text : ProtocolError -> message) (downcast : string -> option Error).

Definition from_protocol (e : ProtocolError) : Error := Protocol (protocol_text e).

Definition from_apply (e : ApplyError) : Error :=
  default (invalid_argument (apply_message e)) (apply_source e ≫= downcast).

Definition environment_from_wire (e : EnvError) : EnvironmentError :=
  {| ee_code := err_code e; ee_message := err_message e; ee_is_recoverable := err_is_recoverable e |}.

Definition from_transport (e : TransportError) : Error :=
  match e with
  | InvalidAddress m => invalid_address m
  | BindFailed m => error_server m
  | ConnectFailed m => Connection m
  | ConnectionClosed => Connection (lit "connection closed")
  | Io m => Connection m
  | MessageTooLarge size max => Connection (Msg "message too large: {size} > {max}" [AZ size; AZ max])
  | Unavailable m => Connection m
  | Status GUnauthenticated _ => Connection (lit KEY_REJECTED)
  | Status code m => Connection (Msg "{code:?}: {message}" [AStr (grpc_code_name code); nested m])
  end.

Definition from_grpc (e : GrpcError) : Error :=
  match e with
  | GTransport e => from_transport e
  | GProtocol e => from_protocol e
  | GEnvironment e => Environment (environment_from_wire e)
  | GModel e _ => Model e
  | GTimeout nanos => Timeout nanos
  | GCancelledError m => Connection m
  | GClient (InvalidToken problem) => invalid_argument (client_error_message (InvalidToken problem))
  | GClient (InvalidTlsCaFile m) => invalid_argument m
  | GClient e => Connection (client_error_message e)
  end.
End Mapping.

Definition dial_failure (render : message -> string) (err : Error) (peer address hint : string) : Error :=
  match err with
  | Connection cause =>
      if String.eqb (render cause) KEY_REJECTED then
        Connection (Msg "could not connect to {peer} at '{address}': {cause}"
          [AStr peer; AStr address; nested cause])
      else
        Connection (Msg "could not connect to {peer} at '{address}'; {hint} ({cause})"
          [AStr peer; AStr address; AStr hint; nested cause])
  | other => other
  end.

Definition join_results {T} (a : result T Error) (b : result unit Error) (ctx : string)
    : result T Error :=
  match a, b with
  | Ok value, Ok _ => Ok value
  | Err err, Ok _ => Err err
  | Ok _, Err err => Err err
  | Err a_err, Err b_err =>
      Err (Internal (Msg "{ctx}: {a_err}; close hook failed: {b_err}"
        [AStr ctx; nested (error_message a_err); nested (error_message b_err)]))
  end.

(** ** Lemmas *)

(** The walk finds exactly the classes above. *)
Theorem is_subclass_of_iff (c base : ErrorClass) :
  is_subclass_of c base = true <-> rtc (fun a b => class_base a = Some b) c base.
Proof.
  assert (Hstep : forall a b, class_base a = Some b -> class_depth a = S (class_depth b)).
  { intros a b. by destruct a; intros [= <-]. }
  unfold is_subclass_of. remember (class_depth c) as n eqn:Hn. revert c Hn.
  induction n as [|n IH]; intros c Hn;
    [cbn [subclass_walk]
    |change (subclass_walk (S (S n)) (Some c) base)
       with (if decide (c = base) then true else subclass_walk (S n) (class_base c) base)];
    (case_decide as Hc; [subst; split; [by constructor|done]|]).
  - split; [done|]. intros Hr. inversion Hr as [|? b ? Hb ?]; subst; [done|]. apply Hstep in Hb. lia.
  - destruct (class_base c) as [b|] eqn:Hb.
    + rewrite IH by (apply Hstep in Hb; lia). split; intros Hr; [by eapply rtc_l|].
      inversion Hr as [|? b' ? Hb' Hr']; subst; [done|]. congruence.
    + split; [done|]. intros Hr. inversion Hr as [|? b ? Hb' ?]; subst; [done|]. congruence.
Qed.

(** What a lower layer calls recoverable the facade retries, whatever status it came as. *)
Theorem grpc_recoverable_transient (protocol_text : ProtocolError -> message) (e : GrpcError) :
  grpc_is_recoverable e = true -> is_transient (from_grpc protocol_text e) = true.
Proof.
  destruct e as [[]| | | | | |]; cbn; try done; by repeat case_match.
Qed.

(** A host exception rides along without changing what the error is. *)
Theorem attach_transparent (e : Error) (payload : Z) :
  error_class (attach e payload) = error_class e /\
  error_is_recoverable (attach e payload) = error_is_recoverable e /\
  is_transient (attach e payload) = is_transient e /\
  error_message (attach e payload) = error_message e.
Proof. by destruct e. Qed.

(** An apply failure without a host error behind it is a [ValueError] of the facade, where
    its doc comment promises a model error. *)
Theorem apply_failure_is_value_error (downcast : string -> option Error) (e : ApplyError) :
  apply_source e = None -> error_class (from_apply downcast e) = ValueError.
Proof. intros He. unfold from_apply. by rewrite He. Qed.
