(* ===== verification/Engine.v ===== *)
(** * The model engine

    [rlmesh/src/model/engine.rs], with the request types of [model/types.rs] and the
    seams of [model/handler.rs] and [model/predict_fn.rs]: the handler of a served model
    that assembles each lane's input through its route's adapter, calls the model
    through the most specific corner it has, and turns the answered chunks into the
    frames the runtime replays.

    The model behind the engine, its resolver and its warning handler are the class
    [Host], over a state of their own.  Routes are cells of a store, named by the routes
    map and by the predicts in flight, as the source's [Arc]s; an entry is dropped with
    its last name.  Times and log lines are left out; a panic is [None]. *)

From stdpp Require Import gmap strings.
From S2P Require Import Prelude Utf8 BTree Float FloatOps DType Scalar Tensor Types Leaves WireSpaces AdapterValue AdapterGeometry AdapterPlans AdapterImage AdapterApply AdapterHistory FacadeError.
#[local] Open Scope string_scope.
#[local] Open Scope Z_scope.

(** ** Calls on a state

    A panic, or the state after the call with its result: a failing call keeps the
    changes it made. *)

Definition Run (S A : Type) : Type := S -> option (S * result A Error).

Section Run.
Context {S : Type}.

Definition done {A} (a : A) : Run S A := fun s => Some (s, Ok a).
Definition fails {A} (e : Error) : Run S A := fun s => Some (s, Err e).
(** A step that does not touch the state. *)
Definition pure {A} (r : option (result A Error)) : Run S A := fun s => let! r := r in Some (s, r).
Definition run_bind {A B} (m : Run S A) (k : A -> Run S B) : Run S B := fun s =>
  match m s with
  | None => None
  | Some (s, Err e) => Some (s, Err e)
  | Some (s, Ok a) => k a s
  end.

(** [for] over a list, stopping at the first error. *)
Section ForEach.
Context {A B : Type} (f : nat -> A -> Run S B).

Fixpoint for_each (i : nat) (l : list A) : Run S (list B) :=
  match l with
  | [] => done []
  | x :: l =>
      run_bind (f i x) (fun y => run_bind (for_each (Datatypes.S i) l) (fun ys => done (y :: ys)))
  end.
End ForEach.
End Run.

Declare Scope run_scope.
Notation "'let^' x ':=' m 'in' k" := (run_bind m (fun x => k))
  (at level 10, x pattern, m at level 100, k at level 200,
   format "'[v' 'let^'  x  ':='  m  'in' '/' k ']'") : run_scope.
#[local] Open Scope run_scope.

(** ** Requests *)

Record EpisodeInfo : Type := {
  ei_episode_id : string;
  ei_seed : option Z;
  ei_env_id : string;
}.

Record HistoryFrame : Type := {
  hf_observation : option (list (list byte));
  hf_episodes : list EpisodeInfo;
  hf_step : Z;
}.

Record ModelRouteContext : Type := {
  rt_session_id : string;
  rt_env_id : string;
  rt_request_id : string;
  rt_episodes : list EpisodeInfo;
}.

Record ModelObservation : Type := {
  mo_observation : option (list (list byte));
  mo_route : ModelRouteContext;
  mo_num_envs : nat;
  mo_env_contract : option EnvContract;
  mo_history : list HistoryFrame;
  mo_step : option Z;
}.

(** The episode rows of a request. *)
Definition mo_episodes (o : ModelObservation) : list EpisodeInfo := rt_episodes (mo_route o).

Definition primary_episode_id (r : ModelRouteContext) : string :=
  match rt_episodes r with e :: _ => ei_episode_id e | [] => EmptyString end.

Definition ensure_decodable (o : ModelObservation) : result unit Error :=
  match mo_observation o with
  | None => Err (error_model (lit "observation absent; a predict request must carry an observation"))
  | Some _ =>
      let? contract := ok_or (mo_env_contract o)
        (error_model (lit "observation missing env contract; cannot decode")) in
      match observation_space contract with
      | None => Err (error_model (lit "env contract missing observation space"))
      | Some _ => Ok tt
      end
  end.

(** FNV-1a over the seed, a separator and the ordinal. *)
Definition FNV_OFFSET : Z := 14695981039346656037.
Definition FNV_PRIME : Z := 1099511628211.

Definition seed_update (hash : Z) (bytes : list byte) : Z :=
  fold_left (fun hash b => wrap_u 64 (Z.lxor hash (byte.unsigned b) * FNV_PRIME)) bytes hash.

Definition predict_seed (episode_seed predict_index : Z) : Z :=
  let hash := seed_update FNV_OFFSET (le_split 8 (wrap_u 64 episode_seed)) in
  let hash := seed_update hash [Byte.xfe] in
  let hash := seed_update hash (le_split 8 predict_index) in
  Z.land hash (2 ^ 32 - 1).

Section Decode.
Context `{HalfOps} (alloc : nat -> nat -> Z) (protocol_text : ProtocolError -> message).

Definition decode_rows (o : ModelObservation) (leaves : list (list byte)) (rows : nat)
    : option (result (list SpaceValue) Error) :=
  let!? contract := Some (ok_or (mo_env_contract o)
    (error_model (lit "observation missing env contract; cannot decode"))) in
  let!? space := Some (ok_or (observation_space contract)
    (error_model (lit "env contract missing observation space"))) in
  let! r := decode_batched_partial_values alloc (Some leaves) space rows in
  Some (map_err (fun err => error_model (protocol_text err)) r).

Definition decoded_lanes (o : ModelObservation) : option (result (list SpaceValue) Error) :=
  let!? leaves := Some (ok_or (mo_observation o)
    (error_model (lit "observation absent; cannot decode lanes (check is_some() first)"))) in
  decode_rows o leaves (mo_num_envs o).

Definition decoded_history_lanes (o : ModelObservation) (frame : HistoryFrame)
    : option (result (list SpaceValue) Error) :=
  let!? leaves := Some (ok_or (hf_observation frame)
    (error_model (lit "history frame carries no observation"))) in
  decode_rows o leaves (length (hf_episodes frame)).

Definition decoded (o : ModelObservation) : option (result SpaceValue Error) :=
  let!? lanes := decoded_lanes o in
  match lanes with
  | [lane] => Some (Ok lane)
  | lanes => Some (Err (error_model
      (Msg "decoded() requires a single-env observation, got {} lanes" [ANat (length lanes)])))
  end.
End Decode.

(** ** Routes *)

Record RouteConfig : Type := {
  rc_adapter : ResolvedAdapter;
  rc_observation_space : SpaceSpec;
  rc_action_space : SpaceSpec;
  rc_customs : CustomTransform;
  rc_encodings : EncodingTransform;
  rc_execution_horizon : Z;
  rc_delivers_history : bool;
}.

Definition route_config_new (adapter : ResolvedAdapter) (observation_space action_space : SpaceSpec)
    (customs : CustomTransform) (encodings : EncodingTransform) : RouteConfig :=
  {| rc_adapter := adapter; rc_observation_space := observation_space;
     rc_action_space := action_space; rc_customs := customs; rc_encodings := encodings;
     rc_execution_horizon := 1; rc_delivers_history := false |}.

Record HeldTotals : Type := { ht_episodes : Z; ht_bytes : Z; ht_projected : Z }.

Definition held_zero : HeldTotals := {| ht_episodes := 0; ht_bytes := 0; ht_projected := 0 |}.

Record RouteEntry : Type := {
  re_config : RouteConfig;
  re_buffers : FrameBuffers;
  re_published : HeldTotals;
  re_lane_bytes : Z;
  re_history_limit : Z;
}.

Definition set_buffers (b : FrameBuffers) (e : RouteEntry) : RouteEntry :=
  {| re_config := re_config e; re_buffers := b; re_published := re_published e;
     re_lane_bytes := re_lane_bytes e; re_history_limit := re_history_limit e |}.
Definition set_published (p : HeldTotals) (e : RouteEntry) : RouteEntry :=
  {| re_config := re_config e; re_buffers := re_buffers e; re_published := p;
     re_lane_bytes := re_lane_bytes e; re_history_limit := re_history_limit e |}.

Definition saturating_u64 (z : Z) : Z := saturate 0 u64_max z.

(** [fetch_add] and [fetch_sub] on a cell. *)
Definition fetch_add (cell delta : Z) : Z := wrap_u 64 (cell + delta).
Definition fetch_sub (cell delta : Z) : Z := wrap_u 64 (cell - delta).

(** What the route holds now. *)
Definition held_now (e : RouteEntry) : option HeldTotals :=
  let episodes := Z.of_nat (episodes (re_buffers e)) in
  let! bytes := state_bytes (re_buffers e) in
  Some {| ht_episodes := episodes; ht_bytes := bytes;
          ht_projected := saturating_u64 (episodes * re_lane_bytes e) |}.

Definition publish_held (e : RouteEntry) (total : HeldTotals) : option (RouteEntry * HeldTotals) :=
  let! now := held_now e in
  let last := re_published e in
  Some (set_published now e,
    {| ht_episodes := fetch_add (ht_episodes total) (wrap_u 64 (ht_episodes now - ht_episodes last));
       ht_bytes := fetch_add (ht_bytes total) (wrap_u 64 (ht_bytes now - ht_bytes last));
       ht_projected := fetch_add (ht_projected total) (wrap_u 64 (ht_projected now - ht_projected last)) |}).

(** [Drop for RouteEntry]. *)
Definition drop_share (e : RouteEntry) (total : HeldTotals) : HeldTotals :=
  {| ht_episodes := fetch_sub (ht_episodes total) (ht_episodes (re_published e));
     ht_bytes := fetch_sub (ht_bytes total) (ht_bytes (re_published e));
     ht_projected := fetch_sub (ht_projected total) (ht_projected (re_published e)) |}.

(** ** Budgets and doors *)

Definition lane_window_bytes (windows : list HistoryWindow) : option Z :=
  sum_u64 ((fun w => saturating_u64 (hw_span w * hw_frame_bytes w)) <$> windows).

Definition check_history_budget (num_envs : Z) (windows : list HistoryWindow) (limit : Z)
    : option (result unit Error) :=
  let! per_lane := lane_window_bytes windows in
  let projected := saturating_u64 (per_lane * num_envs) in
  Some (if limit <? projected then
    Err (error_model
      (Msg "frame windows would hold {projected} bytes across {num_envs} lane(s) ({per_lane} per lane), above the {limit}-byte budget: shrink stack/size, or raise RLMESH_FRAME_HISTORY_LIMIT_BYTES"
         [AZ projected; AZ num_envs; AZ per_lane; AZ limit]))
  else Ok tt).

(** The rows whose episodes the route does not hold yet. *)
Definition fresh_rows (b : FrameBuffers) (rows : list EpisodeInfo) : list EpisodeInfo :=
  filter (fun e => ei_episode_id e <> EmptyString /\ holds b (ei_episode_id e) = false) rows.

Definition admit_fresh_lanes (e : RouteEntry) (total : HeldTotals) (rows : list EpisodeInfo)
    : result unit Error :=
  if re_lane_bytes e =? 0 then Ok tt
  else
    let fresh := Z.of_nat (length (fresh_rows (re_buffers e) rows)) in
    if fresh =? 0 then Ok tt
    else
      let others := saturating_u64 (ht_projected total - ht_projected (re_published e)) in
      let route := saturating_u64
        (saturating_u64 (Z.of_nat (episodes (re_buffers e)) + fresh) * re_lane_bytes e) in
      let projected := saturating_u64 (others + route) in
      if re_history_limit e <? projected then
        Err (error_model
          (Msg "frame windows would hold {projected} bytes across this endpoint's live lanes ({fresh} new on this route at {} per lane, {others} projected by other routes), above the {}-byte budget: run fewer lanes or routes per model endpoint, shrink stack/size, or raise RLMESH_FRAME_HISTORY_LIMIT_BYTES"
             [AZ projected; AZ fresh; AZ (re_lane_bytes e); AZ others; AZ (re_history_limit e)]))
      else Ok tt.

(** Which corners the model defines. *)
Record Corners : Type := {
  has_chunk : bool;
  has_batch : bool;
  has_chunk_batch : bool;
  allow_fusion : bool;
  native_chunk : option Z;
}.

Definition check_horizon_doors (execution_horizon : Z) (native_chunk : option Z) (c : Corners)
    : result unit Error :=
  if MAX_EXECUTION_HORIZON <? execution_horizon then
    Err (error_model (Msg "runtime pinned execution_horizon={execution_horizon}, over the {MAX_EXECUTION_HORIZON} bound"
      [AZ execution_horizon; AZ MAX_EXECUTION_HORIZON]))
  else
    match native_chunk with
    | None => Ok tt
    | Some native =>
        if negb (has_chunk c) && negb (has_chunk_batch c) then
          Err (error_model (Msg "model declares native_chunk={native} but defines no chunk corner (predict_chunk / predict_chunk_batch); drop the declaration or add the corner"
            [AZ native]))
        else if native <? execution_horizon then
          Err (error_model (Msg "runtime pinned execution_horizon={execution_horizon} but the model declares native_chunk={native}: it cannot produce that many actions per predict. Lower the horizon to at most {native}"
            [AZ execution_horizon; AZ native]))
        else Ok tt
    end.

Definition bucket_fuses (c : Corners) (horizon : Z) : bool :=
  if 1 <? horizon then has_chunk_batch c || (negb (has_chunk c) && has_batch c) else has_batch c.

(** ** What predict errors say of the inputs *)

Fixpoint value_summary (value : Value) : message :=
  match value with
  | ValTensor t => Msg "{}{:?}" [AStr (dtype_name (dtype t)); AZs (shape t)]
  | ValText text => Msg "text(len={})" [ANat (length (as_bytes text))]
  | ValBytes bytes => Msg "bytes(len={})" [ANat (length bytes)]
  | ValNone => lit "None"
  | ValInt _ => lit "int"
  | ValBool _ => lit "bool"
  | ValTuple v => Msg "tuple(len={})" [ANat (length v)]
  | ValNumber _ => lit "number"
  | ValList items =>
      match items with
      | first :: _ => Msg "list(len={}, first={})" [ANat (length items); nested (value_summary first)]
      | [] => lit "list(len=0)"
      end
  | ValMap m =>
      Msg "{{{entries}}}"
        ((fun '(key, value) => AMsg "{key}: {}" [AStr key; nested (value_summary value)]) <$> m)
  end.

Definition inputs_summary (inputs : list Value) : message :=
  match inputs with
  | first :: _ => Msg "adapter-assembled model input (per lane): {}; lanes: {}"
                    [nested (value_summary first); ANat (length inputs)]
  | [] => lit "adapter-assembled model input: (no lanes)"
  end.

Definition annotate_predict_error (err : Error) (summary : message) : Error :=
  match err with
  | Model m => Model {| me_code := me_code m; me_message := Msg "{}\n{summary}" [nested (me_message m); nested summary];
                        me_is_recoverable := me_is_recoverable m |}
  | Internal m => Internal (Msg "{message}\n{summary}" [nested m; nested summary])
  | other => other
  end.

(** ** The host *)

(** One predict's actions, and the frames to replay ([replay[step][lane]]). *)
Record PredictFrames : Type := {
  pf_actions : list SpaceValue;
  pf_replay : list (list SpaceValue);
}.

Record HeldState : Type := { hs_episodes : Z; hs_bytes : Z }.

Record HistoryNeeds : Type := { hn_keys : list string; hn_prunable : bool }.
Record RouteNeeds : Type := { rn_native_chunk : option Z; rn_history : option HistoryNeeds }.
Record ResolveOptions : Type := { ro_execution_horizon : Z; ro_delivers_history : bool }.

(** The model ([PredictFn]), its resolver ([RouteResolver], when it has one) and the
    handler of warnings, over the state of the host. *)
Class Host (W : Type) : Type := {
  corners : Corners;
  predict : Value -> option EpisodeInfo -> Run W Value;
  predict_chunk : Value -> Z -> option EpisodeInfo -> Run W (option Value);
  predict_batch : list Value -> list EpisodeInfo -> Run W (list Value);
  predict_chunk_batch : list Value -> Z -> list EpisodeInfo -> Run W (list Value);
  predict_spec_less_chunked : ModelObservation -> Z -> Run W PredictFrames;
  on_episode_end : string -> Run W unit;
  on_route_reset : string -> Run W unit;
  on_route_release : string -> Run W unit;
  host_on_close : Run W unit;
  resolve_route : string -> EnvContract -> Run W (option RouteConfig);
  warn : message -> Run W unit;
}.

(** ** State *)

(** Entries are named by the routes map and by [en_pins], the predicts in flight. *)
Record Engine (W : Type) : Type := {
  en_routes : gmap string nat;
  en_entries : gmap nat RouteEntry;
  en_next : nat;
  en_pins : list nat;
  en_spec_less_horizons : gmap string Z;
  en_held : HeldTotals;
  en_short_chunk_warned : gset string;
  en_history_limit : Z;
  en_host : W;
}.
Arguments en_routes {W}.
Arguments en_entries {W}.
Arguments en_next {W}.
Arguments en_pins {W}.
Arguments en_spec_less_horizons {W}.
Arguments en_held {W}.
Arguments en_short_chunk_warned {W}.
Arguments en_history_limit {W}.
Arguments en_host {W}.

Section State.
Context {W : Type}.

(** [AdaptedModelHandler::new]. *)
Definition engine_new (history_limit : Z) (host : W) : Engine W :=
  {| en_routes := ∅; en_entries := ∅; en_next := 0; en_pins := []; en_spec_less_horizons := ∅;
     en_held := held_zero; en_short_chunk_warned := ∅; en_history_limit := history_limit;
     en_host := host |}.

Definition set_routes (r : gmap string nat) (en : Engine W) : Engine W :=
  {| en_routes := r; en_entries := en_entries en; en_next := en_next en; en_pins := en_pins en;
     en_spec_less_horizons := en_spec_less_horizons en; en_held := en_held en;
     en_short_chunk_warned := en_short_chunk_warned en; en_history_limit := en_history_limit en;
     en_host := en_host en |}.
Definition set_store (entries : gmap nat RouteEntry) (held : HeldTotals) (en : Engine W) : Engine W :=
  {| en_routes := en_routes en; en_entries := entries; en_next := en_next en; en_pins := en_pins en;
     en_spec_less_horizons := en_spec_less_horizons en; en_held := held;
     en_short_chunk_warned := en_short_chunk_warned en; en_history_limit := en_history_limit en;
     en_host := en_host en |}.
Definition set_next (next : nat) (en : Engine W) : Engine W :=
  {| en_routes := en_routes en; en_entries := en_entries en; en_next := next; en_pins := en_pins en;
     en_spec_less_horizons := en_spec_less_horizons en; en_held := en_held en;
     en_short_chunk_warned := en_short_chunk_warned en; en_history_limit := en_history_limit en;
     en_host := en_host en |}.
Definition set_pins (pins : list nat) (en : Engine W) : Engine W :=
  {| en_routes := en_routes en; en_entries := en_entries en; en_next := en_next en; en_pins := pins;
     en_spec_less_horizons := en_spec_less_horizons en; en_held := en_held en;
     en_short_chunk_warned := en_short_chunk_warned en; en_history_limit := en_history_limit en;
     en_host := en_host en |}.
Definition set_horizons (h : gmap string Z) (en : Engine W) : Engine W :=
  {| en_routes := en_routes en; en_entries := en_entries en; en_next := en_next en;
     en_pins := en_pins en; en_spec_less_horizons := h; en_held := en_held en;
     en_short_chunk_warned := en_short_chunk_warned en; en_history_limit := en_history_limit en;
     en_host := en_host en |}.
Definition set_host (warned : gset string) (host : W) (en : Engine W) : Engine W :=
  {| en_routes := en_routes en; en_entries := en_entries en; en_next := en_next en;
     en_pins := en_pins en; en_spec_less_horizons := en_spec_less_horizons en;
     en_held := en_held en; en_short_chunk_warned := warned;
     en_history_limit := en_history_limit en; en_host := host |}.

(** The entry of an env, if it has an adapter. *)
Definition route_entry (env_id : string) (en : Engine W) : option nat := en_routes en !! env_id.

Definition spec_less_horizon (env_id : string) (en : Engine W) : Z :=
  default 1 (en_spec_less_horizons en !! env_id).

(** Some name of the entry is left. *)
Definition named (i : nat) (en : Engine W) : bool :=
  bool_decide (i ∈ en_pins en) || bool_decide (map_Exists (fun _ j => j = i) (en_routes en)).

(** A name of the entry went away: with the last one the entry is dropped. *)
Definition reclaim (i : nat) (en : Engine W) : Engine W :=
  if named i en then en
  else
    match en_entries en !! i with
    | Some e => set_store (delete i (en_entries en)) (drop_share e (en_held en)) en
    | None => en
    end.

Definition pin (i : nat) (en : Engine W) : Engine W := set_pins (i :: en_pins en) en.

Fixpoint remove_one (i : nat) (l : list nat) : list nat :=
  match l with
  | [] => []
  | j :: l => if decide (i = j) then l else j :: remove_one i l
  end.

Definition unpin (i : nat) (en : Engine W) : Engine W :=
  reclaim i (set_pins (remove_one i (en_pins en)) en).

(** A call under the lock of an entry. *)
Definition with_entry {A} (i : nat)
    (f : RouteEntry -> HeldTotals -> option ((RouteEntry * HeldTotals) * result A Error))
    : Run (Engine W) A := fun en =>
  let! e := en_entries en !! i in
  let! ((e, held), r) := f e (en_held en) in
  Some (set_store (<[i := e]> (en_entries en)) held en, r).

(** A call of the host. *)
Definition with_host {A} (m : Run (gset string * W) A) : Run (Engine W) A := fun en =>
  let! ((warned, host), r) := m (en_short_chunk_warned en, en_host en) in
  Some (set_host warned host en, r).

Definition call {A} (m : Run W A) : Run (gset string * W) A := fun '(warned, host) =>
  let! (host, r) := m host in Some ((warned, host), r).
End State.

(** The most specific observation keys a route needs: all of them when the host fills
    custom inputs. *)
Definition has_customs (config : RouteConfig) : bool :=
  existsb (fun plan => match plan with OCustom _ => true | _ => false end)
    (ra_obs_plans (rc_adapter config)).

Definition obs_keys (config : RouteConfig) : btree unit :=
  if negb (has_customs config) then referenced_obs_keys (rc_adapter config)
  else
    match spec (rc_observation_space config) with
    | Some (KDict d) => fold_left (fun keys key => keys_insert key keys) (keys d) []
    | _ => keys_insert "." []
    end.

Section Engine.
Context `{HalfOps} `{ImageCodec} `{Libm} (addr : Z) (alloc : nat -> nat -> Z).
Context (protocol_text : ProtocolError -> message) (downcast : string -> option Error).

(** A call on a route's buffers whose failure is reported as [from_apply] does. *)
Definition applied {A} (m : Buffered A) : Run FrameBuffers A := fun b =>
  let! (b, r) := m b in Some (b, map_err (from_apply downcast) r).

Definition applied_pure {A} (r : option (result A ApplyError)) : Run FrameBuffers A := applied (lift r).

(** ** Assembly *)

(** One row of a replayed step. *)
Definition ingest_row (config : RouteConfig) (referenced : btree unit) (step : Z)
    (row : SpaceValue * EpisodeInfo) : Run FrameBuffers unit :=
  let (lane, episode) := row in
  if String.eqb (ei_episode_id episode) EmptyString then
    fails (error_model (Msg "history row at step {} has a lane with no episode_id" [AZ step]))
  else
    let^ _ := applied (advance_step (ei_episode_id episode) step) in
    let^ raw := applied_pure (space_value_to_obs_map lane (rc_observation_space config) referenced) in
    applied (observe_obs addr (rc_adapter config) raw (ei_episode_id episode)).

Definition ingest_frame (config : RouteConfig) (o : ModelObservation) (referenced : btree unit)
    (frame : HistoryFrame) : Run FrameBuffers unit :=
  let^ lanes := pure (decoded_history_lanes alloc protocol_text o frame) in
  if negb (length lanes =? length (hf_episodes frame))%nat then
    fails (error_model (Msg "history row at step {} decoded to {} lanes for {} episode rows"
      [AZ (hf_step frame); ANat (length lanes); ANat (length (hf_episodes frame))]))
  else
    let^ _ := for_each (fun _ => ingest_row config referenced (hf_step frame)) 0
                (zip lanes (hf_episodes frame)) in
    done tt.

Definition ingest_history (config : RouteConfig) (o : ModelObservation) (referenced : btree unit)
    : Run FrameBuffers unit :=
  let^ _ := for_each (fun _ => ingest_frame config o referenced) 0 (mo_history o) in
  done tt.

(** The step of the request, on a route that negotiated history. *)
Definition stamp (config : RouteConfig) (o : ModelObservation) (referenced : btree unit)
    : Run FrameBuffers (option Z) :=
  if rc_delivers_history config then
    let^ _ := ingest_history config o referenced in
    let^ step := pure (Some (ok_or (mo_step o)
      (error_model (lit "predict request carries no step but this route negotiated observation history; stamp every request and history row with the producer's env-step counter")))) in
    done (Some step)
  else
    match mo_history o with
    | [] => done None
    | _ => fails (error_model (lit "predict request carries observation history rows but this route did not negotiate history (ResolveAdapterResponse.history was unset): send rows only to a route that asked for them"))
    end.

Definition assemble_lane (config : RouteConfig) (o : ModelObservation) (referenced : btree unit)
    (stamped : option Z) (counted : bool) (index : nat) (lane : SpaceValue)
    : Run FrameBuffers Value :=
  let named := mo_episodes o !! index ≫= fun e =>
    if String.eqb (ei_episode_id e) EmptyString then None else Some (ei_episode_id e) in
  let^ episode_id := pure (Some (ok_or named
    (error_model (Msg "predict request lane {index} has no episode_id (num_envs={num_envs}, episodes={}); every lane must carry a non-empty episode_id"
       [ANat index; ANat (mo_num_envs o); ANat (length (mo_episodes o))])))) in
  let^ step :=
    match stamped with
    | Some step => done step
    | None => fun b => let! step := next_step b episode_id in Some (b, Ok step)
    end in
  let^ _ :=
    (if bool_decide (is_Some stamped) || counted then applied (advance_step episode_id step)
     else done tt) in
  let^ raw := applied_pure (space_value_to_obs_map lane (rc_observation_space config) referenced) in
  applied (assemble_obs addr (rc_adapter config) raw episode_id step (rc_customs config)
             (rc_encodings config)).

Definition assemble_route_inputs_inner (config : RouteConfig) (o : ModelObservation)
    : Run FrameBuffers (list Value) :=
  let^ _ := pure (Some (ensure_decodable o)) in
  let referenced := obs_keys config in
  let^ stamped := stamp config o referenced in
  let counted := negb (bool_decide (is_Some stamped)) && reads_previous_action (rc_adapter config) in
  let^ decoded := pure (decoded_lanes alloc protocol_text o) in
  for_each (assemble_lane config o referenced stamped counted) 0 decoded.

(** Admission, then assembly; what the route holds is published either way. *)
Definition assemble_route_inputs (o : ModelObservation) (e : RouteEntry) (total : HeldTotals)
    : option ((RouteEntry * HeldTotals) * result (list Value) Error) :=
  match admit_fresh_lanes e total (mo_episodes o) with
  | Err err => Some ((e, total), Err err)
  | Ok _ =>
      let! (b, r) := assemble_route_inputs_inner (re_config e) o (re_buffers e) in
      let! published := publish_held (set_buffers b e) total in
      Some (published, r)
  end.

(** ** The model's corners *)

Section Host.
Context {W : Type} `{Host W}.

(** [ShortChunkWarned::first]. *)
Definition first_warned (key : string) : Run (gset string * W) bool := fun '(warned, host) =>
  Some (({[key]} ∪ warned, host), Ok (negb (bool_decide (key ∈ warned)))).

Definition warn_key (episode : option EpisodeInfo) : string :=
  match episode with
  | Some e => if String.eqb (ei_episode_id e) EmptyString then "route:" +:+ ei_env_id e else ei_episode_id e
  | None => "route:"
  end.

Definition short_chunk_text (frames : nat) (horizon : Z) : message :=
  Msg "the model returned {frames} actions for execution_horizon={horizon}; replaying what there is and re-planning early. Declare Model.native_chunk so the horizon can be validated up front."
    [ANat frames; AZ horizon].

Definition take_prefix (frames : list Value) (horizon : Z) (key : string)
    : Run (gset string * W) (list Value) :=
  let^ _ :=
    match native_chunk corners with
    | Some native =>
        if negb (Z.of_nat (length frames) =? native) then
          fails (invalid_argument (Msg "model declares native_chunk={native} but its chunk corner returned {} frames at execution_horizon={horizon}: return the WHOLE native chunk and let the runtime execute its prefix (do not slice to the horizon), or drop the declaration"
            [AZ native; ANat (length frames); AZ horizon]))
        else done tt
    | None =>
        if Z.of_nat (length frames) <? horizon then
          let^ first := first_warned key in
          if first : bool then call (warn (short_chunk_text (length frames) horizon)) else done tt
        else done tt
    end in
  if (length frames =? 0)%nat && (1 <? horizon) then
    fails (invalid_argument (lit "a chunked model (execute_horizon>1) returned an empty action chunk"))
  else done (take (Z.to_nat horizon) frames).

(** The executed frames of one answered chunk. *)
Definition chunk_frames (episodes : list EpisodeInfo) (horizon : Z) (index : nat) (chunk : Value)
    : Run (gset string * W) (list Value) :=
  let^ frames := pure (let! r := split_chunk chunk in Some (map_err (from_apply downcast) r)) in
  take_prefix frames horizon (warn_key (episodes !! index)).

Definition dispatch_corners (inputs : list Value) (episodes : list EpisodeInfo) (horizon : Z)
    (num_envs : nat) : Run (gset string * W) (list (list Value)) :=
  if negb (length episodes =? num_envs)%nat then
    fails (error_model (Msg "predict carries {} episode rows for {num_envs} lanes; episode identity is row-aligned with the observation"
      [ANat (length episodes); ANat num_envs]))
  else if (1 <? horizon) && has_chunk_batch corners then
    let^ chunks := call (predict_chunk_batch inputs horizon episodes) in
    if negb (length chunks =? num_envs)%nat then
      fails (error_model (Msg "predict_chunk_batch returned {} chunks for {num_envs} lanes"
        [ANat (length chunks); ANat num_envs]))
    else for_each (chunk_frames episodes horizon) 0 chunks
  else if (1 <? horizon) && has_chunk corners then
    for_each (fun index input =>
      let^ chunk := call (predict_chunk input horizon (episodes !! index)) in
      let^ chunk := pure (Some (ok_or chunk
        (error_model (lit "model reports a chunk corner (has_chunk) but predict_chunk returned None")))) in
      chunk_frames episodes horizon index chunk) 0 inputs
  else if has_batch corners then
    let^ actions := call (predict_batch inputs episodes) in
    if negb (length actions =? num_envs)%nat then
      fails (error_model (Msg "predict_batch returned {} actions for {num_envs} lanes"
        [ANat (length actions); ANat num_envs]))
    else done ((fun action => [action]) <$> actions)
  else
    for_each (fun index input =>
      let^ action := call (predict input (episodes !! index)) in
      done [action]) 0 inputs.

Definition run_map_err {S A} (f : Error -> Error) (m : Run S A) : Run S A := fun s =>
  let! (s, r) := m s in Some (s, map_err f r).

Definition dispatch_route_corners (inputs : list Value) (episodes : list EpisodeInfo) (horizon : Z)
    (num_envs : nat) : Run (gset string * W) (list (list Value)) :=
  let summary := inputs_summary inputs in
  run_map_err (fun err => annotate_predict_error err summary)
    (dispatch_corners inputs episodes horizon num_envs).

(** ** Frames *)

(** Each frame of a lane's chunk, applied under the step it executes at. *)
Definition apply_lane_frames (config : RouteConfig) (episode_id : string) (step : Z) (raw_steps : list Value)
    : Run FrameBuffers (list SpaceValue) :=
  for_each (fun frame raw_action b =>
    let! at_step := checked_i64 (step + Z.of_nat frame) in
    applied (apply_actions addr (rc_adapter config) raw_action (rc_action_space config)
               (rc_encodings config) episode_id at_step) b) 0 raw_steps.

Definition finish_lane (config : RouteConfig) (episodes : list EpisodeInfo) (lane : nat)
    (raw_steps : list Value) : Run FrameBuffers (SpaceValue * list SpaceValue) :=
  let episode_id := match episodes !! lane with Some e => ei_episode_id e | None => EmptyString end in
  let^ step := (fun b => let! step := chunk_start b episode_id in Some (b, Ok step)) in
  let^ applied_steps := apply_lane_frames config episode_id step raw_steps in
  match applied_steps with
  | first :: replay => done (first, replay)
  | [] => fails (invalid_argument (lit "a chunked model returned an empty action chunk"))
  end.

(** [min] of the lengths, [0] without lanes. *)
Definition replay_length {A} (lane_replays : list (list A)) : nat :=
  match lane_replays with
  | [] => 0
  | first :: rest => fold_left (fun n l => Nat.min n (length l)) rest (length first)
  end.

(** The frames of each future step, one per lane. *)
Definition transpose_replays (lane_replays : list (list SpaceValue)) : option (list (list SpaceValue)) :=
  mapM (fun step => mapM (fun lane : list SpaceValue => lane !! step) lane_replays)
    (seq 0 (replay_length lane_replays)).

Definition finish_route_frames_inner (config : RouteConfig) (lane_raw_steps : list (list Value))
    (episodes : list EpisodeInfo) : Run FrameBuffers PredictFrames :=
  let^ lanes := for_each (finish_lane config episodes) 0 lane_raw_steps in
  let^ replay := pure (let! replay := transpose_replays lanes.*2 in Some (Ok replay)) in
  done {| pf_actions := lanes.*1; pf_replay := replay |}.

Definition finish_route_frames (lane_raw_steps : list (list Value)) (episodes : list EpisodeInfo)
    (e : RouteEntry) (total : HeldTotals)
    : option ((RouteEntry * HeldTotals) * result PredictFrames Error) :=
  let! (b, r) := finish_route_frames_inner (re_config e) lane_raw_steps episodes (re_buffers e) in
  let! published := publish_held (set_buffers b e) total in
  Some (published, r).

(** The configuration of an entry. *)
Definition config_of (i : nat) : Run (Engine W) RouteConfig := fun en =>
  let! e := en_entries en !! i in Some (en, Ok (re_config e)).

Definition predict_route (i : nat) (o : ModelObservation) : Run (Engine W) PredictFrames :=
  let^ inputs := with_entry i (assemble_route_inputs o) in
  let^ config := config_of i in
  let^ lane_raw_steps := with_host
    (dispatch_route_corners inputs (mo_episodes o) (rc_execution_horizon config) (mo_num_envs o)) in
  with_entry i (finish_route_frames lane_raw_steps (mo_episodes o)).

(** ** Grouped predicts *)

Inductive GroupLane : Type := SpecLess (horizon : Z) | Routed (entry : nat).

Record Prepared : Type := {
  pr_index : nat;
  pr_inputs : list Value;
  pr_episodes : list EpisodeInfo;
  pr_entry : nat;
  pr_config : RouteConfig;
  pr_num_envs : nat;
}.

Inductive Staged : Type :=
| StagedSpecLess (o : ModelObservation) (horizon : Z)
| StagedRouted (assembled : result (list Value * RouteConfig) Error) (episodes : list EpisodeInfo)
    (entry : nat) (num_envs : nat).

(** A failure that stays with its group. *)
Definition attempt {S A} (m : Run S A) : Run S (result A Error) := fun s =>
  let! (s, r) := m s in Some (s, Ok r).

(** Groups are staged in request order; on the pool of the source they name distinct
    routes. *)
Definition stage (pair : GroupLane * ModelObservation) : Run (Engine W) Staged :=
  let (lane, o) := pair in
  match lane with
  | SpecLess horizon => done (StagedSpecLess o horizon)
  | Routed i =>
      let^ assembled := attempt (
        let^ inputs := with_entry i (assemble_route_inputs o) in
        let^ config := config_of i in
        done (inputs, config)) in
      done (StagedRouted assembled (mo_episodes o) i (mo_num_envs o))
  end.

(** A served group, or one still to be predicted. *)
Definition settle_staged (index : nat) (s : Staged)
    : Run (Engine W) (option (result PredictFrames Error) * list Prepared) :=
  match s with
  | StagedSpecLess o horizon =>
      let^ r := attempt (with_host (call (predict_spec_less_chunked o horizon))) in
      done (Some r, [])
  | StagedRouted (Ok (inputs, config)) episodes i num_envs =>
      done (None, [{| pr_index := index; pr_inputs := inputs; pr_episodes := episodes; pr_entry := i;
                      pr_config := config; pr_num_envs := num_envs |}])
  | StagedRouted (Err error) _ _ _ => done (Some (Err error), [])
  end.

(** [BTreeMap<u32, Vec<Prepared>>], by execution horizon. *)
Fixpoint bucket_insert (horizon : Z) (g : Prepared) (buckets : list (Z * list Prepared))
    : list (Z * list Prepared) :=
  match buckets with
  | [] => [(horizon, [g])]
  | (h, groups) :: rest =>
      if horizon =? h then (h, (groups ++ [g])%list) :: rest
      else if horizon <? h then (horizon, [g]) :: buckets
      else (h, groups) :: bucket_insert horizon g rest
  end.

Definition bucket_groups (prepared : list Prepared) : list (Z * list Prepared) :=
  fold_left (fun buckets g => bucket_insert (Z.max (rc_execution_horizon (pr_config g)) 1) g buckets)
    prepared [].

(** The frames of each group, in group order. *)
Fixpoint split_frames (groups : list Prepared) (frames : list (list Value))
    : list (Prepared * list (list Value)) :=
  match groups with
  | [] => []
  | g :: groups =>
      let n := length (pr_inputs g) in
      (g, take n frames) :: split_frames groups (drop n frames)
  end.

Definition finish_group (pair : Prepared * list (list Value))
    : Run (Engine W) (nat * result PredictFrames Error) :=
  let (g, frames) := pair in
  let^ r := attempt (with_entry (pr_entry g) (finish_route_frames frames (pr_episodes g))) in
  done (pr_index g, r).

Definition predict_fused (horizon : Z) (groups : list Prepared)
    : Run (Engine W) (list (nat * result PredictFrames Error)) :=
  let flat := concat (pr_inputs <$> groups) in
  let flat_episodes := concat (pr_episodes <$> groups) in
  let total := length flat in
  let^ fused := attempt
    (if (length flat_episodes =? total)%nat
     then with_host (dispatch_corners flat flat_episodes horizon total)
     else fails (Internal (Msg "fused predict concatenated {} episode rows for {total} lanes"
                             [ANat (length flat_episodes); ANat total]))) in
  match fused with
  | Ok all_frames => for_each (fun _ => finish_group) 0 (split_frames groups all_frames)
  | Err error =>
      done ((fun g => (pr_index g, Err (annotate_predict_error error (inputs_summary (pr_inputs g)))))
              <$> groups)
  end.

Definition predict_separately (horizon : Z) (g : Prepared)
    : Run (Engine W) (nat * result PredictFrames Error) :=
  let^ r := attempt (
    let^ raw := with_host
      (dispatch_route_corners (pr_inputs g) (pr_episodes g) horizon (pr_num_envs g)) in
    with_entry (pr_entry g) (finish_route_frames raw (pr_episodes g))) in
  done (pr_index g, r).

Definition predict_bucket (bucket : Z * list Prepared)
    : Run (Engine W) (list (nat * result PredictFrames Error)) :=
  let (horizon, groups) := bucket in
  if bucket_fuses corners horizon then predict_fused horizon groups
  else for_each (fun _ => predict_separately horizon) 0 groups.

(** [results[index] = Some(result)]. *)
Definition put_result (results : list (option (result PredictFrames Error)))
    (r : nat * result PredictFrames Error) : list (option (result PredictFrames Error)) :=
  <[r.1 := Some r.2]> results.

Definition predict_grouped_fused (lanes : list GroupLane) (observations : list ModelObservation)
    : Run (Engine W) (list (result PredictFrames Error)) :=
  let^ staged := for_each (fun _ => stage) 0 (zip lanes observations) in
  let^ settled := for_each settle_staged 0 staged in
  let^ served := for_each (fun _ => predict_bucket) 0 (bucket_groups (concat settled.*2)) in
  let results := fold_left put_result (concat served) settled.*1 in
  done (default (Err (Internal (lit "grouped predict left a prepared group unserved"))) <$> results).

(** ** The handler *)

(** A predict holds the entry it found until it returns. *)
Definition predict_chunked (o : ModelObservation) : Run (Engine W) PredictFrames := fun en =>
  match route_entry (rt_env_id (mo_route o)) en with
  | Some i =>
      let! (en, r) := predict_route i o (pin i en) in
      Some (unpin i en, r)
  | None =>
      with_host (call (predict_spec_less_chunked o (spec_less_horizon (rt_env_id (mo_route o)) en))) en
  end.

Definition group_lane (en : Engine W) (o : ModelObservation) : GroupLane :=
  match route_entry (rt_env_id (mo_route o)) en with
  | Some i => Routed i
  | None => SpecLess (spec_less_horizon (rt_env_id (mo_route o)) en)
  end.

Definition lane_pins (lanes : list GroupLane) : list nat :=
  omap (fun lane => match lane with Routed i => Some i | SpecLess _ => None end) lanes.

Definition predict_grouped (observations : list ModelObservation)
    : Run (Engine W) (list (result PredictFrames Error)) := fun en =>
  let fusable := allow_fusion corners && (has_chunk_batch corners || has_batch corners) in
  if (length observations <=? 1)%nat || negb fusable then
    for_each (fun _ o => attempt (predict_chunked o)) 0 observations en
  else
    let lanes := group_lane en <$> observations in
    let pins := lane_pins lanes in
    let! (en, r) := predict_grouped_fused lanes observations (foldr pin en pins) in
    Some (foldr unpin en pins, r).

Definition held_state (en : Engine W) : HeldState :=
  {| hs_episodes := ht_episodes (en_held en); hs_bytes := ht_bytes (en_held en) |}.

(** ** Route setup *)

(** What the resolved adapter's history asks of the runtime, or why it is refused. *)
Definition history_terms (config : RouteConfig) (options : ResolveOptions) (num_envs limit : Z)
    : option (result (RouteConfig * option HistoryNeeds) Error) :=
  match history_keys (rc_adapter config) with
  | [] => Some (Ok (config, None))
  | first_key :: _ =>
      let!? _ := check_history_budget (Z.max num_envs 1) (history_windows (rc_adapter config)) limit in
      if ro_delivers_history options then
        Some (Ok ({| rc_adapter := rc_adapter config; rc_observation_space := rc_observation_space config;
                     rc_action_space := rc_action_space config; rc_customs := rc_customs config;
                     rc_encodings := rc_encodings config;
                     rc_execution_horizon := rc_execution_horizon config;
                     rc_delivers_history := true |},
                  Some {| hn_keys := history_keys (rc_adapter config); hn_prunable := false |}))
      else if 1 <? rc_execution_horizon config then
        let what :=
          match stacks (rc_adapter config) with
          | (key, depth) :: _ => Msg "frame-stacking (input '{key}' stack={depth})" [AStr key; AZ depth]
          | [] => Msg "a previous-action part (input '{}')" [AStr first_key]
          end in
        Some (Err (error_model (Msg "{what} needs every env step, but the runtime did not offer observation history (delivers_history) at execution_horizon={}: the window would hold only decision-point frames. Use a runtime that delivers history, stack=1 (or no Previous part), or execution_horizon=1."
          [nested what; AZ (rc_execution_horizon config)])))
      else Some (Ok (config, None))
  end.

Definition set_horizon (horizon : Z) (config : RouteConfig) : RouteConfig :=
  {| rc_adapter := rc_adapter config; rc_observation_space := rc_observation_space config;
     rc_action_space := rc_action_space config; rc_customs := rc_customs config;
     rc_encodings := rc_encodings config; rc_execution_horizon := horizon;
     rc_delivers_history := rc_delivers_history config |}.

(** A fresh entry under [env_id]; the one it replaces loses that name. *)
Definition install (env_id : string) (e : RouteEntry) (en : Engine W) : Engine W :=
  let old := route_entry env_id en in
  let en' := set_next (S (en_next en))
    (set_store (<[en_next en := e]> (en_entries en)) (en_held en)
      (set_routes (<[env_id := en_next en]> (en_routes en)) en)) in
  match old with Some i => reclaim i en' | None => en' end.

(** Pin the horizon of a route without an adapter. *)
Definition pin_spec_less (env_id : string) (horizon : Z) (en : Engine W) : Engine W :=
  set_horizons (if 1 <? horizon then <[env_id := horizon]> (en_spec_less_horizons en)
                else delete env_id (en_spec_less_horizons en)) en.

Definition resolve_adapter (env_id : string) (contract : EnvContract) (options : ResolveOptions)
    : Run (Engine W) RouteNeeds :=
  let horizon := ro_execution_horizon options in
  let native := native_chunk corners in
  let^ _ := pure (Some (check_horizon_doors horizon native corners)) in
  let^ resolved := with_host (call (resolve_route env_id contract)) in
  match resolved with
  | None => fun en =>
      Some (pin_spec_less env_id (Z.max horizon 1) en,
            Ok {| rn_native_chunk := native; rn_history := None |})
  | Some config =>
      let config := set_horizon (Z.max horizon 1) config in
      let^ lane_bytes := pure (let! n := lane_window_bytes (history_windows (rc_adapter config)) in
                               Some (Ok n)) in
      let^ limit := (fun en => Some (en, Ok (en_history_limit en))) in
      let^ (config, history) := pure (history_terms config options (num_envs contract) limit) in
      fun en =>
        Some (install env_id {| re_config := config; re_buffers := buffers_new;
                                re_published := held_zero; re_lane_bytes := lane_bytes;
                                re_history_limit := limit |} en,
              Ok {| rn_native_chunk := native; rn_history := history |})
  end.

(** The route-local part of a reset: the frame windows of ended episodes, or of all. *)
Definition evict_episodes (episode_ids : list string) (e : RouteEntry) (total : HeldTotals)
    : option ((RouteEntry * HeldTotals) * result unit Error) :=
  let b := match episode_ids with
           | [] => clear (re_buffers e)
           | ids => fold_left evict ids (re_buffers e)
           end in
  let! published := publish_held (set_buffers b e) total in
  Some (published, Ok tt).

Definition setup_reset_adapter (env_id : string) (episode_ids : list string) : Run (Engine W) unit :=
  fun en =>
    match route_entry env_id en with
    | Some i => with_entry i (evict_episodes episode_ids) en
    | None => Some (en, Ok tt)
    end.

(** The model's own part of a reset. *)
Definition reset_adapter (env_id : string) (episode_ids : list string) : Run (Engine W) unit :=
  let^ _ := (fun en => Some (set_host (en_short_chunk_warned en ∖ list_to_set episode_ids) (en_host en) en,
                             Ok tt)) in
  match episode_ids with
  | [] => with_host (call (on_route_reset env_id))
  | ids =>
      let^ _ := for_each (fun _ episode_id => with_host (call (on_episode_end episode_id))) 0 ids in
      done tt
  end.

Definition release_adapter (env_id : string) : Run (Engine W) unit :=
  let^ _ := (fun en =>
    let old := route_entry env_id en in
    let en' := set_horizons (delete env_id (en_spec_less_horizons en))
                 (set_routes (delete env_id (en_routes en)) en) in
    Some (match old with Some i => reclaim i en' | None => en' end, Ok tt)) in
  with_host (call (on_route_release env_id)).

(** [buffers.clear()] and a publish, entry by entry. *)
Definition clear_entry (e : RouteEntry) (total : HeldTotals)
    : option ((RouteEntry * HeldTotals) * result unit Error) :=
  let! published := publish_held (set_buffers (clear (re_buffers e)) e) total in
  Some (published, Ok tt).

Definition on_close : Run (Engine W) unit := fun en =>
  run_bind (for_each (fun _ i => with_entry i clear_entry) 0 (map_to_list (en_routes en)).*2)
    (fun _ => with_host (call host_on_close)) en.
End Host.
End Engine.
