(* ===== verification/EngineSpec.v ===== *)
(** * What the model engine guarantees

    The engine's endpoint accounting under every interleaving of predicts with route
    setup, the configuration every live route has, the frame-window budget, and the
    shape of what a predict returns. *)

From stdpp Require Import gmap strings.
From S2P Require Import Prelude Utf8 BTree Float FloatOps DType Scalar Tensor Types Leaves WireSpaces AdapterValue AdapterGeometry AdapterPlans AdapterImage AdapterImageSpec AdapterApply AdapterApplySpec AdapterHistory AdapterHistorySpec FacadeError Engine.
#[local] Open Scope string_scope.
#[local] Open Scope Z_scope.
#[local] Open Scope run_scope.

(** Folds that agree on the entries of the map. *)
Lemma map_fold_agree {A} (f g : nat -> A -> Z -> Z) z (m : gmap nat A) :
  (forall i x acc, m !! i = Some x -> f i x acc = g i x acc) -> map_fold f z m = map_fold g z m.
Proof.
  intros Hfg. rewrite !map_fold_foldr.
  assert (Forall (fun '(i, x) => m !! i = Some x) (map_to_list m)) as Hall.
  { apply Forall_forall. intros [i x]. apply elem_of_map_to_list. }
  induction Hall as [|[i x] l Hx _ IH]; [done|]. cbn. rewrite IH. by apply Hfg.
Qed.

(** ** The endpoint total *)

(** The sum of one published figure over the entries of the store. *)
Definition add_share (f : HeldTotals -> Z) (_ : nat) (e : RouteEntry) (acc : Z) : Z :=
  f (re_published e) + acc.

Definition held_sum (f : HeldTotals -> Z) (m : gmap nat RouteEntry) : Z :=
  map_fold (add_share f) 0 m.

Lemma held_sum_empty f : held_sum f ∅ = 0.
Proof. apply map_fold_empty. Qed.

Lemma held_sum_new f m i e :
  m !! i = None -> held_sum f (<[i := e]> m) = f (re_published e) + held_sum f m.
Proof. intros Hi. apply (map_fold_insert_L (add_share f)); [|done]. unfold add_share. intros; lia. Qed.

Lemma held_sum_delete f m i e :
  m !! i = Some e -> held_sum f m = f (re_published e) + held_sum f (delete i m).
Proof. intros Hi. apply (map_fold_delete_L (add_share f)); [|done]. unfold add_share. intros; lia. Qed.

Lemma held_sum_update f m i e e' :
  m !! i = Some e ->
  held_sum f (<[i := e']> m) = held_sum f m + (f (re_published e') - f (re_published e)).
Proof.
  intros Hi. rewrite <- insert_delete_eq, held_sum_new by apply lookup_delete_eq.
  rewrite (held_sum_delete f m i e Hi). lia.
Qed.

(** Each cell holds its sum, as [u64]s wrap. *)
Definition cells_ok (total : HeldTotals) (m : gmap nat RouteEntry) : Prop :=
  ht_episodes total = wrap_u 64 (held_sum ht_episodes m) /\
  ht_bytes total = wrap_u 64 (held_sum ht_bytes m) /\
  ht_projected total = wrap_u 64 (held_sum ht_projected m).

Lemma fetch_add_sum a d : fetch_add (wrap_u 64 a) (wrap_u 64 d) = wrap_u 64 (a + d).
Proof. unfold fetch_add, wrap_u. by rewrite Zplus_mod_idemp_l, Zplus_mod_idemp_r. Qed.

Lemma fetch_sub_sum a d : fetch_sub (wrap_u 64 a) d = wrap_u 64 (a - d).
Proof. unfold fetch_sub, wrap_u. by rewrite Zminus_mod_idemp_l. Qed.

Lemma publish_cells m i e0 e e' total total' :
  m !! i = Some e0 -> re_published e = re_published e0 -> cells_ok total m ->
  publish_held e total = Some (e', total') ->
  cells_ok total' (<[i := e']> m) /\ held_now e' = Some (re_published e') /\
  e' = set_published (re_published e') e.
Proof.
  intros Hi Hp (C1 & C2 & C3) Hpub. unfold publish_held in Hpub.
  destruct (held_now e) as [now|] eqn:Hnow; [|done]. injection Hpub as <- <-.
  split_and!; [|by unfold held_now in *; cbn in *|done].
  unfold cells_ok. rewrite !(held_sum_update _ m i e0) by done. cbn. rewrite Hp, C1, C2, C3.
  by rewrite !fetch_add_sum.
Qed.

Lemma drop_cells m i e total :
  m !! i = Some e -> cells_ok total m -> cells_ok (drop_share e total) (delete i m).
Proof.
  intros Hi (C1 & C2 & C3). unfold cells_ok, drop_share. cbn.
  rewrite C1, C2, C3, !fetch_sub_sum.
  rewrite !(held_sum_delete _ m i e Hi). split_and!; f_equal; lia.
Qed.

(** ** Well-formed engines *)

Definition names {W} (en : Engine W) (i : nat) : Prop :=
  i ∈ en_pins en \/ exists env_id, en_routes en !! env_id = Some i.

Lemma named_spec {W} i (en : Engine W) : named i en = true <-> names en i.
Proof.
  unfold named, names. rewrite orb_true_iff, !bool_decide_eq_true.
  unfold map_Exists. naive_solver.
Qed.

(** What every resolved route has: a horizon the doors admit, and history wherever a
    window would otherwise see decision points only. *)
Record config_ok (c : Corners) (limit : Z) (e : RouteEntry) : Prop := {
  co_horizon : 1 <= rc_execution_horizon (re_config e) <= MAX_EXECUTION_HORIZON;
  co_native : forall native, native_chunk c = Some native ->
    rc_execution_horizon (re_config e) <= Z.max 1 native /\
    (has_chunk c = true \/ has_chunk_batch c = true);
  co_history : history_keys (rc_adapter (re_config e)) <> [] ->
    1 < rc_execution_horizon (re_config e) -> rc_delivers_history (re_config e) = true;
  co_lane_bytes : lane_window_bytes (history_windows (rc_adapter (re_config e))) = Some (re_lane_bytes e);
  co_budget : history_keys (rc_adapter (re_config e)) <> [] -> re_lane_bytes e <= limit;
  co_limit : re_history_limit e = limit;
}.

Record engine_ok {W} (c : Corners) (en : Engine W) : Prop := {
  ok_cells : cells_ok (en_held en) (en_entries en);
  ok_now : map_Forall (fun _ e => held_now e = Some (re_published e)) (en_entries en);
  ok_config : map_Forall (fun _ e => config_ok c (en_history_limit en) e) (en_entries en);
  ok_named : forall i, names en i <-> is_Some (en_entries en !! i);
  ok_next : forall i, is_Some (en_entries en !! i) -> (i < en_next en)%nat;
}.

(** All but the name of one entry, which [reclaim] then settles. *)
Record engine_ok_but {W} (c : Corners) (hole : nat) (en : Engine W) : Prop := {
  but_cells : cells_ok (en_held en) (en_entries en);
  but_now : map_Forall (fun _ e => held_now e = Some (re_published e)) (en_entries en);
  but_config : map_Forall (fun _ e => config_ok c (en_history_limit en) e) (en_entries en);
  but_named : forall i, names en i -> is_Some (en_entries en !! i);
  but_live : forall i, is_Some (en_entries en !! i) -> names en i \/ i = hole;
  but_next : forall i, is_Some (en_entries en !! i) -> (i < en_next en)%nat;
}.

Section Steps.
Context {W : Type} (c : Corners).
Implicit Types en : Engine W.

Lemma ok_but_ok hole en : engine_ok c en -> engine_ok_but c hole en.
Proof.
  intros [? ? ? Hn ?]. split; try done.
  - intros i. apply Hn.
  - intros i Hi. left. by apply Hn.
Qed.

Lemma reclaim_ok i en : engine_ok_but c i en -> engine_ok c (reclaim i en).
Proof.
  intros [Hc Hw Hk Hn Hl Hx]. unfold reclaim. destruct (named i en) eqn:Hi.
  { apply named_spec in Hi. split; try done. intros j. split; [apply Hn|].
    intros Hj. destruct (Hl j Hj) as [?| ->]; done. }
  assert (~ names en i) as Hni by (by rewrite <- named_spec, Hi).
  destruct (en_entries en !! i) as [e|] eqn:He.
  - split; cbn.
    + by apply drop_cells.
    + by apply map_Forall_delete.
    + by apply map_Forall_delete.
    + intros j. change (names (set_store _ _ en) j) with (names en j). split.
      * intros Hj. rewrite lookup_delete_ne by (intros ->; done). by apply Hn.
      * intros Hj. destruct (decide (j = i)) as [->|Hne]; [by rewrite lookup_delete_eq in Hj; destruct Hj|].
        rewrite lookup_delete_ne in Hj by done. by destruct (Hl j Hj).
    + intros j Hj. apply Hx. destruct (decide (j = i)) as [->|Hne]; [by eexists|].
      by rewrite lookup_delete_ne in Hj.
  - split; try done. intros j. split; [apply Hn|]. intros Hj. destruct (Hl j Hj) as [?| ->]; [done|].
    rewrite He in Hj. by destruct Hj.
Qed.

Lemma ok_but_named hole en : engine_ok_but c hole en -> names en hole -> engine_ok c en.
Proof.
  intros [? ? ? Hn Hl ?] Hh. split; try done. intros j. split; [apply Hn|].
  intros Hj. destruct (Hl j Hj) as [?| ->]; done.
Qed.

Lemma reclaim_frame i en :
  en_pins (reclaim i en) = en_pins en /\ en_routes (reclaim i en) = en_routes en /\
  en_history_limit (reclaim i en) = en_history_limit en.
Proof. unfold reclaim. by repeat case_match. Qed.

Lemma pin_ok i en : engine_ok c en -> is_Some (en_entries en !! i) -> engine_ok c (pin i en).
Proof.
  intros [? ? ? Hn ?] Hi. split; try done. intros j. unfold names. cbn. rewrite elem_of_cons.
  unfold names in Hn. split; [|intros Hj; apply Hn in Hj; naive_solver].
  intros [[->|Hp]|Hr]; [done|apply Hn; by left|apply Hn; by right].
Qed.

Lemma remove_one_Permutation i l : i ∈ l -> l ≡ₚ i :: remove_one i l.
Proof.
  induction l as [|j l IH]; [by intros ?%elem_of_nil|]. cbn [remove_one].
  case_decide as E; [by subst|]. intros [?|Hi]%elem_of_cons; [done|].
  rewrite (IH Hi) at 1. by rewrite Permutation_swap.
Qed.

Lemma remove_one_notin i l : i ∉ l -> remove_one i l = l.
Proof.
  induction l as [|j l IH]; [done|]. intros [? ?]%not_elem_of_cons. cbn [remove_one].
  rewrite decide_False by done. by rewrite IH.
Qed.

Lemma unpin_ok i en : engine_ok c en -> engine_ok c (unpin i en).
Proof.
  intros Hok. apply reclaim_ok. destruct Hok as [Hc Hw Hk Hn Hx]. split; try done.
  - intros j Hj. apply Hn. unfold names in *. cbn in Hj. destruct Hj as [Hj|?]; [left|by right].
    destruct (decide (i ∈ en_pins en)) as [Hi|Hi]; [|by rewrite remove_one_notin in Hj].
    rewrite (remove_one_Permutation i _ Hi). apply elem_of_cons. by right.
  - intros j Hj. apply Hn in Hj. unfold names in *. cbn. destruct Hj as [Hj|?]; [|naive_solver].
    destruct (decide (i ∈ en_pins en)) as [Hi|Hi]; [|rewrite remove_one_notin by done; naive_solver].
    rewrite (remove_one_Permutation i _ Hi) in Hj. apply elem_of_cons in Hj as [->|?]; naive_solver.
Qed.

Lemma unpin_pins i en : en_pins (unpin i en) = remove_one i (en_pins en).
Proof. unfold unpin. by destruct (reclaim_frame i (set_pins (remove_one i (en_pins en)) en)) as (-> & _). Qed.

Lemma unpin_limit i en : en_history_limit (unpin i en) = en_history_limit en.
Proof. unfold unpin. by destruct (reclaim_frame i (set_pins (remove_one i (en_pins en)) en)) as (_ & _ & ->). Qed.

(** *** Calls that keep the invariant *)

(** The engine stays well formed, and the predicts in flight stay what they are. *)
Definition keeps {A} (m : Run (Engine W) A) : Prop :=
  forall en en' r, m en = Some (en', r) -> engine_ok c en ->
    engine_ok c en' /\ en_pins en' ≡ₚ en_pins en /\ en_history_limit en' = en_history_limit en.

Lemma keeps_done {A} (a : A) : keeps (done a).
Proof. by intros en en' r [= <- <-]. Qed.

Lemma keeps_fails {A} e : keeps (fails (A := A) e).
Proof. by intros en en' r [= <- <-]. Qed.

Lemma keeps_pure {A} (o : option (result A Error)) : keeps (pure o).
Proof. intros en en' r. unfold pure. destruct o; [|done]. by intros [= <- <-]. Qed.

Lemma keeps_bind {A B} (m : Run (Engine W) A) (k : A -> Run (Engine W) B) :
  keeps m -> (forall a, keeps (k a)) -> keeps (run_bind m k).
Proof.
  intros Hm Hk en en' r. unfold run_bind. destruct (m en) as [[en1 [a|e]]|] eqn:E; [| |done].
  - intros Hr Hok. destruct (Hm _ _ _ E Hok) as (Hok1 & Hp1 & Hl1).
    destruct (Hk a _ _ _ Hr Hok1) as (? & Hp2 & ?). split_and!; [done|by rewrite Hp2|congruence].
  - intros [= <- <-] Hok. by eapply Hm.
Qed.

Lemma keeps_for_each {A B} (f : nat -> A -> Run (Engine W) B) i l :
  (forall j x, keeps (f j x)) -> keeps (for_each f i l).
Proof.
  intros Hf. revert i; induction l as [|x l IH]; intros i; cbn [for_each]; [apply keeps_done|].
  apply keeps_bind; [apply Hf|]. intros y. apply keeps_bind; [apply IH|]. intros ys. apply keeps_done.
Qed.

Lemma keeps_attempt {A} (m : Run (Engine W) A) : keeps m -> keeps (attempt m).
Proof.
  intros Hm en en' r. unfold attempt. destruct (m en) as [[en1 r1]|] eqn:E; [|done].
  intros [= <- <-]. by apply (Hm _ _ _ E).
Qed.

Lemma keeps_host {A} (m : Run (gset string * W) A) : keeps (with_host m).
Proof.
  intros en en' r. unfold with_host. destruct (m _) as [[[w h] r1]|]; [|done].
  intros [= <- <-] [? ? ? ? ?]. by split_and!.
Qed.

Lemma keeps_config i : keeps (config_of i).
Proof. intros en en' r. unfold config_of. destruct (_ !! i); [|done]. by intros [= <- <-]. Qed.

(** A call under an entry's lock that ends by publishing, or changes nothing. *)
Definition publishing {A}
    (f : RouteEntry -> HeldTotals -> option ((RouteEntry * HeldTotals) * result A Error)) : Prop :=
  forall e total e' total' r, f e total = Some ((e', total'), r) ->
    (e' = e /\ total' = total) \/ exists b, publish_held (set_buffers b e) total = Some (e', total').

Lemma keeps_entry {A} i f : publishing f -> keeps (with_entry (A := A) i f).
Proof.
  intros Hf en en' r. unfold with_entry. destruct (en_entries en !! i) as [e|] eqn:He; [|done]. cbn.
  destruct (f e (en_held en)) as [[[e' held'] r']|] eqn:E; [|done]. intros [= <- <-] Hok.
  destruct (Hf _ _ _ _ _ E) as [[-> ->]|[b Hb]].
  { rewrite insert_id by done. by destruct en, Hok. }
  destruct Hok as [Hc Hw Hk Hn Hx].
  destruct (publish_cells _ i e (set_buffers b e) e' _ _ He eq_refl Hc Hb) as (Hc' & Hw' & Hs).
  assert (Hdom : forall j, is_Some (<[i:=e']> (en_entries en) !! j) <-> is_Some (en_entries en !! j)).
  { intros j. destruct (decide (i = j)) as [<-|Hne]; [|by rewrite lookup_insert_ne].
    rewrite lookup_insert_eq, He. split; by eexists. }
  split_and!; [|done|done]. split; cbn; [done|..].
  - by apply map_Forall_insert_2.
  - apply map_Forall_insert_2; [|done]. rewrite Hs. specialize (Hk i e He). by destruct Hk.
  - intros j. rewrite Hdom. apply Hn.
  - intros j. rewrite Hdom. apply Hx.
Qed.
End Steps.

Create HintDb engine discriminated.
#[export] Hint Resolve keeps_done keeps_fails keeps_pure keeps_bind keeps_for_each keeps_attempt keeps_host keeps_config keeps_entry : engine.

Section Operations.
Context `{HalfOps} `{ImageCodec} `{Libm} (addr : Z) (alloc : nat -> nat -> Z).
Context (protocol_text : ProtocolError -> message) (downcast : string -> option Error).
Context {W : Type} `{Host W}.
Implicit Types en : Engine W.

#[local] Notation keeps := (keeps (W := W) corners).
#[local] Notation engine_ok := (engine_ok (W := W) corners).

(** *** Predicts *)

Lemma assemble_publishing o : publishing (assemble_route_inputs addr alloc protocol_text downcast o).
Proof.
  intros e total e' total' r. unfold assemble_route_inputs.
  destruct (admit_fresh_lanes _ _ _); [|intros [= <- <- <-]; by left].
  destruct (assemble_route_inputs_inner _ _ _ _ _ _ _) as [[b r']|]; [|done]. cbn.
  destruct (publish_held _ _) as [[e1 t1]|] eqn:E; [|done]. intros [= <- <- <-]. right. by eexists.
Qed.

Lemma finish_publishing raw episodes : publishing (finish_route_frames addr downcast raw episodes).
Proof.
  intros e total e' total' r. unfold finish_route_frames.
  destruct (finish_route_frames_inner _ _ _ _ _ _) as [[b r']|]; [|done]. cbn.
  destruct (publish_held _ _) as [[e1 t1]|] eqn:E; [|done]. intros [= <- <- <-]. right. by eexists.
Qed.

Lemma evict_publishing ids : publishing (evict_episodes ids).
Proof.
  intros e total e' total' r. unfold evict_episodes.
  destruct (publish_held _ _) as [[e1 t1]|] eqn:E; [|done]. intros [= <- <- <-]. right. by eexists.
Qed.

Lemma clear_publishing : publishing clear_entry.
Proof.
  intros e total e' total' r. unfold clear_entry.
  destruct (publish_held _ _) as [[e1 t1]|] eqn:E; [|done]. intros [= <- <- <-]. right. by eexists.
Qed.

#[local] Hint Resolve assemble_publishing finish_publishing evict_publishing clear_publishing : engine.

Lemma predict_route_keeps i o : keeps (predict_route addr alloc protocol_text downcast i o).
Proof. unfold predict_route. auto 10 with engine. Qed.

Lemma stage_keeps pair : keeps (stage addr alloc protocol_text downcast pair).
Proof. destruct pair as [[h|i] o]; cbn [stage]; auto 12 with engine. Qed.

Lemma settle_keeps index s : keeps (settle_staged index s).
Proof. destruct s as [o h|[[inputs config]|err] es i n]; cbn [settle_staged]; auto 12 with engine. Qed.

Lemma finish_group_keeps pair : keeps (finish_group addr downcast pair).
Proof. destruct pair as [g frames]. cbn [finish_group]. auto 12 with engine. Qed.

#[local] Hint Resolve predict_route_keeps stage_keeps settle_keeps finish_group_keeps : engine.

Lemma predict_bucket_keeps bucket : keeps (predict_bucket addr downcast bucket).
Proof.
  destruct bucket as [h groups]. cbn [predict_bucket]. case_match.
  - apply keeps_bind; [apply keeps_attempt; case_match; auto with engine|].
    intros [frames|err]; auto with engine.
  - apply keeps_for_each. intros _ g. unfold predict_separately. auto 12 with engine.
Qed.

#[local] Hint Resolve predict_bucket_keeps : engine.

Lemma grouped_fused_keeps lanes obs :
  keeps (predict_grouped_fused addr alloc protocol_text downcast lanes obs).
Proof. unfold predict_grouped_fused. auto 12 with engine. Qed.

(** Routes name live entries. *)
Lemma entry_live env_id en i :
  engine_ok en -> route_entry env_id en = Some i -> is_Some (en_entries en !! i).
Proof. intros Hok Hi. apply Hok. right. by exists env_id. Qed.

Lemma predict_chunked_keeps o : keeps (predict_chunked addr alloc protocol_text downcast o).
Proof.
  intros en en' r. unfold predict_chunked. destruct (route_entry _ en) as [i|] eqn:Hi; [|by apply keeps_host].
  destruct (predict_route _ _ _ _ _ _ _) as [[en1 r1]|] eqn:E; [|done]. cbn. intros [= <- <-] Hok.
  destruct (predict_route_keeps _ _ _ _ _ E) as (Hok1 & Hp1 & Hl1).
  { apply pin_ok; [done|]. by eapply entry_live. }
  split_and!; [by apply unpin_ok| |by rewrite unpin_limit].
  rewrite unpin_pins. apply (Permutation_cons_inv (a := i)). rewrite <- remove_one_Permutation; [done|].
  rewrite Hp1. apply elem_of_cons. by left.
Qed.

Lemma pin_all_ok pins en :
  engine_ok en -> Forall (fun i => is_Some (en_entries en !! i)) pins ->
  engine_ok (foldr pin en pins) /\ en_pins (foldr pin en pins) = (pins ++ en_pins en)%list /\
  en_entries (foldr pin en pins) = en_entries en /\
  en_history_limit (foldr pin en pins) = en_history_limit en.
Proof.
  intros Hok. induction 1 as [|i pins Hi _ (IH & Hp & He & Hl)]; [done|]. cbn [foldr].
  split_and!; [|by cbn; rewrite Hp|done|done]. apply pin_ok; [done|]. by rewrite He.
Qed.

Lemma unpin_all_ok pins others en :
  engine_ok en -> en_pins en ≡ₚ (pins ++ others)%list ->
  engine_ok (foldr unpin en pins) /\ en_pins (foldr unpin en pins) ≡ₚ others /\
  en_history_limit (foldr unpin en pins) = en_history_limit en.
Proof.
  revert en. induction pins as [|i pins IH] using rev_ind; intros en Hok Hp; [done|].
  rewrite foldr_app. cbn [foldr].
  destruct (IH (unpin i en)) as (? & ? & ?); [by apply unpin_ok| |by rewrite <- (unpin_limit i en)].
  rewrite unpin_pins. apply (Permutation_cons_inv (a := i)). rewrite <- remove_one_Permutation.
  - rewrite Hp, <- (assoc_L app). cbn. by rewrite Permutation_middle.
  - rewrite Hp. apply elem_of_app. left. apply elem_of_app. right. by apply list_elem_of_singleton.
Qed.

Lemma group_lanes_live en obs :
  engine_ok en ->
  Forall (fun i => is_Some (en_entries en !! i)) (lane_pins (group_lane en <$> obs)).
Proof.
  intros Hok. induction obs as [|o obs IH]; [done|]. unfold lane_pins in *. cbn.
  unfold group_lane at 1. destruct (route_entry _ en) as [i|] eqn:Hi; [|done].
  constructor; [by eapply entry_live|done].
Qed.

Lemma predict_grouped_keeps obs : keeps (predict_grouped addr alloc protocol_text downcast obs).
Proof.
  intros en en' r. unfold predict_grouped. case_match.
  { apply keeps_for_each. intros _ o. apply keeps_attempt, predict_chunked_keeps. }
  destruct (predict_grouped_fused _ _ _ _ _ _ _) as [[en1 r1]|] eqn:E; [|done]. cbn. intros [= <- <-] Hok.
  destruct (pin_all_ok _ _ Hok (group_lanes_live en obs Hok)) as (Hok1 & Hp1 & _ & Hl1).
  destruct (grouped_fused_keeps _ _ _ _ _ E Hok1) as (Hok2 & Hp2 & Hl2).
  destruct (unpin_all_ok (lane_pins (group_lane en <$> obs)) (en_pins en) en1) as (? & ? & ?); [done| |].
  - by rewrite Hp2, Hp1.
  - split_and!; [done|done|congruence].
Qed.

(** *** Route setup *)

Lemma install_ok env_id e en :
  engine_ok en -> config_ok corners (en_history_limit en) e ->
  re_published e = held_zero -> held_now e = Some held_zero -> engine_ok (install env_id e en).
Proof.
  intros [(C1 & C2 & C3) Hw Hk Hn Hx] He Hp Hh.
  assert (Hfree : en_entries en !! en_next en = None).
  { destruct (_ !! _) eqn:E; [|done]. assert (en_next en < en_next en)%nat; [apply Hx; by eexists|lia]. }
  assert (Hbut : forall hole, default (en_next en) (route_entry env_id en) = hole ->
    engine_ok_but corners hole (set_next (S (en_next en))
      (set_store (<[en_next en := e]> (en_entries en)) (en_held en)
        (set_routes (<[env_id := en_next en]> (en_routes en)) en)))).
  { intros hole <-. split; cbn.
    - unfold cells_ok. by rewrite !held_sum_new, Hp, C1, C2, C3.
    - apply map_Forall_insert_2; [by rewrite Hp|done].
    - by apply map_Forall_insert_2.
    - unfold names. cbn. intros j Hj. destruct (decide (en_next en = j)) as [<-|Hne].
      { rewrite lookup_insert_eq. by eexists. }
      rewrite lookup_insert_ne by done. apply Hn. destruct Hj as [?|(env & Hj)]; [by left|right].
      exists env. by apply lookup_insert_Some in Hj as [[? ?]|[? ?]].
    - unfold names. cbn. intros j Hj. destruct (decide (en_next en = j)) as [<-|Hne].
      { left. right. exists env_id. by rewrite lookup_insert_eq. }
      rewrite lookup_insert_ne in Hj by done. apply Hn in Hj as [?|(env & Hj)]; [by left; left|].
      destruct (decide (env_id = env)) as [<-|Henv].
      + right. unfold route_entry. by rewrite Hj.
      + left; right. exists env. by rewrite lookup_insert_ne.
    - intros j. destruct (decide (en_next en = j)) as [<-|Hne]; [lia|].
      rewrite lookup_insert_ne by done. intros ?%Hx. lia. }
  unfold install. destruct (route_entry env_id en) as [i|] eqn:Hi.
  - by apply reclaim_ok, Hbut.
  - eapply ok_but_named; [by apply Hbut|]. right. exists env_id. cbn. by rewrite lookup_insert_eq.
Qed.

Lemma install_frame env_id e en :
  en_pins (install env_id e en) = en_pins en /\
  en_history_limit (install env_id e en) = en_history_limit en.
Proof.
  unfold install. destruct (route_entry env_id en) as [i|]; [|done].
  match goal with |- context [reclaim ?i ?x] => destruct (reclaim_frame i x) as (-> & _ & ->) end. done.
Qed.

Lemma keeps_fresh e : re_buffers e = buffers_new -> held_now e = Some held_zero.
Proof. intros Hb. unfold held_now. rewrite Hb. cbn. done. Qed.

(** The doors a route passes on its way in. *)
Lemma doors_ok horizon :
  check_horizon_doors horizon (native_chunk corners) corners = Ok tt ->
  1 <= Z.max horizon 1 <= MAX_EXECUTION_HORIZON /\
  forall native, native_chunk corners = Some native ->
    Z.max horizon 1 <= Z.max 1 native /\ (has_chunk corners = true \/ has_chunk_batch corners = true).
Proof.
  unfold check_horizon_doors, MAX_EXECUTION_HORIZON. destruct (_ <? horizon) eqn:E1; [done|].
  apply Z.ltb_ge in E1. intros Hd. split; [lia|]. intros native Hn. rewrite Hn in Hd.
  destruct (has_chunk corners), (has_chunk_batch corners); cbn in Hd; try done;
    destruct (native <? horizon) eqn:E2; try done; apply Z.ltb_ge in E2; split; lia || tauto.
Qed.

Lemma lane_window_bytes_bounds windows n : lane_window_bytes windows = Some n -> 0 <= n <= u64_max.
Proof.
  destruct windows as [|w windows]; cbn; [intros [= <-]; unfold u64_max; lia|].
  unfold lane_window_bytes. cbn. destruct (sum_u64 _); [|done]. cbn. intros [-> ?]%checked_Some. done.
Qed.

Lemma terms_ok config options num_envs limit config' history n :
  history_terms config options num_envs limit = Some (Ok (config', history)) ->
  lane_window_bytes (history_windows (rc_adapter config)) = Some n ->
  rc_adapter config' = rc_adapter config /\ rc_execution_horizon config' = rc_execution_horizon config /\
  (history_keys (rc_adapter config) <> [] -> 1 < rc_execution_horizon config ->
     rc_delivers_history config' = true) /\
  (history_keys (rc_adapter config) <> [] -> n <= limit).
Proof.
  unfold history_terms. destruct (history_keys (rc_adapter config)) as [|k ks]; [by intros [= <- <-]|].
  unfold check_history_budget. destruct (lane_window_bytes _) as [per|] eqn:Hn; [|done]. cbn.
  intros Ht [= <-]. pose proof (lane_window_bytes_bounds _ _ Hn) as Hb.
  destruct (limit <? _) eqn:El; [done|]. apply Z.ltb_ge in El.
  assert (per <= limit).
  { unfold saturating_u64, saturate in El. unfold u64_max in *. nia. }
  destruct (ro_delivers_history options); [injection Ht as <- <-; by split_and!|].
  destruct (1 <? _) eqn:Eh; [done|]. injection Ht as <- <-. apply Z.ltb_ge in Eh. split_and!; lia || done.
Qed.

Lemma keeps_state {A} (f : Engine W -> Engine W) (a : A) :
  (forall en, engine_ok en -> engine_ok (f en) /\ en_pins (f en) = en_pins en /\
     en_history_limit (f en) = en_history_limit en) ->
  keeps (fun en => Some (f en, Ok a)).
Proof.
  intros Hf en en' r [= <- <-] Hok. destruct (Hf en Hok) as (? & -> & ?). by split_and!.
Qed.

Lemma resolve_adapter_keeps env_id contract options :
  keeps (resolve_adapter env_id contract options).
Proof.
  unfold resolve_adapter. destruct (check_horizon_doors _ _ _) as [[]|e] eqn:Hd; [|by intros en en' r [= <- <-]].
  apply doors_ok in Hd as [Hh Hnat]. apply keeps_bind; [apply keeps_pure|intros _].
  apply keeps_bind; [apply keeps_host|]. intros [config|]; [|apply keeps_state; by intros en []].
  destruct (lane_window_bytes _) as [n|] eqn:Hn; [|by intros en en' r].
  intros en en' r. cbn. destruct (history_terms _ _ _ _) as [[[config' history]|e]|] eqn:Ht; [| |done].
  - intros [= <- <-] Hok. destruct (terms_ok _ _ _ _ _ _ n Ht Hn) as (Ha & He & Hd & Hb). cbn in Ha, He, Hd, Hb.
    match goal with |- context [install ?i ?e ?x] => destruct (install_frame i e x) as (-> & ->) end.
    split_and!; [|done|done]. apply install_ok; [done| |done|done].
    split; cbn; rewrite ?Ha, ?He; done.
  - by intros [= <- <-].
Qed.

Lemma setup_reset_keeps env_id ids : keeps (setup_reset_adapter env_id ids).
Proof.
  intros en en' r. unfold setup_reset_adapter. destruct (route_entry env_id en) as [i|].
  - apply keeps_entry, evict_publishing.
  - by intros [= <- <-].
Qed.

Lemma reset_adapter_keeps env_id ids : keeps (reset_adapter env_id ids).
Proof.
  apply keeps_bind; [apply keeps_state; by intros en []|]. intros _. destruct ids; auto 12 with engine.
Qed.

Lemma release_ok env_id en i :
  engine_ok en -> route_entry env_id en = Some i ->
  engine_ok (reclaim i (set_horizons (delete env_id (en_spec_less_horizons en))
    (set_routes (delete env_id (en_routes en)) en))).
Proof.
  intros [Hc Hw Hk Hn Hx] Hi. apply reclaim_ok. split; try done; unfold names in *; cbn.
  - intros j Hj. apply Hn. destruct Hj as [?|(env & Hj)]; [by left|right].
    exists env. by apply lookup_delete_Some in Hj as [_ ?].
  - intros j Hj. apply Hn in Hj as [?|(env & Hj)]; [by left; left|].
    destruct (decide (env_id = env)) as [<-|Hne].
    + right. unfold route_entry in Hi. congruence.
    + left; right. exists env. by rewrite lookup_delete_ne.
Qed.

Lemma release_adapter_keeps env_id : keeps (release_adapter env_id).
Proof.
  apply keeps_bind; [|auto with engine]. apply keeps_state. intros en Hok.
  destruct (route_entry env_id en) as [i|] eqn:Hi.
  - match goal with |- context [reclaim ?i ?x] => destruct (reclaim_frame i x) as (-> & _ & ->) end.
    split_and!; [by apply release_ok|done|done].
  - unfold route_entry in Hi. rewrite (delete_id (en_routes en)) by done. split_and!; [|done|done]. by destruct Hok; split.
Qed.

Lemma on_close_keeps : keeps on_close.
Proof.
  intros en en' r. apply keeps_bind; [|auto with engine].
  apply keeps_for_each. intros _ i. apply keeps_entry, clear_publishing.
Qed.

(** ** Serving

    Predicts in flight next to route setup.  A predict locks its route while it
    assembles and again while it finishes; between the two, and while the model runs,
    anything else may happen: other predicts of the same route, a reset, a re-resolve or
    a release of the env. *)

Inductive PredictTask : Type :=
| Assembling (entry : nat) (o : ModelObservation)
| Calling (entry : nat) (o : ModelObservation) (inputs : list Value)
| Finishing (entry : nat) (o : ModelObservation) (raw : list (list Value)).

Definition task_entry (t : PredictTask) : nat :=
  match t with Assembling i _ | Calling i _ _ | Finishing i _ _ => i end.

Definition task_step (t : PredictTask) : Run (Engine W) (PredictTask + PredictFrames) :=
  match t with
  | Assembling i o =>
      let^ inputs := with_entry i (assemble_route_inputs addr alloc protocol_text downcast o) in
      done (inl (Calling i o inputs))
  | Calling i o inputs =>
      let^ config := config_of i in
      let^ raw := with_host (dispatch_route_corners downcast inputs (mo_episodes o)
        (rc_execution_horizon config) (mo_num_envs o)) in
      done (inl (Finishing i o raw))
  | Finishing i o raw =>
      let^ frames := with_entry i (finish_route_frames addr downcast raw (mo_episodes o)) in
      done (inr frames)
  end.

(** The calls that run as one, with their answers dropped. *)
Inductive Operation : Type :=
| OpPredict (o : ModelObservation)
| OpPredictGrouped (observations : list ModelObservation)
| OpResolve (env_id : string) (contract : EnvContract) (options : ResolveOptions)
| OpSetupReset (env_id : string) (episode_ids : list string)
| OpReset (env_id : string) (episode_ids : list string)
| OpRelease (env_id : string)
| OpClose.

Definition ignore {S A} (m : Run S A) : Run S unit := let^ _ := m in done tt.

Definition run_operation (op : Operation) : Run (Engine W) unit :=
  match op with
  | OpPredict o => ignore (predict_chunked addr alloc protocol_text downcast o)
  | OpPredictGrouped obs => ignore (predict_grouped addr alloc protocol_text downcast obs)
  | OpResolve env_id contract options => ignore (resolve_adapter env_id contract options)
  | OpSetupReset env_id ids => setup_reset_adapter env_id ids
  | OpReset env_id ids => reset_adapter env_id ids
  | OpRelease env_id => release_adapter env_id
  | OpClose => on_close
  end.

Definition Served : Type := Engine W * list PredictTask.

(** What happens next. *)
Inductive Label : Type :=
| Arrives (o : ModelObservation)
| Runs (t : PredictTask)
| Calls (op : Operation).

Inductive serve : Label -> Served -> Served -> Prop :=
| serve_arrive en ts o i :
    route_entry (rt_env_id (mo_route o)) en = Some i ->
    serve (Arrives o) (en, ts) (pin i en, Assembling i o :: ts)
| serve_advance en ts1 t ts2 en' t' :
    task_step t en = Some (en', Ok (inl t')) ->
    serve (Runs t) (en, (ts1 ++ t :: ts2)%list) (en', (ts1 ++ t' :: ts2)%list)
| serve_return en ts1 t ts2 en' frames :
    task_step t en = Some (en', Ok (inr frames)) ->
    serve (Runs t) (en, (ts1 ++ t :: ts2)%list) (unpin (task_entry t) en', (ts1 ++ ts2)%list)
| serve_fail en ts1 t ts2 en' err :
    task_step t en = Some (en', Err err) ->
    serve (Runs t) (en, (ts1 ++ t :: ts2)%list) (unpin (task_entry t) en', (ts1 ++ ts2)%list)
| serve_operation en ts op en' r :
    run_operation op en = Some (en', r) -> serve (Calls op) (en, ts) (en', ts).

Definition serve_step (s s' : Served) : Prop := exists l, serve l s s'.

(** A predict that runs alone is its stages in a row. *)
Lemma predict_route_stages i o en :
  predict_route addr alloc protocol_text downcast i o en =
  run_bind (task_step (Assembling i o)) (fun t1 =>
    match t1 with
    | inl t1 => run_bind (task_step t1) (fun t2 =>
        match t2 with
        | inl t2 => run_bind (task_step t2) (fun t3 =>
            match t3 with inl _ => fails (Internal (lit EmptyString)) | inr frames => done frames end)
        | inr frames => done frames
        end)
    | inr frames => done frames
    end) en.
Proof.
  unfold predict_route, run_bind. cbn. unfold run_bind.
  destruct (with_entry _ _ en) as [[en1 [inputs|e]]|]; [|done..]. cbn. unfold run_bind.
  destruct (config_of i en1) as [[en2 [config|e]]|]; [|done..].
  destruct (with_host _ en2) as [[en3 [raw|e]]|]; [|done..]. cbn. unfold run_bind.
  destruct (with_entry _ _ en3) as [[en4 [frames|e]]|]; done.
Qed.

Definition served_ok (limit : Z) (s : Served) : Prop :=
  engine_ok s.1 /\ en_pins s.1 ≡ₚ task_entry <$> s.2 /\ en_history_limit s.1 = limit.

Lemma task_step_keeps t : keeps (task_step t).
Proof. destruct t; cbn [task_step]; auto 12 with engine. Qed.

Lemma task_step_entry t en en' t' :
  task_step t en = Some (en', Ok (inl t')) -> task_entry t' = task_entry t.
Proof.
  destruct t; cbn; unfold run_bind, Engine.done; intros Hs; repeat case_match; simplify_eq/=; done.
Qed.

Lemma run_operation_keeps op : keeps (run_operation op).
Proof.
  destruct op; cbn [run_operation]; unfold ignore;
    auto using predict_chunked_keeps, predict_grouped_keeps, resolve_adapter_keeps, setup_reset_keeps,
      reset_adapter_keeps, release_adapter_keeps, on_close_keeps with engine.
Qed.

(** A task that is over gives up its name. *)
Lemma task_over_ok limit en ts1 t ts2 en' r :
  served_ok limit (en, (ts1 ++ t :: ts2)%list) -> task_step t en = Some (en', r) ->
  served_ok limit (unpin (task_entry t) en', (ts1 ++ ts2)%list).
Proof.
  intros (Hok & Hp & Hl) Ht. destruct (task_step_keeps t _ _ _ Ht Hok) as (Hok' & Hp' & Hl').
  cbn in *. split_and!; cbn; [by apply unpin_ok| |by rewrite unpin_limit, Hl'].
  rewrite unpin_pins. apply (Permutation_cons_inv (a := task_entry t)).
  rewrite fmap_app, fmap_cons in Hp. rewrite <- remove_one_Permutation, Hp', Hp, fmap_app.
  - by rewrite Permutation_middle.
  - rewrite Hp', Hp. apply elem_of_app. right. apply elem_of_cons. by left.
Qed.

Lemma serve_ok limit l s s' : serve l s s' -> served_ok limit s -> served_ok limit s'.
Proof.
  destruct 1 as [en ts o i Hi|en ts1 t ts2 en' t' Ht|en ts1 t ts2 en' fs Ht|en ts1 t ts2 en' e Ht|en ts op en' r Ho];
    intros Hs; try (by eapply task_over_ok).
  - destruct Hs as (Hok & Hp & Hl). split_and!; [|by cbn in *; rewrite Hp|done].
    apply pin_ok; [done|]. by eapply entry_live.
  - destruct Hs as (Hok & Hp & Hl). destruct (task_step_keeps t _ _ _ Ht Hok) as (? & Hp' & ?).
    split_and!; [done| |cbn in *; congruence]. cbn in *. rewrite Hp', Hp, !fmap_app, !fmap_cons.
    by rewrite (task_step_entry _ _ _ _ Ht).
  - destruct Hs as (Hok & Hp & Hl). destruct (run_operation_keeps op _ _ _ Ho Hok) as (? & Hp' & ?).
    split_and!; [done| |cbn in *; congruence]. cbn in *. by rewrite Hp', Hp.
Qed.

Lemma served_reachable limit w s : rtc serve_step (engine_new limit w, []) s -> served_ok limit s.
Proof.
  intros Hr. apply (rtc_ind_r (R := serve_step) (served_ok limit) (engine_new limit w, [])); [| |done].
  - split_and!; [|done|done]. split; cbn; try (by intros ? []); [done|apply map_Forall_empty..|].
    intros i. unfold names. cbn. rewrite lookup_empty. split; [|by intros []].
    intros [?%elem_of_nil|(env & He)]; done.
  - intros s1 s2 _ [l Hstep] Hs. by eapply serve_ok.
Qed.

(** What the live routes hold. *)
Definition live_episodes (en : Engine W) : Z :=
  map_fold (fun _ e acc => Z.of_nat (episodes (re_buffers e)) + acc) 0 (en_entries en).
Definition live_bytes (en : Engine W) : Z :=
  map_fold (fun _ e acc => default 0 (state_bytes (re_buffers e)) + acc) 0 (en_entries en).

Lemma held_sums en :
  engine_ok en ->
  held_sum ht_episodes (en_entries en) = live_episodes en /\ held_sum ht_bytes (en_entries en) = live_bytes en.
Proof.
  intros [_ Hw _ _ _]. split; apply map_fold_agree; intros i e acc He; unfold add_share;
    specialize (Hw i e He); unfold held_now in Hw; cbn in Hw;
    destruct (state_bytes (re_buffers e)); [|done| |done]; injection Hw as <-; done.
Qed.
End Operations.

(** ** Properties *)

(** C9: Under every interleaving of predicts with resolves, resets, releases and closes, what
    the endpoint reports holding is what its live routes hold, as [u64]s wrap, and a
    route is live exactly as long as an env or a predict in flight names it: no total
    drifts, and nothing outlives its last user. *)
Theorem held_state_exact `{HalfOps} `{ImageCodec} `{Libm} (addr : Z) (alloc : nat -> nat -> Z)
    (protocol_text : ProtocolError -> message) (downcast : string -> option Error)
    {W : Type} `{Host W} (limit : Z) (w : W) (en : Engine W) (ts : list PredictTask) :
  rtc (serve_step addr alloc protocol_text downcast) (engine_new limit w, []) (en, ts) ->
  held_state en = {| hs_episodes := wrap_u 64 (live_episodes en); hs_bytes := wrap_u 64 (live_bytes en) |} /\
  forall i, is_Some (en_entries en !! i) <->
    (exists env_id, route_entry env_id en = Some i) \/ exists t, t ∈ ts /\ task_entry t = i.
Proof.
  intros (Hok & Hp & _)%served_reachable. cbn in Hok, Hp. destruct (held_sums en Hok) as [He Hb]. split.
  - destruct (ok_cells _ _ Hok) as (C1 & C2 & _). unfold held_state. by rewrite C1, C2, He, Hb.
  - intros i. rewrite <- (ok_named _ _ Hok). unfold names, route_entry. rewrite Hp, list_elem_of_fmap.
    naive_solver.
Qed.

(** C12: Every route that serves, under any interleaving, passed the doors: its horizon is in
    range and no more than the model's native chunk, which a chunk corner answers; its
    windows see every step, or the horizon is one; one lane of it fits the budget. *)
Theorem live_routes_configured `{HalfOps} `{ImageCodec} `{Libm} (addr : Z) (alloc : nat -> nat -> Z)
    (protocol_text : ProtocolError -> message) (downcast : string -> option Error)
    {W : Type} `{Host W} (limit : Z) (w : W) (en : Engine W) (ts : list PredictTask) (i : nat) (e : RouteEntry) :
  rtc (serve_step addr alloc protocol_text downcast) (engine_new limit w, []) (en, ts) ->
  en_entries en !! i = Some e -> config_ok corners limit e.
Proof.
  intros (Hok & _ & Hl)%served_reachable He. cbn in Hok, Hl. rewrite <- Hl. exact (ok_config _ _ Hok i e He).
Qed.

(** ** A sample host *)

(** Frames of twelve bytes, stacked three steps deep, and actions of three elements. *)
Definition sample_observation_space : SpaceSpec :=
  mkSpec [] Unspecified (Some (KDict (mkDictSpec ["cam"]
    [mkSpec [2; 2; 3] Uint8 (Some (KBox {| bounds := Some (Unbounded true) |}))]))).
Definition sample_actions_space : SpaceSpec :=
  mkSpec [3] Float32 (Some (KBox {| bounds := Some (Unbounded true) |})).

Definition sample_contract : EnvContract :=
  {| contract_id := "env"; action_space := Some sample_actions_space;
     observation_space := Some sample_observation_space; metadata := None; render_mode := EmptyString;
     num_envs := 1; autoreset_mode := Disabled |}.

Definition stacked_previous_adapter : ResolvedAdapter :=
  {| ra_obs_plans := [OImage stacked_plan]; ra_action_plan := sample_action;
     ra_stacked := [stacked_frame_entry]; ra_previous := ["rgb"];
     ra_resolve_advisories := []; ra_quiet_advisories := [] |}.

Definition sample_config : RouteConfig :=
  route_config_new stacked_previous_adapter sample_observation_space sample_actions_space NoCustoms NoEncodings.

(** A model that answers every input with the same two-action chunk, on a route for
    every env but "bare". *)
#[export] Instance sample_host : Host (list message) := {|
  corners := {| has_chunk := false; has_batch := true; has_chunk_batch := true; allow_fusion := true;
                native_chunk := Some 2 |};
  predict _ _ := done (sample_row 1);
  predict_chunk _ _ _ := done None;
  predict_batch inputs _ := done ((fun _ => sample_row 1) <$> inputs);
  predict_chunk_batch inputs _ _ := done ((fun _ => ValList [sample_row 1; sample_row 2]) <$> inputs);
  predict_spec_less_chunked _ _ := fails (error_model (lit "no adapter"));
  on_episode_end _ := done tt;
  on_route_reset _ := done tt;
  on_route_release _ := done tt;
  host_on_close := done tt;
  resolve_route env_id _ := done (if String.eqb env_id "bare" then None else Some sample_config);
  warn m := fun ms => Some ((ms ++ [m])%list, Ok tt);
|}.

Definition sample_request (env_id : string) (episodes : list string) (step : Z) : ModelObservation :=
  {| mo_observation := Some [concat ((fun _ => sample_bytes) <$> episodes)];
     mo_route := {| rt_session_id := "s"; rt_env_id := env_id; rt_request_id := "r";
                    rt_episodes := (fun ep => {| ei_episode_id := ep; ei_seed := None; ei_env_id := env_id |})
                                     <$> episodes |};
     mo_num_envs := length episodes; mo_env_contract := Some sample_contract; mo_history := [];
     mo_step := Some step |}.

#[local] Notation sample_step := (serve_step (H := ieee_half) (H0 := no_codec) (H1 := no_libm) 0
  (fun _ _ => 4096) (fun _ => lit "protocol") (fun _ => None)).

Definition sample_options : ResolveOptions := {| ro_execution_horizon := 2; ro_delivers_history := true |}.

(** A route, a predict in flight on it, and its release under the predict. *)
Lemma sample_reached :
  exists en ts, rtc sample_step (engine_new 100 [], []) (en, ts) /\
    (exists e, en_entries en !! 0%nat = Some e) /\ route_entry "a" en = None /\ hs_bytes (held_state en) = 36.
Proof.
  eexists _, _. split.
  - eapply rtc_l; [eexists; eapply (serve_operation _ _ _ _ _ _ (OpResolve "a" sample_contract sample_options));
                   vm_compute; reflexivity|].
    eapply rtc_l; [eexists; eapply (serve_arrive _ _ _ _ _ _ (sample_request "a" ["e1"] 0)); vm_compute; reflexivity|].
    eapply rtc_l; [eexists; eapply (serve_advance _ _ _ _ _ []); vm_compute; reflexivity|].
    eapply rtc_l; [eexists; eapply (serve_operation _ _ _ _ _ _ (OpRelease "a")); vm_compute; reflexivity|].
    apply rtc_refl.
  - split_and!; [eexists|..]; vm_compute; reflexivity.
Qed.

Lemma held_state_exact_witness :
  exists en ts, rtc sample_step (engine_new 100 [], []) (en, ts) /\
    hs_bytes (held_state en) = 36 /\ wrap_u 64 (live_bytes en) = 36.
Proof.
  destruct sample_reached as (en & ts & Hr & _ & _ & Hb). exists en, ts. split; [exact Hr|].
  split; [exact Hb|]. destruct (held_state_exact _ _ _ _ _ _ _ _ Hr) as [Hs _].
  rewrite Hs in Hb. exact Hb.
Defined.

Lemma live_routes_configured_witness :
  exists en ts e, rtc sample_step (engine_new 100 [], []) (en, ts) /\
    en_entries en !! 0%nat = Some e /\ config_ok corners 100 e.
Proof.
  destruct sample_reached as (en & ts & Hr & (e & He) & _). exists en, ts, e. split; [exact Hr|].
  split; [exact He|]. exact (live_routes_configured _ _ _ _ _ _ _ _ _ _ Hr He).
Defined.
