(* ===== verification/EngineFrames.v ===== *)
(** * The frames a predict returns

    Every lane of a request gets its action and its share of the replay, whichever
    corner of the model answered; and a predict fused over several routes gives each
    route the frames its own predict would have. *)

From stdpp Require Import gmap strings.
From S2P Require Import Prelude Utf8 BTree Float FloatOps DType Scalar Tensor Types Leaves WireSpaces AdapterValue AdapterGeometry AdapterPlans AdapterImage AdapterImageSpec AdapterApply AdapterApplySpec AdapterHistory AdapterHistorySpec FacadeError Engine EngineSpec.
#[local] Open Scope string_scope.
#[local] Open Scope Z_scope.
#[local] Open Scope run_scope.

(** ** Calls that answer *)

(** What a successful call answers. *)
Definition answers {S A} (m : Run S A) (P : A -> Prop) : Prop :=
  forall s s' a, m s = Some (s', Ok a) -> P a.

Section Answers.
Context {S : Type}.

Lemma answers_done {A} (a : A) (P : A -> Prop) : P a -> answers (S := S) (done a) P.
Proof. intros Ha s s' x [= _ <-]. done. Qed.

Lemma answers_fails {A} e (P : A -> Prop) : answers (S := S) (fails e) P.
Proof. by intros s s' a [=]. Qed.

Lemma answers_any {A} (m : Run S A) : answers m (fun _ => True).
Proof. by intros s s' a _. Qed.

Lemma answers_bind {A B} (m : Run S A) (k : A -> Run S B) (P : A -> Prop) (Q : B -> Prop) :
  answers m P -> (forall a, P a -> answers (k a) Q) -> answers (run_bind m k) Q.
Proof.
  intros Hm Hk s s' b. unfold run_bind. destruct (m s) as [[s1 [a|e]]|] eqn:E; [|done..].
  apply Hk. by eapply Hm.
Qed.

Lemma answers_then {A B} (m : Run S A) (k : A -> Run S B) (Q : B -> Prop) :
  (forall a, answers (k a) Q) -> answers (run_bind m k) Q.
Proof. intros Hk. eapply answers_bind; [apply answers_any|]. intros a _. apply Hk. Qed.

Lemma answers_each {A B} (f : nat -> A -> Run S B) (P : A -> B -> Prop) l : forall i,
  (forall j x, x ∈ l -> answers (f j x) (P x)) -> answers (for_each f i l) (Forall2 P l).
Proof.
  induction l as [|x l IH]; intros i Hf; cbn [for_each]; [by apply answers_done|].
  eapply answers_bind; [apply Hf, list_elem_of_here|]. intros y Hy.
  eapply answers_bind; [apply IH; intros j z Hz; by apply Hf, list_elem_of_further|].
  intros ys Hys. apply answers_done. by constructor.
Qed.

(** What each turn of the loop shows of its index. *)
Lemma answers_index {A B} (f : nat -> A -> Run S B) (P : nat -> Prop) l : forall i,
  (forall j x, answers (f j x) (fun _ => P j)) ->
  answers (for_each f i l) (fun _ => forall j, (i <= j < i + length l)%nat -> P j).
Proof.
  induction l as [|x l IH]; intros i Hf; cbn [for_each]; [apply answers_done; cbn; lia|].
  eapply answers_bind; [apply Hf|]. intros y Hy. eapply answers_bind; [apply IH, Hf|]. intros ys Hys.
  apply answers_done. cbn. intros j Hj. destruct (decide (j = i)) as [->|Hne]; [done|]. apply Hys. lia.
Qed.

Lemma answers_weaken {A} (m : Run S A) (P Q : A -> Prop) :
  answers m P -> (forall a, P a -> Q a) -> answers m Q.
Proof. intros Hm HPQ s s' a Ha. by eapply HPQ, Hm. Qed.

Lemma answers_map_err {A} f (m : Run S A) (P : A -> Prop) : answers m P -> answers (run_map_err f m) P.
Proof.
  intros Hm s s' a. unfold run_map_err. destruct (m s) as [[s1 [b|e]]|] eqn:E; [|done..].
  intros [= _ <-]. by eapply Hm.
Qed.
End Answers.

(** ** Shapes *)

Lemma push_column_length column : forall lanes lane lanes',
  push_column lanes lane column = Some lanes' -> length lanes' = length lanes.
Proof.
  induction column as [|v column IH]; intros lanes lane lanes'; cbn [push_column]; [by intros [= <-]|].
  destruct (lanes !! lane) as [values|]; [|done]. cbn. intros Hp%IH. by rewrite length_insert in Hp.
Qed.

Lemma push_columns_length columns : forall lanes lanes',
  push_columns lanes columns = Some lanes' -> length lanes' = length lanes.
Proof.
  induction columns as [|column columns IH]; intros lanes lanes'; cbn [push_columns]; [by intros [= <-]|].
  destruct (push_column lanes 0 column) as [lanes1|] eqn:E; [|done]. cbn. intros ->%IH.
  by eapply push_column_length.
Qed.

Section Shapes.
Context `{HalfOps} `{ImageCodec} `{Libm} (addr : Z) (alloc : nat -> nat -> Z).
Context (protocol_text : ProtocolError -> message) (downcast : string -> option Error).

Lemma decode_rows_length o leaves n lanes :
  decode_rows alloc protocol_text o leaves n = Some (Ok lanes) -> length lanes = n.
Proof.
  unfold decode_rows. destruct (mo_env_contract o) as [contract|]; [|done]. cbn.
  destruct (observation_space contract) as [space|]; [|done]. cbn. unfold decode_leaf_slab.
  destruct (negb _); [done|]. destruct (usize_sum _ _); [|done]. cbn.
  destruct (collect_map _ _ _) as [[columns|e]|]; [|done..]. cbn.
  destruct (with_capacity _); [|done]. cbn.
  destruct (push_columns _ _) as [per_lane|] eqn:E; [|done]. cbn.
  destruct (collect_results _ _) as [values|] eqn:Ec; [|done]. intros [= <-].
  apply collect_results_Ok, Forall2_length in Ec. apply push_columns_length in E.
  by rewrite <- Ec, E, repeat_length.
Qed.

Lemma decoded_lanes_length o lanes :
  decoded_lanes alloc protocol_text o = Some (Ok lanes) -> length lanes = mo_num_envs o.
Proof.
  unfold decoded_lanes. destruct (mo_observation o) as [leaves|]; [|done]. intros Hd.
  exact (decode_rows_length o leaves _ _ Hd).
Qed.

(** One input per lane, and an episode row for each. *)
Lemma assemble_lane_episode config o referenced stamped counted index lane :
  answers (assemble_lane addr downcast config o referenced stamped counted index lane)
    (fun _ => (index < length (mo_episodes o))%nat).
Proof.
  unfold assemble_lane. destruct (mo_episodes o !! index) as [ep|] eqn:E.
  - apply lookup_lt_Some in E. eapply answers_weaken; [apply answers_any|]. done.
  - cbn. by intros s s' a [=].
Qed.

Lemma assemble_inner_shape config o :
  answers (assemble_route_inputs_inner addr alloc protocol_text downcast config o)
    (fun inputs => length inputs = mo_num_envs o /\ (mo_num_envs o <= length (mo_episodes o))%nat).
Proof.
  unfold assemble_route_inputs_inner. apply answers_then; intros _. apply answers_then; intros stamped.
  apply (answers_bind _ _ (fun lanes => length lanes = mo_num_envs o)).
  { intros b b' lanes. unfold pure. destruct (decoded_lanes _ _ _) as [[lanes'|e]|] eqn:E; [|done..].
    intros [= _ <-]. by eapply decoded_lanes_length. }
  intros lanes Hl b b' inputs Hi. split.
  - rewrite <- Hl. symmetry. apply (Forall2_length (fun _ _ => True)).
    refine (answers_each _ _ _ _ _ _ _ _ Hi). intros. apply answers_any.
  - destruct (decide (length lanes = 0%nat)) as [Hz|Hz]; [lia|].
    pose proof (answers_index _ (fun j => (j < length (mo_episodes o))%nat) lanes 0
      (fun j x => assemble_lane_episode config o _ _ _ j x) _ _ _ Hi) as Hidx. cbn in Hidx.
    specialize (Hidx (length lanes - 1)%nat ltac:(lia)). lia.
Qed.

Lemma assemble_shape o e total e' total' inputs :
  assemble_route_inputs addr alloc protocol_text downcast o e total = Some ((e', total'), Ok inputs) ->
  length inputs = mo_num_envs o /\ (mo_num_envs o <= length (mo_episodes o))%nat /\
  re_config e' = re_config e.
Proof.
  unfold assemble_route_inputs. destruct (admit_fresh_lanes _ _ _); [|done].
  destruct (assemble_route_inputs_inner _ _ _ _ _ _ _) as [[b [inputs'|err]]|] eqn:E; [| |done]; cbn;
    unfold publish_held; (destruct (held_now _); [|done]); cbn; [|done].
  intros [= <- _ <-]. destruct (assemble_inner_shape _ _ _ _ _ E). done.
Qed.

(** *** Corners *)

Section Corners.
Context {W : Type} `{Host W}.

Lemma take_prefix_length frames horizon key :
  answers (S := gset string * W) (take_prefix frames horizon key)
    (fun taken => (length taken <= Z.to_nat horizon)%nat).
Proof.
  unfold take_prefix. apply answers_then; intros _. case_match; [apply answers_fails|].
  apply answers_done. rewrite length_take. lia.
Qed.

Lemma chunk_frames_length episodes horizon index chunk :
  answers (S := gset string * W) (chunk_frames downcast episodes horizon index chunk)
    (fun taken => (length taken <= Z.to_nat horizon)%nat).
Proof. unfold chunk_frames. apply answers_then; intros frames. apply take_prefix_length. Qed.

(** As many answers as lanes, none longer than the horizon. *)
Lemma dispatch_shape inputs episodes horizon n :
  1 <= horizon -> length inputs = n ->
  answers (S := gset string * W) (dispatch_corners downcast inputs episodes horizon n)
    (fun raws => length raws = n /\ Forall (fun raw => (length raw <= Z.to_nat horizon)%nat) raws).
Proof.
  intros Hh Hn. unfold dispatch_corners.
  assert (Hall : forall A (l : list A) f, length l = n ->
    (forall j x, answers (S := gset string * W) (f j x) (fun raw : list Value => (length raw <= Z.to_nat horizon)%nat)) ->
    answers (for_each f 0 l)
      (fun raws => length raws = n /\ Forall (fun raw => (length raw <= Z.to_nat horizon)%nat) raws)).
  { intros A l f Hl Hf. eapply answers_weaken; [apply (answers_each _ (fun _ raw => (length raw <= Z.to_nat horizon)%nat)); auto|].
    intros raws Hraws. split; [by rewrite <- (Forall2_length _ _ _ Hraws)|].
    clear -Hraws. by induction Hraws; constructor. }
  case_match; [apply answers_fails|]. case_match; [|case_match; [|case_match]].
  - apply answers_then; intros chunks. destruct (Nat.eqb_spec (length chunks) n); [|apply answers_fails].
    apply Hall; [done|]. intros j x. apply chunk_frames_length.
  - apply Hall; [done|]. intros j x. apply answers_then; intros c1. apply answers_then; intros c2.
    apply chunk_frames_length.
  - apply answers_then; intros actions. destruct (Nat.eqb_spec (length actions) n); [|apply answers_fails].
    apply answers_done. rewrite length_fmap. split; [done|]. apply Forall_fmap, Forall_true. intros a. cbn. lia.
  - apply Hall; [done|]. intros j x. apply answers_then; intros a. apply answers_done. cbn. lia.
Qed.
End Corners.

(** *** Frames *)

Lemma replay_length_le {A} (lanes : list (list A)) lane : lane ∈ lanes -> (replay_length lanes <= length lane)%nat.
Proof.
  destruct lanes as [|first rest]; [by intros ?%elem_of_nil|]. cbn.
  assert (Hfold : forall (l : list (list A)) n, (fold_left (fun n l => Nat.min n (length l)) l n <= n)%nat /\
    forall x, x ∈ l -> (fold_left (fun n l => Nat.min n (length l)) l n <= length x)%nat).
  { induction l as [|x l IH]; intros n; cbn; [split; [lia|by intros ? ?%elem_of_nil]|].
    destruct (IH (Nat.min n (length x))) as [Hle Hin]. split; [lia|].
    intros y [->|Hy]%elem_of_cons; [lia|by apply Hin]. }
  destruct (Hfold rest (length first)) as [Hle Hin]. intros [->|Hl]%elem_of_cons; [done|by apply Hin].
Qed.

Lemma transpose_spec lanes :
  exists rows, transpose_replays lanes = Some rows /\ length rows = replay_length lanes /\
    Forall (fun row => length row = length lanes) rows.
Proof.
  unfold transpose_replays.
  destruct (mapM (fun step => mapM (fun lane : list SpaceValue => lane !! step) lanes)
    (seq 0 (replay_length lanes))) as [rows|] eqn:E.
  - exists rows. split; [done|]. apply mapM_Some in E. split.
    + apply Forall2_length in E. by rewrite <- E, length_seq.
    + clear -E. induction E as [|step row steps rows Hrow _ IH]; constructor; [|done].
      by apply mapM_Some, Forall2_length in Hrow.
  - apply mapM_None in E. apply Exists_exists in E as (step & Hstep & Hn).
    apply elem_of_seq in Hstep. apply mapM_None, Exists_exists in Hn as (lane & Hin & Hnone).
    apply lookup_ge_None in Hnone. pose proof (replay_length_le lanes lane Hin). lia.
Qed.

Lemma finish_lane_length config episodes lane raw_steps :
  answers (finish_lane addr downcast config episodes lane raw_steps)
    (fun fr => length raw_steps = S (length fr.2)).
Proof.
  unfold finish_lane. apply answers_then; intros step.
  apply (answers_bind _ _ (fun steps => length raw_steps = length steps)).
  { eapply answers_weaken; [apply (answers_each _ (fun _ _ => True)); intros; apply answers_any|].
    intros steps Hs. by apply Forall2_length in Hs. }
  intros [|first replay] Hl; [apply answers_fails|]. by apply answers_done.
Qed.

Lemma finish_inner_shape config raws episodes horizon :
  1 <= horizon -> Forall (fun raw => (length raw <= Z.to_nat horizon)%nat) raws ->
  answers (finish_route_frames_inner addr downcast config raws episodes) (fun f =>
    length (pf_actions f) = length raws /\ Forall (fun row => length row = length raws) (pf_replay f) /\
    Z.of_nat (length (pf_replay f)) < horizon).
Proof.
  intros Hh Hraws. unfold finish_route_frames_inner.
  eapply answers_bind; [apply (answers_each _ (fun raw fr => length raw = S (length fr.2))); intros;
                        apply finish_lane_length|].
  intros lanes Hl. cbn beta. destruct (transpose_spec lanes.*2) as (rows & Ht & Hlen & Hrows).
  rewrite Ht. apply (answers_bind _ _ (fun r => r = rows)); [by intros b b' r [= _ <-]|].
  intros ? ->. apply answers_done. cbn. pose proof (Forall2_length _ _ _ Hl) as Hn.
  rewrite !length_fmap in *. split_and!; [done|by rewrite Hn|]. rewrite Hlen.
  destruct Hl as [|raw fr raws lanes Hraw _]; [cbn; lia|].
  apply Forall_cons in Hraws as [Hr _]. cbn [fmap list_fmap].
  pose proof (replay_length_le (fr.2 :: lanes.*2) fr.2 (list_elem_of_here _ _)). lia.
Qed.

Lemma finish_shape raws episodes horizon e total e' total' f :
  1 <= horizon -> Forall (fun raw => (length raw <= Z.to_nat horizon)%nat) raws ->
  finish_route_frames addr downcast raws episodes e total = Some ((e', total'), Ok f) ->
  length (pf_actions f) = length raws /\ Forall (fun row => length row = length raws) (pf_replay f) /\
  Z.of_nat (length (pf_replay f)) < horizon.
Proof.
  intros Hh Hraws. unfold finish_route_frames.
  destruct (finish_route_frames_inner _ _ _ _ _ _) as [[b [f'|err]]|] eqn:E; [| |done]; cbn;
    unfold publish_held; (destruct (held_now _); [|done]); cbn; [|done].
  intros [= _ _ <-]. exact (finish_inner_shape _ _ _ _ Hh Hraws _ _ _ E).
Qed.

(** *** Whole predicts *)

Section Predict.
Context {W : Type} `{Host W}.

Lemma with_entry_Ok {A} i f (en : Engine W) en' (a : A) :
  with_entry i f en = Some (en', Ok a) ->
  exists e e' held, en_entries en !! i = Some e /\ f e (en_held en) = Some ((e', held), Ok a) /\
    en' = set_store (<[i := e']> (en_entries en)) held en.
Proof.
  unfold with_entry. destruct (en_entries en !! i) as [e|]; [|done]. cbn.
  destruct (f e (en_held en)) as [[[e' held] r]|] eqn:E; [|done]. intros [= <- ->]. by eexists _, _, _.
Qed.

Lemma with_host_Ok {A} m (en : Engine W) en' (a : A) :
  with_host m en = Some (en', Ok a) ->
  exists s, m (en_short_chunk_warned en, en_host en) = Some (s, Ok a) /\ en' = set_host s.1 s.2 en.
Proof.
  unfold with_host. destruct (m _) as [[[wn h] r]|] eqn:E; [|done]. cbn.
  intros [= <- ->]. by exists (wn, h).
Qed.

Lemma predict_route_shape i o (en en' : Engine W) e f :
  en_entries en !! i = Some e -> 1 <= rc_execution_horizon (re_config e) ->
  predict_route addr alloc protocol_text downcast i o en = Some (en', Ok f) ->
  length (pf_actions f) = mo_num_envs o /\
  Forall (fun row => length row = mo_num_envs o) (pf_replay f) /\
  Z.of_nat (length (pf_replay f)) < rc_execution_horizon (re_config e).
Proof.
  intros He Hh. unfold predict_route, run_bind.
  destruct (with_entry i _ en) as [[en1 [inputs|err]]|] eqn:E1; [|done..].
  apply with_entry_Ok in E1 as (e0 & e1 & held & He0 & Ha & ->). simplify_eq.
  apply assemble_shape in Ha as (Hlen & _ & Hc). unfold config_of. cbn. rewrite lookup_insert_eq. cbn.
  destruct (with_host _ _) as [[en2 [raws|err]]|] eqn:E2; [|done..].
  apply with_host_Ok in E2 as (s & Hd & ->). rewrite Hc in Hd.
  apply (answers_map_err _ _ _ (dispatch_shape inputs (mo_episodes o) _ (mo_num_envs o) Hh Hlen)) in Hd
    as [Hn Hraws].
  intros (e2 & e3 & held' & He2 & Hf & ->)%with_entry_Ok.
  apply (finish_shape _ _ _ _ _ _ _ _ Hh Hraws) in Hf. by rewrite Hn in Hf.
Qed.
End Predict.
End Shapes.

(** C11: On a reachable engine a predict through an adapter that answers gives one action per
    lane and replay frames of one action per lane, fewer of them than the horizon the
    route was resolved with, whichever corner of the model was called. *)
Theorem predict_answers_every_lane `{HalfOps} `{ImageCodec} `{Libm} (addr : Z) (alloc : nat -> nat -> Z)
    (protocol_text : ProtocolError -> message) (downcast : string -> option Error)
    {W : Type} `{Host W} (limit : Z) (w : W) (en en' : Engine W) (ts : list PredictTask)
    (o : ModelObservation) (i : nat) (e : RouteEntry) (f : PredictFrames) :
  rtc (serve_step addr alloc protocol_text downcast) (engine_new limit w, []) (en, ts) ->
  route_entry (rt_env_id (mo_route o)) en = Some i -> en_entries en !! i = Some e ->
  predict_chunked addr alloc protocol_text downcast o en = Some (en', Ok f) ->
  length (pf_actions f) = mo_num_envs o /\
  Forall (fun row => length row = mo_num_envs o) (pf_replay f) /\
  Z.of_nat (length (pf_replay f)) < rc_execution_horizon (re_config e) <= MAX_EXECUTION_HORIZON.
Proof.
  intros (Hok & _)%served_reachable Hi He Hp. destruct (ok_config _ _ Hok i e He) as [Hh _ _ _ _ _].
  unfold predict_chunked in Hp. rewrite Hi in Hp.
  destruct (predict_route _ _ _ _ _ _ _) as [[en1 r]|] eqn:E; [|done]. cbn in Hp. injection Hp as _ ->.
  destruct (predict_route_shape addr alloc protocol_text downcast i o (pin i en) en1 e f) as (? & ? & ?);
    [done|lia|done|]. split_and!; [done..|]. lia.
Qed.

(** ** Fused predicts *)

(** A model whose batched corners answer lane by lane, without a state of their own. *)
Class LaneWise (W : Type) `{Host W} : Type := {
  lane_action : Value -> EpisodeInfo -> Value;
  lane_chunk : Z -> Value -> EpisodeInfo -> Value;
  predict_batch_lanes : forall inputs episodes w, length inputs = length episodes ->
    predict_batch inputs episodes w = Some (w, Ok (zip_with lane_action inputs episodes));
  predict_chunk_batch_lanes : forall inputs horizon episodes w, length inputs = length episodes ->
    predict_chunk_batch inputs horizon episodes w = Some (w, Ok (zip_with (lane_chunk horizon) inputs episodes));
}.

Section ForEach.
Context {S : Type}.

(** A success of one loop over all is a success of the loops over the parts. *)
Lemma for_each_concat {A B} (f : A -> Run S B) parts : forall s s' ys i j,
  for_each (fun _ => f) i (concat parts) s = Some (s', Ok ys) ->
  exists yss, for_each (fun _ part => for_each (fun _ => f) 0 part) j parts s = Some (s', Ok yss) /\
    ys = concat yss.
Proof.
  assert (Hi : forall l i j s, for_each (fun _ => f) i l s = for_each (fun _ => f) j l s).
  { induction l as [|x l IH]; intros i j s; [done|]. cbn [for_each]. unfold run_bind.
    destruct (f x s) as [[s1 [y|e]]|]; [|done..]. by rewrite (IH (Datatypes.S i) (Datatypes.S j)). }
  assert (Happ : forall l1 l2 i s s' ys, for_each (fun _ => f) i (l1 ++ l2)%list s = Some (s', Ok ys) ->
    exists s1 ys1 ys2, for_each (fun _ => f) 0 l1 s = Some (s1, Ok ys1) /\
      for_each (fun _ => f) 0 l2 s1 = Some (s', Ok ys2) /\ ys = (ys1 ++ ys2)%list).
  { induction l1 as [|x l1 IH]; intros l2 i s s' ys Hs.
    - exists s, [], ys. split; [done|]. split; [|done]. by rewrite (Hi _ 0%nat i).
    - cbn [app for_each] in *. unfold run_bind in *. destruct (f x s) as [[s1 [y|e]]|]; [|done..].
      destruct (for_each _ _ (l1 ++ l2)%list s1) as [[s2 [zs|e]]|] eqn:E; [|done..]. injection Hs as -> <-.
      apply IH in E as (s3 & ys1 & ys2 & H1 & H2 & ->). exists s3, (y :: ys1), ys2.
      rewrite (Hi _ 1%nat 0%nat), H1. done. }
  induction parts as [|part parts IH]; intros s s' ys i j Hs; [injection Hs as <- <-; by exists []|].
  cbn [concat for_each] in *. apply Happ in Hs as (s1 & ys1 & ys2 & H1 & H2 & ->). unfold run_bind.
  rewrite H1. destruct (IH s1 s' ys2 0%nat (Datatypes.S j) H2) as (yss & -> & ->). by exists (ys1 :: yss).
Qed.

Lemma for_each_ext {A B} (f g : nat -> A -> Run S B) l : forall i,
  (forall j x, l !! j = Some x -> forall s, f (i + j)%nat x s = g (i + j)%nat x s) ->
  forall s, for_each f i l s = for_each g i l s.
Proof.
  induction l as [|x l IH]; intros i Hfg s; [done|]. cbn [for_each]. unfold run_bind.
  pose proof (Hfg 0%nat x eq_refl) as H0. rewrite Nat.add_0_r in H0. rewrite H0.
  destruct (g i x s) as [[s1 [y|e]]|]; [|done..]. rewrite (IH (Datatypes.S i)); [done|].
  intros j z Hz s2. specialize (Hfg (Datatypes.S j) z Hz). by rewrite Nat.add_succ_r in Hfg.
Qed.

Lemma for_each_fmap {A B C} (f : nat -> B -> Run S C) (g : A -> B) l : forall i s,
  for_each f i (g <$> l) s = for_each (fun j x => f j (g x)) i l s.
Proof.
  induction l as [|x l IH]; intros i s; [done|]. cbn [for_each fmap list_fmap]. unfold run_bind.
  destruct (f i (g x) s) as [[s1 [y|e]]|]; [|done..]. by rewrite IH.
Qed.

Lemma for_each_pure {A B} (f : A -> B) l : forall i (s : S),
  for_each (fun _ x => done (f x)) i l s = Some (s, Ok (f <$> l)).
Proof. induction l as [|x l IH]; intros i s; [done|]. cbn [for_each]. unfold run_bind. cbn. by rewrite IH. Qed.
End ForEach.

Section Fused.
Context `{HalfOps} `{Libm} (addr : Z) (downcast : string -> option Error).
Context {W : Type} `{LaneWise W}.

(** The frames of one lane. *)
Definition lane_frames (horizon : Z) (lane : Value * EpisodeInfo) : Run (gset string * W) (list Value) :=
  if (1 <? horizon) && has_chunk_batch corners
  then chunk_frames downcast [lane.2] horizon 0 (lane_chunk horizon lane.1 lane.2)
  else done [lane_action lane.1 lane.2].

Lemma dispatch_lanes inputs episodes horizon s :
  bucket_fuses corners horizon = true -> length inputs = length episodes ->
  dispatch_corners downcast inputs episodes horizon (length inputs) s =
    for_each (fun _ => lane_frames horizon) 0 (zip inputs episodes) s.
Proof.
  intros Hb Hl. unfold dispatch_corners, bucket_fuses, lane_frames in *. rewrite <- Hl, Nat.eqb_refl. cbn [negb].
  destruct s as [warned w]. destruct ((1 <? horizon) && has_chunk_batch corners) eqn:Hc.
  - unfold run_bind at 1, call. rewrite predict_chunk_batch_lanes by done. cbn [mbind option_bind].
    rewrite length_zip_with, <- Hl, Nat.min_id, Nat.eqb_refl. cbn [negb].
    rewrite (zip_with_zip (lane_chunk horizon)), for_each_fmap. apply for_each_ext. intros j [input ep] Hj [wn h]. cbn.
    apply lookup_zip_with_Some in Hj as (? & ? & [= <- <-] & _ & He).
    unfold chunk_frames. by rewrite He.
  - assert ((1 <? horizon) && has_chunk corners = false /\ has_batch corners = true) as [-> ->].
    { destruct (1 <? horizon), (has_chunk_batch corners), (has_chunk corners); try done; by cbn in *. }
    unfold run_bind at 1, call. rewrite predict_batch_lanes by done. cbn [mbind option_bind].
    rewrite length_zip_with, <- Hl, Nat.min_id, Nat.eqb_refl. cbn [negb].
    rewrite for_each_pure. unfold done. do 3 f_equal. rewrite (zip_with_zip lane_action), <- list_fmap_compose.
    by apply list_fmap_ext; intros ? [].
Qed.

(** A group as it is staged: an input per lane, and an episode row for each. *)
Definition aligned (g : Prepared) : Prop :=
  length (pr_inputs g) = pr_num_envs g /\ (pr_num_envs g <= length (pr_episodes g))%nat.

(** What the fused call checks of all rows holds of each group's. *)
Lemma aligned_rows groups :
  Forall aligned groups ->
  (length (concat (pr_inputs <$> groups)) <= length (concat (pr_episodes <$> groups)))%nat /\
  (length (concat (pr_episodes <$> groups)) = length (concat (pr_inputs <$> groups)) ->
   Forall (fun g => length (pr_inputs g) = length (pr_episodes g)) groups).
Proof.
  induction 1 as [|g groups [Hg Hle] _ [IHle IH]]; [done|]. cbn [fmap list_fmap concat].
  rewrite !length_app. split; [lia|]. intros Hsum. constructor; [lia|]. apply IH. lia.
Qed.

Lemma concat_zip groups :
  Forall (fun g => length (pr_inputs g) = length (pr_episodes g)) groups ->
  zip (concat (pr_inputs <$> groups)) (concat (pr_episodes <$> groups)) =
    concat ((fun g => zip (pr_inputs g) (pr_episodes g)) <$> groups).
Proof.
  induction 1 as [|g groups Hg _ IH]; [done|]. cbn [fmap list_fmap concat].
  by rewrite zip_with_app, IH.
Qed.

Lemma split_concat groups raws :
  Forall2 (fun g raw => length raw = length (pr_inputs g)) groups raws ->
  split_frames groups (concat raws) = zip groups raws.
Proof.
  induction 1 as [|g raw groups raws Hr _ IH]; [done|]. cbn [split_frames concat zip_with].
  rewrite <- Hr, take_app_length, drop_app_length. by rewrite IH.
Qed.

(** The groups one after the other. *)
Definition dispatch_each (horizon : Z) (groups : list Prepared)
    : Run (gset string * W) (list (list (list Value))) :=
  for_each (fun _ g => dispatch_corners downcast (pr_inputs g) (pr_episodes g) horizon (length (pr_inputs g)))
    0 groups.

Lemma fused_dispatch groups horizon s s' frames :
  bucket_fuses corners horizon = true -> Forall aligned groups ->
  dispatch_corners downcast (concat (pr_inputs <$> groups)) (concat (pr_episodes <$> groups)) horizon
    (length (concat (pr_inputs <$> groups))) s = Some (s', Ok frames) ->
  exists raws, dispatch_each horizon groups s = Some (s', Ok raws) /\
    split_frames groups frames = zip groups raws /\ length raws = length groups.
Proof.
  intros Hb [_ Hrows]%aligned_rows Hd.
  assert (Hlen : length (concat (pr_episodes <$> groups)) = length (concat (pr_inputs <$> groups))).
  { unfold dispatch_corners in Hd. destruct (Nat.eqb_spec (length (concat (pr_episodes <$> groups)))
      (length (concat (pr_inputs <$> groups)))); done. }
  specialize (Hrows Hlen). rewrite dispatch_lanes in Hd by done. rewrite concat_zip in Hd by done.
  apply (for_each_concat _ _ _ _ _ _ 0) in Hd as (raws & Hraws & ->). rewrite for_each_fmap in Hraws.
  exists raws. assert (Heach : dispatch_each horizon groups s = Some (s', Ok raws)).
  { rewrite <- Hraws. apply for_each_ext. intros j g Hg s1.
    apply dispatch_lanes; [done|]. exact (Forall_lookup_1 _ _ _ _ Hrows Hg). }
  split; [done|]. pose proof (answers_each (S := gset string * W)
    (fun _ g => for_each (fun _ => lane_frames horizon) 0 (zip (pr_inputs g) (pr_episodes g)))
    (fun g raw => length raw = length (pr_inputs g)) groups 0) as Hans.
  assert (Hl2 : Forall2 (fun g raw => length raw = length (pr_inputs g)) groups raws).
  { refine (Hans _ _ _ _ Hraws). intros j g [k Hg]%list_elem_of_lookup s1 s2 raw Hraw.
    pose proof (Forall_lookup_1 _ _ _ _ Hrows Hg) as Hge.
    pose proof (answers_each _ (fun _ _ => True) _ _ (fun _ _ _ => answers_any _) _ _ _ Hraw) as Hz.
    apply Forall2_length in Hz. rewrite length_zip_with in Hz. cbn in Hge. lia. }
  split; [by apply split_concat|]. by apply Forall2_length in Hl2.
Qed.

(** Calls of the host and calls on an entry do not see one another. *)
Lemma with_entry_host {A} i (f : RouteEntry -> HeldTotals -> option ((RouteEntry * HeldTotals) * result A Error))
    wn h (en : Engine W) :
  with_entry i f (set_host wn h en) =
    (let! (en', r) := with_entry i f en in Some (set_host wn h en', r)).
Proof.
  unfold with_entry. cbn. destruct (en_entries en !! i) as [e|]; [|done]. cbn.
  by destruct (f e (en_held en)) as [[[e' held] r]|].
Qed.

Lemma with_entry_frame {A} i (f : RouteEntry -> HeldTotals -> option ((RouteEntry * HeldTotals) * result A Error))
    (en en' : Engine W) r :
  with_entry i f en = Some (en', r) ->
  en_short_chunk_warned en' = en_short_chunk_warned en /\ en_host en' = en_host en.
Proof.
  unfold with_entry. destruct (en_entries en !! i) as [e|]; [|done]. cbn.
  destruct (f e (en_held en)) as [[[e' held] r']|]; [|done]. by intros [= <- _].
Qed.

(** Finishing each group as it is answered is finishing them all at the end. *)
Lemma finish_after_all horizon groups : forall j k l (en : Engine W) wn h raws,
  Forall aligned groups ->
  for_each (fun _ g => dispatch_corners downcast (pr_inputs g) (pr_episodes g) horizon (length (pr_inputs g)))
    j groups (en_short_chunk_warned en, en_host en) = Some ((wn, h), Ok raws) ->
  for_each (fun _ => predict_separately addr downcast horizon) k groups en =
    for_each (fun _ => finish_group addr downcast) l (zip groups raws) (set_host wn h en).
Proof.
  induction groups as [|g groups IH]; intros j k l en wn h raws Hal Hd.
  { injection Hd as <- <- <-. by destruct en. }
  apply Forall_cons in Hal as [[Hn _] Hal]. cbn [for_each] in Hd. unfold run_bind in Hd.
  destruct (dispatch_corners _ _ _ _ _ _) as [[[wn1 h1] [raw|err]]|] eqn:Eg; [|done..].
  destruct (for_each _ _ groups _) as [[s2 [raws'|err]]|] eqn:Ed; [|done..]. injection Hd as -> <-.
  cbn [for_each zip_with]. unfold predict_separately at 1, finish_group at 1, attempt, run_bind.
  unfold with_host, dispatch_route_corners, run_map_err. rewrite <- Hn, Eg. cbn.
  rewrite !(with_entry_host (pr_entry g)).
  destruct (with_entry (pr_entry g) _ en) as [[en2 r]|] eqn:Ew; [|done]. cbn.
  rewrite (IH (S j) (S k) (S l) (set_host wn1 h1 en2) wn h raws' Hal Ed). done.
Qed.
End Fused.

(** C8: Fusing never changes an answer: when the model answers its batches lane by lane and
    the one call for all the groups of a bucket succeeds, every group gets the frames
    its own call would have given, and the engine, the buffers and the totals of every
    route and the warnings included, ends in the same state. *)
Theorem fused_is_separate `{HalfOps} `{Libm} (addr : Z) (downcast : string -> option Error)
    {W : Type} `{LaneWise W} (horizon : Z) (groups : list Prepared) (en : Engine W)
    (s : gset string * W) (frames : list (list Value)) :
  bucket_fuses corners horizon = true -> Forall aligned groups ->
  dispatch_corners downcast (concat (pr_inputs <$> groups)) (concat (pr_episodes <$> groups)) horizon
    (length (concat (pr_inputs <$> groups))) (en_short_chunk_warned en, en_host en) = Some (s, Ok frames) ->
  predict_bucket addr downcast (horizon, groups) en =
    for_each (fun _ => predict_separately addr downcast horizon) 0 groups en.
Proof.
  intros Hb Hal Hd. destruct (fused_dispatch downcast groups horizon _ s frames Hb Hal Hd)
    as (raws & Heach & Hsplit & _).
  destruct s as [wn h]. rewrite (finish_after_all addr downcast horizon groups 0 0 0 en wn h raws Hal Heach).
  cbn [predict_bucket]. rewrite Hb. unfold predict_fused, attempt, run_bind.
  assert (Hlen : (length (concat (pr_episodes <$> groups)) =? length (concat (pr_inputs <$> groups)))%nat = true).
  { unfold dispatch_corners in Hd. by destruct (_ =? _)%nat. }
  rewrite Hlen. unfold with_host. rewrite Hd. cbn. by rewrite Hsplit.
Qed.

(** The groups a grouped predict stages are aligned, and so are its buckets. *)
Section Staged.
Context `{HalfOps} `{ImageCodec} `{Libm} (addr : Z) (alloc : nat -> nat -> Z).
Context (protocol_text : ProtocolError -> message) (downcast : string -> option Error).
Context {W : Type} `{Host W}.

Definition staged_ok (st : Staged) : Prop :=
  match st with
  | StagedRouted (Ok (inputs, _)) episodes _ n => length inputs = n /\ (n <= length episodes)%nat
  | _ => True
  end.

Lemma stage_ok pair : answers (S := Engine W) (stage addr alloc protocol_text downcast pair) staged_ok.
Proof.
  destruct pair as [[horizon|i] o]; cbn [stage]; [by apply answers_done|].
  intros en en' st. unfold run_bind, attempt. cbn.
  destruct (with_entry i _ en) as [[en1 [inputs|err]]|] eqn:E; [| |done]; cbn.
  - apply with_entry_Ok in E as (e & e' & held & _ & Ha & ->). apply assemble_shape in Ha as (Hl & Hle & _).
    destruct (config_of i _) as [[en2 [config|err]]|]; [| |done]; intros [= _ <-]; done.
  - by intros [= _ <-].
Qed.

Lemma settle_aligned index st :
  staged_ok st -> answers (S := Engine W) (settle_staged index st) (fun r => Forall aligned r.2).
Proof.
  intros Hst. destruct st as [o horizon|[[inputs config]|err] episodes i n]; cbn [settle_staged].
  - apply answers_then; intros r. apply answers_done. constructor.
  - apply answers_done. by repeat constructor; destruct Hst.
  - apply answers_done. constructor.
Qed.

Lemma bucket_insert_Forall (P : Prepared -> Prop) horizon g buckets :
  P g -> Forall (fun b => Forall P b.2) buckets ->
  Forall (fun b => Forall P b.2) (bucket_insert horizon g buckets).
Proof.
  intros Hg. induction 1 as [|[h gs] buckets Hb Hbs IH]; cbn [bucket_insert]; [by repeat constructor|].
  cbn in Hb. repeat case_match; repeat constructor; try done. cbn. by apply Forall_app_2; [|constructor].
Qed.

Lemma buckets_aligned lanes observations :
  answers (S := Engine W)
    (let^ staged := for_each (fun _ => stage addr alloc protocol_text downcast) 0 (zip lanes observations) in
     let^ settled := for_each settle_staged 0 staged in
     done (bucket_groups (concat settled.*2)))
    (Forall (fun b => Forall aligned b.2)).
Proof.
  eapply answers_bind; [apply (answers_each _ (fun _ => staged_ok)); intros; apply stage_ok|].
  intros staged Hst. eapply answers_bind.
  { apply (answers_each _ (fun _ r => Forall aligned r.2)). intros j st Hin. apply settle_aligned.
    apply list_elem_of_lookup in Hin as [k Hk]. eapply Forall2_lookup_r in Hst as (? & _ & ?); done. }
  intros settled Hset. apply answers_done.
  assert (Hall : Forall aligned (concat settled.*2)).
  { clear -Hset. induction Hset; [constructor|]. cbn. by apply Forall_app_2. }
  unfold bucket_groups. assert (Hgen : forall bs : list (Z * list Prepared), Forall (fun b => Forall aligned b.2) bs ->
    Forall (fun b => Forall aligned b.2) (fold_left (fun buckets g =>
      bucket_insert (Z.max (rc_execution_horizon (pr_config g)) 1) g buckets) (concat settled.*2) bs));
    [|by apply Hgen].
  induction Hall as [|g gs Hg _ IH]; intros bs Hbs; [done|]. cbn. by apply IH, bucket_insert_Forall.
Qed.
End Staged.

(** ** Witnesses *)

#[local] Notation sample_served := (serve_step (H := ieee_half) (H0 := no_codec) (H1 := no_libm) 0
  (fun _ _ => 4096) (fun _ => lit "protocol") (fun _ => None)).

(** Two lanes, at a horizon of two. *)
Lemma predict_answers_every_lane_witness :
  exists en en' i e f, rtc sample_served (engine_new 100 [], []) (en, []) /\
    route_entry "a" en = Some i /\ en_entries en !! i = Some e /\
    predict_chunked (H := ieee_half) (H0 := no_codec) (H1 := no_libm) 0 (fun _ _ => 4096)
      (fun _ => lit "protocol") (fun _ => None) (sample_request "a" ["e1"; "e2"] 0) en = Some (en', Ok f) /\
    length (pf_actions f) = 2%nat /\ length (pf_replay f) = 1%nat.
Proof.
  destruct (run_operation (H := ieee_half) (H0 := no_codec) (H1 := no_libm) 0 (fun _ _ => 4096)
    (fun _ => lit "protocol") (fun _ => None) (OpResolve "a" sample_contract sample_options)
    (engine_new 100 [])) as [[en r]|] eqn:E; [|exfalso; revert E; vm_compute; discriminate].
  assert (Hr : rtc sample_served (engine_new 100 [], []) (en, [])).
  { eapply rtc_l; [|apply rtc_refl]. eexists. exact (serve_operation _ _ _ _ _ _ _ _ _ E). }
  vm_compute in E. injection E as <- _. eexists _, _, _, _, _. split; [exact Hr|].
  split; [vm_compute; reflexivity|]. split; [vm_compute; reflexivity|]. split; [vm_compute; reflexivity|].
  split; [|vm_compute; reflexivity].
  refine (proj1 (predict_answers_every_lane _ _ _ _ _ _ _ _ _ (sample_request "a" ["e1"; "e2"] 0)
    _ _ _ Hr _ _ _)); [vm_compute; reflexivity..].
Defined.

#[export] Instance sample_lane_wise : LaneWise (list message).
Proof.
  refine {| lane_action := fun _ _ => sample_row 1;
            lane_chunk := fun _ _ _ => ValList [sample_row 1; sample_row 2] |}; intros; cbn; unfold done;
    do 3 f_equal; rewrite zip_with_zip; revert episodes H;
    (induction inputs as [|x inputs IH]; intros [|e episodes] Hl; [done..|]); cbn; f_equal; apply IH; by injection Hl.
Defined.

Definition sample_group (index : nat) (episode : string) : Prepared :=
  {| pr_index := index; pr_inputs := [ValNone];
     pr_episodes := [{| ei_episode_id := episode; ei_seed := None; ei_env_id := "a" |}];
     pr_entry := 0; pr_config := set_horizon 2 sample_config; pr_num_envs := 1 |}.

Lemma fused_is_separate_witness :
  exists en r, run_operation (H := ieee_half) (H0 := no_codec) (H1 := no_libm) 0 (fun _ _ => 4096)
    (fun _ => lit "protocol") (fun _ => None) (OpResolve "a" sample_contract sample_options)
    (engine_new 100 []) = Some (en, r) /\
  predict_bucket (H := ieee_half) (H1 := no_libm) 0 (fun _ => None)
    (2, [sample_group 0 "e1"; sample_group 1 "e2"]) en =
  for_each (fun _ => predict_separately (H := ieee_half) (H1 := no_libm) 0 (fun _ => None) 2)
    0 [sample_group 0 "e1"; sample_group 1 "e2"] en.
Proof.
  eexists _, _. split; [vm_compute; reflexivity|].
  refine (@fused_is_separate ieee_half no_libm 0 (fun _ => None) (list message) sample_host sample_lane_wise
            2 _ _ _ _ _ _ _).
  - vm_compute. reflexivity.
  - repeat constructor.
  - vm_compute. reflexivity.
Defined.
