(* ===== verification/EngineBudget.v ===== *)
(** * The frame-window budget of an endpoint

    Admission counts the episodes a request would open before anything is seeded.  What
    the live lanes may hold stays within the budget on every interleaving in which
    history rows name episodes the request or the route already has, and no episode is
    reset under its own predict; both conditions are needed. *)

From stdpp Require Import gmap strings.
From S2P Require Import Prelude Utf8 BTree Float FloatOps DType Scalar Tensor Types Leaves WireSpaces AdapterValue AdapterGeometry AdapterPlans AdapterImage AdapterImageSpec AdapterApply AdapterApplySpec AdapterHistory AdapterHistorySpec FacadeError Engine EngineSpec.
#[local] Open Scope string_scope.
#[local] Open Scope Z_scope.
#[local] Open Scope run_scope.

(** ** Which episodes a call opens *)

Definition opens_only {R} (ids : gset string) (m : FrameBuffers -> option (FrameBuffers * R)) : Prop :=
  forall b b' r, m b = Some (b', r) -> dom b' ⊆ dom b ∪ ids.

Lemma opens_weaken {R} ids ids' (m : FrameBuffers -> option (FrameBuffers * R)) :
  opens_only ids m -> ids ⊆ ids' -> opens_only ids' m.
Proof. intros Hm Hi b b' r Hb. specialize (Hm b b' r Hb). set_solver. Qed.

Lemma touches_opens {A} ep (m : Buffered A) : only_touches ep m -> opens_only {[ep]} m.
Proof.
  intros Hm b b' r Hb id Hid. destruct (decide (id = ep)) as [->|Hne]; [set_solver|].
  apply elem_of_dom in Hid. rewrite (Hm b b' r Hb id Hne) in Hid. apply elem_of_dom in Hid. set_solver.
Qed.

Lemma opens_applied {A} downcast ids (m : Buffered A) : opens_only ids m -> opens_only ids (applied downcast m).
Proof.
  intros Hm b b' r. unfold applied. destruct (m b) as [[b1 r1]|] eqn:E; [|done].
  intros [= <- _]. by eapply Hm.
Qed.

Section Opens.
Context (ids : gset string).

Lemma opens_done {A} (a : A) : opens_only ids (done a).
Proof. intros b b' r [= <- _]. set_solver. Qed.

Lemma opens_fails {A} e : opens_only ids (fails (A := A) e).
Proof. intros b b' r [= <- _]. set_solver. Qed.

Lemma opens_pure {A} (o : option (result A Error)) : opens_only ids (pure o).
Proof. intros b b' r. unfold pure. destruct o; [|done]. intros [= <- _]. set_solver. Qed.

Lemma opens_read {A} (f : FrameBuffers -> option A) :
  opens_only ids (fun b => let! a := f b in Some (b, Ok (E := Error) a)).
Proof. intros b b' r. destruct (f b); [|done]. intros [= <- _]. set_solver. Qed.

Lemma opens_lift {A} downcast (o : option (result A ApplyError)) : opens_only ids (applied_pure downcast o).
Proof.
  unfold applied_pure, applied, lift. intros b b' r. destruct o; [|done]. intros [= <- _]. set_solver.
Qed.

Lemma opens_bind {A B} (m : Run FrameBuffers A) (k : A -> Run FrameBuffers B) :
  opens_only ids m -> (forall a, opens_only ids (k a)) -> opens_only ids (run_bind m k).
Proof.
  intros Hm Hk b b' r. unfold run_bind. destruct (m b) as [[b1 [a|e]]|] eqn:E; [| |done].
  - intros Hr. specialize (Hm _ _ _ E). specialize (Hk a _ _ _ Hr). set_solver.
  - intros [= <- _]. by eapply Hm.
Qed.

Lemma opens_known {A B} (a : A) (k : A -> Run FrameBuffers B) :
  opens_only ids (k a) -> opens_only ids (run_bind (pure (Some (Ok a))) k).
Proof. intros Hk b b' r Hb. exact (Hk b b' r Hb). Qed.

Lemma opens_each {A B} (f : nat -> A -> Run FrameBuffers B) l : forall i,
  (forall j x, x ∈ l -> (i <= j < i + length l)%nat -> opens_only ids (f j x)) -> opens_only ids (for_each f i l).
Proof.
  induction l as [|x l IH]; intros i Hf; cbn [for_each]; [apply opens_done|].
  apply opens_bind; [apply Hf; [apply list_elem_of_here|cbn; lia]|]. intros y. apply opens_bind.
  - apply IH. intros j z Hz Hj. apply Hf; [by apply list_elem_of_further|cbn; lia].
  - intros ys. apply opens_done.
Qed.
End Opens.

Create HintDb opens_only discriminated.
#[export] Hint Resolve opens_done opens_fails opens_pure opens_lift opens_bind opens_read : opens_only.

(** ** The episodes of a request *)

Definition requested (o : ModelObservation) : gset string :=
  list_to_set (filter (fun id => id <> EmptyString) (ei_episode_id <$> mo_episodes o)).

Definition history_ids (o : ModelObservation) : gset string :=
  list_to_set (concat ((fun f => ei_episode_id <$> hf_episodes f) <$> mo_history o)).

(** The episodes whose frames are finished. *)
Definition lane_id (episodes : list EpisodeInfo) (lane : nat) : string :=
  match episodes !! lane with Some e => ei_episode_id e | None => EmptyString end.

Definition finished_ids (episodes : list EpisodeInfo) (lanes : nat) : gset string :=
  list_to_set (lane_id episodes <$> seq 0 lanes).

Section Requests.
Context `{HalfOps} `{ImageCodec} `{Libm} (addr : Z) (alloc : nat -> nat -> Z).
Context (protocol_text : ProtocolError -> message) (downcast : string -> option Error).

Lemma ingest_row_opens config referenced step row :
  opens_only {[ei_episode_id row.2]} (ingest_row addr downcast config referenced step row).
Proof.
  destruct row as [lane episode]. cbn [ingest_row]. case_match; [apply opens_fails|].
  destruct (episodes_isolated addr (rc_adapter config) (ei_episode_id episode) step [] ValNone
    (rc_action_space config) (rc_customs config) (rc_encodings config)) as (Hadv & _).
  apply opens_bind; [by apply opens_applied, touches_opens|]. intros _.
  apply opens_bind; [apply opens_lift|]. intros raw. apply opens_applied, touches_opens.
  apply (episodes_isolated addr (rc_adapter config) _ step raw ValNone
    (rc_action_space config) (rc_customs config) (rc_encodings config)).
Qed.

Lemma ingest_history_opens config o referenced :
  opens_only (history_ids o) (ingest_history addr alloc protocol_text downcast config o referenced).
Proof.
  unfold ingest_history. apply opens_bind; [|auto with opens_only].
  apply opens_each. intros j frame Hf _. unfold ingest_frame.
  apply opens_bind; [apply opens_pure|]. intros lanes. case_match; [apply opens_fails|].
  apply opens_bind; [|auto with opens_only]. apply opens_each. intros k row Hrow _.
  eapply opens_weaken; [apply ingest_row_opens|]. destruct row as [lane episode].
  apply elem_of_zip_r in Hrow. unfold history_ids. intros id ->%elem_of_singleton.
  apply elem_of_list_to_set, list_elem_of_In, in_concat. exists (ei_episode_id <$> hf_episodes frame).
  split; apply list_elem_of_In; apply list_elem_of_fmap; by eexists.
Qed.

Lemma assemble_lane_opens config o referenced stamped counted index lane :
  opens_only (requested o) (assemble_lane addr downcast config o referenced stamped counted index lane).
Proof.
  unfold assemble_lane. destruct (mo_episodes o !! index) as [ep|] eqn:E; cbn [mbind option_bind ok_or].
  2: { intros b b' r [= <- _]. set_solver. }
  destruct (String.eqb_spec (ei_episode_id ep) EmptyString) as [Hz|Hz].
  { intros b b' r [= <- _]. set_solver. }
  assert (Hin : {[ei_episode_id ep]} ⊆ requested o).
  { unfold requested. intros id ->%elem_of_singleton. apply elem_of_list_to_set, list_elem_of_filter.
    split; [done|]. apply list_elem_of_fmap. exists ep. split; [done|]. by eapply list_elem_of_lookup_2. }
  assert (Hiso := fun step raw => episodes_isolated addr (rc_adapter config) (ei_episode_id ep) step raw ValNone
    (rc_action_space config) (rc_customs config) (rc_encodings config)).
  apply opens_known. eapply opens_weaken; [|exact Hin].
  apply opens_bind; [destruct stamped; auto with opens_only|]. intros step.
  apply opens_bind; [case_match; [apply opens_applied, touches_opens, (Hiso step [])|apply opens_done]|].
  intros _. apply opens_bind; [apply opens_lift|]. intros raw.
  apply opens_applied, touches_opens, (Hiso step raw).
Qed.

Lemma assemble_inner_opens config o :
  opens_only (history_ids o ∪ requested o) (assemble_route_inputs_inner addr alloc protocol_text downcast config o).
Proof.
  unfold assemble_route_inputs_inner. apply opens_bind; [apply opens_pure|]. intros _. apply opens_bind.
  - unfold stamp. case_match; [|case_match; auto with opens_only].
    apply opens_bind; [|intros _; auto with opens_only].
    eapply opens_weaken; [apply ingest_history_opens|]. set_solver.
  - intros stamped. apply opens_bind; [apply opens_pure|]. intros lanes. apply opens_each. intros j lane _ _.
    eapply opens_weaken; [apply assemble_lane_opens|]. set_solver.
Qed.

(** Finishing opens nothing, unless the adapter reads the previous action. *)
Definition finish_ids (config : RouteConfig) (episodes : list EpisodeInfo) (lanes : nat) : gset string :=
  if reads_previous_action (rc_adapter config) then finished_ids episodes lanes else ∅.

Lemma touches_none {A} (m : Buffered A) :
  (forall b b' r, m b = Some (b', r) -> b' = b) -> opens_only ∅ m.
Proof. intros Hm b b' r Hb. rewrite (Hm b b' r Hb). set_solver. Qed.

Lemma apply_actions_opens config raw_action episode_id step :
  opens_only (if reads_previous_action (rc_adapter config) then {[episode_id]} else ∅)
    (apply_actions addr (rc_adapter config) raw_action (rc_action_space config) (rc_encodings config)
       episode_id step).
Proof.
  destruct (reads_previous_action (rc_adapter config)) eqn:Hp.
  - apply touches_opens, (episodes_isolated addr (rc_adapter config) episode_id step [] raw_action
      (rc_action_space config) (rc_customs config) (rc_encodings config)).
  - apply touches_none. intros b b' r. unfold apply_actions, record_action. rewrite Hp. cbn.
    unfold AdapterHistory.bind, lift, ret. cbn. intros Hb. repeat case_match; simplify_eq/=; done.
Qed.

Lemma finish_inner_opens config raws episodes :
  opens_only (finish_ids config episodes (length raws))
    (finish_route_frames_inner addr downcast config raws episodes).
Proof.
  unfold finish_route_frames_inner. apply opens_bind; [|auto with opens_only].
  apply opens_each. intros lane raw _ Hlane. unfold finish_lane. apply opens_bind; [apply opens_read|].
  intros step. apply opens_bind; [|intros [|? ?]; auto with opens_only].
  unfold apply_lane_frames. apply opens_each. intros k v _ _ b b' r.
  destruct (checked_i64 _) as [at_step|]; [|done]. cbn. revert b b' r.
  eapply opens_weaken; [apply opens_applied, apply_actions_opens|].
  unfold finish_ids, finished_ids. case_match; [|done]. intros id ->%elem_of_singleton.
  apply elem_of_list_to_set, list_elem_of_fmap. exists lane. split; [done|]. apply elem_of_seq. lia.
Qed.
End Requests.

(** ** Sizes *)

Lemma size_of_list (l : list string) : (size (list_to_set l : gset string) <= length l)%nat.
Proof.
  induction l as [|x l IH]; [done|]. cbn [list_to_set length]. rewrite size_union_alt, size_singleton.
  assert (size ((list_to_set l : gset string) ∖ {[x]}) <= size (list_to_set l : gset string))%nat; [|lia].
  apply subseteq_size. set_solver.
Qed.

Lemma opened_size (b b' : FrameBuffers) (l : list string) :
  dom b' ⊆ dom b ∪ list_to_set l -> (size b' <= size b + length l)%nat.
Proof.
  intros Hsub. rewrite <- !size_dom. apply subseteq_size in Hsub. rewrite size_union_alt in Hsub.
  assert (size (list_to_set l ∖ dom b) <= size (list_to_set l : gset string))%nat.
  { apply subseteq_size. set_solver. }
  pose proof (size_of_list l). lia.
Qed.

Lemma fresh_covers (b : FrameBuffers) o ids :
  ids ⊆ dom b ∪ requested o ->
  dom b ∪ ids ⊆ dom b ∪ list_to_set (ei_episode_id <$> fresh_rows b (mo_episodes o)).
Proof.
  intros Hids id Hid. destruct (decide (id ∈ dom b)) as [?|Hnot]; [set_solver|].
  assert (id ∈ requested o) as Hr by set_solver. apply elem_of_union_r.
  unfold requested in Hr. apply elem_of_list_to_set, list_elem_of_filter in Hr as [Hne Hr].
  apply list_elem_of_fmap in Hr as (ep & -> & Hep). apply elem_of_list_to_set, list_elem_of_fmap.
  exists ep. split; [done|]. apply list_elem_of_filter. split; [|done]. split; [done|].
  unfold holds. apply bool_decide_eq_false. by rewrite <- elem_of_dom.
Qed.

(** ** The budget *)

Section Budget.
Context {W : Type} `{Host W}.
Implicit Types en : Engine W.

#[local] Notation engine_ok := (engine_ok (W := W) corners).

Definition budget_kept en : Prop := held_sum ht_projected (en_entries en) <= en_history_limit en.

Lemma share_of en i e :
  engine_ok en -> en_entries en !! i = Some e ->
  0 <= re_lane_bytes e /\
  ht_projected (re_published e) = saturating_u64 (Z.of_nat (episodes (re_buffers e)) * re_lane_bytes e).
Proof.
  intros Hok He. pose proof (ok_now _ _ Hok i e He) as Hnow. split.
  - apply lane_window_bytes_bounds with (1 := co_lane_bytes _ _ _ (ok_config _ _ Hok i e He)).
  - unfold held_now in Hnow. cbn in Hnow. destruct (state_bytes _); [|done]. cbn in Hnow. by injection Hnow as <-.
Qed.

Lemma held_sum_nonneg (m : gmap nat RouteEntry) :
  map_Forall (fun _ e => 0 <= ht_projected (re_published e)) m -> 0 <= held_sum ht_projected m.
Proof.
  induction m as [|i e m Hi IH] using map_ind; [by rewrite held_sum_empty|].
  intros [He Hm]%map_Forall_insert; [|done]. rewrite held_sum_new by done. specialize (IH Hm). lia.
Qed.

Lemma shares_nonneg en : engine_ok en -> map_Forall (fun _ e => 0 <= ht_projected (re_published e)) (en_entries en).
Proof.
  intros Hok i e He. destruct (share_of en i e Hok He) as [_ ->]. unfold saturating_u64, saturate. lia.
Qed.

(** The other routes' share, and with the cell's. *)
Lemma others_share en i e :
  engine_ok en -> budget_kept en -> en_history_limit en < u64_max -> en_entries en !! i = Some e ->
  ht_projected (en_held en) = held_sum ht_projected (en_entries en) /\
  0 <= ht_projected (re_published e) <= held_sum ht_projected (en_entries en).
Proof.
  intros Hok Hw Hlim He. pose proof (shares_nonneg en Hok) as Hs.
  pose proof (held_sum_nonneg _ Hs) as Hsum. unfold budget_kept in Hw.
  destruct (ok_cells _ _ Hok) as (_ & _ & ->). split.
  - unfold wrap_u. apply Z.mod_small. unfold_ints. unfold u64_max in *. lia.
  - split; [by apply (Hs i e)|]. rewrite (held_sum_delete _ _ i e He).
    assert (0 <= held_sum ht_projected (delete i (en_entries en))); [|lia].
    apply held_sum_nonneg. by apply map_Forall_delete.
Qed.

(** The route keeps within the budget with buffers [b]. *)
Definition fits_budget (limit : Z) (held : HeldTotals) (e : RouteEntry) (b : FrameBuffers) : Prop :=
  Z.of_nat (size b) * re_lane_bytes e <= Z.of_nat (episodes (re_buffers e)) * re_lane_bytes e \/
  ht_projected held - ht_projected (re_published e) + Z.of_nat (size b) * re_lane_bytes e <= limit.

Lemma published_within en i e b e' held' :
  engine_ok en -> budget_kept en -> en_history_limit en < u64_max -> en_entries en !! i = Some e ->
  fits_budget (en_history_limit en) (en_held en) e b ->
  publish_held (set_buffers b e) (en_held en) = Some (e', held') ->
  budget_kept (set_store (<[i := e']> (en_entries en)) held' en).
Proof.
  intros Hok Hw Hlim He Hfit. destruct (others_share en i e Hok Hw Hlim He) as [Hcell Hp].
  destruct (share_of en i e Hok He) as [Hlane Hshare]. unfold publish_held, held_now. cbn.
  destruct (state_bytes b); [|done]. cbn. intros [= <- _]. unfold budget_kept in *. cbn.
  rewrite (held_sum_update _ _ i e) by done. cbn. unfold fits_budget in Hfit. rewrite Hcell in Hfit.
  unfold episodes in *. rewrite Hshare in *. clear Hshare Hcell. unfold saturating_u64, saturate in *. lia.
Qed.

Lemma admitted_fits en i e o b :
  engine_ok en -> budget_kept en -> en_history_limit en < u64_max -> en_entries en !! i = Some e ->
  admit_fresh_lanes e (en_held en) (mo_episodes o) = Ok tt ->
  dom b ⊆ dom (re_buffers e) ∪ list_to_set (ei_episode_id <$> fresh_rows (re_buffers e) (mo_episodes o)) ->
  fits_budget (en_history_limit en) (en_held en) e b.
Proof.
  intros Hok Hw Hlim He Hadm Hdom%opened_size. rewrite length_fmap in Hdom.
  destruct (share_of en i e Hok He) as [Hlane _].
  destruct (others_share en i e Hok Hw Hlim He) as [Hcell Hp].
  pose proof (co_limit _ _ _ (ok_config _ _ Hok i e He)) as Hl.
  unfold admit_fresh_lanes in Hadm. unfold fits_budget, episodes in *.
  destruct (Z.eqb_spec (re_lane_bytes e) 0) as [Hz|Hz]; [left; rewrite Hz; lia|].
  destruct (Z.eqb_spec (Z.of_nat (length (fresh_rows (re_buffers e) (mo_episodes o)))) 0) as [Hf|Hf].
  { left. nia. }
  right. destruct (_ <? _) eqn:E; [done|]. apply Z.ltb_ge in E. rewrite Hl in E.
  set (n := length _) in *. set (p := ht_projected (re_published e)) in *.
  set (total := ht_projected (en_held en)) in *. rewrite <- Hcell in Hp. unfold budget_kept in Hw. rewrite <- Hcell in Hw.
  assert (Z.of_nat (size b) * re_lane_bytes e <= (Z.of_nat (size (re_buffers e)) + Z.of_nat n) * re_lane_bytes e) by nia.
  unfold saturating_u64, saturate in E.
  set (a := (Z.of_nat (size (re_buffers e)) + Z.of_nat n)) in *.
  assert (0 <= a) by (unfold a; lia). assert (a * re_lane_bytes e <= u64_max \/ u64_max < a * re_lane_bytes e) as [Hc|Hc] by lia.
  - assert (a <= u64_max) by nia. rewrite (Z.min_r u64_max a), (Z.max_r 0 a) in E by lia. lia.
  - assert (u64_max <= Z.max 0 (Z.min u64_max a) * re_lane_bytes e) by (unfold u64_max in *; nia). lia.
Qed.

(** *** Calls that stay within the budget *)

Definition bounded {A} (m : Run (Engine W) A) : Prop :=
  keeps corners m /\
  forall en en' r, m en = Some (en', r) -> engine_ok en -> en_history_limit en < u64_max ->
    budget_kept en -> budget_kept en'.

Lemma bounded_bind {A B} (m : Run (Engine W) A) (k : A -> Run (Engine W) B) :
  bounded m -> (forall a, bounded (k a)) -> bounded (run_bind m k).
Proof.
  intros [Hm Wm] Hk. split; [by apply keeps_bind; [|intros a; apply Hk]|].
  intros en en' r. unfold run_bind. destruct (m en) as [[en1 [a|e]]|] eqn:E; [| |done].
  - intros Hr Hok Hl Hw. destruct (Hm _ _ _ E Hok) as (Hok1 & _ & Hl1).
    eapply (Hk a); [exact Hr|done|lia|]. by eapply Wm.
  - intros [= <- _]. by eapply Wm.
Qed.

(** A call that leaves the entries alone. *)
Lemma bounded_same {A} (m : Run (Engine W) A) :
  keeps corners m -> (forall en en' r, m en = Some (en', r) -> en_entries en' = en_entries en) -> bounded m.
Proof.
  intros Hm He. split; [done|]. intros en en' r Hr Hok _ Hw. unfold budget_kept.
  destruct (Hm _ _ _ Hr Hok) as (_ & _ & ->). by rewrite (He _ _ _ Hr).
Qed.

Lemma bounded_host {A} (m : Run (gset string * W) A) : bounded (with_host m).
Proof.
  apply bounded_same; [apply keeps_host|]. intros en en' r. unfold with_host.
  destruct (m _) as [[[wn h] r1]|]; [|done]. by intros [= <- _].
Qed.

Lemma bounded_done {A} (a : A) : bounded (done a).
Proof. apply bounded_same; [apply keeps_done|]. by intros en en' r [= <- _]. Qed.

Lemma bounded_pure {A} (o : option (result A Error)) : bounded (pure o).
Proof.
  apply bounded_same; [apply keeps_pure|]. intros en en' r. unfold pure. destruct o; [|done].
  by intros [= <- _].
Qed.

Lemma bounded_each {A B} (f : nat -> A -> Run (Engine W) B) l : forall i,
  (forall j x, bounded (f j x)) -> bounded (for_each f i l).
Proof.
  induction l as [|x l IH]; intros i Hf; cbn [for_each]; [apply bounded_done|].
  apply bounded_bind; [apply Hf|]. intros y. apply bounded_bind; [by apply IH|]. intros ys. apply bounded_done.
Qed.

(** A call on an entry that leaves it alone or republishes it within the budget. *)
Lemma with_entry_within {A} i f en en' (r : result A Error) :
  engine_ok en -> en_history_limit en < u64_max -> budget_kept en -> with_entry i f en = Some (en', r) ->
  (forall e e' held' r', en_entries en !! i = Some e -> f e (en_held en) = Some ((e', held'), r') ->
    (e' = e /\ held' = en_held en) \/
    exists b, publish_held (set_buffers b e) (en_held en) = Some (e', held') /\
      fits_budget (en_history_limit en) (en_held en) e b) ->
  budget_kept en'.
Proof.
  intros Hok Hlim Hw. unfold with_entry. destruct (en_entries en !! i) as [e|] eqn:He; [|done]. cbn.
  destruct (f e (en_held en)) as [[[e' held'] r']|] eqn:E; [|done]. intros [= <- _] Hf.
  destruct (Hf e e' held' r' eq_refl E) as [[-> ->]|(b & Hb & Hfit)].
  - unfold budget_kept. cbn. by rewrite insert_id.
  - by eapply published_within.
Qed.

Lemma smaller_fits limit held e (b : FrameBuffers) :
  0 <= re_lane_bytes e -> (size b <= size (re_buffers e))%nat -> fits_budget limit held e b.
Proof. intros Hl Hs. left. unfold episodes. nia. Qed.

Lemma evicted_smaller ids (b : FrameBuffers) : (size (fold_left evict ids b) <= size b)%nat.
Proof.
  revert b. induction ids as [|id ids IH]; intros b; [done|]. cbn. specialize (IH (evict b id)).
  assert (size (evict b id) <= size b)%nat; [|lia]. unfold evict. rewrite map_size_delete.
  case_match; [apply Nat.le_pred_l|done].
Qed.

Lemma evict_bounded i ids : bounded (with_entry i (evict_episodes ids)).
Proof.
  split; [apply keeps_entry, evict_publishing|]. intros en en' r Hr Hok Hl Hw.
  eapply with_entry_within; [exact Hok|exact Hl|exact Hw|exact Hr|]. intros e e' held' r' He. unfold evict_episodes.
  destruct (publish_held _ _) as [[e1 held1]|] eqn:E; [|done]. intros [= <- <- _]. right.
  eexists. split; [exact E|]. apply smaller_fits; [by eapply share_of|].
  destruct ids; [unfold clear; rewrite map_size_empty; lia|]. apply evicted_smaller.
Qed.

Lemma clear_bounded i : bounded (with_entry i clear_entry).
Proof.
  split; [apply keeps_entry, clear_publishing|]. intros en en' r Hr Hok Hl Hw.
  eapply with_entry_within; [exact Hok|exact Hl|exact Hw|exact Hr|]. intros e e' held' r' He. unfold clear_entry.
  destruct (publish_held _ _) as [[e1 held1]|] eqn:E; [|done]. intros [= <- <- _]. right.
  eexists. split; [exact E|]. apply smaller_fits; [by eapply share_of|]. unfold clear. rewrite map_size_empty. lia.
Qed.

(** *** Names that go away *)

Lemma reclaim_within i en :
  map_Forall (fun _ e => 0 <= ht_projected (re_published e)) (en_entries en) ->
  budget_kept en -> budget_kept (reclaim i en).
Proof.
  intros Hs Hw. unfold reclaim. destruct (named i en); [done|].
  destruct (en_entries en !! i) as [e|] eqn:He; [|done]. unfold budget_kept in *. cbn.
  rewrite (held_sum_delete _ _ i e He) in Hw. specialize (Hs i e He). cbn in Hs. lia.
Qed.

Lemma unpin_within i en : engine_ok en -> budget_kept en -> budget_kept (unpin i en).
Proof. intros Hok%shares_nonneg Hw. by apply reclaim_within. Qed.

Lemma install_within env_id e en :
  engine_ok en -> re_published e = held_zero -> budget_kept en -> budget_kept (install env_id e en).
Proof.
  intros Hok Hp Hw. assert (Hfree : en_entries en !! en_next en = None).
  { destruct (_ !! _) eqn:E; [|done]. assert (en_next en < en_next en)%nat; [apply Hok; by eexists|lia]. }
  assert (Hsum : held_sum ht_projected (<[en_next en := e]> (en_entries en)) = held_sum ht_projected (en_entries en)).
  { rewrite held_sum_new by done. by rewrite Hp. }
  unfold install. destruct (route_entry env_id en) as [i|]; [apply reclaim_within|]; unfold budget_kept; cbn.
  - apply map_Forall_insert_2; [by rewrite Hp|]. by apply shares_nonneg.
  - by rewrite Hsum.
  - by rewrite Hsum.
Qed.

Lemma resolve_bounded env_id contract options : bounded (resolve_adapter env_id contract options).
Proof.
  split; [apply resolve_adapter_keeps|]. intros en en' r. unfold resolve_adapter.
  unfold run_bind at 1, pure at 1. cbn. destruct (check_horizon_doors _ _ _) as [[]|e]; [|by intros [= <- _]].
  unfold run_bind at 1. destruct (with_host _ en) as [[en1 [resolved|e]]|] eqn:E; [| |done].
  - intros Hr Hok Hl Hw. destruct (keeps_host _ _ _ _ _ E Hok) as (Hok1 & _ & Hl1).
    pose proof (proj2 (bounded_host _) _ _ _ E Hok Hl Hw) as Hw1.
    destruct resolved as [config|]; [|by injection Hr as <- _].
    unfold run_bind, pure in Hr. cbn in Hr. destruct (lane_window_bytes _); [|done]. cbn in Hr.
    destruct (history_terms _ _ _ _) as [[[config' history]|e]|]; [| |done]; injection Hr as <- _; [|done].
    by apply install_within.
  - intros [= <- _] Hok Hl Hw. by eapply (bounded_host _).
Qed.

Lemma release_bounded env_id : bounded (release_adapter env_id).
Proof.
  split; [apply release_adapter_keeps|]. intros en en' r Hr Hok Hl Hw.
  unfold release_adapter, run_bind in Hr. unfold with_host in Hr. destruct (call _ _) as [[[wn h] r1]|]; [|done].
  injection Hr as <- _. unfold budget_kept. cbn. destruct (route_entry env_id en) as [i|]; [|done].
  apply reclaim_within; [|done]. exact (shares_nonneg en Hok).
Qed.

Lemma close_bounded : bounded on_close.
Proof.
  split; [apply on_close_keeps|]. intros en en' r. unfold on_close.
  apply bounded_bind; [|intros; apply bounded_host]. apply bounded_each. intros j i. apply clear_bounded.
Qed.
End Budget.

(** ** Calm interleavings *)

Section Calm.
Context `{HalfOps} `{ImageCodec} `{Libm} (addr : Z) (alloc : nat -> nat -> Z).
Context (protocol_text : ProtocolError -> message) (downcast : string -> option Error).
Context {W : Type} `{Host W}.
Implicit Types en : Engine W.

#[local] Notation engine_ok := (engine_ok (W := W) corners).

(** History rows name episodes of the request or of the route, and what a predict
    finishes on an adapter that records actions is still held.  Whole predicts run as
    their stages. *)
Definition calm en (l : Label) : Prop :=
  match l with
  | Runs (Assembling i o) => forall e, en_entries en !! i = Some e ->
      history_ids o ⊆ dom (re_buffers e) ∪ requested o
  | Runs (Finishing i o raws) => forall e, en_entries en !! i = Some e ->
      finish_ids (re_config e) (mo_episodes o) (length raws) ⊆ dom (re_buffers e)
  | Calls (OpPredict _) | Calls (OpPredictGrouped _) => False
  | _ => True
  end.

Definition calm_step (s s' : Served) : Prop :=
  exists l, calm s.1 l /\ serve addr alloc protocol_text downcast l s s'.

Lemma assemble_within i o en en' r :
  calm en (Runs (Assembling i o)) -> engine_ok en -> en_history_limit en < u64_max -> budget_kept en ->
  with_entry i (assemble_route_inputs addr alloc protocol_text downcast o) en = Some (en', r) -> budget_kept en'.
Proof.
  intros Hcalm Hok Hl Hw Hr. eapply with_entry_within; [exact Hok|exact Hl|exact Hw|exact Hr|].
  intros e e' held' r' He. unfold assemble_route_inputs.
  destruct (admit_fresh_lanes _ _ _) as [[]|err] eqn:Ha; [|intros [= <- <- _]; by left].
  destruct (assemble_route_inputs_inner _ _ _ _ _ _ _) as [[b r1]|] eqn:E; [|done]. cbn.
  destruct (publish_held _ _) as [[e1 held1]|] eqn:Ep; [|done]. intros [= <- <- _]. right. exists b. split; [done|].
  eapply admitted_fits; [exact Hok|exact Hw|exact Hl|exact He|exact Ha|].
  apply assemble_inner_opens in E. etrans; [exact E|]. apply fresh_covers.
  specialize (Hcalm e He). set_solver.
Qed.

Lemma finish_within i o raws en en' r :
  calm en (Runs (Finishing i o raws)) -> engine_ok en -> en_history_limit en < u64_max -> budget_kept en ->
  with_entry i (finish_route_frames addr downcast raws (mo_episodes o)) en = Some (en', r) -> budget_kept en'.
Proof.
  intros Hcalm Hok Hl Hw Hr. eapply with_entry_within; [exact Hok|exact Hl|exact Hw|exact Hr|].
  intros e e' held' r' He. unfold finish_route_frames.
  destruct (finish_route_frames_inner _ _ _ _ _ _) as [[b r1]|] eqn:E; [|done]. cbn.
  destruct (publish_held _ _) as [[e1 held1]|] eqn:Ep; [|done]. intros [= <- <- _]. right. exists b. split; [done|].
  apply smaller_fits; [by eapply share_of|]. apply finish_inner_opens in E. rewrite <- !size_dom.
  apply subseteq_size. specialize (Hcalm e He). set_solver.
Qed.

Lemma task_step_within t en en' r :
  calm en (Runs t) -> engine_ok en -> en_history_limit en < u64_max -> budget_kept en ->
  task_step addr alloc protocol_text downcast t en = Some (en', r) -> budget_kept en'.
Proof.
  intros Hcalm Hok Hl Hw. destruct t as [i o|i o inputs|i o raws]; cbn [task_step]; unfold run_bind.
  - destruct (with_entry _ _ _) as [[en1 [x|e]]|] eqn:E; [..|done]; intros [= <- _]; by eapply assemble_within.
  - destruct (config_of i en) as [[en1 [config|e]]|] eqn:Ec; unfold config_of in Ec;
      (destruct (en_entries en !! i); [|done]); simplify_eq/=.
    destruct (with_host _ _) as [[en2 [x|e]]|] eqn:E; [..|done]; intros [= <- _];
      by eapply (proj2 (bounded_host _)).
  - destruct (with_entry _ _ _) as [[en1 [x|e]]|] eqn:E; [..|done]; intros [= <- _]; by eapply finish_within.
Qed.

Lemma operation_within op en en' r :
  calm en (Calls op) -> engine_ok en -> en_history_limit en < u64_max -> budget_kept en ->
  run_operation addr alloc protocol_text downcast op en = Some (en', r) -> budget_kept en'.
Proof.
  intros Hcalm Hok Hl Hw. destruct op as [o|obs|env_id contract options|env_id ids|env_id ids|env_id|];
    cbn [run_operation]; try done; intros Hr.
  - eapply (bounded_bind (resolve_adapter env_id contract options) (fun _ => done tt));
      [apply resolve_bounded|intros; apply bounded_done|exact Hr|done..].
  - unfold setup_reset_adapter in Hr. destruct (route_entry env_id en) as [i|].
    + by eapply (evict_bounded i ids).
    + by injection Hr as <- _.
  - unfold reset_adapter in Hr. revert Hr Hok Hl Hw. apply bounded_bind.
    { apply bounded_same; [apply keeps_state; by intros ? []|by intros ? ? ? [= <- _]]. }
    intros _. destruct ids; [apply bounded_host|].
    apply bounded_bind; [apply bounded_each; intros; apply bounded_host|intros; apply bounded_done].
  - by eapply (release_bounded env_id).
  - by eapply close_bounded.
Qed.

Lemma calm_within limit s s' :
  limit < u64_max -> calm_step s s' -> served_ok limit s -> budget_kept s.1 -> budget_kept s'.1.
Proof.
  intros Hlim (l & Hcalm & Hs) (Hok & _ & Hl) Hw.
  destruct Hs as [en ts o i Hi|en ts1 t ts2 en' t' Ht|en ts1 t ts2 en' fs Ht|en ts1 t ts2 en' e Ht|en ts op en' r Ho];
    cbn in *; [done|..|eapply operation_within; [done|done|lia|done|done]].
  - eapply task_step_within; [done|done|lia|done|exact Ht].
  - destruct (task_step_keeps _ _ _ _ _ _ _ _ Ht Hok) as (Hok' & _ & _). apply unpin_within; [done|].
    eapply task_step_within; [done|done|lia|done|exact Ht].
  - destruct (task_step_keeps _ _ _ _ _ _ _ _ Ht Hok) as (Hok' & _ & _). apply unpin_within; [done|].
    eapply task_step_within; [done|done|lia|done|exact Ht].
Qed.

Lemma calm_reachable limit w s :
  0 <= limit < u64_max -> rtc calm_step (engine_new limit w, []) s -> served_ok limit s /\ budget_kept s.1.
Proof.
  intros Hlim Hr. apply (rtc_ind_r (R := calm_step) (fun s => served_ok limit s /\ budget_kept s.1)
    (engine_new limit w, [])); [| |done].
  - split; [|unfold budget_kept; cbn; rewrite held_sum_empty; lia].
    apply (served_reachable addr alloc protocol_text downcast limit w), rtc_refl.
  - intros s1 s2 _ Hstep [Hs Hw]. split; [|apply (calm_within limit s1 s2); [lia|done..]].
    destruct Hstep as (l & _ & Hstep). by eapply serve_ok.
Qed.

(** What the windows of the live lanes hold when they are full. *)
Definition live_projected (en : Engine W) : Z :=
  map_fold (fun _ e acc => Z.of_nat (episodes (re_buffers e)) * re_lane_bytes e + acc) 0 (en_entries en).

Lemma projected_sum en :
  engine_ok en -> en_history_limit en < u64_max -> budget_kept en ->
  held_sum ht_projected (en_entries en) = live_projected en.
Proof.
  intros Hok Hl Hw. apply map_fold_agree. intros i e acc He. unfold add_share.
  destruct (others_share en i e Hok Hw Hl He) as [_ Hp]. destruct (share_of en i e Hok He) as [Hlane Hs].
  unfold budget_kept in Hw. rewrite Hs in *. unfold saturating_u64, saturate in *.
  assert (0 <= Z.of_nat (episodes (re_buffers e)) * re_lane_bytes e) by (apply Z.mul_nonneg_nonneg; lia). lia.
Qed.
End Calm.


(** ** Witnesses *)

#[local] Notation sample_calm := (calm_step (H := ieee_half) (H0 := no_codec) (H1 := no_libm) 0
  (fun _ _ => 4096) (fun _ => lit "protocol") (fun _ => None)).
#[local] Notation sample_serve := (serve_step (H := ieee_half) (H0 := no_codec) (H1 := no_libm) 0
  (fun _ _ => 4096) (fun _ => lit "protocol") (fun _ => None)).

(** A lane of 36 bytes under a limit of 40. *)
Lemma sample_calm_run :
  exists en ts, rtc sample_calm (engine_new 40 [], []) (en, ts) /\ live_projected en = 36.
Proof.
  eexists _, _. split.
  - eapply rtc_l.
    { eexists (Calls (OpResolve "a" sample_contract sample_options)). split; [exact I|].
      eapply serve_operation. vm_compute. reflexivity. }
    eapply rtc_l.
    { eexists (Arrives (sample_request "a" ["e1"] 0)). split; [exact I|].
      eapply serve_arrive. vm_compute. reflexivity. }
    eapply rtc_l; [|apply rtc_refl].
    eexists (Runs (Assembling 0 (sample_request "a" ["e1"] 0))). split; [intros e _; cbn; set_solver|].
    eapply (serve_advance _ _ _ _ _ []). vm_compute. reflexivity.
  - vm_compute. reflexivity.
Qed.


(** ** Outside the calm *)

(** A request for the one lane the limit leaves room for, with a history row of another
    episode. *)
Definition smuggling_request : ModelObservation :=
  {| mo_observation := mo_observation (sample_request "a" ["e1"] 1);
     mo_route := mo_route (sample_request "a" ["e1"] 1); mo_num_envs := 1;
     mo_env_contract := Some sample_contract;
     mo_history := [{| hf_observation := Some [sample_bytes];
                       hf_episodes := [{| ei_episode_id := "e9"; ei_seed := None; ei_env_id := "a" |}];
                       hf_step := 0 |}];
     mo_step := Some 1 |}.

(** Admission counts the rows of the request and not those of its history: a history row
    opens windows nobody admitted, here to 72 bytes under a limit of 40. *)
Theorem history_rows_escape_budget :
  exists en ts, rtc sample_serve (engine_new 40 [], []) (en, ts) /\ live_projected en = 72.
Proof.
  eexists _, _. split.
  - eapply rtc_l; [eexists; eapply (serve_operation _ _ _ _ _ _ (OpResolve "a" sample_contract sample_options));
                   vm_compute; reflexivity|].
    eapply rtc_l; [eexists; eapply (serve_arrive _ _ _ _ _ _ smuggling_request); vm_compute; reflexivity|].
    eapply rtc_l; [eexists; eapply (serve_advance _ _ _ _ _ []); vm_compute; reflexivity|]. apply rtc_refl.
  - vm_compute. reflexivity.
Qed.

(** A reset that lands while a predict of the ended episode is with the model is undone
    when the predict finishes: recording its actions opens the episode again, and it
    stays when nothing is in flight any more. *)
Theorem late_finish_reopens_episode :
  exists en, rtc sample_serve (engine_new 40 [], []) (en, []) /\ hs_episodes (held_state en) = 1 /\
    exists en1 ts1 en2, rtc sample_serve (engine_new 40 [], []) (en1, ts1) /\
      sample_serve (en1, ts1) (en2, ts1) /\ hs_episodes (held_state en2) = 0 /\
      rtc sample_serve (en2, ts1) (en, []).
Proof.
  assert (exists en1 ts1 en2 en, rtc sample_serve (engine_new 40 [], []) (en1, ts1) /\
      sample_serve (en1, ts1) (en2, ts1) /\ hs_episodes (held_state en2) = 0 /\
      rtc sample_serve (en2, ts1) (en, []) /\ hs_episodes (held_state en) = 1)
    as (en1 & ts1 & en2 & en & H1 & H2 & H3 & H4 & H5).
  - eexists _, _, _, _. split; [|split; [|split; [|split]]].
    + eapply rtc_l; [eexists; eapply (serve_operation _ _ _ _ _ _ (OpResolve "a" sample_contract sample_options));
                     vm_compute; reflexivity|].
      eapply rtc_l; [eexists; eapply (serve_arrive _ _ _ _ _ _ (sample_request "a" ["e1"] 0)); vm_compute; reflexivity|].
      eapply rtc_l; [eexists; eapply (serve_advance _ _ _ _ _ []); vm_compute; reflexivity|]. apply rtc_refl.
    + eexists. eapply (serve_operation _ _ _ _ _ _ (OpSetupReset "a" ["e1"])). vm_compute. reflexivity.
    + vm_compute. reflexivity.
    + eapply rtc_l; [eexists; eapply (serve_advance _ _ _ _ _ []); vm_compute; reflexivity|].
      eapply rtc_l; [eexists; eapply (serve_return _ _ _ _ _ []); vm_compute; reflexivity|]. apply rtc_refl.
    + vm_compute. reflexivity.
  - exists en. split; [|split; [exact H5|]].
    + etrans; [exact H1|]. eapply rtc_l; [exact H2|exact H4].
    + exists en1, ts1, en2. by split_and!.
Qed.

(** Resolving an env again as one without an adapter leaves the adapter it had: later
    predicts still go through it. *)
Theorem spec_less_keeps_adapter {W : Type} `{Host W} (env_id : string) (contract : EnvContract)
    (options : ResolveOptions) (en : Engine W) (w : W) :
  check_horizon_doors (ro_execution_horizon options) (native_chunk corners) corners = Ok tt ->
  resolve_route env_id contract (en_host en) = Some (w, Ok None) ->
  exists en' needs, resolve_adapter env_id contract options en = Some (en', Ok needs) /\
    forall o, route_entry (rt_env_id (mo_route o)) en' = route_entry (rt_env_id (mo_route o)) en.
Proof.
  intros Hd Hr. eexists _, _. unfold resolve_adapter, run_bind, pure, with_host, call. rewrite Hd. cbn.
  rewrite Hr. cbn. split; [reflexivity|done].
Qed.
