(* ===== verification/FacadeValue.v ===== *)
(** * Values of the facade

    [rlmesh/src/value.rs] and [value/space_codec.rs]: the value an env or a model of the
    facade sees, the insertion-ordered map it carries, and its conversions to and from
    the members of a space.  A tensor of the facade is a core tensor; its cached shape is
    the core's.  A panic is [None]. *)

From stdpp Require Import gmap strings.
From S2P Require Import Prelude Utf8 BTree Float FloatOps DType Scalar Tensor Types BoxValue Spaces WireSpaces AdapterValue FacadeError.
#[local] Open Scope string_scope.
#[local] Open Scope Z_scope.

(** ** Values *)

Inductive FValue : Type :=
| FNone
| FBool (b : bool)
| FInt (i : Z)
| FFloat (f : f64)
| FText (s : list Z)
| FBytes (b : list byte)
| FTensor (t : Tensor)
| FList (l : list FValue)
| FTuple (l : list FValue)
| FDict (m : list (string * FValue)).

(** [IndexMap<String, Value>], in insertion order. *)
Definition Metadata : Type := list (string * FValue).

Inductive ValueKind : Type :=
| VkNone | VkBool | VkInt | VkFloat | VkText | VkBytes | VkTensor | VkList | VkTuple | VkDict.

Definition python_name (k : ValueKind) : string :=
  match k with
  | VkNone => "NoneType" | VkBool => "bool" | VkInt => "int" | VkFloat => "float" | VkText => "str"
  | VkBytes => "bytes" | VkTensor => "Tensor" | VkList => "list" | VkTuple => "tuple" | VkDict => "dict"
  end.

(** [{:?}] of a kind. *)
Definition kind_debug (k : ValueKind) : string :=
  match k with
  | VkNone => "None" | VkBool => "Bool" | VkInt => "Int" | VkFloat => "Float" | VkText => "Text"
  | VkBytes => "Bytes" | VkTensor => "Tensor" | VkList => "List" | VkTuple => "Tuple" | VkDict => "Dict"
  end.

Definition kind (v : FValue) : ValueKind :=
  match v with
  | FNone => VkNone | FBool _ => VkBool | FInt _ => VkInt | FFloat _ => VkFloat | FText _ => VkText
  | FBytes _ => VkBytes | FTensor _ => VkTensor | FList _ => VkList | FTuple _ => VkTuple
  | FDict _ => VkDict
  end.

Definition wrong_kind (v : FValue) (expected : ValueKind) : Error :=
  Type_ (Msg "expected a {} value, got {}" [AStr (python_name expected); AStr (python_name (kind v))]).

Definition as_text (v : FValue) : result (list Z) Error :=
  match v with FText s => Ok s | other => Err (wrong_kind other VkText) end.
Definition as_dict (v : FValue) : result Metadata Error :=
  match v with FDict m => Ok m | other => Err (wrong_kind other VkDict) end.

(** ** Insertion-ordered maps *)

Fixpoint meta_get (key : string) (m : Metadata) : option FValue :=
  match m with
  | [] => None
  | (k, v) :: m => if (key =? k)%string then Some v else meta_get key m
  end.

(** [IndexMap::insert]: a known key keeps its position. *)
Fixpoint meta_insert (key : string) (value : FValue) (m : Metadata) : Metadata :=
  match m with
  | [] => [(key, value)]
  | (k, v) :: m => if (key =? k)%string then (k, value) :: m else (k, v) :: meta_insert key value m
  end.

(** [IndexMap::shift_remove]. *)
Fixpoint meta_remove (key : string) (m : Metadata) : Metadata :=
  match m with
  | [] => []
  | (k, v) :: m => if (key =? k)%string then m else (k, v) :: meta_remove key m
  end.

Definition meta_collect (entries : list (string * FValue)) : Metadata :=
  fold_left (fun m '(k, v) => meta_insert k v m) entries [].

(** [BTreeMap::remove]. *)
Fixpoint btree_remove {V} (key : string) (m : btree V) : btree V :=
  match m with
  | [] => []
  | (k, v) :: m => if (key =? k)%string then m else (k, v) :: btree_remove key m
  end.

(** ** From a space value *)

Definition resolved_dtype (dtype default : DType) : DType :=
  if decide (dtype = Unspecified) then default else dtype.

(** [iter().product::<i64>()]. *)
Fixpoint i64_product (acc : Z) (l : list Z) : option Z :=
  match l with
  | [] => Some acc
  | d :: l => let! acc := checked_i64 (acc * d) in i64_product acc l
  end.

Section FromSpace.
Context `{HalfOps}.

Definition ints_tensor (ints : list Z) (shape : list Z) (dtype : DType) : option FValue :=
  let! numel := i64_product 1 shape in
  let shape :=
    if negb (bool_decide (shape = [])) && (numel =? Z.of_nat (length ints)) then shape
    else [Z.of_nat (length ints)] in
  let! encoded := encode_i64_scalars ints dtype in
  let bytes := match encoded with Ok bytes => bytes | Err _ => [] end in
  let! t := tensor_from_vec bytes shape dtype in
  Some match t with
       | Ok t => FTensor t
       | Err _ => FList (FInt <$> ints)
       end.

Definition bits_tensor (bits : list bool) (shape : list Z) (dtype : DType) : option FValue :=
  ints_tensor (Z.b2z <$> bits) shape dtype.

Fixpoint value_from_unspecced (v : SpaceValue) : option FValue :=
  match v with
  | VBox t => Some (FTensor t)
  | VDiscrete n => Some (FInt n)
  | VMultiBinary bits => bits_tensor bits [] Int8
  | VMultiDiscrete ints => ints_tensor ints [] Int64
  | VText text => Some (FText text)
  | VDict m =>
      let! entries :=
        (fix go (m : list (string * SpaceValue)) : option (list (string * FValue)) :=
           match m with
           | [] => Some []
           | (k, v) :: m =>
               let! x := value_from_unspecced v in
               let! rest := go m in
               Some ((k, x) :: rest)
           end) m in
      Some (FDict (meta_collect entries))
  | VTuple items =>
      let! items :=
        (fix go (l : list SpaceValue) : option (list FValue) :=
           match l with
           | [] => Some []
           | v :: l =>
               let! x := value_from_unspecced v in
               let! rest := go l in
               Some (x :: rest)
           end) items in
      Some (FTuple items)
  end.

Section Children.
Context (from_child : SpaceSpec -> SpaceValue -> option FValue).

Fixpoint dict_from_space (ks : list string) (spaces : list SpaceSpec) (values : btree SpaceValue)
    (map : Metadata) {struct spaces} : option Metadata :=
  match spaces, ks with
  | child :: spaces, key :: ks =>
      match btree_get key values with
      | Some value =>
          let! x := from_child child value in
          dict_from_space ks spaces (btree_remove key values) (meta_insert key x map)
      | None => dict_from_space ks spaces values map
      end
  | _, _ => Some map
  end.

Fixpoint tuple_from_space (spaces : list SpaceSpec) (items : list SpaceValue) {struct spaces}
    : option (list FValue) :=
  match spaces, items with
  | child :: spaces, item :: items =>
      let! x := from_child child item in
      let! rest := tuple_from_space spaces items in
      Some (x :: rest)
  | _, _ => Some []
  end.
End Children.

Fixpoint value_from_space_unchecked (s : SpaceSpec) (v : SpaceValue) {struct s} : option FValue :=
  match spec s, v with
  | Some (KMultiBinary _), VMultiBinary bits =>
      bits_tensor bits (space_shape s) (resolved_dtype (space_dtype s) Int8)
  | Some (KMultiDiscrete _), VMultiDiscrete ints =>
      ints_tensor ints (space_shape s) (resolved_dtype (space_dtype s) Int64)
  | Some (KDict d), VDict values =>
      let! map := dict_from_space value_from_space_unchecked (keys d) (dict_spaces d) values [] in
      Some (FDict map)
  | Some (KTuple t), VTuple items =>
      if (length items =? length (tuple_spaces t))%nat then
        let! items := tuple_from_space value_from_space_unchecked (tuple_spaces t) items in
        Some (FTuple items)
      else value_from_unspecced v
  | _, v => value_from_unspecced v
  end.

Definition value_from_space (s : SpaceSpec) (v : SpaceValue) : option (result FValue Error) :=
  let! verdict := conform s v in
  match verdict with
  | Structural err => Some (Err (Protocol (space_error_message err)))
  | _ => let! x := value_from_space_unchecked s v in Some (Ok x)
  end.
End FromSpace.

(** ** To a space value *)

(** [DType::from_core(..).as_str()]: an unspecified dtype reads as [Float32]. *)
Definition facade_dtype_name (d : DType) : string :=
  dtype_name (if decide (d = Unspecified) then Float32 else d).

Section ToSpace.
Context `{HalfOps}.

Definition facade_scalars (bytes : list byte) (dtype : DType) : option (result (list Scalar) Error) :=
  lift_err (fun err => invalid_argument (scalar_error_message err)) (decode_scalars bytes dtype).

Definition integral (number : f64) : result Z Error :=
  if negb (f64_is_finite number) || negb (f64_eqb (f64_fract number) f64_zero) then
    Err (invalid_argument (Msg "Discrete value must be an integer, got {number}" [AF64 (f64_bits number)]))
  else Ok (f64_as_int i64_min i64_max number).

Definition discrete_kind_error (v : FValue) : Error :=
  Type_ (Msg "Discrete value must be an integer, got {:?}" [AStr (kind_debug (kind v))]).

Definition discrete (v : FValue) : option (result Z Error) :=
  match v with
  | FInt number => Some (Ok number)
  | FBool flag => Some (Ok (Z.b2z flag))
  | FFloat number => Some (integral number)
  | FTensor t =>
      let! size := numel t in
      if size =? 1 then
        let! bytes := to_contiguous_bytes t in
        let!? scalars := facade_scalars bytes (dtype t) in
        Some match scalars with
             | SInt number :: _ => Ok number
             | SBool flag :: _ => Ok (Z.b2z flag)
             | SFloat number :: _ => integral number
             | [] => Err (invalid_argument (lit "empty tensor"))
             end
      else Some (Err (discrete_kind_error v))
  | other => Some (Err (discrete_kind_error other))
  end.

(** The elements of an array-like value, depth first. *)
Fixpoint flatten (v : FValue) : result (list FValue) Error :=
  match v with
  | FList items | FTuple items =>
      (fix go (l : list FValue) : result (list FValue) Error :=
         match l with
         | [] => Ok []
         | v :: l =>
             let? xs := flatten v in
             let? rest := go l in
             Ok (xs ++ rest)%list
         end) items
  | FDict _ => Err (Type_ (lit "array-like values cannot be dicts"))
  | FTensor _ => Err (Type_ (lit "a nested tensor is not an array element"))
  | other => Ok [other]
  end.

Definition number_of (v : FValue) : option f64 :=
  match v with
  | FBool flag => Some (f64_of_Z (Z.b2z flag))
  | FInt number => Some (f64_of_Z number)
  | FFloat number => Some number
  | _ => None
  end.

(** One element in [dtype]. *)
Definition pack (v : FValue) (dtype : DType) : option (result (list byte) Error) :=
  let refused := Type_ (Msg "cannot encode a {:?} value as {}"
    [AStr (kind_debug (kind v)); AStr (facade_dtype_name dtype)]) in
  match dtype with
  | Bool =>
      Some match v with
           | FBool flag => Ok [byte.of_Z (Z.b2z flag)]
           | FInt number => Ok [byte.of_Z (Z.b2z (negb (number =? 0)))]
           | FFloat number => Ok [byte.of_Z (Z.b2z (negb (f64_eqb number f64_zero)))]
           | _ => Err refused
           end
  | Float32 | Unspecified =>
      Some (let? number := ok_or (number_of v) refused in
            Ok (le_split 4 (f32_bits (f32_of_f64 number))))
  | Float64 => Some (let? number := ok_or (number_of v) refused in Ok (le_split 8 (f64_bits number)))
  | Float16 => Some (let? number := ok_or (number_of v) refused in Ok (le_split 2 (f64_to_f16_bits number)))
  | int_dtype =>
      let!? int := Some match v with
                        | FInt number => Ok number
                        | FBool flag => Ok (Z.b2z flag)
                        | _ => Err refused
                        end in
      let!? _ := Some (map_err (fun err => invalid_argument (scalar_error_message err))
                         (check_int_in_dtype_range int int_dtype)) in
      lift_err (fun err => invalid_argument (scalar_error_message err)) (encode_i64_scalars [int] int_dtype)
  end.

Fixpoint pack_all (items : list FValue) (dtype : DType) : option (result (list byte) Error) :=
  match items with
  | [] => Some (Ok [])
  | item :: items =>
      let!? bytes := pack item dtype in
      let!? rest := pack_all items dtype in
      Some (Ok (bytes ++ rest)%list)
  end.

Definition array_bytes (v : FValue) (s : SpaceSpec) (target : DType) : option (result (list byte) Error) :=
  match v with
  | FTensor t =>
      if negb (bool_decide (dtype t = target)) then
        Some (Err (invalid_argument (Msg "tensor dtype {} does not match space dtype {}"
          [AStr (facade_dtype_name (dtype t)); AStr (facade_dtype_name target)])))
      else
        let! product := i64_product 1 (space_shape s) in
        let base := if product <? 0 then 0 else product in
        let! count := numel t in
        if ((base =? 0) && negb (count =? 0)) || (negb (base =? 0) && negb (count mod base =? 0)) then
          Some (Err (invalid_argument
            (Msg "tensor element count {numel} is not a multiple of the space element count {base}"
               [AZ count; AZ base])))
        else let! bytes := to_contiguous_bytes t in Some (Ok bytes)
  | v =>
      let!? flat := Some (flatten v) in
      pack_all flat target
  end.

Section Children.
Context (to_child : SpaceSpec -> FValue -> option (result SpaceValue Error)).

Fixpoint dict_to_space (ks : list string) (spaces : list SpaceSpec) (map : Metadata)
    (values : btree SpaceValue) {struct spaces} : option (result (btree SpaceValue) Error) :=
  match spaces, ks with
  | child :: spaces, key :: ks =>
      match meta_get key map with
      | Some item =>
          let!? v := to_child child item in
          dict_to_space ks spaces map (btree_insert key v values)
      | None => dict_to_space ks spaces map values
      end
  | _, _ => Some (Ok values)
  end.

Fixpoint tuple_to_space (spaces : list SpaceSpec) (items : list FValue) {struct spaces}
    : option (result (list SpaceValue) Error) :=
  match spaces, items with
  | child :: spaces, item :: items =>
      let!? v := to_child child item in
      let!? rest := tuple_to_space spaces items in
      Some (Ok (v :: rest))
  | _, _ => Some (Ok [])
  end.
End Children.

Fixpoint value_to_space_unchecked (s : SpaceSpec) (v : FValue) {struct s}
    : option (result SpaceValue Error) :=
  match spec s with
  | Some (KBox _) =>
      let dtype := resolved_dtype (space_dtype s) Float32 in
      let!? bytes := array_bytes v s dtype in
      let!? t := lift_err
        (fun err => invalid_argument (Msg "invalid box value: {err}" [nested (tensor_error_message err)]))
        (tensor_from_vec bytes (space_shape s) dtype) in
      Some (Ok (VBox t))
  | Some (KDiscrete _) =>
      let!? number := discrete v in
      Some (Ok (VDiscrete number))
  | Some (KMultiBinary _) =>
      let dtype := resolved_dtype (space_dtype s) Int8 in
      let!? bytes := array_bytes v s dtype in
      let!? scalars := facade_scalars bytes dtype in
      Some (Ok (VMultiBinary ((fun scalar => negb (as_i64 scalar =? 0)) <$> scalars)))
  | Some (KMultiDiscrete _) =>
      let dtype := resolved_dtype (space_dtype s) Int64 in
      let!? bytes := array_bytes v s dtype in
      let!? scalars := facade_scalars bytes dtype in
      Some (Ok (VMultiDiscrete (as_i64 <$> scalars)))
  | Some (KText _) =>
      let!? text := Some (as_text v) in
      Some (Ok (VText text))
  | Some (KDict d) =>
      let!? map := Some (as_dict v) in
      let!? values := dict_to_space value_to_space_unchecked (keys d) (dict_spaces d) map [] in
      Some (Ok (VDict values))
  | Some (KTuple t) =>
      let!? items := Some match v with
                          | FTuple items | FList items => Ok items
                          | _ => Err (Type_ (lit "Tuple space values must be a tuple or list"))
                          end in
      if negb (length items =? length (tuple_spaces t))%nat then
        Some (Err (invalid_argument (Msg "Tuple space expected {} items, got {}"
          [ANat (length (tuple_spaces t)); ANat (length items)])))
      else
        let!? values := tuple_to_space value_to_space_unchecked (tuple_spaces t) items in
        Some (Ok (VTuple values))
  | None => Some (Err (invalid_argument (lit "space spec is missing")))
  end.

Definition value_to_space (s : SpaceSpec) (v : FValue) : option (result SpaceValue Error) :=
  let!? encoded := value_to_space_unchecked s v in
  let! verdict := conform s encoded in
  Some match verdict with
       | Structural err => Err (invalid_argument (space_error_message err))
       | _ => Ok encoded
       end.

(** ** Membership *)

(** A Box input's shape. *)
Fixpoint input_shape (v : FValue) : option (list Z) :=
  match v with
  | FTensor t => Some (shape t)
  | FList items | FTuple items =>
      let! inner :=
        (fix go (inner : option (list Z)) (l : list FValue) : option (option (list Z)) :=
           match l with
           | [] => Some inner
           | item :: l =>
               let! shape := input_shape item in
               match inner with
               | Some existing => if decide (existing = shape) then go inner l else None
               | None => go (Some shape) l
               end
           end) None items in
      Some (Z.of_nat (length items) :: default [] inner)
  | _ => Some []
  end.

Fixpoint shapes_match (s : SpaceSpec) (v : FValue) {struct s} : bool :=
  match spec s, v with
  | Some (KBox _), v =>
      match input_shape v with Some shape => bool_decide (shape = space_shape s) | None => false end
  | Some (KDict d), FDict map =>
      (fix go (ks : list string) (spaces : list SpaceSpec) {struct spaces} : bool :=
         match spaces, ks with
         | child :: spaces, key :: ks =>
             match meta_get key map with Some item => shapes_match child item | None => true end &&
             go ks spaces
         | _, _ => true
         end) (keys d) (dict_spaces d)
  | Some (KTuple t), (FTuple items | FList items) =>
      (fix go (spaces : list SpaceSpec) (items : list FValue) {struct spaces} : bool :=
         match spaces, items with
         | child :: spaces, item :: items => shapes_match child item && go spaces items
         | _, _ => true
         end) (tuple_spaces t) items
  | _, _ => true
  end.

Definition space_contains (s : SpaceSpec) (v : FValue) : option bool :=
  if shapes_match s v then
    let! encoded := value_to_space s v in
    match encoded with
    | Err _ => Some false
    | Ok encoded => let! verdict := contains s encoded in Some (is_ok verdict)
    end
  else Some false.
End ToSpace.
