(* ===== verification/FacadeValueSpec.v ===== *)
(** * Facade values and space members

    What a value of the facade stands for under a space, and that the conversions of
    [FacadeValue] carry every member there and back. *)

From stdpp Require Import gmap strings.
From S2P Require Import Prelude Utf8 BTree Float FloatOps DType Scalar Tensor Types AdapterValue BoxValue BoxSpace Fundamental Spaces Walk WireSpaces Leaves FacadeError FacadeValue.
#[local] Open Scope string_scope.
#[local] Open Scope Z_scope.

(** ** Insertion-ordered maps *)

Lemma meta_get_zip_other k ks xs : k ∉ ks -> meta_get k (zip ks xs) = None.
Proof.
  revert xs; induction ks as [|k' ks IH]; intros [|x xs] Hk; try done. cbn.
  destruct (String.eqb_spec k k'); [set_solver|]. apply IH. set_solver.
Qed.

Lemma meta_get_app k m m' :
  meta_get k (m ++ m')%list = match meta_get k m with Some x => Some x | None => meta_get k m' end.
Proof. induction m as [|[k' x] m IH]; [done|]. cbn. by destruct (String.eqb k k'). Qed.

Lemma meta_insert_new k x m : meta_get k m = None -> meta_insert k x m = (m ++ [(k, x)])%list.
Proof.
  induction m as [|[k' y] m IH]; [done|]. cbn. destruct (String.eqb k k'); [done|]. intros Hm. by rewrite IH.
Qed.

(** The keys of [ks] are met in turn, and none of them twice. *)
Lemma meta_get_head k ks x xs : meta_get k (zip (k :: ks) (x :: xs)) = Some x.
Proof. cbn. by rewrite String.eqb_refl. Qed.

Lemma meta_remove_head k ks x xs : meta_remove k (zip (k :: ks) (x :: xs)) = zip ks xs.
Proof. cbn. by rewrite String.eqb_refl. Qed.

(** Appending a new entry keeps the remaining keys new. *)
Lemma meta_fresh_snoc k x (m : Metadata) ks :
  k ∉ ks -> Forall (fun k' => meta_get k' m = None) ks ->
  Forall (fun k' => meta_get k' (m ++ [(k, x)])%list = None) ks.
Proof.
  intros Hk Hm. rewrite Forall_forall in Hm |- *. intros k' Hk'. rewrite meta_get_app, Hm by done.
  cbn. destruct (String.eqb_spec k' k); [by subst|done].
Qed.

Lemma btree_get_remove_other {V} k k' (m : btree V) :
  k <> k' -> btree_get k (btree_remove k' m) = btree_get k m.
Proof.
  intros Hk. induction m as [|[k1 v] m IH]; [done|]. cbn.
  destruct (String.eqb_spec k' k1) as [->|]; cbn; destruct (String.eqb_spec k k1); congruence || done.
Qed.

(** ** What a facade value stands for *)

(** The bytes of an array member. *)
Definition array_value `{HalfOps} (s : SpaceSpec) (v : SpaceValue) (bytes : list byte) : Prop :=
  Z.of_nat (length bytes) = volume (space_shape s) * Z.of_nat (dtype_size (space_dtype s)) /\
  match spec s, v with
  | Some (KBox _), VBox t =>
      dtype t = space_dtype s /\ shape t = space_shape s /\
      exists bt, tensor_wf t bt /\ logical_bytes t bt = bytes
  | Some (KMultiBinary _), VMultiBinary bits =>
      exists scalars, decode_scalars bytes (space_dtype s) = Some (Ok scalars) /\
        bits = (fun scalar => negb (as_i64 scalar =? 0)) <$> scalars
  | Some (KMultiDiscrete _), VMultiDiscrete ints =>
      exists scalars, decode_scalars bytes (space_dtype s) = Some (Ok scalars) /\
        ints = as_i64 <$> scalars
  | _, _ => False
  end.

(** The facade value [x] stands for the member [v] of [s]. *)
Inductive reads `{HalfOps} : SpaceSpec -> SpaceValue -> FValue -> Prop :=
| reads_array s v t bt :
    array_value s v (logical_bytes t bt) -> dtype t = space_dtype s -> shape t = space_shape s ->
    tensor_wf t bt -> reads s v (FTensor t)
| reads_discrete s d n : spec s = Some (KDiscrete d) -> reads s (VDiscrete n) (FInt n)
| reads_text s t text : spec s = Some (KText t) -> reads s (VText text) (FText text)
| reads_dict s d m xs :
    spec s = Some (KDict d) -> btree_sorted m -> Forall (fun k => k ∈ keys d) m.*1 ->
    Forall3 (fun k c x => exists v, btree_get k m = Some v /\ reads c v x) (keys d) (dict_spaces d) xs ->
    reads s (VDict m) (FDict (zip (keys d) xs))
| reads_tuple s t vals xs :
    spec s = Some (KTuple t) -> Forall3 reads (tuple_spaces t) vals xs ->
    reads s (VTuple vals) (FTuple xs).

(** An array of [n] lanes of the space can be allocated, padding included. *)
Definition node_roomy (n : Z) (s : SpaceSpec) : Prop :=
  match spec s with
  | Some (KBox _ | KMultiBinary _ | KMultiDiscrete _) =>
      n * extent (space_shape s) * Z.of_nat (dtype_size (space_dtype s)) + 63 <= isize_max
  | Some (KDiscrete _) => 8 * n + 63 <= isize_max
  | _ => True
  end.

Definition roomy (n : Z) : SpaceSpec -> Prop := spec_all (node_roomy n).

Definition is_array (s : SpaceSpec) : Prop :=
  match spec s with
  | Some (KBox _ | KMultiBinary _ | KMultiDiscrete _) => True
  | _ => False
  end.

(** ** Induction over the nodes of a space *)

Lemma spec_all_and P Q s : spec_all P s -> spec_all Q s -> spec_all (fun s => P s /\ Q s) s.
Proof.
  induction s as [s IH] using SpaceSpec_ind'. inversion 1 as [? Hp Hpc]; inversion 1 as [? Hq Hqc]; subst.
  constructor; [done|]. clear - IH Hpc Hqc. induction IH as [|c l Hc _ IHl]; [constructor|].
  apply Forall_cons in Hpc as [? ?], Hqc as [? ?]. constructor; auto.
Qed.

Lemma spec_all_induction (P Q : SpaceSpec -> Prop) :
  (forall s, P s -> Forall Q (children s) -> Q s) -> forall s, spec_all P s -> Q s.
Proof.
  intros Hind s. induction s as [s IH] using SpaceSpec_ind'. inversion 1 as [? Hp Hpc]; subst.
  apply Hind; [done|]. clear - IH Hpc. induction IH as [|c l Hc _ IHl]; [constructor|].
  apply Forall_cons in Hpc as [? ?]. constructor; auto.
Qed.

(** ** Products *)

Lemma i64_product_total ds acc :
  dims_ok ds -> 0 <= acc -> acc * extent ds <= i64_max -> i64_product acc ds = Some (acc * volume ds).
Proof.
  intros Hd. revert acc; induction Hd as [|d ds Hd Hds IH]; intros acc Ha Hb;
    cbn [i64_product volume extent] in *; [f_equal; lia|].
  pose proof (extent_pos ds). unfold checked_i64.
  assert (acc * d <= acc * (Z.max 1 d * extent ds)) by (apply Z.mul_le_mono_nonneg_l; nia).
  rewrite checked_in by (unfold_ints; nia).
  cbn [mbind option_bind]. rewrite IH; [f_equal; lia|nia|].
  transitivity (acc * (Z.max 1 d * extent ds)); [|done]. nia.
Qed.

Section Arrays.
Context `{HL : HalfLaws}.

(** What the lemmas below rely on at an array node. *)
Definition array_ok (n : Z) (s : SpaceSpec) : Prop :=
  is_array s /\ dims_ok (space_shape s) /\ space_dtype s <> Unspecified /\
  n * extent (space_shape s) * Z.of_nat (dtype_size (space_dtype s)) + 63 <= isize_max.

Lemma array_room s : array_ok 1 s ->
  extent (space_shape s) <= isize_max /\
  volume (space_shape s) * Z.of_nat (dtype_size (space_dtype s)) + 63 <= isize_max /\
  usize_product 1 (space_shape s) = Some (volume (space_shape s)).
Proof.
  intros (_ & Hd & Hu & Hr). pose proof (dtype_size_pos _ Hu). pose proof (extent_pos (space_shape s)).
  pose proof (volume_le_extent _ Hd). pose proof (volume_nonneg _ Hd).
  split_and!; [nia|nia|]. rewrite usize_product_total; [f_equal; lia|done|lia|unfold_ints; nia].
Qed.

Lemma array_ok_one n s : 1 <= n -> array_ok n s -> array_ok 1 s.
Proof.
  intros Hn (Ha & Hd & Hu & Hr). split_and!; try done. pose proof (extent_pos (space_shape s)).
  pose proof (dtype_size_pos _ Hu).
  assert (1 * (extent (space_shape s) * Z.of_nat (dtype_size (space_dtype s))) <=
          n * (extent (space_shape s) * Z.of_nat (dtype_size (space_dtype s))))
    by (apply Z.mul_le_mono_nonneg_r; nia). lia.
Qed.

(** Bytes of the right length make a tensor of the space. *)
Lemma array_from_vec s bytes :
  array_ok 1 s ->
  Z.of_nat (length bytes) = volume (space_shape s) * Z.of_nat (dtype_size (space_dtype s)) ->
  exists t, tensor_from_vec bytes (space_shape s) (space_dtype s) = Some (Ok t) /\
    dtype t = space_dtype s /\ shape t = space_shape s /\ tensor_wf t bytes /\ logical_bytes t bytes = bytes.
Proof.
  intros Ha Hl. destruct (array_room s Ha) as (_ & Hv & Hu). destruct Ha as (_ & Hd & Hn & Hr).
  destruct (fresh_tensor_spec (Adopted bytes) (space_dtype s) (space_shape s) bytes)
    as (Hf & W & Hb); try done; [lia|].
  eexists. unfold tensor_from_vec.
  assert (Hm : materialisable (mkTensor (Adopted bytes) (space_dtype s) (space_shape s) None 0))
    by (unfold materialisable, itemsize; cbn; lia).
  pose proof (checked_nbytes_wf _ _ W Hm) as Hnb. unfold itemsize in Hnb. cbn [shape dtype] in Hnb.
  rewrite Hnb, Hl, Z.eqb_refl. cbn [negb].
  unfold Storage.from_vec. rewrite Hf. by split_and!.
Qed.

Lemma array_ok_of n s v bytes :
  node_valid s -> node_typed s -> node_roomy n s -> array_value s v bytes -> array_ok n s.
Proof.
  intros Hv [Ht Hm] Hr [_ Ha]. unfold array_ok, is_array, node_roomy, node_valid in *.
  assert (Hpos : Forall (fun d => 0 < d) (space_shape s) -> dims_ok (space_shape s)).
  { intros Hp. apply Forall_and. split.
    - eapply Forall_impl; [exact Hp|]. cbn. lia.
    - eapply Forall_impl; [exact Ht|]. cbn. unfold is_i64. lia. }
  destruct (spec s) as [[]|] eqn:Hs; try done; rewrite ?validate_space_at_eq in Hv;
    unfold space_type in Hv; rewrite ?Hs in Hv.
  - destruct v; try done. destruct Ha as (Hd & Hsh & bt & W & _). rewrite <- Hd, <- Hsh in *.
    split_and!; [done|apply (wf_dims _ _ W)|apply (wf_dtype _ _ W)|done].
  - injection Hv as Hv. apply (validate_multibinary_Ok s _ "$" Hs) in Hv as (_ & Hd & Hp).
    split_and!; [done|by apply Hpos|by intros E; rewrite E in Hd|done].
  - injection Hv as Hv. apply (validate_multidiscrete_Ok s _ "$" Hs) in Hv as (_ & Hd & Hp & _);
      [|unfold_ints; lia]. split_and!; [done|by apply Hpos|by intros E; rewrite E in Hd|done].
Qed.

Lemma array_materialisable s t :
  array_ok 1 s -> dtype t = space_dtype s -> shape t = space_shape s -> materialisable t.
Proof.
  intros (_ & _ & _ & Hr) Hd Hs. unfold materialisable, itemsize. rewrite Hd, Hs. lia.
Qed.

(** A tensor of the space reads as its elements. *)
Lemma array_bytes_tensor s t bt :
  array_ok 1 s -> tensor_wf t bt -> dtype t = space_dtype s -> shape t = space_shape s ->
  array_bytes (FTensor t) s (space_dtype s) = Some (Ok (logical_bytes t bt)).
Proof.
  intros Ha W Hd Hs. pose proof (array_materialisable s t Ha Hd Hs) as Hm.
  destruct (array_room s Ha) as (He & _ & _). pose proof Ha as (_ & Hdo & _ & _).
  unfold array_bytes. rewrite bool_decide_true by done. cbn [negb].
  rewrite i64_product_total by (done || lia || (unfold_ints; lia)). cbn [mbind option_bind].
  rewrite (numel_spec t bt W), Hs, Z.mul_1_l. cbn [mbind option_bind].
  pose proof (volume_nonneg _ Hdo). replace (volume (space_shape s) <? 0) with false by lia.
  replace (_ || _) with false.
  - by rewrite (to_contiguous_bytes_spec t bt W Hm).
  - destruct (Z.eqb_spec (volume (space_shape s)) 0); cbn; [done|].
    by rewrite Z.mod_same.
Qed.

Lemma resolved_dtype_id d default : d <> Unspecified -> resolved_dtype d default = d.
Proof. intros. unfold resolved_dtype. by rewrite decide_False. Qed.

Lemma array_to_space s v t bt :
  array_ok 1 s -> value_wf v -> array_value s v (logical_bytes t bt) ->
  dtype t = space_dtype s -> shape t = space_shape s -> tensor_wf t bt ->
  exists v', value_to_space_unchecked s (FTensor t) = Some (Ok v') /\ value_eqv v v' /\ value_wf v'.
Proof.
  intros Ha Hw [Hl Hv] Hd Hs W. pose proof (array_bytes_tensor s t bt Ha W Hd Hs) as Hb.
  pose proof Ha as (_ & _ & Hu & _).
  destruct s as [sh dt k]; destruct k as [[]|], v; try done; cbn [value_to_space_unchecked spec];
    cbn [space_dtype] in *; rewrite resolved_dtype_id, Hb by done; cbn [mbind option_bind].
  - destruct (array_from_vec _ _ Ha Hl) as (u & Hf & Hdu & Hsu & Wu & Hbu).
    cbn [space_dtype space_shape] in *. rewrite Hf. eexists. split; [done|].
    destruct Hv as (Hdt & Hst & bt' & Wt & Hbt). split; constructor 1 with (bytes := logical_bytes t bt) || constructor.
    + split_and!; [congruence..|]. exists bt', (logical_bytes t bt). by rewrite Hbt.
    + done.
    + by apply (array_materialisable _ u Ha).
  - destruct Hv as (scalars & Hdec & ->). unfold facade_scalars. rewrite Hdec.
    eexists. split; [done|]. by split; constructor.
  - destruct Hv as (scalars & Hdec & ->). unfold facade_scalars. rewrite Hdec.
    eexists. split; [done|]. split; [constructor|done].
Qed.

(** *** Integers as tensors *)

Definition encodes (d : DType) (ints : list Z) (bytes : list byte) : Prop :=
  encode_i64_scalars ints d = Some (Ok bytes) /\
  Z.of_nat (length bytes) = Z.of_nat (length ints) * Z.of_nat (dtype_size d) /\
  exists scalars, decode_scalars bytes d = Some (Ok scalars) /\ as_i64 <$> scalars = ints.

Lemma ints_encode d ints :
  is_integer d = true -> Forall (fits_dtype d) ints -> exists bytes, encodes d ints bytes.
Proof.
  intros Hd Hz. assert (Hu : d <> Unspecified) by (by intros ->).
  assert (Hs : Forall (storable d) (SInt <$> ints)).
  { apply Forall_fmap. eapply Forall_impl; [exact Hz|]. intros z Hzf. cbn.
    apply check_int_storable; [done|]. apply (fits_check z d Hd) in Hzf.
    by destruct (check_int_in_dtype_range z d) as [[]|]. }
  destruct (decode_encode_scalars d _ Hu Hs) as (bytes & He & Hl & Hdec). exists bytes.
  rewrite length_fmap in Hl. unfold encodes. rewrite encode_i64_scalars_eq. split_and!; [done|lia|].
  eexists. split; [done|]. rewrite <- list_fmap_compose. by rewrite list_fmap_id.
Qed.

Lemma bits_encode d bits :
  dtype_size d = 1%nat -> exists bytes, encodes d (Z.b2z <$> bits) bytes.
Proof.
  intros Hd. destruct (decide (d = Bool)) as [->|Hb].
  - destruct (decode_encode_scalars Bool (SBool <$> bits)) as (bytes & He & Hl & Hdec); [done| |].
    { apply Forall_fmap, Forall_true. by intros []. }
    exists bytes. unfold encodes. split_and!.
    + rewrite <- He. unfold encode_i64_scalars, encode_scalars. rewrite !decide_False by done.
      enough (mapM (fun z => encode_one (SInt z) Bool) (Z.b2z <$> bits) =
              mapM (fun v => encode_one v Bool) (SBool <$> bits)) as -> by done.
      clear. induction bits as [|[] bits IH]; [done|..]; cbn in *; by rewrite IH.
    + rewrite !length_fmap in *. cbn [dtype_size] in *. lia.
    + eexists. split; [done|]. by rewrite <- list_fmap_compose.
  - apply ints_encode; [by destruct d|]. apply Forall_fmap, Forall_true. intros b.
    destruct d; try done; unfold fits_dtype; cbn; unfold_ints; destruct b; cbn; lia.
Qed.

Lemma ints_tensor_spec s ints bytes :
  array_ok 1 s -> space_shape s <> [] -> Z.of_nat (length ints) = volume (space_shape s) ->
  encodes (space_dtype s) ints bytes ->
  exists t, ints_tensor ints (space_shape s) (space_dtype s) = Some (FTensor t) /\
    dtype t = space_dtype s /\ shape t = space_shape s /\ tensor_wf t bytes /\ logical_bytes t bytes = bytes.
Proof.
  intros Ha Hne Hl (He & Hlb & _). rewrite Hl in Hlb.
  destruct (array_room s Ha) as (Hx & _ & _). pose proof Ha as (_ & Hdo & _ & _).
  destruct (array_from_vec s bytes Ha Hlb) as (t & Hf & Ht). exists t. split; [|done].
  unfold ints_tensor. rewrite i64_product_total by (done || lia || (unfold_ints; lia)).
  cbn [mbind option_bind]. rewrite bool_decide_false by done.
  rewrite Hl, Z.mul_1_l, Z.eqb_refl. cbn [negb andb]. rewrite He. cbn [mbind option_bind].
  by rewrite Hf.
Qed.

Lemma multibinary_from_space s m bits :
  spec s = Some (KMultiBinary m) -> node_valid s -> node_typed s -> node_roomy 1 s ->
  fits false s (VMultiBinary bits) ->
  exists x, value_from_space_unchecked s (VMultiBinary bits) = Some x /\ reads s (VMultiBinary bits) x.
Proof.
  intros Hs Hv [Ht Hm] Hr Hf. pose proof Hv as Hv'. unfold node_valid in Hv'.
  rewrite Hs, validate_space_at_eq in Hv'. unfold space_type in Hv'. rewrite Hs in Hv'. injection Hv' as Hv'.
  apply (validate_multibinary_Ok s m "$" Hs) in Hv' as (Hne & Hd & Hp).
  inversion Hf as [| |? ? ? Hsp Hn| | | |]; subst.
  assert (Ha : array_ok 1 s).
  { unfold array_ok, is_array, node_roomy in *. rewrite Hs in *. split_and!; [done| | |done].
    - apply Forall_and. split; [eapply Forall_impl; [exact Hp|]; cbn; lia|].
      eapply Forall_impl; [exact Ht|]. unfold is_i64. cbn. lia.
    - intros E. by rewrite E in Hd. }
  destruct (array_room s Ha) as (_ & _ & Hu). rewrite Hu in Hn. injection Hn as Hn.
  destruct (bits_encode (space_dtype s) bits Hd) as (bytes & He).
  destruct (ints_tensor_spec s (Z.b2z <$> bits) bytes) as (t & Hi & Hdt & Hsh & W & Hb); try done.
  { by rewrite length_fmap. }
  exists (FTensor t). split.
  - destruct s as [sh dt k]. cbn [spec] in Hs. subst k. cbn [value_from_space_unchecked spec].
    rewrite resolved_dtype_id by apply Ha. exact Hi.
  - apply (reads_array s _ t bytes); try done. rewrite Hb. destruct He as (_ & Hl & scalars & Hdec & Hsc).
    split; [rewrite Hl, length_fmap, Hn; done|]. rewrite Hs. exists scalars. split; [done|].
    transitivity ((fun z => negb (z =? 0)) <$> (as_i64 <$> scalars)).
    + rewrite Hsc. clear. induction bits as [|[] bits IH]; [done|..]; cbn; by rewrite <- IH.
    + by rewrite <- list_fmap_compose.
Qed.

Lemma multidiscrete_from_space s m ints :
  spec s = Some (KMultiDiscrete m) -> node_valid s -> node_typed s -> node_roomy 1 s ->
  fits false s (VMultiDiscrete ints) ->
  exists x, value_from_space_unchecked s (VMultiDiscrete ints) = Some x /\ reads s (VMultiDiscrete ints) x.
Proof.
  intros Hs Hv Hty Hr Hf. destruct (multidiscrete_leaf_valid s m Hs Hv Hty) as (Hd & Hrng & _).
  unfold node_valid in Hv. rewrite Hs, validate_space_at_eq in Hv. unfold space_type in Hv.
  rewrite Hs in Hv. injection Hv as Hv. destruct Hty as [Ht Hm]. rewrite Hs in Hm.
  apply (validate_multidiscrete_Ok s m "$" Hs) in Hv as (Hne & _ & Hp & _ & Hpos & Hvol);
    [|unfold_ints; lia].
  inversion Hf as [| | |? m' ? Hs' Hfit| | |]; subst. assert (m' = m) as -> by congruence.
  assert (Ha : array_ok 1 s).
  { unfold array_ok, is_array, node_roomy in *. rewrite Hs in *. split_and!; [done| | |done].
    - apply Forall_and. split; [eapply Forall_impl; [exact Hp|]; cbn; lia|].
      eapply Forall_impl; [exact Ht|]. unfold is_i64. cbn. lia.
    - intros E. by rewrite E in Hd. }
  assert (Hvals : Forall (fits_dtype (space_dtype s)) ints).
  { clear - Hfit Hrng Hd. induction Hfit as [|v n vals ns Hvn _ IH]; [constructor|].
    apply Forall_cons in Hrng as [Hn Hrng]. constructor; [|auto]. clear - Hn Hvn Hd.
    unfold fits_dtype in *. destruct (space_dtype s); try done; cbn in *; unfold_ints; lia. }
  apply Forall2_length in Hfit. destruct (ints_encode (space_dtype s) ints Hd Hvals) as (bytes & He).
  destruct (ints_tensor_spec s ints bytes) as (t & Hi & Hdt & Hsh & W & Hb); try done; [lia|].
  exists (FTensor t). split.
  - destruct s as [sh dt k]. cbn [spec] in Hs. subst k. cbn [value_from_space_unchecked spec].
    rewrite resolved_dtype_id by apply Ha. exact Hi.
  - apply (reads_array s _ t bytes); try done. rewrite Hb. destruct He as (_ & Hl & scalars & Hdec & Hsc).
    split; [rewrite Hl, Hfit, Hvol; done|]. rewrite Hs. by exists scalars.
Qed.

Lemma box_from_space s b t :
  spec s = Some (KBox b) -> fits false s (VBox t) ->
  value_from_space_unchecked s (VBox t) = Some (FTensor t) /\ reads s (VBox t) (FTensor t).
Proof.
  intros Hs Hf. inversion Hf as [? b' ? bytes bs vs ? W Hsh Hd| | | | | |]; subst. split.
  - destruct s as [sh dt k]. cbn [spec] in Hs. by subst k.
  - apply (reads_array s _ t bytes); try done. split.
    + rewrite (length_logical_bytes t bytes W). unfold itemsize. by rewrite Hsh, Hd.
    + rewrite Hs. split_and!; [done..|]. by exists bytes.
Qed.

(** *** Members as facade values *)

Definition from_member (s : SpaceSpec) : Prop :=
  forall v, value_wf v -> fits false s v ->
  exists x, value_from_space_unchecked s v = Some x /\ reads s v x.

Lemma value_wf_get m k v :
  Forall (fun e : string * SpaceValue => value_wf e.2) m -> btree_get k m = Some v -> value_wf v.
Proof. intros Hw Hg%btree_get_Some_elem. rewrite Forall_forall in Hw. apply (Hw _ Hg). Qed.

Lemma dict_from_member spaces : Forall from_member spaces ->
  forall ks m values acc,
  NoDup ks -> Forall (fun k => meta_get k acc = None) ks ->
  Forall (fun k => btree_get k values = btree_get k m) ks -> Forall (fun e => value_wf e.2) m ->
  Forall2 (fun k c => exists v, btree_get k m = Some v /\ fits false c v) ks spaces ->
  exists xs, dict_from_space value_from_space_unchecked ks spaces values acc = Some (acc ++ zip ks xs)%list /\
    Forall3 (fun k c x => exists v, btree_get k m = Some v /\ reads c v x) ks spaces xs.
Proof.
  induction 1 as [|c spaces Hc _ IH]; intros ks m values acc Hn Hacc Hval Hw Hf.
  { inversion Hf; subst. exists []. cbn. rewrite app_nil_r. split; [done|constructor]. }
  inversion Hf as [|k ? ks' ? (v & Hg & Hfv) Hf']; subst.
  apply NoDup_cons in Hn as [Hk Hn]. apply Forall_cons in Hacc as [Hka Hacc], Hval as [Hkv Hval].
  destruct (Hc v) as (x & Hx & Hrx); [by eapply value_wf_get|done|].
  cbn [dict_from_space]. rewrite Hkv, Hg, Hx. cbn [mbind option_bind]. rewrite meta_insert_new by done.
  destruct (IH ks' m (btree_remove k values) (acc ++ [(k, x)])%list) as (xs & Hxs & Hall); try done.
  - by apply meta_fresh_snoc.
  - rewrite Forall_forall in Hval |- *. intros k' Hk'. rewrite <- Hval by done.
    apply btree_get_remove_other. by intros ->.
  - exists (x :: xs). rewrite Hxs, <- app_assoc. split; [done|]. constructor; [by exists v|done].
Qed.

Lemma tuple_from_member spaces : Forall from_member spaces ->
  forall vals, Forall value_wf vals -> Forall2 (fits false) spaces vals ->
  exists xs, tuple_from_space value_from_space_unchecked spaces vals = Some xs /\
    Forall3 reads spaces vals xs.
Proof.
  induction 1 as [|c spaces Hc _ IH]; intros vals Hw Hf; inversion Hf as [|? v ? vals' Hfv Hf']; subst.
  { exists []. split; [done|constructor]. }
  apply Forall_cons in Hw as [Hwv Hw]. destruct (Hc v Hwv Hfv) as (x & Hx & Hrx).
  destruct (IH vals' Hw Hf') as (xs & Hxs & Hall). exists (x :: xs). cbn. rewrite Hx. cbn.
  rewrite Hxs. split; [done|]. by constructor.
Qed.

Lemma from_space_reads s : valid s -> typed s -> roomy 1 s -> from_member s.
Proof.
  intros Hv Ht Hr. generalize (spec_all_and _ _ _ Hv (spec_all_and _ _ _ Ht Hr)). clear Hv Ht Hr.
  revert s. apply spec_all_induction. intros s (Hv & Ht & Hr) IH' v Hw Hf.
  unfold children in IH'.
  destruct Hf as [s b t bytes bs vs Hs|s d n Hs|s m bits Hs|s m ints Hs|s t text Hs|s d m Hs Hf Hk|s t vals Hs Hf].
  - destruct (box_from_space s b t Hs) as [-> Hrd]; [by eapply fits_box|]. by eexists.
  - exists (FInt n). split; [|by eapply reads_discrete]. destruct s as [sh dt k]. cbn in Hs. by subst k.
  - eapply multibinary_from_space; try done. by eapply fits_multibinary.
  - eapply multidiscrete_from_space; try done. by eapply fits_multidiscrete.
  - exists (FText text). split; [|by eapply reads_text]. destruct s as [sh dt k]. cbn in Hs. by subst k.
  - rewrite Hs in IH'. inversion Hw as [| | | | |? Hso Hwm|]; subst.
    unfold node_valid in Hv. rewrite Hs in Hv. destruct Hv as (_ & _ & _ & _ & Hn).
    destruct (dict_from_member _ IH' (keys d) m m []) as (xs & Hxs & Hall); try done; [by apply Forall_true..|].
    exists (FDict (zip (keys d) xs)). split; [|by eapply reads_dict].
    destruct s as [sh dt k]. cbn in Hs. subst k. cbn [value_from_space_unchecked spec]. by rewrite Hxs.
  - rewrite Hs in IH'. inversion Hw as [| | | | | |? Hwv]; subst.
    destruct (tuple_from_member _ IH' vals Hwv Hf) as (xs & Hxs & Hall).
    exists (FTuple xs). split; [|by eapply reads_tuple].
    apply Forall2_length in Hf. destruct s as [sh dt k]. cbn in Hs. subst k.
    cbn [value_from_space_unchecked spec]. rewrite <- Hf, Nat.eqb_refl. by rewrite Hxs.
Qed.

(** *** Facade values as members *)

Lemma meta_get_zip ks xs :
  NoDup ks -> length ks = length xs -> Forall2 (fun k x => meta_get k (zip ks xs) = Some x) ks xs.
Proof.
  revert xs; induction ks as [|k ks IH]; intros [|x xs] Hn Hl; try done.
  apply NoDup_cons in Hn as [Hk Hn]. injection Hl as Hl. constructor; [apply meta_get_head|].
  eapply Forall2_impl; [by apply IH|]. cbn. intros k' x' Hg.
  destruct (String.eqb_spec k' k) as [->|]; [|done]. by rewrite meta_get_zip_other in Hg.
Qed.

Lemma insert_all_eqv ks : forall vs vs' m m',
  Forall2 value_eqv vs vs' -> map_eqv m m' -> map_eqv (insert_all m ks vs) (insert_all m' ks vs').
Proof.
  induction ks as [|k ks IH]; intros vs vs' m m' Hv Hm; [done|].
  destruct Hv as [|v v' vs vs' Hv Hvs]; [done|]. apply IH; [done|]. by apply btree_insert_eqv.
Qed.

Lemma insert_all_wf ks : forall vs m,
  Forall value_wf vs -> Forall (fun e => value_wf e.2) m ->
  Forall (fun e => value_wf e.2) (insert_all m ks vs).
Proof.
  induction ks as [|k ks IH]; intros [|v vs] m Hv Hm; try done.
  apply Forall_cons in Hv as [Hv Hvs]. by apply IH; [|apply btree_insert_wf].
Qed.

Definition to_member (s : SpaceSpec) : Prop :=
  forall v x, value_wf v -> reads s v x ->
  exists v', value_to_space_unchecked s x = Some (Ok v') /\ value_eqv v v' /\ value_wf v'.

Lemma dict_to_member spaces : Forall to_member spaces ->
  forall ks m map acc xs, Forall (fun e => value_wf e.2) m ->
  Forall2 (fun k x => meta_get k map = Some x) ks xs ->
  Forall3 (fun k c x => exists v, btree_get k m = Some v /\ reads c v x) ks spaces xs ->
  exists vs vs', dict_to_space value_to_space_unchecked ks spaces map acc = Some (Ok (insert_all acc ks vs')) /\
    Forall2 (fun k v => btree_get k m = Some v) ks vs /\ Forall2 value_eqv vs vs' /\ Forall value_wf vs'.
Proof.
  induction 1 as [|c spaces Hc _ IH]; intros ks m map acc xs Hw Hg Hf;
    inversion Hf as [|k ? x ks' ? xs' (v & Hgv & Hrv) Hf']; subst.
  { exists [], []. by split_and!. }
  inversion Hg as [|? ? ? ? Hgk Hg']; subst.
  destruct (Hc v x) as (v' & Hv' & He & Hwv'); [by eapply value_wf_get|done|].
  destruct (IH ks' m map (btree_insert k v' acc) xs') as (vs & vs' & Hd & Hgs & Hes & Hws); try done.
  exists (v :: vs), (v' :: vs'). cbn [dict_to_space]. rewrite Hgk, Hv'. cbn [mbind option_bind].
  rewrite Hd. split_and!; [done|..]; by constructor.
Qed.

Lemma tuple_to_member spaces : Forall to_member spaces ->
  forall vals xs, Forall value_wf vals -> Forall3 reads spaces vals xs ->
  exists vals', tuple_to_space value_to_space_unchecked spaces xs = Some (Ok vals') /\
    Forall2 value_eqv vals vals' /\ Forall value_wf vals'.
Proof.
  induction 1 as [|c spaces Hc _ IH]; intros vals xs Hw Hf;
    inversion Hf as [|? v x ? vals0 xs' Hrv Hf']; subst; [by exists []|].
  apply Forall_cons in Hw as [Hwv Hw]. destruct (Hc v x Hwv Hrv) as (v' & Hv' & He & Hwv').
  destruct (IH vals0 xs' Hw Hf') as (vals' & Ht & Hes & Hws). exists (v' :: vals'). cbn. rewrite Hv'.
  cbn. rewrite Ht. split_and!; [done|..]; by constructor.
Qed.

Lemma to_space_member s : valid s -> typed s -> roomy 1 s -> to_member s.
Proof.
  intros Hv Ht Hr. generalize (spec_all_and _ _ _ Hv (spec_all_and _ _ _ Ht Hr)). clear Hv Ht Hr.
  revert s. apply spec_all_induction. intros s (Hv & Ht & Hr) IH' v x Hw Hx.
  unfold children in IH'.
  destruct Hx as [s v t bt Ha Hd Hsh W|s d n Hs|s t text Hs|s d m xs Hs Hso Hk Hf|s t vals xs Hs Hf].
  - eapply array_to_space; try done. by eapply array_ok_of.
  - exists (VDiscrete n). destruct s as [sh dt k]. cbn in Hs. subst k. split_and!; [done|constructor|done].
  - exists (VText text). destruct s as [sh dt k]. cbn in Hs. subst k. split_and!; [done|constructor|done].
  - rewrite Hs in IH'. inversion Hw as [| | | | |? _ Hwm|]; subst.
    unfold node_valid in Hv. rewrite Hs in Hv. destruct Hv as (_ & _ & _ & _ & Hn).
    pose proof (Forall3_length_lm _ _ _ _ Hf) as Hl. pose proof (Forall3_length_lr _ _ _ _ Hf) as Hl'.
    destruct (dict_to_member _ IH' (keys d) m (zip (keys d) xs) [] xs) as (vs & vs' & Hd & Hg & He & Hws);
      try done; [by apply meta_get_zip|].
    exists (VDict (insert_all [] (keys d) vs')). split_and!.
    + destruct s as [sh dt k]. cbn in Hs. subst k. cbn [value_to_space_unchecked spec as_dict].
      cbn [mbind option_bind]. by rewrite Hd.
    + constructor. rewrite <- (insert_all_id m (keys d) vs) by done. apply insert_all_eqv; [done|constructor].
    + constructor; [by apply insert_all_sorted; constructor|by apply insert_all_wf].
  - rewrite Hs in IH'. inversion Hw as [| | | | | |? Hwv]; subst.
    destruct (tuple_to_member _ IH' vals xs Hwv Hf) as (vals' & Ht' & He & Hws).
    exists (VTuple vals'). pose proof (Forall3_length_lr _ _ _ _ Hf) as Hl. split_and!; [|by constructor..].
    destruct s as [sh dt k]. cbn in Hs. subst k. cbn [value_to_space_unchecked spec].
    cbn [mbind option_bind]. rewrite Hl, Nat.eqb_refl. cbn [negb]. by rewrite Ht'.
Qed.

(** *** Membership does not see the layout *)

Lemma map_eqv_get m m' k v :
  map_eqv m m' -> btree_get k m = Some v -> exists v', btree_get k m' = Some v' /\ value_eqv v v'.
Proof.
  induction 1 as [|[k1 v1] [k2 v2] m m' [Hk Hv] Hm IH]; [done|]. cbn in *. subst k2.
  case_match; [|done]. intros [= <-]. eauto.
Qed.

Lemma fits_eqv strict s : forall v v', fits strict s v -> value_eqv v v' -> fits strict s v'.
Proof.
  induction s as [s IH] using SpaceSpec_ind'. intros v v' Hf He. unfold children in IH.
  destruct Hf as [s b t bytes bs vs Hs W Hsh Hd Hbs Hdec Hfit|s d n Hs Hm|s m bits Hs Hu|s m ints Hs Hfit|
    s t text Hs Ht|s d m Hs Hf Hk|s t vals Hs Hf]; inversion He as [t' u Heq| | | | |? m' Hm'|? vals' Hv']; subst.
  - destruct Heq as (Hd' & Hs' & bt & bu & Wt & Wu & Hl).
    rewrite (tensor_bytes_unique t bytes bt) in Hdec by done. rewrite Hl in Hdec.
    rewrite Hd', Hs' in *. by eapply fits_box.
  - by eapply fits_discrete.
  - by eapply fits_multibinary.
  - by eapply fits_multidiscrete.
  - by eapply fits_text.
  - rewrite Hs in IH. eapply fits_dict; [done| |].
    + clear Hk Hs. induction Hf as [|k c ks cs (v & Hg & Hfv) _ IHf]; [constructor|].
      apply Forall_cons in IH as [Hc IH]. constructor; [|by apply IHf].
      destruct (map_eqv_get _ _ _ _ Hm' Hg) as (v' & Hg' & Hv'). exists v'. eauto.
    + replace (m'.*1) with (m.*1); [done|]. clear - Hm'.
      induction Hm' as [|[] [] ? ? [? ?] _ IHm]; [done|]. cbn in *. by subst; rewrite IHm.
  - rewrite Hs in IH. eapply fits_tuple; [done|]. clear Hs He. revert vals' Hv'.
    induction Hf as [|c v cs vs Hfv _ IHf]; intros vals' Hv'; inversion Hv'; subst; [constructor|].
    apply Forall_cons in IH as [Hc IH]. constructor; eauto.
Qed.

Lemma tensor_eqv_sym t u : tensor_eqv t u -> tensor_eqv u t.
Proof. intros (Hd & Hs & bt & bu & Wt & Wu & Hl). split_and!; [done..|]. by exists bu, bt. Qed.

Fixpoint value_eqv_sym v v' (He : value_eqv v v') {struct He} : value_eqv v' v.
Proof.
  destruct He as [t u Ht| | | | |m m' Hm|vs vs' Hv]; constructor.
  - by apply tensor_eqv_sym.
  - induction Hm as [|? ? ? ? [Hk Hv] _ IHm]; constructor; [|done]. split; [done|by apply value_eqv_sym].
  - induction Hv as [|? ? ? ? Hv _ IHv]; constructor; [by apply value_eqv_sym|done].
Qed.

Lemma tensor_eqv_trans t u w : tensor_eqv t u -> tensor_eqv u w -> tensor_eqv t w.
Proof.
  intros (Hd & Hs & bt & bu & Wt & Wu & Hl) (Hd' & Hs' & bu' & bw & Wu' & Ww & Hl').
  rewrite (tensor_bytes_unique u bu' bu Wu' Wu) in Hl'.
  split_and!; [congruence..|]. exists bt, bw. split_and!; congruence || done.
Qed.

Fixpoint value_eqv_trans u v w (He : value_eqv u v) (Hf : value_eqv v w) {struct He} : value_eqv u w.
Proof.
  destruct He as [t t' Ht| | | | |m m' Hm|vs vs' Hv]; inversion Hf as [t1 t2 Ht'| | | | |m1 m2 Hm'|vs1 vs2 Hv'];
    subst; constructor.
  - by eapply tensor_eqv_trans.
  - clear Hf. revert m2 Hm'. induction Hm as [|e e' m m' [Hk He] _ IHm]; intros m2 Hm';
      inversion Hm' as [|? e2 ? ? [Hk' He']]; subst; constructor; [|by apply IHm].
    split; [congruence|by eapply value_eqv_trans].
  - clear Hf. revert vs2 Hv'. induction Hv as [|x x' vs vs' He _ IHv]; intros vs2 Hv';
      inversion Hv'; subst; constructor; [by eapply value_eqv_trans|by apply IHv].
Qed.

Definition matches (s : SpaceSpec) : Prop := forall v x, reads s v x -> shapes_match s x = true.

Lemma reads_matches s : valid s -> matches s.
Proof.
  revert s. apply spec_all_induction. intros s Hv IH' v x Hx.
  unfold children in IH'.
  destruct Hx as [s v t bt [_ Ha] Hd Hsh W|s d n Hs|s t text Hs|s d m xs Hs Hso Hk Hf|s t vals xs Hs Hf];
    destruct s as [sh dt k]; cbn [spec space_shape space_dtype] in *.
  - destruct k as [[]|]; try done. cbn. by rewrite bool_decide_true.
  - by subst k.
  - by subst k.
  - subst k. unfold node_valid in Hv. cbn [spec] in Hv. destruct Hv as (_ & _ & _ & _ & Hn).
    cbn [shapes_match spec]. pose proof (Forall3_length_lr _ _ _ _ Hf) as Hl.
    pose proof (meta_get_zip (keys d) xs Hn Hl) as Hg.
    generalize dependent (zip (keys d) xs). intros map Hg. clear Hn Hl Hk.
    induction Hf as [|k c x ks cs xs (v & _ & Hr) _ IHf]; [done|].
    apply Forall_cons in IH' as [Hc IH']. inversion Hg as [|? ? ? ? Hgk Hg']; subst.
    rewrite Hgk, (Hc v x Hr). cbn [andb]. by apply IHf.
  - subst k. cbn [shapes_match spec]. clear Hv.
    induction Hf as [|c v x cs vs xs Hr _ IHf]; [done|]. apply Forall_cons in IH' as [Hc IH'].
    rewrite (Hc v x Hr). cbn [andb]. by apply IHf.
Qed.

(** A value that stands for a member converts to it. *)
Lemma reads_to_space s v x :
  valid s -> typed s -> roomy 1 s -> value_wf v -> fits false s v -> reads s v x ->
  exists v', value_to_space s x = Some (Ok v') /\ value_eqv v v' /\ value_wf v'.
Proof.
  intros Hv Ht Hr Hw Hf Hx. destruct (to_space_member s Hv Ht Hr v x Hw Hx) as (v' & Hto & He & Hw').
  exists v'. split; [|done]. unfold value_to_space. rewrite Hto. cbn [mbind option_bind].
  destruct (conform_at_checks s Hv Ht v' "$" Hw') as (c & Hc & Hd). unfold conform. rewrite Hc.
  cbn [mbind option_bind]. pose proof (proj2 (Hd false) (fits_eqv _ _ _ _ Hf He)) as Hdel.
  by destruct c.
Qed.

Lemma from_space_total s v :
  valid s -> typed s -> roomy 1 s -> value_wf v -> fits false s v ->
  exists x, value_from_space s v = Some (Ok x) /\ reads s v x.
Proof.
  intros Hv Ht Hr Hw Hf. destruct (from_space_reads s Hv Ht Hr v Hw Hf) as (x & Hx & Hrd). exists x.
  split; [|done]. destruct (conform_at_checks s Hv Ht v "$" Hw) as (c & Hc & Hd).
  unfold value_from_space, conform. rewrite Hc, Hx. pose proof (proj2 (Hd false) Hf). by destruct c.
Qed.
End Arrays.

Section Properties.
Context `{HL : HalfLaws}.

(** C16: Every structurally sound member of a valid space converts to a facade value that
    converts back to the same member, whatever the layout of its tensors, and the facade
    tells exactly the members in range as contained; a received value that is not even
    structurally a member is a protocol error.  No conversion panics. *)
Theorem facade_value_roundtrip (s : SpaceSpec) (v : SpaceValue) :
  validate_space s = Some (Ok tt) -> typed s -> roomy 1 s -> value_wf v ->
  (fits false s v -> exists x v',
    value_from_space s v = Some (Ok x) /\ value_to_space s x = Some (Ok v') /\ value_eqv v v' /\
    exists b, space_contains s x = Some b /\ (b = true <-> fits true s v)) /\
  (~ fits false s v -> exists m, value_from_space s v = Some (Err (Protocol m))).
Proof.
  intros Hv%validate_space_Ok Ht Hr Hw. split.
  - intros Hf. destruct (from_space_total s v Hv Ht Hr Hw Hf) as (x & Hfr & Hx).
    destruct (reads_to_space s v x Hv Ht Hr Hw Hf Hx) as (v' & Hto & He & Hw'). exists x, v'.
    split; [done|split; [done|split; [done|]]].
    unfold space_contains. rewrite (reads_matches s Hv v x Hx), Hto. cbn [mbind option_bind].
    unfold contains, conform. destruct (conform_at_checks s Hv Ht v' "$" Hw') as (c' & -> & Hd').
    cbn [mbind option_bind]. eexists. split; [done|].
    assert (fits true s v <-> fits true s v') as ->.
    { split; intros Hs; (eapply fits_eqv; [exact Hs|]); [done|by apply value_eqv_sym]. }
    rewrite <- Hd'. by destruct c'.
  - intros Hn. destruct (conform_at_checks s Hv Ht v "$" Hw) as (c & Hc & Hd).
    unfold value_from_space, conform. rewrite Hc. cbn [mbind option_bind].
    destruct c; try (by eexists); destruct Hn; by apply Hd.
Qed.
End Properties.

(** ** Witnesses *)

Lemma example_roomy n : 1 <= n <= 1000 -> roomy n example_space.
Proof.
  intros Hn. assert (Hb : roomy n bytes_box).
  { constructor; [|apply Forall_nil_2]. cbn. unfold_ints. lia. }
  constructor; [exact I|]. apply Forall_cons_2; [exact Hb|]. apply Forall_cons_2; [|apply Forall_nil_2].
  constructor; [exact I|].
  apply Forall_cons_2; [|apply Forall_cons_2; [|apply Forall_nil_2]]; (constructor; [|apply Forall_nil_2]);
    [cbn; unfold_ints; lia|exact I].
Qed.

Lemma example_space_valid : valid (H := ieee_half) example_space.
Proof. apply (validate_space_Ok _ "$"). vm_compute. reflexivity. Qed.

Lemma example_member : fits (H := ieee_half) false example_space example_value.
Proof.
  destruct (conform_at_checks (H := ieee_half) example_space example_space_valid example_typed example_value "$"
    example_value_wf) as (c & Hc & Hd).
  apply Hd. vm_compute in Hc. by injection Hc as <-.
Qed.

Lemma facade_value_roundtrip_witness :
  exists x v', value_from_space (H := ieee_half) example_space example_value = Some (Ok x) /\
    value_to_space (H := ieee_half) example_space x = Some (Ok v') /\ value_eqv example_value v'.
Proof.
  destruct (facade_value_roundtrip (H := ieee_half) example_space example_value) as [Hok _].
  - vm_compute. reflexivity.
  - exact example_typed.
  - apply example_roomy. lia.
  - exact example_value_wf.
  - destruct (Hok example_member) as (x & v' & Hx & Hv & He & _). exists x, v'.
    exact (conj Hx (conj Hv He)).
Defined.

(** ** Findings *)

(** A valid MultiBinary space of 2^64 bits. *)
Definition huge_bits : SpaceSpec := mkSpec [2 ^ 62; 4] Int8 (Some (KMultiBinary mkMultiBinary)).

Definition one_bit : Tensor := mkTensor (Adopted [Byte.x01]) Int8 [1] None 0.

(** The element count of the space is an unchecked [i64] product: asking whether a tensor
    is in a valid space whose count exceeds [i64] panics, where a list is refused. *)
Lemma huge_space_panics :
  validate_space (H := ieee_half) huge_bits = Some (Ok tt) /\
  value_to_space (H := ieee_half) huge_bits (FTensor one_bit) = None /\
  space_contains (H := ieee_half) huge_bits (FTensor one_bit) = None /\
  space_contains (H := ieee_half) huge_bits (FList [FInt 1]) = Some false.
Proof. vm_compute. done. Qed.
