(* ===== verification/LaneLayout.v ===== *)
(** * Lane layout

    [rlmesh/src/env/batch.rs], with the tensor operations of the facade it uses
    ([ext.rs], [tensor.rs]): the batched value a vector env sees, its split into lanes,
    the one-lane batch and its lane 0, lane 0 of a vector info, and the pixels of a
    render frame.  The PNG encoder is a parameter; [addr] is the address the allocator
    gives a fresh buffer. *)

From stdpp Require Import gmap strings.
From S2P Require Import Prelude Utf8 BTree Float FloatOps DType Scalar Tensor Types BoxValue Spaces AdapterValue FacadeError FacadeValue.
#[local] Open Scope string_scope.
#[local] Open Scope Z_scope.

(** ** Tensors of the facade *)

Definition tensor_error (err : TensorError) : Error :=
  match err with
  | TOverflow => invalid_argument (lit "tensor element count overflow")
  | other => invalid_argument (tensor_error_message other)
  end.

Definition facade_from_vec (data : list byte) (shape : list Z) (dtype : DType)
    : option (result Tensor Error) :=
  lift_err tensor_error (tensor_from_vec data shape dtype).

Definition facade_stack (addr : Z) (tensors : list Tensor) : option (result Tensor Error) :=
  lift_err tensor_error (stack addr tensors).

Definition facade_unstack (t : Tensor) : option (result (list Tensor) Error) :=
  lift_err tensor_error (unstack t).

Definition facade_reshape (addr : Z) (t : Tensor) (shape : list Z) : option (result Tensor Error) :=
  lift_err tensor_error (reshape addr t shape).

(** A deep, contiguous copy; the [expect] is a panic. *)
Definition tensor_copy (addr : Z) (t : Tensor) : option Tensor :=
  let! bytes := to_contiguous_bytes t in
  let! inner := tensor_from_slice addr bytes (shape t) (dtype t) in
  match inner with Ok inner => Some inner | Err _ => None end.

(** ** Kinds *)

(** [SpaceKind::of(spec)], displayed. *)
Definition space_kind_name (s : SpaceSpec) : string :=
  match spec s with
  | Some (KBox _) => "box"
  | Some (KDiscrete _) => "discrete"
  | Some (KDict _) => "dict"
  | Some (KMultiBinary _) => "multi_binary"
  | Some (KMultiDiscrete _) => "multi_discrete"
  | Some (KText _) => "text"
  | Some (KTuple _) => "tuple"
  | None => "unknown"
  end.

Definition is_stacked (s : SpaceSpec) : bool :=
  match spec s with
  | Some (KBox _ | KMultiBinary _ | KMultiDiscrete _) => true
  | _ => false
  end.

Definition batch_error (m : message) : Error := Type_ m.

(** ** Stacking *)

(** One lane's entries at the ends of the columns. *)
Fixpoint push_entries (columns : list (list FValue)) (ks : list string) (map : Metadata)
    : list (list FValue) :=
  match columns, ks with
  | column :: columns, key :: ks =>
      (column ++ [default FNone (meta_get key map)])%list :: push_entries columns ks (meta_remove key map)
  | columns, _ => columns
  end.

Fixpoint dict_columns (ks : list string) (columns : list (list FValue)) (lanes : list FValue)
    : result (list (list FValue)) Error :=
  match lanes with
  | [] => Ok columns
  | FDict map :: lanes => dict_columns ks (push_entries columns ks map) lanes
  | _ :: _ => Err (batch_error (lit "a Dict space's action must be a dict"))
  end.

Fixpoint push_items (columns : list (list FValue)) (items : list FValue) : list (list FValue) :=
  match columns, items with
  | column :: columns, item :: items => (column ++ [item])%list :: push_items columns items
  | columns, _ => columns
  end.

Fixpoint tuple_columns (columns : list (list FValue)) (lanes : list FValue)
    : result (list (list FValue)) Error :=
  match lanes with
  | [] => Ok columns
  | (FTuple items | FList items) :: lanes => tuple_columns (push_items columns items) lanes
  | _ :: _ => Err (batch_error (lit "a Tuple space's action must be a tuple"))
  end.

Fixpoint lane_ints (lanes : list FValue) : result (list Z) Error :=
  match lanes with
  | [] => Ok []
  | FInt int :: lanes => let? rest := lane_ints lanes in Ok (int :: rest)
  | other :: _ =>
      Err (batch_error (Msg "a Discrete action must be an int, got {}" [AStr (python_name (kind other))]))
  end.

Fixpoint lane_tensors (s : SpaceSpec) (lanes : list FValue) : result (list Tensor) Error :=
  match lanes with
  | [] => Ok []
  | FTensor t :: lanes => let? rest := lane_tensors s lanes in Ok (t :: rest)
  | other :: _ =>
      Err (batch_error (Msg "a {} action must be a tensor, got {}"
        [AStr (space_kind_name s); AStr (python_name (kind other))]))
  end.

Section Stack.
Context (addr : Z).

Section Children.
Context (stack_child : SpaceSpec -> list FValue -> option (result FValue Error)).

Fixpoint stack_entries (ks : list string) (spaces : list SpaceSpec) (columns : list (list FValue))
    (out : Metadata) {struct spaces} : option (result Metadata Error) :=
  match spaces, ks, columns with
  | child :: spaces, key :: ks, column :: columns =>
      let!? b := stack_child child column in
      stack_entries ks spaces columns (meta_insert key b out)
  | _, _, _ => Some (Ok out)
  end.

Fixpoint stack_items (spaces : list SpaceSpec) (columns : list (list FValue)) {struct spaces}
    : option (result (list FValue) Error) :=
  match spaces, columns with
  | child :: spaces, column :: columns =>
      let!? b := stack_child child column in
      let!? rest := stack_items spaces columns in
      Some (Ok (b :: rest))
  | _, _ => Some (Ok [])
  end.
End Children.

Fixpoint stack_lanes (s : SpaceSpec) (lanes : list FValue) {struct s} : option (result FValue Error) :=
  match spec s with
  | Some (KDict d) =>
      let!? columns := Some (dict_columns (keys d) (repeat [] (length (keys d))) lanes) in
      let!? out := stack_entries stack_lanes (keys d) (dict_spaces d) columns [] in
      Some (Ok (FDict out))
  | Some (KTuple t) =>
      let!? columns := Some (tuple_columns (repeat [] (length (tuple_spaces t))) lanes) in
      let!? out := stack_items stack_lanes (tuple_spaces t) columns in
      Some (Ok (FTuple out))
  | Some (KDiscrete _) =>
      let!? ints := Some (lane_ints lanes) in
      let!? t := facade_from_vec (concat (le_split 8 <$> ints)) [Z.of_nat (length ints)] Int64 in
      Some (Ok (FTensor t))
  | _ =>
      if is_stacked s then
        let!? tensors := Some (lane_tensors s lanes) in
        let!? t := facade_stack addr tensors in
        Some (Ok (FTensor t))
      else Some (Ok (FList lanes))
  end.
End Stack.

(** ** Unstacking *)

Definition check_width (items : list FValue) (num_envs : nat) : result (list FValue) Error :=
  if negb (length items =? num_envs)%nat then
    Err (batch_error (Msg "a batch of {} values for {num_envs} envs" [ANat (length items); ANat num_envs]))
  else Ok items.

Section Unstack.
Context `{HalfOps}.

Fixpoint scalar_ints (scalars : list Scalar) : result (list Z) Error :=
  match scalars with
  | [] => Ok []
  | scalar :: scalars =>
      let? int := match scalar with
                  | SInt int => Ok int
                  | SFloat float =>
                      if f64_eqb (f64_fract float) f64_zero then Ok (f64_as_int i64_min i64_max float)
                      else Err (batch_error (lit "a Discrete batch must hold integers"))
                  | SBool _ => Err (batch_error (lit "a Discrete batch must hold integers"))
                  end in
      let? rest := scalar_ints scalars in
      Ok (int :: rest)
  end.

Definition tensor_ints (t : Tensor) : option (result (list Z) Error) :=
  let! bytes := to_contiguous_bytes t in
  let!? scalars := lift_err (fun err => batch_error (scalar_error_message err))
                     (decode_scalars bytes (dtype t)) in
  Some (scalar_ints scalars).

(** [for (lane, value) in lanes.iter_mut().zip(..)]. *)
Fixpoint insert_column (key : string) (lanes : list Metadata) (values : list FValue) : list Metadata :=
  match lanes, values with
  | lane :: lanes, value :: values => meta_insert key value lane :: insert_column key lanes values
  | lanes, _ => lanes
  end.

Section Children.
Context (unstack_child : SpaceSpec -> FValue -> option (result (list FValue) Error)).

Fixpoint unstack_entries (ks : list string) (spaces : list SpaceSpec) (map : Metadata)
    (lanes : list Metadata) {struct spaces} : option (result (list Metadata) Error) :=
  match spaces, ks with
  | child :: spaces, key :: ks =>
      match meta_get key map with
      | Some column =>
          let!? values := unstack_child child column in
          unstack_entries ks spaces (meta_remove key map) (insert_column key lanes values)
      | None => unstack_entries ks spaces map lanes
      end
  | _, _ => Some (Ok lanes)
  end.

Fixpoint unstack_items (spaces : list SpaceSpec) (columns : list FValue) (lanes : list (list FValue))
    {struct spaces} : option (result (list (list FValue)) Error) :=
  match spaces, columns with
  | child :: spaces, column :: columns =>
      let!? values := unstack_child child column in
      unstack_items spaces columns (push_items lanes values)
  | _, _ => Some (Ok lanes)
  end.
End Children.

Definition refused_batch (s : SpaceSpec) (batch : FValue) : Error :=
  batch_error (Msg "a batched {} value cannot be a {}"
    [AStr (space_kind_name s); AStr (python_name (kind batch))]).

Fixpoint unstack_lanes_unchecked (num_envs : nat) (s : SpaceSpec) (batch : FValue) {struct s}
    : option (result (list FValue) Error) :=
  match batch with
  | FList items => Some (check_width items num_envs)
  | _ =>
      match spec s, batch with
      | Some (KDict d), FDict map =>
          let!? lanes := unstack_entries (unstack_lanes_unchecked num_envs) (keys d) (dict_spaces d) map
                           (repeat [] num_envs) in
          Some (Ok (FDict <$> lanes))
      | Some (KTuple t), FTuple children =>
          let!? lanes := unstack_items (unstack_lanes_unchecked num_envs) (tuple_spaces t) children
                           (repeat [] num_envs) in
          Some (Ok (FTuple <$> lanes))
      | Some (KDiscrete _), FTensor t =>
          let!? ints := tensor_ints t in
          Some (check_width (FInt <$> ints) num_envs)
      | _, FTensor t =>
          if is_stacked s then
            let!? parts := facade_unstack t in
            Some (check_width (FTensor <$> parts) num_envs)
          else Some (Err (refused_batch s batch))
      | _, _ => Some (Err (refused_batch s batch))
      end
  end.

(** Every lane converts against its space. *)
Fixpoint check_lanes (s : SpaceSpec) (lanes : list FValue) : option (result unit Error) :=
  match lanes with
  | [] => Some (Ok tt)
  | lane :: lanes =>
      let!? _ := value_to_space s lane in
      check_lanes s lanes
  end.

Definition unstack_lanes (s : SpaceSpec) (batch : FValue) (num_envs : nat)
    : option (result (list FValue) Error) :=
  let!? lanes := unstack_lanes_unchecked num_envs s batch in
  let!? _ := check_lanes s lanes in
  Some (Ok lanes).

(** ** Lane 0 *)

Definition first_item (v : FValue) : option (result FValue Error) :=
  let empty := batch_error (lit "an empty batch has no lane 0") in
  match v with
  | FList items | FTuple items => Some (ok_or (head items) empty)
  | FTensor t =>
      let!? parts := facade_unstack t in
      Some (ok_or (FTensor <$> head parts) empty)
  | other =>
      Some (Err (batch_error (Msg "a batched value cannot be a {}" [AStr (python_name (kind other))])))
  end.

Section Children.
Context (child_fn : SpaceSpec -> FValue -> option (result FValue Error)).

(** Each child's entry, when the map has it. *)
Fixpoint map_entries (ks : list string) (spaces : list SpaceSpec) (map out : Metadata)
    {struct spaces} : option (result Metadata Error) :=
  match spaces, ks with
  | child :: spaces, key :: ks =>
      match meta_get key map with
      | Some item =>
          let!? x := child_fn child item in
          map_entries ks spaces (meta_remove key map) (meta_insert key x out)
      | None => map_entries ks spaces map out
      end
  | _, _ => Some (Ok out)
  end.

Fixpoint map_items (spaces : list SpaceSpec) (items : list FValue) {struct spaces}
    : option (result (list FValue) Error) :=
  match spaces, items with
  | child :: spaces, item :: items =>
      let!? x := child_fn child item in
      let!? rest := map_items spaces items in
      Some (Ok (x :: rest))
  | _, _ => Some (Ok [])
  end.
End Children.

(** The arm of [lane0_unchecked] for what is neither a dict nor a tuple. *)
Definition lane0_leaf (s : SpaceSpec) (v : FValue) : option (result FValue Error) :=
  let!? first := first_item v in
  match spec s, first with
  | Some (KDiscrete _), FTensor t =>
      let! size := numel t in
      if size =? 1 then
        let!? ints := tensor_ints t in
        let! int := head ints in
        Some (Ok (FInt int))
      else Some (Ok first)
  | _, first => Some (Ok first)
  end.

Fixpoint lane0_unchecked (s : SpaceSpec) (v : FValue) {struct s} : option (result FValue Error) :=
  match spec s, v with
  | Some (KDict d), FDict map =>
      let!? out := map_entries lane0_unchecked (keys d) (dict_spaces d) map [] in
      Some (Ok (FDict out))
  | Some (KTuple t), (FTuple items | FList items) =>
      if negb (length items =? length (tuple_spaces t))%nat then
        Some (Err (batch_error (lit "a Tuple observation has the wrong arity")))
      else
        let!? items := map_items lane0_unchecked (tuple_spaces t) items in
        Some (Ok (FTuple items))
  | _, v => lane0_leaf s v
  end.

Definition lane0 (s : SpaceSpec) (v : FValue) : option (result FValue Error) :=
  let!? lane := lane0_unchecked s v in
  let!? _ := value_to_space s lane in
  Some (Ok lane).

(** ** One-lane batches *)

Definition batch1_leaf (addr : Z) (action : FValue) : option (result FValue Error) :=
  match action with
  | FTensor t =>
      let! copied := tensor_copy addr t in
      let!? t := facade_reshape addr copied (1 :: shape t) in
      Some (Ok (FTensor t))
  | other => Some (Ok (FList [other]))
  end.

Fixpoint batch1_unchecked (addr : Z) (s : SpaceSpec) (action : FValue) {struct s}
    : option (result FValue Error) :=
  match spec s with
  | Some (KDict d) =>
      match action with
      | FDict map =>
          let!? out := map_entries (batch1_unchecked addr) (keys d) (dict_spaces d) map [] in
          Some (Ok (FDict out))
      | _ =>
          Some (Err (batch_error
            (Msg "'{}' object is not subscriptable" [AStr (python_name (kind action))])))
      end
  | Some (KTuple t) =>
      match action with
      | FTuple items | FList items =>
          let!? items := map_items (batch1_unchecked addr) (tuple_spaces t) items in
          Some (Ok (FTuple items))
      | _ =>
          Some (Err (batch_error
            (Msg "'{}' object is not iterable" [AStr (python_name (kind action))])))
      end
  | _ => batch1_leaf addr action
  end.

Definition batch1 (addr : Z) (s : SpaceSpec) (action : FValue) : option (result FValue Error) :=
  let!? _ := value_to_space s action in
  batch1_unchecked addr s action.

(** ** Vector infos *)

Definition mask_lane0 (mask : FValue) : option bool :=
  let! first := first_item mask in
  match first with
  | Ok (FBool flag) => Some flag
  | Ok (FInt int) => Some (negb (int =? 0))
  | Ok (FFloat float) => Some (negb (f64_eqb float f64_zero))
  | Ok (FTensor t) =>
      let! bytes := to_contiguous_bytes t in
      Some (existsb (fun b => negb (byte.unsigned b =? 0)) bytes)
  | Ok FNone => Some false
  | _ => Some true
  end.

Definition masked_out (info : Metadata) (key : string) : option bool :=
  match meta_get ("_" ++ key) info with
  | Some mask => let! flag := mask_lane0 mask in Some (negb flag)
  | None => Some false
  end.

Section InfoEntries.
Context (info_value : FValue -> option FValue).

Fixpoint info_entries (info entries lane : Metadata) : option Metadata :=
  match entries with
  | [] => Some lane
  | (key, value) :: entries =>
      if String.prefix "_" key then info_entries info entries lane
      else
        let! skip := masked_out info key in
        if skip : bool then info_entries info entries lane
        else
          let! value := info_value value in
          info_entries info entries (meta_insert key value lane)
  end.
End InfoEntries.

(** The entry of lane 0. *)
Fixpoint info_value (v : FValue) : option FValue :=
  match v with
  | FDict map => let! lane := info_entries info_value map map [] in Some (FDict lane)
  | FList [item] | FTuple [item] => Some item
  | FTensor t =>
      if bool_decide (head (shape t) = Some 1) then
        let! first := first_item v in
        Some match first with Ok first => first | Err _ => v end
      else Some v
  | other => Some other
  end.

Definition info0 (info : Metadata) : option Metadata := info_entries info_value info info [].
End Unstack.

(** ** Render frames *)

(** The lengths of a frame's axes are those of values in memory, so a plane's size stays
    in [usize]. *)
Definition chw_pixel (bytes : list byte) (channels : nat) (plane pixel : nat) : list byte :=
  (fun channel => default Byte.x00 (bytes !! (channel * plane + pixel)%nat)) <$> seq 0 channels.

Definition chw_to_hwc (bytes : list byte) (channels height width : nat) : list byte :=
  let plane := (height * width)%nat in
  concat (chw_pixel bytes channels plane <$> seq 0 plane).

Definition scalar_u8 (scalar : Scalar) : byte :=
  byte.of_Z match scalar with
            | SBool flag => Z.b2z flag
            | SInt int => wrap_u 8 int
            | SFloat float => wrap_u 8 (f64_as_int i64_min i64_max float)
            end.

Definition ragged : Error := Type_ (lit "render frame is a ragged nested list").

Fixpoint nested_u8 (v : FValue) (depth : nat) (shape : list nat) (out : list byte)
    : result (list nat * list byte) Error :=
  match v with
  | FList items | FTuple items =>
      let? shape :=
        match shape !! depth with
        | Some len => if negb (len =? length items)%nat then Err ragged else Ok shape
        | None => if (depth =? length shape)%nat then Ok (shape ++ [length items])%list else Err ragged
        end in
      (fix go (items : list FValue) (shape : list nat) (out : list byte)
           : result (list nat * list byte) Error :=
         match items with
         | [] => Ok (shape, out)
         | item :: items =>
             let? read := nested_u8 item (S depth) shape out in
             go items read.1 read.2
         end) items shape out
  | FInt int => Ok (shape, (out ++ [scalar_u8 (SInt int)])%list)
  | FFloat float => Ok (shape, (out ++ [scalar_u8 (SFloat float)])%list)
  | FBool flag => Ok (shape, (out ++ [scalar_u8 (SBool flag)])%list)
  | other =>
      Err (Type_ (Msg "render frame holds a {}, not a number" [AStr (python_name (kind other))]))
  end.

Section Frame.
Context `{HalfOps}.

Definition frame_u8 (frame : FValue) : option (result (option (list nat * list byte)) Error) :=
  match frame with
  | FTensor t =>
      let! bytes := to_contiguous_bytes t in
      let!? data :=
        if bool_decide (dtype t = Uint8) then Some (Ok bytes)
        else
          let!? scalars := lift_err (fun err => Type_ (Msg "render frame: {err}" [nested (scalar_error_message err)]))
                             (decode_scalars bytes (dtype t)) in
          Some (Ok (scalar_u8 <$> scalars)) in
      Some (Ok (Some (Z.to_nat <$> shape t, data)))
  | FList _ | FTuple _ =>
      Some (let? read := nested_u8 frame 0 [] [] in Ok (Some read))
  | _ => Some (Ok None)
  end.

Inductive ExtendedColorType : Type := Rgb8 | Rgba8 | L8.

(** [PngEncoder::write_image] of the image crate; [None] is its panic. *)
Context (write_image : list byte -> Z -> Z -> ExtendedColorType -> option (result (list byte) message)).

Definition frame_dim (d : nat) : Z := if Z.of_nat d <=? u32_max then Z.of_nat d else 0.

(** Width, height, color and pixels of a frame with an image shape. *)
Definition frame_image (shape : list nat) (bytes : list byte)
    : option (Z * Z * ExtendedColorType * list byte) :=
  match shape with
  | [h; w; 3%nat] => Some (frame_dim w, frame_dim h, Rgb8, bytes)
  | [h; w; 4%nat] => Some (frame_dim w, frame_dim h, Rgba8, bytes)
  | [3%nat; h; w] => Some (frame_dim w, frame_dim h, Rgb8, chw_to_hwc bytes 3 h w)
  | [4%nat; h; w] => Some (frame_dim w, frame_dim h, Rgba8, chw_to_hwc bytes 4 h w)
  | [h; w] => Some (frame_dim w, frame_dim h, L8, bytes)
  | _ => None
  end.

Definition encode_frame (frame : FValue) : option (result (option (list byte)) Error) :=
  let!? read := frame_u8 frame in
  match read with
  | None => Some (Ok None)
  | Some (shape, bytes) =>
      match frame_image shape bytes with
      | None => Some (Ok None)
      | Some (width, height, color, data) =>
          let!? encoded := lift_err (fun err => Internal (Msg "encode render frame: {err}" [nested err]))
                             (write_image data width height color) in
          Some (Ok (Some encoded))
      end
  end.
End Frame.
