(* ===== verification/LaneLayoutSpec.v ===== *)
(** * Lanes and their batches

    What a batched value stands for, that stacking lanes and making a one-lane batch
    produce it, and that unstacking and lane 0 read the lanes back. *)

From stdpp Require Import gmap strings.
From S2P Require Import Prelude Utf8 BTree Float FloatOps DType Scalar Tensor Types AdapterValue BoxValue BoxSpace Fundamental Spaces Walk WireSpaces Leaves FacadeError FacadeValue FacadeValueSpec LaneLayout.
#[local] Open Scope string_scope.
#[local] Open Scope Z_scope.

(** ** Columns *)

(** The [k] columns of rows of length [k]. *)
Definition lane_columns {A} (k : nat) (rows : list (list A)) : list (list A) :=
  foldr (zip_with cons) (repeat [] k) rows.

Lemma columns_cons {A} k col (rows : list (list A)) :
  length col = length rows -> lane_columns (S k) (zip_with cons col rows) = col :: lane_columns k rows.
Proof.
  revert rows; induction col as [|x col IH]; intros [|row rows] Hl; try done.
  injection Hl as Hl. unfold lane_columns in *. cbn [zip_with foldr]. by rewrite IH.
Qed.

Lemma length_columns {A} k (rows : list (list A)) :
  Forall (fun row => length row = k) rows -> length (lane_columns k rows) = k.
Proof.
  induction 1 as [|row rows Hr _ IH]; [apply repeat_length|]. cbn.
  rewrite length_zip_with, Hr. fold (lane_columns k rows). lia.
Qed.

Lemma zip_with_app_snoc {A} (acc : list (list A)) row cols :
  length row = length cols ->
  zip_with app (zip_with (fun c x => c ++ [x])%list acc row) cols =
  zip_with app acc (zip_with cons row cols).
Proof.
  revert row cols; induction acc as [|c acc IH]; intros [|x row] [|col cols] Hl; try done.
  injection Hl as Hl. cbn. by rewrite <- app_assoc, IH.
Qed.

Lemma push_items_zip acc row :
  length acc = length row -> push_items acc row = zip_with (fun c x => c ++ [x])%list acc row.
Proof.
  revert row; induction acc as [|c acc IH]; intros [|x row] Hl; try done.
  injection Hl as Hl. cbn. by rewrite IH.
Qed.

Lemma push_entries_zip acc ks row :
  NoDup ks -> length acc = length ks -> length row = length ks ->
  push_entries acc ks (zip ks row) = push_items acc row.
Proof.
  revert acc row; induction ks as [|k ks IH]; intros [|c acc] [|x row] Hn Ha Hr; try done.
  apply NoDup_cons in Hn as [_ Hn]. injection Ha as Ha. injection Hr as Hr.
  cbn [push_entries push_items]. rewrite meta_get_head, meta_remove_head, IH by done. done.
Qed.

Lemma length_push_items acc items : length (push_items acc items) = length acc.
Proof. revert items; induction acc; intros [|]; cbn; auto. Qed.

Lemma zip_with_app_repeat {A} k (cols : list (list A)) :
  length cols = k -> zip_with app (repeat [] k) cols = cols.
Proof. intros <-. induction cols as [|c cols IH]; [done|]. cbn. by rewrite IH. Qed.

Lemma tuple_columns_spec k rows acc :
  Forall (fun row => length row = k) rows -> length acc = k ->
  tuple_columns acc (FTuple <$> rows) = Ok (zip_with app acc (lane_columns k rows)).
Proof.
  intros Hr. revert acc; induction Hr as [|row rows Hr Hrs IH]; intros acc Ha; cbn.
  - f_equal. subst k. clear. induction acc as [|c acc IH]; [done|]. cbn. by rewrite app_nil_r, <- IH.
  - fold (lane_columns k rows). rewrite IH by (by rewrite length_push_items).
    rewrite push_items_zip, zip_with_app_snoc; [done| |congruence].
    by rewrite length_columns.
Qed.

Lemma dict_columns_spec ks rows acc :
  NoDup ks -> Forall (fun row => length row = length ks) rows -> length acc = length ks ->
  dict_columns ks acc ((fun row => FDict (zip ks row)) <$> rows) =
  tuple_columns acc (FTuple <$> rows).
Proof.
  intros Hn Hr. revert acc; induction Hr as [|row rows Hr Hrs IH]; intros acc Ha; [done|]. cbn.
  rewrite push_entries_zip, IH by (done || by rewrite length_push_items). done.
Qed.

(** Rows whose every item is related to the key and the space at its place split into
    their first column and the rest. *)
Lemma rows_cons {A B C D} (P : A -> B -> C -> D -> Prop) b bs c cs (ms : list A) rows :
  Forall2 (fun m row => Forall3 (P m) (b :: bs) (c :: cs) row) ms rows ->
  exists col rows', rows = zip_with cons col rows' /\ length col = length rows' /\
    Forall2 (fun m x => P m b c x) ms col /\
    Forall2 (fun m row => Forall3 (P m) bs cs row) ms rows'.
Proof.
  induction 1 as [|m row ms rows Hr _ (col & rows' & -> & Hl & Hc & Hrs)].
  { by exists [], []. }
  inversion Hr as [|? ? x ? ? row' Hx Hr']; subst. exists (x :: col), (row' :: rows').
  split_and!; [done|by cbn; f_equal|by constructor..].
Qed.

Lemma rows_split {B C D} (P : B -> C -> D -> Prop) c cs valss rows :
  Forall2 (Forall3 P (c :: cs)) valss rows ->
  exists vcol valss' col rows', valss = zip_with cons vcol valss' /\ rows = zip_with cons col rows' /\
    length vcol = length valss' /\ length col = length rows' /\
    Forall2 (P c) vcol col /\ Forall2 (Forall3 P cs) valss' rows'.
Proof.
  induction 1 as [|vals row valss rows Hr _ (vcol & valss' & col & rows' & -> & -> & Hl & Hl' & Hc & Hrs)].
  { by exists [], [], [], []. }
  inversion Hr as [|? v x ? vals' row' Hx Hr']; subst.
  exists (v :: vcol), (vals' :: valss'), (x :: col), (row' :: rows').
  split_and!; [done|done|by cbn; f_equal|by cbn; f_equal|by constructor..].
Qed.

(** ** Batches *)

(** An array of the space has elements. *)
Definition node_solid (s : SpaceSpec) : Prop :=
  match spec s with Some (KBox _) => 0 < volume (space_shape s) | _ => True end.

Definition solid : SpaceSpec -> Prop := spec_all node_solid.

Section Batches.
Context `{HL : HalfLaws}.
Context (n : nat).

(** The batched value [b] stands for the members [vs] of [s], one per lane. *)
Inductive batch : SpaceSpec -> list SpaceValue -> FValue -> Prop :=
| batch_array s vs u bu chunks :
    strides u = None -> dtype u = space_dtype s -> shape u = Z.of_nat n :: space_shape s ->
    tensor_wf u bu -> length vs = n -> Forall2 (array_value s) vs chunks ->
    concat chunks = logical_bytes u bu -> batch s vs (FTensor u)
| batch_ints s d ints u bu :
    spec s = Some (KDiscrete d) -> length ints = n -> strides u = None -> dtype u = Int64 ->
    shape u = [Z.of_nat n] -> tensor_wf u bu ->
    logical_bytes u bu = concat (le_split 8 <$> ints) -> Forall is_i64 ints ->
    batch s (VDiscrete <$> ints) (FTensor u)
| batch_list s vs xs :
    match spec s with Some (KDiscrete _ | KText _) => True | _ => False end ->
    length vs = n -> Forall2 (reads s) vs xs -> batch s vs (FList xs)
| batch_dict s d ms bs :
    spec s = Some (KDict d) -> length ms = n ->
    Forall (fun m => btree_sorted m /\ Forall (fun k => k ∈ keys d) m.*1) ms ->
    Forall3 (fun k c b => exists vs, Forall2 (fun m v => btree_get k m = Some v) ms vs /\ batch c vs b)
      (keys d) (dict_spaces d) bs ->
    batch s (VDict <$> ms) (FDict (zip (keys d) bs))
| batch_tuple s t valss bs :
    spec s = Some (KTuple t) -> length valss = n ->
    Forall (fun vals => length vals = length (tuple_spaces t)) valss ->
    Forall3 batch (tuple_spaces t) (lane_columns (length (tuple_spaces t)) valss) bs ->
    batch s (VTuple <$> valss) (FTuple bs).

(** *** Stacking *)

Lemma Forall2_get_exists {A B C} (P : A -> C -> Prop) (Q : C -> B -> Prop) (ms : list A) (xs : list B) :
  Forall2 (fun m x => exists v, P m v /\ Q v x) ms xs -> exists vs, Forall2 P ms vs /\ Forall2 Q vs xs.
Proof.
  induction 1 as [|m x ms xs (v & Hp & Hq) _ (vs & Hps & Hqs)]; [by exists []|].
  exists (v :: vs). by split; constructor.
Qed.

Lemma reads_arrays s vs xs :
  is_array s -> Forall2 (reads s) vs xs ->
  exists ts bss, xs = FTensor <$> ts /\ Forall2 tensor_wf ts bss /\
    Forall (fun t => dtype t = space_dtype s /\ shape t = space_shape s) ts /\
    Forall2 (array_value s) vs (zip_with logical_bytes ts bss).
Proof.
  intros Ha. induction 1 as [|v x vs xs Hr _ (ts & bss & -> & Hw & Hs & Hv)].
  { exists [], []. by split_and!. }
  unfold is_array in Ha.
  destruct Hr as [s v t bt Hav Hd Hsh W|? ? ? Hs'|? ? ? Hs'|? ? ? ? Hs'|? ? ? ? Hs']; try (by rewrite Hs' in Ha).
  exists (t :: ts), (bt :: bss). split_and!; [done|by constructor..].
Qed.

Lemma lane_tensors_fmap s ts : lane_tensors s (FTensor <$> ts) = Ok ts.
Proof. induction ts as [|t ts IH]; [done|]. cbn. by rewrite IH. Qed.

Lemma lane_ints_fmap ints : lane_ints (FInt <$> ints) = Ok ints.
Proof. induction ints as [|i ints IH]; [done|]. cbn. by rewrite IH. Qed.

Lemma stack_arrays addr s vs xs :
  array_ok (Z.of_nat n) s -> (0 < n)%nat -> length xs = n -> Forall2 (reads s) vs xs ->
  exists ts u, xs = FTensor <$> ts /\ stack addr ts = Some (Ok u) /\ batch s vs (FTensor u).
Proof.
  intros Ha Hn Hl Hr. destruct (reads_arrays s vs xs) as (ts & bss & -> & Hw & Hs & Hv); [apply Ha|done|].
  rewrite length_fmap in Hl. destruct ts as [|t0 ts]; [cbn in Hl; lia|].
  apply Forall_cons in Hs as [[Hd Hsh] Hs].
  destruct (stack_spec addr t0 ts bss) as (st & Hst & W & Hb); [done| | |].
  { eapply Forall_impl; [exact Hs|]. cbn. intros t [-> ->]. done. }
  { destruct Ha as (_ & _ & _ & Hcap). unfold itemsize. rewrite Hd, Hsh.
    change (length (t0 :: ts)) with (S (length ts)) in Hl. by rewrite Hl. }
  exists (t0 :: ts), (mkTensor st (dtype t0) (Z.of_nat (S (length ts)) :: shape t0) None 0).
  split_and!; [done|done|]. eapply batch_array; try done; cbn [shape dtype].
  - change (length (t0 :: ts)) with (S (length ts)) in Hl. by rewrite Hl, Hsh.
  - apply Forall2_length in Hr. rewrite length_fmap in Hr. congruence.
Qed.

(** The int64 tensor of the lanes of a Discrete space. *)
Lemma ints_from_vec ints :
  length ints = n -> 8 * Z.of_nat n + 63 <= isize_max ->
  exists u bu, facade_from_vec (concat (le_split 8 <$> ints)) [Z.of_nat n] Int64 = Some (Ok u) /\
    strides u = None /\ dtype u = Int64 /\ shape u = [Z.of_nat n] /\ tensor_wf u bu /\
    logical_bytes u bu = concat (le_split 8 <$> ints).
Proof.
  intros Hl Hr. set (data := concat _).
  assert (Hd : Z.of_nat (length data) = Z.of_nat n * 8).
  { subst data. rewrite (length_concat_uniform 8); [rewrite length_fmap; lia|].
    apply Forall_fmap, Forall_true. intros z. cbn. apply length_le_split. }
  assert (Hdim : dims_ok [Z.of_nat n]) by (repeat constructor; unfold_ints; lia).
  assert (Hu : usize_product 1 [Z.of_nat n] = Some (volume [Z.of_nat n])).
  { rewrite usize_product_total; [f_equal; lia|done|lia|]. cbn [extent]. unfold_ints. lia. }
  destruct (fresh_tensor_spec (Adopted data) Int64 [Z.of_nat n] data) as (Hf & W & Hb); try done.
  { lia. }
  { cbn [volume dtype_size]. lia. }
  exists (mkTensor (Adopted data) Int64 [Z.of_nat n] None 0), data. split_and!; try done.
  unfold facade_from_vec, tensor_from_vec.
  pose proof (checked_nbytes_wf _ _ W) as Hnb. unfold itemsize in Hnb. cbn [shape dtype volume dtype_size] in Hnb.
  rewrite Hnb by (unfold materialisable, itemsize; cbn; unfold_ints; lia).
  rewrite (proj2 (Z.eqb_eq _ _)) by (rewrite Hd; cbn; lia). cbn [negb].
  unfold Storage.from_vec. by rewrite Hf.
Qed.

(** What the lemmas rely on at a node. *)
Definition node_ok (s : SpaceSpec) : Prop :=
  node_valid s /\ node_typed s /\ node_roomy (Z.of_nat n) s /\ node_solid s.

Lemma node_ok_intro s :
  valid s -> typed s -> roomy (Z.of_nat n) s -> solid s -> spec_all node_ok s.
Proof.
  intros Hv Ht Hr Hs.
  exact (spec_all_and _ _ _ Hv (spec_all_and _ _ _ Ht (spec_all_and _ _ _ Hr Hs))).
Qed.

Lemma reads_array_ok s vs xs :
  is_array s -> node_ok s -> (0 < length xs)%nat -> Forall2 (reads s) vs xs -> array_ok (Z.of_nat n) s.
Proof.
  intros Ha (Hv & Ht & Hr & _) Hl Hf. destruct (reads_arrays s vs xs Ha Hf) as (ts & bss & -> & Hw & _ & Hav).
  destruct Hav as [|v b vs bs Hav _]; [|by eapply array_ok_of].
  apply Forall2_length in Hf. rewrite <- Hf in Hl. cbn in Hl. lia.
Qed.

Definition stacks_into (addr : Z) (s : SpaceSpec) : Prop :=
  forall vs xs, Forall value_wf vs -> length xs = n -> Forall2 (reads s) vs xs ->
  exists b, stack_lanes addr s xs = Some (Ok b) /\ batch s vs b.

Lemma Forall_value_wf_get k (ms : list (btree SpaceValue)) vs :
  Forall (fun m => Forall (fun e : string * SpaceValue => value_wf e.2) m) ms ->
  Forall2 (fun m v => btree_get k m = Some v) ms vs -> Forall value_wf vs.
Proof.
  intros Hw Hg. induction Hg as [|m v ms vs Hg _ IH]; [constructor|].
  apply Forall_cons in Hw as [Hwm Hw]. constructor; [by eapply value_wf_get|auto].
Qed.

Lemma stack_entries_spec addr spaces : Forall (stacks_into addr) spaces ->
  forall ks (ms : list (btree SpaceValue)) rows out,
  NoDup ks -> Forall (fun k => meta_get k out = None) ks -> length ms = n ->
  Forall (fun m => Forall (fun e => value_wf e.2) m) ms ->
  Forall2 (fun m row => Forall3 (fun k c x => exists v, btree_get k m = Some v /\ reads c v x) ks spaces row) ms rows ->
  length ks = length spaces ->
  exists bs, stack_entries (stack_lanes addr) ks spaces (lane_columns (length spaces) rows) out
             = Some (Ok (out ++ zip ks bs)%list) /\
    Forall3 (fun k c b => exists vs, Forall2 (fun m v => btree_get k m = Some v) ms vs /\ batch c vs b) ks spaces bs.
Proof.
  induction 1 as [|c spaces Hc _ IH]; intros [|k ks] ms rows out Hn Hout Hms Hw Hr Hl; try done.
  { exists []. cbn. rewrite app_nil_r. split; [done|constructor]. }
  injection Hl as Hl. apply NoDup_cons in Hn as [Hk Hn]. apply Forall_cons in Hout as [Hko Hout].
  apply (rows_cons (fun m k c x => exists v, btree_get k m = Some v /\ reads c v x)) in Hr
    as (col & rows' & -> & Hcl & Hcol & Hr).
  apply Forall2_get_exists in Hcol as (vs & Hg & Hrd).
  pose proof (Forall2_length _ _ _ Hg) as Hlg. pose proof (Forall2_length _ _ _ Hrd) as Hlr.
  destruct (Hc vs col) as (b & Hb & Hbatch); [by eapply Forall_value_wf_get|congruence|done|].
  cbn [length]. rewrite columns_cons by done. cbn [stack_entries]. rewrite Hb. cbn [mbind option_bind].
  rewrite meta_insert_new by done.
  destruct (IH ks ms rows' (out ++ [(k, b)])%list) as (bs & Hbs & Hall); try done; [by apply meta_fresh_snoc|].
  exists (b :: bs). rewrite Hbs, <- app_assoc. split; [done|]. constructor; [by exists vs|done].
Qed.

Lemma stack_items_spec addr spaces : Forall (stacks_into addr) spaces ->
  forall valss rows, length valss = n -> Forall (Forall value_wf) valss ->
  Forall2 (Forall3 reads spaces) valss rows ->
  exists bs, stack_items (stack_lanes addr) spaces (lane_columns (length spaces) rows) = Some (Ok bs) /\
    Forall3 batch spaces (lane_columns (length spaces) valss) bs.
Proof.
  induction 1 as [|c spaces Hc _ IH]; intros valss rows Hn Hw Hr.
  { exists []. split; [done|]. cbn. replace (lane_columns 0 valss) with (@nil (list SpaceValue)); [constructor|].
    clear. induction valss as [|v valss IH]; [done|]. unfold lane_columns in *. cbn [foldr].
    rewrite <- IH. by destruct v. }
  apply rows_split in Hr as (vcol & valss' & col & rows' & -> & -> & Hvl & Hl & Hc' & Hr).
  cbn [length]. rewrite !columns_cons by done. cbn [stack_items].
  rewrite length_zip_with, Hvl, Nat.min_id in Hn. pose proof (Forall2_length _ _ _ Hc').
  assert (Hws : Forall value_wf vcol /\ Forall (Forall value_wf) valss').
  { clear - Hw Hvl. revert valss' Hvl Hw. induction vcol as [|v vcol IH]; intros [|vals valss] Hvl Hw; try done.
    injection Hvl as Hvl. cbn in Hw. apply Forall_cons in Hw as [[Hv Hvs]%Forall_cons Hw].
    destruct (IH valss Hvl Hw). by split; constructor. }
  destruct Hws as [Hwc Hws].
  destruct (Hc vcol col Hwc) as (b & -> & Hb); [congruence|done|]. cbn [mbind option_bind].
  destruct (IH valss' rows' Hn Hws Hr) as (bs & -> & Hbs). exists (b :: bs). split; [done|].
  by constructor.
Qed.

(** The lanes of a space of a known kind. *)
Ltac invert_reads Hr Hs :=
  inversion Hr as [? ? ? ? [_ Ha] ? ? ?|? ? ? Hs'|? ? ? Hs'|? ? ? ? Hs'|? ? ? ? Hs']; subst;
  try (by rewrite Hs in Ha); try congruence; rewrite Hs in Hs'; injection Hs' as <-.

Lemma reads_dicts s d vs xs :
  spec s = Some (KDict d) -> Forall2 (reads s) vs xs ->
  exists (ms : list (btree SpaceValue)) rows, vs = VDict <$> ms /\
    xs = (fun row => FDict (zip (keys d) row)) <$> rows /\
    Forall (fun m => btree_sorted m /\ Forall (fun k => k ∈ keys d) m.*1) ms /\
    Forall2 (fun m row => Forall3 (fun k c x => exists v, btree_get k m = Some v /\ reads c v x)
      (keys d) (dict_spaces d) row) ms rows.
Proof.
  intros Hs. induction 1 as [|v x vs xs Hr _ (ms & rows & -> & -> & Hm & Hf)]; [by exists [], []|].
  invert_reads Hr Hs. exists (m :: ms), (xs :: rows). split_and!; [done|done|by constructor..].
Qed.

Lemma reads_tuples s t vs xs :
  spec s = Some (KTuple t) -> Forall2 (reads s) vs xs ->
  exists valss rows, vs = VTuple <$> valss /\ xs = FTuple <$> rows /\
    Forall2 (Forall3 reads (tuple_spaces t)) valss rows.
Proof.
  intros Hs. induction 1 as [|v x vs xs Hr _ (valss & rows & -> & -> & Hf)]; [by exists [], []|].
  invert_reads Hr Hs. exists (vals :: valss), (xs :: rows). split_and!; [done|done|by constructor].
Qed.

Lemma reads_ints s d vs xs :
  spec s = Some (KDiscrete d) -> Forall2 (reads s) vs xs ->
  exists ints, vs = VDiscrete <$> ints /\ xs = FInt <$> ints.
Proof.
  intros Hs. induction 1 as [|v x vs xs Hr _ (ints & -> & ->)]; [by exists []|].
  invert_reads Hr Hs. by exists (n0 :: ints).
Qed.

Lemma Forall2_Forall3_lengths {A B C D} (P : A -> B -> C -> D -> Prop) bs cs (ms : list A) rows :
  Forall2 (fun m row => Forall3 (P m) bs cs row) ms rows ->
  Forall (fun row => length row = length bs) rows.
Proof.
  induction 1 as [|m row ms rows Hr _ IH]; constructor; [|done]. symmetry. by eapply Forall3_length_lr.
Qed.

Lemma stack_discrete_batch addr s d vs xs :
  spec s = Some (KDiscrete d) -> node_roomy (Z.of_nat n) s -> Forall value_wf vs -> length xs = n ->
  Forall2 (reads s) vs xs -> exists b, stack_lanes addr s xs = Some (Ok b) /\ batch s vs b.
Proof.
  intros Hs Hrm Hw Hl Hr. destruct (reads_ints s d vs xs Hs Hr) as (ints & -> & ->).
  rewrite length_fmap in Hl. unfold node_roomy in Hrm. rewrite Hs in Hrm.
  destruct (ints_from_vec ints Hl Hrm) as (u & bu & Hu & Hst & Hd & Hsh & W & Hb).
  exists (FTensor u). split.
  - destruct s as [sh dt k]. cbn in Hs. subst k. cbn [stack_lanes spec]. rewrite lane_ints_fmap.
    cbn [mbind option_bind]. by rewrite Hl, Hu.
  - eapply batch_ints; try done. rewrite Forall_fmap in Hw. eapply Forall_impl; [exact Hw|]. cbn. by inversion 1.
Qed.

Lemma stack_dict_batch addr s d vs xs :
  spec s = Some (KDict d) -> node_valid s -> Forall (stacks_into addr) (dict_spaces d) ->
  Forall value_wf vs -> length xs = n -> Forall2 (reads s) vs xs ->
  exists b, stack_lanes addr s xs = Some (Ok b) /\ batch s vs b.
Proof.
  intros Hs Hv IH Hw Hl Hr. destruct (reads_dicts s d vs xs Hs Hr) as (ms & rows & -> & -> & Hm & Hf).
  unfold node_valid in Hv. rewrite Hs in Hv. destruct Hv as (_ & _ & Hlk & _ & Hnd).
  pose proof (Forall2_length _ _ _ Hf) as Hlf. rewrite length_fmap in Hl.
  destruct (stack_entries_spec addr _ IH (keys d) ms rows []) as (bs & Hbs & Hall); try done.
  { by apply Forall_true. } { congruence. }
  { rewrite Forall_fmap in Hw. eapply Forall_impl; [exact Hw|]. cbn. by inversion 1. }
  exists (FDict (zip (keys d) bs)). split; [|eapply batch_dict; try done; congruence].
  apply Forall2_Forall3_lengths in Hf. destruct s as [sh dt k]. cbn in Hs. subst k.
  cbn [stack_lanes spec]. rewrite dict_columns_spec, (tuple_columns_spec (length (keys d)))
    by (done || apply repeat_length). cbn [mbind option_bind].
  rewrite zip_with_app_repeat by (by apply length_columns). by rewrite Hlk, Hbs.
Qed.

Lemma stack_tuple_batch addr s t vs xs :
  spec s = Some (KTuple t) -> Forall (stacks_into addr) (tuple_spaces t) ->
  Forall value_wf vs -> length xs = n -> Forall2 (reads s) vs xs ->
  exists b, stack_lanes addr s xs = Some (Ok b) /\ batch s vs b.
Proof.
  intros Hs IH Hw Hl Hr. destruct (reads_tuples s t vs xs Hs Hr) as (valss & rows & -> & -> & Hf).
  pose proof (Forall2_length _ _ _ Hf) as Hlf. rewrite length_fmap in Hl.
  destruct (stack_items_spec addr _ IH valss rows) as (bs & Hbs & Hall); [congruence| |done|].
  { rewrite Forall_fmap in Hw. eapply Forall_impl; [exact Hw|]. cbn. by inversion 1. }
  assert (Hlr : Forall (fun row => length row = length (tuple_spaces t)) rows /\
                Forall (fun vals => length vals = length (tuple_spaces t)) valss).
  { clear - Hf. induction Hf as [|vals row valss rows Hr _ [IH1 IH2]]; [by split|].
    split; constructor; try done; symmetry; [by eapply Forall3_length_lr|by eapply Forall3_length_lm]. }
  destruct Hlr as [Hlr Hlv].
  exists (FTuple bs). split; [|eapply batch_tuple; try done; congruence].
  destruct s as [sh dt k]. cbn in Hs. subst k. cbn [stack_lanes spec].
  rewrite (tuple_columns_spec (length (tuple_spaces t))) by (done || apply repeat_length).
  cbn [mbind option_bind]. rewrite zip_with_app_repeat by (by apply length_columns). by rewrite Hbs.
Qed.

Lemma stack_lanes_batch addr s : (0 < n)%nat -> spec_all node_ok s -> stacks_into addr s.
Proof.
  intros Hn. revert s. apply spec_all_induction. intros s Hok IH vs xs Hw Hl Hr. unfold children in IH.
  pose proof Hok as (Hv & Ht & Hrm & _).
  assert (Harr : is_array s -> exists b, stack_lanes addr s xs = Some (Ok b) /\ batch s vs b).
  { intros Ha. destruct (stack_arrays addr s vs xs) as (ts & u & -> & Hst & Hb); try done.
    { eapply reads_array_ok; try done. lia. }
    exists (FTensor u). split; [|done]. unfold is_array in Ha.
    destruct s as [sh dt [[]|]]; try done; cbn [stack_lanes spec is_stacked];
      rewrite lane_tensors_fmap; cbn [mbind option_bind]; unfold facade_stack; by rewrite Hst. }
  unfold is_array in Harr. destruct (spec s) as [[b|d|m|m|t|d|t]|] eqn:Hs; auto.
  - by eapply stack_discrete_batch.
  - exists (FList xs). split; [by destruct s as [sh dt k]; cbn in Hs; subst k|].
    pose proof (Forall2_length _ _ _ Hr). apply batch_list; [by rewrite Hs|congruence|done].
  - by eapply stack_dict_batch.
  - by eapply stack_tuple_batch.
  - unfold node_valid in Hv. by rewrite Hs in Hv.
Qed.

(** *** Unstacking *)

Lemma volume_pos ds : Forall (fun d => 0 < d) ds -> 0 < volume ds.
Proof. induction 1; cbn [volume]; [lia|nia]. Qed.

(** The views of a default-layout tensor hold its elements in turn. *)
Lemma unstack_chunks u bu ds chunks :
  strides u = None -> shape u = Z.of_nat n :: ds -> tensor_wf u bu -> (0 < n)%nat -> 0 < volume ds ->
  Z.of_nat n * extent ds * itemsize u + 63 <= isize_max ->
  length chunks = n -> Forall (fun c => Z.of_nat (length c) = volume ds * itemsize u) chunks ->
  concat chunks = logical_bytes u bu ->
  exists views, unstack u = Some (Ok views) /\
    Forall2 (fun view chunk => dtype view = dtype u /\ shape view = ds /\ tensor_wf view bu /\
      logical_bytes view bu = chunk) views chunks.
Proof.
  intros Hst Hsh W Hn Hv Hcap Hl Hc Hcat. pose proof (itemsize_pos u bu W) as Hi. pose proof (extent_pos ds).
  pose proof (wf_dims _ _ W) as Hd. rewrite Hsh in Hd. apply dims_ok_cons in Hd as [_ Hd].
  pose proof (extent_volume ds Hd Hv) as Hev.
  assert (Hvu : 0 < volume (shape u)) by (rewrite Hsh; cbn [volume]; nia).
  assert (Hm : materialisable u) by (by eapply default_layout_materialisable).
  destruct (unstack_spec u bu (Z.of_nat n) ds W Hm Hsh Hvu) as (Hun & Hws & Hcat').
  { unfold layout_strides. rewrite Hst, Hsh. cbn [row_major head default from_option id].
    rewrite <- Hev. assert (1 * (extent ds * itemsize u) <= Z.of_nat n * (extent ds * itemsize u))
      by (apply Z.mul_le_mono_nonneg_r; nia). unfold_ints. lia. }
  eexists. split; [exact Hun|].
  assert (Hshv : forall i, shape (subview u i) = ds) by (intros; cbn; by rewrite Hsh).
  assert (Hparts : (fun i => logical_bytes (subview u i) bu) <$> seqZ 0 (Z.of_nat n) = chunks).
  { apply (concat_uniform_inj (Z.to_nat (volume ds * itemsize u))); [| | |congruence].
    - apply Forall_fmap, Forall_forall. intros i [? ?]%elem_of_seqZ. cbn.
      pose proof (length_logical_bytes _ _ (Hws i ltac:(lia))) as Hli. rewrite Hshv in Hli.
      change (itemsize (subview u i)) with (itemsize u) in Hli. lia.
    - eapply Forall_impl; [exact Hc|]. cbn. lia.
    - rewrite length_fmap, length_seqZ. lia. }
  rewrite <- Hparts. apply Forall2_fmap, Forall_Forall2_diag, Forall_forall. intros i [? ?]%elem_of_seqZ.
  split_and!; [done|apply Hshv|apply Hws; lia|done].
Qed.

Lemma array_volume_pos s : is_array s -> node_ok s -> 0 < volume (space_shape s).
Proof.
  intros Ha (Hv & [_ Ht] & _ & Hs). unfold is_array, node_valid, node_solid in *.
  destruct (spec s) as [[]|] eqn:E; try done; rewrite validate_space_at_eq in Hv;
    unfold space_type in Hv; rewrite E in Hv; injection Hv as Hv.
  - apply (validate_multibinary_Ok s _ "$" E) in Hv as (_ & _ & Hp). by apply volume_pos.
  - apply (validate_multidiscrete_Ok s _ "$" E) in Hv as (_ & _ & Hp & _); [|unfold_ints; lia].
    by apply volume_pos.
Qed.

(** The views of an array batch read as its lanes. *)
Lemma unstack_arrays s vs u bu chunks :
  node_ok s -> (0 < n)%nat -> strides u = None -> dtype u = space_dtype s ->
  shape u = Z.of_nat n :: space_shape s -> tensor_wf u bu -> length vs = n ->
  Forall2 (array_value s) vs chunks -> concat chunks = logical_bytes u bu ->
  exists views, unstack u = Some (Ok views) /\ Forall2 (reads s) vs (FTensor <$> views).
Proof.
  intros Hok Hn Hst Hd Hsh W Hl Hav Hcat. pose proof Hok as (Hv & Ht & Hrm & _).
  assert (Ha : is_array s /\ array_ok (Z.of_nat n) s).
  { destruct Hav as [|v c vs cs Hav _]; [cbn in Hl; lia|]. split; [|by eapply array_ok_of].
    destruct Hav as [_ Hav]. unfold is_array. by destruct (spec s) as [[]|]. }
  destruct Ha as [Ha (_ & _ & _ & Hcap)]. pose proof (array_volume_pos s Ha Hok) as Hvol.
  destruct (unstack_chunks u bu (space_shape s) chunks) as (views & Hun & Hf); try done.
  - unfold itemsize. by rewrite Hd.
  - apply Forall2_length in Hav. congruence.
  - unfold itemsize. rewrite Hd. clear - Hav. induction Hav as [|v c vs cs [Hc _] _ IH]; by constructor.
  - exists views. split; [done|]. clear - Hav Hf Hd. revert views Hf.
    induction Hav as [|v c vs cs Hav _ IH]; intros views Hf; inversion Hf as [|view ? ? ? (Hvd & Hvs & Wv & Hvb)]; subst;
      [constructor|]. constructor; [|by apply IH]. apply (reads_array s v view bu); try done. congruence.
Qed.

(** *** Integers of a Discrete batch *)

Lemma decode_ints ints :
  Forall is_i64 ints ->
  decode_scalars (concat (le_split 8 <$> ints)) Int64 = Some (Ok (SInt <$> ints)).
Proof.
  intros Hi. destruct (decode_encode_scalars Int64 (SInt <$> ints)) as (bytes & He & _ & Hd); [done| |].
  { apply Forall_fmap. eapply Forall_impl; [exact Hi|]. cbn. unfold is_i64. unfold_ints. lia. }
  rewrite <- Hd. do 2 f_equal. rewrite <- encode_i64_scalars_eq in He. unfold encode_i64_scalars in He.
  rewrite decide_False in He by done.
  assert (mapM (fun value => encode_one (SInt value) Int64) ints = Some (le_split 8 <$> ints)) as Hm.
  { clear. induction ints as [|i ints IH]; [done|]. cbn in *. by rewrite IH. }
  rewrite Hm in He. by injection He.
Qed.

Lemma tensor_ints_spec u bu ints :
  dtype u = Int64 -> tensor_wf u bu -> materialisable u -> Forall is_i64 ints ->
  logical_bytes u bu = concat (le_split 8 <$> ints) -> tensor_ints u = Some (Ok ints).
Proof.
  intros Hd W Hm Hi Hb. unfold tensor_ints. rewrite (to_contiguous_bytes_spec u bu W Hm), Hd, Hb.
  cbn [mbind option_bind]. rewrite decode_ints by done. cbn. f_equal.
  clear. induction ints as [|i ints IH]; [done|]. cbn. by rewrite IH.
Qed.

Lemma check_width_Ok xs : length xs = n -> check_width xs n = Ok xs.
Proof. intros Hl. unfold check_width. by rewrite Hl, Nat.eqb_refl. Qed.

Lemma columns_split {A} k (rows : list (list A)) :
  Forall (fun row => length row = S k) rows ->
  exists col rows', rows = zip_with cons col rows' /\ length col = length rows' /\
    Forall (fun row => length row = k) rows'.
Proof.
  induction 1 as [|row rows Hr _ (col & rows' & -> & Hl & Hf)]; [by exists [], []|].
  destruct row as [|x row]; [done|]. injection Hr as Hr. exists (x :: col), (row :: rows').
  split_and!; [done|by cbn; f_equal|by constructor].
Qed.

Lemma insert_column_new k lanes values :
  length lanes = length values -> Forall (fun lane => meta_get k lane = None) lanes ->
  insert_column k lanes values = zip_with (fun lane x => lane ++ [(k, x)])%list lanes values.
Proof.
  revert values; induction lanes as [|lane lanes IH]; intros [|x values] Hl Hf; try done.
  injection Hl as Hl. apply Forall_cons in Hf as [Hk Hf]. cbn. by rewrite meta_insert_new, IH.
Qed.

Definition unstacks (s : SpaceSpec) : Prop :=
  forall vs b, batch s vs b ->
  exists xs, unstack_lanes_unchecked n s b = Some (Ok xs) /\ Forall2 (reads s) vs xs.

Lemma batch_length s vs b : batch s vs b -> length vs = n.
Proof. by destruct 1; rewrite ?length_fmap. Qed.

Lemma zip_with_entries k ks (lanes : list Metadata) (col : list FValue) rows :
  length col = length rows ->
  zip_with (fun lane row => lane ++ zip ks row)%list
    (zip_with (fun lane x => lane ++ [(k, x)])%list lanes col) rows =
  zip_with (fun lane row => lane ++ zip (k :: ks) row)%list lanes (zip_with cons col rows).
Proof.
  revert col rows; induction lanes as [|lane lanes IH]; intros [|x col] [|row rows] Hl; try done.
  injection Hl as Hl. cbn. by rewrite <- app_assoc, IH.
Qed.

Lemma fresh_lanes_snoc k ks (lanes : list Metadata) (col : list FValue) :
  k ∉ ks -> Forall (fun lane => Forall (fun k' => meta_get k' lane = None) (k :: ks)) lanes ->
  Forall (fun lane => Forall (fun k' => meta_get k' lane = None) ks)
    (zip_with (fun lane x => lane ++ [(k, x)])%list lanes col).
Proof.
  intros Hk Hf. revert col. induction Hf as [|lane lanes Hl _ IH]; intros [|x col]; try constructor; [|auto].
  apply Forall_cons in Hl as [_ Hl]. by apply meta_fresh_snoc.
Qed.

Lemma zip_with_entries_nil (lanes : list Metadata) k :
  length lanes = k ->
  zip_with (fun lane row => lane ++ zip [] row)%list lanes (repeat (@nil FValue) k) = lanes.
Proof.
  intros <-. induction lanes as [|l lanes IH]; [done|]. cbn. rewrite app_nil_r. f_equal. exact IH.
Qed.

Lemma lanes_repeat {A B} (P : A -> B -> Prop) (ms : list A) k y :
  length ms = k -> (forall m, P m y) -> Forall2 P ms (repeat y k).
Proof. intros <- Hp. induction ms; by constructor. Qed.

Lemma unstack_entries_spec spaces : Forall unstacks spaces ->
  forall ks (ms : list (btree SpaceValue)) bs lanes,
  NoDup ks -> length ms = n -> length lanes = n ->
  Forall (fun lane => Forall (fun k => meta_get k lane = None) ks) lanes ->
  Forall3 (fun k c b => exists vs, Forall2 (fun m v => btree_get k m = Some v) ms vs /\ batch c vs b) ks spaces bs ->
  exists rows, unstack_entries (unstack_lanes_unchecked n) ks spaces (zip ks bs) lanes
               = Some (Ok (zip_with (fun lane row => lane ++ zip ks row)%list lanes rows)) /\
    Forall2 (fun m row => Forall3 (fun k c x => exists v, btree_get k m = Some v /\ reads c v x) ks spaces row) ms rows.
Proof.
  induction 1 as [|c spaces Hc _ IH]; intros ks ms bs lanes Hn Hms Hll Hfr Hb.
  { inversion Hb. exists (repeat [] n). rewrite zip_with_entries_nil by done.
    split; [done|]. apply lanes_repeat; [done|constructor]. }
  inversion Hb as [|k ? b ks' ? bs' (vs & Hg & Hbt) Hb' Ek Ec Eb]. subst ks bs.
  apply NoDup_cons in Hn as [Hk Hn]. destruct (Hc vs b Hbt) as (col & Hcol & Hrd).
  pose proof (Forall2_length _ _ _ Hg) as Hl1. pose proof (Forall2_length _ _ _ Hrd) as Hl2.
  cbn [unstack_entries]. rewrite meta_get_head, meta_remove_head, Hcol. cbn [mbind option_bind].
  rewrite insert_column_new; [|congruence|]; last first.
  { eapply Forall_impl; [exact Hfr|]. cbn. by intros lane [? _]%Forall_cons. }
  destruct (IH ks' ms bs' (zip_with (fun lane x => lane ++ [(k, x)])%list lanes col)) as (rows & Hrows & Hall); try done.
  { rewrite length_zip_with, <- Hl2, <- Hl1, Hms, Nat.min_r; [done|].
    apply Nat.eq_le_incl. symmetry. exact Hll. }
  { by apply fresh_lanes_snoc. }
  pose proof (Forall2_length _ _ _ Hall) as Hl3.
  exists (zip_with cons col rows). rewrite Hrows, zip_with_entries by congruence. split; [done|].
  clear - Hg Hrd Hall. revert vs col rows Hg Hrd Hall.
  induction ms as [|m ms IHm]; intros vs col rows Hg Hrd Hall; inversion Hg; subst; inversion Hrd; subst;
    inversion Hall; subst; constructor; [|by eapply IHm]. constructor; [by eexists|done].
Qed.

Lemma push_columns lanes col rows :
  length lanes = n -> length col = n -> length rows = n ->
  zip_with app (push_items lanes col) rows = zip_with app lanes (zip_with cons col rows).
Proof. intros H1 H2 H3. rewrite push_items_zip by congruence. apply zip_with_app_snoc. congruence. Qed.

Lemma unstack_items_spec spaces : Forall unstacks spaces ->
  forall valss bs lanes, length valss = n -> length lanes = n ->
  Forall (fun vals => length vals = length spaces) valss ->
  Forall3 batch spaces (lane_columns (length spaces) valss) bs ->
  exists rows, unstack_items (unstack_lanes_unchecked n) spaces bs lanes
               = Some (Ok (zip_with app lanes rows)) /\
    Forall2 (Forall3 reads spaces) valss rows.
Proof.
  induction 1 as [|c spaces Hc _ IH]; intros valss bs lanes Hn Hll Hlen Hb.
  { exists (repeat [] n). inversion Hb. split.
    - cbn. do 2 f_equal. clear - Hll. revert Hll. generalize n. intros k <-.
      induction lanes as [|l lanes IHl]; [done|]. cbn. by rewrite app_nil_r, <- IHl.
    - clear - Hn Hlen. revert Hn. generalize n. intros k <-.
      induction Hlen as [|vals valss Hv _ IHv]; [constructor|]. destruct vals; [|done].
      constructor; [constructor|done]. }
  apply columns_split in Hlen as (vcol & valss' & -> & Hvl & Hlen). cbn [length] in Hb.
  rewrite columns_cons in Hb by done. inversion Hb as [|? ? b ? ? bs' Hbt Hb' Ec Ev Eb]. subst bs.
  rewrite length_zip_with, Hvl, Nat.min_id in Hn.
  destruct (Hc vcol b Hbt) as (col & Hcol & Hrd). pose proof (Forall2_length _ _ _ Hrd) as Hl.
  cbn [unstack_items]. rewrite Hcol. cbn [mbind option_bind].
  destruct (IH valss' bs' (push_items lanes col)) as (rows & Hrows & Hall); try done.
  { by rewrite length_push_items. }
  pose proof (Forall2_length _ _ _ Hall) as Hl'.
  exists (zip_with cons col rows). rewrite Hrows, push_columns by congruence. split; [done|].
  clear - Hrd Hall. revert col rows Hrd Hall. revert valss'.
  induction vcol as [|v vcol IHv]; intros valss' col rows Hrd Hall; inversion Hrd; subst; [constructor|].
  inversion Hall; subst; [constructor|]. constructor; [by constructor|by apply IHv].
Qed.

Lemma dict_lanes ks (rows : list (list FValue)) k :
  length rows = k ->
  FDict <$> zip_with (fun (lane : Metadata) row => lane ++ zip ks row)%list (repeat [] k) rows =
  (fun row => FDict (zip ks row)) <$> rows.
Proof. intros <-. induction rows as [|row rows IH]; [done|]. cbn. f_equal. exact IH. Qed.

Lemma reads_dicts_intro s d ms rows :
  spec s = Some (KDict d) ->
  Forall (fun m => btree_sorted m /\ Forall (fun k => k ∈ keys d) m.*1) ms ->
  Forall2 (fun m row => Forall3 (fun k c x => exists v, btree_get k m = Some v /\ reads c v x)
      (keys d) (dict_spaces d) row) ms rows ->
  Forall2 (reads s) (VDict <$> ms) ((fun row => FDict (zip (keys d) row)) <$> rows).
Proof.
  intros Hs Hm Hf. induction Hf as [|m row ms rows Hr _ IH]; [constructor|].
  apply Forall_cons in Hm as [[Hso Hk] Hm]. cbn. constructor; [|by apply IH]. by apply reads_dict.
Qed.

Lemma unstack_dict s d ms bs :
  spec s = Some (KDict d) -> node_valid s -> Forall unstacks (dict_spaces d) -> length ms = n ->
  Forall (fun m => btree_sorted m /\ Forall (fun k => k ∈ keys d) m.*1) ms ->
  Forall3 (fun k c b => exists vs, Forall2 (fun m v => btree_get k m = Some v) ms vs /\ batch c vs b)
    (keys d) (dict_spaces d) bs ->
  exists xs, unstack_lanes_unchecked n s (FDict (zip (keys d) bs)) = Some (Ok xs) /\
    Forall2 (reads s) (VDict <$> ms) xs.
Proof.
  intros Hs Hv IH Hl Hm Hf. unfold node_valid in Hv. rewrite Hs in Hv. destruct Hv as (_ & _ & _ & _ & Hnd).
  destruct (unstack_entries_spec _ IH (keys d) ms bs (repeat [] n)) as (rows & Hrows & Hall); try done.
  { apply repeat_length. } { apply Forall_repeat, Forall_true. done. }
  pose proof (Forall2_length _ _ _ Hall) as Hl'.
  eexists. split; [|by eapply reads_dicts_intro].
  destruct s as [sh dt k]. cbn in Hs. subst k. cbn [unstack_lanes_unchecked spec]. rewrite Hrows.
  cbn [mbind option_bind]. rewrite dict_lanes by congruence. done.
Qed.

Lemma unstack_tuple s t valss bs :
  spec s = Some (KTuple t) -> Forall unstacks (tuple_spaces t) -> length valss = n ->
  Forall (fun vals => length vals = length (tuple_spaces t)) valss ->
  Forall3 batch (tuple_spaces t) (lane_columns (length (tuple_spaces t)) valss) bs ->
  exists xs, unstack_lanes_unchecked n s (FTuple bs) = Some (Ok xs) /\
    Forall2 (reads s) (VTuple <$> valss) xs.
Proof.
  intros Hs IH Hl Hls Hf.
  destruct (unstack_items_spec _ IH valss bs (repeat [] n)) as (rows & Hrows & Hall); try done.
  { apply repeat_length. }
  pose proof (Forall2_length _ _ _ Hall) as Hl'. exists (FTuple <$> rows). split.
  - destruct s as [sh dt k]. cbn in Hs. subst k. cbn [unstack_lanes_unchecked spec]. rewrite Hrows.
    cbn [mbind option_bind]. by rewrite zip_with_app_repeat by congruence.
  - clear - Hs Hall. induction Hall; [constructor|]. cbn. constructor; [by eapply reads_tuple|done].
Qed.

Lemma unstack_lanes_reads s : (0 < n)%nat -> spec_all node_ok s -> unstacks s.
Proof.
  intros Hn. revert s. apply spec_all_induction. intros s Hok IH vs b Hb. unfold children in IH.
  pose proof (batch_length s vs b Hb) as Hlen. pose proof Hok as (Hv & _ & Hrm & _).
  destruct Hb as [s vs u bu chunks Hst Hd Hsh W Hl Hav Hcat|s d ints u bu Hs Hl Hst Hd Hsh W Hb Hi|
    s vs xs Hk Hl Hr|s d ms bs Hs Hl Hm Hf|s t valss bs Hs Hl Hls Hf].
  - destruct (unstack_arrays s vs u bu chunks) as (views & Hun & Hr); try done.
    exists (FTensor <$> views). split; [|done]. pose proof (Forall2_length _ _ _ Hr) as Hl'.
    assert (Ha : is_stacked s = true).
    { destruct Hav as [|v c vs cs [_ Hav] _]; [cbn in Hl; lia|]. unfold is_stacked.
      by destruct (spec s) as [[]|]. }
    destruct s as [sh dt [[]|]]; try done; cbn [unstack_lanes_unchecked spec is_stacked];
      unfold facade_unstack; rewrite Hun; cbn; by rewrite check_width_Ok by congruence.
  - exists (FInt <$> ints). split; [|by apply Forall2_fmap, Forall_Forall2_diag, Forall_true; intros; eapply reads_discrete].
    unfold node_roomy in Hrm. rewrite Hs in Hrm.
    assert (Hmat : materialisable u).
    { unfold materialisable, itemsize. rewrite Hd, Hsh. cbn [extent dtype_size]. lia. }
    destruct s as [sh dt k]. cbn in Hs. subst k. cbn [unstack_lanes_unchecked spec].
    rewrite (tensor_ints_spec u bu ints) by done. cbn [mbind option_bind].
    rewrite check_width_Ok; [done|by rewrite length_fmap].
  - exists xs. pose proof (Forall2_length _ _ _ Hr). destruct s as [sh dt k]. cbn [unstack_lanes_unchecked].
    by rewrite check_width_Ok by congruence.
  - rewrite Hs in IH. by apply unstack_dict.
  - rewrite Hs in IH. by eapply unstack_tuple.
Qed.

(** *** Lane 0 *)

Lemma map_entries_spec (R : string -> SpaceSpec -> FValue -> Prop) f ks spaces xs :
  forall out, NoDup ks -> Forall (fun k => meta_get k out = None) ks ->
  Forall3 (fun k c x => exists y, f c x = Some (Ok y) /\ R k c y) ks spaces xs ->
  exists ys, map_entries f ks spaces (zip ks xs) out = Some (Ok (out ++ zip ks ys)%list) /\
    Forall3 R ks spaces ys.
Proof.
  intros out Hn Hout Hf. revert out Hn Hout.
  induction Hf as [|k c x ks spaces xs (y & Hy & Hr) _ IH]; intros out Hn Hout.
  { exists []. cbn. rewrite app_nil_r. split; [done|constructor]. }
  apply NoDup_cons in Hn as [Hk Hn]. apply Forall_cons in Hout as [Hko Hout].
  cbn [map_entries]. rewrite meta_get_head, meta_remove_head, Hy. cbn [mbind option_bind].
  rewrite meta_insert_new by done.
  destruct (IH (out ++ [(k, y)])%list Hn) as (ys & Hys & Hall); [by apply meta_fresh_snoc|].
  exists (y :: ys). rewrite Hys, <- app_assoc. split; [done|by constructor].
Qed.

Lemma map_items_spec {A} (R : SpaceSpec -> A -> FValue -> Prop) f spaces vals xs :
  Forall3 (fun c v x => exists y, f c x = Some (Ok y) /\ R c v y) spaces vals xs ->
  exists ys, map_items f spaces xs = Some (Ok ys) /\ Forall3 R spaces vals ys.
Proof.
  induction 1 as [|c v x spaces vals xs (y & Hy & Hr) _ (ys & Hys & Hall)].
  { exists []. split; [done|constructor]. }
  exists (y :: ys). cbn. rewrite Hy. cbn. rewrite Hys. split; [done|by constructor].
Qed.

Definition first_reads (s : SpaceSpec) : Prop :=
  forall v vs b, batch s (v :: vs) b ->
  exists x, lane0_unchecked s b = Some (Ok x) /\ reads s v x.

Lemma first_of_array s v vs u bu chunks :
  node_ok s -> strides u = None -> dtype u = space_dtype s ->
  shape u = Z.of_nat n :: space_shape s -> tensor_wf u bu -> length (v :: vs) = n ->
  Forall2 (array_value s) (v :: vs) chunks -> concat chunks = logical_bytes u bu ->
  exists x, lane0_unchecked s (FTensor u) = Some (Ok x) /\ reads s v x.
Proof.
  intros Hok Hst Hd Hsh W Hl Hav Hcat. assert (Hn : (0 < n)%nat) by (cbn in Hl; lia).
  destruct (unstack_arrays s (v :: vs) u bu chunks) as (views & Hun & Hr); try done.
  destruct views as [|view views]; [by inversion Hr|]. inversion Hr as [|? ? ? ? Hrv _]; subst.
  exists (FTensor view). split; [|done]. inversion Hav as [|? ? ? ? [_ Hv] _]; subst.
  destruct s as [sh dt [[]|]]; cbn [spec] in *; try done; cbn [lane0_unchecked spec];
    unfold lane0_leaf, first_item, facade_unstack; by rewrite Hun.
Qed.

Lemma first_of_ints s d i ints u bu :
  spec s = Some (KDiscrete d) -> node_roomy (Z.of_nat n) s -> length (i :: ints) = n ->
  strides u = None -> dtype u = Int64 -> shape u = [Z.of_nat n] -> tensor_wf u bu ->
  logical_bytes u bu = concat (le_split 8 <$> i :: ints) -> Forall is_i64 (i :: ints) ->
  lane0_unchecked s (FTensor u) = Some (Ok (FInt i)).
Proof.
  intros Hs Hrm Hl Hst Hd Hsh W Hb Hi. unfold node_roomy in Hrm. rewrite Hs in Hrm. assert (Hn : (0 < n)%nat) by (cbn in Hl; lia).
  assert (Hit : itemsize u = 8) by (unfold itemsize; by rewrite Hd).
  destruct (unstack_chunks u bu [] (le_split 8 <$> i :: ints)) as (views & Hun & Hf); try done.
  { rewrite Hit. cbn [extent]. lia. }
  { by rewrite length_fmap. }
  { rewrite Hit. apply Forall_fmap, Forall_true. intros z. cbn. by rewrite length_le_split. }
  inversion Hf as [|view ? views' ? (Hvd & Hvs & Wv & Hvb) _ Ev]. subst views.
  assert (Hmat : materialisable view).
  { unfold materialisable, itemsize. rewrite Hvd, Hd, Hvs. cbn. unfold_ints. lia. }
  destruct s as [sh dt k]. cbn in Hs. subst k. cbn [lane0_unchecked spec].
  unfold lane0_leaf, first_item, facade_unstack. rewrite Hun. cbn [mbind option_bind lift_err fmap head ok_or spec].
  cbn. rewrite (numel_spec view bu Wv), Hvs. cbn [volume mbind option_bind]. cbn.
  apply Forall_cons in Hi as [Hi _].
  rewrite (tensor_ints_spec view bu [i]); [done|congruence|done|done|by constructor|].
  rewrite Hvb. cbn. by rewrite app_nil_r.
Qed.

Lemma first_items spaces vals valss bs :
  Forall first_reads spaces ->
  Forall (fun vals => length vals = length spaces) (vals :: valss) ->
  Forall3 batch spaces (lane_columns (length spaces) (vals :: valss)) bs ->
  Forall3 (fun c v b => exists x, lane0_unchecked c b = Some (Ok x) /\ reads c v x) spaces vals bs.
Proof.
  intros IH. revert vals valss bs.
  induction IH as [|c cs Hc _ IHc]; intros vals valss bs Hls Hf.
  { apply Forall_cons in Hls as [Hl _]. destruct vals; [|done]. cbn in Hf. inversion Hf. constructor. }
  apply columns_split in Hls as ([|v col] & rows & E & Hcl & Hls); [by destruct rows|].
  destruct rows as [|row rows]; [done|]. rewrite E in Hf. injection E as -> ->.
  cbn [length] in Hf. rewrite columns_cons in Hf by done.
  inversion Hf as [|? ? b ? ? bs' Hbt Hf']; subst. constructor; [by eapply Hc|by eapply IHc].
Qed.

Lemma lane0_reads s : spec_all node_ok s -> first_reads s.
Proof.
  revert s. apply spec_all_induction. intros s Hok IH v vs b Hb. unfold children in IH.
  pose proof Hok as (Hv & _ & Hrm & _).
  inversion Hb as [? ? u bu chunks Hst Hd Hsh W Hl Hav Hcat|? d ints u bu Hs Hl Hst Hd Hsh W Hbu Hi Es Ev|
    ? ? xs Hk Hl Hr|? d ms bs Hs Hl Hm Hf Es Ev|? t valss bs Hs Hl Hls Hf Es Ev].
  - subst. by eapply first_of_array.
  - destruct ints as [|i ints]; [done|]. injection Ev as <- <-. exists (FInt i).
    split; [|by eapply reads_discrete]. by eapply first_of_ints.
  - subst. inversion Hr as [|? x ? xs' Hrx _]; subst. exists x. split; [|done].
    destruct s as [sh dt [[]|]]; try done; inversion Hrx as [? ? ? ? [_ Ha]| | | |]; subst; try done.
  - destruct ms as [|m ms]; [done|]. injection Ev as <- <-. rewrite Hs in IH.
    apply Forall_cons in Hm as [[Hso Hk] _]. unfold node_valid in Hv. rewrite Hs in Hv.
    destruct Hv as (_ & _ & _ & _ & Hnd).
    destruct (map_entries_spec (fun k c x => exists v, btree_get k m = Some v /\ reads c v x)
      lane0_unchecked (keys d) (dict_spaces d) bs []) as (ys & Hys & Hall); [done|by apply Forall_true| |].
    { clear - Hf IH. induction Hf as [|k c b ks cs bs (vs & Hg & Hbt) _ IHf]; [constructor|].
      apply Forall_cons in IH as [Hc IH]. constructor; [|by apply IHf].
      inversion Hg as [|? v ? vs' Hgm _]; subst. destruct (Hc v vs' b Hbt) as (x & Hx & Hrx). eauto. }
    exists (FDict (zip (keys d) ys)). split; [|by eapply reads_dict].
    destruct s as [sh dt k]. cbn in Hs. subst k. cbn [lane0_unchecked spec]. by rewrite Hys.
  - destruct valss as [|vals valss]; [done|]. injection Ev as <- <-. rewrite Hs in IH.
    destruct (map_items_spec reads lane0_unchecked (tuple_spaces t) vals bs) as (ys & Hys & Hall).
    { by eapply first_items. }
    exists (FTuple ys). split; [|by eapply reads_tuple].
    pose proof (Forall3_length_lr _ _ _ _ Hf) as Hlb.
    destruct s as [sh dt k]. cbn in Hs. subst k. cbn [lane0_unchecked spec].
    rewrite Hlb, Nat.eqb_refl. cbn [negb]. by rewrite Hys.
Qed.
End Batches.

(** *** One-lane batches *)

Section OneLane.
Context `{HL : HalfLaws}.

(** Dims without a wildcard and with as many elements are taken as they are. *)
Lemma reshape_exact addr t bytes ds :
  tensor_wf t bytes -> materialisable t -> dims_ok ds -> usize_product 1 ds = Some (volume ds) ->
  volume (shape t) = volume ds -> volume (shape t) * itemsize t + 63 <= isize_max ->
  exists u bytes', reshape addr t ds = Some (Ok u) /\ strides u = None /\ dtype u = dtype t /\
    shape u = ds /\ tensor_wf u bytes' /\ logical_bytes u bytes' = logical_bytes t bytes.
Proof.
  intros W Hm Hd Hu Hv Hcap. unfold reshape, resolve_reshape_dims.
  assert (filter (fun dim => dim = -1) ds = []) as ->.
  { clear - Hd. induction Hd as [|d ds Hd _ IH]; [done|]. cbn in Hd.
    by rewrite filter_cons_False by lia. }
  cbn [length Nat.ltb Nat.leb Nat.eqb]. cbn [mbind option_bind].
  pose proof (proj2 (checked_numel_spec ds 1 (volume ds) (dims_ok_i64s ds Hd)) (conj Hd Hu)) as Hn.
  unfold checked_numel. rewrite Hn. cbn [mbind option_bind].
  rewrite (numel_spec t bytes W). cbn [mbind option_bind]. rewrite Hv, Z.eqb_refl. cbn [negb].
  destruct (is_contiguous_spec t bytes W Hm) as ([] & -> & Hb).
  - destruct (reshape_view t bytes ds) as (-> & Wu & Hl); try done; [by apply Hb|].
    eexists _, bytes. split; [done|]. by split_and!.
  - rewrite (nbytes_spec t bytes W Hm).
    destruct (reshape_copy addr t bytes ds) as (st & -> & -> & Wu & Hl); try done.
    eexists _, _. split; [done|]. by split_and!.
Qed.

Lemma batch1_array addr s t bt :
  array_ok 1 s -> tensor_wf t bt -> dtype t = space_dtype s -> shape t = space_shape s ->
  exists u bu, batch1_leaf addr (FTensor t) = Some (Ok (FTensor u)) /\ strides u = None /\
    dtype u = space_dtype s /\ shape u = 1 :: space_shape s /\ tensor_wf u bu /\
    logical_bytes u bu = logical_bytes t bt.
Proof.
  intros Ha W Hd Hs. pose proof (array_materialisable s t Ha Hd Hs) as Hm.
  destruct (array_room s Ha) as (He & Hv & Hu). pose proof Ha as (_ & Hdo & _ & Hr).
  unfold batch1_leaf, tensor_copy. rewrite (to_contiguous_bytes_spec t bt W Hm). cbn [mbind option_bind].
  pose proof (length_logical_bytes t bt W) as Hl. unfold itemsize in Hl. rewrite Hd, Hs in Hl.
  destruct (tensor_from_slice_spec addr (logical_bytes t bt) (shape t) (dtype t)) as ([c|e] & Hc & Hsp).
  { apply dims_ok_i64s, (wf_dims _ _ W). } { lia. }
  - rewrite Hc. cbn [mbind option_bind]. destruct Hsp as (Hcd & Hcs & Wc & Hcb).
    assert (Hdc : dtype c = space_dtype s) by congruence. assert (Hsc : shape c = space_shape s) by congruence.
    destruct (reshape_exact addr c (logical_bytes t bt) (1 :: space_shape s)) as (u & bu & Hre & Hst & Hud & Hus & Wu & Hub).
    + done.
    + by apply (array_materialisable s c Ha).
    + apply dims_ok_cons. split; [unfold_ints; lia|done].
    + rewrite usize_product_total; [f_equal; lia|apply dims_ok_cons; split; [unfold_ints; lia|done]|lia|].
      cbn [extent]. unfold_ints. lia.
    + rewrite Hsc. cbn [volume]. lia.
    + unfold itemsize. rewrite Hdc, Hsc. lia.
    + exists u, bu. rewrite Hs. unfold facade_reshape. rewrite Hre. split; [done|].
      split_and!; congruence || done.
  - destruct Hsp. rewrite (checked_nbytes_wf t bt W Hm). unfold itemsize. by rewrite Hd, Hs, Hl.
Qed.

Definition batches_one (addr : Z) (s : SpaceSpec) : Prop :=
  forall v x, value_wf v -> reads s v x -> exists b, batch1_unchecked addr s x = Some (Ok b) /\ batch 1 s [v] b.

Lemma batch1_batch addr s : spec_all (node_ok 1) s -> batches_one addr s.
Proof.
  revert s. apply spec_all_induction. intros s Hok IH v x Hw Hx. unfold children in IH.
  pose proof Hok as (Hv & Ht & Hrm & _).
  destruct Hx as [s v t bt Ha Hd Hsh W|s d i Hs|s t text Hs|s d m xs Hs Hso Hk Hf|s t vals xs Hs Hf].
  - destruct (batch1_array addr s t bt) as (u & bu & Hb & Hst & Hud & Hus & Wu & Hub); try done.
    { by eapply array_ok_of. }
    exists (FTensor u). split.
    + destruct Ha as [_ Ha]. by destruct s as [sh dt [[]|]]; destruct v; try done.
    + apply (batch_array 1 s [v] u bu [logical_bytes t bt]); try done;
        [by apply Forall2_cons_2; [|constructor]|].
      cbn. by rewrite app_nil_r, Hub.
  - exists (FList [FInt i]). split; [destruct s as [sh dt k]; cbn in Hs; by subst k|].
    apply batch_list; [by rewrite Hs|done|]. repeat constructor. by eapply reads_discrete.
  - exists (FList [FText text]). split; [destruct s as [sh dt k]; cbn in Hs; by subst k|].
    apply batch_list; [by rewrite Hs|done|]. repeat constructor. by eapply reads_text.
  - rewrite Hs in IH. unfold node_valid in Hv. rewrite Hs in Hv. destruct Hv as (_ & _ & _ & _ & Hnd).
    inversion Hw as [| | | | |? _ Hwm|]; subst.
    destruct (map_entries_spec (fun k c b => exists vs, Forall2 (fun m v => btree_get k m = Some v) [m] vs /\ batch 1 c vs b)
      (batch1_unchecked addr) (keys d) (dict_spaces d) xs []) as (ys & Hys & Hall); [done|by apply Forall_true| |].
    { clear - Hf IH Hwm. induction Hf as [|k c x ks cs xs (v & Hg & Hr) _ IHf]; [constructor|].
      apply Forall_cons in IH as [Hc IH]. constructor; [|by apply IHf].
      destruct (Hc v x) as (b & Hb & Hbt); [by eapply value_wf_get|done|]. exists b. split; [done|].
      exists [v]. split; [by repeat constructor|done]. }
    exists (FDict (zip (keys d) ys)).
    split; [|apply (batch_dict 1 s d [m]); try done; by repeat constructor].
    destruct s as [sh dt k]. cbn in Hs. subst k. cbn [batch1_unchecked spec]. by rewrite Hys.
  - rewrite Hs in IH. inversion Hw as [| | | | | |? Hwv]; subst.
    destruct (map_items_spec (fun c v b => batch 1 c [v] b) (batch1_unchecked addr) (tuple_spaces t) vals xs)
      as (ys & Hys & Hall).
    { clear - Hf IH Hwv. induction Hf as [|c v x cs vs xs Hr _ IHf]; [constructor|].
      apply Forall_cons in IH as [Hc IH], Hwv as [Hwv Hws]. constructor; [by apply Hc|by apply IHf]. }
    exists (FTuple ys). pose proof (Forall3_length_lm _ _ _ _ Hf) as Hl. split.
    + destruct s as [sh dt k]. cbn in Hs. subst k. cbn [batch1_unchecked spec]. by rewrite Hys.
    + apply (batch_tuple 1 s t [vals]); [done|done|by repeat constructor|].
      clear - Hall Hl. revert Hall Hl. generalize (tuple_spaces t). intros cs Hall.
      induction Hall as [|c v y cs vs ys Hb _ IH]; intros Hl; [constructor|]. injection Hl as Hl.
      cbn. constructor; [done|]. by apply IH.
Qed.
End OneLane.

(** ** Properties *)

Section Properties.
Context `{HL : HalfLaws}.

(** The facade value converts to the member. *)
Definition stands_for (s : SpaceSpec) (x : FValue) (v : SpaceValue) : Prop :=
  exists v', value_to_space s x = Some (Ok v') /\ value_eqv v v'.

Lemma spec_all_weaken (P Q : SpaceSpec -> Prop) s :
  (forall s, P s -> Q s) -> spec_all P s -> spec_all Q s.
Proof. intros Hi. revert s. apply spec_all_induction. intros s Hp Hc. constructor; auto. Qed.

Lemma roomy_one n s : 1 <= n -> roomy n s -> roomy 1 s.
Proof.
  intros Hn. apply spec_all_weaken. clear s. intros s Hr. unfold node_roomy in *.
  destruct (spec s) as [[]|]; try done; try lia;
    pose proof (extent_pos (space_shape s));
    assert (1 * (extent (space_shape s) * Z.of_nat (dtype_size (space_dtype s))) <=
            n * (extent (space_shape s) * Z.of_nat (dtype_size (space_dtype s))))
      by (apply Z.mul_le_mono_nonneg_r; nia); lia.
Qed.

Lemma from_space_inv s v x :
  valid s -> typed s -> roomy 1 s -> value_wf v -> value_from_space s v = Some (Ok x) ->
  fits false s v /\ reads s v x.
Proof.
  intros Hv Ht Hr Hw Hx. unfold value_from_space, conform in Hx.
  destruct (conform_at_checks s Hv Ht v "$" Hw) as (c & Hc & Hd). rewrite Hc in Hx. cbn [mbind option_bind] in Hx.
  assert (Hf : fits false s v) by (apply Hd; by destruct c). split; [done|].
  destruct (from_space_reads s Hv Ht Hr v Hw Hf) as (x' & Hx' & Hrd). rewrite Hx' in Hx.
  destruct c; simplify_eq/=; done.
Qed.

Lemma from_space_all s vs xs :
  valid s -> typed s -> roomy 1 s -> Forall value_wf vs ->
  Forall2 (fun v x => value_from_space s v = Some (Ok x)) vs xs ->
  Forall (fits false s) vs /\ Forall2 (reads s) vs xs.
Proof.
  intros Hv Ht Hr Hw Hf. induction Hf as [|v x vs xs Hx _ IH]; [by split; constructor|].
  apply Forall_cons in Hw as [Hwv Hw]. destruct (IH Hw) as [? ?].
  destruct (from_space_inv s v x Hv Ht Hr Hwv Hx). by split; constructor.
Qed.

Lemma reads_stands_for s v x :
  valid s -> typed s -> roomy 1 s -> value_wf v -> fits false s v -> reads s v x -> stands_for s x v.
Proof.
  intros Hv Ht Hr Hw Hf Hx. destruct (reads_to_space s v x Hv Ht Hr Hw Hf Hx) as (v' & ? & ? & _).
  by exists v'.
Qed.

(** The lanes a batch is read as pass the check against their space. *)
Lemma unstack_lanes_batch n s vs b :
  (0 < n)%nat -> valid s -> typed s -> roomy (Z.of_nat n) s -> solid s ->
  Forall value_wf vs -> Forall (fits false s) vs -> batch n s vs b ->
  exists xs, unstack_lanes s b n = Some (Ok xs) /\ Forall2 (fun v x => stands_for s x v) vs xs.
Proof.
  intros Hn Hv Ht Hr Hs Hw Hf Hb.
  destruct (unstack_lanes_reads n s Hn (node_ok_intro n s Hv Ht Hr Hs) vs b Hb) as (xs & Hu & Hrd).
  assert (Hst : Forall2 (fun v x => stands_for s x v) vs xs).
  { apply roomy_one in Hr; [|lia]. clear - Hv Ht Hr Hw Hf Hrd.
    induction Hrd as [|v x vs xs Hx _ IH]; [constructor|].
    apply Forall_cons in Hw as [? ?], Hf as [? ?]. constructor; [by apply reads_stands_for|by apply IH]. }
  exists xs. split; [|done]. unfold unstack_lanes. rewrite Hu. cbn [mbind option_bind].
  assert (check_lanes s xs = Some (Ok tt)) as ->; [|done].
  clear - Hst. induction Hst as [|v x vs xs (v' & Hx & _) _ IH]; [done|]. cbn. by rewrite Hx.
Qed.

Lemma lane0_batch n s v vs b :
  valid s -> typed s -> roomy (Z.of_nat n) s -> solid s ->
  value_wf v -> fits false s v -> batch n s (v :: vs) b ->
  exists x, lane0 s b = Some (Ok x) /\ stands_for s x v.
Proof.
  intros Hv Ht Hr Hs Hw Hf Hb.
  destruct (lane0_reads n s (node_ok_intro n s Hv Ht Hr Hs) v vs b Hb) as (x & Hx & Hrd).
  apply batch_length in Hb. cbn in Hb. apply roomy_one in Hr; [|lia].
  destruct (reads_stands_for s v x Hv Ht Hr Hw Hf Hrd) as (v' & Hto & He). exists x.
  unfold lane0. rewrite Hx. cbn [mbind option_bind]. rewrite Hto. split; [done|by exists v'].
Qed.

(** C15: Lanes that hold members of the single space stack into the batched layout of a
    vector env, and the batch reads back as the lanes: split over the envs it gives every
    lane its member, in order, and its lane 0 is the first; nothing on the way is refused
    or panics. *)
Theorem lanes_roundtrip (addr : Z) (s : SpaceSpec) (v : SpaceValue) (vs : list SpaceValue)
    (xs : list FValue) :
  let n := length (v :: vs) in
  validate_space s = Some (Ok tt) -> typed s -> roomy (Z.of_nat n) s -> solid s ->
  Forall value_wf (v :: vs) ->
  Forall2 (fun v x => value_from_space s v = Some (Ok x)) (v :: vs) xs ->
  exists b, stack_lanes addr s xs = Some (Ok b) /\
    (exists xs', unstack_lanes s b n = Some (Ok xs') /\
       Forall2 (fun v x => stands_for s x v) (v :: vs) xs') /\
    (exists x, lane0 s b = Some (Ok x) /\ stands_for s x v).
Proof.
  intros n Hv%validate_space_Ok Ht Hr Hs Hw Hx. assert (Hn : (0 < n)%nat) by (subst n; cbn; lia).
  destruct (from_space_all s (v :: vs) xs Hv Ht) as [Hf Hrd]; [by eapply roomy_one; [|exact Hr]; lia|done..|].
  destruct (stack_lanes_batch n addr s Hn (node_ok_intro n s Hv Ht Hr Hs) (v :: vs) xs Hw) as (b & Hb & Hbt);
    [by apply Forall2_length in Hrd|done|].
  exists b. split; [done|]. split; [by apply unstack_lanes_batch|].
  apply Forall_cons in Hw as [? ?], Hf as [? ?]. by eapply lane0_batch.
Qed.

(** A member batched for the one lane of a vector env and the lane read back, as lane 0
    or by splitting the batch, is the member; nothing on the way is refused or panics. *)
Theorem single_lane_roundtrip (addr : Z) (s : SpaceSpec) (v : SpaceValue) (x : FValue) :
  validate_space s = Some (Ok tt) -> typed s -> roomy 1 s -> solid s -> value_wf v ->
  value_from_space s v = Some (Ok x) ->
  exists b, batch1 addr s x = Some (Ok b) /\
    (exists x', lane0 s b = Some (Ok x') /\ stands_for s x' v) /\
    (exists x', unstack_lanes s b 1 = Some (Ok [x']) /\ stands_for s x' v).
Proof.
  intros Hv%validate_space_Ok Ht Hr Hs Hw Hx. destruct (from_space_inv s v x Hv Ht Hr Hw Hx) as [Hf Hrd].
  destruct (batch1_batch addr s (node_ok_intro 1 s Hv Ht Hr Hs) v x Hw Hrd) as (b & Hb & Hbt).
  destruct (reads_stands_for s v x Hv Ht Hr Hw Hf Hrd) as (v' & Hto & _).
  exists b. split; [unfold batch1; by rewrite Hto|]. split; [by apply (lane0_batch 1 s v [] b)|].
  destruct (unstack_lanes_batch 1 s [v] b) as (xs & Hu & Hall); try done; [lia|by apply Forall_singleton..|].
  inversion Hall as [|? x' ? ? Hx' Hnil]; subst. inversion Hnil; subst. by exists x'.
Qed.
End Properties.

(** ** Witnesses *)

Lemma example_solid : solid example_space.
Proof.
  constructor; [exact I|]. repeat apply Forall_cons_2; [..|apply Forall_nil_2].
  - constructor; [vm_compute; reflexivity|apply Forall_nil_2].
  - constructor; [exact I|].
    repeat apply Forall_cons_2; [..|apply Forall_nil_2]; (constructor; [exact I|apply Forall_nil_2]).
Qed.

(** A second member of the example space. *)
Definition other_value : SpaceValue :=
  VDict [("frame", VBox transposed); ("info", VTuple [VDiscrete (-1); VText [98]])].

Lemma other_value_wf : value_wf other_value.
Proof.
  apply wf_dict; [by apply btree_sortedb_spec|].
  apply Forall_cons_2; [|apply Forall_cons_2; [|apply Forall_nil_2]].
  - apply (wf_box transposed six_bytes transposed_wf). vm_compute. discriminate.
  - apply wf_tuple. apply Forall_cons_2; [|apply Forall_cons_2; [|apply Forall_nil_2]].
    + apply wf_discrete. compute_Z.
    + apply wf_text. repeat apply Forall_cons_2; [unfold is_char; lia..|apply Forall_nil_2].
Qed.

Lemma other_fits : fits (H := ieee_half) false example_space other_value.
Proof.
  destruct (conform_at_checks (H := ieee_half) example_space example_space_valid example_typed other_value "$"
    other_value_wf) as (c & Hc & Hd).
  apply Hd. vm_compute in Hc. by injection Hc as <-.
Qed.

Lemma example_lanes :
  exists xs, Forall2 (fun v x => value_from_space (H := ieee_half) example_space v = Some (Ok x))
    [example_value; other_value] xs.
Proof.
  destruct (from_space_total (H := ieee_half) example_space example_value example_space_valid example_typed)
    as (x & Hx & _); [apply example_roomy; lia|exact example_value_wf|exact example_member|].
  destruct (from_space_total (H := ieee_half) example_space other_value example_space_valid example_typed)
    as (y & Hy & _); [apply example_roomy; lia|exact other_value_wf|exact other_fits|].
  exists [x; y]. constructor; [exact Hx|]. constructor; [exact Hy|constructor].
Qed.

Lemma lanes_roundtrip_witness :
  exists xs b xs', stack_lanes 0 example_space xs = Some (Ok b) /\
    unstack_lanes (H := ieee_half) example_space b 2 = Some (Ok xs') /\ length xs' = 2%nat.
Proof.
  destruct example_lanes as [xs Hxs].
  destruct (lanes_roundtrip (H := ieee_half) 0 example_space example_value [other_value] xs)
    as (b & Hb & (xs' & Hu & Hall) & _).
  - vm_compute. reflexivity.
  - exact example_typed.
  - apply example_roomy. cbn. lia.
  - exact example_solid.
  - apply Forall_cons_2; [exact example_value_wf|]. apply Forall_cons_2; [exact other_value_wf|apply Forall_nil_2].
  - exact Hxs.
  - exists xs, b, xs'. apply Forall2_length in Hall. exact (conj Hb (conj Hu (eq_sym Hall))).
Defined.

Lemma single_lane_roundtrip_witness :
  exists x b x', batch1 (H := ieee_half) 0 example_space x = Some (Ok b) /\
    lane0 (H := ieee_half) example_space b = Some (Ok x') /\ stands_for (H := ieee_half) example_space x' example_value.
Proof.
  destruct (from_space_total (H := ieee_half) example_space example_value example_space_valid example_typed)
    as (x & Hx & _); [apply example_roomy; lia|exact example_value_wf|exact example_member|].
  destruct (single_lane_roundtrip (H := ieee_half) 0 example_space example_value x)
    as (b & Hb & (x' & Hl & Hst) & _).
  - vm_compute. reflexivity.
  - exact example_typed.
  - apply example_roomy. lia.
  - exact example_solid.
  - exact example_value_wf.
  - exact Hx.
  - exists x, b, x'. exact (conj Hb (conj Hl Hst)).
Defined.

(** ** Render frames *)

Lemma lookup_concat_uniform {A} n (ls : list (list A)) l i j :
  Forall (fun l => length l = n) ls -> ls !! i = Some l -> (j < n)%nat ->
  concat ls !! (i * n + j)%nat = l !! j.
Proof.
  intros Hn. revert i. induction Hn as [|l' ls Hl _ IH]; intros [|i] Hi Hj; try done; cbn in *.
  - injection Hi as ->. rewrite lookup_app_l by lia. done.
  - rewrite lookup_app_r by lia. rewrite <- (IH i Hi Hj). f_equal. lia.
Qed.

(** Planes interleave: the channels of a pixel are next to each other, each read from its
    plane. *)
Theorem chw_to_hwc_spec (bytes : list byte) (channels height width : nat) :
  let plane := (height * width)%nat in
  length bytes = (channels * plane)%nat ->
  length (chw_to_hwc bytes channels height width) = length bytes /\
  forall pixel channel, (pixel < plane)%nat -> (channel < channels)%nat ->
    chw_to_hwc bytes channels height width !! (pixel * channels + channel)%nat =
    bytes !! (channel * plane + pixel)%nat.
Proof.
  intros plane Hl.
  assert (Hc : Forall (fun l => length l = channels) (chw_pixel bytes channels plane <$> seq 0 plane)).
  { apply Forall_fmap, Forall_true. intros p. cbn. unfold chw_pixel. by rewrite length_fmap, length_seq. }
  unfold chw_to_hwc. fold plane. split.
  - rewrite (length_concat_uniform channels), length_fmap, length_seq by done. lia.
  - intros pixel channel Hp Hch.
    rewrite (lookup_concat_uniform channels _ (chw_pixel bytes channels plane pixel)); [|done| |done].
    + unfold chw_pixel. rewrite list_lookup_fmap, lookup_seq_lt by done. cbn.
      destruct (lookup_lt_is_Some_2 bytes (channel * plane + pixel)%nat) as [b ->]; [nia|done].
    + by rewrite list_lookup_fmap, lookup_seq_lt by done.
Qed.

(** ** Findings *)

(** A row of two pixels and a bare number; a bare number and a row of one. *)
Definition short_row : FValue := FList [FList [FInt 1; FInt 2]; FInt 3].
Definition late_row : FValue := FList [FInt 1; FList [FInt 2]].

(** Only lists are checked for raggedness, never a number where a row is due: three pixels
    are read as a 2 by 2 image, which the encoder refuses by a panic, and a list of a number
    and a row as a 2 by 1 image. *)
Lemma ragged_frames_accepted
    (write_image : list byte -> Z -> Z -> ExtendedColorType -> option (result (list byte) message)) :
  (forall data width height, Z.of_nat (length data) <> width * height ->
     write_image data width height L8 = None) ->
  nested_u8 short_row 0 [] [] = Ok ([2; 2]%nat, [Byte.x01; Byte.x02; Byte.x03]) /\
  encode_frame (H := ieee_half) write_image short_row = None /\
  nested_u8 late_row 0 [] [] = Ok ([2; 1]%nat, [Byte.x01; Byte.x02]).
Proof.
  intros Hw. split; [done|]. split; [|done]. unfold encode_frame. cbn.
  rewrite Hw; [done|]. vm_compute. discriminate.
Qed.
