(* ===== verification/SyncWire.v ===== *)
(** * Serving the facade's envs

    [rlmesh/src/value/meta_codec.rs], [env/single_lane.rs] and [env/sync_wire.rs]: metadata
    on the wire, a one-lane vector env as a scalar env, and the scalar and vector envs of
    the facade behind the request/result types of the wire.

    The env is code of the user, so it is a class whose operations take and give its state;
    [None] is a panic of the call.  A call runs to completion on the thread that owns the
    env; how it gets there (inline or through the actor's mailbox) does not change it.  The
    failure of a call to a thread that has stopped is left out. *)

From stdpp Require Import gmap strings.
From Stdlib Require Import String.
From S2P Require Import Prelude Utf8 BTree Float FloatOps DType Scalar Tensor Types BoxValue Spaces AdapterValue FacadeError FacadeValue LaneLayout.
#[local] Open Scope string_scope.
#[local] Open Scope Z_scope.

(** ** Metadata on the wire *)

(** A facade text is its scalar values, a wire string its bytes. *)
Definition text_string (text : list Z) : string := string_of_list_byte (as_bytes text).
Definition string_text (s : string) : list Z :=
  match from_utf8 (list_byte_of_string s) with Ok text => text | Err _ => [] end.

(** The next [shape[0]] items, each nested by the rest of [shape]. *)
Fixpoint nest (shape : list nat) (elements : list MetaValue) {struct shape} : MetaValue * list MetaValue :=
  match shape with
  | [] => (MList [], elements)
  | len :: rest =>
      let read :=
        (fix go (n : nat) (elements : list MetaValue) : list MetaValue * list MetaValue :=
           match n with
           | O => ([], elements)
           | S n =>
               let item :=
                 if bool_decide (rest = []) then (default MNull (head elements), tl elements)
                 else nest rest elements in
               let items := go n item.2 in
               (item.1 :: items.1, items.2)
           end) len elements in
      (MList read.1, read.2)
  end.

Definition u64_element (raw : list byte) : result MetaValue Error :=
  let number := le_combine raw in
  if number <=? i64_max then Ok (MInt number)
  else Err (invalid_argument (Msg "metadata integer {number} does not fit int64; RLMesh metadata integers must be in [-2**63, 2**63) -- store a larger value as a string instead" [AZ number])).

Fixpoint u64_elements (chunks : list (list byte)) : result (list MetaValue) Error :=
  match chunks with
  | [] => Ok []
  | raw :: chunks =>
      let? v := u64_element raw in
      let? rest := u64_elements chunks in
      Ok (v :: rest)
  end.

Definition scalar_to_meta (scalar : Scalar) : MetaValue :=
  match scalar with SBool flag => MBool flag | SInt number => MInt number | SFloat number => MFloat number end.

Section Meta.
Context `{HalfOps}.

Definition tensor_elements (t : Tensor) (bytes : list byte) : option (result (list MetaValue) Error) :=
  if bool_decide (dtype t = Uint64) then Some (u64_elements (chunks_exact 8 bytes))
  else
    let!? scalars := lift_err (fun err => invalid_argument (scalar_error_message err))
                       (decode_scalars bytes (dtype t)) in
    Some (Ok (scalar_to_meta <$> scalars)).

Definition tensor_to_wire (t : Tensor) : option (result MetaValue Error) :=
  let! bytes := to_contiguous_bytes t in
  let!? elements := tensor_elements t bytes in
  Some (Ok (if bool_decide (shape t = []) then default MNull (head elements)
            else (nest (Z.to_nat <$> shape t) elements).1)).

Fixpoint value_to_wire (v : FValue) : option (result MetaValue Error) :=
  match v with
  | FNone => Some (Ok MNull)
  | FBool flag => Some (Ok (MBool flag))
  | FInt number => Some (Ok (MInt number))
  | FFloat number => Some (Ok (MFloat number))
  | FText text => Some (Ok (MString (text_string text)))
  | FBytes bytes => Some (Ok (MBytes bytes))
  | FList items | FTuple items =>
      let!? items :=
        (fix go (l : list FValue) : option (result (list MetaValue) Error) :=
           match l with
           | [] => Some (Ok [])
           | v :: l =>
               let!? w := value_to_wire v in
               let!? rest := go l in
               Some (Ok (w :: rest))
           end) items in
      Some (Ok (MList items))
  | FDict map =>
      let!? map :=
        (fix go (l : list (string * FValue)) (acc : MetaMap) : option (result MetaMap Error) :=
           match l with
           | [] => Some (Ok acc)
           | (key, v) :: l =>
               let!? w := value_to_wire v in
               go l (btree_insert key w acc)
           end) map [] in
      Some (Ok (MMap map))
  | FTensor t => tensor_to_wire t
  end.

Definition metadata_to_wire (map : Metadata) : option (result MetaMap Error) :=
  let!? wire := value_to_wire (FDict map) in
  Some match wire with MMap map => Ok map | _ => Ok [] end.
End Meta.

Fixpoint value_from_wire (v : MetaValue) : FValue :=
  match v with
  | MNull => FNone
  | MBool flag => FBool flag
  | MInt number => FInt number
  | MFloat number => FFloat number
  | MString text => FText (string_text text)
  | MBytes bytes => FBytes bytes
  | MList items => FList (value_from_wire <$> items)
  | MMap map => FDict (meta_collect ((fun '(key, value) => (key, value_from_wire value)) <$> map))
  end.

Definition metadata_from_wire (map : MetaMap) : Metadata :=
  meta_collect ((fun '(key, value) => (key, value_from_wire value)) <$> map).

(** ** Autoreset *)

(** In the texts below double quotes are written as single ones, and the [Debug] form of a
    value is its kind. *)
Definition AUTORESET_KEY : string := "autoreset_mode".

Definition autoreset_mode (metadata : option Metadata) : result AutoresetMode Error :=
  match (let! metadata := metadata in meta_get AUTORESET_KEY metadata) with
  | None => Ok Disabled
  | Some FNone =>
      Err (invalid_argument (lit "metadata['autoreset_mode'] is present but None; set it to a gymnasium AutoresetMode enum or one of 'NextStep'/'SameStep'/'Disabled', or omit the key entirely to default to DISABLED"))
  | Some (FText mode) =>
      let mode := text_string mode in
      if (mode =? "NextStep")%string then Ok NextStep
      else if (mode =? "Disabled")%string then Ok Disabled
      else if (mode =? "SameStep")%string then
        Err (invalid_argument (lit "SAME_STEP autoreset mode is not yet supported by the rlmesh runtime; construct the environment with NEXT_STEP or DISABLED autoreset"))
      else
        Err (invalid_argument (Msg "unrecognized metadata['autoreset_mode'] {other:?}; expected a gymnasium AutoresetMode enum or one of 'NextStep'/'SameStep'/'Disabled'" [AStr mode]))
  | Some other =>
      Err (invalid_argument (Msg "metadata['autoreset_mode'] must be a gymnasium AutoresetMode enum or one of 'NextStep'/'SameStep'/'Disabled', got {other:?}" [AStr (kind_debug (kind other))]))
  end.

(** ** Failures *)

(** The error under its payloads. *)
Fixpoint error_source (e : Error) : Error :=
  match e with Attached e _ _ => error_source e | e => e end.

Definition authored_failure (op : string) (err : Error) : EnvRuntimeError :=
  let '(text, recoverable) :=
    match error_source err with
    | Environment env => (ee_message env, ee_is_recoverable env)
    | _ => (error_message err, false)
    end in
  let text := Msg "{op} failed: {message}" [AStr op; nested text] in
  if recoverable : bool then Recoverable text else RuntimeError text.

Definition encode_failure (op : string) (err : Error) : EnvRuntimeError :=
  RuntimeError (Msg "{op} returned a value the wire cannot carry: {err}" [AStr op; nested (error_message err)]).

(** ** Calls *)

(** A computation on the env's state: [None] is a panic. *)
Definition Job (S A E : Type) : Type := S -> S * option (result A E).

Definition job_bind {S A B E} (m : Job S A E) (f : A -> Job S B E) : Job S B E := fun s =>
  match m s with
  | (s, Some (Ok a)) => f a s
  | (s, Some (Err e)) => (s, Some (Err e))
  | (s, None) => (s, None)
  end.

Definition job_return {S A E} (a : A) : Job S A E := fun s => (s, Some (Ok a)).

(** A computation that leaves the env alone, its error mapped. *)
Definition job_lift {S A E F} (f : E -> F) (r : option (result A E)) : Job S A F := fun s =>
  (s, lift_err f r).

Definition job_map_err {S A E F} (f : E -> F) (m : Job S A E) : Job S A F := fun s =>
  let '(s, r) := m s in (s, lift_err f r).

#[local] Notation "'let%' x := m 'in' k" := (job_bind m (fun x => k))
  (at level 200, x name, right associativity).

(** [catch_unwind] around a job: a panic is the request's failure. *)
Definition call {S R} (op : string) (job : Job S R EnvRuntimeError) (s : S)
    : S * result R EnvRuntimeError :=
  match job s with
  | (s, Some r) => (s, r)
  | (s, None) => (s, Err (RuntimeError (Msg "{op} task panicked" [AStr op])))
  end.

(** ** The envs of the user *)

Record StepOutcome : Type := mkStepOutcome {
  so_observation : FValue;
  so_reward : f64;
  so_terminated : bool;
  so_truncated : bool;
  so_info : Metadata;
}.

Record VectorOutcome : Type := mkVectorOutcome {
  vo_observation : FValue;
  vo_rewards : list f64;
  vo_terminated : list bool;
  vo_truncated : list bool;
  vo_info : Metadata;
}.

Inductive VectorSeed : Type := One (seed : Z) | Each (seeds : list Z).

(** The traits [Env] and [VectorEnv]. *)
Class SyncEnv (S : Type) : Type := {
  sync_reset : option Z -> option Metadata -> Job S (FValue * Metadata) Error;
  sync_step : option FValue -> Job S StepOutcome Error;
  sync_render : Job S (option FValue) Error;
  sync_close : Job S unit Error;
}.

Class VectorEnv (S : Type) : Type := {
  vector_reset : option VectorSeed -> option Metadata -> Job S (FValue * Metadata) Error;
  vector_step : FValue -> Job S VectorOutcome Error;
  vector_render : Job S (option FValue) Error;
  vector_close : Job S unit Error;
}.

(** ** A one-lane vector env as a scalar env *)

Definition same_step_refused : Error :=
  invalid_argument (lit "a one-lane vector env with SAME_STEP autoreset returns the next episode's first observation in place of the terminal one; construct it with NEXT_STEP autoreset").

(** [SingleLaneEnv::new]: the metadata it serves. *)
Definition single_lane_metadata (metadata : option Metadata) : result Metadata Error :=
  let metadata := default [] metadata in
  let refused := match meta_get AUTORESET_KEY metadata with
                 | Some (FText mode) => (text_string mode =? "SameStep")%string
                 | _ => false
                 end in
  if refused then Err same_step_refused
  else
    let? _ := autoreset_mode (Some metadata) in
    Ok (meta_remove AUTORESET_KEY metadata).

(** A projection failure is the env's. *)
Definition lane_error (err : Error) : Error := error_environment (error_message err).

Section SingleLane.
Context `{HalfOps} {S : Type} `{VectorEnv S}.
Context (addr : Z) (observation_space action_space : SpaceSpec).

(** The batch a lane's action makes; a request may carry none. *)
Definition single_actions (action : option FValue) : option (result FValue Error) :=
  match action with
  | Some action => lift_err lane_error (batch1 addr action_space action)
  | None =>
      match spec action_space with
      | Some (KDict d) =>
          if bool_decide (keys d = []) then Some (Ok (FDict []))
          else Some (Err (error_environment (lit "'NoneType' object is not subscriptable")))
      | Some (KTuple _) => Some (Err (error_environment (lit "'NoneType' object is not subscriptable")))
      | _ => Some (Ok (FList [FNone]))
      end
  end.

(** The first entry of a step's per-lane list. *)
Definition first_of {A} (name : string) (l : list A) : result A Error :=
  ok_or (head l) (error_environment (Msg "step returned no {name}" [AStr name])).

Definition single_reset (seed : option Z) (options : option Metadata) : Job S (FValue * Metadata) Error :=
  let% reply := vector_reset (One <$> seed) options in
  let% observation := job_lift lane_error (lane0 observation_space reply.1) in
  let% info := job_lift id (let! info := info0 reply.2 in Some (Ok info)) in
  job_return (observation, info).

Definition single_step (action : option FValue) : Job S StepOutcome Error :=
  let% actions := job_lift id (single_actions action) in
  let% reply := vector_step actions in
  let% reward := job_lift id (Some (first_of "rewards" (vo_rewards reply))) in
  let% terminated := job_lift id (Some (first_of "terminated values" (vo_terminated reply))) in
  let% truncated := job_lift id (Some (first_of "truncated values" (vo_truncated reply))) in
  let% observation := job_lift lane_error (lane0 observation_space (vo_observation reply)) in
  let% info := job_lift id (let! info := info0 (vo_info reply) in Some (Ok info)) in
  job_return (mkStepOutcome observation reward terminated truncated info).

Definition single_render : Job S (option FValue) Error :=
  let% frames := vector_render in
  match frames with
  | Some frames => let% first := job_lift lane_error (first_item frames) in job_return (Some first)
  | None => job_return None
  end.

(** [impl Env for SingleLaneEnv]. *)
Definition single_lane : SyncEnv S := {|
  sync_reset := single_reset;
  sync_step := single_step;
  sync_render := single_render;
  sync_close := vector_close;
|}.
End SingleLane.

(** ** Envs on the wire *)

Record LaneResetRequest : Type := mkLaneResetRequest {
  lane_seed : option Z;
  lane_options : option MetaMap;
  lane_reset_timeout_ms : Z;
}.

Record LaneStepRequest : Type := mkLaneStepRequest {
  lane_action : option SpaceValue;
  lane_step_timeout_ms : Z;
}.

Record LaneResetResult : Type := mkLaneResetResult {
  lane_reset_observation : option SpaceValue;
  lane_reset_info : option MetaMap;
  lane_episode_id : option string;
}.

Record LaneStepResult : Type := mkLaneStepResult {
  lane_step_observation : option SpaceValue;
  lane_reward : f64;
  lane_terminated : bool;
  lane_truncated : bool;
  lane_step_info : option MetaMap;
}.

(** The fields of the vector requests and results the adapter uses; the list of completed
    episodes and that of episode ids it always leaves empty. *)
Record VectorResetRequest : Type := mkVectorResetRequest {
  vector_seeds : list Z;
  vector_options : option MetaMap;
}.

Record VectorResetResult : Type := mkVectorResetResult {
  vector_reset_observations : list SpaceValue;
  vector_reset_info : option MetaMap;
  vector_reset_episode_ids : list string;
}.

Record VectorStepResult : Type := mkVectorStepResult {
  vector_observations_of : list SpaceValue;
  vector_rewards : list f64;
  vector_terminated : list bool;
  vector_truncated : list bool;
  vector_step_info : option MetaMap;
  vector_episode_ids : list string;
}.

Section Serve.
Context `{HalfOps}.

Definition info_to_wire (op : string) (info : Metadata) : option (result (option MetaMap) EnvRuntimeError) :=
  match info with
  | [] => Some (Ok None)
  | _ =>
      let!? wire := lift_err (encode_failure op) (metadata_to_wire info) in
      Some (Ok (Some wire))
  end.

Section Frames.
Context (write_image : list byte -> Z -> Z -> ExtendedColorType -> option (result (list byte) message)).

Definition frame_result (frame : option FValue) : option (result (option (list byte)) EnvRuntimeError) :=
  match frame with
  | Some frame => lift_err (encode_failure "render") (encode_frame write_image frame)
  | None => Some (Ok None)
  end.

(** *** A scalar lane *)

Section Lane.
Context {S : Type} `{SyncEnv S}.
Context (observation_space action_space : SpaceSpec).

Definition lane_reset (req : LaneResetRequest) : S -> S * result LaneResetResult EnvRuntimeError :=
  call "reset" (
    let options := metadata_from_wire <$> lane_options req in
    let% reply := job_map_err (authored_failure "reset") (sync_reset (lane_seed req) options) in
    let% observation := job_lift (encode_failure "reset") (value_to_space observation_space reply.1) in
    let% info := job_lift id (info_to_wire "reset" reply.2) in
    job_return (mkLaneResetResult (Some observation) info None)).

Definition invalid_value (err : Error) : EnvRuntimeError := InvalidValue (error_message err).

(** [req.action.map(..).transpose()]. *)
Definition read_action (action : option SpaceValue) : option (result (option FValue) Error) :=
  match action with
  | Some action => let!? x := value_from_space action_space action in Some (Ok (Some x))
  | None => Some (Ok None)
  end.

Definition lane_step (req : LaneStepRequest) : S -> S * result LaneStepResult EnvRuntimeError :=
  call "step" (
    let% action := job_lift invalid_value (read_action (lane_action req)) in
    let% reply := job_map_err (authored_failure "step") (sync_step action) in
    let% observation := job_lift (encode_failure "step") (value_to_space observation_space (so_observation reply)) in
    let% info := job_lift id (info_to_wire "step" (so_info reply)) in
    job_return (mkLaneStepResult (Some observation) (so_reward reply) (so_terminated reply)
      (so_truncated reply) info)).

Definition lane_render : S -> S * result (option (list byte)) EnvRuntimeError :=
  call "render" (
    let% frame := job_map_err (authored_failure "render") sync_render in
    job_lift id (frame_result frame)).

Definition lane_close : S -> S * result unit EnvRuntimeError :=
  call "close" (job_map_err (authored_failure "close") sync_close).
End Lane.

(** *** A vector env *)

Section Vector.
Context {S : Type} `{VectorEnv S}.
Context (addr : Z) (observation_space action_space : SpaceSpec) (num_envs : nat).

(** [map(..).collect::<Result<Vec<_>>>()]. *)
Fixpoint collect_values {A B} (f : A -> option (result B Error)) (l : list A) : option (result (list B) Error) :=
  match l with
  | [] => Some (Ok [])
  | x :: l =>
      let!? y := f x in
      let!? rest := collect_values f l in
      Some (Ok (y :: rest))
  end.

Definition vector_observations (op : string) (batch : FValue)
    : option (result (list SpaceValue) EnvRuntimeError) :=
  lift_err (encode_failure op)
    (let!? lanes := unstack_lanes observation_space batch num_envs in
     collect_values (value_to_space observation_space) lanes).

Definition vector_seed (seeds : list Z) : option VectorSeed :=
  match seeds with
  | [] => None
  | [seed] => Some (One seed)
  | seeds => Some (Each seeds)
  end.

Definition served_reset (req : VectorResetRequest) : S -> S * result VectorResetResult EnvRuntimeError :=
  call "reset" (
    let options := metadata_from_wire <$> vector_options req in
    let% reply := job_map_err (authored_failure "reset") (vector_reset (vector_seed (vector_seeds req)) options) in
    let% observations := job_lift id (vector_observations "reset" reply.1) in
    let% info := job_lift id (info_to_wire "reset" reply.2) in
    job_return (mkVectorResetResult observations info [])).

Definition served_step (actions : list SpaceValue) : S -> S * result VectorStepResult EnvRuntimeError :=
  call "step" (
    let% lanes := job_lift invalid_value (collect_values (value_from_space action_space) actions) in
    let% batch := job_lift invalid_value (stack_lanes addr action_space lanes) in
    let% reply := job_map_err (authored_failure "step") (vector_step batch) in
    let% observations := job_lift id (vector_observations "step" (vo_observation reply)) in
    let% info := job_lift id (info_to_wire "step" (vo_info reply)) in
    job_return (mkVectorStepResult observations (vo_rewards reply) (vo_terminated reply)
      (vo_truncated reply) info [])).

Definition served_render (env_index : option nat) : S -> S * result (option (list byte)) EnvRuntimeError :=
  let lane := default 0%nat env_index in
  call "render" (
    let% frames := job_map_err (authored_failure "render") vector_render in
    let% frame := job_lift (encode_failure "render")
      match frames with
      | Some (FList items | FTuple items) => Some (Ok (items !! lane))
      | Some (FTensor t) => let!? parts := facade_unstack t in Some (Ok (FTensor <$> parts !! lane))
      | Some other => let!? first := first_item other in Some (Ok (Some first))
      | None => Some (Ok None)
      end in
    job_lift id (frame_result frame)).

Definition served_close : S -> S * result unit EnvRuntimeError :=
  call "close" (job_map_err (authored_failure "close") vector_close).
End Vector.
End Frames.
End Serve.
