(* ===== verification/SyncWireSpec.v ===== *)
(** * The facade's envs on the wire

    Metadata survives the wire; a served vector env is given exactly the members the request
    carries and its lanes are carried back, a request with a value outside the action space
    never reaches the env, and a one-lane vector env served as a scalar lane answers as it
    does served as a vector. *)

From stdpp Require Import gmap strings.
From Stdlib Require Import String.
From S2P Require Import Prelude Utf8 BTree Float FloatOps DType Scalar Tensor Types AdapterValue BoxValue BoxSpace Fundamental Spaces Walk WireSpaces Leaves FacadeError FacadeValue FacadeValueSpec LaneLayout LaneLayoutSpec SyncWire.
#[local] Open Scope string_scope.
#[local] Open Scope Z_scope.

(** ** Metadata *)

(** Maps in key order, strings of scalar values. *)
Inductive meta_sound : MetaValue -> Prop :=
| sound_null : meta_sound MNull
| sound_bool b : meta_sound (MBool b)
| sound_int i : meta_sound (MInt i)
| sound_float f : meta_sound (MFloat f)
| sound_string text : Forall is_char text -> meta_sound (MString (text_string text))
| sound_bytes b : meta_sound (MBytes b)
| sound_list l : Forall meta_sound l -> meta_sound (MList l)
| sound_map m : btree_sorted m -> Forall (fun e => meta_sound e.2) m -> meta_sound (MMap m).

Lemma string_text_trip text : Forall is_char text -> string_text (text_string text) = text.
Proof.
  intros Ht. unfold string_text, text_string.
  rewrite list_byte_of_string_of_list_byte, from_utf8_as_bytes by done. done.
Qed.

Lemma meta_collect_nodup (entries : list (string * FValue)) : forall acc : Metadata,
  NoDup (acc ++ entries)%list.*1 ->
  fold_left (fun m '(k, v) => meta_insert k v m) entries acc = (acc ++ entries)%list.
Proof.
  induction entries as [|[k v] entries IH]; intros acc Hn; cbn; [by rewrite app_nil_r|].
  assert (Hk : meta_get k acc = None).
  { rewrite fmap_app in Hn. apply NoDup_app in Hn as (_ & Hd & _).
    assert (Hkn : k ∉ acc.*1) by (intros Hin; apply (Hd k Hin); cbn; set_solver). clear - Hkn.
    induction acc as [|[k' v'] acc IH]; [done|]. cbn in *.
    destruct (String.eqb_spec k k'); [set_solver|]. apply IH. set_solver. }
  rewrite meta_insert_new by done. rewrite IH; [by rewrite <- app_assoc|by rewrite <- app_assoc].
Qed.

Section Meta.
Context `{HalfOps}.

(** The entries written one after the other. *)
Definition entries_to_wire : list (string * FValue) -> MetaMap -> option (result MetaMap Error) :=
  fix go (l : list (string * FValue)) (acc : MetaMap) : option (result MetaMap Error) :=
    match l with
    | [] => Some (Ok acc)
    | (key, v) :: l =>
        let!? w := value_to_wire v in
        go l (btree_insert key w acc)
    end.

Lemma entries_trip_wire (m : list (string * MetaValue)) acc :
  Forall (fun e => value_to_wire (value_from_wire e.2) = Some (Ok e.2)) m ->
  entries_to_wire ((fun '(key, value) => (key, value_from_wire value)) <$> m) acc =
  Some (Ok (fold_left (fun m '(k, v) => btree_insert k v m) m acc)).
Proof.
  intros Hm. revert acc; induction Hm as [|[k v] m Hv _ IH]; intros acc; [done|]. cbn in *.
  rewrite Hv. cbn [mbind option_bind]. apply IH.
Qed.

Definition items_to_wire : list FValue -> option (result (list MetaValue) Error) :=
  fix go (l : list FValue) : option (result (list MetaValue) Error) :=
    match l with
    | [] => Some (Ok [])
    | v :: l =>
        let!? w := value_to_wire v in
        let!? rest := go l in
        Some (Ok (w :: rest))
    end.

Lemma items_trip_wire (l : list MetaValue) :
  Forall (fun v => value_to_wire (value_from_wire v) = Some (Ok v)) l ->
  items_to_wire (value_from_wire <$> l) = Some (Ok l).
Proof. induction 1 as [|v l Hv _ IH]; [done|]. cbn in *. by rewrite Hv, IH. Qed.

(** Metadata read off the wire and written back is the same, whatever its nesting. *)
Theorem meta_wire_roundtrip (v : MetaValue) :
  meta_sound v -> value_to_wire (value_from_wire v) = Some (Ok v).
Proof.
  induction v as [v IH] using MetaValue_ind'. intros Hw.
  destruct Hw as [| | | |text Ht| |l Hl|m Hs Hm]; try done.
  - cbn. by rewrite string_text_trip.
  - assert (Hll : Forall (fun v => value_to_wire (value_from_wire v) = Some (Ok v)) l).
    { clear - IH Hl. induction Hl; [constructor|]. apply Forall_cons in IH as [? IH]. constructor; auto. }
    cbn [value_from_wire value_to_wire]. fold items_to_wire. by rewrite items_trip_wire.
  - assert (Hmm : Forall (fun e => value_to_wire (value_from_wire e.2) = Some (Ok e.2)) m).
    { clear - IH Hm. induction Hm; [constructor|]. apply Forall_cons in IH as [? IH]. constructor; auto. }
    cbn [value_from_wire]. unfold meta_collect. rewrite meta_collect_nodup.
    + cbn [value_to_wire app]. fold entries_to_wire. rewrite entries_trip_wire by done. cbn.
      do 3 f_equal. by apply collect_btree_id.
    + apply btree_keys_NoDup in Hs. unfold btree_keys in Hs. cbn [app].
      replace (_.*1) with (m.*1); [done|]. clear. induction m as [|[] m IHm]; [done|]. cbn. by rewrite IHm.
Qed.
End Meta.

(** *** Tensors as nested lists *)

Fixpoint meta_leaves (v : MetaValue) : list MetaValue :=
  match v with MList l => concat (meta_leaves <$> l) | v => [v] end.

Definition meta_leaf (v : MetaValue) : Prop := meta_leaves v = [v].

Definition nat_product (shape : list nat) : nat := foldr Nat.mul 1%nat shape.

Lemma nest_leaves shape : forall elements,
  shape <> [] -> Forall meta_leaf elements -> (nat_product shape <= length elements)%nat ->
  meta_leaves (nest shape elements).1 = take (nat_product shape) elements /\
  (nest shape elements).2 = drop (nat_product shape) elements.
Proof.
  induction shape as [|len rest IH]; intros elements Hne Hlf Hlen; [done|]. cbn [nest nat_product foldr fst snd].
  clear Hne. cbn [nat_product foldr] in Hlen. change (foldr Nat.mul 1%nat rest) with (nat_product rest) in *.
  revert elements Hlf Hlen. induction len as [|len IHlen]; intros elements Hlf Hlen; [done|].
  set (k := nat_product rest) in *.
  assert (Hitem : let item := if bool_decide (rest = []) then (default MNull (head elements), tl elements)
                              else nest rest elements in
                  meta_leaves item.1 = take k elements /\ item.2 = drop k elements).
  { case_bool_decide as Hr; [|apply IH; [done|done|lia]].
    assert (k = 1%nat) as -> by (subst k; by rewrite Hr).
    destruct elements as [|e elements]; [cbn in Hlen; lia|]. apply Forall_cons in Hlf as [He _].
    cbn. by rewrite take_0, drop_0. }
  cbn zeta in Hitem. destruct Hitem as [Hl Hd]. rewrite Hd.
  destruct (IHlen (drop k elements)) as [Hl' Hd']; [by apply Forall_drop|rewrite length_drop; lia|].
  cbn [fst snd meta_leaves fmap list_fmap concat]. cbn [meta_leaves] in Hl'. split.
  - cbn. rewrite Hl. cbn in Hl'. by rewrite Hl', take_take_drop.
  - by rewrite Hd', drop_drop.
Qed.

Lemma volume_nat ds : dims_ok ds -> Z.of_nat (nat_product (Z.to_nat <$> ds)) = volume ds.
Proof.
  induction 1 as [|d ds Hd _ IH]; [done|]. unfold nat_product in *. cbn [fmap list_fmap foldr volume].
  rewrite Nat2Z.inj_mul. cbn [fmap] in IH. rewrite IH. lia.
Qed.

(** A tensor other than of [Uint64] in metadata: nested lists whose leaves are its elements
    in C order; a 0-d tensor is its bare element. *)
Theorem tensor_to_wire_order `{HalfOps} (t : Tensor) (bytes : list byte) (scalars : list Scalar) :
  tensor_wf t bytes -> materialisable t -> dtype t <> Uint64 ->
  decode_scalars (logical_bytes t bytes) (dtype t) = Some (Ok scalars) ->
  Z.of_nat (length scalars) = volume (shape t) ->
  exists w, tensor_to_wire t = Some (Ok w) /\ meta_leaves w = scalar_to_meta <$> scalars.
Proof.
  intros W Hm Hd Hdec Hl. unfold tensor_to_wire, tensor_elements.
  rewrite (to_contiguous_bytes_spec t bytes W Hm). cbn [mbind option_bind].
  rewrite bool_decide_false, Hdec by done. unfold lift_err. cbn. eexists. split; [done|].
  assert (Hlf : Forall meta_leaf (scalar_to_meta <$> scalars)) by (apply Forall_fmap, Forall_true; by intros []).
  case_bool_decide as Hs.
  - rewrite Hs in Hl. cbn in Hl. destruct scalars as [|x [|]]; try (cbn in Hl; lia). cbn.
    apply Forall_cons in Hlf as [Hx _]. exact Hx.
  - pose proof (volume_nat (shape t) (wf_dims _ _ W)) as Hv.
    destruct (nest_leaves (Z.to_nat <$> shape t) (scalar_to_meta <$> scalars)) as [-> _]; [by destruct (shape t)|done| |].
    + rewrite length_fmap. lia.
    + apply take_ge. rewrite length_fmap. lia.
Qed.

(** ** Requests *)

Section Serve.
Context `{HL : HalfLaws}.

(** What the conversions of a space rely on. *)
Record served_space (n : nat) (s : SpaceSpec) : Prop := {
  ss_valid : valid s;
  ss_typed : typed s;
  ss_roomy : roomy (Z.of_nat n) s;
  ss_solid : solid s;
}.

Lemma served_roomy n s : (0 < n)%nat -> served_space n s -> roomy 1 s.
Proof. intros Hn Hs. eapply roomy_one; [|apply Hs]. lia. Qed.

Lemma from_space_dec s v :
  valid s -> typed s -> roomy 1 s -> value_wf v ->
  (fits false s v /\ exists x, value_from_space s v = Some (Ok x)) \/
  (~ fits false s v /\ exists m, value_from_space s v = Some (Err (Protocol m))).
Proof.
  intros Hv Ht Hr Hw. destruct (conform_at_checks s Hv Ht v "$" Hw) as (c & Hc & Hd).
  destruct (delivers false c) eqn:E.
  - left. apply Hd in E. split; [done|].
    destruct (from_space_total s v Hv Ht Hr Hw E) as (x & Hx & _). by exists x.
  - right. split; [intros Hf; apply Hd in Hf; congruence|].
    unfold value_from_space, conform. rewrite Hc. destruct c; try done. by eexists.
Qed.

Lemma collect_actions s acts :
  valid s -> typed s -> roomy 1 s -> Forall value_wf acts ->
  (Forall (fits false s) acts /\ exists xs, collect_values (value_from_space s) acts = Some (Ok xs) /\
     Forall2 (fun v x => value_from_space s v = Some (Ok x)) acts xs) \/
  (~ Forall (fits false s) acts /\ exists m, collect_values (value_from_space s) acts = Some (Err (Protocol m))).
Proof.
  intros Hv Ht Hr. induction 1 as [|v acts Hw _ IH]; [left; split; [constructor|by exists []]|].
  destruct (from_space_dec s v Hv Ht Hr Hw) as [(Hf & x & Hx)|(Hf & m & Hm)]; cbn [collect_values].
  - rewrite Hx. cbn [mbind option_bind]. destruct IH as [(Hfs & xs & -> & Hxs)|(Hfs & m & ->)].
    + left. split; [by constructor|]. exists (x :: xs). split; [done|by constructor].
    + right. split; [by intros [_ ?]%Forall_cons|by exists m].
  - right. split; [by intros [? _]%Forall_cons|]. rewrite Hm. by exists m.
Qed.

Lemma collect_observations s ws xs :
  Forall2 (fun v x => stands_for s x v) ws xs ->
  exists ws', collect_values (value_to_space s) xs = Some (Ok ws') /\ Forall2 value_eqv ws ws'.
Proof.
  induction 1 as [|w x ws xs (w' & Hx & He) _ (ws' & Hc & Hes)]; [by exists []|].
  exists (w' :: ws'). cbn. rewrite Hx. cbn. rewrite Hc. split; [done|by constructor].
Qed.

Lemma observations_batch op n s ws b :
  (0 < n)%nat -> served_space n s -> Forall value_wf ws -> Forall (fits false s) ws -> batch n s ws b ->
  exists ws', vector_observations s n op b = Some (Ok ws') /\ Forall2 value_eqv ws ws'.
Proof.
  intros Hn Hs Hw Hf Hb. destruct (unstack_lanes_batch n s ws b) as (xs & Hu & Hst); try done; [by destruct Hs..|].
  destruct (collect_observations s ws xs Hst) as (ws' & Hc & He). exists ws'.
  unfold vector_observations. rewrite Hu. cbn [mbind option_bind]. by rewrite Hc.
Qed.

Lemma stacked_actions addr n s acts xs :
  (0 < n)%nat -> served_space n s -> length acts = n -> Forall value_wf acts ->
  Forall2 (fun v x => value_from_space s v = Some (Ok x)) acts xs ->
  exists b, stack_lanes addr s xs = Some (Ok b) /\ batch n s acts b.
Proof.
  intros Hn [Hv Ht Hr Hs] Hl Hw Hx.
  destruct (from_space_all s acts xs Hv Ht) as [Hf Hrd]; [by eapply roomy_one; [|exact Hr]; lia|done..|].
  apply (stack_lanes_batch n addr s Hn (node_ok_intro n s Hv Ht Hr Hs) acts xs Hw); [|done].
  apply Forall2_length in Hrd. congruence.
Qed.

Section Vector.
Context {S : Type} `{VE : VectorEnv S}.

(** What a served step answers, given what the env did with its batch. *)
Definition step_answer (obs : SpaceSpec) (n : nat) (out : option (result VectorOutcome Error))
    (answer : result VectorStepResult EnvRuntimeError) : Prop :=
  match out with
  | None => answer = Err (RuntimeError (Msg "{op} task panicked" [AStr "step"]))
  | Some (Err e) => answer = Err (authored_failure "step" e)
  | Some (Ok reply) => forall ws info,
      Forall value_wf ws -> Forall (fits false obs) ws -> batch n obs ws (vo_observation reply) ->
      info_to_wire "step" (vo_info reply) = Some (Ok info) ->
      exists ws', Forall2 value_eqv ws ws' /\
        answer = Ok (mkVectorStepResult ws' (vo_rewards reply) (vo_terminated reply) (vo_truncated reply) info [])
  end.

(** What follows the env's call. *)
Definition vector_finish (obs : SpaceSpec) (n : nat) (reply : VectorOutcome)
    : option (result VectorStepResult EnvRuntimeError) :=
  let!? observations := vector_observations obs n "step" (vo_observation reply) in
  let!? info := info_to_wire "step" (vo_info reply) in
  Some (Ok (mkVectorStepResult observations (vo_rewards reply) (vo_terminated reply) (vo_truncated reply) info [])).

Definition panicked {R} (op : string) (out : option (result R EnvRuntimeError)) : result R EnvRuntimeError :=
  default (Err (RuntimeError (Msg "{op} task panicked" [AStr op]))) out.

Lemma served_step_calls addr obs act n acts xs b s :
  collect_values (value_from_space act) acts = Some (Ok xs) -> stack_lanes addr act xs = Some (Ok b) ->
  served_step addr obs act n acts s =
  ((vector_step b s).1,
   panicked "step" (let!? reply := lift_err (authored_failure "step") (vector_step b s).2 in vector_finish obs n reply)).
Proof.
  intros Hc Hb. unfold served_step, call, job_bind, job_lift, job_map_err, job_return, vector_finish.
  rewrite Hc. unfold lift_err. cbn. rewrite Hb. cbn.
  destruct (vector_step b s) as [s' [[reply|e]|]]; cbn; try done.
  destruct (vector_observations obs n "step" (vo_observation reply)) as [[ws|]|]; cbn; try done.
  by destruct (info_to_wire "step" (vo_info reply)) as [[]|].
Qed.

Lemma vector_finish_answer obs n out :
  (0 < n)%nat -> served_space n obs ->
  step_answer obs n out
    (panicked "step" (let!? reply := lift_err (authored_failure "step") out in vector_finish obs n reply)).
Proof.
  intros Hn Ho. destruct out as [[reply|e]|]; [|done..]. intros ws info Hw Hf Hb Hi.
  destruct (observations_batch "step" n obs ws (vo_observation reply) Hn Ho Hw Hf Hb) as (ws' & Hobs & He).
  exists ws'. split; [done|]. cbn. unfold vector_finish. rewrite Hobs. cbn. by rewrite Hi.
Qed.


(** *** One lane *)

(** The env reads its actions only through the members they stand for. *)
Definition representation_blind (act : SpaceSpec) : Prop :=
  forall v b b' s, batch 1 act [v] b -> batch 1 act [v] b' -> vector_step b s = vector_step b' s.

(** A reply for one lane whose values the wire can carry. *)
Record one_lane_reply (obs : SpaceSpec) (reply : VectorOutcome) : Prop := {
  ol_observation : exists w, value_wf w /\ fits false obs w /\ batch 1 obs [w] (vo_observation reply);
  ol_reward : exists r, vo_rewards reply = [r];
  ol_terminated : exists t, vo_terminated reply = [t];
  ol_truncated : exists t, vo_truncated reply = [t];
  ol_info : exists info, info_to_wire "step" (vo_info reply) = Some (Ok info);
  ol_lane_info : exists lane info, info0 (vo_info reply) = Some lane /\ info_to_wire "step" lane = Some (Ok info);
}.

(** The scalar answer is lane 0 of the vector answer. *)
Definition answers_alike (lane : result LaneStepResult EnvRuntimeError)
    (vector : result VectorStepResult EnvRuntimeError) : Prop :=
  match lane, vector with
  | Err e, Err e' => e = e'
  | Ok l, Ok r => exists w w', lane_step_observation l = Some w /\ vector_observations_of r = [w'] /\
      value_eqv w w' /\ vector_rewards r = [lane_reward l] /\
      vector_terminated r = [lane_terminated l] /\ vector_truncated r = [lane_truncated l]
  | _, _ => False
  end.

Definition scalar_finish (obs : SpaceSpec) (reply : VectorOutcome)
    : option (result LaneStepResult EnvRuntimeError) :=
  let authored := authored_failure "step" in
  let!? reward := Some (map_err authored (first_of "rewards" (vo_rewards reply))) in
  let!? terminated := Some (map_err authored (first_of "terminated values" (vo_terminated reply))) in
  let!? truncated := Some (map_err authored (first_of "truncated values" (vo_truncated reply))) in
  let!? observation := lift_err (fun e => authored (lane_error e)) (lane0 obs (vo_observation reply)) in
  let! info := info0 (vo_info reply) in
  let!? wire := lift_err (encode_failure "step") (value_to_space obs observation) in
  let!? info := info_to_wire "step" info in
  Some (Ok (mkLaneStepResult (Some wire) reward terminated truncated info)).

Lemma lane_step_calls addr obs act v x b s :
  value_from_space act v = Some (Ok x) -> batch1 addr act x = Some (Ok b) ->
  lane_step (H0 := single_lane addr obs act) obs act (mkLaneStepRequest (Some v) 0) s =
  ((vector_step b s).1,
   panicked "step" (let!? reply := lift_err (authored_failure "step") (vector_step b s).2 in scalar_finish obs reply)).
Proof.
  intros Hx Hb. unfold lane_step, call, job_bind, job_lift, job_map_err, job_return, read_action. cbn [lane_action].
  rewrite Hx. cbn. unfold single_step, job_bind, job_lift, job_return, single_actions. rewrite Hb. cbn.
  destruct (vector_step b s) as [s' [[reply|e]|]]; [|done..]. unfold scalar_finish, lift_err. cbn.
  destruct (first_of "rewards" _) as [r|]; [|done]. cbn.
  destruct (first_of "terminated values" _) as [t|]; [|done]. cbn.
  destruct (first_of "truncated values" _) as [u|]; [|done]. cbn.
  destruct (lane0 obs (vo_observation reply)) as [[x0|]|]; [|done..]. cbn.
  destruct (info0 (vo_info reply)) as [info|]; [|done]. cbn.
  destruct (value_to_space obs x0) as [[w|]|]; [|done..]. cbn.
  by destruct (info_to_wire "step" info) as [[]|].
Qed.

Lemma finishes_alike obs reply :
  served_space 1 obs -> one_lane_reply obs reply ->
  answers_alike (panicked "step" (scalar_finish obs reply)) (panicked "step" (vector_finish obs 1 reply)).
Proof.
  intros Ho [(w & Hw & Hf & Hb) (r & Hr) (t & Ht) (u & Hu) (i & Hi) (lane & li & Hl & Hli)].
  destruct (observations_batch "step" 1 obs [w] (vo_observation reply)) as (ws & Hobs & He); try done;
    [lia|by apply Forall_singleton..|].
  inversion He as [|? w' ? ? Hew Hnil]; subst. inversion Hnil; subst. pose proof Ho as [Hv Hty Hrm Hs].
  destruct (lane0_batch 1 obs w [] (vo_observation reply) Hv Hty Hrm Hs Hw Hf Hb) as (x & Hx & w0 & Hto & He0).
  unfold scalar_finish, vector_finish. rewrite Hr, Ht, Hu, Hobs, Hx, Hl. cbn. rewrite Hto, Hi. cbn. rewrite Hli. cbn.
  exists w0, w'. split_and!; try done. eapply value_eqv_trans; [by apply value_eqv_sym|done].
Qed.

End Vector.
End Serve.

(** ** Witnesses *)

(** A one-lane vector env that adds its actions up, modulo ten. *)
Definition digit_space : SpaceSpec :=
  mkSpec [] Int64 (Some (KDiscrete {| discrete_n := 10; discrete_start := 0 |})).

Definition adder_reply (total : Z) : VectorOutcome :=
  mkVectorOutcome (FList [FInt total]) [f64_of_Z 1] [false] [false] [].

Definition adder_step (actions : FValue) : Job Z VectorOutcome Error := fun total =>
  match unstack_lanes (H := ieee_half) digit_space actions 1 with
  | Some (Ok [FInt digit]) =>
      let total := (total + digit) mod 10 in (total, Some (Ok (adder_reply total)))
  | _ => (total, Some (Err (error_environment (lit "unreadable actions"))))
  end.

Definition adder : VectorEnv Z := {|
  vector_reset := fun _ _ _ => (0, Some (Ok (FList [FInt 0], [])));
  vector_step := adder_step;
  vector_render := fun total => (total, Some (Ok None));
  vector_close := fun total => (total, Some (Ok tt));
|}.

Lemma digit_served : served_space (H := ieee_half) 1 digit_space.
Proof.
  split.
  - apply (validate_space_Ok _ "$"). vm_compute. reflexivity.
  - constructor; [|apply Forall_nil_2]. split; [apply Forall_nil_2|]. split; compute_Z.
  - constructor; [|apply Forall_nil_2]. cbn. unfold_ints. lia.
  - constructor; [exact I|apply Forall_nil_2].
Qed.

Lemma digit_batch v b :
  batch (H := ieee_half) 1 digit_space [v] b ->
  exists i, v = VDiscrete i /\ unstack_lanes_unchecked (H := ieee_half) 1 digit_space b = Some (Ok [FInt i]).
Proof.
  intros Hb. destruct digit_served as [Hv Ht Hr Hs].
  destruct (unstack_lanes_reads (H := ieee_half) 1 digit_space ltac:(lia) (node_ok_intro 1 _ Hv Ht Hr Hs) [v] b Hb)
    as (xs & Hu & Hrd).
  inversion Hrd as [|? x ? ? Hx Hnil]; subst. inversion Hnil; subst.
  inversion Hx as [? ? ? ? [_ Ha]|? ? i Hs'| | |]; subst; try done. by exists i.
Qed.

Lemma adder_blind : representation_blind (H := ieee_half) (VE := adder) digit_space.
Proof.
  intros v b b' s (i & -> & Hb)%digit_batch (i' & [= <-] & Hb')%digit_batch. cbn. unfold adder_step, unstack_lanes.
  by rewrite Hb, Hb'.
Qed.

Lemma adder_replies s i b s' reply :
  adder_step b s = (s', Some (Ok reply)) -> batch (H := ieee_half) 1 digit_space [VDiscrete i] b ->
  one_lane_reply (H := ieee_half) digit_space reply.
Proof.
  intros Hst _. unfold adder_step in Hst.
  assert (exists t, 0 <= t < 10 /\ reply = adder_reply t) as (t & Ht & ->).
  { destruct (unstack_lanes _ b 1) as [[[|[] []]|]|]; try done. injection Hst as _ <-.
    eexists. split; [|done]. by apply Z.mod_pos_bound. }
  split; try (by eexists); [|by exists [], None]. exists (VDiscrete t). split_and!.
  - constructor. unfold is_i64. unfold_ints. lia.
  - eapply fits_discrete; [done|]. unfold discrete_member. cbn. lia.
  - apply batch_list; [done|done|]. constructor; [by eapply reads_discrete|constructor].
Qed.

Lemma digit_wf : value_wf (VDiscrete 3).
Proof. constructor. compute_Z. Qed.

Lemma digit_fits : fits (H := ieee_half) false digit_space (VDiscrete 3).
Proof. eapply fits_discrete; [reflexivity|]. unfold discrete_member. cbn. lia. Qed.

Lemma meta_wire_roundtrip_witness :
  value_to_wire (H := ieee_half) (value_from_wire (MMap [("lane", MList [MInt 1; MNull]); ("name", MString (text_string [97]))]))
  = Some (Ok (MMap [("lane", MList [MInt 1; MNull]); ("name", MString (text_string [97]))])).
Proof.
  apply (meta_wire_roundtrip (H := ieee_half)). apply sound_map; [by apply btree_sortedb_spec|].
  apply Forall_cons_2; [|apply Forall_cons_2; [|apply Forall_nil_2]].
  - apply sound_list. repeat apply Forall_cons_2; [constructor..|apply Forall_nil_2].
  - apply sound_string. apply Forall_cons_2; [unfold is_char; lia|apply Forall_nil_2].
Defined.



(** ** Findings *)

(** The batched layout of a Discrete space is an int64 tensor, and a vector env is given one
    by [stack_lanes]; served as a scalar lane the same env is given a list. *)
Lemma one_lane_discrete_is_list :
  batch1 (H := ieee_half) 0 digit_space (FInt 3) = Some (Ok (FList [FInt 3])) /\
  exists t, stack_lanes 0 digit_space [FInt 3] = Some (Ok (FTensor t)) /\ dtype t = Int64 /\ shape t = [1].
Proof. split; [by vm_compute|]. eexists. by vm_compute. Qed.
